(* ===== verification/_CoqProject ===== *)
-Q . S2P
Prelude.v
GoStd.v
Chunker.v
Wal.v
WriterLease.v
NodeEpoch.v
E2EE.v
Pricing.v
Budget.v
SessionLog.v
SessionLogProofs.v
Ids.v
Provision.v
Pool.v
Lifecycle.v
Control.v
ControlProofs.v
EventStore.v
EventLog.v
EventExport.v
Outbox.v
ReleaseJournal.v
Recovery.v
Broker.v
BrokerProofs.v
Replicate.v
ReplicateProofs.v
CollectProofs.v
Capture.v
Agents.v
AgentsProofs.v
AgentsTheorems.v
Delegation.v
Holds.v
HoldsProofs.v
HoldsTheorems.v
Identity.v
IdentityProofs.v
IdentityTheorems.v
