(* ===== verification/Prelude.v ===== *)
(** * Remount: a verification development

    Remount moves running workspaces between machines.  A control plane
    ([src/internal/control]) owns the workspace records and decides which
    node may run which workspace; nodes ([src/internal/node]) run them,
    keep session logs and ship artifacts; clients and agents reach them
    through a relay that can carry end-to-end encrypted frames.  This
    library translates the parts that carry the guarantees into executable
    definitions and proves the guarantees about the translation.

    ** Which file models which part

    - [Prelude], [GoStd]: results and errors, machine integers, the list
      and map lemmas the components share, and the pieces of Go's standard
      library the sources use (string functions, saturating durations,
      encoding/binary, sorting).
    - [Lifecycle] ([control/state_machine.go], [proto/types.go]): the
      workspace record, the rule table and [transitionWorkspace].
    - [Control] ([control/control.go]): the bodies of the handlers between
      lock and unlock, one definition per locked section, each taking the
      outcome of its SQL transaction; the durable rows are a second copy
      of the state, which [restart] reads back; also the retention of
      records ([PruneRecords]) and the sections of fleet operations.
    - [ControlProofs]: sequences of requests, the abstract authority
      machine and the theorems about both.
    - [WriterLease] ([control/replicate/lease.go]): the single-writer lease
      of the controller over an object store with compare-and-swap; the
      store, the clocks and lost responses are steps of a relation.
    - [Wal] ([control/replicate/wal.go]): the scan of SQLite's write-ahead
      log that decides what may be shipped.
    - [NodeEpoch] ([node/controller_epoch.go]): the node's durable fence
      against superseded controllers.
    - [SessionLog], [SessionLogProofs] ([session/log.go]): the tiered
      session log with memory ring, spill file and sealed segments.
    - [Budget], [Pricing] ([budget/manager.go], [budget/types.go],
      [budget/pricing.go]): spend authority and price catalog.
    - [E2EE] ([e2ee/session.go], [e2ee/keys.go]): sealing, opening and the
      replay window.
    - [Chunker] ([artifact/chunked/chunker.go]): content-defined chunking.
    - [Pool], [Provision] ([pool/reconciler.go], [provision/*.go]): warm
      pools over a machine provider.
    - [Ids] ([ids/ids.go]): sortable identifiers.
    - [EventStore], [EventLog], [EventExport], [Outbox] ([eventlog/*.go]):
      the two stores behind one class, the subscription machine over any
      store that meets the class's laws, exporters that share a cursor, and
      the outbox that ties events to the transaction of their resource.
    - [ReleaseJournal] ([node/release_journal.go]): the node's durable record
      of each release, with failed and unsynced writes and crashes.
    - [Recovery] ([control/recovery.go], [node/controller_state.go]): how a
      promoted controller repairs its records from what the nodes report.
    - [Broker], [BrokerProofs] ([broker/broker.go], [broker/substitute.go],
      [proto/repo.go]): the egress proxy of a workspace, which replaces
      placeholders by secrets where a binding declares it; the encodings it
      calls are fields of a class.
    - [Replicate], [ReplicateProofs] ([control/replicate/shipper.go],
      [control/replicate/restore.go]): publication of recovery points by any
      number of controllers over one object store, one definition per call,
      their collection and restoration; [CollectProofs]: collections whose
      calls interleave with publications, over a common time; [Capture]
      ([control/replicate/sqlite.go]): what is captured, and the round trip
      from capture to restore.
    - [Agents] ([control/agents.go], [control/approvals.go]): agents, their
      runs and the approvals they or an egress rule wait for, as locked
      sections over the maps of the process and the rows of the database;
      [AgentsProofs]: every handler as a sequence of ten steps of that store;
      [AgentsTheorems]: the system of calls, failures and restarts.
    - [Delegation] ([control/agents.go], [proto/proto.go]): security contracts
      and egress rules, their normalization, and what a child agent may be
      given by its parent; what a contract lets out is [Broker]'s answer,
      and on the git surface that of the typed rules or of the declared
      repository ([proto/repo.go]).
    - [Holds], [HoldsProofs], [HoldsTheorems] ([control/leases.go]): holds,
      idle policies and the deadlines that follow from them; the state
      extends [Control]'s by the holds, timers and their rows, and the ticks,
      executors, fleet operations and every locked section of the handlers
      are its steps.
    - [Identity], [IdentityProofs], [IdentityTheorems]
      ([identity/identity.go], [identity/principals.go],
      [identity/sqlite.go], [identity/sqlite_principals.go]): tokens,
      principals and node enrollment.  An operation of the manager is a
      program over single calls of its store; the contract of a store is a
      class both stores are proved to meet, and the theorems hold of any
      number of interleaved requests over any such store.

    ** How effects are modelled

    A method that mutates its receiver takes and returns the receiver's
    record; an [error] return is [Err] with one constructor per error the
    code distinguishes.  What runs under one mutex is one step; a handler
    that unlocks in the middle is several definitions, so that other
    handlers interleave between them.  Code outside the repository, and
    every fault it may show (a failing transaction, a provider error, a
    crash, a lost response, an AEAD cipher, a hash), is an argument:
    either a function or class with named hypotheses, or the outcome of
    that call.  Counters of machine width are [Z] with the wrap written
    out ([u64], [u32], [i64]).

    ** What the theorems show

    - Authority: [one_holder_per_generation], [handlers_refine_authority],
      [lifecycle_is_monotone], [renewal_only_for_the_current_holder],
      [restart_preserves_authority], [revocations_are_never_missed];
      between controllers [at_most_one_decider] and
      [later_decider_has_higher_epoch]; at the node
      [accepted_epoch_is_a_fence] and, composing both,
      [superseded_controller_refused].
    - Data: [read_is_truthful], [no_chunk_is_lost],
      [terminal_hidden_until_committed], [successful_log_replays_completely]
      and their companions for session logs;
      [chunker_independent_of_fragmentation], [chunks_lossless_and_bounded]
      for artifacts; [committed_prefix_is_storable] for the WAL.
    - Money: [admission_within_limits], idempotence and finality of
      settlements, [sweeping_never_frees_allowance], [estimate_is_exact].
    - Machines: [pool_never_overcommits], [reconcile_acts_once_and_fenced],
      [provider_failures_back_off], [pools_are_isolated].
    - Secrecy: [no_record_accepted_twice], [window_refines_accepted_set],
      [nonces_never_reused], [recordAAD_injective], [open_inverts_seal].
    - Failover: [recovery_restores_reported_authority] for the promoted
      controller, [accepted_abort_is_a_fence] for the node's journal.
    - Events: [outbox_delivers_exactly_once],
      [subscriber_misses_no_retained_event], [export_never_skips],
      [export_delivers_the_range].
    - Credentials: [only_spendable_secrets_matter] (noninterference),
      [forwarded_credentials_are_authorized], [refused_request_is_untouched],
      [substitution_is_one_pass], [rule_budget_is_never_exceeded].
    - Progress: [abandoned_lease_is_taken_over].
    - Replication: [recovery_point_is_restorable],
      [recovery_point_never_regresses], [shipped_capture_is_restored],
      [promotion_restores_the_committed_point],
      [collection_without_interference]; [reused_snapshot_is_collected]
      shows why the first is stated with a bound on how old the objects a
      publication relies on may be.
    - Agents: [agents_have_one_live_run] (well-formedness),
      [questions_end_with_their_run], [acknowledged_report_is_taken_once],
      [accepted_decision_is_final], [egress_is_allowed_by_a_human].
    - Delegation: [child_is_bounded_by_its_parent],
      [normalization_never_weakens].
    - Holds: [deadline_and_timer_agree],
      [deadline_fires_no_earlier_than_promised], [due_deadline_is_executed],
      [expiry_gives_up_after_five_attempts] (termination),
      [tenant_holds_within_quota].
    - Identity: [revoked_principal_is_locked_out],
      [spent_token_is_refused], [authenticated_subject_is_current],
      [node_is_what_its_enrollment_grants],
      [session_capability_is_scoped], [issued_token_authenticates],
      [enrollments_within_capacity].

    Twenty-two theorems record behaviour the code does not mean to have:
    [released_snapshot_is_not_recorded],
    [transient_seal_failure_breaks_completion],
    [other_tenant_spend_denies_admission],
    [retention_race_skips_silently], [completed_abort_blocks_recovery],
    [path_scope_ignores_dot_segments],
    [transient_pointer_failure_fences_the_controller],
    [failed_message_is_queued_twice], [denied_request_may_go_out],
    [child_may_drop_a_denying_rule], [child_may_widen_its_sandbox],
    [child_may_name_a_repository], [destroy_misses_a_replaced_workspace],
    [moved_workspace_is_still_destroyed], [fleet_destroy_keeps_the_deadline],
    [stranded_deadline_is_never_retried], [late_finish_ends_a_new_hold],
    [hold_renewed_asleep_never_expires], [rotation_outruns_revocation],
    [spent_refresh_token_revives], [racing_issue_signs_unassigned_roles]
    and [fractional_lifetime_is_refused].

    ** Fuel and bounds

    Loops over data recurse on the data.  Loops bounded by a counter or a
    remaining length (chunker fill, WAL scan, spill reading) take fuel, and
    each is used with an amount proved to be enough, so that no theorem
    holds only because a loop stopped early.

    ** Not modelled

    Process supervision, containers, networking, HTTP and the command line
    are I/O.  Wire codecs and the ACP types are generated or delegate to
    libraries.  Event payloads, metrics and logging do not feed back into
    the state.
    The sinks of the event log are I/O, and its outbox is modelled for a
    store that shares the database of the resource rows.  The steps
    that drive a runtime through a release are only the journal operations
    they make.
    The validation of an agent's specification, forks and the transcript
    mirror are left out.
    Tokens of external issuers (OIDC and JWKS) and the file of the signing
    key are not modelled; Ed25519 and encoding/json are parameters, and a
    token that is presented comes from the deployment.
    Retention of records is a step of the authority system of
    [ControlProofs] and, for timers, of the system of [HoldsTheorems]; that
    it also deletes destroyed workspaces with their agents and approvals is
    not a step of the systems of [HoldsTheorems] and [AgentsTheorems].
    Fleet operations are steps of [HoldsTheorems] only, and which operation
    quarantined a workspace is not in the state.

    ** Plan

    Left for later work: credential leases of the control plane, the tenant
    directory, volume garbage collection, runtime profiles, OIDC. *)

From Stdlib Require Import ZArith Lia Strings.Byte Strings.String Strings.Ascii.
From stdpp Require Import base list gmap strings sorting option.

#[local] Open Scope Z_scope.

(** ** Results

    Go functions return a value and an [error]; the model returns one of the
    two.  [Ok] is the path on which the error is nil. *)

Inductive result (E A : Type) : Type :=
| Ok (a : A)
| Err (e : E).
Arguments Ok {E A} a.
Arguments Err {E A} e.

Declare Scope remount_scope.
Delimit Scope remount_scope with rm.
#[global] Open Scope remount_scope.

Notation "'let?' x ':=' c 'in' k" :=
  (match c with Ok x => k | Err e => Err e end)
  (at level 10, x pattern, c at level 100, k at level 200) : remount_scope.

Definition is_ok {E A} (r : result E A) : bool :=
  match r with Ok _ => true | Err _ => false end.

Definition guard_err {E} (b : bool) (e : E) : result E unit :=
  if b then Err e else Ok tt.

(** ** Machine integers

    Counters keep the width Go gives them.  A [uint64] is a [Z] in
    [0, 2^64), an [int64] a [Z] in [-2^63, 2^63). *)

Definition maxInt64 : Z := 2 ^ 63 - 1.
Definition minInt64 : Z := - 2 ^ 63.
Definition maxUint64 : Z := 2 ^ 64 - 1.

Definition u64 (z : Z) : Z := z mod 2 ^ 64.
Definition u32 (z : Z) : Z := z mod 2 ^ 32.
Definition i64 (z : Z) : Z := (z + 2 ^ 63) mod 2 ^ 64 - 2 ^ 63.

Definition is_u64 (z : Z) : Prop := 0 <= z < 2 ^ 64.
Definition is_i64 (z : Z) : Prop := - 2 ^ 63 <= z < 2 ^ 63.

Lemma u64_small z : 0 <= z < 2 ^ 64 -> u64 z = z.
Proof. intros; unfold u64; apply Z.mod_small; lia. Qed.

Lemma u64_range z : 0 <= u64 z < 2 ^ 64.
Proof. unfold u64; apply Z.mod_pos_bound; lia. Qed.

Lemma i64_small z : is_i64 z -> i64 z = z.
Proof. unfold is_i64, i64; intros; rewrite Z.mod_small; lia. Qed.

(** Go's [time.Duration] between two instants saturates at the [int64]
    range; [time.Time] itself is modelled as nanoseconds since the zero
    [time.Time], so that [IsZero] is [t = 0]. *)

Definition time_sub (a b : Z) : Z := Z.max minInt64 (Z.min maxInt64 (a - b)).

Definition isZeroTime (t : Z) : bool := t =? 0.

Definition Second : Z := 1000000000.
Definition Millisecond : Z := 1000000.
Definition Minute : Z := 60 * Second.
Definition Hour : Z := 60 * Minute.

(** ** Bytes *)

Definition byte_val (b : byte) : Z := Z.of_N (Byte.to_N b).

Definition byte_of (z : Z) : byte :=
  match Byte.of_N (Z.to_N (z mod 256)) with Some b => b | None => x00 end.

#[export] Instance byte_eq_dec : EqDecision byte := Byte.byte_eq_dec.

Lemma byte_val_range b : 0 <= byte_val b < 256.
Proof. unfold byte_val. pose proof (Byte.to_N_bounded b). lia. Qed.

Lemma byte_val_of z : byte_val (byte_of z) = z mod 256.
Proof.
  unfold byte_val, byte_of.
  pose proof (Z.mod_pos_bound z 256 ltac:(lia)) as Hb.
  destruct (Byte.of_N (Z.to_N (z mod 256))) as [b|] eqn:E.
  - apply Byte.to_of_N in E. rewrite E. lia.
  - apply Byte.of_N_None_iff in E. lia.
Qed.

Lemma byte_of_val b : byte_of (byte_val b) = b.
Proof.
  unfold byte_of, byte_val.
  rewrite Z.mod_small by (pose proof (Byte.to_N_bounded b); lia).
  rewrite N2Z.id, Byte.of_to_N. reflexivity.
Qed.

(** [encoding/binary]'s big- and little-endian readers and writers.  A
    reader takes the bytes it is given, as the Go functions take a slice of
    the exact width. *)

Fixpoint be_combine_acc (acc : Z) (l : list byte) : Z :=
  match l with
  | [] => acc
  | b :: t => be_combine_acc (acc * 256 + byte_val b) t
  end.
Definition be_combine (l : list byte) : Z := be_combine_acc 0 l.

Fixpoint be_split (n : nat) (z : Z) : list byte :=
  match n with
  | O => []
  | S n' => byte_of (z / 256 ^ Z.of_nat n') :: be_split n' z
  end.

Definition le_combine (l : list byte) : Z := be_combine (reverse l).

Lemma length_be_split n z : length (be_split n z) = n.
Proof. induction n; simpl; congruence. Qed.

Lemma be_combine_acc_split n : forall acc z,
  be_combine_acc acc (be_split n z) = acc * 256 ^ Z.of_nat n + z mod 256 ^ Z.of_nat n.
Proof.
  induction n as [|n IH]; intros acc z.
  - change (256 ^ Z.of_nat 0) with 1. cbn [be_split be_combine_acc]. rewrite Z.mod_1_r. lia.
  - cbn [be_split be_combine_acc]. rewrite IH, byte_val_of.
    rewrite Nat2Z.inj_succ, Z.pow_succ_r by lia.
    rewrite (Z.mul_comm 256 (256 ^ Z.of_nat n)), Z.rem_mul_r by lia.
    lia.
Qed.

Lemma be_combine_split n z :
  0 <= z < 256 ^ Z.of_nat n -> be_combine (be_split n z) = z.
Proof.
  intros. unfold be_combine. rewrite be_combine_acc_split, Z.mod_small by lia. lia.
Qed.

Lemma be_combine_acc_app l1 l2 acc :
  be_combine_acc acc (l1 ++ l2) = be_combine_acc (be_combine_acc acc l1) l2.
Proof. revert acc; induction l1; simpl; auto. Qed.

(** ** Slices

    [slice l off n] is Go's [l[off:off+n]] for offsets inside the slice. *)

Definition slice {A} (l : list A) (off n : nat) : list A := take n (drop off l).

Lemma length_slice {A} (l : list A) off n :
  (off + n <= length l)%nat -> length (slice l off n) = n.
Proof. intros. unfold slice. rewrite length_take, length_drop. lia. Qed.

Lemma slice_app_exact {A} (pre x post : list A) :
  slice (pre ++ x ++ post) (length pre) (length x) = x.
Proof. unfold slice. rewrite drop_app_length, take_app_length. reflexivity. Qed.

(** ** Strings *)

(** A Go string's length is its number of bytes. *)
Definition string_len (s : string) : Z := Z.of_nat (String.length s).

Definition str_eqb (a b : string) : bool := String.eqb a b.
Notation "a =s b" := (str_eqb a b) (at level 70, no associativity) : remount_scope.
Notation "a <>s b" := (negb (str_eqb a b)) (at level 70, no associativity) : remount_scope.

Lemma str_eqb_eq a b : (a =s b) = true <-> a = b.
Proof. apply String.eqb_eq. Qed.

Lemma str_eqb_refl a : (a =s a) = true.
Proof. apply String.eqb_refl. Qed.

Lemma str_eqb_neq a b : (a =s b) = false <-> a <> b.
Proof. apply String.eqb_neq. Qed.

(** Go's [a < b] on strings compares bytes lexicographically. *)
Definition str_leb (a b : string) : bool := String.leb a b.

(** [slices.Contains] and its hand-written copies in the source. *)
Fixpoint contains (values : list string) (target : string) : bool :=
  match values with
  | [] => false
  | v :: t => if v =s target then true else contains t target
  end.

Lemma contains_spec values target : contains values target = true <-> target ∈ values.
Proof.
  induction values as [|v t IH]; simpl.
  - split; [discriminate|intros H; inversion H].
  - destruct (v =s target) eqn:E.
    + apply str_eqb_eq in E as ->. split; [intros; left|auto].
    + apply str_eqb_neq in E. rewrite IH, elem_of_cons. intuition congruence.
Qed.

(** ** Automation *)

Create HintDb rm discriminated.
Create Rewrite HintDb rm.
#[export] Hint Resolve str_eqb_refl : rm.
#[export] Hint Rewrite str_eqb_refl @length_be_split : rm.

(** Turn boolean tests of the source in the context into propositions. *)
Ltac bool_hyp :=
  repeat match goal with
    | H : (_ && _)%bool = true |- _ => apply andb_true_iff in H as [? ?]
    | H : (_ || _)%bool = false |- _ => apply orb_false_iff in H as [? ?]
    | H : negb _ = true |- _ => apply negb_true_iff in H
    | H : negb _ = false |- _ => apply negb_false_iff in H
    | H : str_eqb _ _ = true |- _ => apply str_eqb_eq in H
    | H : str_eqb _ _ = false |- _ => apply str_eqb_neq in H
    | H : (_ <? _) = true |- _ => apply Z.ltb_lt in H
    | H : (_ <? _) = false |- _ => apply Z.ltb_ge in H
    | H : (_ <=? _) = true |- _ => apply Z.leb_le in H
    | H : (_ <=? _) = false |- _ => apply Z.leb_gt in H
    | H : (_ =? _) = true |- _ => apply Z.eqb_eq in H
    | H : (_ =? _) = false |- _ => apply Z.eqb_neq in H
    end.

(** Decide the integer tests of the goal that the context settles. *)
Ltac zb :=
  repeat match goal with
    | |- context [?a <? ?b] =>
        first [rewrite (proj2 (Z.ltb_ge a b)) by lia | rewrite (proj2 (Z.ltb_lt a b)) by lia]
    | |- context [?a <=? ?b] =>
        first [rewrite (proj2 (Z.leb_gt a b)) by lia | rewrite (proj2 (Z.leb_le a b)) by lia]
    | |- context [?a =? ?b] =>
        first [rewrite (proj2 (Z.eqb_neq a b)) by lia | rewrite (proj2 (Z.eqb_eq a b)) by lia]
    end; cbn [orb andb negb].

(** Case on the innermost condition of a translated handler. *)
Ltac step_if :=
  match goal with
  | |- context [if ?b then _ else _] =>
      lazymatch b with
      | context [if _ then _ else _] => fail
      | context [match _ with _ => _ end] => fail
      | _ => let E := fresh "E" in destruct b eqn:E
      end
  | H : context [if ?b then _ else _] |- _ =>
      lazymatch b with
      | context [if _ then _ else _] => fail
      | context [match _ with _ => _ end] => fail
      | _ => let E := fresh "E" in destruct b eqn:E
      end
  end.

Ltac step_match :=
  match goal with
  | H : context [match ?x with _ => _ end] |- _ =>
      lazymatch x with
      | context [match _ with _ => _ end] => fail
      | _ => let E := fresh "E" in destruct x eqn:E
      end
  | |- context [match ?x with _ => _ end] =>
      lazymatch x with
      | context [match _ with _ => _ end] => fail
      | _ => let E := fresh "E" in destruct x eqn:E
      end
  end.

(** ** A self-describing codec

    Sources that call a codec take it as a parameter; this one, which works for
    every countable type, shows that such parameters exist. *)

#[export] Instance byte_countable : Countable byte :=
  inj_countable byte_val (fun z => Some (byte_of z)) (fun b => f_equal Some (byte_of_val b)).

Fixpoint bits_of (p : positive) : list byte :=
  match p with xH => [] | xO q => x00 :: bits_of q | xI q => x01 :: bits_of q end.

Fixpoint of_bits (l : list byte) : positive :=
  match l with
  | [] => xH
  | b :: t => if bool_decide (b = x00) then xO (of_bits t) else xI (of_bits t)
  end.

Lemma of_bits_of p : of_bits (bits_of p) = p.
Proof. induction p as [p IH|p IH|]; cbn; [by rewrite IH..|done]. Qed.

Definition wire {A} `{Countable A} (a : A) : list byte := bits_of (encode a).
Definition unwire {A} `{Countable A} (l : list byte) : option A := decode (of_bits l).

Lemma unwire_wire {A} `{Countable A} (a : A) : unwire (wire a) = Some a.
Proof. unfold unwire, wire. by rewrite of_bits_of, decode_encode. Qed.

(** ** Sorting *)

(** A sort by a comparison function.  The library sorts are not stable; the
    sources sort by keys that differ, and then the result does not depend on
    the algorithm. *)
Fixpoint insert_by {A} (less : A -> A -> bool) (x : A) (l : list A) : list A :=
  match l with
  | [] => [x]
  | y :: t => if less y x then y :: insert_by less x t else x :: y :: t
  end.

Fixpoint sort_by {A} (less : A -> A -> bool) (l : list A) : list A :=
  match l with [] => [] | x :: t => insert_by less x (sort_by less t) end.

Lemma insert_by_perm {A} (less : A -> A -> bool) x l : insert_by less x l ≡ₚ x :: l.
Proof.
  induction l as [|y t IH]; [done|]. cbn. destruct (less y x); [|done].
  rewrite IH. apply Permutation_swap.
Qed.

Lemma sort_by_perm {A} (less : A -> A -> bool) l : sort_by less l ≡ₚ l.
Proof. induction l as [|x t IH]; [done|]. cbn. by rewrite insert_by_perm, IH. Qed.

(** ** Filters *)

Lemma filter_none {A} (P : A -> Prop) `{!forall x, Decision (P x)} (l : list A) :
  (forall x, x ∈ l -> ~ P x) -> filter P l = [].
Proof.
  induction l as [|a l IH]; intros HP; [done|]. rewrite filter_cons_False by (apply HP; left).
  apply IH. intros x Hx. apply HP. by right.
Qed.

Lemma filter_all {A} (P : A -> Prop) `{!forall x, Decision (P x)} (l : list A) :
  (forall x, x ∈ l -> P x) -> filter P l = l.
Proof.
  induction l as [|a l IH]; intros HP; [done|]. rewrite filter_cons_True by (apply HP; left).
  f_equal. apply IH. intros x Hx. apply HP. by right.
Qed.

Lemma list_filter_iff_in {A} (P Q : A -> Prop) `{!forall x, Decision (P x)} `{!forall x, Decision (Q x)}
    (l : list A) :
  (forall x, x ∈ l -> P x <-> Q x) -> filter P l = filter Q l.
Proof.
  induction l as [|a l IH]; intros HP; [done|]. rewrite !filter_cons.
  rewrite IH by (intros x Hx; apply HP; by right). specialize (HP a ltac:(left)).
  destruct (decide (P a)), (decide (Q a)); tauto.
Qed.

(** ** Transition systems *)

(** Reachability by a step relation, from stdpp's [rtc]; an invariant that
    holds initially and is preserved by every step holds of every reachable
    state. *)
Section reachability.
  Context {St : Type} (step : St -> St -> Prop) (I : St -> Prop).
  Hypothesis preserve : forall s s', I s -> step s s' -> I s'.

Lemma rtc_invariant s s' : rtc step s s' -> I s -> I s'.
  Proof. induction 1; eauto. Qed.
End reachability.

(** ** Generic list facts *)

Lemma Forall_take_drop {A} (P : A -> Prop) l n :
  Forall P l -> Forall P (take n l) /\ Forall P (drop n l).
Proof. intros; split; [by apply Forall_take | by apply Forall_drop]. Qed.

Lemma drop_take_slice {A} (l : list A) i j k :
  (i <= j <= k)%nat ->
  take (j - i) (drop i l) ++ take (k - j) (drop j l) = take (k - i) (drop i l).
Proof.
  intros. replace (drop j l) with (drop (j - i) (drop i l)) by (rewrite drop_drop; f_equal; lia).
  rewrite take_take_drop. f_equal. lia.
Qed.

Lemma slice_take {A} (l : list A) cut off n :
  (off + n <= cut)%nat -> slice (take cut l) off n = slice l off n.
Proof.
  intros. unfold slice. rewrite !take_drop_commute, take_take. do 2 f_equal. lia.
Qed.
