(* ===== verification/GoStd.v ===== *)
(** * The parts of Go's standard library the components use

    UTF-8 validity, [strings.TrimSpace], [unicode.IsControl] and
    [unicode.IsSpace], [encoding/hex] and [crypto/sha256], as executable
    functions.  Strings are byte strings, as in Go. *)

From Stdlib Require Import ZArith Lia Strings.Byte Strings.String Strings.Ascii.
From stdpp Require Import base list strings.
From S2P Require Import Prelude.

#[local] Open Scope Z_scope.

Module GoStd.

Definition string_bytes (s : string) : list Z := map byte_val (list_byte_of_string s).

(** ** unicode/utf8 *)

Definition in_range (lo hi b : Z) : bool := (lo <=? b) && (b <=? hi).
Definition cont (b : Z) : bool := in_range 0x80 0xBF b.

(** The accepted range of the second byte, by the first. *)
Definition second3 (b0 b1 : Z) : bool :=
  if b0 =? 0xE0 then in_range 0xA0 0xBF b1
  else if b0 =? 0xED then in_range 0x80 0x9F b1 else cont b1.
Definition second4 (b0 b1 : Z) : bool :=
  if b0 =? 0xF0 then in_range 0x90 0xBF b1
  else if b0 =? 0xF4 then in_range 0x80 0x8F b1 else cont b1.

(** The runes of a valid encoding; [None] where [utf8.Valid] is false. *)
Fixpoint utf8_decode (l : list Z) : option (list Z) :=
  match l with
  | [] => Some []
  | b0 :: t0 =>
      if in_range 0 0x7F b0 then cons b0 <$> utf8_decode t0
      else match t0 with
      | [] => None
      | b1 :: t1 =>
          if in_range 0xC2 0xDF b0 then
            if cont b1 then cons (Z.land b0 0x1F * 64 + Z.land b1 0x3F) <$> utf8_decode t1
            else None
          else match t1 with
          | [] => None
          | b2 :: t2 =>
              if in_range 0xE0 0xEF b0 then
                if second3 b0 b1 && cont b2 then
                  cons (Z.land b0 0x0F * 4096 + Z.land b1 0x3F * 64 + Z.land b2 0x3F)
                    <$> utf8_decode t2
                else None
              else match t2 with
              | [] => None
              | b3 :: t3 =>
                  if in_range 0xF0 0xF4 b0 && second4 b0 b1 && cont b2 && cont b3 then
                    cons (Z.land b0 0x07 * 262144 + Z.land b1 0x3F * 4096
                          + Z.land b2 0x3F * 64 + Z.land b3 0x3F) <$> utf8_decode t3
                  else None
              end
          end
      end
  end.

Definition runes (s : string) : option (list Z) := utf8_decode (string_bytes s).

(** ** unicode *)

Definition IsControl (r : Z) : bool := in_range 0 0x1F r || in_range 0x7F 0x9F r.

Definition IsSpace (r : Z) : bool :=
  in_range 0x09 0x0D r || (r =? 0x20) || (r =? 0x85) || (r =? 0xA0) || (r =? 0x1680)
  || in_range 0x2000 0x200A r || (r =? 0x2028) || (r =? 0x2029) || (r =? 0x202F)
  || (r =? 0x205F) || (r =? 0x3000).

Fixpoint drop_space (l : list Z) : list Z :=
  match l with
  | [] => []
  | r :: t => if IsSpace r then drop_space t else l
  end.

Definition TrimSpace (l : list Z) : list Z := reverse (drop_space (reverse (drop_space l))).

(** [strings.ToLower] on its ASCII path; the Unicode case tables beyond it are
    an argument. *)
Definition lower_byte (b : Z) : Z := if in_range 0x41 0x5A b then b + 32 else b.

Definition isASCII (s : string) : bool := forallb (fun b => b <? 0x80) (string_bytes s).

Definition of_bytes (l : list Z) : string := string_of_list_byte (map byte_of l).

Definition ToLower (unicode_lower : string -> string) (s : string) : string :=
  if isASCII s then of_bytes (map lower_byte (string_bytes s)) else unicode_lower s.

(** ** Plain identifiers

    Strings of visible ASCII are valid UTF-8, untouched by trimming and free
    of control characters. *)

Definition visible (b : Z) : bool := in_range 0x21 0x7E b.

Lemma visible_decode l : forallb visible l = true -> utf8_decode l = Some l.
Proof.
  induction l as [|b l IH]; cbn [forallb utf8_decode]; [done|].
  intros [Hb Hl]%andb_true_iff. unfold visible, in_range in *. bool_hyp.
  replace ((0 <=? b) && (b <=? 127)) with true by (symmetry; apply andb_true_iff; lia).
  by rewrite IH.
Qed.

Lemma visible_not_space b : visible b = true -> IsSpace b = false.
Proof.
  unfold visible, in_range. intros. bool_hyp. unfold IsSpace. apply not_true_iff_false.
  intros Hs. rewrite !orb_true_iff in Hs. unfold in_range in Hs.
  rewrite !andb_true_iff, !Z.leb_le, !Z.eqb_eq in Hs. lia.
Qed.

Lemma visible_not_control b : visible b = true -> IsControl b = false.
Proof.
  unfold visible, in_range. intros. bool_hyp. unfold IsControl. apply not_true_iff_false.
  intros Hs. rewrite !orb_true_iff in Hs. unfold in_range in Hs.
  rewrite !andb_true_iff, !Z.leb_le in Hs. lia.
Qed.

Lemma drop_space_visible l : forallb visible l = true -> drop_space l = l.
Proof.
  destruct l as [|b l]; cbn; [done|]. intros [Hb _]%andb_true_iff.
  by rewrite visible_not_space.
Qed.

Lemma forallb_reverse {A} (f : A -> bool) l : forallb f (reverse l) = forallb f l.
Proof.
  induction l as [|x l IH]; [done|].
  rewrite reverse_cons, forallb_app, IH. cbn. rewrite andb_true_r. apply andb_comm.
Qed.

Lemma TrimSpace_visible l : forallb visible l = true -> TrimSpace l = l.
Proof.
  intros H. unfold TrimSpace. rewrite (drop_space_visible l) by done.
  rewrite drop_space_visible by by rewrite forallb_reverse. apply reverse_involutive.
Qed.

(** ** encoding/hex *)

Definition hex_digit (n : Z) : Z := if n <? 10 then n + 0x30 else n - 10 + 0x61.

Fixpoint hex_bytes (l : list Z) : list Z :=
  match l with
  | [] => []
  | b :: t => hex_digit (b / 16 mod 16) :: hex_digit (b mod 16) :: hex_bytes t
  end.

Definition EncodeToString (l : list Z) : string := of_bytes (hex_bytes l).

Lemma length_hex_bytes l : length (hex_bytes l) = (2 * length l)%nat.
Proof. induction l; cbn [hex_bytes length]; lia. Qed.

Lemma hex_digit_visible n : 0 <= n < 16 -> visible (hex_digit n) = true.
Proof.
  intros. unfold visible, hex_digit, in_range.
  destruct (n <? 10) eqn:E; bool_hyp; apply andb_true_iff; lia.
Qed.

Lemma hex_bytes_visible l : forallb visible (hex_bytes l) = true.
Proof.
  induction l as [|b l IH]; cbn [hex_bytes forallb]; [done|].
  rewrite !hex_digit_visible, IH by (apply Z.mod_pos_bound; lia). done.
Qed.

Lemma string_bytes_of_bytes l : forallb visible l = true -> string_bytes (of_bytes l) = l.
Proof.
  intros H. unfold string_bytes, of_bytes. rewrite list_byte_of_string_of_list_byte, map_map.
  induction l as [|b l IH]; cbn; [done|]. cbn in H. apply andb_true_iff in H as [Hb Hl].
  rewrite IH by done. f_equal. rewrite byte_val_of.
  unfold visible, in_range in Hb. bool_hyp. apply Z.mod_small. lia.
Qed.

Lemma string_bytes_app a b : string_bytes (a ++ b) = string_bytes a ++ string_bytes b.
Proof.
  unfold string_bytes. rewrite <- map_app. f_equal.
  induction a as [|c a IH]; [done|].
  exact (f_equal (cons (byte_of_ascii c)) IH).
Qed.

Lemma length_string_bytes s : length (string_bytes s) = String.length s.
Proof.
  unfold string_bytes. rewrite length_map.
  induction s as [|c s IH]; [done|]. exact (f_equal S IH).
Qed.

Lemma string_bytes_inj a b : string_bytes a = string_bytes b -> a = b.
Proof.
  unfold string_bytes. intros H.
  assert (list_byte_of_string a = list_byte_of_string b) as Hb.
  { revert H. generalize (list_byte_of_string b). induction (list_byte_of_string a) as [|x l IH];
      intros [|y m]; try done. cbn. intros [= Hx Hl]. f_equal; [|by apply IH].
    by rewrite <- (byte_of_val x), Hx, byte_of_val. }
  by rewrite <- (string_of_list_byte_of_string a), Hb, string_of_list_byte_of_string.
Qed.

(** ** crypto/sha256 *)

Module Sha256.

(** The constants of FIPS 180-4: the first 32 bits of the fractional parts
    of the cube roots of the first 64 primes, and of the square roots of the
    first eight.  A root of [p] scaled by [2 ^ 32] is an integer root. *)
Definition is_prime (p : nat) : bool :=
  (2 <=? p)%nat && forallb (fun d => negb (p mod d =? 0)%nat) (seq 2 (p - 2)).
Definition primes_below (n : nat) : list Z := map Z.of_nat (filter is_prime (seq 2 n)).

Fixpoint cube_root (bits : nat) (r n : Z) : Z :=
  match bits with
  | O => r
  | S b => let r' := r + 2 ^ Z.of_nat b in cube_root b (if r' * r' * r' <=? n then r' else r) n
  end.

Definition K : list Z :=
  Eval vm_compute in map (fun p => u32 (cube_root 36 0 (p * 2 ^ 96))) (primes_below 310).

Definition rotr (n x : Z) : Z := Z.lor (Z.shiftr x n) (u32 (Z.shiftl x (32 - n))).

Record digest := mkDigest { da : Z; db : Z; dc : Z; dd : Z; de : Z; df : Z; dg : Z; dh : Z }.

Definition init : digest :=
  Eval vm_compute in
    match map (fun p => u32 (Z.sqrt (p * 2 ^ 64))) (primes_below 18) with
    | [a; b; c; d; e; f; g; h] => mkDigest a b c d e f g h
    | _ => mkDigest 0 0 0 0 0 0 0 0
    end.

Definition round (s : digest) (kw : Z) : digest :=
  let '(mkDigest a b c d e f g h) := s in
  let s1 := Z.lxor (Z.lxor (rotr 6 e) (rotr 11 e)) (rotr 25 e) in
  let ch := Z.lxor (Z.land e f) (Z.land (Z.lxor e 0xffffffff) g) in
  let t1 := u32 (h + s1 + ch + kw) in
  let s0 := Z.lxor (Z.lxor (rotr 2 a) (rotr 13 a)) (rotr 22 a) in
  let maj := Z.lxor (Z.lxor (Z.land a b) (Z.land a c)) (Z.land b c) in
  let t2 := u32 (s0 + maj) in
  mkDigest (u32 (t1 + t2)) a b c (u32 (d + t1)) e f g.

(** The message schedule, newest word first. *)
Fixpoint schedule (n : nat) (w : list Z) : list Z :=
  match n with
  | O => w
  | S n' =>
      let at_ i := nth i w 0 in
      let x := at_ 14%nat in let y := at_ 1%nat in
      let s0 := Z.lxor (Z.lxor (rotr 7 x) (rotr 18 x)) (Z.shiftr x 3) in
      let s1 := Z.lxor (Z.lxor (rotr 17 y) (rotr 19 y)) (Z.shiftr y 10) in
      schedule n' (u32 (at_ 15%nat + s0 + at_ 6%nat + s1) :: w)
  end.

Fixpoint words (n : nat) (l : list Z) : list Z :=
  match n, l with
  | S n', a :: b :: c :: d :: t => (((a * 256 + b) * 256 + c) * 256 + d) :: words n' t
  | _, _ => []
  end.

Definition compress (s : digest) (block : list Z) : digest :=
  let w := reverse (schedule 48 (reverse (words 16 block))) in
  let s' := fold_left (fun st kw => round st (u32 (fst kw + snd kw))) (combine K w) s in
  mkDigest (u32 (da s + da s')) (u32 (db s + db s')) (u32 (dc s + dc s')) (u32 (dd s + dd s'))
    (u32 (de s + de s')) (u32 (df s + df s')) (u32 (dg s + dg s')) (u32 (dh s + dh s')).

Fixpoint blocks (n : nat) (s : digest) (l : list Z) : digest :=
  match n with
  | O => s
  | S n' => blocks n' (compress s (take 64 l)) (drop 64 l)
  end.

Definition pad (l : list Z) : list Z :=
  let n := length l in
  l ++ 0x80 :: replicate ((119 - n mod 64) mod 64) 0 ++ map byte_val (be_split 8 (8 * Z.of_nat n)).

Definition word_bytes (w : Z) : list Z := map byte_val (be_split 4 w).

Definition Sum256 (l : list Z) : list Z :=
  let p := pad l in
  let s := blocks (length p / 64) init p in
  concat (map word_bytes [da s; db s; dc s; dd s; de s; df s; dg s; dh s]).

Lemma length_Sum256 l : length (Sum256 l) = 32%nat.
Proof.
  unfold Sum256. cbn [map concat]. unfold word_bytes.
  by rewrite !length_app, !length_map, !length_be_split.
Qed.

Example sum_empty : EncodeToString (Sum256 []) =
  "e3b0c44298fc1c149afbf4c8996fb92427ae41e4649b934ca495991b7852b855"%string.
Proof. vm_compute. reflexivity. Qed.

Example sum_abc : EncodeToString (Sum256 (string_bytes "abc")) =
  "ba7816bf8f01cfea414140de5dae2223b00361a396177a9cb410ff61f20015ad"%string.
Proof. vm_compute. reflexivity. Qed.

Example sum_two_blocks :
  EncodeToString (Sum256 (string_bytes "abcdbcdecdefdefgefghfghighijhijkijkljklmklmnlmnomnopnopq")) =
  "248d6a61d20638b8e5c026930c3e6039a33ce45964ff2167f6ecedd419db06c1"%string.
Proof. vm_compute. reflexivity. Qed.

End Sha256.

End GoStd.
