(* ===== verification/Chunker.v ===== *)
(** * Content-defined chunking

    [internal/artifact/chunked/chunker.go]: the normalized FastCDC chunker
    that divides a snapshot's byte stream.  The reader is modelled by the
    sequence of results its [Read] calls return, so that every way of
    fragmenting a stream is a value of the model; the chunker's state is the
    buffer, the end-of-file flag and the deferred read error.

    The theorems show that the cut point obeys its bounds, that no byte is
    lost or invented, and that the chunks of a stream do not depend on how
    the reader fragments it. *)

From Stdlib Require Import ZArith Lia Strings.Byte.
From stdpp Require Import base list strings.
From S2P Require Import Prelude.

#[local] Open Scope Z_scope.

Module Chunker.

Definition MinChunkSize : Z := Z.shiftl 16 10.
Definition AvgChunkSize : Z := Z.shiftl 64 10.
Definition MaxChunkSize : Z := Z.shiftl 256 10.

(** ** The gear table *)

Definition seed : Z := 0x72656d6f756e7421.

Definition splitmix (state : Z) : Z :=
  let z := state in
  let z := u64 (Z.lxor z (Z.shiftr z 30) * 0xbf58476d1ce4e5b9) in
  let z := u64 (Z.lxor z (Z.shiftr z 27) * 0x94d049bb133111eb) in
  Z.lxor z (Z.shiftr z 31).

Fixpoint gear_entries (n : nat) (state : Z) : list Z :=
  match n with
  | O => []
  | S n' =>
      let state := u64 (state + 0x9e3779b97f4a7c15) in
      splitmix state :: gear_entries n' state
  end.

Definition makeGearTable : list Z := gear_entries 256 seed.

Definition fastCDCGear : list Z := Eval vm_compute in makeGearTable.

Definition gear (b : byte) : Z := nth (Z.to_nat (byte_val b)) fastCDCGear 0.

(** ** The cut point *)

Definition smallMask : Z := Z.shiftl 1 17 - 1.
Definition largeMask : Z := Z.shiftl 1 15 - 1.

(** One [for] loop of [fastCDCCut] over the bytes [l] that start at index
    [i]: [inl cut] when it returns, [inr hash] when it falls through. *)
Fixpoint cdc_scan (mask hash i : Z) (l : list byte) : Z + Z :=
  match l with
  | [] => inr hash
  | b :: t =>
      let hash := u64 (u64 (Z.shiftl hash 1) + gear b) in
      if Z.land hash mask =? 0 then inl (i + 1)
      else cdc_scan mask hash (i + 1) t
  end.

Definition fastCDCCut (buf : list byte) : Z :=
  let len := Z.of_nat (length buf) in
  if len <=? MinChunkSize then len
  else
    let end_ := if MaxChunkSize <? len then MaxChunkSize else len in
    let normal := if end_ <? AvgChunkSize then end_ else AvgChunkSize in
    match cdc_scan smallMask 0 MinChunkSize
            (slice buf (Z.to_nat MinChunkSize) (Z.to_nat (normal - MinChunkSize))) with
    | inl cut => cut
    | inr hash =>
        match cdc_scan largeMask hash normal
                (slice buf (Z.to_nat normal) (Z.to_nat (end_ - normal))) with
        | inl cut => cut
        | inr _ => end_
        end
    end.

(** ** The reader and the chunker *)

Inductive read_error := EOF | ErrNoProgress | ReadFailed (msg : string).

(** The results the reader would return to unboundedly large [Read] calls; a
    call with a smaller buffer takes the front of the next one, and an
    exhausted reader reports [EOF]. *)
Definition reader : Type := list (list byte * option read_error).

Record chunker := mkChunker {
  r : reader;
  buf : list byte;
  eof : bool;
  readErr : option read_error
}.

Definition NewChunker (rd : reader) : chunker := mkChunker rd [] false None.

(** The loop at the head of [Next] that fills the buffer to
    [MaxChunkSize]. *)
Fixpoint fill (rd : reader) (b : list byte) : chunker :=
  if MaxChunkSize <=? Z.of_nat (length b) then mkChunker rd b false None
  else
    match rd with
    | [] => mkChunker [] b true None
    | (bs, err) :: t =>
        let need := MaxChunkSize - Z.of_nat (length b) in
        if Z.of_nat (length bs) <=? need then
          match err with
          | Some EOF => mkChunker t (b ++ bs) true None
          | Some e => mkChunker t (b ++ bs) false (Some e)
          | None =>
              if (length bs =? 0)%nat then mkChunker t (b ++ bs) false (Some ErrNoProgress)
              else fill t (b ++ bs)
          end
        else
          mkChunker ((drop (Z.to_nat need) bs, err) :: t)
            (b ++ take (Z.to_nat need) bs) false None
    end.

Definition fill_chunker (c : chunker) : chunker :=
  if eof c then c
  else match readErr c with Some _ => c | None => fill (r c) (buf c) end.

Definition Next (c0 : chunker) : result read_error (list byte) * chunker :=
  let c := fill_chunker c0 in
  if (length (buf c) =? 0)%nat then
    match readErr c with
    | Some e => (Err e, mkChunker (r c) (buf c) (eof c) None)
    | None => (Err EOF, c)
    end
  else
    let cut := Z.to_nat (fastCDCCut (buf c)) in
    (Ok (take cut (buf c)), mkChunker (r c) (drop cut (buf c)) (eof c) (readErr c)).

(** A caller's loop over [Next]: the chunks until the first error, and that
    error; [None] when the fuel runs out first. *)
Fixpoint drain (fuel : nat) (c : chunker) : option (list (list byte) * read_error) :=
  match fuel with
  | O => None
  | S fuel' =>
      match Next c with
      | (Ok chunk, c') =>
          match drain fuel' c' with
          | Some (chunks, e) => Some (chunk :: chunks, e)
          | None => None
          end
      | (Err e, _) => Some ([], e)
      end
  end.

(** ** Reference chunking of a whole stream *)

Fixpoint chunks_of (fuel : nat) (data : list byte) : list (list byte) :=
  match fuel, data with
  | S fuel', _ :: _ =>
      let cut := Z.to_nat (fastCDCCut (take (Z.to_nat MaxChunkSize) data)) in
      take cut data :: chunks_of fuel' (drop cut data)
  | _, _ => []
  end.

Definition chunks (data : list byte) : list (list byte) := chunks_of (length data) data.

(** The bytes a reader delivers, and the error that ends it, when every
    [Read] makes progress. *)
Fixpoint content (rd : reader) : list byte * read_error :=
  match rd with
  | [] => ([], EOF)
  | (bs, Some e) :: _ => (bs, e)
  | (bs, None) :: t =>
      if (length bs =? 0)%nat then ([], ErrNoProgress)
      else let '(d, e) := content t in (bs ++ d, e)
  end.

(** ** Bounds of the cut point *)

Lemma cdc_scan_bounds mask l : forall hash i cut,
  cdc_scan mask hash i l = inl cut -> i < cut <= i + Z.of_nat (length l).
Proof.
  induction l as [|b l IH]; intros hash i cut; cbn [cdc_scan]; [discriminate|].
  destruct (_ =? 0).
  - intros [= <-]. cbn [length]. lia.
  - intros H%IH. cbn [length]. lia.
Qed.

Lemma sizes : MinChunkSize = 16384 /\ AvgChunkSize = 65536 /\ MaxChunkSize = 262144.
Proof. vm_compute. auto. Qed.

#[local] Opaque MinChunkSize AvgChunkSize MaxChunkSize.

(** The position where a chunk of a buffer of [len] bytes may end. *)
Definition cut_ok (len cut : Z) : Prop :=
  cut <= len /\ cut <= MaxChunkSize /\ (0 < len -> 0 < cut) /\
  (cut = len \/ MinChunkSize < cut).

Lemma fastCDCCut_ok b : cut_ok (Z.of_nat (length b)) (fastCDCCut b).
Proof.
  destruct sizes as (Hmin & Havg & Hmax). unfold fastCDCCut, cut_ok.
  remember (Z.of_nat (length b)) as len eqn:Elen.
  destruct (len <=? MinChunkSize) eqn:E; bool_hyp; [lia|].
  set (end_ := if MaxChunkSize <? len then MaxChunkSize else len).
  set (normal := if end_ <? AvgChunkSize then end_ else AvgChunkSize).
  assert (He : MinChunkSize < end_ <= len /\ end_ <= MaxChunkSize).
  { unfold end_. destruct (MaxChunkSize <? len) eqn:E1; bool_hyp; lia. }
  assert (Hn : MinChunkSize < normal <= end_).
  { unfold normal. destruct (end_ <? AvgChunkSize) eqn:E1; bool_hyp; lia. }
  clearbody normal end_.
  destruct (cdc_scan smallMask _ _ _) as [cut|hash] eqn:E1.
  { apply cdc_scan_bounds in E1. rewrite length_slice in E1 by lia. lia. }
  destruct (cdc_scan largeMask _ _ _) as [cut|h] eqn:E2; [|lia].
  apply cdc_scan_bounds in E2. rewrite length_slice in E2 by lia. lia.
Qed.

Lemma fastCDCCut_pos b : b <> [] -> (0 < Z.to_nat (fastCDCCut b) <= length b)%nat.
Proof.
  intros Hb. destruct (fastCDCCut_ok b) as (? & ? & H & ?).
  destruct b; [done|]. simpl in *. lia.
Qed.
#[local] Hint Resolve fastCDCCut_pos : rm.

(** ** The reference loses nothing *)

Lemma take_max_nonempty (d : list byte) : d <> [] -> take (Z.to_nat MaxChunkSize) d <> [].
Proof.
  destruct sizes as (_ & _ & H). destruct d; [done|]. intros _ E.
  apply (f_equal length) in E. rewrite length_take in E. cbn [length] in E. lia.
Qed.

Lemma ref_cut_pos (d : list byte) : d <> [] ->
  (0 < Z.to_nat (fastCDCCut (take (Z.to_nat MaxChunkSize) d)) <= length d)%nat.
Proof.
  intros Hd. pose proof (fastCDCCut_pos _ (take_max_nonempty d Hd)) as [H1 H2].
  rewrite length_take in H2. lia.
Qed.

Lemma chunks_of_fuel fuel : forall d fuel',
  (length d <= fuel)%nat -> (length d <= fuel')%nat -> chunks_of fuel d = chunks_of fuel' d.
Proof.
  induction fuel as [|fuel IH]; intros d fuel' H1 H2.
  - destruct d; [|simpl in *; lia]. by destruct fuel'.
  - destruct d as [|b d]; [by destruct fuel'|].
    destruct fuel' as [|fuel']; [simpl in *; lia|]. cbn [chunks_of].
    pose proof (ref_cut_pos (b :: d) ltac:(done)) as Hc. f_equal.
    apply IH; rewrite length_drop; simpl in *; lia.
Qed.

Lemma chunks_cons d : d <> [] ->
  let cut := Z.to_nat (fastCDCCut (take (Z.to_nat MaxChunkSize) d)) in
  chunks d = take cut d :: chunks (drop cut d).
Proof.
  intros Hd cut. pose proof (ref_cut_pos d Hd) as Hc. fold cut in Hc.
  unfold chunks at 1. destruct d as [|b d]; [done|]. cbn [chunks_of length].
  f_equal. fold cut. apply chunks_of_fuel; rewrite length_drop; simpl in *; lia.
Qed.

(** Induction on a stream, chunk by chunk. *)
Lemma chunk_ind (P : list byte -> Prop) :
  P [] ->
  (forall d, d <> [] -> P (drop (Z.to_nat (fastCDCCut (take (Z.to_nat MaxChunkSize) d))) d) -> P d) ->
  forall d, P d.
Proof.
  intros H0 HS d. remember (length d) as n eqn:En. revert d En.
  induction n as [n IH] using lt_wf_ind. intros d ->.
  destruct (decide (d = [])) as [->|Hd]; [done|].
  apply HS; [done|]. eapply IH; [|reflexivity].
  pose proof (ref_cut_pos d Hd). rewrite length_drop. lia.
Qed.

(** ** The chunker computes the reference *)

(** The chunker's pending work: what it buffered, then what the reader still
    delivers. *)
Definition pending (c : chunker) : list byte * read_error :=
  if eof c then (buf c, EOF)
  else match readErr c with
       | Some e => (buf c, e)
       | None => let '(d, e) := content (r c) in (buf c ++ d, e)
       end.

Lemma fill_pending rd : forall b,
  pending (fill rd b) = (let '(d, e) := content rd in (b ++ d, e)).
Proof.
  induction rd as [|[bs err] t IH]; intros b; cbn [fill].
  - destruct (_ <=? _); unfold pending; simpl; by rewrite ?app_nil_r.
  - destruct (MaxChunkSize <=? Z.of_nat (length b)) eqn:Efull; [done|].
    destruct (Z.of_nat (length bs) <=? _) eqn:Efit.
    + destruct err as [[| |m]|]; cbn [pending eof readErr buf content]; try done.
      destruct (length bs =? 0)%nat eqn:Ez; cbn [pending eof readErr buf].
      * apply Nat.eqb_eq, nil_length_inv in Ez as ->. by rewrite !app_nil_r.
      * rewrite IH. destruct (content t). by rewrite app_assoc.
    + unfold pending; cbn [eof readErr buf r content]. bool_hyp.
      destruct err as [e|].
      * by rewrite <- app_assoc, take_drop.
      * replace (length bs =? 0)%nat with false by (symmetry; apply Nat.eqb_neq; lia).
        replace (length (drop _ bs) =? 0)%nat with false
          by (symmetry; apply Nat.eqb_neq; rewrite length_drop; lia).
        destruct (content t). by rewrite <- !app_assoc, (app_assoc (take _ _)), take_drop.
Qed.

Lemma fill_length rd : forall b,
  Z.of_nat (length b) <= MaxChunkSize ->
  Z.of_nat (length (buf (fill rd b))) <= MaxChunkSize.
Proof.
  induction rd as [|[bs err] t IH]; intros b Hb; cbn [fill].
  - by destruct (_ <=? _).
  - destruct (MaxChunkSize <=? Z.of_nat (length b)) eqn:Efull; [done|].
    destruct (Z.of_nat (length bs) <=? _) eqn:Efit; bool_hyp.
    + destruct err as [[| |m]|]; cbn [buf]; rewrite ?length_app; try lia.
      destruct (length bs =? 0)%nat; cbn [buf]; [rewrite length_app; lia|].
      apply IH. rewrite length_app. lia.
    + cbn [buf]. rewrite length_app, length_take. lia.
Qed.

(** A filled buffer is full unless the reader has ended. *)
Lemma fill_full rd : forall b,
  let c := fill rd b in
  eof c = false -> readErr c = None -> MaxChunkSize <= Z.of_nat (length (buf c)).
Proof.
  induction rd as [|[bs err] t IH]; intros b; cbn [fill].
  - destruct (_ <=? _) eqn:E; simpl; intros; bool_hyp; [lia|discriminate].
  - destruct (MaxChunkSize <=? Z.of_nat (length b)) eqn:Efull; [simpl; intros; bool_hyp; lia|].
    destruct (Z.of_nat (length bs) <=? _) eqn:Efit; bool_hyp.
    + destruct err as [[| |m]|]; cbn [eof readErr]; try discriminate.
      destruct (length bs =? 0)%nat; cbn [eof readErr]; [discriminate|]. apply IH.
    + cbn [buf eof readErr]. intros _ _. rewrite length_app, length_take. lia.
Qed.

Definition chunker_ok (c : chunker) : Prop :=
  Z.of_nat (length (buf c)) <= MaxChunkSize /\ (eof c = true -> readErr c = None).

Lemma fill_eof rd : forall b, eof (fill rd b) = true -> readErr (fill rd b) = None.
Proof.
  induction rd as [|[bs err] t IH]; intros b; cbn [fill].
  - by destruct (_ <=? _).
  - repeat step_match; cbn; try done. apply IH.
Qed.

Lemma fill_chunker_spec c :
  chunker_ok c ->
  let c1 := fill_chunker c in
  chunker_ok c1 /\ pending c1 = pending c /\
  buf c1 = take (Z.to_nat MaxChunkSize) (fst (pending c)) /\
  (eof c1 = true \/ readErr c1 <> None \/ buf c1 <> []).
Proof.
  intros [Hok Heof] c1. subst c1. unfold fill_chunker, chunker_ok in *.
  destruct (eof c) eqn:Ee.
  { split_and!; rewrite ?Ee; auto. unfold pending. rewrite Ee. cbn. rewrite take_ge; [done|lia]. }
  destruct (readErr c) eqn:Er.
  { split_and!; rewrite ?Ee, ?Er; auto.
    unfold pending. rewrite Ee, Er. cbn. rewrite take_ge; [done|lia]. }
  pose proof (fill_length (r c) (buf c) Hok) as Hl.
  pose proof (fill_eof (r c) (buf c)) as He.
  pose proof (fill_full (r c) (buf c)) as Hf. cbn zeta in Hf.
  assert (Hp : pending (fill (r c) (buf c)) = pending c).
  { rewrite fill_pending. unfold pending. by rewrite Ee, Er. }
  destruct sizes as (_ & _ & Hmax). rewrite <- Hp.
  remember (fill (r c) (buf c)) as c' eqn:Ec'. clear Ec' Hp.
  split_and!; [done..| |].
  - unfold pending. destruct (eof c'); [cbn; rewrite take_ge; [done|lia]|].
    destruct (readErr c'); [cbn; rewrite take_ge; [done|lia]|].
    specialize (Hf eq_refl eq_refl). destruct (content (r c')); cbn.
    rewrite take_app_le by lia. rewrite take_ge; [done|lia].
  - destruct (eof c'); [by left|]. destruct (readErr c'); [right; by left|].
    right; right. specialize (Hf eq_refl eq_refl). intros E. rewrite E in Hf. simpl in Hf. lia.
Qed.

Lemma Next_spec c d e :
  chunker_ok c -> pending c = (d, e) ->
  match Next c with
  | (Ok chunk, c') =>
      d <> [] /\ chunker_ok c' /\
      let cut := Z.to_nat (fastCDCCut (take (Z.to_nat MaxChunkSize) d)) in
      chunk = take cut d /\ pending c' = (drop cut d, e)
  | (Err e', _) => d = [] /\ e' = e
  end.
Proof.
  intros Hok Hp. destruct (fill_chunker_spec c Hok) as ([Hl He] & Hp' & Hb & Hne).
  rewrite Hp in Hp', Hb. cbn [fst] in Hb. unfold Next.
  remember (fill_chunker c) as c1 eqn:Ec1. clear Ec1 Hok Hp c. unfold pending in Hp'.
  destruct (length (buf c1) =? 0)%nat eqn:E.
  - apply Nat.eqb_eq, nil_length_inv in E. rewrite E in Hb, Hne, Hp'.
    assert (d = []) as ->.
    { destruct (decide (d = [])) as [|Hd]; [done|]. by apply take_max_nonempty in Hd. }
    destruct (eof c1).
    { rewrite He by done. naive_solver. }
    destruct (readErr c1); naive_solver.
  - apply Nat.eqb_neq in E.
    assert (Hd : d <> []) by (intros ->; rewrite take_nil in Hb; by rewrite Hb in E).
    assert (Hbne : buf c1 <> []) by (intros Hn; by rewrite Hn in E).
    pose proof (fastCDCCut_pos _ Hbne) as Hc. rewrite <- Hb.
    set (cut := Z.to_nat (fastCDCCut (buf c1))) in *.
    split; [done|]. split; [split; cbn [buf eof readErr]; [rewrite length_drop; lia|done]|].
    split.
    + rewrite Hb, take_take. f_equal. rewrite Hb, length_take in Hc. lia.
    + unfold pending; cbn [eof readErr buf r].
      destruct (eof c1); [naive_solver|]. destruct (readErr c1); [naive_solver|].
      destruct (content (r c1)) as [d' e'']. injection Hp' as <- <-.
      rewrite drop_app_le by lia. done.
Qed.

Lemma drain_spec d : forall c e fuel,
  chunker_ok c -> pending c = (d, e) -> (length d < fuel)%nat ->
  drain fuel c = Some (chunks d, e).
Proof.
  induction d as [|d Hd IH] using chunk_ind; intros c e fuel Hok Hp Hf;
    (destruct fuel as [|fuel]; [simpl in Hf; lia|]); cbn [drain];
    pose proof (Next_spec c _ e Hok Hp) as HN; destruct (Next c) as [[chunk|e'] c'].
  - by destruct HN.
  - by destruct HN as [_ ->].
  - destruct HN as (_ & Hok' & -> & Hp').
    pose proof (ref_cut_pos d Hd).
    rewrite (IH c' e fuel Hok' Hp') by (rewrite length_drop; lia).
    by rewrite (chunks_cons d Hd).
  - by destruct HN.
Qed.

Lemma NewChunker_ok rd : chunker_ok (NewChunker rd).
Proof. split; [|done]. destruct sizes as (_ & _ & ->). simpl. lia. Qed.

(** ** Properties *)

(** C37: however the reader fragments its stream, draining the chunker
    yields exactly the reference chunks of the bytes the reader delivers,
    followed by the reader's own terminating error (a clean end of file, a
    failed read, or a read that made no progress).  In particular two readers
    that deliver the same bytes give the same chunks, so equal files
    deduplicate. *)
Theorem chunker_independent_of_fragmentation : forall rd data e fuel,
  content rd = (data, e) -> (length data < fuel)%nat ->
  drain fuel (NewChunker rd) = Some (chunks data, e).
Proof.
  intros rd data e fuel Hc Hf. apply drain_spec; [apply NewChunker_ok| |done].
  unfold pending; cbn. by rewrite Hc.
Qed.

Lemma chunker_independent_of_fragmentation_witness :
  drain 5 (NewChunker [([x01; x02], None); ([x03], Some EOF)])
  = Some (chunks [x01; x02; x03], EOF).
Proof.
  apply (chunker_independent_of_fragmentation
           [([x01; x02], None); ([x03], Some EOF)] [x01; x02; x03] EOF 5).
  - reflexivity.
  - simpl. lia.
Defined.

Lemma chunks_concat d : concat (chunks d) = d.
Proof.
  induction d as [|d Hd IH] using chunk_ind; [done|].
  rewrite (chunks_cons d Hd). cbn [concat]. rewrite IH. apply take_drop.
Qed.

(** the chunks of a stream concatenate to the stream, every chunk
    is non-empty and at most [MaxChunkSize] bytes, and every chunk but the
    last is longer than [MinChunkSize]. *)
Theorem chunks_lossless_and_bounded : forall data,
  concat (chunks data) = data /\
  Forall (fun c => 0 < Z.of_nat (length c) <= MaxChunkSize) (chunks data) /\
  (forall pre last, chunks data = pre ++ [last] ->
     Forall (fun c => MinChunkSize < Z.of_nat (length c)) pre).
Proof.
  intros data. split; [apply chunks_concat|].
  induction data as [|d Hd [IH1 IH2]] using chunk_ind.
  { split; [constructor|]. intros pre last H. by destruct pre. }
  rewrite (chunks_cons d Hd).
  pose proof (ref_cut_pos d Hd) as Hp.
  destruct (fastCDCCut_ok (take (Z.to_nat MaxChunkSize) d)) as (Hle & Hmx & _ & Hmin).
  rewrite length_take in Hle, Hmin.
  set (cutz := fastCDCCut (take (Z.to_nat MaxChunkSize) d)) in *.
  assert (Hlen : Z.of_nat (length (take (Z.to_nat cutz) d)) = cutz).
  { rewrite length_take. lia. }
  split; [constructor; [lia|done]|].
  intros [|c pre] last Heq; [constructor|].
  injection Heq as <- Heq. constructor; [|by eapply IH2].
  rewrite Hlen. destruct Hmin as [Hm|]; [|done].
  destruct (decide (drop (Z.to_nat cutz) d = [])) as [E|Hne].
  { rewrite E in Heq. by destruct pre. }
  assert (length (drop (Z.to_nat cutz) d) <> 0%nat) as Hnz.
  { intros H0. by apply nil_length_inv in H0. }
  rewrite length_drop in Hnz. destruct sizes as (Hs & _ & Hx). lia.
Qed.

End Chunker.
