(* ===== verification/Wal.v ===== *)
(** * The SQLite write-ahead log inspector

    [internal/control/replicate/wal.go]: the routine that finds the last
    committed byte of a WAL image and its lineage, and the check a stored WAL
    must pass before a standby restores it.  A file is its bytes; [ReadAt]
    fails when the range is not inside it. *)

From Stdlib Require Import ZArith Lia Strings.Byte Strings.String Strings.Ascii.
From stdpp Require Import base list strings.
From S2P Require Import Prelude.

#[local] Open Scope Z_scope.

Module Wal.

Definition walHeaderBytes : Z := 32.
Definition walMagicLE : Z := 0x377f0682.
Definition walMagicBE : Z := 0x377f0683.
Definition walVersion : Z := 3007000.

(** [ErrCorruptRecoveryPoint] wraps one message; the other failures do not. *)
Inductive wal_error :=
| ErrCorruptRecoveryPoint (what : string)
| ReadError (what : string)
| NoCommit.

Record walInspection := mkInspection { CommittedBytes : Z; Lineage : string }.

Inductive byte_order := LittleEndian | BigEndian.

Definition order_u32 (o : byte_order) (l : list byte) : Z :=
  match o with LittleEndian => le_combine l | BigEndian => be_combine l end.

Definition be_u32 (l : list byte) (off : nat) : Z := be_combine (slice l off 4).

Fixpoint walChecksum_fuel (fuel : nat) (o : byte_order) (data : list byte) (s0 s1 : Z) : Z * Z :=
  match fuel with
  | O => (s0, s1)
  | S fuel' =>
      if (length data <? 8)%nat then (s0, s1)
      else
        let s0 := u32 (s0 + u32 (order_u32 o (slice data 0 4) + s1)) in
        let s1 := u32 (s1 + u32 (order_u32 o (slice data 4 4) + s0)) in
        walChecksum_fuel fuel' o (drop 8 data) s0 s1
  end.

(** The loop consumes eight bytes per iteration, so the length of the data
    bounds its iterations. *)
Definition walChecksum (o : byte_order) (data : list byte) (s0 s1 : Z) : Z * Z :=
  walChecksum_fuel (length data) o data s0 s1.

Definition read_at (data : list byte) (off n : Z) (what : string) : result wal_error (list byte) :=
  if off + n <=? Z.of_nat (length data) then Ok (slice data (Z.to_nat off) (Z.to_nat n))
  else Err (ReadError what).

(** [%08x] of a [uint32]. *)
Definition hex_digit (z : Z) : ascii :=
  ascii_of_N (Z.to_N (if z <? 10 then 48 + z else 87 + z)).

Fixpoint hex (n : nat) (z : Z) : string :=
  match n with
  | O => EmptyString
  | S n' => String (hex_digit (z / 16 ^ Z.of_nat n' mod 16)) (hex n' z)
  end.

Definition lineage_of (salt1 salt2 : Z) : string := String.append (hex 8 salt1) (hex 8 salt2).

(** One iteration of the frame loop: [None] is [break]; otherwise the running
    checksum and whether the frame commits a transaction. *)
Definition frame_step (o : byte_order) (frame : list byte) (salt1 salt2 s0 s1 : Z)
  : option (Z * Z * bool) :=
  if (be_u32 frame 0 =? 0) || negb (be_u32 frame 8 =? salt1) || negb (be_u32 frame 12 =? salt2)
  then None
  else
    let '(n0, n1) := walChecksum o (take 8 frame) s0 s1 in
    let '(n0, n1) := walChecksum o (drop 24 frame) n0 n1 in
    if negb (be_u32 frame 16 =? n0) || negb (be_u32 frame 20 =? n1) then None
    else Some (n0, n1, negb (be_u32 frame 4 =? 0)).

(** The frame loop over the [n] whole frames that fit in the file, from
    [offset], with the committed length so far. *)
Fixpoint scan_frames (n : nat) (o : byte_order) (data : list byte)
    (salt1 salt2 frameSize s0 s1 offset committed : Z) : result wal_error Z :=
  match n with
  | O => Ok committed
  | S n' =>
      let? frame := read_at data offset frameSize "read WAL frame" in
      match frame_step o frame salt1 salt2 s0 s1 with
      | None => Ok committed
      | Some (n0, n1, commit) =>
          scan_frames n' o data salt1 salt2 frameSize n0 n1 (offset + frameSize)
            (if commit : bool then offset + frameSize else committed)
      end
  end.

(** The validated header: byte order, page size, salts and its checksum. *)
Record wal_header := mkHeader {
  h_order : byte_order; h_page : Z; h_salt1 : Z; h_salt2 : Z; h_s0 : Z; h_s1 : Z }.

Definition pow2_page (p : Z) : bool := Z.land p (p - 1) =? 0.

Definition parse_header (data : list byte) (size max : Z) : result wal_error wal_header :=
  if (size <? walHeaderBytes) || (max <? size) then Err (ErrCorruptRecoveryPoint "WAL size")
  else
    let? header := read_at data 0 walHeaderBytes "read WAL header" in
    let magic := be_u32 header 0 in
    let? order :=
      (if magic =? walMagicLE then Ok LittleEndian
       else if magic =? walMagicBE then Ok BigEndian
       else Err (ErrCorruptRecoveryPoint "invalid WAL magic")) in
    if negb (be_u32 header 4 =? walVersion)
    then Err (ErrCorruptRecoveryPoint "unsupported WAL version")
    else
      let pageSize := if be_u32 header 8 =? 1 then 65536 else be_u32 header 8 in
      if (pageSize <? 512) || (65536 <? pageSize) || negb (pow2_page pageSize)
      then Err (ErrCorruptRecoveryPoint "invalid WAL page size")
      else
        let '(s0, s1) := walChecksum order (take 24 header) 0 0 in
        if negb (be_u32 header 24 =? s0) || negb (be_u32 header 28 =? s1)
        then Err (ErrCorruptRecoveryPoint "invalid WAL header checksum")
        else Ok (mkHeader order pageSize (be_u32 header 16) (be_u32 header 20) s0 s1).

Definition frame_bytes (h : wal_header) : Z := 24 + h_page h.

Definition inspectWAL (data : list byte) (size max : Z) (requireExact : bool)
  : result wal_error walInspection :=
  let? h := parse_header data size max in
  let n := Z.to_nat ((size - walHeaderBytes) / frame_bytes h) in
  let? committed := scan_frames n (h_order h) data (h_salt1 h) (h_salt2 h) (frame_bytes h)
                      (h_s0 h) (h_s1 h) walHeaderBytes 0 in
  let inspection := mkInspection committed (lineage_of (h_salt1 h) (h_salt2 h)) in
  if committed =? 0 then Ok inspection
  else if requireExact && negb (committed =? size)
  then Err (ErrCorruptRecoveryPoint "WAL has bytes after its last valid commit")
  else Ok inspection.

Definition validateStoredWAL (data : list byte) (size max : Z) (lineage : string)
  : result wal_error unit :=
  let? inspection := inspectWAL data size max true in
  if CommittedBytes inspection =? 0 then Err NoCommit
  else if (lineage <>s "") && (Lineage inspection <>s lineage)
  then Err (ErrCorruptRecoveryPoint "WAL lineage does not match manifest")
  else Ok tt.

(** ** Truncation to the committed prefix *)

Lemma read_at_take data cut off n what l :
  0 <= off -> 0 <= n -> off + n <= Z.of_nat cut -> (cut <= length data)%nat ->
  read_at data off n what = Ok l -> read_at (take cut data) off n what = Ok l.
Proof.
  unfold read_at. intros. rewrite length_take.
  destruct (off + n <=? Z.of_nat (length data)) eqn:E; [|discriminate].
  bool_hyp. replace (off + n <=? _) with true by (symmetry; apply Z.leb_le; lia).
  rewrite <- H3. f_equal. apply slice_take. lia.
Qed.

Lemma scan_frames_prefix n : forall o data salt1 salt2 fs s0 s1 offset committed c,
  0 < fs -> 0 <= committed <= offset ->
  scan_frames n o data salt1 salt2 fs s0 s1 offset committed = Ok c ->
  exists k, (k <= n)%nat /\
    c = (if (k =? 0)%nat then committed else offset + Z.of_nat k * fs) /\
    forall cut, Z.of_nat cut = c -> (cut <= length data)%nat ->
      scan_frames k o (take cut data) salt1 salt2 fs s0 s1 offset committed = Ok c.
Proof.
  induction n as [|n IH]; intros o data salt1 salt2 fs s0 s1 offset committed c Hfs Hc Hs.
  { injection Hs as <-. by exists 0%nat. }
  cbn [scan_frames] in Hs.
  destruct (read_at data offset fs _) as [frame|] eqn:Er; [|discriminate].
  destruct (frame_step o frame salt1 salt2 s0 s1) as [[[n0 n1] commit]|] eqn:Ef;
    [|injection Hs as <-; exists 0%nat; split; [lia|done]].
  apply IH in Hs as (k & Hk & Hck & Hrec); [|done|destruct commit; lia].
  destruct (decide (k = 0%nat /\ commit = false)) as [[-> ->]|Hnz].
  { exists 0%nat. split; [lia|]. split; [done|]. intros. cbn. by subst. }
  assert (Hck' : c = offset + Z.of_nat (S k) * fs).
  { destruct k; cbn in Hck; [destruct commit; [lia|naive_solver]|lia]. }
  exists (S k). split; [lia|]. split; [done|]. intros cut Hcut Hlen.
  cbn [scan_frames]. rewrite (read_at_take data cut offset fs _ frame) by (done || lia).
  rewrite Ef. by apply Hrec.
Qed.

(** Reading back the frames of a file bounds the committed length by it. *)
Lemma scan_frames_length n : forall o data salt1 salt2 fs s0 s1 offset committed c,
  0 < fs -> committed <= Z.of_nat (length data) ->
  scan_frames n o data salt1 salt2 fs s0 s1 offset committed = Ok c ->
  c <= Z.of_nat (length data).
Proof.
  induction n as [|n IH]; intros o data salt1 salt2 fs s0 s1 offset committed c Hfs Hc Hs.
  { injection Hs as <-. done. }
  cbn [scan_frames] in Hs. unfold read_at in Hs.
  destruct (offset + fs <=? _) eqn:Er; [bool_hyp|discriminate].
  destruct (frame_step _ _ _ _ _ _) as [[[n0 n1] commit]|]; [|injection Hs as <-; done].
  eapply IH in Hs; [done..|]. destruct commit; lia.
Qed.

Lemma parse_header_take data size max h cut :
  parse_header data size max = Ok h ->
  walHeaderBytes <= Z.of_nat cut <= size -> (cut <= length data)%nat ->
  parse_header (take cut data) (Z.of_nat cut) max = Ok h /\ 512 <= h_page h.
Proof.
  unfold parse_header. intros H Hc Hlen.
  destruct (_ || _) eqn:Eb; [discriminate|]. bool_hyp.
  replace (Z.of_nat cut <? walHeaderBytes) with false by (symmetry; apply Z.ltb_ge; lia).
  replace (max <? Z.of_nat cut) with false by (symmetry; apply Z.ltb_ge; lia). cbn [orb].
  destruct (read_at data 0 walHeaderBytes _) as [header|] eqn:Er; [|discriminate].
  rewrite (read_at_take data cut 0 walHeaderBytes _ header) by (done || (unfold walHeaderBytes in *; lia)).
  split; [exact H|].
  destruct (if be_u32 header 0 =? walMagicLE then _ else _) as [order|]; [|discriminate].
  destruct (negb _); [discriminate|].
  destruct (_ || _) eqn:Ep in H; [discriminate|]. bool_hyp.
  destruct (walChecksum _ _ _ _) as [s0 s1]. destruct (_ || _) in H; [discriminate|].
  injection H as <-. cbn [h_page]. lia.
Qed.

(** when inspection of a WAL image finds a committed prefix, that prefix
    is inside the file, is the header plus a whole number of frames, and the
    file truncated to exactly those bytes passes the exact inspection with
    the same committed length and lineage; so what the shipper uploads after
    a non-exact inspection is what a standby's [validateStoredWAL] accepts. *)
Theorem committed_prefix_is_storable : forall data size max i,
  inspectWAL data size max false = Ok i ->
  0 < CommittedBytes i ->
  let cut := Z.to_nat (CommittedBytes i) in
  CommittedBytes i <= size /\ (cut <= length data)%nat /\
  inspectWAL (take cut data) (CommittedBytes i) max true = Ok i /\
  validateStoredWAL (take cut data) (CommittedBytes i) max (Lineage i) = Ok tt.
Proof.
  intros data size max i Hi Hpos cut.
  assert (Hex : CommittedBytes i <= size /\ (cut <= length data)%nat /\
                inspectWAL (take cut data) (CommittedBytes i) max true = Ok i).
  2:{ destruct Hex as (H1 & H2 & H3). split_and!; try done.
      unfold validateStoredWAL. rewrite H3.
      replace (CommittedBytes i =? 0) with false by (symmetry; apply Z.eqb_neq; lia).
      by rewrite str_eqb_refl, andb_false_r. }
  unfold inspectWAL in Hi. destruct (parse_header data size max) as [h|] eqn:Eh; [|discriminate].
  set (fs := frame_bytes h) in *. set (n := Z.to_nat ((size - walHeaderBytes) / fs)) in *.
  destruct (scan_frames n _ data _ _ fs _ _ _ _) as [c|] eqn:Es; [|discriminate].
  assert (Hc : CommittedBytes i = c /\ i = mkInspection c (lineage_of (h_salt1 h) (h_salt2 h))).
  { destruct (c =? 0); cbn in Hi; by injection Hi as <-. }
  destruct Hc as [Hc ->]. cbn [CommittedBytes] in *. clear Hi.
  assert (Hpage : 512 <= h_page h /\ walHeaderBytes <= size).
  { unfold parse_header in Eh. destruct (_ || _) eqn:E1 in Eh; [discriminate|]. bool_hyp.
    split; [|done]. clear -Eh. repeat step_match; try discriminate.
    all: injection Eh as <-; cbn [h_page]; bool_hyp; lia. }
  assert (Hfs : 0 < fs) by (unfold fs, frame_bytes; lia).
  assert (Hlen : c <= Z.of_nat (length data))
    by (eapply scan_frames_length; [exact Hfs| |exact Es]; lia).
  apply scan_frames_prefix in Es as (k & Hk & Hck & Hrec); [|done|unfold walHeaderBytes; lia].
  destruct k as [|k]; [cbn in Hck; lia|]. cbn [Nat.eqb] in Hck.
  assert (Hn : Z.of_nat n = (size - walHeaderBytes) / fs).
  { unfold n. rewrite Z2Nat.id; [done|]. apply Z.div_pos; lia. }
  assert (Hsz : Z.of_nat (S k) * fs <= size - walHeaderBytes).
  { pose proof (Z.mul_div_le (size - walHeaderBytes) fs Hfs). nia. }
  split_and!; [lia|lia|].
  destruct (parse_header_take data size max h cut Eh) as [Eh' _]; [nia|lia|].
  unfold inspectWAL. unfold cut in Eh' |- *. rewrite Z2Nat.id in Eh' by lia. rewrite Eh'.
  fold fs. replace (Z.to_nat ((c - walHeaderBytes) / fs)) with (S k).
  2:{ rewrite Hck. replace (walHeaderBytes + Z.of_nat (S k) * fs - walHeaderBytes)
        with (Z.of_nat (S k) * fs) by lia. rewrite Z.div_mul by lia. lia. }
  rewrite Hrec by lia. replace (c =? 0) with false by (symmetry; apply Z.eqb_neq; lia).
  by rewrite Z.eqb_refl.
Qed.

(** A big-endian WAL with 512-byte pages, one committing frame and three
    bytes of a torn second frame. *)
Definition sample_header : list byte :=
  let h := be_split 4 walMagicBE ++ be_split 4 walVersion ++ be_split 4 512 ++ be_split 4 0
           ++ be_split 4 1 ++ be_split 4 2 in
  let '(s0, s1) := walChecksum BigEndian h 0 0 in h ++ be_split 4 s0 ++ be_split 4 s1.

Definition sample_frame : list byte :=
  let page := replicate 512 x00 in
  let f := be_split 4 1 ++ be_split 4 1 in
  let '(s0, s1) := walChecksum BigEndian (take 24 sample_header) 0 0 in
  let '(s0, s1) := walChecksum BigEndian f s0 s1 in
  let '(s0, s1) := walChecksum BigEndian page s0 s1 in
  f ++ be_split 4 1 ++ be_split 4 2 ++ be_split 4 s0 ++ be_split 4 s1 ++ page.

Definition sample_wal : list byte := sample_header ++ sample_frame ++ [x01; x02; x03].

Lemma committed_prefix_is_storable_witness :
  inspectWAL sample_wal 571 4096 false = Ok (mkInspection 568 "0000000100000002") /\
  validateStoredWAL (take 568 sample_wal) 568 4096 "0000000100000002" = Ok tt.
Proof.
  assert (H : inspectWAL sample_wal 571 4096 false = Ok (mkInspection 568 "0000000100000002"))
    by (vm_compute; reflexivity).
  split; [exact H|].
  apply (committed_prefix_is_storable sample_wal 571 4096 _ H). vm_compute. reflexivity.
Defined.

End Wal.
