(* ===== verification/WriterLease.v ===== *)
(** * The controller's writer lease

    [internal/control/replicate/lease.go] and the options of
    [internal/control/replicate/types.go]: a controller may decide only while
    it holds a lease kept in an object store that supports conditional
    writes.  The [Coordinator] is a record of its fields; an operation that
    talks to the store is split where the store acts (the request it sends,
    and what it does with the response), so that the protocol below can
    interleave several controllers, delay a request, lose a response, or let
    an abandoned request take effect later.

    The theorems: at any instant at most one controller passes the decision
    gate, whatever the interleaving, provided the clocks agree within the
    configured skew; and the epoch in the store never decreases. *)

From Stdlib Require Import ZArith Lia Strings.String Strings.Ascii.
From stdpp Require Import base list gmap strings relations.
From S2P Require Import Prelude.

#[local] Open Scope Z_scope.

Module WriterLease.

Definition formatVersion : Z := 1.

Record leaseRecord := mkLease {
  Version : Z; Holder : string; Epoch : Z; IssuedAt : Z; ExpiresAt : Z }.

Definition noLease : leaseRecord := mkLease 0 "" 0 0 0.

(** ** Options *)

Record Options := mkOptions {
  Prefix : string;
  LeaseTTL : Z; RenewInterval : Z; ShipInterval : Z; SnapshotInterval : Z;
  OrphanGrace : Z; MaxClockSkew : Z;
  MaxManifestBytes : Z; MaxSnapshotBytes : Z; MaxWALBytes : Z;
  RetainManifests : Z; MaxDeletesPerRun : Z }.

Definition default (v d : Z) : Z := if v =? 0 then d else v.

Definition withDefaults (o : Options) : result string Options :=
  let prefix := if Prefix o =s "" then "control/replication" else Prefix o in
  let ttl := default (LeaseTTL o) (3 * Second) in
  let renew := default (RenewInterval o) (Z.quot ttl 3) in
  let ship := default (ShipInterval o) Second in
  let snap := default (SnapshotInterval o) (5 * Minute) in
  let orphan := default (OrphanGrace o) (Z.max snap (i64 (2 * ttl))) in
  let skew := default (MaxClockSkew o) (250 * Millisecond) in
  let man := default (MaxManifestBytes o) (Z.shiftl 1 20) in
  let snb := default (MaxSnapshotBytes o) (Z.shiftl 1 30) in
  let wal := default (MaxWALBytes o) (Z.shiftl 512 20) in
  let retain := default (RetainManifests o) 8 in
  let del := default (MaxDeletesPerRun o) 128 in
  if (ttl <=? 0) || (renew <=? 0) || (Z.quot ttl 3 <? renew) || (ship <=? 0)
     || (snap <? ship) || (orphan <? ttl) || (skew <? 0) || (man <? 1) || (snb <? 1)
     || (wal <? 32) || (retain <? 1) || (del <? 1)
  then Err "control replication: invalid time, size, or retention bounds"
  else Ok (mkOptions prefix ttl renew ship snap orphan skew man snb wal retain del).

(** ** The coordinator *)

Inductive lease_error :=
| ErrLeaseHeld
| ErrFenced
| ErrCorruptRecoveryPoint
| ErrNotFound
| ErrPreconditionFailed
| ErrEpochExhausted
| ErrNoETag
| ErrTooLarge
| ErrStore (what : string).

(** An entity tag; [None] is the empty string. *)
Abbreviation etag := (option nat) (only parsing).

Record Coordinator := mkCoordinator {
  holder : string;
  opts : Options;
  c_etag : etag;
  record : leaseRecord;
  lastSuccess : Z;
  fenced : bool }.

(** A clean relative object path: no leading, trailing or doubled slash, no
    backslash or line break, no [.] or [..] segment. *)
Definition slash : ascii := "/".

Fixpoint split_slash (cur : string) (p : string) : list string :=
  match p with
  | EmptyString => [cur]
  | String a t =>
      if (a =? slash)%char then cur :: split_slash "" t
      else split_slash (String.append cur (String a EmptyString)) t
  end.

Fixpoint has_unclean_char (p : string) : bool :=
  match p with
  | EmptyString => false
  | String a t =>
      (a =? "\")%char || (a =? ascii_of_nat 13)%char || (a =? ascii_of_nat 10)%char
      || has_unclean_char t
  end.

Definition cleanPrefix (p : string) : result string string :=
  if has_unclean_char p
     || existsb (fun seg => (seg =s "") || (seg =s ".") || (seg =s "..")) (split_slash "" p)
  then Err "control replication: prefix must be a clean relative object path"
  else Ok p.

Definition NewCoordinator (h : string) (o : Options) : result string Coordinator :=
  if h =s "" then Err "control replication: store and unique holder are required"
  else
    let? o := withDefaults o in
    let? _ := cleanPrefix (Prefix o) in
    Ok (mkCoordinator h o None noLease 0 false).

Definition markFenced (c : Coordinator) : Coordinator :=
  mkCoordinator (holder c) (opts c) (c_etag c) (record c) (lastSuccess c) true.

Definition CanDecide (c : Coordinator) (now : Z) : result lease_error Z * Coordinator :=
  if fenced c || isZeroTime (lastSuccess c) || (Epoch (record c) =? 0) then (Err ErrFenced, c)
  else
    let age := time_sub now (lastSuccess c) in
    if (age <? 0) || (LeaseTTL (opts c) <=? age) then (Err ErrFenced, markFenced c)
    else (Ok (Epoch (record c)), c).

Definition LeaseAge (c : Coordinator) (now : Z) : Z :=
  if isZeroTime (lastSuccess c) then 0
  else let age := time_sub now (lastSuccess c) in if age <? 0 then 0 else age.

(** What [OpenObject] and the decoder made of the lease object. *)
Inductive opened :=
| ObjMissing
| ObjFailed (what : string)
| ObjFound (size payload : Z) (decoded : option leaseRecord) (trailing : bool) (tag : etag).

Definition readJSON (max : Z) (o : opened) : result lease_error (leaseRecord * etag) :=
  match o with
  | ObjMissing => Err ErrNotFound
  | ObjFailed e => Err (ErrStore e)
  | ObjFound size payload decoded trailing tag =>
      if (size <? 1) || (max <? size) then Err ErrCorruptRecoveryPoint
      else if negb (Z.min payload (max + 1) =? size) then Err ErrCorruptRecoveryPoint
      else match decoded with
           | None => Err ErrCorruptRecoveryPoint
           | Some r => if trailing then Err ErrCorruptRecoveryPoint else Ok (r, tag)
           end
  end.

Definition readLease (c : Coordinator) (o : opened) : result lease_error (leaseRecord * nat) :=
  let? (r, tag) := readJSON (MaxManifestBytes (opts c)) o in
  if negb (Version r =? formatVersion) || (Holder r =s "") || (Epoch r =? 0)
     || isZeroTime (IssuedAt r) || (ExpiresAt r <=? IssuedAt r)
  then Err ErrCorruptRecoveryPoint
  else match tag with None => Err ErrCorruptRecoveryPoint | Some t => Ok (r, t) end.

(** A conditional put of a lease record. *)
Inductive condition := IfMatch (t : nat) | IfNoneMatch.

Record put_request := mkPut { p_next : leaseRecord; p_cond : condition }.

(** [Acquire] up to the put, from the clock reading taken first and the
    object read afterwards; also the previous epoch. *)
Definition acquire_request (c : Coordinator) (now : Z) (o : opened)
  : result (lease_error * Z) (put_request * Z) :=
  match readLease c o with
  | Err ErrNotFound =>
      Ok (mkPut (mkLease formatVersion (holder c) 1 now (now + LeaseTTL (opts c))) IfNoneMatch, 0)
  | Err e => Err (e, 0)
  | Ok (r, t) =>
      if now <? ExpiresAt r + MaxClockSkew (opts c) then Err (ErrLeaseHeld, Epoch r)
      else if Epoch r =? maxUint64 then Err (ErrEpochExhausted, Epoch r)
      else
        Ok (mkPut (mkLease formatVersion (holder c) (Epoch r + 1) now (now + LeaseTTL (opts c)))
              (IfMatch t), Epoch r)
  end.

(** The response to a put: the new tag, or an error. *)
Abbreviation put_response := (result lease_error etag).

(** [Acquire] after the put; [clock] is the reading [CanDecide] takes. *)
Definition acquire_finish (c : Coordinator) (now : Z) (p : put_request) (res : put_response)
    (clock : Z) : result lease_error Z * Coordinator :=
  match res with
  | Err ErrPreconditionFailed => (Err ErrLeaseHeld, c)
  | Err e => (Err e, c)
  | Ok None => (Err ErrNoETag, c)
  | Ok (Some t) =>
      let c1 := mkCoordinator (holder c) (opts c) (Some t) (p_next p) now false in
      match CanDecide c1 clock with
      | (Err e, c2) => (Err e, c2)
      | (Ok _, c2) => (Ok (Epoch (p_next p)), c2)
      end
  end.

(** [Renew] up to the put. *)
Definition renew_request (c : Coordinator) (now : Z) : result lease_error put_request :=
  match c_etag c with
  | Some t =>
      if fenced c || (Epoch (record c) =? 0) then Err ErrFenced
      else
        Ok (mkPut (mkLease (Version (record c)) (Holder (record c)) (Epoch (record c)) now
                     (now + LeaseTTL (opts c))) (IfMatch t))
  | None => Err ErrFenced
  end.

Definition renew_finish (c : Coordinator) (now : Z) (p : put_request) (res : put_response)
  : result lease_error unit * Coordinator :=
  match res with
  | Err ErrPreconditionFailed | Err ErrNotFound => (Err ErrFenced, markFenced c)
  | Err e => (Err e, c)
  | Ok None => (Err ErrNoETag, c)
  | Ok (Some t) =>
      (Ok tt, mkCoordinator (holder c) (opts c) (Some t) (p_next p) now (fenced c))
  end.

(** [putJSON] refuses an oversized payload before it reaches the store. *)
Definition putJSON_size_ok (c : Coordinator) (payload : Z) : bool :=
  payload <=? MaxManifestBytes (opts c).

(** [Guard] is [Renew] followed by the gate. *)
Definition Guard (c : Coordinator) (now : Z) (p : put_request) (res : put_response) (clock : Z)
  : result lease_error Z * Coordinator :=
  match renew_finish c now p res with
  | (Err e, c1) => (Err e, c1)
  | (Ok _, c1) => CanDecide c1 clock
  end.

(** One tick of [KeepAlive]: [true] when the loop returns fenced. *)
Definition keepalive_stops (c : Coordinator) (renewed : result lease_error unit) (clock : Z) : bool :=
  match renewed with
  | Ok _ => false
  | Err _ => match fst (CanDecide c clock) with Ok _ => false | Err _ => true end
  end.

(** ** The protocol *)

Section protocol.
  (** The controllers share one configuration; [clock c t] is controller
      [c]'s clock at true time [t]. *)
  Context (O : Options) (clock : string -> Z -> Z).

Definition clocks_ok : Prop :=
    (forall c t t', t <= t' -> clock c t <= clock c t') /\
    (forall c d t, Z.abs (clock c t - clock d t) <= MaxClockSkew O).

Inductive op := OpAcquire | OpRenew.

  (** Where a controller's current operation is.  [opMu] admits one at a
      time. *)
Inductive stage :=
  | Idle
  | ReadNow (now : Z)
  | Sending (k : op) (now : Z) (p : put_request)
  | Answered (k : op) (now : Z) (p : put_request) (res : put_response).

Record system := mkSystem {
    time : Z;
    stored : option (leaseRecord * nat);
    nextTag : nat;
    peers : gmap string (Coordinator * stage);
    (** requests whose sender gave up but which may still reach the store *)
    floating : list put_request }.

Definition holds_cond (s : system) (p : put_request) : bool :=
    match p_cond p, stored s with
    | IfMatch t, Some (_, t') => (t =? t')%nat
    | IfNoneMatch, None => true
    | _, _ => false
    end.

Definition apply_put (s : system) (p : put_request) : system :=
    mkSystem (time s) (Some (p_next p, nextTag s)) (S (nextTag s)) (peers s) (floating s).

Definition set_peer (s : system) (c : string) (q : Coordinator * stage) : system :=
    mkSystem (time s) (stored s) (nextTag s) (<[c := q]> (peers s)) (floating s).

  (** The object as a reader finds it: well-formed, or unreadable through a
      store failure. *)
Definition object_of (s : system) (o : opened) : Prop :=
    match o with
    | ObjMissing => stored s = None
    | ObjFailed _ => True
    | ObjFound _ _ decoded _ tag =>
        exists r t, stored s = Some (r, t) /\ tag = Some t /\ (decoded = Some r \/ decoded = None)
    end.

Inductive step : system -> system -> Prop :=
  | step_time s t : time s <= t ->
      step s (mkSystem t (stored s) (nextTag s) (peers s) (floating s))
  | step_acquire_now s c k : peers s !! c = Some (k, Idle) ->
      step s (set_peer s c (k, ReadNow (clock c (time s))))
  | step_acquire_read s c k now o : peers s !! c = Some (k, ReadNow now) -> object_of s o ->
      step s (set_peer s c
        (k, match acquire_request k now o with
            | Ok (p, _) => Sending OpAcquire now p
            | Err _ => Idle
            end))
  | step_renew_begin s c k p : peers s !! c = Some (k, Idle) ->
      renew_request k (clock c (time s)) = Ok p ->
      step s (set_peer s c (k, Sending OpRenew (clock c (time s)) p))
  | step_put_applied s c k kind now p (answer : bool) :
      peers s !! c = Some (k, Sending kind now p) -> holds_cond s p = true ->
      step s (set_peer (apply_put s p) c
        (k, Answered kind now p
              (if answer then Ok (Some (nextTag s)) else Err (ErrStore "response lost"))))
  | step_put_refused s c k kind now p :
      peers s !! c = Some (k, Sending kind now p) -> holds_cond s p = false ->
      step s (set_peer s c (k, Answered kind now p (Err ErrPreconditionFailed)))
  | step_put_abandoned s c k kind now p :
      peers s !! c = Some (k, Sending kind now p) ->
      step s (set_peer (mkSystem (time s) (stored s) (nextTag s) (peers s) (p :: floating s)) c
        (k, Answered kind now p (Err (ErrStore "timeout"))))
  | step_floating s p rest rest' : floating s = rest ++ p :: rest' -> holds_cond s p = true ->
      step s (mkSystem (time s) (Some (p_next p, nextTag s)) (S (nextTag s)) (peers s) (rest ++ rest'))
  | step_finish_acquire s c k now p res :
      peers s !! c = Some (k, Answered OpAcquire now p res) ->
      step s (set_peer s c (snd (acquire_finish k now p res (clock c (time s))), Idle))
  | step_finish_renew s c k now p res :
      peers s !! c = Some (k, Answered OpRenew now p res) ->
      step s (set_peer s c (snd (renew_finish k now p res), Idle))
  | step_decide s c k st : peers s !! c = Some (k, st) ->
      step s (set_peer s c (snd (CanDecide k (clock c (time s))), st)).

  (** Controllers before their first [Acquire], each under its own holder
      name, and any lease left behind by earlier processes. *)
Definition initial (s : system) : Prop :=
    floating s = [] /\
    (forall r t, stored s = Some (r, t) -> (t < nextTag s)%nat) /\
    (forall c k st, peers s !! c = Some (k, st) ->
       st = Idle /\ k = mkCoordinator c O None noLease 0 false).

  (** Controller [c] passes the gate with epoch [e]. *)
Definition decides (s : system) (c : string) (e : Z) : Prop :=
    exists k st, peers s !! c = Some (k, st) /\ fst (CanDecide k (clock c (time s))) = Ok e.

  (** ** The invariant *)

  (** Its parts depend on the time, the stored object and the next tag only. *)
Record view := mkView { v_time : Z; v_stored : option (leaseRecord * nat); v_tag : nat }.
Definition view_of (s : system) : view := mkView (time s) (stored s) (nextTag s).

  (** A record some controller believes it wrote: the store still carries
      that controller's lease, at least as long, or its own clock has passed
      the expiry. *)
Definition held_ok (v : view) (c : string) (rec : leaseRecord) : Prop :=
    (exists R t, v_stored v = Some (R, t) /\ Holder R = c /\
       Epoch R = Epoch rec /\ ExpiresAt rec <= ExpiresAt R) \/
    ExpiresAt rec <= clock c (v_time v).

  (** A request on its way: it overwrites either its sender's own record with
      a later expiry and the same epoch, or, with the next epoch, a record
      that has expired on the sender's clock by more than the skew. *)
Definition put_ok (v : view) (c : string) (p : put_request) : Prop :=
    Holder (p_next p) = c /\
    match p_cond p with
    | IfNoneMatch => True
    | IfMatch t =>
        (t < v_tag v)%nat /\
        forall R, v_stored v = Some (R, t) ->
          (Holder R = c /\ Epoch (p_next p) = Epoch R /\ ExpiresAt R <= ExpiresAt (p_next p)) \/
          (Epoch (p_next p) = Epoch R + 1 /\
           ExpiresAt R + MaxClockSkew O <= clock c (v_time v))
    end.

Definition tagged (v : view) (t : nat) (rec : leaseRecord) : Prop :=
    (t < v_tag v)%nat /\ forall R, v_stored v = Some (R, t) -> R = rec.

Definition coord_ok (v : view) (c : string) (k : Coordinator) : Prop :=
    holder k = c /\ opts k = O /\
    (Epoch (record k) <> 0 ->
       Holder (record k) = c /\ ExpiresAt (record k) = lastSuccess k + LeaseTTL O /\
       lastSuccess k <= clock c (v_time v) /\ held_ok v c (record k)) /\
    (forall t, c_etag k = Some t -> tagged v t (record k)).

Definition timed_put (v : view) (c : string) (now : Z) (p : put_request) : Prop :=
    now <= clock c (v_time v) /\ Holder (p_next p) = c /\
    ExpiresAt (p_next p) = now + LeaseTTL O.

Definition stage_ok (v : view) (c : string) (st : stage) : Prop :=
    match st with
    | Idle => True
    | ReadNow now => now <= clock c (v_time v)
    | Sending _ now p => timed_put v c now p /\ put_ok v c p
    | Answered _ now p res =>
        timed_put v c now p /\
        forall t, res = Ok (Some t) -> held_ok v c (p_next p) /\ tagged v t (p_next p)
    end.

Definition inv (s : system) : Prop :=
    let v := view_of s in
    (forall R t, stored s = Some (R, t) -> (t < nextTag s)%nat) /\
    (forall c k st, peers s !! c = Some (k, st) -> coord_ok v c k /\ stage_ok v c st) /\
    Forall (fun p => exists c, put_ok v c p) (floating s).

  (** ** Evolution of the view *)

Definition written (v : view) (p : put_request) : view :=
    mkView (v_time v) (Some (p_next p, v_tag v)) (S (v_tag v)).

Definition cond_holds (v : view) (p : put_request) : Prop :=
    match p_cond p with
    | IfMatch t => exists R, v_stored v = Some (R, t)
    | IfNoneMatch => v_stored v = None
    end.

Inductive evolves (v : view) : view -> Prop :=
  | ev_time t : v_time v <= t -> evolves v (mkView t (v_stored v) (v_tag v))
  | ev_put c p : put_ok v c p -> cond_holds v p -> evolves v (written v p).

Lemma holds_cond_spec s p : holds_cond s p = true -> cond_holds (view_of s) p.
  Proof.
    unfold holds_cond, cond_holds. destruct (p_cond p), (stored s) as [[R t']|] eqn:E; cbn;
      try discriminate; [|done].
    intros H%Nat.eqb_eq. subst. rewrite E. eauto.
  Qed.

  Context (Hclk : clocks_ok).

Lemma clock_mono c t t' : t <= t' -> clock c t <= clock c t'.
  Proof. apply Hclk. Qed.

Lemma clock_skew c d t : clock d t <= clock c t + MaxClockSkew O.
  Proof. destruct Hclk as [_ H]. specialize (H c d t). lia. Qed.

Lemma held_evolves v v' c rec : evolves v v' -> held_ok v c rec -> held_ok v' c rec.
  Proof.
    destruct 1 as [t Ht|x p [Hx Hp] Hcond]; unfold held_ok; cbn.
    - intros [H|H]; [by left|right]. pose proof (clock_mono c _ _ Ht). lia.
    - intros [(R & t & HR & Hc & Hep & He)|H]; [|by right].
      unfold cond_holds in Hcond. destruct (p_cond p) as [t'|]; [|congruence].
      destruct Hcond as [R' HR']. rewrite HR in HR'. injection HR' as <- <-.
      destruct Hp as [_ Hp]. destruct (Hp R HR) as [(Hy & Hey & Hle)|[_ Hle]].
      + left. exists (p_next p), (v_tag v). split_and!; [done|congruence|lia|lia].
      + right. pose proof (clock_skew c x (v_time v)). lia.
  Qed.

Lemma tagged_evolves v v' t rec : evolves v v' -> tagged v t rec -> tagged v' t rec.
  Proof.
    destruct 1; unfold tagged; cbn; intros [H1 H2]; split; auto.
    intros R [= _ Heq]. lia.
  Qed.

Lemma put_evolves v v' c p : evolves v v' -> put_ok v c p -> put_ok v' c p.
  Proof.
    destruct 1 as [t Ht|x q Hq Hcond]; unfold put_ok; cbn; intros [Hc Hp]; (split; [done|]);
      (destruct (p_cond p) as [t'|]; [|done]); destruct Hp as [H1 H2].
    - split; [done|]. intros R HR. destruct (H2 R HR) as [?|[? ?]]; [by left|right]. split; [done|].
      pose proof (clock_mono c _ _ Ht). lia.
    - split; [lia|]. intros R [= _ Heq]. lia.
  Qed.

Lemma clock_evolves v v' c z : evolves v v' -> z <= clock c (v_time v) -> z <= clock c (v_time v').
  Proof. destruct 1 as [t Ht|]; cbn; [|done]. pose proof (clock_mono c _ _ Ht). lia. Qed.

Lemma coord_evolves v v' c k : evolves v v' -> coord_ok v c k -> coord_ok v' c k.
  Proof.
    intros Hev (Hh & Ho & He & Ht). split_and!; [done..| |].
    - intros Hne. destruct (He Hne) as (? & ? & ? & ?).
      split_and!; eauto using clock_evolves, held_evolves.
    - eauto using tagged_evolves.
  Qed.

Lemma stage_evolves v v' c st : evolves v v' -> stage_ok v c st -> stage_ok v' c st.
  Proof.
    intros Hev. destruct st as [|now|kind now p|kind now p res]; cbn; unfold timed_put;
      eauto using clock_evolves.
    - intros [(?&?&?) ?]. eauto 6 using clock_evolves, put_evolves.
    - intros [(?&?&?) Hr]. split; [eauto using clock_evolves|]. intros t Ht.
      destruct (Hr t Ht). eauto using held_evolves, tagged_evolves.
  Qed.
  #[local] Hint Resolve coord_evolves stage_evolves put_evolves : rm.

  (** A freshly written record is held by its writer. *)
Lemma written_held v c p : put_ok v c p ->
    held_ok (written v p) c (p_next p) /\ tagged (written v p) (v_tag v) (p_next p).
  Proof.
    intros [Hc _]. split.
    - left. exists (p_next p), (v_tag v). split_and!; [done|done|done|lia].
    - split; cbn; [lia|]. by intros R [= <-].
  Qed.

  (** ** Preservation *)

Lemma inv_evolves s s' :
    inv s -> evolves (view_of s) (view_of s') ->
    (forall p, p ∈ floating s' -> p ∈ floating s) ->
    (forall R t, stored s' = Some (R, t) -> (t < nextTag s')%nat) ->
    (forall c k st, peers s' !! c = Some (k, st) ->
       peers s !! c = Some (k, st) \/ (coord_ok (view_of s') c k /\ stage_ok (view_of s') c st)) ->
    inv s'.
  Proof.
    intros (Htag & Hpeers & Hfl) Hev Hsub Htag' Hnew. split_and!; [done| |].
    - intros c k st H. destruct (Hnew c k st H) as [Hold|]; [|done].
      destruct (Hpeers c k st Hold). eauto with rm.
    - apply Forall_forall. intros p Hp%Hsub.
      rewrite Forall_forall in Hfl. destruct (Hfl p Hp) as [c Hc]. eauto with rm.
  Qed.

Lemma evolves_refl v : evolves v v.
  Proof. destruct v as [t st tg]. by apply (ev_time (mkView t st tg) t). Qed.

  (** Replacing one controller's entry, nothing else changing. *)
Lemma inv_set_peer s c k st :
    inv s -> coord_ok (view_of s) c k -> stage_ok (view_of s) c st -> inv (set_peer s c (k, st)).
  Proof.
    intros Hinv Hk Hst. apply (inv_evolves s); [done|apply evolves_refl|done|apply Hinv|].
    intros c' k' st'. cbn. destruct (decide (c = c')) as [<-|Hne].
    - rewrite lookup_insert_eq. intros [= <- <-]. by right.
    - rewrite lookup_insert_ne by done. by left.
  Qed.

Lemma coord_markFenced v c k : coord_ok v c k -> coord_ok v c (markFenced k).
  Proof. done. Qed.

Lemma coord_CanDecide v c k now : coord_ok v c k -> coord_ok v c (snd (CanDecide k now)).
  Proof. unfold CanDecide. intros. repeat step_if; cbn; auto using coord_markFenced. Qed.

Lemma coord_adopt v c k now t p :
    coord_ok v c k -> timed_put v c now p -> held_ok v c (p_next p) -> tagged v t (p_next p) ->
    forall f, coord_ok v c (mkCoordinator (holder k) (opts k) (Some t) (p_next p) now f).
  Proof.
    intros (Hh & Ho & _ & _) (Hn & Hc & He) Hheld Ht f. split_and!; cbn; [done..| |].
    - intros _. by split_and!.
    - by intros t' [= <-].
  Qed.

Lemma acquire_request_ok s c k now o p prev :
    inv s -> coord_ok (view_of s) c k -> now <= clock c (time s) -> object_of s o ->
    acquire_request k now o = Ok (p, prev) ->
    timed_put (view_of s) c now p /\ put_ok (view_of s) c p.
  Proof.
    intros (Htag & _) (Hh & Ho & _) Hn Hobj. unfold acquire_request, readLease.
    destruct (readJSON _ o) as [[r tag]|e] eqn:Ej.
    2:{ destruct e; intros [= <- <-]. unfold timed_put, put_ok; cbn. rewrite Ho. auto. }
    destruct (_ || _); [discriminate|]. destruct tag as [t|]; [|discriminate].
    destruct (now <? _) eqn:Enow; [discriminate|]. destruct (Epoch r =? _); [discriminate|].
    intros [= <- <-]. bool_hyp. unfold timed_put, put_ok; cbn. rewrite Ho in *.
    split_and!; [done..| |].
    - destruct o as [| |size payload decoded trailing tag]; try discriminate.
      destruct Hobj as (R & t' & HR & -> & _). unfold readJSON in Ej.
      repeat (step_if || step_match; try discriminate). injection Ej as <- <-. by eapply Htag.
    - intros R HR. right. destruct o as [| |size payload decoded trailing tag]; try discriminate.
      destruct Hobj as (R' & t' & HR' & -> & Hdec). rewrite HR in HR'. injection HR' as <- _.
      unfold readJSON in Ej. repeat (step_if || step_match; try discriminate).
      injection Ej as <-. destruct Hdec as [[= <-]|]; [split; [done|lia]|discriminate].
  Qed.

Lemma renew_request_ok s c k p :
    coord_ok (view_of s) c k -> renew_request k (clock c (time s)) = Ok p ->
    timed_put (view_of s) c (clock c (time s)) p /\ put_ok (view_of s) c p.
  Proof.
    intros (Hh & Ho & He & Ht). unfold renew_request.
    destruct (c_etag k) as [t|]; [|discriminate]. destruct (_ || _) eqn:E; [discriminate|].
    bool_hyp. intros [= <-]. destruct (He ltac:(done)) as (Hc & Hx & Hl & _).
    destruct (Ht t eq_refl) as [H1 H2]. unfold timed_put, put_ok; cbn. rewrite Ho.
    split_and!; [lia|done|done|done|done|]. intros R HR%H2. subst R. left.
    split_and!; [done|done|]. cbn in Hl. lia.
  Qed.

Lemma inv_step s s' : inv s -> step s s' -> inv s'.
  Proof.
    intros Hinv Hstep. pose proof Hinv as (Htag & Hpeers & Hfl).
    destruct Hstep as [s t Ht|s c k Hp|s c k now o Hp Ho|s c k p Hp Hr|s c k kind now p answer Hp Hc
      |s c k kind now p Hp Hc|s c k kind now p Hp|s p rest rest' Hf Hc|s c k now p res Hp
      |s c k now p res Hp|s c k st Hp].
    - apply (inv_evolves s); auto. by apply (ev_time (view_of s)).
    - destruct (Hpeers _ _ _ Hp). apply inv_set_peer; cbn; [done..|lia].
    - destruct (Hpeers _ _ _ Hp) as [Hk Hst]. apply inv_set_peer; [done..|].
      destruct (acquire_request k now o) as [[p prev]|] eqn:E; [|done].
      by eapply acquire_request_ok.
    - destruct (Hpeers _ _ _ Hp) as [Hk _]. apply inv_set_peer; [done..|].
      by apply renew_request_ok in Hr.
    - destruct (Hpeers _ _ _ Hp) as [Hk [Htp Hput]].
      assert (Hev : evolves (view_of s) (view_of (apply_put s p)))
        by (apply (ev_put (view_of s) c); auto using holds_cond_spec).
      assert (inv (apply_put s p)).
      { apply (inv_evolves s); auto. cbn. intros R t [= _ <-]. lia. }
      apply inv_set_peer; [done|by eapply coord_evolves|]. split; [done|].
      intros t. destruct answer; [|discriminate]. intros [= <-].
      by apply (written_held (view_of s)).
    - destruct (Hpeers _ _ _ Hp) as [Hk [Htp Hput]]. by apply inv_set_peer.
    - destruct (Hpeers _ _ _ Hp) as [Hk [Htp Hput]].
      assert (inv (mkSystem (time s) (stored s) (nextTag s) (peers s) (p :: floating s))).
      { split_and!; [done|done|]. constructor; [by exists c|done]. }
      by apply inv_set_peer.
    - rewrite Hf, Forall_app, Forall_cons in Hfl. destruct Hfl as (Hf1 & [c Hput] & Hf2).
      apply (inv_evolves s); auto.
      + apply (ev_put (view_of s) c); auto using holds_cond_spec.
      + cbn. intros q. rewrite Hf, !elem_of_app, elem_of_cons. tauto.
      + cbn. intros R t [= _ <-]. lia.
    - destruct (Hpeers _ _ _ Hp) as [Hk [Htp Hres]]. apply inv_set_peer; [done| |done].
      unfold acquire_finish. destruct res as [[t|]|e]; [|done|by destruct e].
      destruct (Hres t eq_refl) as [Hh Ht].
      pose proof (coord_adopt _ _ _ _ _ _ Hk Htp Hh Ht false) as Hk'.
      apply (coord_CanDecide _ _ _ (clock c (time s))) in Hk'.
      by destruct (CanDecide _ _) as [[|] ?].
    - destruct (Hpeers _ _ _ Hp) as [Hk [Htp Hres]]. apply inv_set_peer; [done| |done].
      unfold renew_finish. destruct res as [[t|]|e]; [|done|by destruct e].
      destruct (Hres t eq_refl) as [Hh Ht]. by apply coord_adopt.
    - destruct (Hpeers _ _ _ Hp) as [Hk Hst]. apply inv_set_peer; auto using coord_CanDecide.
  Qed.

Lemma inv_initial s : initial s -> inv s.
  Proof.
    intros (Hf & Hs & Hp). split_and!.
    - intros R t H. by eapply Hs.
    - intros c k st H. destruct (Hp c k st H) as [-> ->]. by split.
    - rewrite Hf. constructor.
  Qed.

Lemma inv_reachable s s' : initial s -> rtc step s s' -> inv s'.
  Proof. intros H Hr. eapply (rtc_invariant step inv inv_step); eauto using inv_initial. Qed.

  (** Passing the gate means owning the stored record. *)
Lemma decide_owns s c e : inv s -> LeaseTTL O <= maxInt64 -> decides s c e ->
    exists R t, stored s = Some (R, t) /\ Holder R = c /\ Epoch R = e.
  Proof.
    intros (_ & Hp & _) Httl (k & st & Hk & Hd).
    destruct (Hp c k st Hk) as [(Hh & Ho & He & _) _].
    unfold CanDecide in Hd. destruct (_ || _) eqn:E1; [discriminate|]. bool_hyp.
    destruct (_ || _) eqn:E2 in Hd; [discriminate|]. bool_hyp.
    destruct (He ltac:(done)) as (Hc & Hx & _ & [(R & t & HR & HcR & HeR & _)|Hexp]).
    { injection Hd as <-. by eauto. }
    exfalso. rewrite Ho in *. cbn in Hexp. unfold time_sub, minInt64 in *. lia.
  Qed.
  (** ** The stored record only moves forward *)

Definition later (v v' : view) : Prop :=
    forall R t, v_stored v = Some (R, t) ->
    exists R' t', v_stored v' = Some (R', t') /\
      (Epoch R < Epoch R' \/ (Epoch R = Epoch R' /\ Holder R = Holder R')).

Lemma evolves_later v v' : evolves v v' -> later v v'.
  Proof.
    destruct 1 as [t Ht|x p [Hx Hp] Hcond]; intros R t0 HR; cbn; [eauto 6|].
    exists (p_next p), (v_tag v). split; [done|].
    unfold cond_holds in Hcond. destruct (p_cond p) as [t'|]; [|congruence].
    destruct Hcond as [R' HR']. rewrite HR in HR'. injection HR' as <- <-.
    destruct Hp as [_ Hp]. destruct (Hp R HR) as [(? & ? & _)|[? _]]; [right|left]; [|lia].
    split; congruence.
  Qed.

Lemma step_evolves s s' : inv s -> step s s' -> evolves (view_of s) (view_of s').
  Proof.
    intros Hinv Hst. revert Hinv.
    destruct Hst as [s0 t Ht| | | |s0 c k kind now p answer Hp Hc| | |s0 p rest rest' Hf Hc| | |];
      intros (_ & Hpeers & Hfl); try apply evolves_refl.
    - by apply (ev_time (view_of s0)).
    - destruct (Hpeers _ _ _ Hp) as [_ [_ Hput]].
      apply (ev_put (view_of s0) c); auto using holds_cond_spec.
    - rewrite Hf, Forall_app, Forall_cons in Hfl. destruct Hfl as (_ & [c Hput] & _).
      apply (ev_put (view_of s0) c); auto using holds_cond_spec.
  Qed.

Lemma later_trans v1 v2 v3 : later v1 v2 -> later v2 v3 -> later v1 v3.
  Proof.
    intros H1 H2 R t HR. destruct (H1 R t HR) as (R2 & t2 & HR2 & Ho).
    destruct (H2 R2 t2 HR2) as (R3 & t3 & HR3 & Ho'). exists R3, t3. split; [done|].
    destruct Ho as [?|[? ?]], Ho' as [?|[? ?]]; [left; lia..|]. right. split; congruence.
  Qed.

Lemma reachable_later s s' : inv s -> rtc step s s' -> later (view_of s) (view_of s').
  Proof.
    intros Hinv Hr. induction Hr as [s|s s1 s' Hst Hr IH]; [intros R t H; eauto 6|].
    eapply later_trans; [apply evolves_later, step_evolves; eauto|].
    apply IH. by eapply inv_step.
  Qed.

Lemma owners_ordered s1 s2 c d e1 e2 :
    inv s1 -> inv s2 -> LeaseTTL O <= maxInt64 -> rtc step s1 s2 ->
    decides s1 c e1 -> decides s2 d e2 -> c <> d -> e1 < e2.
  Proof.
    intros Hinv1 Hinv2 Httl Hr Hc Hd Hne.
    destruct (decide_owns s1 c e1 Hinv1 Httl Hc) as (R & t & HR & <- & <-).
    destruct (decide_owns s2 d e2 Hinv2 Httl Hd) as (R' & t' & HR' & <- & <-).
    destruct (reachable_later s1 s2 Hinv1 Hr R t HR) as (R2 & t2 & HR2 & Ho).
    cbn in HR2. rewrite HR' in HR2. injection HR2 as <- <-.
    destruct Ho as [|[_ ?]]; [done|congruence].
  Qed.
End protocol.

(** ** Properties *)

(** C2: at most one controller can decide.  From controllers that have
    not yet acquired, after any interleaving of acquisitions and renewals,
    with requests delayed, refused, abandoned and applied late, and responses
    lost, no two different controllers pass the decision gate at the same
    instant, if their clocks never run backwards and agree within
    [MaxClockSkew]; and the epoch the gate returns is the stored one. *)
Theorem at_most_one_decider : forall O clock s s' c d e e',
  clocks_ok O clock -> LeaseTTL O <= maxInt64 ->
  initial O s -> rtc (step clock) s s' ->
  decides clock s' c e -> decides clock s' d e' -> c = d /\ e = e'.
Proof.
  intros O clock s s' c d e e' Hclk Httl Hi Hr Hc Hd.
  pose proof (inv_reachable O clock Hclk s s' Hi Hr) as Hinv.
  destruct (decide_owns O clock s' c e Hinv Httl Hc) as (R & t & HR & <- & <-).
  destruct (decide_owns O clock s' d e' Hinv Httl Hd) as (R' & t' & HR' & <- & <-).
  split; congruence.
Qed.

(** epochs are fencing tokens.  If a controller decides at one
    moment and a different controller decides at a later moment, the later
    epoch is strictly greater, so a node that remembers the highest epoch it
    has seen refuses the earlier controller from then on. *)
Theorem later_decider_has_higher_epoch : forall O clock s s1 s2 c d e1 e2,
  clocks_ok O clock -> LeaseTTL O <= maxInt64 ->
  initial O s -> rtc (step clock) s s1 -> rtc (step clock) s1 s2 ->
  decides clock s1 c e1 -> decides clock s2 d e2 -> c <> d -> e1 < e2.
Proof.
  intros O clock s s1 s2 c d e1 e2 Hclk Httl Hi Hr1 Hr2 Hc Hd Hne.
  pose proof (inv_reachable O clock Hclk s s1 Hi Hr1) as Hinv1.
  pose proof (rtc_invariant _ _ (inv_step O clock Hclk) _ _ Hr2 Hinv1) as Hinv2.
  exact (owners_ordered O clock Hclk s1 s2 c d e1 e2 Hinv1 Hinv2 Httl Hr2 Hc Hd Hne).
Qed.

(** ** Progress *)

(** A step by [c] or of the clock: the other controllers do nothing. *)
Definition own_step (clock : string -> Z -> Z) (c : string) (s s' : system) : Prop :=
  step clock s s' /\ forall d, d <> c -> peers s' !! d = peers s !! d.

(** One acquisition by controller [c] of whatever the store holds. *)
Definition acquired (clock : string -> Z -> Z) (s : system) (c : string) (o : opened) : system :=
  match peers s !! c with
  | Some (k, _) =>
      let now := clock c (time s) in
      match acquire_request k now o with
      | Ok (p, _) =>
          set_peer (apply_put s p) c
            (snd (acquire_finish k now p (Ok (Some (nextTag s))) now), Idle)
      | Err _ => s
      end
  | None => s
  end.

Lemma own_peer clock c s s1 q : step clock s (set_peer s1 c q) -> peers s1 = peers s ->
  own_step clock c s (set_peer s1 c q).
Proof. intros Hs Hp. split; [done|]. intros d Hd. cbn. by rewrite lookup_insert_ne, Hp. Qed.

Lemma acquired_run clock s c o k p q :
  peers s !! c = Some (k, Idle) -> object_of s o ->
  acquire_request k (clock c (time s)) o = Ok (p, q) -> holds_cond s p = true ->
  rtc (own_step clock c) s (acquired clock s c o).
Proof.
  intros Hk Ho Ha Hc. unfold acquired. rewrite Hk, Ha.
  eapply rtc_l; [apply own_peer; [by apply (step_acquire_now _ s c k)|done]|].
  eapply rtc_l; [apply own_peer; [eapply (step_acquire_read _ _ c k _ o); [apply lookup_insert_eq|exact Ho]|done]|].
  rewrite Ha.
  eapply rtc_l; [apply own_peer;
    [eapply (step_put_applied _ _ c k OpAcquire _ p true); [apply lookup_insert_eq|exact Hc]|done]|].
  eapply rtc_l; [apply own_peer; [eapply (step_finish_acquire _ _ c k); apply lookup_insert_eq|done]|].
  unfold set_peer, apply_put; cbn. rewrite !insert_insert_eq. apply rtc_refl.
Qed.

(** A lease record that [readLease] accepts. *)
Definition valid_record (r : leaseRecord) : bool :=
  negb (negb (Version r =? formatVersion) || (Holder r =s "") || (Epoch r =? 0)
        || isZeroTime (IssuedAt r) || (ExpiresAt r <=? IssuedAt r)).

Lemma takeover_request k now R t : 1 <= MaxManifestBytes (opts k) -> valid_record R = true ->
  ExpiresAt R + MaxClockSkew (opts k) <= now -> Epoch R <> maxUint64 ->
  acquire_request k now (ObjFound 1 1 (Some R) false (Some t))
  = Ok (mkPut (mkLease formatVersion (holder k) (Epoch R + 1) now (now + LeaseTTL (opts k))) (IfMatch t), Epoch R).
Proof.
  intros Hm Hv Hx He. unfold acquire_request, readLease, readJSON. unfold valid_record in Hv.
  apply negb_true_iff in Hv. zb. rewrite Hv. zb. done.
Qed.

Lemma finish_decides k now p tag : isZeroTime now = false -> 0 < LeaseTTL (opts k) -> Epoch (p_next p) <> 0 ->
  exists k', acquire_finish k now p (Ok (Some tag)) now = (Ok (Epoch (p_next p)), k') /\
    fst (CanDecide k' now) = Ok (Epoch (p_next p)).
Proof.
  intros Hz Ht He. unfold acquire_finish.
  assert (CanDecide (mkCoordinator (holder k) (opts k) (Some tag) (p_next p) now false) now
          = (Ok (Epoch (p_next p)), mkCoordinator (holder k) (opts k) (Some tag) (p_next p) now false)) as Hc.
  { unfold CanDecide. cbn. rewrite Hz. zb. unfold time_sub, minInt64, maxInt64. rewrite Z.sub_diag. by zb. }
  rewrite Hc. eexists. split; [done|]. by rewrite Hc.
Qed.

(** C3: a lease its holder no longer renews does not block the others:
    from any state, if the clock of an idle controller advances, it can wait
    and then, by its own requests alone, become the one that decides, under
    the next epoch. *)
Theorem abandoned_lease_is_taken_over clock s c k R t :
  peers s !! c = Some (k, Idle) -> 0 < LeaseTTL (opts k) -> 1 <= MaxManifestBytes (opts k) ->
  stored s = Some (R, t) -> valid_record R = true -> 0 < Epoch R < maxUint64 ->
  (forall x, exists t', time s <= t' /\ x <= clock c t') ->
  exists s', rtc (own_step clock c) s s' /\ decides clock s' c (Epoch R + 1).
Proof.
  intros Hk Httl Hm Hs Hv He Hclk.
  destruct (Hclk (Z.max 1 (ExpiresAt R + MaxClockSkew (opts k)))) as (t' & Ht' & Hx).
  set (s1 := mkSystem t' (stored s) (nextTag s) (peers s) (floating s)).
  pose proof (takeover_request k (clock c t') R t Hm Hv ltac:(lia) ltac:(lia)) as Hreq.
  set (o := ObjFound 1 1 (Some R) false (Some t)) in *.
  exists (acquired clock s1 c o). split.
  - eapply rtc_l; [split; [by apply (step_time _ s t')|done]|].
    eapply acquired_run; [exact Hk| |exact Hreq|].
    + exists R, t. split_and!; [exact Hs|done|by left].
    + unfold holds_cond. cbn. rewrite Hs. apply Nat.eqb_refl.
  - unfold acquired. cbn [peers s1 time]. rewrite Hk, Hreq.
    match goal with |- context [acquire_finish k _ ?p (Ok (Some ?tag)) _] =>
      destruct (finish_decides k (clock c t') p tag) as (k' & -> & Hd) end;
      [unfold isZeroTime; apply Z.eqb_neq; lia|done|cbn; lia|].
    exists k', Idle. split; [apply lookup_insert_eq|exact Hd].
Qed.

(** ** A concrete run *)

Definition ex_options : Options :=
  match withDefaults (mkOptions "" 0 0 0 0 0 0 0 0 0 0 0) with
  | Ok o => o
  | Err _ => mkOptions "" 0 0 0 0 0 0 0 0 0 0 0
  end.

Definition ex_clock (c : string) (t : Z) : Z := if c =s "b" then t + 100 else t.

Definition ex_start : system :=
  mkSystem 1000 None 0
    (<["a" := (mkCoordinator "a" ex_options None noLease 0 false, Idle)]>
      (<["b" := (mkCoordinator "b" ex_options None noLease 0 false, Idle)]> ∅)) [].

Lemma ex_clocks_ok : clocks_ok ex_options ex_clock.
Proof.
  split.
  - intros c t t' H. unfold ex_clock. destruct (c =s "b"); lia.
  - intros c d t. unfold ex_clock. change (MaxClockSkew ex_options) with 250000000.
    destruct (c =s "b"), (d =s "b"); lia.
Qed.

Lemma ex_initial : initial ex_options ex_start.
Proof.
  split_and!; [done|discriminate|]. intros c k st. unfold ex_start; cbn.
  destruct (decide (c = "a")) as [->|]; [rewrite lookup_insert_eq; naive_solver|].
  rewrite lookup_insert_ne by done.
  destruct (decide (c = "b")) as [->|]; [rewrite lookup_insert_eq; naive_solver|].
  by rewrite lookup_insert_ne, lookup_empty.
Qed.

Definition ex_acquire : system -> string -> opened -> system := acquired ex_clock.

Lemma ex_acquire_run s c o k p q :
  peers s !! c = Some (k, Idle) -> object_of s o ->
  acquire_request k (ex_clock c (time s)) o = Ok (p, q) -> holds_cond s p = true ->
  rtc (step ex_clock) s (ex_acquire s c o).
Proof.
  intros Hk Ho Ha Hc. eapply rtc_subrel; [|by eapply acquired_run]. by intros x y [? _].
Qed.

Definition ex_held : system := ex_acquire ex_start "a" ObjMissing.

Definition ex_expired : system :=
  mkSystem 10000001000 (stored ex_held) (nextTag ex_held) (peers ex_held) (floating ex_held).

Definition ex_taken_over : system :=
  ex_acquire ex_expired "b"
    (ObjFound 100 100 (option_map fst (stored ex_held)) false (option_map snd (stored ex_held))).

Lemma ex_run1 : rtc (step ex_clock) ex_start ex_held.
Proof. eapply ex_acquire_run; [vm_compute; reflexivity|reflexivity|vm_compute; reflexivity..]. Qed.

Lemma ex_run2 : rtc (step ex_clock) ex_held ex_taken_over.
Proof.
  eapply rtc_l; [apply (step_time _ ex_held 10000001000); vm_compute; discriminate|].
  eapply (ex_acquire_run ex_expired); [vm_compute; reflexivity| |vm_compute; reflexivity..].
  exists (mkLease 1 "a" 1 1000 3000001000), 0%nat. split_and!; [vm_compute; reflexivity..|].
  left. vm_compute. reflexivity.
Qed.

Lemma decides_compute clock s c e :
  match peers s !! c with
  | Some (k, _) => fst (CanDecide k (clock c (time s))) = Ok e
  | None => False
  end -> decides clock s c e.
Proof.
  unfold decides. destruct (peers s !! c) as [[k st]|]; [|done]. eauto.
Qed.

Lemma at_most_one_decider_witness :
  decides ex_clock ex_held "a" 1 /\ ("a"%string = "a"%string /\ 1 = 1).
Proof.
  assert (H : decides ex_clock ex_held "a" 1)
    by (apply decides_compute; vm_compute; reflexivity).
  split; [exact H|].
  refine (at_most_one_decider ex_options ex_clock ex_start ex_held "a" "a" 1 1
            ex_clocks_ok _ ex_initial ex_run1 H H).
  vm_compute. discriminate.
Defined.

Lemma later_decider_has_higher_epoch_witness :
  decides ex_clock ex_taken_over "b" 2 /\ 1 < 2.
Proof.
  assert (H1 : decides ex_clock ex_held "a" 1)
    by (apply decides_compute; vm_compute; reflexivity).
  assert (H2 : decides ex_clock ex_taken_over "b" 2)
    by (apply decides_compute; vm_compute; reflexivity).
  split; [exact H2|].
  refine (later_decider_has_higher_epoch ex_options ex_clock ex_start ex_held ex_taken_over
            "a" "b" 1 2 ex_clocks_ok _ ex_initial ex_run1 ex_run2 H1 H2 _); [|discriminate].
  vm_compute. discriminate.
Defined.

Lemma abandoned_lease_is_taken_over_witness :
  exists s', rtc (own_step ex_clock "b") ex_held s' /\ decides ex_clock s' "b" 2.
Proof.
  apply (abandoned_lease_is_taken_over ex_clock ex_held "b"
           (mkCoordinator "b" ex_options None noLease 0 false) (mkLease 1 "a" 1 1000 3000001000) 0);
    [by vm_compute..|by split; vm_compute|].
  intros x. exists (Z.max x (time ex_held)). split; [lia|]. change (x <= Z.max x (time ex_held) + 100). lia.
Defined.

End WriterLease.
