(* ===== verification/NodeEpoch.v ===== *)
(** * The node's controller-epoch fence

    [internal/node/controller_epoch.go]: a node persists the highest
    controller epoch it has accepted before acting on it, and refuses lower
    ones.  The file system is the content of the epoch file; each system call
    of [persistControllerEpoch] may fail on its own, and a crash may happen
    between any two operations.  The last theorem joins the fence to the
    writer lease of [WriterLease]. *)

From Stdlib Require Import ZArith Lia.
From stdpp Require Import base list gmap strings relations.
From S2P Require Import Prelude WriterLease.

#[local] Open Scope Z_scope.

Module NodeEpoch.

Inductive epoch_error :=
| CodeConflict (what : string)
| CodeInternal (what : string)
| Corrupt
| Invalid.

(** The epoch file: absent, or its decoded content; [None] does not decode. *)
Definition epoch_file : Type := option (option Z).

Definition loadControllerEpoch (f : epoch_file) : result epoch_error Z :=
  match f with
  | None => Ok 0
  | Some None => Err Corrupt
  | Some (Some e) => if e =? 0 then Err Corrupt else Ok e
  end.

(** Which of the system calls of one [persistControllerEpoch] succeed. *)
Record io := mkIO {
  io_create : bool; io_chmod : bool; io_write : bool; io_sync : bool;
  io_close : bool; io_rename : bool; io_syncdir : bool }.

Definition io_ok : io := mkIO true true true true true true true.

Definition persistControllerEpoch (x : io) (epoch : Z) (f : epoch_file)
  : result epoch_error unit * epoch_file :=
  if epoch =? 0 then (Err Invalid, f)
  else if negb (io_create x) then (Err (CodeInternal "create"), f)
  else
    let ok := io_chmod x && io_write x in
    let ok := ok && io_sync x in
    let ok := ok && io_close x in
    let renamed := ok && io_rename x in
    let f' := if renamed then Some (Some epoch) else f in
    if renamed && io_syncdir x then (Ok tt, f') else (Err (CodeInternal "persist"), f').

Record node := mkNode { controllerEpoch : Z; epochPath : epoch_file }.

Definition acceptControllerEpoch (x : io) (n : node) (epoch : Z) : result epoch_error unit * node :=
  if epoch =? 0 then (Err (CodeConflict "missing controller epoch"), n)
  else if epoch <? controllerEpoch n then (Err (CodeConflict "stale controller epoch"), n)
  else if epoch =? controllerEpoch n then (Ok tt, n)
  else
    match persistControllerEpoch x epoch (epochPath n) with
    | (Err _, f') => (Err (CodeInternal "persist controller epoch"), mkNode (controllerEpoch n) f')
    | (Ok _, f') => (Ok tt, mkNode epoch f')
    end.

(** A restart loses the memory and reads the file back. *)
Inductive epoch_step : node -> node -> Prop :=
| step_accept x n e : epoch_step n (snd (acceptControllerEpoch x n e))
| step_restart n e : loadControllerEpoch (epochPath n) = Ok e -> epoch_step n (mkNode e (epochPath n)).

(** What a restart would read. *)
Definition on_disk (n : node) : Z :=
  match epochPath n with Some (Some e) => e | _ => 0 end.

Definition fence_ok (n : node) : Prop := 0 <= controllerEpoch n <= on_disk n.

Lemma accept_spec x n e : fence_ok n -> 0 <= e ->
  let '(res, n') := acceptControllerEpoch x n e in
  fence_ok n' /\ controllerEpoch n <= controllerEpoch n' /\
  (res = Ok tt -> controllerEpoch n' = e).
Proof.
  intros Hn He. unfold acceptControllerEpoch, persistControllerEpoch, fence_ok, on_disk in *.
  destruct n as [m [[d|]|]]; cbn in *; repeat step_if; cbn; bool_hyp; split_and!; try lia;
    try discriminate; intros; try lia; done.
Qed.

Lemma step_fence n n' :
  (fence_ok n /\ (forall x e, n' = snd (acceptControllerEpoch x n e) -> 0 <= e \/ n' = n)) ->
  epoch_step n n' -> fence_ok n' /\ controllerEpoch n <= controllerEpoch n'.
Proof.
  intros [Hn Hneg] Hs. inversion Hs as [x n0 e|n0 e Hl]; subst.
  - destruct (Hneg x e eq_refl) as [He|Heq].
    + pose proof (accept_spec x n e Hn He) as Ha.
      destruct (acceptControllerEpoch x n e) as [res n']. cbn. naive_solver.
    + rewrite Heq. split; [done|lia].
  - unfold fence_ok, on_disk in *. unfold loadControllerEpoch in Hl.
    destruct (epochPath n) as [[d|]|] eqn:E; cbn; rewrite ?E; try discriminate.
    + destruct (d =? 0) eqn:Ed; [discriminate|]. injection Hl as <-. lia.
    + injection Hl as <-. lia.
Qed.

(** A negative argument is no [uint64]; the model refuses it as stale. *)
Lemma negative_stale x n e : fence_ok n -> e < 0 -> snd (acceptControllerEpoch x n e) = n.
Proof.
  intros [H0 _] He. unfold acceptControllerEpoch.
  replace (e =? 0) with false by (symmetry; apply Z.eqb_neq; lia).
  by replace (e <? controllerEpoch n) with true by (symmetry; apply Z.ltb_lt; lia).
Qed.

Lemma steps_fence n n' : rtc epoch_step n n' -> fence_ok n ->
  fence_ok n' /\ controllerEpoch n <= controllerEpoch n'.
Proof.
  induction 1 as [n|n n1 n' Hs Hr IH]; intros Hn; [split; [done|lia]|].
  destruct (step_fence n n1) as [Hn1 Hle]; [|done|].
  - split; [done|]. intros x e ->. destruct (decide (0 <= e)); [by left|right].
    apply negative_stale; [done|lia].
  - destruct (IH Hn1) as [? ?]. split; [done|lia].
Qed.

(** once a node has accepted a controller epoch, it refuses every lower
    epoch in every later state, whatever system calls fail and however often
    it crashes and restarts in between; a restart resumes from an epoch at
    least as high as the one last accepted. *)
Theorem accepted_epoch_is_a_fence : forall x n e n1 n2 y e',
  fence_ok n -> 0 < e -> acceptControllerEpoch x n e = (Ok tt, n1) ->
  rtc epoch_step n1 n2 -> e' < e ->
  exists what, acceptControllerEpoch y n2 e' = (Err (CodeConflict what), n2).
Proof.
  intros x n e n1 n2 y e' Hn He Ha Hr Hlt.
  pose proof (accept_spec x n e Hn ltac:(lia)) as H. rewrite Ha in H.
  destruct H as (Hn1 & _ & Heq). specialize (Heq eq_refl).
  destruct (steps_fence n1 n2 Hr Hn1) as [_ Hle]. unfold acceptControllerEpoch.
  destruct (e' =? 0) eqn:E0; [eauto|]. bool_hyp.
  replace (e' <? controllerEpoch n2) with true by (symmetry; apply Z.ltb_lt; lia). eauto.
Qed.

Lemma accepted_epoch_is_a_fence_witness :
  exists what,
    acceptControllerEpoch io_ok (mkNode 3 (Some (Some 3))) 2
    = (Err (CodeConflict what), mkNode 3 (Some (Some 3))).
Proof.
  apply (accepted_epoch_is_a_fence io_ok (mkNode 0 None) 3 (mkNode 3 (Some (Some 3)))
           (mkNode 3 (Some (Some 3))) io_ok 2).
  - vm_compute. split; discriminate.
  - reflexivity.
  - reflexivity.
  - eapply rtc_l; [apply (step_restart _ 3); reflexivity|]. apply rtc_refl.
  - reflexivity.
Defined.

Import WriterLease.

(** C36: a superseded controller is refused.  Suppose controller [c] once
    passed the decision gate with epoch [e1], and later a different
    controller [d] passed it with epoch [e2].  A node that has accepted [d]
    refuses every frame stamped with [c]'s epoch from then on, across
    failed writes and restarts. *)
Theorem superseded_controller_refused :
  forall O clock s s1 s2 c d e1 e2 x n n1 n2 y,
  clocks_ok O clock -> LeaseTTL O <= maxInt64 ->
  initial O s -> rtc (WriterLease.step clock) s s1 -> rtc (WriterLease.step clock) s1 s2 ->
  decides clock s1 c e1 -> decides clock s2 d e2 -> c <> d -> 0 < e2 ->
  fence_ok n -> acceptControllerEpoch x n e2 = (Ok tt, n1) -> rtc epoch_step n1 n2 ->
  exists what, acceptControllerEpoch y n2 e1 = (Err (CodeConflict what), n2).
Proof.
  intros O clock s s1 s2 c d e1 e2 x n n1 n2 y Hclk Httl Hi Hr1 Hr2 Hc Hd Hne Hpos Hn Ha Hr.
  assert (e1 < e2) as Hlt.
  { pose proof (inv_reachable O clock Hclk s s1 Hi Hr1) as Hinv1.
    pose proof (rtc_invariant _ _ (inv_step O clock Hclk) _ _ Hr2 Hinv1) as Hinv2.
    exact (owners_ordered O clock Hclk s1 s2 c d e1 e2 Hinv1 Hinv2 Httl Hr2 Hc Hd Hne). }
  pose proof (accept_spec x n e2 Hn ltac:(lia)) as H. rewrite Ha in H.
  destruct H as (Hn1 & _ & Heq). specialize (Heq eq_refl).
  destruct (steps_fence n1 n2 Hr Hn1) as [_ Hle]. unfold acceptControllerEpoch.
  destruct (e1 =? 0) eqn:E0; [eauto|]. bool_hyp.
  replace (e1 <? controllerEpoch n2) with true by (symmetry; apply Z.ltb_lt; lia). eauto.
Qed.

Lemma superseded_controller_refused_witness :
  exists what,
    acceptControllerEpoch io_ok (mkNode 2 (Some (Some 2))) 1
    = (Err (CodeConflict what), mkNode 2 (Some (Some 2))).
Proof.
  refine (superseded_controller_refused ex_options ex_clock ex_start ex_held ex_taken_over
            "a" "b" 1 2 io_ok (mkNode 0 None) (mkNode 2 (Some (Some 2))) (mkNode 2 (Some (Some 2)))
            io_ok ex_clocks_ok _ ex_initial ex_run1 ex_run2 _ _ _ _ _ _ (rtc_refl _ _)).
  - vm_compute. discriminate.
  - apply decides_compute. vm_compute. reflexivity.
  - apply decides_compute. vm_compute. reflexivity.
  - discriminate.
  - reflexivity.
  - vm_compute. split; discriminate.
  - vm_compute. reflexivity.
Defined.

End NodeEpoch.
