(* ===== verification/E2EE.v ===== *)
(** * End-to-end sealed sessions

    [internal/e2ee/session.go] and the record encoding of
    [internal/e2ee/keys.go]: a session seals frames under a per-direction
    record counter and opens them through a 64-record replay window.  AES-GCM
    and the CBOR codec are third-party; they enter as the operations of the
    class [Crypto] with the two round-trip laws the code relies on. *)

From Stdlib Require Import ZArith Lia Strings.Byte Strings.String.
From stdpp Require Import base list gmap strings.
From S2P Require Import Prelude.

#[local] Open Scope Z_scope.

Module E2EE.

Definition sidLen : nat := 16.
Definition nonceLen : nat := 12.
Definition maxRecord : Z := Z.shiftl 1 48.
Definition protoVersion : byte := x01.
Definition suiteID : byte := x01.
Definition dirO2A : byte := x00.
Definition dirA2O : byte := x01.
Definition maxRestartsPerPeer : Z := 16.
Definition OpE2EESealed : string := "e2ee.sealed".

Definition aadDomain : list byte := list_byte_of_string "remount/e2ee/v1 aad" ++ [x00].

Inductive e2ee_error :=
| ErrFieldTooLong | ErrRekeyRequired | ErrReplayed | ErrUnknownSession | ErrDecode | ErrAuth.

(** ** Record encoding *)

Definition be64 (v : Z) : list byte := be_split 8 v.

Definition appendField (dst b : list byte) : result e2ee_error (list byte) :=
  if 0xffff <? Z.of_nat (length b) then Err ErrFieldTooLong
  else Ok (dst ++ be_split 2 (Z.of_nat (length b)) ++ b).

Fixpoint appendFields (dst : list byte) (fields : list (list byte)) : result e2ee_error (list byte) :=
  match fields with
  | [] => Ok dst
  | f :: t => let? dst' := appendField dst f in appendFields dst' t
  end.

Definition recordAAD (dir : byte) (sid : list byte) (n : Z) (kind src dst : string) (id : Z)
  : result e2ee_error (list byte) :=
  appendFields (aadDomain ++ [protoVersion; suiteID; dir])
    [sid; be64 n; be64 id; list_byte_of_string kind;
     list_byte_of_string src; list_byte_of_string dst].

Definition xor_byte (a b : byte) : byte := byte_of (Z.lxor (byte_val a) (byte_val b)).

(** [copy] into a zeroed array of [nonceLen] bytes, then the counter xored
    into the last eight. *)
Definition nonce (prefix : list byte) (n : Z) : list byte :=
  let out := take nonceLen (prefix ++ replicate nonceLen x00) in
  take (nonceLen - 8) out ++ zip_with xor_byte (drop (nonceLen - 8) out) (be64 n).

(** ** The replay window *)

Record window := mkWindow { recvHigh : Z; recvMask : Z }.

Definition window0 : window := mkWindow 0 0.

Definition windowAllows (w : window) (n : Z) : bool :=
  if (n =? 0) || (maxRecord <? n) then false
  else if recvHigh w <? n then true
  else if 64 <=? recvHigh w - n then false
  else Z.land (recvMask w) (Z.shiftl 1 (recvHigh w - n)) =? 0.

Definition windowAccept (w : window) (n : Z) : window :=
  if recvHigh w <? n then
    let shift := n - recvHigh w in
    let mask := if 64 <=? shift then 0 else u64 (Z.shiftl (recvMask w) shift) in
    mkWindow n (Z.lor mask 1)
  else mkWindow (recvHigh w) (Z.lor (recvMask w) (Z.shiftl 1 (recvHigh w - n))).

(** ** Sessions *)

Record frame := mkFrame {
  V : byte; T : string; ControllerEpoch : Z; ID : Z; Seq : Z; S : string; WS : string;
  To : string; From : string; Op : string; Body : list byte; FErr : option string;
  Trace : string; Span : string }.

Record payload := mkPayload {
  p_op : string; p_s : string; p_ws : string; p_seq : Z; p_body : list byte; p_err : option string }.

Record sealed := mkSealed { sid : list byte; N : Z; CT : list byte }.

Class Crypto := {
  aead_seal : list byte -> list byte -> list byte -> list byte -> list byte;
  aead_open : list byte -> list byte -> list byte -> list byte -> option (list byte);
  marshal_payload : payload -> list byte;
  unmarshal_payload : list byte -> option payload;
  marshal_sealed : sealed -> list byte;
  unmarshal_sealed : list byte -> option sealed }.

(** What AES-GCM and the codec document: decryption under the same key, nonce
    and associated data returns the plaintext, and decoding inverts
    encoding. *)
Class CryptoLaws (C : Crypto) : Prop := {
  open_seal : forall k iv p aad, aead_open k iv (aead_seal k iv p aad) aad = Some p;
  payload_codec : forall p, unmarshal_payload (marshal_payload p) = Some p;
  sealed_codec : forall s, unmarshal_sealed (marshal_sealed s) = Some s }.

Record session := mkSession {
  Self : string; Peer : string; SID : list byte; Offerer : bool; TS : Z;
  send : list byte; sendIV : list byte; sendDir : byte; sendSeq : Z;
  recv : list byte; recvIV : list byte; recvDir : byte; recvWindow : window;
  lastUsed : Z; restarts : Z }.

Record directionKeys := mkKeys {
  o2aKey : list byte; a2oKey : list byte; o2aIV : list byte; a2oIV : list byte }.

Definition newSession (self peer : string) (sid : list byte) (offerer : bool) (ts : Z)
    (keys : directionKeys) (now : Z) : session :=
  if offerer then
    mkSession self peer sid offerer ts (o2aKey keys) (o2aIV keys) dirO2A 0
      (a2oKey keys) (a2oIV keys) dirA2O window0 now 0
  else
    mkSession self peer sid offerer ts (a2oKey keys) (a2oIV keys) dirA2O 0
      (o2aKey keys) (o2aIV keys) dirO2A window0 now 0.

Section ops.
  Context {C : Crypto}.

Definition Seal (s : session) (f : frame) (now : Z) : result e2ee_error frame * session :=
    let plain := marshal_payload (mkPayload (Op f) (S f) (WS f) (Seq f) (Body f) (FErr f)) in
    if maxRecord <=? sendSeq s then (Err ErrRekeyRequired, s)
    else
      let n := sendSeq s + 1 in
      let s1 := mkSession (Self s) (Peer s) (SID s) (Offerer s) (TS s) (send s) (sendIV s)
                  (sendDir s) n (recv s) (recvIV s) (recvDir s) (recvWindow s)
                  (lastUsed s) (restarts s) in
      match recordAAD (sendDir s) (SID s) n (T f) (Self s) (Peer s) (ID f) with
      | Err e => (Err e, s1)
      | Ok aad =>
          let ct := aead_seal (send s) (nonce (sendIV s) n) plain aad in
          let s2 := mkSession (Self s) (Peer s) (SID s) (Offerer s) (TS s) (send s) (sendIV s)
                      (sendDir s) n (recv s) (recvIV s) (recvDir s) (recvWindow s)
                      now (restarts s) in
          (Ok (mkFrame protoVersion (T f) (ControllerEpoch f) (ID f) 0 "" "" (To f) (From f)
                 OpE2EESealed (marshal_sealed (mkSealed (SID s) n ct)) None "" ""), s2)
      end.

Definition Open (s : session) (f : frame) (now : Z) : result e2ee_error frame * session :=
    match unmarshal_sealed (Body f) with
    | None => (Err ErrDecode, s)
    | Some sl =>
        if negb (length (sid sl) =? sidLen)%nat || negb (bool_decide (sid sl = SID s))
        then (Err ErrUnknownSession, s)
        else if negb (windowAllows (recvWindow s) (N sl)) then (Err ErrReplayed, s)
        else
          match recordAAD (recvDir s) (SID s) (N sl) (T f) (Peer s) (Self s) (ID f) with
          | Err e => (Err e, s)
          | Ok aad =>
              match aead_open (recv s) (nonce (recvIV s) (N sl)) (CT sl) aad with
              | None => (Err ErrAuth, s)
              | Some plain =>
                  match unmarshal_payload plain with
                  | None => (Err ErrDecode, s)
                  | Some p =>
                      (Ok (mkFrame protoVersion (T f) (ControllerEpoch f) (ID f) (p_seq p) (p_s p)
                             (p_ws p) (To f) (From f) (p_op p) (p_body p) (p_err p) "" ""),
                       mkSession (Self s) (Peer s) (SID s) (Offerer s) (TS s) (send s) (sendIV s)
                         (sendDir s) (sendSeq s) (recv s) (recvIV s) (recvDir s)
                         (windowAccept (recvWindow s) (N sl)) now (restarts s))
                  end
              end
          end
    end.

Definition idle (s : session) (now d : Z) : bool := d <=? time_sub now (lastUsed s).

Definition allowRestart (s : session) : bool * session :=
    if maxRestartsPerPeer <=? restarts s then (false, s)
    else (true, mkSession (Self s) (Peer s) (SID s) (Offerer s) (TS s) (send s) (sendIV s)
            (sendDir s) (sendSeq s) (recv s) (recvIV s) (recvDir s) (recvWindow s)
            (lastUsed s) (restarts s + 1)).

Definition used (s : session) : bool := 0 <? sendSeq s.
End ops.

(** ** The window remembers exactly the accepted records it can see *)

(** [acc] are the counters accepted so far. *)
Definition window_ok (w : window) (acc : gset Z) : Prop :=
  0 <= recvHigh w <= maxRecord /\ 0 <= recvMask w < 2 ^ 64 /\
  (forall n, n ∈ acc -> 0 < n <= recvHigh w) /\
  (forall i, 0 <= i < 64 -> (Z.testbit (recvMask w) i = true <-> recvHigh w - i ∈ acc)).

Lemma maxRecord_val : maxRecord = 281474976710656.
Proof. reflexivity. Qed.

Lemma window0_ok : window_ok window0 ∅.
Proof.
  split_and!; cbn; try (rewrite ?maxRecord_val; lia); [set_solver|].
  intros i Hi. rewrite Z.bits_0. split; [discriminate|set_solver].
Qed.

Lemma land_bit_zero m k : 0 <= k -> (Z.land m (Z.shiftl 1 k) =? 0) = negb (Z.testbit m k).
Proof.
  intros Hk. destruct (Z.testbit m k) eqn:E; cbn.
  - apply Z.eqb_neq. intros H. apply (f_equal (fun z => Z.testbit z k)) in H.
    rewrite Z.land_spec, Z.shiftl_spec, Z.sub_diag, E, Z.bits_0 in H by lia. discriminate.
  - apply Z.eqb_eq. apply Z.bits_inj'. intros j Hj.
    rewrite Z.land_spec, Z.shiftl_spec, Z.bits_0 by lia.
    destruct (Z.eqb_spec j k) as [->|Hne]; [by rewrite E|].
    assert (Z.testbit 1 (j - k) = false) as ->; [|apply andb_false_r].
    destruct (Z_lt_ge_dec j k); [by rewrite Z.testbit_neg_r by lia|].
    change 1 with (2 ^ 0). apply Z.pow2_bits_false. lia.
Qed.

Lemma windowAllows_spec w acc n : window_ok w acc -> 0 <= n ->
  windowAllows w n = true <-> (0 < n <= maxRecord /\ n ∉ acc /\ recvHigh w - n < 64).
Proof.
  intros (Hh & Hm & Hacc & Hbit) Hn. unfold windowAllows.
  destruct (_ || _) eqn:E1.
  { split; [discriminate|]. intros (H1 & _).
    apply orb_true_iff in E1 as [E1|E1]; bool_hyp; lia. }
  bool_hyp. destruct (recvHigh w <? n) eqn:E2; bool_hyp.
  { split; [|done]. intros _. split_and!; [lia|lia| |lia]. intros Hin%Hacc. lia. }
  destruct (64 <=? recvHigh w - n) eqn:E3; bool_hyp.
  { split; [discriminate|]. intros (_ & _ & ?). lia. }
  rewrite land_bit_zero by lia. specialize (Hbit (recvHigh w - n) ltac:(lia)).
  replace (recvHigh w - (recvHigh w - n)) with n in Hbit by lia.
  destruct (Z.testbit _ _); cbn; split; try discriminate; try done.
  - intros (_ & Hni & _). tauto.
  - intros _. split_and!; [lia|lia| |lia]. intros Hin. by apply Hbit in Hin.
Qed.

Lemma testbit_1 i : Z.testbit 1 i = (i =? 0).
Proof.
  destruct (Z.eqb_spec i 0) as [->|Hne]; [done|].
  destruct (Z_lt_ge_dec i 0); [by rewrite Z.testbit_neg_r by lia|].
  change 1 with (2 ^ 0). apply Z.pow2_bits_false. lia.
Qed.

Lemma lor_range a b : 0 <= a < 2 ^ 64 -> 0 <= b < 2 ^ 64 -> 0 <= Z.lor a b < 2 ^ 64.
Proof.
  intros Ha Hb. split; [apply Z.lor_nonneg; lia|].
  destruct (Z.eq_dec (Z.lor a b) 0) as [->|Hne]; [lia|].
  apply Z.log2_lt_pow2; [pose proof (Z.lor_nonneg a b); lia|].
  rewrite Z.log2_lor by lia.
  assert (forall z, 0 <= z < 2 ^ 64 -> Z.log2 z < 64) as Hl.
  { intros z Hz. destruct (Z.eq_dec z 0) as [->|]; [cbn; lia|]. apply Z.log2_lt_pow2; lia. }
  apply Z.max_lub_lt; by apply Hl.
Qed.

Lemma windowAccept_ok w acc n : window_ok w acc -> 0 < n <= maxRecord ->
  (recvHigh w - n < 64) -> window_ok (windowAccept w n) ({[n]} ∪ acc).
Proof.
  intros (Hh & Hm & Hacc & Hbit) Hn Hwin. unfold windowAccept.
  destruct (recvHigh w <? n) eqn:E; bool_hyp; split_and!; cbn [recvHigh recvMask]; try lia.
  - apply lor_range; [|lia]. destruct (64 <=? _); [lia|]. apply u64_range.
  - apply lor_range; [|lia]. destruct (64 <=? _); [lia|]. apply u64_range.
  - intros m [->%elem_of_singleton|Hin%Hacc]%elem_of_union; lia.
  - intros i Hi. rewrite Z.lor_spec, testbit_1, elem_of_union, elem_of_singleton.
    destruct (Z.eqb_spec i 0) as [->|Hi0].
    { rewrite orb_true_r. split; [|done]. left. lia. }
    rewrite orb_false_r. destruct (64 <=? n - recvHigh w) eqn:E2; bool_hyp.
    + rewrite Z.bits_0. split; [discriminate|]. intros [?|Hin%Hacc]; lia.
    + unfold u64. rewrite Z.mod_pow2_bits_low, Z.shiftl_spec by lia.
      destruct (Z_lt_ge_dec (i - (n - recvHigh w)) 0).
      * rewrite Z.testbit_neg_r by lia. split; [discriminate|]. intros [?|Hin%Hacc]; lia.
      * rewrite Hbit by lia.
        replace (recvHigh w - (i - (n - recvHigh w))) with (n - i) by lia.
        split; [by right|]. intros [?|?]; [lia|done].
  - apply lor_range; [lia|]. rewrite Z.shiftl_1_l. split; [apply Z.pow_nonneg; lia|].
    apply Z.pow_lt_mono_r; lia.
  - apply lor_range; [lia|]. rewrite Z.shiftl_1_l. split; [apply Z.pow_nonneg; lia|].
    apply Z.pow_lt_mono_r; lia.
  - intros m [->%elem_of_singleton|Hin%Hacc]%elem_of_union; lia.
  - intros i Hi. rewrite Z.lor_spec, Z.shiftl_spec, testbit_1 by lia.
    rewrite elem_of_union, elem_of_singleton, orb_true_iff, Hbit, Z.eqb_eq by lia.
    split; intros [?|?]; [by right|left; lia|right; lia|by left].
Qed.

(** ** A stream of records *)

(** The window's verdict on each counter presented in turn. *)
Fixpoint present (w : window) (ns : list Z) : list Z :=
  match ns with
  | [] => []
  | n :: t => if windowAllows w n then n :: present (windowAccept w n) t else present w t
  end.

Lemma present_fresh ns : forall w acc, window_ok w acc -> Forall (fun n => 0 <= n) ns ->
  NoDup (present w ns) /\ forall n, n ∈ present w ns -> n ∉ acc /\ 0 < n <= maxRecord.
Proof.
  induction ns as [|n ns IH]; intros w acc Hw Hns; cbn [present].
  { split; [constructor|]. intros n H. inversion H. }
  apply Forall_cons in Hns as [Hn Hns].
  destruct (windowAllows w n) eqn:E; [|by apply IH].
  apply (windowAllows_spec w acc) in E as (Hr & Hni & Hwin); [|done..].
  destruct (IH (windowAccept w n) ({[n]} ∪ acc)) as [Hnd Hin]; [by apply windowAccept_ok|done|].
  split.
  - constructor; [|done]. intros H%Hin. set_solver.
  - intros m [->|Hm]%elem_of_cons; [done|]. apply Hin in Hm. set_solver.
Qed.

(** C30: no record counter is ever accepted twice: whatever sequence of
    records a relay presents to a fresh session, replayed, reordered or
    invented, the accepted counters are pairwise distinct and within
    [1, maxRecord]. *)
Theorem no_record_accepted_twice : forall ns,
  Forall (fun n => 0 <= n) ns ->
  NoDup (present window0 ns) /\ Forall (fun n => 0 < n <= maxRecord) (present window0 ns).
Proof.
  intros ns Hns. destruct (present_fresh ns window0 ∅ window0_ok Hns) as [Hnd Hin].
  split; [done|]. apply Forall_forall. intros n Hn. by apply Hin.
Qed.

Lemma no_record_accepted_twice_witness :
  present window0 [3; 1; 3; 2; 1; 70; 5; 7] = [3; 1; 2; 70; 7] /\
  NoDup (present window0 [3; 1; 3; 2; 1; 70; 5; 7]).
Proof.
  split; [reflexivity|].
  apply (no_record_accepted_twice [3; 1; 3; 2; 1; 70; 5; 7]).
  repeat constructor; lia.
Defined.

(** The window after a stream of records. *)
Fixpoint window_after (w : window) (ns : list Z) : window :=
  match ns with
  | [] => w
  | n :: t => window_after (if windowAllows w n then windowAccept w n else w) t
  end.

Lemma window_after_ok ns : forall w acc, window_ok w acc -> Forall (fun m => 0 <= m) ns ->
  window_ok (window_after w ns) (list_to_set (present w ns) ∪ acc).
Proof.
  induction ns as [|m ns IH]; intros w acc Hw Hns; cbn [present window_after].
  { by replace (list_to_set [] ∪ acc) with acc by set_solver. }
  apply Forall_cons in Hns as [Hm Hns].
  destruct (windowAllows w m) eqn:E; [|by apply IH].
  apply (windowAllows_spec w acc) in E as (Hr & Hni & Hwin); [|done..].
  pose proof (IH _ _ (windowAccept_ok w acc m Hw Hr Hwin) Hns) as H.
  cbn [list_to_set]. by replace ({[m]} ∪ list_to_set (present (windowAccept w m) ns) ∪ acc)
    with (list_to_set (present (windowAccept w m) ns) ∪ ({[m]} ∪ acc)) by set_solver.
Qed.

(** the 64-bit mask refines the set of accepted counters: after any
    stream of records, a counter is allowed exactly when it is in range, not
    yet accepted, and less than 64 below the highest accepted one, so an
    honest frame reordered by less than the window is never dropped. *)
Theorem window_refines_accepted_set : forall ns n,
  Forall (fun m => 0 <= m) ns -> 0 <= n ->
  let w := window_after window0 ns in
  windowAllows w n = true <->
  (0 < n <= maxRecord /\ n ∉ present window0 ns /\ recvHigh w - n < 64).
Proof.
  intros ns n Hns Hn w. subst w. pose proof (window_after_ok ns window0 ∅ window0_ok Hns) as Hw.
  rewrite (windowAllows_spec _ _ n Hw Hn). set_solver.
Qed.

Lemma window_refines_accepted_set_witness :
  windowAllows (window_after window0 [3; 1]) 2 = true <->
  (0 < 2 <= maxRecord /\ 2 ∉ present window0 [3; 1]
   /\ recvHigh (window_after window0 [3; 1]) - 2 < 64).
Proof.
  apply (window_refines_accepted_set [3; 1] 2); [|lia]. repeat constructor; lia.
Defined.

(** ** Nonces and associated data *)

Definition enc_fields (fs : list (list byte)) : list byte :=
  concat (map (fun f => be_split 2 (Z.of_nat (length f)) ++ f) fs).

Lemma appendFields_spec fs : forall dst a, appendFields dst fs = Ok a ->
  a = dst ++ enc_fields fs /\ Forall (fun f => Z.of_nat (length f) <= 0xffff) fs.
Proof.
  induction fs as [|f fs IH]; intros dst a; cbn [appendFields].
  { intros [= <-]. split; [by rewrite app_nil_r|constructor]. }
  unfold appendField. destruct (0xffff <? _) eqn:E; [discriminate|]. bool_hyp.
  intros (-> & Hf)%IH. split; [|by constructor].
  unfold enc_fields. cbn [map concat]. by rewrite <- !app_assoc.
Qed.

Lemma enc_fields_inj fs : forall gs,
  length fs = length gs ->
  Forall (fun f => Z.of_nat (length f) <= 0xffff) fs ->
  Forall (fun f => Z.of_nat (length f) <= 0xffff) gs ->
  enc_fields fs = enc_fields gs -> fs = gs.
Proof.
  induction fs as [|f fs IH]; intros [|g gs] Hl Hf Hg Heq; try done.
  apply Forall_cons in Hf as [Hf Hfs]. apply Forall_cons in Hg as [Hg Hgs].
  unfold enc_fields in Heq. cbn [map concat] in Heq. rewrite <- !app_assoc in Heq.
  apply app_inj_1 in Heq as [Hlen Heq]; [|by rewrite !length_be_split].
  apply (f_equal be_combine) in Hlen.
  rewrite !be_combine_split in Hlen by (change (256 ^ Z.of_nat 2) with 65536; lia).
  apply app_inj_1 in Heq as [-> Heq]; [|lia].
  f_equal. apply IH; [|done..]. by injection Hl.
Qed.

Lemma be64_inj n m : 0 <= n < 2 ^ 64 -> 0 <= m < 2 ^ 64 -> be64 n = be64 m -> n = m.
Proof.
  intros Hn Hm H. apply (f_equal be_combine) in H. unfold be64 in H.
  by rewrite !be_combine_split in H.
Qed.

Lemma list_byte_of_string_inj a b : list_byte_of_string a = list_byte_of_string b -> a = b.
Proof.
  intros H. by rewrite <- (string_of_list_byte_of_string a), H, string_of_list_byte_of_string.
Qed.

Lemma list6_inj {A} (a b c d e f a' b' c' d' e' f' : A) :
  [a; b; c; d; e; f] = [a'; b'; c'; d'; e'; f'] ->
  a = a' /\ b = b' /\ c = c' /\ d = d' /\ e = e' /\ f = f'.
Proof. by intros [= -> -> -> -> -> ->]. Qed.

(** the associated data determines what it authenticates: two records with
    equal associated data have the same direction, session id, counter, frame
    kind, source, destination and correlation id.  So a ciphertext moved to
    another peer, direction, position or request fails authentication. *)
Theorem recordAAD_injective :
  forall dir sid n kind src dst id dir' sid' n' kind' src' dst' id' a,
  0 <= n < 2 ^ 64 -> 0 <= n' < 2 ^ 64 -> 0 <= id < 2 ^ 64 -> 0 <= id' < 2 ^ 64 ->
  recordAAD dir sid n kind src dst id = Ok a ->
  recordAAD dir' sid' n' kind' src' dst' id' = Ok a ->
  dir = dir' /\ sid = sid' /\ n = n' /\ kind = kind' /\ src = src' /\ dst = dst' /\ id = id'.
Proof.
  intros dir sid n kind src dst id dir' sid' n' kind' src' dst' id' a Hn Hn' Hid Hid' H1 H2.
  apply appendFields_spec in H1 as [-> Hf1]. apply appendFields_spec in H2 as [Heq Hf2].
  apply app_inj_1 in Heq as [Hdir Heq]; [|done].
  apply app_inv_head in Hdir. injection Hdir as Hdir.
  apply enc_fields_inj in Heq; [|done..].
  apply list6_inj in Heq as (Hsid & Hbn & Hbid & Hk & Hs & Hd).
  split_and!; eauto using be64_inj, list_byte_of_string_inj.
Qed.

Lemma recordAAD_injective_witness :
  exists a, recordAAD dirO2A (replicate 16 x07) 5 "req" "c1" "n1" 9 = Ok a /\
    (5 = 5 /\ "req"%string = "req"%string).
Proof.
  destruct (recordAAD dirO2A (replicate 16 x07) 5 "req" "c1" "n1" 9) as [a|] eqn:E;
    [|vm_compute in E; discriminate].
  exists a. split; [reflexivity|].
  destruct (recordAAD_injective dirO2A (replicate 16 x07) 5 "req" "c1" "n1" 9
    dirO2A (replicate 16 x07) 5 "req" "c1" "n1" 9 a
    ltac:(lia) ltac:(lia) ltac:(lia) ltac:(lia) E E) as (_ & _ & H1 & H2 & _).
  split; assumption.
Defined.

Lemma xor_byte_cancel a b c : xor_byte a b = xor_byte a c -> b = c.
Proof.
  unfold xor_byte. intros H. apply (f_equal byte_val) in H. rewrite !byte_val_of in H.
  assert (forall x y : byte, 0 <= Z.lxor (byte_val x) (byte_val y) < 256) as Hr.
  { intros x y. pose proof (byte_val_range x) as Hx. pose proof (byte_val_range y) as Hy.
    split; [apply Z.lxor_nonneg; lia|].
    destruct (Z.eq_dec (Z.lxor (byte_val x) (byte_val y)) 0) as [->|Hne]; [lia|].
    change 256 with (2 ^ 8). apply Z.log2_lt_pow2.
    { assert (0 <= Z.lxor (byte_val x) (byte_val y)) by (apply Z.lxor_nonneg; lia). lia. }
    eapply Z.le_lt_trans; [apply Z.log2_lxor; lia|].
    assert (forall z, 0 <= z < 256 -> Z.log2 z < 8) as Hl.
    { intros z Hz. destruct (Z.eq_dec z 0) as [->|]; [cbn; lia|].
      apply Z.log2_lt_pow2; [lia|]. change (2 ^ 8) with 256. lia. }
    apply Z.max_lub_lt; by apply Hl. }
  rewrite !Z.mod_small in H by apply Hr.
  apply (f_equal (Z.lxor (byte_val a))) in H.
  rewrite <- !Z.lxor_assoc, !Z.lxor_nilpotent, !Z.lxor_0_l in H.
  by rewrite <- (byte_of_val b), H, byte_of_val.
Qed.

Lemma zip_xor_inj l : forall b c, length b = length l -> length c = length l ->
  zip_with xor_byte l b = zip_with xor_byte l c -> b = c.
Proof.
  induction l as [|x l IH]; intros [|y b] [|z c] Hb Hc; try done.
  cbn. intros [= Hx Ht]. apply xor_byte_cancel in Hx as ->. f_equal.
  apply IH; [by injection Hb|by injection Hc|done].
Qed.

Lemma nonce_inj prefix n m : 0 <= n < 2 ^ 64 -> 0 <= m < 2 ^ 64 ->
  nonce prefix n = nonce prefix m -> n = m.
Proof.
  intros Hn Hm H. unfold nonce in H. apply app_inv_head in H.
  apply zip_xor_inj in H; [by apply be64_inj| |];
    (rewrite length_drop, length_take, length_app, length_replicate; unfold be64;
     rewrite length_be_split; unfold nonceLen; lia).
Qed.

(** ** Sealing *)

Section sealing.
  Context {C : Crypto} {L : CryptoLaws C}.

  (** The counters under which a run of [Seal] calls encrypts. *)
Fixpoint seal_run (s : session) (fs : list (frame * Z)) : list Z * session :=
    match fs with
    | [] => ([], s)
    | (f, now) :: t =>
        match Seal s f now with
        | (Ok _, s') => let '(ns, s2) := seal_run s' t in (sendSeq s' :: ns, s2)
        | (Err _, s') => seal_run s' t
        end
    end.

Lemma Seal_seq s f now :
    let '(r, s') := Seal s f now in
    sendIV s' = sendIV s /\ sendSeq s <= sendSeq s' <= Z.max (sendSeq s) maxRecord /\
    (is_ok r = true -> sendSeq s < sendSeq s').
  Proof.
    unfold Seal. destruct (maxRecord <=? sendSeq s) eqn:E; bool_hyp; cbn.
    { split_and!; [done|lia|lia|discriminate]. }
    repeat step_match; cbn; split_and!; try done; lia.
  Qed.

Lemma seal_run_seqs fs : forall s ns s', 0 <= sendSeq s <= maxRecord -> seal_run s fs = (ns, s') ->
    NoDup ns /\ Forall (fun n => sendSeq s < n <= maxRecord) ns.
  Proof.
    induction fs as [|[f now] fs IH]; intros s ns s' Hs; cbn [seal_run].
    { intros [= <- <-]. split; constructor. }
    pose proof (Seal_seq s f now) as H. destruct (Seal s f now) as [[fr|e] s1].
    - destruct H as (_ & Hle & Hlt). specialize (Hlt eq_refl).
      destruct (seal_run s1 fs) as [ns1 s2] eqn:E. intros [= <- <-].
      destruct (IH s1 ns1 s2 ltac:(lia) E) as [Hnd Hf]. split.
      + constructor; [|done]. intros Hin. rewrite Forall_forall in Hf. specialize (Hf _ Hin). lia.
      + constructor; [lia|]. eapply Forall_impl; [exact Hf|]. cbn. lia.
    - destruct H as (_ & Hle & _). intros E. destruct (IH s1 ns s' ltac:(lia) E) as [Hnd Hf].
      split; [done|]. eapply Forall_impl; [exact Hf|]. cbn. lia.
  Qed.
End sealing.

(** nonces are never reused under one key: over any run of [Seal] calls
    on one session, failed ones included, the counters of the sealed records
    are pairwise distinct and at most [maxRecord], and so are the nonces they
    give. *)
Theorem nonces_never_reused : forall (C : Crypto) (s s' : session) fs ns,
  0 <= sendSeq s <= maxRecord -> seal_run s fs = (ns, s') ->
  NoDup ns /\ Forall (fun n => 0 < n <= maxRecord) ns /\ NoDup (map (nonce (sendIV s)) ns).
Proof.
  intros C s s' fs ns Hs Hr. destruct (seal_run_seqs fs s ns s' Hs Hr) as [Hnd Hf].
  assert (Hrange : Forall (fun n => 0 < n <= maxRecord) ns)
    by (eapply Forall_impl; [exact Hf|]; cbn; lia).
  split_and!; [done..|]. clear Hf Hr. induction ns as [|n ns IH]; [constructor|].
  apply Forall_cons in Hrange as [Hn Hns]. apply NoDup_cons in Hnd as [Hni Hnd].
  cbn. constructor; [|by apply IH]. intros (m & Heq & Hm)%list_elem_of_fmap.
  rewrite Forall_forall in Hns. specialize (Hns m Hm). rewrite maxRecord_val in *.
  apply nonce_inj in Heq; [by subst|lia|lia].
Qed.

(** Two sessions agreed on the same keys. *)
Definition paired (a b : session) : Prop :=
  send a = recv b /\ sendIV a = recvIV b /\ sendDir a = recvDir b /\
  Self a = Peer b /\ Peer a = Self b /\ SID a = SID b /\ length (SID a) = sidLen.

Lemma newSession_paired x y sid ts ts' keys now now' : length sid = sidLen ->
  paired (newSession x y sid true ts keys now) (newSession y x sid false ts' keys now') /\
  paired (newSession y x sid false ts' keys now') (newSession x y sid true ts keys now).
Proof. by unfold paired, newSession. Qed.

(** a sealed frame opens to the frame that was sealed: if the far end
    holds the paired session and its window allows the record, [Open] of
    [Seal]'s result returns the original frame, with the protocol version and
    without the trace context, which sealing drops. *)
Theorem open_inverts_seal : forall (C : Crypto) (L : CryptoLaws C) a b f now now' sf a',
  paired a b -> Seal a f now = (Ok sf, a') ->
  windowAllows (recvWindow b) (sendSeq a') = true ->
  fst (Open b sf now') =
    Ok (mkFrame protoVersion (T f) (ControllerEpoch f) (ID f) (Seq f) (S f) (WS f)
          (To f) (From f) (Op f) (Body f) (FErr f) "" "").
Proof.
  intros C L a b f now now' sf a' (Hk & Hiv & Hdir & Hself & Hpeer & Hsid & Hlen) HS Hw.
  unfold Seal in HS. destruct (maxRecord <=? sendSeq a); [discriminate|].
  destruct (recordAAD _ _ _ _ _ _ _) as [aad|] eqn:Ea; [|discriminate].
  injection HS as <- <-. cbn [sendSeq] in Hw. unfold Open. cbn [Body].
  rewrite sealed_codec. cbn [sid N CT T ID ControllerEpoch To From].
  rewrite Hlen, Nat.eqb_refl, <- Hsid, bool_decide_eq_true_2 by done. cbn [negb orb].
  rewrite Hw, <- Hdir, <- Hself, <- Hpeer, Ea, <- Hk, <- Hiv, open_seal, payload_codec.
  done.
Qed.

(** a record that does not open changes nothing: whenever [Open]
    reports an error, whatever the frame, the session is left exactly as it
    was, so a forged record with a high counter cannot move the window. *)
Theorem failed_open_keeps_state : forall (C : Crypto) s f now e s',
  Open s f now = (Err e, s') -> s' = s.
Proof.
  intros C s f now e s'. unfold Open. repeat step_match; intros H; try discriminate;
    by injection H.
Qed.

(** ** A concrete instance: no encryption, a self-describing codec *)

Definition payload_tuple (p : payload) :=
  (p_op p, p_s p, p_ws p, p_seq p, p_body p, p_err p).
Definition sealed_tuple (s : sealed) := (sid s, N s, CT s).

(** Authenticated but not secret: the ciphertext carries key, nonce,
    associated data and plaintext, and opening compares the first three. *)
#[local] Instance plain_crypto : Crypto := {|
  aead_seal k iv p aad := wire (k, iv, aad, p);
  aead_open k iv ct aad :=
    match unwire ct with
    | Some (k', iv', aad', p) =>
        if bool_decide ((k', iv', aad') = (k, iv, aad)) then Some p else None
    | None => None
    end;
  marshal_payload p := wire (payload_tuple p);
  unmarshal_payload l :=
    match unwire l with
    | Some (op, s, ws, seq, body, err) => Some (mkPayload op s ws seq body err)
    | None => None
    end;
  marshal_sealed s := wire (sealed_tuple s);
  unmarshal_sealed l :=
    match unwire l with Some (i, n, ct) => Some (mkSealed i n ct) | None => None end |}.

#[local] Instance plain_crypto_laws : CryptoLaws plain_crypto.
Proof.
  split.
  - intros k iv p aad. cbn. by rewrite unwire_wire, bool_decide_eq_true_2.
  - intros []. cbn. by rewrite unwire_wire.
  - intros []. cbn. by rewrite unwire_wire.
Qed.

Definition ex_keys : directionKeys :=
  mkKeys (replicate 32 x01) (replicate 32 x02) (replicate 12 x03) (replicate 12 x04).
Definition ex_a : session := newSession "c1" "n1" (replicate 16 x09) true 5 ex_keys 100.
Definition ex_b : session := newSession "n1" "c1" (replicate 16 x09) false 5 ex_keys 100.
Definition ex_frame : frame :=
  mkFrame x01 "req" 3 7 11 "s1" "w1" "n1" "c1" "exec" [x61; x62] None "t" "sp".

Lemma nonces_never_reused_witness :
  fst (seal_run ex_a [(ex_frame, 101); (ex_frame, 102)]) = [1; 2] /\
  NoDup (map (nonce (sendIV ex_a)) (fst (seal_run ex_a [(ex_frame, 101); (ex_frame, 102)]))).
Proof.
  destruct (seal_run ex_a [(ex_frame, 101); (ex_frame, 102)]) as [ns s'] eqn:E.
  split; [apply (f_equal fst) in E; vm_compute in E; by symmetry|].
  apply (nonces_never_reused plain_crypto ex_a s' [(ex_frame, 101); (ex_frame, 102)] ns); [|exact E].
  rewrite maxRecord_val. cbn. lia.
Defined.

Lemma open_inverts_seal_witness :
  exists sf a', Seal ex_a ex_frame 101 = (Ok sf, a') /\
  fst (Open ex_b sf 105) =
    Ok (mkFrame x01 "req" 3 7 11 "s1" "w1" "n1" "c1" "exec" [x61; x62] None "" "").
Proof.
  destruct (Seal ex_a ex_frame 101) as [[sf|e] a'] eqn:E; 
    [|apply (f_equal (fun x => is_ok (fst x))) in E; vm_compute in E; discriminate].
  exists sf, a'. split; [reflexivity|].
  apply (open_inverts_seal plain_crypto plain_crypto_laws ex_a ex_b ex_frame 101 105 sf a');
    [repeat split|exact E|].
  assert (Hn : sendSeq a' = 1).
  { change a' with (snd (Ok (E := e2ee_error) sf, a')). rewrite <- E. vm_compute. reflexivity. }
  rewrite Hn. reflexivity.
Defined.

Lemma failed_open_keeps_state_witness :
  exists e s', Open ex_b ex_frame 105 = (Err e, s') /\ s' = ex_b.
Proof.
  destruct (Open ex_b ex_frame 105) as [[sf|e] s'] eqn:E; 
    [apply (f_equal (fun x => is_ok (fst x))) in E; vm_compute in E; discriminate|].
  exists e, s'. split; [reflexivity|].
  exact (failed_open_keeps_state plain_crypto ex_b ex_frame 105 e s' E).
Defined.

End E2EE.
