(* ===== verification/Pricing.v ===== *)
(** * The pricing catalogue

    [internal/budget/pricing.go] and the identifier check of
    [internal/budget/manager.go]: bounded tenant overrides over immutable
    defaults, and the rounded-up cost estimate in [int64] arithmetic. *)

From Stdlib Require Import ZArith Lia Strings.String.
From stdpp Require Import base list gmap strings fin_maps.
From S2P Require Import Prelude GoStd.
Import GoStd.

#[local] Open Scope Z_scope.

Module Pricing.

Definition MaxTokenCount : Z := 1000000000000.
Definition maxPrices : Z := 4096.
Definition maxTenantOverrides : Z := 4096.
Definition maxTenantOverridePrices : Z := 65536.
Definition maxPriceMicrosPerMTok : Z := 1000000000000.
Definition tokensPerMillion : Z := 1000000.
Definition maximumIDBytes : Z := 256.

(** ** Identifiers *)

Definition safeID (value : string) : bool :=
  if (value =s "") || (maximumIDBytes <? string_len value) then false
  else match runes value with
  | None => false
  | Some rs => bool_decide (TrimSpace rs = rs) && forallb (fun c => negb (IsControl c)) rs
  end.

Definition optionalID (value : string) : bool := (value =s "") || safeID value.

Lemma visible_safeID value :
  value <> ""%string -> string_len value <= maximumIDBytes ->
  forallb visible (string_bytes value) = true -> safeID value = true.
Proof.
  intros Hne Hlen Hv. unfold safeID, runes.
  rewrite (proj2 (str_eqb_neq _ _) Hne), (proj2 (Z.ltb_ge _ _) Hlen), visible_decode by done.
  cbn [orb]. rewrite bool_decide_eq_true_2 by by apply TrimSpace_visible. cbn [andb].
  apply forallb_forall. intros b Hb. rewrite forallb_forall in Hv.
  by rewrite visible_not_control by by apply Hv.
Qed.

(** ** Prices *)

Record Price := mkPrice {
  Provider : string; Model : string;
  InputMicrosPerMillionTokens : Z; OutputMicrosPerMillionTokens : Z;
  Approximate : bool; Source : string }.

Record priceDocument := mkPriceDocument {
  Version : Z; AsOf : string; Currency : string; Prices_ : list Price }.

Inductive pricing_error :=
| ErrInvalidCatalogue | ErrInvalidOverride | ErrInvalidPrice | ErrDuplicatePrice | ErrPriceCapacity.

Record Catalog := mkCatalog {
  defaults : gmap string Price;
  overrides : gmap string (gmap string Price);
  overridePrices : Z }.

Section catalogue.
  (** Go's Unicode case tables, beyond ASCII. *)
  Context (unicode_lower : string -> string).

Definition nul : string := String (Ascii.ascii_of_nat 0) "".

Definition priceKey (provider model : string) : string :=
    (ToLower unicode_lower provider ++ nul ++ ToLower unicode_lower model)%string.

Definition price_valid (p : Price) : bool :=
    negb (negb (safeID (Provider p)) || negb (safeID (Model p)) || (1024 <? string_len (Source p))
          || (InputMicrosPerMillionTokens p <? 0) || (OutputMicrosPerMillionTokens p <? 0)
          || (maxPriceMicrosPerMTok <? InputMicrosPerMillionTokens p)
          || (maxPriceMicrosPerMTok <? OutputMicrosPerMillionTokens p)
          || negb (Approximate p)).

Fixpoint index_loop (indexed : gmap string Price) (prices : list Price)
    : result pricing_error (gmap string Price) :=
    match prices with
    | [] => Ok indexed
    | p :: t =>
        if negb (price_valid p) then Err ErrInvalidPrice
        else
          let key := priceKey (Provider p) (Model p) in
          match indexed !! key with
          | Some _ => Err ErrDuplicatePrice
          | None => index_loop (<[key := p]> indexed) t
          end
    end.

Definition indexPrices (prices : list Price) : result pricing_error (gmap string Price) :=
    index_loop ∅ prices.

  (** The checks of [ParseCatalog] on a document the strict JSON decoder
      returned; [date_ok] is the verdict of [time.Parse] on [AsOf]. *)
Definition ParseCatalog (document : priceDocument) (date_ok : bool) : result pricing_error Catalog :=
    if negb (Version document =? 1) || (Currency document <>s "USD")
       || (Z.of_nat (length (Prices_ document)) =? 0)
       || (maxPrices <? Z.of_nat (length (Prices_ document)))
    then Err ErrInvalidCatalogue
    else if negb date_ok then Err ErrInvalidCatalogue
    else let? prices := indexPrices (Prices_ document) in Ok (mkCatalog prices ∅ 0).

Definition tenant_size (c : Catalog) (tenant : string) : Z :=
    match overrides c !! tenant with Some m => Z.of_nat (size m) | None => 0 end.

Definition ReplaceTenant (c : Catalog) (tenant : string) (prices : list Price)
    : result pricing_error unit * Catalog :=
    if negb (safeID tenant) || (maxPrices <? Z.of_nat (length prices)) then (Err ErrInvalidOverride, c)
    else match indexPrices prices with
    | Err e => (Err e, c)
    | Ok indexed =>
        if (size indexed =? 0)%nat then
          (Ok tt, mkCatalog (defaults c) (delete tenant (overrides c))
                    (overridePrices c - tenant_size c tenant))
        else if bool_decide (overrides c !! tenant = None)
                && (maxTenantOverrides <=? Z.of_nat (size (overrides c)))
        then (Err ErrPriceCapacity, c)
        else
          let projected := overridePrices c - tenant_size c tenant + Z.of_nat (size indexed) in
          if maxTenantOverridePrices <? projected then (Err ErrPriceCapacity, c)
          else (Ok tt, mkCatalog (defaults c) (<[tenant := indexed]> (overrides c)) projected)
    end.

Definition Lookup (c : Catalog) (tenant provider model : string) : option Price :=
    let key := priceKey provider model in
    match overrides c !! tenant with
    | Some prices => match prices !! key with Some p => Some p | None => defaults c !! key end
    | None => defaults c !! key
    end.

Definition scaledCost (tokens rate : Z) : option Z :=
    if (tokens <? 0) || (MaxTokenCount <? tokens) || (rate <? 0) || (maxPriceMicrosPerMTok <? rate)
    then None
    else
      let whole := Z.quot tokens tokensPerMillion in
      let remainder := Z.rem tokens tokensPerMillion in
      if negb (whole =? 0) && (Z.quot maxInt64 whole <? rate) then None
      else
        let cost := i64 (whole * rate) in
        let partial := i64 (remainder * rate) in
        let partial :=
          if 0 <? partial
          then Z.quot (i64 (i64 (partial + tokensPerMillion) - 1)) tokensPerMillion
          else partial in
        if i64 (maxInt64 - partial) <? cost then None else Some (i64 (cost + partial)).

  (** [(cost, known)], as the source's two results. *)
Definition Estimate (c : Catalog) (tenant provider model : string) (inputTokens outputTokens : Z)
    : Z * bool :=
    match Lookup c tenant provider model with
    | None => (0, false)
    | Some price =>
        if (inputTokens <? 0) || (outputTokens <? 0) then (0, false)
        else match scaledCost inputTokens (InputMicrosPerMillionTokens price) with
        | None => (0, false)
        | Some input =>
            match scaledCost outputTokens (OutputMicrosPerMillionTokens price) with
            | None => (0, false)
            | Some output =>
                if i64 (maxInt64 - output) <? input then (0, false)
                else (i64 (input + output), true)
            end
        end
    end.

  (** ** Correctness of the estimate *)

  (** The mathematical price: tokens times rate per million, rounded up. *)
Definition ceil_cost (tokens rate : Z) : Z := (tokens * rate + (tokensPerMillion - 1)) / tokensPerMillion.

Lemma maxInt64_val : maxInt64 = 9223372036854775807.
  Proof. reflexivity. Qed.

Lemma scaledCost_exact tokens rate :
    0 <= tokens <= MaxTokenCount -> 0 <= rate <= maxPriceMicrosPerMTok ->
    scaledCost tokens rate = Some (ceil_cost tokens rate) /\ 0 <= ceil_cost tokens rate <= 10 ^ 18.
  Proof.
    unfold MaxTokenCount, maxPriceMicrosPerMTok. intros Ht Hr.
    unfold scaledCost, ceil_cost, MaxTokenCount, maxPriceMicrosPerMTok, tokensPerMillion.
    replace (_ || _) with false by (symmetry; rewrite !orb_false_iff, !Z.ltb_ge; lia).
    rewrite Z.quot_div_nonneg, Z.rem_mod_nonneg by lia.
    set (w := tokens / 1000000). set (r := tokens mod 1000000).
    assert (Htok : tokens = 1000000 * w + r) by (apply Z.div_mod; lia).
    assert (Hr6 : 0 <= r < 1000000) by (apply Z.mod_pos_bound; lia).
    assert (Hw : 0 <= w <= 1000000) by (split; [apply Z.div_pos|apply Z.div_le_upper_bound]; lia).
    assert (Hwr : 0 <= w * rate <= 10 ^ 18) by nia.
    assert (Hrr : 0 <= r * rate < 10 ^ 18) by nia.
    assert (Hceil : (tokens * rate + (1000000 - 1)) / 1000000
                    = w * rate + (r * rate + 999999) / 1000000).
    { rewrite Htok. replace ((1000000 * w + r) * rate + (1000000 - 1))
        with (w * rate * 1000000 + (r * rate + 999999)) by lia.
      by rewrite Z.div_add_l by lia. }
    assert (Hp : 0 <= (r * rate + 999999) / 1000000 <= rate).
    { split; [apply Z.div_pos; lia|].
      assert ((r * rate + 999999) / 1000000 < rate + 1); [apply Z.div_lt_upper_bound; nia|lia]. }
    rewrite Hceil. rewrite (i64_small (w * rate)), (i64_small (r * rate))
      by (unfold is_i64; lia).
    assert ((if 0 <? r * rate then Z.quot (i64 (i64 (r * rate + 1000000) - 1)) 1000000 else r * rate)
            = (r * rate + 999999) / 1000000) as ->.
    { destruct (0 <? r * rate) eqn:E; bool_hyp.
      - rewrite (i64_small (r * rate + 1000000)), i64_small by (unfold is_i64; lia).
        rewrite Z.quot_div_nonneg by lia. f_equal. lia.
      - replace (r * rate) with 0 by lia. reflexivity. }
    replace (negb (w =? 0) && (Z.quot maxInt64 w <? rate)) with false; cycle 1.
    { symmetry. destruct (Z.eqb_spec w 0) as [->|Hw0]; [done|]. cbn [negb andb].
      apply Z.ltb_ge. rewrite Z.quot_div_nonneg by (rewrite ?maxInt64_val; lia).
      apply Z.div_le_lower_bound; rewrite ?maxInt64_val; lia. }
    rewrite maxInt64_val.
    rewrite !i64_small by (unfold is_i64; lia).
    zb. split; [done|].
    rewrite <- Hceil. assert (0 <= tokens * rate <= 10 ^ 24) by (clear - Ht Hr; nia).
    split; [apply Z.div_pos; lia|]. apply Z.lt_succ_r, Z.div_lt_upper_bound; lia.
  Qed.

  (** ** The catalogue invariant *)

Definition price_in_range (p : Price) : Prop :=
    0 <= InputMicrosPerMillionTokens p <= maxPriceMicrosPerMTok /\
    0 <= OutputMicrosPerMillionTokens p <= maxPriceMicrosPerMTok.

Definition total_overrides (o : gmap string (gmap string Price)) : Z :=
    map_fold (fun _ m acc => Z.of_nat (size m) + acc) 0 o.

Record catalog_ok (c : Catalog) : Prop := {
    ok_defaults : map_Forall (fun _ p => price_in_range p) (defaults c);
    ok_overrides : map_Forall (fun _ m => map_Forall (fun _ p => price_in_range p) m
                                          /\ (0 < size m)%nat) (overrides c);
    ok_count : overridePrices c = total_overrides (overrides c);
    ok_prices : overridePrices c <= maxTenantOverridePrices;
    ok_tenants : Z.of_nat (size (overrides c)) <= maxTenantOverrides }.

Lemma index_loop_ok prices : forall indexed out,
    map_Forall (fun _ p => price_in_range p) indexed -> index_loop indexed prices = Ok out ->
    map_Forall (fun _ p => price_in_range p) out
    /\ size out = (size indexed + length prices)%nat.
  Proof.
    induction prices as [|p t IH]; intros indexed out Hi; cbn [index_loop length].
    { intros [= <-]. split; [done|lia]. }
    destruct (price_valid p) eqn:Ev; [|discriminate]. cbn [negb].
    destruct (indexed !! _) eqn:El; [discriminate|].
    intros [Hf Hs]%IH.
    - split; [done|]. rewrite Hs, map_size_insert_None by done. lia.
    - apply map_Forall_insert_2; [|done]. unfold price_valid in Ev. bool_hyp. split; lia.
  Qed.

Lemma total_delete o tenant : total_overrides (delete tenant o)
    = total_overrides o - match o !! tenant with Some m => Z.of_nat (size m) | None => 0 end.
  Proof.
    destruct (o !! tenant) as [m|] eqn:E; [|rewrite delete_id by done; lia].
    unfold total_overrides.
    rewrite (map_fold_delete_L _ 0 tenant m o); [lia| |done]. intros; lia.
  Qed.

Lemma total_insert o tenant m : total_overrides (<[tenant := m]> o)
    = total_overrides (delete tenant o) + Z.of_nat (size m).
  Proof.
    rewrite <- insert_delete_eq. unfold total_overrides.
    rewrite map_fold_insert_L; [lia| |apply lookup_delete_eq]. intros; lia.
  Qed.

Lemma ReplaceTenant_ok c tenant prices :
    catalog_ok c -> catalog_ok (snd (ReplaceTenant c tenant prices)).
  Proof.
    intros Hc. unfold ReplaceTenant. step_if; [done|].
    destruct (indexPrices prices) as [indexed|e] eqn:Ei; [|done].
    apply index_loop_ok in Ei as [Hf Hs]; [|apply map_Forall_empty].
    pose proof Hc as [Hd Ho Hcount Hp Ht]. cbv zeta.
    step_if; cbn [snd]; [|step_if; cbn [snd]; [done|step_if; cbn [snd]; [done|]]]; bool_hyp; unfold tenant_size in *.
    - split; cbn [defaults overrides overridePrices]; [done| | | |].
      + by apply map_Forall_delete.
      + by rewrite total_delete, Hcount.
      + repeat step_match; lia.
      + rewrite map_size_delete. destruct (overrides c !! tenant); cbn; [|done]. lia.
    - split; cbn [defaults overrides overridePrices]; [done| | |lia|].
      + apply map_Forall_insert_2; [|done]. split; [done|]. apply Nat.eqb_neq in E0. lia.
      + rewrite total_insert, total_delete, Hcount. done.
      + rewrite map_size_insert. destruct (overrides c !! tenant) eqn:El; cbn; [done|].
        rewrite bool_decide_eq_true_2 in E1 by done. cbn [andb] in E1. bool_hyp. lia.
  Qed.

Lemma Lookup_in_range c tenant provider model p :
    catalog_ok c -> Lookup c tenant provider model = Some p -> price_in_range p.
  Proof.
    intros Hc. unfold Lookup.
    destruct (overrides c !! tenant) as [m|] eqn:Em.
    - destruct (m !! _) eqn:Ep; [|intros H; exact (ok_defaults _ Hc _ _ H)].
      intros [= <-]. exact (proj1 (ok_overrides _ Hc _ _ Em) _ _ Ep).
    - intros H; exact (ok_defaults _ Hc _ _ H).
  Qed.

Lemma Estimate_exact c tenant provider model i o : catalog_ok c ->
    0 <= i <= MaxTokenCount -> 0 <= o <= MaxTokenCount ->
    Estimate c tenant provider model i o =
      match Lookup c tenant provider model with
      | Some p => (ceil_cost i (InputMicrosPerMillionTokens p)
                   + ceil_cost o (OutputMicrosPerMillionTokens p), true)
      | None => (0, false)
      end
    /\ 0 <= fst (Estimate c tenant provider model i o) <= 2 * 10 ^ 18.
  Proof.
    intros Hc Hi Ho. unfold Estimate.
    destruct (Lookup c tenant provider model) as [p|] eqn:E; [|cbn; split; [done|lia]].
    destruct (Lookup_in_range _ _ _ _ _ Hc E) as [Hin Hout].
    destruct (scaledCost_exact i _ Hi Hin) as [-> Hib].
    destruct (scaledCost_exact o _ Ho Hout) as [-> Hob].
    zb.
    rewrite maxInt64_val, i64_small by (unfold is_i64; lia).
    zb.
    rewrite i64_small by (unfold is_i64; lia). cbn. split; [done|lia].
  Qed.

  (** A run of override replacements, failed ones included. *)
Fixpoint replace_run (c : Catalog) (ops : list (string * list Price)) : Catalog :=
    match ops with
    | [] => c
    | (t, ps) :: ops' => replace_run (snd (ReplaceTenant c t ps)) ops'
    end.

Lemma replace_run_ok ops : forall c, catalog_ok c -> catalog_ok (replace_run c ops).
  Proof.
    induction ops as [|[t ps] ops IH]; intros c Hc; [done|]. apply IH. by apply ReplaceTenant_ok.
  Qed.

Lemma ParseCatalog_ok d ok c : ParseCatalog d ok = Ok c -> catalog_ok c.
  Proof.
    unfold ParseCatalog. step_if; [discriminate|]. step_if; [discriminate|].
    destruct (indexPrices _) as [m|e] eqn:Ei; [|discriminate]. intros [= <-].
    apply index_loop_ok in Ei as [Hf _]; [|apply map_Forall_empty].
    split; cbn [defaults overrides overridePrices]; [done|apply map_Forall_empty|done|done|].
    rewrite map_size_empty. done.
  Qed.
End catalogue.

(** the estimate is exact and never overflows: from any parsed catalogue,
    after any run of tenant overrides, for token counts up to [MaxTokenCount]
    [Estimate] knows the cost exactly when [Lookup] finds a price, and the cost
    is the sum of the two products divided by a million, each rounded up, an
    [int64] whatever the prices. *)
Theorem estimate_is_exact : forall lower d ok c0 ops tenant provider model i o,
  ParseCatalog lower d ok = Ok c0 ->
  0 <= i <= MaxTokenCount -> 0 <= o <= MaxTokenCount ->
  let c := replace_run lower c0 ops in
  Estimate lower c tenant provider model i o =
    match Lookup lower c tenant provider model with
    | Some p => (ceil_cost i (InputMicrosPerMillionTokens p)
                 + ceil_cost o (OutputMicrosPerMillionTokens p), true)
    | None => (0, false)
    end
  /\ 0 <= fst (Estimate lower c tenant provider model i o) <= maxInt64.
Proof.
  intros lower d ok c0 ops tenant provider model i o Hp Hi Ho c.
  assert (Hc : catalog_ok c) by (apply replace_run_ok; by eapply ParseCatalog_ok).
  destruct (Estimate_exact lower c tenant provider model i o Hc Hi Ho) as [He Hb].
  split; [done|]. rewrite maxInt64_val. lia.
Qed.

Definition ex_price : Price := mkPrice "openai" "gpt-5" 1250000 10000000 true "".
Definition ex_doc : priceDocument := mkPriceDocument 1 "2026-01-01" "USD" [ex_price].
Definition ex_override : Price := mkPrice "OpenAI" "GPT-5" 3 7 true "contract".
Definition ex_catalog : Catalog :=
  match ParseCatalog id ex_doc true with Ok c => c | Err _ => mkCatalog ∅ ∅ 0 end.

Lemma estimate_is_exact_witness :
  Estimate id (replace_run id ex_catalog [("t1"%string, [ex_override])]) "t1" "openai" "gpt-5" 1000001 1
  = (ceil_cost 1000001 3 + ceil_cost 1 7, true) /\
  ceil_cost 1000001 3 + ceil_cost 1 7 = 5.
Proof.
  split; [|reflexivity].
  exact (proj1 (estimate_is_exact id ex_doc true ex_catalog [("t1"%string, [ex_override])]
    "t1" "openai" "gpt-5" 1000001 1 eq_refl ltac:(unfold MaxTokenCount; lia)
    ltac:(unfold MaxTokenCount; lia))).
Defined.

(** override state stays bounded and its counter true: after any run of
    replacements at most [maxTenantOverrides] tenants hold overrides, the
    counter equals the number of override prices held and is at most
    [maxTenantOverridePrices], and a refused replacement changes nothing. *)
Theorem overrides_bounded_and_counted : forall lower d ok c0 ops tenant prices,
  ParseCatalog lower d ok = Ok c0 ->
  let c := replace_run lower c0 ops in
  overridePrices c = total_overrides (overrides c) /\
  overridePrices c <= maxTenantOverridePrices /\
  Z.of_nat (size (overrides c)) <= maxTenantOverrides /\
  (is_ok (fst (ReplaceTenant lower c tenant prices)) = false ->
   snd (ReplaceTenant lower c tenant prices) = c).
Proof.
  intros lower d ok c0 ops tenant prices Hp c.
  assert (Hc : catalog_ok c) by (apply replace_run_ok; by eapply ParseCatalog_ok).
  destruct Hc as [_ _ Hcount Hpr Ht]. split_and!; [done..|].
  unfold ReplaceTenant. repeat step_match; cbn; done.
Qed.

Lemma overrides_bounded_and_counted_witness :
  let c := replace_run id ex_catalog [("t1"%string, [ex_override])] in
  overridePrices c = 1 /\ overridePrices c = total_overrides (overrides c).
Proof.
  intros c. split; [reflexivity|].
  exact (proj1 (overrides_bounded_and_counted id ex_doc true ex_catalog
    [("t1"%string, [ex_override])] "t2" [] eq_refl)).
Defined.

End Pricing.
