(* ===== verification/Budget.v ===== *)
(** * The budget authority

    [internal/budget/manager.go] and [types.go]: atomic admission of brokered
    model calls against rolling request, token and cost limits.  The
    [Manager]'s two maps are [gmap]s, its counters [uint64]s; [cfg.Now] is the
    argument [now] of the operations that read the clock, and a cancelled
    context the argument [ctx]. *)

From Stdlib Require Import ZArith Lia Strings.String.
From stdpp Require Import base list gmap strings fin_maps sorting.
From S2P Require Import Prelude GoStd Pricing.
Import GoStd Pricing.

#[local] Open Scope Z_scope.

Module Budget.

(** ** Data *)

Inductive Window := WindowHour | WindowDay | Window30Days | WindowOther (s : string).
Inductive AttachmentKind :=
| AttachTenant | AttachWorkspace | AttachPrincipal | AttachBinding | AttachOther (s : string).
Inductive SettlementMode :=
| SettlementMetered | SettlementRequestOnly | SettlementIncomplete | ModeOther (s : string).
Inductive ReservationState := StateReserved | StateSettled | StateExpired | StateOther (s : string).
Inductive LimitKind := LimitRequests | LimitTokens | LimitCost.

#[export] Instance Window_eq_dec : EqDecision Window.
Proof. solve_decision. Defined.
#[export] Instance AttachmentKind_eq_dec : EqDecision AttachmentKind.
Proof. solve_decision. Defined.
#[export] Instance SettlementMode_eq_dec : EqDecision SettlementMode.
Proof. solve_decision. Defined.
#[export] Instance ReservationState_eq_dec : EqDecision ReservationState.
Proof. solve_decision. Defined.

Record Subject := mkSubject {
  sTenant : string; sWorkspace : string; sGeneration : Z; sPrincipal : string;
  sBinding : string; sBindings : list string }.
#[export] Instance Subject_eq_dec : EqDecision Subject.
Proof. solve_decision. Defined.

Record budget := mkBudget {
  bID : string; bTenant : string; bAttachTo : AttachmentKind; bAttachID : string;
  bWindow : Window; bMaxRequests : Z; bMaxTokens : Z; bMaxEstimatedCostMicros : Z }.
#[export] Instance budget_eq_dec : EqDecision budget.
Proof. solve_decision. Defined.

Record ReserveRequest := mkReserve {
  qKey : string; qNode : string; qSubject : Subject; qProvider : string; qModel : string;
  qInputTokens : Z; qMaxOutputTokens : Z; qMetered : bool }.
#[export] Instance ReserveRequest_eq_dec : EqDecision ReserveRequest.
Proof. solve_decision. Defined.

Record Reservation := mkReservation {
  rID : string; rTracked : bool; rKey : string; rNode : string; rSubject : Subject;
  rProvider : string; rModel : string; rBudgetIDs : list string; rReservedTokens : Z;
  rReservedEstimatedCostMicros : Z; rCostKnown : bool; rUnmeteredReason : string;
  rCreatedAt : Z; rExpiresAt : Z; rState : ReservationState }.

Record SettleRequest := mkSettle {
  tReservationID : string; tMode : SettlementMode; tInputTokens : Z; tOutputTokens : Z }.
#[export] Instance SettleRequest_eq_dec : EqDecision SettleRequest.
Proof. solve_decision. Defined.

Record Settlement := mkSettlement {
  stReservation : Reservation; stMode : SettlementMode; stInputTokens : Z; stOutputTokens : Z;
  stTokens : Z; stEstimatedCostMicros : Z; stUsageExceededReservation : bool;
  stEstimatedCostUnavailable : bool }.

Record reservationRecord := mkRecord {
  reservation : Reservation; request : ReserveRequest; settlement : option Settlement;
  settleInput : SettleRequest; terminalAt : Z }.

(** The durable row, [Record]. *)
Record durable := mkDurable {
  dRequest : ReserveRequest; dReservation : Reservation; dSettlement : option Settlement;
  dSettleInput : SettleRequest; dTerminalAt : Z }.

Record charge := mkCharge {
  c_requests : Z; c_tokens : Z; c_cost : Z; c_active : bool; c_unmetered : bool; c_incomplete : bool }.

Record UsageQuery := mkQuery {
  uqBudgetID : string; uqTenant : string; uqWorkspace : string; uqPrincipal : string;
  uqBinding : string; uqWindow : Window; uqAt : Z }.

Record Usage := mkUsage {
  uBudgetID : string; uWindow : Window; uSince : Z; uRequests : Z; uTokens : Z;
  uEstimatedCostMicros : Z; uActiveReservations : Z; uUnmeteredRequests : Z;
  uIncompleteRequests : Z }.

Record Stats := mkStats {
  sBudgets : Z; sMaxBudgets : Z; sReservations : Z; sMaxReservations : Z; sActive : Z;
  sDenied : Z; sUnmetered : Z; sIncomplete : Z; sExpired : Z }.

Record ExpiryResult := mkExpiry { ReservationIDs : list string; CollectedIDs : list string }.

Inductive budget_error :=
| ErrContext | ErrInvalid (what : string)
| ErrDenied (ids : list string) (limit : LimitKind) (unmeteredReason : string)
| ErrConflict | ErrCapacity | ErrNotFound | ErrExpired.

Record Config := mkConfig {
  Pricing : Catalog; ReservationTTL : Z; Retention : Z; MaxBudgets : Z; MaxReservations : Z }.

Record Manager := mkManager {
  cfg : Config; budgets : gmap string budget; reservations : gmap string reservationRecord;
  denied : Z; unmetered : Z; incomplete : Z; expired : Z }.

Definition set_budgets (m : Manager) b : Manager :=
  mkManager (cfg m) b (reservations m) (denied m) (unmetered m) (incomplete m) (expired m).
Definition set_reservations (m : Manager) r : Manager :=
  mkManager (cfg m) (budgets m) r (denied m) (unmetered m) (incomplete m) (expired m).
Definition count_denied (m : Manager) : Manager :=
  mkManager (cfg m) (budgets m) (reservations m) (u64 (denied m + 1)) (unmetered m) (incomplete m)
    (expired m).
Definition count_unmetered (m : Manager) : Manager :=
  mkManager (cfg m) (budgets m) (reservations m) (denied m) (u64 (unmetered m + 1)) (incomplete m)
    (expired m).
Definition count_incomplete (n : Z) (m : Manager) : Manager :=
  mkManager (cfg m) (budgets m) (reservations m) (denied m) (unmetered m) (u64 (incomplete m + n))
    (expired m).
Definition count_expired (n : Z) (m : Manager) : Manager :=
  mkManager (cfg m) (budgets m) (reservations m) (denied m) (unmetered m) (incomplete m)
    (u64 (expired m + n)).

Definition Day : Z := 24 * Hour.
Definition defaultReservationTTL : Z := 5 * Minute.
Definition maximumReservationTTL : Z := Hour.
Definition defaultRetention : Z := 31 * Day.
Definition maximumRetention : Z := 365 * Day.
Definition defaultMaxBudgets : Z := 4096.
Definition maximumBudgets : Z := 65536.
Definition defaultMaxReservations : Z := 65536.
Definition maximumReservations : Z := 1048576.
Definition maximumBudgetsPerRequest : Z := 64.

(** ** Helpers *)

Definition windowDuration (w : Window) : option Z :=
  match w with
  | WindowHour => Some Hour
  | WindowDay => Some Day
  | Window30Days => Some (30 * Day)
  | WindowOther _ => None
  end.

Definition budgetKey (tenant id : string) : string := (tenant ++ nul ++ id)%string.

Definition reservationID (tenant key : string) : string :=
  ("bres_" ++ EncodeToString (Sha256.Sum256 (string_bytes (tenant ++ nul ++ key))))%string.

Definition exceeds (current delta limit : Z) : bool :=
  (limit <? delta) || (i64 (limit - delta) <? current).

Definition saturatingAdd (left right : Z) : Z :=
  if (0 <? right) && (i64 (maxInt64 - right) <? left) then maxInt64 else i64 (left + right).

Definition validateBudget (v : budget) : result budget_error unit :=
  if negb (safeID (bID v)) || negb (safeID (bTenant v)) || negb (safeID (bAttachID v))
  then Err (ErrInvalid "identity")
  else match windowDuration (bWindow v) with
  | None => Err (ErrInvalid "window")
  | Some _ =>
      let? _ := match bAttachTo v with
                | AttachTenant => if bAttachID v <>s bTenant v
                                  then Err (ErrInvalid "tenant attachment") else Ok tt
                | AttachWorkspace | AttachPrincipal | AttachBinding => Ok tt
                | AttachOther _ => Err (ErrInvalid "attachment kind")
                end in
      if (bMaxRequests v <? 0) || (bMaxTokens v <? 0) || (MaxTokenCount <? bMaxTokens v)
         || (bMaxEstimatedCostMicros v <? 0)
         || ((bMaxRequests v =? 0) && (bMaxTokens v =? 0) && (bMaxEstimatedCostMicros v =? 0))
      then Err (ErrInvalid "limits") else Ok tt
  end.

Definition validateReserveRequest (q : ReserveRequest) : result budget_error unit :=
  let s := qSubject q in
  if negb (safeID (qKey q)) || negb (safeID (qNode q)) || negb (safeID (sTenant s))
     || negb (optionalID (sWorkspace s)) || negb (optionalID (sPrincipal s))
     || negb (optionalID (sBinding s)) || negb (safeID (qProvider q))
     || (qMetered q && negb (safeID (qModel q))) || (negb (qMetered q) && negb (optionalID (qModel q)))
  then Err (ErrInvalid "reservation identity")
  else if (qInputTokens q <? 0) || (qMaxOutputTokens q <? 0) || (MaxTokenCount <? qInputTokens q)
     || (MaxTokenCount <? qMaxOutputTokens q)
     || (i64 (MaxTokenCount - qMaxOutputTokens q) <? qInputTokens q)
  then Err (ErrInvalid "reservation token bound")
  else if 32 <? Z.of_nat (length (sBindings s)) then Err (ErrInvalid "too many bindings")
  else if negb (forallb safeID (sBindings s)) then Err (ErrInvalid "reservation binding")
  else Ok tt.

Definition validateSettleRequest (t : SettleRequest) : result budget_error unit :=
  if negb (safeID (tReservationID t)) then Err (ErrInvalid "reservation id")
  else match tMode t with
  | SettlementMetered =>
      if (tInputTokens t <? 0) || (tOutputTokens t <? 0) || (MaxTokenCount <? tInputTokens t)
         || (MaxTokenCount <? tOutputTokens t)
         || (i64 (MaxTokenCount - tOutputTokens t) <? tInputTokens t)
      then Err (ErrInvalid "settled token count") else Ok tt
  | SettlementRequestOnly | SettlementIncomplete =>
      if negb (tInputTokens t =? 0) || negb (tOutputTokens t =? 0)
      then Err (ErrInvalid "non-metered settlement included tokens") else Ok tt
  | ModeOther _ => Err (ErrInvalid "settlement mode")
  end.

Definition budgetMatches (v : budget) (s : Subject) : bool :=
  if bTenant v <>s sTenant s then false
  else match bAttachTo v with
  | AttachTenant => bAttachID v =s sTenant s
  | AttachWorkspace => bAttachID v =s sWorkspace s
  | AttachPrincipal => bAttachID v =s sPrincipal s
  | AttachBinding => if bAttachID v =s sBinding s then true else contains (sBindings s) (bAttachID v)
  | AttachOther _ => false
  end.

Definition queryMatchesBudget (q : UsageQuery) (v : budget) : bool :=
  if ((uqBudgetID q <>s "") && (uqBudgetID q <>s bID v))
     || ((uqTenant q <>s "") && (uqTenant q <>s bTenant v))
     || (negb (bool_decide (uqWindow q = WindowOther "")) && negb (bool_decide (uqWindow q = bWindow v)))
  then false
  else match bAttachTo v with
  | AttachWorkspace => (uqWorkspace q =s "") || (uqWorkspace q =s bAttachID v)
  | AttachPrincipal => (uqPrincipal q =s "") || (uqPrincipal q =s bAttachID v)
  | AttachBinding => (uqBinding q =s "") || (uqBinding q =s bAttachID v)
  | AttachTenant => true
  | AttachOther _ => false
  end.

Definition queryMatchesSubject (q : UsageQuery) (s : Subject) : bool :=
  ((uqTenant q =s "") || (uqTenant q =s sTenant s))
  && ((uqWorkspace q =s "") || (uqWorkspace q =s sWorkspace s))
  && ((uqPrincipal q =s "") || (uqPrincipal q =s sPrincipal s))
  && ((uqBinding q =s "") || (uqBinding q =s sBinding s) || contains (sBindings s) (uqBinding q)).

Fixpoint same_strings (a b : list string) : bool :=
  match a, b with
  | [], [] => true
  | x :: a', y :: b' => if x <>s y then false else same_strings a' b'
  | _, _ => false
  end.

Definition sameSubject (a b : Subject) : bool :=
  if (sTenant a <>s sTenant b) || (sWorkspace a <>s sWorkspace b)
     || negb (sGeneration a =? sGeneration b) || (sPrincipal a <>s sPrincipal b)
     || (sBinding a <>s sBinding b) || negb (length (sBindings a) =? length (sBindings b))%nat
  then false else same_strings (sBindings a) (sBindings b).

Definition sameReserveRequest (a b : ReserveRequest) : bool :=
  if (qKey a <>s qKey b) || (qNode a <>s qNode b) || (qProvider a <>s qProvider b)
     || (qModel a <>s qModel b) || negb (qInputTokens a =? qInputTokens b)
     || negb (qMaxOutputTokens a =? qMaxOutputTokens b) || negb (Bool.eqb (qMetered a) (qMetered b))
  then false else sameSubject (qSubject a) (qSubject b).

(** [recordCharge]: what a record counts against its budgets. *)
Definition recordCharge (r : reservationRecord) : charge :=
  match settlement r with
  | None =>
      mkCharge 1 (rReservedTokens (reservation r)) (rReservedEstimatedCostMicros (reservation r))
        (bool_decide (rState (reservation r) = StateReserved)) false
        (bool_decide (rState (reservation r) = StateExpired))
  | Some s =>
      mkCharge 1 (stTokens s) (stEstimatedCostMicros s) false
        (bool_decide (stMode s = SettlementRequestOnly) || stEstimatedCostUnavailable s)
        (bool_decide (stMode s = SettlementIncomplete))
  end.

(** ** Budgets *)

Definition id_le (a b : budget) : Prop := str_leb (bID a) (bID b) = true.
#[export] Instance id_le_dec : RelDecision id_le.
Proof. intros a b. unfold id_le. apply _. Defined.

Definition string_le (a b : string) : Prop := str_leb a b = true.
#[export] Instance string_le_dec : RelDecision string_le.
Proof. intros a b. unfold string_le. apply _. Defined.

(** [sort.Strings]. *)
Definition sort_strings (l : list string) : list string := merge_sort string_le l.

(** The loop of [NewManager] over the configured budgets. *)
Fixpoint add_budgets (acc : gmap string budget) (l : list budget)
  : result budget_error (gmap string budget) :=
  match l with
  | [] => Ok acc
  | v :: t =>
      let? _ := validateBudget v in
      match acc !! budgetKey (bTenant v) (bID v) with
      | Some _ => Err (ErrInvalid "duplicate budget id")
      | None => add_budgets (<[budgetKey (bTenant v) (bID v) := v]> acc) t
      end
  end.

Definition NewManager (budgets_ : list budget) (pricing : Catalog)
    (ttl retention maxBudgets maxReservations : Z) : result budget_error Manager :=
  let ttl := if ttl =? 0 then defaultReservationTTL else ttl in
  let retention := if retention =? 0 then defaultRetention else retention in
  let maxB := if maxBudgets =? 0 then defaultMaxBudgets else maxBudgets in
  let maxR := if maxReservations =? 0 then defaultMaxReservations else maxReservations in
  if (ttl <? Second) || (maximumReservationTTL <? ttl) || (retention <? 30 * Day)
     || (maximumRetention <? retention) || (maxB <? 1) || (maximumBudgets <? maxB)
     || (maxR <? 1) || (maximumReservations <? maxR)
  then Err (ErrInvalid "authority bounds")
  else if maxB <? Z.of_nat (length budgets_) then Err ErrCapacity
  else
    let? bs := add_budgets ∅ budgets_ in
    Ok (mkManager (mkConfig pricing ttl retention maxB maxR) bs ∅ 0 0 0 0).

Definition references (tenant id : string) (r : reservationRecord) : bool :=
  (sTenant (rSubject (reservation r)) =s tenant) && contains (rBudgetIDs (reservation r)) id.

Definition PutBudget (ctx : bool) (m : Manager) (v : budget) : result budget_error unit * Manager :=
  if ctx then (Err ErrContext, m)
  else match validateBudget v with
  | Err e => (Err e, m)
  | Ok _ =>
      let key := budgetKey (bTenant v) (bID v) in
      match budgets m !! key with
      | Some current => if bool_decide (current = v) then (Ok tt, m) else (Err ErrConflict, m)
      | None =>
          if existsb (references (bTenant v) (bID v)) (map_to_list (reservations m)).*2
          then (Err ErrConflict, m)
          else if MaxBudgets (cfg m) <=? Z.of_nat (size (budgets m)) then (Err ErrCapacity, m)
          else (Ok tt, set_budgets m (<[key := v]> (budgets m)))
      end
  end.

Definition DeleteBudget (ctx : bool) (m : Manager) (tenant id : string)
  : result budget_error unit * Manager :=
  if ctx then (Err ErrContext, m)
  else if negb (safeID tenant) || negb (safeID id) then (Err (ErrInvalid "budget id"), m)
  else (Ok tt, set_budgets m (delete (budgetKey tenant id) (budgets m))).

Definition Budgets (ctx : bool) (m : Manager) : result budget_error (list budget) :=
  if ctx then Err ErrContext else Ok (merge_sort id_le (map_to_list (budgets m)).*2).

Definition Budget (m : Manager) (tenant id : string) : option budget :=
  budgets m !! budgetKey tenant id.

Definition RestoreBudget (m : Manager) (tenant id : string) (value : option budget)
  : result budget_error unit * Manager :=
  if negb (safeID tenant) || negb (safeID id) then (Err (ErrInvalid "durable budget id"), m)
  else
    let key := budgetKey tenant id in
    match value with
    | None => (Ok tt, set_budgets m (delete key (budgets m)))
    | Some v =>
        if (bID v <>s id) || (bTenant v <>s tenant) then (Err (ErrInvalid "inconsistent budget id"), m)
        else match validateBudget v with
        | Err e => (Err e, m)
        | Ok _ =>
            if bool_decide (budgets m !! key = None)
               && (MaxBudgets (cfg m) <=? Z.of_nat (size (budgets m)))
            then (Err ErrCapacity, m)
            else (Ok tt, set_budgets m (<[key := v]> (budgets m)))
        end
    end.

(** The matching budgets in ID order; IDs are unique within a tenant. *)
Definition matchingBudgetsLocked (m : Manager) (s : Subject) : list budget :=
  merge_sort id_le (filter (fun v => budgetMatches v s = true) (map_to_list (budgets m)).*2).

(** ** Rolling usage *)

Definition usage_init (values : list budget) (now : Z) : gmap string Usage :=
  foldl (fun acc v =>
    <[bID v := mkUsage (bID v) (bWindow v) (now - default 0 (windowDuration (bWindow v)))
                 0 0 0 0 0 0]> acc) ∅ values.

Definition bump (b : bool) (n : Z) : Z := if b then i64 (n + 1) else n.

Definition usage_add (entry : charge) (created : Z) (results : gmap string Usage) (id : string)
  : gmap string Usage :=
  match results !! id with
  | None => results
  | Some u =>
      if created <? uSince u then results
      else <[id := mkUsage (uBudgetID u) (uWindow u) (uSince u)
                     (saturatingAdd (uRequests u) (c_requests entry))
                     (saturatingAdd (uTokens u) (c_tokens entry))
                     (saturatingAdd (uEstimatedCostMicros u) (c_cost entry))
                     (bump (c_active entry) (uActiveReservations u))
                     (bump (c_unmetered entry) (uUnmeteredRequests u))
                     (bump (c_incomplete entry) (uIncompleteRequests u))]> results
  end.

Definition usage_record (q : UsageQuery) (results : gmap string Usage) (r : reservationRecord)
  : gmap string Usage :=
  if negb (queryMatchesSubject q (rSubject (reservation r))) then results
  else foldl (usage_add (recordCharge r) (rCreatedAt (reservation r))) results
         (rBudgetIDs (reservation r)).

(** The loop over the records in one iteration order. *)
Definition usage_over (records : list reservationRecord) (values : list budget) (now : Z)
    (q : UsageQuery) : gmap string Usage :=
  foldl (usage_record q) (usage_init values now) records.

Definition usageForBudgetsLocked (m : Manager) (values : list budget) (now : Z) (q : UsageQuery)
  : gmap string Usage :=
  usage_over (map_to_list (reservations m)).*2 values now q.

Definition query0 : UsageQuery := mkQuery "" "" "" "" "" (WindowOther "") 0.
Definition usage0 : Usage := mkUsage "" (WindowOther "") 0 0 0 0 0 0 0.

Definition usage_le (a b : Usage) : Prop := str_leb (uBudgetID a) (uBudgetID b) = true.
#[export] Instance usage_le_dec : RelDecision usage_le.
Proof. intros a b. unfold usage_le. apply _. Defined.

(** [Usage]; [at_] is [query.At], the clock when it is zero. *)
Definition Usage_ (ctx : bool) (m : Manager) (now : Z) (q : UsageQuery)
  : result budget_error (list Usage) :=
  if ctx then Err ErrContext
  else if negb (bool_decide (uqWindow q = WindowOther ""))
          && bool_decide (windowDuration (uqWindow q) = None)
  then Err (ErrInvalid "usage window")
  else
    let now := if isZeroTime (uqAt q) then now else uqAt q in
    let selected := filter (fun v => queryMatchesBudget q v = true) (map_to_list (budgets m)).*2 in
    let by_budget := usageForBudgetsLocked m selected now q in
    Ok (merge_sort usage_le (map (fun v => default usage0 (by_budget !! bID v)) selected)).

(** ** Reservations *)

Definition with_state (r : Reservation) (st : ReservationState) : Reservation :=
  mkReservation (rID r) (rTracked r) (rKey r) (rNode r) (rSubject r) (rProvider r) (rModel r)
    (rBudgetIDs r) (rReservedTokens r) (rReservedEstimatedCostMicros r) (rCostKnown r)
    (rUnmeteredReason r) (rCreatedAt r) (rExpiresAt r) st.

Definition with_cost_known (r : Reservation) (known : bool) : Reservation :=
  mkReservation (rID r) (rTracked r) (rKey r) (rNode r) (rSubject r) (rProvider r) (rModel r)
    (rBudgetIDs r) (rReservedTokens r) (rReservedEstimatedCostMicros r) known
    (rUnmeteredReason r) (rCreatedAt r) (rExpiresAt r) (rState r).

Definition settle0 : SettleRequest := mkSettle "" (ModeOther "") 0 0.

(** The IDs of the matched budgets that set a limit. *)
Definition ids_with (f : budget -> Z) (matched : list budget) : list string :=
  map bID (filter (fun v => 0 < f v) matched).

(** The IDs of the matched budgets whose limit [f] the admission would
    exceed. *)
Definition ids_over (f : budget -> Z) (g : Usage -> Z) (delta : Z)
    (current : gmap string Usage) (matched : list budget) : list string :=
  map bID (filter (fun v => (0 <? f v)
      && exceeds (g (default usage0 (current !! bID v))) delta (f v) = true) matched).

Definition nonempty {A} (l : list A) : bool := match l with [] => false | _ => true end.

Section authority.
  (** Go's Unicode case tables, beyond ASCII; see [Pricing.priceKey]. *)
  Context (unicode_lower : string -> string).

Definition reserved_tokens (q : ReserveRequest) : Z :=
    if negb (qMetered q) then 0 else i64 (qInputTokens q + qMaxOutputTokens q).

Definition reserved_cost (m : Manager) (q : ReserveRequest) : Z * bool :=
    if qMetered q
    then Estimate unicode_lower (Pricing (cfg m)) (sTenant (qSubject q)) (qProvider q) (qModel q)
           (qInputTokens q) (qMaxOutputTokens q)
    else (0, false).

Definition Reserve (ctx : bool) (now : Z) (m : Manager) (q : ReserveRequest)
    : result budget_error Reservation * Manager :=
    if ctx then (Err ErrContext, m)
    else match validateReserveRequest q with
    | Err e => (Err e, m)
    | Ok _ =>
    let id := reservationID (sTenant (qSubject q)) (qKey q) in
    match reservations m !! id with
    | Some r =>
        if negb (sameReserveRequest (request r) q) then (Err ErrConflict, m)
        else (Ok (reservation r), m)
    | None =>
    let matched := matchingBudgetsLocked m (qSubject q) in
    if maximumBudgetsPerRequest <? Z.of_nat (length matched) then (Err ErrCapacity, m)
    else
    let reservedTokens := reserved_tokens q in
    let reservedCost := fst (reserved_cost m q) in
    let costKnown := snd (reserved_cost m q) in
    let unmeteredReason :=
      if negb (qMetered q) then "provider_unknown"%string
      else if negb costKnown then "price_unavailable"%string else ""%string in
    if negb (nonempty matched) then
      (Ok (mkReservation "" false (qKey q) (qNode q) (qSubject q) (qProvider q) (qModel q) []
             reservedTokens reservedCost costKnown unmeteredReason now
             (now + ReservationTTL (cfg m)) StateReserved), m)
    else if qMetered q && (reservedTokens =? 0) && nonempty (ids_with bMaxTokens matched) then
      (Err (ErrDenied (ids_with bMaxTokens matched) LimitTokens ""), count_denied m)
    else if qMetered q && (reservedTokens =? 0) && nonempty (ids_with bMaxEstimatedCostMicros matched) then
      (Err (ErrDenied (ids_with bMaxEstimatedCostMicros matched) LimitCost ""), count_denied m)
    else if qMetered q && negb costKnown && nonempty (ids_with bMaxEstimatedCostMicros matched) then
      (Err (ErrDenied (ids_with bMaxEstimatedCostMicros matched) LimitCost "price_unavailable"),
       count_unmetered (count_denied m))
    else if MaxReservations (cfg m) <=? Z.of_nat (size (reservations m)) then (Err ErrCapacity, m)
    else
    let current := usageForBudgetsLocked m matched now query0 in
    let deniedRequests := ids_over bMaxRequests uRequests 1 current matched in
    let deniedTokens := ids_over bMaxTokens uTokens reservedTokens current matched in
    let deniedCost := if costKnown
      then ids_over bMaxEstimatedCostMicros uEstimatedCostMicros reservedCost current matched
      else [] in
    if nonempty deniedRequests then
      (Err (ErrDenied deniedRequests LimitRequests ""), count_denied m)
    else if nonempty deniedTokens then
      (Err (ErrDenied deniedTokens LimitTokens ""), count_denied m)
    else if nonempty deniedCost then
      (Err (ErrDenied deniedCost LimitCost ""), count_denied m)
    else
    let r := mkReservation id true (qKey q) (qNode q) (qSubject q) (qProvider q) (qModel q)
               (map bID matched) reservedTokens reservedCost costKnown unmeteredReason now
               (now + ReservationTTL (cfg m)) StateReserved in
    (Ok r, set_reservations m (<[id := mkRecord r q None settle0 0]> (reservations m)))
    end
    end.

  (** [expireRecordLocked] on the record; its counters are added by the
      callers. *)
Definition expireRecordLocked (r : reservationRecord) (now : Z) : reservationRecord :=
    if negb (bool_decide (rState (reservation r) = StateReserved)) then r
    else
      let rv := reservation r in
      mkRecord (with_state rv StateExpired) (request r)
        (Some (mkSettlement (with_state rv StateExpired) SettlementIncomplete 0 0
                 (rReservedTokens rv) (rReservedEstimatedCostMicros rv) false (negb (rCostKnown rv))))
        (mkSettle (rID rv) SettlementIncomplete 0 0) now.

Definition settle_metered (m : Manager) (r : reservationRecord) (t : SettleRequest) : Settlement :=
    let q := request r in
    let rv := reservation r in
    let tokens := i64 (tInputTokens t + tOutputTokens t) in
    let '(cost, known) := Estimate unicode_lower (Pricing (cfg m)) (sTenant (qSubject q))
                            (qProvider q) (qModel q) (tInputTokens t) (tOutputTokens t) in
    mkSettlement (with_cost_known (with_state rv StateSettled) known) (tMode t)
      (tInputTokens t) (tOutputTokens t) tokens cost
      ((rReservedTokens rv <? tokens)
       || (known && rCostKnown rv && (rReservedEstimatedCostMicros rv <? cost)))
      (negb known).

  (** The settlement of each mode and the counter it bumps. *)
Definition settle_mode (m : Manager) (r : reservationRecord) (t : SettleRequest)
    : Settlement * Manager :=
    let rv := reservation r in
    match tMode t with
    | SettlementMetered =>
        let s := settle_metered m r t in
        (s, if stEstimatedCostUnavailable s then count_unmetered m else m)
    | SettlementRequestOnly =>
        (mkSettlement (with_state rv StateSettled) (tMode t) 0 0 0 0 false true, count_unmetered m)
    | SettlementIncomplete =>
        (mkSettlement (with_state rv StateSettled) (tMode t) 0 0 (rReservedTokens rv)
           (rReservedEstimatedCostMicros rv) false (negb (rCostKnown rv)), count_incomplete 1 m)
    | ModeOther _ =>
        (mkSettlement (with_state rv StateSettled) (tMode t) 0 0 0 0 false false, m)
    end.

Definition Settle (ctx : bool) (now : Z) (m : Manager) (t : SettleRequest)
    : result budget_error Settlement * Manager :=
    if ctx then (Err ErrContext, m)
    else match validateSettleRequest t with
    | Err e => (Err e, m)
    | Ok _ =>
    match reservations m !! tReservationID t with
    | None => (Err ErrNotFound, m)
    | Some r =>
        if bool_decide (rState (reservation r) = StateExpired) then (Err ErrExpired, m)
        else match settlement r with
        | Some s => if negb (bool_decide (settleInput r = t)) then (Err ErrConflict, m) else (Ok s, m)
        | None =>
            if rExpiresAt (reservation r) <=? now then
              let n := if bool_decide (rState (reservation r) = StateReserved) then 1 else 0 in
              (Err ErrExpired,
               count_incomplete n (count_expired n (set_reservations m
                 (<[tReservationID t := expireRecordLocked r now]> (reservations m)))))
            else if (bool_decide (tMode t = SettlementRequestOnly) && qMetered (request r))
                    || (bool_decide (tMode t = SettlementMetered) && negb (qMetered (request r)))
            then (Err (ErrInvalid "settlement mode"), m)
            else
              let '(s, m1) := settle_mode m r t in
              (Ok s, set_reservations m1
                 (<[tReservationID t :=
                     mkRecord (with_state (reservation r) StateSettled) (request r) (Some s) t now]>
                   (reservations m1)))
        end
    end
    end.

  (** ** Expiry and retention *)

Definition expires (now : Z) (node : string) (r : reservationRecord) : bool :=
    let rv := reservation r in
    if negb (bool_decide (rState rv = StateReserved)) then false
    else if (node <>s "") && (rNode rv <>s node) then false
    else if (node <>s "") && (now <? rCreatedAt rv) then false
    else if (node =s "") && (now <? rExpiresAt rv) then false
    else true.

Definition expireLocked (m : Manager) (now : Z) (node : string) : list string * Manager :=
    let ids := map (fun r => rID (reservation r))
                 (filter (fun r => expires now node r = true) (map_to_list (reservations m)).*2) in
    let n := Z.of_nat (length ids) in
    (sort_strings ids,
     count_incomplete n (count_expired n (set_reservations m
       ((fun r => if expires now node r then expireRecordLocked r now else r) <$> reservations m)))).

Definition collectable (cutoff : Z) (r : reservationRecord) : bool :=
    negb (bool_decide (rState (reservation r) = StateReserved)) && (terminalAt r <? cutoff).

Definition collectLocked (m : Manager) (now : Z) : list string * Manager :=
    let cutoff := now - Retention (cfg m) in
    let gone := filter (fun '(_, r) => collectable cutoff r = true) (reservations m) in
    (sort_strings (map_to_list gone).*1,
     set_reservations m (filter (fun '(_, r) => collectable cutoff r = false) (reservations m))).

Definition expire_and_collect (m : Manager) (at_ : Z) (node : string) : ExpiryResult * Manager :=
    let '(ids, m1) := expireLocked m at_ node in
    let '(collected, m2) := collectLocked m1 at_ in
    (mkExpiry ids collected, m2).

Definition ExpireNode (ctx : bool) (now : Z) (m : Manager) (node : string) (at_ : Z)
    : result budget_error ExpiryResult * Manager :=
    if ctx then (Err ErrContext, m)
    else if negb (safeID node) then (Err (ErrInvalid "node id"), m)
    else let '(r, m') := expire_and_collect m (if isZeroTime at_ then now else at_) node in (Ok r, m').

Definition Sweep (ctx : bool) (now : Z) (m : Manager) (at_ : Z)
    : result budget_error ExpiryResult * Manager :=
    if ctx then (Err ErrContext, m)
    else let '(r, m') := expire_and_collect m (if isZeroTime at_ then now else at_) "" in (Ok r, m').

Definition Stats_ (m : Manager) : Stats :=
    let active := length (filter (fun r => rState (reservation r) = StateReserved)
                            (map_to_list (reservations m)).*2) in
    mkStats (Z.of_nat (size (budgets m))) (MaxBudgets (cfg m)) (Z.of_nat (size (reservations m)))
      (MaxReservations (cfg m)) (Z.of_nat active) (denied m) (unmetered m) (incomplete m) (expired m).

  (** ** Durable rows *)

Definition exportRecord (r : reservationRecord) : durable :=
    mkDurable (request r) (reservation r) (settlement r) (settleInput r) (terminalAt r).

Definition importRecord (v : durable) : result budget_error reservationRecord :=
    let q := dRequest v in
    let rv := dReservation v in
    match validateReserveRequest q with
    | Err e => Err e
    | Ok _ =>
    if (rID rv =s "") || (reservationID (sTenant (qSubject q)) (qKey q) <>s rID rv)
       || (rKey rv <>s qKey q) || (rNode rv <>s qNode q) || negb (sameSubject (rSubject rv) (qSubject q))
       || (rProvider rv <>s qProvider q) || (rModel rv <>s qModel q) || negb (rTracked rv)
       || isZeroTime (rCreatedAt rv) || (rExpiresAt rv <? rCreatedAt rv)
    then Err (ErrInvalid "durable reservation")
    else
      match dSettlement v with
      | None =>
          if negb (bool_decide (rState rv = StateReserved)) || negb (isZeroTime (dTerminalAt v))
          then Err (ErrInvalid "active reservation")
          else Ok (mkRecord rv q None (dSettleInput v) (dTerminalAt v))
      | Some s =>
          if negb (is_ok (validateSettleRequest (dSettleInput v)))
             || (tReservationID (dSettleInput v) <>s rID rv)
             || (negb (bool_decide (rState rv = StateSettled))
                 && negb (bool_decide (rState rv = StateExpired)))
             || isZeroTime (dTerminalAt v)
          then Err (ErrInvalid "durable settlement")
          else if (rID (stReservation s) <>s rID rv)
                  || negb (bool_decide (rState (stReservation s) = rState rv))
                  || negb (bool_decide (stMode s = tMode (dSettleInput v)))
          then Err (ErrInvalid "durable settlement")
          else Ok (mkRecord rv q (Some s) (dSettleInput v) (dTerminalAt v))
      end
    end.

Definition Record_ (m : Manager) (id : string) : option durable :=
    exportRecord <$> reservations m !! id.

Definition Records (m : Manager) : gmap string durable := exportRecord <$> reservations m.

Definition RestoreRecord (m : Manager) (id : string) (value : option durable)
    : result budget_error unit * Manager :=
    if negb (safeID id) then (Err (ErrInvalid "durable reservation id"), m)
    else match value with
    | None => (Ok tt, set_reservations m (delete id (reservations m)))
    | Some v =>
        match importRecord v with
        | Err _ => (Err (ErrInvalid "durable reservation record"), m)
        | Ok r =>
            if rID (reservation r) <>s id then (Err (ErrInvalid "durable reservation record"), m)
            else if bool_decide (reservations m !! id = None)
                    && (MaxReservations (cfg m) <=? Z.of_nat (size (reservations m)))
            then (Err ErrCapacity, m)
            else (Ok tt, set_reservations m (<[id := r]> (reservations m)))
        end
    end.
End authority.

(** ** Equality tests *)

Lemma same_strings_spec a : forall b, same_strings a b = true <-> a = b.
Proof.
  induction a as [|x a IH]; intros [|y b]; cbn; try (split; [discriminate|discriminate]); [done|].
  destruct (x =s y) eqn:E; bool_hyp; cbn.
  - rewrite IH. subst. split; [by intros ->|by intros [= ->]].
  - split; [discriminate|]. by intros [= -> _].
Qed.

Lemma sameSubject_spec a b : sameSubject a b = true <-> a = b.
Proof.
  unfold sameSubject. split.
  - step_if; [discriminate|]. bool_hyp. intros Hs%same_strings_spec.
    destruct a, b; cbn in *; by subst.
  - intros ->. rewrite !str_eqb_refl, Z.eqb_refl, Nat.eqb_refl. cbn. by apply same_strings_spec.
Qed.

Lemma sameReserveRequest_spec a b : sameReserveRequest a b = true <-> a = b.
Proof.
  unfold sameReserveRequest. split.
  - step_if; [discriminate|]. bool_hyp. intros Hs%sameSubject_spec.
    match goal with H : Bool.eqb _ _ = true |- _ => apply Bool.eqb_prop in H end.
    destruct a, b; cbn in *; by subst.
  - intros ->. rewrite !str_eqb_refl, !Z.eqb_refl, Bool.eqb_reflx. cbn. by apply sameSubject_spec.
Qed.

Lemma reservationID_safe tenant key : safeID (reservationID tenant key) = true.
Proof.
  unfold reservationID. set (d := Sha256.Sum256 _).
  assert (Hb : string_bytes ("bres_" ++ EncodeToString d)
               = [98; 114; 101; 115; 95] ++ hex_bytes d).
  { rewrite string_bytes_app. unfold EncodeToString.
    by rewrite string_bytes_of_bytes by apply hex_bytes_visible. }
  apply visible_safeID.
  - intros H. apply (f_equal string_bytes) in H. rewrite Hb in H. discriminate.
  - unfold string_len. rewrite <- length_string_bytes, Hb, length_app, length_hex_bytes.
    unfold d. rewrite Sha256.length_Sum256. unfold maximumIDBytes. cbn [length]. lia.
  - rewrite Hb, forallb_app, hex_bytes_visible. reflexivity.
Qed.

#[local] Opaque reservationID.

(** ** Usage is the saturated sum of the charges *)

Definition sat (z : Z) : Z := Z.min maxInt64 z.

Lemma saturatingAdd_sat a b : 0 <= a -> 0 <= b <= maxInt64 ->
  saturatingAdd (sat a) b = sat (a + b).
Proof.
  unfold saturatingAdd, sat. rewrite maxInt64_val. intros Ha Hb.
  rewrite (i64_small (_ - b)) by (unfold is_i64; lia).
  destruct (0 <? b) eqn:E1; bool_hyp; cbn [andb].
  - destruct (_ <? _) eqn:E2; bool_hyp; [lia|]. rewrite i64_small by (unfold is_i64; lia). lia.
  - rewrite i64_small by (unfold is_i64; lia). lia.
Qed.

Definition amounts_ok (c : charge) : Prop :=
  c_requests c = 1 /\ 0 <= c_tokens c <= maxInt64 /\ 0 <= c_cost c <= maxInt64.

Fixpoint zsum (l : list Z) : Z := match l with [] => 0 | z :: t => z + zsum t end.

Lemma zsum_perm l k : l ≡ₚ k -> zsum l = zsum k.
Proof. induction 1; cbn; lia. Qed.

Lemma zsum_nonneg l : Forall (fun z => 0 <= z) l -> 0 <= zsum l.
Proof. induction 1; cbn; lia. Qed.

(** How often a record's charge counts against [id] in a window. *)
Definition times (q : UsageQuery) (since : Z) (id : string) (r : reservationRecord) : Z :=
  if queryMatchesSubject q (rSubject (reservation r)) && (since <=? rCreatedAt (reservation r))
  then Z.of_nat (count_occ string_dec (rBudgetIDs (reservation r)) id) else 0.

Definition total (q : UsageQuery) (since : Z) (id : string) (f : charge -> Z)
    (records : list reservationRecord) : Z :=
  zsum (map (fun r => times q since id r * f (recordCharge r)) records).

(** The counters of [u] are the saturated totals [a], [b] and [c]. *)
Definition usage_is (since a b c : Z) (u : Usage) : Prop :=
  uSince u = since /\ 0 <= a /\ 0 <= b /\ 0 <= c /\
  uRequests u = sat a /\ uTokens u = sat b /\ uEstimatedCostMicros u = sat c.

Lemma usage_add_is e created results id k since a b c u :
  amounts_ok e -> results !! k = Some u -> usage_is since a b c u ->
  let n := if (id =s k) && (since <=? created) then 1 else 0 in
  exists u', usage_add e created results id !! k = Some u' /\
    usage_is since (a + n * c_requests e) (b + n * c_tokens e) (c + n * c_cost e) u'.
Proof.
  intros (Hr & Ht & Hc) Hk (Hs & Ha & Hb & Hc0 & Hur & Hut & Huc) n. subst n. unfold usage_add.
  destruct (id =s k) eqn:E; bool_hyp; cbn [andb].
  - subst id. rewrite Hk, Hs. destruct (created <? since) eqn:E2; bool_hyp.
    + rewrite (proj2 (Z.leb_gt _ _)) by lia. exists u. split; [done|].
      unfold usage_is. rewrite !Z.mul_0_l, !Z.add_0_r. done.
    + rewrite (proj2 (Z.leb_le _ _)) by lia. eexists. split; [apply lookup_insert_eq|].
      rewrite !Z.mul_1_l. unfold usage_is. cbn. rewrite Hur, Hut, Huc, Hr.
      rewrite !saturatingAdd_sat by (rewrite ?maxInt64_val in *; lia). split_and!; try done; lia.
  - exists u. split.
    + destruct (results !! id) as [v|]; [|done]. destruct (created <? _); [done|].
      by rewrite lookup_insert_ne.
    + unfold usage_is. rewrite !Z.mul_0_l, !Z.add_0_r. done.
Qed.

Lemma usage_ids_is e created ids : forall results k since a b c u,
  amounts_ok e -> results !! k = Some u -> usage_is since a b c u ->
  let n := if since <=? created then Z.of_nat (count_occ string_dec ids k) else 0 in
  exists u', foldl (usage_add e created) results ids !! k = Some u' /\
    usage_is since (a + n * c_requests e) (b + n * c_tokens e) (c + n * c_cost e) u'.
Proof.
  induction ids as [|id ids IH]; intros results k since a b c u He Hk Hu; cbn [foldl].
  { exists u. split; [done|]. destruct (_ <=? _); cbn; by rewrite !Z.add_0_r. }
  destruct (usage_add_is e created results id k since a b c u He Hk Hu) as (u1 & Hk1 & Hu1).
  destruct (IH _ k since _ _ _ u1 He Hk1 Hu1) as (u2 & Hk2 & Hu2).
  exists u2. split; [exact Hk2|].
  assert (Hn : (if (id =s k) && (since <=? created) then 1 else 0)
               + (if since <=? created then Z.of_nat (count_occ string_dec ids k) else 0)
               = if since <=? created then Z.of_nat (count_occ string_dec (id :: ids) k) else 0).
  { destruct (since <=? created); [|by rewrite andb_false_r]. rewrite andb_true_r. cbn [count_occ].
    destruct (string_dec id k) as [->|Hne]; [rewrite str_eqb_refl; lia|].
    rewrite (proj2 (str_eqb_neq _ _)) by done. lia. }
  rewrite <- Hn. rewrite !Z.mul_add_distr_r, !Z.add_assoc. exact Hu2.
Qed.

Lemma usage_records_is q records : forall results k since a b c u,
  Forall (fun r => amounts_ok (recordCharge r)) records ->
  results !! k = Some u -> usage_is since a b c u ->
  exists u', foldl (usage_record q) results records !! k = Some u' /\
    usage_is since (a + total q since k c_requests records) (b + total q since k c_tokens records)
      (c + total q since k c_cost records) u'.
Proof.
  induction records as [|r records IH]; intros results k since a b c u Hf Hk Hu; cbn [foldl].
  { exists u. split; [done|]. unfold total. cbn. by rewrite !Z.add_0_r. }
  apply Forall_cons in Hf as [Hr Hf].
  assert (exists u1, usage_record q results r !! k = Some u1 /\
    usage_is since (a + times q since k r * c_requests (recordCharge r))
      (b + times q since k r * c_tokens (recordCharge r))
      (c + times q since k r * c_cost (recordCharge r)) u1) as (u1 & Hk1 & Hu1).
  { unfold usage_record, times. destruct (queryMatchesSubject _ _); cbn [negb andb].
    - by apply (usage_ids_is _ _ _ results k since a b c u).
    - exists u. split; [done|]. by rewrite !Z.mul_0_l, !Z.add_0_r. }
  destruct (IH _ k since _ _ _ u1 Hf Hk1 Hu1) as (u2 & Hk2 & Hu2).
  exists u2. split; [exact Hk2|]. unfold total in *. cbn [map zsum].
  rewrite !Z.add_assoc. exact Hu2.
Qed.

Definition since_of (v : budget) (now : Z) : Z := now - default 0 (windowDuration (bWindow v)).

Lemma usage_init_lookup values : forall (acc : gmap string Usage) v now,
  NoDup (map bID values) -> v ∈ values ->
  foldl (fun acc v => <[bID v := mkUsage (bID v) (bWindow v)
     (now - default 0 (windowDuration (bWindow v))) 0 0 0 0 0 0]> acc) acc values !! bID v
  = Some (mkUsage (bID v) (bWindow v) (since_of v now) 0 0 0 0 0 0).
Proof.
  induction values as [|w values IH]; intros acc v now Hnd Hin; [inversion Hin|].
  cbn in Hnd. apply NoDup_cons in Hnd as [Hni Hnd]. cbn [foldl].
  apply elem_of_cons in Hin as [->|Hin]; [|by apply IH].
  clear IH Hnd. generalize (acc). revert Hni.
  induction values as [|x values IH] using rev_ind; intros Hni acc'; cbn [foldl].
  { apply lookup_insert_eq. }
  rewrite map_app in Hni. rewrite not_elem_of_app in Hni. destruct Hni as [Hni Hx].
  rewrite foldl_app. cbn [foldl]. rewrite lookup_insert_ne by (cbn in Hx; set_solver).
  by apply IH.
Qed.

Lemma usage_over_is records values v now q :
  Forall (fun r => amounts_ok (recordCharge r)) records ->
  NoDup (map bID values) -> v ∈ values ->
  exists u, usage_over records values now q !! bID v = Some u /\
    usage_is (since_of v now) (total q (since_of v now) (bID v) c_requests records)
      (total q (since_of v now) (bID v) c_tokens records)
      (total q (since_of v now) (bID v) c_cost records) u.
Proof.
  intros Hf Hnd Hin. pose proof (usage_init_lookup values ∅ v now Hnd Hin) as Hi.
  destruct (usage_records_is q records _ _ (since_of v now) 0 0 0 _ Hf Hi) as (u & Hu & His).
  { unfold usage_is. cbn. split_and!; done. }
  exists u. split; [exact Hu|]. exact His.
Qed.

(** ** The authority's invariant *)

Definition terminal (st : ReservationState) : Prop := st = StateSettled \/ st = StateExpired.

Record settled_ok (r : reservationRecord) (s : Settlement) : Prop := {
  sk_input : validateSettleRequest (settleInput r) = Ok tt;
  sk_rid : tReservationID (settleInput r) = rID (reservation r);
  sk_state : terminal (rState (reservation r));
  sk_at : terminalAt r <> 0;
  sk_same_id : rID (stReservation s) = rID (reservation r);
  sk_same_state : rState (stReservation s) = rState (reservation r);
  sk_mode : stMode s = tMode (settleInput r);
  sk_tokens : 0 <= stTokens s <= maxInt64;
  sk_cost : 0 <= stEstimatedCostMicros s <= maxInt64 }.

Record record_ok (id : string) (r : reservationRecord) : Prop := {
  rk_req : validateReserveRequest (request r) = Ok tt;
  rk_id : rID (reservation r) = id;
  rk_hash : id = reservationID (sTenant (qSubject (request r))) (qKey (request r));
  rk_key : rKey (reservation r) = qKey (request r);
  rk_node : rNode (reservation r) = qNode (request r);
  rk_subject : rSubject (reservation r) = qSubject (request r);
  rk_provider : rProvider (reservation r) = qProvider (request r);
  rk_model : rModel (reservation r) = qModel (request r);
  rk_tracked : rTracked (reservation r) = true;
  rk_created : rCreatedAt (reservation r) <> 0;
  rk_expires : rCreatedAt (reservation r) <= rExpiresAt (reservation r);
  rk_tokens : 0 <= rReservedTokens (reservation r) <= maxInt64;
  rk_cost : 0 <= rReservedEstimatedCostMicros (reservation r) <= maxInt64;
  rk_phase : match settlement r with
             | None => rState (reservation r) = StateReserved /\ terminalAt r = 0
             | Some s => settled_ok r s
             end }.

(** The limits are [int64]s. *)
Definition budget_typed (v : budget) : Prop :=
  is_i64 (bMaxRequests v) /\ is_i64 (bMaxTokens v) /\ is_i64 (bMaxEstimatedCostMicros v).

Record manager_ok (m : Manager) : Prop := {
  mk_typed : map_Forall (fun _ v => budget_typed v) (budgets m);
  mk_budgets : map_Forall (fun k v => k = budgetKey (bTenant v) (bID v)
                                      /\ validateBudget v = Ok tt) (budgets m);
  mk_records : map_Forall record_ok (reservations m);
  mk_max_budgets : Z.of_nat (size (budgets m)) <= MaxBudgets (cfg m);
  mk_max_records : Z.of_nat (size (reservations m)) <= MaxReservations (cfg m);
  mk_ttl : Second <= ReservationTTL (cfg m);
  mk_retention : 30 * Day <= Retention (cfg m);
  mk_pricing : catalog_ok (Pricing (cfg m)) }.

Lemma record_ok_charge id r : record_ok id r -> amounts_ok (recordCharge r).
Proof.
  intros H. destruct H as [_ _ _ _ _ _ _ _ _ _ _ Ht Hc Hp]. unfold amounts_ok, recordCharge.
  destruct (settlement r) as [s|]; cbn; [|done].
  destruct Hp. done.
Qed.

Lemma manager_ok_charges m : manager_ok m ->
  Forall (fun r => amounts_ok (recordCharge r)) (map_to_list (reservations m)).*2.
Proof.
  intros H. apply Forall_forall. intros r ((id & r') & -> & Hin)%list_elem_of_fmap.
  apply elem_of_map_to_list in Hin. eapply record_ok_charge. by eapply (mk_records _ H).
Qed.

Lemma nul_app_inj a x y : (a ++ nul ++ x)%string = (a ++ nul ++ y)%string -> x = y.
Proof.
  intros H. apply (f_equal string_bytes) in H. rewrite !string_bytes_app in H.
  apply app_inv_head in H. apply app_inv_head in H. by apply string_bytes_inj.
Qed.

Lemma matching_spec m s v : v ∈ matchingBudgetsLocked m s <->
  budgetMatches v s = true /\ exists k, budgets m !! k = Some v.
Proof.
  unfold matchingBudgetsLocked. rewrite merge_sort_Permutation, list_elem_of_filter.
  rewrite list_elem_of_fmap. split.
  - intros (Hm & (k & v') & -> & Hin). apply elem_of_map_to_list in Hin. eauto.
  - intros (Hm & k & Hk). split; [done|]. exists (k, v). split; [done|]. by apply elem_of_map_to_list.
Qed.

Lemma budgetMatches_tenant v s : budgetMatches v s = true -> bTenant v = sTenant s.
Proof. unfold budgetMatches. step_if; [discriminate|]. by bool_hyp. Qed.

Lemma NoDup_fmap_on {A B} (f : A -> B) l :
  NoDup l -> (forall x y, x ∈ l -> y ∈ l -> f x = f y -> x = y) -> NoDup (map f l).
Proof.
  induction 1 as [|x l Hni Hnd IH]; intros Hinj; cbn; [constructor|].
  constructor.
  - intros (y & Heq & Hy)%list_elem_of_fmap.
    assert (x = y) as ->; [|done]. apply Hinj; [left|by right|done].
  - apply IH. intros a b Ha Hb. apply Hinj; by right.
Qed.

Lemma matching_nodup m s : manager_ok m -> NoDup (map bID (matchingBudgetsLocked m s)).
Proof.
  intros H. apply NoDup_fmap_on.
  - unfold matchingBudgetsLocked. rewrite merge_sort_Permutation. apply NoDup_filter.
    apply NoDup_fmap_on; [apply NoDup_map_to_list|].
    intros [k v] [k' v'] Hx%elem_of_map_to_list Hy%elem_of_map_to_list. cbn. intros ->.
    apply (mk_budgets _ H) in Hx as [-> _]. apply (mk_budgets _ H) in Hy as [-> _]. done.
  - intros v w (Hv & k & Hk)%matching_spec (Hw & k' & Hk')%matching_spec Heq.
    apply budgetMatches_tenant in Hv. apply budgetMatches_tenant in Hw.
    pose proof (mk_budgets _ H _ _ Hk) as [-> _]. pose proof (mk_budgets _ H _ _ Hk') as [-> _].
    rewrite Hv, Heq in Hk. rewrite Hw in Hk'. congruence.
Qed.

Lemma validateReserveRequest_amounts q : validateReserveRequest q = Ok tt ->
  0 <= qInputTokens q <= MaxTokenCount /\ 0 <= qMaxOutputTokens q <= MaxTokenCount /\
  0 <= qInputTokens q + qMaxOutputTokens q <= MaxTokenCount.
Proof.
  unfold validateReserveRequest. step_if; [discriminate|]. step_if; [discriminate|].
  intros _. bool_hyp. unfold MaxTokenCount in *.
  match goal with H : _ <= i64 _ |- _ => rewrite i64_small in H by (unfold is_i64; lia) end.
  lia.
Qed.

Lemma validateSettleRequest_amounts t : validateSettleRequest t = Ok tt -> tMode t = SettlementMetered ->
  0 <= tInputTokens t <= MaxTokenCount /\ 0 <= tOutputTokens t <= MaxTokenCount /\
  0 <= tInputTokens t + tOutputTokens t <= MaxTokenCount.
Proof.
  unfold validateSettleRequest. step_if; [discriminate|]. intros H Hm. rewrite Hm in H.
  revert H. step_if; [discriminate|].
  intros _. bool_hyp. unfold MaxTokenCount in *.
  match goal with H : _ <= i64 _ |- _ => rewrite i64_small in H by (unfold is_i64; lia) end.
  lia.
Qed.

Lemma importRecord_export id r : record_ok id r -> importRecord (exportRecord r) = Ok r.
Proof.
  intros [Hq Hid Hh Hk Hn Hs Hp Hm Ht Hc He _ _ Hph]. unfold importRecord, exportRecord.
  cbn [dRequest dReservation dSettlement dSettleInput dTerminalAt].
  rewrite Hq, Hid, <- Hh, Hk, Hn, Hs, Hp, Hm, Ht, !str_eqb_refl. cbn [negb orb].
  rewrite (proj2 (sameSubject_spec _ _) eq_refl).
  assert (id <> ""%string) as Hne.
  { intros ->. pose proof (reservationID_safe (sTenant (qSubject (request r))) (qKey (request r))) as H.
    rewrite <- Hh in H. discriminate H. }
  rewrite (proj2 (str_eqb_neq _ _) Hne). unfold isZeroTime. zb.
  destruct r as [rv q [s|] si ta]; cbn [settlement reservation request settleInput terminalAt] in *.
  - destruct Hph as [Hv Hrid Hst Hat Hsid Hss Hsm _ _]. cbn in *.
    rewrite Hv, Hrid, Hsid, Hid, Hss, Hsm, !str_eqb_refl. cbn [is_ok negb orb].
    rewrite (proj2 (Z.eqb_neq _ _) Hat), (bool_decide_eq_true_2 (tMode si = tMode si)) by done.
    destruct Hst as [-> | ->]; cbn; reflexivity.
  - destruct Hph as [-> ->]. cbn. reflexivity.
Qed.

Lemma expireRecord_ok id r now : now <> 0 -> record_ok id r -> record_ok id (expireRecordLocked r now).
Proof.
  intros Hnow H. unfold expireRecordLocked. step_if; [done|].
  apply negb_false_iff, bool_decide_eq_true in E.
  destruct H as [Hq Hid Hh Hk Hn Hs Hp Hm Ht Hc He Htok Hcost Hph].
  split; cbn [reservation request settlement settleInput terminalAt with_state rID rKey rNode rSubject
    rProvider rModel rTracked rCreatedAt rExpiresAt rReservedTokens rReservedEstimatedCostMicros]; try done.
  split; cbn [reservation request settlement settleInput terminalAt with_state rID rState stReservation
    stMode stTokens stEstimatedCostMicros tMode tReservationID]; try done; [|by right].
  unfold validateSettleRequest. cbn [tReservationID tMode tInputTokens tOutputTokens].
  by rewrite Hid, Hh, reservationID_safe.
Qed.

(** ** Admission *)

Section admission.
  Context (unicode_lower : string -> string).
  #[local] Notation Reserve := (Reserve unicode_lower).
  #[local] Notation reserved_cost := (reserved_cost unicode_lower).

  (** What a newly admitted request satisfies. *)
Record admitted (now : Z) (m : Manager) (q : ReserveRequest) (r : Reservation) (m' : Manager) : Prop := {
    ad_valid : validateReserveRequest q = Ok tt;
    ad_fresh : reservations m !! rID r = None;
    ad_id : rID r = reservationID (sTenant (qSubject q)) (qKey q);
    ad_room : Z.of_nat (size (reservations m)) < MaxReservations (cfg m);
    ad_res : exists reason, r =
      mkReservation (rID r) true (qKey q) (qNode q) (qSubject q) (qProvider q) (qModel q)
        (map bID (matchingBudgetsLocked m (qSubject q))) (reserved_tokens q)
        (fst (reserved_cost m q)) (snd (reserved_cost m q)) reason now
        (now + ReservationTTL (cfg m)) StateReserved;
    ad_next : m' = set_reservations m (<[rID r := mkRecord r q None settle0 0]> (reservations m));
    ad_price : qMetered q = true -> snd (reserved_cost m q) = false ->
      Forall (fun v => bMaxEstimatedCostMicros v <= 0) (matchingBudgetsLocked m (qSubject q));
    ad_limits : let matched := matchingBudgetsLocked m (qSubject q) in
      let current := usageForBudgetsLocked m matched now query0 in
      ids_over bMaxRequests uRequests 1 current matched = [] /\
      ids_over bMaxTokens uTokens (reserved_tokens q) current matched = [] /\
      (snd (reserved_cost m q) = true ->
       ids_over bMaxEstimatedCostMicros uEstimatedCostMicros (fst (reserved_cost m q)) current matched = []) }.

Definition same_tables (m m' : Manager) : Prop :=
    cfg m' = cfg m /\ budgets m' = budgets m /\ reservations m' = reservations m.

Lemma nonempty_false {A} (l : list A) : nonempty l = false -> l = [].
  Proof. by destruct l. Qed.

Lemma ids_with_nil f l : ids_with f l = [] -> Forall (fun v => f v <= 0) l.
  Proof.
    unfold ids_with. intros H. apply Forall_forall. intros v Hv.
    destruct (decide (0 < f v)) as [Hp|]; [|lia].
    assert (bID v ∈ map bID (filter (fun v => 0 < f v) l)) as Hin.
    { apply list_elem_of_fmap. exists v. split; [done|]. by apply list_elem_of_filter. }
    rewrite H in Hin. inversion Hin.
  Qed.

  (** A result that admits nothing new: an error, a replay or an untracked
      request. *)
Definition not_new (m : Manager) (q : ReserveRequest) (r : result budget_error Reservation) : Prop :=
    forall rv, r = Ok rv -> rTracked rv = false \/
      exists rec, reservations m !! reservationID (sTenant (qSubject q)) (qKey q) = Some rec
                  /\ rv = reservation rec /\ request rec = q.

Lemma Reserve_cases ctx now m q r m' : Reserve ctx now m q = (r, m') ->
    (same_tables m m' /\ not_new m q r) \/ exists rv, r = Ok rv /\ admitted now m q rv m'.
  Proof.
    unfold Budget.Reserve, same_tables, not_new.
    destruct ctx; [intros [= <- <-]; by left|].
    destruct (validateReserveRequest q) as [[]|] eqn:Ev; [|intros [= <- <-]; by left].
    destruct (reservations m !! _) as [rec|] eqn:El.
    { destruct (sameReserveRequest _ _) eqn:Es; intros [= <- <-]; left; (split; [done|]); [|done].
      intros rv [= <-]. right. exists rec. by apply sameReserveRequest_spec in Es. }
    destruct (maximumBudgetsPerRequest <? _); [intros [= <- <-]; by left|]. cbv zeta.
    match goal with |- context [mkReservation "" false _ _ _ _ _ _ _ _ _ ?x _ _ _] =>
      generalize x; intros reason end.
    match goal with |- context [nonempty (if ?a then ?b else ?c)] =>
      remember (if a then b else c) as dc eqn:Hdc end.
    step_if.
    { intros [= <- <-]. left. split; [done|]. intros rv [= <-]. by left. }
    do 7 (step_if; [intros [= <- <-]; by left|]).
    intros [= <- <-]. right. eexists. split; [reflexivity|]. bool_hyp.
    repeat match goal with H : nonempty _ = false |- _ => apply nonempty_false in H end.
    split; cbn [rID]; try done.
    - by eexists.
    - intros Hm Hk. apply ids_with_nil. rewrite Hm, Hk in *. cbn [negb andb] in *.
      by apply nonempty_false.
    - split_and!; [done..|]. intros Hk. subst dc. by rewrite Hk in *.
  Qed.

Lemma reserved_tokens_range q : validateReserveRequest q = Ok tt -> 0 <= reserved_tokens q <= MaxTokenCount.
  Proof.
    intros H%validateReserveRequest_amounts. unfold reserved_tokens, MaxTokenCount in *.
    destruct (qMetered q); cbn; [|lia]. rewrite i64_small; [lia|]. unfold is_i64. lia.
  Qed.

Lemma reserved_cost_range m q : manager_ok m -> validateReserveRequest q = Ok tt ->
    0 <= fst (reserved_cost m q) <= 2 * 10 ^ 18.
  Proof.
    intros Hm H%validateReserveRequest_amounts. unfold Budget.reserved_cost.
    destruct (qMetered q); [|cbn; lia]. apply Estimate_exact; [apply (mk_pricing _ Hm)|lia|lia].
  Qed.

Lemma admitted_record_ok now m q r m' : now <> 0 -> manager_ok m -> admitted now m q r m' ->
    record_ok (rID r) (mkRecord r q None settle0 0).
  Proof.
    intros Hnow Hm [Hv _ Hid _ [reason Hr] _ _ _].
    pose proof (reserved_tokens_range q Hv) as Ht. pose proof (reserved_cost_range m q Hm Hv) as Hc.
    pose proof (mk_ttl _ Hm) as Httl. unfold MaxTokenCount, Second in *.
    destruct r; cbn [rID] in *. injection Hr; intros; subst.
    split; cbn [reservation request settlement terminalAt rID rKey rNode rSubject rProvider rModel
      rTracked rCreatedAt rExpiresAt rReservedTokens rReservedEstimatedCostMicros rState];
      rewrite ?maxInt64_val; first [exact eq_refl|assumption|lia|split; exact eq_refl].
  Qed.

Lemma admitted_ok now m q r m' : now <> 0 -> manager_ok m -> admitted now m q r m' -> manager_ok m'.
  Proof.
    intros Hnow Hm Ha. pose proof (admitted_record_ok _ _ _ _ _ Hnow Hm Ha) as Hr.
    rewrite (ad_next _ _ _ _ _ Ha). destruct Hm. split; cbn [budgets reservations cfg set_reservations]; try done.
    - by apply map_Forall_insert_2.
    - rewrite map_size_insert_None by apply Ha. pose proof (ad_room _ _ _ _ _ Ha). lia.
  Qed.

  (** ** Limits *)

  (** The spend a budget is meant to bound: the charges of its own tenant's
      records inside the window. *)
Definition own_total (m : Manager) (v : budget) (now : Z) (f : charge -> Z) : Z :=
    total (mkQuery "" (bTenant v) "" "" "" (WindowOther "") 0) (since_of v now) (bID v) f
      (map_to_list (reservations m)).*2.

Definition all_total (m : Manager) (v : budget) (now : Z) (f : charge -> Z) : Z :=
    total query0 (since_of v now) (bID v) f (map_to_list (reservations m)).*2.

Lemma zsum_le {A} (f g : A -> Z) l : Forall (fun x => f x <= g x) l -> zsum (map f l) <= zsum (map g l).
  Proof. induction 1; cbn; lia. Qed.

Lemma own_le_all m v now f : manager_ok m ->
    Forall (fun r => 0 <= f (recordCharge r)) (map_to_list (reservations m)).*2 ->
    own_total m v now f <= all_total m v now f.
  Proof.
    intros Hm Hf. apply zsum_le. eapply Forall_impl; [exact Hf|]. intros r Hr.
    apply Z.mul_le_mono_nonneg_r; [done|]. unfold times.
    assert (queryMatchesSubject query0 (rSubject (reservation r)) = true) as -> by done.
    cbn [andb]. destruct (_ <=? _); [|by rewrite andb_false_r].
    rewrite andb_true_r. destruct (queryMatchesSubject _ _); lia.
  Qed.

Lemma total_insert_record m id r v now f : reservations m !! id = None ->
    all_total (set_reservations m (<[id := r]> (reservations m))) v now f
    = times query0 (since_of v now) (bID v) r * f (recordCharge r) + all_total m v now f.
  Proof.
    intros Hn. unfold all_total, total. cbn [reservations set_reservations].
    rewrite (zsum_perm _ (map (fun r => times query0 (since_of v now) (bID v) r * f (recordCharge r))
      (r :: (map_to_list (reservations m)).*2))); [done|].
    by rewrite (map_to_list_insert (reservations m)) by done.
  Qed.

Lemma exceeds_false current delta limit : 0 <= delta <= maxInt64 -> 0 <= limit <= maxInt64 ->
    exceeds current delta limit = false -> current + delta <= limit.
  Proof.
    unfold exceeds. rewrite maxInt64_val. intros Hd Hl H. bool_hyp.
    rewrite i64_small in * by (unfold is_i64; lia). lia.
  Qed.

Lemma ids_over_nil f g delta current matched v :
    ids_over f g delta current matched = [] -> v ∈ matched -> 0 < f v ->
    exceeds (g (default usage0 (current !! bID v))) delta (f v) = false.
  Proof.
    unfold ids_over. intros H Hv Hp. destruct (exceeds _ _ _) eqn:E; [|done]. exfalso.
    match type of H with map bID ?l = [] => assert (v ∈ l) as Hin end.
    { apply list_elem_of_filter. split; [|done]. by rewrite (proj2 (Z.ltb_lt _ _) Hp), E. }
    match type of H with ?l = [] => assert (bID v ∈ l) as Hid end.
    { apply list_elem_of_fmap. by exists v. }
    rewrite H in Hid. inversion Hid.
  Qed.

Lemma count_occ_nodup l x : NoDup l -> x ∈ l -> count_occ string_dec l x = 1%nat.
  Proof.
    intros Hnd Hin. apply NoDup_count_occ'; [by apply NoDup_ListNoDup|by apply list_elem_of_In].
  Qed.

End admission.

(** ** Every operation keeps the invariant *)

(** One call on the authority; the boolean is a cancelled context. *)
Inductive op :=
| OpPut (ctx : bool) (v : budget)
| OpDelete (ctx : bool) (tenant id : string)
| OpRestoreBudget (tenant id : string) (v : option budget)
| OpReserve (ctx : bool) (now : Z) (q : ReserveRequest)
| OpSettle (ctx : bool) (now : Z) (t : SettleRequest)
| OpExpireNode (ctx : bool) (now : Z) (node : string) (at_ : Z)
| OpSweep (ctx : bool) (now : Z) (at_ : Z)
| OpRestoreRecord (id : string) (v : option durable).

Definition apply_op (lower : string -> string) (m : Manager) (o : op) : Manager :=
  match o with
  | OpPut ctx v => snd (PutBudget ctx m v)
  | OpDelete ctx tenant id => snd (DeleteBudget ctx m tenant id)
  | OpRestoreBudget tenant id v => snd (RestoreBudget m tenant id v)
  | OpReserve ctx now q => snd (Reserve lower ctx now m q)
  | OpSettle ctx now t => snd (Settle lower ctx now m t)
  | OpExpireNode ctx now node at_ => snd (ExpireNode ctx now m node at_)
  | OpSweep ctx now at_ => snd (Sweep ctx now m at_)
  | OpRestoreRecord id v => snd (RestoreRecord m id v)
  end.

Definition run (lower : string -> string) (m : Manager) (ops : list op) : Manager :=
  foldl (apply_op lower) m ops.

Definition durable_amounts_ok (v : durable) : Prop :=
  0 <= rReservedTokens (dReservation v) <= maxInt64 /\
  0 <= rReservedEstimatedCostMicros (dReservation v) <= maxInt64 /\
  match dSettlement v with
  | None => True
  | Some s => 0 <= stTokens s <= maxInt64 /\ 0 <= stEstimatedCostMicros s <= maxInt64
  end.

(** The clock never reads the zero [time.Time], and a restored row carries
    amounts that are non-negative [int64]s, as every exported row does; the
    limits of a budget are [int64]s. *)
Definition op_ok (o : op) : Prop :=
  match o with
  | OpReserve _ now _ | OpSettle _ now _ | OpExpireNode _ now _ _ | OpSweep _ now _ => now <> 0
  | OpRestoreRecord _ (Some v) => durable_amounts_ok v
  | OpPut _ v | OpRestoreBudget _ _ (Some v) => budget_typed v
  | _ => True
  end.

Lemma set_budgets_ok m k v : manager_ok m -> budget_typed v -> k = budgetKey (bTenant v) (bID v) ->
  validateBudget v = Ok tt ->
  (budgets m !! k = None -> Z.of_nat (size (budgets m)) < MaxBudgets (cfg m)) ->
  manager_ok (set_budgets m (<[k := v]> (budgets m))).
Proof.
  intros Hm Hty Hk Hv Hroom. destruct Hm. split; cbn [budgets reservations cfg set_budgets]; try done.
  - by apply map_Forall_insert_2.
  - by apply map_Forall_insert_2.
  - rewrite map_size_insert. destruct (budgets m !! k) eqn:E; cbn; [lia|].
    specialize (Hroom eq_refl). lia.
Qed.

Lemma delete_budget_ok m k : manager_ok m -> manager_ok (set_budgets m (delete k (budgets m))).
Proof.
  intros Hm. destruct Hm. split; cbn [budgets reservations cfg set_budgets]; try done.
  - by apply map_Forall_delete.
  - by apply map_Forall_delete.
  - rewrite map_size_delete. destruct (budgets m !! k); cbn; lia.
Qed.

Lemma PutBudget_ok ctx m v : budget_typed v -> manager_ok m -> manager_ok (snd (PutBudget ctx m v)).
Proof.
  intros Hty Hm. unfold PutBudget. destruct ctx; [done|].
  destruct (validateBudget v) as [[]|] eqn:Ev; [|done].
  destruct (budgets m !! _) as [c|] eqn:El; [by step_if|].
  step_if; [done|]. step_if; [done|]. bool_hyp. by apply set_budgets_ok.
Qed.

Lemma RestoreBudget_ok m tenant id v : op_ok (OpRestoreBudget tenant id v) -> manager_ok m -> manager_ok (snd (RestoreBudget m tenant id v)).
Proof.
  intros Hty Hm. unfold RestoreBudget. step_if; [done|]. destruct v as [v|]; [|by apply delete_budget_ok].
  step_if; [done|]. destruct (validateBudget v) as [[]|] eqn:Ev; [|done].
  step_if; [done|]. bool_hyp. apply set_budgets_ok; [done|done|by subst|done|].
  intros Hn. rewrite bool_decide_eq_true_2 in * by done. cbn [andb] in *. bool_hyp. lia.
Qed.

Lemma set_record_ok m id r : manager_ok m -> record_ok id r ->
  (reservations m !! id = None -> Z.of_nat (size (reservations m)) < MaxReservations (cfg m)) ->
  manager_ok (set_reservations m (<[id := r]> (reservations m))).
Proof.
  intros Hm Hr Hroom. destruct Hm. split; cbn [budgets reservations cfg set_reservations]; try done.
  - by apply map_Forall_insert_2.
  - rewrite map_size_insert. destruct (reservations m !! id) eqn:E; cbn; [lia|].
    specialize (Hroom eq_refl). lia.
Qed.

Lemma same_tables_ok m m' : same_tables m m' -> manager_ok m -> manager_ok m'.
Proof. intros (Hc & Hb & Hr) [? ? ? ? ? ? ? ?]. by split; rewrite ?Hc, ?Hb, ?Hr. Qed.

Lemma Reserve_ok lower ctx now m q : now <> 0 -> manager_ok m ->
  manager_ok (snd (Reserve lower ctx now m q)).
Proof.
  intros Hnow Hm. destruct (Reserve lower ctx now m q) as [r m'] eqn:E.
  destruct (Reserve_cases _ _ _ _ _ _ _ E) as [[Hs _]|(rv & -> & Ha)];
    [by eapply same_tables_ok|by eapply admitted_ok].
Qed.

Lemma settle_mode_spec lower m r t s m1 : manager_ok m -> record_ok (rID (reservation r)) r ->
  validateSettleRequest t = Ok tt -> settle_mode lower m r t = (s, m1) ->
  same_tables m m1 /\ rID (stReservation s) = rID (reservation r) /\
  rState (stReservation s) = StateSettled /\ stMode s = tMode t /\
  0 <= stTokens s <= maxInt64 /\ 0 <= stEstimatedCostMicros s <= maxInt64.
Proof.
  intros Hm Hr Hv. unfold settle_mode, same_tables.
  pose proof (rk_tokens _ _ Hr) as Ht. pose proof (rk_cost _ _ Hr) as Hc. rewrite maxInt64_val in *.
  destruct (tMode t) eqn:Em; [|intros [= <- <-]; cbn; split_and!; try done; lia..].
  destruct (validateSettleRequest_amounts _ Hv Em) as (Hi & Ho & Hio).
  unfold settle_metered.
  pose proof (Estimate_exact lower (Pricing (cfg m)) (sTenant (qSubject (request r)))
    (qProvider (request r)) (qModel (request r)) _ _ (mk_pricing _ Hm) Hi Ho) as [_ He].
  destruct (Estimate _ _ _ _ _ _ _) as [cost known]. cbn [fst] in He. unfold MaxTokenCount in *.
  intros [= <- <-]. cbn [stReservation with_cost_known with_state rID rState stMode stTokens
    stEstimatedCostMicros stEstimatedCostUnavailable].
  rewrite i64_small by (unfold is_i64; lia).
  split_and!; try lia; try done; by destruct (negb known).
Qed.

Lemma Settle_ok lower ctx now m t : now <> 0 -> manager_ok m ->
  manager_ok (snd (Settle lower ctx now m t)).
Proof.
  intros Hnow Hm. unfold Settle. destruct ctx; [done|].
  destruct (validateSettleRequest t) as [[]|] eqn:Ev; [|done].
  destruct (reservations m !! tReservationID t) as [r|] eqn:El; [|done].
  step_if; [done|]. destruct (settlement r) as [s|] eqn:Es; [by step_if|].
  pose proof (mk_records _ Hm _ _ El) as Hr. pose proof (rk_id _ _ Hr) as Hid.
  step_if.
  { eapply (same_tables_ok (set_reservations m
      (<[tReservationID t := expireRecordLocked r now]> (reservations m)))); [done|].
    apply set_record_ok; [done|by apply expireRecord_ok|congruence]. }
  step_if; [done|]. destruct (settle_mode lower m r t) as [s m1] eqn:Esm.
  apply settle_mode_spec in Esm as (Hsame & Hsid & Hst & Hsm & Htok & Hcost); [|done|by rewrite Hid|done].
  cbn [snd]. apply set_record_ok; [by eapply same_tables_ok| |].
  2: { destruct Hsame as (_ & _ & ->). congruence. }
  destruct Hr. split; cbn [reservation request settlement settleInput terminalAt with_state rID rKey
    rNode rSubject rProvider rModel rTracked rCreatedAt rExpiresAt rReservedTokens
    rReservedEstimatedCostMicros]; try done.
  split; cbn [reservation request settlement settleInput terminalAt with_state rID rState]; try done; by left.
Qed.

Lemma expireLocked_ok m now node : now <> 0 -> manager_ok m -> manager_ok (snd (expireLocked m now node)).
Proof.
  intros Hnow Hm. destruct Hm. split; cbn [snd expireLocked budgets reservations cfg set_reservations
    count_incomplete count_expired]; try done.
  - intros id r (r0 & <- & Hr0)%lookup_fmap_Some.
    pose proof (mk_records0 _ _ Hr0). destruct (expires now node r0); [by apply expireRecord_ok|done].
  - by rewrite map_size_fmap.
Qed.

Lemma collectLocked_ok m now : manager_ok m -> manager_ok (snd (collectLocked m now)).
Proof.
  intros Hm. destruct Hm. split; cbn [snd collectLocked budgets reservations cfg set_reservations]; try done.
  - intros id r [Hr _]%map_lookup_filter_Some. by apply mk_records0.
  - etrans; [|exact mk_max_records0]. apply inj_le, map_subseteq_size, map_filter_subseteq.
Qed.

Lemma expire_and_collect_ok m at_ node : at_ <> 0 -> manager_ok m ->
  manager_ok (snd (expire_and_collect m at_ node)).
Proof.
  intros Hat Hm. unfold expire_and_collect.
  pose proof (expireLocked_ok m at_ node Hat Hm) as H1. destruct (expireLocked m at_ node) as [ids m1].
  pose proof (collectLocked_ok m1 at_ H1) as H2. by destruct (collectLocked m1 at_).
Qed.

Lemma importRecord_ok v r : durable_amounts_ok v -> importRecord v = Ok r ->
  record_ok (rID (reservation r)) r.
Proof.
  intros (Ht & Hc & Hs). unfold importRecord.
  destruct (validateReserveRequest (dRequest v)) as [[]|] eqn:Ev; [|discriminate].
  step_if; [discriminate|]. bool_hyp. unfold isZeroTime in *. bool_hyp.
  match goal with H : sameSubject _ _ = true |- _ => apply sameSubject_spec in H end.
  destruct (dSettlement v) as [s|] eqn:Es.
  - step_if; [discriminate|]. step_if; [discriminate|]. intros [= <-]. bool_hyp.
    destruct (validateSettleRequest (dSettleInput v)) as [[]|] eqn:Evs; [|discriminate].
    repeat match goal with H : bool_decide _ = true |- _ => apply bool_decide_eq_true in H end.
    split; cbn [reservation request settlement settleInput terminalAt]; try done; try congruence.
    split; cbn [reservation request settlement settleInput terminalAt]; try done; try tauto.
    match goal with H : _ && _ = false |- _ => apply andb_false_iff in H as [H|H];
      apply negb_false_iff, bool_decide_eq_true in H; [by left|by right] end.
  - step_if; [discriminate|]. intros [= <-]. bool_hyp.
    repeat match goal with H : bool_decide _ = true |- _ => apply bool_decide_eq_true in H end.
    split; cbn [reservation request settlement settleInput terminalAt]; try done; congruence.
Qed.

Lemma RestoreRecord_ok m id v : op_ok (OpRestoreRecord id v) -> manager_ok m ->
  manager_ok (snd (RestoreRecord m id v)).
Proof.
  intros Ho Hm. unfold RestoreRecord. step_if; [done|]. destruct v as [v|].
  - destruct (importRecord v) as [r|] eqn:Ei; [|done]. apply importRecord_ok in Ei; [|done].
    step_if; [done|]. bool_hyp. step_if; [done|]. subst id. apply set_record_ok; [done..|].
    intros Hn. rewrite bool_decide_eq_true_2 in * by done. cbn [andb] in *. bool_hyp. lia.
  - destruct Hm. split; cbn [snd budgets reservations cfg set_reservations]; try done.
    + by apply map_Forall_delete.
    + rewrite map_size_delete. destruct (reservations m !! id); cbn; lia.
Qed.

Lemma apply_op_ok lower m o : op_ok o -> manager_ok m -> manager_ok (apply_op lower m o).
Proof.
  intros Ho Hm. destruct o; cbn [apply_op op_ok] in *.
  - by apply PutBudget_ok.
  - unfold DeleteBudget. destruct ctx; [done|]. step_if; [done|]. by apply delete_budget_ok.
  - by apply RestoreBudget_ok.
  - by apply Reserve_ok.
  - by apply Settle_ok.
  - unfold ExpireNode. destruct ctx; [done|]. step_if; [done|].
    pose proof (expire_and_collect_ok m (if isZeroTime at_ then now else at_) node) as H.
    destruct (expire_and_collect _ _ _). apply H; [|done]. unfold isZeroTime. by destruct (Z.eqb_spec at_ 0).
  - unfold Sweep. destruct ctx; [done|].
    pose proof (expire_and_collect_ok m (if isZeroTime at_ then now else at_) "") as H.
    destruct (expire_and_collect _ _ _). apply H; [|done]. unfold isZeroTime. by destruct (Z.eqb_spec at_ 0).
  - by apply RestoreRecord_ok.
Qed.

Lemma run_ok lower ops : forall m, Forall op_ok ops -> manager_ok m -> manager_ok (run lower m ops).
Proof.
  induction ops as [|o ops IH]; intros m Hf Hm; [done|].
  apply Forall_cons in Hf as [Ho Hf]. apply IH; [done|]. by apply apply_op_ok.
Qed.

Lemma add_budgets_ok l : forall acc out,
  map_Forall (fun k v => k = budgetKey (bTenant v) (bID v) /\ validateBudget v = Ok tt) acc ->
  add_budgets acc l = Ok out ->
  map_Forall (fun k v => k = budgetKey (bTenant v) (bID v) /\ validateBudget v = Ok tt) out
  /\ size out = (size acc + length l)%nat.
Proof.
  induction l as [|v l IH]; intros acc out Ha; cbn [add_budgets length].
  { intros [= <-]. split; [done|lia]. }
  destruct (validateBudget v) as [[]|] eqn:Ev; [|discriminate].
  destruct (acc !! _) eqn:El; [discriminate|]. intros [Hf Hs]%IH.
  - split; [done|]. rewrite Hs, map_size_insert_None by done. lia.
  - by apply map_Forall_insert_2.
Qed.

Lemma add_budgets_typed l : forall acc out, Forall budget_typed l ->
  map_Forall (fun _ v => budget_typed v) acc -> add_budgets acc l = Ok out ->
  map_Forall (fun _ v => budget_typed v) out.
Proof.
  induction l as [|v l IH]; intros acc out Hl Ha; cbn [add_budgets]; [by intros [= <-]|].
  apply Forall_cons in Hl as [Hv Hl].
  destruct (validateBudget v); [|discriminate]. destruct (acc !! _); [discriminate|].
  apply IH; [done|]. by apply map_Forall_insert_2.
Qed.

Lemma NewManager_ok bs pricing ttl ret mb mr m :
  catalog_ok pricing -> Forall budget_typed bs ->
  NewManager bs pricing ttl ret mb mr = Ok m -> manager_ok m.
Proof.
  intros Hp Hbs. unfold NewManager. cbv zeta.
  generalize (if ttl =? 0 then defaultReservationTTL else ttl); intros ttl'.
  generalize (if ret =? 0 then defaultRetention else ret); intros ret'.
  generalize (if mb =? 0 then defaultMaxBudgets else mb); intros mb'.
  generalize (if mr =? 0 then defaultMaxReservations else mr); intros mr'.
  step_if; [discriminate|]. step_if; [discriminate|]. bool_hyp.
  destruct (add_budgets ∅ bs) as [out|] eqn:Ea; [|discriminate]. intros [= <-].
  pose proof (add_budgets_typed _ _ _ Hbs (map_Forall_empty _) Ea) as Hty.
  apply add_budgets_ok in Ea as [Hf Hs]; [|apply map_Forall_empty].
  rewrite map_size_empty in Hs.
  split; cbn [budgets reservations cfg MaxBudgets MaxReservations ReservationTTL Retention Pricing];
    try done; first [lia|rewrite map_size_empty; lia|apply map_Forall_empty].
Qed.

(** The states an authority can be in: built by [NewManager] over a well-formed
    catalogue and changed only by its operations. *)
Definition reachable (lower : string -> string) (m : Manager) : Prop :=
  exists bs pricing ttl ret mb mr m0 ops,
    catalog_ok pricing /\ Forall budget_typed bs /\
    NewManager bs pricing ttl ret mb mr = Ok m0 /\
    Forall op_ok ops /\ m = run lower m0 ops.

Lemma reachable_ok lower m : reachable lower m -> manager_ok m.
Proof.
  intros (bs & pr & ttl & ret & mb & mr & m0 & ops & Hp & Hb & Hn & Ho & ->).
  apply run_ok; [done|]. by eapply NewManager_ok.
Qed.

(** whatever sequence of operations, refused and cancelled ones
    included, is applied to an authority, it holds at most [MaxBudgets]
    budgets and [MaxReservations] records, every budget is valid and stored
    under its tenant and ID, and every record is valid, stored under the
    digest of its tenant and key, and either active with no terminal time or
    settled or expired with one. *)
Theorem authority_state_is_bounded_and_consistent : forall lower m,
  reachable lower m ->
  Z.of_nat (size (budgets m)) <= MaxBudgets (cfg m) /\
  Z.of_nat (size (reservations m)) <= MaxReservations (cfg m) /\
  (forall k v, budgets m !! k = Some v ->
     k = budgetKey (bTenant v) (bID v) /\ validateBudget v = Ok tt) /\
  (forall id r, reservations m !! id = Some r ->
     id = reservationID (sTenant (qSubject (request r))) (qKey (request r)) /\
     rID (reservation r) = id /\
     match settlement r with
     | None => rState (reservation r) = StateReserved /\ terminalAt r = 0
     | Some _ => terminal (rState (reservation r)) /\ terminalAt r <> 0
     end).
Proof.
  intros lower m Hm%reachable_ok. split_and!; try apply Hm.
  intros id r Hr. pose proof (mk_records _ Hm _ _ Hr) as Hk.
  split_and!; [by apply rk_hash|by apply rk_id|].
  pose proof (rk_phase _ _ Hk) as Hp. destruct (settlement r); [|done]. by destruct Hp.
Qed.

Definition matched_bound (m : Manager) (now : Z) (v : budget) (metered : bool) : Prop :=
  (0 < bMaxRequests v -> own_total m v now c_requests <= bMaxRequests v) /\
  (0 < bMaxTokens v -> own_total m v now c_tokens <= bMaxTokens v) /\
  (metered = true -> 0 < bMaxEstimatedCostMicros v ->
   sat (own_total m v now c_cost) <= bMaxEstimatedCostMicros v).

Lemma validateBudget_limits v : validateBudget v = Ok tt ->
  0 <= bMaxRequests v /\ 0 <= bMaxTokens v <= MaxTokenCount /\ 0 <= bMaxEstimatedCostMicros v.
Proof.
  unfold validateBudget. step_if; [discriminate|]. destruct (windowDuration _); [|discriminate].
  destruct (match bAttachTo v with AttachTenant => _ | _ => _ end); [|discriminate].
  step_if; [discriminate|]. intros _. bool_hyp. lia.
Qed.

Lemma usageForBudgets_is m matched v now : manager_ok m -> NoDup (map bID matched) -> v ∈ matched ->
  exists u, usageForBudgetsLocked m matched now query0 !! bID v = Some u /\
    uRequests u = sat (all_total m v now c_requests) /\
    uTokens u = sat (all_total m v now c_tokens) /\
    uEstimatedCostMicros u = sat (all_total m v now c_cost) /\
    0 <= all_total m v now c_requests /\ 0 <= all_total m v now c_tokens /\
    0 <= all_total m v now c_cost.
Proof.
  intros Hm Hnd Hv.
  destruct (usage_over_is _ matched v now query0 (manager_ok_charges _ Hm) Hnd Hv)
    as (u & Hu & _ & Ha & Hb & Hc & H1 & H2 & H3).
  exists u. done.
Qed.

(** The new record counts once against each budget it matched. *)
Lemma admitted_times lower now m q r m' v : manager_ok m -> admitted lower now m q r m' ->
  v ∈ matchingBudgetsLocked m (qSubject q) ->
  times query0 (since_of v now) (bID v) (mkRecord r q None settle0 0) = 1.
Proof.
  intros Hm Ha Hv. pose proof (matching_nodup m (qSubject q) Hm) as Hnd.
  destruct (ad_res _ _ _ _ _ _ Ha) as [reason Hr]. unfold times. cbn [reservation]. rewrite Hr.
  cbn [rSubject rCreatedAt rBudgetIDs].
  assert (queryMatchesSubject query0 (qSubject q) = true) as -> by done. cbn [andb].
  rewrite (proj2 (Z.leb_le _ _)).
  - rewrite count_occ_nodup; [done..|]. apply list_elem_of_fmap. by exists v.
  - unfold since_of. assert (0 <= default 0 (windowDuration (bWindow v))); [|lia].
    destruct (bWindow v); cbn; unfold Day, Hour, Minute, Second; lia.
Qed.

Lemma admitted_bound lower now m q r m' v (f : charge -> Z) (g : Usage -> Z) (lim : budget -> Z) delta :
  manager_ok m -> admitted lower now m q r m' -> now <> 0 ->
  v ∈ matchingBudgetsLocked m (qSubject q) ->
  (forall c, amounts_ok c -> 0 <= f c) ->
  f (recordCharge (mkRecord r q None settle0 0)) = delta ->
  ids_over lim g delta (usageForBudgetsLocked m (matchingBudgetsLocked m (qSubject q)) now query0)
    (matchingBudgetsLocked m (qSubject q)) = [] ->
  (forall u, usageForBudgetsLocked m (matchingBudgetsLocked m (qSubject q)) now query0 !! bID v
     = Some u -> g u = sat (all_total m v now f)) ->
  0 < lim v <= maxInt64 -> 0 <= delta <= maxInt64 ->
  sat (all_total m v now f) + delta <= lim v /\ own_total m' v now f <= all_total m v now f + delta.
Proof.
  intros Hm Ha Hnow Hv Hf Hdelta Hids Hg Hlim Hd.
  pose proof (ids_over_nil _ _ _ _ _ _ Hids Hv (proj1 Hlim)) as Hex.
  destruct (usageForBudgets_is m _ v now Hm (matching_nodup m (qSubject q) Hm) Hv) as (u & Hu & _).
  rewrite Hu in Hex. change (default usage0 (Some u)) with u in Hex. rewrite (Hg u Hu) in Hex.
  apply exceeds_false in Hex; [|done|lia]. split; [done|].
  assert (Hm' : manager_ok m') by by eapply admitted_ok.
  etrans; [apply own_le_all; [done|]|].
  - eapply Forall_impl; [apply (manager_ok_charges _ Hm')|]. cbn. intros ? ?. by apply Hf.
  - rewrite (ad_next _ _ _ _ _ _ Ha), total_insert_record by apply Ha.
    rewrite (admitted_times _ _ _ _ _ _ _ Hm Ha Hv), Hdelta. lia.
Qed.

Lemma admitted_within_limits lower now m q r m' : manager_ok m -> now <> 0 ->
  admitted lower now m q r m' ->
  Forall (fun v => matched_bound m' now v (qMetered q)) (matchingBudgetsLocked m (qSubject q)).
Proof.
  intros Hm Hnow Ha. apply Forall_forall. intros v Hv.
  destruct (proj1 (matching_spec _ _ _) Hv) as (_ & k & Hk).
  pose proof (validateBudget_limits v (proj2 (mk_budgets _ Hm _ _ Hk))) as (Hlr & Hlt & Hlc).
  destruct (ad_limits _ _ _ _ _ _ Ha) as (Hr & Ht & Hc).
  pose proof (reserved_tokens_range q (ad_valid _ _ _ _ _ _ Ha)) as Htr.
  pose proof (reserved_cost_range lower m q Hm (ad_valid _ _ _ _ _ _ Ha)) as Hcr.
  destruct (ad_res _ _ _ _ _ _ Ha) as [reason Hres].
  destruct (usageForBudgets_is m _ v now Hm (matching_nodup m (qSubject q) Hm) Hv)
    as (u & Hu & Hu1 & Hu2 & Hu3 & Hp1 & Hp2 & Hp3).
  assert (Hcharge : forall f : charge -> Z, f (recordCharge (mkRecord r q None settle0 0)) =
    f (mkCharge 1 (reserved_tokens q) (fst (reserved_cost lower m q)) true false false)).
  { intros f. unfold recordCharge. cbn [settlement reservation]. rewrite Hres. reflexivity. }
  pose proof (mk_typed _ Hm _ _ Hk) as (Tr & Tt & Tc). unfold is_i64, MaxTokenCount in *.
  assert (Hbound := fun f g lim delta Hf Hd Hids Hg =>
    admitted_bound lower now m q r m' v f g lim delta Hm Ha Hnow Hv Hf Hd Hids Hg).
  unfold sat, matched_bound in *. rewrite maxInt64_val in *. split_and!.
  - intros Hpos. destruct (Hbound c_requests uRequests bMaxRequests 1) as [Hb Ho];
      [by intros c (-> & _)|apply Hcharge|done|by intros ? [= <-]%(eq_trans (eq_sym Hu))|lia|lia|lia].
  - intros Hpos. destruct (Hbound c_tokens uTokens bMaxTokens (reserved_tokens q)) as [Hb Ho];
      [intros c (_ & ? & _); lia|apply Hcharge|done|by intros ? [= <-]%(eq_trans (eq_sym Hu))|lia|lia|lia].
  - intros Hmet Hpos. destruct (snd (reserved_cost lower m q)) eqn:Ek.
    + destruct (Hbound c_cost uEstimatedCostMicros bMaxEstimatedCostMicros
        (fst (reserved_cost lower m q))) as [Hb Ho];
        [intros c (_ & _ & ?); lia|apply Hcharge|by apply Hc|by intros ? [= <-]%(eq_trans (eq_sym Hu))|lia|lia|].
      unfold sat. rewrite maxInt64_val. lia.
    + pose proof (ad_price _ _ _ _ _ _ Ha Hmet Ek) as Hno. rewrite Forall_forall in Hno.
      specialize (Hno v Hv). lia.
Qed.

(** C6: admission respects every limit: when [Reserve] admits a request
    that was not already retained, then after it, for every budget matching
    the request's subject, the requests, tokens and (for a metered request)
    estimated cost charged by the tenant's records inside the budget's rolling
    window, the new reservation included, are within the budget's limits. *)
Theorem admission_within_limits : forall lower ctx now m q r m',
  reachable lower m -> now <> 0 ->
  Reserve lower ctx now m q = (Ok r, m') -> rTracked r = true ->
  reservations m !! rID r = None ->
  Forall (fun v => matched_bound m' now v (qMetered q)) (matchingBudgetsLocked m (qSubject q)).
Proof.
  intros lower ctx now m q r m' Hm%reachable_ok Hnow HR Ht Hfresh.
  destruct (Reserve_cases _ _ _ _ _ _ _ HR) as [[_ Hnew]|(rv & [= <-] & Ha)];
    [|by eapply admitted_within_limits].
  destruct (Hnew r eq_refl) as [?|(rec & Hrec & -> & _)]; [congruence|].
  rewrite (rk_id _ _ (mk_records _ Hm _ _ Hrec)) in Hfresh. congruence.
Qed.

(** reservations are idempotent per tenant and key: once a
    request is admitted, retrying it at any later time returns the same
    reservation and changes nothing, and another request under the same tenant
    and key is refused as a conflict, also changing nothing. *)
Theorem reserve_is_idempotent : forall lower ctx now m q r m',
  reachable lower m -> now <> 0 ->
  Reserve lower ctx now m q = (Ok r, m') -> rTracked r = true ->
  (forall later, Reserve lower false later m' q = (Ok r, m')) /\
  (forall later q', validateReserveRequest q' = Ok tt -> q' <> q ->
     sTenant (qSubject q') = sTenant (qSubject q) -> qKey q' = qKey q ->
     Reserve lower false later m' q' = (Err ErrConflict, m')).
Proof.
  intros lower ctx now m q r m' Hm%reachable_ok Hnow HR Ht.
  assert (exists rec, reservations m' !! reservationID (sTenant (qSubject q)) (qKey q) = Some rec
    /\ r = reservation rec /\ request rec = q /\ validateReserveRequest q = Ok tt)
    as (rec & Hl & -> & Hq & Hv).
  { destruct (Reserve_cases _ _ _ _ _ _ _ HR) as [[(_ & _ & Hs) Hnew]|(rv & [= <-] & Ha)].
    - destruct (Hnew r eq_refl) as [?|(rec & Hrec & Hr & Hq)]; [congruence|].
      exists rec. rewrite Hs. split_and!; try done. rewrite <- Hq. by apply (mk_records _ Hm _ _ Hrec).
    - exists (mkRecord r q None settle0 0).
      rewrite (ad_next _ _ _ _ _ _ Ha), <- (ad_id _ _ _ _ _ _ Ha).
      cbn [reservations set_reservations]. rewrite lookup_insert_eq. split_and!; try done. apply Ha. }
  split.
  - intros later. unfold Reserve. rewrite Hv, Hl.
    by rewrite (proj2 (sameReserveRequest_spec _ _) Hq).
  - intros later q' Hv' Hne Hten Hkey. unfold Reserve. rewrite Hv', Hten, Hkey, Hl.
    destruct (sameReserveRequest (request rec) q') eqn:E; [|done].
    apply sameReserveRequest_spec in E. congruence.
Qed.

(** ** Settlement *)

Lemma Settle_lookup lower ctx now m t s m' : manager_ok m ->
  Settle lower ctx now m t = (Ok s, m') ->
  validateSettleRequest t = Ok tt /\
  exists r, reservations m' !! tReservationID t = Some r /\ settlement r = Some s /\
    settleInput r = t /\ rState (reservation r) <> StateExpired.
Proof.
  intros Hm. unfold Settle. destruct ctx; [discriminate|].
  destruct (validateSettleRequest t) as [[]|] eqn:Ev; [|discriminate].
  destruct (reservations m !! tReservationID t) as [r|] eqn:El; [|discriminate].
  destruct (bool_decide _) eqn:Ee; [discriminate|]. apply bool_decide_eq_false in Ee.
  destruct (settlement r) as [s0|] eqn:Es.
  { destruct (bool_decide (settleInput r = t)) eqn:Ei; [|discriminate].
    apply bool_decide_eq_true in Ei. intros [= <- <-]. split; [done|]. by exists r. }
  step_if; [discriminate|]. step_if; [discriminate|].
  destruct (settle_mode lower m r t) as [s1 m1]. intros [= <- <-]. split; [done|].
  eexists. split; [apply lookup_insert_eq|]. done.
Qed.

(** settlement is idempotent and final: after a settlement
    commits, repeating it at any later time returns the same settlement and
    changes nothing, a different outcome for the reservation is refused as a
    conflict, and from then on the record is charged exactly the settled
    tokens and cost. *)
Theorem settle_is_idempotent_and_final : forall lower ctx now m t s m',
  reachable lower m -> Settle lower ctx now m t = (Ok s, m') ->
  (forall later, Settle lower false later m' t = (Ok s, m')) /\
  (forall later t', validateSettleRequest t' = Ok tt -> t' <> t ->
     tReservationID t' = tReservationID t ->
     Settle lower false later m' t' = (Err ErrConflict, m')) /\
  (exists r, reservations m' !! tReservationID t = Some r /\
     c_tokens (recordCharge r) = stTokens s /\ c_cost (recordCharge r) = stEstimatedCostMicros s).
Proof.
  intros lower ctx now m t s m' Hm%reachable_ok HS.
  destruct (Settle_lookup _ _ _ _ _ _ _ Hm HS) as (Hv & r & Hl & Hs & Hi & Hst). split_and!.
  - intros later. unfold Settle. rewrite Hv, Hl, bool_decide_eq_false_2, Hs by done.
    by rewrite bool_decide_eq_true_2.
  - intros later t' Hv' Hne Hid. unfold Settle. rewrite Hv', Hid, Hl, bool_decide_eq_false_2, Hs by done.
    rewrite bool_decide_eq_false_2; [done|]. congruence.
  - exists r. unfold recordCharge. rewrite Hs. done.
Qed.

(** ** Retention *)

Definition restores (o : op) : bool :=
  match o with OpRestoreBudget _ _ _ | OpRestoreRecord _ _ => true | _ => false end.

(** The instant up to which an operation collects, if it does. *)
Definition collects_at (o : op) : option Z :=
  match o with
  | OpExpireNode false now node at_ => if safeID node then Some (if isZeroTime at_ then now else at_) else None
  | OpSweep false now at_ => Some (if isZeroTime at_ then now else at_)
  | _ => None
  end.

Lemma expireRecord_terminal r now : terminal (rState (reservation r)) -> expireRecordLocked r now = r.
Proof. unfold expireRecordLocked. by intros [-> | ->]. Qed.

Lemma expire_and_collect_lookup m at_ node id : reservations (snd (expire_and_collect m at_ node)) !! id =
  match reservations m !! id with
  | None => None
  | Some r => let r' := if expires at_ node r then expireRecordLocked r at_ else r in
              if collectable (at_ - Retention (cfg m)) r' then None else Some r'
  end.
Proof.
  unfold expire_and_collect, expireLocked, collectLocked.
  cbn [snd reservations set_reservations count_incomplete count_expired cfg].
  rewrite map_lookup_filter, lookup_fmap.
  destruct (reservations m !! id) as [r|]; cbn; [|done].
  destruct (expires at_ node r);
    destruct (collectable _ _) eqn:E; rewrite ?option_guard_True, ?option_guard_False by congruence; done.
Qed.

Lemma terminal_kept_by_sweep m at_ node id r :
  reservations m !! id = Some r -> terminal (rState (reservation r)) ->
  reservations (snd (expire_and_collect m at_ node)) !! id = Some r \/
  (reservations (snd (expire_and_collect m at_ node)) !! id = None /\
   terminalAt r < at_ - Retention (cfg m)).
Proof.
  intros Hl Ht. rewrite expire_and_collect_lookup, Hl. cbv zeta.
  rewrite expireRecord_terminal by done.
  replace (if expires at_ node r then r else r) with r by by destruct (expires at_ node r).
  unfold collectable. rewrite bool_decide_eq_false_2 by (by destruct Ht as [-> | ->]). cbn [negb andb].
  destruct (terminalAt r <? _) eqn:E; bool_hyp; auto.
Qed.

(** a settled or expired record never changes: any operation other
    than an explicit restore from durable rows leaves it exactly as it is, or
    is a sweep or node expiry that collects it, which happens only when its
    terminal time is more than [Retention] before the sweep's instant. *)
Theorem terminal_records_are_immutable : forall lower m o id r,
  reachable lower m ->
  reservations m !! id = Some r -> terminal (rState (reservation r)) -> restores o = false ->
  reservations (apply_op lower m o) !! id = Some r \/
  (reservations (apply_op lower m o) !! id = None /\
   exists at_, collects_at o = Some at_ /\ terminalAt r < at_ - Retention (cfg m)).
Proof.
  intros lower m o id r Hm%reachable_ok Hl Ht Ho. destruct o; cbn [restores] in Ho; try discriminate; cbn [apply_op].
  - left. unfold PutBudget. repeat step_match; done.
  - left. unfold DeleteBudget. repeat step_match; done.
  - left. destruct (Reserve lower ctx now m q) as [x m'] eqn:E.
    destruct (Reserve_cases _ _ _ _ _ _ _ E) as [[(_ & _ & Hs) _]|(rv & -> & Ha)]; cbn [snd].
    + by rewrite Hs.
    + rewrite (ad_next _ _ _ _ _ _ Ha). cbn [reservations set_reservations].
      rewrite lookup_insert_ne; [done|]. intros Heq. pose proof (ad_fresh _ _ _ _ _ _ Ha). congruence.
  - left. unfold Settle. destruct ctx; [done|]. destruct (validateSettleRequest t); [|done].
    destruct (reservations m !! tReservationID t) as [r0|] eqn:El; [|done].
    step_if; [done|]. apply bool_decide_eq_false in E.
    destruct (settlement r0) as [s0|] eqn:Es; [by step_if|].
    assert (id <> tReservationID t) as Hne.
    { intros ->. assert (r0 = r) as -> by congruence.
      pose proof (rk_phase _ _ (mk_records _ Hm _ _ Hl)) as Hp. rewrite Es in Hp.
      destruct Hp as [Hp _]. rewrite Hp in Ht. by destruct Ht. }
    step_if; [by cbn; rewrite lookup_insert_ne|]. step_if; [done|].
    destruct (settle_mode lower m r0 t) as [s1 m1] eqn:Em. cbn. rewrite lookup_insert_ne by done.
    unfold settle_mode in Em. destruct (tMode t); injection Em as <- <-; cbn; try done.
    by destruct (stEstimatedCostUnavailable _).
  - unfold ExpireNode, collects_at. destruct ctx; [by left|].
    destruct (safeID node) eqn:En; [|by left]. cbn [negb].
    pose proof (terminal_kept_by_sweep m (if isZeroTime at_ then now else at_) node id r Hl Ht) as H.
    destruct (expire_and_collect _ _ _) as [x m']. cbn [snd] in *. destruct H as [H|[H1 H2]]; eauto.
  - unfold Sweep, collects_at. destruct ctx; [by left|].
    pose proof (terminal_kept_by_sweep m (if isZeroTime at_ then now else at_) "" id r Hl Ht) as H.
    destruct (expire_and_collect _ _ _) as [x m']. cbn [snd] in *. destruct H as [H|[H1 H2]]; eauto.
Qed.

(** ** Sweeping is invisible to admission *)

(** The sum of a charge over a table of records. *)
Definition msum (g : reservationRecord -> Z) (rs : gmap string reservationRecord) : Z :=
  zsum (map g (map_to_list rs).*2).

Lemma msum_insert g rs id r : rs !! id = None -> msum g (<[id := r]> rs) = g r + msum g rs.
Proof.
  intros Hn. unfold msum.
  rewrite (zsum_perm _ (map g (r :: (map_to_list rs).*2))); [done|].
  by rewrite (map_to_list_insert rs) by done.
Qed.

(** Rewriting records without changing what they charge, and dropping records
    that charge nothing, leaves the sum as it is. *)
Lemma msum_omap g h rs : map_Forall (fun _ r => match h r with Some r' => g r' = g r | None => g r = 0 end) rs ->
  msum g (omap h rs) = msum g rs.
Proof.
  induction rs as [|id r rs Hn IH] using map_ind; [by rewrite omap_empty|].
  intros [Hr Hf]%map_Forall_insert; [|done]. specialize (IH Hf).
  assert (Ho : omap h rs !! id = None) by by rewrite lookup_omap, Hn.
  rewrite omap_insert, (msum_insert g rs id r Hn). destruct (h r) as [r'|].
  - rewrite (msum_insert g _ id r' Ho). lia.
  - rewrite delete_id by done. lia.
Qed.

Definition swept (m : Manager) (at_ : Z) (node : string) (r : reservationRecord) : option reservationRecord :=
  let r' := if expires at_ node r then expireRecordLocked r at_ else r in
  if collectable (at_ - Retention (cfg m)) r' then None else Some r'.

Lemma swept_reservations m at_ node :
  reservations (snd (expire_and_collect m at_ node)) = omap (swept m at_ node) (reservations m).
Proof.
  apply map_eq. intros id. rewrite expire_and_collect_lookup, lookup_omap.
  by destruct (reservations m !! id).
Qed.

Lemma expire_keeps_charge r now (f : charge -> Z) : (forall c c', c_requests c = c_requests c' ->
    c_tokens c = c_tokens c' -> c_cost c = c_cost c' -> f c = f c') ->
  (rState (reservation r) = StateReserved -> settlement r = None) ->
  f (recordCharge (expireRecordLocked r now)) = f (recordCharge r).
Proof.
  intros Hf Hs. unfold expireRecordLocked. destruct (bool_decide _) eqn:E; cbn [negb]; [|done].
  apply bool_decide_eq_true in E. unfold recordCharge at 2. rewrite (Hs E). by apply Hf.
Qed.

(** The charges that limits are about. *)
Inductive limited : (charge -> Z) -> Prop :=
| lim_requests : limited c_requests
| lim_tokens : limited c_tokens
| lim_cost : limited c_cost.

(** Terminal times are not before creation: the clock did not run backwards
    over the life of a record. *)
Definition clock_ordered (m : Manager) : Prop :=
  map_Forall (fun _ r => terminal (rState (reservation r)) ->
    rCreatedAt (reservation r) <= terminalAt r) (reservations m).

Lemma swept_charge m at_ node id r v now f : manager_ok m -> clock_ordered m -> limited f ->
  reservations m !! id = Some r -> at_ <= now ->
  let g r := times query0 (since_of v now) (bID v) r * f (recordCharge r) in
  match swept m at_ node r with Some r' => g r' = g r | None => g r = 0 end.
Proof.
  intros Hm Hclock Hf Hl Hat g. pose proof (mk_records _ Hm _ _ Hl) as Hr.
  pose proof (mk_retention _ Hm) as Hret. unfold swept.
  set (r' := if expires at_ node r then _ else r).
  assert (Hg : g r' = g r).
  { subst r' g. cbv beta. destruct (expires at_ node r); [|done].
    rewrite expire_keeps_charge.
    - unfold expireRecordLocked. by destruct (bool_decide _).
    - intros c c' ? ? ?. by destruct Hf.
    - intros Hst. pose proof (rk_phase _ _ Hr) as Hp. destruct (settlement r); [|done].
      destruct (sk_state _ _ Hp); congruence. }
  destruct (collectable _ r') eqn:Ec; [|done]. rewrite <- Hg. subst g. cbv beta.
  unfold collectable in Ec. bool_hyp. apply bool_decide_eq_false in H.
  assert (Hlt : rCreatedAt (reservation r') < since_of v now).
  { assert (since_of v now >= now - 30 * Day).
    { unfold since_of. destruct (bWindow v); cbn; unfold Day, Hour, Minute, Second; lia. }
    assert (rCreatedAt (reservation r') <= terminalAt r'); [|lia].
    revert H H0. subst r'. destruct (expires at_ node r) eqn:Ex.
    - unfold expireRecordLocked. unfold expires in Ex.
      destruct (bool_decide (rState (reservation r) = StateReserved)); [|discriminate]. cbn.
      unfold Day, Hour, Minute, Second in Hret. lia.
    - intros Hst _. apply (Hclock _ _ Hl).
      pose proof (rk_phase _ _ Hr) as Hp. destruct (settlement r); [apply Hp|].
      by destruct Hp as [? _]. }
  unfold times. rewrite (proj2 (Z.leb_gt _ _)) by lia. by rewrite andb_false_r.
Qed.

Lemma sweep_keeps_totals m at_ node v now f : manager_ok m -> clock_ordered m -> limited f ->
  at_ <= now -> all_total (snd (expire_and_collect m at_ node)) v now f = all_total m v now f.
Proof.
  intros Hm Hclock Hf Hat. unfold all_total, total. rewrite swept_reservations.
  apply msum_omap. intros id r Hl. by eapply swept_charge.
Qed.

(** expiry and collection never free allowance: after a sweep or a
    node's expiry at [at_], the requests, tokens and cost every budget window
    counts at any instant from [at_] on are what they were before, since
    expiry keeps the reserved charge and collection drops only records older
    than every window. *)
Theorem sweeping_never_frees_allowance : forall lower m now at_ node v later f,
  reachable lower m -> clock_ordered m -> limited f -> at_ <> 0 -> at_ <= later ->
  all_total (snd (Sweep false now m at_)) v later f = all_total m v later f /\
  all_total (snd (ExpireNode false now m node at_)) v later f = all_total m v later f.
Proof.
  intros lower m now at_ node v later f Hm%reachable_ok Hclock Hf H0 Hle.
  unfold Sweep, ExpireNode, isZeroTime. rewrite (proj2 (Z.eqb_neq _ _) H0).
  pose proof (sweep_keeps_totals m at_ "" v later f Hm Hclock Hf Hle) as H1.
  pose proof (sweep_keeps_totals m at_ node v later f Hm Hclock Hf Hle) as H2.
  destruct (expire_and_collect m at_ "") as [x1 m1], (expire_and_collect m at_ node) as [x2 m2].
  split; [done|]. by destruct (safeID node).
Qed.

(** ** Durable rows *)

Lemma set_reservations_id m : set_reservations m (reservations m) = m.
Proof. by destruct m. Qed.

(** durable rows restore what they were exported from: the row of any
    record of an authority is accepted by [RestoreRecord], putting it back
    leaves the authority as it is, and removing the record and restoring the
    row, as the rollback of a failed commit does, returns exactly the
    authority the row was taken from. *)
Theorem durable_rows_round_trip : forall lower m id d,
  reachable lower m -> Record_ m id = Some d ->
  RestoreRecord m id (Some d) = (Ok tt, m) /\
  RestoreRecord (snd (RestoreRecord m id None)) id (Some d) = (Ok tt, m).
Proof.
  intros lower m id d Hm%reachable_ok (r & Hl & ->)%fmap_Some.
  pose proof (mk_records _ Hm _ _ Hl) as Hr. unfold RestoreRecord.
  assert (safeID id = true) as Hs by (rewrite (rk_hash _ _ Hr); apply reservationID_safe).
  rewrite Hs, (importRecord_export _ _ Hr), (rk_id _ _ Hr), str_eqb_refl. cbn [negb snd].
  split.
  - rewrite Hl. cbn. by rewrite insert_id, set_reservations_id.
  - cbn [reservations set_reservations cfg]. rewrite lookup_delete_eq.
    rewrite bool_decide_eq_true_2 by done. cbn [andb].
    rewrite (proj2 (Z.leb_gt _ _)).
    + unfold set_reservations at 1. cbn. rewrite insert_delete_id by done. by destruct m.
    + rewrite map_size_delete, Hl. pose proof (mk_max_records _ Hm).
      assert (size (reservations m) <> 0%nat) by (intros He; apply map_size_empty_inv in He; rewrite He in Hl; done).
      cbn. lia.
Qed.

(** ** A concrete authority: two tenants, each with a budget named [daily] *)

Definition ex_budget (tenant : string) (requests tokens cost : Z) : budget :=
  mkBudget "daily" tenant AttachTenant tenant WindowDay requests tokens cost.
Definition ex_budgets : list budget := [ex_budget "acme" 2 5000 0; ex_budget "globex" 1 0 0].
Definition ex_request (tenant key : string) (metered : bool) : ReserveRequest :=
  mkReserve key "node-1" (mkSubject tenant "ws" 1 "alice" "" []) "openai" "gpt-5" 100 400 metered.
Definition ex_now : Z := 1000 * Day.
Definition ex_settle : SettleRequest :=
  mkSettle (reservationID "acme" "k1") SettlementMetered 90 250.

Definition ex_m0 : Manager :=
  match NewManager ex_budgets ex_catalog 0 0 0 0 with
  | Ok m => m
  | Err _ => mkManager (mkConfig ex_catalog 0 0 0 0) ∅ ∅ 0 0 0 0
  end.
Definition ex_reserve : op := OpReserve false ex_now (ex_request "acme" "k1" true).
Definition ex_m1 : Manager := run id ex_m0 [ex_reserve].
Definition ex_m2 : Manager := run id ex_m0 [ex_reserve; OpSettle false (ex_now + 5) ex_settle].

Lemma ex_catalog_ok : catalog_ok ex_catalog.
Proof. eapply (ParseCatalog_ok id ex_doc true). reflexivity. Qed.

Lemma ex_reachable ops : Forall op_ok ops -> reachable id (run id ex_m0 ops).
Proof.
  intros Ho. exists ex_budgets, ex_catalog, 0, 0, 0, 0, ex_m0, ops.
  split_and!; [apply ex_catalog_ok| |vm_compute; reflexivity|done|done].
  repeat constructor; cbn; lia.
Qed.

Lemma ex_reserve_ok : op_ok ex_reserve.
Proof. discriminate. Qed.

Lemma ex_reachable1 : reachable id ex_m1.
Proof. apply (ex_reachable [ex_reserve]). repeat constructor. apply ex_reserve_ok. Qed.

Lemma ex_reachable2 : reachable id ex_m2.
Proof.
  apply (ex_reachable [ex_reserve; OpSettle false (ex_now + 5) ex_settle]).
  repeat constructor; [apply ex_reserve_ok|discriminate].
Qed.

Lemma authority_state_is_bounded_and_consistent_witness :
  size (reservations ex_m2) = 1%nat /\ Z.of_nat (size (reservations ex_m2)) <= MaxReservations (cfg ex_m2).
Proof.
  split; [vm_compute; reflexivity|].
  apply (authority_state_is_bounded_and_consistent id ex_m2 ex_reachable2).
Defined.

Definition ex_r : Reservation :=
  match fst (Reserve id false ex_now ex_m0 (ex_request "acme" "k1" true)) with
  | Ok r => r
  | Err _ => mkReservation "" false "" "" (mkSubject "" "" 0 "" "" []) "" "" [] 0 0 false "" 0 0 StateReserved
  end.

Lemma ex_admit : Reserve id false ex_now ex_m0 (ex_request "acme" "k1" true) = (Ok ex_r, ex_m1)
  /\ rTracked ex_r = true /\ reservations ex_m0 !! rID ex_r = None.
Proof. split_and!; vm_compute; reflexivity. Qed.

Lemma admission_within_limits_witness :
  Forall (fun v => matched_bound ex_m1 ex_now v true)
    (matchingBudgetsLocked ex_m0 (mkSubject "acme" "ws" 1 "alice" "" [])) /\
  matchingBudgetsLocked ex_m0 (mkSubject "acme" "ws" 1 "alice" "" []) = [ex_budget "acme" 2 5000 0].
Proof.
  split; [|vm_compute; reflexivity]. destruct ex_admit as (HR & Ht & Hf).
  apply (admission_within_limits id false ex_now ex_m0 (ex_request "acme" "k1" true) ex_r ex_m1);
    [apply (ex_reachable []); constructor|discriminate|exact HR|exact Ht|exact Hf].
Defined.

Lemma reserve_is_idempotent_witness :
  Reserve id false (ex_now + 77) ex_m1 (ex_request "acme" "k1" false) = (Err ErrConflict, ex_m1).
Proof.
  destruct ex_admit as (HR & Ht & Hf).
  apply (proj2 (reserve_is_idempotent id false ex_now ex_m0 (ex_request "acme" "k1" true) ex_r ex_m1
    (ex_reachable [] (Forall_nil_2 _)) ex_reserve_ok HR Ht));
    [vm_compute; reflexivity| |exact eq_refl|exact eq_refl].
  intros H. apply (f_equal qMetered) in H. discriminate H.
Defined.

Definition ex_s : Settlement :=
  match fst (Settle id false (ex_now + 5) ex_m1 ex_settle) with
  | Ok s => s
  | Err _ => mkSettlement ex_r (ModeOther "") 0 0 0 0 false false
  end.

Lemma ex_settles : Settle id false (ex_now + 5) ex_m1 ex_settle = (Ok ex_s, ex_m2)
  /\ stTokens ex_s = 340.
Proof. split; vm_compute; reflexivity. Qed.

Lemma settle_is_idempotent_and_final_witness :
  stTokens ex_s = 340 /\ Settle id false (ex_now + 99999) ex_m2 ex_settle = (Ok ex_s, ex_m2).
Proof.
  destruct ex_settles as (HS & Ht). split; [exact Ht|].
  apply (settle_is_idempotent_and_final id false (ex_now + 5) ex_m1 ex_settle ex_s ex_m2
    ex_reachable1 HS).
Defined.

Lemma ex_lookup2 : exists r, reservations ex_m2 !! reservationID "acme" "k1" = Some r
  /\ rState (reservation r) = StateSettled /\ terminalAt r = ex_now + 5.
Proof.
  assert ((fun r => (rState (reservation r), terminalAt r)) <$>
            reservations ex_m2 !! reservationID "acme" "k1" = Some (StateSettled, ex_now + 5)) as H
    by (vm_compute; reflexivity).
  apply fmap_Some in H as (r & Hr & H). exists r. split; [exact Hr|].
  split; symmetry; [exact (f_equal fst H)|exact (f_equal snd H)].
Qed.

Lemma terminal_records_are_immutable_witness :
  exists r, reservations ex_m2 !! reservationID "acme" "k1" = Some r /\
    (reservations (apply_op id ex_m2 (OpSweep false 1 (ex_now + 40 * Day))) !! reservationID "acme" "k1" = Some r \/
     reservations (apply_op id ex_m2 (OpSweep false 1 (ex_now + 40 * Day))) !! reservationID "acme" "k1" = None /\
     exists at_, collects_at (OpSweep false 1 (ex_now + 40 * Day)) = Some at_
       /\ terminalAt r < at_ - Retention (cfg ex_m2)).
Proof.
  destruct ex_lookup2 as (r & Hr & Hst & _). exists r. split; [exact Hr|].
  exact (terminal_records_are_immutable id ex_m2 (OpSweep false 1 (ex_now + 40 * Day)) _ r
    ex_reachable2 Hr (or_introl Hst) eq_refl).
Defined.

Lemma ex_clock_ordered : clock_ordered ex_m1.
Proof.
  intros id r Hr Ht. exfalso.
  assert (forallb (fun x => bool_decide (rState (reservation x.2) = StateReserved))
    (map_to_list (reservations ex_m1)) = true) as Hall by (vm_compute; reflexivity).
  rewrite forallb_forall in Hall.
  specialize (Hall (id, r)). rewrite <- list_elem_of_In, elem_of_map_to_list in Hall.
  apply Hall, bool_decide_eq_true in Hr. cbn [snd] in Hr. rewrite Hr in Ht.
  destruct Ht; discriminate.
Qed.

Lemma sweeping_never_frees_allowance_witness :
  all_total (snd (Sweep false 1 ex_m1 (ex_now + Hour))) (ex_budget "acme" 2 5000 0) (ex_now + Hour) c_tokens
  = all_total ex_m1 (ex_budget "acme" 2 5000 0) (ex_now + Hour) c_tokens /\
  all_total ex_m1 (ex_budget "acme" 2 5000 0) (ex_now + Hour) c_tokens = 500.
Proof.
  split; [|vm_compute; reflexivity].
  apply (sweeping_never_frees_allowance id ex_m1 1 (ex_now + Hour) "node-1");
    [exact ex_reachable1|exact ex_clock_ordered|constructor|discriminate|apply Z.le_refl].
Defined.

Lemma durable_rows_round_trip_witness :
  exists d, Record_ ex_m2 (reservationID "acme" "k1") = Some d /\
    RestoreRecord (snd (RestoreRecord ex_m2 (reservationID "acme" "k1") None))
      (reservationID "acme" "k1") (Some d) = (Ok tt, ex_m2).
Proof.
  destruct ex_lookup2 as (r & Hr & _). exists (exportRecord r).
  assert (HR : Record_ ex_m2 (reservationID "acme" "k1") = Some (exportRecord r))
    by (unfold Record_; rewrite Hr; reflexivity).
  split; [exact HR|].
  apply (durable_rows_round_trip id ex_m2 _ (exportRecord r) ex_reachable2 HR).
Defined.

(** usage is not separated by tenant.  [usageForBudgetsLocked] finds
    the counters of a record by budget ID alone, although budgets are stored
    per tenant and ID, so a tenant's reservations count against a budget of
    another tenant that has the same ID: here [acme]'s one reservation makes
    [globex]'s first request be refused, although [globex] has spent nothing
    of its own limit of one request. *)
Theorem other_tenant_spend_denies_admission :
  reachable id ex_m1 /\
  own_total ex_m1 (ex_budget "globex" 1 0 0) ex_now c_requests = 0 /\
  matchingBudgetsLocked ex_m1 (mkSubject "globex" "ws" 1 "alice" "" []) = [ex_budget "globex" 1 0 0] /\
  fst (Reserve id false ex_now ex_m1 (ex_request "globex" "k1" true))
    = Err (ErrDenied ["daily"%string] LimitRequests "").
Proof. split; [exact ex_reachable1|]. vm_compute. done. Qed.

End Budget.
