(* ===== verification/SessionLog.v ===== *)
(** * The tiered session log

    [internal/session/log.go]: an append-only sequence of chunks held in a
    memory ring, a local spill file and immutable blob segments.  The disk, the
    blob store and the durable record are the environment, a class [Env] over
    an arbitrary world type whose operations may fail at any call. *)

From Stdlib Require Import ZArith Lia Strings.Byte Strings.String.
From stdpp Require Import base list gmap strings.
From S2P Require Import Prelude GoStd.
Import GoStd.

#[local] Open Scope Z_scope.

Module SessionLog.

(** ** Data *)

Definition DefaultSegmentBytes : Z := 67108864.
Definition DefaultMaxSegments : Z := 65536.
Definition logRecordVersion : Z := 1.
Definition recordHeaderBytes : Z := 13.
Definition indexStride : Z := 64.
Definition TierBlob : string := "blob".
Definition TierDisk : string := "disk".

Record Chunk := mkChunk { Seq : Z; Stream : byte; Data : list byte }.
Record SegmentRef := mkSegment { First : Z; Next : Z; Artifact : string; Bytes : Z }.
Record LogRecord := mkLogRecord { Version : Z; RecMaxChunk : Z; Segments : list SegmentRef }.

Inductive log_error :=
| ErrLogClosed
| ErrTierUnavailable (tier : string) (requested oldest : Z) (cause : string)
| ErrNonContiguous
| ErrOptions (what : string)
| ErrRecord (what : string)
| ErrCommit (cause : string).

Record LogOptions := mkLogOptions {
  MemBytes : Z; SpillBytes : Z; SpillPath : string; MaxChunk : Z; MaxChunks : Z;
  BlobStore : bool; SegmentBytes : Z; MaxSegments : Z; CommitRecord : bool }.

Definition defaults (o : LogOptions) : LogOptions :=
  let mem := if MemBytes o <=? 0 then 1048576 else MemBytes o in
  let spill := if (SpillBytes o =? 0) && (SpillPath o <>s "") then 67108864 else SpillBytes o in
  let chunk := if MaxChunk o <=? 0 then 32768 else MaxChunk o in
  let nchunks := if MaxChunks o <=? 0 then 16384 else MaxChunks o in
  let seg := if BlobStore o && (SegmentBytes o <=? 0)
             then if (0 <? spill) && (spill <? DefaultSegmentBytes) then spill else DefaultSegmentBytes
             else SegmentBytes o in
  let nseg := if MaxSegments o <=? 0 then DefaultMaxSegments else MaxSegments o in
  mkLogOptions mem spill (SpillPath o) chunk nchunks (BlobStore o) seg nseg (CommitRecord o).

Definition validate (o : LogOptions) : result log_error unit :=
  if (MemBytes o <=? 0) || (SpillBytes o <? 0) || (MaxChunk o <=? 0) || (MaxChunks o <=? 0)
     || (SegmentBytes o <? 0)
  then Err (ErrOptions "log limits must be positive")
  else if (0 <? SpillBytes o) && (SpillPath o =s "") then Err (ErrOptions "SpillPath required")
  else if (0 <? SpillBytes o) && (SpillBytes o <? recordHeaderBytes + MaxChunk o)
  then Err (ErrOptions "SpillBytes must hold one maximum chunk")
  else if BlobStore o then
    if SpillBytes o =? 0 then Err (ErrOptions "artifact tier requires a disk spill tier")
    else if negb (CommitRecord o) then Err (ErrOptions "artifact tier requires durable CommitRecord")
    else if SegmentBytes o <? recordHeaderBytes + MaxChunk o
    then Err (ErrOptions "SegmentBytes must hold one maximum chunk")
    else if DefaultSegmentBytes <? SegmentBytes o then Err (ErrOptions "SegmentBytes exceeds limit")
    else if SpillBytes o <? SegmentBytes o then Err (ErrOptions "SegmentBytes exceeds spill capacity")
    else Ok tt
  else Ok tt.

(** [spill] is the open file's content. *)
Record Log := mkLog {
  opts : LogOptions; chunks : list Chunk; bytes : Z; first : Z; next : Z; closed : bool;
  terminalFirst : Z; terminalPending : bool; completionErr : option log_error;
  spill : option (list byte); spillFirst : Z; spillNext : Z; spillBytes : Z;
  spillIndex : list (Z * Z); segments : list SegmentRef; unavailableTier : string;
  appendErr : option log_error }.

(** ** The environment *)

(** What the log calls.  Each operation may fail and may change the world; a
    failed disk write reports how many of its bytes reached the file. *)
Class Env (W : Type) := {
  blob_put : W -> list byte -> result string (string * Z) * W;
  blob_head : W -> string -> result string Z * W;
  blob_open : W -> string -> result string (list byte * Z) * W;
  commit_record : W -> LogRecord -> option string * W;
  final_commit : W -> LogRecord -> option string * W;
  publish : W -> option log_error -> W;
  disk_open : W -> option string * W;
  disk_write : W -> Z -> option nat * W;
  disk_truncate : W -> option string * W;
  disk_seek : W -> option string * W;
  disk_read : W -> option string * W }.

(** What the content-addressed store documents: an id [Put] returned names
    those bytes for good, so a later [Open] that succeeds yields them. *)
Class EnvLaws {W} (E : Env W) := {
  stored : W -> string -> list byte -> Prop;
  put_stored : forall w d id n w', blob_put w d = (Ok (id, n), w') -> stored w' id d;
  open_stored : forall w id b n w' d,
    blob_open w id = (Ok (b, n), w') -> stored w id d -> b = d;
  stable_put : forall w d id x, stored w id x -> stored (snd (blob_put w d)) id x;
  stable_head : forall w i id x, stored w id x -> stored (snd (blob_head w i)) id x;
  stable_open : forall w i id x, stored w id x -> stored (snd (blob_open w i)) id x;
  stable_commit : forall w r id x, stored w id x -> stored (snd (commit_record w r)) id x;
  stable_final : forall w r id x, stored w id x -> stored (snd (final_commit w r)) id x;
  stable_publish : forall w e id x, stored w id x -> stored (publish w e) id x;
  stable_dopen : forall w id x, stored w id x -> stored (snd (disk_open w)) id x;
  stable_write : forall w n id x, stored w id x -> stored (snd (disk_write w n)) id x;
  stable_truncate : forall w id x, stored w id x -> stored (snd (disk_truncate w)) id x;
  stable_seek : forall w id x, stored w id x -> stored (snd (disk_seek w)) id x;
  stable_read : forall w id x, stored w id x -> stored (snd (disk_read w)) id x }.

(** ** Record encoding *)

Definition record_header (c : Chunk) : list byte :=
  be_split 8 (Seq c) ++ [Stream c] ++ be_split 4 (Z.of_nat (length (Data c))).

Definition encode_chunk (c : Chunk) : list byte := record_header c ++ Data c.

(** [WriteAt]; bytes between the end of the file and [off] read as zero. *)
Definition file_write (f : list byte) (off : Z) (p : list byte) : list byte :=
  let o := Z.to_nat off in
  take o (f ++ replicate (o - length f) x00) ++ p ++ drop (o + length p) f.

(** [ReadAt]: short reads are errors. *)
Definition file_read (f : list byte) (off n : Z) : option (list byte) :=
  if Z.of_nat (length f) <? off + n then None
  else Some (take (Z.to_nat n) (drop (Z.to_nat off) f)).

Definition hdr_seq (h : list byte) : Z := be_combine (take 8 h).
Definition hdr_stream (h : list byte) : byte := nth 8 h x00.
Definition hdr_len (h : list byte) : Z := be_combine (take 4 (drop 9 h)).

(** ** State updates *)

Definition set_spill (l : Log) (f : option (list byte)) : Log :=
  mkLog (opts l) (chunks l) (bytes l) (first l) (next l) (closed l) (terminalFirst l)
    (terminalPending l) (completionErr l) f (spillFirst l) (spillNext l) (spillBytes l)
    (spillIndex l) (segments l) (unavailableTier l) (appendErr l).
Definition set_range (l : Log) (sf sn sb : Z) (ix : list (Z * Z)) : Log :=
  mkLog (opts l) (chunks l) (bytes l) (first l) (next l) (closed l) (terminalFirst l)
    (terminalPending l) (completionErr l) (spill l) sf sn sb ix (segments l) (unavailableTier l)
    (appendErr l).
Definition set_segments (l : Log) (s : list SegmentRef) : Log :=
  mkLog (opts l) (chunks l) (bytes l) (first l) (next l) (closed l) (terminalFirst l)
    (terminalPending l) (completionErr l) (spill l) (spillFirst l) (spillNext l) (spillBytes l)
    (spillIndex l) s (unavailableTier l) (appendErr l).
Definition set_tier (l : Log) (t : string) : Log :=
  mkLog (opts l) (chunks l) (bytes l) (first l) (next l) (closed l) (terminalFirst l)
    (terminalPending l) (completionErr l) (spill l) (spillFirst l) (spillNext l) (spillBytes l)
    (spillIndex l) (segments l) t (appendErr l).
Definition set_memory (l : Log) (cs : list Chunk) (b f n : Z) : Log :=
  mkLog (opts l) cs b f n (closed l) (terminalFirst l) (terminalPending l) (completionErr l)
    (spill l) (spillFirst l) (spillNext l) (spillBytes l) (spillIndex l) (segments l)
    (unavailableTier l) (appendErr l).
Definition set_appendErr (l : Log) (e : option log_error) : Log :=
  mkLog (opts l) (chunks l) (bytes l) (first l) (next l) (closed l) (terminalFirst l)
    (terminalPending l) (completionErr l) (spill l) (spillFirst l) (spillNext l) (spillBytes l)
    (spillIndex l) (segments l) (unavailableTier l) e.
Definition set_terminal (l : Log) (f : Z) : Log :=
  mkLog (opts l) (chunks l) (bytes l) (first l) (next l) (closed l) f true (completionErr l)
    (spill l) (spillFirst l) (spillNext l) (spillBytes l) (spillIndex l) (segments l)
    (unavailableTier l) (appendErr l).
Definition set_closed (l : Log) (e : option log_error) : Log :=
  mkLog (opts l) (chunks l) (bytes l) (first l) (next l) true (terminalFirst l) (terminalPending l)
    e (spill l) (spillFirst l) (spillNext l) (spillBytes l) (spillIndex l) (segments l)
    (unavailableTier l) (appendErr l).

Definition is_open {A} (o : option A) : bool := match o with Some _ => true | None => false end.

(** ** Pure queries *)

Definition recordLocked (l : Log) (s : list SegmentRef) : LogRecord :=
  mkLogRecord logRecordVersion (MaxChunk (opts l)) s.

Definition oldestLocked (l : Log) : Z :=
  match segments l with
  | s :: _ => First s
  | [] =>
      if is_open (spill l) && (spillFirst l <? spillNext l) then spillFirst l
      else match chunks l with _ :: _ => first l | [] => next l end
  end.

Definition visibleNextLocked (l : Log) : Z :=
  if terminalPending l && (negb (closed l) || is_open (completionErr l))
  then terminalFirst l else next l.

Definition readLimit (max have visible : Z) : Z :=
  let remaining := if visible <=? maxInt64 then visible else maxInt64 in
  if (0 <? max) && (max - have <? remaining) then max - have else remaining.

Fixpoint segment_for (segs : list SegmentRef) (seq : Z) : option SegmentRef :=
  match segs with
  | [] => None
  | s :: t =>
      if (First s <=? seq) && (seq <? Next s) then Some s
      else if seq <? First s then None
      else segment_for t seq
  end.

Definition segmentForLocked (l : Log) (seq : Z) : option SegmentRef := segment_for (segments l) seq.

Record LogStats := mkStats {
  MemoryBytes : Z; MemoryChunks : Z; MaxMemoryBytes : Z; DiskBytes : Z; MaxDiskBytes : Z;
  BlobBytes : Z; BlobSegments : Z; MaxBlobSegments : Z; Oldest : Z; StatNext : Z; StatClosed : bool;
  StatTier : string }.

Definition Stats (l : Log) : LogStats :=
  mkStats (bytes l) (Z.of_nat (length (chunks l))) (MemBytes (opts l)) (spillBytes l)
    (SpillBytes (opts l)) (foldl (fun acc s => acc + Bytes s) 0 (segments l))
    (Z.of_nat (length (segments l))) (MaxSegments (opts l)) (oldestLocked l) (next l) (closed l)
    (unavailableTier l).

Definition hex_char (b : Z) : bool :=
  in_range 0x30 0x39 b || in_range 0x61 0x66 b || in_range 0x41 0x46 b.

(** [artifact.Digest] accepts the id. *)
Definition digest_ok (id : string) : bool :=
  String.prefix "sha256:" id &&
  (let h := drop 7 (string_bytes id) in (length h =? 64)%nat && forallb hex_char h).

Fixpoint check_segments (i : nat) (previous : Z) (segs : list SegmentRef) : result log_error unit :=
  match segs with
  | [] => Ok tt
  | s :: t =>
      if (Next s <=? First s) || (Bytes s <=? 0) || (DefaultSegmentBytes <? Bytes s)
      then Err (ErrRecord "range")
      else if negb (digest_ok (Artifact s)) then Err (ErrRecord "artifact")
      else if (0 <? i)%nat && negb (First s =? previous) then Err (ErrRecord "non-contiguous")
      else check_segments (S i) (Next s) t
  end.

Definition validateLogRecord (r : LogRecord) : result log_error unit :=
  if negb (Version r =? logRecordVersion) then Err (ErrRecord "version")
  else if (0 <? length (Segments r))%nat && (RecMaxChunk r <=? 0) then Err (ErrRecord "max chunk")
  else if DefaultMaxSegments <? Z.of_nat (length (Segments r)) then Err (ErrRecord "segment limit")
  else check_segments 0 0 (Segments r).

Definition OpenArchivedLog (store : bool) (r : LogRecord) : result log_error Log :=
  if negb store then Err (ErrOptions "archived log requires BlobStore")
  else
    let? _ := validateLogRecord r in
    let next := match last (Segments r) with Some s => Next s | None => 0 end in
    Ok (mkLog (mkLogOptions 1048576 0 "" (RecMaxChunk r) 16384 true DefaultSegmentBytes
                 DefaultMaxSegments false)
          [] 0 next next true 0 false None None 0 0 0 [] (Segments r) "" None).

(** ** Operations

    An operation takes the log and the world and returns its result with both;
    [let* x := m in k] runs [k] when [m] returned no error. *)

Definition M (W A : Type) : Type := Log -> W -> result log_error A * Log * W.

Definition bind {W A B} (m : M W A) (k : A -> M W B) : M W B := fun l w =>
  match m l w with
  | (Ok a, l', w') => k a l' w'
  | (Err e, l', w') => (Err e, l', w')
  end.

Notation "'let*' x ':=' m 'in' k" := (bind m (fun x => k))
  (at level 10, x pattern, m at level 100, k at level 200) : remount_scope.

Definition ret {W A} (a : A) : M W A := fun l w => (Ok a, l, w).
Definition fail {W A} (e : log_error) : M W A := fun l w => (Err e, l, w).
Definition get {W} : M W Log := fun l w => (Ok l, l, w).
Definition modify {W} (f : Log -> Log) : M W unit := fun l w => (Ok tt, f l, w).

(** [tierErrorLocked]. *)
Definition tier_fail {W A} (tier : string) (from to : Z) (cause : string) : M W A := fun l w =>
  (Err (ErrTierUnavailable tier from to cause), set_tier l tier, w).

(** Call the world; [None] is success. *)
Definition call {W} (f : W -> option string * W) : M W (option string) := fun l w =>
  let '(r, w') := f w in (Ok r, l, w').
Definition call_result {W A} (f : W -> result string A * W) : M W (result string A) := fun l w =>
  let '(r, w') := f w in (Ok r, l, w').

Section operations.
  Context {W : Type} {E : Env W}.

Definition NewLog (o : LogOptions) (w : W) : result log_error Log * W :=
    let o := defaults o in
    match validate o with
    | Err e => (Err e, w)
    | Ok _ =>
        let l f := mkLog o [] 0 0 0 false 0 false None f 0 0 0 [] [] "" None in
        if 0 <? SpillBytes o then
          match disk_open w with
          | (Some e, w') => (Err (ErrOptions e), w')
          | (None, w') => (Ok (l (Some [])), w')
          end
        else (Ok (l None), w)
    end.

  (** [writeAtFull]: nothing is written for an empty slice. *)
Definition writeAtFull (p : list byte) (off : Z) : M W bool := fun l w =>
    match p, spill l with
    | [], _ => (Ok true, l, w)
    | _, None => (Ok false, l, w)
    | _, Some f =>
        match disk_write w (Z.of_nat (length p)) with
        | (None, w') => (Ok true, set_spill l (Some (file_write f off p)), w')
        | (Some k, w') => (Ok false, set_spill l (Some (file_write f off (take k p))), w')
        end
    end.

Definition truncate : M W (option string) := fun l w =>
    match disk_truncate w with
    | (None, w') => (Ok None, set_spill l (match spill l with Some _ => Some [] | None => None end), w')
    | (Some e, w') => (Ok (Some e), l, w')
    end.

Definition invalidateSpillLocked : M W unit :=
    let* _ := truncate in
    modify (fun l => set_tier (set_range l 0 0 0 []) TierDisk).

Definition resetSpillLocked : M W (option string) :=
    let* r := truncate in
    match r with
    | Some e => ret (Some e)
    | None =>
        let* r := call disk_seek in
        match r with
        | Some e => ret (Some e)
        | None => let* _ := modify (fun l => set_range l 0 0 0 []) in ret None
        end
    end.

Definition last_next (segs : list SegmentRef) : option Z := Next <$> last segs.

Definition sealSpillWithCommitLocked (commit : W -> LogRecord -> option string * W) : M W unit :=
    let* l := get in
    if spillBytes l =? 0 then ret tt
    else
      let first := spillFirst l in let next := spillNext l in let size := spillBytes l in
      if MaxSegments (opts l) <=? Z.of_nat (length (segments l))
      then tier_fail TierBlob first next "session segment reference limit reached"
      else
        let* r := call_result (fun w => match spill l with
                    | None => (Err "invalid file"%string, w)
                    | Some f => blob_put w (take (Z.to_nat size) f)
                    end) in
        match r with
        | Err e => tier_fail TierBlob first next e
        | Ok (id, n) =>
            if negb (n =? size) then tier_fail TierBlob first next "put size"
            else
              let* r := call_result (fun w => blob_head w id) in
              match r with
              | Err e => tier_fail TierBlob first next e
              | Ok head =>
                  if negb (head =? size) then tier_fail TierBlob first next "head size"
                  else
                    let candidate := segments l ++ [mkSegment first next id size] in
                    if (0 <? length (segments l))%nat
                       && negb (bool_decide (last_next (segments l) = Some first))
                    then fail ErrNonContiguous
                    else
                      let* r := call (fun w => commit w (recordLocked l candidate)) in
                      match r with
                      | Some e => tier_fail TierBlob first next e
                      | None =>
                          let* _ := modify (fun l => set_range (set_segments l candidate) 0 0 0 []) in
                          let* r := truncate in
                          match r with
                          | Some e => tier_fail TierDisk first next e
                          | None =>
                              let* r := call disk_seek in
                              match r with
                              | Some e => tier_fail TierDisk first next e
                              | None => modify (fun l => set_tier l "")
                              end
                          end
                      end
              end
        end.

Definition sealSpillLocked : M W unit := sealSpillWithCommitLocked commit_record.

  (** The parts of [spillLocked]: seal a segment the record would overfill, or
      rotate the file when there is no blob tier; *)
Definition make_room (c : Chunk) : M W unit :=
    let rec := recordHeaderBytes + Z.of_nat (length (Data c)) in
    let* l := get in
    let* _ := if BlobStore (opts l) && (0 <? spillBytes l)
                 && (SegmentBytes (opts l) <? spillBytes l + rec)
              then sealSpillLocked else ret tt in
    let* l := get in
    if negb (BlobStore (opts l)) && (SpillBytes (opts l) <? spillBytes l + rec)
    then let* r := resetSpillLocked in
         match r with
         | Some e => fail (ErrCommit e)
         | None => modify (fun l => set_tier l TierBlob)
         end
    else ret tt.

  (** append the record and its index entry; *)
Definition write_record (c : Chunk) : M W unit :=
    let rec := recordHeaderBytes + Z.of_nat (length (Data c)) in
    let* l := get in
    let first := if spillBytes l =? 0 then Seq c else spillFirst l in
    let off := spillBytes l in
    let* ok := writeAtFull (record_header c) off in
    if negb ok then
      let* _ := invalidateSpillLocked in tier_fail TierDisk (Seq c) (Seq c + 1) "write header"
    else
    let* ok := writeAtFull (Data c) (off + recordHeaderBytes) in
    if negb ok then
      let* _ := invalidateSpillLocked in tier_fail TierDisk (Seq c) (Seq c + 1) "write data"
    else
    modify (fun l =>
      set_range l (if off =? 0 then first else spillFirst l) (Seq c + 1) (spillBytes l + rec)
        (if (Seq c - first) mod indexStride =? 0 then spillIndex l ++ [(Seq c, off)] else spillIndex l)).

  (** and seal a segment the record filled. *)
Definition spillLocked (c : Chunk) : M W unit :=
    let* _ := make_room c in
    let* _ := write_record c in
    let* l := get in
    if BlobStore (opts l) && (SegmentBytes (opts l) <=? spillBytes l) then sealSpillLocked else ret tt.

  (** One chunk leaves the memory ring. *)
Definition evict_one (c : Chunk) : M W unit :=
    let* l := get in
    let* _ := if is_open (spill l) then spillLocked c else ret tt in
    modify (fun l => set_memory l (tail (chunks l)) (bytes l - Z.of_nat (length (Data c)))
                       (Seq c + 1) (next l)).

Definition must_evict (flush : bool) (l : Log) : bool :=
    (0 <? length (chunks l))%nat
    && (flush || (((MemBytes (opts l) <? bytes l) || (MaxChunks (opts l) <? Z.of_nat (length (chunks l))))
                  && (1 <? length (chunks l))%nat)).

  (** Each turn removes a chunk, so the number of chunks is enough fuel. *)
Fixpoint evict_loop (fuel : nat) (flush : bool) : M W unit :=
    match fuel with
    | O => ret tt
    | S fuel' =>
        let* l := get in
        if must_evict flush l then
          match chunks l with
          | [] => ret tt
          | c :: _ => let* _ := evict_one c in evict_loop fuel' flush
          end
        else ret tt
    end.

Definition evictLocked (flush : bool) : M W unit := fun l w =>
    (let* _ := evict_loop (length (chunks l)) flush in
     modify (fun l => match chunks l with
                      | [] => set_memory l [] (bytes l) (next l) (next l)
                      | _ => l
                      end)) l w.

  (** The loop of [appendLocked]: the pieces of [data], at least one. *)
Fixpoint pieces (fuel : nat) (maxChunk : nat) (data : list byte) : list (list byte) :=
    match fuel with
    | O => []
    | S fuel' =>
        let n := Nat.min (length data) maxChunk in
        let rest := drop n data in
        take n data :: match rest with [] => [] | _ => pieces fuel' maxChunk rest end
    end.

Definition append_piece (stream : byte) (l : Log) (piece : list byte) : Log :=
    set_memory l (chunks l ++ [mkChunk (next l) stream piece])
      (bytes l + Z.of_nat (length piece)) (first l) (next l + 1).

Definition appendLocked (stream : byte) (data : list byte) (terminal : bool) : Log -> W ->
      (Z * option log_error) * Log * W := fun l w =>
    if closed l then ((0, Some ErrLogClosed), l, w)
    else if is_open (appendErr l) && negb terminal then ((next l, appendErr l), l, w)
    else
      let firstSeq := next l in
      let l1 := foldl (append_piece stream) l
                  (pieces (S (length data)) (Z.to_nat (MaxChunk (opts l))) data) in
      match evictLocked false l1 w with
      | (Ok _, l2, w2) => ((firstSeq, None), l2, w2)
      | (Err e, l2, w2) => ((firstSeq, Some e), set_appendErr l2 (Some e), w2)
      end.

Definition Append (stream : byte) (data : list byte) := appendLocked stream data false.

Definition appendTerminal (stream : byte) (data : list byte) : Log -> W ->
      (Z * option log_error) * Log * W := fun l w =>
    let '(f, e, l1, w1) := appendLocked stream data true l w in
    ((f, e), set_terminal l1 f, w1).

Definition close_tiers (final : bool) : M W unit :=
    let* _ := evictLocked true in
    let* l := get in
    if final && (0 <? spillBytes l) then sealSpillWithCommitLocked final_commit
    else
      let* _ := sealSpillLocked in
      if final then
        let* l := get in
        let* r := call (fun w => final_commit w (recordLocked l (segments l))) in
        match r with Some e => fail (ErrCommit e) | None => ret tt end
      else ret tt.

  (** [final] says whether a final commit was passed; [publish] is called in
      either case, and ignored by worlds that pass none. *)
Definition closeWithPublish (final : bool) (l : Log) (w : W) : option log_error * Log * W :=
    if closed l then (None, l, w)
    else
      let '(r, l1, w1) :=
        if BlobStore (opts l) then
          match close_tiers final l w with
          | (Ok _, l', w') => (None, set_appendErr l' None, w')
          | (Err e, l', w') => (Some e, l', w')
          end
        else (None, l, w) in
      (r, set_closed l1 r, publish w1 r).

Definition Close (l : Log) (w : W) := closeWithPublish false l w.

Definition Forget (l : Log) (w : W) : option log_error * Log * W :=
    let release l w :=
      (None, mkLog (opts l) [] 0 (next l) (next l) (closed l) (terminalFirst l) (terminalPending l)
               (completionErr l) None (spillFirst l) (spillNext l) (spillBytes l) (spillIndex l) []
               (unavailableTier l) (appendErr l), w) in
    if (0 <? length (segments l))%nat && CommitRecord (opts l) then
      match commit_record w (mkLogRecord logRecordVersion (MaxChunk (opts l)) []) with
      | (Some e, w') => (Some (ErrCommit e), l, w')
      | (None, w') => release l w'
      end
    else release l w.
End operations.

(** ** Reading *)

(** The last index entry at or below [from]. *)
Fixpoint index_pos (index : list (Z * Z)) (from : Z) (acc : Z * Z) : Z * Z :=
  match index with
  | [] => acc
  | (seq, off) :: t => if seq <=? from then index_pos t from (off, seq) else acc
  end.

Section reading.
  Context {W : Type} {E : Env W}.

  (** [ReadAt] of [n] bytes; an empty read touches no disk. *)
Definition read_at (f : list byte) (off n : Z) : M W (result string (list byte)) := fun l w =>
    if n =? 0 then (Ok (Ok []), l, w)
    else match disk_read w with
    | (Some e, w') => (Ok (Err e), l, w')
    | (None, w') =>
        match file_read f off n with
        | Some b => (Ok (Ok b), l, w')
        | None => (Ok (Err "EOF"%string), l, w')
        end
    end.

  (** The record loop; returns the chunks with the final offset and sequence. *)
Fixpoint spill_loop (fuel : nat) (l : Log) (f : list byte) (from max off expected : Z)
      (out : list Chunk) : M W (list Chunk * Z * Z) :=
    match fuel with
    | O => ret (out, off, expected)
    | S fuel' =>
        if negb (off <? spillBytes l) then ret (out, off, expected)
        else
          let* r := read_at f off recordHeaderBytes in
          match r with
          | Err e => tier_fail TierDisk from (first l) e
          | Ok h =>
              let seq := hdr_seq h in
              let n := hdr_len h in
              if negb (seq =? expected) || (n <? 0) || (MaxChunk (opts l) <? n)
                 || (spillBytes l <? off + recordHeaderBytes + n)
              then tier_fail TierDisk from (first l) "corrupt spill record"
              else if from <=? seq then
                let* r := read_at f (off + recordHeaderBytes) n in
                match r with
                | Err e => tier_fail TierDisk from (first l) e
                | Ok data =>
                    let out' := out ++ [mkChunk seq (hdr_stream h) data] in
                    if (0 <? max) && (max <=? Z.of_nat (length out'))
                    then ret (out', off + (recordHeaderBytes + n), expected + 1)
                    else spill_loop fuel' l f from max (off + (recordHeaderBytes + n)) (expected + 1) out'
                end
              else spill_loop fuel' l f from max (off + (recordHeaderBytes + n)) (expected + 1) out
          end
    end.

Definition readSpillLocked (from max : Z) : M W (list Chunk) :=
    let* l := get in
    match spill l with
    | None => ret []
    | Some f =>
        if (from <? spillFirst l) || (spillNext l <=? from) then ret []
        else
          let '(off, expected) := index_pos (spillIndex l) from (0, spillFirst l) in
          let* r := spill_loop (S (Z.to_nat (spillBytes l))) l f from max off expected [] in
          let '(out, off, expected) := r in
          if (spillBytes l <=? off) && negb (expected =? spillNext l)
          then tier_fail TierDisk from (first l) "spill ended before its committed range"
          else ret out
    end.

  (** The record loop over an opened segment: [N] bytes are left of the limited
      reader, [r] of the blob. *)
Fixpoint segment_loop (fuel : nat) (from max maxChunk : Z) (N : Z) (r : list byte) (seq : Z)
      (out : list Chunk) : result string (list Chunk * Z * list byte) :=
    match fuel with
    | O => Ok (out, seq, r)
    | S fuel' =>
        if N <=? 0 then Ok (out, seq, r)
        else if N <? recordHeaderBytes then Err "truncated segment header"%string
        else if Z.of_nat (length r) <? recordHeaderBytes then Err "unexpected EOF"%string
        else
          let h := take 13 r in
          let r1 := drop 13 r in
          let N1 := N - recordHeaderBytes in
          let gotSeq := hdr_seq h in
          let n := hdr_len h in
          if negb (gotSeq =? seq) || (n <? 0) || (maxChunk <? n) || (N1 <? n)
          then Err "invalid segment record"%string
          else if Z.of_nat (length r1) <? n then Err "unexpected EOF"%string
          else
            let out' := if (from <=? gotSeq) && ((max <=? 0) || (Z.of_nat (length out) <? max))
                        then out ++ [mkChunk gotSeq (hdr_stream h) (take (Z.to_nat n) r1)] else out in
            segment_loop fuel' from max maxChunk (N1 - n) (drop (Z.to_nat n) r1) (seq + 1) out'
    end.

Definition readBlobSegment (store : bool) (segment : SegmentRef) (from max maxChunk : Z) (w : W)
    : result string (list Chunk) * W :=
    if negb store then (Err "BlobStore is not configured"%string, w)
    else match blob_open w (Artifact segment) with
    | (Err e, w') => (Err e, w')
    | (Ok (r, n), w') =>
        if negb (n =? Bytes segment) then (Err "segment size"%string, w')
        else match segment_loop (S (Z.to_nat n)) from max maxChunk n r (First segment) [] with
        | Err e => (Err e, w')
        | Ok (out, seq, rest) =>
            if negb (seq =? Next segment) then (Err "segment ended early"%string, w')
            else match rest with
            | [] => (Ok out, w')
            | _ => (Err "segment has trailing bytes"%string, w')
            end
        end
    end.

  (** The memory loop: chunks below [visible], up to [max] in all. *)
Fixpoint memory_loop (cs : list Chunk) (visible max : Z) (out : list Chunk) : list Chunk :=
    match cs with
    | [] => out
    | c :: t =>
        if (Seq c <? visible) && ((max <=? 0) || (Z.of_nat (length out) <? max))
        then memory_loop t visible max (out ++ [c]) else out
    end.

Inductive read_outcome :=
  | Done (r : result log_error (list Chunk))
  | Continue (from : Z) (out : list Chunk).

Definition last_seq (cs : list Chunk) : Z := match last cs with Some c => Seq c | None => 0 end.

  (** One turn of the loop of [Read], between two acquisitions of the lock. *)
Definition read_turn (max from : Z) (out : list Chunk) (l : Log) (w : W) : read_outcome * Log * W :=
    if negb ((max <=? 0) || (Z.of_nat (length out) <? max)) then (Done (Ok out), l, w)
    else
    let visibleNext := visibleNextLocked l in
    if visibleNext <=? from then (Done (Ok out), l, w)
    else
    let remaining := readLimit max (Z.of_nat (length out)) (visibleNext - from) in
    match segmentForLocked l from with
    | Some segment =>
        match readBlobSegment (BlobStore (opts l)) segment from remaining (MaxChunk (opts l)) w with
        | (Err e, w') =>
            (Done (Err (ErrTierUnavailable TierBlob from (Next segment) e)), set_tier l TierBlob, w')
        | (Ok [], w') =>
            (Done (Err (ErrTierUnavailable TierBlob from (Next segment)
               "segment omitted requested sequence")), l, w')
        | (Ok cs, w') => (Continue (last_seq cs + 1) (out ++ cs), l, w')
        end
    | None =>
        let oldest := oldestLocked l in
        if from <? oldest then
          let tier := if unavailableTier l =s "" then TierBlob else unavailableTier l in
          (Done (Err (ErrTierUnavailable tier from oldest "")), l, w)
        else if from <? first l then
          match readSpillLocked from remaining l w with
          | (Err e, l', w') => (Done (Err e), l', w')
          | (Ok [], l', w') =>
              (Done (Err (ErrTierUnavailable TierDisk from (first l') "spill range is not contiguous")),
               l', w')
          | (Ok cs, l', w') => (Continue (last_seq cs + 1) (out ++ cs), l', w')
          end
        else
          (Done (Ok (memory_loop (drop (Z.to_nat (from - first l)) (chunks l)) visibleNext max out)), l, w)
    end.

Fixpoint read_loop (fuel : nat) (max from : Z) (out : list Chunk) (l : Log) (w : W)
    : option (result log_error (list Chunk)) * Log * W :=
    match fuel with
    | O => (None, l, w)
    | S fuel' =>
        match read_turn max from out l w with
        | (Done r, l', w') => (Some r, l', w')
        | (Continue from' out', l', w') => read_loop fuel' max from' out' l' w'
        end
    end.

Definition Read (from max : Z) (l : Log) (w : W) : option (result log_error (list Chunk)) * Log * W :=
    read_loop (S (Z.to_nat (visibleNextLocked l - from))) max from [] l w.

  (** ** Operations as a sequence *)

Inductive op :=
  | OAppend (stream : byte) (data : list byte)
  | OTerminal (stream : byte) (data : list byte)
  | OClose (final : bool)
  | OForget
  | ORead (from max : Z).

Definition apply_op (lw : Log * W) (o : op) : Log * W :=
    let '(l, w) := lw in
    match o with
    | OAppend s d => let '(_, l', w') := Append s d l w in (l', w')
    | OTerminal s d => let '(_, l', w') := appendTerminal s d l w in (l', w')
    | OClose f => let '(_, l', w') := closeWithPublish f l w in (l', w')
    | OForget => let '(_, l', w') := Forget l w in (l', w')
    | ORead from max => let '(_, l', w') := Read from max l w in (l', w')
    end.

Definition run (lw : Log * W) (ops : list op) : Log * W := foldl apply_op lw ops.

  (** [Read] with other goroutines' operations between its turns. *)
Fixpoint read_interleaved (between : list (list op)) (max from : Z) (out : list Chunk) (l : Log) (w : W)
    : option (result log_error (list Chunk)) * Log * W :=
    match between with
    | [] => read_loop (S (Z.to_nat (visibleNextLocked l - from))) max from out l w
    | ops :: between' =>
        match read_turn max from out l w with
        | (Done r, l', w') => (Some r, l', w')
        | (Continue from' out', l', w') =>
            let '(l2, w2) := run (l', w') ops in read_interleaved between' max from' out' l2 w2
        end
    end.

  (** ** Cursors *)

Inductive cursor_result :=
  | Got (cs : list Chunk) | Failed (e : log_error) | EOF | Incomplete (e : log_error)
  | Retry | Wait.

  (** One turn of [Cursor.Next]: the result and the new position.  [Wait] blocks
      on the wake channel, after which the loop reads again. *)
Definition cursor_turn (seq max : Z) (l : Log) (w : W) : cursor_result * Z * Log * W :=
    match Read seq max l w with
    | (None, l', w') => (Retry, seq, l', w')
    | (Some (Err e), l', w') => (Failed e, seq, l', w')
    | (Some (Ok []), l', w') =>
        if seq <? visibleNextLocked l' then (Retry, seq, l', w')
        else if closed l' then
          match completionErr l' with
          | Some e => (Incomplete e, seq, l', w')
          | None => (EOF, seq, l', w')
          end
        else (Wait, seq, l', w')
    | (Some (Ok out), l', w') => (Got out, last_seq out + 1, l', w')
    end.

Definition Skip (seq to : Z) : Z := if seq <? to then to else seq.
End reading.

End SessionLog.
