(* ===== verification/SessionLogProofs.v ===== *)
(** * The session log is truthful, complete and loses nothing silently

    Theorems about [SessionLog]: what a reader is given is exactly what was
    appended, under any faults of the disk, the blob store and the durable
    record, and in any interleaving with other operations. *)

From Stdlib Require Import ZArith Lia Strings.Byte Strings.String.
From stdpp Require Import base list gmap strings.
From S2P Require Import Prelude GoStd SessionLog.
Import GoStd SessionLog.

#[local] Open Scope Z_scope.

Module SessionLogProofs.

(** ** Encoded ranges *)

Definition sub (h : list Chunk) (i j : Z) : list Chunk := slice h (Z.to_nat i) (Z.to_nat (j - i)).

Definition encode (cs : list Chunk) : list byte := concat (map encode_chunk cs).

Definition elen (cs : list Chunk) : Z := Z.of_nat (length (encode cs)).

Lemma encode_app a b : encode (a ++ b) = encode a ++ encode b.
Proof. unfold encode. by rewrite map_app, concat_app. Qed.

Lemma length_record_header c : length (record_header c) = 13%nat.
Proof. unfold record_header. by rewrite !length_app, !length_be_split. Qed.

Lemma length_encode_chunk c : length (encode_chunk c) = (13 + length (Data c))%nat.
Proof. unfold encode_chunk. by rewrite length_app, length_record_header. Qed.

Lemma elen_app a b : elen (a ++ b) = elen a + elen b.
Proof. unfold elen. rewrite encode_app, length_app. lia. Qed.

Lemma elen_single c : elen [c] = recordHeaderBytes + Z.of_nat (length (Data c)).
Proof. unfold elen, encode. cbn [map concat]. rewrite app_nil_r, length_encode_chunk.
  unfold recordHeaderBytes. lia. Qed.

Lemma elen_nonneg cs : 0 <= elen cs.
Proof. unfold elen. lia. Qed.

Lemma elen_zero cs : elen cs = 0 -> cs = [].
Proof.
  destruct cs as [|c cs]; [done|]. change (c :: cs) with ([c] ++ cs).
  rewrite elen_app, elen_single. pose proof (elen_nonneg cs). unfold recordHeaderBytes. lia.
Qed.

Lemma length_sub h i j : 0 <= i <= j -> j <= Z.of_nat (length h) -> length (sub h i j) = Z.to_nat (j - i).
Proof. intros. unfold sub. rewrite length_slice; lia. Qed.

Lemma sub_empty h i : sub h i i = [].
Proof. unfold sub, slice. by rewrite Z.sub_diag. Qed.

Lemma sub_split h i j k : 0 <= i <= j -> j <= k -> sub h i k = sub h i j ++ sub h j k.
Proof.
  intros. unfold sub, slice.
  pose proof (drop_take_slice h (Z.to_nat i) (Z.to_nat j) (Z.to_nat k) ltac:(lia)) as Hs.
  replace (Z.to_nat (k - i)) with (Z.to_nat k - Z.to_nat i)%nat by lia.
  replace (Z.to_nat (j - i)) with (Z.to_nat j - Z.to_nat i)%nat by lia.
  replace (Z.to_nat (k - j)) with (Z.to_nat k - Z.to_nat j)%nat by lia.
  by rewrite Hs.
Qed.

Lemma sub_single h i c : 0 <= i -> h !! Z.to_nat i = Some c -> sub h i (i + 1) = [c].
Proof.
  intros Hi Hc. unfold sub, slice. replace (Z.to_nat (i + 1 - i)) with 1%nat by lia.
  rewrite (drop_S _ _ _ Hc). done.
Qed.

Lemma sub_snoc h i j c : 0 <= i <= j -> h !! Z.to_nat j = Some c -> sub h i (j + 1) = sub h i j ++ [c].
Proof. intros Hi Hc. rewrite (sub_split h i j (j + 1)) by lia. by rewrite (sub_single h j c) by (lia || done). Qed.

Lemma sub_cons h i j c : 0 <= i < j -> h !! Z.to_nat i = Some c -> sub h i j = c :: sub h (i + 1) j.
Proof. intros Hi Hc. rewrite (sub_split h i (i + 1) j) by lia. by rewrite (sub_single h i c) by (lia || done). Qed.

Lemma sub_extend h x i j : 0 <= i <= j -> j <= Z.of_nat (length h) -> sub (h ++ x) i j = sub h i j.
Proof.
  intros. unfold sub, slice. rewrite drop_app_le by lia.
  rewrite take_app_le; [done|]. rewrite length_drop. lia.
Qed.

Lemma hist_lookup (h : list Chunk) i : 0 <= i < Z.of_nat (length h) -> exists c, h !! Z.to_nat i = Some c.
Proof. intros. apply lookup_lt_is_Some_2. lia. Qed.

(** ** Reading a record back *)

Definition chunk_fits (c : Chunk) : Prop :=
  0 <= Seq c < 2 ^ 64 /\ Z.of_nat (length (Data c)) < 2 ^ 32.

Lemma take_encode_header c rest : take 13 (encode_chunk c ++ rest) = record_header c.
Proof.
  unfold encode_chunk. rewrite <- app_assoc. rewrite take_app_length'; [done|].
  by rewrite length_record_header.
Qed.

Lemma drop_encode_header c rest : drop 13 (encode_chunk c ++ rest) = Data c ++ rest.
Proof.
  unfold encode_chunk. rewrite <- app_assoc. rewrite drop_app_length'; [done|].
  by rewrite length_record_header.
Qed.

Lemma hdr_seq_record c : chunk_fits c -> hdr_seq (record_header c) = Seq c.
Proof.
  intros [Hs _]. unfold hdr_seq, record_header.
  rewrite take_app_length' by by rewrite length_be_split. by apply be_combine_split.
Qed.

Lemma hdr_stream_record c : hdr_stream (record_header c) = Stream c.
Proof. reflexivity. Qed.

Lemma hdr_len_record c : chunk_fits c -> hdr_len (record_header c) = Z.of_nat (length (Data c)).
Proof.
  intros [_ Hd]. unfold hdr_len, record_header.
  rewrite app_assoc, drop_app_length' by by rewrite length_app, length_be_split.
  rewrite take_ge by by rewrite length_be_split. apply be_combine_split.
  change (256 ^ Z.of_nat 4) with (2 ^ 32). lia.
Qed.

Lemma mkChunk_eta c : mkChunk (Seq c) (Stream c) (Data c) = c.
Proof. by destruct c. Qed.

Lemma file_write_prefix f off p : 0 <= off <= Z.of_nat (length f) ->
  take (Z.to_nat off + length p) (file_write f off p) = take (Z.to_nat off) f ++ p.
Proof.
  intros Ho. unfold file_write. replace (Z.to_nat off - length f)%nat with 0%nat by lia.
  cbn [replicate]. rewrite app_nil_r, app_assoc.
  apply take_app_length'. rewrite length_app, length_take. lia.
Qed.

Lemma length_file_write f off p : 0 <= off <= Z.of_nat (length f) ->
  (Z.to_nat off + length p <= length (file_write f off p))%nat.
Proof.
  intros Ho. unfold file_write. replace (Z.to_nat off - length f)%nat with 0%nat by lia.
  cbn [replicate]. rewrite app_nil_r, !length_app, length_take. lia.
Qed.

(** ** Invariants *)

Fixpoint mem_bytes (cs : list Chunk) : Z :=
  match cs with [] => 0 | c :: t => Z.of_nat (length (Data c)) + mem_bytes t end.

Lemma mem_bytes_app a b : mem_bytes (a ++ b) = mem_bytes a + mem_bytes b.
Proof. induction a; cbn; lia. Qed.

Section invariants.
  Context {W : Type} {E : Env W} {L : EnvLaws E}.

Record seg_ok (h : list Chunk) (w : W) (s : SegmentRef) : Prop := {
    sg_range : 0 <= First s < Next s;
    sg_end : Next s <= Z.of_nat (length h);
    sg_stored : stored w (Artifact s) (encode (sub h (First s) (Next s)));
    sg_bytes : Bytes s = elen (sub h (First s) (Next s)) }.

  (** A rotation truncated the file and failed before it reset the range; the
      chunk that asked for it is still in memory and asks again. *)
Definition broken (l : Log) : Prop :=
    BlobStore (opts l) = false /\
    exists c, head (chunks l) = Some c /\
      SpillBytes (opts l) < spillBytes l + (recordHeaderBytes + Z.of_nat (length (Data c))).

Definition file_exact (h : list Chunk) (l : Log) (f : list byte) : Prop :=
    take (Z.to_nat (spillBytes l)) f = encode (sub h (spillFirst l) (spillNext l)).

Record spill_ok (h : list Chunk) (l : Log) (f : list byte) : Prop := {
    sp_range : 0 <= spillFirst l <= spillNext l;
    sp_end : spillNext l <= Z.of_nat (length h);
    sp_bytes : spillBytes l = elen (sub h (spillFirst l) (spillNext l));
    sp_file : (broken l /\ f = []) \/ file_exact h l f;
    sp_index : Forall (fun e => spillFirst l <= fst e < spillNext l
                 /\ snd e = elen (sub h (spillFirst l) (fst e))) (spillIndex l) }.

  (** [h] is everything appended so far. *)
Record inv (h : list Chunk) (l : Log) (w : W) : Prop := {
    i_max : 0 < MaxChunk (opts l) < 2 ^ 32;
    i_hist : forall i c, h !! i = Some c ->
      Seq c = Z.of_nat i /\ Z.of_nat (length (Data c)) <= MaxChunk (opts l);
    i_next : next l = Z.of_nat (length h);
    i_len : next l <= 2 ^ 64;
    i_first : 0 <= first l <= next l;
    i_chunks : chunks l = drop (Z.to_nat (first l)) h;
    i_bytes : bytes l = mem_bytes (chunks l);
    i_term : 0 <= terminalFirst l <= next l;
    i_segs : Forall (seg_ok h w) (segments l);
    i_spill : forall f, spill l = Some f -> spill_ok h l f }.
  (** The fields spilling and sealing leave alone. *)
Definition same_mem (l l' : Log) : Prop :=
    opts l' = opts l /\ chunks l' = chunks l /\ bytes l' = bytes l /\ first l' = first l /\
    next l' = next l /\ closed l' = closed l /\ terminalFirst l' = terminalFirst l /\
    terminalPending l' = terminalPending l /\ completionErr l' = completionErr l /\
    appendErr l' = appendErr l.

Lemma same_mem_refl l : same_mem l l.
  Proof. by unfold same_mem. Qed.

Lemma same_mem_trans a b c : same_mem a b -> same_mem b c -> same_mem a c.
  Proof. unfold same_mem. intuition congruence. Qed.

Definition stable (w w' : W) : Prop := forall id x, stored w id x -> stored w' id x.

Lemma stable_refl w : stable w w.
  Proof. by unfold stable. Qed.

Lemma stable_trans a b c : stable a b -> stable b c -> stable a c.
  Proof. unfold stable. eauto. Qed.

Lemma seg_ok_stable h w w' s : stable w w' -> seg_ok h w s -> seg_ok h w' s.
  Proof. intros Hw []. split; auto. Qed.

  (** The same log with another disk state. *)
Lemma inv_disk h l w l' w' : inv h l w -> same_mem l l' ->
    Forall (seg_ok h w') (segments l') -> (forall f, spill l' = Some f -> spill_ok h l' f) ->
    inv h l' w'.
  Proof.
    intros [] (Ho & Hc & Hb & Hf & Hn & _ & Ht & _) Hs Hsp.
    split; rewrite ?Ho, ?Hn, ?Hf, ?Hc, ?Hb, ?Ht; done.
  Qed.

Lemma inv_stable h l w w' : inv h l w -> stable w w' -> inv h l w'.
  Proof.
    intros Hi Hw. eapply inv_disk; [done|apply same_mem_refl| |apply Hi].
    eapply Forall_impl; [apply Hi|]. intros s. by apply seg_ok_stable.
  Qed.

Lemma spill_ok_fields h l l' f : spillFirst l' = spillFirst l -> spillNext l' = spillNext l ->
    spillBytes l' = spillBytes l -> spillIndex l' = spillIndex l ->
    opts l' = opts l -> head (chunks l') = head (chunks l) -> spill_ok h l f -> spill_ok h l' f.
  Proof.
    intros H1 H2 H3 H4 H5 H6 [? ? ? Hf ?]. unfold broken, file_exact in Hf.
    split; unfold broken, file_exact; rewrite ?H1, ?H2, ?H3, ?H4, ?H5, ?H6; done.
  Qed.

Lemma inv_set_tier h l w t : inv h l w -> inv h (set_tier l t) w.
  Proof.
    intros Hi. eapply inv_disk; [done|by unfold same_mem|apply Hi|].
    intros f Hf. apply (spill_ok_fields h l); [done..|]. by apply (i_spill _ _ _ Hi).
  Qed.

Lemma spill_ok_zero h l f : spillFirst l = 0 -> spillNext l = 0 -> spillBytes l = 0 ->
    spillIndex l = [] -> spill_ok h l f.
  Proof.
    intros H1 H2 H3 H4. unfold file_exact.
    split; unfold file_exact; rewrite ?H1, ?H2, ?H3, ?H4, ?sub_empty; try done; first [lia|by right].
  Qed.

Lemma inv_chunk_fits h l w i c : inv h l w -> h !! i = Some c -> chunk_fits c.
  Proof.
    intros Hi Hc. destruct (i_hist _ _ _ Hi _ _ Hc) as [Hs Hd].
    pose proof (i_max _ _ _ Hi). pose proof (i_len _ _ _ Hi). pose proof (i_next _ _ _ Hi).
    apply lookup_lt_Some in Hc. split; lia.
  Qed.

  (** Nothing changed on disk. *)
Definition kept (l l' : Log) : Prop :=
    segments l' = segments l /\ spillFirst l' = spillFirst l /\ spillNext l' = spillNext l /\
    spillBytes l' = spillBytes l.

  (** The spilled range became a segment. *)
Definition sealed (l l' : Log) : Prop :=
    spillBytes l <> 0 /\ spillBytes l' = 0 /\ spillFirst l' = 0 /\ spillNext l' = 0 /\
    spillIndex l' = [] /\
    (exists id, segments l' = segments l ++ [mkSegment (spillFirst l) (spillNext l) id (spillBytes l)]) /\
    (segments l = [] \/ last_next (segments l) = Some (spillFirst l)).

Definition open_same (l l' : Log) : Prop := is_open (spill l') = is_open (spill l).

Definition commit_stable (commit : W -> LogRecord -> option string * W) : Prop :=
    forall w r, stable w (snd (commit w r)).

Lemma sealed_inv h l w w1 l' w' f id : inv h l w -> BlobStore (opts l) = true -> spill l = Some f -> spillBytes l <> 0 ->
    stable w w1 -> stored w1 id (take (Z.to_nat (spillBytes l)) f) -> stable w1 w' ->
    same_mem l l' ->
    segments l' = segments l ++ [mkSegment (spillFirst l) (spillNext l) id (spillBytes l)] ->
    spillFirst l' = 0 -> spillNext l' = 0 -> spillBytes l' = 0 -> spillIndex l' = [] ->
    inv h l' w'.
  Proof.
    intros Hi Hblob Hf Hnz Hw1 Hst Hw2 Hm Hsegs H1 H2 H3 H4.
    pose proof (i_spill _ _ _ Hi _ Hf) as Hsp. eapply inv_disk; [done|done| |].
    - rewrite Hsegs. apply Forall_app. split.
      + eapply Forall_impl; [apply Hi|]. intros s. apply seg_ok_stable. by eapply stable_trans.
      + constructor; [|constructor]. destruct Hsp as [Hr He Hb [[[? _] _]|Hfl] Hix]; [congruence|]. unfold file_exact in Hfl.
        assert (spillFirst l <> spillNext l).
        { intros Heq. apply Hnz. by rewrite Hb, Heq, sub_empty. }
        split; cbn [First Next Artifact Bytes]; [lia|done|rewrite <- Hfl; by apply Hw2|done].
    - intros f' _. by apply spill_ok_zero.
  Qed.

Lemma seal_spec commit h l w : commit_stable commit -> inv h l w -> BlobStore (opts l) = true ->
    let '(r, l', w') := sealSpillWithCommitLocked commit l w in
    inv h l' w' /\ same_mem l l' /\ stable w w' /\ open_same l l' /\
    match r with
    | Ok _ => (spillBytes l = 0 /\ l' = l) \/ sealed l l'
    | Err _ => kept l l' \/ sealed l l'
    end.
  Proof.
    intros Hc Hi Hblob. unfold sealSpillWithCommitLocked, bind, get.
    destruct (spillBytes l =? 0) eqn:E0; bool_hyp.
    { cbn. split_and!; try done; [apply stable_refl|by left]. }
    assert (Htf : forall w' tier, stable w w' ->
      inv h (set_tier l tier) w' /\ same_mem l (set_tier l tier) /\ stable w w' /\
      open_same l (set_tier l tier) /\ (kept l (set_tier l tier) \/ sealed l (set_tier l tier))).
    { intros w' tier Hw. split_and!; try done; [|by left].
      apply inv_set_tier. by eapply inv_stable. }
    destruct (MaxSegments (opts l) <=? _).
    { unfold tier_fail. apply Htf, stable_refl. }
    unfold call_result at 1. destruct (spill l) as [f|] eqn:Ef.
    2: { unfold tier_fail. apply Htf, stable_refl. }
    pose proof (stable_put w (take (Z.to_nat (spillBytes l)) f)) as Hs1.
    destruct (blob_put w _) as [[[id n]|e] w1] eqn:Ep; cbn [snd] in Hs1.
    2: { unfold tier_fail. by apply Htf. }
    pose proof (put_stored _ _ _ _ _ Ep) as Hst.
    destruct (negb (n =? spillBytes l)). { unfold tier_fail. by apply Htf. }
    unfold call_result. pose proof (stable_head w1 id) as Hs2.
    destruct (blob_head w1 id) as [[hd|e] w2]; cbn [snd] in Hs2.
    2: { unfold tier_fail. apply Htf. by eapply stable_trans. }
    destruct (negb (hd =? spillBytes l)). { unfold tier_fail. apply Htf. by eapply stable_trans. }
    destruct (_ && _) eqn:Ech.
    { unfold fail. assert (stable w w2) by by eapply stable_trans.
      split_and!; try done; [by eapply inv_stable|by left]. }
    assert (Hchain : segments l = [] \/ last_next (segments l) = Some (spillFirst l)).
    { apply andb_false_iff in Ech as [Ech|Ech].
      - left. apply Nat.ltb_ge in Ech. destruct (segments l); [done|]. cbn in Ech. lia.
      - right. by apply negb_false_iff, bool_decide_eq_true in Ech. }
    unfold call at 1. pose proof (Hc w2 (recordLocked l (segments l ++
      [mkSegment (spillFirst l) (spillNext l) id (spillBytes l)]))) as Hs3.
    destruct (commit w2 _) as [[e|] w3]; cbn [snd] in Hs3.
    { unfold tier_fail. apply Htf. eapply stable_trans; [|done]. by eapply stable_trans. }
    unfold modify, truncate. pose proof (stable_truncate w3) as Hs4.
    destruct (disk_truncate w3) as [[e|] w4]; cbn [snd] in Hs4.
    { unfold tier_fail.
      assert (stable w1 w4) by (eapply stable_trans; [done|]; by eapply stable_trans).
      assert (stable w w4) by by eapply stable_trans.
      split_and!; try done; [|right; unfold sealed; cbn; split_and!; eauto].
      by eapply (sealed_inv h l w w1). }
    unfold call. pose proof (stable_seek w4) as Hs5.
    destruct (disk_seek w4) as [[e|] w5]; cbn [snd] in Hs5;
      (assert (stable w1 w5) by (do 3 (eapply stable_trans; [done|]); done));
      (assert (stable w w5) by by eapply stable_trans);
      unfold tier_fail; cbn [spill set_range set_segments];
      (split_and!; try done;
        [by eapply (sealed_inv h l w w1)|by unfold open_same; cbn; rewrite Ef
        |right; unfold sealed; cbn; split_and!; eauto]).
  Qed.

  (** ** Spilling *)

Definition dup (l : Log) (k : Z) : Prop :=
    BlobStore (opts l) = true /\ SegmentBytes (opts l) <= spillBytes l /\ spillNext l = k + 1.

  (** The spill ends at [k], or a full segment whose seal failed ends one
      record later. *)
Definition rel_at (l : Log) (k : Z) : Prop := spillBytes l = 0 \/ spillNext l = k \/ dup l k.

Definition covered (l : Log) (i : Z) : Prop :=
    Exists (fun s => First s <= i < Next s) (segments l) \/ spillFirst l <= i < spillNext l.

  (** Every sequence below [k] is in a segment or in the spill. *)
Definition cov_at (l : Log) (k : Z) : Prop := forall i, 0 <= i < k -> covered l i.

Fixpoint chain (a : Z) (segs : list SegmentRef) (e : Z) : Prop :=
    match segs with [] => a = e | s :: t => First s = a /\ chain (Next s) t e end.

  (** Segments from zero, then the spill, end exactly at [k]. *)
Definition tight_at (l : Log) (k : Z) : Prop :=
    exists e, chain 0 (segments l) e /\
      ((spillBytes l = 0 /\ e = k) \/ (spillBytes l <> 0 /\ spillFirst l = e /\ spillNext l = k)).

Definition writes_ok : Prop := forall (w : W) n, fst (disk_write w n) = None.

Lemma chain_app segs : forall a e s, chain a segs e -> First s = e -> chain a (segs ++ [s]) (Next s).
  Proof. induction segs as [|x t IH]; intros a e s; cbn; [intros -> ->; done|]. intros [Hx Ht] Hs. eauto. Qed.

Lemma kept_rel l l' k : same_mem l l' -> kept l l' -> rel_at l k -> rel_at l' k.
  Proof. intros (Ho & _) (_ & _ & Hn & Hb). unfold rel_at, dup. by rewrite Ho, Hn, Hb. Qed.

Lemma kept_cov l l' k : kept l l' -> cov_at l k -> cov_at l' k.
  Proof. intros (Hs & Hf & Hn & Hb). unfold cov_at, covered. by rewrite Hs, Hf, Hn. Qed.

Lemma sealed_cov l l' k : sealed l l' -> cov_at l k -> cov_at l' k.
  Proof.
    intros (_ & _ & H1 & H2 & _ & (id & Hs) & _) Hc i Hi. unfold covered. rewrite Hs. left.
    apply Exists_app. destruct (Hc i Hi) as [?|?]; [by left|right]. by constructor.
  Qed.

Lemma sealed_tight l l' k : sealed l l' -> tight_at l k -> tight_at l' k.
  Proof.
    intros (Hnz & Hz & H1 & H2 & _ & (id & Hs) & _) (e & Hch & [[? _]|(_ & He & Hk)]); [done|].
    exists k. split; [|by left]. rewrite Hs, <- Hk.
    by apply (chain_app _ 0 e (mkSegment (spillFirst l) (spillNext l) id (spillBytes l))).
  Qed.

  (** What an operation on the disk tiers gives when it succeeds and when it
      fails, spilling up to [k] before and [k'] after. *)
Definition disk_post (h : list Chunk) (l l' : Log) (w w' : W) (k k' : Z) (ok : bool) : Prop :=
    inv h l' w' /\ same_mem l l' /\ stable w w' /\ open_same l l' /\
    rel_at l' k' /\
    (BlobStore (opts l) = true -> (ok = true \/ writes_ok) -> cov_at l k -> cov_at l' k') /\
    (BlobStore (opts l) = true -> ok = true -> tight_at l k -> tight_at l' k').

Lemma commit_record_stable : commit_stable commit_record.
  Proof. intros w r id x. apply stable_commit. Qed.

Lemma final_commit_stable : commit_stable final_commit.
  Proof. intros w r id x. apply stable_final. Qed.

Definition exact_spill (h : list Chunk) (l : Log) : Prop :=
    forall f, spill l = Some f -> file_exact h l f.

Lemma reset_spec h l w c : inv h l w -> head (chunks l) = Some c -> BlobStore (opts l) = false ->
    SpillBytes (opts l) < spillBytes l + (recordHeaderBytes + Z.of_nat (length (Data c))) ->
    exists r l' w', resetSpillLocked l w = (Ok r, l', w') /\
    inv h l' w' /\ same_mem l l' /\ stable w w' /\ open_same l l' /\
    match r with
    | None => spillBytes l' = 0 /\ exact_spill h l'
    | Some _ => kept l l'
    end.
  Proof.
    intros Hi Hc Hb Hsz. unfold resetSpillLocked, bind, truncate.
    pose proof (stable_truncate w) as Hs1. destruct (disk_truncate w) as [[e|] w1]; cbn [snd] in Hs1.
    { exists (Some e), l, w1. split; [done|]. split_and!; try done. by eapply inv_stable. }
    set (l1 := set_spill l _).
    assert (Ho : open_same l l1) by (unfold open_same, l1; cbn; by destruct (spill l)).
    unfold call. pose proof (stable_seek w1) as Hs2. destruct (disk_seek w1) as [[e|] w2]; cbn [snd] in Hs2;
      assert (Hw : stable w w2) by by eapply stable_trans.
    - exists (Some e), l1, w2. split; [done|]. split_and!; try done.
      eapply inv_disk; [exact Hi|done| |].
      + eapply Forall_impl; [apply Hi|]. intros s. by apply seg_ok_stable.
      + intros f Hf. unfold l1 in Hf. cbn in Hf. destruct (spill l) as [f0|] eqn:Ef; [|done].
        injection Hf as <-. destruct (i_spill _ _ _ Hi _ Ef) as [? ? ? ? ?].
        split; try done. left. split; [|done]. split; [done|]. exists c. done.
    - eexists None, _, w2. split; [reflexivity|]. split_and!; try done.
      + eapply inv_disk; [exact Hi|done| |].
        * eapply Forall_impl; [apply Hi|]. intros s. by apply seg_ok_stable.
        * intros f _. by apply spill_ok_zero.
  Qed.

Lemma make_room_spec h l w c : inv h l w -> is_open (spill l) = true ->
    head (chunks l) = Some c -> rel_at l (Seq c) ->
    let '(r, l', w') := make_room c l w in
    disk_post h l l' w w' (Seq c) (Seq c) (is_ok r) /\
    (is_ok r = true -> exact_spill h l' /\ (spillBytes l' = 0 \/ spillNext l' = Seq c)).
  Proof.
    intros Hi Hop Hc Hrel. unfold make_room, bind, get.
    destruct (BlobStore (opts l)) eqn:Eb; cbn [andb].
    - destruct ((0 <? spillBytes l) && _) eqn:Efull.
      + unfold sealSpillLocked.
        pose proof (seal_spec commit_record h l w commit_record_stable Hi Eb) as H.
        destruct (sealSpillWithCommitLocked commit_record l w) as [[[u|e] l'] w'];
          destruct H as (Hi' & Hm & Hw & Ho & Hr).
        * assert (BlobStore (opts l') = true) as -> by (destruct Hm as [-> _]; done). cbn.
          bool_hyp. destruct Hr as [[? _]|Hs]; [lia|]. split.
          -- split_and!; try done; [by left; destruct Hs as (_ & ? & _)| |].
             ++ intros _ _. by apply sealed_cov.
             ++ intros _ _. by apply sealed_tight.
          -- intros _. split; [|left; by destruct Hs as (_ & ? & _)].
             intros f Hf. destruct (sp_file _ _ _ (i_spill _ _ _ Hi' _ Hf)) as [[[Hb _] _]|?]; [|done].
             destruct Hm as [Hm _]. congruence.
        * cbn. split; [|done]. split_and!; try done.
          -- destruct Hr as [Hk|Hs]; [by eapply kept_rel|left; by destruct Hs as (_ & ? & _)].
          -- intros _ _. destruct Hr as [Hk|Hs]; [by apply kept_cov|by apply sealed_cov].
      + unfold ret. rewrite Eb. cbn. split.
        * split_and!; try done; [apply stable_refl].
        * intros _. split.
          -- intros f Hf. destruct (sp_file _ _ _ (i_spill _ _ _ Hi _ Hf)) as [[[Hb _] _]|?]; [congruence|done].
          -- destruct Hrel as [?|[?|(_ & Hsz & _)]]; [by left|by right|].
             apply andb_false_iff in Efull as [Ez|Ez]; bool_hyp; [left|unfold recordHeaderBytes in *; lia].
             destruct (spill l) as [f|] eqn:Ef.
             ++ pose proof (sp_bytes _ _ _ (i_spill _ _ _ Hi _ Ef)) as Hz.
                pose proof (elen_nonneg (sub h (spillFirst l) (spillNext l))). lia.
             ++ done.
    - unfold ret. rewrite Eb. cbn [negb andb].
      destruct (SpillBytes (opts l) <? _) eqn:Esz; bool_hyp.
      + destruct (reset_spec h l w c Hi Hc Eb Esz) as (r & l' & w' & -> & Hi' & Hm & Hw & Ho & Hr).
        destruct r as [e|].
        * cbn. split; [|done]. split_and!; try done; [by eapply kept_rel|congruence].
        * destruct Hr as [Hz Hex]. cbn. split.
          -- split_and!; try done; [by apply inv_set_tier|by left|congruence|congruence].
          -- intros _. split; [done|by left].
      + cbn. split.
        * split_and!; try done; [apply stable_refl].
        * intros _. split.
          -- intros f Hf. destruct (sp_file _ _ _ (i_spill _ _ _ Hi _ Hf)) as [[[_ (c' & Hc' & Hsz)] _]|?]; [|done].
             assert (c' = c) as -> by congruence. lia.
          -- destruct Hrel as [?|[?|(? & _)]]; [by left|by right|congruence].
  Qed.

Lemma set_spill_id l f : spill l = Some f -> set_spill l (Some f) = l.
  Proof. destruct l; cbn. by intros ->. Qed.

Lemma file_write_nil f off : 0 <= off <= Z.of_nat (length f) -> file_write f off [] = f.
  Proof.
    intros. unfold file_write. replace (Z.to_nat off - length f)%nat with 0%nat by lia.
    cbn [replicate length]. rewrite app_nil_r, Nat.add_0_r, app_nil_l. apply take_drop.
  Qed.

Lemma writeAtFull_spec p off l w f : spill l = Some f -> 0 <= off <= Z.of_nat (length f) ->
    exists ok f' w', writeAtFull p off l w = (Ok ok, set_spill l (Some f'), w') /\ stable w w' /\
      if ok then f' = file_write f off p else ~ writes_ok.
  Proof.
    intros Hf Ho. unfold writeAtFull. destruct p as [|b p].
    { exists true, f, w. rewrite set_spill_id, file_write_nil by done.
      split_and!; [done|apply stable_refl|done]. }
    rewrite Hf. pose proof (stable_write w (Z.of_nat (length (b :: p)))) as Hs.
    destruct (disk_write w _) as [[k|] w'] eqn:Ew; cbn [snd] in Hs.
    - exists false, (file_write f off (take k (b :: p))), w'. split_and!; [done..|].
      intros Hok. specialize (Hok w (Z.of_nat (length (b :: p)))). by rewrite Ew in Hok.
    - exists true, (file_write f off (b :: p)), w'. done.
  Qed.

Lemma invalidate_spec h l w f : inv h l w ->
    exists l' w', invalidateSpillLocked (set_spill l (Some f)) w = (Ok tt, l', w') /\
      inv h l' w' /\ stable w w' /\ same_mem l l' /\ is_open (spill l') = true /\ spillBytes l' = 0.
  Proof.
    intros Hi. unfold invalidateSpillLocked, bind, truncate, modify.
    pose proof (stable_truncate w) as Hs. destruct (disk_truncate w) as [[e|] w']; cbn [snd] in Hs;
      (eexists _, w'; split; [reflexivity|]; split_and!; try done;
       eapply inv_disk; [exact Hi|done| |intros ? _; by apply spill_ok_zero];
       eapply Forall_impl; [apply Hi|]; intros s; by apply seg_ok_stable).
  Qed.

Lemma head_chunk h l w c : inv h l w -> head (chunks l) = Some c ->
    Seq c = first l /\ h !! Z.to_nat (first l) = Some c.
  Proof.
    intros Hi Hc. rewrite (i_chunks _ _ _ Hi) in Hc.
    assert (h !! Z.to_nat (first l) = Some c) as Hl.
    { destruct (drop _ h) as [|c' t] eqn:Ed; [done|]. injection Hc as ->.
      pose proof (lookup_drop h (Z.to_nat (first l)) 0) as H. rewrite Ed, Nat.add_0_r in H. done. }
    split; [|done]. destruct (i_hist _ _ _ Hi _ _ Hl) as [-> _].
    pose proof (i_first _ _ _ Hi). lia.
  Qed.

Lemma spill_file_long h l w f : inv h l w -> exact_spill h l -> spill l = Some f ->
    0 <= spillBytes l <= Z.of_nat (length f).
  Proof.
    intros Hi Hex Hf. pose proof (Hex _ Hf) as Hx. unfold file_exact in Hx.
    pose proof (sp_bytes _ _ _ (i_spill _ _ _ Hi _ Hf)) as Hb. unfold elen in Hb.
    apply (f_equal length) in Hx. rewrite length_take in Hx. lia.
  Qed.

  (** The state after a successful append to the spill. *)
Lemma written_inv h l w w' c f : inv h l w -> stable w w' -> head (chunks l) = Some c ->
    exact_spill h l -> spill l = Some f -> (spillBytes l = 0 \/ spillNext l = Seq c) ->
    let off := spillBytes l in
    let fst_ := if off =? 0 then Seq c else spillFirst l in
    let l' := set_range (set_spill l (Some (file_write (file_write f off (record_header c))
                (off + recordHeaderBytes) (Data c)))) fst_ (Seq c + 1)
                (off + (recordHeaderBytes + Z.of_nat (length (Data c))))
                (if (Seq c - fst_) mod indexStride =? 0 then spillIndex l ++ [(Seq c, off)]
                 else spillIndex l) in
    inv h l' w' /\ exact_spill h l'.
  Proof.
    intros Hi Hw Hc Hex Hf Hat off fst_ l'.
    destruct (head_chunk _ _ _ _ Hi Hc) as [Hseq Hlk].
    pose proof (i_spill _ _ _ Hi _ Hf) as [Hr He Hb _ Hix].
    pose proof (spill_file_long _ _ _ _ Hi Hex Hf) as Hlong.
    pose proof (Hex _ Hf) as Hx. unfold file_exact in Hx.
    pose proof (i_first _ _ _ Hi) as Hfirst. pose proof (lookup_lt_Some _ _ _ Hlk) as Hlt.
    assert (Hrange : 0 <= fst_ <= Seq c).
    { unfold fst_, off. destruct (Z.eqb_spec (spillBytes l) 0); lia. }
    assert (Hold : sub h fst_ (Seq c) = sub h (spillFirst l) (spillNext l)).
    { unfold fst_, off. destruct (Z.eqb_spec (spillBytes l) 0) as [Hz|Hnz].
      - rewrite sub_empty. symmetry. apply elen_zero. lia.
      - destruct Hat as [?| ->]; [lia|done]. }
    assert (Hsub : sub h fst_ (Seq c + 1) = sub h (spillFirst l) (spillNext l) ++ [c]).
    { rewrite (sub_snoc h fst_ (Seq c) c) by (rewrite ?Hseq in *; lia || done). by rewrite Hold. }
    assert (Hfile : forall f', spill l' = Some f' -> file_exact h l' f').
    { intros f' Hf'. unfold l' in Hf'. cbn [spill set_range set_spill] in Hf'. injection Hf' as <-. unfold file_exact.
      cbn [spillBytes spillFirst spillNext l' set_range set_spill].
      rewrite Hsub, encode_app, <- Hx. unfold encode at 1. cbn [map concat]. rewrite app_nil_r.
      pose proof (length_record_header c) as Hh. unfold recordHeaderBytes in *. fold off.
      assert (Hf1 : take (Z.to_nat (off + 13)) (file_write f off (record_header c))
                    = take (Z.to_nat off) f ++ record_header c).
      { rewrite <- file_write_prefix by done. f_equal. unfold off. lia. }
      pose proof (length_file_write f off (record_header c) Hlong) as Hl1.
      replace (Z.to_nat (off + (13 + Z.of_nat (length (Data c)))))
        with (Z.to_nat (off + 13) + length (Data c))%nat by (clear - Hlong; subst off; lia).
      rewrite file_write_prefix by (clear - Hlong Hl1 Hh; subst off; lia). rewrite Hf1. unfold encode_chunk.
      by rewrite app_assoc. }
    split; [|done]. eapply inv_disk; [exact Hi|done| |].
    - eapply Forall_impl; [apply Hi|]. intros s. by apply seg_ok_stable.
    - intros f' Hf'. split; try (right; by apply Hfile);
        cbn [spillBytes spillFirst spillNext spillIndex l' set_range set_spill].
      + lia.
      + rewrite Hseq. lia.
      + rewrite Hsub, elen_app, elen_single. unfold off. lia.
      + assert (Hnew : Forall (fun e => fst_ <= fst e < Seq c + 1 /\ snd e = elen (sub h fst_ (fst e)))
          (spillIndex l)).
        { destruct (Z.eq_dec (spillBytes l) 0) as [Hz|Hnz].
          - assert (spillFirst l = spillNext l) as Heq.
            { rewrite Hz in Hb. symmetry in Hb. apply elen_zero in Hb. apply (f_equal length) in Hb.
              rewrite length_sub in Hb by lia. cbn in Hb. lia. }
            eapply Forall_impl; [exact Hix|]. cbn. lia.
          - assert (fst_ = spillFirst l) as ->.
            { unfold fst_, off. by rewrite (proj2 (Z.eqb_neq _ _) Hnz). }
            eapply Forall_impl; [exact Hix|]. cbn. intros e [? ?]. split; [lia|done]. }
        destruct ((Seq c - fst_) mod indexStride =? 0); [|exact Hnew]. apply Forall_app. split; [exact Hnew|]. constructor; [|constructor].
        cbn [fst snd]. split; [lia|]. rewrite Hold. unfold off. lia.
  Qed.

Lemma write_record_spec h l w c : inv h l w -> is_open (spill l) = true ->
    head (chunks l) = Some c -> exact_spill h l -> (spillBytes l = 0 \/ spillNext l = Seq c) ->
    let '(r, l', w') := write_record c l w in
    inv h l' w' /\ same_mem l l' /\ stable w w' /\ open_same l l' /\
    match r with
    | Ok _ => exact_spill h l' /\
              segments l' = segments l /\ spillNext l' = Seq c + 1 /\ spillBytes l' <> 0 /\
              spillFirst l' = (if spillBytes l =? 0 then Seq c else spillFirst l)
    | Err _ => spillBytes l' = 0 /\ ~ writes_ok
    end.
  Proof.
    intros Hi Hop Hc Hex Hat. unfold write_record, bind, get.
    destruct (spill l) as [f|] eqn:Ef; [|done].
    pose proof (spill_file_long _ _ _ _ Hi Hex Ef) as Hlong.
    destruct (writeAtFull_spec (record_header c) (spillBytes l) l w f Ef Hlong)
      as (ok1 & f1 & w1 & -> & Hw1 & Hok1).
    destruct ok1; cbn [negb]; cycle 1.
    { destruct (invalidate_spec h l w1 f1 (inv_stable _ _ _ _ Hi Hw1))
        as (l' & w' & -> & Hi' & Hw' & Hm & Ho & Hz).
      unfold tier_fail. split_and!; try done; [by apply inv_set_tier|by eapply stable_trans|].
      unfold open_same. cbn. by rewrite Ef. }
    assert (Hlong1 : 0 <= spillBytes l + recordHeaderBytes <= Z.of_nat (length f1)).
    { subst f1. pose proof (length_file_write f (spillBytes l) (record_header c) Hlong) as H.
      rewrite length_record_header in H. unfold recordHeaderBytes. lia. }
    destruct (writeAtFull_spec (Data c) (spillBytes l + recordHeaderBytes) (set_spill l (Some f1)) w1 f1
      eq_refl Hlong1) as (ok2 & f2 & w2 & -> & Hw2 & Hok2).
    change (set_spill (set_spill l (Some f1)) (Some f2)) with (set_spill l (Some f2)).
    assert (Hw : stable w w2) by by eapply stable_trans.
    destruct ok2; cbn [negb]; cycle 1.
    { destruct (invalidate_spec h l w2 f2 (inv_stable _ _ _ _ Hi Hw))
        as (l' & w' & -> & Hi' & Hw' & Hm & Ho & Hz).
      unfold tier_fail. split_and!; try done; [by apply inv_set_tier|by eapply stable_trans|].
      unfold open_same. cbn. by rewrite Ef. }
    subst f2 f1. unfold modify.
    destruct (written_inv h l w w2 c f Hi Hw Hc Hex Ef Hat) as [Hi' Hx']. cbv zeta in Hi', Hx'.
    cbn [spillIndex spillFirst spillBytes set_spill].
    replace (if spillBytes l =? 0 then (if spillBytes l =? 0 then Seq c else spillFirst l) else spillFirst l)
      with (if spillBytes l =? 0 then Seq c else spillFirst l) by by destruct (spillBytes l =? 0).
    split_and!; try done; [unfold open_same; cbn; by rewrite Ef|].
    cbn. unfold recordHeaderBytes. lia.
  Qed.

Lemma blob_exact h l w : inv h l w -> BlobStore (opts l) = true -> exact_spill h l.
  Proof.
    intros Hi Hb f Hf. destruct (sp_file _ _ _ (i_spill _ _ _ Hi _ Hf)) as [[[? _] _]|?]; [congruence|done].
  Qed.

Lemma spillLocked_spec h l w c : inv h l w -> is_open (spill l) = true ->
    head (chunks l) = Some c -> rel_at l (Seq c) ->
    let '(r, l', w') := spillLocked c l w in
    disk_post h l l' w w' (Seq c) (if is_ok r then Seq c + 1 else Seq c) (is_ok r) /\
    (is_ok r = true -> exact_spill h l').
  Proof.
    intros Hi Hop Hc Hrel. unfold spillLocked, bind at 1.
    pose proof (make_room_spec h l w c Hi Hop Hc Hrel) as Hmr.
    destruct (make_room c l w) as [[[u|e] l1] w1]; cbn [is_ok] in *; [|by destruct Hmr].
    destruct Hmr as ((Hi1 & Hm1 & Hw1 & Ho1 & Hr1 & Hcov1 & Ht1) & Hex). destruct (Hex eq_refl) as [Hx1 Hat1].
    assert (Hop1 : is_open (spill l1) = true) by by rewrite Ho1.
    assert (Hc1 : head (chunks l1) = Some c) by (destruct Hm1 as (_ & -> & _); done).
    unfold bind at 1. pose proof (write_record_spec h l1 w1 c Hi1 Hop1 Hc1 Hx1 Hat1) as Hwr.
    destruct (write_record c l1 w1) as [[[u2|e] l2] w2]; destruct Hwr as (Hi2 & Hm2 & Hw2 & Ho2 & Hr2);
      assert (Hm : same_mem l l2) by (by eapply same_mem_trans);
      assert (Hw : stable w w2) by (by eapply stable_trans);
      assert (Ho : open_same l l2) by (unfold open_same in *; congruence); cbn [is_ok].
    2: { destruct Hr2 as [Hz Hbad]. split; [|done]. split_and!; try done; [by left|].
         intros _ [?|?]; done. }
    destruct Hr2 as (Hx2 & Hs2 & Hn2 & Hnz2 & Hf2).
    assert (Hcov2 : cov_at l1 (Seq c) -> cov_at l2 (Seq c + 1)).
    { intros Hcov i Hi0. unfold covered. rewrite Hs2, Hn2, Hf2.
      destruct (Z.eq_dec i (Seq c)) as [->|Hne].
      - right. destruct (Z.eqb_spec (spillBytes l1) 0); [lia|].
        pose proof (head_chunk _ _ _ _ Hi1 Hc1) as [Hsq _]. pose proof (i_first _ _ _ Hi1).
        destruct (spill l1) as [f|] eqn:Ef; [|done].
        pose proof (sp_range _ _ _ (i_spill _ _ _ Hi1 _ Ef)). destruct Hat1; lia.
      - destruct (Hcov i ltac:(lia)) as [?|Hin]; [by left|right].
        destruct (Z.eqb_spec (spillBytes l1) 0) as [Hz|Hnz].
        + destruct (spill l1) as [f|] eqn:Ef; [|done].
          pose proof (sp_range _ _ _ (i_spill _ _ _ Hi1 _ Ef)) as Hrg.
          pose proof (sp_end _ _ _ (i_spill _ _ _ Hi1 _ Ef)) as Hen.
          pose proof (sp_bytes _ _ _ (i_spill _ _ _ Hi1 _ Ef)) as Hb. rewrite Hz in Hb.
          symmetry in Hb. apply elen_zero, (f_equal length) in Hb. rewrite length_sub in Hb by lia.
          cbn in Hb. lia.
        + destruct Hat1; lia. }
    assert (Ht2 : tight_at l1 (Seq c) -> tight_at l2 (Seq c + 1)).
    { intros (e & Hch & He). exists e. rewrite Hs2. split; [done|]. right. split; [done|].
      rewrite Hf2, Hn2. destruct He as [[-> ->]|(Hnz & <- & Hk)].
      - by rewrite Z.eqb_refl.
      - by rewrite (proj2 (Z.eqb_neq _ _) Hnz). }
    unfold bind, get. destruct (BlobStore (opts l2)) eqn:Eb; cbn [andb].
    - destruct (SegmentBytes (opts l2) <=? spillBytes l2) eqn:Efull; bool_hyp.
      + unfold sealSpillLocked.
        pose proof (seal_spec commit_record h l2 w2 commit_record_stable Hi2 Eb) as H.
        destruct (sealSpillWithCommitLocked commit_record l2 w2) as [[[u3|e] l3] w3];
          destruct H as (Hi3 & Hm3 & Hw3 & Ho3 & Hr3);
          assert (Hm' : same_mem l l3) by (by eapply same_mem_trans);
          assert (Hw' : stable w w3) by (by eapply stable_trans);
          assert (Ho' : open_same l l3) by (unfold open_same in *; congruence); cbn [is_ok].
        * destruct Hr3 as [[? _]|Hs]; [done|]. split.
          -- split_and!; try done; [left; by destruct Hs as (_ & ? & _)| |].
             ++ intros Hbl _ Hcv. apply (sealed_cov _ _ _ Hs), Hcov2, Hcov1; auto.
             ++ intros Hbl _ Htg. apply (sealed_tight _ _ _ Hs), Ht2, Ht1; auto.
          -- intros _. eapply blob_exact; [done|]. destruct Hm3 as [-> _]. done.
        * split; [|done]. split_and!; try done.
          -- destruct Hr3 as [Hk|Hs]; [|left; by destruct Hs as (_ & ? & _)].
             right. right. destruct Hk as (_ & _ & Hkn & Hkb). destruct Hm3 as [Ho3' _].
             split_and!; rewrite ?Ho3', ?Hkn, ?Hkb; done.
          -- intros Hbl Hwo Hcv. assert (cov_at l3 (Seq c + 1)) as Hc3.
             { destruct Hr3 as [Hk|Hs]; [apply (kept_cov _ _ _ Hk)|apply (sealed_cov _ _ _ Hs)];
                 apply Hcov2, Hcov1; auto. }
             intros i Hi0. apply Hc3. lia.
      + unfold ret. cbn [is_ok]. split; [|done]. split_and!; try done; [by right; left| |].
        * intros Hbl _ Hcv. apply Hcov2, Hcov1; auto.
        * intros Hbl _ Htg. apply Ht2, Ht1; auto.
    - unfold ret. cbn [is_ok]. split; [|done]. split_and!; try done; [by right; left| |];
        intros Hbl; destruct Hm as [Hmo _]; congruence.
  Qed.

  (** ** Eviction *)

Definition ok_log (h : list Chunk) (l : Log) (w : W) : Prop :=
    inv h l w /\ (is_open (spill l) = true -> rel_at l (first l)).

  (** What eviction keeps: everything but the ring and the lower tiers. *)
Definition same_rest (l l' : Log) : Prop :=
    opts l' = opts l /\ next l' = next l /\ closed l' = closed l /\
    terminalFirst l' = terminalFirst l /\ terminalPending l' = terminalPending l /\
    completionErr l' = completionErr l /\ appendErr l' = appendErr l.

Record log_post (h : list Chunk) (l : Log) (w : W) (ok : bool) (l' : Log) (w' : W) : Prop := {
    lp_ok : ok_log h l' w';
    lp_rest : same_rest l l';
    lp_stable : stable w w';
    lp_open : open_same l l';
    lp_cov : BlobStore (opts l) = true -> is_open (spill l) = true -> (ok = true \/ writes_ok) ->
      cov_at l (first l) -> cov_at l' (first l');
    lp_tight : BlobStore (opts l) = true -> is_open (spill l) = true -> ok = true ->
      tight_at l (first l) -> tight_at l' (first l') }.

Lemma log_post_refl h l w ok : ok_log h l w -> log_post h l w ok l w.
  Proof. intros H. split; [done|by unfold same_rest|apply stable_refl|done|auto|auto]. Qed.

Lemma log_post_trans h l w l1 w1 ok l2 w2 :
    log_post h l w true l1 w1 -> log_post h l1 w1 ok l2 w2 -> log_post h l w ok l2 w2.
  Proof.
    intros [H1 R1 S1 O1 C1 T1] [H2 R2 S2 O2 C2 T2].
    assert (opts l1 = opts l) as Ho by apply R1. unfold open_same in *.
    split; [done| | | | |].
    - unfold same_rest in *. intuition congruence.
    - by eapply stable_trans.
    - unfold open_same. congruence.
    - intros Hb Hop Hok Hc. apply C2; [congruence|congruence|done|]. auto.
    - intros Hb Hop Hok Ht. apply T2; [congruence|congruence|done|]. auto.
  Qed.

Lemma evicted_inv h l w l1 w1 c : inv h l w -> head (chunks l) = Some c -> inv h l1 w1 ->
    same_mem l l1 -> exact_spill h l1 ->
    inv h (set_memory l1 (tail (chunks l1)) (bytes l1 - Z.of_nat (length (Data c))) (Seq c + 1) (next l1)) w1.
  Proof.
    intros Hi Hc Hi1 (Ho & Hch & Hb & Hf & Hn & _) Hex.
    destruct (head_chunk _ _ _ _ Hi Hc) as [Hs Hlk]. pose proof (lookup_lt_Some _ _ _ Hlk).
    pose proof (i_first _ _ _ Hi) as Hfr. destruct Hi1 as [? Hh ? ? ? Hck Hby ? Hsg Hsp].
    assert (Hcs : chunks l1 = c :: tail (chunks l1)).
    { rewrite Hch. destruct (chunks l); [done|]. by injection Hc as ->. }
    split; cbn [opts chunks bytes first next terminalFirst segments spill set_memory]; try done; try lia.
    - rewrite Hck, Hf, Hs. replace (Z.to_nat (first l + 1)) with (Datatypes.S (Z.to_nat (first l))) by lia.
      rewrite (drop_S _ _ _ Hlk). done.
    - rewrite Hby. rewrite Hcs at 1. cbn [mem_bytes]. lia.
    - intros f Hsf. destruct (Hsp f Hsf) as [? ? ? _ ?]. split; try done. right. by apply Hex.
  Qed.

Lemma exact_none h l : is_open (spill l) = false -> exact_spill h l.
  Proof. intros H f Hf. by rewrite Hf in H. Qed.

Lemma evict_one_spec h l w c : ok_log h l w -> head (chunks l) = Some c ->
    let '(r, l', w') := evict_one c l w in
    log_post h l w (is_ok r) l' w' /\ (is_ok r = true -> chunks l' = tail (chunks l)).
  Proof.
    intros [Hi Hrel] Hc. destruct (head_chunk _ _ _ _ Hi Hc) as [Hs _].
    unfold evict_one, bind, get. destruct (is_open (spill l)) eqn:Eop.
    - pose proof (spillLocked_spec h l w c Hi Eop Hc) as H. rewrite Hs in H.
      specialize (H (Hrel eq_refl)). destruct (spillLocked c l w) as [[[u|e] l1] w1];
        destruct H as [(Hi1 & Hm & Hw & Ho & Hr & Hcv & Htg) Hex]; cbn [is_ok] in *.
      + unfold modify. cbn [is_ok]. pose proof Hm as (Hmo & Hmc & Hmb & Hmf & Hmn & Hmr). split.
        * split; cbn [first set_memory].
          -- split; [apply (evicted_inv h l w); auto|]. intros _. rewrite Hs.
             unfold rel_at, dup in *. cbn. exact Hr.
          -- unfold same_rest. cbn. intuition.
          -- done.
          -- done.
          -- intros Hb _ Hok Hcov. rewrite Hs. by apply (Hcv Hb Hok Hcov).
          -- intros Hb _ Hok Ht. rewrite Hs. by apply (Htg Hb Hok Ht).
        * intros _. cbn. by rewrite Hmc.
      + destruct Hm as (Hmo & Hmc & Hmb & Hmf & Hmn & Hmr). split; [|done]. split.
        * split; [done|]. intros _. by rewrite Hmf.
        * unfold same_rest. intuition.
        * done.
        * done.
        * intros Hb _ Hok Hcov. rewrite Hmf. by apply (Hcv Hb Hok Hcov).
        * done.
    - unfold ret, modify. cbn [is_ok]. split; [|done]. split; cbn [first set_memory].
      + split; [|cbn; by rewrite Eop].
        eapply (evicted_inv h l w); try done. by apply exact_none.
      + by unfold same_rest.
      + apply stable_refl.
      + done.
      + intros _ Hx. congruence.
      + intros _ Hx. congruence.
  Qed.

Lemma evict_loop_spec fuel flush : forall h l w, ok_log h l w ->
    let '(r, l', w') := evict_loop fuel flush l w in
    log_post h l w (is_ok r) l' w' /\
    (is_ok r = true -> (length (chunks l) <= fuel)%nat -> must_evict flush l' = false).
  Proof.
    induction fuel as [|fuel IH]; intros h l w Hok; cbn [evict_loop].
    { unfold ret. split; [by apply log_post_refl|]. intros _ Hl. unfold must_evict.
      destruct (chunks l); [done|cbn in Hl; lia]. }
    unfold bind at 1, get. destruct (must_evict flush l) eqn:Ev; [|unfold ret; by split; [apply log_post_refl|]].
    destruct (chunks l) as [|c t] eqn:Ec.
    { unfold must_evict in Ev. by rewrite Ec in Ev. }
    unfold bind. pose proof (evict_one_spec h l w c Hok) as H. rewrite Ec in H. specialize (H eq_refl).
    destruct (evict_one c l w) as [[[u|e] l1] w1]; destruct H as [Hp Hch]; cbn [is_ok] in *.
    - pose proof (IH h l1 w1 (lp_ok _ _ _ _ _ _ Hp)) as H2.
      destruct (evict_loop fuel flush l1 w1) as [[r2 l2] w2]. destruct H2 as [Hp2 Hm2].
      split; [by eapply log_post_trans|]. intros Hr Hl. apply Hm2; [done|].
      rewrite (Hch eq_refl). cbn in *. lia.
    - split; [done|]. discriminate.
  Qed.

Lemma empty_first h l w : inv h l w -> chunks l = [] -> first l = next l.
  Proof.
    intros Hi Hc. pose proof (i_first _ _ _ Hi). pose proof (i_next _ _ _ Hi) as Hn.
    rewrite (i_chunks _ _ _ Hi) in Hc. apply (f_equal length) in Hc. rewrite length_drop in Hc.
    cbn in Hc. lia.
  Qed.

Lemma evictLocked_spec flush h l w : ok_log h l w ->
    let '(r, l', w') := evictLocked flush l w in
    log_post h l w (is_ok r) l' w' /\ (is_ok r = true -> must_evict flush l' = false).
  Proof.
    intros Hok. unfold evictLocked, bind.
    pose proof (evict_loop_spec (length (chunks l)) flush h l w Hok) as H.
    destruct (evict_loop _ flush l w) as [[[u|e] l1] w1]; destruct H as [Hp Hm]; cbn [is_ok] in *.
    - unfold modify. cbn [is_ok].
      assert ((match chunks l1 with [] => set_memory l1 [] (bytes l1) (next l1) (next l1) | _ :: _ => l1 end) = l1) as ->.
      { destruct (chunks l1) eqn:Ec; [|done].
        pose proof (empty_first h l1 w1 (proj1 (lp_ok _ _ _ _ _ _ Hp)) Ec) as Hf.
        destruct l1; cbn in *; by subst. }
      split; [done|]. intros _. by apply Hm.
    - split; [done|discriminate].
  Qed.

  (** ** Appending *)

Fixpoint number (n : Z) (stream : byte) (ps : list (list byte)) : list Chunk :=
    match ps with [] => [] | p :: t => mkChunk n stream p :: number (n + 1) stream t end.

Lemma number_lookup ps : forall n stream i c, number n stream ps !! i = Some c ->
    Seq c = n + Z.of_nat i /\ ps !! i = Some (Data c).
  Proof.
    induction ps as [|p ps IH]; intros n stream [|i] c; cbn; try done.
    - intros [= <-]. cbn. split; [lia|done].
    - intros [Hs Hd]%IH. split; [lia|done].
  Qed.

Lemma length_number ps : forall n stream, length (number n stream ps) = length ps.
  Proof. induction ps as [|p ps IH]; intros; cbn; auto. Qed.

Lemma append_pieces_eq stream ps : forall l, foldl (append_piece stream) l ps =
    set_memory l (chunks l ++ number (next l) stream ps) (bytes l + mem_bytes (number (next l) stream ps))
      (first l) (next l + Z.of_nat (length ps)).
  Proof.
    induction ps as [|p ps IH]; intros l; cbn [foldl number mem_bytes].
    { rewrite app_nil_r, !Z.add_0_r. by destruct l. }
    rewrite IH. unfold append_piece. cbn [chunks bytes first next set_memory].
    rewrite <- app_assoc. cbn [app length].
    change (set_memory (set_memory l ?a ?b ?c ?d) ?a' ?b' ?c' ?d') with (set_memory l a' b' c' d').
    cbn [Data]. f_equal; lia.
  Qed.

Lemma pieces_spec fuel maxChunk : forall data, (length data < fuel)%nat -> (0 < maxChunk)%nat ->
    concat (pieces fuel maxChunk data) = data /\
    Forall (fun p => (length p <= maxChunk)%nat) (pieces fuel maxChunk data) /\
    pieces fuel maxChunk data <> [].
  Proof.
    induction fuel as [|fuel IH]; intros data Hf Hm; [lia|]. cbn [pieces].
    set (n := Nat.min (length data) maxChunk).
    assert (Hn : length (take n data) = n) by (rewrite length_take; lia).
    destruct (drop n data) as [|b r] eqn:Er.
    - split_and!; [|constructor; [lia|constructor]|done]. cbn. rewrite app_nil_r.
      rewrite <- (take_drop n data) at 2. by rewrite Er, app_nil_r.
    - assert (length (drop n data) = length data - n)%nat as Hd by apply length_drop.
      rewrite Er in Hd. cbn in Hd.
      destruct (IH (b :: r)) as (Hc & Hall & _); [cbn; lia|done|].
      split_and!; [|constructor; [lia|done]|done]. cbn [concat]. rewrite Hc, <- Er. apply take_drop.
  Qed.

Definition piece_list (l : Log) (data : list byte) : list (list byte) :=
    pieces (Datatypes.S (length data)) (Z.to_nat (MaxChunk (opts l))) data.

Lemma inv_extend h l w ps stream : inv h l w ->
    Forall (fun p => Z.of_nat (length p) <= MaxChunk (opts l)) ps ->
    next l + Z.of_nat (length ps) <= 2 ^ 64 ->
    inv (h ++ number (next l) stream ps) (foldl (append_piece stream) l ps) w.
  Proof.
    intros Hi Hps Hlen. rewrite append_pieces_eq. set (x := number (next l) stream ps).
    destruct Hi as [Hmax Hh Hn Hl Hf Hc Hb Htf Hsg Hsp].
    assert (Hx : length x = length ps) by apply length_number.
    split; cbn [opts chunks bytes first next terminalFirst segments spill set_memory]; try done; try lia.
    - intros i c [Hi|[Hge Hi]]%lookup_app_Some; [by apply Hh|].
      apply number_lookup in Hi as [Hs Hd]. split; [lia|].
      rewrite Forall_forall in Hps. apply Hps. by eapply list_elem_of_lookup_2.
    - rewrite length_app. lia.
    - by rewrite Hc, drop_app_le by lia.
    - by rewrite mem_bytes_app, Hb.
    - eapply Forall_impl; [exact Hsg|]. intros s [? ? ? ?].
      split; [done|rewrite length_app; lia|rewrite sub_extend by lia; done|rewrite sub_extend by lia; done].
    - intros f Hsf. destruct (Hsp f Hsf) as [? ? ? Hfl Hix].
      split; unfold broken, file_exact in *;
        cbn [opts chunks spillFirst spillNext spillBytes spillIndex set_memory].
      + done.
      + rewrite length_app. lia.
      + by rewrite sub_extend by lia.
      + destruct Hfl as [[[? (c & Hhd & ?)] ?]|?].
        * left. split; [|done]. split; [done|]. exists c. split; [|done].
          by destruct (chunks l).
        * right. by rewrite sub_extend by lia.
      + eapply Forall_impl; [exact Hix|]. cbn. intros [sq off] [? ?]. cbn in *.
        by rewrite sub_extend by lia.
  Qed.

  (** Eviction never changes [next], whatever the state. *)
Definition keeps_next {A} (m : M W A) : Prop := forall l w, next (snd (fst (m l w))) = next l.

Lemma bind_next {A B} (m : M W A) (k : A -> M W B) :
    keeps_next m -> (forall a, keeps_next (k a)) -> keeps_next (bind m k).
  Proof.
    intros Hm Hk l w. unfold bind. specialize (Hm l w). destruct (m l w) as [[[a|e] l1] w1]; [|done].
    cbn in Hm. by rewrite Hk.
  Qed.

Ltac next_step :=
    first
      [ apply bind_next; [|intros]
      | match goal with |- keeps_next (match ?x with _ => _ end) => destruct x end
      | match goal with |- keeps_next (if ?x then _ else _) => destruct x end
      | progress cbv zeta
      | intros ? ?; reflexivity ].

Lemma truncate_next : keeps_next truncate.
  Proof. intros l w. unfold truncate. by destruct (disk_truncate w) as [[e|] w']. Qed.

Lemma call_next f : keeps_next (call f).
  Proof. intros l w. unfold call. by destruct (f w). Qed.

Lemma call_result_next {A} (f : W -> result string A * W) : keeps_next (call_result f).
  Proof. intros l w. unfold call_result. by destruct (f w). Qed.

Lemma write_next p off : keeps_next (writeAtFull p off).
  Proof.
    intros l w. unfold writeAtFull. destruct p, (spill l); try done.
    by destruct (disk_write w _) as [[k|] w'].
  Qed.

Lemma seal_next commit : keeps_next (sealSpillWithCommitLocked commit).
  Proof.
    unfold sealSpillWithCommitLocked.
    repeat first [apply truncate_next|apply call_next|apply call_result_next|next_step].
  Qed.

Lemma spillLocked_next c : keeps_next (spillLocked c).
  Proof.
    unfold spillLocked, make_room, write_record, resetSpillLocked, invalidateSpillLocked, sealSpillLocked.
    repeat first [apply truncate_next|apply call_next|apply write_next|apply seal_next|next_step].
  Qed.

Lemma evict_loop_next fuel flush : keeps_next (evict_loop fuel flush).
  Proof.
    induction fuel as [|fuel IH]; cbn [evict_loop]; [by intros l w|].
    unfold evict_one. repeat first [exact IH|apply spillLocked_next|next_step].
  Qed.

Lemma evict_next flush l w : next (snd (fst (evictLocked flush l w))) = next l.
  Proof.
    unfold evictLocked, bind. pose proof (evict_loop_next (length (chunks l)) flush l w) as H.
    destruct (evict_loop _ flush l w) as [[[u|e] l1] w1]; cbn in *; [|done].
    by destruct (chunks l1).
  Qed.

  (** ** Operations on the whole log *)

  (** What an operation appends: the numbered pieces of its data, unless the
      log refuses it. *)
Definition appended (l : Log) (o : op) : list Chunk :=
    match o with
    | OAppend s d =>
        if closed l || is_open (appendErr l) then [] else number (next l) s (piece_list l d)
    | OTerminal s d => if closed l then [] else number (next l) s (piece_list l d)
    | _ => []
    end.

Definition op_error (l : Log) (w : W) (o : op) : option log_error :=
    match o with
    | OAppend s d => snd (fst (fst (Append s d l w)))
    | OTerminal s d => snd (fst (fst (appendTerminal s d l w)))
    | OClose f => fst (fst (closeWithPublish f l w))
    | OForget => fst (fst (Forget l w))
    | ORead _ _ => None
    end.

Record op_post (h h' : list Chunk) (l : Log) (w : W) (ok : bool) (l' : Log) (w' : W) : Prop := {
    po_ok : ok_log h' l' w';
    po_opts : opts l' = opts l;
    po_stable : stable w w';
    po_open : open_same l l';
    po_cov : BlobStore (opts l) = true -> is_open (spill l) = true -> (ok = true \/ writes_ok) ->
      cov_at l (first l) -> cov_at l' (first l');
    po_tight : BlobStore (opts l) = true -> is_open (spill l) = true -> ok = true ->
      tight_at l (first l) -> tight_at l' (first l') }.

Lemma op_post_refl h l w ok : ok_log h l w -> op_post h h l w ok l w.
  Proof. intros H. split; [done|done|apply stable_refl|done|auto|auto]. Qed.

Lemma ok_log_fields h l l' w : ok_log h l w -> opts l' = opts l -> chunks l' = chunks l ->
    bytes l' = bytes l -> first l' = first l -> next l' = next l -> segments l' = segments l ->
    spill l' = spill l -> spillFirst l' = spillFirst l -> spillNext l' = spillNext l ->
    spillBytes l' = spillBytes l -> spillIndex l' = spillIndex l ->
    0 <= terminalFirst l' <= next l' -> ok_log h l' w.
  Proof.
    intros [[H1 H2 H3 H4 H5 H6 H7 H8 H0 H9] Hr] E1 E2 E3 E4 E5 E6 E7 E8 E9 E10 E11 E12. split.
    - split; [..|done| |]; rewrite ?E1, ?E2, ?E3, ?E4, ?E5, ?E6, ?E7; try done.
      intros f Hf. apply (spill_ok_fields h l); try done; [congruence|]. by apply H9.
    - unfold rel_at, dup in *. by rewrite ?E1, ?E4, ?E7, ?E9, ?E10.
  Qed.

Lemma piece_list_spec h l w data : inv h l w ->
    concat (piece_list l data) = data /\
    Forall (fun p => Z.of_nat (length p) <= MaxChunk (opts l)) (piece_list l data) /\
    piece_list l data <> [].
  Proof.
    intros Hi. pose proof (i_max _ _ _ Hi).
    destruct (pieces_spec (Datatypes.S (length data)) (Z.to_nat (MaxChunk (opts l))) data)
      as (Hc & Hf & Hne); [lia|lia|].
    split_and!; [done| |done]. eapply Forall_impl; [exact Hf|]. cbn. lia.
  Qed.

Lemma appendLocked_spec h l w stream data terminal : ok_log h l w ->
    let '(f, e, l', w') := appendLocked stream data terminal l w in
    let refused := closed l || (is_open (appendErr l) && negb terminal) in
    let x := if refused then [] else number (next l) stream (piece_list l data) in
    next l' = next l + Z.of_nat (length x) /\
    (next l' <= 2 ^ 64 -> op_post h (h ++ x) l w (negb (is_open e)) l' w' /\
      (refused = false -> e = None -> must_evict false l' = false)).
  Proof.
    intros Hok. unfold appendLocked. destruct (closed l) eqn:Ecl.
    { cbn. rewrite app_nil_r. split; [lia|]. intros _. split; [|done]. by apply op_post_refl. }
    cbn [orb]. destruct (is_open (appendErr l) && negb terminal) eqn:Eae.
    { cbn. rewrite app_nil_r. split; [lia|]. intros _. split; [|done]. by apply op_post_refl. }
    destruct (piece_list_spec h l w data (proj1 Hok)) as (Hconcat & Hfit & Hne).
    change (pieces (Datatypes.S (length data)) (Z.to_nat (MaxChunk (opts l))) data) with (piece_list l data).
    set (ps := piece_list l data) in *. set (x := number (next l) stream ps).
    set (l1 := foldl (append_piece stream) l ps).
    assert (Hl1 : l1 = set_memory l (chunks l ++ x) (bytes l + mem_bytes x) (first l)
                         (next l + Z.of_nat (length ps))) by apply append_pieces_eq.
    assert (Hx : length x = length ps) by apply length_number. rewrite Hx.
    destruct (decide (next l + Z.of_nat (length ps) <= 2 ^ 64)) as [Hlen|Hlen].
    - assert (Hok1 : ok_log (h ++ x) l1 w).
      { split; [by apply inv_extend; [apply Hok|..]|]. rewrite Hl1. cbn. apply Hok. }
      pose proof (evictLocked_spec false (h ++ x) l1 w Hok1) as Hev.
      destruct (evictLocked false l1 w) as [[[u|e] l2] w2]; destruct Hev as [[Ho Hr Hs Hop Hcv Htg] Hme];
        assert (next l1 = next l + Z.of_nat (length ps)) as Hn1 by by rewrite Hl1;
        cbn [is_ok is_open negb next set_appendErr] in *.
      + split; [destruct Hr as (_ & -> & _); done|]. intros _. split; [|by auto].
        rewrite Hl1 in Hr, Hop, Hcv, Htg. cbn in Hop, Hcv, Htg.
        split; try done; [by destruct Hr as (-> & _)].
      + split; [exact (eq_trans (proj1 (proj2 Hr)) Hn1)|]. intros _. split; [|done].
        rewrite Hl1 in Hr, Hop, Hcv, Htg. cbn in Hop, Hcv, Htg.
        split; try done; [eapply ok_log_fields; try done; apply Ho|exact (proj1 Hr)].
    - (* the sequence space would overflow: only the count is claimed *)
      assert (Hnx : forall r l2 w2, evictLocked false l1 w = (r, l2, w2) ->
                next l2 = next l + Z.of_nat (length ps)).
      { intros r l2 w2 Hev. pose proof (evict_next false l1 w) as H. rewrite Hev in H.
        cbn [fst snd] in H. rewrite H, Hl1. done. }
      destruct (evictLocked false l1 w) as [[[u|e] l2] w2] eqn:Eev; cbn [next set_appendErr];
        (split; [exact (Hnx _ _ _ eq_refl)|]); pose proof (Hnx _ _ _ eq_refl); lia.
  Qed.

Lemma seal_log_post commit h l w : commit_stable commit -> ok_log h l w -> BlobStore (opts l) = true ->
    let '(r, l', w') := sealSpillWithCommitLocked commit l w in
    log_post h l w (is_ok r) l' w' /\ first l' = first l /\ chunks l' = chunks l.
  Proof.
    intros Hc [Hi Hrel] Hb. pose proof (seal_spec commit h l w Hc Hi Hb) as H.
    destruct (sealSpillWithCommitLocked commit l w) as [[r l'] w'].
    destruct H as (Hi' & Hm & Hw & Ho & Hr). pose proof Hm as (Hmo & Hmc & Hmb & Hmf & Hmn & Hmr).
    split; [|done]. split; try done.
    - split; [done|]. intros Hop. rewrite Hmf. unfold open_same in Ho. rewrite Ho in Hop.
      specialize (Hrel Hop). destruct r as [u|e].
      + destruct Hr as [[_ ->]|Hs]; [done|left; by destruct Hs as (_ & ? & _)].
      + destruct Hr as [Hk|Hs]; [by eapply kept_rel|left; by destruct Hs as (_ & ? & _)].
    - intros _ _ _. rewrite Hmf. destruct r as [u|e].
      + destruct Hr as [[_ ->]|Hs]; [done|by apply sealed_cov].
      + destruct Hr as [Hk|Hs]; [by apply kept_cov|by apply sealed_cov].
    - intros _ _ Hok. rewrite Hmf. destruct r as [u|e]; [|done].
      destruct Hr as [[_ ->]|Hs]; [done|by apply sealed_tight].
  Qed.

Lemma ok_log_stable h l w w' : ok_log h l w -> stable w w' -> ok_log h l w'.
  Proof. intros [Hi Hr] Hw. split; [by eapply inv_stable|done]. Qed.

Lemma close_tiers_spec final h l w : ok_log h l w -> BlobStore (opts l) = true ->
    let '(r, l', w') := close_tiers final l w in log_post h l w (is_ok r) l' w'.
  Proof.
    intros Hok Hb. unfold close_tiers, bind at 1. pose proof (evictLocked_spec true h l w Hok) as H.
    destruct (evictLocked true l w) as [[[u|e] l1] w1]; destruct H as [Hp _]; cbn [is_ok] in *; [|done].
    assert (Hb1 : BlobStore (opts l1) = true) by (destruct (lp_rest _ _ _ _ _ _ Hp) as (-> & _); done).
    unfold bind at 1, get. destruct (final && (0 <? spillBytes l1)).
    { pose proof (seal_log_post final_commit h l1 w1 final_commit_stable (lp_ok _ _ _ _ _ _ Hp) Hb1) as H.
      destruct (sealSpillWithCommitLocked final_commit l1 w1) as [[r l2] w2]. destruct H as [H _].
      by eapply log_post_trans. }
    unfold bind at 1, sealSpillLocked.
    pose proof (seal_log_post commit_record h l1 w1 commit_record_stable (lp_ok _ _ _ _ _ _ Hp) Hb1) as H.
    destruct (sealSpillWithCommitLocked commit_record l1 w1) as [[[u2|e] l2] w2]; destruct H as [H _];
      cbn [is_ok] in *; [|by eapply log_post_trans].
    assert (Hp2 : log_post h l w true l2 w2) by by eapply log_post_trans.
    destruct final; [|done]. unfold bind, call.
    pose proof (final_commit_stable w2 (recordLocked l2 (segments l2))) as Hs.
    destruct (final_commit w2 _) as [[e|] w3]; cbn [snd is_ok fail ret] in *;
      (eapply log_post_trans; [exact Hp2|]); (split; try done; eapply ok_log_stable; [apply Hp2|done]).
  Qed.

Lemma close_spec final h l w : ok_log h l w ->
    let '(e, l', w') := closeWithPublish final l w in
    op_post h h l w (negb (is_open e)) l' w' /\ next l' = next l.
  Proof.
    intros Hok. unfold closeWithPublish. destruct (closed l); [by split; [apply op_post_refl|]|].
    assert (Hpub : forall e l1 w1 ok, log_post h l w ok l1 w1 ->
      op_post h h l w ok (set_closed l1 e) (publish w1 e) /\ next (set_closed l1 e) = next l).
    { intros e l1 w1 ok [Ho Hr Hs Hop Hcv Htg].
      assert (Hps : stable w1 (publish w1 e)) by (intros ? ?; apply stable_publish).
      split; [|exact (proj1 (proj2 Hr))]. split; try done; [|exact (proj1 Hr)|by eapply stable_trans].
      eapply ok_log_stable; [|exact Hps]. eapply ok_log_fields; try done. apply Ho. }
    destruct (BlobStore (opts l)) eqn:Eb; [|by apply Hpub, log_post_refl].
    pose proof (close_tiers_spec final h l w Hok Eb) as H.
    destruct (close_tiers final l w) as [[[u|e] l1] w1]; cbn [is_ok is_open negb] in *; [|by apply Hpub].
    destruct (Hpub None l1 w1 true H) as [[Hk ? ? ? ? ?] Hn]. split; [|exact Hn].
    split; try done. eapply ok_log_fields; try done. apply Hk.
  Qed.

Lemma forget_spec h l w : ok_log h l w ->
    let '(e, l', w') := Forget l w in
    ok_log h l' w' /\ opts l' = opts l /\ stable w w' /\ next l' = next l.
  Proof.
    intros Hok. unfold Forget.
    assert (Hrel : forall w', stable w w' -> ok_log h (mkLog (opts l) [] 0 (next l) (next l) (closed l)
      (terminalFirst l) (terminalPending l) (completionErr l) None (spillFirst l) (spillNext l)
      (spillBytes l) (spillIndex l) [] (unavailableTier l) (appendErr l)) w').
    { intros w' _. destruct Hok as [[? ? Hn ? ? ? ? ? ? ?] _]. split; [|done].
      split; cbn [opts chunks bytes first next terminalFirst segments spill]; try done; try lia.
      rewrite Hn, Nat2Z.id. symmetry. by apply drop_ge. }
    destruct (_ && _).
    - pose proof (commit_record_stable w (mkLogRecord logRecordVersion (MaxChunk (opts l)) [])) as Hs.
      destruct (commit_record w _) as [[e|] w']; cbn [snd] in Hs.
      + split_and!; try done. by eapply ok_log_stable.
      + split_and!; try done. by apply Hrel.
    - split_and!; try done; [by apply Hrel, stable_refl|apply stable_refl].
  Qed.

  (** ** Reading the spill *)

Definition reads_ok : Prop := forall w : W, fst (disk_read w) = None.

  (** The record at the offset of sequence [k]. *)
Lemma record_at h l w f k : inv h l w -> spill l = Some f -> file_exact h l f ->
    spillFirst l <= k < spillNext l ->
    let off := elen (sub h (spillFirst l) k) in
    exists c, h !! Z.to_nat k = Some c /\
      off + elen [c] = elen (sub h (spillFirst l) (k + 1)) /\ off + elen [c] <= spillBytes l /\
      file_read f off recordHeaderBytes = Some (record_header c) /\
      file_read f (off + recordHeaderBytes) (Z.of_nat (length (Data c))) = Some (Data c).
  Proof.
    intros Hi Hf Hex Hk off. pose proof (i_spill _ _ _ Hi _ Hf) as [Hr He Hb _ _].
    destruct (hist_lookup h k) as [c Hc]; [lia|]. exists c. split; [done|].
    assert (Hsnoc : off + elen [c] = elen (sub h (spillFirst l) (k + 1))).
    { rewrite (sub_snoc h _ k c) by (lia || done). by rewrite elen_app. }
    set (rest := encode (sub h (k + 1) (spillNext l)) ++ drop (Z.to_nat (spillBytes l)) f).
    assert (Hfile : f = encode (sub h (spillFirst l) k) ++ encode_chunk c ++ rest).
    { rewrite <- (take_drop (Z.to_nat (spillBytes l)) f) at 1. unfold file_exact in Hex. rewrite Hex.
      rewrite (sub_split h _ k (spillNext l)) by lia. rewrite (sub_cons h k _ c) by (lia || done).
      change (c :: sub h (k + 1) (spillNext l)) with ([c] ++ sub h (k + 1) (spillNext l)).
      rewrite !encode_app. unfold encode at 2. cbn [map concat].
      unfold rest. by rewrite app_nil_r, <- !app_assoc. }
    assert (Hbound : off + elen [c] <= spillBytes l).
    { rewrite Hsnoc, Hb. rewrite (sub_split h (spillFirst l) (k + 1) (spillNext l)) by lia.
      rewrite elen_app. pose proof (elen_nonneg (sub h (k + 1) (spillNext l))). lia. }
    assert (Hdrop : drop (Z.to_nat off) f = encode_chunk c ++ rest).
    { rewrite Hfile. apply drop_app_length'. unfold off, elen. lia. }
    assert (Hlen : Z.of_nat (length f) = off + elen [c] + Z.of_nat (length rest)).
    { rewrite Hfile at 1. rewrite !length_app. rewrite elen_single.
      rewrite length_encode_chunk. unfold off, elen, recordHeaderBytes. lia. }
    assert (0 <= off) by apply elen_nonneg. rewrite elen_single in *. unfold recordHeaderBytes in *.
    split_and!; [done|done| |]; unfold file_read; zb.
    - by rewrite Hdrop, take_encode_header.
    - replace (Z.to_nat (off + 13)) with (Z.to_nat off + 13)%nat by lia.
      rewrite <- drop_drop, Hdrop, drop_encode_header, Nat2Z.id.
      by rewrite take_app_length.
  Qed.

Definition tier_only (l l' : Log) : Prop := l' = l \/ exists t, l' = set_tier l t.

Lemma read_at_cases f off n l w : exists r w', read_at f off n l w = (Ok r, l, w') /\ stable w w' /\
    match r with
    | Ok b => n = 0 /\ b = [] \/ file_read f off n = Some b
    | Err _ => n <> 0 /\ (reads_ok -> file_read f off n = None)
    end.
  Proof.
    unfold read_at. destruct (Z.eqb_spec n 0) as [Hz|Hnz].
    { exists (Ok []), w. split_and!; [done|apply stable_refl|by left]. }
    pose proof (stable_read w) as Hs. destruct (disk_read w) as [[e|] w'] eqn:Er; cbn [snd] in Hs.
    - exists (Err e), w'. split_and!; try done. intros Hok. specialize (Hok w). by rewrite Er in Hok.
    - destruct (file_read f off n) as [b|] eqn:Ef.
      + exists (Ok b), w'. split_and!; try done. by right.
      + exists (Err "EOF"%string), w'. done.
  Qed.

  (** The chunks read so far: from [from] up to the record position. *)
Definition read_so_far (h : list Chunk) (from k : Z) : list Chunk := sub h from (Z.max from k).

Lemma spill_loop_spec fuel : forall h l w f from max k, inv h l w -> spill l = Some f ->
    (file_exact h l f \/ f = []) -> 0 <= from ->
    spillFirst l <= k <= spillNext l -> from < spillNext l ->
    (0 < max -> Z.of_nat (length (read_so_far h from k)) < max) ->
    (Z.to_nat (spillBytes l - elen (sub h (spillFirst l) k)) < fuel)%nat ->
    let '(r, l', w') := spill_loop fuel l f from max (elen (sub h (spillFirst l) k)) k
                          (read_so_far h from k) l w in
    tier_only l l' /\ stable w w' /\
    match r with
    | Ok (out, off, k') =>
        l' = l /\ k <= k' <= spillNext l /\ out = read_so_far h from k' /\
        off = elen (sub h (spillFirst l) k') /\ (0 < max -> Z.of_nat (length out) <= max) /\
        ((k' = spillNext l /\ spillBytes l <= off) \/ (0 < max /\ max <= Z.of_nat (length out)))
    | Err _ => ~ (reads_ok /\ file_exact h l f)
    end.
  Proof.
    induction fuel as [|fuel IH]; intros h l w f from max k Hi Hf Hfx Hfrom Hk Hlt Hmax Hfuel; [lia|].
    cbn [spill_loop]. pose proof (i_spill _ _ _ Hi _ Hf) as [Hr He Hb _ _].
    set (off := elen (sub h (spillFirst l) k)) in *.
    destruct (off <? spillBytes l) eqn:Eoff; bool_hyp; cbn [negb]; cycle 1.
    { assert (k = spillNext l) as ->.
      { destruct (Z.eq_dec k (spillNext l)) as [|Hne]; [done|]. exfalso.
        rewrite Hb, (sub_split h (spillFirst l) k (spillNext l)), elen_app in Eoff by lia.
        fold off in Eoff. pose proof (elen_nonneg (sub h k (spillNext l))).
        assert (elen (sub h k (spillNext l)) = 0) as Hz by lia. apply elen_zero, (f_equal length) in Hz.
        rewrite length_sub in Hz by lia. cbn in Hz. lia. }
      unfold ret. split_and!; first [done|lia|by left|apply stable_refl]. }
    assert (Hk' : k < spillNext l).
    { destruct (Z.eq_dec k (spillNext l)) as [->|]; [|lia]. unfold off in Eoff. lia. }
    unfold bind at 1. destruct (read_at_cases f off recordHeaderBytes l w) as (r & w1 & -> & Hw1 & Hr1).
    destruct Hfx as [Hex| ->]; cycle 1.
    { assert (file_read [] off recordHeaderBytes = None) as Hnone.
      { unfold file_read. pose proof (elen_nonneg (sub h (spillFirst l) k)). fold off in H.
        unfold recordHeaderBytes. cbn [length]. zb. done. }
      destruct r as [b|e].
      - destruct Hr1 as [[? _]|?]; [done|congruence].
      - unfold tier_fail. split_and!; [right; by eexists|done|].
        intros [_ Hex]. unfold file_exact in Hex. rewrite take_nil in Hex.
        symmetry in Hex. unfold elen in Hb. rewrite Hex in Hb. cbn in Hb.
        pose proof (elen_nonneg (sub h (spillFirst l) k)). fold off in H. lia. }
    destruct (record_at h l w f k Hi Hf Hex ltac:(lia)) as (c & Hc & Hsn & Hbd & Hrh & Hrd). fold off in Hsn, Hbd, Hrh, Hrd.
    destruct r as [b|e].
    2: { unfold tier_fail. split_and!; [right; by eexists|done|]. intros [Hok _].
         destruct Hr1 as [_ Hr1]. specialize (Hr1 Hok). congruence. }
    destruct Hr1 as [[? _]|Hr1]; [done|]. rewrite Hrh in Hr1. injection Hr1 as <-.
    pose proof (inv_chunk_fits _ _ _ _ _ Hi Hc) as Hfits.
    destruct (i_hist _ _ _ Hi _ _ Hc) as [Hseq Hdata].
    rewrite hdr_seq_record, hdr_len_record, hdr_stream_record by done.
    rewrite elen_single in Hsn, Hbd.
    assert (Seq c = k) as -> by (rewrite Hseq; lia).
    replace (negb (k =? k) || _ || _ || _) with false by
      (symmetry; rewrite Z.eqb_refl; cbn [negb orb]; rewrite !orb_false_iff, !Z.ltb_ge; lia).
    assert (Hfuel' : (Z.to_nat (spillBytes l - elen (sub h (spillFirst l) (k + 1))) < fuel)%nat)
      by (unfold recordHeaderBytes in *; lia).
    rewrite Hsn.
    destruct (from <=? k) eqn:Efk; bool_hyp.
    - unfold bind. destruct (read_at_cases f (off + recordHeaderBytes) (Z.of_nat (length (Data c))) l w1)
        as (r2 & w2 & -> & Hw2 & Hr2).
      assert (Hw : stable w w2) by by eapply stable_trans.
      destruct r2 as [b2|e].
      2: { unfold tier_fail. split_and!; [right; by eexists|done|]. intros [Hok _].
           destruct Hr2 as [_ Hr2]. specialize (Hr2 Hok). congruence. }
      assert (b2 = Data c) as ->.
      { destruct Hr2 as [[Hz ->]|Hr2]; [|congruence]. by destruct (Data c). }
      assert (Hout : read_so_far h from k ++ [mkChunk k (Stream c) (Data c)] = read_so_far h from (k + 1)).
      { unfold read_so_far. rewrite !Z.max_r by lia. rewrite (sub_snoc h from k c) by (lia || done).
        f_equal. f_equal. destruct c; cbn in *. f_equal. lia. }
      rewrite Hout. destruct (_ && _) eqn:Estop.
      + bool_hyp. assert (Z.of_nat (length (read_so_far h from (k + 1))) <= max).
        { rewrite <- Hout, length_app. cbn [length]. specialize (Hmax ltac:(lia)). lia. }
        unfold ret. split_and!; first [done|lia|by left|by right].
      + pose proof (IH h l w2 f from max (k + 1) (inv_stable _ _ _ _ Hi Hw) Hf (or_introl Hex) Hfrom
          ltac:(lia) Hlt) as IH'.
        specialize (IH' ltac:(intros Hm0; apply andb_false_iff in Estop as [Es|Es]; bool_hyp; lia) Hfuel').
        destruct (spill_loop _ _ _ _ _ _ _ _ l w2) as [[r3 l3] w3]. destruct IH' as (Ht & Hw3 & Hr3).
        split_and!; [done|by eapply stable_trans|]. destruct r3 as [[[o3 f3] k3]|]; [|done].
        destruct Hr3 as (? & [? ?] & Hrest). split; [done|]. split; [lia|exact Hrest].
    - assert (Hout : read_so_far h from k = read_so_far h from (k + 1)).
      { unfold read_so_far. by rewrite !Z.max_l by lia. }
      rewrite Hout.
      pose proof (IH h l w1 f from max (k + 1) (inv_stable _ _ _ _ Hi Hw1) Hf (or_introl Hex) Hfrom
        ltac:(lia) Hlt) as IH'.
      specialize (IH' ltac:(rewrite <- Hout; done) Hfuel').
      destruct (spill_loop _ _ _ _ _ _ _ _ l w1) as [[r3 l3] w3]. destruct IH' as (Ht & Hw3 & Hr3).
      split_and!; [done|by eapply stable_trans|]. destruct r3 as [[[o3 f3] k3]|]; [|done].
      destruct Hr3 as (? & [? ?] & Hrest). split; [done|]. split; [lia|exact Hrest].
  Qed.

Lemma index_pos_spec h l from index : Forall (fun e => spillFirst l <= fst e < spillNext l
      /\ snd e = elen (sub h (spillFirst l) (fst e))) index ->
    forall off k, off = elen (sub h (spillFirst l) k) -> spillFirst l <= k <= from ->
    let '(off', k') := index_pos index from (off, k) in
    off' = elen (sub h (spillFirst l) k') /\ spillFirst l <= k' <= from.
  Proof.
    induction 1 as [|[sq o] index [Hr Ho] Hf IH]; intros off k Hoff Hk; cbn [index_pos]; [done|].
    cbn in Hr, Ho. destruct (sq <=? from) eqn:Esq; bool_hyp; [|done]. apply IH; [done|lia].
  Qed.

Lemma readSpillLocked_spec h l w from max : inv h l w -> 0 <= from ->
    let '(r, l', w') := readSpillLocked from max l w in
    tier_only l l' /\ stable w w' /\
    match r with
    | Ok out => l' = l /\
        ((out = [] /\ ~ (is_open (spill l) = true /\ spillFirst l <= from < spillNext l)) \/
         exists n, 0 < n /\ out = sub h from (from + n) /\ from + n <= spillNext l /\ (0 < max -> n <= max))
    | Err _ => ~ (reads_ok /\ exact_spill h l)
    end.
  Proof.
    intros Hi Hfrom. unfold readSpillLocked, bind at 1, get.
    destruct (spill l) as [f|] eqn:Ef.
    2: { unfold ret. split_and!; [by left|apply stable_refl|done|]. left. split; [done|]. by intros [? _]. }
    destruct (_ || _) eqn:Erange.
    { unfold ret. split_and!; [by left|apply stable_refl|done|]. left. split; [done|]. intros [_ ?].
      apply orb_true_iff in Erange as [?|?]; bool_hyp; lia. }
    bool_hyp. pose proof (i_spill _ _ _ Hi _ Ef) as [Hr He Hb Hfx Hix].
    pose proof (index_pos_spec h l from _ Hix 0 (spillFirst l)) as Hpos. rewrite sub_empty in Hpos.
    specialize (Hpos eq_refl ltac:(lia)).
    destruct (index_pos (spillIndex l) from (0, spillFirst l)) as [off k]. destruct Hpos as [-> Hk].
    assert (Hout : [] = read_so_far h from k) by (unfold read_so_far; by rewrite Z.max_l, sub_empty by lia).
    rewrite Hout. unfold bind.
    pose proof (spill_loop_spec (Datatypes.S (Z.to_nat (spillBytes l))) h l w f from max k Hi Ef) as Hsl.
    specialize (Hsl ltac:(destruct Hfx as [[_ ->]|?]; [by right|by left]) Hfrom ltac:(lia) ltac:(lia)).
    specialize (Hsl ltac:(rewrite <- Hout; cbn; lia)).
    specialize (Hsl ltac:(pose proof (elen_nonneg (sub h (spillFirst l) k)); lia)).
    destruct (spill_loop _ _ _ _ _ _ _ _ l w) as [[[[[out off'] k']|e] l'] w']; destruct Hsl as (Ht & Hw & Hsl).
    2: { split_and!; try done. intros [Hok Hex]. apply Hsl. split; [done|]. by apply Hex. }
    destruct Hsl as (-> & Hk' & -> & -> & Hlen & Hend).
    assert (Hne : negb (k' =? spillNext l) && (spillBytes l <=? elen (sub h (spillFirst l) k')) = false
                  /\ from < k').
    { destruct Hend as [[-> Hsz]|[Hm Hml]].
      - rewrite Z.eqb_refl. split; [done|lia].
      - destruct (Z.le_gt_cases k' from) as [Hle|Hgt].
        + unfold read_so_far in Hml. rewrite Z.max_l, sub_empty in Hml by lia. cbn in Hml. lia.
        + split; [|done]. destruct (Z.eqb_spec k' (spillNext l)) as [|Hne]; [done|]. cbn [negb andb].
          apply Z.leb_gt. rewrite Hb, (sub_split h (spillFirst l) k' (spillNext l)), elen_app by lia.
          assert (elen (sub h k' (spillNext l)) <> 0); [|pose proof (elen_nonneg (sub h k' (spillNext l))); lia].
          intros Hz%elen_zero%(f_equal length). rewrite length_sub in Hz by lia. cbn in Hz. lia. }
    destruct Hne as [Hne Hgt]. rewrite andb_comm in Hne. rewrite Hne. unfold ret.
    split_and!; [by left|done|done|]. right. exists (k' - from).
    unfold read_so_far in *. rewrite Z.max_r in * by lia. replace (from + (k' - from)) with k' by lia.
    split_and!; [lia|done|lia|]. intros Hm. specialize (Hlen Hm). rewrite length_sub in Hlen by lia. lia.
  Qed.

  (** ** Reading a segment *)

Definition lim {A} (max : Z) (l : list A) : list A := if max <=? 0 then l else take (Z.to_nat max) l.

Lemma lim_snoc {A} (max : Z) (l : list A) x :
    lim max (l ++ [x]) = if (max <=? 0) || (Z.of_nat (length (lim max l)) <? max)
                         then lim max l ++ [x] else lim max l.
  Proof.
    unfold lim. destruct (max <=? 0) eqn:E1; bool_hyp; [done|]. cbn [orb].
    destruct (_ <? _) eqn:E2; bool_hyp; rewrite length_take in E2.
    - rewrite (take_ge l) by lia. apply take_ge. rewrite length_app. cbn. lia.
    - rewrite take_app_le by lia. done.
  Qed.

Lemma segment_loop_spec fuel : forall h from max maxChunk k e, 0 <= from ->
    (forall i c, h !! i = Some c -> Seq c = Z.of_nat i /\ chunk_fits c /\ Z.of_nat (length (Data c)) <= maxChunk) ->
    0 <= k <= e -> e <= Z.of_nat (length h) -> (Z.to_nat (elen (sub h k e)) < fuel)%nat ->
    segment_loop fuel from max maxChunk (elen (sub h k e)) (encode (sub h k e)) k
      (lim max (read_so_far h from k)) = Ok (lim max (read_so_far h from e), e, []).
  Proof.
    induction fuel as [|fuel IH]; intros h from max maxChunk k e Hfrom Hh Hk He Hfuel; [lia|].
    cbn [segment_loop]. destruct (Z.eq_dec k e) as [->|Hne].
    { rewrite sub_empty. done. }
    destruct (hist_lookup h k) as [c Hc]; [lia|]. destruct (Hh _ _ Hc) as (Hseq & Hfits & Hmax).
    assert (Hsub : sub h k e = [c] ++ sub h (k + 1) e) by (by apply sub_cons; [lia|]).
    rewrite Hsub in *. rewrite elen_app, elen_single in *. rewrite encode_app.
    replace (encode [c]) with (encode_chunk c) by (unfold encode; cbn; by rewrite app_nil_r).
    pose proof (elen_nonneg (sub h (k + 1) e)) as Hnn. unfold recordHeaderBytes in *.
    rewrite take_encode_header, drop_encode_header.
    rewrite hdr_seq_record, hdr_len_record, hdr_stream_record by done.
    rewrite !length_app, length_encode_chunk. zb.
    assert (Seq c = k) as Hsk by (rewrite Hseq; lia). rewrite Hsk.
    rewrite Nat2Z.id, take_app_length, drop_app_length.
    replace (13 + Z.of_nat (length (Data c)) + elen (sub h (k + 1) e) - 13 - Z.of_nat (length (Data c)))
      with (elen (sub h (k + 1) e)) by lia.
    match goal with |- segment_loop _ _ _ _ _ _ _ ?o = _ =>
      replace o with (lim max (read_so_far h from (k + 1))) end.
    { apply IH; [done|done|lia|done|lia]. }
    unfold read_so_far. destruct (from <=? k) eqn:Efk; bool_hyp; cbn [andb].
    - rewrite !Z.max_r by lia. rewrite (sub_snoc h from k c) by (lia || done). rewrite lim_snoc.
      assert (mkChunk k (Stream c) (Data c) = c) as -> by (rewrite <- Hsk; apply mkChunk_eta). done.
    - by rewrite !Z.max_l by lia.
  Qed.

Definition opens_ok : Prop := forall (w : W) id d, stored w id d ->
    fst (blob_open w id) = Ok (d, Z.of_nat (length d)).

Lemma readBlobSegment_spec h l w store seg from max : inv h l w -> seg_ok h w seg ->
    First seg <= from < Next seg ->
    let '(r, w') := readBlobSegment store seg from max (MaxChunk (opts l)) w in
    stable w w' /\
    match r with
    | Ok out => out = lim max (sub h from (Next seg))
    | Err _ => ~ (opens_ok /\ store = true)
    end.
  Proof.
    intros Hi [Hr He Hst Hby] Hfrom. unfold readBlobSegment.
    destruct store; cbn [negb]; [|split; [apply stable_refl|by intros [_ ?]]].
    pose proof (stable_open w (Artifact seg)) as Hs.
    destruct (blob_open w (Artifact seg)) as [[[b n]|e] w'] eqn:Eo; cbn [snd] in Hs.
    2: { split; [done|]. intros [Hok _]. specialize (Hok _ _ _ Hst). by rewrite Eo in Hok. }
    pose proof (open_stored _ _ _ _ _ _ Eo Hst) as ->.
    destruct (Z.eqb_spec n (Bytes seg)) as [->|Hne]; cbn [negb]; cycle 1.
    { split; [done|]. intros [Hok _]. specialize (Hok _ _ _ Hst). rewrite Eo in Hok. cbn in Hok.
      injection Hok as Hn. rewrite Hby in Hne. by unfold elen in Hne. }
    assert (Hnil : [] = lim max (read_so_far h from (First seg))).
    { unfold read_so_far, lim. rewrite Z.max_l, sub_empty by lia. by destruct (max <=? 0); rewrite ?take_nil. }
    rewrite Hby. rewrite Hnil.
    rewrite segment_loop_spec; [| |intros i c Hc|lia|done|lia].
    - rewrite Z.eqb_refl. cbn. split; [done|]. unfold read_so_far. by rewrite Z.max_r by lia.
    - lia.
    - destruct (i_hist _ _ _ Hi _ _ Hc). split_and!; [done|by eapply inv_chunk_fits|done].
  Qed.

  (** ** Reading the log *)

Lemma visible_le_next h l w : inv h l w -> visibleNextLocked l <= next l.
  Proof. intros Hi. unfold visibleNextLocked. pose proof (i_term _ _ _ Hi). destruct (_ && _); lia. Qed.

Lemma memory_loop_spec n : forall h k from0 visible max, n = length (drop k h) ->
    (forall i c, h !! i = Some c -> Seq c = Z.of_nat i) -> 0 <= from0 <= Z.of_nat k ->
    visible <= Z.of_nat (length h) ->
    (0 < max -> Z.of_nat (length (sub h from0 (Z.of_nat k))) <= max) ->
    exists e, Z.of_nat k <= e /\ (e = Z.of_nat k \/ e <= visible) /\
      memory_loop (drop k h) visible max (sub h from0 (Z.of_nat k)) = sub h from0 e /\
      (0 < max -> Z.of_nat (length (sub h from0 e)) <= max) /\
      (visible <= e \/ (0 < max /\ max <= Z.of_nat (length (sub h from0 e)))).
  Proof.
    induction n as [|n IH]; intros h k from0 visible max Hn Hh Hk Hv Hm.
    { destruct (drop k h) eqn:Ed; [|done]. exists (Z.of_nat k). cbn.
      assert (length h <= k)%nat. { apply (f_equal length) in Ed. rewrite length_drop in Ed. cbn in Ed. lia. }
      split_and!; try done; [by left|left; lia]. }
    destruct (hist_lookup h (Z.of_nat k)) as [c Hc]; [rewrite length_drop in Hn; lia|].
    rewrite Nat2Z.id in Hc. rewrite (drop_S _ _ _ Hc). cbn [memory_loop]. rewrite (Hh _ _ Hc).
    destruct (_ && _) eqn:Ego.
    - apply andb_true_iff in Ego as [Ev Em]. bool_hyp.
      assert (Hs : sub h from0 (Z.of_nat k) ++ [c] = sub h from0 (Z.of_nat (Datatypes.S k))).
      { replace (Z.of_nat (Datatypes.S k)) with (Z.of_nat k + 1) by lia.
        symmetry. apply sub_snoc; [lia|]. by rewrite Nat2Z.id. }
      rewrite Hs. destruct (IH h (Datatypes.S k) from0 visible max) as (e & He & Hev & Heq & Hlen & Hend);
        [rewrite length_drop in *; lia|done|lia|done| |].
      { intros Hmx. rewrite <- Hs, length_app. cbn [length].
        apply orb_true_iff in Em as [Em|Em]; bool_hyp; lia. }
      exists e. split_and!; try done; [lia|right; lia].
    - exists (Z.of_nat k). split_and!; try done; [by left|].
      apply andb_false_iff in Ego as [Ev|Em]; bool_hyp; [left; lia|right; lia].
  Qed.

Lemma segment_for_spec segs seq s : segment_for segs seq = Some s -> s ∈ segs /\ First s <= seq < Next s.
  Proof.
    induction segs as [|x t IH]; cbn; [done|].
    destruct ((First x <=? seq) && (seq <? Next x)) eqn:E1.
    - intros [= <-]. bool_hyp. split; [left|lia].
    - destruct (seq <? First x); [done|]. intros [? ?]%IH. split; [by right|done].
  Qed.

Lemma segment_for_chain segs : forall a e seq, chain a segs e ->
    Forall (fun s => First s < Next s) segs -> segment_for segs seq = None -> a <= seq -> e <= seq.
  Proof.
    induction segs as [|x t IH]; intros a e seq; cbn.
    { by intros -> _ _. }
    intros [<- Hch] [Hx Hf]%Forall_cons. destruct ((First x <=? seq) && (seq <? Next x)) eqn:E1; [done|].
    intros Hn Ha. apply andb_false_iff in E1 as [E1|E1]; bool_hyp; [lia|].
    rewrite (proj2 (Z.ltb_ge _ _)) in Hn by lia. by eapply IH.
  Qed.

  (** Worlds whose reads succeed and states that hold everything. *)
Definition readable (l : Log) : Prop :=
    reads_ok /\ opens_ok /\ BlobStore (opts l) = true /\ is_open (spill l) = true /\ tight_at l (first l).

Lemma readLimit_range max have visible : 0 < visible -> 0 <= have -> (0 < max -> have < max) ->
    0 < readLimit max have visible <= visible /\ (0 < max -> readLimit max have visible <= max - have).
  Proof.
    intros Hv Hh Hm. unfold readLimit. assert (0 < maxInt64) by (unfold maxInt64; lia).
    destruct (visible <=? maxInt64) eqn:E1; destruct (0 <? max) eqn:E2; cbn [andb]; bool_hyp;
      try (destruct (_ <? _) eqn:E3; bool_hyp); lia.
  Qed.

Lemma tier_only_ok h l l' w : ok_log h l w -> tier_only l l' -> ok_log h l' w.
  Proof. intros Hok [->|[t ->]]; [done|]. eapply ok_log_fields; try done. apply Hok. Qed.

Lemma last_seq_sub h i j : (forall i c, h !! i = Some c -> Seq c = Z.of_nat i) -> 0 <= i < j ->
    j <= Z.of_nat (length h) -> last_seq (sub h i j) = j - 1 /\ sub h i j <> [].
  Proof.
    intros Hh Hij Hj. destruct (hist_lookup h (j - 1)) as [c Hc]; [lia|].
    assert (Hs : sub h i j = sub h i (j - 1) ++ [c]).
    { replace j with (j - 1 + 1) at 1 by lia. apply sub_snoc; [lia|done]. }
    rewrite Hs. unfold last_seq. rewrite last_snoc. split; [rewrite (Hh _ _ Hc); lia|].
    by destruct (sub h i (j - 1)).
  Qed.

Lemma lim_sub h from max n : 0 <= from -> 0 < max -> from < n -> n <= Z.of_nat (length h) ->
    lim max (sub h from n) = sub h from (from + Z.min max (n - from)).
  Proof.
    intros. unfold lim, sub, slice. zb. rewrite take_take. f_equal. lia.
  Qed.

  (** Between two turns the chunks read are exactly the history from [from0]. *)
Definition reading (h : list Chunk) (from0 from max : Z) (out : list Chunk) : Prop :=
    0 <= from0 <= from /\ out = sub h from0 from /\
    (from = from0 \/ from <= Z.of_nat (length h)) /\ (0 < max -> Z.of_nat (length out) <= max).

Lemma read_turn_spec h l w from0 from max out : ok_log h l w -> reading h from0 from max out ->
    let '(o, l', w') := read_turn max from out l w in
    tier_only l l' /\ stable w w' /\
    match o with
    | Continue from' out' =>
        l' = l /\ from < from' <= visibleNextLocked l /\ reading h from0 from' max out'
    | Done (Ok out') => l' = l /\
        exists e, reading h from0 e max out' /\ from <= e /\ (e = from \/ e <= visibleNextLocked l) /\
          (visibleNextLocked l <= e \/ (0 < max /\ max <= Z.of_nat (length out')))
    | Done (Err _) => ~ readable l
    end.
  Proof.
    intros [Hi Hrel] Hrd. pose proof Hrd as (Hf0 & Hout & Hfr & Hmx).
    unfold read_turn. destruct ((max <=? 0) || _) eqn:Ego; cbn [negb]; cycle 1.
    { bool_hyp. split_and!; [by left|apply stable_refl|done|].
      exists from. split; [exact Hrd|]. split; [lia|]. split; [by left|right; lia]. }
    set (vn := visibleNextLocked l) in *.
    pose proof (visible_le_next _ _ _ Hi) as Hvn. fold vn in Hvn. rewrite (i_next _ _ _ Hi) in Hvn.
    destruct (vn <=? from) eqn:Evn; bool_hyp.
    { split_and!; [by left|apply stable_refl|done|].
      exists from. split; [exact Hrd|]. split; [lia|]. split; [by left|left; lia]. }
    assert (Hroom : 0 < max -> Z.of_nat (length out) < max).
    { intros. apply orb_true_iff in Ego as [?|?]; bool_hyp; lia. }
    destruct (readLimit_range max (Z.of_nat (length out)) (vn - from)) as [Hlim Hlimx]; [lia|lia|done|].
    set (rem := readLimit _ _ _) in *.
    assert (Hhs : forall i c, h !! i = Some c -> Seq c = Z.of_nat i) by (intros i c Hc; by apply Hi in Hc as [? _]).
    assert (Hlen : Z.of_nat (length out) = from - from0).
    { rewrite Hout. destruct Hfr as [->|Hle]; [rewrite sub_empty; cbn; lia|]. rewrite length_sub by lia. lia. }
    assert (Hcont : forall n, 0 < n -> from + n <= vn -> (0 < max -> n <= max - Z.of_nat (length out)) ->
      from < last_seq (sub h from (from + n)) + 1 <= vn /\
      reading h from0 (last_seq (sub h from (from + n)) + 1) max (out ++ sub h from (from + n))).
    { intros n Hn Hnv Hnm. destruct (last_seq_sub h from (from + n) Hhs) as [-> _]; [lia|lia|].
      replace (from + n - 1 + 1) with (from + n) by lia. split; [lia|].
      unfold reading. rewrite Hout, <- sub_split by lia. split_and!; [lia|lia|done|right; lia|].
      intros Hm. rewrite length_sub by lia. specialize (Hnm Hm). lia. }
    destruct (segmentForLocked l from) as [seg|] eqn:Eseg.
    - apply segment_for_spec in Eseg as [Hin Hsr].
      pose proof (i_segs _ _ _ Hi) as Hsegs. rewrite Forall_forall in Hsegs. specialize (Hsegs _ Hin).
      pose proof (readBlobSegment_spec h l w (BlobStore (opts l)) seg from rem Hi Hsegs Hsr) as H.
      destruct (readBlobSegment _ seg from rem _ w) as [[cs|e] w']; destruct H as [Hw Hr]; cycle 1.
      { split_and!; [right; by eexists|done|]. intros (_ & Ho & Hb & _). by apply Hr. }
      rewrite lim_sub in Hr by (try lia; apply Hsegs).
      destruct (Hcont (Z.min rem (Next seg - from))) as [Hc1 Hc2]; [lia|lia|intros; lia|].
      rewrite <- Hr in Hc1, Hc2.
      destruct cs as [|c cs]; [|by (split; [by left|]; split; [done|]; split; [done|]; split; [exact Hc1|exact Hc2])].
      exfalso. symmetry in Hr. apply (f_equal length) in Hr. pose proof (sg_end _ _ _ Hsegs).
      rewrite length_sub in Hr by lia. cbn in Hr. lia.
    - destruct (from <? oldestLocked l) eqn:Eold; bool_hyp.
      { split_and!; [by left|apply stable_refl|]. intros (_ & _ & _ & Hop & e & Hch & Ht).
        unfold oldestLocked in Eold. rewrite Hop in Eold. cbn [andb] in Eold.
        destruct (segments l) as [|s t] eqn:Es; cbn in Hch.
        - subst e. destruct (spillFirst l <? spillNext l) eqn:Esp; bool_hyp.
          + destruct Ht as [[Hz He]|(_ & He & _)]; [|lia].
            destruct (spill l) as [f|] eqn:Ef; [|done]. pose proof (i_spill _ _ _ Hi _ Ef) as [Hr0 He0 Hb0 _ _].
            rewrite Hz in Hb0. symmetry in Hb0. apply elen_zero, (f_equal length) in Hb0.
            rewrite length_sub in Hb0 by lia. cbn in Hb0. lia.
          + destruct (chunks l) eqn:Ec.
            * pose proof (empty_first _ _ _ Hi Ec). pose proof (i_next _ _ _ Hi).
              destruct Ht as [[Hz He]|(Hnz & He & Hk)]; [lia|].
              destruct (spill l) as [f|] eqn:Ef; [|done]. pose proof (i_spill _ _ _ Hi _ Ef) as [Hr0 He0 Hb0 _ _].
              assert (spillFirst l = spillNext l) as Heq by lia. rewrite Heq, sub_empty in Hb0. done.
            * destruct Ht as [[Hz He]|(Hnz & He & Hk)]; [lia|].
              destruct (spill l) as [f|] eqn:Ef; [|done]. pose proof (i_spill _ _ _ Hi _ Ef) as [Hr0 He0 Hb0 _ _].
              assert (spillFirst l = spillNext l) as Heq by lia. rewrite Heq, sub_empty in Hb0. done.
        - destruct Hch as [Hs _]. lia. }
      destruct (from <? first l) eqn:Efirst; bool_hyp.
      + pose proof (readSpillLocked_spec h l w from rem Hi ltac:(lia)) as H.
        destruct (readSpillLocked from rem l w) as [[[cs|e] l'] w']; destruct H as (Ht & Hw & Hr); cycle 1.
        { split_and!; [done|done|]. intros (Hro & _ & Hb & _). apply Hr. split; [done|]. by eapply blob_exact. }
        destruct Hr as [-> [[-> Hno]|(n & Hn & -> & Hns & Hnm)]].
        * split_and!; [by left|done|]. intros (_ & _ & _ & Hop & e & Hch & Htg). apply Hno. split; [done|].
          assert (e <= from).
          { eapply segment_for_chain; [exact Hch| |exact Eseg|lia].
            eapply Forall_impl; [apply Hi|]. intros s Hs. pose proof (sg_range _ _ _ Hs). lia. }
          destruct Htg as [[_ ?]|(_ & ? & ?)]; lia.
        * destruct (Hcont n) as [Hc1 Hc2]; [lia|specialize (Hnm ltac:(lia)); lia|intros; specialize (Hnm ltac:(lia)); lia|].
          destruct (sub h from (from + n)) as [|c cs] eqn:Esub; [|by (split; [by left|]; split; [done|]; split; [done|]; split; [exact Hc1|exact Hc2])].
          exfalso. apply (f_equal length) in Esub. destruct (spill l) as [f|] eqn:Ef.
          -- pose proof (sp_end _ _ _ (i_spill _ _ _ Hi _ Ef)). rewrite length_sub in Esub by lia.
             cbn in Esub. lia.
          -- rewrite length_sub in Esub by (specialize (Hnm ltac:(lia)); lia). cbn in Esub. lia.
      + destruct (memory_loop_spec (length (drop (Z.to_nat from) h)) h (Z.to_nat from) from0 vn max eq_refl Hhs)
          as (e & He & Hev & Heq & Hle & Hend); rewrite ?Z2Nat.id by lia; [lia|done|by rewrite <- Hout|].
        rewrite Z2Nat.id in * by lia. split_and!; [by left|apply stable_refl|done|]. exists e.
        rewrite (i_chunks _ _ _ Hi), drop_drop.
        replace (Z.to_nat (first l) + Z.to_nat (from - first l))%nat with (Z.to_nat from)
          by (pose proof (i_first _ _ _ Hi); lia).
        rewrite Hout, Heq. split; [|split; [done|by split]]. split; [lia|]. split; [done|]. split; [|done].
        destruct Hev as [->|?]; [done|right; lia].
  Qed.

Lemma read_loop_spec fuel : forall h l w from0 from max out, ok_log h l w ->
    reading h from0 from max out -> (Z.to_nat (visibleNextLocked l - from) < fuel)%nat ->
    let '(o, l', w') := read_loop fuel max from out l w in
    tier_only l l' /\ stable w w' /\
    exists r, o = Some r /\
    match r with
    | Ok out' => l' = l /\ exists e, reading h from0 e max out' /\ from <= e /\
        (e = from \/ e <= visibleNextLocked l) /\
        (visibleNextLocked l <= e \/ (0 < max /\ max <= Z.of_nat (length out')))
    | Err _ => ~ readable l
    end.
  Proof.
    induction fuel as [|fuel IH]; intros h l w from0 from max out Hok Hrd Hfuel; [lia|].
    cbn [read_loop]. pose proof (read_turn_spec h l w from0 from max out Hok Hrd) as H.
    destruct (read_turn max from out l w) as [[o l1] w1]. destruct H as (Ht & Hw & H).
    destruct o as [r|from' out'].
    { split_and!; [done|done|]. exists r. split; [done|]. by destruct r. }
    destruct H as (-> & Hf & Hrd').
    pose proof (IH h l w1 from0 from' max out' (ok_log_stable _ _ _ _ Hok Hw) Hrd' ltac:(lia)) as H.
    destruct (read_loop fuel max from' out' l w1) as [[o l2] w2]. destruct H as (Ht2 & Hw2 & r & -> & Hr).
    split_and!; [done|by eapply stable_trans|]. exists r. split; [done|]. destruct r as [out2|]; [|done].
    destruct Hr as (-> & e & He & Hge & Hev & Hend). split; [done|]. exists e. split; [done|].
    split; [lia|]. split; [|done]. right. lia.
  Qed.

Lemma Read_spec h l w from max : ok_log h l w -> 0 <= from ->
    let '(o, l', w') := Read from max l w in
    tier_only l l' /\ stable w w' /\
    exists r, o = Some r /\
    match r with
    | Ok out => l' = l /\ exists e, reading h from e max out /\
        (e = from \/ e <= visibleNextLocked l) /\
        (visibleNextLocked l <= e \/ (0 < max /\ max <= Z.of_nat (length out)))
    | Err _ => ~ readable l
    end.
  Proof.
    intros Hok Hf. unfold Read.
    pose proof (read_loop_spec (Datatypes.S (Z.to_nat (visibleNextLocked l - from))) h l w from from max [] Hok) as H.
    specialize (H ltac:(unfold reading; rewrite sub_empty; cbn; split_and!; first [done|lia|by left]) ltac:(lia)).
    destruct (read_loop _ max from [] l w) as [[o l'] w']. destruct H as (? & ? & r & ? & Hr).
    split_and!; [done|done|]. exists r. split; [done|]. destruct r; [|done].
    destruct Hr as (? & e & ? & ? & ?). split; [done|]. by exists e.
  Qed.

  (** ** Sequences of operations *)

Lemma read_turn_next max from out l w : next (snd (fst (read_turn max from out l w))) = next l.
  Proof.
    unfold read_turn. destruct (negb _); [done|]. destruct (_ <=? _); [done|].
    destruct (segmentForLocked l from) as [seg|].
    - destruct (readBlobSegment _ _ _ _ _ w) as [[[|c cs]|e] w']; done.
    - destruct (_ <? _); [done|]. destruct (_ <? _); [|done].
      assert (Hk : keeps_next (readSpillLocked from
        (readLimit max (Z.of_nat (length out)) (visibleNextLocked l - from)))).
      { unfold readSpillLocked. apply bind_next; [by intros ? ?|]. intros l0.
        destruct (spill l0) as [f|]; [|by intros ? ?]. destruct (_ || _); [by intros ? ?|].
        destruct (index_pos _ _ _) as [off k]. apply bind_next.
        - generalize (Datatypes.S (Z.to_nat (spillBytes l0))); intros fuel. revert off k.
          generalize (@nil Chunk). induction fuel as [|fuel IH]; intros o off k; cbn [spill_loop];
            [by intros ? ?|].
          assert (Hra : forall g p n, keeps_next (read_at g p n)).
          { intros g p n l1 w1. unfold read_at. destruct (n =? 0); [done|].
            destruct (disk_read w1) as [[?|] ?]; [done|]. by destruct (file_read _ _ _). }
          repeat first [apply Hra|apply IH|next_step].
        - intros [[o3 off3] k3]. repeat next_step. }
      specialize (Hk l w). destruct (readSpillLocked _ _ l w) as [[[[|c cs]|e] l'] w']; done.
  Qed.

Lemma read_loop_next fuel max : forall from out l w, next (snd (fst (read_loop fuel max from out l w))) = next l.
  Proof.
    induction fuel as [|fuel IH]; intros from out l w; cbn [read_loop]; [done|].
    pose proof (read_turn_next max from out l w) as H.
    destruct (read_turn max from out l w) as [[[r|f o] l'] w']; cbn [fst snd] in *; [done|]. by rewrite IH.
  Qed.

Lemma appendLocked_next stream data terminal l w :
    let '(f, e, l', w') := appendLocked stream data terminal l w in
    next l' = next l + Z.of_nat (length (if closed l || (is_open (appendErr l) && negb terminal) then []
                                         else number (next l) stream (piece_list l data)))
    /\ (f = 0 \/ f = next l).
  Proof.
    unfold appendLocked. destruct (closed l); [cbn; split; [lia|by left]|].
    destruct (is_open (appendErr l) && negb terminal); [cbn; split; [lia|by right]|]. cbn [orb].
    change (pieces (Datatypes.S (length data)) (Z.to_nat (MaxChunk (opts l))) data) with (piece_list l data).
    rewrite append_pieces_eq, length_number.
    match goal with |- context [evictLocked false ?x w] => pose proof (evict_next false x w) as H;
      destruct (evictLocked false x w) as [[[u|e] l2] w2] end; cbn [fst snd next set_memory set_appendErr] in *;
      (split; [done|by right]).
  Qed.

Lemma close_tiers_next final : keeps_next (close_tiers final).
  Proof.
    unfold close_tiers, sealSpillLocked.
    repeat first [exact (evict_next true)|apply seal_next|apply call_next|next_step].
  Qed.

Lemma apply_op_next l w o : next l <= next (fst (apply_op (l, w) o)).
  Proof.
    destruct o; cbn [apply_op].
    - unfold Append. pose proof (appendLocked_next stream data false l w) as H.
      destruct (appendLocked _ _ _ l w) as [[[f e] l'] w']. cbn [fst]. lia.
    - unfold appendTerminal. pose proof (appendLocked_next stream data true l w) as H.
      destruct (appendLocked _ _ _ l w) as [[[f e] l'] w']. cbn. lia.
    - unfold closeWithPublish. destruct (closed l); [done|].
      destruct (BlobStore (opts l)); [|done].
      pose proof (close_tiers_next final l w) as H.
      destruct (close_tiers final l w) as [[[u|e] l1] w1]; cbn in *; lia.
    - unfold Forget. destruct (_ && _); [|done]. by destruct (commit_record w _) as [[e|] w'].
    - unfold Read. pose proof (read_loop_next (Datatypes.S (Z.to_nat (visibleNextLocked l - from))) max from [] l w) as H.
      destruct (read_loop _ _ _ _ l w) as [[r l'] w']. cbn in *. lia.
  Qed.

Lemma run_next ops : forall lw, next (fst lw) <= next (fst (run lw ops)).
  Proof.
    induction ops as [|o ops IH]; intros [l w]; [done|]. cbn [run foldl].
    etrans; [apply apply_op_next|apply IH].
  Qed.

Definition is_forget (o : op) : bool := match o with OForget => true | _ => false end.
Definition valid_read (o : op) : Prop := match o with ORead from _ => 0 <= from | _ => True end.

Lemma set_terminal_ok h l w f : ok_log h l w -> 0 <= f <= next l -> ok_log h (set_terminal l f) w.
  Proof. intros Hok Hf. by eapply ok_log_fields. Qed.

Lemma apply_op_spec h l w o : ok_log h l w -> valid_read o -> next (fst (apply_op (l, w) o)) <= 2 ^ 64 ->
    let '(l', w') := apply_op (l, w) o in
    ok_log (h ++ appended l o) l' w' /\ opts l' = opts l /\
    (is_forget o = false -> op_post h (h ++ appended l o) l w (negb (is_open (op_error l w o))) l' w').
  Proof.
    intros Hok Hval Hlen. assert (Hgen : forall h' l' w' ok, op_post h h' l w ok l' w' ->
      ok_log h' l' w' /\ opts l' = opts l /\ (is_forget o = false -> op_post h h' l w ok l' w')).
    { intros h' l' w' ok Hp. split_and!; [apply Hp|apply Hp|done]. }
    destruct o; cbn [apply_op appended op_error] in *.
    - unfold Append in *. pose proof (appendLocked_spec h l w stream data false Hok) as H.
      destruct (appendLocked _ _ _ l w) as [[[f e] l'] w']. cbn [fst snd] in *.
      rewrite andb_true_r in H. destruct H as [_ H]. by apply Hgen, H.
    - unfold appendTerminal in *. pose proof (appendLocked_spec h l w stream data true Hok) as H.
      pose proof (appendLocked_next stream data true l w) as Hf.
      destruct (appendLocked _ _ _ l w) as [[[f e] l'] w']. cbn [fst snd] in *.
      rewrite andb_false_r, orb_false_r in H. destruct H as [Hn H]. cbn in Hlen.
      destruct (H Hlen) as [[Ho Hop Hs Hopen Hcv Htg] _]. apply Hgen. split; try done.
      apply set_terminal_ok; [done|]. pose proof (i_first _ _ _ (proj1 Hok)). lia.
    - pose proof (close_spec final h l w Hok) as H.
      destruct (closeWithPublish final l w) as [[e l'] w']. cbn [fst snd] in *. rewrite app_nil_r.
      by apply Hgen, H.
    - pose proof (forget_spec h l w Hok) as H. destruct (Forget l w) as [[e l'] w']. rewrite app_nil_r.
      destruct H as (? & ? & _). done.
    - pose proof (Read_spec h l w from max Hok Hval) as H. destruct (Read from max l w) as [[e l'] w'].
      rewrite app_nil_r. destruct H as (Ht & Hw & _). apply Hgen.
      assert (Hok' : ok_log h l' w') by (eapply ok_log_stable; [|done]; by eapply tier_only_ok).
      destruct Ht as [->|[t ->]]; split; try done; auto.
  Qed.

  (** What the operations appended, in order. *)
Fixpoint history (lw : Log * W) (ops : list op) : list Chunk :=
    match ops with
    | [] => []
    | o :: t => appended (fst lw) o ++ history (apply_op lw o) t
    end.

Lemma run_spec ops : forall h l w, ok_log h l w -> Forall valid_read ops ->
    next (fst (run (l, w) ops)) <= 2 ^ 64 ->
    ok_log (h ++ history (l, w) ops) (fst (run (l, w) ops)) (snd (run (l, w) ops)) /\
    opts (fst (run (l, w) ops)) = opts l.
  Proof.
    induction ops as [|o ops IH]; intros h l w Hok Hv Hlen; cbn [run foldl history fst].
    { by rewrite app_nil_r. }
    apply Forall_cons in Hv as [Hvo Hv]. cbn [run foldl] in Hlen.
    assert (Hlen1 : next (fst (apply_op (l, w) o)) <= 2 ^ 64) by (etrans; [apply run_next|exact Hlen]).
    pose proof (apply_op_spec h l w o Hok Hvo Hlen1) as H.
    destruct (apply_op (l, w) o) as [l1 w1]. destruct H as (Hok1 & Ho1 & _).
    destruct (IH (h ++ appended l o) l1 w1 Hok1 Hv Hlen) as [H2 Ho2]. rewrite <- app_assoc in H2.
    split; [exact H2|]. etrans; [exact Ho2|exact Ho1].
  Qed.

Lemma NewLog_ok o w l w' : NewLog o w = (Ok l, w') -> MaxChunk (opts l) < 2 ^ 32 ->
    ok_log [] l w' /\ tight_at l (first l) /\ cov_at l (first l) /\
    is_open (spill l) = (0 <? SpillBytes (opts l)) /\
    (BlobStore (opts l) = true -> is_open (spill l) = true).
  Proof.
    unfold NewLog. destruct (validate (defaults o)) as [u|] eqn:Ev; [|discriminate].
    assert (Hmax : 0 < MaxChunk (defaults o)).
    { unfold validate in Ev. destruct (_ || _) eqn:E1; [discriminate|]. by bool_hyp. }
    assert (Hblob : BlobStore (defaults o) = true -> 0 < SpillBytes (defaults o)).
    { intros Hb. unfold validate in Ev. rewrite Hb in Ev. destruct (_ || _) eqn:E1; [discriminate|].
      destruct (_ && _); [discriminate|]. destruct (_ && _); [discriminate|].
      destruct (SpillBytes (defaults o) =? 0) eqn:E2; [discriminate|]. bool_hyp. lia. }
    assert (Hinv : forall f w0, MaxChunk (defaults o) < 2 ^ 32 -> ok_log [] (mkLog (defaults o) [] 0 0 0 false 0
      false None f 0 0 0 [] [] "" None) w0).
    { intros f w0 Hm. split; [|by left]. split; try done; cbn; try lia. intros f0 _. by apply spill_ok_zero. }
    destruct (0 <? SpillBytes (defaults o)) eqn:Es; [destruct (disk_open w) as [[e|] w1]; [discriminate|]|];
      intros [= <- <-] Hm; cbn [opts] in Hm; (split; [by apply Hinv|]);
      (split; [exists 0; split; [done|by left]|]); (split; [intros i Hi; cbn in Hi; lia|]);
      (split; [cbn [spill opts is_open]; by rewrite Es|]); cbn [spill opts is_open]; bool_hyp; intros Hb;
      try done; specialize (Hblob Hb); lia.
  Qed.

  (** ** Reads with other operations in between *)

Lemma read_interleaved_next between : forall max from out l w,
    next l <= next (snd (fst (read_interleaved between max from out l w))).
  Proof.
    induction between as [|ops between IH]; intros max from out l w; cbn [read_interleaved].
    { by rewrite read_loop_next. }
    pose proof (read_turn_next max from out l w) as H.
    destruct (read_turn max from out l w) as [[[r|f o] l1] w1]; cbn [fst snd] in *; [lia|].
    pose proof (run_next ops (l1, w1)) as Hr. destruct (run (l1, w1) ops) as [l2 w2]. cbn [fst] in Hr.
    specialize (IH max f o l2 w2). lia.
  Qed.

Lemma reading_extend h x from0 from max out : reading h from0 from max out ->
    (from = from0 \/ from <= Z.of_nat (length h)) -> reading (h ++ x) from0 from max out.
  Proof.
    intros (H0 & -> & Hfr & Hm) _. split; [done|]. split; [|split; [rewrite length_app; lia|done]].
    destruct Hfr as [->|Hle]; [by rewrite !sub_empty|]. symmetry. by apply sub_extend; [lia|].
  Qed.

Lemma read_interleaved_spec between : forall h l w from0 from max out r l2 w2,
    ok_log h l w -> reading h from0 from max out -> Forall (Forall valid_read) between ->
    read_interleaved between max from out l w = (r, l2, w2) -> next l2 <= 2 ^ 64 ->
    exists x, (between = [] -> x = []) /\
      exists r', r = Some r' /\
      match r' with
      | Ok out' => exists e, reading (h ++ x) from0 e max out'
      | Err _ => True
      end.
  Proof.
    induction between as [|ops between IH]; intros h l w from0 from max out r l2 w2 Hok Hrd Hval;
      cbn [read_interleaved].
    { pose proof (read_loop_spec _ h l w from0 from max out Hok Hrd (Nat.lt_succ_diag_r _)) as H.
      intros Heq _. rewrite Heq in H. destruct H as (_ & _ & r' & -> & Hr).
      exists []. rewrite app_nil_r. split; [done|]. exists r'. split; [done|].
      destruct r'; [|done]. destruct Hr as (_ & e & He & _). by exists e. }
    apply Forall_cons in Hval as [Hv Hval].
    pose proof (read_turn_spec h l w from0 from max out Hok Hrd) as H.
    destruct (read_turn max from out l w) as [[o l1] w1]. destruct H as (Ht & Hw & H).
    destruct o as [r'|from' out'].
    { intros [= <- <- <-] _. exists []. rewrite app_nil_r. split; [done|]. exists r'. split; [done|].
      destruct r'; [|done]. destruct H as (_ & e & He & _). by exists e. }
    destruct H as (-> & Hf & Hrd'). destruct (run (l, w1) ops) as [l3 w3] eqn:Er. intros Heq Hlen.
    assert (Hlen3 : next l3 <= 2 ^ 64).
    { etrans; [|exact Hlen]. pose proof (read_interleaved_next between max from' out' l3 w3) as Hn.
      by rewrite Heq in Hn. }
    destruct (run_spec ops h l w1 (ok_log_stable _ _ _ _ Hok Hw) Hv) as [Hok3 _]; [by rewrite Er|].
    rewrite Er in Hok3. cbn [fst snd] in Hok3.
    destruct (IH (h ++ history (l, w1) ops) l3 w3 from0 from' max out' r l2 w2 Hok3) as (x & _ & r' & -> & Hr);
      [apply reading_extend; [done|apply Hrd']|done|exact Heq|done|].
    exists (history (l, w1) ops ++ x). split; [done|]. exists r'. split; [done|].
    destruct r'; [|done]. by rewrite app_assoc.
  Qed.

  (** ** Runs that lose nothing *)

Lemma run_cov ops : forall h l w, ok_log h l w -> Forall valid_read ops ->
    Forall (fun o => is_forget o = false) ops -> next (fst (run (l, w) ops)) <= 2 ^ 64 ->
    BlobStore (opts l) = true -> is_open (spill l) = true -> writes_ok -> cov_at l (first l) ->
    cov_at (fst (run (l, w) ops)) (first (fst (run (l, w) ops))).
  Proof.
    induction ops as [|o ops IH]; intros h l w Hok Hv Hnf Hlen Hb Hop Hw Hcov; [done|].
    apply Forall_cons in Hv as [Hvo Hv]. apply Forall_cons in Hnf as [Hno Hnf]. cbn [run foldl] in *.
    assert (Hlen1 : next (fst (apply_op (l, w) o)) <= 2 ^ 64) by (etrans; [apply run_next|exact Hlen]).
    pose proof (apply_op_spec h l w o Hok Hvo Hlen1) as H.
    destruct (apply_op (l, w) o) as [l1 w1]. destruct H as (Hok1 & Ho1 & Hp). specialize (Hp Hno).
    eapply IH; try done; [by rewrite Ho1| |].
    - destruct Hp as [_ _ _ Hso _ _]. unfold open_same in Hso. by rewrite Hso.
    - apply Hp; auto.
  Qed.

  (** Every operation of the run reports success and none releases the log. *)
Fixpoint all_succeed (lw : Log * W) (ops : list op) : Prop :=
    match ops with
    | [] => True
    | o :: t => op_error (fst lw) (snd lw) o = None /\ is_forget o = false /\ all_succeed (apply_op lw o) t
    end.

Lemma run_tight ops : forall h l w, ok_log h l w -> Forall valid_read ops ->
    all_succeed (l, w) ops -> next (fst (run (l, w) ops)) <= 2 ^ 64 ->
    BlobStore (opts l) = true -> is_open (spill l) = true -> tight_at l (first l) ->
    let l' := fst (run (l, w) ops) in
    tight_at l' (first l') /\ BlobStore (opts l') = true /\ is_open (spill l') = true.
  Proof.
    induction ops as [|o ops IH]; intros h l w Hok Hv Hall Hlen Hb Hop Ht; [done|].
    apply Forall_cons in Hv as [Hvo Hv]. destruct Hall as (He & Hno & Hall). cbn [run foldl fst snd] in *.
    assert (Hlen1 : next (fst (apply_op (l, w) o)) <= 2 ^ 64) by (etrans; [apply run_next|exact Hlen]).
    pose proof (apply_op_spec h l w o Hok Hvo Hlen1) as H. rewrite He in H.
    destruct (apply_op (l, w) o) as [l1 w1]. destruct H as (Hok1 & Ho1 & Hp). specialize (Hp Hno).
    eapply IH; try done; [by rewrite Ho1| |].
    - destruct Hp as [_ _ _ Hso _ _]. unfold open_same in Hso. by rewrite Hso.
    - apply Hp; auto.
  Qed.
End invariants.

(** C4: a read returns exactly what was appended: whatever operations and
    whatever disk, blob store and commit failures preceded it, and whatever
    other operations run between its turns, [Read] always returns, and the
    chunks it returns without an error are a contiguous slice of the history
    of appended chunks starting at the requested sequence, at most [max] of
    them.  Missing data is an error, never a silent gap. *)
Theorem read_is_truthful : forall (W : Type) (E : Env W) (L : EnvLaws E)
    o w0 l0 w ops between from max r l2 w2,
  NewLog o w0 = (Ok l0, w) -> MaxChunk (opts l0) < 2 ^ 32 ->
  Forall valid_read ops -> Forall (Forall valid_read) between -> 0 <= from ->
  read_interleaved between max from [] (fst (run (l0, w) ops)) (snd (run (l0, w) ops)) = (r, l2, w2) ->
  next l2 <= 2 ^ 64 ->
  exists x, (between = [] -> x = []) /\
    match r with
    | Some (Ok out) =>
        out = take (length out) (drop (Z.to_nat from) (history (l0, w) ops ++ x)) /\
        (0 < max -> Z.of_nat (length out) <= max)
    | Some (Err _) => True
    | None => False
    end.
Proof.
  intros W E L o w0 l0 w ops between from max r l2 w2 Hnew Hmax Hv Hvb Hfrom Hread Hlen.
  destruct (NewLog_ok _ _ _ _ Hnew Hmax) as [Hok0 _].
  assert (Hlen1 : next (fst (run (l0, w) ops)) <= 2 ^ 64).
  { etrans; [|exact Hlen]. pose proof (read_interleaved_next between max from [] (fst (run (l0, w) ops))
      (snd (run (l0, w) ops))) as Hn. by rewrite Hread in Hn. }
  destruct (run_spec ops [] l0 w Hok0 Hv Hlen1) as [Hok _]. cbn [app] in Hok.
  destruct (read_interleaved_spec between _ _ _ from from max [] r l2 w2 Hok) as (x & Hx & r' & -> & Hr);
    [|done|exact Hread|done|].
  { unfold reading. rewrite sub_empty. cbn. split_and!; first [done|lia|by left]. }
  exists x. split; [done|]. destruct r' as [out|]; [|done].
  destruct Hr as (e & He0 & Hout & Hfe & Hm). split; [|done].
  destruct Hfe as [->|Hle]; [by rewrite Hout, sub_empty|].
  rewrite Hout. rewrite length_sub by lia. reflexivity.
Qed.

(** the exit marker stays hidden until the record is durable: no read
    returns a chunk at or beyond the visible end, which is the position of the
    terminal append as long as the log is not closed or closed with a failed
    completion. *)
Theorem terminal_hidden_until_committed : forall (W : Type) (E : Env W) (L : EnvLaws E)
    o w0 l0 w ops from max out l2 w2,
  NewLog o w0 = (Ok l0, w) -> MaxChunk (opts l0) < 2 ^ 32 -> Forall valid_read ops -> 0 <= from ->
  let l := fst (run (l0, w) ops) in
  next l <= 2 ^ 64 ->
  Read from max l (snd (run (l0, w) ops)) = (Some (Ok out), l2, w2) ->
  Forall (fun c => Seq c < visibleNextLocked l) out /\
  (terminalPending l = true -> (closed l = false \/ completionErr l <> None) ->
   visibleNextLocked l = terminalFirst l).
Proof.
  intros W E L o w0 l0 w ops from max out l2 w2 Hnew Hmax Hv Hfrom l Hlen Hread.
  destruct (NewLog_ok _ _ _ _ Hnew Hmax) as [Hok0 _].
  destruct (run_spec ops [] l0 w Hok0 Hv Hlen) as [Hok _]. cbn [app] in Hok. fold l in Hok.
  split.
  - pose proof (Read_spec _ l _ from max Hok Hfrom) as H. rewrite Hread in H.
    destruct H as (_ & _ & r & [= <-] & _ & e & (He0 & -> & Hfe & _) & Hev & _).
    apply Forall_forall. intros c (i & Hi)%list_elem_of_lookup.
    destruct Hev as [->|Hle]; [by rewrite sub_empty in Hi|].
    unfold sub, slice in Hi. apply lookup_take_Some in Hi as [Hi Hlt]. rewrite lookup_drop in Hi.
    destruct (i_hist _ _ _ (proj1 Hok) _ _ Hi) as [-> _]. lia.
  - intros Htp Hc. unfold visibleNextLocked. rewrite Htp. cbn [andb].
    destruct Hc as [->|Hc]; [done|]. destruct (completionErr l); [|done]. by rewrite orb_true_r.
Qed.

(** a log with a blob tier whose operations all reported success
    replays completely: when disk reads and blob opens succeed, reading from
    zero without a limit returns the whole visible history, wherever its
    chunks are, in memory, in the spill or in segments. *)
Theorem successful_log_replays_completely : forall (W : Type) (E : Env W) (L : EnvLaws E)
    o w0 l0 w ops,
  NewLog o w0 = (Ok l0, w) -> MaxChunk (opts l0) < 2 ^ 32 -> BlobStore (opts l0) = true ->
  Forall valid_read ops -> all_succeed (l0, w) ops ->
  let l := fst (run (l0, w) ops) in
  next l <= 2 ^ 64 -> reads_ok -> opens_ok ->
  fst (fst (Read 0 0 l (snd (run (l0, w) ops)))) =
    Some (Ok (take (Z.to_nat (visibleNextLocked l)) (history (l0, w) ops))).
Proof.
  intros W E L o w0 l0 w ops Hnew Hmax Hb Hv Hall l Hlen Hro Hoo.
  destruct (NewLog_ok _ _ _ _ Hnew Hmax) as (Hok0 & Ht0 & _ & _ & Hop0). specialize (Hop0 Hb).
  destruct (run_spec ops [] l0 w Hok0 Hv Hlen) as [Hok _]. cbn [app] in Hok. fold l in Hok.
  destruct (run_tight ops [] l0 w Hok0 Hv Hall Hlen Hb Hop0 Ht0) as (Ht & Hb' & Hop).
  pose proof (Read_spec _ l _ 0 0 Hok ltac:(lia)) as H.
  destruct (Read 0 0 l _) as [[r l2] w2]. destruct H as (_ & _ & r' & -> & Hr). cbn [fst].
  destruct r' as [out|e].
  - destruct Hr as (_ & e & (_ & -> & Hfe & _) & Hev & Hend).
    assert (Hvn : 0 <= visibleNextLocked l).
    { unfold visibleNextLocked. pose proof (i_term _ _ _ (proj1 Hok)). pose proof (i_first _ _ _ (proj1 Hok)).
      destruct (_ && _); lia. }
    assert (e = visibleNextLocked l) as -> by lia.
    unfold sub, slice. rewrite Z.sub_0_r. done.
  - exfalso. by apply Hr.
Qed.

(** C33: nothing is lost to failures of the blob store or the durable
    record: with a blob tier and working disk writes, whatever [Put], [Head],
    commit, truncate and seek failures occur, every appended chunk is at every
    moment in a stored segment, in the spill file, or in memory. *)
Theorem no_chunk_is_lost : forall (W : Type) (E : Env W) (L : EnvLaws E) o w0 l0 w ops i,
  NewLog o w0 = (Ok l0, w) -> MaxChunk (opts l0) < 2 ^ 32 -> BlobStore (opts l0) = true ->
  Forall valid_read ops -> Forall (fun p => is_forget p = false) ops -> writes_ok ->
  let l := fst (run (l0, w) ops) in
  let w' := snd (run (l0, w) ops) in
  let h := history (l0, w) ops in
  next l <= 2 ^ 64 -> 0 <= i < next l ->
  (exists s, s ∈ segments l /\ First s <= i < Next s /\
     stored w' (Artifact s) (encode (sub h (First s) (Next s)))) \/
  (exists f, spill l = Some f /\ spillFirst l <= i < spillNext l /\
     take (Z.to_nat (spillBytes l)) f = encode (sub h (spillFirst l) (spillNext l))) \/
  (first l <= i /\ chunks l !! Z.to_nat (i - first l) = h !! Z.to_nat i).
Proof.
  intros W E L o w0 l0 w ops i Hnew Hmax Hb Hv Hnf Hw l w' h Hlen Hi.
  destruct (NewLog_ok _ _ _ _ Hnew Hmax) as (Hok0 & _ & Hcov0 & _ & Hop0). specialize (Hop0 Hb).
  destruct (run_spec ops [] l0 w Hok0 Hv Hlen) as [[Hinv _] Hopts]. cbn [app] in Hinv.
  fold l w' h in Hinv, Hopts.
  pose proof (run_cov ops [] l0 w Hok0 Hv Hnf Hlen Hb Hop0 Hw Hcov0) as Hcov. fold l in Hcov.
  destruct (Z.lt_ge_cases i (first l)) as [Hlt|Hge].
  - destruct (Hcov i ltac:(lia)) as [(s & Hin & Hs)%Exists_exists|Hs].
    + left. exists s. split; [done|]. split; [done|].
      pose proof (i_segs _ _ _ Hinv) as Hsegs. rewrite Forall_forall in Hsegs. by apply Hsegs.
    + right. left. destruct (spill l) as [f|] eqn:Ef.
      * exists f. split; [done|]. split; [done|].
        apply (blob_exact _ _ _ Hinv); [by rewrite Hopts|done].
      * exfalso. assert (Hop : is_open (spill l) = true); [|by rewrite Ef in Hop].
        clear - Hok0 Hv Hnf Hlen Hop0. subst l. revert Hok0 Hop0. generalize (@nil Chunk). revert l0 w Hlen.
        induction ops as [|p ops IH]; intros l0 w Hlen h Hok Hop; [done|].
        apply Forall_cons in Hv as [Hvo Hv]. apply Forall_cons in Hnf as [Hno Hnf]. cbn [run foldl] in *.
        assert (Hlen1 : next (fst (apply_op (l0, w) p)) <= 2 ^ 64) by (etrans; [apply run_next|exact Hlen]).
        pose proof (apply_op_spec h l0 w p Hok Hvo Hlen1) as H.
        destruct (apply_op (l0, w) p) as [l1 w1]. destruct H as (Hok1 & _ & Hp). specialize (Hp Hno).
        eapply IH; [done|done|done|exact Hok1|]. pose proof (po_open _ _ _ _ _ _ _ Hp) as Ho.
        unfold open_same in Ho. by rewrite Ho.
  - right. right. split; [done|]. rewrite (i_chunks _ _ _ Hinv), lookup_drop. f_equal.
    pose proof (i_first _ _ _ Hinv). lia.
Qed.

(** an accepted append cuts its data into chunks without loss: the
    chunks it adds are numbered consecutively from the sequence it returns,
    carry the stream, are at most [MaxChunk] bytes each, and concatenate to
    the data; at least one chunk is added, so that an empty write is still a
    record. *)
Theorem append_is_lossless : forall (W : Type) (E : Env W) (L : EnvLaws E) o w0 l0 w ops stream data,
  NewLog o w0 = (Ok l0, w) -> MaxChunk (opts l0) < 2 ^ 32 -> Forall valid_read ops ->
  let l := fst (run (l0, w) ops) in
  next l <= 2 ^ 64 -> closed l = false -> appendErr l = None ->
  let cs := appended l (OAppend stream data) in
  fst (fst (fst (Append stream data l (snd (run (l0, w) ops))))) = next l /\
  cs <> [] /\ concat (map Data cs) = data /\
  (forall i c, cs !! i = Some c -> Seq c = next l + Z.of_nat i /\ Stream c = stream /\
     Z.of_nat (length (Data c)) <= MaxChunk (opts l)).
Proof.
  intros W E L o w0 l0 w ops stream data Hnew Hmax Hv l Hlen Hcl Hae cs.
  destruct (NewLog_ok _ _ _ _ Hnew Hmax) as [Hok0 _].
  destruct (run_spec ops [] l0 w Hok0 Hv Hlen) as [[Hinv _] _]. cbn [app] in Hinv. fold l in Hinv.
  destruct (piece_list_spec _ _ _ data Hinv) as (Hc & Hf & Hne).
  assert (Hcs : cs = number (next l) stream (piece_list l data)).
  { unfold cs, appended. by rewrite Hcl, Hae. }
  split_and!.
  - unfold Append, appendLocked. fold l. rewrite Hcl, Hae. cbn [is_open andb].
    destruct (evictLocked _ _ _) as [[[u|e] l2] w2]; done.
  - rewrite Hcs. by destruct (piece_list l data).
  - rewrite Hcs. transitivity (concat (piece_list l data)); [|exact Hc]. clear. generalize (next l).
    induction (piece_list l data) as [|p ps IH]; intros n; cbn [number map concat Data]; [done|]. by rewrite IH.
  - intros i c Hi. rewrite Hcs in Hi. pose proof (number_lookup _ _ _ _ _ Hi) as [Hs Hd].
    split_and!; [done| |].
    + clear - Hi. revert Hi. generalize (next l) i. induction (piece_list l data) as [|p ps IH];
        intros n [|j]; cbn; try done; [by intros [= <-]|]. apply IH.
    + rewrite Forall_forall in Hf. apply Hf. by eapply list_elem_of_lookup_2.
Qed.

(** memory is bounded: after an accepted append that reports no error, the
    ring holds at most [MaxChunks] chunks and [MemBytes] bytes, or a single
    chunk of at most [MaxChunk] bytes. *)
Theorem memory_ring_is_bounded : forall (W : Type) (E : Env W) (L : EnvLaws E) o w0 l0 w ops stream data,
  NewLog o w0 = (Ok l0, w) -> MaxChunk (opts l0) < 2 ^ 32 -> Forall valid_read ops ->
  let l := fst (run (l0, w) ops) in
  let '(_, e, l', w') := Append stream data l (snd (run (l0, w) ops)) in
  next l' <= 2 ^ 64 -> closed l = false -> e = None ->
  bytes l' = mem_bytes (chunks l') /\
  ((bytes l' <= MemBytes (opts l') /\ Z.of_nat (length (chunks l')) <= MaxChunks (opts l')) \/
   ((length (chunks l') <= 1)%nat /\ bytes l' <= MaxChunk (opts l'))).
Proof.
  intros W E L o w0 l0 w ops stream data Hnew Hmax Hv l.
  destruct (NewLog_ok _ _ _ _ Hnew Hmax) as [Hok0 _]. unfold Append.
  pose proof (appendLocked_next stream data false l (snd (run (l0, w) ops))) as Hn.
  pose proof (fun Hok => appendLocked_spec (history (l0, w) ops) l (snd (run (l0, w) ops)) stream data false Hok) as Hs.
  destruct (appendLocked stream data false l _) as [[[f e] l'] w'] eqn:Eap. intros Hlen Hcl He.
  assert (Hlen1 : next (fst (run (l0, w) ops)) <= 2 ^ 64) by (fold l; lia).
  destruct (run_spec ops [] l0 w Hok0 Hv Hlen1) as [Hok _]. cbn [app] in Hok.
  destruct (Hs Hok) as [_ Hpost]. destruct (Hpost Hlen) as [Hp Hme]. clear Hs Hpost.
  assert (Hae : is_open (appendErr l) = false).
  { destruct (appendErr l) eqn:Ea; [|done]. unfold appendLocked in Eap. rewrite Hcl, Ea in Eap. cbn in Eap.
    injection Eap as <- <- _ _. congruence. }
  rewrite Hcl, Hae in Hme. specialize (Hme eq_refl He).
  destruct (po_ok _ _ _ _ _ _ _ Hp) as [Hinv _]. pose proof (i_bytes _ _ _ Hinv) as Hby. split; [done|].
  unfold must_evict in Hme. cbn [orb] in Hme. destruct (chunks l') as [|c [|c2 t]] eqn:Ec; cbn in Hme.
  - right. cbn in *. pose proof (i_max _ _ _ Hinv). lia.
  - right. split; [cbn; lia|]. rewrite Hby. cbn.
    assert (Hc : head (chunks l') = Some c) by by rewrite Ec.
    destruct (head_chunk _ _ _ _ Hinv Hc) as [_ Hl]. destruct (i_hist _ _ _ Hinv _ _ Hl). lia.
  - left. rewrite andb_true_r in Hme. bool_hyp. split; [lia|]. cbn [length]. lia.
Qed.

(** ** A concrete world

    An in-memory content-addressed store and disk; [faults] says of each call
    in turn whether it fails, and calls past its end succeed. *)

Record world := mkWorld { blobs : gmap string (list byte); faults : list bool; committed : list LogRecord }.

Definition pop (w : world) : bool * world :=
  match faults w with
  | [] => (false, w)
  | b :: t => (b, mkWorld (blobs w) t (committed w))
  end.

Definition blob_id (d : list byte) : string :=
  ("sha256:" ++ EncodeToString (Sha256.Sum256 (map byte_val d)))%string.

Definition faulty (w : world) : option string * world :=
  let '(b, w') := pop w in (if b then Some "fault"%string else None, w').

Definition commit_to (w : world) (r : LogRecord) : option string * world :=
  let '(b, w') := pop w in
  if b then (Some "commit"%string, w') else (None, mkWorld (blobs w') (faults w') (r :: committed w')).

#[local] Instance test_env : Env world := {|
  blob_put w d :=
    let '(b, w') := pop w in
    if b then (Err "put"%string, w')
    else match blobs w' !! blob_id d with
    | Some x => if bool_decide (x = d) then (Ok (blob_id d, Z.of_nat (length d)), w')
                else (Err "collision"%string, w')
    | None => (Ok (blob_id d, Z.of_nat (length d)),
               mkWorld (<[blob_id d := d]> (blobs w')) (faults w') (committed w'))
    end;
  blob_head w id :=
    let '(b, w') := pop w in
    if b then (Err "head"%string, w')
    else match blobs w' !! id with
    | Some d => (Ok (Z.of_nat (length d)), w') | None => (Err "not found"%string, w') end;
  blob_open w id :=
    let '(b, w') := pop w in
    if b then (Err "open"%string, w')
    else match blobs w' !! id with
    | Some d => (Ok (d, Z.of_nat (length d)), w') | None => (Err "not found"%string, w') end;
  commit_record := commit_to;
  final_commit := commit_to;
  publish w _ := w;
  disk_open := faulty;
  disk_write w _ := let '(b, w') := pop w in (if b then Some 3%nat else None, w');
  disk_truncate := faulty;
  disk_seek := faulty;
  disk_read := faulty |}.

Lemma pop_blobs w : blobs (snd (pop w)) = blobs w.
Proof. unfold pop. by destruct (faults w). Qed.

Lemma faulty_blobs w : blobs (snd (faulty w)) = blobs w.
Proof. unfold faulty. rewrite <- (pop_blobs w). by destruct (pop w). Qed.

Lemma commit_blobs w r : blobs (snd (commit_to w r)) = blobs w.
Proof. unfold commit_to. rewrite <- (pop_blobs w). by destruct (pop w) as [[] ?]. Qed.

#[local] Instance test_laws : EnvLaws test_env.
Proof.
  refine {| stored w id d := blobs w !! id = Some d |}; cbn.
  - intros w d id n w'. destruct (pop w) as [[] w1]; [discriminate|].
    destruct (blobs w1 !! blob_id d) as [x|] eqn:El.
    + destruct (bool_decide (x = d)) eqn:Eb; [|discriminate]. apply bool_decide_eq_true in Eb.
      intros [= <- _ <-]. by rewrite El, Eb.
    + intros [= <- _ <-]. cbn. apply lookup_insert_eq.
  - intros w id b n w' d. pose proof (pop_blobs w) as Hp. destruct (pop w) as [[] w1]; [discriminate|].
    cbn in Hp. rewrite Hp. intros Ho Hs. rewrite Hs in Ho. by injection Ho as <- _ _.
  - intros w d id x Hs. pose proof (pop_blobs w) as Hp. destruct (pop w) as [[] w1]; cbn in *; rewrite ?Hp; [done|].
    destruct (blobs w !! blob_id d) as [y|] eqn:El; [by destruct (bool_decide _); cbn; rewrite ?Hp|].
    cbn. rewrite ?Hp. rewrite lookup_insert_ne; [done|]. congruence.
  - intros w i id x Hs. pose proof (pop_blobs w) as Hp. destruct (pop w) as [[] w1]; cbn in *; rewrite ?Hp; [done|].
    destruct (blobs w !! i); cbn; by rewrite ?Hp.
  - intros w i id x Hs. pose proof (pop_blobs w) as Hp. destruct (pop w) as [[] w1]; cbn in *; rewrite ?Hp; [done|].
    destruct (blobs w !! i); cbn; by rewrite ?Hp.
  - intros w r id x Hs. by rewrite commit_blobs.
  - intros w r id x Hs. by rewrite commit_blobs.
  - done.
  - intros w id x Hs. by rewrite faulty_blobs.
  - intros w n id x Hs. rewrite <- (pop_blobs w) in Hs. by destruct (pop w).
  - intros w id x Hs. by rewrite faulty_blobs.
  - intros w id x Hs. by rewrite faulty_blobs.
  - intros w id x Hs. by rewrite faulty_blobs.
Defined.

Definition ex_opts : LogOptions := mkLogOptions 1 100 "spill" 5 0 true 18 0 true.
Definition clean : world := mkWorld ∅ [] [].
(** The first three calls succeed, the fourth fails, the rest succeed. *)
Definition one_fault : world := mkWorld ∅ [false; false; false; true] [].

Definition ex_new (w : world) : Log * world :=
  match NewLog ex_opts w with
  | (Ok l, w') => (l, w')
  | (Err _, w') => (mkLog ex_opts [] 0 0 0 false 0 false None None 0 0 0 [] [] "" None, w')
  end.

Definition ex_ops : list op :=
  [OAppend x01 (list_byte_of_string "hello"); OAppend x01 (list_byte_of_string "worlds!")].

(** one transient failure can make a log unable to complete.  When a
    record exactly fills a segment and the seal that follows its write fails,
    the chunk is both in the spill and in memory.  The retry seals the spilled
    copy, writes the chunk again, and the next seal is refused as
    non-contiguous: here the only failure is one [Put], every later call
    succeeds, and still [Close] fails, and failing, hides the exit marker for
    good, while the same run without the fault completes. *)
Theorem transient_seal_failure_breaks_completion :
  let final w := run (ex_new w) (ex_ops ++ [OTerminal x00 (list_byte_of_string "exit")]) in
  fst (fst (Close (fst (final clean)) (snd (final clean)))) = None /\
  faults (snd (final one_fault)) = [] /\
  fst (fst (Close (fst (final one_fault)) (snd (final one_fault)))) = Some ErrNonContiguous.
Proof. vm_compute. done. Qed.

Definition ex_l0 : Log := fst (ex_new clean).
Definition ex_w0 : world := snd (ex_new clean).

Lemma ex_new_clean : NewLog ex_opts clean = (Ok ex_l0, ex_w0).
Proof. vm_compute. reflexivity. Qed.

Lemma ex_max : MaxChunk (opts ex_l0) < 2 ^ 32.
Proof. vm_compute. reflexivity. Qed.

Lemma ex_valid : Forall valid_read ex_ops.
Proof. repeat constructor. Qed.

Lemma read_is_truthful_witness :
  exists x, (@nil (list op) = [] -> x = []) /\
  match fst (fst (read_interleaved [] 2 1 [] (fst (run (ex_l0, ex_w0) ex_ops)) (snd (run (ex_l0, ex_w0) ex_ops)))) with
  | Some (Ok out) => out = take (length out) (drop 1 (history (ex_l0, ex_w0) ex_ops ++ x)) /\
      (0 < 2 -> Z.of_nat (length out) <= 2)
  | Some (Err _) => True
  | None => False
  end.
Proof.
  destruct (read_interleaved [] 2 1 [] (fst (run (ex_l0, ex_w0) ex_ops)) (snd (run (ex_l0, ex_w0) ex_ops)))
    as [[r l2] w2] eqn:Er.
  apply (read_is_truthful world test_env test_laws ex_opts clean ex_l0 ex_w0
    ex_ops [] 1 2 r l2 w2 ex_new_clean); [exact ex_max|exact ex_valid|constructor|lia|exact Er|].
  assert (Hn : next l2 = 3).
  { change l2 with (snd (fst (r, l2, w2))). rewrite <- Er. vm_compute. reflexivity. }
  rewrite Hn. lia.
Defined.

Lemma terminal_hidden_until_committed_witness :
  let l := fst (run (ex_l0, ex_w0) (ex_ops ++ [OTerminal x00 (list_byte_of_string "exit")])) in
  visibleNextLocked l = terminalFirst l /\ terminalFirst l = 3 /\ next l = 4.
Proof.
  intros l. split; [|vm_compute; split; reflexivity].
  destruct (Read 0 0 l (snd (run (ex_l0, ex_w0) (ex_ops ++ [OTerminal x00 (list_byte_of_string "exit")]))))
    as [[[[out|e]|] l2] w2] eqn:Er;
    [|apply (f_equal (fun x => match x with (Some (Err _), _, _) => true | _ => false end)) in Er;
      vm_compute in Er; discriminate
     |apply (f_equal (fun x => match x with (None, _, _) => true | _ => false end)) in Er;
      vm_compute in Er; discriminate].
  assert (Htp : terminalPending l = true) by (vm_compute; reflexivity).
  assert (Hcl : closed l = false) by (vm_compute; reflexivity).
  refine (proj2 (terminal_hidden_until_committed world test_env test_laws ex_opts clean ex_l0 ex_w0 (ex_ops ++ [OTerminal x00 (list_byte_of_string "exit")]) 0 0 out l2 w2
    ex_new_clean ex_max _ _ _ Er) Htp (or_introl Hcl)).
  - repeat constructor.
  - lia.
  - assert (Hn : next l = 4) by (vm_compute; reflexivity). change (next l <= 2 ^ 64). rewrite Hn. lia.
Defined.

(** A world that never fails, with the same store. *)
#[local] Instance calm_env : Env world := {|
  blob_put w d :=
    match blobs w !! blob_id d with
    | Some x => if bool_decide (x = d) then (Ok (blob_id d, Z.of_nat (length d)), w)
                else (Err "collision"%string, w)
    | None => (Ok (blob_id d, Z.of_nat (length d)),
               mkWorld (<[blob_id d := d]> (blobs w)) (faults w) (committed w))
    end;
  blob_head w id :=
    match blobs w !! id with
    | Some d => (Ok (Z.of_nat (length d)), w) | None => (Err "not found"%string, w) end;
  blob_open w id :=
    match blobs w !! id with
    | Some d => (Ok (d, Z.of_nat (length d)), w) | None => (Err "not found"%string, w) end;
  commit_record w r := (None, mkWorld (blobs w) (faults w) (r :: committed w));
  final_commit w r := (None, mkWorld (blobs w) (faults w) (r :: committed w));
  publish w _ := w;
  disk_open w := (None, w);
  disk_write w _ := (None, w);
  disk_truncate w := (None, w);
  disk_seek w := (None, w);
  disk_read w := (None, w) |}.

#[local] Instance calm_laws : EnvLaws calm_env.
Proof.
  refine {| stored w id d := blobs w !! id = Some d |}; cbn; try done.
  - intros w d id n w'. destruct (blobs w !! blob_id d) as [x|] eqn:El.
    + destruct (bool_decide (x = d)) eqn:Eb; [|discriminate]. apply bool_decide_eq_true in Eb.
      intros [= <- _ <-]. by rewrite El, Eb.
    + intros [= <- _ <-]. cbn. apply lookup_insert_eq.
  - intros w id b n w' d Ho Hs. rewrite Hs in Ho. by injection Ho as <- _ _.
  - intros w d id x Hs. destruct (blobs w !! blob_id d) as [y|] eqn:El; [by destruct (bool_decide _)|].
    cbn. rewrite lookup_insert_ne; [done|]. congruence.
  - intros w i id x Hs. by destruct (blobs w !! i).
  - intros w i id x Hs. by destruct (blobs w !! i).
Defined.

Definition calm_new : Log * world :=
  match NewLog (E := calm_env) ex_opts clean with
  | (Ok l, w') => (l, w')
  | (Err _, w') => (mkLog ex_opts [] 0 0 0 false 0 false None None 0 0 0 [] [] "" None, w')
  end.

Definition calm_l0 : Log := fst calm_new.
Definition calm_w0 : world := snd calm_new.

Lemma calm_new_eq : NewLog (E := calm_env) ex_opts clean = (Ok calm_l0, calm_w0).
Proof. vm_compute. reflexivity. Qed.

Lemma calm_max : MaxChunk (opts calm_l0) < 2 ^ 32.
Proof. vm_compute. reflexivity. Qed.

Lemma calm_blob : BlobStore (opts calm_l0) = true.
Proof. vm_compute. reflexivity. Qed.

Definition calm_ops : list op := ex_ops ++ [OTerminal x00 (list_byte_of_string "exit"); OClose true].

Lemma calm_succeed : all_succeed (E := calm_env) (calm_l0, calm_w0) calm_ops.
Proof. vm_compute. done. Qed.

Lemma successful_log_replays_completely_witness :
  let l := fst (run (E := calm_env) (calm_l0, calm_w0) calm_ops) in
  fst (fst (Read (E := calm_env) 0 0 l (snd (run (E := calm_env) (calm_l0, calm_w0) calm_ops)))) =
    Some (Ok (take (Z.to_nat (visibleNextLocked l)) (history (E := calm_env) (calm_l0, calm_w0) calm_ops))) /\
  visibleNextLocked l = 4 /\ length (segments l) = 4%nat.
Proof.
  intros l. split; [|vm_compute; split; reflexivity].
  apply (successful_log_replays_completely world calm_env calm_laws ex_opts clean calm_l0 calm_w0
    calm_ops); [exact calm_new_eq|exact calm_max|exact calm_blob|repeat constructor|exact calm_succeed| | |].
  - assert (Hn : next l = 4) by (vm_compute; reflexivity). change (next l <= 2 ^ 64). rewrite Hn. lia.
  - intros w. reflexivity.
  - intros w id d Hs. cbn in *. rewrite Hs. reflexivity.
Defined.

Lemma no_chunk_is_lost_witness :
  let l := fst (run (E := calm_env) (calm_l0, calm_w0) ex_ops) in
  let w' := snd (run (E := calm_env) (calm_l0, calm_w0) ex_ops) in
  let h := history (E := calm_env) (calm_l0, calm_w0) ex_ops in
  (exists s, s ∈ segments l /\ First s <= 0 < Next s /\
     stored (EnvLaws := calm_laws) w' (Artifact s) (encode (sub h (First s) (Next s)))) \/
  (exists f, spill l = Some f /\ spillFirst l <= 0 < spillNext l /\
     take (Z.to_nat (spillBytes l)) f = encode (sub h (spillFirst l) (spillNext l))) \/
  (first l <= 0 /\ chunks l !! Z.to_nat (0 - first l) = h !! Z.to_nat 0).
Proof.
  intros l w' h.
  assert (Hn : next l = 3) by (vm_compute; reflexivity).
  apply (no_chunk_is_lost world calm_env calm_laws ex_opts clean calm_l0 calm_w0 ex_ops 0);
    [exact calm_new_eq|exact calm_max|exact calm_blob|repeat constructor|repeat constructor|intros w n; reflexivity| |].
  - change (next l <= 2 ^ 64). rewrite Hn. lia.
  - change (0 <= 0 < next l). rewrite Hn. lia.
Defined.

Lemma append_is_lossless_witness :
  let l := fst (run (calm_l0, calm_w0) ex_ops) in
  concat (map Data (appended l (OAppend x02 (list_byte_of_string "abcdefg")))) = list_byte_of_string "abcdefg" /\
  length (appended l (OAppend x02 (list_byte_of_string "abcdefg"))) = 2%nat.
Proof.
  intros l. split; [|vm_compute; reflexivity].
  assert (Hn : next l = 3) by (vm_compute; reflexivity).
  assert (Hlen : next l <= 2 ^ 64) by (rewrite Hn; lia).
  assert (Hcl : closed l = false) by (vm_compute; reflexivity).
  assert (Hae : appendErr l = None) by (vm_compute; reflexivity).
  destruct (append_is_lossless world calm_env calm_laws ex_opts clean calm_l0 calm_w0 ex_ops x02
    (list_byte_of_string "abcdefg") calm_new_eq calm_max ex_valid Hlen Hcl Hae) as (_ & _ & H & _).
  exact H.
Defined.

Lemma memory_ring_is_bounded_witness :
  let l := fst (run (calm_l0, calm_w0) ex_ops) in
  let '(_, e, l', w') := Append x02 (list_byte_of_string "abc") l (snd (run (calm_l0, calm_w0) ex_ops)) in
  e = None /\
  ((bytes l' <= MemBytes (opts l') /\ Z.of_nat (length (chunks l')) <= MaxChunks (opts l')) \/
   ((length (chunks l') <= 1)%nat /\ bytes l' <= MaxChunk (opts l'))).
Proof.
  intros l.
  pose proof (memory_ring_is_bounded world calm_env calm_laws ex_opts clean calm_l0 calm_w0 ex_ops x02 (list_byte_of_string "abc") calm_new_eq calm_max ex_valid) as H.
  cbv zeta in H. change (fst (run (calm_l0, calm_w0) ex_ops)) with l in H.
  assert (Hn : (fun '(_, e, l', w') => (e, next l')) (Append x02 (list_byte_of_string "abc") l
    (snd (run (calm_l0, calm_w0) ex_ops))) = (None, 4)) by (vm_compute; reflexivity).
  destruct (Append x02 _ l _) as [[[f e] l'] w']. injection Hn as He Hn. split; [exact He|].
  apply H; [rewrite Hn; lia|vm_compute; reflexivity|exact He].
Defined.

End SessionLogProofs.
