(* ===== verification/Ids.v ===== *)
(** * Identifiers (internal/ids/ids.go)

    [New] builds an identifier from a prefix, the wall clock in milliseconds
    and ten random bytes; the clock and the random source are arguments.  The
    theorem is the documented one: the encoding keeps identifiers in the order
    of the milliseconds they were created in, whatever the random bytes are,
    and no two distinct inputs share an identifier. *)

From Stdlib Require Import ZArith Lia Strings.Byte Strings.String Strings.Ascii.
From stdpp Require Import base list option.
From S2P Require Import Prelude.
#[local] Open Scope Z_scope.

Module Ids.

(** The alphabet of [enc]. *)
Definition alphabet : string := "0123456789abcdefghjkmnpqrstvwxyz".

Definition enc_digit (d : Z) : ascii :=
  match String.get (Z.to_nat d) alphabet with Some c => c | None => "0"%char end.

(** [n] base-32 digits of [z], most significant first. *)
Fixpoint digits32 (n : nat) (z : Z) : list Z :=
  match n with
  | O => []
  | S n' => (z / 32 ^ Z.of_nat n') mod 32 :: digits32 n' z
  end.

(** Unpadded base32: the bits of the input, filled with zero bits up to a
    multiple of five, five bits a character. *)
Definition EncodeToString (b : list byte) : string :=
  let bits := 8 * Z.of_nat (length b) in
  let chars := (bits + 4) / 5 in
  string_of_list_ascii
    (map enc_digit (digits32 (Z.to_nat chars) (be_combine b * 2 ^ (5 * chars - bits)))).

(** The alphabet has no upper-case letter, so [strings.ToLower] keeps the
    text. *)
Definition New (prefix : string) (ms : Z) (random : list byte) : string :=
  (prefix ++ "_" ++ EncodeToString (be_split 6 (u64 ms) ++ random))%string.

Fixpoint Prefix (id : string) : string :=
  match id with
  | EmptyString => EmptyString
  | String c t =>
      if Ascii.eqb c "_" then EmptyString
      else if existsb (Ascii.eqb "_") (list_ascii_of_string t) then String c (Prefix t)
      else EmptyString
  end.

Example New_shape :
  New "ws" 1700000000000 (be_split 10 0x0102030405060708090a) = "ws_065wzsb8000g40r40m30e20918"%string.
Proof. vm_compute. reflexivity. Qed.

(** ** Lemmas *)

Lemma be_combine_acc_eq l : forall acc,
  be_combine_acc acc l = acc * 256 ^ Z.of_nat (length l) + be_combine l.
Proof.
  unfold be_combine. induction l as [|b t IH]; intros acc; cbn [be_combine_acc length].
  - rewrite Z.pow_0_r. lia.
  - rewrite IH, (IH (0 * 256 + _)), Nat2Z.inj_succ, Z.pow_succ_r by lia. lia.
Qed.

Lemma be_combine_cons b t :
  be_combine (b :: t) = byte_val b * 256 ^ Z.of_nat (length t) + be_combine t.
Proof. unfold be_combine at 1. cbn [be_combine_acc]. by rewrite be_combine_acc_eq. Qed.

Lemma be_combine_app l1 l2 :
  be_combine (l1 ++ l2) = be_combine l1 * 256 ^ Z.of_nat (length l2) + be_combine l2.
Proof. unfold be_combine at 1. by rewrite be_combine_acc_app, be_combine_acc_eq. Qed.

Lemma be_combine_range l : 0 <= be_combine l < 256 ^ Z.of_nat (length l).
Proof.
  induction l as [|b t IH]; [cbv; split; congruence|].
  rewrite be_combine_cons. cbn [length]. rewrite Nat2Z.inj_succ, Z.pow_succ_r by lia.
  pose proof (byte_val_range b). nia.
Qed.

Lemma be_combine_inj l : forall l',
  length l = length l' -> be_combine l = be_combine l' -> l = l'.
Proof.
  induction l as [|b t IH]; intros [|b' t'] Hlen He; try done.
  injection Hlen as Hlen. rewrite !be_combine_cons, <- Hlen in He.
  pose proof (be_combine_range t). pose proof (be_combine_range t') as Hr.
  rewrite <- Hlen in Hr.
  assert (byte_val b = byte_val b') as Hb by nia.
  f_equal; [|apply IH; [done|nia]].
  by rewrite <- (byte_of_val b), Hb, byte_of_val.
Qed.

Lemma ascii_compare_refl c : Ascii.compare c c = Eq.
Proof. unfold Ascii.compare. apply N.compare_refl. Qed.

Lemma compare_refl s : String.compare s s = Eq.
Proof. induction s as [|c s IH]; [done|]. simpl. by rewrite ascii_compare_refl. Qed.

Lemma compare_append p a b : String.compare (p ++ a) (p ++ b) = String.compare a b.
Proof.
  induction p as [|c p IH]; [done|]. 
  change (match Ascii.compare c c with Eq => String.compare (p ++ a) (p ++ b) | r => r end
          = String.compare a b).
  by rewrite ascii_compare_refl, IH.
Qed.

(** The alphabet ascends, so a smaller digit is a smaller byte. *)
Lemma enc_digit_mono d e :
  0 <= d < 32 -> 0 <= e < 32 -> Ascii.compare (enc_digit d) (enc_digit e) = (d ?= e).
Proof.
  intros Hd He.
  assert (forallb (fun d => forallb (fun e =>
            match Ascii.compare (enc_digit d) (enc_digit e), d ?= e with
            | Lt, Lt | Eq, Eq | Gt, Gt => true | _, _ => false end)
            (map Z.of_nat (seq 0 32))) (map Z.of_nat (seq 0 32)) = true) as Hall
    by (vm_compute; reflexivity).
  rewrite forallb_forall in Hall.
  assert (forall z, 0 <= z < 32 -> In z (map Z.of_nat (seq 0 32))) as Hin.
  { intros z Hz. apply in_map_iff. exists (Z.to_nat z). rewrite in_seq. lia. }
  specialize (Hall d (Hin d Hd)). rewrite forallb_forall in Hall.
  specialize (Hall e (Hin e He)).
  by destruct (Ascii.compare _ _), (d ?= e).
Qed.

Lemma mod_top n z :
  z mod 32 ^ Z.of_nat (S n) = (z / 32 ^ Z.of_nat n) mod 32 * 32 ^ Z.of_nat n + z mod 32 ^ Z.of_nat n.
Proof.
  rewrite Nat2Z.inj_succ, Z.pow_succ_r, (Z.mul_comm 32), Z.rem_mul_r by lia. lia.
Qed.

(** Fixed-width big-endian digits compare as the numbers do. *)
Lemma digits_compare n : forall x y,
  String.compare (string_of_list_ascii (map enc_digit (digits32 n x)))
                 (string_of_list_ascii (map enc_digit (digits32 n y)))
  = (x mod 32 ^ Z.of_nat n ?= y mod 32 ^ Z.of_nat n).
Proof.
  induction n as [|n IH]; intros x y; [by rewrite !Z.mod_1_r|].
  cbn [digits32 map string_of_list_ascii String.compare]. rewrite IH, !mod_top.
  pose proof (Z.mod_pos_bound (x / 32 ^ Z.of_nat n) 32 ltac:(lia)).
  pose proof (Z.mod_pos_bound (y / 32 ^ Z.of_nat n) 32 ltac:(lia)).
  pose proof (Z.mod_pos_bound x (32 ^ Z.of_nat n) ltac:(lia)).
  pose proof (Z.mod_pos_bound y (32 ^ Z.of_nat n) ltac:(lia)).
  rewrite enc_digit_mono by lia.
  destruct (Z.compare_spec ((x / 32 ^ Z.of_nat n) mod 32) ((y / 32 ^ Z.of_nat n) mod 32)) as [-> | |].
  - symmetry. destruct (Z.compare_spec (x mod 32 ^ Z.of_nat n) (y mod 32 ^ Z.of_nat n));
      [apply Z.compare_eq_iff|apply Z.compare_lt_iff|apply Z.compare_gt_iff]; lia.
  - symmetry. apply Z.compare_lt_iff. nia.
  - symmetry. apply Z.compare_gt_iff. nia.
Qed.

(** The 128 bits of an identifier as a number. *)
Lemma New_compare p ms1 ms2 r1 r2 :
  length r1 = 10%nat -> length r2 = 10%nat -> 0 <= ms1 < 2 ^ 48 -> 0 <= ms2 < 2 ^ 48 ->
  String.compare (New p ms1 r1) (New p ms2 r2)
  = (ms1 * 2 ^ 80 + be_combine r1 ?= ms2 * 2 ^ 80 + be_combine r2).
Proof.
  intros H1 H2 Hm1 Hm2. unfold New, EncodeToString.
  rewrite compare_append, (compare_append "_"), !length_app, !length_be_split, H1, H2.
  change (Z.to_nat _) with 26%nat.
  change (2 ^ (5 * _ - _)) with 4.
  rewrite digits_compare.
  pose proof (be_combine_range r1) as B1. pose proof (be_combine_range r2) as B2.
  rewrite H1 in B1. rewrite H2 in B2.
  rewrite !be_combine_app, H1, H2, (u64_small ms1), (u64_small ms2) by lia.
  rewrite !be_combine_split by lia.
  change (256 ^ Z.of_nat 10) with (2 ^ 80) in *. change (32 ^ Z.of_nat 26) with (2 ^ 130).
  rewrite !Z.mod_small by lia.
  symmetry. apply Zmult_compare_compat_r. lia.
Qed.

(** identifiers with one prefix sort by the millisecond they were made
    in, whatever their random bytes; two identifiers are equal only when the
    millisecond and all ten random bytes are. *)
Theorem ids_sort_by_creation_time p ms1 ms2 r1 r2 :
  length r1 = 10%nat -> length r2 = 10%nat ->
  0 <= ms1 < 2 ^ 48 -> 0 <= ms2 < 2 ^ 48 ->
  (ms1 < ms2 -> String.compare (New p ms1 r1) (New p ms2 r2) = Lt) /\
  (New p ms1 r1 = New p ms2 r2 -> ms1 = ms2 /\ r1 = r2).
Proof.
  intros H1 H2 Hm1 Hm2.
  pose proof (be_combine_range r1) as B1. pose proof (be_combine_range r2) as B2.
  rewrite H1 in B1. rewrite H2 in B2. change (256 ^ Z.of_nat 10) with (2 ^ 80) in *.
  pose proof (New_compare p ms1 ms2 r1 r2 H1 H2 Hm1 Hm2) as Hc. split.
  - intros. rewrite Hc. apply Z.compare_lt_iff. lia.
  - intros He. rewrite He, compare_refl in Hc. symmetry in Hc. apply Z.compare_eq_iff in Hc.
    assert (ms1 = ms2) by lia. split; [done|]. apply be_combine_inj; [congruence|lia].
Qed.

Lemma ids_sort_by_creation_time_witness :
  String.compare (New "n" 1700000000000 (repeat xff 10)) (New "n" 1700000000001 (repeat x00 10)) = Lt.
Proof.
  apply (ids_sort_by_creation_time "n" 1700000000000 1700000000001 (repeat xff 10) (repeat x00 10));
    first [reflexivity | lia].
Defined.
End Ids.
