(* ===== verification/Provision.v ===== *)
(** * Machine provisioning contract (internal/provision)

    The data exchanged with a provider driver, the admission checks made
    before an external request, and the error markers the pool reconciler
    dispatches on (provision.go, errors.go).  The drivers themselves are
    clients of vendor APIs; [Driver] is their interface over a world type.
    [url.Parse] enters as an argument: it gives the scheme and the host, or
    no value when it fails.

    A nil and an empty label map are read alike by every use in these files,
    so [map[string]string] is a [gmap]; a copy of such a value is the value. *)

From Stdlib Require Import ZArith Lia Strings.Byte Strings.String Strings.Ascii.
From stdpp Require Import base list gmap strings option.
From S2P Require Import Prelude GoStd.
#[local] Open Scope Z_scope.

Module Provision.
Import GoStd.

(** ** The text operations of package strings the checks use *)

(** [strings.TrimSpace(s) == ""]: every rune is white space.  A byte that is
    not valid UTF-8 is no space, so it survives the trim. *)
Definition blank (s : string) : bool :=
  match runes s with Some rs => forallb IsSpace rs | None => false end.

(** [strings.ContainsAny] for a set of ASCII characters. *)
Definition containsAny (s : string) (chars : list Z) : bool :=
  existsb (fun b => existsb (Z.eqb b) chars) (string_bytes s).

(** [strings.Contains]. *)
Definition containsText (s sub : string) : bool :=
  match String.index 0 sub s with Some _ => true | None => false end.

(** [strings.HasPrefix] and [strings.TrimPrefix]. *)
Definition hasPrefix (s p : string) : bool := String.prefix p s.

Definition trimPrefix (s p : string) : string :=
  if hasPrefix s p then String.substring (String.length p) (String.length s - String.length p) s else s.

(** ** Errors

    What [errors.Is] and [errors.As] look at: the sentinel, the marker type,
    and the wrapping structure. *)
Inductive error :=
| ErrNotFound
| DestroyNotApplied (e : error)
| Joined (e1 e2 : error)
| ErrNew (text : string)
| Errorf (format : string) (arg : string).

#[export] Instance error_eq_dec : EqDecision error.
Proof. solve_decision. Defined.

Fixpoint Is_ErrNotFound (e : error) : bool :=
  match e with
  | ErrNotFound => true
  | DestroyNotApplied e' => Is_ErrNotFound e'
  | Joined a b => Is_ErrNotFound a || Is_ErrNotFound b
  | _ => false
  end.

Definition MarkDestroyNotApplied (e : option error) : option error :=
  match e with None => None | Some e' => Some (DestroyNotApplied e') end.

Fixpoint IsDestroyNotApplied (e : error) : bool :=
  match e with
  | DestroyNotApplied _ => true
  | Joined a b => IsDestroyNotApplied a || IsDestroyNotApplied b
  | _ => false
  end.

(** ** Data *)

Definition PoolLabel : string := "remount.pool".
Definition NodeLabel : string := "remount.node".

Record Bootstrap := mkBootstrap {
  ServerURL : string; EnrollmentToken : string; BinaryURL : string;
  BackendName : string; DataDir : string; BootNodeID : string }.

Record Request := mkRequest {
  ReqName : string; ReqTenant : string; ReqRegion : string; ReqSize : string;
  ReqLabels : gmap string string; ReqBootstrap : Bootstrap }.

Record Machine := mkMachine {
  ID : string; Name : string; Provider : string; Tenant : string; Region : string;
  State : string; Labels : gmap string string; CreatedAt : Z }.

Record ListOptions := mkListOptions { OptPool : string; OptTenant : string }.

(** [m[key]] of a string map: the zero value when the key is absent. *)
Definition label (m : gmap string string) (key : string) : string := default EmptyString (m !! key).

(** ** Admission checks *)
Section checks.
Context (url_Parse : string -> option (string * string)).

Definition absolute_http (u : string) : bool :=
  match url_Parse u with
  | None => false
  | Some (scheme, host) => (host <>s "") && ((scheme =s "https") || (scheme =s "http"))
  end.

Definition ValidateTemplate (b : Bootstrap) : option error :=
  if negb (absolute_http (ServerURL b)) then
    Some (ErrNew "provision: server URL must be an absolute http(s) URL")
  else if blank (BinaryURL b) then Some (ErrNew "provision: candidate binary URL is required")
  else if negb (absolute_http (BinaryURL b)) then
    Some (ErrNew "provision: binary URL must be an absolute http(s) URL")
  else if blank (BackendName b) then Some (ErrNew "provision: backend is required")
  else if blank (DataDir b) || negb (hasPrefix (DataDir b) "/") then
    Some (ErrNew "provision: node data directory must be absolute")
  else if (BootNodeID b <>s "")
          && (negb (hasPrefix (BootNodeID b) "n_") || (string_len (BootNodeID b) <? 3)) then
    Some (ErrNew "provision: node id must use the n_ prefix")
  else None.

Definition Bootstrap_Validate (b : Bootstrap) : option error :=
  if blank (EnrollmentToken b) then Some (ErrNew "provision: one-time enrollment token is required")
  else ValidateTemplate b.

(** The range over the map stops at the first bad entry; which one that is
    depends on Go's map order, so the error names the kind of failure found
    first in the order of [map_to_list]. *)
Fixpoint check_labels (l : list (string * string)) : option error :=
  match l with
  | [] => None
  | (key, value) :: t =>
      if blank key then Some (ErrNew "provision: label key is empty")
      else if containsAny key [0x3D; 0; 0x0A; 0x0D] || containsAny value [0; 0x0A; 0x0D] then
        Some (Errorf "provision: label %q contains a control character" key)
      else check_labels t
  end.

Definition validateLabelSet (labels : gmap string string) : option error :=
  check_labels (map_to_list labels).

Definition Request_Validate (r : Request) : option error :=
  if blank (ReqName r) then Some (ErrNew "provision: machine name is required")
  else if blank (ReqTenant r) then Some (ErrNew "provision: tenant is required")
  else match validateLabelSet (ReqLabels r) with
       | Some e => Some e
       | None => Bootstrap_Validate (ReqBootstrap r)
       end.
End checks.

Definition NodeArgs (b : Bootstrap) : list string :=
  ["up"%string; "--server"%string; ServerURL b; "--backend"%string; BackendName b;
   "--data"%string; DataDir b]
  ++ (if BootNodeID b <>s "" then ["--node-id"%string; BootNodeID b] else []).

(** The fields of a request a provider stores or shows. *)
Definition visible_fields (r : Request) : list string :=
  [ReqName r; ReqTenant r; ReqRegion r; ReqSize r]
  ++ flat_map (fun '(k, v) => [k; v]) (map_to_list (ReqLabels r)).

Definition ValidateSecretBoundary (r : Request) : option error :=
  let token := EnrollmentToken (ReqBootstrap r) in
  if token =s "" then None
  else if existsb (fun v => containsText v token) (visible_fields r) then
    Some (ErrNew "provision: enrollment token appears in provider-visible metadata")
  else None.

(** ** Copies and order *)

Definition CloneRequest (r : Request) : Request :=
  mkRequest (ReqName r) (ReqTenant r) (ReqRegion r) (ReqSize r) (ReqLabels r) (ReqBootstrap r).

Definition CloneMachine (m : Machine) : Machine :=
  mkMachine (ID m) (Name m) (Provider m) (Tenant m) (Region m) (State m) (Labels m) (CreatedAt m).

Lemma CloneMachine_id m : CloneMachine m = m.
Proof. by destruct m. Qed.

Definition machine_less (a b : Machine) : bool :=
  if CreatedAt a =? CreatedAt b then String.ltb (ID a) (ID b) else CreatedAt a <? CreatedAt b.

(** [sort.Slice] with the comparison of the source. *)
Definition SortMachines (ms : list Machine) : list Machine := sort_by machine_less ms.

(** ** The driver interface *)

Class Driver (W : Type) := {
  Create : string -> Request -> W -> result error Machine * W;
  Destroy : string -> string -> W -> option error * W;
  ListMachines : string -> ListOptions -> W -> result error (list Machine) * W
}.
End Provision.
