(* ===== verification/Pool.v ===== *)
(** * Node-pool reconciliation (internal/pool/reconciler.go)

    The reconciler moves one provider-backed pool toward its target with at
    most one irreversible provider action per call.  [Reconciler] is the
    struct, [Reconcile] the whole handler with [scaleUp], [scaleDown],
    [failed], [ownedNodes] and [poolState]; [New], [Forget], [Validate] and
    [Inventory] complete the file.

    Everything outside the process is reached through [Cloud]: the clock, the
    entropy of a new identifier, the enrollment source, the provider drivers
    and the control plane's retirement fence.  Each call to it is recorded in
    a trace, in order, so that theorems can speak about what was asked of the
    provider and when.  Calls for one pool are serialised by [state.mu], which
    is held for the whole of [Reconcile]; a sequence of calls is the sequence
    of their effects. *)

From Stdlib Require Import ZArith Lia Strings.Byte Strings.String Strings.Ascii.
From stdpp Require Import base list gmap strings option.
From S2P Require Import Prelude GoStd Ids Provision.
#[local] Open Scope Z_scope.

Module Pool.
Import GoStd Provision.

(** ** Data *)

Record Spec := mkSpec {
  SpecName : string; SpecTenant : string; SpecVendor : string; Min : Z; Max : Z;
  SpecLabels : gmap string string; SpecBackend : string; IdleScaleDown : Z;
  SpecRegion : string; SpecSize : string; SpecBootstrap : Bootstrap }.

(** [Retirement] names the node the control plane's fence is for; [None] is
    the nil interface. *)
Record Node := mkNode {
  NodeMachine : Machine; Workspaces : Z; IdleSince : Z; Retirement : option string }.

Inductive ActionKind :=
| ActionCreated | ActionDestroyed | ActionCreateFailed | ActionDestroyFailed | ActionBackoff.

(** [Error] keeps the error whose text the source stores. *)
Record Action := mkAction {
  Kind : ActionKind; ActMachine : option Machine; From : Z; To : Z; Reason : string;
  ActError : option error; RetryAt : Z }.

Record Options := mkOptions {
  EnrollmentTTL : Z; PendingTimeout : Z; MinBackoff : Z; MaxBackoff : Z }.

Record state := mkState { failures : Z; retryAt : Z; pending : gmap string Z }.

(** The enrollment source either binds labels to the token or does not. *)
Inductive tokenSource := PlainSource | LabeledSource.

Record Reconciler := mkReconciler {
  drivers : gset string; tokens : tokenSource; opts : Options; states : gmap string state }.

(** ** The world *)

Class Cloud (W : Type) := {
  cloud_driver :: Driver W;
  Now : W -> Z * W;
  Entropy : W -> (Z * list byte) * W;
  Issue : string -> string -> Z -> W -> result error string * W;
  IssueWithLabels : string -> string -> gmap string string -> Z -> W -> result error string * W;
  Retire : string -> W -> result error bool * W;
  Release : string -> W -> option error * W;
  url_Parse : string -> option (string * string)
}.

Inductive Effect :=
| EClock (now : Z)
| EIssue (tenant : string) (res : result error string)
| ECreate (vendor : string) (req : Request) (res : result error Machine)
| ERetire (node : string) (res : result error bool)
| EDestroy (vendor : string) (id : string) (res : option error)
| ERelease (node : string) (res : option error).

Section reconciler.
Context {W : Type} `{Cloud W}.

(** The world and the trace of the calls made to it, oldest first. *)
Definition Run : Type := W * list Effect.

Definition call {A} (f : W -> A * W) (ev : A -> list Effect) (r : Run) : A * Run :=
  let '(a, w) := f (fst r) in (a, (w, snd r ++ ev a)).

Definition silent {A} (a : A) : list Effect := [].

(** ** Construction *)

Fixpoint add_drivers (ds : list (option string)) (acc : gset string) : result error (gset string) :=
  match ds with
  | [] => Ok acc
  | None :: _ => Err (ErrNew "pool: driver name is required")
  | Some name :: t =>
      if blank name then Err (ErrNew "pool: driver name is required")
      else if bool_decide (name ∈ acc) then Err (Errorf "pool: duplicate driver %q" name)
      else add_drivers t ({[name]} ∪ acc)
  end.

Definition New (ds : list (option string)) (source : option tokenSource) (o : Options)
  : result error Reconciler :=
  match source with
  | None => Err (ErrNew "pool: enrollment source is required")
  | Some src =>
      let ttl := if EnrollmentTTL o <=? 0 then 10 * Minute else EnrollmentTTL o in
      let timeout := if PendingTimeout o <=? 0 then 2 * Minute else PendingTimeout o in
      let lo := if MinBackoff o <=? 0 then Second else MinBackoff o in
      let hi := if MaxBackoff o <=? 0 then 30 * Second else MaxBackoff o in
      if hi <? lo then Err (ErrNew "pool: maximum backoff is less than minimum")
      else let? dr := add_drivers ds ∅ in
           Ok (mkReconciler dr src (mkOptions ttl timeout lo hi) ∅)
  end.

(** ** Specs *)

Definition with_backend (b : Bootstrap) (backend : string) : Bootstrap :=
  mkBootstrap (ServerURL b) (EnrollmentToken b) (BinaryURL b) backend (DataDir b) (BootNodeID b).

Definition Validate (s : Spec) : option error :=
  if blank (SpecName s) || containsAny (SpecName s) [0x3D; 0; 0x0A; 0x0D] then
    Some (ErrNew "pool: valid name is required")
  else if blank (SpecTenant s) then Some (ErrNew "pool: tenant is required")
  else if blank (SpecVendor s) then Some (ErrNew "pool: vendor is required")
  else if (Min s <? 0) || (Max s <=? 0) || (Max s <? Min s) then
    Some (ErrNew "pool: capacity must satisfy 0 <= min <= max, max > 0")
  else if IdleScaleDown s <? 0 then Some (ErrNew "pool: idle scale-down must not be negative")
  else if (label (SpecLabels s) PoolLabel <>s "")
          && (label (SpecLabels s) PoolLabel <>s SpecName s) then
    Some (Errorf "pool: label %q is reserved" PoolLabel)
  else if label (SpecLabels s) NodeLabel <>s "" then
    Some (Errorf "pool: label %q is reserved" NodeLabel)
  else ValidateTemplate url_Parse (with_backend (SpecBootstrap s) (SpecBackend s)).

Definition key (s : Spec) : string :=
  (SpecTenant s ++ String "000"%char EmptyString ++ SpecName s)%string.

Definition belongs (spec : Spec) (m : Machine) : bool :=
  (Provider m =s SpecVendor spec) && (Tenant m =s SpecTenant spec)
  && (label (Labels m) PoolLabel =s SpecName spec).

Fixpoint owned_loop (spec : Spec) (nodes : list Node) (seen : gset string) : result error (list Node) :=
  match nodes with
  | [] => Ok []
  | node :: t =>
      let m := NodeMachine node in
      if negb (belongs spec m) then owned_loop spec t seen
      else if ID m =s "" then
        Err (ErrNew "pool: provider inventory contains an empty machine id")
      else if bool_decide (ID m ∈ seen) then
        Err (Errorf "pool: provider inventory repeats machine %q" (ID m))
      else
        let? rest := owned_loop spec t ({[ID m]} ∪ seen) in
        Ok (mkNode (CloneMachine m) (Workspaces node) (IdleSince node) (Retirement node) :: rest)
  end.

Definition ownedNodes (spec : Spec) (nodes : list Node) : result error (list Node) :=
  owned_loop spec nodes ∅.

(** ** Backoff *)

(** [delay*2] is an [int64] multiplication. *)
Fixpoint backoff_loop (n : nat) (delay hi : Z) : Z :=
  match n with
  | O => delay
  | S n' => if delay <? hi then backoff_loop n' (Z.min (i64 (delay * 2)) hi) hi else delay
  end.

Definition backoff (o : Options) (fails : Z) : Z :=
  backoff_loop (Z.to_nat (fails - 1)) (MinBackoff o) (MaxBackoff o).

Definition Outcome : Type := list Action * option error.

Definition failed (o : Options) (st : state) (kind : ActionKind) (count : Z) (reason : string)
    (err : error) (r : Run) : Outcome * state * Run :=
  let fails := i64 (failures st + 1) in
  let delay := backoff o fails in
  let '(now, r) := call Now (fun t => [EClock t]) r in
  let st' := mkState fails (now + delay) (pending st) in
  (([mkAction kind None count count reason (Some err) (retryAt st')], Some err), st', r).

Definition reset (st : state) : state := mkState 0 0 (pending st).

(** ** Scaling up *)

Definition create_request (spec : Spec) (labels : gmap string string) (nodeID token : string) : Request :=
  let b := SpecBootstrap spec in
  mkRequest (SpecName spec ++ "-" ++ trimPrefix nodeID "n_")%string
    (SpecTenant spec) (SpecRegion spec) (SpecSize spec) labels
    (mkBootstrap (ServerURL b) token (BinaryURL b) (SpecBackend spec) (DataDir b) nodeID).

Definition scaleUp (rc : Reconciler) (spec : Spec) (st : state) (from desired : Z) (r : Run)
  : Outcome * state * Run :=
  let '((ms, rnd), r) := call Entropy silent r in
  let nodeID := Ids.New "n" ms rnd in
  let labels := <[NodeLabel := nodeID]> (<[PoolLabel := SpecName spec]> (SpecLabels spec)) in
  let '(issued, r) :=
    match tokens rc with
    | LabeledSource =>
        call (IssueWithLabels (SpecName spec) (SpecTenant spec) labels (EnrollmentTTL (opts rc)))
          (fun res => [EIssue (SpecTenant spec) res]) r
    | PlainSource =>
        call (Issue (SpecName spec) (SpecTenant spec) (EnrollmentTTL (opts rc)))
          (fun res => [EIssue (SpecTenant spec) res]) r
    end in
  match issued with
  | Err e => failed (opts rc) st ActionCreateFailed from "enrollment" e r
  | Ok token =>
      let req := create_request spec labels nodeID token in
      let '(created, r) :=
        call (Create (SpecVendor spec) req) (fun res => [ECreate (SpecVendor spec) req res]) r in
      match created with
      | Err e => failed (opts rc) st ActionCreateFailed from "demand" e r
      | Ok m =>
          let machine := CloneMachine m in
          let '(now, r) := call Now (fun t => [EClock t]) r in
          (([mkAction ActionCreated (Some machine) from (from + 1) "demand" None 0], None),
           mkState 0 0 (<[ID machine := now]> (pending st)), r)
      end
  end.

(** ** Scaling down *)

Definition idle_long_enough (spec : Spec) (now : Z) (n : Node) : bool :=
  (Workspaces n =? 0) && negb (isZeroTime (IdleSince n))
  && negb (now <? IdleSince n + IdleScaleDown spec).

Definition node_less (a b : Node) : bool :=
  if IdleSince a =? IdleSince b then String.ltb (ID (NodeMachine a)) (ID (NodeMachine b))
  else IdleSince a <? IdleSince b.

Fixpoint try_victims (rc : Reconciler) (spec : Spec) (st : state) (count : Z) (victims : list Node)
    (r : Run) : Outcome * state * Run :=
  match victims with
  | [] => (([], None), reset st, r)
  | victim :: rest =>
      match Retirement victim with
      | None => try_victims rc spec st count rest r
      | Some fence =>
          let '(res, r) := call (Retire fence) (fun res => [ERetire fence res]) r in
          match res with
          | Err e => failed (opts rc) st ActionDestroyFailed count "retire" e r
          | Ok false => try_victims rc spec st count rest r
          | Ok true =>
              let id := ID (NodeMachine victim) in
              let '(err, r) :=
                call (Destroy (SpecVendor spec) id) (fun res => [EDestroy (SpecVendor spec) id res]) r in
              match err with
              | Some e =>
                  if Is_ErrNotFound e then
                    (([mkAction ActionDestroyed (Some (CloneMachine (NodeMachine victim))) count
                         (count - 1) "idle" None 0], None), reset st, r)
                  else if negb (IsDestroyNotApplied e) then
                    failed (opts rc) st ActionDestroyFailed count "idle" e r
                  else
                    let '(rel, r) := call (Release fence) (fun res => [ERelease fence res]) r in
                    failed (opts rc) st ActionDestroyFailed count "idle"
                      (match rel with Some re => Joined e re | None => e end) r
              | None =>
                  (([mkAction ActionDestroyed (Some (CloneMachine (NodeMachine victim))) count
                       (count - 1) "idle" None 0], None), reset st, r)
              end
          end
      end
  end.

Definition scaleDown (rc : Reconciler) (spec : Spec) (st : state) (nodes : list Node) (now : Z) (r : Run)
  : Outcome * state * Run :=
  if IdleScaleDown spec =? 0 then (([], None), st, r)
  else
    match filter (fun n => Is_true (idle_long_enough spec now n)) nodes with
    | [] => (([], None), st, r)
    | candidates => try_victims rc spec st (Z.of_nat (length nodes)) (sort_by node_less candidates) r
    end.

(** ** The handler *)

Definition poolState (rc : Reconciler) (k : string) : state := default (mkState 0 0 ∅) (states rc !! k).

Definition set_state (rc : Reconciler) (k : string) (st : state) : Reconciler :=
  mkReconciler (drivers rc) (tokens rc) (opts rc) (<[k := st]> (states rc)).

(** The pending creates that still count: not listed yet, and not older than
    the timeout. *)
Definition still_pending (o : Options) (now : Z) (visible : gset string) (p : gmap string Z) : gmap string Z :=
  filter (fun '(id, at_) => id ∉ visible /\ now < at_ + PendingTimeout o) p.

Definition visible_ids (owned : list Node) : gset string :=
  list_to_set (map (fun n => ID (NodeMachine n)) owned).

Definition desired_size (spec : Spec) (demand : Z) : Z :=
  if 0 <? demand then Z.min (Max spec) (Z.max (Min spec) demand) else Min spec.

(** What happens under [st.mu], from the clock reading on. *)
Definition reconcile_locked (rc : Reconciler) (spec : Spec) (nodes : list Node) (demand : Z)
    (st : state) (r : Run) : Outcome * state * Run :=
  let '(now, r) := call Now (fun t => [EClock t]) r in
  match ownedNodes spec nodes with
  | Err e => (([], Some e), st, r)
  | Ok owned =>
      let st := mkState (failures st) (retryAt st)
                  (still_pending (opts rc) now (visible_ids owned) (pending st)) in
      let effective := Z.of_nat (length owned) + Z.of_nat (size (pending st)) in
      if now <? retryAt st then
        (([mkAction ActionBackoff None effective effective "provider_backoff" None (retryAt st)], None), st, r)
      else if effective <? desired_size spec demand then
        scaleUp rc spec st effective (desired_size spec demand) r
      else if (Z.of_nat (size (pending st)) =? 0) && (Min spec <? Z.of_nat (length owned)) then
        scaleDown rc spec st owned now r
      else (([], None), reset st, r)
  end.

Definition Reconcile (rc : Reconciler) (spec : Spec) (nodes : list Node) (demand : Z) (r : Run)
  : Outcome * Reconciler * Run :=
  match Validate spec with
  | Some e => (([], Some e), rc, r)
  | None =>
      if demand <? 0 then (([], Some (ErrNew "pool: demand must not be negative")), rc, r)
      else if negb (bool_decide (SpecVendor spec ∈ drivers rc)) then
        (([], Some (Errorf "pool: vendor %q is not configured" (SpecVendor spec))), rc, r)
      else
        let '(out, st, r) := reconcile_locked rc spec nodes demand (poolState rc (key spec)) r in
        (out, set_state rc (key spec) st, r)
  end.

Definition Forget (rc : Reconciler) (spec : Spec) : Reconciler :=
  mkReconciler (drivers rc) (tokens rc) (opts rc) (delete (key spec) (states rc)).

Fixpoint inventory_loop (spec : Spec) (ms : list Machine) : result error (list Machine) :=
  match ms with
  | [] => Ok []
  | m :: t =>
      if negb (belongs spec m) then
        Err (ErrNew "pool: provider inventory escaped its tenant or pool boundary")
      else if ID m =s "" then
        Err (ErrNew "pool: provider inventory contains an empty machine id")
      else let? rest := inventory_loop spec t in Ok (CloneMachine m :: rest)
  end.

Definition Inventory (rc : Reconciler) (spec : Spec) (r : Run) : result error (list Machine) * Run :=
  match Validate spec with
  | Some e => (Err e, r)
  | None =>
      if negb (bool_decide (SpecVendor spec ∈ drivers rc)) then
        (Err (Errorf "pool: vendor %q is not configured" (SpecVendor spec)), r)
      else
        let '(listed, r) :=
          call (ListMachines (SpecVendor spec) (mkListOptions (SpecName spec) (SpecTenant spec))) silent r in
        match listed with
        | Err e => (Err e, r)
        | Ok ms =>
            (let? out := inventory_loop spec ms in Ok (SortMachines out), r)
        end
  end.

(** ** What one call may ask of the provider *)

(** A fence that a claim won. *)
Definition refused (e : Effect) : Prop := exists f, e = ERetire f (Ok false).

Definition definite_failure (res : option error) : bool :=
  match res with Some e => negb (Is_ErrNotFound e) && IsDestroyNotApplied e | None => false end.

(** The provider traffic of one reconciliation: nothing, a create with a
    token issued for it, or, behind a fence this call obtained, one destroy.
    [room] is the number of machines counted before a create. *)
Inductive traffic (spec : Spec) (owned : list Node) (room now : Z) : list Effect -> Prop :=
| traffic_none tail :
    (tail = [] \/ exists f e, tail = [ERetire f (Err e)]) ->
    forall fences, Forall refused fences -> traffic spec owned room now (fences ++ tail)
| traffic_unissued e : traffic spec owned room now [EIssue (SpecTenant spec) (Err e)]
| traffic_create token req res :
    EnrollmentToken (ReqBootstrap req) = token -> ReqTenant req = SpecTenant spec ->
    label (ReqLabels req) PoolLabel = SpecName spec ->
    label (ReqLabels req) NodeLabel = BootNodeID (ReqBootstrap req) ->
    room < Max spec ->
    traffic spec owned room now
      [EIssue (SpecTenant spec) (Ok token); ECreate (SpecVendor spec) req res]
| traffic_destroy fences node f res rel :
    Forall refused fences ->
    node ∈ owned -> Retirement node = Some f -> Workspaces node = 0 ->
    IdleSince node <> 0 -> IdleSince node + IdleScaleDown spec <= now ->
    Min spec < Z.of_nat (length owned) ->
    traffic spec owned room now
      (fences ++ [ERetire f (Ok true); EDestroy (SpecVendor spec) (ID (NodeMachine node)) res]
       ++ (if definite_failure res then [ERelease f rel] else [])).

Definition is_clock (e : Effect) : bool := match e with EClock _ => true | _ => false end.

(** The effects of a call without its clock readings. *)
Definition provider_calls (l : list Effect) : list Effect := List.filter (fun e => negb (is_clock e)) l.

Lemma provider_calls_app a b : provider_calls (a ++ b) = provider_calls a ++ provider_calls b.
Proof. apply List.filter_app. Qed.

Lemma refused_calls fences : Forall refused fences -> provider_calls fences = fences.
Proof. induction 1 as [|x l [f ->] Hl IH]; [done|]. cbn. by f_equal. Qed.

(** [failed] only reads the clock, and keeps what is pending. *)
Lemma failed_run o st kind count reason e r :
  exists t w', let st' := mkState (i64 (failures st + 1)) (t + backoff o (i64 (failures st + 1))) (pending st) in
    failed o st kind count reason e r
    = (([mkAction kind None count count reason (Some e) (retryAt st')], Some e), st',
       (w', snd r ++ [EClock t])).
Proof.
  unfold failed, call. destruct (Now (fst r)) as [t w']. by exists t, w'.
Qed.

Definition good_request (spec : Spec) (token : string) (req : Request) : Prop :=
  EnrollmentToken (ReqBootstrap req) = token /\ ReqTenant req = SpecTenant spec /\
  label (ReqLabels req) PoolLabel = SpecName spec /\
  label (ReqLabels req) NodeLabel = BootNodeID (ReqBootstrap req).

Lemma create_request_good spec nodeID token :
  good_request spec token
    (create_request spec (<[NodeLabel := nodeID]> (<[PoolLabel := SpecName spec]> (SpecLabels spec)))
       nodeID token).
Proof.
  unfold good_request, create_request, label. cbn [ReqBootstrap ReqTenant ReqLabels EnrollmentToken BootNodeID].
  split_and!; [done|done| |].
  - rewrite lookup_insert_ne by (vm_compute; congruence). by rewrite lookup_insert_eq.
  - by rewrite lookup_insert_eq.
Qed.

(** The three ways [scaleUp] ends, and what it leaves pending. *)
Definition up_case (spec : Spec) (p p' : gmap string Z) (eff : list Effect) : Prop :=
  (exists e t, eff = [EIssue (SpecTenant spec) (Err e); EClock t] /\ p' = p)
  \/ (exists token req e t,
        eff = [EIssue (SpecTenant spec) (Ok token); ECreate (SpecVendor spec) req (Err e); EClock t]
        /\ good_request spec token req /\ p' = p)
  \/ (exists token req m t,
        eff = [EIssue (SpecTenant spec) (Ok token); ECreate (SpecVendor spec) req (Ok m); EClock t]
        /\ good_request spec token req /\ p' = <[ID m := t]> p).

Lemma scaleUp_run rc spec st from desired r :
  exists w' eff st' out,
    scaleUp rc spec st from desired r = (out, st', (w', snd r ++ eff)) /\
    up_case spec (pending st) (pending st') eff.
Proof.
  unfold scaleUp, call at 1.
  destruct (Entropy (fst r)) as [[ms rnd] w1]. cbn [fst snd silent].
  set (nodeID := Ids.New "n" ms rnd). set (labels := <[NodeLabel:=nodeID]> _).
  rewrite app_nil_r.
  assert (exists issued w2,
    (match tokens rc with
     | LabeledSource =>
         call (IssueWithLabels (SpecName spec) (SpecTenant spec) labels (EnrollmentTTL (opts rc)))
           (fun res => [EIssue (SpecTenant spec) res]) (w1, snd r)
     | PlainSource =>
         call (Issue (SpecName spec) (SpecTenant spec) (EnrollmentTTL (opts rc)))
           (fun res => [EIssue (SpecTenant spec) res]) (w1, snd r)
     end) = (issued, (w2, snd r ++ [EIssue (SpecTenant spec) issued]))) as (issued & w2 & ->).
  { unfold call. destruct (tokens rc); cbn [fst snd].
    - destruct (Issue _ _ _ w1) as [a w2]. by exists a, w2.
    - destruct (IssueWithLabels _ _ _ _ w1) as [a w2]. by exists a, w2. }
  destruct issued as [token|e].
  - unfold call at 1. cbn [fst snd].
    pose proof (create_request_good spec nodeID token) as Hg. fold labels in Hg.
    destruct (Create _ _ w2) as [[m|e] w3].
    + unfold call. cbn [fst snd]. destruct (Now w3) as [t w4].
      eexists w4, _, _, _. split; [by rewrite <- !app_assoc|]. right; right.
      exists token, (create_request spec labels nodeID token), m, t. cbn [pending]. rewrite CloneMachine_id. by split_and!.
    + destruct (failed_run (opts rc) st ActionCreateFailed from "demand" e
        (w3, (snd r ++ [EIssue (SpecTenant spec) (Ok token)])
             ++ [ECreate (SpecVendor spec) (create_request spec labels nodeID token) (Err e)]))
        as (t & w' & ->).
      eexists w', _, _, _. split; [by cbn [snd]; rewrite <- !app_assoc|]. right; left.
      exists token, (create_request spec labels nodeID token), e, t. by split_and!.
  - destruct (failed_run (opts rc) st ActionCreateFailed from "enrollment" e
      (w2, snd r ++ [EIssue (SpecTenant spec) (Err e)])) as (t & w' & ->).
    eexists w', _, _, _. split; [by cbn [snd]; rewrite <- !app_assoc|]. left. by exists e, t.
Qed.
(** How the destroy of one fenced victim ends. *)
Definition destroy_tail (spec : Spec) (victims : list Node) (tail : list Effect) : Prop :=
  exists node f res rel clock,
    node ∈ victims /\ Retirement node = Some f /\
    (clock = [] \/ exists t, clock = [EClock t]) /\
    tail = [ERetire f (Ok true); EDestroy (SpecVendor spec) (ID (NodeMachine node)) res]
           ++ (if definite_failure res then [ERelease f rel] else []) ++ clock.

Ltac run_done := cbn [fst snd app]; rewrite <- ?app_assoc; reflexivity.

Lemma try_victims_run rc spec st count victims : forall r,
  exists w' fences tail st' out,
    try_victims rc spec st count victims r = (out, st', (w', snd r ++ fences ++ tail)) /\
    Forall refused fences /\ pending st' = pending st /\
    (tail = [] \/ (exists f e t, tail = [ERetire f (Err e); EClock t]) \/ destroy_tail spec victims tail).
Proof.
  induction victims as [|v rest IH]; intros r.
  { exists (fst r), [], [], (reset st), ([], None). cbn. rewrite app_nil_r.
    destruct r; split_and!; auto. }
  assert (forall tail, destroy_tail spec rest tail -> destroy_tail spec (v :: rest) tail) as Hmono.
  { intros tail (n & f & res & rel & c & Hin & Hrest). exists n, f, res, rel, c.
    split; [by right|done]. }
  cbn [try_victims]. destruct (Retirement v) as [f|] eqn:Ef.
  2:{ destruct (IH r) as (w' & fs & tl & st' & out & -> & Hf & Hp & Ht).
      exists w', fs, tl, st', out. split_and!; [done..|]. destruct Ht as [?|[?|?]]; eauto. }
  unfold call at 1. destruct (Retire f (fst r)) as [[[|]|e] w1].
  - unfold call at 1. cbn [fst snd].
    destruct (Destroy _ _ w1) as [[e|] w2].
    + destruct (Is_ErrNotFound e) eqn:Enf.
      * eexists w2, [], _, _, _. split; [run_done|]. split_and!; [constructor|done|].
        right; right. exists v, f, (Some e), None, []. cbn [definite_failure]. rewrite Enf.
        split_and!; [left|done|by left|done].
      * destruct (IsDestroyNotApplied e) eqn:Ena; cbn [negb].
        -- unfold call at 1. cbn [fst snd]. destruct (Release f w2) as [rel w3].
           match goal with |- context [failed ?o ?s ?k ?c ?m ?e ?r] =>
             destruct (failed_run o s k c m e r) as (t & w' & ->) end.
           eexists w', [], _, _, _. split; [run_done|]. split_and!; [constructor|done|].
           right; right. exists v, f, (Some e), rel, [EClock t]. cbn [definite_failure]. rewrite Enf, Ena.
           split_and!; [left|done|by eauto|done].
        -- match goal with |- context [failed ?o ?s ?k ?c ?m ?e ?r] =>
             destruct (failed_run o s k c m e r) as (t & w' & ->) end.
           eexists w', [], _, _, _. split; [run_done|]. split_and!; [constructor|done|].
           right; right. exists v, f, (Some e), None, [EClock t]. cbn [definite_failure]. rewrite Enf, Ena.
           split_and!; [left|done|by eauto|done].
    + eexists w2, [], _, _, _. split; [run_done|]. split_and!; [constructor|done|].
      right; right. exists v, f, None, None, [].
      split_and!; [left|done|by left|done].
  - destruct (IH (w1, snd r ++ [ERetire f (Ok false)])) as (w' & fs & tl & st' & out & -> & Hf & Hp & Ht).
    exists w', (ERetire f (Ok false) :: fs), tl, st', out.
    split; [run_done|]. split_and!; [|done|destruct Ht as [?|[?|?]]; eauto].
    constructor; [by exists f|done].
  - match goal with |- context [failed ?o ?s ?k ?c ?m ?e ?r] =>
      destruct (failed_run o s k c m e r) as (t & w' & ->) end.
    eexists w', [], _, _, _. split; [run_done|]. split_and!; [constructor|done|].
    right; left. by exists f, e, t.
Qed.
(** ** One call, case by case *)

Definition idle_nodes (spec : Spec) (now : Z) (owned : list Node) : list Node :=
  filter (fun n => Is_true (idle_long_enough spec now n)) owned.

Definition down_case (spec : Spec) (owned : list Node) (now : Z) (eff : list Effect) : Prop :=
  exists fences tail, eff = fences ++ tail /\ Forall refused fences /\
    (tail = [] \/ (exists f e t, tail = [ERetire f (Err e); EClock t])
     \/ destroy_tail spec (idle_nodes spec now owned) tail).

Lemma destroy_tail_perm spec l l' tail :
  l ≡ₚ l' -> destroy_tail spec l tail -> destroy_tail spec l' tail.
Proof.
  intros Hp (n & f & res & rel & c & Hin & Hrest). exists n, f, res, rel, c.
  split; [by rewrite <- Hp|done].
Qed.

Lemma scaleDown_run rc spec st owned now r :
  exists w' eff st' out,
    scaleDown rc spec st owned now r = (out, st', (w', snd r ++ eff)) /\
    pending st' = pending st /\ down_case spec owned now eff.
Proof.
  assert (down_case spec owned now []) as Hnil.
  { exists [], []. split_and!; [done|constructor|by left]. }
  unfold scaleDown. destruct (IdleScaleDown spec =? 0).
  { exists (fst r), [], st, ([], None). rewrite app_nil_r. destruct r. by split_and!. }
  fold (idle_nodes spec now owned).
  destruct (idle_nodes spec now owned) as [|n l] eqn:El.
  { exists (fst r), [], st, ([], None). rewrite app_nil_r. destruct r. by split_and!. }
  destruct (try_victims_run rc spec st (Z.of_nat (length owned)) (sort_by node_less (n :: l)) r)
    as (w' & fs & tl & st' & out & -> & Hf & Hp & Ht).
  exists w', (fs ++ tl), st', out. split_and!; [done..|]. exists fs, tl. split_and!; [done..|].
  destruct Ht as [?|[?|Hd]]; [by left|by right; left|right; right].
  rewrite El. eapply destroy_tail_perm; [apply sort_by_perm|exact Hd].
Qed.

Definition outcome_case (rc : Reconciler) (spec : Spec) (nodes : list Node) (st st' : state) (now : Z)
    (eff : list Effect) : Prop :=
  match ownedNodes spec nodes with
  | Err _ => eff = [] /\ st' = st
  | Ok owned =>
      let p := still_pending (opts rc) now (visible_ids owned) (pending st) in
      let room := Z.of_nat (length owned) + Z.of_nat (size p) in
      (eff = [] /\ pending st' = p)
      \/ (retryAt st <= now /\ room < Max spec /\ up_case spec p (pending st') eff)
      \/ (retryAt st <= now /\ p = ∅ /\ Min spec < Z.of_nat (length owned) /\ pending st' = p
          /\ down_case spec owned now eff)
  end.

Lemma desired_le_max spec demand : Min spec <= Max spec -> desired_size spec demand <= Max spec.
Proof. unfold desired_size. destruct (0 <? demand); lia. Qed.

Lemma reconcile_locked_run rc spec nodes demand st r :
  Min spec <= Max spec ->
  exists w' eff st' out,
    let now := fst (Now (fst r)) in
    reconcile_locked rc spec nodes demand st r = (out, st', (w', snd r ++ EClock now :: eff)) /\
    outcome_case rc spec nodes st st' now eff.
Proof.
  intros Hmm. pose proof (desired_le_max spec demand Hmm) as Hd.
  unfold reconcile_locked, outcome_case, call. destruct (Now (fst r)) as [now w1]. cbn [fst snd].
  destruct (ownedNodes spec nodes) as [owned|e].
  2:{ exists w1, [], st, ([], Some e). by split_and!. }
  cbn [pending retryAt failures].
  set (p := still_pending _ _ _ _).
  destruct (now <? retryAt st) eqn:Er.
  { eexists w1, [], _, _. split; [reflexivity|]. left. by split. }
  bool_hyp. destruct (_ <? desired_size spec demand) eqn:Eu.
  { bool_hyp.
    destruct (scaleUp_run rc spec (mkState (failures st) (retryAt st) p)
      (Z.of_nat (length owned) + Z.of_nat (size p)) (desired_size spec demand) (w1, snd r ++ [EClock now]))
      as (w' & eff & st' & out & -> & Hcase).
    exists w', eff, st', out. split; [run_done|]. right; left. split_and!; [lia|lia|exact Hcase]. }
  destruct (_ && _) eqn:Ed.
  { bool_hyp.
    destruct (scaleDown_run rc spec (mkState (failures st) (retryAt st) p) owned now (w1, snd r ++ [EClock now]))
      as (w' & eff & st' & out & -> & Hp & Hcase).
    exists w', eff, st', out. split; [run_done|]. right; right.
    assert (p = ∅) by (apply map_size_empty_inv; lia).
    by split_and!; [lia|..]. }
  eexists w1, [], _, _. split; [reflexivity|]. by left.
Qed.

Lemma Validate_capacity spec : Validate spec = None -> 0 <= Min spec <= Max spec /\ 0 < Max spec.
Proof. unfold Validate. repeat (step_if; [done|]). intros _. bool_hyp. lia. Qed.

(** [Reconcile] either refuses before it touches anything, or is
    [reconcile_locked] on the pool's own state. *)
Lemma Reconcile_cases rc spec nodes demand r :
  (exists e, Reconcile rc spec nodes demand r = (([], Some e), rc, r))
  \/ (Validate spec = None /\
      exists w' eff st' out,
        let now := fst (Now (fst r)) in
        Reconcile rc spec nodes demand r
        = (out, set_state rc (key spec) st', (w', snd r ++ EClock now :: eff)) /\
        outcome_case rc spec nodes (poolState rc (key spec)) st' now eff).
Proof.
  unfold Reconcile. destruct (Validate spec) as [e|] eqn:Ev; [by left; exists e|].
  step_if; [left; by eexists|]. step_if; [left; by eexists|].
  right. split; [done|].
  destruct (reconcile_locked_run rc spec nodes demand (poolState rc (key spec)) r) as (w' & eff & st' & out & Heq & Hc).
  { apply Validate_capacity in Ev. lia. }
  rewrite Heq. by exists w', eff, st', out.
Qed.

Lemma idle_nodes_spec spec now owned n :
  n ∈ idle_nodes spec now owned ->
  n ∈ owned /\ Workspaces n = 0 /\ IdleSince n <> 0 /\ IdleSince n + IdleScaleDown spec <= now.
Proof.
  unfold idle_nodes. rewrite list_elem_of_filter. intros [Hi Hin].
  apply Is_true_true in Hi. unfold idle_long_enough, isZeroTime in Hi. bool_hyp. split_and!; [done|lia..].
Qed.

Lemma down_traffic spec owned room now eff :
  Min spec < Z.of_nat (length owned) -> down_case spec owned now eff ->
  traffic spec owned room now (provider_calls eff).
Proof.
  intros Hmin (fs & tl & -> & Hf & Ht). rewrite provider_calls_app, refused_calls by done.
  destruct Ht as [-> |[(f & e & t & ->)|(n & f & res & rel & c & Hin & Hr & Hc & ->)]].
  - apply traffic_none; [by left|done].
  - apply traffic_none; [right; by eauto|done].
  - apply idle_nodes_spec in Hin as (Hin & Hw & Hz & Hi).
    rewrite !provider_calls_app.
    replace (provider_calls c) with (@nil Effect) by (destruct Hc as [-> |[t ->]]; done).
    rewrite app_nil_r.
    replace (provider_calls (if definite_failure res then [ERelease f rel] else []))
      with (if definite_failure res then [ERelease f rel] else []) by (by destruct (definite_failure res)).
    by apply (traffic_destroy spec owned room now fs n f res rel).
Qed.

(** one call of [Reconcile] asks at most one irreversible thing
    of the provider.  A create is made only while the machines listed and the
    creates still pending number less than [Max], for the pool's own vendor
    and tenant, under the pool's label, with a token issued in this call.  A
    destroy is made only for a listed node of this pool that reported no
    workspaces and has been idle for the configured time, while more than
    [Min] nodes are listed and no create is pending, and only right after the
    control plane fenced that very node; the fence is lifted exactly when the
    provider proved that it did nothing. *)
Theorem reconcile_acts_once_and_fenced rc spec nodes demand r :
  let '(out, rc', r') := Reconcile rc spec nodes demand r in
  exists eff, snd r' = snd r ++ eff /\
    (provider_calls eff = [] \/
     exists owned now pend, ownedNodes spec nodes = Ok owned /\ now = fst (Now (fst r)) /\
       pend = still_pending (opts rc) now (visible_ids owned) (pending (poolState rc (key spec))) /\
       traffic spec owned (Z.of_nat (length owned) + Z.of_nat (size pend)) now (provider_calls eff)).
Proof.
  destruct (Reconcile_cases rc spec nodes demand r) as [[e ->]|(Hv & w' & eff & st' & out & -> & Hc)].
  { exists []. rewrite app_nil_r. by split; [|left]. }
  exists (EClock (fst (Now (fst r))) :: eff). split; [done|].
  change (provider_calls (EClock _ :: eff)) with (provider_calls eff).
  unfold outcome_case in Hc. destruct (ownedNodes spec nodes) as [owned|e] eqn:Eo.
  2:{ destruct Hc as [-> _]. by left. }
  destruct Hc as [[-> _]|[(_ & Hroom & Hup)|(_ & Hpe & Hmin & _ & Hdown)]]; [by left|right..];
    eexists owned, _, _; (split_and!; [done..|]).
  - destruct Hup as [(e & t & -> & _)|[(tk & rq & e & t & -> & (?&?&?&?) & _)|(tk & rq & m & t & -> & (?&?&?&?) & _)]].
    + apply traffic_unissued.
    + by apply traffic_create.
    + by apply traffic_create.
  - by apply down_traffic.
Qed.
(** ** Capacity over many calls *)

(** The machines that exist for a pool, each with the clock reading that
    followed its creation, as the trace tells them. *)
Fixpoint live_after (eff : list Effect) (live : gmap string Z) : gmap string Z :=
  match eff with
  | [] => live
  | ECreate _ _ (Ok m) :: (EClock t :: _) as rest => live_after rest (<[ID m := t]> live)
  | EDestroy _ id None :: rest => live_after rest (delete id live)
  | EDestroy _ id (Some e) :: rest =>
      live_after rest (if Is_ErrNotFound e then delete id live else live)
  | _ :: rest => live_after rest live
  end.

Record Fleet := mkFleet {
  rec : Reconciler; run : Run; live : gmap string Z; listed : gset string }.

(** What the provider's inventory promises: a machine that exists and was
    listed once is listed again, and a machine that exists is listed at the
    latest [PendingTimeout] after its creation. *)
Definition honest (o : Options) (now : Z) (visible : gset string) (lv : gmap string Z) (ls : gset string)
  : Prop :=
  forall id born, lv !! id = Some born ->
    id ∈ visible \/ (id ∉ ls /\ now < born + PendingTimeout o).

Definition seen_ids (spec : Spec) (nodes : list Node) : gset string :=
  match ownedNodes spec nodes with Ok owned => visible_ids owned | Err _ => ∅ end.

Inductive fleet_step (spec : Spec) : Fleet -> Fleet -> Prop :=
| step_reconcile s nodes demand out rc' w' eff :
    honest (opts (rec s)) (fst (Now (fst (run s)))) (seen_ids spec nodes) (live s) (listed s) ->
    Reconcile (rec s) spec nodes demand (run s) = (out, rc', (w', snd (run s) ++ eff)) ->
    fleet_step spec s
      (mkFleet rc' (w', snd (run s) ++ eff) (live_after eff (live s)) (listed s ∪ seen_ids spec nodes))
| step_other_pool s spec' nodes demand out rc' r' :
    key spec' <> key spec ->
    Reconcile (rec s) spec' nodes demand (run s) = (out, rc', r') ->
    fleet_step spec s (mkFleet rc' r' (live s) (listed s))
| step_machine_lost s id :
    fleet_step spec s (mkFleet (rec s) (run s) (delete id (live s)) (listed s))
| step_world s w' :
    fleet_step spec s (mkFleet (rec s) (w', snd (run s)) (live s) (listed s)).

Definition fleet_inv (spec : Spec) (s : Fleet) : Prop :=
  Z.of_nat (size (live s)) <= Max spec /\
  forall id born, live s !! id = Some born ->
    id ∈ listed s \/ pending (poolState (rec s) (key spec)) !! id = Some born.

Lemma poolState_set rc k st : poolState (set_state rc k st) k = st.
Proof. unfold poolState, set_state. cbn. by rewrite lookup_insert_eq. Qed.

Lemma poolState_set_ne rc k k' st : k <> k' -> poolState (set_state rc k st) k' = poolState rc k'.
Proof. intros. unfold poolState, set_state. cbn. by rewrite lookup_insert_ne. Qed.

Lemma live_after_refused fences rest lv :
  Forall refused fences -> live_after (fences ++ rest) lv = live_after rest lv.
Proof. induction 1 as [|x l [f ->] Hl IH]; [done|]. exact IH. Qed.

(** Scaling down only ever removes machines. *)
Lemma down_live spec owned now eff lv :
  down_case spec owned now eff -> live_after eff lv ⊆ lv.
Proof.
  intros (fs & tl & -> & Hf & Ht). rewrite live_after_refused by done.
  destruct Ht as [-> |[(f & e & t & ->)|(n & f & res & rel & c & _ & _ & Hc & ->)]]; [done|done|].
  assert (forall l, live_after (if definite_failure res then [ERelease f rel] ++ c else c) l = l) as Hskip.
  { intros l. destruct (definite_failure res), Hc as [-> |[t ->]]; done. }
  replace ([ERetire f (Ok true); EDestroy (SpecVendor spec) (ID (NodeMachine n)) res]
      ++ (if definite_failure res then [ERelease f rel] else []) ++ c)
    with (ERetire f (Ok true) :: EDestroy (SpecVendor spec) (ID (NodeMachine n)) res
      :: (if definite_failure res then [ERelease f rel] ++ c else c))
    by (by destruct (definite_failure res)).
  cbn [live_after]. destruct res as [e|]; rewrite Hskip; [destruct (Is_ErrNotFound e); [|done]|];
    apply delete_subseteq.
Qed.

(** The machines that exist are among those listed and those pending, which
    is what [effective] counts. *)
Lemma live_counted o now owned lv ls p :
  honest o now (visible_ids owned) lv ls ->
  (forall id born, lv !! id = Some born -> id ∈ ls \/ p !! id = Some born) ->
  forall id born, lv !! id = Some born ->
    id ∈ visible_ids owned \/ still_pending o now (visible_ids owned) p !! id = Some born.
Proof.
  intros Hh Hi id born Hl. destruct (Hh id born Hl) as [?|[Hnl Hlt]]; [by left|].
  destruct (Hi id born Hl) as [?|Hp]; [done|].
  destruct (decide (id ∈ visible_ids owned)) as [?|Hnv]; [by left|right].
  unfold still_pending. by apply map_lookup_filter_Some.
Qed.

Lemma list_to_set_le (l : list string) : (size (list_to_set l : gset string) <= length l)%nat.
Proof.
  induction l as [|x l IH]; [by cbn; rewrite size_empty|].
  change (list_to_set (x :: l)) with ({[x]} ∪ list_to_set l : gset string).
  rewrite size_union_alt, size_singleton. cbn [length].
  assert (size ((list_to_set l : gset string) ∖ {[x]}) <= size (list_to_set l : gset string))%nat
    by (apply subseteq_size; set_solver).
  lia.
Qed.

Lemma counted_size (owned : list Node) (lv p : gmap string Z) :
  (forall id born, lv !! id = Some born -> id ∈ visible_ids owned \/ p !! id = Some born) ->
  Z.of_nat (size lv) <= Z.of_nat (length owned) + Z.of_nat (size p).
Proof.
  intros Hc. rewrite <- (size_dom (D := gset string) lv), <- (size_dom (D := gset string) p).
  assert (dom lv ⊆ visible_ids owned ∪ dom p) as Hsub.
  { intros id Hid. apply elem_of_dom in Hid as [born Hb].
    destruct (Hc id born Hb) as [?|Hp]; [set_solver|]. apply elem_of_union_r, elem_of_dom. by exists born. }
  apply subseteq_size in Hsub. pose proof (size_union_alt (visible_ids owned) (dom p)).
  assert (size (visible_ids owned) <= length owned)%nat.
  { unfold visible_ids. rewrite <- (length_map (fun n => ID (NodeMachine n)) owned).
    apply list_to_set_le. }
  assert (size (dom p ∖ visible_ids owned) <= size (dom p))%nat by (apply subseteq_size; set_solver).
  lia.
Qed.

Lemma tick_inv spec nodes rc st' now eff lv ls :
  outcome_case rc spec nodes (poolState rc (key spec)) st' now eff ->
  honest (opts rc) now (seen_ids spec nodes) lv ls ->
  Z.of_nat (size lv) <= Max spec ->
  (forall id born, lv !! id = Some born -> id ∈ ls \/ pending (poolState rc (key spec)) !! id = Some born) ->
  Z.of_nat (size (live_after eff lv)) <= Max spec /\
  forall id born, live_after eff lv !! id = Some born ->
    id ∈ ls ∪ seen_ids spec nodes \/ pending st' !! id = Some born.
Proof.
  unfold outcome_case, seen_ids. intros Hc Hh Hmax Hi.
  destruct (ownedNodes spec nodes) as [owned|e].
  2:{ destruct Hc as [-> ->]. split; [done|]. intros id born Hl. destruct (Hi id born Hl); [left; set_solver|by right]. }
  pose proof (live_counted _ _ _ _ _ _ Hh Hi) as Hcount.
  assert (forall lv', lv' ⊆ lv -> pending st' = still_pending (opts rc) now (visible_ids owned) (pending (poolState rc (key spec))) ->
    Z.of_nat (size lv') <= Max spec /\
    forall id born, lv' !! id = Some born ->
      id ∈ ls ∪ visible_ids owned \/ pending st' !! id = Some born) as Hshrink.
  { intros lv' Hs ->. apply map_subseteq_size in Hs as Hsz. split; [lia|].
    intros id born Hl. destruct (Hcount id born) as [?|?]; [by eapply lookup_weaken|left; set_solver|by right]. }
  destruct Hc as [[-> Hp]|[(_ & Hroom & Hup)|(_ & _ & _ & Hp & Hdown)]].
  - by apply Hshrink.
  - destruct Hup as [(e & t & -> & Hp)|[(tk & rq & e & t & -> & _ & Hp)|(tk & rq & m & t & -> & _ & Hp)]];
      [by apply Hshrink..|].
    cbn [live_after]. rewrite Hp. pose proof (counted_size _ _ _ Hcount). split.
    + rewrite map_size_insert. destruct (lv !! ID m); cbn; lia.
    + intros id born. destruct (decide (id = ID m)) as [-> |Hne].
      * rewrite !lookup_insert_eq. by right.
      * rewrite !lookup_insert_ne by done. intros Hl.
        destruct (Hcount id born Hl); [left; set_solver|by right].
  - apply Hshrink; [by eapply down_live|done].
Qed.

Lemma other_pool_state rc spec spec' nodes demand r out rc' r' :
  key spec' <> key spec -> Reconcile rc spec' nodes demand r = (out, rc', r') ->
  poolState rc' (key spec) = poolState rc (key spec) /\ opts rc' = opts rc.
Proof.
  intros Hk. destruct (Reconcile_cases rc spec' nodes demand r) as [[e ->]|(_ & w' & eff & st' & o & -> & _)];
    intros [= <- <- <-]; [done|]. by rewrite poolState_set_ne.
Qed.

Lemma fleet_step_inv spec s s' : fleet_inv spec s -> fleet_step spec s s' -> fleet_inv spec s'.
Proof.
  unfold fleet_inv. intros [Hmax Hi]. destruct 1 as [s nodes demand out rc' w' eff Hh Hrun|s spec' nodes demand out rc' r' Hk Hrun|s id|s w'];
    cbn [live listed rec run].
  - destruct (Reconcile_cases (rec s) spec nodes demand (run s)) as [[e He]|(Hv & w1 & eff1 & st' & o & He & Hc)];
      rewrite He in Hrun.
    + injection Hrun as <- <- Hr. assert (eff = []) as ->.
      { apply (f_equal snd) in Hr. cbn in Hr. rewrite <- (app_nil_r (snd (run s))) in Hr at 1.
        by apply app_inv_head in Hr. }
      split; [done|]. intros id born Hl. destruct (Hi id born Hl); [left; set_solver|by right].
    + injection Hrun as <- <- <- Hr. apply app_inv_head in Hr as <-.
      rewrite poolState_set. cbn [live_after]. by eapply tick_inv.
  - apply (other_pool_state _ spec) in Hrun as [-> _]; [|done]. by split.
  - split.
    + pose proof (map_subseteq_size _ _ (delete_subseteq (live s) id)). lia.
    + intros id' born Hl. apply (Hi id' born). by eapply lookup_weaken, delete_subseteq.
  - by split.
Qed.

(** C35: however often a pool is reconciled, with whatever demand, and
    however its calls interleave with those of other pools and with machines
    that disappear, the machines it created and has not destroyed never number
    more than [Max], as long as the provider's inventory is honest about them. *)
Theorem pool_never_overcommits spec s s' :
  0 <= Max spec -> live s = ∅ -> rtc (fleet_step spec) s s' -> Z.of_nat (size (live s')) <= Max spec.
Proof.
  intros Hm Hl Hr. apply (rtc_invariant (fleet_step spec) (fleet_inv spec) (fleet_step_inv spec) s s' Hr).
  unfold fleet_inv. rewrite Hl, map_size_empty. split; [lia|]. intros id born. by rewrite lookup_empty.
Qed.

(** ** Backoff *)

Lemma backoff_loop_closed n : forall delay hi,
  0 < delay <= hi -> hi <= 2 ^ 62 ->
  backoff_loop n delay hi = Z.min hi (delay * 2 ^ Z.of_nat n).
Proof.
  induction n as [|n IH]; intros delay hi Hd Hh; cbn [backoff_loop].
  - rewrite Z.pow_0_r. lia.
  - rewrite Nat2Z.inj_succ, Z.pow_succ_r by lia. pose proof (Z.pow_pos_nonneg 2 (Z.of_nat n)).
    destruct (delay <? hi) eqn:E; bool_hyp.
    + rewrite i64_small by (unfold is_i64; lia).
      rewrite IH by lia. destruct (Z.min_spec (delay * 2) hi) as [[? ->]|[? ->]]; nia.
    + nia.
Qed.

(** the delay after the n-th failure in a row is
    [MinBackoff * 2^(n-1)] cut at [MaxBackoff], and until it is over
    [Reconcile] makes no call to the provider, to the enrollment source or to
    the fence; a failure that [failed] reports sets exactly that deadline. *)
Theorem provider_failures_back_off rc spec nodes demand r owned fails :
  0 < MinBackoff (opts rc) <= MaxBackoff (opts rc) -> MaxBackoff (opts rc) <= 2 ^ 62 -> 0 < fails ->
  Validate spec = None -> 0 <= demand -> SpecVendor spec ∈ drivers rc ->
  ownedNodes spec nodes = Ok owned ->
  fst (Now (fst r)) < retryAt (poolState rc (key spec)) ->
  backoff (opts rc) fails = Z.min (MaxBackoff (opts rc)) (MinBackoff (opts rc) * 2 ^ (fails - 1)) /\
  (exists effective rc',
     Reconcile rc spec nodes demand r
     = (([mkAction ActionBackoff None effective effective "provider_backoff" None
            (retryAt (poolState rc (key spec)))], None), rc',
        (snd (Now (fst r)), snd r ++ [EClock (fst (Now (fst r)))]))) /\
  (forall st kind count reason e, failures st = fails - 1 -> fails < 2 ^ 63 ->
     let '(out, st', r') := failed (opts rc) st kind count reason e r in
     failures st' = fails /\
     retryAt st' = fst (Now (fst r)) + Z.min (MaxBackoff (opts rc)) (MinBackoff (opts rc) * 2 ^ (fails - 1))).
Proof.
  intros Hb Hm Hf Hv Hd Hdr Ho Hnow.
  assert (backoff (opts rc) fails = Z.min (MaxBackoff (opts rc)) (MinBackoff (opts rc) * 2 ^ (fails - 1))) as Hclosed.
  { unfold backoff. rewrite backoff_loop_closed by lia. by rewrite Z2Nat.id by lia. }
  split_and!; [exact Hclosed| |].
  - unfold Reconcile. rewrite Hv. zb. rewrite bool_decide_eq_true_2 by done. cbn [negb].
    unfold reconcile_locked, call. destruct (Now (fst r)) as [now w']. cbn [fst snd] in *.
    rewrite Ho. cbn [retryAt]. zb. by eexists _, _.
  - intros st kind count reason e Hst Hlt. unfold failed, call. destruct (Now (fst r)) as [now w'].
    cbn [fst snd failures retryAt]. rewrite Hst, Z.sub_add, i64_small by (unfold is_i64; lia).
    by rewrite Hclosed.
Qed.
(** ** Isolation *)

Lemma split_last {A} (x : A) (a c b d : list A) :
  x ∉ b -> x ∉ d -> a ++ x :: b = c ++ x :: d -> a = c /\ b = d.
Proof.
  intros Hb Hd. revert c. induction a as [|y a IH]; intros [|z c] He.
  - by injection He.
  - injection He as -> ->. exfalso. apply Hb. set_solver.
  - injection He as <- <-. exfalso. apply Hd. set_solver.
  - injection He as <- He. by destruct (IH c He) as [-> ->].
Qed.

Lemma containsAny_notin s chars x : containsAny s chars = false -> x ∈ chars -> x ∉ string_bytes s.
Proof.
  intros Hc Hx Hin. apply list_elem_of_In in Hin, Hx.
  assert (containsAny s chars = true); [|congruence].
  apply existsb_exists. exists x. split; [done|]. apply existsb_exists. exists x. by rewrite Z.eqb_refl.
Qed.

Lemma Validate_name spec : Validate spec = None -> 0 ∉ string_bytes (SpecName spec).
Proof.
  unfold Validate. step_if; [done|]. intros _. bool_hyp. eapply containsAny_notin; [done|]. set_solver.
Qed.

(** The NUL of [key] separates: the name holds none, so the last one ends the
    tenant, whatever the tenant holds. *)
Lemma key_inj s1 s2 :
  Validate s1 = None -> Validate s2 = None -> key s1 = key s2 ->
  SpecTenant s1 = SpecTenant s2 /\ SpecName s1 = SpecName s2.
Proof.
  intros H1%Validate_name H2%Validate_name He. unfold key in He.
  apply (f_equal string_bytes) in He. rewrite !string_bytes_app in He.
  change (string_bytes (String "000" EmptyString)) with [0] in He. cbn [app] in He.
  apply split_last in He as [Ha Hb]; [|done..]. split; by apply string_bytes_inj.
Qed.

Lemma inventory_loop_spec spec ms out :
  inventory_loop spec ms = Ok out ->
  out = ms /\ Forall (fun m => belongs spec m = true /\ ID m <> EmptyString) ms.
Proof.
  revert out. induction ms as [|m ms IH]; intros out; cbn; [intros [= <-]; by split|].
  destruct (belongs spec m) eqn:Eb; [|done]. destruct (ID m =s "") eqn:Ei; [done|]. bool_hyp.
  destruct (inventory_loop spec ms) as [rest|]; [|done]. intros [= <-].
  destruct (IH rest eq_refl) as [-> Hall]. rewrite CloneMachine_id. split; [done|]. by constructor.
Qed.

(** pools of different tenants or of different names share nothing.
    Reconciling or forgetting one leaves the backoff and the pending creates
    of the other as they were, although both are kept under one concatenated
    key; and the inventory handed to scale-down decisions holds exactly the
    machines the driver listed, every one of this vendor, tenant and pool. *)
Theorem pools_are_isolated rc s1 s2 nodes demand r :
  Validate s1 = None -> Validate s2 = None ->
  (SpecTenant s1, SpecName s1) <> (SpecTenant s2, SpecName s2) ->
  (let '(_, rc', _) := Reconcile rc s1 nodes demand r in
   poolState rc' (key s2) = poolState rc (key s2)) /\
  poolState (Forget rc s1) (key s2) = poolState rc (key s2) /\
  (forall out, fst (Inventory rc s1 r) = Ok out ->
     exists ms, fst (ListMachines (SpecVendor s1) (mkListOptions (SpecName s1) (SpecTenant s1)) (fst r)) = Ok ms /\
       out ≡ₚ ms /\
       Forall (fun m => Provider m = SpecVendor s1 /\ Tenant m = SpecTenant s1 /\
                        label (Labels m) PoolLabel = SpecName s1 /\ ID m <> EmptyString) out).
Proof.
  intros Hv1 Hv2 Hne.
  assert (key s1 <> key s2) as Hk.
  { intros He. apply key_inj in He as [Ht Hn]; [|done..]. apply Hne. by rewrite Ht, Hn. }
  split_and!.
  - destruct (Reconcile rc s1 nodes demand r) as [[out rc'] r'] eqn:Er. by eapply other_pool_state.
  - unfold poolState, Forget. cbn. by rewrite lookup_delete_ne.
  - intros out. unfold Inventory. rewrite Hv1. step_if; [done|]. unfold call.
    destruct (ListMachines _ _ (fst r)) as [[ms|e] w']; [|done]. cbn [fst].
    destruct (inventory_loop s1 ms) as [l|] eqn:El; [|done]. intros [= <-].
    apply inventory_loop_spec in El as [-> Hall]. exists ms. split_and!; [done|apply sort_by_perm|].
    unfold SortMachines. rewrite (sort_by_perm machine_less ms). revert Hall. apply List.Forall_impl.
    intros m [Hb Hi]. unfold belongs in Hb. bool_hyp. by split_and!.
Qed.
End reconciler.

(** ** Witnesses: a provider that creates one machine per request *)

Module Fake.
Definition machine (req : Request) : Machine :=
  mkMachine "m1" (ReqName req) "fly" (ReqTenant req) (ReqRegion req) "started" (ReqLabels req) 0.

#[export] Instance driver : Driver Z := {
  Create _ req w := (Ok (machine req), w);
  Destroy _ _ w := (None, w);
  ListMachines _ _ w := (Ok [], w) }.

#[export] Instance cloud : Cloud Z := {
  Now w := (w, w + Second);
  Entropy w := ((1700000000000, repeat x00 10), w);
  Issue _ _ _ w := (Ok "token"%string, w);
  IssueWithLabels _ _ _ _ w := (Ok "token"%string, w);
  Retire _ w := (Ok true, w);
  Release _ w := (None, w);
  url_Parse _ := Some ("https"%string, "remount.dev"%string) }.

Definition spec (name : string) : Spec :=
  mkSpec name "acme" "fly" 0 1 ∅ "docker" Minute "iad" "s"
    (mkBootstrap "https://c" "" "https://b" "" "/data" "").

Definition options : Options := mkOptions (10 * Minute) (2 * Minute) Second (30 * Second).
Definition rc0 : Reconciler := mkReconciler {["fly"%string]} LabeledSource options ∅.
Definition r0 : Run (W := Z) := (Hour, []).

Definition tick1 := Reconcile rc0 (spec "p") [] 3 r0.
Definition s0 : Fleet (W := Z) := mkFleet rc0 r0 ∅ ∅.
Definition s1 : Fleet (W := Z) :=
  mkFleet (snd (fst tick1)) (snd tick1) (live_after (snd (snd tick1)) ∅) ∅.
End Fake.

Import Fake.

Example new_is_rc0 : New [Some "fly"%string] (Some LabeledSource) (mkOptions 0 0 0 0) = Ok rc0.
Proof. vm_compute. reflexivity. Qed.

Lemma tick1_step : fleet_step (spec "p") s0 s1.
Proof.
  apply (step_reconcile (spec "p") s0 [] 3 (fst (fst tick1)) (snd (fst tick1)) (fst (snd tick1)) (snd (snd tick1))).
  - intros id born. unfold s0. cbn [live]. by rewrite lookup_empty.
  - vm_compute. reflexivity.
Qed.

Lemma pool_never_overcommits_witness :
  map_to_list (live s1) = [("m1"%string, Hour + Second)] /\ Z.of_nat (size (live s1)) <= 1.
Proof.
  split; [vm_compute; reflexivity|].
  apply (pool_never_overcommits (spec "p") s0 s1); [vm_compute; congruence|reflexivity|].
  apply rtc_once, tick1_step.
Defined.

Definition rc_backoff : Reconciler :=
  mkReconciler {["fly"%string]} LabeledSource options {[key (spec "p") := mkState 3 (2 * Hour) ∅]}.

Lemma provider_failures_back_off_witness : backoff options 4 = 8 * Second.
Proof.
  transitivity (Z.min (MaxBackoff options) (MinBackoff options * 2 ^ (4 - 1))); [|vm_compute; reflexivity].
  apply (provider_failures_back_off rc_backoff (spec "p") [] 0 r0 [] 4);
    first [vm_compute; done | apply bool_decide_eq_true_1; vm_compute; reflexivity
          | split; vm_compute; congruence].
Defined.

Lemma pools_are_isolated_witness :
  poolState (Forget rc_backoff (spec "q")) (key (spec "p")) = mkState 3 (2 * Hour) ∅.
Proof.
  transitivity (poolState rc_backoff (key (spec "p"))); [|vm_compute; reflexivity].
  apply (pools_are_isolated rc_backoff (spec "q") (spec "p") [] 0 r0);
    [vm_compute; reflexivity | vm_compute; reflexivity | vm_compute; congruence].
Defined.
End Pool.
