(* ===== verification/Lifecycle.v ===== *)
(** * Workspace and agent lifecycle (internal/control/state_machine.go)

    The tables and the compare-and-transition step that every control-plane
    handler goes through, over the workspace resource of internal/proto.
    [Workspace] keeps the fields that the modelled handlers read or write; a
    copy of the struct is the value itself.  State names, operations and
    actors are the enumerations behind the source's string constants, with
    [transitionOther] for a name the rule table does not hold. *)

From Stdlib Require Import ZArith Lia Strings.String.
From stdpp Require Import base list gmap strings option.
From S2P Require Import Prelude.
#[local] Open Scope Z_scope.

Module Lifecycle.

(** ** proto: codes, states, the resource *)

Inductive Code :=
| CodeNotFound | CodeConflict | CodeDenied | CodeInternal | CodeResourceExhausted | CodeBadRequest
| CodeUnreachable | CodeUnsupported | CodeStorage.

Inductive WSState :=
| WSPending | WSClaiming | WSClaimed | WSQuiescing | WSCheckpointing | WSPaused | WSReleased
| WSDestroying | WSDestroyed | WSFailed.

#[export] Instance WSState_eq_dec : EqDecision WSState.
Proof. solve_decision. Defined.

(** The parts of [WorkspaceSpec] a handler changes. *)
Record WorkspaceSpec := mkSpec {
  RestoreFrom : string; RestoreFormat : string; RestoreObjects : list string;
  Backend : string; Principal : string; Readers : list string; Writers : list string }.

Record Workspace := mkWorkspace {
  ID : string; Tenant : string; Owner : string; State : WSState; Node : string;
  Generation : Z; LeaseUntil : Z; UpdatedAt : Z;
  LastSnapshot : string; LastSnapshotFormat : string; LastSnapshotObjects : list string;
  Spec : WorkspaceSpec; ReleaseEpoch : Z; ReleaseOperation : string;
  AuthzRevision : Z; Revocations : list (Z * string); RevocationFloor : Z }.

(** Assignments to fields of a copied resource. *)
Definition set_State (s : WSState) (w : Workspace) : Workspace :=
  mkWorkspace (ID w) (Tenant w) (Owner w) s (Node w) (Generation w) (LeaseUntil w) (UpdatedAt w)
    (LastSnapshot w) (LastSnapshotFormat w) (LastSnapshotObjects w) (Spec w) (ReleaseEpoch w)
    (ReleaseOperation w) (AuthzRevision w) (Revocations w) (RevocationFloor w).

Definition set_Node (n : string) (w : Workspace) : Workspace :=
  mkWorkspace (ID w) (Tenant w) (Owner w) (State w) n (Generation w) (LeaseUntil w) (UpdatedAt w)
    (LastSnapshot w) (LastSnapshotFormat w) (LastSnapshotObjects w) (Spec w) (ReleaseEpoch w)
    (ReleaseOperation w) (AuthzRevision w) (Revocations w) (RevocationFloor w).

Definition set_Generation (g : Z) (w : Workspace) : Workspace :=
  mkWorkspace (ID w) (Tenant w) (Owner w) (State w) (Node w) g (LeaseUntil w) (UpdatedAt w)
    (LastSnapshot w) (LastSnapshotFormat w) (LastSnapshotObjects w) (Spec w) (ReleaseEpoch w)
    (ReleaseOperation w) (AuthzRevision w) (Revocations w) (RevocationFloor w).

Definition set_LeaseUntil (t : Z) (w : Workspace) : Workspace :=
  mkWorkspace (ID w) (Tenant w) (Owner w) (State w) (Node w) (Generation w) t (UpdatedAt w)
    (LastSnapshot w) (LastSnapshotFormat w) (LastSnapshotObjects w) (Spec w) (ReleaseEpoch w)
    (ReleaseOperation w) (AuthzRevision w) (Revocations w) (RevocationFloor w).

Definition set_UpdatedAt (t : Z) (w : Workspace) : Workspace :=
  mkWorkspace (ID w) (Tenant w) (Owner w) (State w) (Node w) (Generation w) (LeaseUntil w) t
    (LastSnapshot w) (LastSnapshotFormat w) (LastSnapshotObjects w) (Spec w) (ReleaseEpoch w)
    (ReleaseOperation w) (AuthzRevision w) (Revocations w) (RevocationFloor w).

Definition set_snapshot (id format : string) (objects : list string) (w : Workspace) : Workspace :=
  mkWorkspace (ID w) (Tenant w) (Owner w) (State w) (Node w) (Generation w) (LeaseUntil w) (UpdatedAt w)
    id format objects (Spec w) (ReleaseEpoch w)
    (ReleaseOperation w) (AuthzRevision w) (Revocations w) (RevocationFloor w).

Definition set_Spec (s : WorkspaceSpec) (w : Workspace) : Workspace :=
  mkWorkspace (ID w) (Tenant w) (Owner w) (State w) (Node w) (Generation w) (LeaseUntil w) (UpdatedAt w)
    (LastSnapshot w) (LastSnapshotFormat w) (LastSnapshotObjects w) s (ReleaseEpoch w)
    (ReleaseOperation w) (AuthzRevision w) (Revocations w) (RevocationFloor w).

Definition set_release (epoch : Z) (operation : string) (w : Workspace) : Workspace :=
  mkWorkspace (ID w) (Tenant w) (Owner w) (State w) (Node w) (Generation w) (LeaseUntil w) (UpdatedAt w)
    (LastSnapshot w) (LastSnapshotFormat w) (LastSnapshotObjects w) (Spec w) epoch
    operation (AuthzRevision w) (Revocations w) (RevocationFloor w).

Definition set_identity (tenant owner : string) (revision : Z) (w : Workspace) : Workspace :=
  mkWorkspace (ID w) tenant owner (State w) (Node w) (Generation w) (LeaseUntil w) (UpdatedAt w)
    (LastSnapshot w) (LastSnapshotFormat w) (LastSnapshotObjects w) (Spec w) (ReleaseEpoch w)
    (ReleaseOperation w) revision (Revocations w) (RevocationFloor w).

Definition set_authz (revision : Z) (revs : list (Z * string)) (floor : Z) (w : Workspace) : Workspace :=
  mkWorkspace (ID w) (Tenant w) (Owner w) (State w) (Node w) (Generation w) (LeaseUntil w) (UpdatedAt w)
    (LastSnapshot w) (LastSnapshotFormat w) (LastSnapshotObjects w) (Spec w) (ReleaseEpoch w)
    (ReleaseOperation w) revision revs floor.

Definition restore_spec (from format : string) (objects : list string) (s : WorkspaceSpec) : WorkspaceSpec :=
  mkSpec from format objects (Backend s) (Principal s) (Readers s) (Writers s).

Definition set_restore (from format : string) (objects : list string) (w : Workspace) : Workspace :=
  set_Spec (restore_spec from format objects (Spec w)) w.

(** [next.Spec.Restore* = next.LastSnapshot*]. *)
Definition restore_from_last (w : Workspace) : Workspace :=
  set_restore (LastSnapshot w) (LastSnapshotFormat w) (LastSnapshotObjects w) w.

(** ** Authority counters *)

Definition nextWorkspaceGeneration (current : Z) : result Code Z :=
  if maxInt64 <=? current then Err CodeResourceExhausted else Ok (current + 1).

Definition canAdvanceWorkspaceAuthority (workspace : option Workspace) : option Code :=
  match workspace with
  | None => Some CodeNotFound
  | Some w =>
      match nextWorkspaceGeneration (Generation w) with
      | Err e => Some e
      | Ok _ => if AuthzRevision w =? maxUint64 then Some CodeResourceExhausted else None
      end
  end.

Definition nextReleaseEpoch (w : Workspace) : result Code Z :=
  if ReleaseEpoch w =? maxUint64 then Err CodeResourceExhausted else Ok (ReleaseEpoch w + 1).

(** ** The rule table *)

Inductive lifecycleActor := actorControl | actorNode | actorRecovery.

#[export] Instance lifecycleActor_eq_dec : EqDecision lifecycleActor.
Proof. solve_decision. Defined.

Inductive operation :=
| transitionRecover | transitionReconnect | transitionReleaseAbort | transitionDestroyBegin
| transitionDestroyCommit | transitionReleaseBegin | transitionReleaseCommit | transitionMove
| transitionSleep | transitionWake | transitionClaim | transitionReady | transitionNodeReleased
| transitionFleetBegin | transitionFleetComplete | transitionLeaseExpired
| transitionAuthorityExhausted | transitionControllerReconcile | transitionOther (name : string).

Definition statePair : Type := WSState * WSState.

Record lifecycleRule := mkRule { rule_actor : lifecycleActor; rule_pairs : list statePair }.

Definition controllerReconcilePairs : list statePair :=
  flat_map (fun from => [(from, WSClaiming); (from, WSClaimed)])
    [WSPending; WSClaiming; WSClaimed; WSQuiescing; WSCheckpointing; WSReleased; WSDestroying; WSFailed].

Definition fleetCompletionPairs : list statePair :=
  flat_map (fun from => [(from, WSFailed); (from, WSDestroyed)])
    [WSPending; WSClaiming; WSClaimed; WSQuiescing; WSCheckpointing; WSPaused; WSReleased; WSDestroying;
     WSFailed].

Definition lifecycleRules (op : operation) : option lifecycleRule :=
  match op with
  | transitionControllerReconcile => Some (mkRule actorRecovery controllerReconcilePairs)
  | transitionRecover => Some (mkRule actorRecovery
      [(WSClaimed, WSClaiming); (WSClaiming, WSClaiming); (WSQuiescing, WSFailed);
       (WSCheckpointing, WSFailed); (WSDestroying, WSFailed); (WSReleased, WSPending)])
  | transitionReconnect => Some (mkRule actorControl [(WSClaimed, WSClaiming)])
  | transitionReleaseAbort => Some (mkRule actorControl
      [(WSQuiescing, WSClaiming); (WSQuiescing, WSFailed); (WSDestroying, WSClaiming);
       (WSDestroying, WSFailed)])
  | transitionDestroyBegin => Some (mkRule actorControl
      [(WSClaimed, WSDestroying); (WSClaiming, WSDestroying)])
  | transitionDestroyCommit => Some (mkRule actorControl
      [(WSDestroying, WSDestroyed); (WSPending, WSDestroyed); (WSReleased, WSDestroyed);
       (WSPaused, WSDestroyed)])
  | transitionReleaseBegin => Some (mkRule actorControl [(WSClaimed, WSQuiescing)])
  | transitionReleaseCommit => Some (mkRule actorControl [(WSQuiescing, WSReleased)])
  | transitionMove => Some (mkRule actorControl
      [(WSPending, WSPending); (WSReleased, WSPending); (WSPaused, WSPending)])
  | transitionSleep => Some (mkRule actorControl
      [(WSPending, WSPaused); (WSReleased, WSPaused); (WSPaused, WSPaused)])
  | transitionWake => Some (mkRule actorControl [(WSPaused, WSPending)])
  | transitionClaim => Some (mkRule actorNode
      [(WSPending, WSClaiming); (WSClaimed, WSClaiming); (WSClaiming, WSClaiming)])
  | transitionReady => Some (mkRule actorNode [(WSClaiming, WSClaimed); (WSClaimed, WSClaimed)])
  | transitionNodeReleased => Some (mkRule actorNode
      [(WSClaimed, WSPending); (WSClaiming, WSPending)])
  | transitionFleetBegin => Some (mkRule actorControl
      [(WSClaimed, WSQuiescing); (WSClaiming, WSQuiescing); (WSFailed, WSQuiescing)])
  | transitionFleetComplete => Some (mkRule actorControl fleetCompletionPairs)
  | transitionLeaseExpired => Some (mkRule actorControl
      [(WSClaimed, WSPending); (WSClaiming, WSPending)])
  | transitionAuthorityExhausted => Some (mkRule actorControl
      [(WSClaimed, WSFailed); (WSClaiming, WSFailed)])
  | transitionOther _ => None
  end.

(** [generation] and [node] are compared when they are given: the pairs
    [expectGeneration]/[generation] and [expectNode]/[node]. *)
Record lifecycleTransition := mkTransition {
  op : operation; actor : lifecycleActor; to : WSState;
  expectGeneration : option Z; expectNode : option string }.

Definition mismatch {A} (eqb : A -> A -> bool) (expected : option A) (have : A) : bool :=
  match expected with Some e => negb (eqb have e) | None => false end.

Definition transitionWorkspace (current : option Workspace) (request : lifecycleTransition)
  : result Code Workspace :=
  match current with
  | None => Err CodeNotFound
  | Some w =>
      match lifecycleRules (op request) with
      | None => Err CodeInternal
      | Some rule =>
          if negb (bool_decide (actor request = rule_actor rule)) then Err CodeDenied
          else if mismatch Z.eqb (expectGeneration request) (Generation w) then Err CodeConflict
          else if mismatch str_eqb (expectNode request) (Node w) then Err CodeConflict
          else if negb (bool_decide ((State w, to request) ∈ rule_pairs rule)) then Err CodeConflict
          else Ok (set_State (to request) w)
      end
  end.

(** ** Agents *)

Inductive AgentStatus :=
| AgentCreating | AgentScheduled | AgentRunning | AgentWaitingInput | AgentIdle | AgentWaitingApproval
| AgentSleeping | AgentFailed | AgentFinished | AgentDestroyed.

#[export] Instance AgentStatus_eq_dec : EqDecision AgentStatus.
Proof. solve_decision. Defined.

Definition live_statuses : list AgentStatus :=
  [AgentCreating; AgentScheduled; AgentRunning; AgentWaitingInput; AgentWaitingApproval; AgentIdle;
   AgentSleeping].

Definition add_pairs (from : AgentStatus) (tos : list AgentStatus) : list (AgentStatus * AgentStatus) :=
  map (fun t => (from, t)) tos.

Definition buildAgentTransitions : list (AgentStatus * AgentStatus) :=
  flat_map (fun from => add_pairs from
    [AgentFailed; AgentFinished; AgentDestroyed; AgentCreating; AgentSleeping; AgentRunning; AgentIdle])
    live_statuses
  ++ flat_map (fun s => add_pairs s [AgentScheduled] ++ add_pairs AgentScheduled [s]) live_statuses
  ++ add_pairs AgentCreating [AgentWaitingInput]
  ++ add_pairs AgentRunning [AgentWaitingInput; AgentWaitingApproval]
  ++ add_pairs AgentWaitingInput [AgentWaitingApproval]
  ++ add_pairs AgentWaitingApproval [AgentWaitingInput]
  ++ add_pairs AgentSleeping [AgentWaitingInput]
  ++ add_pairs AgentIdle [AgentWaitingInput]
  ++ add_pairs AgentFailed [AgentDestroyed]
  ++ add_pairs AgentFinished [AgentDestroyed].

Definition transitionAgent (from to : AgentStatus) : option Code :=
  if bool_decide (from = to) then None
  else if bool_decide ((from, to) ∈ buildAgentTransitions) then None
  else Some CodeConflict.

(** ** Lemmas *)

(** What a transition that was accepted says about its request. *)
Lemma transition_ok w req w' :
  transitionWorkspace (Some w) req = Ok w' ->
  w' = set_State (to req) w /\
  (exists rule, lifecycleRules (op req) = Some rule /\ actor req = rule_actor rule /\
     (State w, to req) ∈ rule_pairs rule) /\
  (forall g, expectGeneration req = Some g -> Generation w = g) /\
  (forall n, expectNode req = Some n -> Node w = n).
Proof.
  unfold transitionWorkspace. destruct (lifecycleRules (op req)) as [rule|] eqn:Er; [|done].
  repeat (step_if; [done|]). intros [= <-]. bool_hyp.
  split_and!; [done| | |].
  - exists rule. split_and!; [done|..]; by eapply bool_decide_eq_true_1.
  - intros g Hg. rewrite Hg in *. cbn in *. bool_hyp. done.
  - intros n Hn. rewrite Hn in *. cbn in *. bool_hyp. done.
Qed.

(** No rule of the table leads out of destroyed. *)
Lemma destroyed_has_no_rule o rule t :
  lifecycleRules o = Some rule -> (WSDestroyed, t) ∉ rule_pairs rule.
Proof.
  intros Hr Hin. destruct o; cbn in Hr; simplify_eq; cbn in Hin;
    repeat (apply elem_of_cons in Hin as [Hin|Hin]; [discriminate|]); by apply not_elem_of_nil in Hin.
Qed.

Lemma agent_destroyed_final a b :
  rtc (fun a b => transitionAgent a b = None) a b -> a = AgentDestroyed -> b = AgentDestroyed.
Proof.
  induction 1 as [a|a u b Hs Hr IH]; [done|]. intros ->. apply IH.
  by destruct u; vm_compute in Hs.
Qed.

(** an agent that failed or finished can afterwards only be destroyed,
    a destroyed agent never changes status again, every status that is not
    terminal can be ended in one step in each of the three ways, and
    [transitionAgent] refuses everything outside the table with a conflict. *)
Theorem agent_terminal_statuses_are_final s t :
  rtc (fun a b => transitionAgent a b = None) s t ->
  (s = AgentDestroyed -> t = AgentDestroyed) /\
  (s = AgentFailed \/ s = AgentFinished -> t = s \/ t = AgentDestroyed) /\
  (t <> AgentFailed -> t <> AgentFinished -> t <> AgentDestroyed ->
     transitionAgent t AgentFailed = None /\ transitionAgent t AgentFinished = None) /\
  transitionAgent t AgentDestroyed = None /\
  (forall u, transitionAgent t u = None \/ transitionAgent t u = Some CodeConflict).
Proof.
  intros Hr. split_and!.
  - by apply agent_destroyed_final.
  - intros Hs. induction Hr as [s|s u t Hstep Hr IH]; [by left|].
    assert (u = s \/ u = AgentDestroyed) as [-> | ->].
    { destruct Hs as [-> | ->]; destruct u; first [by left|by right|by vm_compute in Hstep]. }
    + by apply IH.
    + right. by apply (agent_destroyed_final AgentDestroyed).
  - intros. by destruct t.
  - by destruct t.
  - intros u. unfold transitionAgent. repeat case_bool_decide; auto.
Qed.

Lemma agent_terminal_statuses_are_final_witness :
  transitionAgent AgentFailed AgentDestroyed = None /\ transitionAgent AgentRunning AgentFailed = None.
Proof.
  split; [reflexivity|].
  apply (agent_terminal_statuses_are_final AgentCreating AgentRunning);
    [apply rtc_once; reflexivity|discriminate..].
Defined.
End Lifecycle.
