(* ===== verification/Control.v ===== *)
(** * Control-plane workspace handlers (internal/control/control.go)

    The handlers that change a workspace: claim, ready, renew, snapshot
    commit, release by the node, the two-phase release that move, sleep and
    destroy use, its abort, the cleanup of a released or destroyed source,
    wake, ACL changes, node loss, lease expiry, fleet quarantine, the retention
    of records and the repair made on restart.

    Every handler runs its decision under [c.mu] and drops the lock around a
    remote call; each locked section is one definition here, and what happens
    between two sections of one handler is any sequence of other sections.
    Results of remote calls, of placement ([eligibleBackendLocked]) and of
    artifact verification are arguments.  A database transaction is an
    argument of type [option Z]: [None] when it fails, and the clock reading
    [persistWS] stamped when it commits.  The [workspaces] map of the process,
    the durable rows, the [assignments] table and the materialization retries
    are the state; events, timers, mutation keys and volumes are not. *)

From Stdlib Require Import ZArith Lia Strings.String.
From stdpp Require Import base list gmap strings option.
From S2P Require Import Prelude Lifecycle.
#[local] Open Scope Z_scope.

Module Control.
Import Lifecycle.

(** ** State *)

Record Options := mkOptions { LeaseSec : Z; RecoveryGraceSec : Z }.

Record materializeRetry := mkRetry { failures : Z; notBefore : Z }.

Record nodeState := mkNodeState { Online : bool; LastSeen : Z }.

Record Control := mkControl {
  workspaces : gmap string Workspace;
  rows : gmap string Workspace;
  assignments : gmap (string * Z) string;
  retries : gmap string materializeRetry;
  nodes : gmap string nodeState;
  controllerEpoch : Z }.

Definition set_workspaces (f : gmap string Workspace -> gmap string Workspace) (c : Control) : Control :=
  mkControl (f (workspaces c)) (rows c) (assignments c) (retries c) (nodes c) (controllerEpoch c).

Definition set_retries (f : gmap string materializeRetry -> gmap string materializeRetry) (c : Control) : Control :=
  mkControl (workspaces c) (rows c) (assignments c) (f (retries c)) (nodes c) (controllerEpoch c).

Definition set_nodes (f : gmap string nodeState -> gmap string nodeState) (c : Control) : Control :=
  mkControl (workspaces c) (rows c) (assignments c) (retries c) (f (nodes c)) (controllerEpoch c).

(** [time.Time.UnixMilli] of an instant in nanoseconds since the epoch. *)
Definition unixMilli (t : Z) : Z := t / 1000000.

Definition leaseFrom (o : Options) (now : Z) : Z := unixMilli (now + LeaseSec o * Second).
Definition graceFrom (o : Options) (now : Z) : Z := unixMilli (now + RecoveryGraceSec o * Second).

Definition is_state (s : WSState) (w : Workspace) : bool := bool_decide (State w = s).

Definition held (s : WSState) : bool :=
  match s with
  | WSClaimed | WSClaiming | WSQuiescing | WSCheckpointing | WSDestroying => true
  | _ => false
  end.

(** ** Persistence *)

Definition persistWS (c : Control) (next : Workspace) (tx : option Z) : result Code (Workspace * Control) :=
  match tx with
  | None => Err CodeStorage
  | Some t =>
      let next := set_UpdatedAt (unixMilli t) next in
      Ok (next, mkControl (workspaces c) (<[ID next := next]> (rows c)) (assignments c) (retries c)
                  (nodes c) (controllerEpoch c))
  end.

(** [INSERT OR IGNORE INTO assignments]. *)
Definition insert_or_ignore (k : string * Z) (node : string) (a : gmap (string * Z) string) :=
  match a !! k with Some _ => a | None => <[k := node]> a end.

Definition persistClaim (c : Control) (next : Workspace) (tx : option Z) : result Code (Workspace * Control) :=
  match tx with
  | None => Err CodeStorage
  | Some t =>
      let next := set_UpdatedAt (unixMilli t) next in
      Ok (next, mkControl (workspaces c) (<[ID next := next]> (rows c))
                  (insert_or_ignore (ID next, Generation next) (Node next) (assignments c))
                  (retries c) (nodes c) (controllerEpoch c))
  end.

(** [*ws = next], after the transaction committed. *)
Definition publish (p : Workspace * Control) : Control :=
  set_workspaces (<[ID (fst p) := fst p]>) (snd p).

Definition commitWS (c : Control) (next : Workspace) (tx : option Z) : result Code Workspace * Control :=
  match persistWS c next tx with
  | Err e => (Err e, c)
  | Ok p => (Ok (fst p), publish p)
  end.

Definition commitClaim (c : Control) (next : Workspace) (tx : option Z) : result Code Workspace * Control :=
  match persistClaim c next tx with
  | Err e => (Err e, c)
  | Ok p => (Ok (fst p), publish p)
  end.

(** A read of [c.workspaces[id]] that refuses a missing workspace. *)
Definition with_ws {A} (c : Control) (id : string) (e : Code)
    (k : Workspace -> result Code A * Control) : result Code A * Control :=
  match workspaces c !! id with None => (Err e, c) | Some ws => k ws end.

(** A transition whose refusal ends the handler. *)
Definition with_transition {A} (c : Control) (ws : Workspace) (t : lifecycleTransition)
    (k : Workspace -> result Code A * Control) : result Code A * Control :=
  match transitionWorkspace (Some ws) t with Err e => (Err e, c) | Ok next => k next end.

(** ** Create

    The last section of [wsCreate], after quotas and validation; the id comes
    from [ids.New]. *)
Definition create_commit (now : Z) (tx : option Z) (id tenant owner : string) (spec : WorkspaceSpec)
    (c : Control) : result Code Workspace * Control :=
  commitWS c
    (mkWorkspace id tenant owner WSPending EmptyString 0 0 (unixMilli now) EmptyString EmptyString []
       spec 0 EmptyString 1 [] 0) tx.

(** ** Claim and ready *)

Definition choose_backend (backend : string) (w : Workspace) : Workspace :=
  let s := Spec w in
  if Backend s =s "" then
    set_Spec (mkSpec (RestoreFrom s) (RestoreFormat s) (RestoreObjects s) backend (Principal s)
                (Readers s) (Writers s)) w
  else w.

Definition wsClaim (o : Options) (eligible : Workspace -> string -> option string) (now : Z) (tx : option Z)
    (node id : string) (c : Control) : result Code Workspace * Control :=
  with_ws c id CodeNotFound (fun ws =>
  if (is_state WSClaimed ws || is_state WSClaiming ws) && (Node ws =s node) then
    with_transition c ws
      (mkTransition transitionClaim actorNode WSClaiming (Some (Generation ws)) (Some node)) (fun next =>
    commitClaim c (set_LeaseUntil (leaseFrom o now) next) tx)
  else if negb (is_state WSPending ws) then (Err CodeConflict, c)
  else match eligible ws node with
  | None => (Err CodeDenied, c)
  | Some backend =>
      with_transition c ws
        (mkTransition transitionClaim actorNode WSClaiming (Some (Generation ws)) None) (fun next =>
      let next := set_Node node (choose_backend backend next) in
      match nextWorkspaceGeneration (Generation next) with
      | Err e => (Err e, c)
      | Ok g => commitClaim c (set_LeaseUntil (leaseFrom o now) (set_Generation g next)) tx
      end)
  end).

Definition RestoreProcessesRestarted : string := "restarted".
Definition RestoreProcessesPreserved : string := "preserved".
Definition ArtifactFormatTar : string := "tar".
Definition ArtifactFormatChunkedV1 : string := "chunked-v1".
Definition ArtifactFormatFirecrackerFullV1 : string := "firecracker-full-v1".

Definition NormalizeArtifactFormat (format : string) : result Code string :=
  if (format =s "") || (format =s ArtifactFormatTar) then Ok ArtifactFormatTar
  else if (format =s ArtifactFormatChunkedV1) || (format =s ArtifactFormatFirecrackerFullV1) then Ok format
  else Err CodeUnsupported.

(** The restore outcome a node may report. *)
Definition bad_outcome (ws : Workspace) (processes : string) : bool :=
  let expected := if RestoreFormat (Spec ws) =s ArtifactFormatFirecrackerFullV1
                  then RestoreProcessesPreserved else RestoreProcessesRestarted in
  (processes <>s "") && ((RestoreFrom (Spec ws) =s "") || (processes <>s expected)).

Definition wsReady (o : Options) (now : Z) (tx : option Z) (node id : string) (gen : Z) (processes : string)
    (c : Control) : result Code Workspace * Control :=
  with_ws c id CodeNotFound (fun ws =>
  if (Node ws <>s node) || negb (Generation ws =? gen) then (Err CodeConflict, c)
  else if bad_outcome ws processes then (Err CodeConflict, c)
  else
    let ready := mkTransition transitionReady actorNode WSClaimed (Some gen) (Some node) in
    if is_state WSClaimed ws then
      with_transition c ws ready (fun next => commitWS c (set_LeaseUntil (leaseFrom o now) next) tx)
    else if negb (is_state WSClaiming ws) then (Err CodeConflict, c)
    else
      with_transition c ws ready (fun next =>
      match commitWS c (set_LeaseUntil (leaseFrom o now) next) tx with
      | (Ok w, c') => (Ok w, set_retries (delete (ID ws)) c')
      | other => other
      end)).

(** ** Retry after a failed materialization *)

Definition materializeRetryBase : Z := Second.
Definition materializeRetryMax : Z := 30 * Second.

Definition retry_delay (fails : Z) : Z :=
  let delay := i64 (Z.shiftl materializeRetryBase fails) in
  if (materializeRetryMax <? delay) || (delay <=? 0) then materializeRetryMax else delay.

Definition holdBackLocked (now : Z) (wsID : string) (c : Control) : Z * Control :=
  let r := default (mkRetry 0 0) (retries c !! wsID) in
  let delay := retry_delay (failures r) in
  (delay,
   set_retries (<[wsID := mkRetry (if failures r <? 16 then failures r + 1 else failures r)
                            (unixMilli (now + delay))]>) c).

(** ** Renewal *)

Fixpoint revoked_loop (known : Z) (revs : list (Z * string)) (acc : list string) : list string :=
  match revs with
  | [] => acc
  | (rev, principal) :: t =>
      if (known <? rev) && negb (contains acc principal) then revoked_loop known t (acc ++ [principal])
      else revoked_loop known t acc
  end.

Definition revokedSince (ws : Workspace) (known : Z) : list string * bool :=
  if known <? RevocationFloor ws then ([], true) else (revoked_loop known (Revocations ws) [], false).

Inductive RenewAction := renew_continue | renew_fence | renew_destroy.

Record WSRenewResult := mkRenewResult {
  ResID : string; ResGeneration : Z; Accepted : bool; AuthoritativeGen : Z; ResLeaseUntil : Z;
  ResAction : RenewAction; ResEpoch : Z; ResAuthzRevision : Z; Revoked : list string; AuthzReset : bool }.

(** [Gen] and [Authz] are the maps of the request; [IDs] carries the outcome of
    each row's transaction beside the id. *)
Record WSRenewReq := mkRenewReq {
  IDs : list (string * option Z); Gen : gmap string Z; ReqEpoch : Z; Authz : gmap string Z }.

Fixpoint renew_loop (until : Z) (node : string) (req : WSRenewReq) (ids : list (string * option Z))
    (acc : list WSRenewResult) (c : Control) : result Code (list WSRenewResult) * Control :=
  match ids with
  | [] => (Ok acc, c)
  | (id, tx) :: t =>
      let requested := default 0 (Gen req !! id) in
      match workspaces c !! id with
      | None =>
          renew_loop until node req t
            (acc ++ [mkRenewResult id requested false 0 0 renew_destroy (controllerEpoch c) 0 [] false]) c
      | Some ws =>
          if (Node ws <>s node) || negb (held (State ws)) || (requested =? 0)
             || negb (requested =? Generation ws) then
            renew_loop until node req t
              (acc ++ [mkRenewResult id requested false (Generation ws) 0 renew_fence (controllerEpoch c)
                         0 [] false]) c
          else
            match commitWS c (set_LeaseUntil until ws) tx with
            | (Err e, c') => (Err e, c')
            | (Ok w, c') =>
                let '(revoked, reset) :=
                  match Authz req !! id with
                  | Some known => if known <? AuthzRevision w then revokedSince w known else ([], false)
                  | None => ([], false)
                  end in
                renew_loop until node req t
                  (acc ++ [mkRenewResult id requested true (Generation w) until renew_continue
                             (controllerEpoch c) (AuthzRevision w) revoked reset]) c'
            end
      end
  end.

Definition touch_node (seen : Z) (node : string) (c : Control) : Control :=
  match nodes c !! node with
  | Some n => set_nodes (<[node := mkNodeState (Online n) (unixMilli seen)]>) c
  | None => c
  end.

Definition wsRenew (o : Options) (now seen : Z) (node : string) (req : WSRenewReq) (c : Control)
  : result Code (list WSRenewResult) * Control :=
  if negb (ReqEpoch req =? 0) && negb (ReqEpoch req =? controllerEpoch c) then (Err CodeConflict, c)
  else
    match renew_loop (leaseFrom o now) node req (IDs req) [] c with
    | (Ok res, c') => (Ok res, touch_node seen node c')
    | other => other
    end.

(** ** Snapshots and release by the node *)

(** [verify] is the outcome of artifact verification, [None] when none is
    configured. *)
Definition wsSnapshotCommit (verify : option (result Code (list string))) (tx : option Z)
    (node id : string) (gen : Z) (snapshot reqFormat : string) (c : Control) : result Code Workspace * Control :=
  if snapshot =s "" then (Err CodeBadRequest, c)
  else match NormalizeArtifactFormat reqFormat with
  | Err e => (Err e, c)
  | Ok format =>
      match verify with
      | Some (Err _) => (Err CodeConflict, c)
      | _ =>
          let objects := match verify with Some (Ok l) => l | _ => [] end in
          with_ws c id CodeNotFound (fun ws =>
          if (Node ws <>s node) || negb (Generation ws =? gen) || negb (is_state WSClaimed ws) then
            (Err CodeConflict, c)
          else commitWS c (set_snapshot snapshot format objects ws) tx)
      end
  end.

Record WSReleasedReq := mkReleasedReq {
  RelID : string; RelGen : Z; Snapshot : string; SnapshotFormat : string; Failed : bool }.

(** The locked section of [wsReleased].  [next] first takes the reported
    snapshot, and is then assigned from the transition when the state is held. *)
Definition wsReleased (verify : option (result Code (list string))) (now : Z) (tx : option Z)
    (node : string) (req : WSReleasedReq) (c : Control) : result Code Workspace * Control :=
  match NormalizeArtifactFormat (SnapshotFormat req) with
  | Err e => (Err e, c)
  | Ok format =>
      let verify := if Snapshot req <>s "" then verify else None in
      match verify with
      | Some (Err _) => (Err CodeConflict, c)
      | _ =>
          let objects := match verify with Some (Ok l) => l | _ => [] end in
          with_ws c (RelID req) CodeNotFound (fun ws =>
          if (Node ws <>s node) || negb (Generation ws =? RelGen req) then (Err CodeConflict, c)
          else if is_state WSDestroyed ws then (Err CodeConflict, c)
          else
            let next :=
              if Snapshot req <>s "" then
                set_restore (Snapshot req) format objects (set_snapshot (Snapshot req) format objects ws)
              else ws in
            let finish next :=
              let next := set_LeaseUntil 0 (set_Node EmptyString next) in
              let c := if Failed req then snd (holdBackLocked now (ID ws) c) else c in
              commitWS c next tx in
            if held (State next) then
              with_transition c ws
                (mkTransition transitionNodeReleased actorNode WSPending (Some (RelGen req)) (Some node))
                (fun next => finish next)
            else finish next)
      end
  end.

(** ** Two-phase release *)

(** What [release] does after its first locked section. *)
Inductive releasePlan :=
| ReleaseDone (last : string)
| ReleaseFinishAbort (node : string) (gen : Z) (operation : string)
| ReleaseCleanup (last : string)
| ReleasePrepare (ws : Workspace).

Definition release_begin (capable : bool) (operation : string) (tx : option Z) (id : string) (c : Control)
  : result Code releasePlan * Control :=
  with_ws c id CodeNotFound (fun ws =>
  if is_state WSClaiming ws && (ReleaseOperation ws <>s "") then
    (Ok (ReleaseFinishAbort (Node ws) (Generation ws) (ReleaseOperation ws)), c)
  else match State ws with
  | WSPending | WSPaused => (Ok (ReleaseDone (LastSnapshot ws)), c)
  | WSReleased => (Ok (ReleaseCleanup (LastSnapshot ws)), c)
  | WSClaimed =>
      if negb (ReleaseEpoch ws =? 0) && negb capable then (Err CodeUnsupported, c)
      else
        with_transition c ws
          (mkTransition transitionReleaseBegin actorControl WSQuiescing (Some (Generation ws)) (Some (Node ws)))
          (fun next =>
        match nextReleaseEpoch ws with
        | Err e => (Err e, c)
        | Ok epoch =>
            match commitWS c (set_release epoch operation next) tx with
            | (Ok w, c') => (Ok (ReleasePrepare w), c')
            | (Err e, c') => (Err e, c')
            end
        end)
  | _ => (Err CodeConflict, c)
  end).

(** [res] is the node's answer to the prepare call; an error here is followed
    by [abort_publish] except when the workspace changed meanwhile. *)
Definition release_commit (verify : option (result Code (list string))) (tx : option Z)
    (id node : string) (gen : Z) (snapshot : bool) (res : WSReleasedReq) (c : Control)
  : result Code string * Control :=
  if (RelID res <>s id) || negb (RelGen res =? gen) then (Err CodeConflict, c)
  else if snapshot && (Snapshot res =s "") then (Err CodeConflict, c)
  else
    let verify := if Snapshot res <>s "" then verify else None in
    match verify with
    | Some (Err _) => (Err CodeConflict, c)
    | _ =>
        let objects := match verify with Some (Ok l) => l | _ => [] end in
        with_ws c id CodeConflict (fun ws =>
        if (Node ws <>s node) || negb (Generation ws =? gen) || negb (is_state WSQuiescing ws) then
          (Err CodeConflict, c)
        else
          with_transition c ws
            (mkTransition transitionReleaseCommit actorControl WSReleased (Some gen) (Some node)) (fun next =>
          let next :=
            if Snapshot res <>s "" then
              set_restore (Snapshot res) (SnapshotFormat res) objects
                (set_snapshot (Snapshot res) (SnapshotFormat res) objects next)
            else next in
          match commitWS c next tx with
          | (Ok w, c') => (Ok (LastSnapshot next), c')
          | (Err e, c') => (Err e, c')
          end))
    end.

(** [abortPreparedRelease]: the durable operation it aborts, read first. *)
Definition abort_begin (id node : string) (gen : Z) (expected : WSState) (c : Control) : result Code string :=
  match workspaces c !! id with
  | None => Err CodeConflict
  | Some ws =>
      if (Node ws <>s node) || negb (Generation ws =? gen) || negb (is_state expected ws) then Err CodeConflict
      else if ReleaseOperation ws =s "" then Err CodeConflict
      else Ok (ReleaseOperation ws)
  end.

(** Its second section, after the node acknowledged the abort or did not. *)
Definition abort_publish (o : Options) (now : Z) (acked : bool) (tx : option Z) (id node : string) (gen : Z)
    (expected : WSState) (c : Control) : result Code Workspace * Control :=
  with_ws c id CodeConflict (fun ws =>
  if (Node ws <>s node) || negb (Generation ws =? gen) || negb (is_state expected ws) then (Err CodeConflict, c)
  else
    with_transition c ws
      (mkTransition transitionReleaseAbort actorControl (if acked then WSClaiming else WSFailed)
         (Some gen) (Some node)) (fun next =>
    commitWS c (set_LeaseUntil (if acked then leaseFrom o now else 0) next) tx)).

(** [finishReleaseAbort], after both acknowledgements of the node. *)
Definition finish_abort (o : Options) (now : Z) (tx : option Z) (id node : string) (gen : Z)
    (operation : string) (c : Control) : result Code Workspace * Control :=
  with_ws c id CodeConflict (fun ws =>
  if (Node ws <>s node) || negb (Generation ws =? gen) || negb (is_state WSClaiming ws)
     || (ReleaseOperation ws <>s operation) then (Err CodeConflict, c)
  else
    with_transition c ws
      (mkTransition transitionReady actorNode WSClaimed (Some gen) (Some node)) (fun next =>
    commitWS c (set_LeaseUntil (leaseFrom o now) (set_release (ReleaseEpoch next) EmptyString next)) tx)).

(** [completeReleasedSourceCleanup], after the node's acknowledgement. *)
Definition released_cleanup (tx : option Z) (id node : string) (gen : Z) (c : Control)
  : result Code Workspace * Control :=
  with_ws c id CodeConflict (fun ws =>
  if negb (is_state WSReleased ws) || (Node ws <>s node) || negb (Generation ws =? gen) then (Err CodeConflict, c)
  else commitWS c (set_release (ReleaseEpoch ws) EmptyString (set_Node EmptyString ws)) tx).

(** [recoverReleasedSource], after that cleanup. *)
Definition recover_released (tx : option Z) (id : string) (c : Control) : result Code Workspace * Control :=
  with_ws c id CodeConflict (fun ws =>
  if negb (is_state WSReleased ws) || (Node ws <>s "") then (Err CodeConflict, c)
  else
    with_transition c ws (mkTransition transitionRecover actorRecovery WSPending None None) (fun next =>
    commitWS c (restore_from_last (set_LeaseUntil 0 next)) tx)).

(** ** Destroy *)

(** What [wsDestroy] does after the locked section that decides whether the
    source must be prepared: finish the cleanup of a destroyed workspace, finish
    an abort or the cleanup of a released source and look again, or go on with
    the workspace it read ([held] says whether the node has to prepare). *)
Inductive destroyPlan :=
| DestroyDone
| DestroyFinishAbort (node : string) (gen : Z) (operation : string)
| DestroyReleasedCleanup (node : string) (gen : Z)
| DestroyGo (ws : Workspace) (held : bool).

Definition destroy_begin (online capable : bool) (operation : string) (tx : option Z) (id : string) (c : Control)
  : result Code destroyPlan * Control :=
  with_ws c id CodeNotFound (fun ws =>
  if is_state WSDestroyed ws then (Ok DestroyDone, c)
  else if is_state WSFailed ws then (Err CodeConflict, c)
  else if is_state WSClaiming ws && (ReleaseOperation ws <>s "") then
    (Ok (DestroyFinishAbort (Node ws) (Generation ws) (ReleaseOperation ws)), c)
  else if is_state WSReleased ws && (Node ws <>s "") then
    (Ok (DestroyReleasedCleanup (Node ws) (Generation ws)), c)
  else if negb (held (State ws)) then (Ok (DestroyGo ws false), c)
  else if (Node ws =s "") || negb online then (Err CodeUnreachable, c)
  else if negb (ReleaseEpoch ws =? 0) && negb capable then (Err CodeUnsupported, c)
  else match nextReleaseEpoch ws with
  | Err e => (Err e, c)
  | Ok epoch =>
      with_transition c ws
        (mkTransition transitionDestroyBegin actorControl WSDestroying (Some (Generation ws)) (Some (Node ws)))
        (fun next =>
      match commitWS c (set_release epoch operation next) tx with
      | (Ok w, c') => (Ok (DestroyGo w true), c')
      | (Err e, c') => (Err e, c')
      end)
  end).

(** The row the last section of [wsDestroy] writes, from the object [ws] it
    read before the node was asked. *)
Definition destroyed_row (ws : Workspace) (gen : Z) (wasHeld : bool) : result Code Workspace :=
  if negb (Generation ws =? gen) || (wasHeld && negb (is_state WSDestroying ws)) then Err CodeConflict
  else
    let? next := transitionWorkspace (Some ws)
                   (mkTransition transitionDestroyCommit actorControl WSDestroyed (Some gen) None) in
    Ok (set_LeaseUntil 0 (if wasHeld then next else set_Node EmptyString next)).

(** The section while that object is still the one in the map: every handler
    but an approval that remembers its host changes workspaces in place. *)
Definition destroy_commit (tx : option Z) (id : string) (gen : Z) (wasHeld : bool) (c : Control)
  : result Code Workspace * Control :=
  with_ws c id CodeConflict (fun ws =>
  match destroyed_row ws gen wasHeld with Err e => (Err e, c) | Ok next => commitWS c next tx end).

(** The section after [approvalDecide] put another object in the map: the row
    is written, and what is published goes to [ws], which nobody reads again. *)
Definition destroy_commit_replaced (ws : Workspace) (tx : option Z) (gen : Z) (wasHeld : bool) (c : Control)
  : result Code Workspace * Control :=
  match destroyed_row ws gen wasHeld with
  | Err e => (Err e, c)
  | Ok next => match persistWS c next tx with Err e => (Err e, c) | Ok p => (Ok (fst p), snd p) end
  end.

(** [completeDestroyedWorkspaceCleanup], after the node's acknowledgement. *)
Definition destroyed_cleanup (tx : option Z) (id node : string) (gen : Z) (c : Control)
  : result Code Workspace * Control :=
  with_ws c id CodeConflict (fun ws =>
  if negb (is_state WSDestroyed ws) || (Node ws <>s node) || negb (Generation ws =? gen) then (Err CodeConflict, c)
  else commitWS c (set_release (ReleaseEpoch ws) EmptyString (set_Node EmptyString ws)) tx).

(** ** Move, sleep, wake *)

(** [current] is the copy [wsGet] returned before the release, [snap] what the
    release returned. *)
Definition changed_meanwhile (current ws : Workspace) : bool :=
  negb (Generation ws =? Generation current)
  || (held (State current) && negb (is_state WSReleased ws))
  || (negb (held (State current)) && negb (bool_decide (State ws = State current))).

Definition with_backend (backend : option string) (w : Workspace) : Workspace :=
  match backend with
  | None => w
  | Some b =>
      let s := Spec w in
      set_Spec (mkSpec (RestoreFrom s) (RestoreFormat s) (RestoreObjects s) b (Principal s)
                  (Readers s) (Writers s)) w
  end.

Definition move_commit (requires : option string) (tx : option Z) (current : Workspace) (snap : string)
    (c : Control) : result Code Workspace * Control :=
  with_ws c (ID current) CodeConflict (fun ws =>
  if is_state WSDestroyed ws || changed_meanwhile current ws then (Err CodeConflict, c)
  else
    with_transition c ws
      (mkTransition transitionMove actorControl WSPending (Some (Generation current)) None) (fun next =>
    commitWS c (set_LeaseUntil 0 (set_Node EmptyString
      (set_restore snap (LastSnapshotFormat ws) (LastSnapshotObjects ws) (with_backend requires next)))) tx)).

Definition sleep_commit (tx : option Z) (current : Workspace) (snap : string) (c : Control)
  : result Code Workspace * Control :=
  with_ws c (ID current) CodeConflict (fun ws =>
  if is_state WSDestroyed ws || changed_meanwhile current ws then (Err CodeConflict, c)
  else
    with_transition c ws
      (mkTransition transitionSleep actorControl WSPaused (Some (Generation current)) None) (fun next =>
    commitWS c (set_LeaseUntil 0 (set_Node EmptyString
      (set_restore snap (LastSnapshotFormat ws) (LastSnapshotObjects ws) next))) tx)).

(** [fires] is set when the call names a timer of this workspace that has not
    fired; with nothing to resume and nothing to fire no row is written. *)
Definition wsWake (fires : bool) (tx : option Z) (id : string) (c : Control) : result Code Workspace * Control :=
  with_ws c id CodeNotFound (fun ws =>
  if is_state WSDestroyed ws then (Err CodeConflict, c)
  else if is_state WSPaused ws then
    with_transition c ws
      (mkTransition transitionWake actorControl WSPending (Some (Generation ws)) None) (fun next =>
    commitWS c next tx)
  else if negb fires then (Ok ws, c)
  else commitWS c ws tx).

(** ** Access control *)

Fixpoint revoked_principals_loop (owner : string) (readers writers : list string) (names acc : list string)
  : list string :=
  match names with
  | [] => acc
  | name :: t =>
      if (name =s owner) || contains acc name || contains readers name || contains writers name then
        revoked_principals_loop owner readers writers t acc
      else revoked_principals_loop owner readers writers t (acc ++ [name])
  end.

Definition revokedPrincipals (before : WorkspaceSpec) (readers writers : list string) (owner : string)
  : list string :=
  revoked_principals_loop owner readers writers (Readers before ++ Writers before) [].

Definition MaxRetainedRevocations : nat := 64.

(** The loop that forgets the oldest entries. *)
Fixpoint trim_revocations (revs : list (Z * string)) (floor : Z) : list (Z * string) * Z :=
  match revs with
  | [] => ([], floor)
  | (rev, _) :: t =>
      if (MaxRetainedRevocations <? length revs)%nat then trim_revocations t rev else (revs, floor)
  end.

Definition acl_update (readers writers : list string) (ws : Workspace) : Workspace :=
  let s := Spec ws in
  let revision := u64 (AuthzRevision ws + 1) in
  let revoked := revokedPrincipals s readers writers (Owner ws) in
  let '(revs, floor) :=
    trim_revocations (Revocations ws ++ map (fun name => (revision, name)) revoked) (RevocationFloor ws) in
  set_authz revision revs floor
    (set_Spec (mkSpec (RestoreFrom s) (RestoreFormat s) (RestoreObjects s) (Backend s) (Principal s)
                 readers writers) ws).

Definition wsACL (tx : option Z) (id : string) (readers writers : list string) (c : Control)
  : result Code Workspace * Control :=
  if existsb (fun name => name =s "") (readers ++ writers) then (Err CodeBadRequest, c)
  else
    with_ws c id CodeNotFound (fun ws =>
    if is_state WSDestroyed ws then (Err CodeConflict, c)
    else commitWS c (acl_update readers writers ws) tx).

(** ** Node loss and lease expiry

    Both range over the workspace map; [order] is the order of that range,
    with the outcome of each row's transaction. *)

Definition demote_one (node : string) (c : Control) (e : string * option Z) : Control :=
  match workspaces c !! fst e with
  | None => c
  | Some ws =>
      if (Node ws =s node) && is_state WSClaimed ws then
        match transitionWorkspace (Some ws)
                (mkTransition transitionReconnect actorControl WSClaiming (Some (Generation ws)) (Some node)) with
        | Err _ => c
        | Ok next => snd (commitWS c next (snd e))
        end
      else c
  end.

Definition PeerGone (order : list (string * option Z)) (seen : Z) (node : string) (c : Control) : Control :=
  match nodes c !! node with
  | None => c
  | Some _ =>
      foldl (demote_one node) (set_nodes (<[node := mkNodeState false (unixMilli seen)]>) c) order
  end.

Definition expire_one (now : Z) (c : Control) (e : string * option Z) : Control :=
  match workspaces c !! fst e with
  | None => c
  | Some ws =>
      if (is_state WSClaimed ws || is_state WSClaiming ws) && (0 <? LeaseUntil ws) && (LeaseUntil ws <? now) then
        let advanced := nextWorkspaceGeneration (Generation ws) in
        let '(operation, target) :=
          if is_ok advanced then (transitionLeaseExpired, WSPending)
          else (transitionAuthorityExhausted, WSFailed) in
        match transitionWorkspace (Some ws)
                (mkTransition operation actorControl target (Some (Generation ws)) (Some (Node ws))) with
        | Err _ => c
        | Ok next =>
            let next :=
              match advanced with
              | Ok g => set_Node EmptyString (restore_from_last (set_Generation g next))
              | Err _ => next
              end in
            snd (commitWS c (set_LeaseUntil 0 next) (snd e))
        end
      else c
  end.

(** The workspace part of [Tick]; [now] is in milliseconds. *)
Definition Tick_expire (order : list (string * option Z)) (now : Z) (c : Control) : Control :=
  foldl (expire_one now) c order.

(** ** Fleet quarantine

    What the sections of [processFleetTarget] and [commitFleetDestroy] do to a
    workspace; the operation record, its target and which operation a
    workspace belongs to ([QuarantineOperation], [QuarantinedAt]) are not
    modelled, so any of these sections may run on any workspace.  None touches
    the hold, the deadline or the timers of the workspace. *)

Definition advance_authority (w : Workspace) : Workspace :=
  set_Generation (Generation w + 1) (set_authz (AuthzRevision w + 1) (Revocations w) (RevocationFloor w) w).

(** [next.Generation++; next.AuthzRevision++] is guarded by this. *)
Definition can_advance (w : Workspace) : bool :=
  match canAdvanceWorkspaceAuthority (Some w) with None => true | Some _ => false end.

(** [transitionFleetBegin]: the node is asked to fence the workspace. *)
Definition fleet_begin (tx : option Z) (id node : string) (c : Control) : result Code Workspace * Control :=
  with_ws c id CodeNotFound (fun ws =>
  with_transition c ws
    (mkTransition transitionFleetBegin actorControl WSQuiescing (Some (Generation ws)) (Some node)) (fun next =>
  commitWS c next tx)).

(** A target that no node holds is completed at once. *)
Definition fleet_offline (destroy : bool) (tx : option Z) (id : string) (c : Control)
  : result Code Workspace * Control :=
  with_ws c id CodeNotFound (fun ws =>
  let final := if destroy && can_advance ws then WSDestroyed else WSFailed in
  with_transition c ws
    (mkTransition transitionFleetComplete actorControl final (Some (Generation ws)) None) (fun next =>
  let next := if can_advance ws then advance_authority next else next in
  let next := set_LeaseUntil 0 next in
  commitWS c (if is_state WSDestroyed next then set_Node EmptyString next else next) tx)).

(** After the node answered for generation [gen]: [destroy] when the action is
    destroy and the fence and its checkpoint were affirmed, [committed] the
    verified checkpoint. *)
Definition fleet_complete (destroy : bool) (gen : Z) (committed : option (string * string * list string))
    (tx : option Z) (id : string) (c : Control) : result Code Workspace * Control :=
  with_ws c id CodeNotFound (fun ws =>
  let current := Generation ws =? gen in
  let exhausted := current && negb (can_advance ws) in
  let final := if destroy && negb exhausted then WSDestroyed else WSFailed in
  with_transition c ws
    (mkTransition transitionFleetComplete actorControl final (Some (Generation ws)) None) (fun next =>
  let next := if current && negb exhausted then advance_authority next else next in
  let next := set_LeaseUntil 0 next in
  commitWS c (match committed with
              | Some (snap, format, objects) =>
                  set_restore snap format objects (set_snapshot snap format objects next)
              | None => next
              end) tx)).

(** [commitFleetDestroy], after the node's acknowledgement. *)
Definition fleet_acknowledge (tx : option Z) (id node : string) (gen : Z) (c : Control)
  : result Code Workspace * Control :=
  with_ws c id CodeNotFound (fun ws =>
  if negb (is_state WSDestroyed ws) || (Node ws <>s node) || negb (Generation ws =? gen + 1) then (Err CodeConflict, c)
  else commitWS c (set_Node EmptyString ws) tx).

(** ** Retention

    [PruneRecords], as far as it concerns workspaces and assignments.  What it
    takes from other tables is an argument: the targets of the fleet
    operations that are kept, and which workspaces still have volumes.  So is
    which of the eligible records fall under [limit], [old] saying which
    assignment rows were created before the cutoff and are within it. *)
Record pruning := mkPruning {
  cutoff : Z; fleet_targets : list (string * Z * string); has_volumes : string -> bool;
  within_limit : string -> bool; old : string * Z -> bool }.

Definition protectedWorkspace (p : pruning) (id : string) : bool :=
  existsb (fun t => fst (fst t) =s id) (fleet_targets p).

Definition protectedAssignment (p : pruning) (c : Control) (k : string * Z) (node : string) : bool :=
  existsb (fun t => (fst (fst t) =s fst k) && (snd (fst t) =? snd k) && (snd t =s node)
                    && (snd t <>s "") && negb (snd (fst t) =? 0)) (fleet_targets p)
  || match workspaces c !! fst k with
     | Some w => (Node w <>s "") && negb (Generation w =? 0) && (Generation w =? snd k) && (Node w =s node)
     | None => false
     end.

Definition prunableWorkspace (p : pruning) (id : string) (w : Workspace) : bool :=
  is_state WSDestroyed w && (UpdatedAt w <? cutoff p) && (Node w =s "") && negb (has_volumes p id)
  && negb (protectedWorkspace p id) && within_limit p id.

Definition prunableAssignment (p : pruning) (c : Control) (k : string * Z) (node : string) : bool :=
  old p k && negb (protectedAssignment p c k node).

(** One transaction, and the maps of the process only if it commits. *)
Definition PruneRecords (p : pruning) (committed : bool) (c : Control) : Control :=
  if committed then
    let kept := filter (fun e => prunableWorkspace p (fst e) (snd e) = false) in
    let pruned id := match workspaces c !! id with Some w => prunableWorkspace p id w | None => false end in
    mkControl (kept (workspaces c)) (filter (fun e => pruned (fst e) = false) (rows c))
      (filter (fun e => prunableAssignment p c (fst e) (snd e) = false) (assignments c))
      (filter (fun e => pruned (fst e) = false) (retries c)) (nodes c) (controllerEpoch c)
  else c.

(** ** Restart *)

Definition migrate (ws : Workspace) : Workspace :=
  if Tenant ws =s "" then
    let owner := if Principal (Spec ws) =s "" then "local-user"%string else Principal (Spec ws) in
    let s := Spec ws in
    set_Spec (mkSpec (RestoreFrom s) (RestoreFormat s) (RestoreObjects s) (Backend s) owner (Readers s) (Writers s))
      (set_identity "local" owner 1 ws)
  else ws.

(** One row read back by [load]: the workspace published and whether its row is
    written again.  An error stops the process from starting. *)
Definition load_row (o : Options) (now : Z) (row : Workspace) : result Code (Workspace * bool) :=
  let ws := migrate row in
  let changed := Tenant row =s "" in
  let fail :=
    let? next := transitionWorkspace (Some ws) (mkTransition transitionRecover actorRecovery WSFailed None None) in
    Ok (set_LeaseUntil 0 next, true) in
  match State ws with
  | WSClaimed | WSClaiming =>
      let? next := transitionWorkspace (Some ws) (mkTransition transitionRecover actorRecovery WSClaiming None None) in
      Ok (set_LeaseUntil (graceFrom o now) next, true)
  | WSQuiescing | WSDestroying =>
      if (ReleaseOperation ws <>s "") && (Node ws <>s "") then Ok (set_LeaseUntil (graceFrom o now) ws, true)
      else fail
  | WSCheckpointing => fail
  | WSReleased =>
      if Node ws <>s "" then Ok (ws, changed)
      else
        let? next := transitionWorkspace (Some ws) (mkTransition transitionRecover actorRecovery WSPending None None) in
        Ok (restore_from_last (set_LeaseUntil 0 (set_Node EmptyString next)), true)
  | _ => Ok (ws, changed)
  end.

(** What is in memory and in the row afterwards: [persistWS] stamps the
    published copy. *)
Definition loaded (stamp : Z) (p : Workspace * bool) : Workspace :=
  if snd p then set_UpdatedAt (unixMilli stamp) (fst p) else fst p.

Definition load_one (o : Options) (now stamp : Z) (row : Workspace) : result Code Workspace :=
  let? p := load_row o now row in Ok (loaded stamp p).

Definition recorded_assignment (id : string) (ws : Workspace) (a : gmap (string * Z) string) :=
  if (Node ws <>s "") && (0 <? Generation ws) then insert_or_ignore (ID ws, Generation ws) (Node ws) a else a.

(** A crash and a restart that succeeds: the process state is read back from
    the rows, the repaired rows are written, and the assignments of the holders
    are recorded. *)
Definition restart (o : Options) (now stamp : Z) (c : Control) : option Control :=
  if forallb (fun p => is_ok (load_one o now stamp (snd p))) (map_to_list (rows c)) then
    let ws := omap (fun row => match load_one o now stamp row with Ok w => Some w | Err _ => None end) (rows c) in
    Some (mkControl ws ws (map_fold recorded_assignment (assignments c) ws) ∅
            ((fun n => mkNodeState false (LastSeen n)) <$> nodes c) (controllerEpoch c))
  else None.
End Control.
