(* ===== verification/ControlProofs.v ===== *)
(** * Theorems about the control-plane handlers

    [authority] is the abstract machine the handlers implement: for each
    workspace a lifecycle state, a generation and the holder, and for each
    generation the node it was given to.  Every handler, with every outcome of
    its transaction and of its remote calls, is a sequence of steps of that
    machine, and leaves the durable rows equal to what the process publishes
    ([exec_good]).  The safety properties are invariants of the machine lifted
    to runs of arbitrarily interleaved handlers, restarts included. *)

From Stdlib Require Import ZArith Lia Strings.String.
From stdpp Require Import base gmap strings option sorting list.
From S2P Require Import Prelude Lifecycle Control.
#[local] Open Scope Z_scope.

Module ControlProofs.
Import Lifecycle Control.

(** ** Requests and runs *)

(** One locked section, with the outcomes the environment chooses. *)
Inductive request :=
| RCreate (now : Z) (tx : option Z) (id tenant owner : string) (spec : WorkspaceSpec)
| RClaim (now : Z) (tx : option Z) (node id : string)
| RReady (now : Z) (tx : option Z) (node id : string) (gen : Z) (processes : string)
| RRenew (now seen : Z) (node : string) (req : WSRenewReq)
| RSnapshot (verify : option (result Code (list string))) (tx : option Z) (node id : string) (gen : Z)
    (snapshot format : string)
| RReleased (verify : option (result Code (list string))) (now : Z) (tx : option Z) (node : string)
    (req : WSReleasedReq)
| RReleaseBegin (capable : bool) (operation : string) (tx : option Z) (id : string)
| RReleaseCommit (verify : option (result Code (list string))) (tx : option Z) (id node : string) (gen : Z)
    (snapshot : bool) (res : WSReleasedReq)
| RAbort (now : Z) (acked : bool) (tx : option Z) (id node : string) (gen : Z) (expected : WSState)
| RFinishAbort (now : Z) (tx : option Z) (id node : string) (gen : Z) (operation : string)
| RReleasedCleanup (tx : option Z) (id node : string) (gen : Z)
| RRecoverReleased (tx : option Z) (id : string)
| RDestroyBegin (online capable : bool) (operation : string) (tx : option Z) (id : string)
| RDestroyCommit (tx : option Z) (id : string) (gen : Z) (wasHeld : bool)
| RDestroyedCleanup (tx : option Z) (id node : string) (gen : Z)
| RMove (requires : option string) (tx : option Z) (current : Workspace) (snap : string)
| RSleep (tx : option Z) (current : Workspace) (snap : string)
| RWake (fires : bool) (tx : option Z) (id : string)
| RACL (tx : option Z) (id : string) (readers writers : list string)
| RPeerGone (order : list (string * option Z)) (seen : Z) (node : string)
| RTick (order : list (string * option Z)) (now : Z)
| RPrune (p : pruning) (committed : bool)
| RRestart (now stamp : Z).

Section runs.
Context (o : Options) (eligible : Workspace -> string -> option string).

Definition exec (c : Control) (r : request) : Control :=
  match r with
  | RCreate now tx id tenant owner spec => snd (create_commit now tx id tenant owner spec c)
  | RClaim now tx node id => snd (wsClaim o eligible now tx node id c)
  | RReady now tx node id gen processes => snd (wsReady o now tx node id gen processes c)
  | RRenew now seen node req => snd (wsRenew o now seen node req c)
  | RSnapshot verify tx node id gen snapshot format =>
      snd (wsSnapshotCommit verify tx node id gen snapshot format c)
  | RReleased verify now tx node req => snd (wsReleased verify now tx node req c)
  | RReleaseBegin capable operation tx id => snd (release_begin capable operation tx id c)
  | RReleaseCommit verify tx id node gen snapshot res =>
      snd (release_commit verify tx id node gen snapshot res c)
  | RAbort now acked tx id node gen expected => snd (abort_publish o now acked tx id node gen expected c)
  | RFinishAbort now tx id node gen operation => snd (finish_abort o now tx id node gen operation c)
  | RReleasedCleanup tx id node gen => snd (released_cleanup tx id node gen c)
  | RRecoverReleased tx id => snd (recover_released tx id c)
  | RDestroyBegin online capable operation tx id => snd (destroy_begin online capable operation tx id c)
  | RDestroyCommit tx id gen wasHeld => snd (destroy_commit tx id gen wasHeld c)
  | RDestroyedCleanup tx id node gen => snd (destroyed_cleanup tx id node gen c)
  | RMove requires tx current snap => snd (move_commit requires tx current snap c)
  | RSleep tx current snap => snd (sleep_commit tx current snap c)
  | RWake fires tx id => snd (wsWake fires tx id c)
  | RACL tx id readers writers => snd (wsACL tx id readers writers c)
  | RPeerGone order seen node => PeerGone order seen node c
  | RTick order now => Tick_expire order now c
  | RPrune p committed => PruneRecords p committed c
  | RRestart now stamp => default c (restart o now stamp c)
  end.

(** What the caller of a claim is told: the workspace, the generation and the
    node it was given to. *)
Definition granted (c : Control) (r : request) : list (string * Z * string) :=
  match r with
  | RClaim now tx node id =>
      match fst (wsClaim o eligible now tx node id c) with
      | Ok w => [(ID w, Generation w, Node w)]
      | Err _ => []
      end
  | _ => []
  end.

(** The id of [ids.New] a request uses up. *)
Definition issues (r : request) : gset string :=
  match r with RCreate _ _ id _ _ _ => {[id]} | _ => ∅ end.

(** Peer identities are not empty, and [ids.New] does not repeat itself, even
    after a workspace was pruned. *)
Definition request_ok (used : gset string) (r : request) : Prop :=
  match r with
  | RCreate _ _ id _ _ _ => id ∉ used
  | RClaim _ _ node _ => node <> EmptyString
  | _ => True
  end.

Definition run (c : Control) (rs : list request) : Control := foldl exec c rs.

Fixpoint used_by (used : gset string) (rs : list request) : gset string :=
  match rs with [] => used | r :: t => used_by (issues r ∪ used) t end.

Fixpoint run_ok (used : gset string) (rs : list request) : Prop :=
  match rs with [] => True | r :: t => request_ok used r /\ run_ok (issues r ∪ used) t end.

Fixpoint grants (c : Control) (rs : list request) : list (string * Z * string) :=
  match rs with [] => [] | r :: t => granted c r ++ grants (exec c r) t end.

(** ** The abstract machine *)

(** [a_used] has the ids handed out so far, which no workspace gets again. *)
Record authority := mkAuthority {
  a_used : gset string; a_ws : gmap string (WSState * Z * string); a_given : gmap (string * Z) string }.

Definition view (w : Workspace) : WSState * Z * string := (State w, Generation w, Node w).

Definition abs (used : gset string) (c : Control) : authority :=
  mkAuthority used (view <$> workspaces c) (assignments c).

(** A pair some rule of the lifecycle table allows. *)
Definition allowed (s s' : WSState) : Prop :=
  exists op rule, lifecycleRules op = Some rule /\ (s, s') ∈ rule_pairs rule.

Definition managed (s : WSState) : Prop := s = WSClaimed \/ s = WSClaiming.

Definition put (a : authority) (id : string) (v : WSState * Z * string) : authority :=
  mkAuthority (a_used a) (<[id := v]> (a_ws a)) (a_given a).

Definition give (a : authority) (id : string) (g : Z) (node : string) : authority :=
  mkAuthority (a_used a) (a_ws a) (insert_or_ignore (id, g) node (a_given a)).

Definition issue (a : authority) (ids : gset string) : authority := mkAuthority (ids ∪ a_used a) (a_ws a) (a_given a).

(** The row of the current generation of a workspace that has a node. *)
Definition current (a : authority) (id : string) (g : Z) (n : string) : Prop :=
  n <> EmptyString /\ g <> 0 /\ exists s, a_ws a !! id = Some (s, g, n).

(** Only [a_claim] makes a workspace held, and it always takes a generation
    that was never given; retention forgets destroyed workspaces that no node
    has to clean up, and rows other than current ones. *)
Inductive hstep (a : authority) : authority -> Prop :=
| a_issue ids : hstep a (issue a ids)
| a_create id : id ∉ a_used a -> a_ws a !! id = None -> hstep a (issue (put a id (WSPending, 0, EmptyString)) {[id]})
| a_move id s g n s' n' :
    a_ws a !! id = Some (s, g, n) ->
    (s' = s \/ allowed s s') ->
    (held s' = true -> held s = true) ->
    (n' = n \/ (n' = EmptyString /\ held s' = false)) ->
    hstep a (put a id (s', g, n'))
| a_expire id s g n :
    a_ws a !! id = Some (s, g, n) -> managed s -> g < maxInt64 ->
    hstep a (put a id (WSPending, g + 1, EmptyString))
| a_claim id g n node :
    a_ws a !! id = Some (WSPending, g, n) -> g < maxInt64 -> node <> EmptyString ->
    hstep a (give (put a id (WSClaiming, g + 1, node)) id (g + 1) node)
| a_readopt id s g node :
    a_ws a !! id = Some (s, g, node) -> managed s ->
    hstep a (give (put a id (WSClaiming, g, node)) id g node)
| a_record id s g n :
    a_ws a !! id = Some (s, g, n) -> n <> EmptyString -> hstep a (give a id g n).

Inductive astep (a : authority) : authority -> Prop :=
| a_handler a' : hstep a a' -> astep a a'
| a_retain ws given :
    ws ⊆ a_ws a -> given ⊆ a_given a ->
    (forall id v, a_ws a !! id = Some v -> ws !! id = None -> exists g, v = (WSDestroyed, g, EmptyString)) ->
    (forall id g n, a_given a !! (id, g) = Some n -> current a id g n -> given !! (id, g) = Some n) ->
    astep a (mkAuthority (a_used a) ws given).

(** ** The refinement *)

(** The process map is keyed by id, and the rows are what is published. *)
Definition wf (c : Control) : Prop :=
  rows c = workspaces c /\ map_Forall (fun id w => ID w = id) (workspaces c).

Section handlers.
Context (used : gset string).
#[local] Notation abs := (abs used).

Definition good (c c' : Control) : Prop :=
  wf c -> wf c' /\ rtc hstep (abs c) (abs c').

Lemma good_refl c : good c c.
Proof. intros Hw. by split. Qed.

Lemma good_trans c1 c2 c3 : good c1 c2 -> good c2 c3 -> good c1 c3.
Proof.
  intros H1 H2 Hw. destruct (H1 Hw) as [Hw2 Ha]. destruct (H2 Hw2) as [Hw3 Hb].
  split; [done|]. by etrans.
Qed.

Lemma good_foldl {A} (f : Control -> A -> Control) l :
  (forall c x, good c (f c x)) -> forall c, good c (foldl f c l).
Proof.
  intros Hf. induction l as [|x l IH]; intros c; [apply good_refl|].
  eapply good_trans; [apply Hf|apply IH].
Qed.

(** Retries and node records are not part of the authority. *)
Lemma good_side c c' :
  workspaces c' = workspaces c -> rows c' = rows c -> assignments c' = assignments c -> good c c'.
Proof. intros Hw Hr Ha Hwf. unfold wf, abs in *. rewrite Hw, Hr, Ha. by split. Qed.

Lemma wf_lookup c id w : wf c -> workspaces c !! id = Some w -> ID w = id.
Proof. intros [_ Hk] Hl. by apply (Hk id w). Qed.

(** What a row written by a plain section keeps of the workspace it read. *)
Definition derived (w next : Workspace) : Prop :=
  ID next = ID w /\ Generation next = Generation w /\
  (State next = State w \/ allowed (State w) (State next)) /\
  (held (State next) = true -> held (State w) = true) /\
  (Node next = Node w \/ (Node next = EmptyString /\ held (State next) = false)).

Lemma commitWS_cases c next tx :
  (tx = None /\ commitWS c next tx = (Err CodeStorage, c)) \/
  (exists t, tx = Some t /\ let w := set_UpdatedAt (unixMilli t) next in
     commitWS c next tx
     = (Ok w, mkControl (<[ID next := w]> (workspaces c)) (<[ID next := w]> (rows c)) (assignments c)
                (retries c) (nodes c) (controllerEpoch c))).
Proof. destruct tx as [t|]; [right; by exists t|by left]. Qed.

Lemma wf_insert c c' id w :
  wf c -> workspaces c' = <[id := w]> (workspaces c) -> rows c' = <[id := w]> (rows c) -> ID w = id ->
  wf c'.
Proof.
  intros [Hr Hk] Hw' Hr' <-. split; [congruence|]. rewrite Hw'. by apply map_Forall_insert_2.
Qed.

Lemma commit_step c next tx :
  (wf c -> hstep (abs c) (put (abs c) (ID next) (view next))) -> good c (snd (commitWS c next tx)).
Proof.
  intros Hs Hwf. destruct (commitWS_cases c next tx) as [[_ ->]|(t & _ & ->)]; [by split|]. split.
  - by eapply (wf_insert c); [done..|].
  - apply rtc_once. replace (abs (snd _)) with (put (abs c) (ID next) (view next)); [by apply Hs|].
    unfold put, abs. cbn. by rewrite fmap_insert.
Qed.

Lemma lookup_view c id w : workspaces c !! id = Some w -> a_ws (abs c) !! id = Some (view w).
Proof. intros Hl. unfold abs. cbn. by rewrite lookup_fmap, Hl. Qed.

Lemma commit_good c id w next tx :
  workspaces c !! id = Some w -> (ID w = id -> derived w next) -> good c (snd (commitWS c next tx)).
Proof.
  intros Hl Hd. apply commit_step. intros Hwf.
  pose proof (wf_lookup c id w Hwf Hl) as Hid. destruct (Hd Hid) as (Hi & Hg & Hs & Hh & Hn).
  unfold view. rewrite Hg, Hi, Hid. eapply a_move; [by apply lookup_view|done..].
Qed.

(** A transition that keeps a held workspace held, or lets it go, is a plain
    section; the caller shows which states the request can start from. *)
Lemma transition_derived w req next :
  transitionWorkspace (Some w) req = Ok next ->
  (held (to req) = true -> held (State w) = true) -> derived w next.
Proof.
  intros Ht Hh. apply transition_ok in Ht as (-> & (rule & Hr & _ & Hin) & _ & _).
  unfold derived. cbn. split_and!; [done|done|right; by exists (op req), rule|done|by left].
Qed.

(** Pairs of a rule that never makes a workspace held. *)
Definition keeps_held (o : operation) : Prop :=
  forall rule s s', lifecycleRules o = Some rule -> (s, s') ∈ rule_pairs rule ->
    held s' = true -> held s = true.

Lemma transition_keeps w req next :
  transitionWorkspace (Some w) req = Ok next -> keeps_held (op req) -> derived w next.
Proof.
  intros Ht Hk. apply (transition_derived w req next Ht). intros Hh.
  apply transition_ok in Ht as (_ & (rule & Hr & _ & Hin) & _ & _). by eapply Hk.
Qed.

Ltac pairs_cases :=
  intros rule s s' Hr Hin Hh; cbn in Hr; simplify_eq; cbn in Hin;
  repeat (apply elem_of_cons in Hin as [Hin|Hin]; [by simplify_eq|]); by apply not_elem_of_nil in Hin.

Lemma keeps_ready : keeps_held transitionReady. Proof. pairs_cases. Qed.
Lemma keeps_released : keeps_held transitionNodeReleased. Proof. pairs_cases. Qed.
Lemma keeps_begin : keeps_held transitionReleaseBegin. Proof. pairs_cases. Qed.
Lemma keeps_commit : keeps_held transitionReleaseCommit. Proof. pairs_cases. Qed.
Lemma keeps_abort : keeps_held transitionReleaseAbort. Proof. pairs_cases. Qed.
Lemma keeps_recover : keeps_held transitionRecover. Proof. pairs_cases. Qed.
Lemma keeps_destroy_begin : keeps_held transitionDestroyBegin. Proof. pairs_cases. Qed.
Lemma keeps_destroy_commit : keeps_held transitionDestroyCommit. Proof. pairs_cases. Qed.
Lemma keeps_move : keeps_held transitionMove. Proof. pairs_cases. Qed.
Lemma keeps_sleep : keeps_held transitionSleep. Proof. pairs_cases. Qed.
Lemma keeps_wake : keeps_held transitionWake. Proof. pairs_cases. Qed.
Lemma keeps_reconnect : keeps_held transitionReconnect. Proof. pairs_cases. Qed.
Lemma keeps_exhausted : keeps_held transitionAuthorityExhausted. Proof. pairs_cases. Qed.

Hint Resolve keeps_ready keeps_released keeps_begin keeps_commit keeps_abort keeps_recover
  keeps_destroy_begin keeps_destroy_commit keeps_move keeps_sleep keeps_wake keeps_reconnect
  keeps_exhausted good_refl : rm.

(** Assignments to other fields keep a derived row derived; clearing the node
    is allowed once the workspace is not held. *)
Lemma derived_same w next next' :
  derived w next -> ID next' = ID next -> Generation next' = Generation next -> State next' = State next ->
  (Node next' = Node next \/ (Node next' = EmptyString /\ held (State next') = false)) -> derived w next'.
Proof.
  unfold derived. intros (Hi & Hg & Hs & Hh & Hn) Hi' Hg' Hs' Hn'. rewrite Hi', Hg', Hs' in *.
  split_and!; [done..|]. destruct Hn' as [-> |?]; [done|by right].
Qed.

Lemma derived_refl w : derived w w.
Proof. unfold derived. split_and!; auto. Qed.

Lemma choose_backend_view b w : view (choose_backend b w) = view w /\ ID (choose_backend b w) = ID w.
Proof. unfold choose_backend. by destruct (_ =s _). Qed.

(** A result that only repackages the one of a commit. *)
Lemma repackaged {A} c next tx (f : Workspace -> A) :
  snd (match commitWS c next tx with (Ok w, c') => (Ok (f w), c') | (Err e, c') => (Err e, c') end
       : result Code A * Control) = snd (commitWS c next tx).
Proof. by destruct (commitWS c next tx) as [[w|e] c']. Qed.

(** Walk a section down to its commit; refusals change nothing. *)
Ltac walk :=
  cbv zeta;
  repeat first
    [ apply good_refl
    | match goal with
      | |- good _ (snd (with_ws ?c ?id _ _)) =>
          unfold with_ws at 1; let ws := fresh "ws" in destruct (workspaces c !! id) as [ws|] eqn:?
      | |- good _ (snd (with_transition _ ?w ?t _)) =>
          unfold with_transition at 1; let next := fresh "next" in
          destruct (transitionWorkspace (Some w) t) as [next|] eqn:?
      | |- good _ (snd (if ?b then _ else _)) => destruct b eqn:?
      | |- good _ (snd (match ?x with Ok _ => _ | Err _ => _ end)) => destruct x eqn:?
      | |- good _ (snd (match ?x with Some _ => _ | None => _ end)) => destruct x eqn:?
      end ].

(** Close a commit whose row is a transition with other fields assigned. *)
Ltac by_transition :=
  simplify_eq; eapply commit_good; [eassumption|]; intros ?;
  eapply derived_same;
    [eapply transition_keeps; [eassumption|cbn [op]; eauto with rm]|try done..].

Lemma ready_good now tx node id gen processes c : good c (snd (wsReady o now tx node id gen processes c)).
Proof.
  unfold wsReady. walk.
  - by_transition. by left.
  - destruct (commitWS c (set_LeaseUntil (leaseFrom o now) next) tx) as [[w|e] c'] eqn:Hc; cbn [snd];
      replace c' with (snd (commitWS c (set_LeaseUntil (leaseFrom o now) next) tx)) by (by rewrite Hc).
    + eapply good_trans; [|by apply good_side]. by_transition. by left.
    + by_transition. by left.
Qed.

Lemma snapshot_good verify tx node id gen snapshot format c :
  good c (snd (wsSnapshotCommit verify tx node id gen snapshot format c)).
Proof.
  unfold wsSnapshotCommit. walk; try (destruct r; walk);
    (eapply commit_good; [eassumption|]; intros ?; eapply derived_same; [apply derived_refl|done..|by left]).
Qed.

Lemma transition_state w req next : transitionWorkspace (Some w) req = Ok next -> State next = to req.
Proof. intros Ht. by apply transition_ok in Ht as (-> & _). Qed.

Lemma released_good verify now tx node req c : good c (snd (wsReleased verify now tx node req c)).
Proof.
  unfold wsReleased. destruct (NormalizeArtifactFormat _) as [format|]; [|apply good_refl].
  set (v := if _ <>s _ then verify else None). cbv zeta.
  assert (forall objects, good c (snd (with_ws c (RelID req) CodeNotFound (fun ws =>
    if (Node ws <>s node) || negb (Generation ws =? RelGen req) then (Err CodeConflict, c)
    else if is_state WSDestroyed ws then (Err CodeConflict, c)
    else if held (State (if Snapshot req <>s "" then
              set_restore (Snapshot req) format objects (set_snapshot (Snapshot req) format objects ws)
            else ws)) then
      with_transition c ws
        (mkTransition transitionNodeReleased actorNode WSPending (Some (RelGen req)) (Some node))
        (fun next => commitWS (if Failed req then snd (holdBackLocked now (ID ws) c) else c)
           (set_LeaseUntil 0 (set_Node EmptyString next)) tx)
    else commitWS (if Failed req then snd (holdBackLocked now (ID ws) c) else c)
           (set_LeaseUntil 0 (set_Node EmptyString
              (if Snapshot req <>s "" then
                 set_restore (Snapshot req) format objects (set_snapshot (Snapshot req) format objects ws)
               else ws))) tx)))) as Hgo.
  { intros objects. walk.
    - match goal with |- good c (snd (commitWS ?c0 _ _)) =>
        apply (good_trans c c0); [apply good_side; by destruct (Failed req)|] end.
      eapply commit_good; [destruct (Failed req); eassumption|]. intros ?.
      eapply derived_same; [eapply transition_keeps; [eassumption|cbn; eauto with rm]|done..|].
      right. cbn. by erewrite transition_state by eassumption.
    - match goal with |- good c (snd (commitWS ?c0 _ _)) =>
        apply (good_trans c c0); [apply good_side; by destruct (Failed req)|] end.
      eapply commit_good; [destruct (Failed req); eassumption|]. intros ?.
      eapply derived_same; [apply derived_refl|by destruct (Snapshot req <>s "")..|].
      right. split; [done|]. cbn. by destruct (Snapshot req <>s ""). }
  destruct v as [[l|e]|]; [apply Hgo|apply good_refl|apply Hgo].
Qed.

Lemma release_begin_good capable operation tx id c : good c (snd (release_begin capable operation tx id c)).
Proof.
  unfold release_begin. walk. destruct (State ws) eqn:Hs; walk.
  rewrite repackaged. by_transition. by left.
Qed.

Lemma release_commit_good verify tx id node gen snapshot res c :
  good c (snd (release_commit verify tx id node gen snapshot res c)).
Proof.
  unfold release_commit. walk.
  all: match goal with |- context [commitWS ?c ?n ?tx] => rewrite (repackaged c n tx (fun _ => LastSnapshot n)) end.
  all: by_transition; [by destruct (Snapshot res <>s "")..|left; by destruct (Snapshot res <>s "")].
Qed.

Lemma abort_good now acked tx id node gen expected c :
  good c (snd (abort_publish o now acked tx id node gen expected c)).
Proof. unfold abort_publish. walk; by_transition; by left. Qed.

Lemma finish_abort_good now tx id node gen operation c :
  good c (snd (finish_abort o now tx id node gen operation c)).
Proof. unfold finish_abort. walk; by_transition; by left. Qed.

Lemma is_state_true s w : is_state s w = true -> State w = s.
Proof. apply bool_decide_eq_true_1. Qed.

Lemma released_cleanup_good tx id node gen c : good c (snd (released_cleanup tx id node gen c)).
Proof.
  unfold released_cleanup. walk. bool_hyp. eapply commit_good; [eassumption|]; intros ?.
  eapply derived_same; [apply derived_refl|done..|]. right. split; [done|]. cbn.
  match goal with H : is_state _ _ = true |- _ => by rewrite (is_state_true _ _ H) end.
Qed.

Lemma recover_released_good tx id c : good c (snd (recover_released tx id c)).
Proof. unfold recover_released. walk. by_transition. by left. Qed.

Lemma destroy_begin_good online capable operation tx id c :
  good c (snd (destroy_begin online capable operation tx id c)).
Proof.
  unfold destroy_begin. walk.
  match goal with |- context [commitWS ?c ?n ?tx] => rewrite (repackaged c n tx (fun w => DestroyGo w true)) end.
  by_transition. by left.
Qed.

Lemma destroyed_row_ok ws gen wasHeld w : destroyed_row ws gen wasHeld = Ok w -> exists next,
  transitionWorkspace (Some ws) (mkTransition transitionDestroyCommit actorControl WSDestroyed (Some gen) None) = Ok next /\
  w = set_LeaseUntil 0 (if wasHeld then next else set_Node EmptyString next).
Proof.
  unfold destroyed_row. step_if; [done|]. destruct (transitionWorkspace _ _) as [next|]; cbn; [|done].
  intros [= <-]. by exists next.
Qed.

Lemma destroy_commit_good tx id gen wasHeld c : good c (snd (destroy_commit tx id gen wasHeld c)).
Proof.
  unfold destroy_commit. walk.
  match goal with H : destroyed_row _ _ _ = Ok _ |- _ => apply destroyed_row_ok in H as (next & ? & ->) end.
  by_transition; [by destruct wasHeld..|].
  destruct wasHeld; [by left|right]. split; [done|]. cbn. by erewrite transition_state by eassumption.
Qed.

Lemma destroyed_cleanup_good tx id node gen c : good c (snd (destroyed_cleanup tx id node gen c)).
Proof.
  unfold destroyed_cleanup. walk. bool_hyp. eapply commit_good; [eassumption|]; intros ?.
  eapply derived_same; [apply derived_refl|done..|]. right. split; [done|]. cbn.
  match goal with H : is_state _ _ = true |- _ => by rewrite (is_state_true _ _ H) end.
Qed.

Lemma with_backend_keeps b w :
  view (with_backend b w) = view w /\ ID (with_backend b w) = ID w.
Proof. by destruct b. Qed.

Lemma move_good requires tx current snap c : good c (snd (move_commit requires tx current snap c)).
Proof.
  unfold move_commit. walk. by_transition; [by destruct requires..|].
  right. split; [done|]. destruct requires; cbn; by erewrite transition_state by eassumption.
Qed.

Lemma sleep_good tx current snap c : good c (snd (sleep_commit tx current snap c)).
Proof.
  unfold sleep_commit. walk. by_transition. right. split; [done|]. cbn.
  by erewrite transition_state by eassumption.
Qed.

Lemma wake_good fires tx id c : good c (snd (wsWake fires tx id c)).
Proof.
  unfold wsWake. walk; [by_transition; by left|].
  eapply commit_good; [eassumption|]. intros _. apply derived_refl.
Qed.

Lemma acl_update_view readers writers w :
  view (acl_update readers writers w) = view w /\ ID (acl_update readers writers w) = ID w.
Proof. unfold acl_update. by destruct (trim_revocations _ _). Qed.

Lemma view_derived w next : view next = view w -> ID next = ID w -> derived w next.
Proof.
  unfold view. intros [= Hs Hg Hn] Hi. unfold derived. rewrite Hs, Hg, Hn. split_and!; auto.
Qed.

Lemma acl_good tx id readers writers c : good c (snd (wsACL tx id readers writers c)).
Proof.
  unfold wsACL. walk. eapply commit_good; [eassumption|]. intros _.
  apply view_derived; apply acl_update_view.
Qed.

Lemma renew_loop_good until node req ids : forall acc c, good c (snd (renew_loop until node req ids acc c)).
Proof.
  induction ids as [|[id tx] t IH]; intros acc c; cbn [renew_loop]; [apply good_refl|]. cbv zeta.
  destruct (workspaces c !! id) as [ws|] eqn:Hl; [|apply IH]. step_if; [apply IH|].
  assert (good c (snd (commitWS c (set_LeaseUntil until ws) tx))) as Hg.
  { eapply commit_good; [exact Hl|]. intros _. by apply view_derived. }
  destruct (commitWS c (set_LeaseUntil until ws) tx) as [[w|e] c'] eqn:Hc; [|exact Hg].
  destruct (match Authz req !! id with Some _ => _ | None => _ end) as [revoked reset].
  eapply good_trans; [exact Hg|apply IH].
Qed.

Lemma renew_good now seen node req c : good c (snd (wsRenew o now seen node req c)).
Proof.
  unfold wsRenew. step_if; [apply good_refl|].
  pose proof (renew_loop_good (leaseFrom o now) node req (IDs req) [] c) as Hg.
  destruct (renew_loop _ _ _ _ _ _) as [[res|e] c']; [|exact Hg].
  eapply good_trans; [exact Hg|]. unfold touch_node. cbn [snd].
  destruct (nodes c' !! node); [by apply good_side|apply good_refl].
Qed.

Lemma demote_good node c e : good c (demote_one node c e).
Proof.
  unfold demote_one. destruct (workspaces c !! fst e) as [ws|] eqn:Hl; [|apply good_refl].
  step_if; [|apply good_refl]. destruct (transitionWorkspace _ _) as [next|] eqn:Ht; [|apply good_refl].
  eapply commit_good; [exact Hl|]. intros _. eapply transition_keeps; [exact Ht|]. apply keeps_reconnect.
Qed.

Lemma peer_gone_good order seen node c : good c (PeerGone order seen node c).
Proof.
  unfold PeerGone. destruct (nodes c !! node); [|apply good_refl].
  eapply good_trans; [|apply good_foldl; intros; apply demote_good]. by apply good_side.
Qed.

Lemma nextGeneration_ok g g' : nextWorkspaceGeneration g = Ok g' -> g' = g + 1 /\ g < maxInt64.
Proof. unfold nextWorkspaceGeneration. step_if; [done|]. intros [= <-]. bool_hyp. by split. Qed.

Lemma expire_good now c e : good c (expire_one now c e).
Proof.
  unfold expire_one. destruct (workspaces c !! fst e) as [ws|] eqn:Hl; [|apply good_refl].
  step_if; [|apply good_refl]. cbv zeta.
  destruct (nextWorkspaceGeneration (Generation ws)) as [g|] eqn:Hg; cbn [is_ok];
    (destruct (transitionWorkspace _ _) as [next|] eqn:Ht; [|apply good_refl]).
  - apply nextGeneration_ok in Hg as [-> Hmax]. apply commit_step. intros Hwf.
    pose proof (wf_lookup _ _ _ Hwf Hl) as Hid.
    apply transition_ok in Ht as (-> & _). cbn. rewrite Hid. unfold view. cbn.
    eapply a_expire; [by apply lookup_view| |done].
    bool_hyp. match goal with H : _ || _ = true |- _ => apply orb_true_iff in H as [H|H]; apply is_state_true in H end;
      [by left|by right].
  - eapply commit_good; [exact Hl|]. intros _. eapply derived_same;
      [eapply transition_keeps; [exact Ht|apply keeps_exhausted]|done..|by left].
Qed.

Lemma commitClaim_good c next tx :
  (wf c -> hstep (abs c) (give (put (abs c) (ID next) (view next)) (ID next) (Generation next) (Node next))) ->
  good c (snd (commitClaim c next tx)).
Proof.
  intros Hs Hwf. unfold commitClaim, persistClaim. destruct tx as [t|]; [|by split]. cbn [snd]. split.
  - by eapply (wf_insert c); [done..|].
  - apply rtc_once. replace (abs (publish _)) with (give (put (abs c) (ID next) (view next)) (ID next) (Generation next) (Node next));
      [by apply Hs|].
    unfold give, put, abs, publish. cbn. by rewrite fmap_insert.
Qed.

Lemma claim_good now tx node id c :
  node <> EmptyString -> good c (snd (wsClaim o eligible now tx node id c)).
Proof.
  intros Hne. unfold wsClaim. walk.
  - apply commitClaim_good. intros Hwf.
    match goal with H : transitionWorkspace _ _ = Ok _ |- _ => apply transition_ok in H as (-> & _) end.
    cbn. bool_hyp. unfold view. cbn. erewrite wf_lookup by eassumption.
    eapply a_readopt; [by apply lookup_view|].
    match goal with H : _ || _ = true |- _ => apply orb_true_iff in H as [H|H]; apply is_state_true in H end;
      [by left|by right].
  - match goal with H : nextWorkspaceGeneration _ = Ok _ |- _ => apply nextGeneration_ok in H as [-> Hmax] end.
    match goal with H : transitionWorkspace _ _ = Ok _ |- _ => apply transition_ok in H as (-> & _) end.
    apply commitClaim_good. intros Hwf. bool_hyp.
    match goal with H : is_state WSPending _ = true |- _ => apply is_state_true in H as Hp end.
    match goal with |- context [choose_backend ?b ?w] =>
      destruct (choose_backend_view b w) as [Hv Hi]; unfold view in Hv; injection Hv as Hs Hg Hn end.
    cbn in *. unfold view. cbn. rewrite Hi, Hs, Hg in *. erewrite wf_lookup by eassumption.
    eapply a_claim; [|done..]. erewrite lookup_view by eassumption. unfold view. by rewrite Hp.
Qed.

(** *** Restart *)

Lemma migrate_view w : view (migrate w) = view w /\ ID (migrate w) = ID w.
Proof. unfold migrate. by destruct (Tenant w =s ""). Qed.

(** Reading a row back never fails, keeps id and generation, and keeps the
    holder of everything that is held or not cleaned up yet. *)
Lemma load_one_spec now stamp row :
  exists w, load_one o now stamp row = Ok w /\ derived row w /\
    (Node row <> EmptyString -> Node w = Node row) /\
    (State w = WSPending -> State row = WSPending \/ (State row = WSReleased /\ Node row = EmptyString)).
Proof.
  destruct (migrate_view row) as [Hv Hi].
  assert (derived row (migrate row)) as Hd by (by apply view_derived).
  assert (forall s, (State row, s) ∈ [(WSClaimed, WSClaiming); (WSClaiming, WSClaiming); (WSQuiescing, WSFailed);
       (WSCheckpointing, WSFailed); (WSDestroying, WSFailed); (WSReleased, WSPending)] ->
    transitionWorkspace (Some (migrate row)) (mkTransition transitionRecover actorRecovery s None None)
    = Ok (set_State s (migrate row))) as Htr.
  { intros s Hin. unfold transitionWorkspace. cbn -[bool_decide elem_of].
    unfold view in Hv. injection Hv as Hs _ _. rewrite Hs.
    rewrite (bool_decide_eq_true_2 ((State row, s) ∈ _)) by exact Hin. done. }
  assert (forall s, (State row, s) ∈ [(WSClaimed, WSClaiming); (WSClaiming, WSClaiming); (WSQuiescing, WSFailed);
       (WSCheckpointing, WSFailed); (WSDestroying, WSFailed); (WSReleased, WSPending)] ->
     derived row (set_State s (migrate row))) as Hds.
  { intros s Hin. pose proof (transition_keeps _ _ _ (Htr s Hin) keeps_recover) as Hk.
    unfold view in Hv. injection Hv as Hs Hg Hn. unfold derived in *. cbn in *.
    rewrite Hi, Hg, Hs, Hn in *. by destruct Hk as (_ & _ & ? & ? & ?). }
  unfold load_one, load_row. unfold view in Hv. injection Hv as Hs Hg Hn. cbv zeta. rewrite Hs.
  destruct (State row) eqn:Es; repeat step_if; rewrite ?Htr by set_solver;
    eexists; (split; [reflexivity|]); unfold loaded; cbn [fst snd];
    repeat match goal with |- context [if ?b then set_UpdatedAt _ _ else _] => destruct b end;
    (split;
    [match goal with
     | |- context [set_State ?s (migrate row)] =>
         apply (derived_same row (set_State s (migrate row))); [apply Hds; set_solver|try done..]
     | _ => apply (derived_same row (migrate row)); [exact Hd|try done..]
     end|]);
    try (by left); try (by right); cbn; rewrite ?Hs, ?Hn;
    try (by (split; [done|]; auto));
    bool_hyp; rewrite Hn in *; (split; [congruence|auto]).
Qed.

(** A map whose entries are all plain moves of another is reached from it. *)
Definition moved (v v' : WSState * Z * string) : Prop :=
  let '(s, g, n) := v in let '(s', g', n') := v' in
  g' = g /\ (s' = s \/ allowed s s') /\ (held s' = true -> held s = true) /\
  (n' = n \/ (n' = EmptyString /\ held s' = false)).

Definition overlay (m m' : gmap string (WSState * Z * string)) (l : list string) :=
  foldr (fun id acc => match m' !! id with Some v => <[id := v]> acc | None => acc end) m l.

Lemma overlay_lookup m m' l id :
  overlay m m' l !! id
  = if decide (id ∈ l) then match m' !! id with Some v => Some v | None => m !! id end else m !! id.
Proof.
  induction l as [|x l IH]; [done|]. cbn [overlay foldr]. fold (overlay m m' l).
  destruct (decide (id = x)) as [-> |Hne].
  - rewrite decide_True by left. destruct (m' !! x) as [v|] eqn:Hx; [by rewrite lookup_insert_eq|].
    rewrite IH, ?Hx. by destruct (decide (x ∈ l)).
  - assert (overlay m m' l !! id = match m' !! x with Some v => <[x := v]> (overlay m m' l) | None => overlay m m' l end !! id) as <-.
    { destruct (m' !! x); [by rewrite lookup_insert_ne|done]. }
    rewrite IH. destruct (decide (id ∈ l)) as [Hin|Hin].
    + by rewrite decide_True by (by right).
    + rewrite decide_False; [done|]. intros Hc%elem_of_cons. naive_solver.
Qed.

Lemma rtc_pointwise m m' given :
  (forall id, option_Forall2 moved (m !! id) (m' !! id)) ->
  rtc hstep (mkAuthority used m given) (mkAuthority used m' given).
Proof.
  intros Hrel.
  assert (forall l, NoDup l -> rtc hstep (mkAuthority used m given) (mkAuthority used (overlay m m' l) given)) as Hl.
  { induction l as [|x l IH]; intros Hnd; [done|]. apply NoDup_cons in Hnd as [Hx Hnd].
    etrans; [by apply IH|]. cbn [overlay foldr]. fold (overlay m m' l).
    specialize (Hrel x). inversion Hrel as [[[s g] n] [[s' g'] n'] Hm H1 H2|H1 H2]; [|done].
    destruct Hm as (-> & Hs & Hh & Hn). apply rtc_once.
    eapply (a_move (mkAuthority used (overlay m m' l) given) x s g n s' n'); [|done..].
    cbn. rewrite overlay_lookup, decide_False by done. by rewrite <- H1. }
  specialize (Hl (elements (dom m')) (NoDup_elements _)).
  assert (overlay m m' (elements (dom m')) = m') as He; [|by rewrite He in Hl].
  apply map_eq. intros id. rewrite overlay_lookup. specialize (Hrel id).
  destruct (decide (id ∈ elements (dom m'))) as [Hin|Hin].
  - apply elem_of_elements, elem_of_dom in Hin as [v Hv]. by rewrite Hv.
  - rewrite elem_of_elements, not_elem_of_dom in Hin. rewrite Hin in *. by inversion Hrel.
Qed.

Lemma derived_moved w next : derived w next -> moved (view w) (view next).
Proof. intros (_ & Hg & Hs & Hh & Hn). by split_and!. Qed.

Lemma record_all (ws : gmap string Workspace) given :
  map_Forall (fun id w => ID w = id) ws ->
  rtc hstep (mkAuthority used (view <$> ws) given) (mkAuthority used (view <$> ws) (map_fold recorded_assignment given ws)).
Proof.
  intros Hk.
  apply (map_fold_weak_ind (fun b m => m ⊆ ws ->
    rtc hstep (mkAuthority used (view <$> ws) given) (mkAuthority used (view <$> ws) b))); [done| |done].
  intros id w m b Hm IH Hsub.
  assert (ws !! id = Some w) as Hl by (eapply lookup_weaken; [apply lookup_insert_eq|exact Hsub]).
  etrans; [apply IH; etrans; [apply insert_subseteq, Hm|exact Hsub]|].
  unfold recorded_assignment. destruct (_ && _) eqn:Hb; [|done]. bool_hyp.
  rewrite (Hk id w Hl). apply rtc_once.
  set (a := mkAuthority used (view <$> ws) b). change (hstep a (give a id (Generation w) (Node w))).
  apply (a_record a id (State w)); [|done].
  cbn. by rewrite lookup_fmap, Hl.
Qed.


Lemma restart_spec now stamp c :
  wf c -> exists c', restart o now stamp c = Some c' /\ wf c' /\ rtc hstep (abs c) (abs c') /\
    forall id w, workspaces c !! id = Some w ->
      exists w', workspaces c' !! id = Some w' /\ load_one o now stamp w = Ok w'.
Proof.
  intros [Hr Hk]. unfold restart.
  assert (forallb (fun p => is_ok (load_one o now stamp (snd p))) (map_to_list (rows c)) = true) as ->.
  { apply forallb_forall. intros [id w] _. cbn. by destruct (load_one_spec now stamp w) as (w' & -> & _). }
  set (ws := omap _ (rows c)). eexists; split; [reflexivity|].
  assert (forall id, ws !! id = match workspaces c !! id with
    | Some w => match load_one o now stamp w with Ok w' => Some w' | Err _ => None end | None => None end) as Hws.
  { intros id. unfold ws. rewrite lookup_omap, Hr. by destruct (workspaces c !! id). }
  assert (map_Forall (fun id w => ID w = id) ws) as Hk'.
  { intros id w Hl. rewrite Hws in Hl. destruct (workspaces c !! id) as [w0|] eqn:H0; [|done].
    destruct (load_one_spec now stamp w0) as (w' & Hload & Hd & _). rewrite Hload in Hl. injection Hl as <-.
    destruct Hd as [-> _]. by apply (Hk id w0). }
  split_and!; [by split| |].
  - etrans; [|by apply record_all]. unfold abs. apply rtc_pointwise. intros id.
    rewrite !lookup_fmap, Hws. destruct (workspaces c !! id) as [w|]; [|constructor].
    destruct (load_one_spec now stamp w) as (w' & -> & Hd & _). constructor. by apply derived_moved.
  - intros id w Hl. destruct (load_one_spec now stamp w) as (w' & Hload & _). exists w'.
    split; [|done]. cbn. rewrite Hws, Hl. by rewrite Hload.
Qed.

End handlers.

(** *** Retention *)

Lemma prune_keeps_row p c id w g n :
  workspaces c !! id = Some w -> g <> 0 -> n <> EmptyString -> view w = (State w, g, n) ->
  prunableAssignment p c (id, g) n = false.
Proof.
  intros Hl Hg Hn Hv. unfold prunableAssignment, protectedAssignment, view in *. cbn [fst snd]. rewrite Hl.
  injection Hv as -> ->. rewrite Z.eqb_refl, (proj2 (Z.eqb_neq g 0) Hg). cbn [negb andb].
  apply andb_false_iff. right. apply negb_false_iff, orb_true_iff. right.
  assert ((n =s "") = false) as -> by (by apply str_eqb_neq). by rewrite str_eqb_refl.
Qed.

Lemma prune_good used p committed c : wf c ->
  wf (PruneRecords p committed c) /\ rtc astep (abs used c) (abs used (PruneRecords p committed c)).
Proof.
  intros [Hr Hk]. unfold PruneRecords. destruct committed; [|by split]. split; [split|].
  - cbn. rewrite Hr. apply map_filter_ext. intros id w Hl. cbn. by rewrite Hl.
  - cbn. intros id w [Hl _]%map_lookup_filter_Some. by apply Hk.
  - apply rtc_once. unfold abs at 2. cbn [workspaces assignments].
    apply (a_retain (abs used c)); cbn [abs a_ws a_given].
    + apply map_fmap_mono, map_filter_subseteq.
    + apply map_filter_subseteq.
    + intros id v. rewrite !lookup_fmap. intros (w & Hl & ->)%fmap_Some. rewrite fmap_None, map_lookup_filter_None.
      intros [?|Hp]; [congruence|]. specialize (Hp w Hl). cbn in Hp.
      destruct (prunableWorkspace p id w) eqn:E; [|done]. unfold prunableWorkspace in E. bool_hyp.
      match goal with H : is_state _ _ = true |- _ => apply bool_decide_eq_true in H end.
      exists (Generation w). unfold view. congruence.
    + intros id g n Hg (Hn & H0 & st & Hl). cbn in Hl. rewrite lookup_fmap in Hl. apply fmap_Some in Hl as (w & Hl & Hv).
      apply map_lookup_filter_Some. split; [done|]. cbn [fst snd].
      apply (prune_keeps_row p c id w); [done..|]. by rewrite <- Hv; unfold view in Hv; injection Hv as -> _ _.
Qed.

Lemma create_good used now tx id tenant owner spec c : id ∉ used -> workspaces c !! id = None -> wf c ->
  wf (snd (create_commit now tx id tenant owner spec c)) /\
  rtc hstep (abs used c) (abs ({[id]} ∪ used) (snd (create_commit now tx id tenant owner spec c))).
Proof.
  intros Hu Hn Hwf. unfold create_commit.
  match goal with |- context [commitWS c ?x tx] => set (w := x); destruct (commitWS_cases c w tx) as [[_ ->]|(t & _ & ->)] end.
  - split; [done|]. apply rtc_once. apply (a_issue (abs used c)).
  - split; [by eapply (wf_insert c); [done..|]|]. apply rtc_once. unfold abs at 2. cbn [snd workspaces assignments].
    rewrite fmap_insert. apply (a_create (abs used c) id); [done|]. cbn. by rewrite lookup_fmap, Hn.
Qed.

(** Requests that neither create nor forget a workspace. *)
Definition in_place (r : request) : Prop :=
  match r with
  | RCreate _ _ _ _ _ _ | RPrune _ _ => False
  | RClaim _ _ node _ => node <> EmptyString
  | _ => True
  end.

Lemma in_place_good used c r : in_place r -> good used c (exec c r).
Proof.
  destruct r; intros Hok; cbn [exec in_place] in *; try done;
    eauto using claim_good, ready_good, renew_good, snapshot_good, released_good,
      release_begin_good, release_commit_good, abort_good, finish_abort_good, released_cleanup_good,
      recover_released_good, destroy_begin_good, destroy_commit_good, destroyed_cleanup_good, move_good,
      sleep_good, wake_good, acl_good, peer_gone_good.
  - unfold Tick_expire. apply good_foldl. intros. apply expire_good.
  - intros Hwf. destruct (restart_spec used now stamp c Hwf) as (c' & -> & Hwf' & Ha & _). by split.
Qed.

Lemma handlers_are_steps a a' : rtc hstep a a' -> rtc astep a a'.
Proof. apply rtc_subrel. intros x y. apply a_handler. Qed.

(** The ids of the workspaces in memory were all handed out. *)
Definition issued (used : gset string) (c : Control) : Prop := forall id w, workspaces c !! id = Some w -> id ∈ used.

(** Every handler implements the abstract machine. *)
Lemma exec_good used c r : request_ok used r -> issued used c -> wf c ->
  wf (exec c r) /\ rtc astep (abs used c) (abs (issues r ∪ used) (exec c r)).
Proof.
  intros Hok Hu Hwf.
  destruct r; cbn [issues request_ok] in *;
    try (rewrite union_empty_l_L; match goal with |- wf (exec c ?r) /\ _ =>
           destruct (in_place_good used c r Hok Hwf); split; [done|by apply handlers_are_steps] end).
  - assert (workspaces c !! id = None) as Hn by (destruct (workspaces c !! id) eqn:E; [by destruct Hok; eapply Hu|done]).
    destruct (create_good used now tx id tenant owner spec c Hok Hn Hwf). split; [done|by apply handlers_are_steps].
  - rewrite union_empty_l_L. by apply prune_good.
Qed.

(** ** Invariants of the machine *)

(** Rows name the node that has their generation; whoever holds a workspace has
    a row for its current generation, and so has every node a workspace is
    still recorded on. *)
Record authority_ok (a : authority) : Prop := {
  ok_used : forall id v, a_ws a !! id = Some v -> id ∈ a_used a;
  ok_rows : forall id g n, a_given a !! (id, g) = Some n -> n <> EmptyString /\ id ∈ a_used a /\
    forall s g' n', a_ws a !! id = Some (s, g', n') -> g <= g' /\ (g = g' -> n' = n \/ n' = EmptyString);
  ok_node : forall id s g n, a_ws a !! id = Some (s, g, n) ->
    0 <= g /\ (held s = true -> n <> EmptyString) /\
    (n <> EmptyString -> 0 < g /\ a_given a !! (id, g) = Some n) }.

Lemma insert_or_ignore_lookup k n m k' :
  insert_or_ignore k n m !! k'
  = match m !! k' with Some v => Some v | None => if decide (k' = k) then Some n else None end.
Proof.
  unfold insert_or_ignore. destruct (m !! k) as [v|] eqn:Hk.
  - destruct (m !! k') eqn:Hk'; [done|]. rewrite decide_False; [done|]. by intros ->; congruence.
  - destruct (decide (k' = k)) as [-> |Hne]; [by rewrite lookup_insert_eq, Hk|].
    rewrite lookup_insert_ne by done. by destruct (m !! k').
Qed.

(** The effect of a step that moves one entry and gives nothing. *)
Lemma put_ok a id s g n s' g' n' :
  authority_ok a -> a_ws a !! id = Some (s, g, n) -> g <= g' ->
  (n' = EmptyString \/ (n' = n /\ g' = g)) -> (held s' = true -> n' <> EmptyString) ->
  authority_ok (put a id (s', g', n')).
Proof.
  intros [H1 H2 H3] Hl Hg Hn Hh. destruct (H3 _ _ _ _ Hl) as (H0 & _ & Hrow). split; cbn.
  - intros id' v. destruct (decide (id' = id)) as [-> |]; [intros _; by eapply H1|].
    rewrite lookup_insert_ne by done. apply H1.
  - intros id' g0 n0 Hgv. destruct (H2 id' g0 n0 Hgv) as (Hne & Hu & Hrest). split_and!; [done..|].
    intros s1 g1 n1. destruct (decide (id' = id)) as [-> |]; [|rewrite lookup_insert_ne by done; apply Hrest].
    rewrite lookup_insert_eq. intros [= <- <- <-]. destruct (Hrest _ _ _ Hl) as [Hle Heq]. split; [lia|].
    intros ->. destruct Hn as [-> |[-> ->]]; auto.
  - intros id' s1 g1 n1. destruct (decide (id' = id)) as [-> |]; [|rewrite lookup_insert_ne by done; apply H3].
    rewrite lookup_insert_eq. intros [= <- <- <-]. split_and!; [lia|done|].
    intros Hne. destruct Hn as [-> |[-> ->]]; [done|by apply Hrow].
Qed.

Lemma give_ok a id s g n :
  authority_ok a -> a_ws a !! id = Some (s, g, n) -> n <> EmptyString -> authority_ok (give a id g n).
Proof.
  intros [H1 H2 H3] Hl Hn. split; cbn; [done| |].
  - intros id' g0 n0. rewrite insert_or_ignore_lookup. destruct (a_given a !! (id', g0)) as [v|] eqn:Hgv.
    + intros [= <-]. by apply H2.
    + destruct (decide _) as [[= -> ->]|]; [|done]. intros [= <-]. split_and!; [done|by eapply H1|].
      intros s1 g1 n1 Hl1. rewrite Hl in Hl1. simplify_eq. split; [lia|by left].
  - intros id' s0 g0 n0 Hl0. destruct (H3 _ _ _ _ Hl0) as (? & ? & Hrow). split_and!; [done..|].
    intros Hne. destruct (Hrow Hne) as [? Hgv]. split; [done|]. by rewrite insert_or_ignore_lookup, Hgv.
Qed.

Lemma managed_held s : managed s -> held s = true.
Proof. by intros [-> | ->]. Qed.

Lemma issue_ok a ids : authority_ok a -> authority_ok (issue a ids).
Proof. intros [H1 H2 H3]. split; cbn; [|intros id g n Hg; destruct (H2 id g n Hg) as (? & ? & ?)|]; set_solver. Qed.

Lemma retain_ok a ws given :
  ws ⊆ a_ws a -> given ⊆ a_given a ->
  (forall id g n, a_given a !! (id, g) = Some n -> current a id g n -> given !! (id, g) = Some n) ->
  authority_ok a -> authority_ok (mkAuthority (a_used a) ws given).
Proof.
  intros Hws Hgiven Hcur [H1 H2 H3]. split; cbn.
  - intros id v Hl. eapply H1, lookup_weaken; eassumption.
  - intros id g n Hg. apply (lookup_weaken _ _ _ _ Hg) in Hgiven as Hg'.
    destruct (H2 _ _ _ Hg') as (? & ? & Hr). split_and!; [done..|]. intros s g' n' Hl.
    apply (Hr s). by eapply lookup_weaken.
  - intros id s g n Hl. apply (lookup_weaken _ _ _ _ Hl) in Hws as Hl'.
    destruct (H3 _ _ _ _ Hl') as (? & ? & Hrow). split_and!; [done..|]. intros Hn. destruct (Hrow Hn) as [Hg Hgv].
    split; [done|]. apply Hcur; [done|]. split_and!; [done|lia|by exists s].
Qed.

Lemma authority_create_ok a id : id ∉ a_used a -> authority_ok a ->
  authority_ok (issue (put a id (WSPending, 0, EmptyString)) {[id]}).
Proof.
  intros Hn [H1 H2 H3]. split; cbn.
  - intros id' v. destruct (decide (id' = id)) as [-> |]; [set_solver|]. rewrite lookup_insert_ne by done.
    intros Hl%H1. set_solver.
  - intros id' g n Hg. destruct (H2 _ _ _ Hg) as (? & Hu & Hr). split_and!; [done|set_solver|].
    intros s g' n'. rewrite lookup_insert_ne by set_solver. apply Hr.
  - intros id' s g n. destruct (decide (id' = id)) as [-> |].
    + rewrite lookup_insert_eq. intros [= <- <- <-]. by split_and!.
    + rewrite lookup_insert_ne by done. apply H3.
Qed.

(** A claim takes a generation no row has. *)
Lemma authority_claim_ok a id g n node :
  a_ws a !! id = Some (WSPending, g, n) -> node <> EmptyString -> authority_ok a ->
  authority_ok (give (put a id (WSClaiming, g + 1, node)) id (g + 1) node).
Proof.
  intros Hl Hne [H1 H2 H3]. destruct (H3 _ _ _ _ Hl) as (H0 & _).
  assert (a_given a !! (id, g + 1) = None) as Hfresh.
  { destruct (a_given a !! (id, g + 1)) as [v|] eqn:Hv; [|done].
    destruct (H2 _ _ _ Hv) as (_ & _ & Hr). destruct (Hr _ _ _ Hl). lia. }
  split; cbn.
  - intros id' v. destruct (decide (id' = id)) as [-> |]; [intros _; by eapply H1|].
    rewrite lookup_insert_ne by done. apply H1.
  - intros id' g0 n0. rewrite insert_or_ignore_lookup. destruct (a_given a !! (id', g0)) as [v|] eqn:Hgv.
    + intros [= <-]. destruct (H2 _ _ _ Hgv) as (Hv & Hu & Hr). split_and!; [done..|]. intros s1 g1 n1.
      destruct (decide (id' = id)) as [-> |]; [|rewrite lookup_insert_ne by done; apply Hr].
      rewrite lookup_insert_eq. intros [= <- <- <-]. destruct (Hr _ _ _ Hl). lia.
    + destruct (decide _) as [[= -> ->]|]; [|done]. intros [= <-]. split_and!; [done|by eapply H1|].
      intros s1 g1 n1. rewrite lookup_insert_eq. intros [= <- <- <-]. split; [lia|by left].
  - intros id' s0 g0 n0. destruct (decide (id' = id)) as [-> |].
    + rewrite lookup_insert_eq. intros [= <- <- <-]. split_and!; [lia|done|]. intros _. split; [lia|].
      rewrite insert_or_ignore_lookup, Hfresh. by rewrite decide_True.
    + rewrite lookup_insert_ne by done. intros Hl0. destruct (H3 _ _ _ _ Hl0) as (? & ? & Hrow).
      split_and!; [done..|]. intros Hn0. destruct (Hrow Hn0) as [? Hgv]. split; [done|].
      by rewrite insert_or_ignore_lookup, Hgv.
Qed.

Lemma authority_step a a' : authority_ok a -> astep a a' -> authority_ok a'.
Proof.
  intros Hok [? Hst|ws given Hws Hgiven _ Hcur]; [|by apply retain_ok].
  destruct Hst as [ids|id Hn _|id s g n s' n' Hl Hs Hh Hn|id s g n Hl Hm Hg|id g n node Hl Hg Hne
    |id s g node Hl Hm|id s g n Hl Hne].
  - by apply issue_ok.
  - by apply authority_create_ok.
  - pose proof (ok_node _ Hok _ _ _ _ Hl) as (_ & Hnode & _). eapply put_ok; [done|done|lia| |].
    + destruct Hn as [-> |[-> _]]; auto.
    + intros Hheld. destruct Hn as [-> |[-> Hf]]; [by apply Hnode, Hh|congruence].
  - eapply put_ok; [done|done|lia|by left|done].
  - by eapply authority_claim_ok.
  - pose proof (ok_node _ Hok _ _ _ _ Hl) as (_ & Hnode & _). specialize (Hnode (managed_held s Hm)).
    eapply (give_ok _ id WSClaiming); [|by cbn; rewrite lookup_insert_eq|done].
    eapply put_ok; [done|done|lia|by right|done].
  - by eapply give_ok.
Qed.

Lemma authority_run a a' : rtc astep a a' -> authority_ok a -> authority_ok a'.
Proof. apply rtc_invariant. eauto using authority_step. Qed.

(** *** The fate of an entry *)

Lemma failed_moves s : allowed WSFailed s -> held s = true \/ s = WSFailed \/ s = WSDestroyed.
Proof.
  intros (op & rule & Hr & Hin). destruct op; cbn in Hr; simplify_eq; cbn in Hin;
    repeat (apply elem_of_cons in Hin as [Hin|Hin]; [simplify_eq; auto|]); by apply not_elem_of_nil in Hin.
Qed.

(** What a step keeps of an entry: its generation grows, a destroyed workspace
    stays destroyed, a failed one is never claimable again, and within one
    generation the node only goes, with the hold. *)
Definition outlives (v v' : WSState * Z * string) : Prop :=
  let '(s, g, n) := v in let '(s', g', n') := v' in
  g <= g' /\ (s = WSDestroyed -> s' = WSDestroyed) /\ (s = WSFailed -> s' = WSFailed \/ s' = WSDestroyed) /\
  (g' = g -> (held s' = true -> held s = true) /\ (n' = n \/ (n' = EmptyString /\ held s' = false))).

Lemma outlives_refl v : outlives v v.
Proof. destruct v as [[s g] n]. cbn. split_and!; [lia|auto..]. Qed.

Lemma outlives_trans v1 v2 v3 : outlives v1 v2 -> outlives v2 v3 -> outlives v1 v3.
Proof.
  destruct v1 as [[s1 g1] n1], v2 as [[s2 g2] n2], v3 as [[s3 g3] n3]. cbn.
  intros (? & H1 & H2 & H5) (? & H3 & H4 & H6). split_and!; [lia|auto| |].
  { intros Hs. destruct (H2 Hs); auto. }
  intros ->. assert (g2 = g1) as -> by lia. destruct (H5 eq_refl) as [Ha Hb], (H6 eq_refl) as [Hc Hd]. split; [auto|].
  destruct Hd as [-> |?]; [|by right]. destruct Hb as [-> |[-> Hf]]; [by left|right]. split; [done|].
  destruct (held s3); [|done]. specialize (Hc eq_refl). congruence.
Qed.

(** An entry outlives [v], or was forgotten, and its id is not used again. *)
Definition fate (id : string) (v : WSState * Z * string) (a : authority) : Prop :=
  id ∈ a_used a /\ forall v', a_ws a !! id = Some v' -> outlives v v'.

Lemma put_outlives a id v v' id0 v0 :
  a_ws a !! id = Some v -> outlives v v' -> a_ws a !! id0 = Some v0 ->
  exists v1, <[id := v']> (a_ws a) !! id0 = Some v1 /\ outlives v0 v1.
Proof.
  intros Hl Ho Hl0. destruct (decide (id0 = id)) as [-> |Hne].
  - rewrite lookup_insert_eq. rewrite Hl in Hl0. simplify_eq. by exists v'.
  - rewrite lookup_insert_ne by done. exists v0. split; [done|apply outlives_refl].
Qed.

Lemma entry_step a a' id v : hstep a a' -> a_ws a !! id = Some v ->
  exists v', a_ws a' !! id = Some v' /\ outlives v v'.
Proof.
  intros Hst Hl. destruct Hst as [ids|id0 Hu Hn|id0 s g n s' n' Hl0 Hs Hh Hn|id0 s g n Hl0 Hm Hg|id0 g n node Hl0 Hg Hne
    |id0 s g node Hl0 Hm|id0 s g n Hl0 Hne]; cbn.
  - exists v. split; [done|apply outlives_refl].
  - rewrite lookup_insert_ne by congruence. exists v. split; [done|apply outlives_refl].
  - eapply put_outlives; [exact Hl0| |exact Hl]. cbn. split_and!; [lia| | |done].
    + intros ->. destruct Hs as [-> |(op & rule & Hr & Hin)]; [done|]. by destruct (destroyed_has_no_rule _ _ _ Hr Hin).
    + intros ->. destruct Hs as [-> |Ha]; [by left|]. destruct (failed_moves s' Ha) as [Hc|Hc]; [|done].
      by specialize (Hh Hc).
  - eapply put_outlives; [exact Hl0| |exact Hl]. destruct Hm as [-> | ->]; cbn; split_and!; (lia || done).
  - eapply put_outlives; [exact Hl0| |exact Hl]. cbn. split_and!; (lia || done).
  - eapply put_outlives; [exact Hl0| |exact Hl]. destruct Hm as [-> | ->]; cbn; split_and!; first [lia|done|by auto].
  - exists v. split; [done|apply outlives_refl].
Qed.

Lemma entry_run a a' id v : rtc hstep a a' -> a_ws a !! id = Some v ->
  exists v', a_ws a' !! id = Some v' /\ outlives v v'.
Proof.
  intros Hr. revert v. induction Hr as [a|a a1 a2 Hst Hr IH]; intros v Hl; [exists v; split; [done|apply outlives_refl]|].
  destruct (entry_step a a1 id v Hst Hl) as (v1 & Hl1 & Ho1). destruct (IH v1 Hl1) as (v2 & Hl2 & Ho2).
  exists v2. split; [done|]. by eapply outlives_trans.
Qed.

Lemma used_step a a' : astep a a' -> a_used a ⊆ a_used a'.
Proof. destruct 1 as [? Hst|]; [|done]. destruct Hst; cbn; set_solver. Qed.

(** A new entry has a new id. *)
Lemma new_entry a a' id v : hstep a a' -> a_ws a !! id = None -> a_ws a' !! id = Some v -> id ∉ a_used a.
Proof.
  destruct 1 as [|id0 Hu Hn|id0 ? ? ? ? ? Hl|id0 ? ? ? Hl|id0 ? ? ? Hl|id0 ? ? ? Hl|]; cbn; try congruence;
    (destruct (decide (id = id0)) as [-> |Hne]; [congruence|]); rewrite lookup_insert_ne by done; congruence.
Qed.

Lemma fate_step a a' id v : astep a a' -> fate id v a -> fate id v a'.
Proof.
  intros Hst [Hu Hf]. split; [by apply (used_step _ _ Hst)|]. intros v' Hl'.
  destruct Hst as [a' Hst|ws given Hws _ _ _]; [|by apply Hf, (lookup_weaken _ _ _ _ Hl')].
  destruct (a_ws a !! id) as [v0|] eqn:Hl; [|by destruct (new_entry _ _ _ _ Hst Hl Hl')].
  destruct (entry_step _ _ _ _ Hst Hl) as (v1 & Hl1 & Ho). simplify_eq. eapply outlives_trans; [by apply Hf|done].
Qed.

Lemma fate_run a a' id v : rtc astep a a' -> fate id v a -> fate id v a'.
Proof. apply rtc_invariant. eauto using fate_step. Qed.

(** ** Safety of runs *)

(** A fresh control plane. *)
Definition fresh (c : Control) : Prop := workspaces c = ∅ /\ rows c = ∅ /\ assignments c = ∅.

Lemma fresh_ok used c : fresh c -> wf c /\ authority_ok (abs used c).
Proof.
  intros (Hw & Hr & Ha). split.
  - split; [congruence|]. rewrite Hw. apply map_Forall_empty.
  - split; unfold abs; cbn; rewrite ?Ha, ?Hw, ?fmap_empty; intros *; by rewrite lookup_empty.
Qed.

Lemma issued_ok used c : authority_ok (abs used c) -> issued used c.
Proof. intros Ha id w Hl. eapply (ok_used _ Ha), lookup_view, Hl. Qed.

Lemma run_good rs : forall used c, run_ok used rs -> authority_ok (abs used c) -> wf c ->
  wf (run c rs) /\ rtc astep (abs used c) (abs (used_by used rs) (run c rs)).
Proof.
  induction rs as [|r rs IH]; intros used c Hok Ha Hwf; [by split|]. destruct Hok as [Hr Hrs].
  destruct (exec_good used c r Hr (issued_ok _ _ Ha) Hwf) as [Hwf1 H1].
  destruct (IH _ _ Hrs (authority_run _ _ H1 Ha) Hwf1) as [Hwf2 H2]. split; [done|]. by etrans.
Qed.

(** A state some run from an empty database reaches, with the ids it used. *)
Definition reachable (used : gset string) (c : Control) : Prop :=
  exists c0 rs, fresh c0 /\ run_ok ∅ rs /\ used = used_by ∅ rs /\ c = run c0 rs.

Lemma authority_reachable_ok used c : reachable used c -> wf c /\ authority_ok (abs used c).
Proof.
  intros (c0 & rs & Hf & Hok & -> & ->). destruct (fresh_ok ∅ c0 Hf) as [Hwf Ha].
  destruct (run_good rs ∅ c0 Hok Ha Hwf) as [Hwf' Hr]. split; [done|]. by eapply authority_run.
Qed.

(** The caller of a claim is told about a row that is now held. *)
Lemma granted_held c r id g n :
  wf c -> (id, g, n) ∈ granted c r -> exists w, workspaces (exec c r) !! id = Some w /\
    view w = (WSClaiming, g, n).
Proof.
  intros Hwf. destruct r; cbn [granted exec]; try (by intros []%not_elem_of_nil).
  assert (forall next, State next = WSClaiming ->
    match fst (commitClaim c next tx) with Ok w => (id, g, n) ∈ [(ID w, Generation w, Node w)] | Err _ => False end ->
    exists w, workspaces (snd (commitClaim c next tx)) !! id = Some w /\ view w = (WSClaiming, g, n)) as Hc.
  { intros next Hs. unfold commitClaim, persistClaim. destruct tx as [t|]; [|done]. cbn.
    rewrite list_elem_of_singleton. intros [= -> -> ->]. rewrite lookup_insert_eq. eexists. split; [done|].
    unfold view. cbn. by rewrite Hs. }
  unfold wsClaim, with_ws. destruct (workspaces c !! id0) as [ws|]; [|by intros []%not_elem_of_nil].
  repeat (step_if; try (by intros []%not_elem_of_nil)).
  - unfold with_transition. destruct (transitionWorkspace _ _) as [next|] eqn:Ht; [|by intros []%not_elem_of_nil].
    intros Hin. apply Hc; [cbn; by apply transition_state in Ht|].
    by destruct (fst (commitClaim _ _ _)); [|by apply not_elem_of_nil in Hin].
  - destruct (eligible ws node) as [backend|]; [|by intros []%not_elem_of_nil].
    unfold with_transition. destruct (transitionWorkspace _ _) as [next|] eqn:Ht; [|by intros []%not_elem_of_nil].
    cbv zeta. destruct (nextWorkspaceGeneration _); [|by intros []%not_elem_of_nil].
    intros Hin. apply Hc; [|by destruct (fst (commitClaim _ _ _)); [|by apply not_elem_of_nil in Hin]].
    destruct (choose_backend_view backend next) as [Hv _]. unfold view in Hv. injection Hv as Hs _ _.
    cbn. rewrite Hs. by apply transition_state in Ht.
Qed.

(** A generation that was granted: the workspace is where the grant left it or
    further, and a row of that generation names the node it was granted to. *)
Definition row_names (id : string) (g : Z) (n : string) (a : authority) : Prop :=
  fate id (WSClaiming, g, n) a /\ (forall n', a_given a !! (id, g) = Some n' -> n' = n).

(** Rows written again are those of the current generation. *)
Lemma row_names_given id g n a id0 s g0 n0 : row_names id g n a -> a_ws a !! id0 = Some (s, g0, n0) ->
  n0 <> EmptyString -> forall n', insert_or_ignore (id0, g0) n0 (a_given a) !! (id, g) = Some n' -> n' = n.
Proof.
  intros [[_ Hf] Hr] Hl Hne n'. rewrite insert_or_ignore_lookup.
  destruct (a_given a !! (id, g)) as [v|] eqn:Hv; [intros [= <-]; by apply Hr|].
  destruct (decide _) as [[= -> ->]|]; [|done]. intros [= <-].
  destruct (Hf _ Hl) as (_ & _ & _ & Hg). by destruct (Hg eq_refl) as [_ [?|[? _]]].
Qed.

Lemma row_names_step a a' id g n : authority_ok a -> astep a a' -> row_names id g n a -> row_names id g n a'.
Proof.
  intros Hok Hst Hg. split; [eapply fate_step; [exact Hst|apply Hg]|]. pose proof Hg as [[_ Hf] Hr].
  destruct Hst as [? Hst|ws given _ Hgiven _ _]; [|intros n' Hl; by apply Hr, (lookup_weaken _ _ _ _ Hl)].
  destruct Hst as [| | | |id0 g0 n0 node Hl _ _|id0 s g0 node Hl Hm|id0 s g0 n0 Hl Hne]; cbn; try exact Hr.
  - intros n'. rewrite insert_or_ignore_lookup. destruct (a_given a !! (id, g)) as [v|] eqn:Hv; [intros [= <-]; by apply Hr|].
    destruct (decide _) as [[= -> ->]|]; [|done]. destruct (Hf _ Hl) as (? & _). lia.
  - eapply row_names_given; [done|exact Hl|]. by eapply (ok_node _ Hok), managed_held.
  - by eapply row_names_given.
Qed.

Lemma row_names_run a a' id g n : rtc astep a a' -> authority_ok a -> row_names id g n a -> row_names id g n a'.
Proof.
  induction 1 as [a|a a1 a2 Hst _ IH]; [done|]. intros Hok Hg.
  apply IH; [by eapply authority_step|by eapply row_names_step].
Qed.

(** The state right after a grant. *)
Lemma grant_names used c r id g n : wf c -> authority_ok (abs used c) -> request_ok used r ->
  (id, g, n) ∈ granted c r -> row_names id g n (abs (issues r ∪ used) (exec c r)).
Proof.
  intros Hwf Ha Hr Hin. destruct (exec_good used c r Hr (issued_ok _ _ Ha) Hwf) as [Hwf1 Hs1].
  assert (authority_ok (abs (issues r ∪ used) (exec c r))) as Ha1 by (by eapply authority_run).
  destruct (granted_held c r id g n Hwf Hin) as (w & Hl & Hv).
  apply (lookup_view (issues r ∪ used)) in Hl. rewrite Hv in Hl.
  destruct (ok_node _ Ha1 _ _ _ _ Hl) as (_ & Hne & Hrow). split.
  - split; [by eapply (ok_used _ Ha1)|]. intros v' Hl'. rewrite Hl in Hl'. injection Hl' as <-. apply outlives_refl.
  - intros n' Hn'. destruct (Hrow (Hne eq_refl)) as [_ Hg]. rewrite Hg in Hn'. by injection Hn' as <-.
Qed.

Lemma later_grants rs : forall used c id g n n', wf c -> authority_ok (abs used c) -> run_ok used rs ->
  row_names id g n (abs used c) -> (id, g, n') ∈ grants c rs -> n' = n.
Proof.
  induction rs as [|r rs IH]; intros used c id g n n' Hwf Ha Hok Hg Hin; [by apply not_elem_of_nil in Hin|].
  destruct Hok as [Hr Hrs]. destruct (exec_good used c r Hr (issued_ok _ _ Ha) Hwf) as [Hwf1 Hs1].
  pose proof (row_names_run _ _ _ _ _ Hs1 Ha Hg) as Hg1.
  cbn [grants] in Hin. apply elem_of_app in Hin as [Hin|Hin]; [|by eapply IH; [done|by eapply authority_run|done..]].
  destruct (granted_held c r id g n' Hwf Hin) as (w & Hl & Hv).
  apply (lookup_view (issues r ∪ used)) in Hl. rewrite Hv in Hl.
  destruct Hg1 as [[_ Hf] _]. destruct (Hf _ Hl) as (_ & _ & _ & Hn). by destruct (Hn eq_refl) as [_ [?|[_ ?]]].
Qed.

Lemma grants_names rs : forall used c id g n, wf c -> authority_ok (abs used c) -> run_ok used rs ->
  (id, g, n) ∈ grants c rs ->
  row_names id g n (abs (used_by used rs) (run c rs)) /\ forall n', (id, g, n') ∈ grants c rs -> n' = n.
Proof.
  induction rs as [|r rs IH]; intros used c id g n Hwf Ha Hok Hin; [by apply not_elem_of_nil in Hin|].
  pose proof Hok as [Hr Hrs]. destruct (exec_good used c r Hr (issued_ok _ _ Ha) Hwf) as [Hwf1 Hs1].
  assert (authority_ok (abs (issues r ∪ used) (exec c r))) as Ha1 by (by eapply authority_run).
  cbn [grants used_by run foldl] in *. apply elem_of_app in Hin as [Hin|Hin].
  - pose proof (grant_names used c r id g n Hwf Ha Hr Hin) as Hg. split.
    + eapply row_names_run; [|exact Ha1|exact Hg]. by apply run_good.
    + intros n' [Hn|Hn]%elem_of_app; [|by eapply later_grants].
      pose proof (granted_held c r id g n Hwf Hin) as (w & Hl & Hv).
      destruct (granted_held c r id g n' Hwf Hn) as (w' & Hl' & Hv'). congruence.
  - destruct (IH _ _ id g n Hwf1 Ha1 Hrs Hin) as [Hg Hn]. split; [exact Hg|].
    intros n' [Hn'|Hn']%elem_of_app; [|by apply Hn]. symmetry.
    eapply (later_grants rs (issues r ∪ used) (exec c r)); [done..|by eapply grant_names|exact Hin].
Qed.

(** C1: whatever the order of claims, renewals, releases, moves,
    aborts, lease expiries, lost nodes, failed transactions, retention of
    records and restarts, two nodes are never granted the same generation of a
    workspace; a row of the durable assignments table for a granted generation
    names the node it was granted to, although a second insert is ignored and
    old rows are deleted; and the row is there as long as the workspace is at
    that generation and recorded on a node. *)
Theorem one_holder_per_generation c0 rs id g n1 n2 :
  fresh c0 -> run_ok ∅ rs ->
  (id, g, n1) ∈ grants c0 rs -> (id, g, n2) ∈ grants c0 rs ->
  n1 = n2 /\
  (forall n, assignments (run c0 rs) !! (id, g) = Some n -> n = n1) /\
  (forall w, workspaces (run c0 rs) !! id = Some w -> Generation w = g -> Node w <> EmptyString ->
     Node w = n1 /\ assignments (run c0 rs) !! (id, g) = Some n1).
Proof.
  intros Hf Hok H1 H2. destruct (fresh_ok ∅ c0 Hf) as [Hwf Ha].
  destruct (grants_names rs ∅ c0 id g n1 Hwf Ha Hok H1) as [[_ Hrow] Hn]. split_and!; [symmetry; by apply Hn|done|].
  intros w Hl Hg Hne. destruct (run_good rs ∅ c0 Hok Ha Hwf) as [_ Hr].
  destruct (ok_node _ (authority_run _ _ Hr Ha) id (State w) g (Node w)) as (_ & _ & Hx).
  { apply (lookup_view (used_by ∅ rs)) in Hl. rewrite Hl. unfold view. by rewrite Hg. }
  destruct (Hx Hne) as [_ Hgv]. pose proof (Hrow _ Hgv) as E. rewrite <- E. by split.
Qed.

(** *** Renewals *)

(** The decision for one id of a renewal. *)
Definition accepts (c : Control) (node : string) (req : WSRenewReq) (id : string) : bool :=
  match workspaces c !! id with
  | None => false
  | Some ws => (Node ws =s node) && held (State ws) && negb (default 0 (Gen req !! id) =? 0)
               && (default 0 (Gen req !! id) =? Generation ws)
  end.

Lemma accepts_view c c' node req id :
  view <$> workspaces c' !! id = view <$> workspaces c !! id -> accepts c' node req id = accepts c node req id.
Proof.
  unfold accepts. destruct (workspaces c !! id) as [w|], (workspaces c' !! id) as [w'|]; cbn; try done.
  unfold view. by intros [= -> -> ->].
Qed.

Definition answer (r : WSRenewResult) : string * Z * bool * bool :=
  (ResID r, ResGeneration r, Accepted r, match ResAction r with renew_continue => true | _ => false end).

Lemma renew_loop_answers until node req ids : forall acc c res c',
  wf c -> renew_loop until node req ids acc c = (Ok res, c') ->
  map answer res = map answer acc ++
    map (fun e => (fst e, default 0 (Gen req !! fst e), accepts c node req (fst e), accepts c node req (fst e))) ids.
Proof.
  induction ids as [|[id tx] t IH]; intros acc c res c' Hwf; cbn [renew_loop map fst].
  { intros [= <- <-]. by rewrite app_nil_r. }
  cbv zeta. unfold accepts at 1 2.
  destruct (workspaces c !! id) as [ws|] eqn:Hl.
  2:{ intros Hrest. rewrite (IH _ _ _ _ Hwf Hrest), map_app, <- app_assoc. done. }
  destruct (_ || _) eqn:Hb.
  { intros Hrest. rewrite (IH _ _ _ _ Hwf Hrest), map_app, <- app_assoc. cbn [map app answer].
    do 2 f_equal. unfold answer. cbn.
    assert ((Node ws =s node) && held (State ws) && negb (default 0 (Gen req !! id) =? 0)
               && (default 0 (Gen req !! id) =? Generation ws) = false) as ->; [|done].
    rewrite !orb_true_iff, !negb_true_iff in Hb. rewrite !andb_false_iff, !negb_false_iff. tauto. }
  assert (good ∅ c (snd (commitWS c (set_LeaseUntil until ws) tx))) as Hg.
  { eapply commit_good; [exact Hl|]. intros _. by apply view_derived. }
  destruct (commitWS_cases c (set_LeaseUntil until ws) tx) as [[_ Hc]|(t0 & _ & Hc)]; rewrite Hc in *; [done|].
  destruct (match Authz req !! id with Some _ => _ | None => _ end) as [revoked reset].
  intros Hrest. destruct (Hg Hwf) as [Hwf1 _]. cbn [snd] in Hwf1.
  match goal with H : renew_loop _ _ _ _ _ ?c1 = _ |- _ =>
    assert (forall e, accepts c1 node req e = accepts c node req e) as Hsame end.
  { intros e. apply accepts_view. cbn. pose proof (wf_lookup c id ws Hwf Hl) as Hid.
    destruct (decide (e = ID ws)) as [-> |Hne]; [|by rewrite lookup_insert_ne].
    by rewrite lookup_insert_eq, Hid, Hl. }
  rewrite (IH _ _ _ _ Hwf1 Hrest), map_app, <- app_assoc. cbn [map app answer]. do 2 f_equal.
  - unfold answer. cbn. bool_hyp.
    repeat match goal with H : _ = true |- _ => rewrite H | H : _ = false |- _ => rewrite H end.
    assert ((Node ws =s node) = true) as -> by (by apply str_eqb_eq).
    by zb.
  - apply map_ext. intros e. by rewrite Hsame.
Qed.

Lemma entry_of_run used c rs id w w' : wf c -> authority_ok (abs used c) -> run_ok used rs ->
  workspaces c !! id = Some w -> workspaces (run c rs) !! id = Some w' -> outlives (view w) (view w').
Proof.
  intros Hwf Ha Hok Hl Hl'. destruct (run_good rs used c Hok Ha Hwf) as [_ Hr]. apply (lookup_view used) in Hl.
  destruct (fate_run _ _ id (view w) Hr) as [_ Hf]; [|by apply Hf, lookup_view].
  split; [by eapply ok_used|]. intros v. rewrite Hl. intros [= <-]. apply outlives_refl.
Qed.


(** over any run, while a workspace is known its generation never decreases, a
    destroyed workspace stays destroyed, and one that failed because an abort
    was not acknowledged (or the generations ran out) is never offered, claimed
    or served again by these handlers, so it cannot be reassigned from an older
    snapshot. *)
Theorem lifecycle_is_monotone used c rs id w w' :
  reachable used c -> run_ok used rs -> workspaces c !! id = Some w -> workspaces (run c rs) !! id = Some w' ->
  Generation w <= Generation w' /\
    (State w = WSDestroyed -> State w' = WSDestroyed) /\
    (State w = WSFailed -> State w' = WSFailed \/ State w' = WSDestroyed).
Proof.
  intros Hr Hok Hl Hl'. apply authority_reachable_ok in Hr as [Hwf Ha].
  destruct (entry_of_run used c rs id w w' Hwf Ha Hok Hl Hl') as (? & ? & ? & _). by split_and!.
Qed.

(** a renewal answers, for each id it names and in that order,
    "continue" exactly for the workspaces the caller holds at exactly the
    generation it names; such a caller is the node the durable assignment of
    that generation names; and once the generation has advanced no later
    renewal for an older one is accepted, whatever happened in between. *)
Theorem renewal_only_for_the_current_holder used c node req now seen res :
  reachable used c -> fst (wsRenew o now seen node req c) = Ok res ->
  map answer res = map (fun e => (fst e, default 0 (Gen req !! fst e), accepts c node req (fst e),
                                  accepts c node req (fst e))) (IDs req) /\
  (forall id, accepts c node req id = true ->
     assignments c !! (id, default 0 (Gen req !! id)) = Some node) /\
  (forall rs id w node' req', run_ok used rs -> workspaces c !! id = Some w ->
     default 0 (Gen req' !! id) < Generation w -> accepts (run c rs) node' req' id = false).
Proof.
  intros Hr Hrun. apply authority_reachable_ok in Hr as [Hwf Ha]. split_and!.
  - unfold wsRenew in Hrun. step_if; [done|].
    destruct (renew_loop (leaseFrom o now) node req (IDs req) [] c) as [[l|e] c'] eqn:Hl; [|done].
    injection Hrun as ->. by rewrite (renew_loop_answers _ _ _ _ _ _ _ _ Hwf Hl).
  - intros id Hacc. unfold accepts in Hacc. destruct (workspaces c !! id) as [w|] eqn:Hl; [|done].
    bool_hyp. subst. match goal with H : _ = Generation w |- _ => rewrite H end.
    apply (lookup_view used) in Hl. destruct (ok_node _ Ha _ _ _ _ Hl) as (_ & Hn & Hx). by apply Hx, Hn.
  - intros rs id w node' req' Hok Hl Hlt. unfold accepts. destruct (workspaces (run c rs) !! id) as [w'|] eqn:Hl'; [|done].
    destruct (entry_of_run used c rs id w w' Hwf Ha Hok Hl Hl') as [Ho _]. apply andb_false_iff. right. apply Z.eqb_neq. lia.
Qed.

(** C32: a restart after a crash at any point succeeds, keeps every
    workspace with its generation, leaves a recorded holder in place, makes a
    workspace claimable only when it already was or when its released source
    had been cleaned up. *)
Theorem restart_preserves_authority used c now stamp :
  reachable used c ->
  exists c', restart o now stamp c = Some c' /\ rows c' = workspaces c' /\
    forall id w, workspaces c !! id = Some w ->
      exists w', workspaces c' !! id = Some w' /\ ID w' = id /\ Generation w' = Generation w /\
        (Node w <> EmptyString -> Node w' = Node w) /\
        (State w' = WSPending -> State w = WSPending \/ (State w = WSReleased /\ Node w = EmptyString)).
Proof.
  intros Hr. apply authority_reachable_ok in Hr as [Hwf _].
  destruct (restart_spec used now stamp c Hwf) as (c' & Hc & [Hrows Hk] & _ & Hall). exists c'. split_and!; [done|done|].
  intros id w Hl. destruct (Hall id w Hl) as (w' & Hl' & Hload). exists w'.
  destruct (load_one_spec now stamp w) as (w1 & Hload1 & (_ & Hg & _) & Hn & Hp). rewrite Hload in Hload1. simplify_eq.
  split_and!; [done|by apply (Hk id w1)|done..].
Qed.
End runs.

(** ** Revocations *)

Definition acl_run (w : Workspace) (us : list (list string * list string)) : Workspace :=
  foldl (fun w u => acl_update (fst u) (snd u) w) w us.

(** Every revocation ever made, with the revision that made it. *)
Fixpoint acl_history (w : Workspace) (us : list (list string * list string)) : list (Z * string) :=
  match us with
  | [] => []
  | u :: t =>
      map (fun name => (u64 (AuthzRevision w + 1), name)) (revokedPrincipals (Spec w) (fst u) (snd u) (Owner w))
      ++ acl_history (acl_update (fst u) (snd u) w) t
  end.

Lemma revoked_principals_loop_spec owner readers writers names : forall acc p,
  p ∈ revoked_principals_loop owner readers writers names acc <->
  p ∈ acc \/ (p ∈ names /\ p <> owner /\ p ∉ readers /\ p ∉ writers).
Proof.
  induction names as [|n t IH]; intros acc p; cbn [revoked_principals_loop].
  { rewrite elem_of_nil. tauto. }
  destruct (_ || _) eqn:Hb; rewrite IH, elem_of_cons, ?elem_of_app, ?list_elem_of_singleton.
  - rewrite !orb_true_iff, str_eqb_eq, !contains_spec in Hb. split; [tauto|].
    intros [?|([-> |?] & ? & ? & ?)]; [by left|tauto|tauto].
  - rewrite !orb_false_iff, str_eqb_neq in Hb. destruct Hb as [[[Ho _] Hr] Hw].
    assert (n ∉ readers) by (rewrite <- contains_spec; congruence).
    assert (n ∉ writers) by (rewrite <- contains_spec; congruence).
    split; [intros [[?|?]|?]; subst; tauto|]. intros [?|([-> |?] & ?)]; tauto.
Qed.

Lemma revoked_loop_spec known revs : forall acc p,
  p ∈ revoked_loop known revs acc <-> p ∈ acc \/ exists rev, known < rev /\ (rev, p) ∈ revs.
Proof.
  induction revs as [|[r n] t IH]; intros acc p; cbn [revoked_loop].
  { split; [tauto|]. intros [?|(rev & _ & Hin)]; [done|]. by apply not_elem_of_nil in Hin. }
  destruct (_ && _) eqn:Hb; rewrite IH, ?elem_of_app, ?list_elem_of_singleton; setoid_rewrite elem_of_cons.
  - bool_hyp. split; [intros [[?| ->]|(rev & ? & ?)]; [by left|right; exists r|right; exists rev]; auto|].
    intros [?|(rev & ? & [[= -> ->]|?])]; [tauto|tauto|]. right. by exists rev.
  - apply andb_false_iff in Hb. rewrite negb_false_iff, contains_spec in Hb.
    split; [intros [?|(rev & ? & ?)]; [by left|right; exists rev; auto]|].
    intros [?|(rev & Hlt & [[= -> ->]|?])]; [by left| |right; by exists rev].
    destruct Hb as [Hb|?]; [bool_hyp; lia|by left].
Qed.

Lemma revoked_loop_nodup known revs : forall acc, NoDup acc -> NoDup (revoked_loop known revs acc).
Proof.
  induction revs as [|[r n] t IH]; intros acc Hnd; cbn [revoked_loop]; [done|].
  destruct (_ && _) eqn:Hb; [|by apply IH]. apply IH. bool_hyp.
  apply NoDup_app. split_and!; [done| |apply NoDup_singleton].
  intros x Hx Hc. apply list_elem_of_singleton in Hc as ->. apply contains_spec in Hx. congruence.
Qed.

(** What [w] keeps of the history [h], and why what it forgot is covered by
    the floor. *)
Record remembers (h : list (Z * string)) (w : Workspace) : Prop := {
  rm_bound : (length (Revocations w) <= MaxRetainedRevocations)%nat;
  rm_split : exists dropped, h = dropped ++ Revocations w /\
    Forall (fun e => fst e <= RevocationFloor w) dropped /\
    (RevocationFloor w = 0 \/ exists e, e ∈ dropped /\ fst e = RevocationFloor w);
  rm_floor : Forall (fun e => RevocationFloor w <= fst e) (Revocations w);
  rm_sorted : StronglySorted (fun a b => fst a <= fst b) (Revocations w);
  rm_latest : Forall (fun e => 0 <= fst e <= AuthzRevision w) h }.

Lemma trim_spec revs : forall floor,
  StronglySorted (fun a b => fst a <= fst b) revs -> Forall (fun e => floor <= fst e) revs ->
  let '(kept, floor') := trim_revocations revs floor in
  (length kept <= MaxRetainedRevocations)%nat /\
  (exists dropped, revs = dropped ++ kept /\ Forall (fun e => fst e <= floor') dropped /\
     ((dropped = [] /\ floor' = floor) \/ exists e, e ∈ dropped /\ fst e = floor')) /\
  Forall (fun e => floor' <= fst e) kept /\ StronglySorted (fun a b => fst a <= fst b) kept /\ floor <= floor'.
Proof.
  induction revs as [|[r n] t IH]; intros floor Hs Hf; cbn [trim_revocations].
  { split_and!; [cbn; lia| |done|done|lia]. exists []. split_and!; [done|done|by left]. }
  destruct (MaxRetainedRevocations <? length ((r, n) :: t))%nat eqn:Hb.
  - inversion Hs as [|? ? Hs' Hall]; subst. inversion Hf as [|? ? Hr Hf']; subst. cbn in Hr.
    specialize (IH r Hs' Hall). destruct (trim_revocations t r) as [kept floor'].
    destruct IH as (Hlen & (d & -> & Hd & He) & Hk & Hsk & Hle). split_and!; [done| |done|done|lia].
    exists ((r, n) :: d). split_and!; [done|by constructor|]. right.
    destruct He as [[-> ->]|(e & Hin & He)].
    + exists (r, n). split; [left|done].
    + exists e. split; [by right|done].
  - apply Nat.ltb_ge in Hb. split_and!; [done| |done|done|lia].
    exists []. split_and!; [done|done|by left].
Qed.

Lemma acl_remembers h w readers writers :
  0 <= AuthzRevision w -> AuthzRevision w + 1 < 2 ^ 64 -> remembers h w ->
  remembers (h ++ map (fun name => (u64 (AuthzRevision w + 1), name))
                    (revokedPrincipals (Spec w) readers writers (Owner w)))
    (acl_update readers writers w) /\
  AuthzRevision (acl_update readers writers w) = AuthzRevision w + 1.
Proof.
  intros H0 Hmax [Hb (d & -> & Hd & He) Hf Hs Hl]. unfold acl_update.
  rewrite !u64_small by lia. set (new := map _ _).
  assert (Forall (fun e => fst e = AuthzRevision w + 1) new) as Hnew.
  { apply Forall_map. by apply Forall_true. }
  apply Forall_app in Hl as [Hld Hlr].
  assert (Forall (fun e => RevocationFloor w <= fst e) (Revocations w ++ new)) as Hfloor.
  { apply Forall_app. split; [done|]. eapply Forall_impl; [exact Hnew|]. cbn. intros e ->.
    destruct He as [-> |(x & Hx & <-)]; [lia|]. rewrite Forall_forall in Hld. specialize (Hld x Hx). lia. }
  assert (StronglySorted (fun a b : Z * string => fst a <= fst b) (Revocations w ++ new)) as Hsort.
  { clear -Hs Hnew Hlr. induction Hs as [|x l Hs IH Hall]; cbn.
    - induction Hnew as [|x l Hx Hl IH]; constructor; [done|]. eapply Forall_impl; [exact Hl|]. cbn. intros. lia.
    - inversion Hlr; subst. constructor; [by apply IH|]. apply Forall_app. split; [done|].
      eapply Forall_impl; [exact Hnew|]. cbn. intros. lia. }
  pose proof (trim_spec _ (RevocationFloor w) Hsort Hfloor) as Ht.
  destruct (trim_revocations _ _) as [kept floor'] eqn:Etrim. destruct Ht as (Hlen & (d' & Hd' & Hdf & Hde) & Hk & Hsk & Hle).
  split; [|done]. split; cbn; [done| |done|done|].
  - exists (d ++ d'). rewrite <- !app_assoc, <- Hd'. split_and!; [done| |].
    + apply Forall_app. split; [|done]. eapply Forall_impl; [exact Hd|]. cbn. intros. lia.
    + destruct Hde as [[-> ->]|(e & Hin & Hfe)]; [rewrite app_nil_r; done|].
      right. exists e. split; [set_solver|done].
  - rewrite !Forall_app. split_and!; [eapply Forall_impl; [exact Hld|]|eapply Forall_impl; [exact Hlr|]|eapply Forall_impl; [exact Hnew|]];
      cbn; intros; lia.
Qed.

Lemma acl_run_remembers us : forall h w,
  0 <= AuthzRevision w -> AuthzRevision w + Z.of_nat (length us) < 2 ^ 64 -> remembers h w ->
  remembers (h ++ acl_history w us) (acl_run w us) /\
  AuthzRevision (acl_run w us) = AuthzRevision w + Z.of_nat (length us).
Proof.
  induction us as [|[r wr] us IH]; intros h w H0 Hmax Hr; cbn [acl_history acl_run foldl fst snd length].
  { rewrite app_nil_r. split; [done|lia]. }
  cbn [length] in Hmax. destruct (acl_remembers h w r wr) as [Hr' Hrev]; [lia|lia|done|].
  rewrite app_assoc. destruct (IH _ (acl_update r wr w) ltac:(lia) ltac:(lia) Hr') as [H1 H2].
  split; [exact H1|]. fold (acl_run (acl_update r wr w) us). lia.
Qed.

(** a node that reports the revision it enforces is told of every
    principal who lost access since, and of no one else, although only 64
    revocations are retained; when the history no longer reaches back it is
    told to reset, and only when a forgotten revocation really is newer than
    what it knows.  A change of the ACL revokes exactly the principals it
    removes, never the owner. *)
Theorem revocations_are_never_missed w us known :
  Revocations w = [] -> RevocationFloor w = 0 -> 0 <= AuthzRevision w -> 0 <= known ->
  AuthzRevision w + Z.of_nat (length us) < 2 ^ 64 ->
  (length (Revocations (acl_run w us)) <= 64)%nat /\
  AuthzRevision (acl_run w us) = AuthzRevision w + Z.of_nat (length us) /\
  match revokedSince (acl_run w us) known with
  | (l, false) => NoDup l /\ forall p, p ∈ l <-> exists rev, known < rev /\ (rev, p) ∈ acl_history w us
  | (_, true) => exists rev p, known < rev /\ (rev, p) ∈ acl_history w us
  end /\
  (forall readers writers p, p ∈ revokedPrincipals (Spec w) readers writers (Owner w) <->
     p ∈ Readers (Spec w) ++ Writers (Spec w) /\ p <> Owner w /\ p ∉ readers /\ p ∉ writers).
Proof.
  intros Hr Hf H0 Hk Hmax.
  destruct (acl_run_remembers us [] w H0 Hmax) as [[Hb (d & Hd & Hdf & He) _ _ _] Hrev].
  { split; rewrite ?Hr, ?Hf; cbn; [lia| |done|constructor|done]. exists []. split_and!; [done|done|by left]. }
  split_and!; [done|done| |].
  - unfold revokedSince. cbn in Hd. destruct (known <? _) eqn:Hlt; bool_hyp.
    + destruct He as [He|([rev p] & Hin & He)]; [lia|]. exists rev, p. cbn in He. rewrite Hd. split; [lia|set_solver].
    + split; [apply revoked_loop_nodup, NoDup_nil_2|]. intros p. rewrite revoked_loop_spec, Hd.
      split; [intros [Hc|(rev & ? & ?)]; [by apply not_elem_of_nil in Hc|exists rev; set_solver]|].
      intros (rev & Hlt' & Hin). right. exists rev. split; [done|]. apply elem_of_app in Hin as [Hin|?]; [|done].
      rewrite Forall_forall in Hdf. specialize (Hdf _ Hin). cbn in Hdf. lia.
  - intros readers writers p. unfold revokedPrincipals. rewrite revoked_principals_loop_spec.
    split; [by intros [Hc%not_elem_of_nil|?]|by right].
Qed.

(** ** Retries *)

Lemma retry_delay_closed f : 0 <= f <= 16 -> retry_delay f = Z.min (30 * Second) (2 ^ f * Second).
Proof.
  intros Hf.
  assert (forallb (fun f => retry_delay f =? Z.min (30 * Second) (2 ^ f * Second)) (map Z.of_nat (seq 0 17)) = true)
    as Hall by (vm_compute; reflexivity).
  rewrite forallb_forall in Hall. apply Z.eqb_eq, Hall, in_map_iff. exists (Z.to_nat f). rewrite in_seq. lia.
Qed.

(** The failure counter of a workspace that was never held back is zero. *)
Definition retry_count (c : Control) (id : string) : Z := failures (default (mkRetry 0 0) (retries c !! id)).

Lemma holdBack_spec now id c :
  0 <= retry_count c id <= 16 ->
  let '(delay, c') := holdBackLocked now id c in
  delay = Z.min (30 * Second) (2 ^ retry_count c id * Second) /\
  retries c' !! id = Some (mkRetry (Z.min 16 (retry_count c id + 1)) (unixMilli (now + delay))) /\
  retry_count c' id = Z.min 16 (retry_count c id + 1).
Proof.
  intros Hf. unfold holdBackLocked, retry_count in *. cbv zeta. rewrite retry_delay_closed by done.
  set (f := failures (default (mkRetry 0 0) (retries c !! id))) in *.
  cbn [set_retries retries]. rewrite lookup_insert_eq. cbn.
  assert ((if f <? 16 then f + 1 else f) = Z.min 16 (f + 1)) as -> by (destruct (f <? 16) eqn:Hb; bool_hyp; lia).
  done.
Qed.

(** [n] failed materializations in a row, at the given times. *)
Fixpoint hold_run (id : string) (times : list Z) (c : Control) : list Z * Control :=
  match times with
  | [] => ([], c)
  | t :: rest =>
      let '(d, c1) := holdBackLocked t id c in
      let '(ds, c2) := hold_run id rest c1 in (d :: ds, c2)
  end.

Lemma hold_run_spec id times : forall c,
  0 <= retry_count c id <= 16 ->
  fst (hold_run id times c)
  = map (fun k => Z.min (30 * Second) (2 ^ Z.min 16 (retry_count c id + Z.of_nat k) * Second))
      (seq 0 (length times)).
Proof.
  induction times as [|t rest IH]; intros c Hf; [done|]. cbn [hold_run length seq map].
  pose proof (holdBack_spec t id c Hf) as Hs. destruct (holdBackLocked t id c) as [d c1].
  destruct Hs as (-> & _ & Hc). specialize (IH c1 ltac:(lia)). rewrite Hc in IH.
  destruct (hold_run id rest c1) as [ds c2]. cbn [fst] in *. rewrite IH, <- seq_shift, map_map. f_equal.
  - do 3 f_equal. lia.
  - apply map_ext. intros k. do 3 f_equal. lia.
Qed.

Lemma hold_run_count id times : forall c,
  0 <= retry_count c id <= 16 -> 0 <= retry_count (snd (hold_run id times c)) id <= 16.
Proof.
  induction times as [|t ts IH]; intros c Hc; [done|]. cbn [hold_run].
  pose proof (holdBack_spec t id c Hc) as Hs. destruct (holdBackLocked t id c) as [d c2].
  destruct Hs as (_ & _ & Hc2). specialize (IH c2 ltac:(lia)). by destruct (hold_run id ts c2).
Qed.

(** after the k-th failed materialization in a row a workspace is
    held out of placement for [2^(k-1)] seconds, never less than one second
    nor more than thirty, until the recorded instant; the counter stops at 16,
    so the shift never overflows. *)
Theorem materialize_retries_back_off c id times :
  retries c !! id = None ->
  fst (hold_run id times c)
    = map (fun k => Z.min (30 * Second) (2 ^ Z.min 16 (Z.of_nat k) * Second)) (seq 0 (length times)) /\
  Forall (fun d => Second <= d <= 30 * Second) (fst (hold_run id times c)) /\
  0 <= retry_count (snd (hold_run id times c)) id <= 16.
Proof.
  intros Hn. assert (retry_count c id = 0) as H0 by (unfold retry_count; by rewrite Hn).
  assert (fst (hold_run id times c)
    = map (fun k => Z.min (30 * Second) (2 ^ Z.min 16 (Z.of_nat k) * Second)) (seq 0 (length times))) as He.
  { rewrite hold_run_spec by lia. rewrite H0. by apply map_ext. }
  split_and!; [exact He| | |].
  - rewrite He. apply Forall_map, Forall_true. intros k. cbn.
    pose proof (Z.pow_pos_nonneg 2 (Z.min 16 (Z.of_nat k)) ltac:(lia) ltac:(lia)). unfold Second. lia.
  - apply hold_run_count. lia.
  - apply hold_run_count. lia.
Qed.

(** What a later start of the workspace restores from is what it was. *)
Definition same_restore_source (w w' : Workspace) : Prop :=
  LastSnapshot w' = LastSnapshot w /\ Spec w' = Spec w.

(** a node that gives a workspace back while it holds it and names
    the snapshot it took is acknowledged, and the snapshot is not recorded:
    neither the last snapshot nor the restore source of the row changes,
    because the row written is taken from the transition of the old one. *)
Theorem released_snapshot_is_not_recorded verify now tx node req c w w' c' :
  workspaces c !! RelID req = Some w -> held (State w) = true ->
  wsReleased verify now tx node req c = (Ok w', c') ->
  State w' = WSPending /\ same_restore_source w w'.
Proof.
  intros Hl Hh. unfold wsReleased. destruct (NormalizeArtifactFormat _) as [format|]; [|done].
  set (v := if _ <>s _ then verify else None). cbv zeta.
  assert (forall c0 n0, commitWS c0 (set_LeaseUntil 0 (set_Node EmptyString (set_State WSPending w))) tx = (Ok w', n0) ->
    State w' = WSPending /\ same_restore_source w w') as Hc.
  { intros c0 n0. unfold commitWS, persistWS. destruct tx; [|done]. by intros [= <- _]. }
  unfold with_ws, with_transition. rewrite Hl.
  destruct v as [[l|e]|]; [|done|];
    (repeat (step_if; [done|]);
     match goal with |- context [if held (State (if ?b then ?x else ?y)) then _ else _] =>
       replace (held (State (if b then x else y))) with true by (by destruct b) end;
     destruct (transitionWorkspace _ _) as [next|] eqn:Ht; [|done];
     apply transition_ok in Ht as (-> & _); apply Hc).
Qed.

(** *** A destroy and an approval *)

(** when an approval that remembers its host put a copy of the workspace in
    the map while the node prepared the destroy, the destroy answers success
    and its row is destroyed, while the process keeps publishing the
    destroying copy with its node: memory and row differ until a restart. *)
Theorem destroy_misses_a_replaced_workspace c id w t :
  workspaces c !! id = Some w -> ID w = id -> State w = WSDestroying ->
  exists w' c', destroy_commit_replaced w (Some t) (Generation w) true c = (Ok w', c') /\
    State w' = WSDestroyed /\ rows c' !! id = Some w' /\ workspaces c' !! id = Some w.
Proof.
  intros Hl Hid Hs. unfold destroy_commit_replaced, destroyed_row, is_state.
  rewrite Z.eqb_refl, Hs, bool_decide_true by done. cbn [negb andb orb].
  assert (transitionWorkspace (Some w)
    (mkTransition transitionDestroyCommit actorControl WSDestroyed (Some (Generation w)) None)
    = Ok (set_State WSDestroyed w)) as ->.
  { unfold transitionWorkspace. cbn. rewrite Hs. cbn. by rewrite Z.eqb_refl. }
  eexists _, _. cbn. split_and!; [done|done| |done]. rewrite Hid. apply lookup_insert_eq.
Qed.

(** ** Witnesses *)

Definition ex_o : Options := mkOptions 30 60.
Definition ex_el (w : Workspace) (node : string) : option string := Some "docker"%string.
Definition ex_spec : WorkspaceSpec := mkSpec "" "" [] "" "ann" ["bob"%string] [].
Definition ex_c0 : Control := mkControl ∅ ∅ ∅ ∅ ∅ 1.

(** A claim, its lease expiring, a claim whose transaction fails, the next
    claim by another node, the pruning of the first assignment, and a restart. *)
Definition ex_rs : list request :=
  [RCreate 0 (Some 0) "ws1" "acme" "ann" ex_spec; RClaim 0 (Some 0) "n1" "ws1";
   RTick [("ws1"%string, Some 0)] 100000; RClaim 0 None "n1" "ws1"; RClaim 0 (Some 0) "n2" "ws1";
   RPrune (mkPruning 1 [] (fun _ => false) (fun _ => true) (fun _ => true)) true; RRestart 0 0].

Definition ex_c : Control := Eval vm_compute in run ex_o ex_el ex_c0 ex_rs.

Lemma ex_fresh : fresh ex_c0.
Proof. by split_and!. Qed.

Lemma ex_run_ok : run_ok ∅ ex_rs.
Proof. repeat split; first [discriminate | apply not_elem_of_empty]. Qed.

Lemma ex_run_reachable : reachable ex_o ex_el {["ws1"%string]} ex_c.
Proof.
  exists ex_c0, ex_rs. split_and!; [apply ex_fresh|apply ex_run_ok|vm_compute; reflexivity|].
  vm_compute. reflexivity.
Qed.

Lemma one_holder_per_generation_witness :
  grants ex_o ex_el ex_c0 ex_rs = [("ws1"%string, 1, "n1"%string); ("ws1"%string, 3, "n2"%string)] /\
  assignments (run ex_o ex_el ex_c0 ex_rs) !! ("ws1"%string, 1) = None /\
  assignments (run ex_o ex_el ex_c0 ex_rs) !! ("ws1"%string, 3) = Some "n2"%string.
Proof.
  assert (grants ex_o ex_el ex_c0 ex_rs = [("ws1"%string, 1, "n1"%string); ("ws1"%string, 3, "n2"%string)]) as Hg
    by (vm_compute; reflexivity).
  split_and!; [exact Hg|vm_compute; reflexivity|].
  destruct (workspaces (run ex_o ex_el ex_c0 ex_rs) !! "ws1"%string) as [w|] eqn:Hw; [|vm_compute in Hw; discriminate].
  apply (one_holder_per_generation ex_o ex_el ex_c0 ex_rs "ws1" 3 "n2" "n2") with (w := w);
    [apply ex_fresh|apply ex_run_ok|rewrite Hg; right; left|rewrite Hg; right; left|exact Hw|..];
    vm_compute in Hw; injection Hw as <-; [reflexivity|discriminate].
Defined.


Definition ex_w : Workspace :=
  Eval vm_compute in default (mkWorkspace "" "" "" WSPending "" 0 0 0 "" "" [] ex_spec 0 "" 0 [] 0)
    (workspaces ex_c !! "ws1"%string).

Lemma lifecycle_is_monotone_witness :
  3 <= Generation (default ex_w (workspaces (run ex_o ex_el ex_c [RPeerGone [] 0 "n2"]) !! "ws1"%string)).
Proof.
  destruct (workspaces (run ex_o ex_el ex_c [RPeerGone [] 0 "n2"]) !! "ws1"%string) as [w|] eqn:Hw;
    [|vm_compute in Hw; discriminate].
  apply (lifecycle_is_monotone ex_o ex_el {["ws1"%string]} ex_c [RPeerGone [] 0 "n2"] "ws1" ex_w w);
    [apply ex_run_reachable|by repeat split|vm_compute; reflexivity|exact Hw].
Defined.

Definition ex_renew : WSRenewReq :=
  mkRenewReq [("ws1"%string, Some 0); ("ws2"%string, Some 0)] {["ws1"%string := 3]} 1 ∅.

Definition ex_results : list WSRenewResult :=
  Eval vm_compute in match fst (wsRenew ex_o 0 0 "n2" ex_renew ex_c) with Ok l => l | Err _ => [] end.

Lemma renewal_only_for_the_current_holder_witness :
  map answer ex_results
  = [("ws1"%string, 3, true, true); ("ws2"%string, 0, false, false)].
Proof.
  rewrite (proj1 (renewal_only_for_the_current_holder ex_o ex_el _ ex_c "n2" ex_renew 0 0 ex_results
             ex_run_reachable eq_refl)).
  vm_compute. reflexivity.
Defined.

Lemma restart_preserves_authority_witness :
  exists c', restart ex_o 0 0 ex_c = Some c' /\ rows c' = workspaces c'.
Proof.
  destruct (restart_preserves_authority ex_o ex_el _ ex_c 0 0 ex_run_reachable) as (c' & H1 & H2 & _).
  exists c'. split; [exact H1|exact H2].
Defined.

Definition ex_destroying : Workspace := set_State WSDestroying ex_w.

Lemma destroy_misses_a_replaced_workspace_witness :
  exists c', rows c' !! "ws1"%string <> workspaces c' !! "ws1"%string.
Proof.
  destruct (destroy_misses_a_replaced_workspace (set_workspaces (<["ws1"%string := ex_destroying]>) ex_c) "ws1"
              ex_destroying 0) as (w' & c' & _ & Hs & Hr & Hw); [vm_compute; reflexivity..|].
  exists c'. rewrite Hr, Hw. intros [= ->]. discriminate Hs.
Defined.

Lemma revocations_are_never_missed_witness :
  AuthzRevision (acl_run ex_w [([], []); (["eve"%string], [])]) = 3 /\
  revokedSince (acl_run ex_w [([], []); (["eve"%string], [])]) 1 = (["bob"%string], false).
Proof.
  split; [|vm_compute; reflexivity].
  apply (revocations_are_never_missed ex_w [([], []); (["eve"%string], [])] 1);
    first [reflexivity | vm_compute; congruence].
Defined.

Lemma materialize_retries_back_off_witness :
  fst (hold_run "ws1" [0; 0; 0; 0; 0; 0] ex_c)
  = [Second; 2 * Second; 4 * Second; 8 * Second; 16 * Second; 30 * Second].
Proof.
  rewrite (proj1 (materialize_retries_back_off ex_c "ws1" [0; 0; 0; 0; 0; 0] eq_refl)). vm_compute. reflexivity.
Defined.

Definition ex_released : result Code Workspace * Control :=
  Eval vm_compute in
  wsReleased None 0 (Some 0) "n2" (mkReleasedReq "ws1" 3 "sha256:abc" "tar" false) ex_c.

Lemma released_snapshot_is_not_recorded_witness :
  match fst ex_released with Ok w' => LastSnapshot w' = EmptyString | Err _ => False end.
Proof.
  destruct ex_released as [[w'|e] c'] eqn:He; [|vm_compute in He; discriminate He].
  change (LastSnapshot w' = LastSnapshot ex_w).
  apply (released_snapshot_is_not_recorded None 0 (Some 0) "n2"
           (mkReleasedReq "ws1" 3 "sha256:abc" "tar" false) ex_c ex_w w' c');
    [vm_compute; reflexivity|reflexivity|].
  rewrite <- He. vm_compute. reflexivity.
Defined.
End ControlProofs.
