(* ===== verification/EventStore.v ===== *)
(** * The event stores

    Translation of the store half of [src/internal/eventlog/eventlog.go]: the
    in-memory store of a node and the SQLite store of the control plane, as
    two instances of one interface.  [StoreLaws] states what the rest of the
    event log relies on; both stores are proved to satisfy it, and the theorems
    about subscriptions and exports are proved against it.

    The SQLite store is its three tables; a statement is a function of the
    tables.  Each call takes a [db_io]: the error the database answers with,
    if any, and how many row ids failed inserts used up before this one
    (SQLite may skip ids under AUTOINCREMENT but never reuses one). *)

From Stdlib Require Import ZArith Lia Strings.Byte Strings.String.
From stdpp Require Import base gmap strings option sorting list.
From S2P Require Import Prelude.
#[local] Open Scope Z_scope.

Module EventStore.

(** ** Events: [proto.Event] *)

Record Event := mkEvent {
  Seq : Z; At : Z; Stream : string; Principal : string; Node : string; EventID : string;
  ReceivedAt : Z; ObservedAt : Z; Origin : string; Actor : string; Tenant : string;
  Workspace : string; Generation : Z; ControllerEpoch : Z; Session : string;
  OperationID : string; ProducerSeq : Z; Type_ : string; Payload : list byte; Cause : Z }.

#[export] Instance Event_eq_dec : EqDecision Event.
Proof. solve_decision. Defined.

Definition set_Seq (n : Z) (e : Event) : Event :=
  mkEvent n (At e) (Stream e) (Principal e) (Node e) (EventID e) (ReceivedAt e) (ObservedAt e) (Origin e)
    (Actor e) (Tenant e) (Workspace e) (Generation e) (ControllerEpoch e) (Session e) (OperationID e)
    (ProducerSeq e) (Type_ e) (Payload e) (Cause e).
Definition set_At (t : Z) (e : Event) : Event :=
  mkEvent (Seq e) t (Stream e) (Principal e) (Node e) (EventID e) (ReceivedAt e) (ObservedAt e) (Origin e)
    (Actor e) (Tenant e) (Workspace e) (Generation e) (ControllerEpoch e) (Session e) (OperationID e)
    (ProducerSeq e) (Type_ e) (Payload e) (Cause e).
Definition set_Payload (p : list byte) (e : Event) : Event :=
  mkEvent (Seq e) (At e) (Stream e) (Principal e) (Node e) (EventID e) (ReceivedAt e) (ObservedAt e) (Origin e)
    (Actor e) (Tenant e) (Workspace e) (Generation e) (ControllerEpoch e) (Session e) (OperationID e)
    (ProducerSeq e) (Type_ e) p (Cause e).

(** The deterministic CBOR of the one-entry map
    [{"remount_redacted": "tenant_retention"}]. *)
Definition redactedPayload : list byte :=
  [xa1; x70] ++ list_byte_of_string "remount_redacted" ++ [x70] ++ list_byte_of_string "tenant_retention".

Definition redactionBound (tenant : string) (limit : Z) : result string Z :=
  if (tenant =s "") || (tenant =s "*") then Err "redaction requires an exact tenant"%string
  else Ok (if limit <=? 0 then 10000 else limit).

Record db_io := mkIO { io_error : option string; io_skip : nat }.

(** [Store] of eventlog.go. *)
Class Store (S : Type) := {
  Append : db_io -> Event -> S -> result string Event * S;
  Read : db_io -> Z -> string -> Z -> S -> result string (list Event);
  First : db_io -> S -> result string Z;
  Last : db_io -> S -> result string Z;
  Prune : db_io -> Z -> Z -> S -> result string Z * S;
  PruneSize : db_io -> Z -> Z -> S -> result string Z * S;
  RedactTenant : db_io -> string -> Z -> Z -> S -> result string Z * S }.

(** ** The memory store *)

Record Memory := mkMemory { events : list Event; first : Z; next : Z; max : Z }.

Definition NewMemory (max : Z) : Memory := mkMemory [] 1 1 max.

Definition Memory_Reset (seq : Z) (m : Memory) : Memory :=
  let seq := if seq <? 1 then 1 else seq in mkMemory [] seq seq (max m).

Definition Memory_Append (_ : db_io) (e : Event) (m : Memory) : result string Event * Memory :=
  let e := set_Seq (next m) e in
  let evs := events m ++ [e] in
  let len := Z.of_nat (length evs) in
  if (0 <? max m) && (max m <? len) then
    let drop_ := len - max m in
    (Ok e, mkMemory (drop (Z.to_nat drop_) evs) (u64 (first m + drop_)) (u64 (next m + 1)) (max m))
  else (Ok e, mkMemory evs (first m) (u64 (next m + 1)) (max m)).

(** The loop of [Read] from an index on. *)
Fixpoint read_loop (stream : string) (limit : Z) (evs : list Event) (out : list Event) : list Event :=
  match evs with
  | [] => out
  | e :: t =>
      if (stream <>s "") && (Stream e <>s stream) then read_loop stream limit t out
      else
        let out := out ++ [e] in
        if (0 <? limit) && (limit <=? Z.of_nat (length out)) then out else read_loop stream limit t out
  end.

(** An index that does not fit in an [int] is negative and panics. *)
Definition Memory_Read (_ : db_io) (from : Z) (stream : string) (limit : Z) (m : Memory)
  : result string (list Event) :=
  let from := if from <? first m then first m else from in
  if next m <=? from then Ok []
  else
    let i := i64 (u64 (from - first m)) in
    if i <? 0 then Err "index out of range"%string
    else Ok (read_loop stream limit (drop (Z.to_nat i) (events m)) []).

Definition Memory_Last (_ : db_io) (m : Memory) : result string Z := Ok (u64 (next m - 1)).
Definition Memory_First (_ : db_io) (m : Memory) : result string Z := Ok (first m).

Fixpoint prune_count (before limit : Z) (evs : list Event) (remove : Z) : Z :=
  match evs with
  | [] => remove
  | e :: t => if (remove <? limit) && (At e <? before) then prune_count before limit t (remove + 1) else remove
  end.

Definition Memory_remove (n : Z) (m : Memory) : Memory :=
  mkMemory (drop (Z.to_nat n) (events m)) (u64 (first m + n)) (next m) (max m).

Definition Memory_Prune (_ : db_io) (before limit : Z) (m : Memory) : result string Z * Memory :=
  let limit := if limit <=? 0 then Z.of_nat (length (events m)) else limit in
  let remove := prune_count before limit (events m) 0 in
  if remove =? 0 then (Ok 0, m) else (Ok remove, Memory_remove remove m).

Definition Memory_PruneSize (_ : db_io) (max limit : Z) (m : Memory) : result string Z * Memory :=
  if max <? 0 then (Err "maximum event count cannot be negative"%string, m)
  else
    let remove := Z.of_nat (length (events m)) - max in
    if remove <=? 0 then (Ok 0, m)
    else
      let remove := if (0 <? limit) && (limit <? remove) then limit else remove in
      (Ok remove, Memory_remove remove m).

Definition redactable (tenant : string) (before : Z) (e : Event) : bool :=
  negb ((Tenant e <>s tenant) || (before <=? At e) || (length (Payload e) =? 0)%nat
        || bool_decide (Payload e = redactedPayload)).

(** The loop of [RedactTenant]; [redacted] counts the events changed so far. *)
Fixpoint redact_loop (tenant : string) (before limit : Z) (evs : list Event) (redacted : Z)
  : list Event * Z :=
  match evs with
  | [] => ([], redacted)
  | e :: t =>
      if limit <=? redacted then (evs, redacted)
      else if redactable tenant before e then
        let '(t', n) := redact_loop tenant before limit t (redacted + 1) in
        (set_Payload redactedPayload e :: t', n)
      else
        let '(t', n) := redact_loop tenant before limit t redacted in (e :: t', n)
  end.

Definition Memory_RedactTenant (_ : db_io) (tenant : string) (before limit : Z) (m : Memory)
  : result string Z * Memory :=
  match redactionBound tenant limit with
  | Err e => (Err e, m)
  | Ok limit =>
      let '(evs, n) := redact_loop tenant before limit (events m) 0 in
      (Ok n, mkMemory evs (first m) (next m) (max m))
  end.

#[export] Instance Memory_Store : Store Memory := {
  Append := Memory_Append; Read := Memory_Read; First := Memory_First; Last := Memory_Last;
  Prune := Memory_Prune; PruneSize := Memory_PruneSize; RedactTenant := Memory_RedactTenant }.

(** ** The SQLite store *)

(** The tables [events] (in the order of its primary key), [sqlite_sequence]
    (the row of [events]) and [event_producers]. *)
Record SQLite := mkSQLite { rows : list Event; sequence : option Z; producers : gmap string Z }.

Definition OpenEmpty : SQLite := mkSQLite [] None ∅.

(** The unique index [events_origin_id]. *)
Definition duplicate_id (e : Event) (l : list Event) : bool :=
  (EventID e <>s "") && existsb (fun r => (Origin r =s Origin e) && (EventID r =s EventID e)) l.

Definition insertEvent (io : db_io) (e : Event) (s : SQLite) : result string Event * SQLite :=
  match io_error io with
  | Some err => (Err err, s)
  | None =>
      let id := default 0 (sequence s) + 1 + Z.of_nat (io_skip io) in
      if maxInt64 <? id then (Err "database or disk is full"%string, s)
      else if duplicate_id e (rows s) then (Err "constraint failed"%string, s)
      else (Ok (set_Seq id e), mkSQLite (rows s ++ [set_Seq id e]) (Some id) (producers s))
  end.

Definition SQLite_Append := insertEvent.

Definition with_db {A} (io : db_io) (k : result string A) : result string A :=
  match io_error io with Some err => Err err | None => k end.

Definition SQLite_Read (io : db_io) (from : Z) (stream : string) (limit : Z) (s : SQLite)
  : result string (list Event) :=
  let limit := if limit <=? 0 then 1000 else limit in
  with_db io (Ok (take (Z.to_nat limit)
    (if stream =s "" then filter (fun e => from <= Seq e) (rows s)
     else filter (fun e => from <= Seq e /\ Stream e = stream) (rows s)))).

Definition max_seq (l : list Event) : option Z :=
  foldr (fun e m => Some (match m with Some x => Z.max (Seq e) x | None => Seq e end)) None l.
Definition min_seq (l : list Event) : option Z :=
  foldr (fun e m => Some (match m with Some x => Z.min (Seq e) x | None => Seq e end)) None l.

Definition SQLite_Last (io : db_io) (s : SQLite) : result string Z :=
  with_db io (Ok (match max_seq (rows s) with Some n => n | None => default 0 (sequence s) end)).

Definition SQLite_First (io : db_io) (s : SQLite) : result string Z :=
  with_db io (Ok (match min_seq (rows s) with
                  | Some n => n
                  | None => match sequence s with Some n => n + 1 | None => 1 end
                  end)).

(** The upsert of both retention passes: the highest sequence each node's
    producer has used outlives the rows. *)
Definition keep_producer (p : gmap string Z) (e : Event) : gmap string Z :=
  if (Origin e =s "node") && (Node e <>s "") && (0 <? ProducerSeq e) then
    <[Node e := match p !! Node e with Some n => Z.max n (ProducerSeq e) | None => ProducerSeq e end]> p
  else p.
Definition keep_producers (s : SQLite) : gmap string Z := foldl keep_producer (producers s) (rows s).

(** [DELETE FROM events WHERE seq IN (...)] *)
Definition delete_rows (victims : list Event) (l : list Event) : list Event :=
  filter (fun e => Seq e ∉ map Seq victims) l.

Definition SQLite_Prune (io : db_io) (before limit : Z) (s : SQLite) : result string Z * SQLite :=
  let limit := if limit <=? 0 then 10000 else limit in
  match io_error io with
  | Some err => (Err err, s)
  | None =>
      let bound := default maxInt64 (min_seq (filter (fun e => before <= At e) (rows s))) in
      let victims := take (Z.to_nat limit) (filter (fun e => Seq e < bound) (rows s)) in
      (Ok (Z.of_nat (length victims)),
       mkSQLite (delete_rows victims (rows s)) (sequence s) (keep_producers s))
  end.

Definition SQLite_PruneSize (io : db_io) (max limit : Z) (s : SQLite) : result string Z * SQLite :=
  if max <? 0 then (Err "maximum event count cannot be negative"%string, s)
  else
    let limit := if limit <=? 0 then 10000 else limit in
    match io_error io with
    | Some err => (Err err, s)
    | None =>
        let remove := Z.of_nat (length (rows s)) - max in
        if remove <=? 0 then (Ok 0, mkSQLite (rows s) (sequence s) (keep_producers s))
        else
          let remove := if limit <? remove then limit else remove in
          let victims := take (Z.to_nat remove) (rows s) in
          (Ok (Z.of_nat (length victims)),
           mkSQLite (delete_rows victims (rows s)) (sequence s) (keep_producers s))
    end.

Definition SQLite_RedactTenant (io : db_io) (tenant : string) (before limit : Z) (s : SQLite)
  : result string Z * SQLite :=
  match redactionBound tenant limit with
  | Err e => (Err e, s)
  | Ok limit =>
      match io_error io with
      | Some err => (Err err, s)
      | None =>
          let victims := take (Z.to_nat limit)
            (filter (fun e => Tenant e = tenant /\ At e < before /\ (0 < length (Payload e))%nat
                              /\ Payload e <> redactedPayload) (rows s)) in
          (Ok (Z.of_nat (length victims)),
           mkSQLite (map (fun e => if bool_decide (Seq e ∈ map Seq victims)
                                   then set_Payload redactedPayload e else e) (rows s))
             (sequence s) (producers s))
      end
  end.

#[export] Instance SQLite_Store : Store SQLite := {
  Append := SQLite_Append; Read := SQLite_Read; First := SQLite_First; Last := SQLite_Last;
  Prune := SQLite_Prune; PruneSize := SQLite_PruneSize; RedactTenant := SQLite_RedactTenant }.

(** ** What the log relies on *)

Definition wants (stream : string) (e : Event) : bool := (stream =s "") || (Stream e =s stream).

(** What a reader asks for: the events of a stream from a sequence number on. *)
Definition selects (stream : string) (from : Z) (e : Event) : Prop :=
  from <= Seq e /\ wants stream e = true.
#[export] Instance selects_dec stream from e : Decision (selects stream from e).
Proof. unfold selects. apply _. Defined.

Definition before (a b : Event) : Prop := Seq a < Seq b.

(** [l] holds the newest of the events numbered up to [n], in order. *)
Record log_ok (l : list Event) (n : Z) : Prop := mkLogOk {
  ok_sorted : StronglySorted before l;
  ok_range : forall e, e ∈ l -> 0 < Seq e <= n;
  ok_newest : forall e, last l = Some e -> Seq e = n;
  ok_bound : 0 <= n <= maxInt64 }.

(** The oldest sequence number still available. *)
Definition oldest (l : list Event) (n : Z) : Z := match l with [] => n + 1 | e :: _ => Seq e end.

(** An event as it was appended, or with its content removed. *)
Definition redacted_of (e e' : Event) : Prop := e' = e \/ e' = set_Payload redactedPayload e.

Class StoreLaws (S : Type) `{Store S} := {
  wf : S -> Prop;
  retained : S -> list Event;
  assigned : S -> Z;
  wf_log s : wf s -> log_ok (retained s) (assigned s);
  Append_law io e s : wf s -> assigned s < maxInt64 ->
    match Append io e s with
    | (Err _, s') => s' = s
    | (Ok e', s') =>
        exists k, wf s' /\ assigned s < assigned s' <= maxInt64 /\ e' = set_Seq (assigned s') e /\
          retained s' = drop k (retained s ++ [e'])
    end;
  Read_law io from stream limit s : wf s -> 0 < limit -> 0 <= from <= maxInt64 + 1 ->
    match Read io from stream limit s with
    | Ok l => l = take (Z.to_nat limit) (filter (selects stream from) (retained s))
    | Err err => io_error io = Some err
    end;
  First_law io s : wf s ->
    match First io s with
    | Ok n => n = oldest (retained s) (assigned s)
    | Err err => io_error io = Some err
    end;
  Last_law io s : wf s ->
    match Last io s with Ok n => n = assigned s | Err err => io_error io = Some err end;
  Prune_law io t n s : wf s ->
    exists k, let s' := snd (Prune io t n s) in
      wf s' /\ assigned s' = assigned s /\ retained s' = drop k (retained s);
  PruneSize_law io m n s : wf s ->
    exists k, let s' := snd (PruneSize io m n s) in
      wf s' /\ assigned s' = assigned s /\ retained s' = drop k (retained s);
  Redact_law io tenant t n s : wf s ->
    let s' := snd (RedactTenant io tenant t n s) in
      wf s' /\ assigned s' = assigned s /\ Forall2 redacted_of (retained s) (retained s') }.

(** ** Lemmas on ordered logs *)

Lemma wants_spec stream e : wants stream e = true <-> stream = EmptyString \/ Stream e = stream.
Proof. unfold wants. rewrite orb_true_iff, !str_eqb_eq. done. Qed.

Lemma sorted_drop k l : StronglySorted before l -> StronglySorted before (drop k l).
Proof.
  revert l. induction k as [|k IH]; intros [|a l]; try done. inversion 1; subst. cbn. by apply IH.
Qed.

Lemma sorted_snoc l e : StronglySorted before l -> (forall a, a ∈ l -> Seq a < Seq e) ->
  StronglySorted before (l ++ [e]).
Proof.
  induction l as [|a l IH]; cbn; intros Hs He; [repeat constructor|].
  inversion Hs as [|? ? Hl Ha]; subst. constructor.
  - apply IH; [done|]. intros b Hb. apply He. by right.
  - apply List.Forall_app. split; [done|]. repeat constructor. apply He. left.
Qed.

Lemma sorted_head a l : StronglySorted before (a :: l) -> forall b, b ∈ l -> Seq a < Seq b.
Proof. inversion 1 as [|? ? _ Hf]; subst. rewrite Forall_forall in Hf. intros b Hb. by apply Hf. Qed.

Lemma oldest_le l n e : log_ok l n -> e ∈ l -> oldest l n <= Seq e.
Proof.
  intros [Hs _ _ _] He. destruct l as [|a l]; [by apply not_elem_of_nil in He|].
  cbn. apply elem_of_cons in He as [->|He]; [lia|].
  pose proof (sorted_head a l Hs e He). lia.
Qed.

Lemma oldest_drop l n k : log_ok l n -> oldest l n <= oldest (drop k l) n.
Proof.
  intros Hok. destruct (drop k l) as [|e t] eqn:E.
  - cbn. destruct l as [|a l]; cbn; [lia|]. pose proof (ok_range _ _ Hok a ltac:(left)). lia.
  - cbn. eapply oldest_le; [done|].
    rewrite <- (take_drop k l), E. apply elem_of_app. right. left.
Qed.

Lemma log_ok_drop l n k : log_ok l n -> log_ok (drop k l) n.
Proof.
  intros [Hs Hr Hn Hb]. split; [by apply sorted_drop| | |done].
  - intros e He. apply Hr. rewrite <- (take_drop k l). apply elem_of_app. by right.
  - intros e He. apply Hn. rewrite <- (take_drop k l).
    rewrite last_app, He. done.
Qed.

Lemma log_ok_snoc l n e : log_ok l n -> n < Seq e <= maxInt64 -> log_ok (l ++ [e]) (Seq e).
Proof.
  intros [Hs Hr Hn Hb] He. split.
  - apply sorted_snoc; [done|]. intros a Ha. specialize (Hr a Ha). lia.
  - intros a Ha. apply elem_of_app in Ha as [Ha%Hr|Ha]; [lia|].
    apply list_elem_of_singleton in Ha as ->. lia.
  - intros a. rewrite last_snoc. by intros [= ->].
  - lia.
Qed.

Lemma redacted_seq l l' : Forall2 redacted_of l l' -> map Seq l = map Seq l'.
Proof. induction 1 as [|a b l l' [->| ->] _ IH]; cbn; congruence. Qed.

Lemma redacted_refl l : Forall2 redacted_of l l.
Proof. induction l; constructor; [by left|done]. Qed.

Lemma redacted_trans l m n : Forall2 redacted_of l m -> Forall2 redacted_of m n -> Forall2 redacted_of l n.
Proof.
  intros Hl. revert n. induction Hl as [|a b l m Hab _ IH]; intros n Hm; inversion Hm as [|? c ? n' Hbc Hn]; subst;
    constructor; [|by apply IH].
  destruct Hab as [->| ->], Hbc as [->| ->]; ((by left) || by right).
Qed.

Lemma seq_shared l l' e : map Seq l = map Seq l' -> e ∈ l' -> exists d, Seq d = Seq e /\ d ∈ l.
Proof.
  intros Hm He. assert (Seq e ∈ Seq <$> l) as (d & Hd & Hin)%list_elem_of_fmap.
  { change (Seq <$> l) with (map Seq l). rewrite Hm. by apply list_elem_of_fmap_2. }
  by exists d.
Qed.

Lemma sorted_map l l' : map Seq l = map Seq l' -> StronglySorted before l -> StronglySorted before l'.
Proof.
  intros Hm Hs. revert l' Hm. induction Hs as [|a l Hl IH Ha]; intros [|b l'] Hm; try done; [constructor|].
  injection Hm as Hab Hm. constructor; [by apply IH|].
  rewrite Forall_forall in Ha |- *. intros c Hc.
  destruct (seq_shared _ _ c Hm Hc) as (d & Hd & Hin).
  specialize (Ha d Hin). unfold before in *. lia.
Qed.

Lemma log_ok_map l l' n : map Seq l = map Seq l' -> log_ok l n -> log_ok l' n.
Proof.
  intros Hm [Hs Hr Hn Hb]. split; [by eapply sorted_map| | |done].
  - intros e He. destruct (seq_shared _ _ e Hm He) as (d & <- & Hin). by apply Hr.
  - intros e He.
    assert (Seq <$> last l = Some (Seq e)) as Hl.
    { rewrite <- fmap_last. change (Seq <$> l) with (map Seq l). rewrite Hm.
      change (map Seq l') with (Seq <$> l'). by rewrite fmap_last, He. }
    destruct (last l) as [a|]; [|done]. injection Hl as <-. by apply Hn.
Qed.

Lemma log_ok_redacted l l' n : Forall2 redacted_of l l' -> log_ok l n -> log_ok l' n.
Proof. intros H. apply log_ok_map, redacted_seq, H. Qed.

(** ** The memory store satisfies the laws *)

Definition Memory_wf (m : Memory) : Prop :=
  (forall i e, events m !! i = Some e -> Seq e = first m + Z.of_nat i) /\
  next m = first m + Z.of_nat (length (events m)) /\ 1 <= first m /\ next m <= maxInt64 + 1.

Lemma contiguous_sorted l f : (forall i e, l !! i = Some e -> Seq e = f + Z.of_nat i) ->
  StronglySorted before l.
Proof.
  revert f. induction l as [|a l IH]; intros f Hl; constructor.
  - apply (IH (f + 1)). intros i e Hi. rewrite (Hl (S i) e Hi). lia.
  - apply Forall_forall. intros b Hb. apply list_elem_of_lookup in Hb as [i Hi].
    unfold before. rewrite (Hl O a eq_refl), (Hl (S i) b Hi). lia.
Qed.

Lemma Memory_log m : Memory_wf m -> log_ok (events m) (next m - 1).
Proof.
  intros (Hc & Hn & Hf & Hx). split.
  - by eapply contiguous_sorted.
  - intros e He. apply list_elem_of_lookup in He as [i Hi]. rewrite (Hc i e Hi).
    apply lookup_lt_Some in Hi. lia.
  - intros e He. rewrite last_lookup in He. rewrite (Hc _ e He). apply lookup_lt_Some in He. lia.
  - lia.
Qed.

Lemma Memory_oldest m : Memory_wf m -> oldest (events m) (next m - 1) = first m.
Proof.
  intros (Hc & Hn & _ & _). destruct (events m) as [|a l]; cbn in *; [lia|].
  rewrite (Hc O a eq_refl). lia.
Qed.

Lemma wf_remove n m : Memory_wf m -> 0 <= n <= Z.of_nat (length (events m)) -> Memory_wf (Memory_remove n m).
Proof.
  intros (Hc & Hn & Hf & Hx) Hr. unfold Memory_remove, Memory_wf. cbn.
  rewrite u64_small by (unfold maxInt64 in *; lia). rewrite length_drop. split_and!; [|lia|lia|done].
  intros i e. rewrite lookup_drop. intros Hi. rewrite (Hc _ e Hi). lia.
Qed.

Lemma prune_count_range t n l k : k <= prune_count t n l k <= k + Z.of_nat (length l).
Proof.
  revert k. induction l as [|e l IH]; intros k; cbn [prune_count length]; [lia|].
  step_if; [|lia]. specialize (IH (k + 1)). lia.
Qed.

Lemma redact_loop_spec tenant t n l : forall k,
  Forall2 redacted_of l (fst (redact_loop tenant t n l k)).
Proof.
  induction l as [|e l IH]; intros k; cbn; [constructor|].
  destruct (n <=? k); [apply redacted_refl|].
  destruct (redactable tenant t e).
  - specialize (IH (k + 1)). destruct (redact_loop _ _ _ _ _) as [l' m]. constructor; [by right|done].
  - specialize (IH k). destruct (redact_loop _ _ _ _ _) as [l' m]. constructor; [by left|done].
Qed.

Lemma memory_read_loop_spec stream n l : 0 < n -> forall out, Z.of_nat (length out) < n ->
  read_loop stream n l out = out ++ take (Z.to_nat n - length out) (filter (fun e => wants stream e = true) l).
Proof.
  intros Hn. induction l as [|e l IH]; intros out Ho; cbn [read_loop].
  { by rewrite filter_nil, take_nil, app_nil_r. }
  assert ((stream <>s "") && (Stream e <>s stream) = negb (wants stream e)) as ->
    by (unfold wants; by rewrite negb_orb).
  destruct (wants stream e) eqn:E; cbn [negb].
  - rewrite filter_cons_True by done. rewrite length_app. cbn [length].
    replace (Z.to_nat n - length out)%nat with (S (Z.to_nat n - (length out + 1))) by lia. cbn [take].
    zb. destruct (n <=? _) eqn:El; bool_hyp.
    + replace (Z.to_nat n - (length out + 1))%nat with O by lia. by rewrite take_0.
    + rewrite IH by (rewrite length_app; cbn; lia). rewrite <- app_assoc, length_app. cbn. done.
  - rewrite filter_cons_False by (by rewrite E). by apply IH.
Qed.

Lemma contiguous_from l f from : (forall i e, l !! i = Some e -> Seq e = f + Z.of_nat i) -> f <= from ->
  filter (fun e => from <= Seq e) l = drop (Z.to_nat (from - f)) l.
Proof.
  revert f. induction l as [|a l IH]; intros f Hc Hf; [by rewrite drop_nil|].
  pose proof (Hc O a eq_refl) as Ha. rewrite filter_cons.
  assert (forall i e, l !! i = Some e -> Seq e = (f + 1) + Z.of_nat i) as Hc'.
  { intros i e Hi. rewrite (Hc (S i) e Hi). lia. }
  destruct (decide (from <= Seq a)) as [Hle|Hgt].
  - replace (Z.to_nat (from - f)) with O by lia. rewrite drop_0. f_equal.
    apply filter_all. intros b Hb. apply list_elem_of_lookup in Hb as [i Hi].
    rewrite (Hc' i b Hi). lia.
  - rewrite (IH (f + 1)) by (done || lia).
    replace (Z.to_nat (from - f)) with (S (Z.to_nat (from - (f + 1)))) by lia. done.
Qed.

Lemma selects_filter stream from (l : list Event) :
  filter (selects stream from) l = filter (fun e => wants stream e = true) (filter (fun e => from <= Seq e) l).
Proof. rewrite list_filter_filter. apply list_filter_iff. intros e. unfold selects. tauto. Qed.

Lemma Memory_Read_spec io from stream n m : Memory_wf m -> 0 < n -> 0 <= from <= maxInt64 + 1 ->
  Memory_Read io from stream n m = Ok (take (Z.to_nat n) (filter (selects stream from) (events m))).
Proof.
  intros Hw Hn Hfr. pose proof (Memory_log m Hw) as Hlog. destruct Hw as (Hc & Hnx & Hf & Hx).
  unfold Memory_Read.
  set (from' := if from <? first m then first m else from).
  assert (filter (selects stream from) (events m) = filter (selects stream from') (events m)) as ->.
  { rewrite !selects_filter. f_equal. subst from'. destruct (from <? first m) eqn:E; [|done]. bool_hyp.
    rewrite !filter_all; [done| |]; intros e He;
      apply list_elem_of_lookup in He as [i Hi]; rewrite (Hc i e Hi); lia. }
  assert (first m <= from' <= maxInt64 + 1) as Hfr' by (subst from'; step_if; bool_hyp; lia).
  destruct (next m <=? from') eqn:El; bool_hyp.
  { rewrite filter_none; [by rewrite take_nil|]. intros e He [Hle _].
    pose proof (ok_range _ _ Hlog e He). lia. }
  rewrite u64_small, i64_small by (unfold is_i64, maxInt64 in *; lia). zb.
  rewrite memory_read_loop_spec by (cbn; lia). cbn [length app]. rewrite Nat.sub_0_r.
  by rewrite selects_filter, (contiguous_from _ (first m)) by (done || lia).
Qed.

Lemma Memory_Append_spec io e m : Memory_wf m -> next m <= maxInt64 ->
  exists k, let '(r, m') := Memory_Append io e m in
    r = Ok (set_Seq (next m) e) /\ Memory_wf m' /\ next m' = next m + 1 /\
    events m' = drop k (events m ++ [set_Seq (next m) e]).
Proof.
  intros (Hc & Hn & Hf & Hx) Hr. unfold Memory_Append.
  assert (u64 (next m + 1) = next m + 1) as -> by (apply u64_small; unfold maxInt64 in *; lia).
  assert (forall i x, (events m ++ [set_Seq (next m) e]) !! i = Some x -> Seq x = first m + Z.of_nat i) as Hc'.
  { intros i x Hi. apply lookup_app_Some in Hi as [Hi|[Hge Hi]]; [by apply Hc|].
    apply list_lookup_singleton_Some in Hi as [Hi <-]. cbn. lia. }
  rewrite length_app. cbn [length].
  step_if; [exists (Z.to_nat (Z.of_nat (length (events m) + 1) - max m))|exists O].
  - bool_hyp. split_and!; [done| |done|done]. unfold Memory_wf. cbn.
    rewrite u64_small by (unfold maxInt64 in *; lia). rewrite length_drop, length_app. cbn.
    split_and!; [|lia|lia|lia]. intros i x. rewrite lookup_drop. intros Hi. rewrite (Hc' _ x Hi). lia.
  - split_and!; [done| |done|done]. unfold Memory_wf. cbn. rewrite length_app. cbn.
    split_and!; [done|lia|lia|lia].
Qed.

#[export] Program Instance Memory_laws : StoreLaws Memory := {
  wf := Memory_wf; retained := events; assigned m := next m - 1; wf_log := Memory_log }.
Next Obligation.
  intros io e m Hw Hr. cbn in Hr |- *.
  destruct (Memory_Append_spec io e m Hw ltac:(lia)) as [k Hk].
  change (Append io e m) with (Memory_Append io e m).
  destruct (Memory_Append io e m) as [r m']. destruct Hk as (-> & Hw' & Hn & He).
  exists k. split_and!; [done|lia|lia| |done]. f_equal. lia.
Qed.
Next Obligation. intros io from stream n m Hw Hn Hfr. cbn. by rewrite Memory_Read_spec. Qed.
Next Obligation. intros io m Hw. cbn. by rewrite Memory_oldest. Qed.
Next Obligation.
  intros io m (Hc & Hn & Hf & Hx). cbn. apply u64_small. unfold maxInt64 in *. lia.
Qed.
Next Obligation.
  intros io t n m Hw. cbn. unfold Memory_Prune.
  set (lim := if n <=? 0 then _ else n).
  pose proof (prune_count_range t lim (events m) 0). step_if; [by exists O|].
  exists (Z.to_nat (prune_count t lim (events m) 0)). cbn. split; [|done]. apply wf_remove; [done|lia].
Qed.
Next Obligation.
  intros io k n m Hw. cbn. unfold Memory_PruneSize. step_if; [by exists O|].
  step_if; [by exists O|]. bool_hyp.
  set (r := if _ && _ then n else _).
  assert (0 <= r <= Z.of_nat (length (events m))) by (subst r; step_if; bool_hyp; lia).
  exists (Z.to_nat r). cbn. split; [|done]. by apply wf_remove.
Qed.
Next Obligation.
  intros io tenant t n m Hw. cbn. unfold Memory_RedactTenant.
  destruct (redactionBound tenant n) as [lim|]; [|split_and!; [done|done|apply redacted_refl]].
  pose proof (redact_loop_spec tenant t lim (events m) 0) as Hred.
  destruct (redact_loop _ _ _ _ _) as [l k]. cbn in *. split_and!; [|done|done].
  pose proof (redacted_seq _ _ Hred) as Hs.
  destruct Hw as (Hc & Hn & Hf & Hx). unfold Memory_wf. cbn. split_and!; [|by rewrite <- (Forall2_length _ _ _ Hred)|done|done].
  intros i e Hi. destruct (Forall2_lookup_r _ _ _ _ _ Hred Hi) as (a & Ha & [->| ->]); exact (Hc i a Ha).
Qed.

(** ** The SQLite store satisfies the laws *)

Lemma min_seq_sorted l : StronglySorted before l -> min_seq l = Seq <$> head l.
Proof.
  induction 1 as [|a l Hl IH Ha]; [done|]. cbn [min_seq foldr]. fold (min_seq l).
  rewrite IH. destruct l as [|b l]; [done|].
  cbn. apply Forall_inv in Ha. unfold before in Ha. f_equal. lia.
Qed.

Lemma max_seq_sorted l : StronglySorted before l -> max_seq l = Seq <$> last l.
Proof.
  induction 1 as [|a l Hl IH Ha]; [done|]. cbn [max_seq foldr]. fold (max_seq l). rewrite IH, last_cons.
  destruct (last l) as [b|] eqn:E; [|done]. cbn. rewrite Forall_forall in Ha.
  assert (b ∈ l) as Hb by (rewrite last_lookup in E; by eapply list_elem_of_lookup_2).
  specialize (Ha b Hb). unfold before in Ha. f_equal. lia.
Qed.

(** In a sorted table the rows below a bound are a prefix, and deleting a
    prefix by sequence number leaves the rest. *)
Lemma below_prefix l b : StronglySorted before l -> exists k, filter (fun e => Seq e < b) l = take k l.
Proof.
  induction 1 as [|a l Hl [k Hk] Ha]; [by exists O|]. rewrite filter_cons.
  destruct (decide (Seq a < b)) as [|Hge]; [exists (S k); by rewrite Hk|].
  exists O. rewrite take_0. apply filter_none. intros x Hx. rewrite Forall_forall in Ha.
  specialize (Ha x Hx). unfold before in Ha. lia.
Qed.

Lemma delete_prefix l k : StronglySorted before l -> delete_rows (take k l) l = drop k l.
Proof.
  intros Hs. unfold delete_rows. revert k. induction Hs as [|a l Hl IH Ha]; intros k.
  { by rewrite drop_nil. }
  rewrite Forall_forall in Ha. destruct k as [|k]; cbn [take drop].
  - apply filter_all. intros x _. apply not_elem_of_nil.
  - rewrite filter_cons_False by (intros H; apply H; left). rewrite <- (IH k).
    apply list_filter_iff_in. intros x Hx. specialize (Ha x Hx). unfold before in Ha.
    cbn. rewrite not_elem_of_cons. intuition lia.
Qed.

Lemma prefix_of_prefix {A} (l : list A) m k : exists k', take m (take k l) = take k' l.
Proof. exists (Nat.min m k). by rewrite take_take. Qed.

Definition SQLite_wf (s : SQLite) : Prop := log_ok (rows s) (default 0 (sequence s)).

#[export] Program Instance SQLite_laws : StoreLaws SQLite := {
  wf := SQLite_wf; retained := rows; assigned s := default 0 (sequence s) }.
Next Obligation. done. Qed.
Next Obligation.
  intros io e s Hw Hr. cbn in Hr |- *. unfold SQLite_Append, insertEvent.
  destruct (io_error io); [done|]. cbv zeta.
  step_if; [done|]. step_if; [done|]. bool_hyp. exists O. cbn.
  split_and!; [|lia|lia|done|done].
  apply (log_ok_snoc _ (default 0 (sequence s))); [done|]. cbn. lia.
Qed.
Next Obligation.
  intros io from stream n s Hw Hn _. cbn. unfold SQLite_Read, with_db. zb.
  destruct (io_error io); [done|]. f_equal. destruct (stream =s "") eqn:E; bool_hyp.
  - subst. apply list_filter_iff. intros e. unfold selects. by rewrite wants_spec; intuition.
  - apply list_filter_iff. intros e. unfold selects. rewrite wants_spec. intuition.
Qed.
Next Obligation.
  intros io s Hw. cbn. unfold SQLite_First, with_db. destruct (io_error io); [done|].
  rewrite min_seq_sorted by apply Hw. destruct (rows s) as [|e l]; [|done]. cbn. by destruct (sequence s).
Qed.
Next Obligation.
  intros io s Hw. cbn. unfold SQLite_Last, with_db. destruct (io_error io); [done|].
  rewrite max_seq_sorted by apply Hw. destruct (last (rows s)) as [e|] eqn:E; [|done].
  by apply (ok_newest _ _ Hw).
Qed.
Next Obligation.
  intros io t n s Hw. cbn. unfold SQLite_Prune. destruct (io_error io); [by exists O|].
  set (b := default maxInt64 _). cbv zeta.
  destruct (below_prefix (rows s) b (ok_sorted _ _ Hw)) as [k ->].
  destruct (prefix_of_prefix (rows s) (Z.to_nat (if n <=? 0 then 10000 else n)) k) as [k' ->].
  exists k'. cbn. rewrite delete_prefix by apply Hw.
  split_and!; [by apply log_ok_drop|done|done].
Qed.
Next Obligation.
  intros io m n s Hw. cbn. unfold SQLite_PruneSize. step_if; [by exists O|].
  destruct (io_error io); [by exists O|]. cbv zeta. step_if; [by exists O|].
  set (k := Z.to_nat _). exists k. cbn. rewrite delete_prefix by apply Hw.
  split_and!; [by apply log_ok_drop|done|done].
Qed.
Next Obligation.
  intros io tenant t n s Hw. cbn. unfold SQLite_RedactTenant.
  destruct (redactionBound tenant n); [|split_and!; [done|done|apply redacted_refl]].
  destruct (io_error io); [split_and!; [done|done|apply redacted_refl]|]. cbv zeta.
  set (v := take _ _). cbn.
  assert (forall l, Forall2 redacted_of l
    (map (fun e => if bool_decide (Seq e ∈ map Seq v) then set_Payload redactedPayload e else e) l)) as Hred.
  { induction l as [|e l IH]; constructor; [|done]. case_bool_decide; [by right|by left]. }
  split_and!; [|done|apply Hred]. exact (log_ok_redacted _ _ _ (Hred _) Hw).
Qed.
End EventStore.
