(* ===== verification/EventLog.v ===== *)
(** * The event log and its subscriptions

    Translation of [Log] and [Subscription] of
    [src/internal/eventlog/eventlog.go] over any store that satisfies
    [StoreLaws].  A subscriber's [Next] is a machine with one transition per
    access to shared state (the lag flag, the store, the channel), so that
    appends, fan-outs, retention and redaction interleave with it as they do
    between goroutines; an append and its fan-out are two transitions, the
    log's mutex being held in between. *)

From Stdlib Require Import ZArith Lia Strings.String.
From stdpp Require Import base gmap strings option sorting list.
From S2P Require Import Prelude EventStore.
#[local] Open Scope Z_scope.

Module EventLog.
Import EventStore.

Inductive log_error :=
| Evicted (oldest : Z)
| StoreError (e : string)
| SubscriptionClosed
| ContextDone (e : string).

(** [Log.Read] and [Log.Export] start with the same test against retention. *)
Definition start_at (from first : Z) : result log_error Z :=
  if from =? 0 then Ok first else if from <? first then Err (Evicted first) else Ok from.

(** ** Subscriptions *)

Record Subscription := mkSub {
  stream : string; ch : list Event; nextSeq : Z; lagged : bool; closed : bool }.

Definition channelSize : nat := 256.
Definition batchSize : nat := 256.
Definition backfillSize : Z := 512.

Definition Subscribe (from : Z) (stream : string) : Subscription := mkSub stream [] from false false.

Definition set_ch (c : list Event) (s : Subscription) : Subscription :=
  mkSub (stream s) c (nextSeq s) (lagged s) (closed s).
Definition set_next (n : Z) (s : Subscription) : Subscription :=
  mkSub (stream s) (ch s) n (lagged s) (closed s).
Definition set_lagged (b : bool) (s : Subscription) : Subscription :=
  mkSub (stream s) (ch s) (nextSeq s) b (closed s).

Definition markLagged (s : Subscription) : Subscription := set_lagged true s.

(** One subscriber's part of [fanOutLocked]; a closed one is not in [subs]. *)
Definition fanOut (e : Event) (s : Subscription) : Subscription :=
  if closed s then s
  else if (stream s <>s "") && (stream s <>s Stream e) then s
  else if (length (ch s) <? channelSize)%nat then set_ch (ch s ++ [e]) s
  else markLagged s.

Definition Close (s : Subscription) : Subscription :=
  mkSub (stream s) (ch s) (nextSeq s) (lagged s) true.

(** Where [Next] is.  [Head] is the top of its loop, and where a call starts. *)
Inductive pc :=
| Head
| AtLast (lagged : bool)
| AtFirst
| AtRead (from : Z)
| AtDrain (evs : list Event)
| AtSelect
| AtMore (batch : list Event).

(** The answer of the call, when this step returns it. *)
Definition answer := option (result log_error (list Event)).

(** [interrupt] is what the select of [Next] finds besides the channel. *)
Definition next_step {S} `{Store S} (io : db_io) (interrupt : option log_error) (st : S)
    (s : Subscription) (p : pc) : Subscription * pc * answer :=
  match p with
  | Head =>
      let s' := set_lagged false s in
      if closed s then (s', Head, Some (Err SubscriptionClosed)) else (s', AtLast (lagged s), None)
  | AtLast was =>
      match Last io st with
      | Err e => (s, Head, Some (Err (StoreError e)))
      | Ok last => (s, if was || (nextSeq s <=? last) then AtFirst else AtSelect, None)
      end
  | AtFirst =>
      match First io st with
      | Err e => (s, Head, Some (Err (StoreError e)))
      | Ok first =>
          match start_at (nextSeq s) first with
          | Err e => (s, Head, Some (Err e))
          | Ok from => (s, AtRead from, None)
          end
      end
  | AtRead from =>
      match Read io from (stream s) backfillSize st with
      | Err e => (s, Head, Some (Err (StoreError e)))
      | Ok evs =>
          match last evs with
          | None => (s, AtSelect, None)
          | Some e => (set_next (u64 (Seq e + 1)) s, AtDrain evs, None)
          end
      end
  | AtDrain evs =>
      match ch s with
      | [] => (s, Head, Some (Ok evs))
      | e :: t =>
          if nextSeq s <=? Seq e then (markLagged (set_ch t s), Head, Some (Ok evs))
          else (set_ch t s, AtDrain evs, None)
      end
  | AtSelect =>
      match interrupt with
      | Some e => (s, Head, Some (Err e))
      | None =>
          match ch s with
          | [] => (s, AtSelect, None)
          | e :: t =>
              if Seq e <? nextSeq s then (set_ch t s, Head, None)
              else (set_next (u64 (Seq e + 1)) (set_ch t s), AtMore [e], None)
          end
      end
  | AtMore batch =>
      if (length batch <? batchSize)%nat then
        match ch s with
        | [] => (s, Head, Some (Ok batch))
        | e :: t =>
            if nextSeq s <=? Seq e
            then (set_next (u64 (Seq e + 1)) (set_ch t s), AtMore (batch ++ [e]), None)
            else (set_ch t s, AtMore batch, None)
        end
      else (s, Head, Some (Ok batch))
  end.

(** ** The log with one subscriber *)

Section system.
Context {S : Type} `{StoreLaws S}.

(** [published] are the events appended and fanned out, [pending] is one whose
    append returned and whose fan-out has not run; [answers] is what [Next]
    has returned so far.  The first and the last are ghost state. *)
Record sys := mkSys {
  store : S; sub : Subscription; at_ : pc; pending : option Event;
  published : list Event; answers : list (result log_error (list Event)) }.

Definition stamp (now : Z) (e : Event) : Event := if At e =? 0 then set_At now e else e.

Definition set_store (st : S) (σ : sys) : sys :=
  mkSys st (sub σ) (at_ σ) (pending σ) (published σ) (answers σ).

Definition after_next (σ : sys) (r : Subscription * pc * answer) : sys :=
  mkSys (store σ) (fst (fst r)) (snd (fst r)) (pending σ) (published σ)
    (answers σ ++ match snd r with Some a => [a] | None => [] end).

Inductive log_step : sys -> sys -> Prop :=
| step_append io now e e' st' σ : pending σ = None -> assigned (store σ) < maxInt64 ->
    Append io (stamp now e) (store σ) = (Ok e', st') ->
    log_step σ (mkSys st' (sub σ) (at_ σ) (Some e') (published σ) (answers σ))
| step_fan_out e σ : pending σ = Some e ->
    log_step σ (mkSys (store σ) (fanOut e (sub σ)) (at_ σ) None (published σ ++ [e]) (answers σ))
| step_prune io t n σ : pending σ = None -> log_step σ (set_store (snd (Prune io t n (store σ))) σ)
| step_prune_size io m n σ : pending σ = None ->
    log_step σ (set_store (snd (PruneSize io m n (store σ))) σ)
| step_redact io tenant t n σ : pending σ = None ->
    log_step σ (set_store (snd (RedactTenant io tenant t n (store σ))) σ)
| step_close σ : pending σ = None ->
    log_step σ (mkSys (store σ) (Close (sub σ)) (at_ σ) None (published σ) (answers σ))
| step_next io interrupt σ :
    log_step σ (after_next σ (next_step io interrupt (store σ) (sub σ) (at_ σ))).

Definition subscribed (from : Z) (stream : string) (st : S) : sys :=
  mkSys st (Subscribe from stream) Head None (retained st) [].

(** Every event ever appended, and the oldest the store still has. *)
Definition history (σ : sys) : list Event :=
  published σ ++ match pending σ with Some e => [e] | None => [] end.
Definition floor (σ : sys) : Z := oldest (retained (store σ)) (assigned (store σ)).

Definition delivered (l : list (result log_error (list Event))) : list Event :=
  flat_map (fun a => match a with Ok evs => evs | Err _ => [] end) l.

(** What [Next] has taken and not returned yet. *)
Definition in_hand (p : pc) : list Event :=
  match p with AtDrain evs => evs | AtMore batch => batch | _ => [] end.
Definition taken (σ : sys) : list Event := delivered (answers σ) ++ in_hand (at_ σ).

(** ** The invariant *)

(** What the channel holds while [Next] waits on it, [b] events of the batch
    being taken: events before [L], which the last read of the store did not
    return, then events published since, in order and without a gap unless at
    least [batchSize] events come before it. *)
Definition window (b : nat) (σ : sys) : Prop :=
  exists L old p x,
    ch (sub σ) = old ++ p ++ x /\ nextSeq (sub σ) <= L /\
    (L <= assigned (store σ) + 1 \/ L = nextSeq (sub σ)) /\
    (forall e, e ∈ old -> Seq e < L) /\
    p `prefix_of` filter (selects (stream (sub σ)) L) (published σ) /\
    ((p = filter (selects (stream (sub σ)) L) (published σ) /\ x = []) \/
     (batchSize <= b + length old + length p)%nat \/ (closed (sub σ) = true /\ x = [])) /\
    (forall e, e ∈ history σ -> selects (stream (sub σ)) (nextSeq (sub σ)) e -> Seq e < L -> Seq e < floor σ).

Definition at_ok (σ : sys) : Prop :=
  match at_ σ with
  | AtRead from => from = nextSeq (sub σ) \/ (nextSeq (sub σ) = 0 /\ 0 <= from <= floor σ)
  | AtSelect => window 0 σ
  | AtMore batch =>
      window (length batch) σ /\ (forall e, e ∈ ch (sub σ) -> nextSeq (sub σ) <= Seq e) /\
      exists z, z ∈ published σ /\ nextSeq (sub σ) = Seq z + 1
  | _ => True
  end.

Record inv (from0 : Z) (stream0 : string) (σ : sys) : Prop := mkInv {
  inv_wf : wf (store σ);
  inv_log : log_ok (history σ) (assigned (store σ));
  inv_ret : exists k, (k <= length (history σ))%nat /\
    Forall2 redacted_of (drop k (history σ)) (retained (store σ));
  inv_stream : stream (sub σ) = stream0;
  inv_ch_sorted : StronglySorted before (ch (sub σ));
  inv_ch : forall e, e ∈ ch (sub σ) -> e ∈ published σ /\ wants stream0 e = true;
  inv_next : from0 <= nextSeq (sub σ) /\
    (nextSeq (sub σ) <= assigned (store σ) + 1 \/ nextSeq (sub σ) = from0);
  inv_taken : exists d, Forall2 redacted_of d (taken σ) /\ StronglySorted before d /\
    (forall e, e ∈ d -> e ∈ history σ /\ selects stream0 from0 e /\ Seq e < nextSeq (sub σ)) /\
    (forall e, e ∈ history σ -> selects stream0 from0 e -> Seq e < nextSeq (sub σ) ->
       e ∈ d \/ Seq e < floor σ);
  inv_at : at_ok σ }.

(** *** What the store keeps of the history *)

Lemma kept_copy from0 s0 σ e k : inv from0 s0 σ -> e ∈ history σ -> floor σ <= Seq e ->
  Forall2 redacted_of (drop k (history σ)) (retained (store σ)) -> e ∈ drop k (history σ).
Proof.
  intros Hi He Hf Hr. pose proof (inv_log _ _ _ Hi) as Hlog.
  rewrite <- (take_drop k (history σ)) in He. apply elem_of_app in He as [He|He]; [|done]. exfalso.
  assert (forall b, b ∈ drop k (history σ) -> Seq e < Seq b) as Hlt.
  { intros b Hb. pose proof (ok_sorted _ _ Hlog) as Hs. rewrite <- (take_drop k (history σ)) in Hs.
    by eapply (StronglySorted_app_1_elem_of before). }
  unfold floor in Hf. destruct Hr as [|a b l l' [->| ->] Hr]; cbn in Hf.
  - assert (e ∈ history σ) as He'%(ok_range _ _ Hlog); [|lia].
    rewrite <- (take_drop k (history σ)). apply elem_of_app. by left.
  - specialize (Hlt a ltac:(left)). lia.
  - specialize (Hlt a ltac:(left)). lia.
Qed.

Lemma floor_append e' σ st' k :
  wf (store σ) -> wf st' -> retained st' = drop k (retained (store σ) ++ [e']) -> Seq e' = assigned st' ->
  assigned (store σ) < assigned st' <= maxInt64 ->
  floor σ <= oldest (retained st') (assigned st').
Proof.
  intros Hw Hw' -> He Ha. unfold floor.
  pose proof (wf_log _ Hw) as Hl. transitivity (oldest (retained (store σ) ++ [e']) (assigned st')).
  - destruct (retained (store σ)); cbn; lia.
  - apply oldest_drop. rewrite <- He. apply (log_ok_snoc _ (assigned (store σ))); [done|lia].
Qed.

Lemma oldest_redacted l l' n : Forall2 redacted_of l l' -> oldest l n = oldest l' n.
Proof. intros Hr. apply redacted_seq in Hr. destruct l, l'; try done. by injection Hr. Qed.

(** *** Steps of the environment *)

Lemma bounded_drop (k : nat) (l m : list Event) : Forall2 redacted_of (drop k l) m ->
  exists k', (k' <= length l)%nat /\ Forall2 redacted_of (drop k' l) m.
Proof.
  intros Hf. destruct (decide (k <= length l)%nat); [by exists k|].
  exists (length l). split; [done|]. rewrite drop_ge in Hf |- * by lia. done.
Qed.

Lemma inv_env from0 s0 σ σ' new : inv from0 s0 σ ->
  sub σ' = sub σ -> at_ σ' = at_ σ -> published σ' = published σ -> answers σ' = answers σ ->
  history σ' = history σ ++ new -> (forall e, e ∈ new -> assigned (store σ) < Seq e) ->
  assigned (store σ) <= assigned (store σ') -> wf (store σ') ->
  log_ok (history σ') (assigned (store σ')) ->
  (exists k, (k <= length (history σ'))%nat /\ Forall2 redacted_of (drop k (history σ')) (retained (store σ'))) ->
  floor σ <= floor σ' -> inv from0 s0 σ'.
Proof.
  intros Hi Hsub Hat Hpub Hans Hh Hnew Has Hw Hlog Hret Hfl.
  destruct Hi as [_ _ _ Hst Hcs Hch Hnx (d & Hd & Hds & Hdi & Hdc) Hao].
  split; rewrite ?Hsub, ?Hpub; try done.
  - lia.
  - exists d. unfold taken. rewrite Hans, Hat. split_and!; [done|done| |].
    + intros e He. destruct (Hdi e He) as (? & ? & ?). split_and!; [|done|done]. rewrite Hh. apply elem_of_app. by left.
    + intros e He Hs Hlt. rewrite Hh in He. apply elem_of_app in He as [He|He%Hnew].
      * destruct (Hdc e He Hs Hlt); [by left|right; lia].
      * destruct Hs. lia.
  - assert (forall b, window b σ -> window b σ') as Hwin.
    { intros b (L & old & p & x & Hc & HL & HL' & Hold & Hp & Hx & Hf).
      exists L, old, p, x. rewrite Hsub, Hpub. split_and!; [done|done|lia|done|done|done|].
      intros e He Hs Hlt. rewrite Hh in He. apply elem_of_app in He as [He|He%Hnew].
      - specialize (Hf e He Hs Hlt). lia.
      - destruct Hs. lia. }
    unfold at_ok in *. rewrite Hat. destruct (at_ σ); rewrite ?Hsub, ?Hpub; try done.
    + destruct Hao; [by left|right; lia].
    + by apply Hwin.
    + destruct Hao as [? ?]. split; [by apply Hwin|done].
Qed.

Lemma inv_shrink from0 s0 σ st' k : inv from0 s0 σ -> pending σ = None ->
  wf st' -> assigned st' = assigned (store σ) -> retained st' = drop k (retained (store σ)) ->
  inv from0 s0 (set_store st' σ).
Proof.
  intros Hi Hp Hw Ha Hr. pose proof (inv_log _ _ _ Hi) as Hlog.
  eapply (inv_env _ _ σ _ []); try done; cbn; rewrite ?Ha; try done.
  - by rewrite app_nil_r.
  - intros e He. by apply not_elem_of_nil in He.
  - destruct (inv_ret _ _ _ Hi) as (j & Hj & Hf). apply (bounded_drop (j + k)).
    rewrite Hr, <- drop_drop. by apply Forall2_drop.
  - unfold floor. cbn. rewrite Ha, Hr. apply oldest_drop, wf_log, (inv_wf _ _ _ Hi).
Qed.

Lemma inv_redact from0 s0 σ st' : inv from0 s0 σ -> pending σ = None ->
  wf st' -> assigned st' = assigned (store σ) -> Forall2 redacted_of (retained (store σ)) (retained st') ->
  inv from0 s0 (set_store st' σ).
Proof.
  intros Hi Hp Hw Ha Hr.
  eapply (inv_env _ _ σ _ []); try done; cbn; rewrite ?Ha; try done; try apply Hi.
  - by rewrite app_nil_r.
  - intros e He. by apply not_elem_of_nil in He.
  - destruct (inv_ret _ _ _ Hi) as (j & Hj & Hf). exists j. split; [done|].
    by eapply redacted_trans.
  - unfold floor. cbn. rewrite Ha, (oldest_redacted _ _ _ Hr). lia.
Qed.

Lemma inv_append from0 s0 σ io e e' st' : inv from0 s0 σ -> pending σ = None ->
  assigned (store σ) < maxInt64 -> Append io e (store σ) = (Ok e', st') ->
  inv from0 s0 (mkSys st' (sub σ) (at_ σ) (Some e') (published σ) (answers σ)).
Proof.
  intros Hi Hp Hroom Happ. pose proof (inv_wf _ _ _ Hi) as Hw. pose proof (inv_log _ _ _ Hi) as Hlog.
  pose proof (Append_law io e (store σ) Hw Hroom) as Hal. rewrite Happ in Hal.
  destruct Hal as (k & Hw' & Hass & -> & Hr).
  set (e1 := set_Seq (assigned st') e).
  set (σ' := mkSys st' (sub σ) (at_ σ) (Some e1) (published σ) (answers σ)).
  assert (history σ' = history σ ++ [e1]) as Hh by (unfold history; cbn; by rewrite Hp, app_nil_r).
  assert (store σ' = st') as Hst by done.
  eapply (inv_env _ _ σ σ' [e1]); rewrite ?Hst; try done.
  - intros x Hx. apply list_elem_of_singleton in Hx as ->. cbn. lia.
  - lia.
  - rewrite Hh. by apply (log_ok_snoc _ (assigned (store σ))).
  - destruct (inv_ret _ _ _ Hi) as (j & Hj & Hf). apply (bounded_drop (j + k)).
    rewrite Hh, Hr, <- drop_drop, drop_app_le by done.
    apply Forall2_drop, Forall2_app; [done|]. constructor; [by left|constructor].
  - by eapply floor_append.
Qed.

(** *** Fan-out *)

Lemma history_split from0 s0 σ e x : inv from0 s0 σ -> pending σ = Some e -> x ∈ published σ -> Seq x < Seq e.
Proof.
  intros Hi Hp Hx. pose proof (ok_sorted _ _ (inv_log _ _ _ Hi)) as Hs. unfold history in Hs. rewrite Hp in Hs.
  eapply (StronglySorted_app_1_elem_of before); [exact Hs|done|]. left.
Qed.

Lemma published_sorted from0 s0 σ : inv from0 s0 σ -> StronglySorted before (published σ).
Proof. intros Hi. eapply StronglySorted_app_1_l, (ok_sorted _ _ (inv_log _ _ _ Hi)). Qed.

Lemma sorted_seq_inj l a b : StronglySorted before l -> a ∈ l -> b ∈ l -> Seq a = Seq b -> a = b.
Proof.
  induction 1 as [|c l Hl IH Hc]; intros Ha Hb Hab; [by apply not_elem_of_nil in Ha|].
  rewrite Forall_forall in Hc. apply elem_of_cons in Ha as [->|Ha], Hb as [->|Hb]; [done| | |by apply IH].
  - specialize (Hc b Hb). unfold before in Hc. lia.
  - specialize (Hc a Ha). unfold before in Hc. lia.
Qed.

Lemma sorted_nodup l : StronglySorted before l -> NoDup l.
Proof.
  induction 1 as [|a l Hl IH Ha]; constructor; [|done]. rewrite Forall_forall in Ha.
  intros Hin%Ha. unfold before in Hin. lia.
Qed.

(** What the next published event adds to the selection. *)
Lemma selected_snoc s0 L (l : list Event) e :
  filter (selects s0 L) (l ++ [e]) =
  filter (selects s0 L) l ++ (if decide (selects s0 L e) then [e] else []).
Proof. rewrite filter_app, filter_singleton by exact []. done. Qed.

Lemma window_fan_out from0 s0 σ e b : inv from0 s0 σ -> pending σ = Some e -> window b σ ->
  window b (mkSys (store σ) (fanOut e (sub σ)) (at_ σ) None (published σ ++ [e]) (answers σ)).
Proof.
  intros Hi Hp (L & old & p & x & Hc & HL & HL' & Hold & Hpre & Hx & Hf).
  set (σ' := mkSys _ _ _ _ _ _).
  assert (history σ' = history σ) as Hh by (unfold history; cbn; by rewrite Hp, app_nil_r).
  assert (forall ch', sub σ' = ch' -> stream ch' = stream (sub σ) -> nextSeq ch' = nextSeq (sub σ) ->
    closed ch' = closed (sub σ) ->
    (exists old p x, ch ch' = old ++ p ++ x /\ (forall e, e ∈ old -> Seq e < L) /\
      p `prefix_of` filter (selects (stream (sub σ)) L) (published σ ++ [e]) /\
      ((p = filter (selects (stream (sub σ)) L) (published σ ++ [e]) /\ x = []) \/
       (batchSize <= b + length old + length p)%nat \/ (closed (sub σ) = true /\ x = []))) -> window b σ') as Hgoal.
  { intros s' Hs' Hst Hn Hcl (old' & p' & x' & Hc' & Hold' & Hpre' & Hx').
    exists L, old', p', x'. rewrite Hs', Hst, Hn, Hcl, Hh. split_and!; try done. }
  assert (p `prefix_of` filter (selects (stream (sub σ)) L) (published σ ++ [e])) as Hpre'.
  { rewrite selected_snoc. by apply prefix_app_r. }
  unfold fanOut in *. destruct (closed (sub σ)) eqn:Ecl.
  { apply (Hgoal (sub σ)); try done. exists old, p, x. rewrite ?Ecl. split_and!; try done.
    destruct Hx as [[_ ->]|[Hx|Hx]]; [right; right|right; left|right; right]; done. }
  destruct ((stream (sub σ) <>s "") && (stream (sub σ) <>s Stream e)) eqn:Ew.
  { assert (~ selects (stream (sub σ)) L e) as Hn.
    { intros [_ [?|?]%wants_spec]; bool_hyp; congruence. }
    rewrite selected_snoc, decide_False, app_nil_r in * by done.
    apply (Hgoal (sub σ)); try done.
    exists old, p, x. by rewrite ?Ecl. }
  assert (wants (stream (sub σ)) e = true) as Hwant.
  { apply wants_spec. apply andb_false_iff in Ew as [Ew|Ew]; bool_hyp; [by left|by right]. }
  pose proof (fun x => history_split _ _ _ _ x Hi Hp) as Hlt.
  destruct (length (ch (sub σ)) <? channelSize)%nat eqn:Elen.
  - apply (Hgoal (set_ch (ch (sub σ) ++ [e]) (sub σ))); try done. cbn [ch set_ch].
    destruct (decide (L <= Seq e)) as [Hge|Hlt'].
    + assert (selects (stream (sub σ)) L e) as Hsel by done.
      destruct Hx as [[-> ->]|[Hx|[? _]]]; [| |congruence].
      * exists old, (filter (selects (stream (sub σ)) L) (published σ ++ [e])), [].
        rewrite Hc, !app_nil_r, selected_snoc, decide_True, <- app_assoc by done. split_and!; auto.
      * exists old, p, (x ++ [e]). rewrite Hc, <- !app_assoc. split_and!; [done|done|done|]. right. by left.
    + assert (filter (selects (stream (sub σ)) L) (published σ ++ [e]) = []) as Hnil.
      { apply filter_none. intros y Hy [Hle _]. apply elem_of_app in Hy as [Hy%Hlt|Hy]; [lia|].
        apply list_elem_of_singleton in Hy as ->. lia. }
      rewrite Hnil. exists (ch (sub σ) ++ [e]), [], []. rewrite !app_nil_r. split_and!; [done| |done|by left].
      intros y Hy. apply elem_of_app in Hy as [Hy|Hy].
      * apply (inv_ch _ _ _ Hi) in Hy as [Hy%Hlt _]. lia.
      * apply list_elem_of_singleton in Hy as ->. lia.
  - apply Nat.ltb_ge in Elen. apply (Hgoal (markLagged (sub σ))); try done.
    exists old, p, x. split_and!; try done.
    destruct Hx as [[-> ->]|[Hx|[? _]]]; [|right; by left|congruence].
    right. left. rewrite Hc, !length_app in Elen. unfold batchSize, channelSize in *. cbn [length] in *. lia.
Qed.

Lemma fanOut_fields e s : stream (fanOut e s) = stream s /\ nextSeq (fanOut e s) = nextSeq s /\
  (forall x, x ∈ ch (fanOut e s) -> x ∈ ch s \/ (x = e /\ wants (stream s) e = true)) /\
  (ch (fanOut e s) = ch s \/ ch (fanOut e s) = ch s ++ [e]).
Proof.
  unfold fanOut. step_if; [by split_and!; auto|]. step_if; [by split_and!; auto|].
  step_if; [|by split_and!; auto]. cbn. split_and!; [done|done| |by right].
  intros x Hx. apply elem_of_app in Hx as [Hx|Hx]; [by left|right].
  apply list_elem_of_singleton in Hx as ->. split; [done|]. apply wants_spec.
  apply andb_false_iff in E0 as [E0|E0]; bool_hyp; [by left|by right].
Qed.

Lemma inv_fan_out from0 s0 σ e : inv from0 s0 σ -> pending σ = Some e ->
  inv from0 s0 (mkSys (store σ) (fanOut e (sub σ)) (at_ σ) None (published σ ++ [e]) (answers σ)).
Proof.
  intros Hi Hp. set (σ' := mkSys _ _ _ _ _ _).
  assert (history σ' = history σ) as Hh by (unfold history; cbn; by rewrite Hp, app_nil_r).
  destruct (fanOut_fields e (sub σ)) as (Hst & Hn & Hin & Hch).
  pose proof (fun x => history_split _ _ _ _ x Hi Hp) as Hlt.
  destruct Hi as [Hw Hlog Hret Hs Hcs Hc Hnx Htk Hat] eqn:Ei.
  split; rewrite ?Hh; try done; cbn [sub store published answers σ']; rewrite ?Hst, ?Hn; try done.
  - destruct Hch as [->| ->]; [done|]. apply sorted_snoc; [done|]. intros x [Hx _]%Hc. by apply Hlt.
  - intros x Hx. destruct (Hin x Hx) as [Hx'%Hc|[-> Hwant]].
    + split; [|tauto]. apply elem_of_app. left. tauto.
    + split; [apply elem_of_app; right; left|by rewrite <- Hs].
  - clear Ei. unfold at_ok in *. cbn [at_ σ']. destruct (at_ σ); try done.
    + cbn. rewrite Hn. exact Hat.
    + by apply (window_fan_out from0 s0).
    + destruct Hat as (Hwin & Hge & z & Hz & Hzn). split; [by apply (window_fan_out from0 s0)|].
      cbn. rewrite Hn. split.
      * intros x Hx. destruct (Hin x Hx) as [Hx'|[-> _]]; [by apply Hge|]. specialize (Hlt z Hz). lia.
      * exists z. split; [apply elem_of_app; by left|done].
Qed.

(** *** Steps of the subscriber *)

(** A step that takes nothing for the caller keeps the invariant. *)
Lemma inv_quiet from0 s0 σ σ' k : inv from0 s0 σ ->
  store σ' = store σ -> pending σ' = pending σ -> published σ' = published σ -> taken σ' = taken σ ->
  stream (sub σ') = stream (sub σ) -> nextSeq (sub σ') = nextSeq (sub σ) ->
  ch (sub σ') = drop k (ch (sub σ)) -> at_ok σ' -> inv from0 s0 σ'.
Proof.
  intros [Hw Hlog Hret Hs Hcs Hc Hnx Htk _] Hst Hp Hpub Ht Hstr Hn Hch Hat.
  assert (history σ' = history σ) as Hh by (unfold history; by rewrite Hp, Hpub).
  assert (floor σ' = floor σ) as Hf by (unfold floor; by rewrite Hst).
  split; rewrite ?Hst, ?Hh, ?Hstr, ?Hn, ?Hpub, ?Ht, ?Hf, ?Hch; try done.
  - by apply sorted_drop.
  - intros e He. apply Hc. rewrite <- (take_drop k (ch (sub σ))). apply elem_of_app. by right.
Qed.

Lemma at_ok_same σ σ' : store σ' = store σ -> pending σ' = pending σ -> published σ' = published σ ->
  at_ σ' = at_ σ -> stream (sub σ') = stream (sub σ) -> nextSeq (sub σ') = nextSeq (sub σ) ->
  ch (sub σ') = ch (sub σ) -> (closed (sub σ) = true -> closed (sub σ') = true) -> at_ok σ -> at_ok σ'.
Proof.
  intros Hst Hp Hpub Hat Hstr Hn Hch Hcl.
  assert (history σ' = history σ) as Hh by (unfold history; by rewrite Hp, Hpub).
  assert (floor σ' = floor σ) as Hf by (unfold floor; by rewrite Hst).
  assert (forall b, window b σ -> window b σ') as Hwin.
  { intros b (L & old & p & x & H1 & H2 & H3 & H4 & H5 & H6 & H7).
    exists L, old, p, x. rewrite Hch, Hn, Hst, Hstr, Hpub, Hh, Hf. split_and!; try done.
    destruct H6 as [?|[?|[? ?]]]; auto. }
  unfold at_ok. rewrite Hat. destruct (at_ σ); rewrite ?Hn, ?Hf, ?Hch, ?Hpub; auto.
  intros [? ?]. auto.
Qed.

Lemma delivered_app l r : delivered (l ++ r) = delivered l ++ delivered r.
Proof. unfold delivered. by rewrite flat_map_app. Qed.

(** An event numbered just after the last one taken extends what was taken. *)
Lemma extend_taken from0 s0 σ σ' new (orig : list Event) n : inv from0 s0 σ ->
  history σ' = history σ -> floor σ' = floor σ -> nextSeq (sub σ') = n ->
  taken σ' = taken σ ++ new -> Forall2 redacted_of orig new -> StronglySorted before orig ->
  (forall e, e ∈ orig -> e ∈ history σ /\ selects s0 (nextSeq (sub σ)) e /\ Seq e < n) ->
  nextSeq (sub σ) <= n ->
  (forall e, e ∈ history σ -> selects s0 (nextSeq (sub σ)) e -> Seq e < n -> e ∈ orig \/ Seq e < floor σ) ->
  exists d, Forall2 redacted_of d (taken σ') /\ StronglySorted before d /\
    (forall e, e ∈ d -> e ∈ history σ' /\ selects s0 from0 e /\ Seq e < nextSeq (sub σ')) /\
    (forall e, e ∈ history σ' -> selects s0 from0 e -> Seq e < nextSeq (sub σ') -> e ∈ d \/ Seq e < floor σ').
Proof.
  intros [_ _ _ _ _ _ Hnx (d & Hd & Hds & Hdi & Hdc) _] Hh Hf Hn Ht Ho Hos Hoi Hle Hoc.
  rewrite Hh, Hf, Hn, Ht. exists (d ++ orig). split_and!.
  - by apply Forall2_app.
  - apply StronglySorted_app. split_and!; [|done|done].
    intros a b Ha Hb. destruct (Hdi a Ha) as (_ & _ & ?), (Hoi b Hb) as (_ & [? _] & _). unfold before. lia.
  - intros e He. apply elem_of_app in He as [He|He].
    + destruct (Hdi e He) as (? & ? & ?). split_and!; [done|done|lia].
    + destruct (Hoi e He) as (? & [? ?] & ?). split_and!; [done|split; [lia|done]|done].
  - intros e He [Hs1 Hs2] Hlt. destruct (decide (Seq e < nextSeq (sub σ))) as [Hb|Hb].
    + destruct (Hdc e He ltac:(done) Hb); [left; apply elem_of_app; by left|by right].
    + destruct (Hoc e He) as [?|?]; [split; [lia|done]|done|left; apply elem_of_app; by right|by right].
Qed.

Lemma sorted_filter (P : Event -> Prop) `{!forall x, Decision (P x)} l :
  StronglySorted before l -> StronglySorted before (filter P l).
Proof.
  induction 1 as [|a l Hl IH Ha]; [constructor|]. rewrite filter_cons. destruct (decide (P a)); [|done].
  constructor; [done|]. rewrite Forall_forall in Ha |- *. intros x [_ Hx]%list_elem_of_filter. by apply Ha.
Qed.

Lemma sorted_last l z e : StronglySorted before l -> last l = Some z -> e ∈ l -> Seq e <= Seq z.
Proof.
  intros Hs [l' ->]%last_Some He. apply elem_of_app in He as [He|He].
  - pose proof (StronglySorted_app_1_elem_of _ _ _ e z Hs He ltac:(left)) as Hb. unfold before in Hb. lia.
  - apply list_elem_of_singleton in He as ->. lia.
Qed.

Lemma sorted_take n l : StronglySorted before l -> StronglySorted before (take n l).
Proof. intros Hs. rewrite <- (take_drop n l) in Hs. by eapply StronglySorted_app_1_l. Qed.

(** A page of a sorted list holds everything up to its last event. *)
Lemma page_complete (n : nat) l z e : StronglySorted before l -> last (take n l) = Some z -> e ∈ l ->
  Seq e <= Seq z -> e ∈ take n l.
Proof.
  intros Hs Hz He Hle. rewrite <- (take_drop n l) in Hs, He. apply elem_of_app in He as [He|He]; [done|].
  assert (z ∈ take n l) as Hin by (rewrite last_lookup in Hz; by eapply list_elem_of_lookup_2).
  pose proof (StronglySorted_app_1_elem_of _ _ _ _ _ Hs Hin He) as Hb. unfold before in Hb. lia.
Qed.

Lemma filter_redacted s0 from l l' : Forall2 redacted_of l l' ->
  Forall2 redacted_of (filter (selects s0 from) l) (filter (selects s0 from) l').
Proof.
  induction 1 as [|a b l l' Hab _ IH]; [constructor|]. rewrite !filter_cons.
  assert (selects s0 from a <-> selects s0 from b) as Hiff by (by destruct Hab as [->| ->]).
  destruct (decide (selects s0 from a)), (decide (selects s0 from b)); try tauto. by constructor.
Qed.

Lemma redacted_last l l' z : Forall2 redacted_of l l' -> last l' = Some z ->
  exists z', last l = Some z' /\ Seq z' = Seq z.
Proof.
  intros Hr Hz. assert (Seq <$> last l = Seq <$> last l') as He.
  { rewrite <- !fmap_last. f_equal. apply redacted_seq, Hr. }
  rewrite Hz in He. destruct (last l) as [z'|]; [|done]. injection He as He. by exists z'.
Qed.

(** A page of what the store retains is, up to redaction, what the history
    has from [from] to the last event of the page, and misses only what
    retention removed. *)
Lemma page_of_history from0 s0 σ from z (n : nat) : inv from0 s0 σ ->
  let evs := take n (filter (selects s0 from) (retained (store σ))) in
  last evs = Some z ->
  exists orig, Forall2 redacted_of orig evs /\ StronglySorted before orig /\
    from <= Seq z <= assigned (store σ) /\
    (forall e, e ∈ orig -> e ∈ history σ /\ selects s0 from e /\ Seq e <= Seq z) /\
    (forall e, e ∈ history σ -> selects s0 from e -> Seq e <= Seq z -> e ∈ orig \/ Seq e < floor σ).
Proof.
  intros Hi evs Hz. pose proof (inv_log _ _ _ Hi) as Hlog. destruct (inv_ret _ _ _ Hi) as (k & Hk & Hr).
  set (all := filter (selects s0 from) (drop k (history σ))). exists (take n all).
  assert (Forall2 redacted_of (take n all) evs) as Ho by (by apply Forall2_take, filter_redacted).
  assert (StronglySorted before all) as Hsort by (apply sorted_filter, sorted_drop, Hlog).
  destruct (redacted_last _ _ _ Ho Hz) as (z' & Hz' & Hzz).
  assert (forall e, e ∈ take n all -> e ∈ history σ /\ selects s0 from e) as Hin.
  { intros e He. assert (e ∈ all) as [? Hd]%list_elem_of_filter.
    { rewrite <- (take_drop n all). apply elem_of_app. by left. }
    split; [|done]. rewrite <- (take_drop k (history σ)). apply elem_of_app. by right. }
  assert (z' ∈ take n all) as Hzin by (rewrite last_lookup in Hz'; by eapply list_elem_of_lookup_2).
  destruct (Hin z' Hzin) as [Hzh [Hzf _]]. pose proof (ok_range _ _ Hlog z' Hzh).
  split_and!; [done|by apply sorted_take|lia|lia| |].
  - intros e He. destruct (Hin e He). split_and!; [done|done|]. rewrite <- Hzz.
    eapply sorted_last; [|done|done]. by apply sorted_take.
  - intros e He Hs Hle. destruct (decide (Seq e < floor σ)) as [|Hge]; [by right|left].
    apply (page_complete n all z'); [done|done| |lia].
    apply list_elem_of_filter. split; [done|]. eapply (kept_copy _ _ _ e k Hi); [done|lia|done].
Qed.

(** The backfill of [Next]. *)
Lemma inv_backfill from0 s0 σ from z : inv from0 s0 σ -> at_ σ = AtRead from ->
  let evs := take (Z.to_nat backfillSize) (filter (selects s0 from) (retained (store σ))) in
  last evs = Some z ->
  inv from0 s0 (mkSys (store σ) (set_next (Seq z + 1) (sub σ)) (AtDrain evs) (pending σ) (published σ) (answers σ)).
Proof.
  intros Hi Hat evs Hz. set (σ' := mkSys _ _ _ _ _ _).
  destruct (page_of_history _ _ _ _ _ _ Hi Hz) as (orig & Ho & Hos & Hzr & Hin & Hco).
  pose proof (inv_at _ _ _ Hi) as Hfrom. unfold at_ok in Hfrom. rewrite Hat in Hfrom.
  destruct (inv_next _ _ _ Hi) as [Hn1 Hn2].
  assert (nextSeq (sub σ) <= from) as Hnf by lia.
  eassert _ as Htk; [eapply (extend_taken from0 s0 σ σ' evs orig (Seq z + 1)); try done|].
  - unfold taken. cbn. by rewrite Hat, app_nil_r.
  - intros e He. destruct (Hin e He) as (? & [? ?] & ?). split_and!; [done|split; [lia|done]|lia].
  - lia.
  - intros e He [Hs1 Hs2] Hlt. destruct (decide (Seq e < floor σ)) as [|Hge]; [by right|].
    apply Hco; [done|split; [lia|done]|lia].
  - destruct Hi. split; try done; cbn [sub store published σ' set_next nextSeq ch stream]; try done. lia.
Qed.

(** Waiting starts when the store has nothing more for the subscriber. *)
Lemma window_start from0 s0 σ : inv from0 s0 σ ->
  (forall e, e ∈ history σ -> selects s0 (nextSeq (sub σ)) e -> Seq e < floor σ) -> window 0 σ.
Proof.
  intros Hi Hnone. pose proof (inv_log _ _ _ Hi) as Hlog. pose proof (inv_stream _ _ _ Hi) as Hst.
  assert (forall e, e ∈ published σ -> Seq e <= assigned (store σ)) as Hle.
  { intros e He. apply (ok_range _ _ Hlog). apply elem_of_app. by left. }
  exists (Z.max (nextSeq (sub σ)) (assigned (store σ) + 1)), (ch (sub σ)), [], [].
  assert (filter (selects (stream (sub σ)) (Z.max (nextSeq (sub σ)) (assigned (store σ) + 1))) (published σ) = [])
    as Hnil.
  { apply filter_none. intros e He [Hge _]. specialize (Hle e He). lia. }
  rewrite Hnil, app_nil_r, Hst. split_and!; [done|lia|lia| |done|by left|].
  - intros e He. apply (inv_ch _ _ _ Hi) in He as [He%Hle _]. lia.
  - intros e He Hs _. by apply Hnone.
Qed.

Lemma read_nothing from0 s0 σ from : inv from0 s0 σ -> at_ σ = AtRead from ->
  take (Z.to_nat backfillSize) (filter (selects s0 from) (retained (store σ))) = [] ->
  forall e, e ∈ history σ -> selects s0 (nextSeq (sub σ)) e -> Seq e < floor σ.
Proof.
  intros Hi Hat Hnil e He [Hs1 Hs2]. destruct (decide (Seq e < floor σ)) as [|Hge]; [done|exfalso].
  pose proof (inv_at _ _ _ Hi) as Hfrom. unfold at_ok in Hfrom. rewrite Hat in Hfrom.
  destruct (inv_ret _ _ _ Hi) as (k & _ & Hr).
  assert (e ∈ drop k (history σ)) as Hed by (eapply kept_copy; [done|done|lia|done]).
  assert (e ∈ filter (selects s0 from) (drop k (history σ))) as Hef.
  { apply list_elem_of_filter. split; [split; [lia|done]|done]. }
  pose proof (filter_redacted s0 from _ _ Hr) as Hf.
  destruct Hf as [|a b l l' _ _]; [by apply not_elem_of_nil in Hef|]. done.
Qed.

Lemma selected_tail s0 L (l t : list Event) e : StronglySorted before l ->
  filter (selects s0 L) l = e :: t -> filter (selects s0 (Seq e + 1)) l = t.
Proof.
  intros Hs Hf. pose proof (sorted_filter (selects s0 L) l Hs) as Hsf. rewrite Hf in Hsf.
  assert (e ∈ filter (selects s0 L) l) as [[HL Hw] _]%list_elem_of_filter by (rewrite Hf; left).
  rewrite (list_filter_iff (selects s0 (Seq e + 1)) (fun x => Seq e + 1 <= Seq x /\ selects s0 L x)).
  2: { intros x. unfold selects. intuition lia. }
  rewrite <- list_filter_filter, Hf, filter_cons_False by lia.
  apply filter_all. intros x Hx. pose proof (sorted_head e t Hsf x Hx). lia.
Qed.

(** Taking the event at the head of the channel. *)
Lemma window_pop from0 s0 σ at' ans' b e t : inv from0 s0 σ -> window b σ -> (b < batchSize)%nat ->
  ch (sub σ) = e :: t -> nextSeq (sub σ) <= Seq e ->
  (forall x, x ∈ history σ -> selects s0 (nextSeq (sub σ)) x -> Seq x < Seq e -> Seq x < floor σ) /\
  window (b + 1) (mkSys (store σ) (set_next (Seq e + 1) (set_ch t (sub σ))) at' (pending σ) (published σ) ans').
Proof.
  intros Hi (L & old & p & x & Hc & HL & HL' & Hold & Hpre & Hx & Hf) Hb Hch Hle.
  pose proof (inv_log _ _ _ Hi) as Hlog. pose proof (inv_stream _ _ _ Hi) as Hst. rewrite Hch in Hc.
  pose proof (inv_ch _ _ _ Hi e ltac:(rewrite Hch; left)) as [Hpub _].
  assert (e ∈ history σ) as Heh%(ok_range _ _ Hlog) by (apply elem_of_app; by left).
  rewrite Hst in *. destruct old as [|a old].
  2: { injection Hc as <- ->. specialize (Hold e ltac:(left)) as Hel. split.
    { intros y Hy Hs Hlt. apply Hf; [done|done|lia]. }
    exists L, old, p, x. cbn. rewrite Hst.
    split_and!; [done|lia|lia|intros y Hy; apply Hold; by right|done|cbn in Hx; intuition lia|].
    intros y Hy [? ?] ?. apply Hf; [done|split; [lia|done]|done]. }
  destruct p as [|a p].
  { exfalso. cbn in Hc, Hx. destruct Hx as [[_ ->]|[Hx|[_ ->]]]; [done| |done]. lia. }
  injection Hc as <- ->. destruct Hpre as [r Hr].
  pose proof (selected_tail s0 L _ _ _ (published_sorted _ _ _ Hi) Hr) as Htl.
  assert (forall y, y ∈ history σ -> selects s0 L y -> Seq e <= Seq y) as Hfirst.
  { intros y Hy Hs. unfold history in Hy. apply elem_of_app in Hy as [Hy|Hy].
    - assert (y ∈ e :: p ++ r) as [->|Hin]%elem_of_cons; [|done|].
      { change (e :: p ++ r) with ((e :: p) ++ r). rewrite <- Hr. by apply list_elem_of_filter. }
      pose proof (sorted_filter (selects s0 L) _ (published_sorted _ _ _ Hi)) as Hsf. rewrite Hr in Hsf.
      pose proof (sorted_head e (p ++ r) Hsf y Hin). lia.
    - destruct (pending σ) as [q|] eqn:Ep; [|by apply not_elem_of_nil in Hy].
      apply list_elem_of_singleton in Hy as ->. pose proof (history_split _ _ _ _ _ Hi Ep Hpub). lia. }
  assert (forall y, y ∈ history σ -> selects s0 (nextSeq (sub σ)) y -> Seq y < Seq e -> Seq y < floor σ) as Hforg.
  { intros y Hy Hs Hlt. destruct (decide (Seq y < L)) as [|Hge]; [by apply Hf|].
    specialize (Hfirst y Hy). destruct Hs as [_ Hw]. specialize (Hfirst ltac:(split; [lia|done])). lia. }
  split; [done|]. exists (Seq e + 1), [], p, x. cbn. rewrite Hst.
  assert (L <= Seq e) as HLe.
  { assert (e ∈ filter (selects s0 L) (published σ)) as [[? _] _]%list_elem_of_filter by (rewrite Hr; left). done. }
  split_and!; [done|lia|lia|intros y Hy; by apply not_elem_of_nil in Hy| | |].
  - rewrite Htl. by exists r.
  - rewrite Htl. destruct Hx as [[Hp ->]|[Hx|[? ->]]]; [left|right; left|right; right; done].
    + split; [|done]. rewrite Hr in Hp. injection Hp as Hp. done.
    + cbn in Hx. lia.
  - intros y Hy [Hs1 Hs2] Hlt. lia.
Qed.

Lemma inv_take from0 s0 σ batch e t : inv from0 s0 σ -> window (length batch) σ ->
  in_hand (at_ σ) = batch -> (length batch < batchSize)%nat ->
  ch (sub σ) = e :: t -> nextSeq (sub σ) <= Seq e ->
  inv from0 s0 (mkSys (store σ) (set_next (Seq e + 1) (set_ch t (sub σ))) (AtMore (batch ++ [e])) (pending σ)
                  (published σ) (answers σ)).
Proof.
  intros Hi Hwin Hhand Hb Hch Hle. set (σ' := mkSys _ _ _ _ _ _).
  destruct (window_pop _ _ σ (AtMore (batch ++ [e])) (answers σ) _ e t Hi Hwin Hb Hch Hle) as [Hforg Hwin'].
  pose proof (inv_log _ _ _ Hi) as Hlog. pose proof (inv_ch_sorted _ _ _ Hi) as Hcs. rewrite Hch in Hcs.
  pose proof (inv_ch _ _ _ Hi) as Hc. rewrite Hch in Hc. destruct (Hc e ltac:(left)) as [Hpub Hwant].
  assert (e ∈ history σ) as Heh by (apply elem_of_app; by left).
  pose proof (ok_range _ _ Hlog e Heh) as Her. destruct (inv_next _ _ _ Hi) as [Hn1 Hn2].
  eassert _ as Htk; [eapply (extend_taken from0 s0 σ σ' [e] [e] (Seq e + 1)); try done|].
  - unfold taken. cbn. by rewrite Hhand, app_assoc.
  - constructor; [by left|constructor].
  - repeat constructor.
  - intros x Hx. apply list_elem_of_singleton in Hx as ->. split_and!; [done|done|lia].
  - lia.
  - intros x Hx Hs Hlt. destruct (decide (Seq x < Seq e)) as [Hxe|Hxe]; [right; by apply Hforg|].
    left. apply list_elem_of_singleton. eapply (sorted_seq_inj (history σ)); [apply Hlog|done|done|lia].
  - destruct Hi. split; try done; cbn [sub store published σ' set_next nextSeq ch stream set_ch].
    + by inversion Hcs.
    + intros x Hx. apply Hc. by right.
    + lia.
    + cbn. rewrite length_app. split_and!; [done| |by exists e].
      intros x Hx. pose proof (sorted_head _ _ Hcs x Hx). lia.
Qed.

(** *** Every step keeps the invariant *)

Lemma floor_range from0 s0 σ : inv from0 s0 σ -> 0 <= floor σ <= maxInt64 + 1.
Proof.
  intros Hi. unfold floor. pose proof (wf_log _ (inv_wf _ _ _ Hi)) as Hr. pose proof (ok_bound _ _ Hr).
  destruct (retained (store σ)) as [|a l]; cbn; [lia|]. pose proof (ok_range _ _ Hr a ltac:(left)). lia.
Qed.

Lemma inv_next_step from0 s0 σ io i : 0 <= from0 <= maxInt64 -> inv from0 s0 σ ->
  inv from0 s0 (after_next σ (next_step io i (store σ) (sub σ) (at_ σ))).
Proof.
  intros Hf0 Hi. pose proof (inv_wf _ _ _ Hi) as Hw. pose proof (inv_at _ _ _ Hi) as Hat.
  pose proof (inv_log _ _ _ Hi) as Hlog. destruct (inv_next _ _ _ Hi) as [Hn1 Hn2].
  assert (forall e, e ∈ ch (sub σ) -> u64 (Seq e + 1) = Seq e + 1) as Hu.
  { intros e [He _]%(inv_ch _ _ _ Hi). apply u64_small.
    assert (e ∈ history σ) as Her%(ok_range _ _ Hlog) by (apply elem_of_app; by left).
    pose proof (ok_bound _ _ Hlog). unfold maxInt64 in *. lia. }
  assert (forall s' p' a k, stream s' = stream (sub σ) -> nextSeq s' = nextSeq (sub σ) ->
    ch s' = drop k (ch (sub σ)) ->
    delivered (match a with Some x => [x] | None => [] end) ++ in_hand p' = in_hand (at_ σ) ->
    at_ok (after_next σ (s', p', a)) -> inv from0 s0 (after_next σ (s', p', a))) as Hq.
  { intros s' p' a k H1 H2 H3 H4 H5. eapply (inv_quiet _ _ σ _ k); try done.
    unfold taken. cbn. rewrite delivered_app, <- app_assoc. by rewrite H4. }
  unfold next_step. destruct (at_ σ) as [|was| |from|evs| |batch] eqn:Ea.
  - step_if; by apply (Hq _ _ _ O).
  - pose proof (Last_law io (store σ) Hw) as Hl. destruct (Last io (store σ)) as [last|]; [|by apply (Hq _ _ _ O)].
    subst last. step_if; [by apply (Hq _ _ _ O)|]. bool_hyp.
    apply (Hq _ _ _ O); try done. apply (window_start from0 s0 σ Hi).
    intros e He [Hge _]. pose proof (ok_range _ _ Hlog e He). lia.
  - pose proof (First_law io (store σ) Hw) as Hl. destruct (First io (store σ)) as [first|]; [|by apply (Hq _ _ _ O)].
    subst first. unfold start_at. step_if; [|step_if; [by apply (Hq _ _ _ O)|]]; bool_hyp;
      apply (Hq _ _ _ O); try done; [right|by left]. split; [done|].
    pose proof (floor_range _ _ _ Hi) as Hfl. unfold floor in *. cbn. lia.
  - pose proof (Read_law io from (stream (sub σ)) backfillSize (store σ) Hw ltac:(done)) as Hl.
    unfold at_ok in Hat. rewrite Ea in Hat.
    pose proof (floor_range _ _ _ Hi). pose proof (ok_bound _ _ Hlog).
    specialize (Hl ltac:(unfold maxInt64 in *; lia)).
    destruct (Read _ _ _ _ _) as [evs|]; [|by apply (Hq _ _ _ O)].
    rewrite (inv_stream _ _ _ Hi) in Hl. destruct (last evs) as [z|] eqn:Ez.
    + subst evs. pose proof (inv_backfill _ _ _ _ _ Hi Ea Ez) as Hb.
      destruct (page_of_history _ _ _ _ _ _ Hi Ez) as (_ & _ & _ & Hzr & _).
      unfold after_next. cbn [fst snd]. rewrite app_nil_r, u64_small by (unfold maxInt64 in *; lia). exact Hb.
    + apply last_None in Ez as ->. apply (Hq _ _ _ O); try done.
      apply (window_start from0 s0 σ Hi). by eapply read_nothing.
  - destruct (ch (sub σ)) as [|e t] eqn:Ec; [by apply (Hq _ _ _ O); rewrite ?Ec; try done; cbn; rewrite !app_nil_r|].
    step_if; apply (Hq _ _ _ 1%nat); rewrite ?Ec; try done; cbn; by rewrite ?app_nil_r.
  - destruct i; [by apply (Hq _ _ _ O)|]. unfold at_ok in Hat. rewrite Ea in Hat.
    destruct (ch (sub σ)) as [|e t] eqn:Ec.
    { apply (Hq _ _ _ O); rewrite ?Ec; try done. }
    step_if; [apply (Hq _ _ _ 1%nat); by rewrite ?Ec|]. bool_hyp.
    rewrite Hu by left. pose proof (inv_take _ _ σ [] e t Hi Hat ltac:(by rewrite Ea) ltac:(cbv; lia) Ec ltac:(lia)) as Ht.
    unfold after_next. cbn [fst snd]. by rewrite app_nil_r.
  - unfold at_ok in Hat. rewrite Ea in Hat. destruct Hat as (Hwin & Hge & z & Hz & Hzn).
    destruct (length batch <? batchSize)%nat eqn:Eb.
    2: { apply (Hq _ _ _ O); try done. cbn. by rewrite !app_nil_r. }
    apply Nat.ltb_lt in Eb. destruct (ch (sub σ)) as [|e t] eqn:Ec.
    { apply (Hq _ _ _ O); rewrite ?Ec; try done. cbn. by rewrite !app_nil_r. }
    specialize (Hge e ltac:(left)). zb. rewrite Hu by left.
    pose proof (inv_take _ _ σ batch e t Hi Hwin ltac:(by rewrite Ea) Eb Ec Hge) as Ht.
    unfold after_next. cbn [fst snd]. by rewrite app_nil_r.
Qed.

Lemma log_inv_step from0 s0 σ σ' : 0 <= from0 <= maxInt64 -> log_step σ σ' -> inv from0 s0 σ -> inv from0 s0 σ'.
Proof.
  intros Hf0 Hstep Hi. pose proof (inv_wf _ _ _ Hi) as Hw.
  destruct Hstep as [io now e e' st' σ Hp Hr Ha|e σ Hp|io t n σ Hp|io m n σ Hp|io tenant t n σ Hp|σ Hp|io i σ].
  - by eapply inv_append.
  - by apply inv_fan_out.
  - destruct (Prune_law io t n (store σ) Hw) as (k & H1 & H2 & H3). by eapply inv_shrink.
  - destruct (PruneSize_law io m n (store σ) Hw) as (k & H1 & H2 & H3). by eapply inv_shrink.
  - destruct (Redact_law io tenant t n (store σ) Hw) as (H1 & H2 & H3). by eapply inv_redact.
  - eapply (inv_quiet _ _ σ _ O); try done. apply (at_ok_same σ); try done. apply Hi.
  - by apply inv_next_step.
Qed.

Lemma inv_subscribed st0 from0 s0 : wf st0 -> inv from0 s0 (subscribed from0 s0 st0).
Proof.
  intros Hw. pose proof (wf_log _ Hw) as Hlog.
  assert (history (subscribed from0 s0 st0) = retained st0) as Hh by (unfold history; cbn; by rewrite app_nil_r).
  split; rewrite ?Hh; cbn; try done.
  - exists O. split; [lia|]. apply redacted_refl.
  - constructor.
  - intros e He. by apply not_elem_of_nil in He.
  - lia.
  - exists []. split_and!; [constructor|constructor|intros e He; by apply not_elem_of_nil in He|].
    intros e He [? _] ?. lia.
Qed.

Lemma log_inv_reachable st0 from0 s0 σ : wf st0 -> 0 <= from0 <= maxInt64 ->
  rtc log_step (subscribed from0 s0 st0) σ -> inv from0 s0 σ.
Proof.
  intros Hw Hf Hr. eapply (rtc_ind_r (fun σ => inv from0 s0 σ)); [by apply inv_subscribed| |exact Hr].
  intros y z _ Hyz. by eapply log_inv_step.
Qed.

Lemma sorted_ext l l' : StronglySorted before l -> StronglySorted before l' ->
  (forall e, e ∈ l <-> e ∈ l') -> l = l'.
Proof.
  intros Hl Hl' He. apply (StronglySorted_unique_strong before); [|done|done|].
  - intros a b _ _ Hab Hba. unfold before in *. lia.
  - apply NoDup_Permutation; [by apply sorted_nodup|by apply sorted_nodup|done].
Qed.

(** C31: whatever appends, fan-outs, retention passes, redactions,
    storage faults and interrupts happen between the steps of its calls, a
    subscriber has been given, in order and without duplicates, events of the
    history of its stream from the sequence number it asked for, each as it
    was appended or redacted, and one it has been moved past without being
    given was removed by retention.  When nothing was removed it has been
    given exactly the events up to the next number it expects.  A subscriber
    that waits with an empty channel has no published event left to be
    given. *)
Theorem subscriber_misses_no_retained_event st0 from0 s0 σ :
  wf st0 -> 0 <= from0 <= maxInt64 -> rtc log_step (subscribed from0 s0 st0) σ ->
  (exists d, Forall2 redacted_of d (taken σ) /\ StronglySorted before d /\
    (forall e, e ∈ d -> e ∈ history σ /\ selects s0 from0 e) /\
    (forall e, e ∈ history σ -> selects s0 from0 e -> Seq e < nextSeq (sub σ) -> e ∈ d \/ Seq e < floor σ)) /\
  (floor σ <= Z.max 1 from0 ->
    Forall2 redacted_of (filter (fun e => selects s0 from0 e /\ Seq e < nextSeq (sub σ)) (history σ)) (taken σ)) /\
  (at_ σ = AtSelect -> ch (sub σ) = [] -> closed (sub σ) = false ->
    forall e, e ∈ published σ -> selects s0 from0 e -> Seq e < nextSeq (sub σ) \/ Seq e < floor σ).
Proof.
  intros Hw Hf Hr. pose proof (log_inv_reachable _ _ _ _ Hw Hf Hr) as Hi.
  pose proof (inv_log _ _ _ Hi) as Hlog.
  destruct (inv_taken _ _ _ Hi) as (d & Hd & Hds & Hdi & Hdc). split_and!.
  - exists d. split_and!; [done|done| |done]. intros e He. by destruct (Hdi e He) as (? & ? & ?).
  - intros Hfl. rewrite (sorted_ext _ d); [done|apply sorted_filter, Hlog|done|].
    intros e. rewrite list_elem_of_filter. split.
    + intros [[Hs Hlt] He]. destruct (Hdc e He Hs Hlt) as [|Hb]; [done|].
      pose proof (ok_range _ _ Hlog e He). destruct Hs. lia.
    + intros He. destruct (Hdi e He) as (? & ? & ?). done.
  - intros Hat Hch Hcl e He [Hs1 Hs2]. pose proof (inv_at _ _ _ Hi) as Hwin. unfold at_ok in Hwin. rewrite Hat in Hwin.
    destruct Hwin as (L & old & p & x & Hc & HL & _ & _ & _ & Hx & Hfg). rewrite (inv_stream _ _ _ Hi) in *.
    rewrite Hch in Hc. symmetry in Hc. apply app_nil in Hc as [-> [-> ->]%app_nil].
    destruct Hx as [[Hx _]|[Hx|[Hx _]]]; [|cbv in Hx; lia|congruence].
    destruct (decide (Seq e < nextSeq (sub σ))) as [|Hge]; [by left|right].
    assert (Seq e < L) as HeL.
    { destruct (decide (Seq e < L)) as [|HgeL]; [done|]. exfalso.
      apply (not_elem_of_nil e). rewrite Hx. apply list_elem_of_filter. split; [split; [lia|done]|done]. }
    apply Hfg; [apply elem_of_app; by left|split; [lia|done]|done].
Qed.
End system.

(** ** A run on the memory store *)

Definition ok_io : db_io := mkIO None 0.
Definition ex_event (seq at_ : Z) : Event :=
  mkEvent seq at_ "ws1" "" "" "" 0 0 "" "" "acme" "ws1" 1 1 "" "" 0 "workspace.created" [] 0.
Definition ex_memory : Memory := mkMemory [ex_event 1 10; ex_event 2 20] 1 3 0.

Definition go_next (σ : @sys Memory) : @sys Memory :=
  after_next σ (next_step ok_io None (store σ) (sub σ) (at_ σ)).

Lemma rtc_go_next n σ : rtc log_step σ (Nat.iter n go_next σ).
Proof.
  induction n as [|n IH]; [apply rtc_refl|]. eapply rtc_r; [exact IH|]. apply step_next.
Qed.

Lemma ex_memory_wf : wf ex_memory.
Proof.
  cbn. unfold Memory_wf. cbn. split_and!; [|reflexivity|lia|by vm_compute].
  intros [|[|i]] e; cbn; [by intros [= <-]|by intros [= <-]|done].
Qed.

(** A call of [Next] up to the read of the store, after its test of the oldest
    retained event. *)
Definition ex_checked : sys := Eval vm_compute in Nat.iter 3 go_next (subscribed 1 "ws1" ex_memory).
Definition ex_pruned : sys := Eval vm_compute in set_store (snd (Prune ok_io 15 0 (store ex_checked))) ex_checked.
Definition ex_skipped : sys := Eval vm_compute in Nat.iter 2 go_next ex_pruned.

Lemma ex_checked_eq : Nat.iter 3 go_next (subscribed 1 "ws1" ex_memory) = ex_checked.
Proof. vm_compute. reflexivity. Qed.
Lemma ex_pruned_eq : set_store (snd (Prune ok_io 15 0 (store ex_checked))) ex_checked = ex_pruned.
Proof. vm_compute. reflexivity. Qed.
Lemma ex_skipped_eq : Nat.iter 2 go_next ex_pruned = ex_skipped.
Proof. vm_compute. reflexivity. Qed.

Lemma ex_skipped_reachable : rtc log_step (subscribed 1 "ws1" ex_memory) ex_skipped.
Proof.
  etransitivity; [apply (rtc_go_next 3)|]. rewrite ex_checked_eq.
  eapply rtc_l; [by apply (step_prune ok_io 15 0)|]. rewrite ex_pruned_eq, <- ex_skipped_eq. apply rtc_go_next.
Qed.

Lemma subscriber_misses_no_retained_event_witness :
  0 <= 1 <= maxInt64 /\
  exists d, Forall2 redacted_of d (taken ex_skipped) /\ StronglySorted before d.
Proof.
  split; [by vm_compute|].
  destruct (subscriber_misses_no_retained_event ex_memory 1 "ws1" ex_skipped ex_memory_wf
              ltac:(by vm_compute) ex_skipped_reachable) as [(d & Hd & Hs & _) _].
  by exists d.
Defined.

(** a retention pass that runs between the two store calls of a
    read makes a subscriber skip an event it asked for, although that event
    was retained when the read checked, and the call succeeds: no answer of
    the run reports an eviction. *)
Theorem retention_race_skips_silently :
  exists σ : @sys Memory, rtc log_step (subscribed 1 "ws1" ex_memory) σ /\
    answers σ = [Ok [ex_event 2 20]] /\ ex_event 1 10 ∈ history σ /\ selects "ws1" 1 (ex_event 1 10) /\
    nextSeq (sub σ) = 3.
Proof.
  exists ex_skipped. split_and!; [apply ex_skipped_reachable|reflexivity|left|by split|reflexivity].
Qed.
End EventLog.
