(* ===== verification/EventExport.v ===== *)
(** * Export cursors, export passes and the transactional outbox

    Translation of [src/internal/eventlog/export.go] (cursor store, options,
    [exportPass] and the loop of [RunExport]), of [Log.Export] in eventlog.go
    and of [src/internal/eventlog/outbox.go].

    Exporters that share a cursor run concurrently: an exporter is a machine
    whose transitions are its calls of the sink and of the cursor store, and a
    system is any number of them over one cursor store and one sink. *)

From Stdlib Require Import ZArith Lia Strings.Byte Strings.String.
From stdpp Require Import base gmap strings option sorting list.
From S2P Require Import Prelude EventStore EventLog.
#[local] Open Scope Z_scope.

Module EventExport.
Import EventStore EventLog.

(** ** Paging through the log: [Log.Export] *)

Definition exportPage : Z := 512.

Section paging.
Context {T : Type} `{Store T}.

(** The inner loop: hand the page to the sink, stop after [to] or at the first
    error of the sink.  [None] means go on with the next page. *)
Fixpoint export_page {X} (sink : Event -> X -> option string * X) (to : Z) (page : list Event) (last : Z) (x : X)
  : option (result log_error Z) * Z * X :=
  match page with
  | [] => (None, last, x)
  | e :: t =>
      if to <? Seq e then (Some (Ok last), last, x)
      else
        match sink e x with
        | (Some err, x') => (Some (Err (StoreError err)), last, x')
        | (None, x') => export_page sink to t (Seq e) x'
        end
  end.

(** The store may change between two pages: [st n] is what page [n] sees. *)
Fixpoint export_loop {X} (fuel : nat) (io : nat -> db_io) (st : nat -> T) (n : nat)
    (sink : Event -> X -> option string * X) (from to last : Z) (x : X) : result log_error Z * Z * X :=
  match fuel with
  | O => (Ok last, last, x)
  | S fuel' =>
      if to <? from then (Ok last, last, x)
      else
        match Read (io n) from "" exportPage (st n) with
        | Err e => (Err (StoreError e), last, x)
        | Ok [] => (Ok last, last, x)
        | Ok page =>
            match export_page sink to page last x with
            | (Some r, last', x') => (r, last', x')
            | (None, last', x') => export_loop fuel' io st (S n) sink (u64 (last' + 1)) to last' x'
            end
        end
  end.

(** Each page moves [from] forward, so the width of the range is enough fuel. *)
Definition Export {X} (io : nat -> db_io) (st : nat -> T) (from to : Z)
    (sink : Event -> X -> option string * X) (x : X) : result log_error Z * Z * X :=
  match First (io 0%nat) (st 0%nat) with
  | Err e => (Err (StoreError e), 0, x)
  | Ok first =>
      match start_at from first with
      | Err e => (Err e, 0, x)
      | Ok from =>
          match (if to =? 0 then Last (io 1%nat) (st 1%nat) else Ok to) with
          | Err e => (Err (StoreError e), 0, x)
          | Ok to => export_loop (S (Z.to_nat (to + 1 - from))) io st 2 sink from to 0 x
          end
      end
  end.
End paging.

(** *** A complete range *)

Section complete.
Context {T : Type} `{StoreLaws T}.

Definition collect (e : Event) (l : list Event) : option string * list Event := (None, l ++ [e]).

Definition in_range (from to : Z) (e : Event) : Prop := from <= Seq e <= to.
#[export] Instance in_range_dec from to e : Decision (in_range from to e).
Proof. unfold in_range. apply _. Defined.

Lemma export_page_collect to page last x : StronglySorted before page ->
  exists r last', export_page collect to page last x = (r, last', x ++ filter (fun e => Seq e <= to) page) /\
    match r with
    | None => (forall e, e ∈ page -> Seq e <= to) /\ last' = default last (Seq <$> list.last page)
    | Some a => a = Ok last' /\ exists e, e ∈ page /\ to < Seq e
    end.
Proof.
  revert last x. induction page as [|e page IH]; intros n x Hs.
  - exists None, n. cbn. rewrite app_nil_r. split_and!; [done| |done]. intros e He. by apply not_elem_of_nil in He.
  - cbn [export_page]. destruct (to <? Seq e) eqn:E; bool_hyp.
    + exists (Some (Ok n)), n. rewrite filter_none, app_nil_r.
      * split; [done|]. split; [done|]. exists e. split; [left|done].
      * intros y Hy. apply elem_of_cons in Hy as [->|Hy]; [lia|]. pose proof (sorted_head _ _ Hs y Hy). lia.
    + cbn [collect]. destruct (IH (Seq e) (x ++ [e])) as (r & last' & -> & Hr); [by inversion Hs|].
      exists r, last'. rewrite filter_cons_True, <- app_assoc by done. split; [done|].
      destruct r as [a|].
      * destruct Hr as (-> & y & Hy & Hlt). split; [done|]. exists y. split; [by right|done].
      * destruct Hr as [Hall ->]. split.
        { intros y Hy. apply elem_of_cons in Hy as [->|Hy]; [lia|by apply Hall]. }
        rewrite last_cons. by destruct (list.last page).
Qed.

(** A sorted list up to and after the last event of a page. *)
Lemma range_split (l : list Event) from to n z : StronglySorted before l ->
  list.last (take n (filter (selects "" from) l)) = Some z -> Seq z <= to ->
  filter (in_range from to) l =
  take n (filter (selects "" from) l) ++ filter (in_range (Seq z + 1) to) l.
Proof.
  intros Hs Hz Hle. pose proof (sorted_filter (selects "" from) l Hs) as Hsf.
  apply sorted_ext; [by apply sorted_filter| |].
  - apply StronglySorted_app. split_and!; [|by apply sorted_take|by apply sorted_filter].
    intros a b Ha Hb. pose proof (sorted_last _ _ a (sorted_take n _ Hsf) Hz Ha).
    apply list_elem_of_filter in Hb as [[? _] _]. unfold before. lia.
  - intros e. rewrite elem_of_app, !list_elem_of_filter. unfold in_range. split.
    + intros [[Hf Ht] He]. destruct (decide (Seq e <= Seq z)) as [Hez|]; [left|right; split; [lia|done]].
      apply (page_complete n _ z); [done|done| |done]. apply list_elem_of_filter. split; [by split|done].
    + intros [He|[? He]].
      * pose proof (sorted_last _ _ e (sorted_take n _ Hsf) Hz He).
        assert (e ∈ filter (selects "" from) l) as [[? _] ?]%list_elem_of_filter.
        { rewrite <- (take_drop n (filter _ _)). apply elem_of_app. by left. }
        split; [lia|done].
      * split; [|done]. assert (z ∈ take n (filter (selects "" from) l)) as Hzi.
        { rewrite last_lookup in Hz. by eapply list_elem_of_lookup_2. }
        assert (z ∈ filter (selects "" from) l) as [[? _] _]%list_elem_of_filter.
        { rewrite <- (take_drop n (filter _ _)). apply elem_of_app. by left. }
        lia.
Qed.

Lemma export_loop_collect (io : nat -> db_io) (st : T) fuel : wf st -> (forall n, io_error (io n) = None) ->
  forall from to n last x, 0 <= from <= maxInt64 + 1 -> to + 1 - from < Z.of_nat fuel ->
  exists last', export_loop fuel io (fun _ => st) n collect from to last x
    = (Ok last', last', x ++ filter (in_range from to) (retained st)).
Proof.
  intros Hw Hio. pose proof (wf_log _ Hw) as Hlog. pose proof (ok_sorted _ _ Hlog) as Hs.
  induction fuel as [|fuel IH]; intros from to n last x Hfr Hfu.
  { exists last. cbn. rewrite filter_none, app_nil_r; [done|]. unfold in_range. intros e He Hr. lia. }
  cbn [export_loop]. destruct (to <? from) eqn:E; bool_hyp.
  { exists last. rewrite filter_none, app_nil_r; [done|]. unfold in_range. intros e He Hr. lia. }
  pose proof (Read_law (io n) from "" exportPage st Hw ltac:(done) ltac:(lia)) as Hr.
  destruct (Read _ _ _ _ _) as [page|]; [|by rewrite Hio in Hr].
  pose proof (sorted_take (Z.to_nat exportPage) _ (sorted_filter (selects "" from) _ Hs)) as Hsp.
  destruct page as [|a page'] eqn:Ep.
  { exists last. rewrite filter_none, app_nil_r; [done|]. intros e He [Hge _].
    assert (e ∈ filter (selects "" from) (retained st)) as Hin by (by apply list_elem_of_filter).
    destruct (filter (selects "" from) (retained st)); [by apply not_elem_of_nil in Hin|done]. }
  rewrite Hr. set (pg := take _ _) in *.
  assert (exists z, list.last pg = Some z) as [z Hz] by (rewrite <- Hr; apply last_is_Some; done).
  destruct (export_page_collect to pg last x Hsp) as (r & last' & -> & Hres).
  destruct r as [a'|].
  - destruct Hres as (-> & e & He & Hlt). exists last'. f_equal. f_equal.
    apply sorted_ext; [by apply sorted_filter|by apply sorted_filter|].
    intros y. rewrite !list_elem_of_filter. unfold in_range. split.
    + intros [Hy Hin]. assert (y ∈ filter (selects "" from) (retained st)) as [[? _] ?]%list_elem_of_filter.
      { rewrite <- (take_drop (Z.to_nat exportPage) (filter _ _)). apply elem_of_app. by left. }
      done.
    + intros [[Hf Ht] Hy]. split; [done|]. apply (page_complete _ _ z); [by apply sorted_filter|done| |].
      * apply list_elem_of_filter. by split.
      * pose proof (sorted_last _ _ e Hsp Hz He). lia.
  - destruct Hres as [Hall ->]. rewrite Hz. cbn.
    assert (z ∈ pg) as Hzi by (rewrite last_lookup in Hz; by eapply list_elem_of_lookup_2).
    assert (z ∈ filter (selects "" from) (retained st)) as [[Hzf _] Hzr]%list_elem_of_filter.
    { rewrite <- (take_drop (Z.to_nat exportPage) (filter _ _)). apply elem_of_app. by left. }
    pose proof (ok_range _ _ Hlog z Hzr). pose proof (ok_bound _ _ Hlog).
    rewrite u64_small by (unfold maxInt64 in *; lia).
    destruct (IH (Seq z + 1) to (S n) (Seq z) (x ++ filter (fun e => Seq e <= to) pg) ltac:(lia) ltac:(lia)) as [l' ->].
    exists l'. f_equal. rewrite <- app_assoc. f_equal.
    rewrite (filter_all _ pg) by done. symmetry. apply range_split; [done|done|]. by apply Hall.
Qed.

(** an export over a store that does not fail and does not
    change hands its sink exactly the retained events from [from] (the oldest
    when zero) to [to] (the newest when zero), in order, whatever the page
    size cuts; a start below the oldest retained event is refused with that
    event's number before anything is sent. *)
Theorem export_delivers_the_range io (st : T) from to :
  wf st -> (forall n, io_error (io n) = None) -> 0 <= from <= maxInt64 + 1 ->
  let first := oldest (retained st) (assigned st) in
  if negb (from =? 0) && (from <? first) then
    Export io (fun _ => st) from to collect [] = (Err (Evicted first), 0, [])
  else
    exists last, Export io (fun _ => st) from to collect [] =
      (Ok last, last, filter (in_range (if from =? 0 then first else from) (if to =? 0 then assigned st else to))
                        (retained st)).
Proof.
  intros Hw Hio Hfr first. unfold Export, start_at.
  pose proof (First_law (io 0%nat) st Hw) as Hf. destruct (First _ _) as [f|]; [|by rewrite Hio in Hf].
  pose proof (Last_law (io 1%nat) st Hw) as Hl. destruct (Last _ _) as [n|]; [|by rewrite Hio in Hl].
  fold first in Hf. subst f n.
  assert (0 <= first <= maxInt64 + 1) as Hfirst.
  { pose proof (wf_log _ Hw) as Hr. pose proof (ok_bound _ _ Hr). unfold first.
    destruct (retained st) as [|a l]; cbn; [lia|]. pose proof (ok_range _ _ Hr a ltac:(left)). lia. }
  destruct (from =? 0) eqn:E0, (from <? first) eqn:E1; cbn [negb andb]; bool_hyp; try done;
    destruct (to =? 0); apply export_loop_collect; try done; lia.
Qed.
End complete.

(** ** Cursors: [MemoryCursorStore] *)

Record Cursor := mkCursor { Name : string; Next : Z; Revision : Z; UpdatedAt : Z }.

#[export] Instance Cursor_eq_dec : EqDecision Cursor.
Proof. solve_decision. Defined.

Record MemoryCursorStore := mkCursors { cursors : gmap string Cursor; capacity : Z }.

Definition NewMemoryCursorStore (max : Z) : result string MemoryCursorStore :=
  if max <=? 0 then Err "cursor capacity must be positive"%string else Ok (mkCursors ∅ max).

Inductive cursor_error := ErrCursorConflict | ErrCursor (e : string).

(** [ctx] is the error of a cancelled context. *)
Definition Load (ctx : option string) (name : string) (s : MemoryCursorStore) : result cursor_error Cursor :=
  match ctx with
  | Some e => Err (ErrCursor e)
  | None =>
      if name =s "" then Err (ErrCursor "cursor name is required")
      else Ok (default (mkCursor name 0 0 0) (cursors s !! name))
  end.

Definition CompareAndSwap (ctx : option string) (now : Z) (name : string) (previous : Cursor) (next : Z)
    (s : MemoryCursorStore) : result cursor_error Cursor * MemoryCursorStore :=
  match ctx with
  | Some e => (Err (ErrCursor e), s)
  | None =>
      if (name =s "") || (Name previous <>s name) then (Err (ErrCursor "cursor name is required"), s)
      else
        let current := default (mkCursor name 0 0 0) (cursors s !! name) in
        if negb (Revision current =? Revision previous) || negb (Next current =? Next previous)
        then (Err ErrCursorConflict, s)
        else if next <? Next current then (Err (ErrCursor "export cursor cannot move backward"), s)
        else if bool_decide (cursors s !! name = None) && (capacity s <=? Z.of_nat (size (cursors s)))
        then (Err (ErrCursor "export cursor capacity exhausted"), s)
        else if Revision current =? maxUint64 then (Err (ErrCursor "export cursor revision exhausted"), s)
        else
          let advanced := mkCursor (Name current) next (Revision current + 1) now in
          (Ok advanced, mkCursors (<[name := advanced]> (cursors s)) (capacity s))
  end.

(** ** Options *)

Record RunOptions := mkRunOptions {
  OptName : string; From : Z; To : Z; Follow : bool; BatchEvents : Z; BatchBytes : Z; PollInterval : Z }.

Definition normalized (o : RunOptions) : result string RunOptions :=
  let o := mkRunOptions (OptName o) (From o) (To o) (Follow o)
             (if BatchEvents o =? 0 then 128 else BatchEvents o)
             (if BatchBytes o =? 0 then 2 ^ 20 else BatchBytes o)
             (if PollInterval o =? 0 then Second else PollInterval o) in
  if (BatchEvents o <? 1) || (4096 <? BatchEvents o) then Err "batch events"%string
  else if (BatchBytes o <? 1) || (2 ^ 24 <? BatchBytes o) then Err "batch bytes"%string
  else if (PollInterval o <? Millisecond) || (Minute <? PollInterval o) then Err "poll interval"%string
  else if Follow o && negb (To o =? 0) then Err "a followed export cannot have an end sequence"%string
  else Ok o.

(** ** One pass: [exportPass]

    [line] is [MarshalEventJSONLine], of which only the length is used. *)

(** The variables of [exportPass], the [from] it was called with and the cursor
    it shares with [RunExport]. *)
Record pass := mkPass {
  start : Z; batch : list Event; batchBytes : Z; lastSent : Z; expected : Z; cursor : Cursor }.

Definition begin_pass (from : Z) (c : Cursor) : pass := mkPass from [] 0 0 from c.

Definition push (e : Event) (n : Z) (p : pass) : pass :=
  mkPass (start p) (batch p ++ [e]) (batchBytes p + n) (lastSent p) (expected p) (cursor p).

(** What the callback does with an event: refuse it, or append it, perhaps
    after a flush. *)
Inductive verdict :=
| Refuse (e : string)
| Accept (flush_first : bool) (p : pass) (bytes : Z).

Definition callback (o : RunOptions) (line : Event -> result string Z) (e : Event) (p : pass) : verdict :=
  if Seq e =? 0 then Refuse "unsequenced event"
  else
    let expected' := if expected p =? 0 then Seq e else expected p in
    if negb (Seq e =? expected') then Refuse "export sequence gap"
    else if expected' =? maxUint64 then Refuse "event sequence exhausted"
    else
      match line e with
      | Err m => Refuse m
      | Ok n =>
          if BatchBytes o <? n then Refuse "event exceeds export batch limit"
          else
            Accept ((Z.of_nat (length (batch p)) =? BatchEvents o) || (BatchBytes o <? batchBytes p + n))
              (mkPass (start p) (batch p) (batchBytes p) (lastSent p) (expected' + 1) (cursor p)) n
      end.

(** After the sink took the batch: the sequence number the cursor moves to. *)
Definition next_after (p : pass) : result string Z :=
  match last (batch p) with
  | None => Ok 0
  | Some e => if Seq e =? maxUint64 then Err "event sequence exhausted"%string else Ok (Seq e + 1)
  end.

Definition flushed (c : Cursor) (p : pass) : pass :=
  mkPass (start p) [] 0 (default 0 (Seq <$> last (batch p))) (expected p) c.

(** Where an exporter is: between calls, in a pass waiting for the source's
    next event, or in [flush] (with the event to append afterwards, if any):
    before [Send], before [CompareAndSwap], or before the [Load] that follows
    a conflict. *)
Inductive stage :=
| Starting
| Feeding (p : pass)
| Sending (p : pass) (after : option (Event * Z))
| Swapping (p : pass) (next : Z) (after : option (Event * Z))
| Reloading (p : pass) (next : Z) (after : option (Event * Z))
| Passed (p : pass)
| Stopped (e : string).

(** The end of [flush]. *)
Definition resume (after : option (Event * Z)) (p : pass) : stage :=
  match after with Some (e, n) => Feeding (push e n p) | None => Passed p end.

(** ** Exporters over one cursor store and one sink *)

(** [accepted] is the set of sequence numbers the sink has accepted. *)
Record world := mkWorld { store_ : MemoryCursorStore; accepted : gset Z }.

(** The environment of one transition: the context, the clock, what the
    source calls the callback with (or that it returned), and how the sink
    answers: it may fail before or after it took the batch. *)
Record choice := mkChoice {
  c_ctx : option string; c_now : Z; c_event : option (result string Event);
  c_took : bool; c_send_err : option string }.

Definition seqs (l : list Event) : gset Z := list_to_set (map Seq l).

Definition exporter_step (o : RunOptions) (line : Event -> result string Z) (c : choice) (w : world) (s : stage)
  : world * stage :=
  match s with
  | Starting =>
      match Load (c_ctx c) (OptName o) (store_ w) with
      | Err _ => (w, Stopped "load")
      | Ok cur => (w, Feeding (begin_pass (if From o <? Next cur then Next cur else From o) cur))
      end
  | Feeding p =>
      match c_event c with
      | Some (Err e) => (w, Stopped e)
      | Some (Ok e) =>
          match callback o line e p with
          | Refuse m => (w, Stopped m)
          | Accept true p' n => (w, match batch p' with [] => Feeding (push e n p') | _ => Sending p' (Some (e, n)) end)
          | Accept false p' n => (w, Feeding (push e n p'))
          end
      | None => (w, match batch p with [] => Passed p | _ => Sending p None end)
      end
  | Sending p after =>
      let w' := if c_took c then mkWorld (store_ w) (accepted w ∪ seqs (batch p)) else w in
      match c_send_err c with
      | Some e => (w', Stopped e)
      | None =>
          let w' := mkWorld (store_ w) (accepted w ∪ seqs (batch p)) in
          match next_after p with
          | Err e => (w', Stopped e)
          | Ok next => (w', Swapping p next after)
          end
      end
  | Swapping p next after =>
      match CompareAndSwap (c_ctx c) (c_now c) (OptName o) (cursor p) next (store_ w) with
      | (Ok cur, st) => (mkWorld st (accepted w), resume after (flushed cur p))
      | (Err ErrCursorConflict, st) => (mkWorld st (accepted w), Reloading p next after)
      | (Err (ErrCursor e), st) => (mkWorld st (accepted w), Stopped e)
      end
  | Reloading p next after =>
      match Load (c_ctx c) (OptName o) (store_ w) with
      | Err _ => (w, Stopped "load")
      | Ok cur => if Next cur =? next then (w, resume after (flushed cur p)) else (w, Stopped "cursor changed")
      end
  | Passed p =>
      if negb (Follow o) then (w, Stopped "done")
      else if lastSent p =? 0 then (w, Feeding (begin_pass (start p) (cursor p)))
      else if lastSent p =? maxUint64 then (w, Stopped "event sequence exhausted")
      else
        let from := lastSent p + 1 in
        (w, Feeding (begin_pass (if from <? Next (cursor p) then Next (cursor p) else from) (cursor p)))
  | Stopped e => (w, Stopped e)
  end.

(** ** Exports with a shared cursor never skip

    Any number of exporters with the same cursor name and start; one that
    crashed is never chosen again, and a new one may start at any time. *)

Section exporters.
Context (line : Event -> result string Z) (name : string) (from0 : Z).

Definition system : Type := world * list (RunOptions * stage).

Inductive export_step : system -> system -> Prop :=
| step_start o w l : OptName o = name -> From o = from0 -> export_step (w, l) (w, l ++ [(o, Starting)])
| step_exporter c w l i o s : l !! i = Some (o, s) ->
    export_step (w, l)
      (fst (exporter_step o line c w s), <[i := (o, snd (exporter_step o line c w s))]> l).

Definition cursor_next (w : world) : Z := Next (default (mkCursor name 0 0 0) (cursors (store_ w) !! name)).

(** Everything from the start up to [n] was accepted by the sink. *)
Definition covered (w : world) (n : Z) : Prop := forall k, from0 <= k < n -> k ∈ accepted w.

(** [x] is 1 while an event is to be appended after a flush. *)
Definition pass_ok (w : world) (x : Z) (p : pass) : Prop :=
  map Seq (batch p) = seqZ (expected p - x - Z.of_nat (length (batch p))) (Z.of_nat (length (batch p))) /\
  from0 <= expected p - x - Z.of_nat (length (batch p)) /\
  covered w (expected p - x - Z.of_nat (length (batch p))) /\
  covered w (Next (cursor p)) /\ from0 <= start p /\ covered w (start p) /\
  (lastSent p = 0 \/ (from0 <= lastSent p + 1 /\ covered w (lastSent p + 1))).

Definition after_ok (p : pass) (after : option (Event * Z)) : Prop :=
  match after with Some (e, _) => Seq e = expected p - 1 | None => True end.
Definition extra (after : option (Event * Z)) : Z := match after with Some _ => 1 | None => 0 end.

Definition stage_ok (w : world) (s : stage) : Prop :=
  match s with
  | Starting | Stopped _ => True
  | Feeding p => pass_ok w 0 p
  | Passed p => pass_ok w 0 p
  | Sending p after => batch p <> [] /\ after_ok p after /\ pass_ok w (extra after) p
  | Swapping p next after | Reloading p next after =>
      batch p <> [] /\ after_ok p after /\ pass_ok w (extra after) p /\ next = expected p - extra after /\
      covered w next
  end.

Definition system_ok (σ : system) : Prop :=
  covered (fst σ) (cursor_next (fst σ)) /\
  forall i o s, snd σ !! i = Some (o, s) -> OptName o = name /\ From o = from0 /\ stage_ok (fst σ) s.

Lemma covered_mono w w' n : accepted w ⊆ accepted w' -> covered w n -> covered w' n.
Proof. intros Hs Hc k Hk. by apply Hs, Hc. Qed.

Lemma stage_ok_mono w w' s : accepted w ⊆ accepted w' -> stage_ok w s -> stage_ok w' s.
Proof.
  intros Hs. assert (forall x p, pass_ok w x p -> pass_ok w' x p) as Hp.
  { intros x p (H1 & H2 & H3 & H4 & H5 & H6 & H7). split_and!; try done; try (by eapply covered_mono).
    destruct H7 as [|[? ?]]; [by left|right]. split; [done|by eapply covered_mono]. }
  destruct s; cbn; try done; intuition eauto using covered_mono.
Qed.

Lemma resume_ok w p c after : after_ok p after -> pass_ok w (extra after) p -> batch p <> [] ->
  covered w (expected p - extra after) -> covered w (Next c) -> stage_ok w (resume after (flushed c p)).
Proof.
  intros Ha (H1 & H2 & H3 & H4 & H5 & H6 & H7) Hne Hcov Hcur.
  assert (pass_ok w (extra after) (flushed c p)) as Hf.
  { unfold pass_ok, flushed. cbn. rewrite Z.sub_0_r. split_and!; try done; [lia|].
    destruct (last (batch p)) as [z|] eqn:Ez; [|by left]. cbn. right.
    assert (Seq z = expected p - extra after - 1) as ->.
    { assert (last (map Seq (batch p)) = Some (Seq z)) as Hl.
      { change (last (Seq <$> batch p) = Some (Seq z)). by rewrite fmap_last, Ez. }
      rewrite H1, last_lookup, length_seqZ in Hl. apply lookup_seqZ in Hl as [Hl _].
      assert (length (batch p) <> 0)%nat by (by destruct (batch p)). lia. }
    replace (expected p - extra after - 1 + 1) with (expected p - extra after) by lia. split; [lia|done]. }
  destruct after as [[e n]|]; cbn in *; [|done].
  destruct Hf as (F1 & F2 & F3 & F4 & F5 & F6 & F7). unfold pass_ok, push, flushed in *. cbn in *.
  replace (expected p - 0 - Z.of_nat 1) with (expected p - 1) by lia. split_and!; try done; try lia.
  - rewrite Ha. change (Z.of_nat 1) with 1. by rewrite seqZ_cons by lia.
Qed.

Lemma callback_ok o w e p : 0 < from0 -> pass_ok w 0 p ->
  match callback o line e p with
  | Refuse _ => True
  | Accept _ p' n => batch p' = batch p /\ pass_ok w 1 p' /\ Seq e = expected p' - 1
  end.
Proof.
  intros Hf (H1 & H2 & H3 & H4 & H5 & H6 & H7). unfold callback.
  assert (expected p <> 0) as He by lia. zb. step_if; [done|].
  destruct (Seq e =? expected p) eqn:Es; bool_hyp; [cbn|done]. step_if; [done|].
  destruct (line e); [|done]. step_if; [done|]. split_and!; [done| |cbn; lia].
  unfold pass_ok. cbn. replace (expected p + 1 - 1 - Z.of_nat (length (batch p)))
    with (expected p - 0 - Z.of_nat (length (batch p))) by lia. done.
Qed.

Lemma push_ok w e n p : pass_ok w 1 p -> Seq e = expected p - 1 -> pass_ok w 0 (push e n p).
Proof.
  intros (H1 & H2 & H3 & H4 & H5 & H6 & H7) He. unfold pass_ok, push. cbn.
  rewrite length_app, map_app. cbn [length map]. rewrite Nat2Z.inj_add. change (Z.of_nat 1) with 1.
  replace (expected p - 0 - (Z.of_nat (length (batch p)) + 1)) with (expected p - 1 - Z.of_nat (length (batch p))) by lia.
  split_and!; try done. rewrite H1, seqZ_app by lia. f_equal. rewrite He.
  replace (expected p - 1 - Z.of_nat (length (batch p)) + Z.of_nat (length (batch p))) with (expected p - 1) by lia.
  by rewrite seqZ_cons by lia.
Qed.

Lemma next_after_ok w x p n : batch p <> [] -> pass_ok w x p -> next_after p = Ok n -> n = expected p - x.
Proof.
  intros Hne (H1 & _) Hn. unfold next_after in Hn. destruct (last (batch p)) as [z|] eqn:Ez.
  2: { by apply last_None in Ez. }
  step_if; [done|]. injection Hn as <-.
  assert (last (map Seq (batch p)) = Some (Seq z)) as Hl.
  { change (last (Seq <$> batch p) = Some (Seq z)). by rewrite fmap_last, Ez. }
  rewrite H1, last_lookup, length_seqZ in Hl. apply lookup_seqZ in Hl as [Hl _].
  assert (length (batch p) <> 0)%nat by (by destruct (batch p)). lia.
Qed.

Lemma sent_covered w x p : pass_ok w x p ->
  covered (mkWorld (store_ w) (accepted w ∪ seqs (batch p))) (expected p - x).
Proof.
  intros (H1 & H2 & H3 & _) k Hk. cbn. apply elem_of_union.
  destruct (decide (k < expected p - x - Z.of_nat (length (batch p)))) as [Hlt|Hge]; [left; apply H3; lia|right].
  unfold seqs. rewrite H1. apply elem_of_list_to_set, elem_of_seqZ. lia.
Qed.

Lemma CompareAndSwap_spec ctx now prev next s :
  match CompareAndSwap ctx now name prev next s with
  | (Ok cur, s') => Next cur = next /\ cursors s' = <[name := cur]> (cursors s) /\
      Next (default (mkCursor name 0 0 0) (cursors s !! name)) <= next
  | (Err _, s') => s' = s
  end.
Proof.
  unfold CompareAndSwap. destruct ctx; [done|]. repeat (step_if; [done|]). cbn. bool_hyp. done.
Qed.

Lemma exporter_step_ok c w o s : 0 < from0 -> OptName o = name -> From o = from0 ->
  covered w (cursor_next w) -> stage_ok w s ->
  let '(w', s') := exporter_step o line c w s in
  accepted w ⊆ accepted w' /\ cursor_next w <= cursor_next w' /\ covered w' (cursor_next w') /\ stage_ok w' s'.
Proof.
  intros Hf Hn Hfr Hcov Hs.
  assert (forall x p, pass_ok w x p -> accepted w ⊆ accepted w ∪ seqs (batch p)) as Hsub by set_solver.
  destruct s as [|p|p after|p next after|p next after|p|e]; cbn [exporter_step].
  - unfold Load. destruct (c_ctx c); [done|]. step_if; [done|]. split_and!; [done|done|done|].
    rewrite Hfr, Hn. unfold cursor_next in Hcov. set (cur := default _ _) in *.
    unfold stage_ok, pass_ok, begin_pass. cbn. rewrite !Z.sub_0_r.
    destruct (from0 <? Next cur) eqn:El; bool_hyp; split_and!; auto; try lia; intros k Hk; lia.
  - destruct (c_event c) as [[e|e]|]; [|done|].
    + pose proof (callback_ok o w e p Hf Hs) as Hc. destruct (callback o line e p) as [m|[] p' n]; [done| |];
        destruct Hc as (Hb & Hp & He); [|split_and!; try done; by apply push_ok].
      destruct (batch p') eqn:Eb; [split_and!; try done; by apply push_ok|].
      split_and!; try done. cbn; by rewrite Eb.
    + destruct (batch p) eqn:Eb; [done|]. cbn. rewrite Eb. done.
  - destruct Hs as (Hne & Ha & Hp).
    set (w1 := mkWorld (store_ w) (accepted w ∪ seqs (batch p))).
    assert (covered w1 (cursor_next w)) as Hcov1 by (eapply covered_mono; [|exact Hcov]; cbn; set_solver).
    destruct (c_send_err c); [destruct (c_took c); cbn; split_and!; try done; set_solver|].
    destruct (next_after p) as [n|] eqn:En; [|cbn; split_and!; try done; set_solver].
    pose proof (next_after_ok _ _ _ _ Hne Hp En) as ->. cbn.
    split_and!; try done; [set_solver| |by apply sent_covered].
    eapply (stage_ok_mono w w1 (Sending p after)); [cbn; set_solver|done].
  - destruct Hs as (Hne & Ha & Hp & -> & Hcn).
    pose proof (CompareAndSwap_spec (c_ctx c) (c_now c) (cursor p) (expected p - extra after) (store_ w)) as Hcas.
    rewrite Hn. destruct (CompareAndSwap _ _ _ _ _ _) as [[cur|[|e]] st]; [|by subst st; destruct w|by subst st; destruct w].
    destruct Hcas as (Hnx & Hst & Hle). split_and!; [done| | |].
    + unfold cursor_next. cbn. rewrite Hst, lookup_insert_eq. cbn. by rewrite Hnx.
    + unfold cursor_next. cbn. rewrite Hst, lookup_insert_eq. cbn. by rewrite Hnx.
    + eapply (stage_ok_mono w); [done|]. apply resume_ok; try done. by rewrite Hnx.
  - destruct Hs as (Hne & Ha & Hp & -> & Hcn). unfold Load. destruct (c_ctx c); [done|]. step_if; [done|].
    step_if; [|done]. bool_hyp. split_and!; try done. apply resume_ok; try done. by rewrite E0.
  - step_if; [done|]. pose proof Hs as (H1 & H2 & H3 & H4 & H5 & H6 & H7).
    assert (forall n, from0 <= n -> covered w n -> stage_ok w (Feeding (begin_pass n (cursor p)))) as Hbegin.
    { intros n Hn0 Hc0. unfold stage_ok, pass_ok, begin_pass. cbn. rewrite !Z.sub_0_r. split_and!; auto. }
    step_if; [split_and!; try done; by apply Hbegin|]. step_if; [done|]. bool_hyp.
    destruct H7 as [|[H7 H8]]; [done|]. split_and!; try done.
    destruct (lastSent p + 1 <? Next (cursor p)) eqn:El; bool_hyp; apply Hbegin; try done; lia.
  - done.
Qed.

Lemma system_step_ok σ σ' : 0 < from0 -> export_step σ σ' -> system_ok σ ->
  system_ok σ' /\ cursor_next (fst σ) <= cursor_next (fst σ') /\ accepted (fst σ) ⊆ accepted (fst σ').
Proof.
  intros Hf [o w l Hn Hfr|c w l i o s Hl] [Hc Hs]; cbn [fst snd] in *.
  - split_and!; [|done|done]. split; [done|]. intros i o' s' Hi. cbn in Hi.
    apply lookup_app_Some in Hi as [Hi|[_ Hi]]; [by apply (Hs i)|].
    apply list_lookup_singleton_Some in Hi as [_ [= <- <-]]. done.
  - destruct (Hs i o s Hl) as (Hn & Hfr & Hok).
    pose proof (exporter_step_ok c w o s Hf Hn Hfr Hc Hok) as Hstep.
    destruct (exporter_step o line c w s) as [w' s']. destruct Hstep as (Hsub & Hle & Hc' & Hok').
    cbn. split_and!; [|done|done]. split; [done|]. cbn. intros j o1 s1 Hj.
    apply list_lookup_insert_Some in Hj as [(<- & [= <- <-] & _)|[_ Hj]]; [done|].
    destruct (Hs j o1 s1 Hj) as (? & ? & ?). split_and!; [done|done|by eapply stage_ok_mono].
Qed.

(** whatever exporters run, crash and restart against one cursor,
    with whatever failures of source, sink, cursor store and context, and
    however their calls interleave, the sink has accepted every event from the
    configured start up to the durable cursor, and no step moves the cursor
    backward. *)
Theorem export_never_skips cap σ σ' : 0 < from0 ->
  rtc export_step (mkWorld (mkCursors ∅ cap) ∅, []) σ -> export_step σ σ' ->
  covered (fst σ) (cursor_next (fst σ)) /\ cursor_next (fst σ) <= cursor_next (fst σ') /\
  covered (fst σ') (cursor_next (fst σ')).
Proof.
  intros Hf Hr Hstep.
  assert (system_ok σ) as Hok.
  { eapply (rtc_ind_r system_ok); [|intros y z _ Hyz Hy; by eapply system_step_ok|exact Hr].
    split; cbn; [|intros i o s Hi; done]. intros k Hk. unfold cursor_next in Hk. cbn in Hk.
    rewrite lookup_empty in Hk. cbn in Hk. lia. }
  destruct (system_step_ok _ _ Hf Hstep Hok) as ([Hc' _] & Hle & _). destruct Hok as [Hc _]. done.
Qed.

(** An executable schedule: start an exporter, or let the [i]-th take a step. *)
Inductive action := Spawn (o : RunOptions) | Run (i : nat) (c : choice).

Definition exec (σ : system) (a : action) : system :=
  match a with
  | Spawn o => (fst σ, snd σ ++ [(o, Starting)])
  | Run i c =>
      match snd σ !! i with
      | Some (o, s) =>
          (fst (exporter_step o line c (fst σ) s), <[i := (o, snd (exporter_step o line c (fst σ) s))]> (snd σ))
      | None => σ
      end
  end.

Definition action_ok (a : action) : Prop :=
  match a with Spawn o => OptName o = name /\ From o = from0 | Run _ _ => True end.

Lemma exec_rtc l σ : Forall action_ok l -> rtc export_step σ (foldl exec σ l).
Proof.
  revert σ. induction l as [|a l IH]; intros σ Hl; [apply rtc_refl|]. apply Forall_cons in Hl as [Ha Hl].
  cbn. etransitivity; [|by apply IH]. destruct σ as [w ps], a as [o|i c]; cbn.
  - apply rtc_once. by apply step_start; apply Ha.
  - destruct (ps !! i) as [[o s]|] eqn:E; [|done]. apply rtc_once. by apply step_exporter.
Qed.
End exporters.

(** ** A run of two exporters: the first sends two events and crashes before it
    moves the cursor, the second sends them again. *)

Definition ex_line (e : Event) : result string Z := Ok 100.
Definition ex_opts : RunOptions := mkRunOptions "siem" 5 0 false 2 1000 Second.
Definition feed (e : Event) : choice := mkChoice None 0 (Some (Ok e)) true None.
Definition quiet : choice := mkChoice None 0 None true None.
Definition ex_actions : list action :=
  [Spawn ex_opts; Run 0 quiet; Run 0 (feed (ex_event 5 1)); Run 0 (feed (ex_event 6 1));
   Run 0 (feed (ex_event 7 1)); Run 0 quiet;
   Spawn ex_opts; Run 1 quiet; Run 1 (feed (ex_event 5 1)); Run 1 (feed (ex_event 6 1));
   Run 1 (feed (ex_event 7 1)); Run 1 quiet].
Definition ex_before : system := foldl (exec ex_line) (mkWorld (mkCursors ∅ 4) ∅, []) ex_actions.
Definition ex_after : system := exec ex_line ex_before (Run 1 quiet).

Lemma ex_cursor_moves : cursor_next "siem" (fst ex_before) = 0 /\ cursor_next "siem" (fst ex_after) = 7.
Proof. vm_compute. done. Qed.

Lemma ex_actions_ok : Forall (action_ok "siem" 5) ex_actions.
Proof. unfold ex_actions. repeat constructor. Qed.

Lemma export_never_skips_witness :
  cursor_next "siem" (fst ex_after) = 7 /\ 5 ∈ accepted (fst ex_after) /\ 6 ∈ accepted (fst ex_after).
Proof.
  assert (export_step ex_line "siem" 5 ex_before ex_after) as Hs.
  { unfold ex_after, exec. destruct (snd ex_before !! 1%nat) as [[o s]|] eqn:E; [|by vm_compute in E].
    destruct ex_before as [w l]. by apply step_exporter. }
  destruct (export_never_skips ex_line "siem" 5 4 ex_before ex_after ltac:(lia)
              (exec_rtc ex_line "siem" 5 ex_actions _ ex_actions_ok) Hs) as (_ & _ & Hc).
  destruct ex_cursor_moves as [_ Hn]. rewrite Hn in Hc.
  split_and!; [exact Hn|apply Hc; lia|apply Hc; lia].
Defined.

Lemma ex_io_ok n : io_error ((fun _ : nat => ok_io) n) = None.
Proof. done. Qed.

Lemma export_delivers_the_range_witness :
  exists last, Export (fun _ => ok_io) (fun _ => ex_memory) 0 0 collect [] =
    (Ok last, last, [ex_event 1 10; ex_event 2 20]).
Proof.
  exact (export_delivers_the_range (fun _ => ok_io) ex_memory 0 0 ex_memory_wf ex_io_ok ltac:(by vm_compute)).
Defined.
End EventExport.
