(* ===== verification/Outbox.v ===== *)
(** * The transactional outbox

    Translation of [src/internal/eventlog/outbox.go] over the SQLite store:
    one database holds the resource tables, the event table and
    [event_outbox].  A transaction commits resource rows and staged events
    together; [drainLocked] then moves each staged event into the log, in a
    transaction of its own that also deletes its outbox row.

    The codec of an event is a parameter; what is used of it is that decoding
    an encoded event gives it back.  [R] is the state of the resource
    tables. *)

From Stdlib Require Import ZArith Lia Strings.Byte Strings.String.
From stdpp Require Import base gmap strings option sorting list.
From S2P Require Import Prelude EventStore EventLog.
#[local] Open Scope Z_scope.

Module Outbox.
Import EventStore EventLog.

Section outbox.
Context {R : Type} (marshal : Event -> list byte) (unmarshal : list byte -> option Event).

Record DB := mkDB { resource : R; log_ : SQLite; outbox : list (Z * list byte); outbox_seq : Z }.

(** A transaction in progress: what it would commit, and how many events it
    staged. *)
Record Tx := mkTx { tx_resource : R; tx_outbox : list (Z * list byte); tx_seq : Z; staged : Z }.

Definition BeginTx (db : DB) : Tx := mkTx (resource db) (outbox db) (outbox_seq db) 0.

(** [fault] is the error of the insert statement. *)
Definition Emit (fault : option string) (now : Z) (e : Event) (t : Tx) : result string Tx :=
  if Type_ e =s "" then Err "staged event needs a type"%string
  else
    let e := stamp now e in
    match fault with
    | Some err => Err err
    | None =>
        Ok (mkTx (tx_resource t) (tx_outbox t ++ [(tx_seq t + 1, marshal e)]) (tx_seq t + 1) (staged t + 1))
    end.

(** What the body of a transaction does, in order; the first error ends it. *)
Inductive tx_op :=
| WriteRow (f : R -> result string R)
| EmitEvent (fault : option string) (now : Z) (e : Event).

Definition run_op (o : tx_op) (t : Tx) : result string Tx :=
  match o with
  | WriteRow f => let? r := f (tx_resource t) in Ok (mkTx r (tx_outbox t) (tx_seq t) (staged t))
  | EmitEvent fault now e => Emit fault now e t
  end.

Fixpoint run_body (ops : list tx_op) (t : Tx) : result string Tx :=
  match ops with
  | [] => Ok t
  | o :: rest => let? t' := run_op o t in run_body rest t'
  end.

(** ** Draining *)

Definition outboxPage : nat := 256.

(** The outcome of each database call of one delivery. *)
Record deliver_io := mkDeliver {
  d_begin : option string; d_insert : db_io; d_delete : option string; d_commit : option string }.

(** [d n] is what the [n]-th delivery meets, [r n] the [n]-th read. *)
Record drain_io := mkDrain { d : nat -> deliver_io; r : nat -> option string }.

Fixpoint decode_rows (rows : list (Z * list byte)) : result string (list (Z * Event)) :=
  match rows with
  | [] => Ok []
  | (id, raw) :: t =>
      match unmarshal raw with
      | None => Err "outbox row is not an event"%string
      | Some e => let? l := decode_rows t in Ok ((id, e) :: l)
      end
  end.

Definition readOutbox (fault : option string) (db : DB) : result string (list (Z * Event)) :=
  match fault with Some e => Err e | None => decode_rows (take outboxPage (outbox db)) end.

Definition delete_id (id : Z) (l : list (Z * list byte)) : list (Z * list byte) :=
  filter (fun row => fst row <> id) l.

(** [deliverLocked] with a [TxStore]; the event it fans out comes back. *)
Definition deliverLocked (io : deliver_io) (row : Z * Event) (db : DB) : result string Event * DB :=
  match d_begin io with
  | Some err => (Err err, db)
  | None =>
      match insertEvent (d_insert io) (snd row) (log_ db) with
      | (Err err, _) => (Err err, db)
      | (Ok e, log') =>
          match d_delete io with
          | Some err => (Err err, db)
          | None =>
              match d_commit io with
              | Some err => (Err err, db)
              | None => (Ok e, mkDB (resource db) log' (delete_id (fst row) (outbox db)) (outbox_seq db))
              end
          end
      end
  end.

Fixpoint deliver_rows (io : drain_io) (n : nat) (rows : list (Z * Event)) (db : DB) (fanned : list Event)
  : result string unit * DB * list Event * nat :=
  match rows with
  | [] => (Ok tt, db, fanned, n)
  | row :: t =>
      match deliverLocked (d io n) row db with
      | (Err e, db') => (Err e, db', fanned, S n)
      | (Ok e, db') => deliver_rows io (S n) t db' (fanned ++ [e])
      end
  end.

(** Each full page leaves the outbox shorter, so its length is enough fuel. *)
Fixpoint drain_loop (fuel : nat) (io : drain_io) (page n : nat) (db : DB) (fanned : list Event)
  : result string unit * DB * list Event :=
  match fuel with
  | O => (Ok tt, db, fanned)
  | S fuel' =>
      match readOutbox (r io page) db with
      | Err e => (Err e, db, fanned)
      | Ok [] => (Ok tt, db, fanned)
      | Ok rows =>
          match deliver_rows io n rows db fanned with
          | (Err e, db', fanned', _) => (Err e, db', fanned')
          | (Ok _, db', fanned', n') =>
              if (length rows <? outboxPage)%nat then (Ok tt, db', fanned')
              else drain_loop fuel' io (S page) n' db' fanned'
          end
      end
  end.

Definition drainLocked (io : drain_io) (db : DB) : result string unit * DB * list Event :=
  drain_loop (S (length (outbox db))) io 0 0 db [].

Definition DrainOutbox := drainLocked.

Inductive tx_error := TxError (e : string) | DrainError (e : string).

Definition Transact (begin_ commit : option string) (body : list tx_op) (io : drain_io) (db : DB)
  : result tx_error unit * DB * list Event :=
  match begin_ with
  | Some e => (Err (TxError e), db, [])
  | None =>
      match run_body body (BeginTx db) with
      | Err e => (Err (TxError e), db, [])
      | Ok t =>
          match commit with
          | Some e => (Err (TxError e), db, [])
          | None =>
              let db' := mkDB (tx_resource t) (log_ db) (tx_outbox t) (tx_seq t) in
              if staged t =? 0 then (Ok tt, db', [])
              else
                match drainLocked io db' with
                | (Err e, db'', fanned) => (Err (DrainError e), db'', fanned)
                | (Ok _, db'', fanned) => (Ok tt, db'', fanned)
                end
          end
      end
  end.

(** ** Runs *)

(** What the log sees: transactions, drains at start-up, and direct appends. *)
Inductive op :=
| OpTransact (begin_ commit : option string) (body : list tx_op) (io : drain_io)
| OpDrain (io : drain_io)
| OpAppend (io : db_io) (e : Event).

(** The events a transaction that commits puts into the outbox. *)
Definition staged_events (body : list tx_op) : list Event :=
  flat_map (fun o => match o with EmitEvent _ now e => [stamp now e] | WriteRow _ => [] end) body.

(** Ghost history: what was committed, what was delivered and fanned out, and
    what was appended without a transaction. *)
Record hist := mkHist { db_ : DB; committed : list Event; fannedOut : list Event; appended : list Event }.

Definition commits (begin_ commit : option string) (body : list tx_op) (db : DB) : bool :=
  match begin_, commit with
  | None, None => is_ok (run_body body (BeginTx db))
  | _, _ => false
  end.

Definition exec_op (h : hist) (o : op) : hist :=
  match o with
  | OpTransact b c body io =>
      let '(_, db', fanned) := Transact b c body io (db_ h) in
      mkHist db' (committed h ++ (if commits b c body (db_ h) then staged_events body else [])) (fannedOut h ++ fanned) (appended h)
  | OpDrain io =>
      let '(_, db', fanned) := DrainOutbox io (db_ h) in mkHist db' (committed h) (fannedOut h ++ fanned) (appended h)
  | OpAppend io e =>
      let '(res, l') := insertEvent io e (log_ (db_ h)) in
      mkHist (mkDB (resource (db_ h)) l' (outbox (db_ h)) (outbox_seq (db_ h))) (committed h) (fannedOut h)
        (appended h ++ match res with Ok e => [e] | Err _ => [] end)
  end.

Definition unseq (e : Event) : Event := set_Seq 0 e.

(** The staged events still in the outbox. *)
Definition waiting (db : DB) : list Event := omap (fun row => unmarshal (snd row)) (outbox db).

(** ** Exactly once *)

Hypothesis decode_encode : forall e, unmarshal (marshal e) = Some e.

Definition increasing (l : list (Z * list byte)) : Prop := StronglySorted (fun a b => fst a < fst b) l.

Record outbox_ok (l : list (Z * list byte)) (n : Z) : Prop := mkOutboxOk {
  box_ids : increasing l;
  box_bound : forall row, row ∈ l -> fst row <= n;
  box_events : forall row, row ∈ l -> exists e, snd row = marshal e }.

Definition events_of (l : list (Z * list byte)) : list Event := omap (fun row => unmarshal (snd row)) l.

Lemma outbox_ok_drop l n k : outbox_ok l n -> outbox_ok (drop k l) n.
Proof.
  intros [Hi Hb He]. assert (forall row, row ∈ drop k l -> row ∈ l) as Hin.
  { intros row Hr. rewrite <- (take_drop k l). apply elem_of_app. by right. }
  split; [|auto|auto]. unfold increasing in *. rewrite <- (take_drop k l) in Hi. by eapply StronglySorted_app_1_r.
Qed.

Lemma decode_ok l n : outbox_ok l n -> exists rows, decode_rows l = Ok rows /\ length rows = length l /\
  map snd rows = events_of l /\ map fst rows = map fst l.
Proof.
  induction l as [|[id raw] l IH]; intros Hok; [by exists []|].
  destruct IH as (rows & Hd & Hl & Hs & Hf); [by apply (outbox_ok_drop _ _ 1) in Hok|].
  destruct (box_events _ _ Hok (id, raw) ltac:(left)) as [e Ee]. cbn in Ee. subst raw.
  exists ((id, e) :: rows). cbn. rewrite decode_encode, Hd. cbn. by rewrite Hl, Hs, Hf.
Qed.

Lemma delete_head id raw l : increasing ((id, raw) :: l) -> delete_id id ((id, raw) :: l) = l.
Proof.
  intros Hi. unfold delete_id. rewrite filter_cons_False by (intros Hn; by apply Hn). apply filter_all.
  intros row Hr. inversion Hi as [|? ? _ Hf]; subst. rewrite Forall_forall in Hf. specialize (Hf row Hr). cbn in Hf. lia.
Qed.

(** What draining does to the database: the first [k] events of the outbox are
    in the log and fanned out, and the rest stays. *)
Definition drained (db db' : DB) (new : list Event) (k : nat) : Prop :=
  resource db' = resource db /\ outbox_seq db' = outbox_seq db /\ outbox db' = drop k (outbox db) /\
  rows (log_ db') = rows (log_ db) ++ new /\ map unseq new = map unseq (events_of (take k (outbox db))).

Lemma drained_none db : drained db db [] 0.
Proof. unfold drained. rewrite drop_0, app_nil_r. done. Qed.

Lemma drained_trans db1 db2 db3 new1 new2 k1 k2 : drained db1 db2 new1 k1 -> drained db2 db3 new2 k2 ->
  drained db1 db3 (new1 ++ new2) (k1 + k2).
Proof.
  intros (A1 & A2 & A3 & A4 & A5) (B1 & B2 & B3 & B4 & B5). unfold drained.
  rewrite B1, B2, B3, B4, A3, A4, drop_drop, <- app_assoc. split_and!; try done.
  rewrite !map_app, A5, B5, A3, <- map_app. f_equal. unfold events_of. rewrite <- omap_app. f_equal.
  by rewrite take_take_drop.
Qed.

Lemma deliver_one io id e raw l db : outbox db = (id, raw) :: l -> unmarshal raw = Some e ->
  increasing (outbox db) ->
  match deliverLocked io (id, e) db with
  | (Ok e', db') => drained db db' [e'] 1
  | (Err _, db') => db' = db
  end.
Proof.
  intros Ho Hu Hi. unfold deliverLocked. destruct (d_begin io); [done|]. cbn [snd fst].
  unfold insertEvent. destruct (io_error (d_insert io)); [done|]. cbv zeta. step_if; [done|]. step_if; [done|].
  destruct (d_delete io); [done|]. destruct (d_commit io); [done|]. unfold drained. cbn.
  rewrite Ho in *. rewrite delete_head by done. unfold events_of. cbn. rewrite Hu, drop_0. done.
Qed.

Lemma deliver_rows_spec io l : forall n db rws fanned N, outbox_ok (outbox db) N ->
  (exists rest, outbox db = l ++ rest) -> decode_rows l = Ok rws ->
  let '(res, db', fanned', _) := deliver_rows io n rws db fanned in
  exists new k, fanned' = fanned ++ new /\ drained db db' new k /\ (is_ok res = true -> k = length l).
Proof.
  induction l as [|[id raw] l IH]; intros n db rws fanned N Hok [rest Ho] Hd.
  { injection Hd as <-. cbn. exists [], O. rewrite app_nil_r. split_and!; [done|apply drained_none|done]. }
  cbn in Hd. destruct (unmarshal raw) as [e|] eqn:Eu; [|done].
  destruct (decode_rows l) as [rws'|] eqn:Ed; [|done]. injection Hd as <-. cbn [deliver_rows].
  pose proof (deliver_one (d io n) id e raw (l ++ rest) db Ho Eu (box_ids _ _ Hok)) as H1.
  destruct (deliverLocked _ _ _) as [[e'|err] db1].
  2: { subst db1. exists [], O. rewrite app_nil_r. split_and!; [done|apply drained_none|done]. }
  pose proof H1 as (_ & _ & Ho1 & _). rewrite Ho in Ho1. cbn in Ho1. rewrite drop_0 in Ho1.
  specialize (IH (S n) db1 rws' (fanned ++ [e']) N).
  destruct (deliver_rows _ _ _ _ _) as [[[res db'] fanned'] n'].
  destruct IH as (new & k & -> & Hdr & Hk); [rewrite Ho1; by apply (outbox_ok_drop _ _ 1) in Hok; rewrite Ho in Hok|by exists rest|done|].
  exists (e' :: new), (S k). rewrite <- app_assoc. split_and!; [done|exact (drained_trans _ _ _ _ _ 1 _ H1 Hdr)|].
  intros Hr. cbn. by rewrite (Hk Hr).
Qed.

Lemma drain_loop_spec io fuel : forall page n db fanned N, outbox_ok (outbox db) N ->
  (length (outbox db) < fuel)%nat ->
  let '(res, db', fanned') := drain_loop fuel io page n db fanned in
  exists new k, fanned' = fanned ++ new /\ drained db db' new k /\ (is_ok res = true -> outbox db' = []).
Proof.
  induction fuel as [|fuel IH]; intros page n db fanned N Hok Hf; [lia|]. cbn [drain_loop]. unfold readOutbox.
  assert (forall e : string, exists new k, fanned = fanned ++ new /\ drained db db new k /\
    (is_ok (A:=unit) (Err e) = true -> outbox db = [])) as Hnone.
  { intros e. exists [], O. rewrite app_nil_r. split_and!; [done|apply drained_none|done]. }
  destruct (r io page) as [e|]; [by apply (Hnone e)|].
  assert (outbox_ok (take outboxPage (outbox db)) N) as Hpage.
  { destruct Hok as [H1 H2 H3]. assert (forall row, row ∈ take outboxPage (outbox db) -> row ∈ outbox db) as Hin.
    { intros row Hr. rewrite <- (take_drop outboxPage (outbox db)). apply elem_of_app. by left. }
    split; [|auto|auto]. unfold increasing in *. rewrite <- (take_drop outboxPage (outbox db)) in H1.
    by eapply StronglySorted_app_1_l. }
  destruct (decode_ok _ _ Hpage) as (rws & Hd & Hl & _ & _). rewrite Hd. rewrite length_take in Hl.
  destruct rws as [|rw rws'] eqn:Er.
  { exists [], O. rewrite app_nil_r. split_and!; [done|apply drained_none|].
    intros _. apply length_zero_iff_nil. cbn [length] in Hl. unfold outboxPage in Hl. lia. }
  rewrite <- Er in *. clear Hnone.
  pose proof (deliver_rows_spec io _ n db rws fanned N Hok
    (ex_intro _ (drop outboxPage (outbox db)) (eq_sym (take_drop _ _))) Hd) as Hdel.
  destruct (deliver_rows io n rws db fanned) as [[[res db1] fanned1] n1].
  destruct Hdel as (new & k & -> & Hdr & Hk). destruct res as [[]|e]; [|by exists new, k].
  specialize (Hk eq_refl). rewrite length_take in Hk. pose proof Hdr as (_ & _ & Ho1 & _).
  destruct (length rws <? outboxPage)%nat eqn:Elt.
  - apply Nat.ltb_lt in Elt. exists new, k. split_and!; [done|done|]. intros _. rewrite Ho1.
    apply drop_ge. lia.
  - apply Nat.ltb_ge in Elt.
    specialize (IH (S page) n1 db1 (fanned ++ new) N).
    destruct (drain_loop fuel io (S page) n1 db1 (fanned ++ new)) as [[res2 db2] fanned2].
    destruct IH as (new2 & k2 & -> & Hdr2 & Hres).
    + rewrite Ho1. by apply outbox_ok_drop.
    + rewrite Ho1, length_drop. unfold outboxPage in *. lia.
    + exists (new ++ new2), (k + k2)%nat. rewrite app_assoc. split_and!; [done|by eapply drained_trans|done].
Qed.

Lemma run_body_spec body : forall t t', run_body body t = Ok t' -> outbox_ok (tx_outbox t) (tx_seq t) ->
  outbox_ok (tx_outbox t') (tx_seq t') /\
  events_of (tx_outbox t') = events_of (tx_outbox t) ++ staged_events body /\
  staged t' = staged t + Z.of_nat (length (staged_events body)).
Proof.
  induction body as [|o body IH]; intros t t' Hr Hok; cbn in Hr.
  { injection Hr as <-. cbn. rewrite app_nil_r. split_and!; [done|done|lia]. }
  destruct (run_op o t) as [t1|] eqn:E1; [|done].
  assert (outbox_ok (tx_outbox t1) (tx_seq t1) /\
    events_of (tx_outbox t1) = events_of (tx_outbox t) ++ staged_events [o] /\
    staged t1 = staged t + Z.of_nat (length (staged_events [o]))) as (Hok1 & He1 & Hs1).
  { destruct o as [f|fault now e]; cbn in E1 |- *.
    - destruct (f (tx_resource t)); [|done]. injection E1 as <-. cbn. rewrite app_nil_r. split_and!; [done|done|lia].
    - unfold Emit in E1. step_if; [done|]. destruct fault; [done|]. injection E1 as <-. cbn.
      destruct Hok as [H1 H2 H3]. split_and!; [|unfold events_of; rewrite omap_app; cbn; by rewrite decode_encode|lia].
      split.
      + unfold increasing in *. apply StronglySorted_app. split_and!; [|done|repeat constructor].
        intros a b Ha Hb. apply list_elem_of_singleton in Hb as ->. specialize (H2 a Ha). cbn. lia.
      + intros row Hin. apply elem_of_app in Hin as [Hin%H2|Hin]; [lia|].
        apply list_elem_of_singleton in Hin as ->. cbn. lia.
      + intros row Hin. apply elem_of_app in Hin as [Hin%H3|Hin]; [done|].
        apply list_elem_of_singleton in Hin as ->. by eexists. }
  destruct (IH t1 t' Hr Hok1) as (Hok' & He' & Hs'). split_and!; [done| |].
  - rewrite He', He1, <- app_assoc. unfold staged_events. by rewrite <- flat_map_app.
  - rewrite Hs', Hs1. unfold staged_events. cbn [flat_map]. rewrite app_nil_r, length_app. lia.
Qed.

(** ** The invariant of a run *)

Record run_inv (l0 : SQLite) (h : hist) : Prop := mkRunInv {
  ri_box : outbox_ok (outbox (db_ h)) (outbox_seq (db_ h));
  ri_once : map unseq (fannedOut h) ++ map unseq (events_of (outbox (db_ h))) = map unseq (committed h);
  ri_logged : fannedOut h `sublist_of` rows (log_ (db_ h));
  ri_rows : rows (log_ (db_ h)) ≡ₚ rows l0 ++ fannedOut h ++ appended h }.

Lemma drained_inv l0 h db' new k : run_inv l0 h -> drained (db_ h) db' new k ->
  run_inv l0 (mkHist db' (committed h) (fannedOut h ++ new) (appended h)).
Proof.
  intros [Hb Ho Hl Hp] (H1 & H2 & H3 & H4 & H5). split; cbn.
  - rewrite H2, H3. by apply outbox_ok_drop.
  - rewrite map_app, H5, H3, <- Ho, <- app_assoc, <- map_app. f_equal. f_equal.
    unfold events_of. rewrite <- omap_app. by rewrite take_drop.
  - rewrite H4. by apply sublist_app.
  - rewrite H4, Hp, <- !app_assoc. do 2 f_equiv. apply Permutation_app_comm.
Qed.

Lemma drainLocked_spec io db N : outbox_ok (outbox db) N ->
  let '(res, db', fanned) := drainLocked io db in
  exists k, drained db db' fanned k /\ (is_ok res = true -> outbox db' = []).
Proof.
  intros Hok. unfold drainLocked.
  pose proof (drain_loop_spec io (S (length (outbox db))) 0 0 db [] N Hok ltac:(lia)) as Hd.
  destruct (drain_loop _ _ _ _ _ _) as [[res db'] fanned]. destruct Hd as (new & k & -> & Hdr & Hres). by exists k.
Qed.

Lemma exec_inv l0 h o : run_inv l0 h -> run_inv l0 (exec_op h o).
Proof.
  intros Hi. pose proof (ri_box _ _ Hi) as Hb. destruct o as [b c body io|io|io e]; cbn [exec_op].
  - unfold Transact, commits. destruct b as [e|]; [by rewrite !app_nil_r; destruct h|].
    destruct (run_body body (BeginTx (db_ h))) as [t|e] eqn:Et.
    2: { by destruct c; cbn; rewrite !app_nil_r; destruct h. }
    destruct c as [e|]; [by rewrite !app_nil_r; destruct h|]. cbn [is_ok]. cbv zeta.
    destruct (run_body_spec _ _ _ Et Hb) as (Hb' & He & Hs).
    set (db' := mkDB (tx_resource t) (log_ (db_ h)) (tx_outbox t) (tx_seq t)).
    assert (run_inv l0 (mkHist db' (committed h ++ staged_events body) (fannedOut h) (appended h))) as Hi'.
    { destruct Hi as [_ Ho Hl Hp]. split; [done| |done|done]. change (map unseq (fannedOut h) ++ map unseq (events_of (tx_outbox t)) = map unseq (committed h ++ staged_events body)).
      rewrite He, !map_app, app_assoc. rewrite <- Ho. done. }
    step_if; [by rewrite app_nil_r|].
    pose proof (drainLocked_spec io db' _ (ri_box _ _ Hi')) as Hd.
    destruct (drainLocked io db') as [[[[]|e] db''] fanned]; destruct Hd as (k & Hdr & _); exact (drained_inv _ _ _ _ _ Hi' Hdr).
  - unfold DrainOutbox. pose proof (drainLocked_spec io (db_ h) _ Hb) as Hd.
    destruct (drainLocked io (db_ h)) as [[res db'] fanned]. destruct Hd as (k & Hdr & _). by eapply drained_inv.
  - destruct Hi as [_ Ho Hl Hp]. unfold insertEvent. destruct (io_error io); [by rewrite app_nil_r|]. cbv zeta.
    step_if; [by rewrite app_nil_r|]. step_if; [by rewrite app_nil_r|]. split; cbn; [done|done|by apply sublist_inserts_r|].
    by rewrite Hp, <- !app_assoc.
Qed.

(** C5: however transactions, drains and direct appends fail and follow
    one another, the events committed with their resource rows are, in commit
    order, the ones that were fanned out, followed by the ones that wait in the
    outbox; and the log holds, besides what it started with and what was
    appended directly, exactly the events that were fanned out, each as often
    as it was committed and delivered: no event that waits is in the log
    already.  A transaction that reports
    an error of its own changed nothing; one that reports success or a
    deferred drain wrote its rows and its events; and after a success that
    staged an event the outbox is empty. *)
Theorem outbox_delivers_exactly_once (r0 : R) (l0 : SQLite) ops b c body io :
  let h := foldl exec_op (mkHist (mkDB r0 l0 [] 0) [] [] []) ops in
  map unseq (fannedOut h) ++ map unseq (waiting (db_ h)) = map unseq (committed h) /\
  fannedOut h `sublist_of` rows (log_ (db_ h)) /\
  rows (log_ (db_ h)) ≡ₚ rows l0 ++ fannedOut h ++ appended h /\
  match Transact b c body io (db_ h) with
  | (Err (TxError _), db', fanned) => db' = db_ h /\ fanned = [] /\ commits b c body (db_ h) = false
  | (Err (DrainError _), db', _) =>
      exists t, run_body body (BeginTx (db_ h)) = Ok t /\ resource db' = tx_resource t /\
        commits b c body (db_ h) = true
  | (Ok _, db', _) =>
      exists t, run_body body (BeginTx (db_ h)) = Ok t /\ resource db' = tx_resource t /\
        commits b c body (db_ h) = true /\ (staged_events body <> [] -> waiting db' = [])
  end.
Proof.
  intros h. assert (run_inv l0 h) as Hi.
  { unfold h. clear -decode_encode. assert (run_inv l0 (mkHist (mkDB r0 l0 [] 0) [] [] [])) as H0.
    { split; cbn; [|done|apply sublist_nil_l|by rewrite app_nil_r]. split; [constructor|intros row Hr|intros row Hr]; by apply not_elem_of_nil in Hr. }
    revert H0. generalize (mkHist (mkDB r0 l0 [] 0) [] [] []). induction ops as [|o ops IH]; intros h0 H0; [done|].
    cbn. by apply IH, exec_inv. }
  split_and!; [apply (ri_once _ _ Hi)|apply (ri_logged _ _ Hi)|apply (ri_rows _ _ Hi)|]. unfold Transact, commits. destruct b; [done|].
  destruct (run_body body (BeginTx (db_ h))) as [t|] eqn:Et; [|by destruct c]. destruct c; [done|]. cbv zeta.
  destruct (run_body_spec _ _ _ Et (ri_box _ _ Hi)) as (Hb' & _ & Hs). cbn in Hs.
  step_if; bool_hyp.
  { exists t. split_and!; try done. intros Hne. destruct (staged_events body); [done|cbn in Hs; lia]. }
  set (db' := mkDB (tx_resource t) (log_ (db_ h)) (tx_outbox t) (tx_seq t)).
  pose proof (drainLocked_spec io db' _ Hb') as Hd.
  destruct (drainLocked io db') as [[[[]|e] db''] fanned]; destruct Hd as (k & (Hr & _) & Hres).
  - exists t. split_and!; try done. intros _. unfold waiting. by rewrite (Hres eq_refl).
  - by exists t.
Qed.
End outbox.

(** ** A run with a concrete codec: a drain fails after one event, a later
    transaction delivers the rest. *)

Definition event_tuple (e : Event) :=
  (Seq e, At e, (Stream e, Principal e, Node e, EventID e), (ReceivedAt e, ObservedAt e, Origin e, Actor e),
   (Tenant e, Workspace e, Generation e, ControllerEpoch e), (Session e, OperationID e, ProducerSeq e, Type_ e),
   (Payload e, Cause e)).
Definition ex_marshal (e : Event) : list byte := wire (event_tuple e).
Definition ex_unmarshal (l : list byte) : option Event :=
  match unwire l with
  | Some (seq, at_, (stream, principal, node, id), (received, observed, origin, actor),
          (tenant, workspace, gen, epoch), (session, operation, producer, type_), (payload, cause)) =>
      Some (mkEvent seq at_ stream principal node id received observed origin actor tenant workspace gen epoch
              session operation producer type_ payload cause)
  | None => None
  end.

Lemma ex_codec e : ex_unmarshal (ex_marshal e) = Some e.
Proof. unfold ex_unmarshal, ex_marshal. rewrite unwire_wire. by destruct e. Qed.

Definition good_io : deliver_io := mkDeliver None ok_io None None.
Definition good_drain : drain_io := mkDrain (fun _ => good_io) (fun _ => None).
Definition bad_drain : drain_io :=
  mkDrain (fun n => match n with O => good_io | S _ => mkDeliver None ok_io None (Some "disk I/O error"%string) end)
    (fun _ => None).
Definition ex_body : list (tx_op (R := Z)) :=
  [WriteRow (fun z => Ok (z + 1)); EmitEvent None 7 (ex_event 0 0); EmitEvent None 7 (ex_event 0 3)].
Definition ex_ops : list (op (R := Z)) := [OpTransact None None ex_body bad_drain].
Definition ex_hist : hist (R := Z) := foldl (exec_op ex_marshal ex_unmarshal) (mkHist (mkDB 0 OpenEmpty [] 0) [] [] []) ex_ops.

Lemma ex_waiting : length (outbox (db_ ex_hist)) = 1%nat /\ map Seq (fannedOut ex_hist) = [1].
Proof. vm_compute. done. Qed.

Lemma outbox_delivers_exactly_once_witness :
  map unseq (fannedOut ex_hist) ++ map unseq (waiting ex_unmarshal (db_ ex_hist)) = map unseq (committed ex_hist) /\
  rows (log_ (db_ ex_hist)) ≡ₚ fannedOut ex_hist ++ appended ex_hist.
Proof.
  destruct (outbox_delivers_exactly_once ex_marshal ex_unmarshal ex_codec 0 OpenEmpty ex_ops None None ex_body good_drain)
    as (Hw & _ & Hr & _). split; [exact Hw|exact Hr].
Defined.
End Outbox.
