(* ===== verification/ReleaseJournal.v ===== *)
(** * The node's release journal

    Translation of [src/internal/node/release_journal.go]: the durable record
    of a prepared, aborted or committed release of each workspace, written
    before the node acts on it.  A state is one of the strings the journal
    stores.

    The journal file is the list of contents a crash may leave behind, the
    visible one first: a rename whose directory was not synced leaves the old
    content possible. *)

From Stdlib Require Import ZArith Lia Strings.String.
From stdpp Require Import base gmap strings option relations list.
From S2P Require Import Prelude Lifecycle Control.
#[local] Open Scope Z_scope.

Module ReleaseJournal.
Import Lifecycle.

Definition releasePreparing : string := "preparing".
Definition releaseQuiesced : string := "quiesced".
Definition releaseCheckpoint : string := "checkpointed".
Definition releasePrepared : string := "prepared".
Definition releaseAborting : string := "aborting".
Definition releaseRestored : string := "abort-restored".
Definition releaseAuthorized : string := "abort-authorized".
Definition releasePublished : string := "abort-published".
Definition releaseCommitted : string := "committed".

(** [proto.WSReleaseReq] *)
Record WSReleaseReq := mkReleaseReq {
  WS : string; Gen : Z; ReqReleaseEpoch : Z; OperationID : string; WithSnapshot : bool; Reason : string;
  ReqTenant : string; ReqBackend : string; ReqSpec : WorkspaceSpec }.

Record durableRelease := mkRelease {
  Request : WSReleaseReq; Response : Control.WSReleasedReq; RelOperationID : string; RelState : string;
  CompletedAt : Z }.

Definition set_RelState (s : string) (r : durableRelease) : durableRelease :=
  mkRelease (Request r) (Response r) (RelOperationID r) s (CompletedAt r).

Abbreviation journal := (gmap string durableRelease).

#[export] Instance WorkspaceSpec_eq_dec : EqDecision WorkspaceSpec.
Proof. solve_decision. Defined.

(** ** The file *)

Definition known_state (s : string) : bool :=
  contains [releasePreparing; releaseQuiesced; releaseCheckpoint; releasePrepared; releaseAborting;
            releaseRestored; releaseAuthorized; releasePublished; releaseCommitted] s.

(** The checks [loadReleases] makes on a decoded journal. *)
Definition record_ok (id : string) (r : durableRelease) : bool :=
  negb ((id =s "") || (WS (Request r) <>s id) || (Gen (Request r) =? 0)) && known_state (RelState r).

Definition loadReleases (content : journal) : result string journal :=
  if forallb (fun kv => record_ok (fst kv) (snd kv)) (map_to_list content) then Ok content
  else Err "corrupt release journal"%string.

(** How far a write of the file gets: it fails before the rename, after it
    (the directory was not synced), or completes. *)
Inductive persist_io := PersistFails | PersistUnsynced | PersistOk.

Record node := mkNode { releases : journal; disk : list journal }.

Definition persistReleasesLocked (io : persist_io) (content : journal) (d : list journal) : bool * list journal :=
  match io with
  | PersistFails => (false, d)
  | PersistUnsynced => (false, content :: d)
  | PersistOk => (true, [content])
  end.

(** Publish [content] in memory if it was made durable, else keep memory. *)
Definition persist_or_keep (io : persist_io) (content : journal) (n : node) : bool * node :=
  match persistReleasesLocked io content (disk n) with
  | (true, d) => (true, mkNode content d)
  | (false, d) => (false, mkNode (releases n) d)
  end.

(** ** Operations *)

Section operations.
Context (MutationRetention MaxMutationRecords : Z).

Definition retention : Z := if MutationRetention <=? 0 then 30 * 24 * Hour else MutationRetention.
Definition limit : Z := if MaxMutationRecords <=? 0 then 10000 else MaxMutationRecords.

Definition prunable (now : Z) (r : durableRelease) : bool :=
  (RelState r =s releaseCommitted) && (0 <? CompletedAt r)
  && (CompletedAt r <? Control.unixMilli (now - retention)).

Definition pruneCommittedReleasesLocked (now : Z) (j : journal) : journal :=
  filter (fun kv => prunable now (snd kv) = false) j.

Definition zero_spec : WorkspaceSpec := mkSpec "" "" [] "" "" [] [].

(** Specs are compared by their deterministic encoding. *)
Definition sameReleaseRequest (a b : WSReleaseReq) : bool :=
  if (WS a <>s WS b) || negb (Gen a =? Gen b) || negb (ReqReleaseEpoch a =? ReqReleaseEpoch b)
     || (OperationID a <>s OperationID b) || negb (Bool.eqb (WithSnapshot a) (WithSnapshot b))
     || (Reason a <>s Reason b) then false
  else if (ReqTenant b <>s "") && (ReqTenant a <>s ReqTenant b) then false
  else if (ReqBackend b <>s "") && (ReqBackend a <>s ReqBackend b) then false
  else bool_decide (ReqSpec b = zero_spec) || bool_decide (ReqSpec a = ReqSpec b).

Definition startsNewReleaseCycle (existing : durableRelease) (req : WSReleaseReq) : bool :=
  let e := Request existing in
  ((RelState existing =s releaseCommitted) && (Gen e <? Gen req))
  || ((RelState existing =s releasePublished) && (Gen e <? Gen req))
  || ((RelState existing =s releasePublished) && (Gen req =? Gen e)
      && (ReqReleaseEpoch e <? ReqReleaseEpoch req)
      && (OperationID req <>s "") && (OperationID req <>s OperationID e)).

Inductive journal_error := ErrConflict (what : string) | ErrExhausted | ErrPersist (what : string).

Definition no_response : Control.WSReleasedReq := Control.mkReleasedReq "" 0 "" "" false.

(** The second half of [beginRelease], from the pruning on: [j] is the journal
    without the record that is replaced.  When the write fails the replaced
    record is put back, when the quota refuses it is not. *)
Definition start_release (io : persist_io) (now : Z) (req : WSReleaseReq) (replaced : option durableRelease)
    (j : journal) (d : list journal) : result journal_error (durableRelease * bool) * node :=
  let j := pruneCommittedReleasesLocked now j in
  if limit <=? Z.of_nat (size j) then (Err ErrExhausted, mkNode j d)
  else
    let record := mkRelease req no_response (OperationID req) releasePreparing 0 in
    match persistReleasesLocked io (<[WS req := record]> j) d with
    | (true, d') => (Ok (record, false), mkNode (<[WS req := record]> j) d')
    | (false, d') =>
        (Err (ErrPersist "release intent"),
         mkNode (match replaced with
                 | Some old => <[WS req := old]> (delete (WS req) j)
                 | None => delete (WS req) j
                 end) d')
    end.

(** The record, whether it existed, and the error. *)
Definition beginRelease (io : persist_io) (now : Z) (req : WSReleaseReq) (n : node)
  : result journal_error (durableRelease * bool) * node :=
  match releases n !! WS req with
  | Some existing =>
      if startsNewReleaseCycle existing req
      then start_release io now req (Some existing) (delete (WS req) (releases n)) (disk n)
      else if negb (sameReleaseRequest (Request existing) req)
      then (Err (ErrConflict "release retry does not match durable operation"), n)
      else (Ok (existing, true), n)
  | None => start_release io now req None (releases n) (disk n)
  end.

Definition releaseMatchesCommit (record : durableRelease) (id : string) (gen : Z) (op : string) : bool :=
  (WS (Request record) =s id) && (Gen (Request record) =? gen) && ((op =s "") || (RelOperationID record =s op)).

Definition updateRelease (io : persist_io) (now : Z) (id from to : string) (response : Control.WSReleasedReq)
    (n : node) : result journal_error unit * node :=
  match releases n !! id with
  | None => (Err (ErrConflict "release changed"), n)
  | Some r =>
      if RelState r <>s from then (Err (ErrConflict "release changed"), n)
      else
        let record := mkRelease (Request r) response (RelOperationID r) to
                        (if to =s releaseCommitted then Control.unixMilli now else CompletedAt r) in
        match persist_or_keep io (<[id := record]> (releases n)) n with
        | (true, n') => (Ok tt, n')
        | (false, n') => (Err (ErrPersist "release state"), n')
        end
  end.

(** The record an abort must match. *)
Definition matching (id : string) (gen : Z) (op : string) (n : node) : option durableRelease :=
  match releases n !! id with
  | Some r => if negb (Gen (Request r) =? gen) || ((op <>s "") && (RelOperationID r <>s op)) then None else Some r
  | None => None
  end.

Definition beginReleaseAbort (io : persist_io) (id : string) (gen : Z) (op : string) (n : node)
  : result journal_error durableRelease * node :=
  match matching id gen op n with
  | None => (Err (ErrConflict "no matching durable release"), n)
  | Some r =>
      if contains [releaseAborting; releaseRestored; releaseAuthorized; releasePublished] (RelState r) then (Ok r, n)
      else if contains [releasePreparing; releaseQuiesced; releaseCheckpoint; releasePrepared] (RelState r) then
        let record := set_RelState releaseAborting r in
        match persist_or_keep io (<[id := record]> (releases n)) n with
        | (true, n') => (Ok record, n')
        | (false, n') => (Err (ErrPersist "release abort intent"), n')
        end
      else (Err (ErrConflict "release cannot be aborted"), n)
  end.

Definition advanceReleaseAbort (io : persist_io) (now : Z) (id : string) (gen : Z) (op from to : string) (n : node)
  : result journal_error unit * node :=
  match matching id gen op n with
  | None => (Err (ErrConflict "no matching abort intent"), n)
  | Some r =>
      if RelState r =s to then (Ok tt, n)
      else if RelState r <>s from then (Err (ErrConflict "release abort changed"), n)
      else
        let record := mkRelease (Request r) (Response r) (RelOperationID r) to
                        (if to =s releasePublished then Control.unixMilli now else CompletedAt r) in
        match persist_or_keep io (<[id := record]> (releases n)) n with
        | (true, n') => (Ok tt, n')
        | (false, n') => (Err (ErrPersist "release abort state"), n')
        end
  end.

Definition markReleaseRestored (io : persist_io) (id : string) (gen : Z) (n : node)
  : result journal_error unit * node :=
  match matching id gen "" n with
  | None => (Err (ErrConflict "no matching abort intent"), n)
  | Some r =>
      if RelState r =s releaseRestored then (Ok tt, n)
      else if RelState r <>s releaseAborting then (Err (ErrConflict "release is not aborting"), n)
      else
        match persist_or_keep io (<[id := set_RelState releaseRestored r]> (releases n)) n with
        | (true, n') => (Ok tt, n')
        | (false, n') => (Err (ErrPersist "restored release source"), n')
        end
  end.

(** ** Runs *)

(** The pairs the node's release code passes to [updateRelease] and
    [advanceReleaseAbort]. *)
Definition update_pairs : list (string * string) :=
  [(releasePreparing, releaseQuiesced); (releaseQuiesced, releaseCheckpoint);
   (releaseCheckpoint, releasePrepared); (releasePrepared, releaseCommitted)].
Definition abort_pairs : list (string * string) :=
  [(releaseRestored, releaseAuthorized); (releaseAuthorized, releasePublished)].

Inductive journal_step (now : Z) : node -> node -> Prop :=
| j_begin io req n : journal_step now n (snd (beginRelease io now req n))
| j_update io id from to response n : (from, to) ∈ update_pairs ->
    journal_step now n (snd (updateRelease io now id from to response n))
| j_abort io id gen op n : journal_step now n (snd (beginReleaseAbort io id gen op n))
| j_advance io id gen op from to n : (from, to) ∈ abort_pairs ->
    journal_step now n (snd (advanceReleaseAbort io now id gen op from to n))
| j_restored io id gen n : journal_step now n (snd (markReleaseRestored io id gen n))
| j_crash n content j : content ∈ disk n -> loadReleases content = Ok j -> journal_step now n (mkNode j [content]).

(** Steps while the clock stays between two instants. *)
Definition step_between (t0 t1 : Z) (n n' : node) : Prop :=
  exists now, t0 <= now <= t1 /\ journal_step now n n'.

(** ** An accepted abort is a fence *)

Definition aborted (s : string) : bool :=
  contains [releaseAborting; releaseRestored; releaseAuthorized; releasePublished] s.
Definition destructive (s : string) : bool :=
  contains [releasePreparing; releaseQuiesced; releaseCheckpoint; releasePrepared] s.

Lemma aborted_not_destructive s : aborted s = true -> destructive s = false.
Proof.
  unfold aborted. rewrite contains_spec, !elem_of_cons, elem_of_nil. by intros [->|[->|[->|[->|[]]]]].
Qed.

(** [r] belongs to a later release of the workspace than [r0]. *)
Definition later_cycle (r0 r : WSReleaseReq) : Prop :=
  Gen r0 < Gen r \/ (Gen r = Gen r0 /\ ReqReleaseEpoch r0 < ReqReleaseEpoch r).

Section fence.
Context (t0 : Z) (id : string) (r0 : WSReleaseReq).

Definition fenced_record (r : durableRelease) : Prop :=
  (aborted (RelState r) = true /\ Request r = r0) \/
  (later_cycle r0 (Request r) /\ (RelState r = releaseCommitted -> Control.unixMilli t0 <= CompletedAt r)).

Definition fenced (j : journal) : Prop :=
  Z.of_nat (size j) <= limit /\ exists r, j !! id = Some r /\ fenced_record r.

Definition node_fenced (n : node) : Prop := fenced (releases n) /\ forall c, c ∈ disk n -> fenced c.

Lemma fenced_other k r j r' : k <> id -> j !! k = Some r' -> fenced j -> fenced (<[k := r]> j).
Proof.
  intros Hk Hj [Hs (r1 & H1 & H2)]. split; [by rewrite map_size_insert_Some|].
  exists r1. by rewrite lookup_insert_ne.
Qed.

Lemma fenced_here r j r' : j !! id = Some r' -> fenced j -> fenced_record r -> fenced (<[id := r]> j).
Proof.
  intros Hj [Hs _] Hr. split; [by rewrite map_size_insert_Some|]. exists r. by rewrite lookup_insert_eq.
Qed.

Lemma persist_fenced io content n : node_fenced n -> fenced content -> node_fenced (snd (persist_or_keep io content n)).
Proof.
  intros [Hm Hd] Hc. unfold persist_or_keep. destruct io; cbn; split; try done.
  - intros c Hin. apply elem_of_cons in Hin as [->|Hin]; [done|by apply Hd].
  - intros c Hin. by apply list_elem_of_singleton in Hin as ->.
Qed.

(** A rewrite of one record of the journal keeps the fence if, where it is the
    fenced one, it stays on its side of the fence. *)
Lemma rewrite_fenced io k r r' n : node_fenced n -> releases n !! k = Some r' ->
  (k = id -> fenced_record r' -> fenced_record r) ->
  node_fenced (snd (persist_or_keep io (<[k := r]> (releases n)) n)).
Proof.
  intros Hn Hk Hr. apply persist_fenced; [done|]. destruct Hn as [Hm _].
  destruct (decide (k = id)) as [->|Hne]; [|by eapply fenced_other].
  eapply fenced_here; [done|done|]. apply Hr; [done|].
  destruct Hm as [_ (r1 & H1 & H2)]. congruence.
Qed.

Lemma matching_some k gen op n r : matching k gen op n = Some r -> releases n !! k = Some r.
Proof. unfold matching. destruct (releases n !! k); [|done]. by step_if. Qed.

Lemma update_keeps now from to response r : (from, to) ∈ update_pairs -> RelState r = from -> t0 <= now ->
  fenced_record r ->
  fenced_record (mkRelease (Request r) response (RelOperationID r) to
                   (if to =s releaseCommitted then Control.unixMilli now else CompletedAt r)).
Proof.
  intros Hin Hf Hnow [[Ha _]|[Hl _]].
  - exfalso. rewrite Hf in Ha. unfold update_pairs in Hin. rewrite !elem_of_cons, elem_of_nil in Hin.
    destruct Hin as [[= -> ->]|[[= -> ->]|[[= -> ->]|[[= -> ->]|[]]]]]; done.
  - right. split; [done|]. cbn. intros ->. rewrite str_eqb_refl. by apply Z.div_le_mono.
Qed.

Lemma advance_keeps now from to r : (from, to) ∈ abort_pairs -> fenced_record r ->
  fenced_record (mkRelease (Request r) (Response r) (RelOperationID r) to
                   (if to =s releasePublished then Control.unixMilli now else CompletedAt r)).
Proof.
  intros Hin Hr. assert (aborted to = true /\ to <> releaseCommitted) as [Ha Hc].
  { unfold abort_pairs in Hin. rewrite !elem_of_cons, elem_of_nil in Hin.
    by destruct Hin as [[= -> ->]|[[= -> ->]|[]]]. }
  destruct Hr as [[_ Hr]|[Hl _]]; [left|right]; by split.
Qed.

Lemma mark_keeps s r : aborted s = true -> fenced_record r -> fenced_record (set_RelState s r).
Proof.
  intros Ha [[_ Hr]|[Hl _]]; [by left|right]. split; [done|]. cbn. by intros ->.
Qed.

(** A release that starts over an existing record belongs to a later cycle. *)
Lemma new_cycle_later req r : fenced_record r -> startsNewReleaseCycle r req = true ->
  later_cycle r0 req.
Proof.
  intros Hr Hs. unfold startsNewReleaseCycle in Hs.
  assert (later_cycle (Request r) req) as Hl.
  { apply orb_true_iff in Hs as [Hs|Hs]; [apply orb_true_iff in Hs as [Hs|Hs]|]; bool_hyp; [by left|by left|].
    right. done. }
  destruct Hr as [[_ <-]|[Hl0 _]]; [done|]. unfold later_cycle in *. lia.
Qed.

Lemma prune_keeps now j : now <= t0 + retention -> fenced j -> fenced (pruneCommittedReleasesLocked now j).
Proof.
  intros Hnow [Hs (r & Hl & Hr)]. split.
  - pose proof (map_size_filter (fun kv => prunable now (snd kv) = false) j). unfold pruneCommittedReleasesLocked. lia.
  - exists r. split; [|done]. apply map_lookup_filter_Some. split; [done|]. cbn. unfold prunable.
    destruct (RelState r =s releaseCommitted) eqn:E; [|done]. bool_hyp.
    destruct Hr as [[Ha _]|[_ Hc]]; [by rewrite E in Ha|]. specialize (Hc E).
    assert (Control.unixMilli (now - retention) <= Control.unixMilli t0) by (apply Z.div_le_mono; lia).
    zb. by rewrite andb_false_r.
Qed.

Lemma persisted_fenced io content back n : node_fenced n -> fenced content -> fenced back ->
  node_fenced (let '(ok, d) := persistReleasesLocked io content (disk n) in
               mkNode (if ok : bool then content else back) d).
Proof.
  intros [Hm Hd] Hc Hb. destruct io; cbn; split; try done.
  - intros c Hin. apply elem_of_cons in Hin as [->|Hin]; [done|by apply Hd].
  - intros c Hin. by apply list_elem_of_singleton in Hin as ->.
Qed.

(** A new release of the fenced workspace itself. *)
Lemma start_here io now req r n : node_fenced n -> releases n !! id = Some r -> fenced_record r ->
  WS req = id -> later_cycle r0 req ->
  node_fenced (snd (start_release io now req (Some r) (delete id (releases n)) (disk n))).
Proof.
  intros Hn Hl Hr Hid Hlater. unfold start_release. rewrite Hid.
  set (record := mkRelease req no_response (OperationID req) releasePreparing 0).
  set (j := pruneCommittedReleasesLocked now (delete id (releases n))).
  pose proof (proj1 (proj1 Hn)) as Hs.
  assert (Z.of_nat (size j) < limit) as Hj.
  { pose proof (map_size_filter (fun kv => prunable now (snd kv) = false) (delete id (releases n))) as Hz.
    rewrite map_size_delete_Some in Hz by done.
    assert (size (releases n) <> 0)%nat by (apply map_size_ne_0_lookup; by exists id; rewrite Hl).
    unfold j, pruneCommittedReleasesLocked. lia. }
  assert (j !! id = None) as Hjn by (apply map_lookup_filter_None; left; apply lookup_delete_eq).
  assert (forall x, fenced_record x -> fenced (<[id := x]> j)) as Hins.
  { intros x Hx. split; [rewrite map_size_insert_None by done; lia|]. exists x. by rewrite lookup_insert_eq. }
  cbv zeta. zb.
  pose proof (persisted_fenced io (<[id := record]> j) (<[id := r]> (delete id j)) n Hn) as Hp.
  destruct (persistReleasesLocked io (<[id := record]> j) (disk n)) as [[] d]; apply Hp;
    rewrite ?delete_id by done; apply Hins; try done; by right.
Qed.

(** A new release of another workspace. *)
Lemma start_elsewhere io now req rep j0 n : node_fenced n -> now <= t0 + retention -> fenced j0 -> WS req <> id ->
  node_fenced (snd (start_release io now req rep j0 (disk n))).
Proof.
  intros Hn Hnow Hj0 Hne. unfold start_release. pose proof (prune_keeps now j0 Hnow Hj0) as Hj.
  set (j := pruneCommittedReleasesLocked now j0) in *. pose proof Hj as [Hjs (x & Hjx & Hx)].
  destruct (limit <=? Z.of_nat (size j)) eqn:El; bool_hyp; [split; [done|apply Hn]|].
  assert (forall y, fenced (<[WS req := y]> j)) as Hins.
  { intros y. split; [pose proof (map_size_insert (WS req) y j) as Hz; rewrite Hz; destruct (j !! WS req); cbn; lia|].
    exists x. by rewrite lookup_insert_ne. }
  assert (fenced (delete (WS req) j)) as Hdel.
  { split; [pose proof (map_subseteq_size _ _ (delete_subseteq j (WS req))); lia|].
    exists x. by rewrite lookup_delete_ne. }
  set (record := mkRelease req no_response (OperationID req) releasePreparing 0).
  pose proof (persisted_fenced io (<[WS req := record]> j)
    (match rep with Some old => <[WS req := old]> (delete (WS req) j) | None => delete (WS req) j end) n Hn (Hins _)) as Hp.
  destruct (persistReleasesLocked io (<[WS req := record]> j) (disk n)) as [[] d]; apply Hp;
    destruct rep; rewrite ?insert_delete_eq; auto.
Qed.

Lemma begin_fenced io now req n : now <= t0 + retention -> node_fenced n ->
  node_fenced (snd (beginRelease io now req n)).
Proof.
  intros Hnow Hn. pose proof Hn as [[Hs (r & Hl & Hr)] Hd]. unfold beginRelease.
  destruct (decide (WS req = id)) as [Hid|Hne].
  - rewrite Hid, Hl. step_if; [|by step_if]. apply start_here; try done. by eapply new_cycle_later.
  - destruct (releases n !! WS req) as [ex|] eqn:Ex.
    + step_if; [|by step_if]. apply start_elsewhere; try done. split.
      * pose proof (map_subseteq_size _ _ (delete_subseteq (releases n) (WS req))). lia.
      * exists r. by rewrite lookup_delete_ne.
    + apply start_elsewhere; try done. by split; [|exists r].
Qed.

Lemma step_fenced n n' : step_between t0 (t0 + retention) n n' -> node_fenced n -> node_fenced n'.
Proof.
  intros (now & Hnow & Hs) Hn. destruct Hs as
    [io req n|io k from to response n Hin|io k gen op n|io k gen op from to n Hin|io k gen n|n content j Hc Hl].
  - apply begin_fenced; [lia|done].
  - unfold updateRelease. destruct (releases n !! k) as [r|] eqn:Ek; [|done]. step_if; [done|]. bool_hyp.
    pose proof (rewrite_fenced io k _ r n Hn Ek (fun _ => update_keeps now from to response r Hin E (proj1 Hnow))) as Hp.
    by destruct (persist_or_keep _ _ n) as [[] n1].
  - unfold beginReleaseAbort. destruct (matching k gen op n) as [r|] eqn:Em; [|done].
    apply matching_some in Em. step_if; [done|]. step_if; [|done].
    pose proof (rewrite_fenced io k _ r n Hn Em (fun _ => mark_keeps releaseAborting r eq_refl)) as Hp.
    by destruct (persist_or_keep _ _ n) as [[] n1].
  - unfold advanceReleaseAbort. destruct (matching k gen op n) as [r|] eqn:Em; [|done].
    apply matching_some in Em. step_if; [done|]. step_if; [done|].
    pose proof (rewrite_fenced io k _ r n Hn Em (fun _ => advance_keeps now from to r Hin)) as Hp.
    by destruct (persist_or_keep _ _ n) as [[] n1].
  - unfold markReleaseRestored. destruct (matching k gen "" n) as [r|] eqn:Em; [|done].
    apply matching_some in Em. step_if; [done|]. step_if; [done|].
    pose proof (rewrite_fenced io k _ r n Hn Em (fun _ => mark_keeps releaseRestored r eq_refl)) as Hp.
    by destruct (persist_or_keep _ _ n) as [[] n1].
  - unfold loadReleases in Hl. step_if; [|done]. injection Hl as <-. destruct Hn as [_ Hd]. split; [by apply Hd|].
    intros c Hcin. apply list_elem_of_singleton in Hcin as ->. by apply Hd.
Qed.
End fence.

Lemma no_update_from_abort r from to io now id response n : releases n !! id = Some r ->
  aborted (RelState r) = true -> (from, to) ∈ update_pairs ->
  exists e, updateRelease io now id from to response n = (Err e, n).
Proof.
  intros Hl Ha Hin. unfold updateRelease. rewrite Hl. step_if; [by eexists|]. bool_hyp. exfalso.
  rewrite E in Ha. unfold update_pairs in Hin. rewrite !elem_of_cons, elem_of_nil in Hin.
  destruct Hin as [[= -> ->]|[[= -> ->]|[[= -> ->]|[[= -> ->]|[]]]]]; done.
Qed.

(** C34: once the node durably accepted the abort of a release, then for
    the length of the journal's retention, whatever operations, failed or
    unsynced writes and crashes follow, its record of the workspace is that
    release in a restoring state or a later release.  While it is that
    release, no step of preparing, checkpointing or committing it is possible,
    and no request that is not of a later generation or release epoch starts
    another one. *)
Theorem accepted_abort_is_a_fence t0 io id gen op n0 r r' n1 n2 :
  matching id gen op n0 = Some r -> destructive (RelState r) = true ->
  beginReleaseAbort io id gen op n0 = (Ok r', n1) -> Z.of_nat (size (releases n0)) <= limit ->
  rtc (step_between t0 (t0 + retention)) n1 n2 ->
  exists x, releases n2 !! id = Some x /\
    ((aborted (RelState x) = true /\ Request x = Request r) \/ later_cycle (Request r) (Request x)) /\
    (Request x = Request r ->
      (forall io now from to response, (from, to) ∈ update_pairs ->
         exists e, updateRelease io now id from to response n2 = (Err e, n2)) /\
      (forall io now req, WS req = id -> ~ later_cycle (Request r) req -> snd (beginRelease io now req n2) = n2)).
Proof.
  intros Hm Hd Hb Hs Hr. pose proof (matching_some _ _ _ _ _ Hm) as Hl.
  assert (node_fenced t0 id (Request r) n1) as H1.
  { unfold beginReleaseAbort in Hb. rewrite Hm in Hb. fold (destructive (RelState r)) in Hb. rewrite Hd in Hb.
    step_if.
    { apply aborted_not_destructive in E. congruence. }
    unfold persist_or_keep in Hb. destruct io; cbn in Hb; try discriminate Hb.
    injection Hb as _ <-.
    assert (fenced t0 id (Request r) (<[id := set_RelState releaseAborting r]> (releases n0))) as Hf.
    { split; [by rewrite map_size_insert_Some|]. exists (set_RelState releaseAborting r).
      rewrite lookup_insert_eq. split; [done|]. by left. }
    split; [done|]. intros c Hc. by apply list_elem_of_singleton in Hc as ->. }
  assert (node_fenced t0 id (Request r) n2) as [[_ (x & Hx & Hfx)] _].
  { eapply (rtc_ind_r (node_fenced t0 id (Request r))); [done| |exact Hr].
    intros y z _ Hyz. by apply step_fenced. }
  exists x. split_and!; [done|destruct Hfx as [?|[? _]]; auto|]. intros Hreq.
  assert (aborted (RelState x) = true) as Ha.
  { destruct Hfx as [[? _]|[Hlat _]]; [done|]. rewrite Hreq in Hlat. unfold later_cycle in Hlat. lia. }
  split; [intros; by eapply no_update_from_abort|].
  intros io' now req Hid Hnl. unfold beginRelease. rewrite Hid, Hx.
  destruct (startsNewReleaseCycle x req) eqn:E; [|by step_if].
  exfalso. apply Hnl. eapply (new_cycle_later t0); [|exact E]. by left.
Qed.
End operations.

(** ** A run *)

Definition ex_req : WSReleaseReq := mkReleaseReq "ws1" 5 1 "rel_a" true "sleep" "acme" "docker" zero_spec.
Definition ex_record : durableRelease := mkRelease ex_req no_response "rel_a" releasePrepared 0.
Definition ex_node : node := mkNode {["ws1" := ex_record]} [{["ws1" := ex_record]}].
Definition ex_aborting : journal := {["ws1" := set_RelState releaseAborting ex_record]}.

Lemma accepted_abort_is_a_fence_witness :
  exists x, ex_aborting !! "ws1"%string = Some x /\ aborted (RelState x) = true.
Proof.
  destruct (accepted_abort_is_a_fence 0 100 0 PersistOk "ws1" 5 "rel_a" ex_node ex_record
              (set_RelState releaseAborting ex_record) (mkNode ex_aborting [ex_aborting])
              (mkNode ex_aborting [ex_aborting])) as (x & Hx & Hor & Hsame);
    [reflexivity|reflexivity|reflexivity|by vm_compute| |].
  - apply rtc_once. exists 50. split; [by vm_compute|].
    apply (j_crash 0 100 50 _ ex_aborting); [left|reflexivity].
  - exists x. split; [done|]. vm_compute in Hx. injection Hx as <-. reflexivity.
Defined.
End ReleaseJournal.
