(* ===== verification/Recovery.v ===== *)
(** * Recovery of a promoted controller

    Translation of [src/internal/control/recovery.go] and of the report a node
    makes to it ([src/internal/node/controller_state.go]).  A controller that
    was promoted from a replica may have lost the newest transactions; it asks
    every node what it holds and repairs its records from the answers before
    it serves anything.  While recovery is pending no handler runs
    ([dispatch] and [Tick] refuse), so the handlers do not interleave with it.

    The answers of the nodes, the outcome of each transaction and of each
    remote call are arguments; [label] is the tenant label a node enrolled
    with. *)

From Stdlib Require Import ZArith Lia Strings.String.
From stdpp Require Import base gmap strings option sorting list.
From S2P Require Import Prelude Lifecycle Control ReleaseJournal.
#[local] Open Scope Z_scope.

Module Recovery.
Import Lifecycle Control ReleaseJournal.

(** ** Reports *)

(** [proto.ControllerReleaseState] and [proto.ControllerNodeState]; sessions
    are only counted in an event. *)
Record ControllerReleaseState := mkReleaseState {
  RsRequest : WSReleaseReq; RsOperationID : string; RsState : string }.

Record ControllerNodeState := mkReport {
  RepNode : string; RepEpoch : Z; RepWorkspaces : list Workspace; RepReleases : list ControllerReleaseState }.

(** [Node.controllerState]: what the node serves and what its journal holds. *)
Definition controllerState (id : string) (epoch : Z) (held : list Workspace) (j : journal) : ControllerNodeState :=
  mkReport id epoch
    (sort_by (fun a b => String.ltb (ID a) (ID b)) held)
    (sort_by (fun a b => String.ltb (WS (RsRequest a)) (WS (RsRequest b)))
       (map (fun kv => mkReleaseState (Request (snd kv)) (RelOperationID (snd kv)) (RelState (snd kv)))
          (map_to_list j))).

Definition observedReleaseEpoch (request : WSReleaseReq) : Z :=
  if ReqReleaseEpoch request =? 0 then 1 else ReqReleaseEpoch request.

Fixpoint mergePublishedReleaseEpoch (observed : Workspace) (releases : list ControllerReleaseState)
  : result Code Workspace :=
  match releases with
  | [] => Ok observed
  | release :: t =>
      let req := RsRequest release in
      if (RsState release <>s "published") || (WS req <>s ID observed) then mergePublishedReleaseEpoch observed t
      else if negb (Gen req =? Generation observed)
              || ((ReqTenant req <>s "") && (ReqTenant req <>s Tenant observed)) then Err CodeConflict
      else
        let e := observedReleaseEpoch req in
        mergePublishedReleaseEpoch
          (if ReleaseEpoch observed <? e then set_release e (ReleaseOperation observed) observed else observed) t
  end.

(** ** One observed workspace *)

(** The workspace [reconcileObservedWorkspace] would record. *)
Definition reconciled (current : option Workspace) (node : string) (observed : Workspace)
    (release : option ControllerReleaseState) : result Code Workspace :=
  let to := match release with Some _ => WSClaiming | None => WSClaimed end in
  match current with
  | None =>
      let next := set_State to observed in
      Ok (set_identity (Tenant next) (if Owner next =s "" then Principal (Spec next) else Owner next)
            (if AuthzRevision next =? 0 then 1 else AuthzRevision next) next)
  | Some cur =>
      let? next := transitionWorkspace (Some cur)
                     (mkTransition transitionControllerReconcile actorRecovery to None None) in
      Ok (if Generation cur <? Generation observed then set_State to observed else next)
  end.

Definition finish_record (o : Options) (now : Z) (node : string) (observed : Workspace)
    (release : option ControllerReleaseState) (next : Workspace) : Workspace :=
  let next := set_LeaseUntil (leaseFrom o now) (set_Node node next) in
  let epoch := Z.max (ReleaseEpoch next) (ReleaseEpoch observed) in
  match release with
  | Some r => set_release (Z.max epoch (observedReleaseEpoch (RsRequest r))) (RsOperationID r) next
  | None => set_release epoch EmptyString next
  end.

Definition invalid_report (node : string) (observed : Workspace) : bool :=
  (ID observed =s "") || (Tenant observed =s "") || (Generation observed =? 0) || (Node observed <>s node).

Definition refuses (cur : Workspace) (node : string) (observed : Workspace) : bool :=
  (Tenant cur <>s Tenant observed) || ((Node cur <>s "") && (Node cur <>s node))
  || (Generation observed <? Generation cur).

(** The locked section of [reconcileObservedWorkspace]. *)
Definition reconcile_commit (o : Options) (label : string -> string) (now : Z) (tx : option Z) (node : string)
    (observed : Workspace) (release : option ControllerReleaseState) (c : Control)
  : result Code Workspace * Control :=
  if invalid_report node observed then (Err CodeConflict, c)
  else if (label node <>s "") && (label node <>s Tenant observed) then (Err CodeConflict, c)
  else
    let current := workspaces c !! ID observed in
    if match current with Some cur => refuses cur node observed | None => false end then (Err CodeConflict, c)
    else
      match reconciled current node observed release with
      | Err e => (Err e, c)
      | Ok next => commitClaim c (finish_record o now node observed release next) tx
      end.

(** The outcomes of one call: of its transaction, of the two requests
    [finishReleaseAbort] sends to the node, and of its transaction. *)
Record rec_io := mkRecIO { r_now : Z; r_tx : option Z; r_acked : bool; r_now2 : Z; r_tx2 : option Z }.

Definition reconcileObservedWorkspace (o : Options) (label : string -> string) (io : rec_io) (node : string)
    (observed : Workspace) (release : option ControllerReleaseState) (c : Control) : option Code * Control :=
  match reconcile_commit o label (r_now io) (r_tx io) node observed release c with
  | (Err e, c') => (Some e, c')
  | (Ok next, c') =>
      match release with
      | None => (None, c')
      | Some r =>
          if negb (r_acked io) then (Some CodeUnreachable, c')
          else
            match finish_abort o (r_now2 io) (r_tx2 io) (ID next) node (Generation next) (RsOperationID r) c' with
            | (Err e, c'') => (Some e, c'')
            | (Ok _, c'') => (None, c'')
            end
      end
  end.

(** ** The reports of all nodes *)

(** [seen] maps a workspace to the node that reported it; [calls] counts the
    calls made, to index their outcomes. *)
Record progress := mkProgress { p_control : Control; seen : gmap string string; calls : nat }.

Section recovery.
Context (o : Options) (label : string -> string) (env : nat -> rec_io).

Definition claimed_elsewhere (id node : string) (p : progress) : bool :=
  let prior := default EmptyString (seen p !! id) in (prior <>s "") && (prior <>s node).

(** Record that [node] reported [observed], and reconcile it. *)
Definition adopt (node : string) (observed : Workspace) (release : option ControllerReleaseState) (p : progress)
  : option Code * progress :=
  if claimed_elsewhere (ID observed) node p then (Some CodeConflict, p)
  else
    let '(e, c') := reconcileObservedWorkspace o label (env (calls p)) node observed release (p_control p) in
    (e, mkProgress c' (<[ID observed := node]> (seen p)) (S (calls p))).

Fixpoint adopt_workspaces (report : ControllerNodeState) (l : list Workspace) (p : progress)
  : option Code * progress :=
  match l with
  | [] => (None, p)
  | observed :: t =>
      match mergePublishedReleaseEpoch observed (RepReleases report) with
      | Err e => (Some e, p)
      | Ok observed =>
          match adopt (RepNode report) observed None p with
          | (Some e, p') => (Some e, p')
          | (None, p') => adopt_workspaces report t p'
          end
      end
  end.

Definition with_backend (b : string) (s : WorkspaceSpec) : WorkspaceSpec :=
  mkSpec (RestoreFrom s) (RestoreFormat s) (RestoreObjects s) b (Principal s) (Readers s) (Writers s).

(** The workspace a retained release stands for. *)
Definition released_workspace (node : string) (r : ControllerReleaseState) : Workspace :=
  let req := RsRequest r in
  mkWorkspace (WS req) (ReqTenant req) EmptyString WSClaiming node (Gen req) 0 0 EmptyString EmptyString []
    (with_backend (ReqBackend req) (ReqSpec req)) (observedReleaseEpoch req) (RsOperationID r) 0 [] 0.

Fixpoint adopt_releases (node : string) (l : list ControllerReleaseState) (p : progress) : option Code * progress :=
  match l with
  | [] => (None, p)
  | release :: t =>
      if (RsState release =s "committed") || (RsState release =s "published") then adopt_releases node t p
      else
        match adopt node (released_workspace node release) (Some release) p with
        | (Some e, p') => (Some e, p')
        | (None, p') => adopt_releases node t p'
        end
  end.

Fixpoint adopt_reports (reports : list ControllerNodeState) (p : progress) : option Code * progress :=
  match reports with
  | [] => (None, p)
  | report :: t =>
      match adopt_workspaces report (RepWorkspaces report) p with
      | (Some e, p') => (Some e, p')
      | (None, p') =>
          match adopt_releases (RepNode report) (RepReleases report) p' with
          | (Some e, p'') => (Some e, p'')
          | (None, p'') => adopt_reports t p''
          end
      end
  end.

(** ** The whole recovery *)

(** A workspace some node must account for. *)
Definition accountable (w : Workspace) : bool := (Node w <>s "") && negb (is_state WSDestroyed w).

Definition required_nodes (c : Control) : list string :=
  sort_by String.ltb (elements
    (list_to_set (map (fun kv => Node (snd kv)) (filter (fun kv => accountable (snd kv) = true) (map_to_list (workspaces c))))
     ∪ dom (filter (fun kv => Online (snd kv) = true) (nodes c)) : gset string)).

(** [query] is a node's answer, once it is online. *)
Fixpoint collect_reports (epoch : Z) (query : string -> result Code ControllerNodeState) (nodes : list string)
  : result Code (list ControllerNodeState) :=
  match nodes with
  | [] => Ok []
  | n :: t =>
      let? report := query n in
      if (RepNode report <>s n) || negb (RepEpoch report =? epoch) then Err CodeConflict
      else let? rest := collect_reports epoch query t in Ok (report :: rest)
  end.

Definition unaccounted (p : progress) : bool :=
  existsb (fun kv => accountable (snd kv) && (default EmptyString (seen p !! ID (snd kv)) =s ""))
    (map_to_list (workspaces (p_control p))).

(** The error, if any, the state, and whether recovery is still pending;
    [final] is the transaction that records the end of the recovery. *)
Definition ReconcileRecovery (query : string -> result Code ControllerNodeState) (final : bool) (c : Control)
  : option Code * Control * bool :=
  match collect_reports (controllerEpoch c) query (required_nodes c) with
  | Err e => (Some e, c, true)
  | Ok reports =>
      match adopt_reports reports (mkProgress c ∅ 0) with
      | (Some e, p) => (Some e, p_control p, true)
      | (None, p) =>
          if unaccounted p then (Some CodeConflict, p_control p, true)
          else if negb final then (Some CodeStorage, p_control p, true)
          else (None, p_control p, false)
      end
  end.

(** ** What one adoption does *)

(** The process map is keyed by id, and the rows are what is published. *)
Definition consistent (c : Control) : Prop :=
  rows c = workspaces c /\ map_Forall (fun id w => ID w = id) (workspaces c).

(** [w] is the record of an adopted report of generation [g]. *)
Definition holds (node : string) (g : Z) (w : Workspace) : Prop := Node w = node /\ Generation w = g.

Lemma commitClaim_ok c w tx w' c' : commitClaim c w tx = (Ok w', c') -> consistent c ->
  (exists t, w' = set_UpdatedAt t w) /\ workspaces c' = <[ID w := w']> (workspaces c) /\ consistent c'.
Proof.
  unfold commitClaim, persistClaim. destruct tx as [t|]; [|done]. intros [= <- <-] [Hr Hk]. cbn.
  split_and!; [by eexists|done|]. split; cbn; [by rewrite Hr|]. by apply map_Forall_insert_2.
Qed.

Lemma commitWS_ok c w tx w' c' : commitWS c w tx = (Ok w', c') -> consistent c ->
  (exists t, w' = set_UpdatedAt t w) /\ workspaces c' = <[ID w := w']> (workspaces c) /\ consistent c'.
Proof.
  unfold commitWS, persistWS. destruct tx as [t|]; [|done]. intros [= <- <-] [Hr Hk]. cbn.
  split_and!; [by eexists|done|]. split; cbn; [by rewrite Hr|]. by apply map_Forall_insert_2.
Qed.

Lemma finish_abort_ok now tx id node gen op c w' c' : consistent c ->
  finish_abort o now tx id node gen op c = (Ok w', c') ->
  exists w, workspaces c !! id = Some w /\ workspaces c' = <[id := w']> (workspaces c) /\ consistent c' /\
    State w' = WSClaimed /\ Generation w' = Generation w /\ Node w' = Node w.
Proof.
  intros Hc. unfold finish_abort, with_ws, with_transition. destruct (workspaces c !! id) as [w|] eqn:Ew; [|done].
  step_if; [done|]. destruct (transitionWorkspace _ _) as [next|] eqn:Et; [|done]. intros Hw.
  apply transition_ok in Et as (-> & _). destruct (commitWS_ok _ _ _ _ _ Hw Hc) as ([t ->] & Hws & Hc').
  cbn in Hws. rewrite (proj2 Hc _ _ Ew) in Hws. exists w. split_and!; done.
Qed.

Lemma reconciled_ok current node observed release next :
  match current with Some cur => refuses cur node observed = false /\ ID cur = ID observed | None => True end ->
  reconciled current node observed release = Ok next ->
  ID next = ID observed /\ Generation next = Generation observed /\
  State next = match release with Some _ => WSClaiming | None => WSClaimed end.
Proof.
  unfold reconciled. destruct current as [cur|].
  - intros [Hr Hid]. destruct (transitionWorkspace _ _) as [x|] eqn:Et; [|done].
    apply transition_ok in Et as (-> & _). intros [= <-]. unfold refuses in Hr. bool_hyp.
    step_if; bool_hyp; cbn; [done|]. split_and!; [done|lia|done].
  - by intros _ [= <-].
Qed.

Lemma finish_record_fields now node observed release next :
  let w := finish_record o now node observed release next in
  ID w = ID next /\ Generation w = Generation next /\ State w = State next /\ Node w = node.
Proof. unfold finish_record. by destruct release. Qed.

Lemma reconcile_commit_ok now tx node observed release c w c' : consistent c ->
  reconcile_commit o label now tx node observed release c = (Ok w, c') ->
  consistent c' /\ workspaces c' = <[ID observed := w]> (workspaces c) /\ ID w = ID observed /\
  holds node (Generation observed) w /\ State w = match release with Some _ => WSClaiming | None => WSClaimed end /\
  forall cur, workspaces c !! ID observed = Some cur ->
    Generation cur <= Generation observed /\ (Node cur = EmptyString \/ Node cur = node).
Proof.
  intros Hc. unfold reconcile_commit. step_if; [done|]. step_if; [done|].
  set (bad := match workspaces c !! ID observed with Some cur => refuses cur node observed | None => false end).
  destruct bad eqn:Eb; [done|]. destruct (reconciled _ _ _ _) as [next|] eqn:Er; [|done]. intros Hw.
  apply reconciled_ok in Er as (Hid & Hg & Hs).
  2: { subst bad. destruct (workspaces c !! ID observed) as [cur|] eqn:Ec; [|done]. split; [done|]. by apply (proj2 Hc). }
  destruct (finish_record_fields now node observed release next) as (F1 & F2 & F3 & F4).
  destruct (commitClaim_ok _ _ _ _ _ Hw Hc) as ([t ->] & Hws & Hc').
  rewrite F1, Hid in Hws. unfold holds. cbn. rewrite F1, F2, F3, F4, Hid, Hg, Hs. split_and!; try done.
  intros cur Hcur. subst bad. rewrite Hcur in Eb. unfold refuses in Eb.
  apply orb_false_iff in Eb as [Eb E2]. apply orb_false_iff in Eb as [_ E1]. bool_hyp. split; [done|].
  apply andb_false_iff in E1 as [E1|E1]; bool_hyp; auto.
Qed.

Lemma reconcile_ok io node observed release c c' : consistent c ->
  reconcileObservedWorkspace o label io node observed release c = (None, c') ->
  consistent c' /\ exists w, workspaces c' = <[ID observed := w]> (workspaces c) /\
    holds node (Generation observed) w /\ State w = WSClaimed /\
    forall cur, workspaces c !! ID observed = Some cur ->
      Generation cur <= Generation observed /\ (Node cur = EmptyString \/ Node cur = node).
Proof.
  intros Hc. unfold reconcileObservedWorkspace.
  destruct (reconcile_commit _ _ _ _ _ _ _ _) as [[w|e] c1] eqn:E1; [|done].
  apply (reconcile_commit_ok _ _ _ _ _ _ _ _ Hc) in E1 as (Hc1 & Hws & Hid & Hh & Hs & Hcur).
  destruct release as [r|]; [|intros [= <-]; split; [done|]; by exists w].
  step_if; [done|]. destruct (finish_abort _ _ _ _ _ _ _ _) as [[w'|e] c2] eqn:E2; [|done]. intros [= <-].
  apply (finish_abort_ok _ _ _ _ _ _ _ _ _ Hc1) in E2 as (w1 & H1 & H2 & H3 & H4 & H5 & H6).
  split; [done|]. exists w'. rewrite Hid, Hws, lookup_insert_eq in H1. injection H1 as <-.
  rewrite H2, Hid, Hws, insert_insert_eq. split_and!; try done. destruct Hh. unfold holds. by rewrite H5, H6.
Qed.

(** ** The invariant of a recovery that has not failed

    [log] lists the adopted reports: node, workspace and generation. *)

Section invariant.
Context (c0 : Control).

Record adopting (log : list (string * string * Z)) (p : progress) : Prop := mkAdopting {
  ad_ok : consistent (p_control p);
  ad_unseen : forall id, seen p !! id = None -> workspaces (p_control p) !! id = workspaces c0 !! id;
  ad_seen : forall id n, seen p !! id = Some n -> exists w, workspaces (p_control p) !! id = Some w /\
    Node w = n /\ State w = WSClaimed /\ (n, id, Generation w) ∈ log /\
    forall w0, workspaces c0 !! id = Some w0 ->
      Generation w0 <= Generation w /\ (Node w0 = EmptyString \/ Node w0 = n);
  ad_log : forall n id g, (n, id, g) ∈ log -> n <> EmptyString /\ seen p !! id = Some n /\
    exists w, workspaces (p_control p) !! id = Some w /\ g <= Generation w }.

Lemma adopt_adopting log node observed release p p' : node <> EmptyString -> adopting log p ->
  adopt node observed release p = (None, p') ->
  adopting ((node, ID observed, Generation observed) :: log) p'.
Proof.
  intros Hn [Hok Hun Hse Hlg]. unfold adopt. step_if; [done|].
  destruct (reconcileObservedWorkspace _ _ _ _ _ _ _) as [e c'] eqn:Er. intros [= -> <-].
  apply (reconcile_ok _ _ _ _ _ _ Hok) in Er as (Hok' & w & Hws & [Hnode Hgen] & Hst & Hcur).
  assert (forall n, seen p !! ID observed = Some n -> n = node) as Hsame.
  { intros n Hs. destruct (Hse _ _ Hs) as (x & _ & _ & _ & Hin & _). apply Hlg in Hin as [Hne _].
    unfold claimed_elsewhere in E. rewrite Hs in E. cbn [default from_option id] in E. apply andb_false_iff in E as [E|E]; bool_hyp; done. }
  split; cbn; [done| | |].
  - intros id Hs. apply lookup_insert_None in Hs as [Hs Hne]. by rewrite Hws, lookup_insert_ne, Hun.
  - intros id n Hs. apply lookup_insert_Some in Hs as [[<- <-]|[Hne Hs]].
    + exists w. rewrite Hws, lookup_insert_eq. split_and!; [done|done|done|rewrite Hgen; left|].
      intros w0 Hw0. destruct (seen p !! ID observed) as [n|] eqn:Es.
      * specialize (Hsame _ eq_refl) as ->. destruct (Hse _ _ Es) as (x & Hx & _ & _ & _ & H0).
        destruct (H0 w0 Hw0), (Hcur x Hx). rewrite Hgen. split; [lia|done].
      * rewrite <- (Hun _ Es) in Hw0. rewrite Hgen. by apply Hcur.
    + destruct (Hse _ _ Hs) as (x & H1 & H2 & H3 & H4 & H5). exists x. rewrite Hws, lookup_insert_ne by done.
      split_and!; try done. by right.
  - intros n id g Hin. apply elem_of_cons in Hin as [[= -> -> ->]|Hin].
    + rewrite lookup_insert_eq, Hws, lookup_insert_eq. split_and!; [done|done|]. exists w. split; [done|lia].
    + destruct (Hlg _ _ _ Hin) as (Hne & Hs & x & Hx & Hge). split; [done|].
      destruct (decide (id = ID observed)) as [->|Hne'].
      * rewrite lookup_insert_eq, Hws, lookup_insert_eq. rewrite (Hsame _ Hs). split; [done|]. exists w.
        split; [done|]. destruct (Hcur x Hx). lia.
      * rewrite lookup_insert_ne, Hws, lookup_insert_ne by done. split; [done|]. by exists x.
Qed.

Lemma merge_fields releases observed observed' : mergePublishedReleaseEpoch observed releases = Ok observed' ->
  ID observed' = ID observed /\ Generation observed' = Generation observed.
Proof.
  revert observed. induction releases as [|r l IH]; intros w Hm; cbn in Hm; [by injection Hm as <-|].
  step_if; [by apply IH|]. step_if; [done|]. apply IH in Hm as [-> ->]. by step_if.
Qed.

Definition workspace_entries (r : ControllerNodeState) (l : list Workspace) : list (string * string * Z) :=
  map (fun w => (RepNode r, ID w, Generation w)) l.
Definition release_entries (node : string) (l : list ControllerReleaseState) : list (string * string * Z) :=
  map (fun x => (node, WS (RsRequest x), Gen (RsRequest x)))
    (filter (fun x => (RsState x =s "committed") || (RsState x =s "published") = false) l).
Definition entries (r : ControllerNodeState) : list (string * string * Z) :=
  workspace_entries r (RepWorkspaces r) ++ release_entries (RepNode r) (RepReleases r).

(** Only membership in the log matters. *)
Lemma adopting_log log log' p : (forall x, x ∈ log <-> x ∈ log') -> adopting log p -> adopting log' p.
Proof.
  intros Hl [H1 H2 H3 H4]. split; [done|done| |].
  - intros id n Hs. destruct (H3 id n Hs) as (w & ? & ? & ? & Hin & ?). exists w. rewrite <- Hl. done.
  - intros n id g Hin%Hl. by apply H4.
Qed.

Lemma adopt_workspaces_adopting r l : forall log p p', RepNode r <> EmptyString -> adopting log p ->
  adopt_workspaces r l p = (None, p') -> adopting (log ++ workspace_entries r l) p'.
Proof.
  induction l as [|w l IH]; intros log p p' Hn Ha Hr; cbn in Hr.
  { injection Hr as <-. by rewrite app_nil_r. }
  destruct (mergePublishedReleaseEpoch w (RepReleases r)) as [w'|] eqn:Em; [|done].
  apply merge_fields in Em as [Hid Hg]. destruct (adopt (RepNode r) w' None p) as [[e|] p1] eqn:E1; [done|].
  apply (adopt_adopting log) in E1; [|done|done]. rewrite Hid, Hg in E1.
  apply (IH _ _ _ Hn E1) in Hr. eapply adopting_log; [|exact Hr]. intros x. cbn. set_solver.
Qed.

Lemma adopt_releases_adopting node l : forall log p p', node <> EmptyString -> adopting log p ->
  adopt_releases node l p = (None, p') -> adopting (log ++ release_entries node l) p'.
Proof.
  induction l as [|x l IH]; intros log p p' Hn Ha Hr; cbn in Hr.
  { injection Hr as <-. unfold release_entries. cbn. by rewrite app_nil_r. }
  unfold release_entries. rewrite filter_cons. destruct (_ || _) eqn:E; [by eapply IH|].
  destruct (adopt node _ (Some x) p) as [[e|] p1] eqn:E1; [done|].
  apply (adopt_adopting log) in E1; [|done|done]. apply (IH _ _ _ Hn E1) in Hr.
  eapply adopting_log; [|exact Hr]. intros y. cbn. unfold release_entries. set_solver.
Qed.

Lemma adopt_reports_adopting l : forall log p p', Forall (fun r => RepNode r <> EmptyString) l -> adopting log p ->
  adopt_reports l p = (None, p') -> adopting (log ++ flat_map entries l) p'.
Proof.
  induction l as [|r l IH]; intros log p p' Hn Ha Hr; cbn in Hr.
  { injection Hr as <-. by rewrite app_nil_r. }
  apply Forall_cons in Hn as [Hn Hns].
  destruct (adopt_workspaces r (RepWorkspaces r) p) as [[e|] p1] eqn:E1; [done|].
  destruct (adopt_releases (RepNode r) (RepReleases r) p1) as [[e|] p2] eqn:E2; [done|].
  apply (adopt_workspaces_adopting _ _ log) in E1; [|done|done].
  apply (adopt_releases_adopting _ _ _ _ _ Hn E1) in E2.
  apply (IH _ _ _ Hns E2) in Hr. eapply adopting_log; [|exact Hr]. intros x. cbn. unfold entries. set_solver.
Qed.

Lemma collect_ok epoch query l reports : collect_reports epoch query l = Ok reports ->
  Forall2 (fun n r => query n = Ok r /\ RepNode r = n) l reports.
Proof.
  revert reports. induction l as [|n l IH]; intros reports Hc; cbn in Hc; [injection Hc as <-; constructor|].
  destruct (query n) as [r|] eqn:Eq; [|done]. step_if; [done|]. bool_hyp.
  destruct (collect_reports epoch query l) as [rest|] eqn:El; [|done]. injection Hc as <-.
  constructor; [done|by apply IH].
Qed.
End invariant.

Lemma required_nonempty c n : nodes c !! EmptyString = None -> n ∈ required_nodes c -> n <> EmptyString.
Proof.
  intros Hn Hin ->. unfold required_nodes in Hin. rewrite sort_by_perm, elem_of_elements, elem_of_union in Hin.
  destruct Hin as [Hin|Hin].
  - apply elem_of_list_to_set, list_elem_of_fmap in Hin as ([id w] & He & Hf).
    apply list_elem_of_filter in Hf as [Ha _]. unfold accountable in Ha. cbn in Ha, He. rewrite <- He in Ha. done.
  - apply elem_of_dom in Hin as [x Hx]. apply map_lookup_filter_Some in Hx as [Hx _]. congruence.
Qed.

Lemma adopting_start c : consistent c -> adopting c [] (mkProgress c ∅ 0).
Proof.
  intros Hc. split; cbn; [done|done| |].
  - intros id n Hs. by rewrite lookup_empty in Hs.
  - intros n id g Hin. by apply not_elem_of_nil in Hin.
Qed.

Lemma reports_nonempty c query reports : nodes c !! EmptyString = None ->
  collect_reports (controllerEpoch c) query (required_nodes c) = Ok reports ->
  Forall (fun r => RepNode r <> EmptyString) reports.
Proof.
  intros Hn Hc. apply collect_ok in Hc. apply Forall_forall. intros r Hr.
  apply list_elem_of_lookup in Hr as [i Hi]. destruct (Forall2_lookup_r _ _ _ _ _ Hc Hi) as (n & Hni & _ & ->).
  eapply required_nonempty; [done|]. by eapply list_elem_of_lookup_2.
Qed.

Lemma entries_node r n id g : (n, id, g) ∈ entries r -> n = RepNode r.
Proof.
  unfold entries, workspace_entries, release_entries. rewrite elem_of_app.
  by intros [(x & [= -> _ _] & _)%list_elem_of_fmap|(x & [= -> _ _] & _)%list_elem_of_fmap].
Qed.

(** C29: a recovery that succeeds clears the hold, leaves the rows equal to
    what is published, and leaves every workspace either as it was restored
    and with no node that must account for it, or claimed by a node at a
    generation that node reported, never below the restored generation and
    never taken from another recorded node.  Everything a queried node
    reported, in service or in an unfinished release, is recorded for that
    node, so that no workspace is in service on two nodes. *)
Theorem recovery_restores_reported_authority query final c c' pending :
  consistent c -> nodes c !! EmptyString = None -> ReconcileRecovery query final c = (None, c', pending) ->
  pending = false /\ consistent c' /\
  (forall id,
    (workspaces c' !! id = workspaces c !! id /\
     forall w, workspaces c' !! id = Some w -> accountable w = false) \/
    (exists w r, workspaces c' !! id = Some w /\ query (Node w) = Ok r /\ (Node w, id, Generation w) ∈ entries r /\
       State w = WSClaimed /\
       forall w0, workspaces c !! id = Some w0 ->
         Generation w0 <= Generation w /\ (Node w0 = EmptyString \/ Node w0 = Node w))) /\
  (forall n r id g, n ∈ required_nodes c -> query n = Ok r -> (n, id, g) ∈ entries r ->
     exists w, workspaces c' !! id = Some w /\ Node w = n /\ g <= Generation w).
Proof.
  intros Hc Hn. unfold ReconcileRecovery.
  destruct (collect_reports _ _ _) as [reports|] eqn:Er; [|done].
  destruct (adopt_reports reports _) as [[e|] p] eqn:Ea; [done|].
  pose proof (adopt_reports_adopting c _ _ _ _ (reports_nonempty _ _ _ Hn Er) (adopting_start c Hc) Ea) as [H1 H2 H3 H4].
  step_if; [done|]. step_if; [done|]. intros [= <- <-]. cbn [app] in *. apply collect_ok in Er.
  split_and!; [done|done| |].
  - intros id. destruct (seen p !! id) as [n|] eqn:Es.
    + right. destruct (H3 _ _ Es) as (w & Hw & Hnode & Hst & Hin & H0).
      apply list_elem_of_In, in_flat_map in Hin as (r & Hr & Hre).
      apply list_elem_of_In in Hr, Hre. apply list_elem_of_lookup in Hr as [i Hi].
      destruct (Forall2_lookup_r _ _ _ _ _ Er Hi) as (m & _ & Hq & Hm).
      pose proof (entries_node _ _ _ _ Hre) as ->. exists w, r. rewrite Hnode, Hm. rewrite Hm in Hre. by rewrite Hm in H0.
    + left. split; [by apply H2|]. intros w Hw. destruct (accountable w) eqn:Ew; [|done]. exfalso.
      assert (unaccounted p = true); [|congruence]. apply existsb_exists. exists (id, w).
      split; [apply list_elem_of_In; by apply elem_of_map_to_list|]. cbn. rewrite Ew, (proj2 H1 _ _ Hw), Es. done.
  - intros n r id g Hin Hq He. apply list_elem_of_lookup in Hin as [i Hi].
    destruct (Forall2_lookup_l _ _ _ _ _ Er Hi) as (r' & Hr' & Hq' & _). rewrite Hq in Hq'. injection Hq' as <-.
    assert ((n, id, g) ∈ flat_map entries reports) as Hl.
    { apply list_elem_of_In, in_flat_map. exists r. split; apply list_elem_of_In; [by eapply list_elem_of_lookup_2|done]. }
    destruct (H4 _ _ _ Hl) as (_ & Hs & w & Hw & Hge). destruct (H3 _ _ Hs) as (w' & Hw' & Hnode & _).
    exists w. split_and!; [done|congruence|done].
Qed.

(** An unfinished release is only adopted at or above the recorded generation. *)
Lemma adopt_releases_current c0 node x l : forall log p p' g, node <> EmptyString -> adopting c0 log p ->
  x ∈ l -> (RsState x =s "committed") || (RsState x =s "published") = false ->
  (node, WS (RsRequest x), g) ∈ log -> adopt_releases node l p = (None, p') -> g <= Gen (RsRequest x).
Proof.
  induction l as [|y l IH]; intros log p p' g Hn Ha Hx Hs Hin Hr; [by apply not_elem_of_nil in Hx|].
  cbn in Hr. apply elem_of_cons in Hx as [->|Hx].
  - rewrite Hs in Hr. destruct (adopt node _ (Some y) p) as [[e|] p1] eqn:E1; [done|]. unfold adopt in E1.
    step_if; [done|]. destruct (reconcileObservedWorkspace _ _ _ _ _ _ _) as [e c'] eqn:Er. injection E1 as -> <-.
    apply (reconcile_ok _ _ _ _ _ _ (ad_ok _ _ _ Ha)) in Er as (_ & w & _ & _ & _ & Hcur).
    destruct (ad_log _ _ _ Ha _ _ _ Hin) as (_ & _ & cur & Hc & Hge).
    destruct (Hcur cur Hc) as [Hle _]. cbn in Hle. lia.
  - destruct (_ || _) eqn:E in Hr; [by eapply IH|].
    destruct (adopt node _ (Some y) p) as [[e|] p1] eqn:E1; [done|].
    apply (adopt_adopting c0 log) in E1; [|done|done]. eapply IH; [done|exact E1|done|done|by right|done].
Qed.

Lemma adopt_reports_in c0 r l : forall p p' log, r ∈ l -> Forall (fun r => RepNode r <> EmptyString) l ->
  adopting c0 log p -> adopt_reports l p = (None, p') ->
  exists log1 p1 p2 p3, adopting c0 log1 p1 /\ adopt_workspaces r (RepWorkspaces r) p1 = (None, p2) /\
    adopt_releases (RepNode r) (RepReleases r) p2 = (None, p3).
Proof.
  induction l as [|r1 l IH]; intros p p' log Hin Hn Ha Hr; [by apply not_elem_of_nil in Hin|].
  cbn in Hr. apply Forall_cons in Hn as [Hn Hns].
  destruct (adopt_workspaces r1 (RepWorkspaces r1) p) as [[e|] p1] eqn:E1; [done|].
  destruct (adopt_releases (RepNode r1) (RepReleases r1) p1) as [[e|] p2] eqn:E2; [done|].
  apply elem_of_cons in Hin as [->|Hin]; [by exists log, p, p1, p2|].
  pose proof (adopt_workspaces_adopting c0 _ _ log _ _ Hn Ha E1) as A1.
  pose proof (adopt_releases_adopting c0 _ _ _ _ _ Hn A1 E2) as A2. by eapply IH.
Qed.

(** a node keeps the journal record of a release whose abort it has
    completed, in the state "abort-published", and reports it; recovery tests
    for "published", so that it takes the record for a release in progress.
    When the workspace has since been placed on the node again, at a higher
    generation, recovery fails on the older record, whatever else it meets,
    and the controller stays unready. *)
Theorem completed_abort_blocks_recovery query final c n held j w rec :
  consistent c -> nodes c !! EmptyString = None -> n ∈ required_nodes c ->
  query n = Ok (controllerState n (controllerEpoch c) held j) ->
  w ∈ held -> j !! ID w = Some rec -> WS (Request rec) = ID w -> RelState rec = releasePublished ->
  Gen (Request rec) < Generation w ->
  exists e c', ReconcileRecovery query final c = (Some e, c', true).
Proof.
  intros Hc Hn Hin Hq Hw Hj Hid Hst Hlt. unfold ReconcileRecovery.
  destruct (collect_reports _ _ _) as [reports|e] eqn:Er; [|by eauto].
  destruct (adopt_reports reports _) as [[e|] p] eqn:Ea; [by eauto|]. exfalso.
  set (r := controllerState n (controllerEpoch c) held j) in *.
  pose proof (reports_nonempty _ _ _ Hn Er) as Hne. apply collect_ok in Er.
  assert (r ∈ reports) as Hr.
  { apply list_elem_of_lookup in Hin as [i Hi]. destruct (Forall2_lookup_l _ _ _ _ _ Er Hi) as (r' & Hr' & Hq' & _).
    rewrite Hq in Hq'. injection Hq' as <-. by eapply list_elem_of_lookup_2. }
  destruct (adopt_reports_in c r reports _ _ _ Hr Hne (adopting_start c Hc) Ea) as (log & p1 & p2 & p3 & A1 & E1 & E2).
  assert (RepNode r <> EmptyString) as Hrn by (rewrite Forall_forall in Hne; by apply Hne).
  pose proof (adopt_workspaces_adopting c _ _ _ _ _ Hrn A1 E1) as A2.
  set (x := mkReleaseState (Request rec) (RelOperationID rec) (RelState rec)).
  assert (x ∈ RepReleases r) as Hx.
  { cbn. rewrite sort_by_perm. apply list_elem_of_fmap. exists (ID w, rec). split; [done|]. by apply elem_of_map_to_list. }
  assert (Generation w <= Gen (RsRequest x)); [|cbn in *; lia].
  eapply (adopt_releases_current c _ x _ _ _ _ (Generation w) Hrn A2 Hx); [cbn; by rewrite Hst| |exact E2].
  apply elem_of_app. right. apply list_elem_of_fmap. exists w. cbn. rewrite Hid. split; [done|].
  by rewrite sort_by_perm.
Qed.
End recovery.

(** ** Two recoveries of one workspace

    The restored database has it at generation 6 on node n1, which serves
    it at generation 7; in the second run the node also kept the record of an
    abort it completed at generation 5. *)

Definition ex_options : Options := mkOptions 30 60.
Definition ex_label (node : string) : string := EmptyString.
Definition ex_env (n : nat) : rec_io := mkRecIO 0 (Some 0) true 0 (Some 0).
Definition ex_workspace (gen : Z) : Workspace :=
  mkWorkspace "ws1" "acme" "ann" WSClaimed "n1" gen 0 0 "" "" [] zero_spec 0 "" 1 [] 0.
Definition ex_control : Control :=
  mkControl {["ws1" := ex_workspace 6]} {["ws1" := ex_workspace 6]} ∅ ∅ {["n1" := mkNodeState true 0]} 2.
Definition ex_query (j : journal) (n : string) : result Code ControllerNodeState :=
  if n =s "n1" then Ok (controllerState "n1" 2 [ex_workspace 7] j) else Err CodeUnreachable.
Definition ex_completed : durableRelease := mkRelease ex_req no_response "rel_a" releasePublished 3.

Lemma ex_consistent : consistent ex_control.
Proof. split; [reflexivity|]. apply map_Forall_singleton. reflexivity. Qed.

Definition ex_recovered : option Code * Control * bool :=
  ReconcileRecovery ex_options ex_label ex_env (ex_query ∅) true ex_control.

Lemma recovery_restores_reported_authority_witness :
  snd ex_recovered = false /\
  exists w, workspaces (snd (fst ex_recovered)) !! "ws1"%string = Some w /\ Node w = "n1"%string /\ 7 <= Generation w.
Proof.
  destruct (recovery_restores_reported_authority ex_options ex_label ex_env (ex_query ∅) true ex_control
              (snd (fst ex_recovered)) (snd ex_recovered) ex_consistent) as (Hp & _ & _ & Hall);
    [reflexivity|vm_compute; reflexivity|].
  split; [exact Hp|].
  apply (Hall "n1"%string (controllerState "n1" 2 [ex_workspace 7] ∅) "ws1"%string 7);
    [|reflexivity|]; vm_compute; left.
Defined.

Lemma completed_abort_blocks_recovery_witness :
  exists e c', ReconcileRecovery ex_options ex_label ex_env (ex_query {["ws1" := ex_completed]}) true ex_control
               = (Some e, c', true).
Proof.
  apply (completed_abort_blocks_recovery ex_options ex_label ex_env (ex_query {["ws1" := ex_completed]}) true ex_control
           "n1" [ex_workspace 7] {["ws1" := ex_completed]} (ex_workspace 7) ex_completed ex_consistent);
    [reflexivity| |reflexivity|left|reflexivity|reflexivity|reflexivity|reflexivity].
  vm_compute. left.
Defined.
End Recovery.
