(* ===== verification/Broker.v ===== *)
(** * The credential pass and the egress policy of the broker

    Translation of [src/internal/broker/substitute.go], of the parts of
    [src/internal/broker/broker.go] that find placeholders, authorize a request
    and replace placeholders by secrets, and of [HostMatchesAny]
    ([src/internal/proto/repo.go]).

    Texts are byte strings.  The encodings the code calls (query strings,
    media types, JSON, base64) are fields of the class [Codecs], and so is the
    order in which a Go map is ranged over.  The parsed views that the code
    caches in [credentialParts] are recomputed here: the fields they are parsed
    from do not change before the pass that rewrites them. *)

From Stdlib Require Import ZArith Lia Strings.String Strings.Byte.
From stdpp Require Import base gmap strings option list.
From S2P Require Import Prelude GoStd.
#[local] Open Scope Z_scope.

Module Broker.

Abbreviation text := (list byte).
Definition T (s : string) : text := list_byte_of_string s.

Notation "a =t b" := (bool_decide (a = b :> text)) (at level 70, no associativity) : remount_scope.

(** ** Byte strings *)

Definition HasPrefix (s p : text) : bool := take (length p) s =t p.
Definition HasSuffix (s p : text) : bool :=
  (length p <=? length s)%nat && (drop (length s - length p) s =t p).
Definition TrimPrefix (s p : text) : text := if HasPrefix s p then drop (length p) s else s.

Fixpoint Index (s p : text) : option nat :=
  if HasPrefix s p then Some O
  else match s with [] => None | _ :: t => S <$> Index t p end.

Definition Contains (s p : text) : bool := bool_decide (is_Some (Index s p)).

(** [strings.Split] by one byte. *)
Fixpoint split_at (sep : byte) (s : text) : list text :=
  match s with
  | [] => [[]]
  | b :: t =>
      if bool_decide (b = sep) then [] :: split_at sep t
      else match split_at sep t with w :: ws => (b :: w) :: ws | [] => [[b]] end
  end.

(** [strings.ReplaceAll] of a pattern of two bytes. *)
Fixpoint replace2 (x y : byte) (by_ : text) (s : text) : text :=
  match s with
  | a :: ((b :: t) as s') =>
      if bool_decide (a = x /\ b = y) then by_ ++ replace2 x y by_ t else a :: replace2 x y by_ s'
  | _ => s
  end.

(** ** Tokens *)

Definition credentialTokenByte (b : byte) : bool :=
  let v := byte_val b in
  GoStd.in_range 0x61 0x7A v || GoStd.in_range 0x41 0x5A v || GoStd.in_range 0x30 0x39 v
  || (v =? 0x5F) || (v =? 0x2D) || (v =? 0x2E).

Definition left_ok (value : text) (i : nat) : bool :=
  match i with
  | O => true
  | S j => match value !! j with
           | Some c => negb (credentialTokenByte c) || (byte_val c =? 0x3A)
           | None => true
           end
  end.

Definition right_ok (value : text) (end_ : nat) : bool :=
  match value !! end_ with None => true | Some c => negb (credentialTokenByte c) end.

Fixpoint token_loop (fuel : nat) (value placeholder : text) (offset : nat) : bool :=
  match fuel with
  | O => false
  | S fuel =>
      if (offset + length placeholder <=? length value)%nat then
        match Index (drop offset value) placeholder with
        | None => false
        | Some k =>
            let i := (k + offset)%nat in
            if left_ok value i && right_ok value (i + length placeholder) then true
            else token_loop fuel value placeholder (S i)
        end
      else false
  end.

Definition containsToken (value placeholder : text) : bool :=
  token_loop (S (length value)) value placeholder O.

Record credentialReplacement := mkReplacement { placeholder : text; secret : text }.

Definition token_at (value ph : text) (offset : nat) : bool :=
  HasPrefix (drop offset value) ph && left_ok value offset && right_ok value (offset + length ph).

Fixpoint first_match (value : text) (offset : nat) (replacements : list credentialReplacement)
  : option credentialReplacement :=
  match replacements with
  | [] => None
  | r :: t => if token_at value (placeholder r) offset then Some r else first_match value offset t
  end.

Fixpoint subst_loop (fuel : nat) (value : text) (replacements : list credentialReplacement) (offset : nat)
    (out : text) : text :=
  match fuel, value !! offset with
  | S fuel, Some b =>
      match first_match value offset replacements with
      | Some r => subst_loop fuel value replacements (offset + length (placeholder r)) (out ++ secret r)
      | None => subst_loop fuel value replacements (S offset) (out ++ [b])
      end
  | _, _ => out
  end.

(** Every turn consumes a byte, as placeholders are not empty. *)
Definition substituteAll (value : text) (replacements : list credentialReplacement) : text :=
  subst_loop (length value) value replacements O [].

Definition carriesPlaceholder (value : text) (replacements : list credentialReplacement) : bool :=
  existsb (fun r => containsToken value (placeholder r)) replacements.

(** ** Leases *)

Definition SubstitutionHeader : text := T "header".
Definition SubstitutionQuery : text := T "query".
Definition SubstitutionBodyForm : text := T "body_form".
Definition SubstitutionBodyJSON : text := T "body_json".

Record BindingSubstitution := mkSubstitution { Location : text; Name : text; JSONPointer : text }.

Record BindingLease := mkLease {
  ID : text; Secret : text; Destinations : list text; ExpiresAt : Z; LeasePlaceholder : text;
  Methods : list text; PathPrefixes : list text; Substitution : option BindingSubstitution }.

Definition SubstitutionLocation (l : BindingLease) : text :=
  match Substitution l with
  | None => SubstitutionHeader
  | Some s => if Location s =t [] then SubstitutionHeader else Location s
  end.

Definition Placeholder (l : BindingLease) : text :=
  if LeasePlaceholder l =t [] then T "ref:" ++ ID l else LeasePlaceholder l.

Record Withdrawn := mkWithdrawn { WID : text; WPlaceholder : text }.

Definition Token (w : Withdrawn) : text :=
  if WPlaceholder w =t [] then T "ref:" ++ WID w else WPlaceholder w.

(** ** JSON documents *)

(** A decoded document; the members of an object have distinct names. *)
Inductive json :=
| JNull
| JBool (b : bool)
| JNumber (digits : text)
| JString (s : text)
| JArray (l : list json)
| JObject (l : list (text * json)).

Fixpoint member (k : text) (l : list (text * json)) : option json :=
  match l with [] => None | (k', v) :: t => if k' =t k then Some v else member k t end.

Fixpoint set_member (k : text) (v : json) (l : list (text * json)) : list (text * json) :=
  match l with
  | [] => []
  | (k', v') :: t => if k' =t k then (k', v) :: t else (k', v') :: set_member k v t
  end.

(** [strconv.Atoi] on what can be an index: optional sign and digits. *)
Definition digit (b : byte) : option Z :=
  if GoStd.in_range 0x30 0x39 (byte_val b) then Some (byte_val b - 0x30) else None.

Fixpoint digits (acc : Z) (s : text) : option Z :=
  match s with
  | [] => Some acc
  | b :: t => match digit b with Some d => digits (acc * 10 + d) t | None => None end
  end.

Definition decimal (s : text) : option Z := match s with [] => None | _ => digits 0 s end.

Definition Atoi (s : text) : option Z :=
  let v := match s with
           | b :: t => if byte_val b =? 0x2B then decimal t
                       else if byte_val b =? 0x2D then Z.opp <$> decimal t else decimal s
           | [] => None
           end in
  match v with Some z => if (minInt64 <=? z) && (z <=? maxInt64) then Some z else None | None => None end.

Inductive pointer_error := NotAbsolute | NoMember | NoElement | NotString | NotContainer | EmptyPointer.

Definition unescape (raw : text) : text := replace2 x7e x30 (T "~") (replace2 x7e x31 (T "/") raw).

Definition element (token : text) (l : list json) : option nat :=
  match Atoi token with
  | Some i => if (i <? 0) || (Z.of_nat (length l) <=? i) then None else Some (Z.to_nat i)
  | None => None
  end.

(** The string a pointer names.  [walk] is the loop over its tokens. *)
Fixpoint walk (doc : json) (tokens : list text) : result pointer_error text :=
  match tokens with
  | [] => Err EmptyPointer
  | raw :: rest =>
      let token := unescape raw in
      match doc with
      | JObject l =>
          match member token l with
          | None => Err NoMember
          | Some next =>
              match rest, next with [], JString s => Ok s | [], _ => Err NotString | _, _ => walk next rest end
          end
      | JArray l =>
          match element token l with
          | None => Err NoElement
          | Some i =>
              match l !! i with
              | None => Err NoElement
              | Some next =>
                  match rest, next with [], JString s => Ok s | [], _ => Err NotString | _, _ => walk next rest end
              end
          end
      | _ => Err NotContainer
      end
  end.

(** The setter the walk returns: the document with that string replaced. *)
Fixpoint put (doc : json) (tokens : list text) (v : text) : json :=
  match tokens with
  | [] => doc
  | raw :: rest =>
      let token := unescape raw in
      match doc with
      | JObject l =>
          match member token l with
          | None => doc
          | Some next => JObject (set_member token (match rest with [] => JString v | _ => put next rest v end) l)
          end
      | JArray l =>
          match element token l with
          | None => doc
          | Some i =>
              match l !! i with
              | None => doc
              | Some next => JArray (<[i := match rest with [] => JString v | _ => put next rest v end]> l)
              end
          end
      | _ => doc
      end
  end.

Definition pointer_tokens (pointer : text) : list text := split_at x2f (TrimPrefix pointer (T "/")).

Definition jsonPointerString (doc : json) (pointer : text) : result pointer_error (text * (text -> json)) :=
  if negb (HasPrefix pointer (T "/")) then Err NotAbsolute
  else let? s := walk doc (pointer_tokens pointer) in Ok (s, put doc (pointer_tokens pointer)).

(** ** Encodings *)

Abbreviation values := (gmap text (list text)).

Class Codecs := {
  (** [url.ParseQuery] and [url.Values.Encode] *)
  ParseQuery : text -> option values;
  EncodeValues : values -> text;
  (** the media type [mime.ParseMediaType] returns *)
  ParseMediaType : text -> option text;
  (** one JSON document, numbers kept as written, and its serialization
      without HTML escapes and without the final newline *)
  DecodeJSON : text -> option json;
  EncodeJSON : json -> option text;
  (** [base64.StdEncoding], decoding after [strings.TrimSpace] *)
  DecodeBase64 : text -> option text;
  EncodeBase64 : text -> text;
  (** [strings.ToLower], [strings.ToUpper] and [strings.EqualFold] outside ASCII *)
  unicode_lower : text -> text;
  unicode_upper : text -> text;
  unicode_fold : text -> text -> bool;
  (** whether [net.ParseIP] accepts a text *)
  ParseIP : text -> bool;
  (** the order of a range over a map *)
  range : gmap text (list credentialReplacement) -> list (text * list credentialReplacement) }.

Section codecs.
Context `{Codecs}.

Definition ascii (s : text) : bool := forallb (fun b => byte_val b <? 0x80) s.
Definition upper_byte (b : Z) : Z := if GoStd.in_range 0x61 0x7A b then b - 32 else b.
Definition ascii_lower (s : text) : text := map (fun b => byte_of (GoStd.lower_byte (byte_val b))) s.
Definition ascii_upper (s : text) : text := map (fun b => byte_of (upper_byte (byte_val b))) s.

Definition ToLower (s : text) : text := if ascii s then ascii_lower s else unicode_lower s.
Definition ToUpper (s : text) : text := if ascii s then ascii_upper s else unicode_upper s.
Definition EqualFold (a b : text) : bool :=
  if ascii a && ascii b then ascii_lower a =t ascii_lower b else unicode_fold a b.

(** Six bytes can only fold to the six letters if each of them is ASCII. *)
Definition decodeBasic (value : text) : option text :=
  if (length value <? 6)%nat || negb (ascii_lower (take 6 value) =t T "basic ") then None
  else DecodeBase64 (drop 6 value).

Definition credentialText (value : text) : text * bool :=
  match decodeBasic value with Some decoded => (decoded, true) | None => (value, false) end.

Definition isFormContentType (contentType : text) : bool :=
  match ParseMediaType contentType with
  | Some media => EqualFold media (T "application/x-www-form-urlencoded")
  | None => false
  end.

Definition isJSONContentType (contentType : text) : bool :=
  match ParseMediaType contentType with
  | None => false
  | Some media =>
      let media := ToLower media in
      (media =t T "application/json") || (media =t T "text/json") || HasSuffix media (T "+json")
  end.

(** ** The request *)

Record credentialParts := mkParts {
  Header : values; Query : text; Body : text; BodyPresent : bool; ContentType : text; Method : text; Path : text }.

Definition with_Header (h : values) (p : credentialParts) : credentialParts :=
  mkParts h (Query p) (Body p) (BodyPresent p) (ContentType p) (Method p) (Path p).
Definition with_Query (q : text) (p : credentialParts) : credentialParts :=
  mkParts (Header p) q (Body p) (BodyPresent p) (ContentType p) (Method p) (Path p).
Definition with_Body (b : text) (present : bool) (p : credentialParts) : credentialParts :=
  mkParts (Header p) (Query p) b present (ContentType p) (Method p) (Path p).

Definition query (p : credentialParts) : option values := if Query p =t [] then Some ∅ else ParseQuery (Query p).
Definition form (p : credentialParts) : option values := ParseQuery (Body p).
Definition jsonBody (p : credentialParts) : option json := DecodeJSON (Body p).

Definition foundInHeader : Z := 1.
Definition foundInQuery : Z := 2.
Definition foundInBody : Z := 4.

Definition some_value (f : text -> bool) (v : values) : bool :=
  existsb (fun kv => existsb f (snd kv)) (map_to_list v).

Definition in_header (p : credentialParts) (ph : text) : bool :=
  some_value (fun v => containsToken (fst (credentialText v)) ph) (Header p).

Definition in_query (p : credentialParts) (ph : text) : bool :=
  if Query p =t [] then false
  else if containsToken (Query p) ph then true
  else match query p with Some v => some_value (fun x => containsToken x ph) v | None => false end.

Definition in_body (p : credentialParts) (ph : text) : bool :=
  if negb (BodyPresent p) || (Body p =t []) then false
  else if containsToken (Body p) ph then true
  else if isFormContentType (ContentType p) then
    match form p with Some v => some_value (fun x => containsToken x ph) v | None => false end
  else false.

Definition locate (p : credentialParts) (ph : text) : Z :=
  let found := if in_header p ph then foundInHeader else 0 in
  let found := if in_query p ph then Z.lor found foundInQuery else found in
  if in_body p ph then Z.lor found foundInBody else found.

Definition locationBit (location : text) : Z :=
  if location =t SubstitutionQuery then foundInQuery
  else if (location =t SubstitutionBodyForm) || (location =t SubstitutionBodyJSON) then foundInBody
  else foundInHeader.

(** ** Refusals *)

Inductive detail :=
| MalformedQuery | QueryOccurs (name : text) (n : nat) | NotInQuery (name : text)
| NoBody | NotForm | MalformedForm | FormOccurs (name : text) (n : nat) | NotInForm (name : text)
| NotJSON | MalformedJSON | BadPointer (e : pointer_error) | NotAtPointer (pointer : text) | Unserializable.

Inductive credentialRejection :=
| Revoked (binding : text)
| LeakBlocked (binding host : text)
| Expired (binding : text)
| Plaintext (binding : text)
| OutOfScope (binding : text) (what : string)
| Misplaced (binding location : text)
| Refused (binding : text) (d : detail)
| Failed (d : detail).

(** ** Planning *)

Record substitutionPlan := mkPlan {
  plan_header : list credentialReplacement;
  plan_query : gmap text (list credentialReplacement);
  plan_form : gmap text (list credentialReplacement);
  plan_json : gmap text (list credentialReplacement) }.

Definition empty_plan : substitutionPlan := mkPlan [] ∅ ∅ ∅.

Definition plan_add (key : text) (r : credentialReplacement) (m : gmap text (list credentialReplacement))
  : gmap text (list credentialReplacement) := <[key := default [] (m !! key) ++ [r]]> m.

Definition plan_is_empty (s : substitutionPlan) : bool :=
  bool_decide (plan_header s = []) && bool_decide (plan_query s = ∅) && bool_decide (plan_form s = ∅)
  && bool_decide (plan_json s = ∅).

Definition sub_name (l : BindingLease) : text := match Substitution l with Some s => Name s | None => [] end.
Definition sub_pointer (l : BindingLease) : text := match Substitution l with Some s => JSONPointer s | None => [] end.

Definition planSubstitution (p : credentialParts) (lease : BindingLease) (location : text) (plan : substitutionPlan)
  : result credentialRejection substitutionPlan :=
  let ph := Placeholder lease in
  let r := mkReplacement ph (Secret lease) in
  let deny d := Err (Refused (ID lease) d) in
  if location =t SubstitutionQuery then
    match query p with
    | None => deny MalformedQuery
    | Some v =>
        match default [] (v !! sub_name lease) with
        | [x] => if negb (containsToken x ph) then deny (NotInQuery (sub_name lease))
                 else Ok (mkPlan (plan_header plan) (plan_add (sub_name lease) r (plan_query plan)) (plan_form plan)
                            (plan_json plan))
        | l => deny (QueryOccurs (sub_name lease) (length l))
        end
    end
  else if location =t SubstitutionBodyForm then
    if negb (BodyPresent p) then deny NoBody
    else if negb (isFormContentType (ContentType p)) then deny NotForm
    else match form p with
    | None => deny MalformedForm
    | Some v =>
        match default [] (v !! sub_name lease) with
        | [x] => if negb (containsToken x ph) then deny (NotInForm (sub_name lease))
                 else Ok (mkPlan (plan_header plan) (plan_query plan) (plan_add (sub_name lease) r (plan_form plan))
                            (plan_json plan))
        | l => deny (FormOccurs (sub_name lease) (length l))
        end
    end
  else if location =t SubstitutionBodyJSON then
    if negb (BodyPresent p) then deny NoBody
    else if negb (isJSONContentType (ContentType p)) then deny NotJSON
    else match jsonBody p with
    | None => deny MalformedJSON
    | Some doc =>
        match jsonPointerString doc (sub_pointer lease) with
        | Err e => deny (BadPointer e)
        | Ok (current, _) =>
            if negb (containsToken current ph) then deny (NotAtPointer (sub_pointer lease))
            else Ok (mkPlan (plan_header plan) (plan_query plan) (plan_form plan)
                       (plan_add (sub_pointer lease) r (plan_json plan)))
        end
    end
  else Ok (mkPlan (plan_header plan ++ [r]) (plan_query plan) (plan_form plan) (plan_json plan)).

(** ** Applying *)

Definition rewrite_value (replacements : list credentialReplacement) (value : text) : text :=
  let '(plain, basic) := credentialText value in
  if negb (carriesPlaceholder plain replacements) then value
  else
    let rewritten := substituteAll plain replacements in
    if basic then T "Basic " ++ EncodeBase64 rewritten else rewritten.

(** [values[name] = []string{substituteAll(values[name][0], replacements)}];
    the index panics when the name has no value. *)
Definition rewrite_param (v : values) (kv : text * list credentialReplacement) : values :=
  match v !! kv.1 with
  | Some (x :: _) => <[kv.1 := [substituteAll x kv.2]]> v
  | _ => v
  end.

Fixpoint rewrite_json (doc : json) (l : list (text * list credentialReplacement)) : result pointer_error json :=
  match l with
  | [] => Ok doc
  | (pointer, replacements) :: t =>
      match jsonPointerString doc pointer with
      | Err e => Err e
      | Ok (current, set) => rewrite_json (set (substituteAll current replacements)) t
      end
  end.

(** The header is rewritten first, in place: a failure further on leaves it
    rewritten. *)
Definition apply_header (plan : substitutionPlan) (p : credentialParts) : credentialParts :=
  match plan_header plan with
  | [] => p
  | rs => with_Header (fmap (map (rewrite_value rs)) (Header p)) p
  end.

Definition apply_query (plan : substitutionPlan) (p : credentialParts) : option credentialRejection * credentialParts :=
  if bool_decide (plan_query plan = ∅) then (None, p)
  else match query p with
       | None => (Some (Failed MalformedQuery), p)
       | Some v => (None, with_Query (EncodeValues (foldl rewrite_param v (range (plan_query plan)))) p)
       end.

Definition apply_form (plan : substitutionPlan) (p : credentialParts) : option credentialRejection * credentialParts :=
  if bool_decide (plan_form plan = ∅) then (None, p)
  else match form p with
       | None => (Some (Failed MalformedForm), p)
       | Some v => (None, with_Body (EncodeValues (foldl rewrite_param v (range (plan_form plan)))) (BodyPresent p) p)
       end.

(** The document is the one parsed before any body was rewritten. *)
Definition apply_json (doc : option json) (plan : substitutionPlan) (p : credentialParts)
  : option credentialRejection * credentialParts :=
  if bool_decide (plan_json plan = ∅) then (None, p)
  else match doc with
       | None => (Some (Failed MalformedJSON), p)
       | Some doc =>
           match rewrite_json doc (range (plan_json plan)) with
           | Err e => (Some (Failed (BadPointer e)), p)
           | Ok doc' =>
               match EncodeJSON doc' with
               | None => (Some (Failed Unserializable), p)
               | Some b => (None, with_Body b (BodyPresent p) p)
               end
           end
       end.

Definition apply_plan (plan : substitutionPlan) (p : credentialParts) : option credentialRejection * credentialParts :=
  let doc := jsonBody p in
  let p := apply_header plan p in
  match apply_query plan p with
  | (Some e, p) => (Some e, p)
  | (None, p) =>
      match apply_form plan p with
      | (Some e, p) => (Some e, p)
      | (None, p) => apply_json doc plan p
      end
  end.

(** ** Authorities *)

Definition colon : byte := x3a.

Fixpoint last_index (b : byte) (s : text) : option nat :=
  match s with
  | [] => None
  | c :: t => match last_index b t with
              | Some i => Some (S i)
              | None => if bool_decide (c = b) then Some O else None
              end
  end.

Definition has_byte (b : byte) (s : text) : bool := existsb (fun c => bool_decide (c = b)) s.

(** [net.SplitHostPort] *)
Definition SplitHostPort (hostport : text) : option (text * text) :=
  match last_index colon hostport with
  | None => None
  | Some i =>
      let port := drop (S i) hostport in
      match hostport with
      | c :: _ =>
          if bool_decide (c = x5b) then
            match Index hostport [x5d] with
            | None => None
            | Some end_ =>
                if negb (Nat.eqb (S end_) i) then None
                else if has_byte x5b (drop 1 hostport) || has_byte x5d (drop (S end_) hostport) then None
                else Some (take (end_ - 1) (drop 1 hostport), port)
            end
          else
            let host := take i hostport in
            if has_byte colon host || has_byte x5b hostport || has_byte x5d hostport then None
            else Some (host, port)
      | [] => None
      end
  end.

Definition split_port (s : text) : text * text :=
  match SplitHostPort s with Some hp => hp | None => (s, []) end.

Definition pattern_matches (host hport pattern : text) : bool :=
  let '(p, pport) := split_port (ToLower pattern) in
  if negb (pport =t []) && negb (pport =t hport) then false
  else if p =t T "*" then true
  else if HasPrefix p (T "*.") then HasSuffix host (drop 1 p) && negb (host =t drop 2 p)
  else host =t p.

Definition HostMatchesAny (host : text) (patterns : list text) : bool :=
  let '(host, hport) := split_port (ToLower host) in
  existsb (pattern_matches host hport) patterns.

Definition hostMatches (host : text) (patterns : list text) : bool := HostMatchesAny host patterns.

(** ** Authorization of a lease *)

Definition prefix_matches (requestPath prefix : text) : bool :=
  (prefix =t T "/") || (requestPath =t prefix)
  || (HasSuffix prefix (T "/") && HasPrefix requestPath prefix)
  || HasPrefix requestPath (prefix ++ T "/").

Definition pathPrefixMatches (requestPath : text) (prefixes : list text) : bool :=
  match prefixes with [] => true | _ => existsb (prefix_matches requestPath) prefixes end.

Definition EgressProtocolHTTP : text := T "http".
Definition EgressProtocolHTTPS : text := T "https".
Definition EgressProtocolConnect : text := T "connect".

Definition checkLease (now : Z) (lease : BindingLease) (scheme host : text) : option credentialRejection :=
  if negb (hostMatches host (Destinations lease)) then Some (LeakBlocked (ID lease) host)
  else if negb (ExpiresAt lease =? 0) && (ExpiresAt lease <? now) then Some (Expired (ID lease))
  else if negb (scheme =t EgressProtocolHTTPS) then Some (Plaintext (ID lease))
  else None.

Definition checkLeaseScope (lease : BindingLease) (method path : text) : option credentialRejection :=
  if bool_decide (Methods lease <> []) && ((method =t []) || negb (bool_decide (ToUpper method ∈ Methods lease)))
  then Some (OutOfScope (ID lease) "this method")
  else if bool_decide (PathPrefixes lease <> []) && ((path =t []) || negb (pathPrefixMatches path (PathPrefixes lease)))
  then Some (OutOfScope (ID lease) "this path")
  else None.

(** ** The pass *)

(** The state of a broker this file changes or reads. *)
Record broker := mkBroker { leases : list BindingLease; withdrawn : list Withdrawn; ruleRequests : gmap text Z }.

Definition SetLeases (l : list BindingLease) (b : broker) : broker := mkBroker l (withdrawn b) (ruleRequests b).
Definition SetWithdrawn (w : list Withdrawn) (b : broker) : broker := mkBroker (leases b) w (ruleRequests b).

Fixpoint find_withdrawn (p : credentialParts) (l : list Withdrawn) : option Withdrawn :=
  match l with
  | [] => None
  | w :: t => if negb (locate p (Token w) =? 0) then Some w else find_withdrawn p t
  end.

Definition longer (a b : BindingLease) : bool := (length (Placeholder b) <? length (Placeholder a))%nat.

(** The loop over the sorted leases; [now id] is the clock as it is read for
    the lease [id]. *)
Fixpoint lease_loop (now : text -> Z) (p : credentialParts) (scheme host : text) (substitute : bool) (l : list BindingLease)
    (used : gset text) (plan : substitutionPlan) : result credentialRejection (gset text * substitutionPlan) :=
  match l with
  | [] => Ok (used, plan)
  | lease :: t =>
      let found := locate p (Placeholder lease) in
      if found =? 0 then lease_loop now p scheme host substitute t used plan
      else match checkLease (now (ID lease)) lease scheme host with
      | Some e => Err e
      | None =>
          match checkLeaseScope lease (Method p) (Path p) with
          | Some e => Err e
          | None =>
              let location := SubstitutionLocation lease in
              let bit := locationBit location in
              if negb (location =t SubstitutionHeader) && negb (found =? bit)
              then Err (Misplaced (ID lease) location)
              else if Z.land found bit =? 0 then lease_loop now p scheme host substitute t used plan
              else
                let used := {[ID lease]} ∪ used in
                if negb substitute then lease_loop now p scheme host substitute t used plan
                else match planSubstitution p lease location plan with
                     | Err e => Err e
                     | Ok plan => lease_loop now p scheme host substitute t used plan
                     end
          end
      end
  end.

(** The bindings used or the refusal, and the request. *)
Definition processCredentials (now : text -> Z) (b : broker) (p : credentialParts) (scheme host : text) (substitute : bool)
  : result credentialRejection (gset text) * credentialParts :=
  match find_withdrawn p (withdrawn b) with
  | Some gone => (Err (Revoked (WID gone)), p)
  | None =>
      match lease_loop now p scheme host substitute (sort_by longer (leases b)) ∅ empty_plan with
      | Err e => (Err e, p)
      | Ok (used, plan) =>
          if substitute && negb (plan_is_empty plan) then
            match apply_plan plan p with
            | (Some e, p') => (Err e, p')
            | (None, p') => (Ok used, p')
            end
          else (Ok used, p)
      end
  end.

Definition bodySubstitutionDeclared (b : broker) : bool :=
  existsb (fun l => (SubstitutionLocation l =t SubstitutionBodyForm) || (SubstitutionLocation l =t SubstitutionBodyJSON))
    (leases b).

(** ** The egress policy *)

Definition EgressModeAllow : text := T "allow".
Definition EgressModeDeny : text := T "deny".
Definition EgressModeApprove : text := T "approve".
Definition NetworkDefaultAllow : text := T "allow".
Definition SharedStateImmutableRead : text := T "immutable_read".

Record EgressRule := mkRule {
  RuleID : text; Mode : text; Connector : text; Protocol : text; Hosts : list text; Ports : list Z;
  RuleMethods : list text; RulePrefixes : list text; MaxRequests : Z; MaxRequestBytes : Z; SharedState : text }.

Record NetworkPolicy := mkPolicy { Default : text; Rules : list EgressRule }.

Definition no_rule : EgressRule := mkRule [] [] [] [] [] [] [] [] 0 0 [].

Record policyAuthorization := mkAuthorization {
  enabled : bool; allowed : bool; rule : EgressRule; reason : string; approval : bool }.

(** [strconv.ParseUint(s, 10, 16)] *)
Definition ParseUint16 (s : text) : option Z :=
  match decimal s with Some v => if v <? 65536 then Some v else None | None => None end.

Definition destinationPort (host protocol : text) : option Z :=
  match SplitHostPort host with
  | Some (_, rawPort) =>
      match ParseUint16 rawPort with Some port => if port =? 0 then None else Some port | None => None end
  | None =>
      if protocol =t EgressProtocolHTTP then Some 80
      else if (protocol =t EgressProtocolHTTPS) || (protocol =t EgressProtocolConnect) then Some 443
      else None
  end.

Definition containsPort (ports : list Z) (port : Z) : bool :=
  match ports with [] => true | _ => existsb (Z.eqb port) ports end.

Definition containsStringFold (l : list text) (value : text) : bool :=
  match l with [] => true | _ => existsb (fun c => EqualFold c value) l end.

(** [path.Clean] of a rooted path: empty and dot elements go, and a dot-dot
    element removes the one before it. *)
Fixpoint clean_elements (stack : list text) (l : list text) : list text :=
  match l with
  | [] => reverse stack
  | e :: t =>
      if (e =t []) || (e =t T ".") then clean_elements stack t
      else if e =t T ".." then clean_elements (tail stack) t
      else clean_elements (e :: stack) t
  end.

Definition clean_rooted (path : text) : text :=
  match clean_elements [] (split_at x2f path) with
  | [] => T "/"
  | l => concat (map (cons x2f) l)
  end.

Definition clean_path (requestPath : text) : text := clean_rooted (T "/" ++ TrimPrefix requestPath (T "/")).

Definition rule_matches (connector protocol host method path : text) (port : option Z) (r : EgressRule) : bool :=
  (Connector r =t connector) && (Protocol r =t protocol) && hostMatches host (Hosts r)
  && match port with Some n => containsPort (Ports r) n | None => false end
  && containsStringFold (RuleMethods r) method && pathPrefixMatches path (RulePrefixes r).

Definition mode_of (r : EgressRule) : text := if Mode r =t [] then EgressModeAllow else Mode r.

(** The counter of a rule, checked and advanced under the lock. *)
Definition consumeApprovedRule (r : EgressRule) (b : broker) : bool * broker :=
  let used := default 0 (ruleRequests b !! RuleID r) in
  if (0 <? MaxRequests r) && (MaxRequests r <=? used) then (false, b)
  else (true, mkBroker (leases b) (withdrawn b) (<[RuleID r := i64 (used + 1)]> (ruleRequests b))).

Definition refuse (r : EgressRule) (why : string) : policyAuthorization := mkAuthorization true false r why false.

Fixpoint match_rules (connector protocol host method path : text) (port : option Z) (l : list EgressRule) (b : broker)
  : option policyAuthorization * broker :=
  match l with
  | [] => (None, b)
  | r :: t =>
      if negb (rule_matches connector protocol host method path port r)
      then match_rules connector protocol host method path port t b
      else if mode_of r =t EgressModeDeny then (Some (refuse r "egress rule denies request"), b)
      else if (SharedState r =t SharedStateImmutableRead) && negb (method =t T "GET") && negb (method =t T "HEAD")
      then (Some (refuse r "immutable-read capability forbids mutating method"), b)
      else if mode_of r =t EgressModeApprove then (Some (mkAuthorization true true r "" true), b)
      else match consumeApprovedRule r b with
           | (false, b) => (Some (refuse r "request limit exhausted"), b)
           | (true, b) => (Some (mkAuthorization true true r "" false), b)
           end
  end.

Definition authorizePolicy (policy : NetworkPolicy) (connector protocol host method requestPath : text) (b : broker)
  : policyAuthorization * broker :=
  if (connector =t []) && (Default policy =t []) && bool_decide (length (Rules policy) = O)
  then (mkAuthorization false false no_rule "" false, b)
  else
    let method := ToUpper method in
    let path := clean_path requestPath in
    let port := destinationPort host protocol in
    match match_rules connector protocol host method path port (Rules policy) b with
    | (Some a, b) => (a, b)
    | (None, b) =>
        if negb (connector =t []) then (refuse no_rule "no typed connector rule matched", b)
        else if Default policy =t NetworkDefaultAllow then (mkAuthorization true true no_rule "" false, b)
        else (refuse no_rule "no typed egress rule matched", b)
    end.

(** ** Destinations *)

Definition bad_authority_byte (b : byte) : bool :=
  bool_decide (b ∈ [x2f; x3f; x23; x40; x5c; x00; x09; x0d; x0a; x20]) || (0x7F <? byte_val b).

(** Vertical tab and form feed are the white space [strings.TrimSpace] removes
    besides the bytes refused anywhere. *)
Definition space_byte (b : option byte) : bool := bool_decide (b ∈ [Some x0b; Some x0c]).

Definition label_byte (b : byte) : bool :=
  let v := byte_val b in
  GoStd.in_range 0x61 0x7A v || GoStd.in_range 0x30 0x39 v || (v =? 0x2D) || (v =? 0x5F).

Definition valid_label (l : text) : bool :=
  negb (l =t []) && (length l <=? 63)%nat && negb (HasPrefix l (T "-")) && negb (HasSuffix l (T "-"))
  && forallb label_byte l.

Definition validDestinationHost (host : text) : bool :=
  if (host =t []) || Contains host (T "%") then false
  else if ParseIP host then true
  else if (253 <? length host)%nat || HasPrefix host (T ".") || HasSuffix host (T ".") then false
  else forallb valid_label (split_at x2e host).

Definition TrimSuffix (s p : text) : text := if HasSuffix s p then take (length s - length p) s else s.

Definition JoinHostPort (host port : text) : text :=
  if has_byte colon host then T "[" ++ host ++ T "]:" ++ port else host ++ T ":" ++ port.

(** [strconv.Itoa] of a port number: at most five digits. *)
Fixpoint decimal_digits (fuel : nat) (v : Z) : text :=
  match fuel with
  | O => []
  | S fuel => (if v <? 10 then [] else decimal_digits fuel (v / 10)) ++ [byte_of (0x30 + v mod 10)]
  end.
Definition Itoa (v : Z) : text := decimal_digits 5 v.

Definition normalizeAuthority (raw protocol : text) : option text :=
  if (raw =t []) || space_byte (head raw) || space_byte (last raw) || existsb bad_authority_byte raw then None
  else
    let split :=
      match SplitHostPort raw with
      | Some hp => Some hp
      | None =>
          if HasPrefix raw (T "[") then
            if negb (HasSuffix raw (T "]")) then None else Some (TrimSuffix (TrimPrefix raw (T "[")) (T "]"), [])
          else if Nat.eqb (length (filter (fun b => b = colon) raw)) 1 then None
          else Some (raw, [])
      end in
    match split with
    | None => None
    | Some (host, rawPort) =>
        if HasSuffix raw (T ":") && (rawPort =t []) then None
        else
          let host := ToLower (TrimSuffix host (T ".")) in
          if negb (validDestinationHost host) then None
          else
            match (if rawPort =t [] then destinationPort host protocol else ParseUint16 rawPort) with
            | None => None
            | Some port => if port =? 0 then None else Some (JoinHostPort host (Itoa port))
            end
    end.

(** ** The handler *)

Definition maxApprovalRequestBytes : Z := 16 * 2 ^ 20.
Definition defaultMaxSubstitutionBodyBytes : Z := 2 ^ 20.

Record Options := mkOptions {
  Network : NetworkPolicy; Allow : list text; MaxSubstitutionBodyBytes : Z; BudgetReserve : bool }.

Definition substitutionBodyBound (o : Options) (r : EgressRule) : Z :=
  if 0 <? MaxRequestBytes r then MaxRequestBytes r
  else if 0 <? MaxSubstitutionBodyBytes o then MaxSubstitutionBodyBytes o
  else defaultMaxSubstitutionBodyBytes.

(** What the handler meets: the clock at each pass, read once for each lease; what other goroutines do to
    the broker before its n-th use of it; the body that [bufferRequest] reads
    within a limit; the answers of the approval and the budget authority. *)
Record environment := mkEnvironment {
  clock : nat -> text -> Z; meanwhile : nat -> broker -> broker; read_body : Z -> option text; approve : bool; budget_ok : bool }.

Inductive outcome :=
| Denied (why : string)
| Rejected (e : credentialRejection)
| Forwarded (authority : text) (used : gset text) (p : credentialParts).

Definition body_limit (o : Options) (a : policyAuthorization) (substituteBody : bool) : Z :=
  let m := MaxRequestBytes (rule a) in
  let l := maxApprovalRequestBytes in
  let l := if negb (approval a) && negb (BudgetReserve o) && (l <? m) then m else l in
  let l := if (0 <? m) && (m <? l) then m else l in
  if substituteBody && (substitutionBodyBound o (rule a) <? l) then substitutionBodyBound o (rule a) else l.

(** Approval and hard budget. *)
Definition govern (e : environment) (a : policyAuthorization) (b : broker) : option string * broker :=
  if approval a && negb (approve e) then (Some "approval"%string, b)
  else
    let '(ok, b) := if approval a then consumeApprovedRule (rule a) b else (true, b) in
    if negb ok then (Some "request limit exhausted"%string, b)
    else if negb (budget_ok e) then (Some "budget"%string, b) else (None, b).

(** The last pass and what follows it. *)
Definition release_credentials (e : environment) (scheme authority : text) (p : credentialParts) (b : broker)
  : outcome * broker :=
  match processCredentials (clock e 3%nat) b p scheme authority true with
  | (Err r, _) => (Rejected r, b)
  | (Ok used, p) => (Forwarded authority used p, b)
  end.

Definition proxy (o : Options) (e : environment) (scheme host : text) (p : credentialParts) (b : broker)
  : outcome * broker :=
  let scheme := ToLower scheme in
  if negb ((scheme =t EgressProtocolHTTP) || (scheme =t EgressProtocolHTTPS))
  then (Denied "invalid destination scheme", b)
  else match normalizeAuthority host scheme with
  | None => (Denied "authority", b)
  | Some authority =>
      match processCredentials (clock e 0%nat) b p scheme authority false with
      | (Err r, _) => (Rejected r, b)
      | (Ok used, p) =>
          let b := meanwhile e 0%nat b in
          let '(a, b) := authorizePolicy (Network o) [] scheme authority (Method p) (Path p) b in
          if enabled a && negb (allowed a) then (Denied (reason a), b)
          else
            let b := meanwhile e 1%nat b in
            let substituteBody := bodySubstitutionDeclared b in
            let bufferBody := approval a || BudgetReserve o || (0 <? MaxRequestBytes (rule a)) || substituteBody in
            let inspected :=
              if negb bufferBody then Ok (used, p)
              else match read_body e (body_limit o a substituteBody) with
                   | None => Err (Denied "request body")
                   | Some body =>
                       let p := with_Body body true p in
                       match processCredentials (clock e 1%nat) (meanwhile e 2%nat b) p scheme authority false with
                       | (Err r, _) => Err (Rejected r)
                       | (Ok used, p) => Ok (used, p)
                       end
                   end in
            match inspected with
            | Err d => (d, b)
            | Ok (used, p) =>
                let b := meanwhile e 2%nat b in
                if negb (if enabled a then allowed a
                         else bool_decide (used <> ∅) || hostMatches authority (Allow o))
                then (Denied "destination not in bindings or allow list", b)
                else match govern e a (meanwhile e 3%nat b) with
                     | (Some why, b) => (Denied why, b)
                     | (None, b) => release_credentials e scheme authority p (meanwhile e 4%nat b)
                     end
            end
      end
  end.

End codecs.
End Broker.
