(* ===== verification/BrokerProofs.v ===== *)
(** * What the broker guarantees

    The loops over bytes are related to reference definitions, a pass is shown
    to keep every secret it may not spend out of the request and to leave a
    refused request as it was, and the handler and the rule counters are
    composed from these. *)

From Stdlib Require Import ZArith Lia Strings.String Strings.Byte.
From stdpp Require Import base gmap strings option list.
From S2P Require Import Prelude GoStd Broker.
#[local] Open Scope Z_scope.

Module BrokerProofs.
Import Broker.

(** ** Tokens *)

Lemma HasPrefix_spec s p : HasPrefix s p = true <-> exists t, s = p ++ t.
Proof.
  unfold HasPrefix. rewrite bool_decide_eq_true. split.
  - intros E. exists (drop (length p) s). rewrite <- E at 1. symmetry. apply take_drop.
  - intros [t ->]. apply take_app_length.
Qed.

Lemma HasPrefix_length s p : HasPrefix s p = true -> (length p <= length s)%nat.
Proof. intros [t ->]%HasPrefix_spec. rewrite length_app. lia. Qed.

Lemma Index_spec s p :
  match Index s p with
  | Some k => HasPrefix (drop k s) p = true /\ forall j, (j < k)%nat -> HasPrefix (drop j s) p = false
  | None => forall j, (j <= length s)%nat -> HasPrefix (drop j s) p = false
  end.
Proof.
  induction s as [|b s IH]; cbn [Index].
  - destruct (HasPrefix [] p) eqn:E; [by split; [|lia]|]. intros [|j] Hj; [done|cbn in Hj; lia].
  - destruct (HasPrefix (b :: s) p) eqn:E; [by split; [|lia]|].
    destruct (Index s p) as [k|]; cbn.
    + destruct IH as [H1 H2]. split; [done|]. intros [|j] Hj; [done|]. apply H2. lia.
    + intros [|j] Hj; [done|]. apply IH. lia.
Qed.

Lemma token_at_length value ph i : ph <> [] -> token_at value ph i = true -> (i + length ph <= length value)%nat.
Proof.
  unfold token_at. intros Hne Ht. bool_hyp. apply HasPrefix_length in H. rewrite length_drop in H.
  destruct ph; [done|]. cbn in *. lia.
Qed.

Lemma token_loop_spec ph value : ph <> [] -> forall fuel offset, (length value - offset < fuel)%nat ->
  token_loop fuel value ph offset = true <-> exists i, (offset <= i)%nat /\ token_at value ph i = true.
Proof.
  intros Hne. induction fuel as [|fuel IH]; intros offset Hf; [lia|]. cbn [token_loop].
  destruct (offset + length ph <=? length value)%nat eqn:El.
  2: { apply Nat.leb_gt in El. split; [done|]. intros (i & Hi & Ht). apply token_at_length in Ht; [lia|done]. }
  apply Nat.leb_le in El. pose proof (Index_spec (drop offset value) ph) as HI.
  destruct (Index (drop offset value) ph) as [k|].
  - destruct HI as [Hk Hmin]. rewrite drop_drop, Nat.add_comm in Hk.
    assert (forall i, (offset <= i)%nat -> token_at value ph i = true -> (k + offset <= i)%nat) as Hlow.
    { intros i Hi Ht. destruct (decide (k + offset <= i)%nat) as [|Hn]; [done|]. exfalso.
      specialize (Hmin (i - offset)%nat ltac:(lia)). rewrite drop_drop in Hmin.
      replace (offset + (i - offset))%nat with i in Hmin by lia. unfold token_at in Ht. by rewrite Hmin in Ht. }
    destruct (left_ok value (k + offset) && right_ok value (k + offset + length ph)) eqn:E.
    + split; [intros _|done]. exists (k + offset)%nat. split; [lia|]. unfold token_at. rewrite Hk. cbn.
      by apply andb_true_iff in E as [-> ->].
    + assert (k + offset < length value)%nat.
      { apply HasPrefix_length in Hk. rewrite length_drop in Hk. destruct ph; [done|]. cbn in Hk. lia. }
      rewrite IH by lia. split.
      * intros (i & Hi & Ht). exists i. split; [lia|done].
      * intros (i & Hi & Ht). exists i. split; [|done]. pose proof (Hlow i Hi Ht).
        destruct (decide (i = k + offset)%nat) as [->|]; [|lia]. exfalso. unfold token_at in Ht.
        rewrite Hk in Ht. cbn in Ht. congruence.
  - split; [done|]. intros (i & Hi & Ht). exfalso. pose proof (token_at_length _ _ _ Hne Ht).
    specialize (HI (i - offset)%nat). rewrite length_drop, drop_drop in HI.
    replace (offset + (i - offset))%nat with i in HI by lia. unfold token_at in Ht.
    rewrite HI in Ht by lia. done.
Qed.

Lemma containsToken_spec value ph : ph <> [] ->
  containsToken value ph = true <-> exists i, token_at value ph i = true.
Proof.
  intros Hne. unfold containsToken. rewrite token_loop_spec by (done || lia).
  split; [intros (i & _ & ?); by exists i|intros (i & ?)]. exists i. split; [lia|done].
Qed.

Lemma Placeholder_nonempty l : Placeholder l <> [].
Proof. unfold Placeholder. case_bool_decide as E; [done|exact E]. Qed.

(** ** Substitution as one pass

    A reference for [substituteAll]: the text cut into bytes and whole
    placeholders, found without looking at any secret. *)

Fixpoint first_index (value : text) (offset : nat) (phs : list text) : option nat :=
  match phs with
  | [] => None
  | ph :: t => if token_at value ph offset then Some O else S <$> first_index value offset t
  end.

Fixpoint segments (fuel : nat) (value : text) (phs : list text) (offset : nat) : list (byte + nat) :=
  match fuel, value !! offset with
  | S fuel, Some b =>
      match first_index value offset phs with
      | Some i => inr i :: segments fuel value phs (offset + length (default [] (phs !! i)))
      | None => inl b :: segments fuel value phs (S offset)
      end
  | _, _ => []
  end.

(** Each placeholder replaced by the text of its number. *)
Definition render (ss : list text) (l : list (byte + nat)) : text :=
  concat (map (fun x => match x with inl b => [b] | inr i => default [] (ss !! i) end) l).

Lemma first_match_index value offset reps :
  match first_match value offset reps with
  | Some r => exists i, first_index value offset (map placeholder reps) = Some i /\ reps !! i = Some r
  | None => first_index value offset (map placeholder reps) = None
  end.
Proof.
  induction reps as [|r reps IH]; cbn; [done|]. destruct (token_at value (placeholder r) offset); [by exists O|].
  destruct (first_match value offset reps); [|by rewrite IH].
  destruct IH as (i & -> & Hi). by exists (S i).
Qed.

Lemma subst_loop_render value reps : forall fuel offset out,
  subst_loop fuel value reps offset out
  = out ++ render (map secret reps) (segments fuel value (map placeholder reps) offset).
Proof.
  induction fuel as [|fuel IH]; intros offset out; cbn [subst_loop segments].
  { by rewrite app_nil_r. }
  destruct (value !! offset) as [b|]; [|by rewrite app_nil_r].
  pose proof (first_match_index value offset reps) as Hm. destruct (first_match value offset reps) as [r|].
  - destruct Hm as (i & -> & Hi). rewrite IH, <- app_assoc. unfold render. cbn.
    rewrite !list_lookup_fmap, Hi. done.
  - by rewrite Hm, IH, <- app_assoc.
Qed.

Lemma first_index_token value offset phs i : first_index value offset phs = Some i ->
  exists ph, phs !! i = Some ph /\ token_at value ph offset = true.
Proof.
  revert i. induction phs as [|ph phs IH]; intros i; cbn; [done|].
  destruct (token_at value ph offset) eqn:E; [intros [= <-]; by exists ph|].
  destruct (first_index value offset phs) as [j|]; [|done]. intros [= <-]. by apply IH.
Qed.

Lemma first_index_none value offset phs ph : first_index value offset phs = None -> ph ∈ phs ->
  token_at value ph offset = false.
Proof.
  induction phs as [|q phs IH]; cbn; [by intros _ ?%elem_of_nil|]. destruct (token_at value q offset) eqn:E; [done|].
  destruct (first_index value offset phs) eqn:E'; [done|]. intros _ [->|Hin]%elem_of_cons; [done|by apply IH].
Qed.

Section nonempty.
Context (phs : list text) (Hne : forall ph, ph ∈ phs -> ph <> []).

Lemma segments_render value : forall fuel offset, (length value - offset <= fuel)%nat ->
  render phs (segments fuel value phs offset) = drop offset value.
Proof.
  induction fuel as [|fuel IH]; intros offset Hf; cbn [segments].
  { by rewrite drop_ge by lia. }
  destruct (value !! offset) as [b|] eqn:Eb.
  2: { apply lookup_ge_None in Eb. by rewrite drop_ge by lia. }
  destruct (first_index value offset phs) as [i|] eqn:Ei.
  - destruct (first_index_token _ _ _ _ Ei) as (ph & Hph & Ht). unfold render. cbn. rewrite Hph. cbn.
    pose proof (Hne ph ltac:(by eapply list_elem_of_lookup_2)) as Hn.
    assert (1 <= length ph)%nat by (destruct ph; [done|cbn; lia]). fold (render phs).
    change (ph ++ render phs (segments fuel value phs (offset + length ph)) = drop offset value).
    rewrite IH by lia. unfold token_at in Ht. bool_hyp. apply HasPrefix_spec in H0 as [t Et].
    rewrite Et, <- drop_drop, Et. by rewrite drop_app_length.
  - unfold render. cbn. change (b :: render phs (segments fuel value phs (S offset)) = drop offset value).
    rewrite IH by lia. symmetry. by apply drop_S.
Qed.

Lemma segments_plain value : forall fuel offset, (length value - offset <= fuel)%nat ->
  (exists i, inr i ∈ segments fuel value phs offset) <->
  exists k ph, (offset <= k)%nat /\ ph ∈ phs /\ token_at value ph k = true.
Proof.
  induction fuel as [|fuel IH]; intros offset Hf; cbn [segments].
  { split; [by intros (i & ?%elem_of_nil)|]. intros (k & ph & Hk & Hin & Ht). exfalso.
    pose proof (token_at_length _ _ _ (Hne ph Hin) Ht). pose proof (Hne ph Hin). destruct ph; [done|]. cbn in *. lia. }
  destruct (value !! offset) as [b|] eqn:Eb.
  2: { apply lookup_ge_None in Eb. split; [by intros (i & ?%elem_of_nil)|]. intros (k & ph & Hk & Hin & Ht). exfalso.
       pose proof (token_at_length _ _ _ (Hne ph Hin) Ht). pose proof (Hne ph Hin). destruct ph; [done|]. cbn in *. lia. }
  destruct (first_index value offset phs) as [i|] eqn:Ei.
  - split; intros _; [|exists i; left]. destruct (first_index_token _ _ _ _ Ei) as (ph & Hph & Ht).
    exists offset, ph. split_and!; [lia|by eapply list_elem_of_lookup_2|done].
  - transitivity (exists i, inr i ∈ segments fuel value phs (S offset)).
    { split; intros (i & Hi); exists i; [|by right]. by apply elem_of_cons in Hi as [|]. }
    rewrite IH by lia. split; intros (k & ph & Hk & Hin & Ht); exists k, ph; split_and!; try done; [lia|].
    destruct (decide (k = offset)) as [->|]; [|lia]. by rewrite (first_index_none _ _ _ _ Ei Hin) in Ht.
Qed.
End nonempty.

Lemma carries_spec value reps : Forall (fun r => placeholder r <> []) reps ->
  carriesPlaceholder value reps = true <-> exists k ph, ph ∈ map placeholder reps /\ token_at value ph k = true.
Proof.
  intros Hne. unfold carriesPlaceholder. rewrite existsb_exists. split.
  - intros (r & Hin & Ht). apply list_elem_of_In in Hin. rewrite Forall_forall in Hne.
    apply containsToken_spec in Ht as [k Ht]; [|by apply Hne].
    exists k, (placeholder r). split; [by apply list_elem_of_fmap_2|done].
  - intros (k & ph & Hin & Ht). apply list_elem_of_fmap in Hin as (r & -> & Hr). exists r.
    split; [by apply list_elem_of_In|]. rewrite Forall_forall in Hne. apply containsToken_spec; [by apply Hne|by exists k].
Qed.

(** substitution cuts a text into bytes and whole placeholders
    without looking at any secret, the pieces put together are the text, and
    the result is the pieces with the secrets in the place of the
    placeholders: no secret is scanned again, and a text is changed only if it
    carries a placeholder as a complete token. *)
Theorem substitution_is_one_pass value reps :
  Forall (fun r => placeholder r <> []) reps ->
  let pieces := segments (length value) value (map placeholder reps) 0 in
  substituteAll value reps = render (map secret reps) pieces /\
  render (map placeholder reps) pieces = value /\
  (carriesPlaceholder value reps = true <-> exists i, inr i ∈ pieces).
Proof.
  intros Hne pieces.
  assert (forall ph, ph ∈ map placeholder reps -> ph <> []) as Hne'.
  { intros ph (r & -> & Hr)%list_elem_of_fmap. rewrite Forall_forall in Hne. by apply Hne. }
  split_and!; [apply subst_loop_render|by apply segments_render; [|lia]|].
  rewrite carries_spec by done. unfold pieces. rewrite segments_plain by (done || lia).
  split; intros (k & ph & ?); exists k, ph; intuition lia.
Qed.

(** ** One pass over the leases *)

Section pass.
Context `{Codecs}.

(** The lease covers the destination, is live, goes over TLS and is in scope
    for the method and the path. *)
Definition authorized (now : Z) (p : credentialParts) (scheme host : text) (lease : BindingLease) : Prop :=
  hostMatches host (Destinations lease) = true /\ (ExpiresAt lease = 0 \/ now <= ExpiresAt lease) /\
  scheme = EgressProtocolHTTPS /\
  (Methods lease = [] \/ (Method p <> [] /\ ToUpper (Method p) ∈ Methods lease)) /\
  (PathPrefixes lease = [] \/ (Path p <> [] /\ pathPrefixMatches (Path p) (PathPrefixes lease) = true)).

#[local] Instance authorized_dec now p scheme host lease : Decision (authorized now p scheme host lease).
Proof. unfold authorized. apply _. Defined.

Lemma checkLease_spec now scheme host lease : checkLease now lease scheme host = None <->
  hostMatches host (Destinations lease) = true /\ (ExpiresAt lease = 0 \/ now <= ExpiresAt lease) /\
  scheme = EgressProtocolHTTPS.
Proof.
  unfold checkLease. destruct (hostMatches host (Destinations lease)); cbn [negb]; [|by split; [|intros [? _]]].
  destruct (ExpiresAt lease =? 0) eqn:E0, (ExpiresAt lease <? now) eqn:E1; cbn [negb andb]; bool_hyp;
    try case_bool_decide; cbn [negb]; split; try done; try (intros (_ & ? & ?); (done || lia)); auto.
Qed.

Lemma checkLeaseScope_spec lease method path : checkLeaseScope lease method path = None <->
  (Methods lease = [] \/ (method <> [] /\ ToUpper method ∈ Methods lease)) /\
  (PathPrefixes lease = [] \/ (path <> [] /\ pathPrefixMatches path (PathPrefixes lease) = true)).
Proof.
  unfold checkLeaseScope.
  destruct (decide (Methods lease = [])) as [Em|Em].
  - rewrite (bool_decide_false (Methods lease <> [])) by auto. cbn [andb].
    destruct (decide (PathPrefixes lease = [])) as [Ep|Ep].
    + rewrite (bool_decide_false (PathPrefixes lease <> [])) by auto. cbn [andb]. tauto.
    + rewrite (bool_decide_true (PathPrefixes lease <> [])) by auto. cbn [andb].
      case_bool_decide; destruct (pathPrefixMatches path (PathPrefixes lease)); cbn; split; try done; intuition done.
  - rewrite (bool_decide_true (Methods lease <> [])) by auto. cbn [andb].
    repeat (case_bool_decide; cbn [orb negb andb]); try (split; [done|intuition done]);
    destruct (decide (PathPrefixes lease = [])) as [Ep|Ep]; try done;
      destruct (pathPrefixMatches path (PathPrefixes lease)); cbn [negb]; split; try done; intuition done.
Qed.

Lemma checks_authorized now p scheme host lease :
  checkLease now lease scheme host = None /\ checkLeaseScope lease (Method p) (Path p) = None <->
  authorized now p scheme host lease.
Proof. rewrite checkLease_spec, checkLeaseScope_spec. unfold authorized. tauto. Qed.

(** The pass replaces the placeholder of [lease] by its secret: the lease is
    authorized, and the placeholder stands in the part it declares; only for
    a header may it stand elsewhere too. *)
Definition spends (now : text -> Z) (p : credentialParts) (scheme host : text) (lease : BindingLease) : bool :=
  let found := locate p (Placeholder lease) in
  let bit := locationBit (SubstitutionLocation lease) in
  negb (found =? 0) && bool_decide (authorized (now (ID lease)) p scheme host lease)
  && ((SubstitutionLocation lease =t SubstitutionHeader) || (found =? bit)) && negb (Z.land found bit =? 0).

(** Two leases that differ at most in a secret the pass does not spend. *)
Definition same_spendable (now : text -> Z) (p : credentialParts) (scheme host : text) (l l' : BindingLease) : Prop :=
  (exists s, l' = mkLease (ID l) s (Destinations l) (ExpiresAt l) (LeasePlaceholder l) (Methods l) (PathPrefixes l)
                    (Substitution l)) /\
  (spends now p scheme host l = true -> l' = l).

(** What the loop does with one lease. *)
Definition lease_turn (now : text -> Z) (p : credentialParts) (scheme host : text) (substitute : bool) (lease : BindingLease)
    (used : gset text) (plan : substitutionPlan) : result credentialRejection (gset text * substitutionPlan) :=
  lease_loop now p scheme host substitute [lease] used plan.

Lemma lease_loop_cons now p scheme host substitute lease l used plan :
  lease_loop now p scheme host substitute (lease :: l) used plan
  = match lease_turn now p scheme host substitute lease used plan with
    | Ok (used, plan) => lease_loop now p scheme host substitute l used plan
    | Err e => Err e
    end.
Proof. unfold lease_turn. cbn [lease_loop]. repeat (step_if || step_match); try done. Qed.

(** A lease that is spent is planned; any other is refused or left aside, and
    its secret is not looked at. *)
Lemma lease_turn_spec now p scheme host substitute lease used plan :
  if spends now p scheme host lease then
    lease_turn now p scheme host substitute lease used plan
    = if substitute then
        match planSubstitution p lease (SubstitutionLocation lease) plan with
        | Ok plan => Ok ({[ID lease]} ∪ used, plan) | Err e => Err e
        end
      else Ok ({[ID lease]} ∪ used, plan)
  else lease_turn now p scheme host substitute lease used plan = Ok (used, plan) \/
       exists e, lease_turn now p scheme host substitute lease used plan = Err e.
Proof.
  unfold lease_turn, spends. cbn [lease_loop].
  set (found := locate p _). set (bit := locationBit _). cbv zeta. clearbody found bit.
  destruct (found =? 0); cbn [negb andb]; [by left|].
  pose proof (checks_authorized (now (ID lease)) p scheme host lease) as Ha.
  destruct (checkLease (now (ID lease)) lease scheme host) as [e|];
    [rewrite bool_decide_false by (by intros [? ?]%Ha); right; by exists e|].
  destruct (checkLeaseScope lease (Method p) (Path p)) as [e|];
    [rewrite bool_decide_false by (by intros [? ?]%Ha); right; by exists e|].
  rewrite (bool_decide_true (authorized _ _ _ _ _)) by (by apply Ha). cbn [andb].
  destruct (SubstitutionLocation lease =t SubstitutionHeader); cbn [negb andb orb].
  - destruct (Z.land found bit =? 0); cbn [negb]; [by left|]. by destruct substitute.
  - destruct (found =? bit); cbn [negb andb]; [|right; by eexists].
    destruct (Z.land found bit =? 0); cbn [negb]; [by left|]. by destruct substitute.
Qed.

Lemma same_spendable_turn now p scheme host substitute l l' used plan :
  same_spendable now p scheme host l l' ->
  lease_turn now p scheme host substitute l used plan = lease_turn now p scheme host substitute l' used plan.
Proof.
  intros [[s ->] Hs]. destruct (spends now p scheme host l) eqn:E; [by rewrite Hs|].
  unfold spends in E. unfold lease_turn. cbn [lease_loop].
  change (Placeholder (mkLease _ _ _ _ _ _ _ _)) with (Placeholder l).
  change (checkLease (now ?i) (mkLease _ _ _ _ _ _ _ _)) with (checkLease (now (ID l)) l).
  change (checkLeaseScope (mkLease _ _ _ _ _ _ _ _)) with (checkLeaseScope l).
  change (SubstitutionLocation (mkLease _ _ _ _ _ _ _ _)) with (SubstitutionLocation l).
  change (ID (mkLease _ _ _ _ _ _ _ _)) with (ID l).
  revert E. set (found := locate p _). set (bit := locationBit _). cbv zeta. clearbody found bit.
  pose proof (checks_authorized (now (ID l)) p scheme host l) as Ha.
  destruct (found =? 0); [done|]. destruct (checkLease (now (ID l)) l scheme host); [done|].
  destruct (checkLeaseScope l (Method p) (Path p)); [done|].
  rewrite (bool_decide_true (authorized _ _ _ _ _)) by (by apply Ha).
  destruct (SubstitutionLocation l =t SubstitutionHeader), (found =? bit), (Z.land found bit =? 0);
    cbn [negb andb orb]; done.
Qed.

Lemma same_spendable_loop now p scheme host substitute l l' :
  Forall2 (same_spendable now p scheme host) l l' -> forall used plan,
  lease_loop now p scheme host substitute l used plan = lease_loop now p scheme host substitute l' used plan.
Proof.
  induction 1 as [|x y l l' Hxy _ IH]; intros used plan; [done|].
  rewrite !lease_loop_cons, (same_spendable_turn _ _ _ _ _ _ _ _ _ Hxy).
  destruct (lease_turn _ _ _ _ _ _ _ _) as [[]|]; [apply IH|done].
Qed.

Lemma sort_by_Forall2 {A} (R : A -> A -> Prop) less l l' :
  (forall a b a' b', R a a' -> R b b' -> less a b = less a' b') -> Forall2 R l l' ->
  Forall2 R (sort_by less l) (sort_by less l').
Proof.
  intros Hless. assert (forall x x', R x x' -> forall m m', Forall2 R m m' ->
    Forall2 R (insert_by less x m) (insert_by less x' m')) as Hins.
  { intros x x' Hx m m'. induction 1 as [|y y' m m' Hy Hm IH]; cbn; [by constructor; [|constructor]|].
    rewrite (Hless y x y' x') by done. destruct (less y' x'); [by constructor|].
    constructor; [done|by constructor]. }
  induction 1; cbn; [constructor|]. by apply Hins.
Qed.

(** C8: a secret reaches a request, or influences the verdict on
    it, only if its lease covers the destination, is live, is in scope for the
    method and the path, the upstream is TLS and its placeholder stands in the
    part of the request the binding declares: replacing every other secret by
    anything leaves verdict and rewritten request the same. *)
Theorem only_spendable_secrets_matter now b b' p scheme host substitute :
  withdrawn b = withdrawn b' -> Forall2 (same_spendable now p scheme host) (leases b) (leases b') ->
  processCredentials now b p scheme host substitute = processCredentials now b' p scheme host substitute.
Proof.
  intros Hw Hl. unfold processCredentials. rewrite Hw. destruct (find_withdrawn p (withdrawn b')); [done|].
  rewrite (same_spendable_loop _ _ _ _ _ (sort_by longer (leases b)) (sort_by longer (leases b'))); [done|].
  apply sort_by_Forall2; [|done]. intros x y x' y' [[s ->] _] [[s' ->] _]. done.
Qed.

(** ** A refusal changes nothing *)

Lemma member_set k v l k' : member k' (set_member k v l) =
  if k =t k' then match member k' l with Some _ => Some v | None => None end else member k' l.
Proof.
  induction l as [|[q w] l IH]; cbn; [by case_bool_decide|].
  repeat (case_bool_decide; cbn); subst; try done; rewrite ?IH; repeat case_bool_decide; done.
Qed.

Lemma walk_step doc raw rest s : walk doc (raw :: rest) = Ok s ->
  exists next, (match rest with [] => next = JString s | _ => walk next rest = Ok s end) /\
    ((exists l, doc = JObject l /\ member (unescape raw) l = Some next) \/
     (exists l i, doc = JArray l /\ element (unescape raw) l = Some i /\ l !! i = Some next)).
Proof.
  cbn [walk]. destruct doc as [| | | |l|l]; try done.
  - destruct (element (unescape raw) l) as [i|] eqn:Ei; [|done]. destruct (l !! i) as [next|] eqn:El; [|done].
    intros Hs. exists next. split; [|right; by exists l, i]. destruct rest; [|done]. destruct next; by inversion Hs.
  - destruct (member (unescape raw) l) as [next|] eqn:Em; [|done].
    intros Hs. exists next. split; [|left; by exists l]. destruct rest; [|done]. destruct next; by inversion Hs.
Qed.

Lemma element_length token l l' : length l = length l' -> element token l = element token l'.
Proof. unfold element. by intros ->. Qed.

(** The value below the step of two pointers after a write through one. *)
Lemma put_below rest rest' next v s s' :
  (match rest' with [] => next = JString s' | _ => walk next rest' = Ok s' end) ->
  (match rest with [] => next = JString s | _ => walk next rest = Ok s end) ->
  (walk next rest = Ok s -> walk next rest' = Ok s' -> exists s'', walk (put next rest v) rest' = Ok s'') ->
  exists s'', match rest' with
              | [] => (match rest with [] => JString v | _ => put next rest v end) = JString s''
              | _ => walk (match rest with [] => JString v | _ => put next rest v end) rest' = Ok s''
              end.
Proof.
  intros H' H0 IH. destruct rest as [|r rest], rest' as [|r' rest'].
  - by exists v.
  - subst. done.
  - subst. done.
  - by apply IH.
Qed.

(** A string that a pointer names is still one after another was replaced. *)
Lemma walk_put q v : forall q' doc s s', walk doc q = Ok s -> walk doc q' = Ok s' ->
  exists s'', walk (put doc q v) q' = Ok s''.
Proof.
  induction q as [|raw rest IH]; intros [|raw' rest'] doc s s' Hq Hq'; [done..|].
  destruct (walk_step _ _ _ _ Hq) as (next & Hn & Hl). destruct (walk_step _ _ _ _ Hq') as (next' & Hn' & Hl').
  destruct Hl as [(l & -> & Hm)|(l & i & -> & He & Hi)].
  - destruct Hl' as [(l' & [= <-] & Hm')|(l' & i' & [=] & _)].
    cbn [put walk]. rewrite Hm. cbn [walk]. rewrite member_set.
    case_bool_decide as Ek.
    + rewrite Ek in Hm. assert (next' = next) as -> by congruence. rewrite Hm'.
      destruct (put_below rest rest' next v s s' Hn' Hn (fun A B => IH rest' next s s' A B)) as [s'' Hs].
      exists s''. destruct rest'; [by rewrite Hs|]. by destruct (match rest with [] => JString v | _ => _ end).
    + rewrite Hm'. exists s'. destruct rest'; [by subst|]. by destruct next'.
  - destruct Hl' as [(l' & [=] & _)|(l' & i' & [= <-] & He' & Hi')].
    cbn [put walk]. rewrite He, Hi. cbn [walk].
    rewrite (element_length _ _ l) by apply length_insert. rewrite He'.
    destruct (decide (i = i')) as [<-|Hne].
    + assert (next' = next) as -> by congruence. rewrite list_lookup_insert_eq by (by eapply lookup_lt_Some).
      destruct (put_below rest rest' next v s s' Hn' Hn (fun A B => IH rest' next s s' A B)) as [s'' Hs].
      exists s''. destruct rest'; [by rewrite Hs|]. by destruct (match rest with [] => JString v | _ => _ end).
    + rewrite list_lookup_insert_ne, Hi' by done. exists s'. destruct rest'; [by subst|]. by destruct next'.
Qed.

(** The numbers of a document, which are all that can make it unserializable. *)
Fixpoint numbers (doc : json) : list text :=
  match doc with
  | JNumber n => [n]
  | JArray l => concat (map numbers l)
  | JObject l => concat (map (fun kv => numbers (snd kv)) l)
  | _ => []
  end.

Lemma concat_insert {A} (f : json -> list A) l i x y : l !! i = Some x -> f y = f x ->
  concat (map f (<[i := y]> l)) = concat (map f l).
Proof.
  revert i. induction l as [|z l IH]; intros [|i] Hx Hf; cbn in *; [done..| |].
  - injection Hx as ->. by rewrite Hf.
  - by rewrite IH.
Qed.

Lemma concat_set_member k l x y : member k l = Some x -> numbers y = numbers x ->
  concat (map (fun kv => numbers (snd kv)) (set_member k y l)) = concat (map (fun kv => numbers (snd kv)) l).
Proof.
  induction l as [|[q w] l IH]; cbn; [done|]. case_bool_decide; cbn.
  - intros [= ->] Hf. by rewrite Hf.
  - intros Hm Hf. by rewrite IH.
Qed.

Lemma numbers_put q v : forall doc s, walk doc q = Ok s -> numbers (put doc q v) = numbers doc.
Proof.
  induction q as [|raw rest IH]; intros doc s Hw; [done|].
  destruct (walk_step _ _ _ _ Hw) as (next & Hn & Hl).
  assert (numbers (match rest with [] => JString v | _ => put next rest v end) = numbers next) as Hnum.
  { destruct rest; [by subst|]. by eapply IH. }
  destruct Hl as [(l & -> & Hm)|(l & i & -> & He & Hi)]; cbn [put].
  - rewrite Hm. cbn [numbers]. by apply concat_set_member with next.
  - rewrite He, Hi. cbn [numbers]. by apply concat_insert with next.
Qed.

(** What the pass relies on: a map is ranged over once, and [encoding/json]
    refuses nothing but an invalid number, which it does not decode. *)
Class CodecLaws := {
  valid_number : text -> Prop;
  range_perm m : range m ≡ₚ map_to_list m;
  decoded_numbers t doc : DecodeJSON t = Some doc -> Forall valid_number (numbers doc);
  encodable doc : Forall valid_number (numbers doc) -> is_Some (EncodeJSON doc) }.
Context `{!CodecLaws}.

Definition resolves (doc : json) (pointer : text) : Prop := exists s f, jsonPointerString doc pointer = Ok (s, f).

(** Everything planned was found in the request. *)
Record plan_ok (p : credentialParts) (plan : substitutionPlan) : Prop := mkPlanOk {
  ok_query : plan_query plan <> ∅ -> is_Some (query p);
  ok_form : plan_form plan <> ∅ -> is_Some (form p);
  ok_json : forall k, is_Some (plan_json plan !! k) -> exists doc, jsonBody p = Some doc /\ resolves doc k }.

Lemma plan_add_lookup k r m k' : is_Some (plan_add k r m !! k') -> k' = k \/ is_Some (m !! k').
Proof.
  unfold plan_add. destruct (decide (k = k')) as [->|]; [by left|]. rewrite lookup_insert_ne by done. by right.
Qed.

Lemma planSubstitution_ok p lease location plan plan' :
  plan_ok p plan -> planSubstitution p lease location plan = Ok plan' -> plan_ok p plan'.
Proof.
  intros [Hq Hf Hj]. unfold planSubstitution. repeat step_if.
  - destruct (query p) as [v|] eqn:Eq; [|done]. destruct (default [] _) as [|x [|]]; try done.
    step_if; [done|]. intros [= <-]. split; cbn; [by rewrite Eq|done|done].
  - done.
  - done.
  - destruct (form p) as [v|] eqn:Ef; [|done]. destruct (default [] _) as [|x [|]]; try done.
    step_if; [done|]. intros [= <-]. split; cbn; [done|by rewrite Ef|done].
  - done.
  - done.
  - destruct (jsonBody p) as [doc|] eqn:Ej; [|done].
    destruct (jsonPointerString doc (sub_pointer lease)) as [[cur f]|e] eqn:Ep; [|done].
    step_if; [done|]. intros [= <-]. split; cbn; [done|done|].
    intros k [->|Hk]%plan_add_lookup; [|rewrite Ej; by apply Hj]. exists doc. split; [done|by exists cur, f].
  - intros [= <-]. by split.
Qed.

Lemma lease_loop_plan_ok now p scheme host substitute l : forall used plan used' plan',
  plan_ok p plan -> lease_loop now p scheme host substitute l used plan = Ok (used', plan') -> plan_ok p plan'.
Proof.
  induction l as [|lease l IH]; intros used plan used' plan' Hp; [by intros [= <- <-]|].
  rewrite lease_loop_cons. pose proof (lease_turn_spec now p scheme host substitute lease used plan) as Ht.
  destruct (spends now p scheme host lease).
  - rewrite Ht. destruct substitute; [|by apply IH].
    destruct (planSubstitution _ _ _ _) as [plan1|] eqn:E; [|done]. apply IH. by eapply planSubstitution_ok.
  - destruct Ht as [->|[e ->]]; [by apply IH|done].
Qed.

Lemma resolves_walk doc k : resolves doc k <-> HasPrefix k (T "/") = true /\ exists s, walk doc (pointer_tokens k) = Ok s.
Proof.
  unfold resolves, jsonPointerString. destruct (HasPrefix k (T "/")); cbn [negb].
  - destruct (walk doc (pointer_tokens k)) as [s|e]; split.
    + intros _. split; [done|by exists s].
    + intros _. by eexists _, _.
    + by intros (s & f & ?).
    + by intros (_ & s & ?).
  - split; [by intros (s & f & ?)|by intros [? _]].
Qed.

Lemma rewrite_json_ok l : forall doc, (forall kv, kv ∈ l -> resolves doc kv.1) ->
  exists doc', rewrite_json doc l = Ok doc' /\ numbers doc' = numbers doc.
Proof.
  induction l as [|[k rs] l IH]; intros doc Hl; [by exists doc|]. cbn [rewrite_json].
  destruct (Hl (k, rs) ltac:(left)) as (cur & f & Hk). cbn in Hk. rewrite Hk.
  assert (exists s, walk doc (pointer_tokens k) = Ok s /\ f = put doc (pointer_tokens k)) as (s & Hs & ->).
  { unfold jsonPointerString in Hk. step_if; [done|]. destruct (walk doc (pointer_tokens k)) as [s|]; [|done].
    injection Hk as _ <-. by exists s. }
  destruct (IH (put doc (pointer_tokens k) (substituteAll cur rs))) as (doc' & -> & Hn).
  { intros kv Hkv. apply resolves_walk. destruct (proj1 (resolves_walk doc kv.1) (Hl kv ltac:(by right))) as [Hp [s' Hs']].
    split; [done|]. by eapply walk_put. }
  exists doc'. split; [done|]. rewrite Hn. by eapply numbers_put.
Qed.

Lemma apply_plan_ok plan p : plan_ok p plan -> fst (apply_plan plan p) = None.
Proof.
  intros [Hq Hf Hj]. unfold apply_plan.
  assert (query (apply_header plan p) = query p /\ form (apply_header plan p) = form p) as [Eq Ef].
  { unfold apply_header. by destruct (plan_header plan). }
  unfold apply_query. rewrite Eq.
  assert (exists p1, (if bool_decide (plan_query plan = ∅) then (None, apply_header plan p)
    else match query p with
         | Some v => (None, with_Query (EncodeValues (foldl rewrite_param v (range (plan_query plan)))) (apply_header plan p))
         | None => (Some (Failed MalformedQuery), apply_header plan p)
         end) = (None, p1) /\ form p1 = form p) as (p1 & -> & E1).
  { case_bool_decide as E; [by eexists|]. destruct (Hq E) as [v ->]. by eexists. }
  unfold apply_form. rewrite E1.
  assert (exists p2, (if bool_decide (plan_form plan = ∅) then (None, p1)
    else match form p with
         | Some v => (None, with_Body (EncodeValues (foldl rewrite_param v (range (plan_form plan)))) (BodyPresent p1) p1)
         | None => (Some (Failed MalformedForm), p1)
         end) = (None, p2)) as (p2 & ->).
  { case_bool_decide as E; [by eexists|]. destruct (Hf E) as [v ->]. by eexists. }
  unfold apply_json. case_bool_decide as E; [done|].
  apply map_choose in E as (k0 & rs0 & Hk0). destruct (Hj k0 ltac:(by eexists)) as (doc & Ed & _). rewrite Ed.
  destruct (rewrite_json_ok (range (plan_json plan)) doc) as (doc' & -> & Hn).
  { intros [k rs]. rewrite range_perm, elem_of_map_to_list. intros Hk. cbn.
    destruct (Hj k ltac:(by eexists)) as (doc1 & Ed1 & ?). congruence. }
  destruct (encodable doc') as [t ->]; [|done]. rewrite Hn. by eapply decoded_numbers.
Qed.

Lemma refused_untouched now b p scheme host substitute e p' :
  processCredentials now b p scheme host substitute = (Err e, p') -> p' = p.
Proof.
  unfold processCredentials. destruct (find_withdrawn p (withdrawn b)); [by intros [= _ <-]|].
  destruct (lease_loop _ _ _ _ _ _ _ _) as [[used plan]|e1] eqn:El; [|by intros [= _ <-]].
  step_if; [|done]. apply lease_loop_plan_ok, apply_plan_ok in El.
  - destruct (apply_plan plan p) as [[e2|] p2]; by cbn in *.
  - split; cbn; [done|done|]. intros k. rewrite lookup_empty. by intros [? ?].
Qed.

Lemma lease_loop_unspent now p scheme host substitute l : (forall x, x ∈ l -> spends now p scheme host x = false) ->
  forall used plan used' plan', lease_loop now p scheme host substitute l used plan = Ok (used', plan') -> plan' = plan.
Proof.
  induction l as [|x l IH]; intros Hl used plan used' plan'; [by intros [= _ <-]|].
  rewrite lease_loop_cons. pose proof (lease_turn_spec now p scheme host substitute x used plan) as Ht.
  rewrite Hl in Ht by left. destruct Ht as [->|[e ->]]; [|done]. apply IH. intros y Hy. apply Hl. by right.
Qed.
End pass.

(** ** The handler *)

Section handler.
Context `{Codecs}.

Lemma lease_loop_used now p scheme host substitute l : forall used plan used' plan',
  lease_loop now p scheme host substitute l used plan = Ok (used', plan') ->
  forall id, id ∈ used' <-> id ∈ used \/ exists x, x ∈ l /\ spends now p scheme host x = true /\ ID x = id.
Proof.
  induction l as [|lease l IH]; intros used plan used' plan' Hl id.
  { injection Hl as <- <-. split; [by left|]. intros [|(x & ?%elem_of_nil & _)]; done. }
  rewrite lease_loop_cons in Hl. pose proof (lease_turn_spec now p scheme host substitute lease used plan) as Ht.
  destruct (spends now p scheme host lease) eqn:Es.
  - assert (exists plan1, lease_loop now p scheme host substitute l ({[ID lease]} ∪ used) plan1 = Ok (used', plan'))
      as [plan1 Hl1].
    { rewrite Ht in Hl. destruct substitute; [|by eexists]. destruct (planSubstitution _ _ _ _); [by eexists|done]. }
    rewrite (IH _ _ _ _ Hl1), elem_of_union, elem_of_singleton. split.
    + intros [[->|Hin]|(x & Hx & ?)]; [right; exists lease; split_and!; [left|done|done]|by left|].
      right. exists x. split; [by right|done].
    + intros [Hin|(x & Hx & Hsx & <-)]; [by left; right|]. apply elem_of_cons in Hx as [->|Hx]; [by left; left|].
      right. by exists x.
  - destruct Ht as [Ht|[e Ht]]; rewrite Ht in Hl; [|done]. rewrite (IH _ _ _ _ Hl). split.
    + intros [|(x & Hx & ?)]; [by left|right]. exists x. split; [by right|done].
    + intros [|(x & Hx & Hsx & Hid)]; [by left|right]. apply elem_of_cons in Hx as [->|Hx]; [congruence|by exists x].
Qed.

Lemma process_used now b p scheme host substitute used p' :
  processCredentials now b p scheme host substitute = (Ok used, p') ->
  (forall id, id ∈ used <-> exists l, l ∈ leases b /\ spends now p scheme host l = true /\ ID l = id) /\
  (substitute = false -> p' = p).
Proof.
  unfold processCredentials. destruct (find_withdrawn p (withdrawn b)); [done|].
  destruct (lease_loop _ _ _ _ _ _ _ _) as [[used1 plan]|] eqn:El; [|done]. intros Hp.
  assert (used1 = used /\ (substitute = false -> p' = p)) as [-> Hs].
  { revert Hp. destruct substitute; cbn [andb]; [|by intros [= <- <-]].
    step_if; [|by intros [= <- _]]. destruct (apply_plan plan p) as [[|] ?]; [done|]. by intros [= <- _]. }
  split; [|done]. intros id. rewrite (lease_loop_used _ _ _ _ _ _ _ _ _ _ El). split.
  - intros [?%elem_of_empty|(x & Hx & ?)]; [done|]. rewrite sort_by_perm in Hx. by exists x.
  - intros (x & Hx & ?). right. exists x. by rewrite sort_by_perm.
Qed.

(** a pass that refuses a request leaves it as it was, whichever lease,
    part or encoding the refusal came from, so that no request has only some
    of its placeholders replaced.  A pass that accepts it reports exactly the
    bindings it spends, and changes nothing if it spends none or only
    inspects. *)
Theorem refused_request_is_untouched `{!CodecLaws} now b p scheme host substitute :
  match processCredentials now b p scheme host substitute with
  | (Err _, p') => p' = p
  | (Ok used, p') =>
      (forall id, id ∈ used <-> exists l, l ∈ leases b /\ spends now p scheme host l = true /\ ID l = id) /\
      (substitute = false \/ (forall l, l ∈ leases b -> spends now p scheme host l = false) -> p' = p)
  end.
Proof.
  destruct (processCredentials now b p scheme host substitute) as [[used|e] p'] eqn:E; [|by eapply refused_untouched].
  destruct (process_used _ _ _ _ _ _ _ _ E) as [Hu Hs]. split; [done|]. intros [|Hn]; [by apply Hs|].
  unfold processCredentials in E. destruct (find_withdrawn p (withdrawn b)); [done|].
  destruct (lease_loop _ _ _ _ _ _ _ _) as [[used1 plan]|] eqn:El; [|done].
  apply lease_loop_unspent in El as ->; [by rewrite andb_false_r in E; injection E as _ <-|].
  intros x Hx. apply Hn. by rewrite sort_by_perm in Hx.
Qed.

(** The request the last pass gets: the workspace's own, with its body if it
    was buffered. *)
Definition own_request (p p3 : credentialParts) : Prop := p3 = p \/ exists body, p3 = with_Body body true p.

Lemma match_rules_enabled connector protocol host method path port l b :
  match fst (match_rules connector protocol host method path port l b) with
  | Some a => enabled a = true
  | None => True
  end.
Proof.
  induction l as [|r l IH]; cbn [match_rules]; [done|]. step_if; [exact IH|]. do 3 (step_if; [done|]).
  by destruct (consumeApprovedRule r b) as [[] ?].
Qed.

Lemma authorize_default policy scheme host method path b :
  enabled (fst (authorizePolicy policy [] scheme host method path b)) = false ->
  Default policy = [] /\ Rules policy = [].
Proof.
  unfold authorizePolicy. step_if.
  { intros _. bool_hyp. rewrite !bool_decide_eq_true in *. split; [done|]. by apply length_zero_iff_nil. }
  pose proof (match_rules_enabled [] scheme host (ToUpper method) (clean_path path) (destinationPort host scheme)
                (Rules policy) b) as Hm.
  destruct (match_rules _ _ _ _ _ _ _ _) as [[a|] b']; cbn in *; [congruence|]. by step_if.
Qed.

Lemma govern_admits e a b b' : govern e a b = (None, b') ->
  (approval a = true -> approve e = true) /\ budget_ok e = true.
Proof.
  unfold govern. step_if; [done|]. destruct (if approval a then _ else _) as [[] b1]; [|done]. cbn [negb].
  step_if; [done|]. intros _. split; [|by destruct (budget_ok e)].
  intros Hap. rewrite Hap in *. by destruct (approve e).
Qed.

(** The broker when the secrets are released: what the request's own policy
    decision and approval left, with everything other goroutines did to it
    until then. *)
Definition broker_at_release (o : Options) (e : environment) (scheme authority : text) (p : credentialParts) (b : broker)
  : broker :=
  let '(a, b) := authorizePolicy (Network o) [] scheme authority (Method p) (Path p) (meanwhile e 0%nat b) in
  meanwhile e 4%nat (snd (govern e a (meanwhile e 3%nat (meanwhile e 2%nat (meanwhile e 1%nat b))))).

(** The broker when the request body was inspected. *)
Definition broker_inspected (o : Options) (e : environment) (scheme authority : text) (p : credentialParts) (b : broker)
  : broker :=
  meanwhile e 2%nat (meanwhile e 1%nat
    (snd (authorizePolicy (Network o) [] scheme authority (Method p) (Path p) (meanwhile e 0%nat b)))).

(** C9: whatever other goroutines do to the leases and counters of the
    broker while a request is handled, a request that is forwarded goes to the
    normalized authority the client named; typed policy, approval and budget
    admitted it, or without typed policy the allow list covers the destination
    or a lease, when the headers or the body were inspected, was spendable on
    it; and the bindings whose secret it carries are exactly the
    leases of the broker at the release, after everything that was done to it
    while the request was handled, that cover this destination over TLS, are
    live, in scope and have their placeholder where they declare it in the
    workspace's own request. *)
Theorem forwarded_credentials_are_authorized o e scheme host p b authority used p' b' :
  proxy o e scheme host p b = (Forwarded authority used p', b') ->
  normalizeAuthority host (ToLower scheme) = Some authority /\
  (let a := fst (authorizePolicy (Network o) [] (ToLower scheme) authority (Method p) (Path p) (meanwhile e 0%nat b)) in
     (if enabled a then allowed a = true
      else Default (Network o) = [] /\ Rules (Network o) = [] /\
           (hostMatches authority (Allow o) = true \/
            exists p2 l, own_request p p2 /\
              ((l ∈ leases b /\ spends (clock e 0%nat) p2 (ToLower scheme) authority l = true) \/
               (l ∈ leases (broker_inspected o e (ToLower scheme) authority p b) /\
                spends (clock e 1%nat) p2 (ToLower scheme) authority l = true)))) /\
     (approval a = true -> approve e = true) /\ budget_ok e = true) /\
  b' = broker_at_release o e (ToLower scheme) authority p b /\
  exists p3, own_request p p3 /\
    processCredentials (clock e 3%nat) b' p3 (ToLower scheme) authority true = (Ok used, p') /\
    (forall id, id ∈ used <->
       exists l, l ∈ leases b' /\ spends (clock e 3%nat) p3 (ToLower scheme) authority l = true /\ ID l = id).
Proof.
  unfold proxy. step_if; [done|]. destruct (normalizeAuthority host (ToLower scheme)) as [auth|]; [|done].
  destruct (processCredentials (clock e 0%nat) b p (ToLower scheme) auth false) as [[used0|] p0] eqn:E0; [|done].
  pose proof (process_used _ _ _ _ _ _ _ _ E0) as [Hu0 ->]; [|done].
  set (b1 := meanwhile e 0%nat b).
  pose proof (authorize_default (Network o) (ToLower scheme) auth (Method p) (Path p) b1) as Hdef.
  destruct (authorizePolicy _ _ _ _ _ _ _) as [a b2] eqn:Ea. step_if; [done|].
  destruct (if negb (approval a || _ || _ || _) then _ else _) as [[used2 p2]|d] eqn:Ei.
  2: { intros Hd. exfalso. injection Hd as -> _. clear -Ei. repeat (step_if || step_match); done. }
  assert (own_request p p2 /\ (used2 <> ∅ -> exists l,
    (l ∈ leases b /\ spends (clock e 0%nat) p2 (ToLower scheme) auth l = true) \/
    (l ∈ leases (meanwhile e 2%nat (meanwhile e 1%nat b2)) /\ spends (clock e 1%nat) p2 (ToLower scheme) auth l = true)))
    as [Hown Hbind].
  { destruct (negb _) in Ei.
    - injection Ei as <- <-. split; [by left|]. intros [id Hid]%set_choose_L.
      destruct (proj1 (Hu0 id) Hid) as (l & ? & ? & _). by eauto.
    - destruct (read_body e _) as [body|]; [|done].
      destruct (processCredentials _ _ (with_Body body true p) _ _ _) as [[u|] q] eqn:E2; [|done].
      injection Ei as <- <-. destruct (process_used _ _ _ _ _ _ _ _ E2) as [Hu2 ->]; [|done].
      split; [by right; exists body|]. intros [id Hid]%set_choose_L.
      destruct (proj1 (Hu2 id) Hid) as (l & ? & ? & _). by eauto. }
  destruct (negb (if enabled a then _ else _)) eqn:Eall; [done|]. apply negb_false_iff in Eall.
  destruct (govern e a _) as [[why|] b3] eqn:Eg; [done|]. pose proof (govern_admits _ _ _ _ Eg) as [Happ Hbud].
  unfold release_credentials.
  destruct (processCredentials (clock e 3%nat) _ p2 _ _ true) as [[u|] q] eqn:E3; [|done].
  intros [= -> <- <- <-]. split; [done|]. split; [|split].
  - rewrite Ea in *. cbn [fst] in *. split; [|done].
    destruct (enabled a) eqn:Een; [done|]. destruct (Hdef eq_refl) as [-> ->]. split_and!; [done..|].
    apply orb_true_iff in Eall as [Hu|?]; [right|by left]. apply bool_decide_eq_true in Hu.
    destruct (Hbind Hu) as [l Hl]. exists p2, l. unfold broker_inspected. fold b1. by rewrite Ea.
  - unfold broker_at_release. fold b1. by rewrite Ea, Eg.
  - exists p2. split; [done|]. split; [exact E3|]. by apply (process_used _ _ _ _ _ _ _ _ E3).
Qed.
End handler.

(** ** Request budgets of rules *)

#[export] Instance EgressRule_eq_dec : EqDecision EgressRule.
Proof. solve_decision. Defined.

Section budgets.
Context `{Codecs} (policy : NetworkPolicy).

(** What requests and the control plane do to a broker, in the order in which
    they take its lock. *)
Inductive policy_op :=
| Authorize (connector protocol host method path : text)
| Approved (r : EgressRule)
| Replace (l : list BindingLease) (w : list Withdrawn).

(** The rule under which the step lets a request through, if it does. *)
Definition exec_op (b : broker) (op : policy_op) : option EgressRule * broker :=
  match op with
  | Authorize connector protocol host method path =>
      let '(a, b) := authorizePolicy policy connector protocol host method path b in
      (if allowed a && negb (approval a) then Some (rule a) else None, b)
  | Approved r => let '(ok, b) := consumeApprovedRule r b in (if ok then Some r else None, b)
  | Replace l w => (None, SetWithdrawn w (SetLeases l b))
  end.

Fixpoint granted (b : broker) (ops : list policy_op) : list EgressRule :=
  match ops with
  | [] => []
  | op :: t =>
      let '(g, b) := exec_op b op in
      match g with Some r => r :: granted b t | None => granted b t end
  end.

Definition counter (r : EgressRule) (b : broker) : Z := default 0 (ruleRequests b !! RuleID r).

(** A step lets nothing through, or one request that the counter of its rule
    has room for, or one that no rule but the default admits. *)
Definition step_ok (b : broker) (res : option EgressRule * broker) : Prop :=
  match res with
  | (None, b') => ruleRequests b' = ruleRequests b
  | (Some x, b') => (x = no_rule /\ b' = b) \/ consumeApprovedRule x b = (true, b')
  end.

Lemma consume_refused r b b' : consumeApprovedRule r b = (false, b') -> b' = b.
Proof. unfold consumeApprovedRule. step_if; [by intros [= <-]|done]. Qed.

Lemma match_rules_step connector protocol host method path port l b :
  match match_rules connector protocol host method path port l b with
  | (Some a, b') => step_ok b (if allowed a && negb (approval a) then Some (rule a) else None, b')
  | (None, b') => b' = b
  end.
Proof.
  induction l as [|r l IH]; cbn [match_rules]; [done|]. step_if; [exact IH|]. do 3 (step_if; [done|]).
  destruct (consumeApprovedRule r b) as [[] b'] eqn:Ec; cbn; [by right|]. by apply consume_refused in Ec as ->.
Qed.

Lemma exec_op_step b op : step_ok b (exec_op b op).
Proof.
  destruct op as [connector protocol host method path|r|l w]; cbn [exec_op].
  - unfold authorizePolicy. step_if; [done|].
    pose proof (match_rules_step connector protocol host (ToUpper method) (clean_path path)
                  (destinationPort host protocol) (Rules policy) b) as Hm.
    destruct (match_rules _ _ _ _ _ _ _ _) as [[a|] b']; [done|]. subst b'.
    step_if; [done|]. step_if; [by left|done].
  - destruct (consumeApprovedRule r b) as [[] b'] eqn:Ec; cbn; [by right|]. by apply consume_refused in Ec as ->.
  - done.
Qed.

(** A request let through under [x] advances the counter of [r] if they share
    it, and finds it below the limit if [x] is [r]. *)
Lemma consume_counter r x b b' : 0 <= counter r b < maxInt64 -> consumeApprovedRule x b = (true, b') ->
  counter r b <= counter r b' <= counter r b + 1 /\
  (x = r -> counter r b' = counter r b + 1 /\ (0 < MaxRequests r -> counter r b < MaxRequests r)).
Proof.
  unfold consumeApprovedRule, counter. intros Hc. step_if; [done|]. intros [= <-]. cbn.
  destruct (decide (RuleID x = RuleID r)) as [Er|Er].
  - rewrite Er, lookup_insert_eq. cbn. unfold maxInt64 in Hc. rewrite i64_small by (unfold is_i64; lia).
    split; [lia|]. intros ->. split; [done|]. intros Hm. apply andb_false_iff in E as [E|E]; bool_hyp; lia.
  - rewrite lookup_insert_ne by done. split; [lia|]. by intros ->.
Qed.

Lemma granted_bound r ops : 0 < MaxRequests r -> forall b,
  0 <= counter r b -> counter r b + Z.of_nat (length ops) <= maxInt64 ->
  Z.of_nat (length (filter (fun x => x = r) (granted b ops))) <= Z.max 0 (MaxRequests r - counter r b).
Proof.
  intros Hm. induction ops as [|op ops IH]; intros b H0 H1; cbn [granted]; [cbn; lia|]. cbn [length] in H1.
  pose proof (exec_op_step b op) as Hs. destruct (exec_op b op) as [[x|] b']; cbn in Hs.
  - rewrite filter_cons. destruct Hs as [[-> ->]|Hc].
    + specialize (IH b H0 ltac:(lia)). destruct (decide (no_rule = r)) as [<-|]; [done|lia].
    + destruct (consume_counter r x b b') as [Hle Heq]; [lia|done|]. specialize (IH b' ltac:(lia) ltac:(lia)).
      destruct (decide (x = r)) as [->|]; [|lia]. destruct (Heq eq_refl) as [E1 E2]. specialize (E2 Hm).
      cbn [length]. lia.
  - assert (counter r b' = counter r b) as E by (unfold counter; by rewrite Hs).
    rewrite <- E. apply IH; rewrite E; lia.
Qed.

(** whatever requests, approvals and replacements of the leases
    follow one another on a broker, a rule with a request limit lets through
    at most that many requests, whether it allows them itself or after an
    approval, and whatever other rules share its id. *)
Theorem rule_budget_is_never_exceeded r l w ops : 0 < MaxRequests r -> Z.of_nat (length ops) <= maxInt64 ->
  Z.of_nat (length (filter (fun x => x = r) (granted (mkBroker l w ∅) ops))) <= MaxRequests r.
Proof.
  intros Hm Hl. pose proof (granted_bound r ops Hm (mkBroker l w ∅)) as Hb.
  unfold counter in Hb. cbn [ruleRequests] in Hb. rewrite lookup_empty in Hb. cbn [default] in Hb.
  specialize (Hb ltac:(lia) ltac:(lia)). lia.
Qed.
End budgets.

(** ** A run *)

#[local] Instance ex_codecs : Codecs := {|
  ParseQuery := unwire; EncodeValues := wire; ParseMediaType := Some;
  DecodeJSON t := Some (JString t); EncodeJSON doc := match doc with JString t => Some t | _ => Some [] end;
  DecodeBase64 := Some; EncodeBase64 t := t; unicode_lower t := t; unicode_upper t := t;
  unicode_fold a b := a =t b; ParseIP _ := false; range := map_to_list |}.

#[local] Instance ex_codec_laws : CodecLaws.
Proof.
  refine {| valid_number _ := True |}; [done| |].
  - intros t doc _. apply Forall_forall. done.
  - intros [| | | s| |] _; cbn; by eexists.
Qed.

Definition ex_lease (id s dest : string) : BindingLease :=
  mkLease (T id) (T s) [T dest] 0 [] [T "POST"] [T "/v1/chat"] None.
Definition ex_parts (path : string) : credentialParts :=
  mkParts {[T "Authorization" := [T "Bearer ref:b_key"]]} [] [] false [] (T "POST") (T path).
Definition ex_rewritten (path : string) : credentialParts :=
  mkParts {[T "Authorization" := [T "Bearer sk-live"]]} [] [] false [] (T "POST") (T path).
Definition ex_broker : broker :=
  mkBroker [ex_lease "b_key" "sk-live" "api.example.com"; ex_lease "b_far" "far-secret" "far.example.com"] [] ∅.
Definition ex_host : text := T "api.example.com:443".

Lemma substitution_is_one_pass_witness :
  substituteAll (T "Bearer ref:b_a") [mkReplacement (T "ref:b_a") (T "ref:b_a")]
  = render [T "ref:b_a"] (segments 14 (T "Bearer ref:b_a") [T "ref:b_a"] 0).
Proof.
  apply (substitution_is_one_pass (T "Bearer ref:b_a") [mkReplacement (T "ref:b_a") (T "ref:b_a")]).
  apply Forall_singleton. done.
Defined.

Lemma only_spendable_secrets_matter_witness :
  processCredentials (fun _ => 7) ex_broker (ex_parts "/v1/chat/x") EgressProtocolHTTPS ex_host true
  = processCredentials (fun _ => 7)
      (mkBroker [ex_lease "b_key" "sk-live" "api.example.com"; ex_lease "b_far" "ref:b_key" "far.example.com"] [] ∅)
      (ex_parts "/v1/chat/x") EgressProtocolHTTPS ex_host true.
Proof.
  apply only_spendable_secrets_matter; [reflexivity|]. apply Forall2_cons. split.
  - split; [by exists (T "sk-live")|done].
  - apply Forall2_cons. split; [|by constructor]. split; [by exists (T "ref:b_key")|]. intros Hs.
    vm_compute in Hs. discriminate Hs.
Defined.

Lemma refused_request_is_untouched_witness :
  snd (processCredentials (fun _ => 7) ex_broker (ex_parts "/v1/chat/x") EgressProtocolHTTP ex_host true) = ex_parts "/v1/chat/x".
Proof.
  pose proof (refused_request_is_untouched (fun _ => 7) ex_broker (ex_parts "/v1/chat/x") EgressProtocolHTTP ex_host true) as Hr.
  assert (is_ok (fst (processCredentials (fun _ => 7) ex_broker (ex_parts "/v1/chat/x") EgressProtocolHTTP ex_host true)) = false)
    as E by (vm_compute; reflexivity).
  destruct (processCredentials _ _ _ _ _ _) as [[used|e] p']; [discriminate E|exact Hr].
Defined.

Definition ex_options : Options := mkOptions (mkPolicy [] []) [] 0 false.
Definition ex_environment : environment := mkEnvironment (fun _ _ => 7) (fun _ b => b) (fun _ => None) true true.

Lemma forwarded_credentials_are_authorized_witness :
  proxy ex_options ex_environment (T "HTTPS") (T "API.example.com") (ex_parts "/v1/chat/x") ex_broker
  = (Forwarded ex_host {[T "b_key"]} (ex_rewritten "/v1/chat/x"), ex_broker) /\
  normalizeAuthority (T "API.example.com") (ToLower (T "HTTPS")) = Some ex_host.
Proof.
  assert (proxy ex_options ex_environment (T "HTTPS") (T "API.example.com") (ex_parts "/v1/chat/x") ex_broker
    = (Forwarded ex_host {[T "b_key"]} (ex_rewritten "/v1/chat/x"), ex_broker)) as E by (vm_compute; reflexivity).
  split; [exact E|]. apply (forwarded_credentials_are_authorized _ _ _ _ _ _ _ _ _ _ E).
Defined.

Definition ex_rule : EgressRule :=
  mkRule (T "r1") [] [] EgressProtocolHTTPS [T "*.example.com"] [443] [T "post"] [T "/v1/"] 2 0 [].
Definition ex_ops : list policy_op :=
  replicate 4 (Authorize [] EgressProtocolHTTPS ex_host (T "post") (T "/v1/chat")).

Lemma rule_budget_is_never_exceeded_witness :
  length (granted (mkPolicy [] [ex_rule]) (mkBroker [] [] ∅) ex_ops) = 2%nat /\
  Z.of_nat (length (filter (fun x => x = ex_rule) (granted (mkPolicy [] [ex_rule]) (mkBroker [] [] ∅) ex_ops))) <= 2.
Proof.
  split; [vm_compute; reflexivity|].
  apply (rule_budget_is_never_exceeded (mkPolicy [] [ex_rule]) ex_rule [] [] ex_ops); [reflexivity|].
  vm_compute. discriminate.
Defined.

(** a binding scoped to a path prefix is spent on a request
    whose path leaves that prefix by a dot-dot element: the scope is compared
    with the path as sent, the policy with the cleaned path, and the path is
    forwarded as sent. *)
Theorem path_scope_ignores_dot_segments :
  let lease := ex_lease "b_key" "sk-live" "api.example.com" in
  let path := "/v1/chat/../../admin/keys"%string in
  PathPrefixes lease = [T "/v1/chat"] /\ clean_path (T path) = T "/admin/keys" /\
  pathPrefixMatches (clean_path (T path)) (PathPrefixes lease) = false /\
  match processCredentials (fun _ => 7) ex_broker (ex_parts path) EgressProtocolHTTPS ex_host true with
  | (Ok used, p) =>
      ID lease ∈ used /\ Header p !! T "Authorization" = Some [T "Bearer " ++ Secret lease] /\ Path p = T path
  | _ => False
  end.
Proof.
  split_and!; [vm_compute; reflexivity..|].
  assert (match processCredentials (fun _ => 7) ex_broker (ex_parts "/v1/chat/../../admin/keys") EgressProtocolHTTPS ex_host true with
    | (Ok used, p) => bool_decide (T "b_key" ∈ used
        /\ Header p !! T "Authorization" = Some [T "Bearer " ++ T "sk-live"] /\ Path p = T "/v1/chat/../../admin/keys")
    | _ => false
    end = true) as E by (vm_compute; reflexivity).
  destruct (processCredentials _ _ _ _ _ _) as [[used|] p]; [|done]. by apply bool_decide_eq_true in E.
Qed.
End BrokerProofs.
