(* ===== verification/Replicate.v ===== *)
(** * Shipping and restoring the controller's database

    Translation of [src/internal/control/replicate/shipper.go] and
    [src/internal/control/replicate/restore.go].  A shipper publishes captures
    of the database as immutable objects and moves one pointer to the newest
    manifest by a conditional write; a standby restores what the pointer
    names.

    The object store is shared: [ship_step] is what a shipper does with one
    call to it, so that shippers of several controllers interleave, and a call
    may fail, lose its response, or take effect after its sender gave up.  The
    lease ([CanDecide], [Guard]), the capture and SQLite are outcomes of a
    step. *)

From Stdlib Require Import ZArith Lia Strings.Byte Strings.String Strings.Ascii.
From stdpp Require Import base gmap strings option sorting relations list.
From S2P Require Import Prelude GoStd Wal WriterLease.
#[local] Open Scope Z_scope.

Module Replicate.
Import WriterLease(Options, Prefix, SnapshotInterval, OrphanGrace, MaxManifestBytes, MaxSnapshotBytes, MaxWALBytes,
  RetainManifests, MaxDeletesPerRun, formatVersion).

(** ** Manifests *)

Record ObjectRef := mkRef { Key : string; Size : Z; SHA256 : string }.

Record Manifest := mkManifest {
  Version : Z; MKey : string; Epoch : Z; Sequence : Z; CapturedAt : Z; CommittedAt : Z;
  Snapshot : ObjectRef; WAL : option ObjectRef; WALLineage : string; SourceEventSeq : Z }.

(** [encoding/json] on manifests. *)
Class ManifestCodec := { enc : Manifest -> list byte; dec : list byte -> option Manifest }.

(** [%020d] *)
Fixpoint digits (n : nat) (z : Z) (acc : string) : string :=
  match n with
  | O => acc
  | S n => digits n (z / 10) (String (ascii_of_N (Z.to_N (48 + z mod 10))) acc)
  end.
Definition pad20 (z : Z) : string := digits 20 z EmptyString.

Definition hash (l : list byte) : string := GoStd.EncodeToString (GoStd.Sha256.Sum256 (map byte_val l)).

Definition lower_hex (b : Z) : bool := GoStd.in_range 0x30 0x39 b || GoStd.in_range 0x61 0x66 b.
Definition any_hex (b : Z) : bool := lower_hex b || GoStd.in_range 0x41 0x46 b.

Definition validDigest (value : string) : bool :=
  (String.length value =? 64)%nat && forallb lower_hex (GoStd.string_bytes value).

Inductive ship_error :=
| ErrFenced (what : string)
| ErrNoRecoveryPoint
| ErrCorruptRecoveryPoint (what : string)
| ErrStore
| ErrWAL (e : Wal.wal_error)
| ErrShip (what : string).

Section opts.
Context (o : Options).

Definition epochRoot (epoch : Z) : string := (Prefix o ++ "/epochs/" ++ pad20 epoch ++ "/")%string.
Definition manifestKey (epoch seq : Z) : string := (epochRoot epoch ++ "manifests/" ++ pad20 seq ++ ".json")%string.
Definition snapshotKey (epoch : Z) (sha : string) : string := (epochRoot epoch ++ "snapshots/" ++ sha ++ ".db")%string.
Definition walKey (epoch : Z) (sha : string) : string := (epochRoot epoch ++ "wal/" ++ sha ++ ".wal")%string.
Definition pointerKey : string := (Prefix o ++ "/current.json")%string.

Definition validateManifest (m : Manifest) : result ship_error unit :=
  let s := Snapshot m in
  if negb (Version m =? formatVersion) || (MKey m <>s manifestKey (Epoch m) (Sequence m)) || (Epoch m =? 0)
     || (Sequence m =? 0) || isZeroTime (CapturedAt m) || isZeroTime (CommittedAt m)
     || (CommittedAt m <? CapturedAt m) || (Key s <>s snapshotKey (Epoch m) (SHA256 s)) || (Size s <? 1)
     || (MaxSnapshotBytes o <? Size s) || negb (validDigest (SHA256 s))
  then Err (ErrCorruptRecoveryPoint "invalid manifest")
  else match WAL m with
  | Some w =>
      if (Key w <>s walKey (Epoch m) (SHA256 w)) || (Size w <? Wal.walHeaderBytes) || (MaxWALBytes o <? Size w)
         || negb (validDigest (SHA256 w)) || negb (String.length (WALLineage m) =? 16)%nat
      then Err (ErrCorruptRecoveryPoint "invalid WAL reference")
      else if negb (forallb any_hex (GoStd.string_bytes (WALLineage m)))
      then Err (ErrCorruptRecoveryPoint "WAL lineage")
      else Ok tt
  | None => if WALLineage m <>s "" then Err (ErrCorruptRecoveryPoint "WAL lineage without WAL") else Ok tt
  end.

(** ** The object store *)

Record object := mkObject { content : list byte; etag : nat; lastModified : Z }.

Inductive condition := IfNoneMatch | IfMatch (t : nat).

(** [psha] is the digest and size a store checks a payload against. *)
Record put_request := mkPut { pkey : string; pbody : list byte; pcond : condition; psha : option (string * Z) }.

Record cloud := mkCloud { objects : gmap string object; nextTag : nat; floating : list put_request }.

Definition cond_holds (r : put_request) (s : cloud) : bool :=
  match pcond r, objects s !! pkey r with
  | IfNoneMatch, None => true
  | IfMatch t, Some ob => (t =? etag ob)%nat
  | _, _ => false
  end.

Definition body_ok (r : put_request) : bool :=
  match psha r with
  | Some (h, n) => (hash (pbody r) =s h) && (Z.of_nat (length (pbody r)) =? n)
  | None => true
  end.

Definition write (now : Z) (r : put_request) (s : cloud) : cloud :=
  mkCloud (<[pkey r := mkObject (pbody r) (nextTag s) now]> (objects s)) (S (nextTag s)) (floating s).

(** How a put ends: with its answer, with the answer lost, without reaching the
    store, or reaching it later. *)
Inductive put_io := Answered | Lost | Unsent | Late.

Inductive put_answer := PutOk (tag : nat) | PutPrecondition | PutError.

Definition PutObject (io : put_io) (now : Z) (r : put_request) (s : cloud) : put_answer * cloud :=
  match io with
  | Unsent => (PutError, s)
  | Late => (PutError, mkCloud (objects s) (nextTag s) (r :: floating s))
  | _ =>
      if negb (body_ok r) then (PutError, s)
      else if negb (cond_holds r s) then (match io with Lost => PutError | _ => PutPrecondition end, s)
      else (match io with Lost => PutError | _ => PutOk (nextTag s) end, write now r s)
  end.

Definition osize (ob : object) : Z := Z.of_nat (length (content ob)).

Definition verifyObject (ref : ObjectRef) (max : Z) (s : cloud) : result ship_error unit :=
  match objects s !! Key ref with
  | None => Err ErrStore
  | Some ob =>
      if negb (osize ob =? Size ref) || (osize ob <? 1) || (max <? osize ob)
      then Err (ErrCorruptRecoveryPoint "immutable object size mismatch")
      else if hash (content ob) <>s SHA256 ref
      then Err (ErrCorruptRecoveryPoint "immutable object digest mismatch") else Ok tt
  end.

(** ** The shipper *)

Record Payload := mkPayload { pl_body : list byte; pl_size : Z; pl_sha : string; pl_lineage : string }.

Record Shipper := mkShipper { current : option Manifest; currentETag : option nat; lastFull : Z }.

(** What one step meets: the local clock, the lease's answers to [CanDecide]
    and [Guard] (the epoch, if it may decide), the captures ([None] for a WAL
    whose lineage was reset), whether a read reaches the store and how a put
    ends. *)
Record call := mkCall {
  now : Z; decide_ : option Z; decide_again : option Z; guard : bool;
  full_capture : result string (option Payload * option Payload * Z);
  wal_capture : string -> option (result string (option Payload));
  readable : bool; io : put_io }.

Section codec.
Context `{ManifestCodec}.

Definition readJSON (ob : object) : result ship_error Manifest :=
  if (osize ob <? 1) || (MaxManifestBytes o <? osize ob) then Err (ErrCorruptRecoveryPoint "size")
  else match dec (content ob) with Some m => Ok m | None => Err (ErrCorruptRecoveryPoint "json") end.

Definition refresh (c : call) (s : cloud) (sh : Shipper) : result ship_error unit * Shipper :=
  if negb (readable c) then (Err ErrStore, sh)
  else match objects s !! pointerKey with
  | None => (Err ErrNoRecoveryPoint, mkShipper None None (lastFull sh))
  | Some ob =>
      match readJSON ob with
      | Err e => (Err e, sh)
      | Ok m =>
          match validateManifest m with
          | Err e => (Err e, sh)
          | Ok _ => (Ok tt, mkShipper (Some m) (Some (etag ob)) (lastFull sh))
          end
      end
  end.

(** The arguments of [publish]. *)
Record publication := mkPublication {
  pepoch : Z; eventSeq : Z; psnapshot : option Payload; pwal : option Payload; captured : Z; full : bool }.

Inductive stage :=
| Idle
| PutSnapshot (p : publication) (pl : Payload)
| CheckSnapshot (p : publication) (pl : Payload)
| PutWAL (p : publication) (snap : ObjectRef) (pl : Payload)
| CheckWAL (p : publication) (snap : ObjectRef) (pl : Payload)
| AtGuard (p : publication) (snap : ObjectRef) (wal : option ObjectRef) (lineage : string)
| PutManifest (p : publication) (m : Manifest)
| CheckManifest (p : publication) (m : Manifest)
| AtDecide (p : publication) (m : Manifest)
| PutPointer (p : publication) (m : Manifest).

(** A step ends the call with its result, or leaves it at a stage. *)
Inductive next := Done (r : result ship_error Manifest) | At (st : stage).

Definition full_of (c : call) (epoch seq : Z) : next :=
  match full_capture c with
  | Err e => Done (Err (ErrShip e))
  | Ok (None, _, _) => Done (Err (ErrShip "full source returned no snapshot"))
  | Ok (Some snap, wal, at_) => At (PutSnapshot (mkPublication epoch seq (Some snap) wal at_ true) snap)
  end.

(** [Ship] up to [publish]: one read of the store, then the capture. *)
Definition begin_ship (c : call) (seq : Z) (forceFull : bool) (s : cloud) (sh : Shipper) : Shipper * next :=
  match refresh c s sh with
  | (Err ErrNoRecoveryPoint, sh) | (Ok _, sh) =>
      (sh,
       match decide_ c with
       | None => Done (Err (ErrFenced "lease"))
       | Some epoch =>
           match current sh with
           | None => full_of c epoch seq
           | Some cur =>
               if seq <? SourceEventSeq cur then Done (Err (ErrShip "source event sequence regressed"))
               else if epoch <? Epoch cur then Done (Err (ErrFenced "recovery pointer epoch exceeds lease epoch"))
               else if forceFull || negb (Epoch cur =? epoch)
                       || (SnapshotInterval o <=? time_sub (now c) (lastFull sh))
               then full_of c epoch seq
               else match wal_capture c (WALLineage cur) with
                    | None =>
                        match decide_again c with
                        | None => match full_capture c with
                                  | Ok (Some _, _, _) => Done (Err (ErrFenced "lease"))
                                  | _ => full_of c epoch seq
                                  end
                        | Some epoch => full_of c epoch seq
                        end
                    | Some (Err e) => Done (Err (ErrShip e))
                    | Some (Ok None) => Done (Ok cur)
                    | Some (Ok (Some wal)) =>
                        At (PutWAL (mkPublication epoch seq None (Some wal) (now c) false) (Snapshot cur) wal)
                    end
           end
       end)
  | (Err e, sh) => (sh, Done (Err e))
  end.

Definition invalid_capture (pl : Payload) : bool := (pl_size pl <? 1) || negb (validDigest (pl_sha pl)).

Definition payload_put (key : string) (pl : Payload) : put_request :=
  mkPut key (pl_body pl) IfNoneMatch (Some (pl_sha pl, pl_size pl)).

Definition snap_ref (p : publication) (pl : Payload) : ObjectRef :=
  mkRef (snapshotKey (pepoch p) (pl_sha pl)) (pl_size pl) (pl_sha pl).
Definition wal_ref (p : publication) (pl : Payload) : ObjectRef :=
  mkRef (walKey (pepoch p) (pl_sha pl)) (pl_size pl) (pl_sha pl).

Definition after_snapshot (p : publication) (snap : ObjectRef) : next :=
  match pwal p with
  | Some wal => At (PutWAL p snap wal)
  | None => At (AtGuard p snap None EmptyString)
  end.

(** [putPayload]: where the put goes wrong, where the object existed, and where
    the reference is made. *)
Definition put_payload (c : call) (max : Z) (ref : ObjectRef) (pl : Payload) (s : cloud)
    (existed : next) (stored : next) : cloud * next :=
  if invalid_capture pl then (s, Done (Err (ErrShip "invalid capture")))
  else if max <? pl_size pl then (s, Done (Err (ErrShip "capture exceeds configured bound")))
  else match PutObject (io c) (now c) (payload_put (Key ref) pl) s with
       | (PutError, s) => (s, Done (Err ErrStore))
       | (PutPrecondition, s) => (s, existed)
       | (PutOk _, s) => (s, stored)
       end.

Definition check_payload (c : call) (max : Z) (ref : ObjectRef) (s : cloud) (stored : next) : next :=
  if negb (readable c) then Done (Err ErrStore)
  else match verifyObject ref max s with Err e => Done (Err e) | Ok _ => stored end.

(** The manifest, once the payloads are stored and the lease was renewed. *)
Definition make_manifest (c : call) (p : publication) (snap : ObjectRef) (wal : option ObjectRef) (lineage : string)
    (sh : Shipper) : next :=
  if negb (guard c) then Done (Err (ErrFenced "lease"))
  else
    let '(wal, lineage) :=
      match full p, wal, current sh with
      | false, None, Some cur => (WAL cur, WALLineage cur)
      | _, _, _ => (wal, lineage)
      end in
    match (match current sh with
           | Some cur =>
               if Epoch cur =? pepoch p then
                 if Sequence cur =? maxUint64 then None else Some (Sequence cur + 1)
               else Some 1
           | None => Some 1
           end) with
    | None => Done (Err (ErrShip "manifest sequence exhausted"))
    | Some seq =>
        let m := mkManifest formatVersion (manifestKey (pepoch p) seq) (pepoch p) seq (captured p) (now c) snap wal
                   lineage (eventSeq p) in
        match validateManifest m with
        | Err e => Done (Err e)
        | Ok _ =>
            if MaxManifestBytes o <? Z.of_nat (length (enc m)) then Done (Err (ErrShip "manifest exceeds bound"))
            else At (PutManifest p m)
        end
    end.

Definition ship_step (c : call) (s : cloud) (sh : Shipper) (st : stage) : cloud * Shipper * next :=
  match st with
  | Idle => (s, sh, At Idle)
  | PutSnapshot p pl =>
      let '(s, n) := put_payload c (MaxSnapshotBytes o) (snap_ref p pl) pl s
                       (At (CheckSnapshot p pl)) (after_snapshot p (snap_ref p pl)) in (s, sh, n)
  | CheckSnapshot p pl =>
      (s, sh, check_payload c (MaxSnapshotBytes o) (snap_ref p pl) s (after_snapshot p (snap_ref p pl)))
  | PutWAL p snap pl =>
      let '(s, n) := put_payload c (MaxWALBytes o) (wal_ref p pl) pl s
                       (At (CheckWAL p snap pl)) (At (AtGuard p snap (Some (wal_ref p pl)) (pl_lineage pl))) in
      (s, sh, n)
  | CheckWAL p snap pl =>
      (s, sh, check_payload c (MaxWALBytes o) (wal_ref p pl) s
                (At (AtGuard p snap (Some (wal_ref p pl)) (pl_lineage pl))))
  | AtGuard p snap wal lineage => (s, sh, make_manifest c p snap wal lineage sh)
  | PutManifest p m =>
      match PutObject (io c) (now c) (mkPut (MKey m) (enc m) IfNoneMatch None) s with
      | (PutError, s) => (s, sh, Done (Err ErrStore))
      | (PutPrecondition, s) => (s, sh, At (CheckManifest p m))
      | (PutOk _, s) => (s, sh, At (AtDecide p m))
      end
  | CheckManifest p m =>
      (s, sh,
       if negb (readable c) then Done (Err ErrStore)
       else match objects s !! MKey m with
            | None => Done (Err ErrStore)
            | Some ob =>
                if negb (bool_decide (take (Z.to_nat (MaxManifestBytes o + 1)) (content ob) = enc m))
                then Done (Err (ErrFenced "manifest sequence collision"))
                else At (AtDecide p m)
            end)
  | AtDecide p m =>
      (s, sh, match decide_ c with None => Done (Err (ErrFenced "lease")) | Some _ => At (PutPointer p m) end)
  | PutPointer p m =>
      let cond := match currentETag sh with None => IfNoneMatch | Some t => IfMatch t end in
      match PutObject (io c) (now c) (mkPut pointerKey (enc m) cond None) s with
      | (PutError, s) => (s, sh, Done (Err ErrStore))
      | (PutPrecondition, s) => (s, sh, Done (Err (ErrFenced "recovery pointer")))
      | (PutOk t, s) =>
          (s, mkShipper (Some m) (Some t) (if full p then captured p else lastFull sh), Done (Ok m))
      end
  end.

(** A whole [Ship]: [c] is what it meets up to [publish], [calls] what its
    later steps meet. *)
Fixpoint publish (calls : list call) (s : cloud) (sh : Shipper) (n : next) : cloud * Shipper * next :=
  match calls, n with
  | c :: calls, At st => let '(s, sh, n) := ship_step c s sh st in publish calls s sh n
  | _, _ => (s, sh, n)
  end.

Definition Ship (c : call) (calls : list call) (seq : Z) (forceFull : bool) (s : cloud) (sh : Shipper)
  : cloud * Shipper * next :=
  let '(sh, n) := begin_ship c seq forceFull s sh in publish calls s sh n.

(** ** Collection *)

Definition HasSuffix (s suffix : string) : bool :=
  let n := (String.length s - String.length suffix)%nat in
  (String.length suffix <=? String.length s)%nat && (substring n (String.length suffix) s =s suffix).

Definition Contains (s sub : string) : bool := match index 0 sub s with Some _ => true | None => false end.

Definition epochsRoot : string := (Prefix o ++ "/epochs/")%string.

Definition is_manifest (key : string) : bool := HasSuffix key ".json" && Contains key "/manifests/".

Definition listed (s : cloud) : list (string * object) :=
  filter (fun kv => String.prefix epochsRoot kv.1 = true) (map_to_list (objects s)).

Definition last_n {A} (n : nat) (l : list A) : list A := drop (length l - n) l.

Definition newest (found : list (string * object)) : list string :=
  last_n (Z.to_nat (RetainManifests o)) (sort_by String.ltb (filter (fun k => is_manifest k = true) (map fst found))).

Definition refs_of (key : string) (m : Manifest) : list string :=
  key :: Key (Snapshot m) :: match WAL m with Some w => [Key w] | None => [] end.

(** The keys the retained manifests refer to. *)
Fixpoint mark (s : cloud) (keys : list string) : result ship_error (list string) :=
  match keys with
  | [] => Ok []
  | key :: t =>
      match objects s !! key with
      | None => Err ErrStore
      | Some ob =>
          let? m := readJSON ob in
          let? _ := validateManifest m in
          let? rest := mark s t in
          Ok (refs_of key m ++ rest)
      end
  end.

Definition collectable (cutoff : Z) (referenced : list string) (kv : string * object) : bool :=
  negb (contains referenced kv.1) && negb (isZeroTime (lastModified kv.2)) && (lastModified kv.2 <? cutoff).

Definition candidates (c : call) (cur : Manifest) (found : list (string * object)) (marked : list string) : list string :=
  take (Z.to_nat (MaxDeletesPerRun o))
    (sort_by String.ltb
       (map fst (filter (fun kv => collectable (now c - OrphanGrace o) (refs_of (MKey cur) cur ++ marked) kv = true) found))).

(** [fails n] is whether the n-th deletion fails. *)
Fixpoint sweep (fails : nat -> bool) (n : nat) (keys : list string) (s : cloud) : result (ship_error * nat) nat * cloud :=
  match keys with
  | [] => (Ok n, s)
  | key :: t =>
      if fails n then (Err (ErrStore, n), s)
      else sweep fails (S n) t (mkCloud (delete key (objects s)) (nextTag s) (floating s))
  end.

Definition Collect (c : call) (fails : nat -> bool) (s : cloud) (sh : Shipper)
  : result (ship_error * nat) nat * cloud * Shipper :=
  match refresh c s sh with
  | (Err e, sh) => (Err (e, O), s, sh)
  | (Ok _, sh) =>
      match current sh with
      | None => (Err (ErrNoRecoveryPoint, O), s, sh)
      | Some cur =>
          match mark s (newest (listed s)) with
          | Err e => (Err (e, O), s, sh)
          | Ok marked => let '(r, s) := sweep fails 0 (candidates c cur (listed s) marked) s in (r, s, sh)
          end
      end
  end.

(** The same collection one call to the store at a time, for systems in which
    others change the store in between: the listing, the manifests still to be
    read, the candidates still to be deleted. *)
Inductive collecting :=
| ListEpochs (cur : Manifest)
| MarkManifests (cur : Manifest) (found : list (string * object)) (todo marked : list string)
| SweepKeys (todo : list string) (deleted : nat).

Inductive collect_next := Collected (r : result (ship_error * nat) nat) | CollectAt (st : collecting).

Definition begin_collect (c : call) (s : cloud) (sh : Shipper) : Shipper * collect_next :=
  match refresh c s sh with
  | (Err e, sh) => (sh, Collected (Err (e, O)))
  | (Ok _, sh) =>
      (sh, match current sh with
           | None => Collected (Err (ErrNoRecoveryPoint, O))
           | Some cur => CollectAt (ListEpochs cur)
           end)
  end.

(** A deletion that fails took effect or never will. *)
Definition collect_step (c : call) (s : cloud) (st : collecting) : cloud * collect_next :=
  match st with
  | ListEpochs cur =>
      (s, if negb (readable c) then Collected (Err (ErrStore, O))
          else CollectAt (MarkManifests cur (listed s) (newest (listed s)) []))
  | MarkManifests cur found (key :: todo) marked =>
      (s, if negb (readable c) then Collected (Err (ErrStore, O))
          else match objects s !! key with
               | None => Collected (Err (ErrStore, O))
               | Some ob =>
                   match readJSON ob with
                   | Err e => Collected (Err (e, O))
                   | Ok m =>
                       match validateManifest m with
                       | Err e => Collected (Err (e, O))
                       | Ok _ => CollectAt (MarkManifests cur found todo (marked ++ refs_of key m))
                       end
                   end
               end)
  | MarkManifests cur found [] marked => (s, CollectAt (SweepKeys (candidates c cur found marked) 0))
  | SweepKeys (key :: todo) n =>
      let swept := mkCloud (delete key (objects s)) (nextTag s) (floating s) in
      match io c with
      | Answered => (swept, CollectAt (SweepKeys todo (S n)))
      | Lost => (swept, Collected (Err (ErrStore, n)))
      | Unsent | Late => (s, Collected (Err (ErrStore, n)))
      end
  | SweepKeys [] n => (s, Collected (Ok n))
  end.

(** ** Restoring *)

Definition read_manifest (key : string) (s : cloud) : result ship_error Manifest :=
  match objects s !! key with
  | None => Err ErrStore
  | Some ob => let? m := readJSON ob in let? _ := validateManifest m in Ok m
  end.

Definition loadManifest (s : cloud) : result ship_error Manifest :=
  match objects s !! pointerKey with
  | None => Err ErrNoRecoveryPoint
  | Some _ =>
      let? pointer := read_manifest pointerKey s in
      let? immutable := read_manifest (MKey pointer) s in
      if negb (bool_decide (enc pointer = enc immutable))
      then Err (ErrCorruptRecoveryPoint "pointer does not match immutable manifest")
      else Ok pointer
  end.

Definition fetch (ref : ObjectRef) (max : Z) (s : cloud) : result ship_error (list byte) :=
  if (Size ref <? 1) || (max <? Size ref) then Err (ErrCorruptRecoveryPoint "size")
  else match objects s !! Key ref with
  | None => Err ErrStore
  | Some ob =>
      if negb (osize ob =? Size ref) then Err (ErrCorruptRecoveryPoint "object size mismatch")
      else if hash (content ob) <>s SHA256 ref then Err (ErrCorruptRecoveryPoint "object digest mismatch")
      else Ok (content ob)
  end.

Definition fetch_wal (m : Manifest) (s : cloud) : result ship_error (option (list byte)) :=
  match WAL m with
  | None => Ok None
  | Some w =>
      let? b := fetch w (MaxWALBytes o) s in
      match Wal.validateStoredWAL b (Size w) (MaxWALBytes o) (WALLineage m) with
      | Err e => Err (ErrWAL e)
      | Ok _ => Ok (Some b)
      end
  end.

(** [recover] is SQLite's recovery of a snapshot and a WAL, with its checks. *)
Definition materialize (recover : list byte -> option (list byte) -> option (list byte)) (m : Manifest) (s : cloud)
  : result ship_error (list byte) :=
  let? snap := fetch (Snapshot m) (MaxSnapshotBytes o) s in
  let? wal := fetch_wal m s in
  match recover snap wal with None => Err (ErrCorruptRecoveryPoint "SQLite") | Some db => Ok db end.

Record Recovery := mkRecovery {
  REpoch : Z; PreviousEpoch : Z; RManifest : Manifest; PromotedAt : Z; LastReplicatedAt : Z; LostWindow : Z;
  NeedsReconcile : bool }.

(** The destination: the database file and whether a sidecar file exists. *)
Record destination := mkDestination { db : option (list byte); sidecar : bool }.

(** The rename fails, its directory is not synced, or it completes. *)
Inductive rename_io := RenameFails | RenameUnsynced | RenameOk.

(** [Promote], from what [Acquire] and [Guard] answered; the renaming of the
    stage happens last. *)
Definition Promote (recover : list byte -> option (list byte) -> option (list byte))
    (acquired : result ship_error (Z * Z)) (guarded : option Z) (now : Z) (rename : rename_io) (s : cloud)
    (d : destination) : result ship_error Recovery * destination :=
  match acquired with
  | Err e => (Err e, d)
  | Ok (epoch, previous) =>
      match loadManifest s with
      | Err e => (Err e, d)
      | Ok m =>
          if previous <? Epoch m then (Err (ErrCorruptRecoveryPoint "manifest epoch exceeds predecessor"), d)
          else match materialize recover m s with
          | Err e => (Err e, d)
          | Ok stage =>
              match guarded with
              | None => (Err (ErrFenced "lease"), d)
              | Some g =>
                  if negb (g =? epoch) then (Err (ErrFenced "epoch"), d)
                  else if sidecar d then (Err (ErrShip "destination sidecar exists"), d)
                  else match rename with
                  | RenameFails => (Err (ErrShip "rename"), d)
                  | RenameUnsynced => (Err (ErrShip "sync directory"), mkDestination (Some stage) false)
                  | RenameOk =>
                      (Ok (mkRecovery epoch previous m now (CapturedAt m) (Z.max 0 (time_sub now (CapturedAt m))) true),
                       mkDestination (Some stage) false)
                  end
              end
          end
      end
  end.

(** A promotion that succeeds renewed the lease under the epoch it
    acquired, restored the manifest the pointer names, which no successor of
    the previous holder wrote, and put SQLite's recovery of objects with the
    stated digests in place; one that fails leaves the destination alone,
    except where only the directory was not synced after the rename. *)
Theorem promotion_restores_the_committed_point recover acquired guarded now rename s d :
  let '(r, d') := Promote recover acquired guarded now rename s d in
  match r with
  | Ok rec =>
      acquired = Ok (REpoch rec, PreviousEpoch rec) /\ guarded = Some (REpoch rec) /\
      loadManifest s = Ok (RManifest rec) /\ Epoch (RManifest rec) <= PreviousEpoch rec /\
      0 <= LostWindow rec /\
      exists snap wal db, fetch (Snapshot (RManifest rec)) (MaxSnapshotBytes o) s = Ok snap /\
        hash snap = SHA256 (Snapshot (RManifest rec)) /\ fetch_wal (RManifest rec) s = Ok wal /\
        recover snap wal = Some db /\ d' = mkDestination (Some db) false
  | Err _ => d' = d \/ (rename = RenameUnsynced /\ exists m db, loadManifest s = Ok m /\
      materialize recover m s = Ok db /\ d' = mkDestination (Some db) false)
  end.
Proof.
  unfold Promote. destruct acquired as [[epoch previous]|]; [|by left].
  destruct (loadManifest s) as [m|] eqn:Em; [|by left]. step_if; [by left|].
  destruct (materialize recover m s) as [stage|] eqn:Es; [|by left].
  destruct guarded as [g|]; [|by left]. step_if; [by left|]. step_if; [by left|]. bool_hyp.
  destruct rename; [by left|right; split; [done|]; by exists m, stage|].
  cbn [REpoch PreviousEpoch RManifest LostWindow]. subst g. split_and!; [done|done|done|lia|lia|].
  unfold materialize in Es. destruct (fetch (Snapshot m) _ s) as [snap|] eqn:Ef; [|done]. cbn in Es.
  destruct (fetch_wal m s) as [wal|] eqn:Ew; [|done]. cbn in Es.
  destruct (recover snap wal) as [db|] eqn:Erec; [|done]. injection Es as <-. exists snap, wal, db.
  split_and!; [done| |done|done|done]. unfold fetch in Ef. step_if; [done|]. destruct (objects s !! _) as [ob|]; [|done].
  step_if; [done|]. step_if; [done|]. injection Ef as <-. by bool_hyp.
Qed.

End codec.
End opts.
End Replicate.
