(* ===== verification/ReplicateProofs.v ===== *)
(** * Recovery points

    The recovery point never goes back: shippers of any number of controllers,
    deposed or not, interleave their calls to the store, with requests that
    fail, lose their answer or land late, and with collections that run while
    nothing is being published.  Collections that run beside publications are
    in [CollectProofs]. *)

From Stdlib Require Import ZArith Lia Strings.Byte Strings.String Strings.Ascii.
From stdpp Require Import base gmap strings option sorting relations list.
From S2P Require Import Prelude GoStd Wal WriterLease Replicate.
#[local] Open Scope Z_scope.

Module ReplicateProofs.
Import WriterLease(Options, Prefix, SnapshotInterval, OrphanGrace, MaxManifestBytes, MaxSnapshotBytes, MaxWALBytes,
  RetainManifests, MaxDeletesPerRun, formatVersion).
Import Replicate.

(** JSON decodes what it encoded, and encodes nothing as the empty text. *)
Class ManifestLaws `{ManifestCodec} := {
  dec_enc m : dec (enc m) = Some m;
  enc_nonempty m : enc m <> [] }.

Section shipping.
Context (o : Options) `{ManifestLaws}.

(** ** Keys *)

Lemma prefix_neq (a b : string) : a <> b -> (Prefix o ++ a)%string <> (Prefix o ++ b)%string.
Proof. intros Hab E. apply Hab. by apply (inj (String.append (Prefix o))) in E. Qed.

Lemma append_assoc (a b c : string) : ((a ++ b) ++ c)%string = (a ++ (b ++ c))%string.
Proof. induction a as [|x a IH]; [done|]. exact (f_equal (String x) IH). Qed.

Lemma epoch_key_not_pointer epoch rest : (epochRoot o epoch ++ rest)%string <> pointerKey o.
Proof. unfold epochRoot, pointerKey. rewrite append_assoc. by apply prefix_neq. Qed.

(** ** What the store holds *)

(** [ref] names an object of its size and digest. *)
Definition has (s : cloud) (ref : ObjectRef) : Prop :=
  Key ref <> pointerKey o /\
  exists ob, objects s !! Key ref = Some ob /\ osize ob = Size ref /\ hash (content ob) = SHA256 ref.

Definition payloads (s : cloud) (m : Manifest) : Prop := has s (Snapshot m) /\ forall w, WAL m = Some w -> has s w.

(** [m] can be loaded through its own key and its payloads fetched. *)
Record good (s : cloud) (m : Manifest) : Prop := mkGood {
  good_valid : validateManifest o m = Ok tt;
  good_size : Z.of_nat (length (enc m)) <= MaxManifestBytes o;
  good_object : exists ob, objects s !! MKey m = Some ob /\ content ob = enc m;
  good_payloads : payloads s m }.

Lemma valid_key m : validateManifest o m = Ok tt -> MKey m <> pointerKey o.
Proof.
  unfold validateManifest. step_if; [done|]. bool_hyp. intros _.
  match goal with E : MKey m = _ |- _ => rewrite E end. apply epoch_key_not_pointer.
Qed.

(** The store only grows: an object that is not the pointer stays. *)
Definition grows (s s' : cloud) : Prop :=
  (nextTag s <= nextTag s')%nat /\
  forall k ob, k <> pointerKey o -> objects s !! k = Some ob -> objects s' !! k = Some ob.

Lemma grows_refl s : grows s s.
Proof. by split. Qed.

Lemma grows_has s s' ref : grows s s' -> has s ref -> has s' ref.
Proof. intros [_ Hg] [Hne (ob & ? & ?)]. split; [done|]. exists ob. split; [by apply Hg|done]. Qed.

Lemma grows_payloads s s' m : grows s s' -> payloads s m -> payloads s' m.
Proof. intros Hg [Hs Hw]. split; [by eapply grows_has|]. intros w ?. eapply grows_has; [done|auto]. Qed.

Lemma grows_good s s' m : grows s s' -> good s m -> good s' m.
Proof.
  intros Hg [Hv Hz (ob & Ho & Hc) Hp]. split; [done|done| |by eapply grows_payloads].
  exists ob. split; [|done]. apply Hg; [by apply valid_key|done].
Qed.

(** [m] is a later recovery point than [cur]. *)
Definition newer (cur m : Manifest) : Prop :=
  (Epoch cur < Epoch m \/ (Epoch m = Epoch cur /\ Sequence cur < Sequence m)) /\
  SourceEventSeq cur <= SourceEventSeq m.

(** Where the pointer still carries tag [t], it names [cur]. *)
Definition tagged (s : cloud) (t : nat) (cur : Manifest) : Prop :=
  (t < nextTag s)%nat /\ forall ob, objects s !! pointerKey o = Some ob -> etag ob = t -> content ob = enc cur.

(** A request that may reach the store: it creates an object, or it moves the
    pointer from the version it names to a later, complete recovery point. *)
Definition request_ok (s : cloud) (r : put_request) : Prop :=
  (pkey r <> pointerKey o /\ pcond r = IfNoneMatch) \/
  (pkey r = pointerKey o /\ exists m, pbody r = enc m /\ good s m /\
     match pcond r with
     | IfNoneMatch => True
     | IfMatch t => exists cur, tagged s t cur /\ newer cur m
     end).

(** The pointer names a complete recovery point. *)
Definition cloud_ok (s : cloud) : Prop :=
  (forall k ob, objects s !! k = Some ob -> (etag ob < nextTag s)%nat) /\
  (forall ob, objects s !! pointerKey o = Some ob -> exists m, content ob = enc m /\ good s m) /\
  Forall (request_ok s) (floating s).

(** How the pointer moves. *)
Definition pointer (s : cloud) : option Manifest :=
  match objects s !! pointerKey o with Some ob => dec (content ob) | None => None end.

Definition advances (s s' : cloud) : Prop :=
  match pointer s with
  | Some m => exists m', pointer s' = Some m' /\ (m' = m \/ newer m m')
  | None => True
  end.

Definition evolves (s s' : cloud) : Prop := grows s s' /\ advances s s' /\
  forall t cur, tagged s t cur -> tagged s' t cur.

Lemma advances_same s s' : objects s' !! pointerKey o = objects s !! pointerKey o -> advances s s'.
Proof. unfold advances, pointer. intros ->. destruct (_ !! _); [|done]. destruct (dec _); eauto. Qed.

Lemma store_evolves_refl s : evolves s s.
Proof. split_and!; [apply grows_refl|by apply advances_same|done]. Qed.

Lemma evolves_request s s' r : evolves s s' -> request_ok s r -> request_ok s' r.
Proof.
  intros (Hg & _ & Ht) [?|(Hk & m & Hb & Hm & Hc)]; [by left|right]. split; [done|]. exists m.
  split_and!; [done|by eapply grows_good|]. destruct (pcond r); [done|]. destruct Hc as (cur & ? & ?). exists cur. auto.
Qed.

(** An accepted write. *)
Lemma write_evolves now r s : cloud_ok s -> request_ok s r -> cond_holds r s = true ->
  evolves s (write now r s) /\ cloud_ok (write now r s).
Proof.
  intros (Htag & Hptr & Hfl) Hr Hc.
  assert (grows s (write now r s)) as Hg.
  { split; [cbn; lia|]. intros k ob Hk Hob. cbn. destruct (decide (pkey r = k)) as [<-|]; [|by rewrite lookup_insert_ne].
    exfalso. destruct Hr as [[_ Hi]|[? _]]; [|done]. unfold cond_holds in Hc. by rewrite Hi, Hob in Hc. }
  assert (evolves s (write now r s)) as He.
  { split; [done|]. destruct (decide (pkey r = pointerKey o)) as [Ek|Ek].
    - destruct Hr as [[? _]|(_ & m & Hb & Hm & Hcond)]; [done|]. split.
      + unfold advances, pointer. cbn. rewrite Ek, lookup_insert_eq. cbn. rewrite Hb, dec_enc.
        destruct (objects s !! pointerKey o) as [ob|] eqn:Eo; [|done].
        destruct (dec (content ob)) as [m0|] eqn:Ed; [|done]. exists m. split; [done|]. right.
        unfold cond_holds in Hc. rewrite Ek, Eo in Hc. destruct (pcond r) as [|t]; [done|].
        apply Nat.eqb_eq in Hc as ->. destruct Hcond as (cur & [_ Hcur] & Hn).
        rewrite (Hcur ob Eo eq_refl), dec_enc in Ed. by injection Ed as <-.
      + intros t cur [Ht Hcur]. split; [cbn; lia|]. intros ob. cbn. rewrite Ek, lookup_insert_eq.
        intros [= <-]. cbn. lia.
    - split; [apply advances_same; cbn; by rewrite lookup_insert_ne|].
      intros t cur [Ht Hcur]. split; [cbn; lia|]. intros ob. cbn. rewrite lookup_insert_ne by done. apply Hcur. }
  split; [done|]. split_and!.
  - intros k ob. cbn. destruct (decide (pkey r = k)) as [<-|].
    + rewrite lookup_insert_eq. intros [= <-]. cbn. lia.
    + rewrite lookup_insert_ne by done. intros Hob%Htag. lia.
  - intros ob Hob. destruct (decide (pkey r = pointerKey o)) as [Ek|Ek].
    + destruct Hr as [[? _]|(_ & m & Hb & Hm & _)]; [done|]. cbn in Hob. rewrite Ek, lookup_insert_eq in Hob.
      injection Hob as <-. exists m. split; [done|]. by eapply grows_good.
    + cbn in Hob. rewrite lookup_insert_ne in Hob by done. destruct (Hptr ob Hob) as (m & ? & ?).
      exists m. split; [done|]. by eapply grows_good.
  - apply (Forall_impl _ _ _ Hfl). intros x. by apply evolves_request.
Qed.

Lemma PutObject_ok pio now r s : cloud_ok s -> request_ok s r ->
  let '(a, s') := PutObject pio now r s in
  evolves s s' /\ cloud_ok s' /\
  forall t, a = PutOk t -> body_ok r = true /\ t = nextTag s /\ (t < nextTag s')%nat /\
    objects s' !! pkey r = Some (mkObject (pbody r) t now).
Proof.
  intros Hs Hr. unfold PutObject.
  assert (forall a, (forall t, a <> PutOk t) -> evolves s s /\ cloud_ok s /\
    forall t, a = PutOk t -> body_ok r = true /\ t = nextTag s /\ (t < nextTag s)%nat /\
      objects s !! pkey r = Some (mkObject (pbody r) t now)) as Hsame.
  { intros a Ha. split_and!; [apply store_evolves_refl|done|]. intros t Et. by destruct (Ha t). }
  assert (forall a, (a = PutOk (nextTag s) \/ a = PutError) -> cond_holds r s = true -> body_ok r = true ->
    evolves s (write now r s) /\ cloud_ok (write now r s) /\
    forall t, a = PutOk t -> body_ok r = true /\ t = nextTag s /\ (t < nextTag (write now r s))%nat /\
      objects (write now r s) !! pkey r = Some (mkObject (pbody r) t now)) as Hwrite.
  { intros a Ha Hc Hb. destruct (write_evolves now r s Hs Hr Hc) as [? ?]. split_and!; [done|done|].
    intros t ->. destruct Ha as [[= ->]|[=]]. cbn. rewrite lookup_insert_eq. split_and!; [done|done|lia|done]. }
  destruct pio.
  - step_if; [by apply Hsame|]. step_if; [by apply Hsame|]. bool_hyp. by apply Hwrite; [left| |].
  - step_if; [by apply Hsame|]. step_if; [by apply Hsame|]. bool_hyp. by apply Hwrite; [right| |].
  - by apply Hsame.
  - destruct Hs as (H1 & H2 & H3). split_and!; [|split_and!; [done| |]|done].
    + split_and!; [done|by apply advances_same|done].
    + intros ob Hob. destruct (H2 ob Hob) as (m & ? & [? ? ? ?]). by exists m.
    + constructor; [|apply (Forall_impl _ _ _ H3); intros x Hx]; eapply (evolves_request s); try done;
        split_and!; try done; by apply advances_same.
Qed.

(** ** A shipper *)

Definition shipper_ok (s : cloud) (sh : Shipper) : Prop :=
  match current sh, currentETag sh with
  | None, None => True
  | Some cur, Some t => tagged s t cur
  | _, _ => False
  end.

Definition later_than (sh : Shipper) (m : Manifest) : Prop := forall cur, current sh = Some cur -> newer cur m.

Definition pub_ok (sh : Shipper) (p : publication) : Prop :=
  forall cur, current sh = Some cur -> Epoch cur <= pepoch p /\ SourceEventSeq cur <= eventSeq p.

Definition stage_ok (s : cloud) (sh : Shipper) (st : stage) : Prop :=
  match st with
  | Idle => True
  | PutSnapshot p _ | CheckSnapshot p _ => pub_ok sh p /\ full p = true
  | PutWAL p snap _ | CheckWAL p snap _ => pub_ok sh p /\ has s snap
  | AtGuard p snap wal _ =>
      pub_ok sh p /\ has s snap /\ (forall w, wal = Some w -> has s w) /\ (full p = false -> wal <> None)
  | PutManifest _ m | CheckManifest _ m =>
      validateManifest o m = Ok tt /\ Z.of_nat (length (enc m)) <= MaxManifestBytes o /\ payloads s m /\ later_than sh m
  | AtDecide _ m | PutPointer _ m => good s m /\ later_than sh m
  end.

Definition proc_ok (s : cloud) (q : Shipper * stage) : Prop := shipper_ok s q.1 /\ stage_ok s q.1 q.2.

Definition next_ok (s : cloud) (sh : Shipper) (n : next) : Prop :=
  match n with Done _ => True | At st => stage_ok s sh st end.

Lemma evolves_proc s s' q : evolves s s' -> proc_ok s q -> proc_ok s' q.
Proof.
  destruct q as [sh st]. intros (Hg & _ & Ht) [Hsh Hst]. split; cbn in *.
  - unfold shipper_ok in *. destruct (current sh), (currentETag sh); auto.
  - destruct st; cbn in *; intuition eauto using grows_has, grows_payloads, grows_good.
Qed.

Lemma has_stored s key pl now t : key <> pointerKey o ->
  body_ok (payload_put key pl) = true -> objects s !! key = Some (mkObject (pl_body pl) t now) ->
  has s (mkRef key (pl_size pl) (pl_sha pl)).
Proof.
  intros Hk Hb Ho. apply andb_true_iff in Hb as [Hh%str_eqb_eq Hz%Z.eqb_eq]. split; [done|].
  exists (mkObject (pl_body pl) t now). split_and!; [exact Ho|exact Hz|exact Hh].
Qed.

Lemma has_verified s ref max : Key ref <> pointerKey o -> verifyObject ref max s = Ok tt -> has s ref.
Proof.
  intros Hk. unfold verifyObject. destruct (objects s !! Key ref) as [ob|] eqn:E; [|done].
  step_if; [done|]. step_if; [done|]. bool_hyp. split; [done|]. by exists ob.
Qed.

Lemma put_payload_ok c max ref pl s sh existed stored : cloud_ok s -> Key ref <> pointerKey o ->
  Size ref = pl_size pl -> SHA256 ref = pl_sha pl ->
  (forall s', evolves s s' -> next_ok s' sh existed) ->
  (forall s', evolves s s' -> has s' ref -> next_ok s' sh stored) ->
  let '(s', n) := put_payload c max ref pl s existed stored in
  evolves s s' /\ cloud_ok s' /\ next_ok s' sh n.
Proof.
  intros Hs Hk Hz Hh Hex Hst. unfold put_payload.
  step_if; [by split_and!; [apply store_evolves_refl| |]|]. step_if; [by split_and!; [apply store_evolves_refl| |]|].
  pose proof (PutObject_ok (io c) (now c) (payload_put (Key ref) pl) s Hs ltac:(by left)) as Hp.
  destruct (PutObject _ _ _ _) as [a s']. destruct Hp as (He & Hc & Hok). destruct a; split_and!; try done; [|auto].
  destruct (Hok _ eq_refl) as (Hb & _ & _ & Ho). apply Hst; [done|].
  destruct ref as [k z h]. cbn in *. subst. by eapply has_stored.
Qed.

Lemma check_payload_ok c max ref s sh stored : Key ref <> pointerKey o -> (has s ref -> next_ok s sh stored) ->
  next_ok s sh (check_payload c max ref s stored).
Proof.
  intros Hk Hst. unfold check_payload. step_if; [done|]. destruct (verifyObject ref max s) as [[]|] eqn:Ev; [|done].
  apply Hst. by eapply has_verified.
Qed.

Lemma snap_ref_key p pl : Key (snap_ref o p pl) <> pointerKey o.
Proof. apply epoch_key_not_pointer. Qed.

Lemma wal_ref_key p pl : Key (wal_ref o p pl) <> pointerKey o.
Proof. apply epoch_key_not_pointer. Qed.

Lemma after_snapshot_ok s sh p snap : pub_ok sh p -> full p = true -> has s snap -> next_ok s sh (after_snapshot p snap).
Proof.
  intros Hp Hf Hs. unfold after_snapshot. destruct (pwal p); cbn; [done|]. split_and!; [done|done|done|congruence].
Qed.

Lemma make_manifest_ok c s p snap wal lineage sh : stage_ok s sh (AtGuard p snap wal lineage) ->
  next_ok s sh (make_manifest o c p snap wal lineage sh).
Proof.
  intros (Hp & Hs & Hw & Hf). unfold make_manifest. step_if; [done|].
  assert ((match full p, wal, current sh with
           | false, None, Some cur => (WAL cur, WALLineage cur)
           | _, _, _ => (wal, lineage) end) = (wal, lineage)) as ->.
  { destruct (full p), wal; try done. by destruct (Hf eq_refl). }
  destruct (match current sh with Some cur => _ | None => _ end) as [seq|] eqn:Eseq; [|done]. cbv zeta.
  destruct (validateManifest o _) as [[]|] eqn:Ev; [|done]. step_if; [done|]. bool_hyp.
  cbn [next_ok stage_ok]. split_and!; [done|done|by split|].
  intros cur Hcur. destruct (Hp cur Hcur) as [He Hq]. unfold newer. cbn. split; [|done].
  rewrite Hcur in Eseq. step_if; bool_hyp; [|lia]. step_if; [done|]. injection Eseq as <-. right. lia.
Qed.

Lemma ship_step_ok c s sh st : cloud_ok s -> shipper_ok s sh -> stage_ok s sh st ->
  let '(s', sh', n) := ship_step o c s sh st in
  evolves s s' /\ cloud_ok s' /\ shipper_ok s' sh' /\ next_ok s' sh' n.
Proof.
  intros Hs Hsh Hst.
  assert (forall s', evolves s s' -> shipper_ok s' sh) as Hkeep.
  { intros s' He. by apply (evolves_proc s s' (sh, st) He (conj Hsh Hst)). }
  assert (forall s' st', evolves s s' -> stage_ok s sh st' -> stage_ok s' sh st') as Hmove.
  { intros s' st' He Hst'. by apply (evolves_proc s s' (sh, st') He (conj Hsh Hst')). }
  pose proof (store_evolves_refl s) as Hrefl.
  destruct st as [|p pl|p pl|p snap pl|p snap pl|p snap wal lineage|p m|p m|p m|p m]; cbn [ship_step].
  - done.
  - destruct Hst as [Hp Hf].
    pose proof (put_payload_ok c (MaxSnapshotBytes o) (snap_ref o p pl) pl s sh (At (CheckSnapshot p pl))
      (after_snapshot p (snap_ref o p pl)) Hs (snap_ref_key p pl) eq_refl eq_refl
      (fun _ _ => conj Hp Hf) (fun s1 _ Hw => after_snapshot_ok s1 sh p _ Hp Hf Hw)) as Hput.
    destruct (put_payload _ _ _ _ _ _ _) as [s' n]. destruct Hput as (? & ? & ?). auto.
  - destruct Hst as [Hp Hf]. split_and!; [done..|]. apply check_payload_ok; [apply snap_ref_key|].
    by apply after_snapshot_ok.
  - destruct Hst as [Hp Hf].
    assert (forall s1, evolves s s1 -> has s1 (wal_ref o p pl) ->
      next_ok s1 sh (At (AtGuard p snap (Some (wal_ref o p pl)) (pl_lineage pl)))) as Hnext.
    { intros s1 He Hw. cbn. split_and!; [done| |by intros w [= <-]|done]. eapply grows_has; [apply He|done]. }
    pose proof (put_payload_ok c (MaxWALBytes o) (wal_ref o p pl) pl s sh (At (CheckWAL p snap pl)) _
      Hs (wal_ref_key p pl) eq_refl eq_refl (fun s1 He => Hmove s1 (CheckWAL p snap pl) He (conj Hp Hf)) Hnext) as Hput.
    destruct (put_payload _ _ _ _ _ _ _) as [s' n]. destruct Hput as (? & ? & ?). auto.
  - destruct Hst as [Hp Hf]. split_and!; [done..|]. apply check_payload_ok; [apply wal_ref_key|].
    intros Hw. cbn. split_and!; [done|done|by intros w [= <-]|done].
  - split_and!; [done..|]. by apply make_manifest_ok.
  - destruct Hst as (Hv & Hz & Hpl & Hlt). pose proof (valid_key m Hv) as Hk.
    pose proof (PutObject_ok (io c) (now c) (mkPut (MKey m) (enc m) IfNoneMatch None) s Hs ltac:(by left)) as Hp.
    destruct (PutObject _ _ _ _) as [a s']. destruct Hp as (He & Hc & Hok).
    pose proof (grows_payloads s s' m (proj1 He) Hpl) as Hpl'.
    destruct a as [t| |]; (split; [done|split; [done|split; [by apply Hkeep|]]]); [|by split_and!|done].
    destruct (Hok t eq_refl) as (_ & _ & _ & Ho). split; [|done]. split; [done|done|by eexists|done].
  - destruct Hst as (Hv & Hz & Hpl & Hlt). split_and!; [done..|]. step_if; [done|].
    destruct (objects s !! MKey m) as [ob|] eqn:Eo; [|done]. step_if; [done|]. bool_hyp.
    apply bool_decide_eq_true in E0. split; [|done]. split; [done|done| |done]. exists ob. split; [done|].
    rewrite take_ge in E0; [done|]. destruct (decide (length (content ob) <= Z.to_nat (MaxManifestBytes o + 1))%nat); [done|].
    exfalso. assert (length (enc m) = Z.to_nat (MaxManifestBytes o + 1)) as Hl by (rewrite <- E0, length_take; lia). lia.
  - split_and!; [done..|]. by destruct (decide_ c).
  - destruct Hst as [Hm Hlt].
    assert (request_ok s (mkPut (pointerKey o) (enc m) match currentETag sh with None => IfNoneMatch | Some t => IfMatch t end None)) as Hr.
    { right. split; [done|]. exists m. split_and!; [done|done|]. cbn. unfold shipper_ok in Hsh.
      destruct (current sh) as [cur|] eqn:Ec, (currentETag sh) as [t|]; try done. exists cur. split; [done|]. by apply Hlt. }
    pose proof (PutObject_ok (io c) (now c) _ s Hs Hr) as Hp.
    destruct (PutObject _ _ _ _) as [a s']. destruct Hp as (He & Hc & Hok).
    destruct a as [t| |]; (split; [done|split; [done|split; [|done]]]); [|by apply Hkeep..]. unfold shipper_ok. cbn.
    destruct (Hok t eq_refl) as (_ & -> & Ht & Ho). cbn in Ho. split; [done|]. intros ob. rewrite Ho. by intros [= <-].
Qed.

(** The lease does not answer [CanDecide] with a lower epoch later in a call. *)
Definition lease_monotone (c : call) : Prop :=
  forall e e', decide_ c = Some e -> decide_again c = Some e' -> e <= e'.

Lemma pointer_reads s ob m : cloud_ok s -> objects s !! pointerKey o = Some ob -> dec (content ob) = Some m ->
  content ob = enc m /\ good s m.
Proof. intros (_ & Hp & _) Ho Hd. destruct (Hp ob Ho) as (m' & Ec & Hm). rewrite Ec, dec_enc in Hd. by injection Hd as <-. Qed.

Lemma refresh_ok c s sh : cloud_ok s -> shipper_ok s sh ->
  let '(r, sh') := refresh o c s sh in
  shipper_ok s sh' /\
  ((r = Ok tt \/ r = Err ErrNoRecoveryPoint) -> forall cur, current sh' = Some cur -> good s cur).
Proof.
  intros Hs Hsh. unfold refresh. step_if; [split; [done|]; by intros [|]|].
  destruct (objects s !! pointerKey o) as [ob|] eqn:Eo; [|done].
  unfold readJSON. step_if; [split; [done|]; by intros [|]|].
  destruct (dec (content ob)) as [m|] eqn:Ed; [|split; [done|]; by intros [|]].
  destruct (pointer_reads s ob m Hs Eo Ed) as [Ec Hm]. rewrite (good_valid _ _ Hm).
  split; [|by intros _ cur [= <-]]. cbn. split; [by apply (proj1 Hs) in Eo|]. intros ob'. rewrite Eo. by intros [= <-].
Qed.

Lemma full_of_ok c epoch seq s sh : (forall cur, current sh = Some cur -> Epoch cur <= epoch /\ SourceEventSeq cur <= seq) ->
  next_ok s sh (full_of c epoch seq).
Proof. intros Hcur. unfold full_of. destruct (full_capture c) as [[[[snap|] wal] at_]|]; [|done..]. by split. Qed.

Lemma begin_ship_ok c seq force s sh : cloud_ok s -> shipper_ok s sh -> lease_monotone c ->
  let '(sh', n) := begin_ship o c seq force s sh in shipper_ok s sh' /\ next_ok s sh' n.
Proof.
  intros Hs Hsh Hl. unfold begin_ship. pose proof (refresh_ok c s sh Hs Hsh) as Hr.
  destruct (refresh o c s sh) as [r sh']. destruct Hr as [Hsh' Hg].
  destruct r as [[]|[| | | |e|]]; try by split. 1: specialize (Hg (or_introl eq_refl)). 2: specialize (Hg (or_intror eq_refl)).
  all: split; [done|]; destruct (decide_ c) as [epoch|] eqn:Ed; [|done].
  all: destruct (current sh') as [cur|] eqn:Ec; [|apply full_of_ok; congruence].
  all: step_if; [done|]; step_if; [done|]; bool_hyp.
  all: assert (forall e, epoch <= e -> next_ok s sh' (full_of c e seq)) as Hfull
    by (intros e He; apply full_of_ok; rewrite Ec; intros ? [= <-]; lia).
  all: step_if; [apply Hfull; lia|]; bool_hyp.
  all: destruct (wal_capture c (WALLineage cur)) as [[[wal|]|]|]; try done.
  1,3: split; [intros ? Hc; rewrite Ec in Hc; injection Hc as <-; cbn; lia|]; by destruct (Hg cur eq_refl) as [_ _ _ [? _]].
  all: destruct (decide_again c) as [e|] eqn:Ea; [by apply Hfull, (Hl epoch e)|].
  all: destruct (full_capture c) as [[[[snap|] w] at_]|] eqn:Ef; try done; apply Hfull; lia.
Qed.

(** ** Collection *)

Lemma prefix_append (a b c : string) : String.prefix (a ++ b) (a ++ c) = String.prefix b c.
Proof. 
  induction a as [|x a IH]; [done|]. rewrite <- IH. change (String.prefix (String x (a ++ b)) (String x (a ++ c)) = String.prefix (a ++ b) (a ++ c)).
  cbn [String.prefix]. by destruct (ascii_dec x x).
Qed.

Lemma sweep_keeps fails keys : forall n s, let '(_, s') := sweep fails n keys s in
  nextTag s' = nextTag s /\ floating s' = floating s /\ forall k, k ∉ keys -> objects s' !! k = objects s !! k.
Proof.
  induction keys as [|key keys IH]; intros n s; cbn; [done|]. step_if; [done|].
  specialize (IH (S n) (mkCloud (delete key (objects s)) (nextTag s) (floating s))).
  destruct (sweep _ _ _ _) as [r s']. destruct IH as (? & ? & Hk). split_and!; [done|done|].
  intros k Hn. apply not_elem_of_cons in Hn as [Hne Hn]. rewrite Hk by done. cbn. by rewrite lookup_delete_ne.
Qed.

(** What a collection leaves. *)
Definition keeps (keys : list string) (s s' : cloud) : Prop :=
  nextTag s' = nextTag s /\ floating s' = floating s /\
  (forall k ob, objects s' !! k = Some ob -> objects s !! k = Some ob) /\
  forall k, k ∈ keys -> objects s' !! k = objects s !! k.

Lemma sweep_shrinks fails keys : forall n s k ob, objects (sweep fails n keys s).2 !! k = Some ob -> objects s !! k = Some ob.
Proof.
  induction keys as [|key keys IH]; intros n s k ob; cbn; [done|]. step_if; [done|].
  intros Hk%IH. cbn in Hk. by apply lookup_delete_Some in Hk as [_ ?].
Qed.

Lemma Collect_keeps c fails s sh : let '(_, s', sh') := Collect o c fails s sh in
  sh' = (refresh o c s sh).2 /\ keeps [pointerKey o] s s' /\
  forall ob m, objects s !! pointerKey o = Some ob -> dec (content ob) = Some m -> keeps (refs_of (MKey m) m) s s'.
Proof.
  unfold Collect. destruct (refresh o c s sh) as [[[]|e] sh'] eqn:Er; [|done].
  destruct (current sh') as [cur|] eqn:Ec; [|done]. destruct (mark o s (newest o (listed o s))) as [marked|]; [|done].
  unfold candidates. set (cand := take _ _). pose proof (sweep_keeps fails cand 0 s) as Hk. pose proof (sweep_shrinks fails cand 0 s) as Hs.
  destruct (sweep fails 0 cand s) as [r s']. cbn in Hs. destruct Hk as (Ht & Hf & Hk).
  assert (forall k, k ∈ cand -> String.prefix (epochsRoot o) k = true /\ k ∉ refs_of (MKey cur) cur) as Hcand.
  { intros k Hin. apply elem_of_take in Hin as (i & Hi & _). apply list_elem_of_lookup_2 in Hi.
    rewrite sort_by_perm in Hi. apply list_elem_of_fmap in Hi as ([k' ob] & -> & Hi).
    apply list_elem_of_filter in Hi as [Hc Hl]. apply list_elem_of_filter in Hl as [Hp _]. split; [done|].
    unfold collectable in Hc. cbn [fst] in *. apply andb_true_iff in Hc as [Hc _]. apply andb_true_iff in Hc as [Hc _].
    apply negb_true_iff, not_true_iff_false in Hc. intros Hin. apply Hc, contains_spec, elem_of_app. by left. }
  split; [done|]. split.
  - split_and!; [done|done|by apply Hs|]. intros k Hin%list_elem_of_singleton. subst k. apply Hk. intros Hin%Hcand.
    destruct Hin as [Hp _]. unfold epochsRoot, pointerKey in Hp. by rewrite prefix_append in Hp.
  - intros ob m Eo Ed. unfold refresh in Er. destruct (negb (readable c)); [done|]. rewrite Eo in Er.
    unfold readJSON in Er. destruct (_ || _); [done|]. rewrite Ed in Er.
    destruct (validateManifest o m) as [[]|]; [|done]. injection Er as <-. injection Ec as <-.
    split_and!; [done|done|by apply Hs|]. intros k Hin. apply Hk. intros Hin'%Hcand. by destruct Hin' as [_ Hn].
Qed.

Lemma keeps_good s s' m : keeps (refs_of (MKey m) m) s s' -> good s m -> good s' m.
Proof.
  intros (_ & _ & _ & Hk) [Hv Hz (ob & Ho & Hc) [[Hsk (os & Hs)] Hw]]. split; [done|done| |split].
  - exists ob. split; [|done]. rewrite Hk; [done|]. apply list_elem_of_here.
  - split; [done|]. exists os. rewrite Hk; [done|]. apply list_elem_of_further, list_elem_of_here.
  - intros w Ew. destruct (Hw w Ew) as [Hwk (ow & How)]. split; [done|]. exists ow. rewrite Hk; [done|].
    unfold refs_of. rewrite Ew. do 2 apply list_elem_of_further. apply list_elem_of_here.
Qed.

Lemma Collect_ok c fails s sh : cloud_ok s -> shipper_ok s sh -> floating s = [] ->
  let '(_, s', sh') := Collect o c fails s sh in
  cloud_ok s' /\ advances s s' /\ (forall t cur, tagged s t cur -> tagged s' t cur) /\ shipper_ok s' sh'.
Proof.
  intros Hs Hsh Hf. pose proof (Collect_keeps c fails s sh) as HC. pose proof (refresh_ok c s sh Hs Hsh) as Hr.
  destruct (Collect o c fails s sh) as [[r s'] sh']. destruct HC as (-> & (Et & Ef & Hsub & Hp) & Href).
  specialize (Hp (pointerKey o) ltac:(by apply list_elem_of_singleton)).
  assert (forall t cur, tagged s t cur -> tagged s' t cur) as Htag.
  { intros t cur [? Hcur]. split; [by rewrite Et|]. by rewrite Hp. }
  split; [|split; [by apply advances_same|split; [done|]]].
  - destruct Hs as (H1 & H2 & H3). split_and!.
    + intros k ob Hob%Hsub. rewrite Et. by apply (H1 k).
    + intros ob. rewrite Hp. intros Eo. destruct (H2 ob Eo) as (m & Hc & Hm). exists m. split; [done|].
      eapply keeps_good; [|done]. eapply Href; [done|]. by rewrite Hc, dec_enc.
    + rewrite Ef, Hf. constructor.
  - destruct (refresh o c s sh) as [r' sh']. destruct Hr as [Hsh' _]. cbn. unfold shipper_ok in *.
    destruct (current sh'), (currentETag sh'); auto.
Qed.

(** ** Any number of controllers *)

(** A put whose sender gave up reaches the store. *)
Definition land (now : Z) (i : nat) (s : cloud) : cloud :=
  match floating s !! i with
  | None => s
  | Some r =>
      let s' := mkCloud (objects s) (nextTag s) (delete i (floating s)) in
      if body_ok r && cond_holds r s' then write now r s' else s'
  end.

Lemma land_ok now i s : cloud_ok s -> evolves s (land now i s) /\ cloud_ok (land now i s).
Proof.
  intros Hs. unfold land. destruct (floating s !! i) as [r|] eqn:Ei; [|split; [apply store_evolves_refl|done]].
  set (s' := mkCloud _ _ _). assert (evolves s s') as He by (split_and!; [done|by apply advances_same|done]).
  assert (cloud_ok s') as Hs'.
  { destruct Hs as (H1 & H2 & H3). split_and!; [done| |].
    - intros ob Hob. destruct (H2 ob Hob) as (m & ? & Hm). exists m. split; [done|]. eapply grows_good; [apply He|done].
    - apply Forall_delete, (Forall_impl _ _ _ H3). intros x. by apply evolves_request. }
  assert (request_ok s' r) as Hr.
  { eapply evolves_request; [done|]. destruct Hs as (_ & _ & H3). by apply (Forall_lookup_1 _ _ i _ H3). }
  step_if; [|done]. bool_hyp. destruct (write_evolves now r s' Hs' Hr) as [(Hg & Ha & Ht) ?]; [done|]. split; [|done].
  split_and!; [done..|]. intros t cur Hcur. apply Ht. by apply He.
Qed.

(** The store and the shippers, each with the stage its [Ship] is at. *)
Record sys := mkSys { store : cloud; procs : list (Shipper * stage) }.

Definition empty_sys : sys := mkSys (mkCloud ∅ 1 []) [].

Definition stage_of (n : next) : stage := match n with Done _ => Idle | At st => st end.

(** A controller starts, begins a [Ship] or makes its next call; a put lands
    late; or a collection runs while nothing is being published. *)
Inductive sys_step : sys -> sys -> Prop :=
| sys_start s ps :
    sys_step (mkSys s ps) (mkSys s (ps ++ [(mkShipper None None 0, Idle)]))
| sys_begin s ps i sh c seq force sh' n :
    ps !! i = Some (sh, Idle) -> lease_monotone c -> begin_ship o c seq force s sh = (sh', n) ->
    sys_step (mkSys s ps) (mkSys s (<[i := (sh', stage_of n)]> ps))
| sys_ship s ps i sh st c s' sh' n :
    ps !! i = Some (sh, st) -> ship_step o c s sh st = (s', sh', n) ->
    sys_step (mkSys s ps) (mkSys s' (<[i := (sh', stage_of n)]> ps))
| sys_land s ps now i :
    sys_step (mkSys s ps) (mkSys (land now i s) ps)
| sys_collect s ps i sh st c fails r s' sh' :
    ps !! i = Some (sh, st) -> Forall (fun q => q.2 = Idle) ps -> floating s = [] ->
    Collect o c fails s sh = (r, s', sh') ->
    sys_step (mkSys s ps) (mkSys s' (<[i := (sh', Idle)]> ps)).

Definition sys_ok (x : sys) : Prop := cloud_ok (store x) /\ Forall (proc_ok (store x)) (procs x).

Lemma procs_evolve s s' ps : evolves s s' -> Forall (proc_ok s) ps -> Forall (proc_ok s') ps.
Proof. intros He Hps. apply (Forall_impl _ _ _ Hps). intros q. by apply evolves_proc. Qed.

Lemma proc_next s sh n : shipper_ok s sh -> next_ok s sh n -> proc_ok s (sh, stage_of n).
Proof. intros. split; [done|]. by destruct n. Qed.

Lemma sys_step_ok x y : sys_ok x -> sys_step x y -> sys_ok y /\ advances (store x) (store y).
Proof.
  intros [Hs Hps] Hstep.
  destruct Hstep as [s ps|s ps i sh c seq force sh' n Hi Hl Hb|s ps i sh st c s' sh' n Hi Hb|s ps now i
    |s ps i sh st c fails r s' sh' Hi Hidle Hf Hb]; cbn [store procs] in *.
  - split; [|by apply advances_same]. split; [done|]. apply Forall_app. split; [done|]. by repeat constructor.
  - split; [|by apply advances_same]. split; [done|]. pose proof (Forall_lookup_1 _ _ i _ Hps Hi) as [Hsh _].
    pose proof (begin_ship_ok c seq force s sh Hs Hsh Hl) as Hok. rewrite Hb in Hok. destruct Hok.
    apply Forall_insert; [done|]. by apply proc_next.
  - pose proof (Forall_lookup_1 _ _ i _ Hps Hi) as [Hsh Hst].
    pose proof (ship_step_ok c s sh st Hs Hsh Hst) as Hok. rewrite Hb in Hok. destruct Hok as (He & ? & ? & ?).
    split; [|apply He]. split; [done|]. apply Forall_insert; [by eapply procs_evolve|]. by apply proc_next.
  - destruct (land_ok now i s Hs) as [He ?]. split; [|apply He]. split; [done|]. by eapply procs_evolve.
  - pose proof (Forall_lookup_1 _ _ i _ Hps Hi) as [Hsh _].
    pose proof (Collect_ok c fails s sh Hs Hsh Hf) as Hok. rewrite Hb in Hok. destruct Hok as (? & Ha & Ht & ?).
    split; [|done]. split; [done|]. apply Forall_insert; [|done].
    apply Forall_lookup. intros j [sh0 st0] Hj. pose proof (Forall_lookup_1 _ _ j _ Hps Hj) as [Hsh0 _].
    pose proof (Forall_lookup_1 _ _ j _ Hidle Hj) as E. cbn in E. subst st0. split; [|done].
    cbn in *. unfold shipper_ok in *. destruct (current sh0), (currentETag sh0); auto.
Qed.

Lemma advances_trans s1 s2 s3 : advances s1 s2 -> advances s2 s3 -> advances s1 s3.
Proof.
  unfold advances. destruct (pointer s1) as [m|]; [|done]. intros (m' & -> & Hm). intros (m'' & -> & Hm').
  exists m''. split; [done|]. destruct Hm as [->|Hm], Hm' as [->|Hm']; auto. right. unfold newer in *. lia.
Qed.

Lemma sys_run_ok x y : sys_ok x -> rtc sys_step x y -> sys_ok y /\ advances (store x) (store y).
Proof.
  intros Hx Hr. revert Hx. induction Hr as [x|x y z Hxy _ IH]; intros Hx; [split; [done|by apply advances_same]|].
  destruct (sys_step_ok x y Hx Hxy) as [Hy Ha]. destruct (IH Hy) as [? ?]. split; [done|by eapply advances_trans].
Qed.

Lemma empty_sys_ok : sys_ok empty_sys.
Proof. by split; [split_and!|]. Qed.

Lemma good_fetches s ref max : has s ref -> 1 <= Size ref <= max ->
  exists b, fetch ref max s = Ok b /\ hash b = SHA256 ref.
Proof.
  intros [_ (ob & Ho & Hz & Hh)] Hb. exists (content ob). unfold fetch. rewrite Ho, Hz, Hh, Z.eqb_refl, str_eqb_refl.
  by rewrite (proj2 (Z.ltb_ge _ _)), (proj2 (Z.ltb_ge _ _)) by lia.
Qed.

Lemma good_reads s key ob m : good s m -> objects s !! key = Some ob -> content ob = enc m ->
  read_manifest o key s = Ok m.
Proof.
  intros [Hv Hz _ _] Ho Hc. unfold read_manifest, readJSON, osize. rewrite Ho, Hc. cbn.
  pose proof (enc_nonempty m) as Hne.
  rewrite (proj2 (Z.ltb_ge _ 1)) by (destruct (enc m); [done|cbn; lia]). rewrite (proj2 (Z.ltb_ge _ _)) by lia. cbn.
  by rewrite dec_enc, Hv.
Qed.

Lemma good_sizes s m : good s m ->
  1 <= Size (Snapshot m) <= MaxSnapshotBytes o /\ forall w, WAL m = Some w -> 1 <= Size w <= MaxWALBytes o.
Proof.
  intros [Hv _ _ _]. unfold validateManifest in Hv. step_if; [done|]. bool_hyp. split; [lia|].
  intros w Ew. rewrite Ew in Hv. step_if; [done|]. bool_hyp. unfold Wal.walHeaderBytes in *. lia.
Qed.

(** The objects of a manifest can be fetched, with the digests it states. *)
Definition restorable (s : cloud) (m : Manifest) : Prop :=
  (exists snap, fetch (Snapshot m) (MaxSnapshotBytes o) s = Ok snap /\ hash snap = SHA256 (Snapshot m)) /\
  forall w, WAL m = Some w -> exists b, fetch w (MaxWALBytes o) s = Ok b /\ hash b = SHA256 w.

Lemma loads_recovery_point s :
  (forall ob, objects s !! pointerKey o = Some ob -> exists m, content ob = enc m /\ good s m) ->
  match pointer s with
  | None => loadManifest o s = Err ErrNoRecoveryPoint
  | Some m => loadManifest o s = Ok m /\ restorable s m
  end.
Proof.
  intros Hp. unfold pointer, loadManifest. destruct (objects s !! pointerKey o) as [ob|] eqn:Eo; [|done].
  destruct (Hp ob eq_refl) as (m & Hc & Hm). rewrite Hc, dec_enc.
  destruct (good_sizes s m Hm) as [Hzs Hzw]. rewrite (good_reads s _ ob m Hm Eo Hc). cbn.
  pose proof Hm as [_ _ (obm & Hom & Hcm) [Hsn Hw]]. rewrite (good_reads s _ obm m Hm Hom Hcm). cbn.
  rewrite bool_decide_true by done. split; [done|]. split; [by apply good_fetches|]. intros w Ew. apply good_fetches; auto.
Qed.

(** C26: Once a recovery point was published there is always one, and the
    epoch, the sequence within an epoch and the source event sequence it
    carries never go back, however deposed controllers interleave. *)
Theorem recovery_point_never_regresses x y m : rtc sys_step empty_sys x -> rtc sys_step x y ->
  pointer (store x) = Some m ->
  exists m', pointer (store y) = Some m' /\ (m' = m \/ newer m m').
Proof.
  intros Hx Hy Hm. destruct (sys_run_ok _ _ empty_sys_ok Hx) as [Hok _]. destruct (sys_run_ok _ _ Hok Hy) as [_ Ha].
  unfold advances in Ha. by rewrite Hm in Ha.
Qed.

(** ** A retried publication *)

Lemma make_manifest_fields c p snap wal lineage sh m : make_manifest o c p snap wal lineage sh = At (PutManifest p m) ->
  CommittedAt m = now c /\ Z.of_nat (length (enc m)) <= MaxManifestBytes o /\
  exists seq, MKey m = manifestKey o (pepoch p) seq /\
    (match current sh with
     | Some cur => if Epoch cur =? pepoch p then if Sequence cur =? maxUint64 then None else Some (Sequence cur + 1)
                   else Some 1
     | None => Some 1
     end) = Some seq.
Proof.
  unfold make_manifest. step_if; [done|]. destruct (match full p with true => _ | false => _ end) as [wal' lin'].
  destruct (match current sh with Some cur => _ | None => _ end) as [seq|]; [|done]. cbv zeta.
  destruct (validateManifest o _); [|done]. step_if; [done|]. bool_hyp. intros [= <-]. split_and!; [done|done|].
  by exists seq.
Qed.

(** A publication whose manifest was stored and whose pointer write fails
    before it reaches the store returns an ordinary error and changes nothing;
    but when the same shipper, still the holder, publishes again at another
    instant with nothing failing, its new manifest has the key of the first
    and other bytes, and the call ends with [ErrFenced], on which the server
    gives up the controller. *)
Theorem transient_pointer_failure_fences_the_controller c1 p1 snap1 wal1 lin1 c2 p2 snap2 wal2 lin2 sh s m m' ob c0 c3 c4 :
  make_manifest o c1 p1 snap1 wal1 lin1 sh = At (PutManifest p1 m) ->
  objects s !! MKey m = Some ob -> content ob = enc m -> io c0 = Unsent ->
  make_manifest o c2 p2 snap2 wal2 lin2 sh = At (PutManifest p2 m') ->
  pepoch p2 = pepoch p1 -> now c2 <> now c1 -> io c3 = Answered -> readable c4 = true ->
  publish o [c0] s sh (At (PutPointer p1 m)) = (s, sh, Done (Err ErrStore)) /\
  publish o [c3; c4] s sh (At (PutManifest p2 m')) = (s, sh, Done (Err (ErrFenced "manifest sequence collision"))).
Proof.
  intros Hm Ho Hc Hun Hm' Hp Hn H3 H4. split; [cbn; by rewrite Hun|].
  apply make_manifest_fields in Hm as (Ht & Hl & seq & Hk & Hseq), Hm' as (Ht' & _ & seq' & Hk' & Hseq').
  assert (MKey m' = MKey m) as Ek by (rewrite Hp, Hseq in Hseq'; injection Hseq' as <-; congruence).
  cbn [publish ship_step]. unfold PutObject, cond_holds. rewrite H3. cbn [body_ok psha pcond pkey negb]. rewrite Ek, Ho.
  cbn [publish ship_step negb]. rewrite H4, Ek, Ho. cbn [negb]. rewrite Hc, take_ge by lia. rewrite bool_decide_false; [done|].
  intros He. apply (f_equal dec) in He. rewrite !dec_enc in He. injection He as ->. congruence.
Qed.

(** ** Runs of one controller *)

Lemma publish_steps calls : forall s sh n,
  let '(s', sh', n') := publish o calls s sh n in
  rtc sys_step (mkSys s [(sh, stage_of n)]) (mkSys s' [(sh', stage_of n')]).
Proof.
  induction calls as [|c calls IH]; intros s sh n; [apply rtc_refl|]. destruct n as [r|st]; [apply rtc_refl|].
  cbn [publish]. destruct (ship_step o c s sh st) as [[s1 sh1] n1] eqn:E. specialize (IH s1 sh1 n1).
  destruct (publish o calls s1 sh1 n1) as [[s' sh'] n']. eapply rtc_l; [|exact IH].
  exact (sys_ship s [(sh, st)] 0 sh st c s1 sh1 n1 eq_refl E).
Qed.

Lemma Ship_steps c calls seq force s sh : lease_monotone c ->
  let '(s', sh', n') := Ship o c calls seq force s sh in
  rtc sys_step (mkSys s [(sh, Idle)]) (mkSys s' [(sh', stage_of n')]).
Proof.
  intros Hl. unfold Ship. destruct (begin_ship o c seq force s sh) as [sh1 n1] eqn:E.
  pose proof (publish_steps calls s sh1 n1) as Hp. destruct (publish o calls s sh1 n1) as [[s' sh'] n'].
  eapply rtc_l; [|exact Hp]. exact (sys_begin s [(sh, Idle)] 0 sh c seq force sh1 n1 eq_refl Hl E).
Qed.
End shipping.

(** ** A concrete codec and a run *)

(** Each field is escaped and terminated. *)
Definition put_field (l : list byte) : list byte := flat_map (fun b => [x01; b]) l ++ [x00].

Fixpoint get_field (l : list byte) : option (list byte * list byte) :=
  match l with
  | x00 :: t => Some ([], t)
  | x01 :: b :: t => match get_field t with Some (f, rest) => Some (b :: f, rest) | None => None end
  | _ => None
  end.

Lemma get_put_field l rest : get_field (put_field l ++ rest) = Some (l, rest).
Proof. induction l as [|b l IH]; [done|]. change (get_field (x01 :: b :: (put_field l ++ rest)) = Some (b :: l, rest)). cbn. by rewrite IH. Qed.

(** A manifest as its fields. *)
Definition z_field (z : Z) : list byte := wire z.
Definition s_field (s : string) : list byte := list_byte_of_string s.
Definition ref_fields (r : ObjectRef) : list (list byte) := [s_field (Key r); z_field (Size r); s_field (SHA256 r)].

Definition fields_of (m : Manifest) : list (list byte) :=
  [z_field (Version m); s_field (MKey m); z_field (Epoch m); z_field (Sequence m); z_field (CapturedAt m);
   z_field (CommittedAt m)] ++ ref_fields (Snapshot m) ++ [s_field (WALLineage m); z_field (SourceEventSeq m)] ++
  match WAL m with Some w => ref_fields w | None => [] end.

Definition of_ref (k z h : list byte) : option ObjectRef :=
  match unwire z with Some z => Some (mkRef (string_of_list_byte k) z (string_of_list_byte h)) | None => None end.

Definition of_fields (fs : list (list byte)) : option Manifest :=
  match fs with
  | v :: k :: e :: q :: ca :: co :: sk :: sz :: sh :: lin :: ev :: w =>
      match unwire v, unwire e, unwire q, unwire ca, unwire co, of_ref sk sz sh, unwire ev,
            (match w with [wk; wz; wh] => Some (of_ref wk wz wh) | [] => Some None | _ => None end) with
      | Some v, Some e, Some q, Some ca, Some co, Some sn, Some ev, Some w =>
          Some (mkManifest v (string_of_list_byte k) e q ca co sn w (string_of_list_byte lin) ev)
      | _, _, _, _, _, _, _, _ => None
      end
  | _ => None
  end.

Lemma of_ref_fields k z h : of_ref (s_field k) (z_field z) (s_field h) = Some (mkRef k z h).
Proof. unfold of_ref, s_field, z_field. by rewrite unwire_wire, !string_of_list_byte_of_string. Qed.

Lemma of_fields_of m : of_fields (fields_of m) = Some m.
Proof.
  destruct m as [v k e q ca co [sk sz sh] w lin ev]. unfold fields_of, ref_fields.
  cbn [Version MKey Epoch Sequence CapturedAt CommittedAt Snapshot WALLineage SourceEventSeq WAL Key Size SHA256 app of_fields].
  destruct w as [[wk wz wh]|]; cbn [Key Size SHA256]; rewrite ?of_ref_fields; unfold z_field, s_field;
    by rewrite !unwire_wire, !string_of_list_byte_of_string.
Qed.

Fixpoint get_fields (n : nat) (l : list byte) : list (list byte) :=
  match n with
  | O => []
  | S n => match get_field l with Some (f, rest) => f :: get_fields n rest | None => [] end
  end.

Lemma get_fields_put fs : forall n, (length fs <= n)%nat -> get_fields n (flat_map put_field fs) = fs.
Proof.
  induction fs as [|f fs IH]; intros [|n] Hn; cbn in Hn; try done; [lia|]. cbn [flat_map get_fields].
  rewrite get_put_field. f_equal. apply IH. lia.
Qed.

#[local] Instance sample_codec : ManifestCodec := {|
  enc m := x7b :: flat_map put_field (fields_of m);
  dec l := match l with x7b :: l => of_fields (get_fields 14 l) | _ => None end |}.

#[local] Instance sample_laws : ManifestLaws.
Proof.
  split; [|done]. intros m. change (of_fields (get_fields 14 (flat_map put_field (fields_of m))) = Some m).
  rewrite get_fields_put; [apply of_fields_of|].
  destruct m as [v k e q ca co sn [w|] lin ev]; cbn; lia.
Qed.

Definition sample_options : Options :=
  WriterLease.mkOptions "control/replication" (3 * Second) Second Second (5 * Minute) (5 * Minute) (250 * Millisecond)
    (Z.shiftl 1 20) (Z.shiftl 1 30) (Z.shiftl 512 20) 8 128.

Definition sample_payload (l : list byte) : Payload := mkPayload l (Z.of_nat (length l)) (hash l) EmptyString.

(** A call of the holder of epoch 1 at [t], with the put ending as [pio]. *)
Definition sample_call (t : Z) (l : list byte) (pio : put_io) : call :=
  mkCall t (Some 1) (Some 1) true (Ok (Some (sample_payload l), None, t)) (fun _ => None) true pio.

Definition sample_start : cloud := mkCloud ∅ 1 [].

Definition quiet (t : Z) (l : list byte) : list call := repeat (sample_call t l Answered) 9.

(** A first publication; one whose pointer write is not sent; and a third in
    which nothing fails. *)
Definition first_ship : cloud * Shipper * next :=
  Ship sample_options (sample_call 10 [x01] Answered) (quiet 10 [x01]) 5 true sample_start (mkShipper None None 0).
Definition second_calls : list call := repeat (sample_call 20 [x02] Answered) 4 ++ [sample_call 20 [x02] Unsent].
Definition second_ship : cloud * Shipper * next :=
  Ship sample_options (sample_call 20 [x02] Answered) second_calls 6 true first_ship.1.1 first_ship.1.2.

(** The system of one controller after a [Ship]. *)
Definition alone (r : cloud * Shipper * next) : sys := let '(s, sh, n) := r in mkSys s [(sh, stage_of n)].

Lemma sample_monotone t l pio : lease_monotone (sample_call t l pio).
Proof. intros e e' [= <-] [= <-]. lia. Qed.

Lemma first_steps : rtc (sys_step sample_options) empty_sys (alone first_ship).
Proof.
  eapply rtc_l; [apply (sys_start sample_options)|].
  pose proof (Ship_steps sample_options (sample_call 10 [x01] Answered) (quiet 10 [x01]) 5 true sample_start
    (mkShipper None None 0) (sample_monotone _ _ _)) as Hs.
  unfold first_ship, alone. by destruct (Ship _ _ _ _ _ _ _) as [[s' sh'] n'].
Qed.

Definition third_ship : cloud * Shipper * next :=
  Ship sample_options (sample_call 20 [x02] Answered) (quiet 20 [x02]) 6 true first_ship.1.1 first_ship.1.2.

Definition at_sequence (n : Z) (x : sys) : bool :=
  match pointer sample_options (store x) with Some m => Sequence m =? n | None => false end.

Lemma first_idle : stage_of first_ship.2 = Idle.
Proof. vm_compute. reflexivity. Qed.

Lemma third_steps : rtc (sys_step sample_options) (alone first_ship) (alone third_ship).
Proof.
  pose proof (Ship_steps sample_options (sample_call 20 [x02] Answered) (quiet 20 [x02]) 6 true first_ship.1.1
    first_ship.1.2 (sample_monotone _ _ _)) as Hs.
  unfold alone. pose proof first_idle as Hi. unfold third_ship. destruct first_ship as [[s sh] n]. cbn [fst snd] in *.
  rewrite Hi. by destruct (Ship _ _ _ _ _ _ _) as [[s' sh'] n'].
Qed.

Lemma recovery_point_never_regresses_witness :
  exists m, pointer sample_options (store (alone first_ship)) = Some m /\ at_sequence 2 (alone third_ship) = true /\
    exists m', pointer sample_options (store (alone third_ship)) = Some m' /\ (m' = m \/ newer m m').
Proof.
  destruct (pointer sample_options (store (alone first_ship))) as [m|] eqn:E.
  2: { exfalso. revert E. vm_compute. discriminate. }
  exists m. split; [reflexivity|]. split; [vm_compute; reflexivity|].
  exact (recovery_point_never_regresses sample_options _ _ m first_steps third_steps E).
Defined.

(** The publication of the second snapshot, made by [make_manifest] at [t]. *)
Definition sample_publication (t : Z) : publication := mkPublication 1 6 (Some (sample_payload [x02])) None t true.
Definition sample_ref : ObjectRef := snap_ref sample_options (sample_publication 20) (sample_payload [x02]).
Definition sample_next (t : Z) : next :=
  make_manifest sample_options (sample_call t [x02] Answered) (sample_publication t) sample_ref None EmptyString first_ship.1.2.
Definition sample_manifest (t : Z) : Manifest :=
  match sample_next t with
  | At (PutManifest _ m) => m
  | _ => mkManifest 0 EmptyString 0 0 0 0 (mkRef EmptyString 0 EmptyString) None EmptyString 0
  end.

Definition stored_manifest : object := default (mkObject [] 0 0) (objects second_ship.1.1 !! MKey (sample_manifest 20)).

Definition fenced_result (n : next) : bool := match n with Done (Err (ErrFenced _)) => true | _ => false end.
Definition store_error (n : next) : bool := match n with Done (Err ErrStore) => true | _ => false end.

Lemma transient_pointer_failure_fences_the_controller_witness :
  store_error second_ship.2 = true /\
  fenced_result (Ship sample_options (sample_call 30 [x02] Answered) (quiet 30 [x02]) 6 false
                   second_ship.1.1 second_ship.1.2).2 = true /\
  publish sample_options [sample_call 20 [x02] Unsent] second_ship.1.1 first_ship.1.2
      (At (PutPointer (sample_publication 20) (sample_manifest 20)))
    = (second_ship.1.1, first_ship.1.2, Done (Err ErrStore)) /\
  publish sample_options [sample_call 30 [x02] Answered; sample_call 30 [x02] Answered] second_ship.1.1 first_ship.1.2
      (At (PutManifest (sample_publication 30) (sample_manifest 30)))
    = (second_ship.1.1, first_ship.1.2, Done (Err (ErrFenced "manifest sequence collision"))).
Proof.
  split; [vm_compute; reflexivity|]. split; [vm_compute; reflexivity|].
  apply (transient_pointer_failure_fences_the_controller sample_options (sample_call 20 [x02] Answered)
    (sample_publication 20) sample_ref None EmptyString (sample_call 30 [x02] Answered) (sample_publication 30) sample_ref
    None EmptyString first_ship.1.2 second_ship.1.1 (sample_manifest 20) (sample_manifest 30) stored_manifest
    (sample_call 20 [x02] Unsent) (sample_call 30 [x02] Answered) (sample_call 30 [x02] Answered));
    first [discriminate|vm_compute; reflexivity].
Defined.
End ReplicateProofs.
