(* ===== verification/CollectProofs.v ===== *)
(** * Collection beside publication

    [Shipper.Collect] of [src/internal/control/replicate/shipper.go] takes no
    lease and makes many calls to the store, while other controllers publish.
    The system of this file interleaves the calls of a collection with those
    of any number of publications, over a common time; the published recovery
    point stays restorable because unreferenced objects younger than the
    orphan grace are left alone, as long as a publication moves the pointer,
    and a collection reads its cutoff, within times that together fit in the
    grace.  The last section shows that the first of the two is needed. *)

From Stdlib Require Import ZArith Lia Strings.Byte Strings.String Strings.Ascii.
From stdpp Require Import base gmap strings option sorting relations list.
From S2P Require Import Prelude GoStd Wal WriterLease Replicate ReplicateProofs.
#[local] Open Scope Z_scope.

Module CollectProofs.
Import WriterLease(Options, Prefix, SnapshotInterval, OrphanGrace, MaxClockSkew, MaxManifestBytes, MaxSnapshotBytes,
  MaxWALBytes, RetainManifests, MaxDeletesPerRun, formatVersion).
Import Replicate ReplicateProofs.

(** ** The calls of a collection, undisturbed *)

Section alone.
Context (o : Options) `{ManifestCodec}.

Fixpoint collect_calls (calls : list call) (s : cloud) (n : collect_next) : cloud * collect_next :=
  match calls, n with
  | c :: calls, CollectAt st => let '(s, n) := collect_step o c s st in collect_calls calls s n
  | _, _ => (s, n)
  end.

(** A call like [c] whose put or deletion ends as [pio]. *)
Definition with_io (pio : put_io) (c : call) : call :=
  mkCall (now c) (decide_ c) (decide_again c) (guard c) (full_capture c) (wal_capture c) true pio.

Definition sweep_calls (fails : nat -> bool) (n k : nat) (c : call) : list call :=
  map (fun i => with_io (if fails i then Unsent else Answered) c) (seq n k).

Lemma sweep_alone fails c keys : forall n s,
  collect_calls (sweep_calls fails n (S (length keys)) c) s (CollectAt (SweepKeys keys n))
  = ((sweep fails n keys s).2, Collected (sweep fails n keys s).1).
Proof.
  induction keys as [|key keys IH]; intros n s; [done|].
  change (sweep_calls fails n (S (length (key :: keys))) c)
    with (with_io (if fails n then Unsent else Answered) c :: sweep_calls fails (S n) (S (length keys)) c).
  cbn [collect_calls collect_step io with_io sweep]. destruct (fails n); [done|]. apply IH.
Qed.

Lemma mark_alone c cur found keys rest s : forall marked,
  collect_calls (repeat (with_io Answered c) (S (length keys)) ++ rest) s (CollectAt (MarkManifests cur found keys marked))
  = match mark o s keys with
    | Ok l => collect_calls rest s (CollectAt (SweepKeys (candidates o c cur found (marked ++ l)) 0))
    | Err e => (s, Collected (Err (e, O)))
    end.
Proof.
  assert (forall calls r, collect_calls calls s (Collected r) = (s, Collected r)) as Hdone by (by intros []).
  induction keys as [|key keys IH]; intros marked; [cbn; by rewrite app_nil_r|].
  change (repeat (with_io Answered c) (S (length (key :: keys))) ++ rest)
    with (with_io Answered c :: repeat (with_io Answered c) (S (length keys)) ++ rest).
  cbn [collect_calls collect_step with_io readable negb mark].
  destruct (objects s !! key) as [ob|]; [|apply Hdone]. destruct (readJSON o ob) as [m|e]; [|apply Hdone].
  destruct (validateManifest o m) as [[]|e]; [|apply Hdone]. rewrite IH.
  destruct (mark o s keys); [|done]. by rewrite app_assoc.
Qed.

(** [Collect] is what its calls do when nothing comes in between. *)
Theorem collection_without_interference c fails s sh : exists calls,
  let '(sh', n) := begin_collect o c s sh in
  let '(s', n') := collect_calls calls s n in
  exists r, n' = Collected r /\ Collect o c fails s sh = (r, s', sh').
Proof.
  unfold Collect, begin_collect. destruct (refresh o c s sh) as [[[]|e] sh'] eqn:Er; [|by exists []; eexists].
  destruct (current sh') as [cur|]; [|by exists []; eexists].
  set (keys := newest o (listed o s)). set (n := match mark o s keys with Ok l => length (candidates o c cur (listed o s) l) | _ => O end).
  exists (with_io Answered c :: (repeat (with_io Answered c) (S (length keys)) ++ sweep_calls fails 0 (S n) c)).
  cbn [collect_calls collect_step with_io readable negb]. fold keys. rewrite mark_alone. subst n.
  destruct (mark o s keys) as [l|e]; [|by eexists]. cbn [app]. rewrite sweep_alone.
  destruct (sweep fails 0 (candidates o c cur (listed o s) l) s) as [r s']. by exists r.
Qed.
End alone.

(** ** Controllers that publish and collect at once *)

Section interleaved.
Context (o : Options) `{ManifestLaws}.

(** How long after the oldest object it relies on a publication still moves the
    pointer, and how long after its reading of the pointer a collection reads
    its cutoff. *)
Context (ship_time collect_time : Z).

#[local] Notation skew := (MaxClockSkew o).

(** A controller holds its mutex for a whole [Ship] or [Collect].  A publication
    carries the time since which the objects it relies on are stored, a
    collection the time it read the pointer. *)
Inductive activity :=
| Resting
| Shipping (since : Z) (st : stage)
| Collecting (since : Z) (st : collecting).

Definition shipping (since : Z) (n : next) : activity :=
  match n with At st => Shipping since st | Done _ => Resting end.

Definition gathering (since : Z) (n : collect_next) : activity :=
  match n with CollectAt st => Collecting since st | Collected _ => Resting end.

Definition cur_refs (sh : Shipper) : list string :=
  match current sh with Some cur => refs_of (MKey cur) cur | None => [] end.

(** The object a publication found in the store instead of putting it. *)
Definition found_key (st : stage) : option string :=
  match st with
  | CheckSnapshot p pl => Some (Key (snap_ref o p pl))
  | CheckWAL p _ pl => Some (Key (wal_ref o p pl))
  | CheckManifest _ m => Some (MKey m)
  | _ => None
  end.

(** An object found, unless the recovery point it starts from names it, is
    relied on since it was stored. *)
Definition since_after (s : cloud) (sh : Shipper) (since : Z) (st : stage) : Z :=
  match found_key st with
  | Some k =>
      match objects s !! k with
      | Some ob => if contains (cur_refs sh) k then since else Z.min since (lastModified ob)
      | None => since
      end
  | None => since
  end.

Definition moves_pointer (st : stage) : bool := match st with PutPointer _ _ => true | _ => false end.
Definition reads_cutoff (st : collecting) : bool := match st with MarkManifests _ _ [] _ => true | _ => false end.

(** The common time, the store, the [since] of each put in flight, and the
    controllers. *)
Record world := mkWorld { clock : Z; bucket : cloud; sent : list Z; team : list (Shipper * activity) }.

Definition empty_world : world := mkWorld 0 (mkCloud ∅ 1 []) [] [].

Definition sent_after (s s' : cloud) (since : Z) (l : list Z) : list Z :=
  if (length (floating s) <? length (floating s'))%nat then since :: l else l.

Definition near (T t : Z) : Prop := T - skew <= t <= T + skew.

Definition is_collecting (q : Shipper * activity) : bool := match q.2 with Collecting _ _ => true | _ => false end.

(** Time passes; a controller starts or restarts, begins a [Ship] or makes its
    next call; a put in flight lands; a controller begins a collection, when no
    other runs, or makes its next call.  Clocks are within the configured skew
    of the common time. *)
Inductive world_step : world -> world -> Prop :=
| w_tick T T' s l ps : T <= T' -> world_step (mkWorld T s l ps) (mkWorld T' s l ps)
| w_start T s l ps : world_step (mkWorld T s l ps) (mkWorld T s l (ps ++ [(mkShipper None None 0, Resting)]))
| w_restart T s l ps i : world_step (mkWorld T s l ps) (mkWorld T s l (<[i := (mkShipper None None 0, Resting)]> ps))
| w_begin T s l ps i sh c seq force sh' n :
    ps !! i = Some (sh, Resting) -> begin_ship o c seq force s sh = (sh', n) ->
    world_step (mkWorld T s l ps) (mkWorld T s l (<[i := (sh', shipping T n)]> ps))
| w_ship T s l ps i sh since st c s' sh' n :
    ps !! i = Some (sh, Shipping since st) -> near T (now c) ->
    (moves_pointer st = true -> T <= since + ship_time) -> ship_step o c s sh st = (s', sh', n) ->
    world_step (mkWorld T s l ps)
      (mkWorld T s' (sent_after s s' since l) (<[i := (sh', shipping (since_after s sh since st) n)]> ps))
| w_land T s l ps t i r since :
    floating s !! i = Some r -> l !! i = Some since -> near T t ->
    (pkey r = pointerKey o -> T <= since + ship_time) ->
    world_step (mkWorld T s l ps) (mkWorld T (land t i s) (delete i l) ps)
| w_collect T s l ps i sh c sh' n :
    ps !! i = Some (sh, Resting) -> Forall (fun q => is_collecting q = false) ps ->
    begin_collect o c s sh = (sh', n) ->
    world_step (mkWorld T s l ps) (mkWorld T s l (<[i := (sh', gathering T n)]> ps))
| w_sweep T s l ps i sh since st c s' n :
    ps !! i = Some (sh, Collecting since st) -> near T (now c) ->
    (reads_cutoff st = true -> T <= since + collect_time) -> collect_step o c s st = (s', n) ->
    world_step (mkWorld T s l ps) (mkWorld T s' l (<[i := (sh, gathering since n)]> ps)).

(** ** What a publication relies on *)

(** A key and what the object there must be. *)
Definition need : Type := string * (object -> Prop).

Definition ref_need (ref : ObjectRef) : need :=
  (Key ref, fun ob => osize ob = Size ref /\ hash (content ob) = SHA256 ref).

Definition payload_needs (m : Manifest) : list need :=
  ref_need (Snapshot m) :: match WAL m with Some w => [ref_need w] | None => [] end.

Definition all_needs (m : Manifest) : list need := (MKey m, fun ob => content ob = enc m) :: payload_needs m.

Definition needs (st : stage) : list need :=
  match st with
  | Idle | PutSnapshot _ _ | CheckSnapshot _ _ => []
  | PutWAL _ snap _ | CheckWAL _ snap _ => [ref_need snap]
  | AtGuard _ snap wal _ => ref_need snap :: match wal with Some w => [ref_need w] | None => [] end
  | PutManifest _ m | CheckManifest _ m => payload_needs m
  | AtDecide _ m | PutPointer _ m => all_needs m
  end.

Definition shape (st : stage) : Prop :=
  match st with
  | PutSnapshot p _ | CheckSnapshot p _ => full p = true
  | AtGuard p _ wal _ => full p = false -> wal <> None
  | PutManifest _ m | CheckManifest _ m | AtDecide _ m | PutPointer _ m =>
      validateManifest o m = Ok tt /\ Z.of_nat (length (enc m)) <= MaxManifestBytes o
  | _ => True
  end.

(** The object is there, and the recovery point the publication starts from
    names it or it was stored since. *)
Definition met (s : cloud) (sh : Shipper) (since : Z) (nd : need) : Prop :=
  nd.1 <> pointerKey o /\
  exists ob, objects s !! nd.1 = Some ob /\ nd.2 ob /\ (nd.1 ∈ cur_refs sh \/ since - skew <= lastModified ob).

(** The publication may still succeed: it is in time, and the pointer is the
    one it read. *)
Definition live (T : Z) (s : cloud) (sh : Shipper) (since : Z) : Prop :=
  T <= since + ship_time /\
  match currentETag sh with
  | None => objects s !! pointerKey o = None
  | Some t => exists ob, objects s !! pointerKey o = Some ob /\ etag ob = t
  end.

Record publishing (T : Z) (s : cloud) (sh : Shipper) (since : Z) (st : stage) : Prop := mkPublishing {
  pub_since : since <= T;
  pub_shipper : shipper_ok o s sh;
  pub_shape : shape st;
  pub_needs : live T s sh since -> Forall (met s sh since) (needs st) }.

Definition pointer_put (sh : Shipper) (m : Manifest) : put_request :=
  mkPut (pointerKey o) (enc m) match currentETag sh with None => IfNoneMatch | Some t => IfMatch t end None.

Definition in_flight (T : Z) (s : cloud) (r : put_request) (since : Z) : Prop :=
  (pkey r <> pointerKey o /\ pcond r = IfNoneMatch) \/
  exists sh p m, r = pointer_put sh m /\ publishing T s sh since (PutPointer p m).

Definition store_ok (s : cloud) : Prop :=
  (forall k ob, objects s !! k = Some ob -> (etag ob < nextTag s)%nat) /\
  forall ob, objects s !! pointerKey o = Some ob -> exists m, content ob = enc m /\ good o s m.

(** ** How others change the store *)

(** The pointer keeps its object or gets one with a new tag. *)
Definition moves (s s' : cloud) : Prop :=
  (nextTag s <= nextTag s')%nat /\
  (objects s' !! pointerKey o = objects s !! pointerKey o \/
   exists ob, objects s' !! pointerKey o = Some ob /\ (nextTag s <= etag ob)%nat).

Lemma moves_tagged s s' t cur : moves s s' -> tagged o s t cur -> tagged o s' t cur.
Proof.
  intros [Hn Hp] [Ht Hc]. split; [lia|]. intros ob Ho Et. destruct Hp as [E|(ob' & E & ?)].
  - rewrite E in Ho. by apply Hc.
  - rewrite E in Ho. injection Ho as <-. lia.
Qed.

Lemma moves_shipper s s' sh : moves s s' -> shipper_ok o s sh -> shipper_ok o s' sh.
Proof. unfold shipper_ok. destruct (current sh), (currentETag sh); try done. apply moves_tagged. Qed.

Lemma live_before T T' s s' sh since : moves s s' -> T <= T' -> shipper_ok o s sh -> live T' s' sh since ->
  live T s sh since.
Proof.
  intros [Hn Hp] Ht Hsh [Htime Hl]. split; [lia|]. unfold shipper_ok in Hsh.
  destruct (currentETag sh) as [t|], (current sh) as [cur|]; try done.
  - destruct Hl as (ob & Ho & Et). destruct Hp as [E|(ob' & E & ?)]; [exists ob; by rewrite <- E|].
    rewrite E in Ho. injection Ho as ->. destruct Hsh as [Hlt _]. lia.
  - destruct Hp as [E|(ob' & E & ?)]; congruence.
Qed.

Lemma publishing_kept T T' s s' sh since st : moves s s' -> T <= T' ->
  (live T' s' sh since -> forall k ob, k <> pointerKey o -> objects s !! k = Some ob ->
     (k ∈ cur_refs sh \/ since - skew <= lastModified ob) -> objects s' !! k = Some ob) ->
  publishing T s sh since st -> publishing T' s' sh since st.
Proof.
  intros Hm Ht Hk [Hs Hsh Hshape Hn]. split; [lia|by eapply moves_shipper|done|]. intros Hl.
  apply (Forall_impl _ _ _ (Hn (live_before _ _ _ _ _ _ Hm Ht Hsh Hl))). intros nd (Hne & ob & Ho & Hp & Hy).
  split; [done|]. exists ob. split_and!; [by apply Hk|done|done].
Qed.

(** A change in which nothing but the pointer is overwritten, and the pointer
    moves only to a recovery point made of objects the last one named or that
    are young. *)
Record change (T : Z) (s s' : cloud) : Prop := mkChange {
  ch_moves : moves s s';
  ch_grows : grows o s s';
  ch_refs pob m : objects s !! pointerKey o = Some pob -> content pob = enc m ->
    exists pob' m', objects s' !! pointerKey o = Some pob' /\ content pob' = enc m' /\
      forall k, k ∈ refs_of (MKey m') m' -> k ∈ refs_of (MKey m) m \/
        k <> pointerKey o /\ exists ob, objects s' !! k = Some ob /\ T - ship_time - skew <= lastModified ob }.

Lemma change_same T s s' : objects s' = objects s -> nextTag s' = nextTag s -> change T s s'.
Proof.
  intros Eo Et. split.
  - split; [lia|left; by rewrite Eo].
  - split; [lia|]. by rewrite Eo.
  - intros pob m Ho Hc. exists pob, m. rewrite Eo. auto.
Qed.

Lemma change_publishing T s s' sh since st : change T s s' -> publishing T s sh since st -> publishing T s' sh since st.
Proof. intros [Hm [_ Hg] _]. apply publishing_kept; [done|lia|]. intros _ k ob Hne Ho _. by apply Hg. Qed.

Lemma change_in_flight T s s' r since : change T s s' -> in_flight T s r since -> in_flight T s' r since.
Proof. intros Hc [?|(sh & p & m & -> & Hp)]; [by left|right]. exists sh, p, m. split; [done|by eapply change_publishing]. Qed.

(** ** Writes *)

Lemma write_tags now r s : store_ok s -> forall k ob, objects (write now r s) !! k = Some ob -> (etag ob < nextTag (write now r s))%nat.
Proof.
  intros [Ht _] k ob. cbn. destruct (decide (pkey r = k)) as [<-|].
  - rewrite lookup_insert_eq. intros [= <-]. cbn. lia.
  - rewrite lookup_insert_ne by done. intros Ho%Ht. lia.
Qed.

Lemma write_object T now r s : pkey r <> pointerKey o -> pcond r = IfNoneMatch -> store_ok s -> cond_holds r s = true ->
  change T s (write now r s) /\ store_ok (write now r s).
Proof.
  intros Hk Hc Hs Hcond. unfold cond_holds in Hcond. rewrite Hc in Hcond.
  destruct (objects s !! pkey r) as [?|] eqn:En; [done|].
  assert (objects (write now r s) !! pointerKey o = objects s !! pointerKey o) as Ep by (cbn; by rewrite lookup_insert_ne).
  assert (grows o s (write now r s)) as Hg.
  { split; [cbn; lia|]. intros k ob _ Ho. cbn. rewrite lookup_insert_ne; [done|congruence]. }
  split; [split; [split; [cbn; lia|by left]|done|]|split; [by apply write_tags|]].
  - intros pob m Ho Hm. exists pob, m. rewrite Ep. auto.
  - intros ob. rewrite Ep. intros Ho. destruct (proj2 Hs ob Ho) as (m & ? & ?). exists m. split; [done|by eapply grows_good].
Qed.

(** All that a manifest needs makes a recovery point. *)
Lemma met_good s sh since m : validateManifest o m = Ok tt -> Z.of_nat (length (enc m)) <= MaxManifestBytes o ->
  Forall (met s sh since) (all_needs m) -> good o s m.
Proof.
  intros Hv Hz Hn. apply Forall_cons in Hn as [(Hk & ob & Ho & Hc & _) Hn]. apply Forall_cons in Hn as [Hsn Hw].
  assert (forall ref, met s sh since (ref_need ref) -> has o s ref) as Hhas.
  { intros ref (Hne & ob' & Ho' & Hp & _). split; [exact Hne|]. by exists ob'. }
  split; [done|done|by exists ob|]. split; [by apply Hhas|]. intros w Ew. rewrite Ew in Hw.
  apply Forall_cons in Hw as [Hw _]. by apply Hhas.
Qed.

Lemma all_needs_keys s sh since m : Forall (met s sh since) (all_needs m) ->
  forall k, k ∈ refs_of (MKey m) m ->
    k <> pointerKey o /\ (k ∈ cur_refs sh \/ exists ob, objects s !! k = Some ob /\ since - skew <= lastModified ob).
Proof.
  intros Hn k Hk. assert (exists nd, nd ∈ all_needs m /\ nd.1 = k) as (nd & Hin & <-).
  { unfold refs_of, all_needs, payload_needs in *. destruct (WAL m) as [w|]; set_unfold; naive_solver. }
  rewrite Forall_forall in Hn. destruct (Hn nd Hin) as (Hne & ob & Ho & _ & [?|?]); (split; [done|]); [by left|right; by exists ob].
Qed.

Lemma live_put T s sh since m : T <= since + ship_time -> cond_holds (pointer_put sh m) s = true -> live T s sh since.
Proof.
  intros Ht Hc. split; [done|]. unfold cond_holds in Hc. cbn in Hc.
  destruct (currentETag sh) as [t|], (objects s !! pointerKey o) as [ob|]; try done. apply Nat.eqb_eq in Hc as ->. by exists ob.
Qed.

Lemma write_pointer T now sh since p m s : publishing T s sh since (PutPointer p m) -> T <= since + ship_time ->
  store_ok s -> cond_holds (pointer_put sh m) s = true ->
  change T s (write now (pointer_put sh m) s) /\ store_ok (write now (pointer_put sh m) s).
Proof.
  intros [Hs Hsh [Hv Hz] Hn] Ht Hok Hc. pose proof (live_put _ _ _ _ _ Ht Hc) as Hl. specialize (Hn Hl).
  set (s' := write _ _ _). assert (objects s' !! pointerKey o = Some (mkObject (enc m) (nextTag s) now)) as Ep
    by (cbn; by rewrite lookup_insert_eq).
  assert (forall k ob, k <> pointerKey o -> objects s !! k = Some ob -> objects s' !! k = Some ob) as Hkeep
    by (intros k ob Hk Ho; cbn; by rewrite lookup_insert_ne).
  assert (grows o s s') as Hg by (split; [cbn; lia|done]).
  split; [split; [split; [cbn; lia|right; eexists; split; [done|cbn; lia]]|done|]|split; [by apply write_tags|]].
  - intros pob m0 Ho Hm0. exists (mkObject (enc m) (nextTag s) now), m. split_and!; [done|done|].
    intros k Hk. destruct (all_needs_keys s sh since m Hn k Hk) as [Hne [Hcur|(ob & Hob & Hy)]].
    + left. destruct Hl as [_ Hl]. unfold cur_refs, shipper_ok in *.
      destruct (current sh) as [cur|], (currentETag sh) as [t|]; try done; [|set_solver].
      destruct Hl as (ob & Eo & Et). destruct Hsh as [_ Hsh]. rewrite Ho in Eo. injection Eo as <-.
      specialize (Hsh pob Ho Et). rewrite Hm0 in Hsh. apply (f_equal dec) in Hsh. rewrite !dec_enc in Hsh. by injection Hsh as <-.
    + right. split; [done|]. exists ob. split; [by apply Hkeep|lia].
  - intros ob. rewrite Ep. intros [= <-]. exists m. split; [done|]. eapply grows_good; [done|]. by eapply met_good.
Qed.

Lemma write_changes T now r since s : in_flight T s r since -> (pkey r = pointerKey o -> T <= since + ship_time) ->
  store_ok s -> cond_holds r s = true -> change T s (write now r s) /\ store_ok (write now r s).
Proof.
  intros [[Hk Hc]|(sh & p & m & -> & Hp)] Ht Hs Hcond; [by apply write_object|].
  eapply write_pointer; [done|by apply Ht|done|done].
Qed.

Lemma store_ok_same s s' : objects s' = objects s -> nextTag s' = nextTag s -> store_ok s -> store_ok s'.
Proof.
  intros Eo Et [H1 H2]. split; [by rewrite Eo, Et|]. intros ob. rewrite Eo. intros Ho.
  destruct (H2 ob Ho) as (m & ? & ?). exists m. split; [done|]. eapply grows_good; [|done]. split; [lia|by rewrite Eo].
Qed.

(** What a call leaves in flight. *)
Definition flight (T : Z) (since : Z) (s s' : cloud) : Prop :=
  floating s' = floating s \/ exists r, floating s' = r :: floating s /\ in_flight T s' r since.

(** A call that changes nothing. *)
#[local] Ltac untouched := split; [done|split; [done|split; [by left|done]]].

Lemma PutObject_changes T pio now r since s : in_flight T s r since ->
  (pkey r = pointerKey o -> T <= since + ship_time) -> store_ok s ->
  let '(a, s') := PutObject pio now r s in
  change T s s' /\ store_ok s' /\ flight T since s s' /\
  forall t, a = PutOk t -> body_ok r = true /\ (t < nextTag s')%nat /\ objects s' !! pkey r = Some (mkObject (pbody r) t now).
Proof.
  intros Hr Ht Hs. pose proof (fun Hc => write_changes T now r since s Hr Ht Hs Hc) as Hw.
  assert (change T s s) as Hrefl by (by apply change_same).
  unfold PutObject. destruct pio.
  - step_if; [untouched|]. step_if; [untouched|]. bool_hyp. destruct Hw as [? ?]; [done|].
    split; [done|split; [done|split; [by left|]]]. intros t [= <-]. cbn. rewrite lookup_insert_eq. split_and!; [done|lia|done].
  - step_if; [untouched|]. step_if; [untouched|]. bool_hyp. destruct Hw as [? ?]; [done|].
    untouched.
  - untouched.
  - set (s' := mkCloud _ _ _). assert (change T s s') as Hc by (by apply change_same).
    split; [done|split; [by apply (store_ok_same s)|split; [|done]]]. right. exists r. split; [done|by eapply change_in_flight].
Qed.

(** ** A call of a publication *)

Lemma met_stored T t since s sh ref pl tag : near T t -> since <= T -> Key ref <> pointerKey o ->
  Size ref = pl_size pl -> SHA256 ref = pl_sha pl -> body_ok (payload_put (Key ref) pl) = true ->
  objects s !! Key ref = Some (mkObject (pl_body pl) tag t) -> met s sh since (ref_need ref).
Proof.
  intros Hn Ht Hk Hz Hh Hb Ho. apply andb_true_iff in Hb as [Eh%str_eqb_eq Ez%Z.eqb_eq].
  split; [done|]. exists (mkObject (pl_body pl) tag t). split; [done|].
  split; [exact (conj (eq_trans Ez (eq_sym Hz)) (eq_trans Eh (eq_sym Hh)))|]. right. cbn.
  unfold near in Hn. lia.
Qed.

Lemma since_after_le s sh since st : since_after s sh since st <= since.
Proof.
  unfold since_after. destruct (found_key st) as [k|]; [|lia]. destruct (objects s !! k); [|lia]. destruct (contains _ _); lia.
Qed.

Lemma publishing_earlier T s sh since since' st : since' <= since -> publishing T s sh since st -> publishing T s sh since' st.
Proof.
  intros Hle [Hs Hsh Hshape Hn]. split; [lia|done|done|]. intros [Ht Hl].
  apply (Forall_impl _ _ _ (Hn (conj (Z.le_trans _ _ _ Ht (proj1 (Z.add_le_mono_r _ _ _) Hle)) Hl))).
  intros nd (Hk & ob & Ho & Hp & [?|?]); (split; [done|]); exists ob; split_and!; auto. right. lia.
Qed.

(** An object that was found may be relied on since it was stored. *)
Lemma met_found s sh since st nd ob : 0 <= skew -> found_key st = Some nd.1 -> nd.1 <> pointerKey o ->
  objects s !! nd.1 = Some ob -> nd.2 ob -> met s sh (since_after s sh since st) nd.
Proof.
  intros H0' Hf Hk Ho Hp. split; [done|]. exists ob. split_and!; [done|done|]. unfold since_after. rewrite Hf, Ho.
  destruct (contains (cur_refs sh) nd.1) eqn:Ec; [left; by apply contains_spec|right; lia].
Qed.

Lemma verified_ref ref max s : verifyObject ref max s = Ok tt ->
  exists ob, objects s !! Key ref = Some ob /\ osize ob = Size ref /\ hash (content ob) = SHA256 ref.
Proof.
  unfold verifyObject. destruct (objects s !! Key ref) as [ob|] eqn:E; [|done]. step_if; [done|]. step_if; [done|]. bool_hyp.
  by exists ob.
Qed.

Definition onward (T : Z) (s : cloud) (sh : Shipper) (since : Z) (n : next) : Prop :=
  match n with Done _ => True | At st => publishing T s sh since st end.

Lemma put_payload_changes T since c max ref pl s sh existed stored : store_ok s -> near T (now c) -> since <= T ->
  Key ref <> pointerKey o -> Size ref = pl_size pl -> SHA256 ref = pl_sha pl ->
  (forall s', change T s s' -> onward T s' sh since existed) ->
  (forall s', change T s s' -> met s' sh since (ref_need ref) -> onward T s' sh since stored) ->
  let '(s', n) := put_payload c max ref pl s existed stored in
  change T s s' /\ store_ok s' /\ flight T since s s' /\ onward T s' sh since n.
Proof.
  intros Hs Hn Hle Hk Hz Hh Hex Hst. unfold put_payload. assert (change T s s) as Hrefl by (by apply change_same).
  step_if; [untouched|]. step_if; [untouched|].
  pose proof (PutObject_changes T (io c) (now c) (payload_put (Key ref) pl) since s ltac:(by left) ltac:(done) Hs) as Hp.
  destruct (PutObject _ _ _ _) as [a s']. destruct Hp as (Hc & Hs' & Hf & Hok).
  destruct a as [t| |]; (split; [done|split; [done|split; [done|]]]); [|by apply Hex|done].
  destruct (Hok t eq_refl) as (Hb & _ & Ho). apply Hst; [done|]. by eapply met_stored.
Qed.

Lemma check_payload_onward T s sh since c max ref st stored : 0 <= skew -> found_key st = Some (Key ref) ->
  Key ref <> pointerKey o ->
  (met s sh (since_after s sh since st) (ref_need ref) -> onward T s sh (since_after s sh since st) stored) ->
  onward T s sh (since_after s sh since st) (check_payload c max ref s stored).
Proof.
  intros H0' Hf Hk Hst. unfold check_payload. step_if; [done|]. destruct (verifyObject ref max s) as [[]|] eqn:Ev; [|done].
  apply verified_ref in Ev as (ob & Ho & Hp). apply Hst. by eapply (met_found s sh since st (ref_need ref) ob).
Qed.

Lemma after_snapshot_onward T s sh since p snap : since <= T -> shipper_ok o s sh -> full p = true ->
  met s sh since (ref_need snap) -> onward T s sh since (after_snapshot p snap).
Proof.
  intros Hs Hsh Hf Hm. unfold after_snapshot. destruct (pwal p); split; cbn; try done; try congruence; intros _; by rewrite Forall_singleton.
Qed.

Lemma make_manifest_onward T s sh since c p snap wal lineage : publishing T s sh since (AtGuard p snap wal lineage) ->
  onward T s sh since (make_manifest o c p snap wal lineage sh).
Proof.
  intros [Hs Hsh Hf Hn]. unfold make_manifest. step_if; [done|]. cbn in Hf.
  assert ((match full p, wal, current sh with
           | false, None, Some cur => (WAL cur, WALLineage cur)
           | _, _, _ => (wal, lineage) end) = (wal, lineage)) as ->.
  { destruct (full p), wal; try done. by destruct (Hf eq_refl). }
  destruct (match current sh with Some cur => _ | None => _ end) as [seq|]; [|done]. cbv zeta.
  destruct (validateManifest o _) as [[]|] eqn:Ev; [|done]. step_if; [done|]. bool_hyp. by split.
Qed.

(** What a call of a publication leaves: [since] is when the objects it relied on
    before were stored, [since'] those it relies on after. *)
Definition call_ok (T : Z) (s : cloud) (since since' : Z) (out : cloud * Shipper * next) : Prop :=
  let '(s', sh', n) := out in
  change T s s' /\ store_ok s' /\ flight T since s s' /\ shipper_ok o s' sh' /\ onward T s' sh' since' n.

Lemma reading_ok T s sh since since' n : store_ok s -> shipper_ok o s sh -> onward T s sh since' n ->
  call_ok T s since since' (s, sh, n).
Proof. intros. split; [by apply change_same|split; [done|split; [by left|done]]]. Qed.

Lemma shipper_change T s s' sh : change T s s' -> shipper_ok o s sh -> shipper_ok o s' sh.
Proof. intros Hc. apply moves_shipper, Hc. Qed.

(** The WAL, put or found, joins the snapshot. *)
Lemma at_guard_onward T s sh since p snap pl : publishing T s sh since (CheckWAL p snap pl) ->
  met s sh since (ref_need (wal_ref o p pl)) ->
  onward T s sh since (At (AtGuard p snap (Some (wal_ref o p pl)) (pl_lineage pl))).
Proof.
  intros [? ? _ Hneed] Hm. split; [done|done|done|]. intros Hl. specialize (Hneed Hl). cbn [needs] in Hneed |- *.
  rewrite Forall_singleton in Hneed. apply Forall_cons. split; [done|by rewrite Forall_singleton].
Qed.

Lemma put_manifest_ok T s sh since p m c : publishing T s sh since (PutManifest p m) -> store_ok s -> near T (now c) ->
  call_ok T s since since (ship_step o c s sh (PutManifest p m)).
Proof.
  intros [Hle Hsh [Hv Hz] Hneed] Hs Hn. pose proof (valid_key o m Hv) as Hk. cbn [ship_step].
  pose proof (PutObject_changes T (io c) (now c) (mkPut (MKey m) (enc m) IfNoneMatch None) since s ltac:(by left) ltac:(done) Hs) as Hp.
  destruct (PutObject _ _ _ _) as [a s']. destruct Hp as (Hc & Hs' & Hf & Hok).
  pose proof (change_publishing _ _ _ _ _ _ Hc (mkPublishing _ _ _ _ (CheckManifest p m) Hle Hsh (conj Hv Hz) Hneed)) as Hnext.
  destruct a as [t| |]; (split; [done|split; [done|split; [done|split; [by eapply shipper_change|]]]]); [|done|done].
  destruct Hnext as [_ Hsh' _ Hneed']. split; [done|done|done|]. intros Hl. constructor; [|by apply Hneed'].
  split; [done|]. destruct (Hok t eq_refl) as (_ & _ & Ho). eexists. split; [exact Ho|]. split; [done|]. right. cbn.
  unfold near in Hn. lia.
Qed.

Lemma check_manifest_ok T s sh since p m c : publishing T s sh since (CheckManifest p m) -> store_ok s -> 0 <= skew ->
  call_ok T s since (since_after s sh since (CheckManifest p m)) (ship_step o c s sh (CheckManifest p m)).
Proof.
  intros Hpub Hs H0'. cbn [ship_step]. apply reading_ok; [done|apply Hpub|].
  pose proof (publishing_earlier _ _ _ _ _ _ (since_after_le s sh since (CheckManifest p m)) Hpub) as [Hle' Hsh [Hv Hz] Hneed].
  step_if; [done|]. destruct (objects s !! MKey m) as [ob|] eqn:Eo; [|done]. step_if; [done|]. bool_hyp.
  apply bool_decide_eq_true in E0. split; [done|done|done|]. intros Hl. constructor; [|by apply Hneed].
  eapply (met_found s sh since (CheckManifest p m) (MKey m, _) ob); [done|done|by apply (valid_key o)|done|]. cbn.
  rewrite take_ge in E0; [done|]. destruct (decide (length (content ob) <= Z.to_nat (MaxManifestBytes o + 1))%nat); [done|].
  exfalso. assert (length (enc m) = Z.to_nat (MaxManifestBytes o + 1)) as Hlen by (rewrite <- E0, length_take; lia). lia.
Qed.

Lemma put_pointer_ok T s sh since p m c : publishing T s sh since (PutPointer p m) -> store_ok s ->
  T <= since + ship_time -> call_ok T s since since (ship_step o c s sh (PutPointer p m)).
Proof.
  intros Hpub Hs Ht. cbn [ship_step].
  pose proof (PutObject_changes T (io c) (now c) (pointer_put sh m) since s) as Hp. unfold pointer_put in Hp at 2 3 4.
  destruct (PutObject _ _ _ _) as [a s'].
  destruct Hp as (Hc & Hs' & Hf & Hok); [right; by exists sh, p, m|done|done|].
  destruct a as [t| |]; (split; [done|split; [done|split; [done|split; [|done]]]]);
    [|eapply shipper_change; [done|apply Hpub]..].
  destruct (Hok t eq_refl) as (_ & Hlt & Ho). cbn [pkey pointer_put] in Ho. split; [done|]. intros ob. rewrite Ho. by intros [= <-].
Qed.

Lemma ship_step_changes T s sh since st c : publishing T s sh since st -> store_ok s -> near T (now c) ->
  (moves_pointer st = true -> T <= since + ship_time) ->
  call_ok T s since (since_after s sh since st) (ship_step o c s sh st).
Proof.
  intros Hpub Hs Hn Ht. assert (0 <= skew) as H0' by (unfold near in Hn; lia). pose proof (pub_shipper _ _ _ _ _ Hpub) as Hsh.
  pose proof (pub_since _ _ _ _ _ Hpub) as Hle. pose proof (since_after_le s sh since st) as Hafter.
  destruct st as [|p pl|p pl|p snap pl|p snap pl|p snap wal lineage|p m|p m|p m|p m].
  - by apply reading_ok.
  - cbn [ship_step]. pose proof (put_payload_changes T since c (MaxSnapshotBytes o) (snap_ref o p pl) pl s sh
      (At (CheckSnapshot p pl)) (after_snapshot p (snap_ref o p pl)) Hs Hn Hle (snap_ref_key o p pl) eq_refl eq_refl) as Hput.
    destruct (put_payload _ _ _ _ _ _ _) as [s' n]. destruct Hput as (Hc & ? & ? & ?).
    + intros s1 Hc. split; [done|by eapply shipper_change|apply Hpub|by intros _; constructor].
    + intros s1 Hc Hm. apply after_snapshot_onward; [done|by eapply shipper_change|apply Hpub|done].
    + pose proof (shipper_change _ _ _ _ Hc Hsh). by split.
  - apply reading_ok; [done|done|]. apply check_payload_onward; [done|done|apply snap_ref_key|]. intros Hm.
    apply after_snapshot_onward; [lia|done|apply Hpub|done].
  - cbn [ship_step].
    assert (publishing T s sh since (CheckWAL p snap pl)) as Hpub' by (split; [done|done|done|apply Hpub]).
    pose proof (put_payload_changes T since c (MaxWALBytes o) (wal_ref o p pl) pl s sh (At (CheckWAL p snap pl)) _
      Hs Hn Hle (wal_ref_key o p pl) eq_refl eq_refl (fun s' Hc => change_publishing _ _ _ _ _ _ Hc Hpub')
      (fun s' Hc => at_guard_onward _ _ _ _ _ _ _ (change_publishing _ _ _ _ _ _ Hc Hpub'))) as Hput.
    destruct (put_payload _ _ _ _ _ _ _) as [s' n]. destruct Hput as (Hc & ? & ? & ?).
    pose proof (shipper_change _ _ _ _ Hc Hsh). by split.
  - apply reading_ok; [done|done|]. apply check_payload_onward; [done|done|apply wal_ref_key|].
    by apply at_guard_onward, (publishing_earlier _ _ _ since).
  - apply reading_ok; [done|done|]. by apply make_manifest_onward.
  - by apply put_manifest_ok.
  - by apply check_manifest_ok.
  - apply reading_ok; [done|done|]. cbn [ship_step]. destruct (decide_ c); [|done]. by destruct Hpub.
  - by apply put_pointer_ok; [| |apply Ht].
Qed.

(** ** The beginning of a publication *)

Lemma refresh_reads c s sh : store_ok s -> shipper_ok o s sh ->
  let '(r, sh') := refresh o c s sh in
  shipper_ok o s sh' /\
  ((r = Ok tt \/ r = Err ErrNoRecoveryPoint) -> forall cur, current sh' = Some cur ->
    exists ob, objects s !! pointerKey o = Some ob /\ content ob = enc cur /\ good o s cur).
Proof.
  intros [Htag Hp] Hsh. unfold refresh. step_if; [split; [done|]; by intros [|]|].
  destruct (objects s !! pointerKey o) as [ob|] eqn:Eo; [|done]. destruct (Hp ob eq_refl) as (m & Ec & Hm).
  unfold readJSON. step_if; [split; [done|]; by intros [|]|]. rewrite Ec, dec_enc, (good_valid _ _ _ Hm).
  split; [|intros _ cur [= <-]; by exists ob]. cbn. split; [by apply Htag in Eo|]. intros ob'. rewrite Eo. by intros [= <-].
Qed.

Lemma full_of_onward T c epoch seq s sh : shipper_ok o s sh -> onward T s sh T (full_of c epoch seq).
Proof.
  intros Hsh. unfold full_of. destruct (full_capture c) as [[[[snap|] wal] at_]|]; [|done..]. split; [lia|done|done|].
  by constructor.
Qed.

Lemma begin_ship_onward T c seq force s sh : store_ok s -> shipper_ok o s sh ->
  let '(sh', n) := begin_ship o c seq force s sh in shipper_ok o s sh' /\ onward T s sh' T n.
Proof.
  intros Hs Hsh. unfold begin_ship. pose proof (refresh_reads c s sh Hs Hsh) as Hr.
  destruct (refresh o c s sh) as [r sh']. destruct Hr as [Hsh' Hg].
  pose proof (fun e => full_of_onward T c e seq s sh' Hsh') as Hfull.
  assert ((r = Ok tt \/ r = Err ErrNoRecoveryPoint) -> forall cur wal epoch, current sh' = Some cur ->
    onward T s sh' T (At (PutWAL (mkPublication epoch seq None (Some wal) (now c) false) (Snapshot cur) wal))) as Hwal.
  { intros Hr cur wal epoch Hc. destruct (Hg Hr cur Hc) as (ob & _ & _ & [_ _ _ [[Hk (so & Hso & Hp)] _]]).
    split; [lia|done|done|]. intros _. cbn [needs]. rewrite Forall_singleton. split; [done|]. exists so. split_and!; [done|done|].
    left. unfold cur_refs. rewrite Hc. apply list_elem_of_further, list_elem_of_here. }
  destruct r as [[]|[| | | |e|]]; try (by split); (split; [done|]).
  1: specialize (Hwal ltac:(by left)). 2: specialize (Hwal ltac:(by right)).
  all: repeat (step_match; try done; try apply Hfull); try (by apply Hwal).
Qed.

(** ** A call of a collection *)

(** What the pointer names was named when the collection read it, or is
    younger than what it may delete. *)
Definition kept (s : cloud) (since : Z) (cur m : Manifest) : Prop :=
  forall k, k ∈ refs_of (MKey m) m -> k ∈ refs_of (MKey cur) cur \/
    k <> pointerKey o /\ exists ob, objects s !! k = Some ob /\ since - ship_time - skew <= lastModified ob.

Definition gather_ok (T : Z) (s : cloud) (since : Z) (st : collecting) : Prop :=
  since <= T /\ exists pob m, objects s !! pointerKey o = Some pob /\ content pob = enc m /\
  match st with
  | ListEpochs cur => kept s since cur m
  | MarkManifests cur found _ _ => kept s since cur m /\ NoDup found.*1 /\
      forall kv, kv ∈ found -> kv.1 <> pointerKey o /\ objects s !! kv.1 = Some kv.2
  | SweepKeys todo _ => NoDup todo /\ forall k, k ∈ todo -> k <> pointerKey o /\ k ∉ refs_of (MKey m) m /\
      exists ob, objects s !! k = Some ob /\ lastModified ob < since - ship_time - skew
  end.

Lemma change_gather T s s' since st : change T s s' -> gather_ok T s since st -> gather_ok T s' since st.
Proof.
  intros [_ [_ Hg] Href] [Hle (pob & m & Hp & Hc & Hst)]. destruct (Href pob m Hp Hc) as (pob' & m' & Hp' & Hc' & Hr).
  split; [done|]. exists pob', m'. split; [done|split; [done|]].
  assert (forall cur, kept s since cur m -> kept s' since cur m') as Hkept.
  { intros cur Hk k Hin. destruct (Hr k Hin) as [Hm|[Hne (ob & Ho & Hy)]].
    - destruct (Hk k Hm) as [?|[Hne (ob & Ho & Hy)]]; [by left|right]. split; [done|]. exists ob. split; [by apply Hg|done].
    - right. split; [done|]. exists ob. split; [done|lia]. }
  destruct st as [cur|cur found todo marked|todo n].
  - by apply Hkept.
  - destruct Hst as (? & ? & Hf). split_and!; [by apply Hkept|done|]. intros kv Hin. destruct (Hf kv Hin). split; [done|by apply Hg].
  - destruct Hst as [Hnd Hf]. split; [done|]. intros k Hin. destruct (Hf k Hin) as (Hne & Hnot & ob & Ho & Hy).
    split; [done|split; [|exists ob; split; [by apply Hg|done]]]. intros Hin'.
    destruct (Hr k Hin') as [?|[_ (ob' & Ho' & Hy')]]; [done|]. rewrite (Hg k ob Hne Ho) in Ho'. injection Ho' as <-. lia.
Qed.

Lemma filtered_keys (P : string * object -> Prop) `{!forall kv, Decision (P kv)} (l : list (string * object)) :
  NoDup l.*1 -> NoDup (filter P l).*1.
Proof.
  induction l as [|kv l IH]; [done|]. rewrite fmap_cons, NoDup_cons, filter_cons. intros [Hn Hnd].
  destruct (decide (P kv)) as [Hp|Hp]; [|by auto]. rewrite fmap_cons. constructor; [|auto]. intros (kv' & E & Hin)%list_elem_of_fmap. apply list_elem_of_filter in Hin as [_ Hin].
  apply Hn. rewrite E. by apply list_elem_of_fmap_2.
Qed.

Lemma candidates_old c cur found marked :
  (forall k, k ∈ candidates o c cur found marked -> k ∉ refs_of (MKey cur) cur /\
     exists ob, (k, ob) ∈ found /\ lastModified ob < now c - OrphanGrace o) /\
  (NoDup found.*1 -> NoDup (candidates o c cur found marked)).
Proof.
  unfold candidates. split.
  - intros k Hin. apply elem_of_take in Hin as (i & Hi & _). apply list_elem_of_lookup_2 in Hi.
    rewrite sort_by_perm in Hi. apply list_elem_of_fmap in Hi as ([k' ob] & -> & Hi).
    apply list_elem_of_filter in Hi as [Hc Hin]. unfold collectable in Hc. cbn [fst snd] in *.
    apply andb_true_iff in Hc as [Hc Hold%Z.ltb_lt]. apply andb_true_iff in Hc as [Hc _].
    split; [|by exists ob]. apply negb_true_iff, not_true_iff_false in Hc. intros Hin'.
    apply Hc, contains_spec, elem_of_app. by left.
  - intros Hnd. eapply sublist_NoDup; [|apply sublist_take]. rewrite sort_by_perm. by apply filtered_keys.
Qed.

Lemma listed_ok s : NoDup (listed o s).*1 /\
  forall kv, kv ∈ listed o s -> kv.1 <> pointerKey o /\ objects s !! kv.1 = Some kv.2.
Proof.
  split; [apply filtered_keys, NoDup_fst_map_to_list|]. intros [k ob] Hin. apply list_elem_of_filter in Hin as [Hp Hin].
  apply elem_of_map_to_list in Hin. split; [|done]. cbn in Hp |- *. intros ->. unfold epochsRoot, pointerKey in Hp.
  by rewrite prefix_append in Hp.
Qed.

(** A call of a collection deletes at most an object the pointer does not name
    and that no publication in time relies on. *)
Definition spares (since : Z) (s s' : cloud) : Prop :=
  nextTag s' = nextTag s /\ floating s' = floating s /\ objects s' !! pointerKey o = objects s !! pointerKey o /\
  (forall k ob, objects s' !! k = Some ob -> objects s !! k = Some ob) /\
  forall k ob, objects s !! k = Some ob -> objects s' !! k = Some ob \/
    lastModified ob < since - ship_time - skew /\
    forall pob m, objects s !! pointerKey o = Some pob -> content pob = enc m -> k ∉ refs_of (MKey m) m.

Lemma spares_same since s : spares since s s.
Proof. split_and!; auto. Qed.

Context (fits : ship_time + collect_time + 2 * skew <= OrphanGrace o).

Lemma collect_step_spares T s since st c : near T (now c) -> (reads_cutoff st = true -> T <= since + collect_time) ->
  gather_ok T s since st ->
  let '(s', n) := collect_step o c s st in
  spares since s s' /\ match n with CollectAt st' => gather_ok T s' since st' | Collected _ => True end.
Proof.
  intros Hn Ht [Hle (pob & m & Hp & Hc & Hst)]. pose proof (spares_same since s) as Hsame.
  destruct st as [cur|cur found [|key todo] marked|[|key todo] n]; cbn [collect_step].
  - split; [done|]. step_if; [done|]. destruct (listed_ok s) as [? ?]. split; [done|]. exists pob, m. auto.
  - split; [done|]. split; [done|]. exists pob, m. split; [done|split; [done|]]. destruct Hst as (Hk & Hnd & Hf).
    destruct (candidates_old c cur found marked) as [Hold Hnd']. split; [auto|]. intros k Hin.
    destruct (Hold k Hin) as (Hcur & ob & Hfound & Hlt). destruct (Hf _ Hfound) as [Hne Ho]. cbn [fst snd] in *.
    specialize (Ht eq_refl). unfold near in Hn. assert (lastModified ob < since - ship_time - skew) as Hyoung by lia.
    split; [done|split; [|by exists ob]]. intros Hin'. destruct (Hk k Hin') as [?|[_ (ob' & Ho' & ?)]]; [done|].
    rewrite Ho in Ho'. injection Ho' as <-. lia.
  - split; [done|]. repeat (step_match; try done). destruct Hst as (? & ? & ?). split; [done|]. exists pob, m. auto.
  - done.
  - destruct Hst as [Hnd Hf]. apply NoDup_cons in Hnd as [Hnot Hnd].
    destruct (Hf key ltac:(apply list_elem_of_here)) as (Hne & Hkey & ob & Ho & Hold).
    set (s' := mkCloud _ _ _). assert (spares since s s') as Hsp.
    { split_and!; [done|done|cbn; by rewrite lookup_delete_ne| |].
      - intros k ob' Hk. cbn in Hk. by apply lookup_delete_Some in Hk as [_ ?].
      - intros k ob' Hk. destruct (decide (key = k)) as [<-|]; [|left; cbn; by rewrite lookup_delete_ne].
        right. rewrite Ho in Hk. injection Hk as <-. split; [done|]. intros pob' m' Hp' Hc'. rewrite Hp in Hp'.
        injection Hp' as <-. rewrite Hc in Hc'. apply (f_equal dec) in Hc'. rewrite !dec_enc in Hc'. by injection Hc' as <-. }
    destruct (io c); try done. split; [done|]. split; [done|]. exists pob, m. split; [cbn; by rewrite lookup_delete_ne|].
    split; [done|split; [done|]]. intros k Hin. destruct (Hf k ltac:(by apply list_elem_of_further)) as (? & ? & obk & Hk & ?).
    split; [done|split; [done|]]. exists obk. split; [|done]. cbn. rewrite lookup_delete_ne; [done|]. by intros ->.
Qed.

Lemma spares_publishing T s s' since sh b st : since <= T -> spares since s s' -> publishing T s sh b st ->
  publishing T s' sh b st.
Proof.
  intros Hle (Et & _ & Ep & _ & Hsp) Hpub. pose proof (pub_shipper _ _ _ _ _ Hpub) as Hsh. revert Hpub.
  apply publishing_kept; [split; [lia|by left]|lia|]. intros [Ht Hl] k ob Hne Ho Hy.
  destruct (Hsp k ob Ho) as [?|[Hold Hnot]]; [done|]. exfalso. destruct Hy as [Hcur|?]; [|lia].
  unfold cur_refs, shipper_ok in *. destruct (current sh) as [cur|], (currentETag sh) as [t|]; try done; [|set_solver].
  destruct Hl as (pob & Hp & Etag). rewrite Ep in Hp. by apply (Hnot pob cur Hp (proj2 Hsh pob Hp Etag)).
Qed.

Lemma spares_store since s s' : spares since s s' -> store_ok s -> store_ok s'.
Proof.
  intros (Et & Ef & Ep & Hback & Hsp) [H1 H2]. split; [intros k ob Ho%Hback; rewrite Et; by eapply H1|].
  intros ob. rewrite Ep. intros Ho. destruct (H2 ob Ho) as (m & Hc & Hm). exists m. split; [done|].
  eapply keeps_good; [|done]. split; [done|split; [done|split; [done|]]]. intros k Hin.
  destruct (objects s !! k) as [obk|] eqn:Ek.
  - destruct (Hsp k obk Ek) as [?|[_ Hnot]]; [done|]. by destruct (Hnot ob m Ho Hc).
  - destruct (objects s' !! k) as [obk|] eqn:Ek'; [|done]. apply Hback in Ek'. congruence.
Qed.

(** ** The invariant *)

Definition act_ok (T : Z) (s : cloud) (q : Shipper * activity) : Prop :=
  shipper_ok o s q.1 /\
  match q.2 with
  | Resting => True
  | Shipping since st => publishing T s q.1 since st
  | Collecting since st => gather_ok T s since st
  end.

Record world_ok (x : world) : Prop := mkWorldOk {
  ok_store : store_ok (bucket x);
  ok_sent : Forall2 (in_flight (clock x) (bucket x)) (floating (bucket x)) (sent x);
  ok_team : Forall (act_ok (clock x) (bucket x)) (team x);
  ok_one i j qi qj : team x !! i = Some qi -> team x !! j = Some qj -> is_collecting qi = true ->
    is_collecting qj = true -> i = j }.

Lemma act_later T T' s q : T <= T' -> act_ok T s q -> act_ok T' s q.
Proof.
  destruct q as [sh [|since st|since st]]; intros Ht [Hsh Ha]; (split; [done|]); [done| |].
  - revert Ha. apply publishing_kept; [split; [lia|by left]|done|auto].
  - destruct Ha as [? ?]. split; [lia|done].
Qed.

Lemma in_flight_later T T' s r since : T <= T' -> in_flight T s r since -> in_flight T' s r since.
Proof.
  intros Ht [?|(sh & p & m & -> & Hp)]; [by left|right]. exists sh, p, m. split; [done|]. revert Hp.
  apply publishing_kept; [split; [lia|by left]|done|auto].
Qed.

Lemma act_change T s s' q : change T s s' -> act_ok T s q -> act_ok T s' q.
Proof.
  destruct q as [sh [|since st|since st]]; intros Hc [Hsh Ha]; (split; [eapply moves_shipper; [apply Hc|done]|]); [done| |].
  - by eapply change_publishing.
  - by eapply change_gather.
Qed.

(** At most one controller collects after controller [i] turned to [q]. *)
Lemma one_collector (ps : list (Shipper * activity)) i q q0 : ps !! i = Some q0 ->
  (is_collecting q = true -> is_collecting q0 = true \/ Forall (fun q => is_collecting q = false) ps) ->
  (forall a b qa qb, ps !! a = Some qa -> ps !! b = Some qb -> is_collecting qa = true -> is_collecting qb = true -> a = b) ->
  forall a b qa qb, <[i := q]> ps !! a = Some qa -> <[i := q]> ps !! b = Some qb -> is_collecting qa = true ->
    is_collecting qb = true -> a = b.
Proof.
  intros Hi Hq Hone.
  assert (forall b qb, is_collecting q = true -> b <> i -> ps !! b = Some qb -> is_collecting qb = true -> False) as Hother.
  { intros b qb Hc Hne Hb Hcb. destruct (Hq Hc) as [H0'|Hall]; [by apply Hne, (Hone b i qb q0)|].
    rewrite (Forall_lookup_1 _ _ b qb Hall Hb) in Hcb. done. }
  intros a b qa qb Ha Hb Hca Hcb. apply list_lookup_insert_Some in Ha as [(<- & <- & _)|[Hna Ha]];
    apply list_lookup_insert_Some in Hb as [(<- & <- & _)|[Hnb Hb]]; try done.
  - exfalso. by eapply (Hother b qb).
  - exfalso. by eapply (Hother a qa).
  - by eapply Hone.
Qed.

(** The controllers after a change made by controller [i]. *)
Lemma team_change T s s' ps i q : change T s s' -> act_ok T s' q -> Forall (act_ok T s) ps ->
  Forall (act_ok T s') (<[i := q]> ps).
Proof.
  intros Hc Hq Hps. apply Forall_insert; [|done]. apply (Forall_impl _ _ _ Hps). intros q'. by apply act_change.
Qed.

Lemma sent_change T s s' since l : change T s s' -> flight T since s s' ->
  Forall2 (in_flight T s) (floating s) l -> Forall2 (in_flight T s') (floating s') (sent_after s s' since l).
Proof.
  intros Hc Hf Hl. assert (Forall2 (in_flight T s') (floating s) l) as Hl'.
  { apply (Forall2_impl _ _ _ _ Hl). intros r b. by apply change_in_flight. }
  unfold sent_after. destruct Hf as [->|(r & -> & Hr)].
  - by rewrite Nat.ltb_irrefl.
  - rewrite (proj2 (Nat.ltb_lt _ _)) by (cbn; lia). by constructor.
Qed.

Lemma land_changes T t i s r since : floating s !! i = Some r -> in_flight T s r since ->
  (pkey r = pointerKey o -> T <= since + ship_time) -> store_ok s ->
  exists s1, change T s s1 /\ change T s1 (land t i s) /\ store_ok (land t i s) /\
    floating (land t i s) = delete i (floating s).
Proof.
  intros Hi Hr Ht Hs. unfold land. rewrite Hi. set (s1 := mkCloud _ _ _). exists s1.
  assert (change T s s1) as Hc by (by apply change_same). assert (store_ok s1) as Hs1 by (by apply (store_ok_same s)).
  split; [done|]. step_if; [|split; [by apply change_same|done]]. bool_hyp.
  destruct (write_changes T t r since s1 (change_in_flight _ _ _ _ _ Hc Hr) Ht Hs1) as [? ?]; [done|]. done.
Qed.

Lemma ship_turn T s l ps i sh since st c s' sh' n : world_ok (mkWorld T s l ps) ->
  ps !! i = Some (sh, Shipping since st) -> near T (now c) -> (moves_pointer st = true -> T <= since + ship_time) ->
  ship_step o c s sh st = (s', sh', n) ->
  world_ok (mkWorld T s' (sent_after s s' since l) (<[i := (sh', shipping (since_after s sh since st) n)]> ps)).
Proof.
  intros [Hs Hl Hps Hone] Hi Hn Ht Hstep. cbn in *. pose proof (Forall_lookup_1 _ _ i _ Hps Hi) as [_ Hpub].
  pose proof (ship_step_changes T s sh since st c Hpub Hs Hn Ht) as Hok. rewrite Hstep in Hok. cbn in Hok.
  destruct Hok as (Hc & Hs' & Hf & Hsh' & Hon). split; cbn.
  - done.
  - by apply sent_change.
  - apply (team_change T s); [done| |done]. split; [done|]. by destruct n.
  - eapply one_collector; [done| |done]. by destruct n.
Qed.

Lemma sweep_turn T s l ps i sh since st c s' n : world_ok (mkWorld T s l ps) ->
  ps !! i = Some (sh, Collecting since st) -> near T (now c) -> (reads_cutoff st = true -> T <= since + collect_time) ->
  collect_step o c s st = (s', n) -> world_ok (mkWorld T s' l (<[i := (sh, gathering since n)]> ps)).
Proof.
  intros [Hs Hl Hps Hone] Hi Hn Ht Hstep. cbn in *. pose proof (Forall_lookup_1 _ _ i _ Hps Hi) as [Hsh Hg].
  pose proof (collect_step_spares T s since st c Hn Ht Hg) as Hok. rewrite Hstep in Hok. destruct Hok as [Hsp Hnext].
  assert (since <= T) as Hle by apply Hg.
  assert (forall sh0, shipper_ok o s sh0 -> shipper_ok o s' sh0) as Hkeep.
  { intros sh0. apply moves_shipper. destruct Hsp as (Et & _ & Ep & _). split; [lia|by left]. }
  split; cbn.
  - by eapply spares_store.
  - destruct (Hsp) as (_ & -> & _). apply (Forall2_impl _ _ _ _ Hl). intros r b [?|(sh0 & p & m & -> & Hp)]; [by left|right].
    exists sh0, p, m. split; [done|]. by eapply spares_publishing.
  - apply Forall_lookup. intros j q Hj. apply list_lookup_insert_Some in Hj as [(<- & <- & _)|[Hne Hj]].
    + split; [by apply Hkeep|]. by destruct n.
    + pose proof (Forall_lookup_1 _ _ j _ Hps Hj) as [Hshj Hact]. split; [by apply Hkeep|].
      destruct (q.2) as [|b stj|b stj] eqn:Eq; [done|by eapply spares_publishing|].
      destruct Hne. eapply (Hone i j (sh, Collecting since st) q); try done. unfold is_collecting. by rewrite Eq.
  - eapply one_collector; [done| |done]. by left.
Qed.

(** A controller turns to something else and leaves the store alone. *)
Lemma local_turn T s l ps i q0 q : world_ok (mkWorld T s l ps) -> ps !! i = Some q0 -> act_ok T s q ->
  (is_collecting q = true -> is_collecting q0 = true \/ Forall (fun q => is_collecting q = false) ps) ->
  world_ok (mkWorld T s l (<[i := q]> ps)).
Proof.
  intros [Hs Hl Hps Hone] Hi Hq Hc. split; cbn in *; [done|done|by apply Forall_insert|]. by eapply one_collector.
Qed.

Lemma start_turn T s l ps : world_ok (mkWorld T s l ps) ->
  world_ok (mkWorld T s l (ps ++ [(mkShipper None None 0, Resting)])).
Proof.
  intros [Hs Hl Hps Hone]. split; cbn in *; [done|done|apply Forall_app; split; [done|by apply Forall_singleton]|].
  intros i j qi qj Hi Hj Hci Hcj.
  apply lookup_app_Some in Hi as [Hi|[_ Hi]]; [|apply list_elem_of_lookup_2, list_elem_of_singleton in Hi; by subst].
  apply lookup_app_Some in Hj as [Hj|[_ Hj]]; [|apply list_elem_of_lookup_2, list_elem_of_singleton in Hj; by subst].
  by eapply Hone.
Qed.

Lemma land_turn T s l ps t i r since : world_ok (mkWorld T s l ps) -> floating s !! i = Some r -> l !! i = Some since ->
  (pkey r = pointerKey o -> T <= since + ship_time) -> world_ok (mkWorld T (land t i s) (delete i l) ps).
Proof.
  intros [Hs Hl Hps Hone] Hr Hi Ht. cbn in *.
  pose proof (Forall2_lookup_lr _ _ _ _ _ _ Hl Hr Hi) as Hf.
  destruct (land_changes T t i s r since Hr Hf Ht Hs) as (s1 & Hc1 & Hc2 & Hs' & Ef). split; cbn.
  - done.
  - rewrite Ef. apply Forall2_delete. apply (Forall2_impl _ _ _ _ Hl). intros r' b Hb.
    eapply change_in_flight; [done|]. by eapply change_in_flight.
  - apply (Forall_impl _ _ _ Hps). intros q Hq. eapply act_change; [done|]. by eapply act_change.
  - done.
Qed.

Lemma world_step_ok x y : world_ok x -> world_step x y -> world_ok y.
Proof.
  intros Hx Hstep. destruct Hstep as [T T' s l ps Ht|T s l ps|T s l ps i|T s l ps i sh c seq force sh' n Hi Hb
    |T s l ps i sh since st c s' sh' n Hi Hn Ht Hb|T s l ps t i r since Hr Hi Hn Ht|T s l ps i sh c sh' n Hi Hall Hb
    |T s l ps i sh since st c s' n Hi Hn Ht Hb].
  - destruct Hx as [Hs Hl Hps Hone]. split; cbn in *; [done| | |done].
    + apply (Forall2_impl _ _ _ _ Hl). intros r b. by apply in_flight_later.
    + apply (Forall_impl _ _ _ Hps). intros q. by apply act_later.
  - by apply start_turn.
  - destruct (ps !! i) as [q|] eqn:Ei; [by eapply local_turn|]. by rewrite list_insert_ge by (by apply lookup_ge_None).
  - pose proof (Forall_lookup_1 _ _ i _ (ok_team _ Hx) Hi) as [Hsh _].
    pose proof (begin_ship_onward T c seq force s sh (ok_store _ Hx) Hsh) as Hok. rewrite Hb in Hok.
    destruct Hok as [Hsh' Hn]. eapply local_turn; [done|done|split; [done|by destruct n]|by destruct n].
  - by eapply ship_turn.
  - by eapply land_turn.
  - pose proof (Forall_lookup_1 _ _ i _ (ok_team _ Hx) Hi) as [Hsh _].
    eapply local_turn; [done|done| |by right]. revert Hb. unfold begin_collect.
    pose proof (refresh_reads c s sh (ok_store _ Hx) Hsh) as Hr. destruct (refresh o c s sh) as [r sh1].
    destruct Hr as [Hsh' Hg]. destruct r as [[]|e]; [|by intros [= <- <-]]. specialize (Hg ltac:(by left)).
    destruct (current sh1) as [cur|] eqn:Ec; intros [= <- <-]; [|done]. split; [done|]. split; [done|].
    destruct (Hg cur eq_refl) as (pob & Hp & Hc & _). exists pob, cur. split; [done|split; [done|]]. intros k Hk. by left.
  - by eapply sweep_turn.
Qed.

Lemma world_run_ok x : rtc world_step empty_world x -> world_ok x.
Proof.
  assert (forall y z, rtc world_step y z -> world_ok y -> world_ok z) as Hrun.
  { intros y z Hr. induction Hr as [|y z w Hyz _ IH]; [done|]. intros Hy. apply IH. by eapply world_step_ok. }
  intros Hr. apply (Hrun _ _ Hr). split; cbn; [|constructor|constructor|done]. by split.
Qed.

(** C25: Any number of controllers publish and one at a time collects, their
    calls to the store interleaved in any order, with failed, unanswered and
    late writes, failed deletions and restarts.  If a publication moves the
    pointer within [ship_time] of the time the oldest object it put or found
    (other than those of the recovery point it replaces) was stored, a
    collection reads its cutoff within [collect_time] of its reading of the
    pointer, clocks are within the configured skew, and the three fit in the
    orphan grace, then at every moment a standby that loads the published
    recovery point either is told that there is none, or gets the manifest the
    pointer names with a snapshot and WAL that fetch with the digests it
    states. *)
Theorem recovery_point_is_restorable x : rtc world_step empty_world x ->
  match pointer o (bucket x) with
  | None => loadManifest o (bucket x) = Err ErrNoRecoveryPoint
  | Some m => loadManifest o (bucket x) = Ok m /\ restorable o (bucket x) m
  end.
Proof. intros Hr%world_run_ok. apply (loads_recovery_point o), Hr. Qed.

(** ** Runs *)

Inductive command :=
| CTick (T : Z)
| CStart
| CBegin (i : nat) (c : call) (seq : Z) (force : bool)
| CShip (i : nat) (c : call)
| CCollect (i : nat) (c : call)
| CSweep (i : nat) (c : call).

Definition nearb (T t : Z) : bool := (T - skew <=? t) && (t <=? T + skew).

(** What a command does, where its step may be taken. *)
Definition perform (x : world) (cmd : command) : option world :=
  let '(mkWorld T s l ps) := x in
  match cmd with
  | CTick T' => if T <=? T' then Some (mkWorld T' s l ps) else None
  | CStart => Some (mkWorld T s l (ps ++ [(mkShipper None None 0, Resting)]))
  | CBegin i c seq force =>
      match ps !! i with
      | Some (sh, Resting) =>
          let '(sh', n) := begin_ship o c seq force s sh in Some (mkWorld T s l (<[i := (sh', shipping T n)]> ps))
      | _ => None
      end
  | CShip i c =>
      match ps !! i with
      | Some (sh, Shipping since st) =>
          if nearb T (now c) && (negb (moves_pointer st) || (T <=? since + ship_time)) then
            let '(s', sh', n) := ship_step o c s sh st in
            Some (mkWorld T s' (sent_after s s' since l) (<[i := (sh', shipping (since_after s sh since st) n)]> ps))
          else None
      | _ => None
      end
  | CCollect i c =>
      match ps !! i with
      | Some (sh, Resting) =>
          if forallb (fun q => negb (is_collecting q)) ps then
            let '(sh', n) := begin_collect o c s sh in Some (mkWorld T s l (<[i := (sh', gathering T n)]> ps))
          else None
      | _ => None
      end
  | CSweep i c =>
      match ps !! i with
      | Some (sh, Collecting since st) =>
          if nearb T (now c) && (negb (reads_cutoff st) || (T <=? since + collect_time)) then
            let '(s', n) := collect_step o c s st in Some (mkWorld T s' l (<[i := (sh, gathering since n)]> ps))
          else None
      | _ => None
      end
  end.

Fixpoint performs (x : world) (cmds : list command) : option world :=
  match cmds with
  | [] => Some x
  | cmd :: cmds => match perform x cmd with Some x => performs x cmds | None => None end
  end.

Lemma guard_time (b : bool) (T t : Z) : negb b || (T <=? t) = true -> b = true -> T <= t.
Proof. intros Hg ->. by apply Z.leb_le. Qed.

Lemma perform_steps x cmd y : perform x cmd = Some y -> world_step x y.
Proof.
  destruct x as [T s l ps]. destruct cmd as [T'| |i c seq force|i c|i c|i c]; cbn [perform].
  - step_if; [|done]. bool_hyp. intros [= <-]. by constructor.
  - intros [= <-]. constructor.
  - destruct (ps !! i) as [[sh []]|] eqn:Hi; try done. destruct (begin_ship o c seq force s sh) as [sh' n] eqn:Hb.
    intros [= <-]. by eapply w_begin.
  - destruct (ps !! i) as [[sh [|since st|]]|] eqn:Hi; try done. step_if; [|done]. apply andb_true_iff in E as [Hn Ht].
    apply andb_true_iff in Hn as [?%Z.leb_le ?%Z.leb_le]. destruct (ship_step o c s sh st) as [[s' sh'] n] eqn:Hb.
    intros [= <-]. eapply w_ship; [done|done|by apply guard_time|done].
  - destruct (ps !! i) as [[sh []]|] eqn:Hi; try done. step_if; [|done]. destruct (begin_collect o c s sh) as [sh' n] eqn:Hb.
    intros [= <-]. eapply w_collect; [done| |done]. apply Forall_forall. intros q Hq. apply list_elem_of_In in Hq.
    rewrite forallb_forall in E. by apply negb_true_iff, E.
  - destruct (ps !! i) as [[sh [| |since st]]|] eqn:Hi; try done. step_if; [|done]. apply andb_true_iff in E as [Hn Ht].
    apply andb_true_iff in Hn as [?%Z.leb_le ?%Z.leb_le]. destruct (collect_step o c s st) as [s' n] eqn:Hb.
    intros [= <-]. eapply w_sweep; [done|done|by apply guard_time|done].
Qed.

Lemma performs_steps cmds : forall x y, performs x cmds = Some y -> rtc world_step x y.
Proof.
  induction cmds as [|cmd cmds IH]; intros x y; cbn; [by intros [= ->]|].
  destruct (perform x cmd) as [x'|] eqn:E; [|done]. intros Hy. eapply rtc_l; [by eapply perform_steps|by apply IH].
Qed.
End interleaved.

#[local] Existing Instance sample_codec.
#[local] Existing Instance sample_laws.

(** Options of which only the newest manifest is retained. *)
Definition lean_options : Options :=
  WriterLease.mkOptions "control/replication" (3 * Second) Second Second (5 * Minute) (5 * Minute) (250 * Millisecond)
    (Z.shiftl 1 20) (Z.shiftl 1 30) (Z.shiftl 512 20) 1 128.

(** A full publication of [l] at [t] by controller 0, in five calls. *)
Definition ship_calls (t : Z) (l : list byte) (n : nat) : list command := repeat (CShip 0 (sample_call t l Answered)) n.
Definition full_ship (t : Z) (l : list byte) : list command :=
  CTick t :: CBegin 0 (sample_call t l Answered) 5 true :: ship_calls t l 5.
(** A collection by controller 1. *)
Definition collection (t : Z) (n : nat) : list command :=
  CCollect 1 (sample_call t [] Answered) :: repeat (CSweep 1 (sample_call t [] Answered)) n.

(** Controller 0 publishes twice; long after, controller 1 collects in the
    middle of its third publication, when the new snapshot is stored and
    nothing names it yet. *)
Definition busy_run : list command :=
  [CStart; CStart] ++ full_ship (10 * Second) [x01] ++ full_ship (20 * Second) [x02] ++
  [CTick (1000 * Second); CBegin 0 (sample_call (1000 * Second) [x03] Answered) 5 true] ++
  ship_calls (1000 * Second) [x03] 1 ++ collection (1000 * Second) 6 ++ ship_calls (1000 * Second) [x03] 4.

Definition arrived (ship_time : Z) (cmds : list command) : world :=
  default empty_world (performs lean_options ship_time Minute empty_world cmds).

Definition possible (ship_time : Z) (cmds : list command) : bool :=
  match performs lean_options ship_time Minute empty_world cmds with Some _ => true | None => false end.

Lemma arrived_steps ship_time cmds : possible ship_time cmds = true ->
  rtc (world_step lean_options ship_time Minute) empty_world (arrived ship_time cmds).
Proof.
  unfold possible, arrived. destruct (performs _ _ _ _ _) as [x|] eqn:E; [|done]. intros _. by eapply performs_steps.
Qed.

(** The objects of the first publication are gone, the third is published. *)
Definition third_published (x : world) : bool :=
  match pointer lean_options (bucket x) with Some m => Sequence m =? 3 | None => false end
  && bool_decide (objects (bucket x) !! manifestKey lean_options 1 1 = None)
  && bool_decide (objects (bucket x) !! manifestKey lean_options 1 2 <> None).

Lemma recovery_point_is_restorable_witness :
  third_published (arrived Minute busy_run) = true /\
  match pointer lean_options (bucket (arrived Minute busy_run)) with
  | None => loadManifest lean_options (bucket (arrived Minute busy_run)) = Err ErrNoRecoveryPoint
  | Some m => loadManifest lean_options (bucket (arrived Minute busy_run)) = Ok m /\
      restorable lean_options (bucket (arrived Minute busy_run)) m
  end.
Proof.
  split; [vm_compute; reflexivity|].
  apply (recovery_point_is_restorable lean_options Minute Minute).
  - vm_compute. discriminate.
  - apply arrived_steps. vm_compute. reflexivity.
Defined.

(** Controller 0 captures the bytes of its first snapshot again and finds the
    old object, which nothing names any more; controller 1 collects before the
    manifest that names it is written. *)
Definition reuse_run : list command :=
  [CStart; CStart] ++ full_ship (10 * Second) [x01] ++ full_ship (20 * Second) [x02] ++
  [CTick (1000 * Second); CBegin 0 (sample_call (1000 * Second) [x01] Answered) 5 true] ++
  ship_calls (1000 * Second) [x01] 2 ++ collection (1000 * Second) 6 ++ ship_calls (1000 * Second) [x01] 4.

Definition snapshot_lost (x : world) : bool :=
  match pointer lean_options (bucket x) with
  | Some m => (Sequence m =? 3) && match fetch (Snapshot m) (MaxSnapshotBytes lean_options) (bucket x) with
                                   | Err ErrStore => true
                                   | _ => false
                                   end
  | None => false
  end.

(** The bound on what a publication relies on is needed: an old object that is
    found, checked and then collected by another controller leaves a published
    recovery point whose snapshot is gone, though the whole publication took no
    time. *)
Theorem reused_snapshot_is_collected :
  exists x m, rtc (world_step lean_options (20 * Minute) Minute) empty_world x /\
    pointer lean_options (bucket x) = Some m /\ fetch (Snapshot m) (MaxSnapshotBytes lean_options) (bucket x) = Err ErrStore.
Proof.
  pose proof (arrived_steps (20 * Minute) reuse_run ltac:(vm_compute; reflexivity)) as Hr.
  assert (snapshot_lost (arrived (20 * Minute) reuse_run) = true) as Hl by (vm_compute; reflexivity).
  exists (arrived (20 * Minute) reuse_run). unfold snapshot_lost in Hl. destruct (pointer _ _) as [m|]; [|done].
  exists m. split; [done|split; [done|]]. apply andb_true_iff in Hl as [_ Hl]. by destruct (fetch _ _ _) as [|[]].
Qed.
End CollectProofs.
