(* ===== verification/Capture.v ===== *)
(** * Capturing the controller's database

    Translation of [src/internal/control/replicate/sqlite.go]: the copy of the
    database file and of the committed part of its WAL.  SQLite's answers and
    the bytes the files hold at each read are arguments; an attempt to copy the
    WAL may see the file change between its inspection and its copy.

    The theorems compose the capture with the shipper and the restorer: what a
    fault-free [Ship] publishes is what a standby then fetches. *)

From Stdlib Require Import ZArith Lia Strings.Byte Strings.String Strings.Ascii.
From stdpp Require Import base gmap strings option sorting relations list.
From S2P Require Import Prelude GoStd Wal WriterLease Replicate ReplicateProofs.
#[local] Open Scope Z_scope.

Module Capture.
Import WriterLease(Options, Prefix, SnapshotInterval, OrphanGrace, MaxManifestBytes, MaxSnapshotBytes, MaxWALBytes,
  RetainManifests, MaxDeletesPerRun, formatVersion).
Import Replicate ReplicateProofs.

Definition size_of (l : list byte) : Z := Z.of_nat (length l).

Definition payloadFromStableFile (body : list byte) (max : Z) (lineage : string) : result ship_error Payload :=
  if (size_of body <? 1) || (max <? size_of body) then Err (ErrShip "capture size outside configured bound")
  else Ok (mkPayload body (size_of body) (hash body) lineage).

(** How a capture of the WAL ends. *)
Inductive capture := Captured (p : Payload) | NoWAL | WALReset | Failed (e : ship_error).

Definition absent (expectedLineage : string) : capture := if expectedLineage <>s "" then WALReset else NoWAL.

(** One attempt: [file] is what the inspection reads, [later] what the copy
    reads; [None] is [continue]. *)
Definition capture_once (max : Z) (expectedLineage : string) (file : option (list byte)) (later : list byte)
  : option capture :=
  match file with
  | None => Some (absent expectedLineage)
  | Some data =>
      if size_of data =? 0 then Some (absent expectedLineage)
      else match Wal.inspectWAL data (size_of data) max false with
      | Err e => Some (Failed (ErrWAL e))
      | Ok inspection =>
          if (expectedLineage <>s "") && (Wal.Lineage inspection <>s expectedLineage) then Some WALReset
          else if Wal.CommittedBytes inspection =? 0 then Some NoWAL
          else if size_of later <? Wal.CommittedBytes inspection then Some (Failed (ErrShip "EOF"))
          else
            let body := take (Z.to_nat (Wal.CommittedBytes inspection)) later in
            match payloadFromStableFile body max (Wal.Lineage inspection) with
            | Err e => Some (Failed e)
            | Ok payload =>
                match Wal.validateStoredWAL body (pl_size payload) max (Wal.Lineage inspection) with
                | Err _ => None
                | Ok _ => Some (Captured payload)
                end
            end
      end
  end.

(** At most three attempts. *)
Fixpoint capture_loop (max : Z) (expectedLineage : string) (attempts : list (option (list byte) * list byte)) : capture :=
  match attempts with
  | [] => Failed (ErrShip "WAL changed during three capture attempts")
  | (file, later) :: t =>
      match capture_once max expectedLineage file later with
      | Some r => r
      | None => capture_loop max expectedLineage t
      end
  end.

Definition captureWALLocked (max : Z) (expectedLineage : string) (a b c : option (list byte) * list byte) : capture :=
  capture_loop max expectedLineage [a; b; c].

Definition copyBoundedFile (source : list byte) (max : Z) : result ship_error (list byte) :=
  if (size_of source <? 1) || (max <? size_of source) then Err (ErrShip "snapshot size outside configured bound")
  else Ok source.

(** What [Full] meets: the answer of the truncating checkpoint, whether the
    writer was locked, the database file under the lock, whether the lock was
    released by a commit, the WAL, and the clock. *)
Record full_io := mkFullIO {
  checkpoint : option (Z * Z * Z); locked : bool; dbfile : list byte; committed : bool;
  wal_attempts : (option (list byte) * list byte) * (option (list byte) * list byte) * (option (list byte) * list byte);
  full_at : Z }.

Definition Full (maxSnapshot maxWAL : Z) (io : full_io) : result ship_error (option Payload * option Payload * Z) :=
  match checkpoint io with
  | None => Err (ErrShip "truncate SQLite WAL")
  | Some (busy, logFrames, checkpointed) =>
      if negb (busy =? 0) || negb (logFrames =? checkpointed) then Err (ErrShip "SQLite checkpoint incomplete")
      else if negb (locked io) then Err (ErrShip "lock SQLite writer for snapshot")
      else
        let? copied := copyBoundedFile (dbfile io) maxSnapshot in
        if negb (committed io) then Err (ErrShip "snapshot SQLite database")
        else
          let? snapshot := payloadFromStableFile copied maxSnapshot EmptyString in
          let '(a, b, c) := wal_attempts io in
          match captureWALLocked maxWAL EmptyString a b c with
          | Failed e => Err e
          | WALReset => Err (ErrShip "WAL lineage changed")
          | NoWAL => Ok (Some snapshot, None, full_at io)
          | Captured wal => Ok (Some snapshot, Some wal, full_at io)
          end
  end.

(** ** What a capture is *)

Lemma in_range_iff lo hi b : GoStd.in_range lo hi b = true <-> lo <= b <= hi.
Proof. unfold GoStd.in_range. rewrite andb_true_iff, !Z.leb_le. done. Qed.

Lemma hex_digit_lower n : 0 <= n < 16 -> lower_hex (GoStd.hex_digit n) = true.
Proof.
  intros. unfold lower_hex, GoStd.hex_digit. apply orb_true_iff. rewrite !in_range_iff.
  destruct (n <? 10) eqn:E; bool_hyp; lia.
Qed.

Lemma hex_bytes_lower l : forallb lower_hex (GoStd.hex_bytes l) = true.
Proof.
  induction l as [|b l IH]; [done|]. cbn [GoStd.hex_bytes forallb].
  by rewrite !hex_digit_lower, IH by (apply Z.mod_pos_bound; lia).
Qed.

Lemma string_bytes_length s : length (GoStd.string_bytes s) = String.length s.
Proof.
  unfold GoStd.string_bytes. rewrite length_map. unfold list_byte_of_string. rewrite length_map.
  induction s as [|x s IH]; [done|]. cbn. by rewrite IH.
Qed.

Lemma hash_valid l : validDigest (hash l) = true.
Proof.
  assert (GoStd.string_bytes (hash l) = GoStd.hex_bytes (GoStd.Sha256.Sum256 (map byte_val l))) as E.
  { unfold hash, GoStd.EncodeToString. apply GoStd.string_bytes_of_bytes, GoStd.hex_bytes_visible. }
  unfold validDigest. rewrite <- string_bytes_length, E, GoStd.length_hex_bytes, GoStd.Sha256.length_Sum256.
  by rewrite hex_bytes_lower.
Qed.

(** A payload a shipper accepts under the bound [max]. *)
Record publishable (max : Z) (p : Payload) : Prop := mkPublishable {
  pub_size : pl_size p = size_of (pl_body p);
  pub_sha : pl_sha p = hash (pl_body p);
  pub_bound : 1 <= pl_size p <= max }.

Lemma stable_publishable body max lineage p : payloadFromStableFile body max lineage = Ok p ->
  publishable max p /\ pl_body p = body /\ pl_lineage p = lineage.
Proof.
  unfold payloadFromStableFile. step_if; [done|]. bool_hyp. intros [= <-]. split; [|done]. by split; [done|done|cbn; lia].
Qed.

(** A captured WAL. *)
Record stored_wal (max : Z) (p : Payload) : Prop := mkStoredWAL {
  wal_publishable : publishable max p;
  wal_valid : Wal.validateStoredWAL (pl_body p) (pl_size p) max (pl_lineage p) = Ok tt;
  wal_lineage : exists s1 s2, pl_lineage p = Wal.lineage_of s1 s2;
  wal_header : Wal.walHeaderBytes <= pl_size p }.

Lemma inspect_facts data size max exact i : Wal.inspectWAL data size max exact = Ok i ->
  (exists s1 s2, Wal.Lineage i = Wal.lineage_of s1 s2) /\ Wal.walHeaderBytes <= size.
Proof.
  unfold Wal.inspectWAL. destruct (Wal.parse_header data size max) as [h|] eqn:Eh; [|done]. cbn.
  assert (Wal.walHeaderBytes <= size) as Hh by (unfold Wal.parse_header in Eh; step_if; [done|]; by bool_hyp).
  destruct (Wal.scan_frames _ _ _ _ _ _ _ _ _ _) as [k|]; [|done]. cbn.
  step_if; [intros [= <-]|step_if; [done|intros [= <-]]]; (split; [by eexists _, _|done]).
Qed.

Lemma capture_once_stored max lin file later p : capture_once max lin file later = Some (Captured p) ->
  stored_wal max p /\ (lin = EmptyString \/ pl_lineage p = lin).
Proof.
  unfold capture_once, absent. destruct file as [data|]; [|by step_if]. step_if; [by step_if|].
  destruct (Wal.inspectWAL data (size_of data) max false) as [i|] eqn:Ei; [|done]. step_if; [done|]. step_if; [done|].
  step_if; [done|]. cbv zeta. destruct (payloadFromStableFile _ _ _) as [q|] eqn:Eq; [|done].
  destruct (Wal.validateStoredWAL _ _ _ _) as [[]|] eqn:Ev; [|done]. intros [= <-].
  destruct (stable_publishable _ _ _ _ Eq) as (Hp & Hb & Hl). destruct (inspect_facts _ _ _ _ _ Ei) as [Hlin _]. split.
  - rewrite <- Hb in Ev. rewrite <- Hl in Ev, Hlin. split; [done|done|done|]. unfold Wal.validateStoredWAL in Ev.
    destruct (Wal.inspectWAL _ (pl_size q) _ _) as [i'|] eqn:Ei'; [|done]. by apply inspect_facts in Ei' as [_ ?].
  - rewrite Hl. apply andb_false_iff in E0 as [E0|E0]; apply negb_false_iff, str_eqb_eq in E0; auto.
Qed.

Lemma capture_loop_stored max lin l p : capture_loop max lin l = Captured p ->
  stored_wal max p /\ (lin = EmptyString \/ pl_lineage p = lin).
Proof.
  induction l as [|[file later] l IH]; [done|]. cbn [capture_loop].
  destruct (capture_once max lin file later) as [r|] eqn:E; [|done]. intros ->. by apply capture_once_stored in E.
Qed.

Lemma Full_captures ms mw fio snap wal at_ : Full ms mw fio = Ok (snap, wal, at_) ->
  exists p, snap = Some p /\ publishable ms p /\ pl_body p = dbfile fio /\ forall w, wal = Some w -> stored_wal mw w.
Proof.
  unfold Full. destruct (checkpoint fio) as [[[busy lf] ck]|]; [|done]. step_if; [done|]. step_if; [done|].
  unfold copyBoundedFile. step_if; [done|]. step_if; [done|].
  destruct (payloadFromStableFile (dbfile fio) ms EmptyString) as [p|] eqn:Ep; [|done].
  destruct (stable_publishable _ _ _ _ Ep) as (Hp & Hb & _). destruct (wal_attempts fio) as [[a b] c].
  destruct (captureWALLocked mw EmptyString a b c) as [w| | |] eqn:Ew; try done; intros [= <- <- <-]; exists p; split_and!; try done.
  intros w' [= <-]. by apply capture_loop_stored in Ew as [? _].
Qed.

Lemma wal_hex_digit z : 0 <= z < 16 -> lower_hex (Z.of_N (N_of_ascii (Wal.hex_digit z))) = true.
Proof.
  intros Hz. assert (z = 0 \/ z = 1 \/ z = 2 \/ z = 3 \/ z = 4 \/ z = 5 \/ z = 6 \/ z = 7 \/ z = 8 \/ z = 9 \/ z = 10 \/
    z = 11 \/ z = 12 \/ z = 13 \/ z = 14 \/ z = 15) as Hc by lia. by destruct_or! Hc; subst z.
Qed.

Lemma string_bytes_cons x s : GoStd.string_bytes (String x s) = Z.of_N (N_of_ascii x) :: GoStd.string_bytes s.
Proof.
  unfold GoStd.string_bytes, list_byte_of_string. cbn [list_ascii_of_string map]. f_equal.
  destruct x as [[] [] [] [] [] [] [] []]; reflexivity.
Qed.

Lemma hex_lower n z : forallb lower_hex (GoStd.string_bytes (Wal.hex n z)) = true.
Proof.
  induction n as [|n IH]; [done|]. cbn [Wal.hex]. rewrite string_bytes_cons. cbn [forallb].
  by rewrite wal_hex_digit, IH by (apply Z.mod_pos_bound; lia).
Qed.

Lemma hex_length n z : String.length (Wal.hex n z) = n.
Proof. induction n as [|n IH]; [done|]. cbn. by rewrite IH. Qed.

Lemma lineage_valid s1 s2 : String.length (Wal.lineage_of s1 s2) = 16%nat /\
  forallb any_hex (GoStd.string_bytes (Wal.lineage_of s1 s2)) = true.
Proof.
  unfold Wal.lineage_of. split.
  - by rewrite <- string_bytes_length, GoStd.string_bytes_app, length_app, !string_bytes_length, !hex_length.
  - rewrite GoStd.string_bytes_app, forallb_app, andb_true_iff. split; apply forallb_forall; intros b Hb;
      unfold any_hex; apply orb_true_iff; left; revert b Hb; apply forallb_forall, hex_lower.
Qed.

(** ** A publication nothing disturbs *)

Section undisturbed.
Context (o : Options) `{ManifestLaws}.

(** A call of the holder of [epoch] at [t] that the store answers. *)
Record undisturbed (epoch t : Z) (c : call) : Prop := mkUndisturbed {
  q_now : now c = t; q_decide : decide_ c = Some epoch; q_guard : guard c = true; q_readable : readable c = true;
  q_io : io c = Answered }.

Definition next_sequence (cur : option Manifest) (epoch : Z) : Z :=
  match cur with Some cur => if Epoch cur =? epoch then Sequence cur + 1 else 1 | None => 1 end.

(** The manifest such a publication commits. *)
Definition committed_manifest (cur : option Manifest) (epoch seq t at_ : Z) (snap : Payload) (wal : option Payload) : Manifest :=
  let q := next_sequence cur epoch in
  mkManifest formatVersion (manifestKey o epoch q) epoch q at_ t
    (mkRef (snapshotKey o epoch (pl_sha snap)) (pl_size snap) (pl_sha snap))
    (match wal with Some w => Some (mkRef (walKey o epoch (pl_sha w)) (pl_size w) (pl_sha w)) | None => None end)
    (match wal with Some w => pl_lineage w | None => EmptyString end) seq.

(** What a publication may follow. *)
Definition precedes (cur : option Manifest) (epoch seq : Z) : Prop :=
  forall m, cur = Some m -> Epoch m <= epoch /\ SourceEventSeq m <= seq /\ 0 <= Sequence m < maxUint64.

Lemma epoch_keys epoch a b : a <> b -> (epochRoot o epoch ++ a)%string <> (epochRoot o epoch ++ b)%string.
Proof. intros Hab E. apply Hab. by apply (inj (String.append (epochRoot o epoch))) in E. Qed.

Lemma refresh_undisturbed c s sh : cloud_ok o s -> readable c = true ->
  exists r sh1, refresh o c s sh = (r, sh1) /\ (r = Ok tt \/ r = Err ErrNoRecoveryPoint) /\
    current sh1 = pointer o s /\ currentETag sh1 = fmap etag (objects s !! pointerKey o).
Proof.
  intros (_ & Hp & _) Hr. unfold refresh, pointer. rewrite Hr. cbn [negb].
  destruct (objects s !! pointerKey o) as [ob|] eqn:Eo; [|eexists _, _; split_and!; eauto; done].
  destruct (Hp ob eq_refl) as (m & Hc & Hm). pose proof (good_reads o s _ ob m Hm Eo Hc) as Hread.
  unfold read_manifest in Hread. rewrite Eo in Hread. destruct (readJSON o ob) as [m'|]; [|done].
  destruct (validateManifest o m') as [[]|]; [|done]. injection Hread as ->. rewrite Hc, dec_enc.
  eexists _, _. split_and!; [done|by left|done|done].
Qed.

Lemma begin_ship_undisturbed c epoch seq t s sh snap wal at_ : cloud_ok o s -> undisturbed epoch t c ->
  full_capture c = Ok (Some snap, wal, at_) -> precedes (pointer o s) epoch seq ->
  exists sh1, begin_ship o c seq true s sh =
      (sh1, At (PutSnapshot (mkPublication epoch seq (Some snap) wal at_ true) snap)) /\
    current sh1 = pointer o s /\ currentETag sh1 = fmap etag (objects s !! pointerKey o).
Proof.
  intros Hs [_ Hd _ Hr _] Hf Hp. destruct (refresh_undisturbed c s sh Hs Hr) as (r & sh1 & Er & Hok & Hcur & Htag).
  exists sh1. split; [|done]. unfold begin_ship. rewrite Er.
  assert (full_of c epoch seq = At (PutSnapshot (mkPublication epoch seq (Some snap) wal at_ true) snap)) as Hfull
    by (unfold full_of; by rewrite Hf).
  destruct Hok as [->| ->]; rewrite Hd, Hcur; (destruct (pointer o s) as [cur|]; [|by rewrite Hfull]);
    destruct (Hp cur eq_refl) as (He & Hq & _); rewrite !(proj2 (Z.ltb_ge _ _)) by lia; by rewrite Hfull.
Qed.

Lemma put_payload_undisturbed c epoch t max ref pl s existed stored : undisturbed epoch t c -> publishable max pl ->
  objects s !! Key ref = None ->
  put_payload c max ref pl s existed stored = (write t (payload_put (Key ref) pl) s, stored).
Proof.
  intros [Ht _ _ _ Hio] [Hz Hh Hb] Hn. unfold put_payload, invalid_capture, PutObject, cond_holds, body_ok.
  rewrite Hio, Ht, Hh, hash_valid. rewrite !(proj2 (Z.ltb_ge _ _)) by lia. cbn [pcond pkey psha payload_put pbody orb negb].
  rewrite Hh, str_eqb_refl, Hz. unfold size_of. rewrite Z.eqb_refl, Hn. done.
Qed.

(** [s'] is [s] with [bodies] added. *)
Definition adds (bodies : list (string * list byte)) (s s' : cloud) : Prop :=
  (forall k b, (k, b) ∈ bodies -> exists ob, objects s' !! k = Some ob /\ content ob = b) /\
  forall k, k ∉ map fst bodies -> objects s' !! k = objects s !! k.

Lemma adds_refl s : adds [] s s.
Proof. split; [|done]. intros k b Hk. by apply elem_of_nil in Hk. Qed.

Lemma adds_write t r bodies s s' : adds bodies s s' -> pkey r ∉ map fst bodies ->
  adds ((pkey r, pbody r) :: bodies) s (write t r s').
Proof.
  intros [Hin Hout] Hn. split.
  - intros k b Hk. cbn. apply elem_of_cons in Hk as [[= -> ->]|Hk]; [rewrite lookup_insert_eq; by eexists|].
    rewrite lookup_insert_ne; [by apply Hin|]. intros E. apply Hn. rewrite E. by apply (list_elem_of_fmap_2 fst) in Hk.
  - intros k Hk. cbn in *. apply not_elem_of_cons in Hk as [Hne Hk]. rewrite lookup_insert_ne by done. by apply Hout.
Qed.

(** The objects a publication creates for its payloads. *)
Definition payload_bodies (epoch : Z) (snap : Payload) (wal : option Payload) : list (string * list byte) :=
  match wal with Some w => [(walKey o epoch (pl_sha w), pl_body w)] | None => [] end
  ++ [(snapshotKey o epoch (pl_sha snap), pl_body snap)].

Lemma publish_payloads epoch t calls seq snap wal at_ s sh : Forall (undisturbed epoch t) calls -> (6 <= length calls)%nat ->
  publishable (MaxSnapshotBytes o) snap -> (forall w, wal = Some w -> publishable (MaxWALBytes o) w) ->
  objects s !! snapshotKey o epoch (pl_sha snap) = None ->
  (forall w, wal = Some w -> objects s !! walKey o epoch (pl_sha w) = None) ->
  let p := mkPublication epoch seq (Some snap) wal at_ true in
  let m := committed_manifest (current sh) epoch seq t at_ snap wal in
  exists s' rest, adds (payload_bodies epoch snap wal) s s' /\ Forall (undisturbed epoch t) rest /\ (4 <= length rest)%nat /\
    publish o calls s sh (At (PutSnapshot p snap)) =
    publish o rest s' sh (At (AtGuard p (Snapshot m) (WAL m) (WALLineage m))).
Proof.
  intros Hc Hl Hs Hw Hns Hnw p m. destruct calls as [|c1 calls]; [cbn in Hl; lia|]. inversion_clear Hc as [|? ? Hc1 Hc2].
  cbn [publish ship_step]. rewrite (put_payload_undisturbed c1 epoch t) by done.
  set (s1 := write t (payload_put _ snap) s).
  assert (adds [(snapshotKey o epoch (pl_sha snap), pl_body snap)] s s1) as Ha.
  { apply (adds_write t (payload_put (snapshotKey o epoch (pl_sha snap)) snap) [] s s); [apply adds_refl|apply not_elem_of_nil]. }
  unfold after_snapshot. cbn [pwal p]. destruct wal as [w|]; [|exists s1, calls; split_and!; [done|done|cbn in Hl; lia|done]].
  destruct calls as [|c2 calls]; [cbn in Hl; lia|]. inversion_clear Hc2 as [|? ? Hc2' Hc3].
  assert (walKey o epoch (pl_sha w) ∉ map fst [(snapshotKey o epoch (pl_sha snap), pl_body snap)]) as Hne.
  { cbn. intros Hin%list_elem_of_singleton. revert Hin. by apply epoch_keys. }
  cbn [publish ship_step]. rewrite (put_payload_undisturbed c2 epoch t); [|done|by apply Hw|].
  2: { destruct Ha as [_ Ha]. cbn [Key wal_ref pepoch p]. rewrite Ha by done. by apply Hnw. }
  eexists _, calls. split_and!; [|done|cbn in Hl; lia|reflexivity].
  by apply (adds_write t (payload_put (walKey o epoch (pl_sha w)) w)).
Qed.

Lemma committed_manifest_valid cur epoch seq t at_ snap wal : publishable (MaxSnapshotBytes o) snap ->
  (forall w, wal = Some w -> stored_wal (MaxWALBytes o) w) -> epoch <> 0 -> at_ <> 0 -> t <> 0 -> at_ <= t ->
  precedes cur epoch seq -> validateManifest o (committed_manifest cur epoch seq t at_ snap wal) = Ok tt.
Proof.
  intros [_ Hh Hb] Hw He Ha Ht Hat Hp. unfold validateManifest, committed_manifest. cbn zeta.
  cbn [Version MKey Epoch Sequence CapturedAt CommittedAt Snapshot Key Size SHA256 WAL WALLineage].
  assert (next_sequence cur epoch <> 0) as Hq.
  { unfold next_sequence. destruct cur as [m|]; [|done]. destruct (Hp m eq_refl) as (_ & _ & ?). step_if; lia. }
  unfold isZeroTime. rewrite !str_eqb_refl, Hh, hash_valid, Z.eqb_refl.
  rewrite !(proj2 (Z.eqb_neq _ _)) by done. rewrite !(proj2 (Z.ltb_ge _ _)) by lia. cbn [orb negb].
  destruct wal as [w|]; [|done]. destruct (Hw w eq_refl) as [[_ Hhw Hbw] _ (s1 & s2 & Hlin) Hhd].
  destruct (lineage_valid s1 s2) as [Hlen Hhex]. cbn [Key Size SHA256].
  rewrite !str_eqb_refl, Hhw, hash_valid, Hlin, Hlen, Hhex. by rewrite !(proj2 (Z.ltb_ge _ _)) by lia.
Qed.

Lemma make_manifest_undisturbed c epoch t seq snap wal at_ sh : undisturbed epoch t c ->
  let m := committed_manifest (current sh) epoch seq t at_ snap wal in
  let p := mkPublication epoch seq (Some snap) wal at_ true in
  precedes (current sh) epoch seq -> validateManifest o m = Ok tt -> Z.of_nat (length (enc m)) <= MaxManifestBytes o ->
  make_manifest o c p (Snapshot m) (WAL m) (WALLineage m) sh = At (PutManifest p m).
Proof.
  intros [Ht _ Hg _ _] m p Hp Hv Hz. unfold make_manifest. rewrite Hg, Ht. cbn [negb full p pepoch captured eventSeq].
  assert ((match current sh with
           | Some cur => if Epoch cur =? epoch then if Sequence cur =? maxUint64 then None else Some (Sequence cur + 1) else Some 1
           | None => Some 1 end) = Some (next_sequence (current sh) epoch)) as ->.
  { unfold next_sequence. destruct (current sh) as [cur|]; [|done]. destruct (Hp cur eq_refl) as (_ & _ & Hq).
    rewrite (proj2 (Z.eqb_neq (Sequence cur) _)) by lia. by step_if. }
  cbv zeta. change (mkManifest _ _ _ _ _ _ _ _ _ _) with m. rewrite Hv. by rewrite (proj2 (Z.ltb_ge _ _)) by lia.
Qed.

Lemma publish_manifest epoch t calls m p s sh : Forall (undisturbed epoch t) calls -> (3 <= length calls)%nat ->
  MKey m <> pointerKey o -> objects s !! MKey m = None -> currentETag sh = fmap etag (objects s !! pointerKey o) ->
  exists s' sh', publish o calls s sh (At (PutManifest p m)) = (s', sh', Done (Ok m)) /\
    adds [(pointerKey o, enc m); (MKey m, enc m)] s s'.
Proof.
  intros Hc Hl Hk Hn Ht. destruct calls as [|c1 [|c2 [|c3 calls]]]; cbn in Hl; try lia.
  inversion_clear Hc as [|? ? [Ht1 _ _ _ Hi1] Hc']. inversion_clear Hc' as [|? ? [_ Hd2 _ _ _] Hc''].
  inversion_clear Hc'' as [|? ? [Ht3 _ _ _ Hi3] _].
  assert (cond_holds (mkPut (MKey m) (enc m) IfNoneMatch None) s = true) as Hcond1 by (unfold cond_holds; cbn; by rewrite Hn).
  cbn [publish ship_step]. unfold PutObject at 1. rewrite Hi1, Hcond1, Ht1. cbn [body_ok psha negb publish ship_step].
  rewrite Hd2. cbn [publish ship_step]. set (s1 := write t _ s).
  set (r := mkPut (pointerKey o) (enc m) match currentETag sh with None => IfNoneMatch | Some tag => IfMatch tag end None).
  assert (adds [(MKey m, enc m)] s s1) as Ha
    by (apply (adds_write t (mkPut (MKey m) (enc m) IfNoneMatch None) [] s s); [apply adds_refl|apply not_elem_of_nil]).
  assert (cond_holds r s1 = true) as Hcond.
  { unfold cond_holds. cbn [pcond pkey r]. destruct Ha as [_ Ha].
    rewrite (Ha (pointerKey o)) by (intros Hin%list_elem_of_singleton; by apply Hk). rewrite Ht.
    destruct (objects s !! pointerKey o); [apply Nat.eqb_refl|done]. }
  unfold PutObject. rewrite Hi3, Hcond, Ht3. cbn [body_ok psha negb r].
  assert (forall s' sh', publish o calls s' sh' (Done (Ok m)) = (s', sh', Done (Ok m))) as Hend by (by destruct calls).
  eexists _, _. split; [apply Hend|]. apply (adds_write t r); [done|]. cbn. intros Hin%list_elem_of_singleton. by apply Hk.
Qed.

Lemma adds_trans b1 b2 s1 s2 s3 : adds b1 s1 s2 -> adds b2 s2 s3 -> (forall k, k ∈ map fst b1 -> k ∉ map fst b2) ->
  adds (b1 ++ b2) s1 s3.
Proof.
  intros [Hi1 Ho1] [Hi2 Ho2] Hd. split.
  - intros k b [Hk|Hk]%elem_of_app; [|by apply Hi2]. rewrite Ho2; [by apply Hi1|]. apply Hd.
    by apply (list_elem_of_fmap_2 fst) in Hk.
  - intros k Hk. rewrite map_app in Hk. apply not_elem_of_app in Hk as [? ?]. by rewrite Ho2, Ho1.
Qed.

Lemma fetch_stored s ref max pl : publishable max pl -> Size ref = pl_size pl -> SHA256 ref = pl_sha pl ->
  (exists ob, objects s !! Key ref = Some ob /\ content ob = pl_body pl) -> fetch ref max s = Ok (pl_body pl).
Proof.
  intros [Hz Hh Hb] Ez Eh (ob & Ho & Hc). unfold fetch, osize. rewrite Ez, Eh, Ho, Hc, Hz, Hh. unfold size_of in *.
  rewrite Z.eqb_refl, str_eqb_refl. by rewrite !(proj2 (Z.ltb_ge _ _)) by lia.
Qed.

Lemma payload_keys epoch snap wal q k : k ∈ map fst (payload_bodies epoch snap wal) ->
  k <> pointerKey o /\ k <> manifestKey o epoch q.
Proof.
  unfold payload_bodies. rewrite map_app. intros [Hk|Hk]%elem_of_app.
  - destruct wal as [w|]; [|by apply elem_of_nil in Hk]. apply list_elem_of_singleton in Hk as ->.
    split; [apply epoch_key_not_pointer|by apply epoch_keys].
  - apply list_elem_of_singleton in Hk as ->. split; [apply epoch_key_not_pointer|by apply epoch_keys].
Qed.

Lemma publishable_has s ref max pl : publishable max pl -> Size ref = pl_size pl -> SHA256 ref = pl_sha pl ->
  Key ref <> pointerKey o -> (exists ob, objects s !! Key ref = Some ob /\ content ob = pl_body pl) -> has o s ref.
Proof.
  intros [Hz Hh _] Ez Eh Hk (ob & Ho & Hc). split; [done|]. exists ob. unfold osize. rewrite Ho, Hc, Ez, Eh, Hz, Hh. done.
Qed.

(** What a standby finds once the objects of a publication are in the store. *)
Lemma restores cur epoch seq t at_ snap wal s s' : publishable (MaxSnapshotBytes o) snap ->
  (forall w, wal = Some w -> stored_wal (MaxWALBytes o) w) ->
  let m := committed_manifest cur epoch seq t at_ snap wal in
  validateManifest o m = Ok tt -> Z.of_nat (length (enc m)) <= MaxManifestBytes o ->
  adds (payload_bodies epoch snap wal ++ [(pointerKey o, enc m); (MKey m, enc m)]) s s' ->
  loadManifest o s' = Ok m /\ fetch (Snapshot m) (MaxSnapshotBytes o) s' = Ok (pl_body snap) /\
  fetch_wal o m s' = Ok (fmap pl_body wal).
Proof.
  intros Hsnap Hwal m Hv Hz [Hin _].
  assert (exists ob, objects s' !! Key (Snapshot m) = Some ob /\ content ob = pl_body snap) as Hos.
  { apply Hin, elem_of_app. left. apply elem_of_app. right. by apply list_elem_of_singleton. }
  assert (forall w, wal = Some w -> exists ob, objects s' !! walKey o epoch (pl_sha w) = Some ob /\ content ob = pl_body w) as How.
  { intros w ->. apply Hin, elem_of_app. left. apply list_elem_of_here. }
  assert (exists ob, objects s' !! pointerKey o = Some ob /\ content ob = enc m) as (obp & Hop & Hcp).
  { apply Hin, elem_of_app. right. apply list_elem_of_here. }
  assert (exists ob, objects s' !! MKey m = Some ob /\ content ob = enc m) as (obm & Hom & Hcm).
  { apply Hin, elem_of_app. right. apply list_elem_of_further, list_elem_of_here. }
  assert (good o s' m) as Hm.
  { split; [done|done|by exists obm|]. split.
    - apply (publishable_has s' _ (MaxSnapshotBytes o) snap); try done. apply epoch_key_not_pointer.
    - intros r Er. cbn in Er. destruct wal as [w|]; [|done]. injection Er as <-.
      apply (publishable_has s' _ (MaxWALBytes o) w); try done; [by apply Hwal|apply epoch_key_not_pointer|by apply How]. }
  split_and!.
  - unfold loadManifest. rewrite Hop, (good_reads o s' _ obp m Hm Hop Hcp), (good_reads o s' _ obm m Hm Hom Hcm).
    by rewrite bool_decide_true.
  - by apply fetch_stored.
  - unfold fetch_wal. cbn [m WAL WALLineage committed_manifest]. destruct wal as [w|]; [|done].
    destruct (Hwal w eq_refl) as [Hpub Hval _ _].
    rewrite (fetch_stored s' (mkRef (walKey o epoch (pl_sha w)) (pl_size w) (pl_sha w)) _ w Hpub eq_refl eq_refl (How w eq_refl)).
    cbn [Size]. by rewrite Hval.
Qed.

(** C27: A fault-free [Ship] of the holder commits what [Full] captured: it returns
    the next manifest, and a standby that loads the recovery point gets that
    manifest, the database file and the WAL as they were captured, the WAL
    passing the check of a stored one. *)
Theorem shipped_capture_is_restored x fio c calls epoch seq t sh snap wal at_ : rtc (sys_step o) empty_sys x ->
  Forall (undisturbed epoch t) (c :: calls) -> (6 <= length calls)%nat ->
  Full (MaxSnapshotBytes o) (MaxWALBytes o) fio = Ok (Some snap, wal, at_) -> full_capture c = Ok (Some snap, wal, at_) ->
  epoch <> 0 -> at_ <> 0 -> t <> 0 -> at_ <= t -> precedes (pointer o (store x)) epoch seq ->
  let m := committed_manifest (pointer o (store x)) epoch seq t at_ snap wal in
  Z.of_nat (length (enc m)) <= MaxManifestBytes o ->
  (forall k, k ∈ MKey m :: map fst (payload_bodies epoch snap wal) -> objects (store x) !! k = None) ->
  exists s' sh', Ship o c calls seq true (store x) sh = (s', sh', Done (Ok m)) /\
    loadManifest o s' = Ok m /\ fetch (Snapshot m) (MaxSnapshotBytes o) s' = Ok (dbfile fio) /\
    fetch_wal o m s' = Ok (fmap pl_body wal).
Proof.
  intros Hr Hcs Hl Hfull Hcap He Ha Ht Hat Hp m Hz Hfresh. destruct (sys_run_ok o _ _ (empty_sys_ok o) Hr) as [[Hs _] _].
  inversion_clear Hcs as [|? ? Hc Hcalls]. destruct (Full_captures _ _ _ _ _ _ Hfull) as (p & [= <-] & Hsnap & Hbody & Hwal).
  destruct (begin_ship_undisturbed c epoch seq t (store x) sh snap wal at_ Hs Hc Hcap Hp) as (sh1 & Hb & Hcur & Htag).
  unfold Ship. rewrite Hb. rewrite <- Hcur in Hp. subst m. rewrite <- Hcur in Hz, Hfresh |- *.
  set (m := committed_manifest _ _ _ _ _ _ _) in *.
  assert (validateManifest o m = Ok tt) as Hv by (by apply committed_manifest_valid).
  destruct (publish_payloads epoch t calls seq snap wal at_ (store x) sh1) as (s1 & rest & Hadd & Hrest & Hlr & ->); try done.
  { intros w Ew. by apply Hwal. }
  { apply Hfresh, list_elem_of_further. unfold payload_bodies. rewrite map_app. apply elem_of_app. right. by apply list_elem_of_singleton. }
  { intros w ->. apply Hfresh, list_elem_of_further, list_elem_of_here. }
  destruct rest as [|c' rest]; [cbn in Hlr; lia|]. inversion_clear Hrest as [|? ? Hc' Hrest']. cbn [publish ship_step].
  rewrite (make_manifest_undisturbed c' epoch t seq snap wal at_ sh1 Hc' Hp Hv Hz : make_manifest _ _ _ _ _ _ _ = _). fold m.
  assert (forall k, k ∉ map fst (payload_bodies epoch snap wal) -> objects s1 !! k = objects (store x) !! k) as Hsame by apply Hadd.
  assert (pointerKey o ∉ map fst (payload_bodies epoch snap wal)) as Hpk by (by intros [? _]%(payload_keys _ _ _ 0)).
  assert (MKey m ∉ map fst (payload_bodies epoch snap wal)) as Hmk
    by (intros [_ Hne]%(payload_keys _ _ _ (next_sequence (current sh1) epoch)); by apply Hne).
  edestruct (publish_manifest epoch t rest m) as (s' & sh' & Hpub & Hadd'); [done|cbn in Hlr; lia|by apply (valid_key o)
    |rewrite Hsame by done; apply Hfresh, list_elem_of_here|by rewrite Hsame|].
  exists s', sh'. split; [exact Hpub|]. rewrite <- Hbody. eapply restores; [done|done|done|done|].
  eapply adds_trans; [exact Hadd|exact Hadd'|]. intros k Hk.
  destruct (payload_keys _ _ _ (next_sequence (current sh1) epoch) k Hk) as [Hk1 Hk2]. cbn.
  intros [->|Hin]%elem_of_cons; [done|]. by apply list_elem_of_singleton in Hin.
Qed.
End undisturbed.

(** ** A run *)

#[local] Existing Instance sample_codec.
#[local] Existing Instance sample_laws.

(** A database of three bytes, with a WAL of one committed frame and a torn
    tail. *)
Definition sample_full_io : full_io :=
  mkFullIO (Some (0, 2, 2)) true [x10; x11; x12] true
    ((Some Wal.sample_wal, Wal.sample_wal), (None, []), (None, [])) 10.

Definition sample_capture : result ship_error (option Payload * option Payload * Z) :=
  Full (MaxSnapshotBytes sample_options) (MaxWALBytes sample_options) sample_full_io.

Definition captured_snapshot : Payload :=
  match sample_capture with Ok (Some p, _, _) => p | _ => sample_payload [] end.
Definition captured_wal : Payload :=
  match sample_capture with Ok (_, Some p, _) => p | _ => sample_payload [] end.

Definition capture_call : call :=
  mkCall 20 (Some 1) (Some 1) true (Ok (Some captured_snapshot, Some captured_wal, 10)) (fun _ => None) true Answered.

Lemma shipped_capture_is_restored_witness :
  length (pl_body captured_wal) = 568%nat /\
  let m := committed_manifest sample_options None 1 7 20 10 captured_snapshot (Some captured_wal) in
  exists s' sh', Ship sample_options capture_call (repeat capture_call 6) 7 true (store empty_sys) (mkShipper None None 0)
      = (s', sh', Done (Ok m)) /\
    loadManifest sample_options s' = Ok m /\
    fetch (Snapshot m) (MaxSnapshotBytes sample_options) s' = Ok [x10; x11; x12] /\
    fetch_wal sample_options m s' = Ok (Some (pl_body captured_wal)).
Proof.
  split; [vm_compute; reflexivity|].
  apply (shipped_capture_is_restored sample_options empty_sys sample_full_io capture_call (repeat capture_call 6) 1 7 20
    (mkShipper None None 0) captured_snapshot (Some captured_wal) 10).
  - apply rtc_refl.
  - repeat constructor.
  - cbn; lia.
  - vm_compute; reflexivity.
  - reflexivity.
  - lia.
  - lia.
  - lia.
  - lia.
  - intros m Hm. discriminate Hm.
  - vm_compute. discriminate.
  - intros k _. reflexivity.
Defined.
End Capture.
