(* ===== verification/Agents.v ===== *)
(** * Agents and approvals of the control plane

    Translation of the sections of [src/internal/control/agents.go] and
    [src/internal/control/approvals.go] that run under the control plane's
    lock: what a node reports about a run, messages, cancellation, sleep,
    destruction, the reconciliation that launches runs and gives up on lost
    ones, and the approvals a run or an egress rule parks for a human.

    [Control] holds the maps of the process and the rows of the database.  A
    transaction is a [bool]: whether it commits.  A dirty mark is an id: the
    map of the source holds the pointer that is in [approvals], so what a
    flush writes is the live record.  Authorization, idempotency keys, event
    payloads, the specification of an agent and its transcript mirror are not
    modelled; events are their types.  Nor is the retention of records
    ([PruneRecords] of [src/internal/control/control.go]), which deletes the
    agents and approvals of a destroyed workspace together. *)

From Stdlib Require Import ZArith Lia Strings.String Strings.Ascii.
From stdpp Require Import base gmap strings option sorting relations list pretty.
From S2P Require Import Prelude GoStd Lifecycle.
#[local] Open Scope Z_scope.

Module Agents.
Import Lifecycle(Code, CodeNotFound, CodeConflict, CodeDenied, CodeInternal, CodeResourceExhausted, CodeBadRequest,
  CodeStorage, WSState, WSPending, WSClaiming, WSClaimed, WSQuiescing, WSCheckpointing, WSPaused, WSReleased,
  WSDestroying, WSDestroyed, WSFailed, WSState_eq_dec, Workspace, AgentStatus, AgentCreating, AgentScheduled,
  AgentRunning, AgentWaitingInput, AgentIdle, AgentWaitingApproval, AgentSleeping, AgentFailed, AgentFinished,
  AgentDestroyed, AgentStatus_eq_dec, transitionAgent).

#[local] Existing Instance WSState_eq_dec.
#[local] Existing Instance AgentStatus_eq_dec.

(** ** Resources *)

Inductive fault := Fault (c : Code) | Unauthorized.

Inductive AgentRunState := AgentRunPending | AgentRunActive | AgentRunDone.

#[export] Instance AgentRunState_eq_dec : EqDecision AgentRunState.
Proof. solve_decision. Defined.

Record AgentPolicy := mkAgentPolicy { SleepAfterSec : Z; Approve : string; MaxTurns : Z; StartAt : Z }.

Record AgentMessage := mkMessage { MsgID : string; MsgKind : string; Text : string; By : string; At : Z }.

Record ACPCapabilities := mkCapabilities {
  LoadSession : bool; ResumeSession : bool; CloseSession : bool; AdditionalDirectories : bool }.

Record AgentRun := mkRun {
  RunID : string; Attempt : Z; RunNode : string; RunGeneration : Z; RunState : AgentRunState;
  Transcript : string; Loaded : bool; StartedAt : Z; FinishedAt : Z; StopReason : string; RunError : string;
  RunTurns : Z; LastReport : Z; TurnMessage : string }.

Record Agent := mkAgent {
  ID : string; Tenant : string; Owner : string; Name : string; WS : string; OwnsWS : bool;
  ACPSessionID : string; Capabilities : option ACPCapabilities; Status : AgentStatus; StatusReason : string;
  Inbox : list AgentMessage; Runs : list AgentRun; Turns : Z; Parent : string; Policy : AgentPolicy;
  TranscriptSession : string; TranscriptNode : string; PendingApprovals : Z; URL : string; UpdatedAt : Z;
  WakeTimer : string; IdleSince : Z; Failures : Z; ParentNotified : bool }.

Inductive ApprovalKind := ApprovalToolCall | ApprovalElicitation | ApprovalEgress | ApprovalUnknown.

#[export] Instance ApprovalKind_eq_dec : EqDecision ApprovalKind.
Proof. solve_decision. Defined.

Inductive ApprovalStatus := ApprovalPending | ApprovalDecided | ApprovalExpired.

#[export] Instance ApprovalStatus_eq_dec : EqDecision ApprovalStatus.
Proof. solve_decision. Defined.

Record ApprovalOption := mkOption { OptionID : string; OptionName : string; OptionKind : string }.

Record ApprovalDecision := mkDecision {
  Option : string; Denied : bool; Content : string; DecidedBy : string; DecidedAt : Z; Remember : string }.

Record Approval := mkApproval {
  ApID : string; ApTenant : string; ApOwner : string; ApAgent : string; ApWS : string; ApRun : string;
  Principal : string; Rule : string; Host : string; Method : string; PathHash : string; BodyHash : string;
  Fingerprint : string; Kind : ApprovalKind; Title : string; ToolCall : string; ToolKind : string;
  Locations : list string; ApOptions : list ApprovalOption; Detail : string; ApStatus : ApprovalStatus;
  Decision : option ApprovalDecision; DeliveredAt : Z; CreatedAt : Z; ApUpdatedAt : Z; ExpiresAt : Z }.

(** The event types a change commits. *)
Inductive AgentEv :=
| EvAgentCreated | EvAgentRunStarted | EvAgentRunFinished | EvAgentTurn | EvAgentToolCall | EvAgentSession
| EvAgentWaiting | EvAgentFailed | EvAgentFinished | EvAgentMessage | EvAgentWoken | EvAgentCancelled | EvAgentSlept
| EvAgentDestroyed | EvAgentChildDone | EvApprovalPending | EvApprovalDecided | EvApprovalExpired
| EvEgressPending | EvEgressAllowed | EvEgressDenied | EvPolicyUpdated.

(** The parts of an egress rule an approval reads or makes. *)
Record EgressRule := mkRule { RuleID : string; Mode : string; Protocol : string; Hosts : list string }.

Record Options := mkOptions {
  MaxApprovalsPerAgent : Z; MaxPendingEgressApprovals : Z; MaxAgentsPerTenant : Z; ApprovalTimeout : Z;
  ApprovalDecisionTTL : Z }.

(** ** The control plane *)

Record Control := mkControl {
  agents : gmap string Agent; approvals : gmap string Approval; dirtyApprovals : gset string;
  agentDelivered : gmap string Z; agentRetry : gmap string Z; agentBusy : gset string;
  workspaces : gmap string Workspace; rules : gmap string (list EgressRule);
  agent_rows : gmap string Agent; approval_rows : gmap string Approval }.

(** Assignments to a field. *)
Definition set_RunState (v : AgentRunState) (r : AgentRun) : AgentRun :=
  mkRun (RunID r) (Attempt r) (RunNode r) (RunGeneration r) v (Transcript r) (Loaded r) (StartedAt r)
    (FinishedAt r) (StopReason r) (RunError r) (RunTurns r) (LastReport r) (TurnMessage r).

Definition set_Transcript (v : string) (r : AgentRun) : AgentRun :=
  mkRun (RunID r) (Attempt r) (RunNode r) (RunGeneration r) (RunState r) v (Loaded r) (StartedAt r) (FinishedAt r)
    (StopReason r) (RunError r) (RunTurns r) (LastReport r) (TurnMessage r).

Definition set_Loaded (v : bool) (r : AgentRun) : AgentRun :=
  mkRun (RunID r) (Attempt r) (RunNode r) (RunGeneration r) (RunState r) (Transcript r) v (StartedAt r)
    (FinishedAt r) (StopReason r) (RunError r) (RunTurns r) (LastReport r) (TurnMessage r).

Definition set_StartedAt (v : Z) (r : AgentRun) : AgentRun :=
  mkRun (RunID r) (Attempt r) (RunNode r) (RunGeneration r) (RunState r) (Transcript r) (Loaded r) v
    (FinishedAt r) (StopReason r) (RunError r) (RunTurns r) (LastReport r) (TurnMessage r).

Definition set_FinishedAt (v : Z) (r : AgentRun) : AgentRun :=
  mkRun (RunID r) (Attempt r) (RunNode r) (RunGeneration r) (RunState r) (Transcript r) (Loaded r) (StartedAt r) v
    (StopReason r) (RunError r) (RunTurns r) (LastReport r) (TurnMessage r).

Definition set_StopReason (v : string) (r : AgentRun) : AgentRun :=
  mkRun (RunID r) (Attempt r) (RunNode r) (RunGeneration r) (RunState r) (Transcript r) (Loaded r) (StartedAt r)
    (FinishedAt r) v (RunError r) (RunTurns r) (LastReport r) (TurnMessage r).

Definition set_RunError (v : string) (r : AgentRun) : AgentRun :=
  mkRun (RunID r) (Attempt r) (RunNode r) (RunGeneration r) (RunState r) (Transcript r) (Loaded r) (StartedAt r)
    (FinishedAt r) (StopReason r) v (RunTurns r) (LastReport r) (TurnMessage r).

Definition set_RunTurns (v : Z) (r : AgentRun) : AgentRun :=
  mkRun (RunID r) (Attempt r) (RunNode r) (RunGeneration r) (RunState r) (Transcript r) (Loaded r) (StartedAt r)
    (FinishedAt r) (StopReason r) (RunError r) v (LastReport r) (TurnMessage r).

Definition set_LastReport (v : Z) (r : AgentRun) : AgentRun :=
  mkRun (RunID r) (Attempt r) (RunNode r) (RunGeneration r) (RunState r) (Transcript r) (Loaded r) (StartedAt r)
    (FinishedAt r) (StopReason r) (RunError r) (RunTurns r) v (TurnMessage r).

Definition set_TurnMessage (v : string) (r : AgentRun) : AgentRun :=
  mkRun (RunID r) (Attempt r) (RunNode r) (RunGeneration r) (RunState r) (Transcript r) (Loaded r) (StartedAt r)
    (FinishedAt r) (StopReason r) (RunError r) (RunTurns r) (LastReport r) v.

Definition set_ACPSessionID (v : string) (a : Agent) : Agent :=
  mkAgent (ID a) (Tenant a) (Owner a) (Name a) (WS a) (OwnsWS a) v (Capabilities a) (Status a) (StatusReason a)
    (Inbox a) (Runs a) (Turns a) (Parent a) (Policy a) (TranscriptSession a) (TranscriptNode a)
    (PendingApprovals a) (URL a) (UpdatedAt a) (WakeTimer a) (IdleSince a) (Failures a) (ParentNotified a).

Definition set_Capabilities (v : option ACPCapabilities) (a : Agent) : Agent :=
  mkAgent (ID a) (Tenant a) (Owner a) (Name a) (WS a) (OwnsWS a) (ACPSessionID a) v (Status a) (StatusReason a)
    (Inbox a) (Runs a) (Turns a) (Parent a) (Policy a) (TranscriptSession a) (TranscriptNode a)
    (PendingApprovals a) (URL a) (UpdatedAt a) (WakeTimer a) (IdleSince a) (Failures a) (ParentNotified a).

Definition set_Status (v : AgentStatus) (a : Agent) : Agent :=
  mkAgent (ID a) (Tenant a) (Owner a) (Name a) (WS a) (OwnsWS a) (ACPSessionID a) (Capabilities a) v
    (StatusReason a) (Inbox a) (Runs a) (Turns a) (Parent a) (Policy a) (TranscriptSession a) (TranscriptNode a)
    (PendingApprovals a) (URL a) (UpdatedAt a) (WakeTimer a) (IdleSince a) (Failures a) (ParentNotified a).

Definition set_StatusReason (v : string) (a : Agent) : Agent :=
  mkAgent (ID a) (Tenant a) (Owner a) (Name a) (WS a) (OwnsWS a) (ACPSessionID a) (Capabilities a) (Status a) v
    (Inbox a) (Runs a) (Turns a) (Parent a) (Policy a) (TranscriptSession a) (TranscriptNode a)
    (PendingApprovals a) (URL a) (UpdatedAt a) (WakeTimer a) (IdleSince a) (Failures a) (ParentNotified a).

Definition set_Inbox (v : list AgentMessage) (a : Agent) : Agent :=
  mkAgent (ID a) (Tenant a) (Owner a) (Name a) (WS a) (OwnsWS a) (ACPSessionID a) (Capabilities a) (Status a)
    (StatusReason a) v (Runs a) (Turns a) (Parent a) (Policy a) (TranscriptSession a) (TranscriptNode a)
    (PendingApprovals a) (URL a) (UpdatedAt a) (WakeTimer a) (IdleSince a) (Failures a) (ParentNotified a).

Definition set_Runs (v : list AgentRun) (a : Agent) : Agent :=
  mkAgent (ID a) (Tenant a) (Owner a) (Name a) (WS a) (OwnsWS a) (ACPSessionID a) (Capabilities a) (Status a)
    (StatusReason a) (Inbox a) v (Turns a) (Parent a) (Policy a) (TranscriptSession a) (TranscriptNode a)
    (PendingApprovals a) (URL a) (UpdatedAt a) (WakeTimer a) (IdleSince a) (Failures a) (ParentNotified a).

Definition set_Turns (v : Z) (a : Agent) : Agent :=
  mkAgent (ID a) (Tenant a) (Owner a) (Name a) (WS a) (OwnsWS a) (ACPSessionID a) (Capabilities a) (Status a)
    (StatusReason a) (Inbox a) (Runs a) v (Parent a) (Policy a) (TranscriptSession a) (TranscriptNode a)
    (PendingApprovals a) (URL a) (UpdatedAt a) (WakeTimer a) (IdleSince a) (Failures a) (ParentNotified a).

Definition set_TranscriptSession (v : string) (a : Agent) : Agent :=
  mkAgent (ID a) (Tenant a) (Owner a) (Name a) (WS a) (OwnsWS a) (ACPSessionID a) (Capabilities a) (Status a)
    (StatusReason a) (Inbox a) (Runs a) (Turns a) (Parent a) (Policy a) v (TranscriptNode a) (PendingApprovals a)
    (URL a) (UpdatedAt a) (WakeTimer a) (IdleSince a) (Failures a) (ParentNotified a).

Definition set_TranscriptNode (v : string) (a : Agent) : Agent :=
  mkAgent (ID a) (Tenant a) (Owner a) (Name a) (WS a) (OwnsWS a) (ACPSessionID a) (Capabilities a) (Status a)
    (StatusReason a) (Inbox a) (Runs a) (Turns a) (Parent a) (Policy a) (TranscriptSession a) v
    (PendingApprovals a) (URL a) (UpdatedAt a) (WakeTimer a) (IdleSince a) (Failures a) (ParentNotified a).

Definition set_PendingApprovals (v : Z) (a : Agent) : Agent :=
  mkAgent (ID a) (Tenant a) (Owner a) (Name a) (WS a) (OwnsWS a) (ACPSessionID a) (Capabilities a) (Status a)
    (StatusReason a) (Inbox a) (Runs a) (Turns a) (Parent a) (Policy a) (TranscriptSession a) (TranscriptNode a) v
    (URL a) (UpdatedAt a) (WakeTimer a) (IdleSince a) (Failures a) (ParentNotified a).

Definition set_UpdatedAt (v : Z) (a : Agent) : Agent :=
  mkAgent (ID a) (Tenant a) (Owner a) (Name a) (WS a) (OwnsWS a) (ACPSessionID a) (Capabilities a) (Status a)
    (StatusReason a) (Inbox a) (Runs a) (Turns a) (Parent a) (Policy a) (TranscriptSession a) (TranscriptNode a)
    (PendingApprovals a) (URL a) v (WakeTimer a) (IdleSince a) (Failures a) (ParentNotified a).

Definition set_WakeTimer (v : string) (a : Agent) : Agent :=
  mkAgent (ID a) (Tenant a) (Owner a) (Name a) (WS a) (OwnsWS a) (ACPSessionID a) (Capabilities a) (Status a)
    (StatusReason a) (Inbox a) (Runs a) (Turns a) (Parent a) (Policy a) (TranscriptSession a) (TranscriptNode a)
    (PendingApprovals a) (URL a) (UpdatedAt a) v (IdleSince a) (Failures a) (ParentNotified a).

Definition set_IdleSince (v : Z) (a : Agent) : Agent :=
  mkAgent (ID a) (Tenant a) (Owner a) (Name a) (WS a) (OwnsWS a) (ACPSessionID a) (Capabilities a) (Status a)
    (StatusReason a) (Inbox a) (Runs a) (Turns a) (Parent a) (Policy a) (TranscriptSession a) (TranscriptNode a)
    (PendingApprovals a) (URL a) (UpdatedAt a) (WakeTimer a) v (Failures a) (ParentNotified a).

Definition set_Failures (v : Z) (a : Agent) : Agent :=
  mkAgent (ID a) (Tenant a) (Owner a) (Name a) (WS a) (OwnsWS a) (ACPSessionID a) (Capabilities a) (Status a)
    (StatusReason a) (Inbox a) (Runs a) (Turns a) (Parent a) (Policy a) (TranscriptSession a) (TranscriptNode a)
    (PendingApprovals a) (URL a) (UpdatedAt a) (WakeTimer a) (IdleSince a) v (ParentNotified a).

Definition set_ParentNotified (v : bool) (a : Agent) : Agent :=
  mkAgent (ID a) (Tenant a) (Owner a) (Name a) (WS a) (OwnsWS a) (ACPSessionID a) (Capabilities a) (Status a)
    (StatusReason a) (Inbox a) (Runs a) (Turns a) (Parent a) (Policy a) (TranscriptSession a) (TranscriptNode a)
    (PendingApprovals a) (URL a) (UpdatedAt a) (WakeTimer a) (IdleSince a) (Failures a) v.

Definition set_ApStatus (v : ApprovalStatus) (p : Approval) : Approval :=
  mkApproval (ApID p) (ApTenant p) (ApOwner p) (ApAgent p) (ApWS p) (ApRun p) (Principal p) (Rule p) (Host p)
    (Method p) (PathHash p) (BodyHash p) (Fingerprint p) (Kind p) (Title p) (ToolCall p) (ToolKind p)
    (Locations p) (ApOptions p) (Detail p) v (Decision p) (DeliveredAt p) (CreatedAt p) (ApUpdatedAt p)
    (ExpiresAt p).

Definition set_Decision (v : option ApprovalDecision) (p : Approval) : Approval :=
  mkApproval (ApID p) (ApTenant p) (ApOwner p) (ApAgent p) (ApWS p) (ApRun p) (Principal p) (Rule p) (Host p)
    (Method p) (PathHash p) (BodyHash p) (Fingerprint p) (Kind p) (Title p) (ToolCall p) (ToolKind p)
    (Locations p) (ApOptions p) (Detail p) (ApStatus p) v (DeliveredAt p) (CreatedAt p) (ApUpdatedAt p)
    (ExpiresAt p).

Definition set_DeliveredAt (v : Z) (p : Approval) : Approval :=
  mkApproval (ApID p) (ApTenant p) (ApOwner p) (ApAgent p) (ApWS p) (ApRun p) (Principal p) (Rule p) (Host p)
    (Method p) (PathHash p) (BodyHash p) (Fingerprint p) (Kind p) (Title p) (ToolCall p) (ToolKind p)
    (Locations p) (ApOptions p) (Detail p) (ApStatus p) (Decision p) v (CreatedAt p) (ApUpdatedAt p) (ExpiresAt p).

Definition set_ApUpdatedAt (v : Z) (p : Approval) : Approval :=
  mkApproval (ApID p) (ApTenant p) (ApOwner p) (ApAgent p) (ApWS p) (ApRun p) (Principal p) (Rule p) (Host p)
    (Method p) (PathHash p) (BodyHash p) (Fingerprint p) (Kind p) (Title p) (ToolCall p) (ToolKind p)
    (Locations p) (ApOptions p) (Detail p) (ApStatus p) (Decision p) (DeliveredAt p) (CreatedAt p) v (ExpiresAt p).

Definition set_ExpiresAt (v : Z) (p : Approval) : Approval :=
  mkApproval (ApID p) (ApTenant p) (ApOwner p) (ApAgent p) (ApWS p) (ApRun p) (Principal p) (Rule p) (Host p)
    (Method p) (PathHash p) (BodyHash p) (Fingerprint p) (Kind p) (Title p) (ToolCall p) (ToolKind p)
    (Locations p) (ApOptions p) (Detail p) (ApStatus p) (Decision p) (DeliveredAt p) (CreatedAt p) (ApUpdatedAt p)
    v.

Definition set_agents (v : gmap string Agent) (c : Control) : Control :=
  mkControl v (approvals c) (dirtyApprovals c) (agentDelivered c) (agentRetry c) (agentBusy c) (workspaces c)
    (rules c) (agent_rows c) (approval_rows c).

Definition set_approvals (v : gmap string Approval) (c : Control) : Control :=
  mkControl (agents c) v (dirtyApprovals c) (agentDelivered c) (agentRetry c) (agentBusy c) (workspaces c)
    (rules c) (agent_rows c) (approval_rows c).

Definition set_dirtyApprovals (v : gset string) (c : Control) : Control :=
  mkControl (agents c) (approvals c) v (agentDelivered c) (agentRetry c) (agentBusy c) (workspaces c) (rules c)
    (agent_rows c) (approval_rows c).

Definition set_agentDelivered (v : gmap string Z) (c : Control) : Control :=
  mkControl (agents c) (approvals c) (dirtyApprovals c) v (agentRetry c) (agentBusy c) (workspaces c) (rules c)
    (agent_rows c) (approval_rows c).

Definition set_agentRetry (v : gmap string Z) (c : Control) : Control :=
  mkControl (agents c) (approvals c) (dirtyApprovals c) (agentDelivered c) v (agentBusy c) (workspaces c)
    (rules c) (agent_rows c) (approval_rows c).

Definition set_agentBusy (v : gset string) (c : Control) : Control :=
  mkControl (agents c) (approvals c) (dirtyApprovals c) (agentDelivered c) (agentRetry c) v (workspaces c)
    (rules c) (agent_rows c) (approval_rows c).

Definition set_rules (v : gmap string (list EgressRule)) (c : Control) : Control :=
  mkControl (agents c) (approvals c) (dirtyApprovals c) (agentDelivered c) (agentRetry c) (agentBusy c)
    (workspaces c) v (agent_rows c) (approval_rows c).

Definition set_agent_rows (v : gmap string Agent) (c : Control) : Control :=
  mkControl (agents c) (approvals c) (dirtyApprovals c) (agentDelivered c) (agentRetry c) (agentBusy c)
    (workspaces c) (rules c) v (approval_rows c).

Definition set_approval_rows (v : gmap string Approval) (c : Control) : Control :=
  mkControl (agents c) (approvals c) (dirtyApprovals c) (agentDelivered c) (agentRetry c) (agentBusy c)
    (workspaces c) (rules c) (agent_rows c) v.

(** ** Runs and status *)

Definition MaxAgentRuns : nat := 64.
Definition MaxAgentInbox : nat := 64.
Definition agentMaxFailures : Z := 2.
(** In milliseconds, as every time here. *)
Definition agentLaunchTimeout : Z := 90000.
Definition agentRetryBackoff : Z := 5000.
Definition agentRedeliverAfter : Z := 10000.

Definition trimAgentRuns (a : Agent) : Agent :=
  if (MaxAgentRuns <? length (Runs a))%nat then set_Runs (drop (length (Runs a) - MaxAgentRuns) (Runs a)) a else a.

Definition run_done (r : AgentRun) : bool := bool_decide (RunState r = AgentRunDone).

(** A pointer to a run is its index. *)
Fixpoint liveRun (rs : list AgentRun) : option nat :=
  match rs with
  | [] => None
  | r :: t => match liveRun t with
              | Some i => Some (S i)
              | None => if run_done r then None else Some O
              end
  end.

Fixpoint findRun (rs : list AgentRun) (id : string) : option nat :=
  match rs with
  | [] => None
  | r :: t => if RunID r =s id then Some O else match findRun t id with Some i => Some (S i) | None => None end
  end.

Definition change_run (i : nat) (f : AgentRun -> AgentRun) (a : Agent) : Agent := set_Runs (alter f i (Runs a)) a.

Definition agentTerminal (s : AgentStatus) : bool :=
  match s with AgentFailed | AgentFinished | AgentDestroyed => true | _ => false end.

Definition ws_gone (s : WSState) : bool := match s with WSDestroyed | WSDestroying => true | _ => false end.

Definition in_turn (a : Agent) : bool :=
  match liveRun (Runs a) ≫= (Runs a !!.) with Some r => TurnMessage r <>s "" | None => false end.

(** With a node holding the workspace, or about to. *)
Definition working_status (a : Agent) : AgentStatus :=
  if in_turn a then AgentRunning
  else if (0 <? length (Inbox a))%nat then AgentRunning
  else if bool_decide (liveRun (Runs a) <> None) then AgentWaitingInput
  else if (length (Runs a) =? 0)%nat then AgentCreating else AgentIdle.

Definition deriveAgentStatus (a : Agent) (ws : option Workspace) (now : Z) : AgentStatus :=
  if agentTerminal (Status a) then Status a
  else match ws with
  | None => AgentFailed
  | Some ws =>
      let state := Lifecycle.State ws in
      if ws_gone state then AgentFailed
      else if 0 <? PendingApprovals a then AgentWaitingApproval
      else if (now <? StartAt (Policy a)) && bool_decide (liveRun (Runs a) = None) && negb (bool_decide (state = WSFailed))
      then AgentScheduled
      else match state with
      | WSPaused | WSQuiescing | WSCheckpointing => AgentSleeping
      | WSPending | WSClaiming | WSReleased =>
          if (length (Runs a) =? 0)%nat then AgentCreating
          else if (0 <? length (Inbox a))%nat then AgentRunning else AgentIdle
      | WSFailed => AgentFailed
      | _ => working_status a
      end
  end.

Definition failure_reason (ws : option Workspace) : string :=
  match ws with
  | None => "workspace is gone"
  | Some ws => if bool_decide (Lifecycle.State ws = WSFailed) then "workspace failed" else "workspace destroyed"
  end.

Definition refreshAgentStatusLocked (now : Z) (c : Control) (a : Agent) : result fault (Agent * list AgentEv) :=
  let ws := workspaces c !! WS a in
  let next := deriveAgentStatus a ws now in
  if bool_decide (next = Status a) then Ok (a, [])
  else match transitionAgent (Status a) next with
  | Some e => Err (Fault e)
  | None =>
      let prev := Status a in
      let a := set_Status next a in
      let a := if (StatusReason a =s "") && bool_decide (next = AgentFailed)
               then set_StatusReason (failure_reason ws) a else a in
      Ok match next with
         | AgentWaitingInput | AgentIdle =>
             (match prev with
              | AgentWaitingInput | AgentIdle => a
              | _ => set_IdleSince now a
              end, [EvAgentWaiting])
         | AgentWaitingApproval => (set_IdleSince 0 a, [EvAgentWaiting])
         | AgentFailed => (set_IdleSince 0 a, [EvAgentFailed])
         | _ => (set_IdleSince 0 a, [])
         end
  end.

(** ** Staged approvals *)

(** [touched] of an [approvalStage], over the live map. *)
Notation stage := (gmap string Approval).

Definition lookup_stage (c : Control) (st : stage) (id : string) : option Approval :=
  match st !! id with Some ap => Some ap | None => approvals c !! id end.

Definition edit (c : Control) (st : stage) (id : string) (f : Approval -> Approval) : stage :=
  match lookup_stage c st id with Some ap => <[id := f ap]> st | None => st end.

Definition pending_of (agent run : string) (ap : Approval) : bool :=
  (ApAgent ap =s agent) && bool_decide (ApStatus ap = ApprovalPending) && ((run =s "") || (ApRun ap =s run)).

Definition pendingIDs (c : Control) (st : stage) (agent run : string) : list string :=
  sort_by String.ltb (map fst (filter (fun kv => pending_of agent run kv.2 = true) (map_to_list (st ∪ approvals c)))).

Definition pending (c : Control) (st : stage) (agent : string) : Z := Z.of_nat (length (pendingIDs c st agent "")).

Definition pendingApprovalsLocked (c : Control) (agent : string) : Z := pending c ∅ agent.

Definition publishLocked (st : stage) (c : Control) : Control :=
  set_approvals (st ∪ approvals c) (set_dirtyApprovals (dirtyApprovals c ∖ dom st) c).

Definition publishDirtyLocked (st : stage) (c : Control) : Control :=
  set_approvals (st ∪ approvals c) (set_dirtyApprovals (dirtyApprovals c ∪ dom st) c).

Definition markApprovalDirty (now : Z) (ap : Approval) (c : Control) : Control :=
  set_approvals (<[ApID ap := set_ApUpdatedAt now ap]> (approvals c))
    (set_dirtyApprovals ({[ApID ap]} ∪ dirtyApprovals c) c).

Definition truncate (s : string) (n : nat) : string := if (String.length s <=? n)%nat then s else substring 0 n s.

Definition new_approval (now : Z) (a : Agent) (run : string) (input : Approval) : Approval :=
  mkApproval (ApID input) (Tenant a) (Owner a) (ID a) (WS a) run EmptyString EmptyString EmptyString EmptyString
    EmptyString EmptyString EmptyString (Kind input) (truncate (Title input) 512) (ToolCall input) (ToolKind input)
    (Locations input) (ApOptions input) (Detail input) ApprovalPending None 0 now now 0.

Definition park (o : Options) (now : Z) (c : Control) (st : stage) (a : Agent) (run : string) (input : Approval)
  : result fault (stage * Agent * list AgentEv) :=
  if (ApID input =s "") || negb (String.prefix "ap_" (ApID input)) || (64 <? string_len (ApID input))
  then Err (Fault CodeBadRequest)
  else if negb (bool_decide (Kind input = ApprovalToolCall) || bool_decide (Kind input = ApprovalElicitation))
  then Err (Fault CodeBadRequest)
  else if 65536 <? string_len (Detail input) then Err (Fault CodeBadRequest)
  else if (32 <? length (ApOptions input))%nat then Err (Fault CodeBadRequest)
  else match lookup_stage c st (ApID input) with
  | Some existing =>
      if (ApAgent existing <>s ID a) || (ApRun existing <>s run) then Err (Fault CodeConflict) else Ok (st, a, [])
  | None =>
      let n := pending c st (ID a) in
      if MaxApprovalsPerAgent o <=? n then Err (Fault CodeResourceExhausted)
      else Ok (<[ApID input := new_approval now a run input]> st, set_PendingApprovals (n + 1) a, [EvApprovalPending])
  end.

Definition expire_one (now : Z) (ap : Approval) : Approval := set_ApUpdatedAt now (set_ApStatus ApprovalExpired ap).

(** [run] is empty for every run of the agent. *)
Definition expire (now : Z) (c : Control) (st : stage) (a : Agent) (run : string) : stage * Agent * list AgentEv :=
  let ids := pendingIDs c st (ID a) run in
  let st := foldl (fun st id => edit c st id (expire_one now)) st ids in
  (st, set_PendingApprovals (pending c st (ID a)) a, map (fun _ => EvApprovalExpired) ids).

(** What happens to the run and its approvals when it ends. *)
Definition end_run (now : Z) (stopReason errText : string) (r : AgentRun) : AgentRun :=
  set_TurnMessage EmptyString (set_RunError errText (set_StopReason stopReason
    (set_FinishedAt now (set_RunState AgentRunDone r)))).

Definition finishRunLocked (now : Z) (c : Control) (st : stage) (a : Agent) (i : nat) (stopReason errText : string)
  : stage * Agent * list AgentEv :=
  match Runs a !! i with
  | None => (st, a, [])
  | Some run =>
      if run_done run then (st, a, [])
      else
        let a := change_run i (end_run now stopReason errText) a in
        let '(st, a, events) := expire now c st a (RunID run) in
        (st, a, EvAgentRunFinished :: events)
  end.

(** ** Committing *)

(** The rows of the approvals a flush writes. *)
Definition dirty_rows (c : Control) : gmap string Approval :=
  filter (fun kv => kv.1 ∈ dirtyApprovals c) (approvals c).

(** [commitAgentRows] stamps and trims the agent it is given, whether or not
    the transaction commits. *)
Definition stamped (now : Z) (a : Agent) : Agent := trimAgentRuns (set_UpdatedAt now a).

Definition commitAgentRows (tx : bool) (c : Control) (a : Agent) (st : stage) : result fault Control :=
  if tx
  then Ok (set_dirtyApprovals ∅
             (set_approval_rows (st ∪ (dirty_rows c ∪ approval_rows c))
                (set_agent_rows (<[ID a := a]> (agent_rows c)) c)))
  else Err (Fault CodeStorage).

Definition persistApprovalsOnly (tx : bool) (c : Control) : result fault Control :=
  if tx then Ok (set_dirtyApprovals ∅ (set_approval_rows (dirty_rows c ∪ approval_rows c) c))
  else Err (Fault CodeStorage).

Definition put_agent (a : Agent) (c : Control) : Control := set_agents (<[ID a := a]> (agents c)) c.

Definition forget (ids : list string) (c : Control) : Control :=
  set_agentDelivered (foldr delete (agentDelivered c) ids) c.

(** A private copy is committed with its staged approvals, and published only
    then. *)
Definition commit_copy (tx : bool) (now : Z) (c : Control) (a : Agent) (st : stage) : result fault Control :=
  let a := stamped now a in
  let? c := commitAgentRows tx c a st in
  Ok (publishLocked st (put_agent a c)).

Definition dropInbox (a : Agent) : Agent * list string := (set_Inbox [] a, map MsgID (Inbox a)).
(** ** What a node reports *)

Inductive report :=
| AgentReportStarted (transcript : string)
| AgentReportSession (loaded : bool) (session : string) (caps : option ACPCapabilities)
| AgentReportTurnStarted (message : string)
| AgentReportTurnFinished (message : string)
| AgentReportToolCall
| AgentReportParked (ap : option Approval)
| AgentReportFinished (stopReason error : string) (exitCode : Z) (cancelled : bool)
| AgentReportTranscript (sizes : list Z)
| AgentReportOther.

Record AgentReport := mkReport {
  RepAgent : string; RepRun : string; RepWS : string; RepGen : Z; RepSeq : Z; RepKind : report }.

(** What a report or a launch changes: the copy of the agent, the staged
    approvals, the events, the messages whose delivery marks go, and whether
    launches back off. *)
Record change := mkChange {
  ch_agent : Agent; ch_stage : stage; ch_events : list AgentEv; ch_undeliver : list string; ch_retry : bool }.

Fixpoint remove_message (id : string) (l : list AgentMessage) : list AgentMessage :=
  match l with
  | [] => []
  | m :: t => if MsgID m =s id then t else m :: remove_message id t
  end.

(** [transitionAgent] to a terminal status, which drops the inbox. *)
Definition end_agent (to : AgentStatus) (reason : string) (ev : AgentEv) (ch : change) : change :=
  match transitionAgent (Status (ch_agent ch)) to with
  | Some _ => ch
  | None =>
      let '(a, dropped) := dropInbox (set_StatusReason reason (set_Status to (ch_agent ch))) in
      mkChange a (ch_stage ch) (ch_events ch ++ [ev]) (ch_undeliver ch ++ dropped) (ch_retry ch)
  end.

Definition turn_finished (a : Agent) (i : nat) (run : AgentRun) (message : string) : change :=
  let done := if TurnMessage run =s "" then message else TurnMessage run in
  let a := set_Failures 0 (set_Turns (Turns a + 1) a) in
  let a := change_run i (fun r => set_TurnMessage EmptyString (set_RunTurns (RunTurns r + 1) r)) a in
  let a := set_Inbox (remove_message done (Inbox a)) a in
  let ch := mkChange a ∅ [EvAgentTurn] [done] false in
  if (0 <? MaxTurns (Policy a)) && (MaxTurns (Policy a) <=? Turns a)
  then end_agent AgentFinished ("max_turns " ++ pretty (MaxTurns (Policy a)) ++ " reached")%string EvAgentFinished ch else ch.

(** A run that ended with an error: retried once, then the agent fails. *)
Definition count_failure (error : string) (ch : change) : change :=
  let a := set_Failures (Failures (ch_agent ch) + 1) (ch_agent ch) in
  let ch := mkChange a (ch_stage ch) (ch_events ch) (ch_undeliver ch) (ch_retry ch) in
  if agentMaxFailures <=? Failures a then end_agent AgentFailed error EvAgentFailed ch
  else mkChange a (ch_stage ch) (ch_events ch) (ch_undeliver ch) true.

Definition run_finished (now : Z) (c : Control) (a : Agent) (i : nat) (stopReason error : string) (exitCode : Z)
    (cancelled : bool) : change :=
  let '(st, a, events) := finishRunLocked now c ∅ a i stopReason error in
  let error := if negb (exitCode =? 0) && (error =s "") && negb cancelled then ("harness exited " ++ pretty exitCode)%string else error in
  let a := change_run i (set_RunError error) a in
  let ch := mkChange a st events [] false in
  if (error <>s "") && negb cancelled then count_failure error ch else ch.

Definition apply_report (o : Options) (now : Z) (c : Control) (node : string) (a : Agent) (i : nat) (run : AgentRun)
    (kind : report) : result fault change :=
  let active f := change_run i (fun r => f (set_RunState AgentRunActive r)) a in
  match kind with
  | AgentReportStarted t =>
      let a := active (fun r => set_StartedAt now (if t <>s "" then set_Transcript t r else r)) in
      let a := if t <>s "" then set_TranscriptNode node (set_TranscriptSession t a) else a in
      Ok (mkChange a ∅ [EvAgentRunStarted] [] false)
  | AgentReportSession loaded session caps =>
      let a := active (set_Loaded loaded) in
      let a := if session <>s "" then set_ACPSessionID session a else a in
      let a := match caps with Some _ => set_Capabilities caps a | None => a end in
      Ok (mkChange a ∅ [EvAgentSession] [] false)
  | AgentReportTurnStarted m => Ok (mkChange (set_IdleSince 0 (active (set_TurnMessage m))) ∅ [] [] false)
  | AgentReportTurnFinished m => Ok (turn_finished a i run m)
  | AgentReportToolCall => Ok (mkChange a ∅ [EvAgentToolCall] [] false)
  | AgentReportParked None => Err (Fault CodeBadRequest)
  | AgentReportParked (Some ap) =>
      let? (st, a, events) := park o now c ∅ a (RunID run) ap in Ok (mkChange a st events [] false)
  | AgentReportFinished stop error exit cancelled => Ok (run_finished now c a i stop error exit cancelled)
  | AgentReportTranscript _ => Ok (mkChange a ∅ [] [] false)
  | AgentReportOther => Err (Fault CodeBadRequest)
  end.

(** Once the copy is committed and published. *)
Definition settle_marks (now : Z) (ch : change) (c : Control) : Control :=
  let c := forget (ch_undeliver ch) c in
  if ch_retry ch then set_agentRetry (<[ID (ch_agent ch) := now + agentRetryBackoff]> (agentRetry c)) c else c.

Definition MaxACPTranscriptFrame : Z := 262144.
Definition MaxTranscriptReportBytes : Z := 262144.

(** A transcript report, given the sizes of its chunks: with chunks, the
    agent's row is committed alone. *)
Definition mirrorTranscriptLocked (tx : bool) (now : Z) (c : Control) (a : Agent) (sizes : list Z) : result fault Control :=
  if existsb (fun n => MaxACPTranscriptFrame + 4096 <? n) sizes then Err (Fault CodeBadRequest)
  else if MaxTranscriptReportBytes + 65536 <? foldr Z.add 0 sizes then Err (Fault CodeBadRequest)
  else match sizes with
  | [] => commit_copy tx now c a ∅
  | _ =>
      let a := stamped now a in
      if tx then Ok (put_agent a (set_agent_rows (<[ID a := a]> (agent_rows c)) c)) else Err (Fault CodeStorage)
  end.

Definition commit_report (tx : bool) (now : Z) (c : Control) (a : Agent) (st : stage) (kind : report) : result fault Control :=
  match kind with
  | AgentReportTranscript sizes => mirrorTranscriptLocked tx now c a sizes
  | _ => commit_copy tx now c a st
  end.

Definition is_finished (kind : report) : bool := match kind with AgentReportFinished _ _ _ _ => true | _ => false end.

Definition with_agent (a : Agent) (ch : change) : change :=
  mkChange a (ch_stage ch) (ch_events ch) (ch_undeliver ch) (ch_retry ch).

Definition agentReport (o : Options) (now : Z) (tx : bool) (node : string) (rep : AgentReport) (c : Control)
  : result fault unit * Control :=
  if (RepAgent rep =s "") || (RepRun rep =s "") then (Err (Fault CodeBadRequest), c)
  else match agents c !! RepAgent rep with
  | None => (Err (Fault CodeNotFound), c)
  | Some live =>
      match findRun (Runs live) (RepRun rep) with
      | None => (Err (Fault CodeNotFound), c)
      | Some i =>
          match Runs live !! i with
          | None => (Err (Fault CodeNotFound), c)
          | Some run =>
              if RunNode run <>s node then (Err Unauthorized, c)
              else if (RepWS rep <>s WS live) || negb (RepGen rep =? RunGeneration run)
              then (Err (Fault CodeConflict), c)
              else if RepSeq rep <=? LastReport run then (Ok tt, c)
              else if run_done run
              then (if is_finished (RepKind rep) then Ok tt else Err (Fault CodeConflict), c)
              else
                let a := change_run i (set_LastReport (RepSeq rep)) live in
                match apply_report o now c node a i (set_LastReport (RepSeq rep) run) (RepKind rep) with
                | Err e => (Err e, c)
                | Ok ch =>
                    match refreshAgentStatusLocked now c (ch_agent ch) with
                    | Err e => (Err e, c)
                    | Ok (a, more) =>
                        match commit_report tx now c a (ch_stage ch) (RepKind rep) with
                        | Err e => (Err e, c)
                        | Ok c => (Ok tt, settle_marks now (with_agent a ch) c)
                        end
                    end
                end
          end
      end
  end.

(** ** Requests *)

(** The messages a caller sends: the change is made to the live record and
    stays there when the transaction fails. *)
Definition agentMessage (now : Z) (tx : bool) (msgID id kind text by_ : string) (c : Control)
  : result fault (AgentMessage * bool) * Control :=
  match agents c !! id with
  | None => (Err (Fault CodeNotFound), c)
  | Some live =>
      if agentTerminal (Status live) then (Err (Fault CodeConflict), c)
      else if (MaxAgentInbox <=? length (Inbox live))%nat then (Err (Fault CodeResourceExhausted), c)
      else
        let ws := workspaces c !! WS live in
        let run := liveRun (Runs live) ≫= (Runs live !!.) in
        let msg := mkMessage msgID (if kind =s "steer" then "follow_up" else kind) text by_ now in
        let live := set_IdleSince 0 (set_Inbox (Inbox live ++ [msg]) live) in
        let sleeping := match ws with Some ws => bool_decide (Lifecycle.State ws = WSPaused) | None => false end in
        match (if sleeping then Ok (live, []) else refreshAgentStatusLocked now c live) with
        | Err e => (Err e, put_agent live c)
        | Ok (live, _) =>
            let live := stamped now live in
            match commitAgentRows tx c live ∅ with
            | Err e => (Err e, put_agent live c)
            | Ok c =>
                let c := put_agent live c in
                let delivers := match run, ws with
                  | Some run, Some ws =>
                      bool_decide (RunState run = AgentRunActive) && bool_decide (Lifecycle.State ws = WSClaimed)
                      && (Lifecycle.Node ws =s RunNode run)
                  | _, _ => false
                  end in
                (Ok (msg, sleeping),
                 if delivers then set_agentDelivered (<[msgID := now]> (agentDelivered c)) c else c)
            end
        end
  end.

(** After the workspace's own wake. *)
Definition agentWake (now : Z) (tx : bool) (id : string) (c : Control) : result fault unit * Control :=
  match agents c !! id with
  | None => (Ok tt, c)
  | Some a =>
      if agentTerminal (Status a) then (Ok tt, c)
      else
        let a := set_WakeTimer EmptyString a in
        match refreshAgentStatusLocked now c a with
        | Err e => (Err e, put_agent a c)
        | Ok (a, _) =>
            let a := stamped now a in
            match commitAgentRows tx c a ∅ with
            | Err e => (Err e, put_agent a c)
            | Ok c => (Ok tt, put_agent a c)
            end
        end
  end.

Definition live_run_id (a : Agent) : string :=
  match liveRun (Runs a) ≫= (Runs a !!.) with Some r => RunID r | None => EmptyString end.

Definition clear_turn (a : Agent) : Agent :=
  match liveRun (Runs a) with Some i => change_run i (set_TurnMessage EmptyString) a | None => a end.

Definition agentCancel (now : Z) (tx : bool) (id : string) (c : Control) : result fault unit * Control :=
  match agents c !! id with
  | None => (Err (Fault CodeNotFound), c)
  | Some live =>
      if agentTerminal (Status live) then (Err (Fault CodeConflict), c)
      else
        let '(live, dropped) := dropInbox live in
        let c := forget dropped c in
        let live := clear_turn live in
        let '(st, live, _) := expire now c ∅ live (live_run_id live) in
        let c := publishDirtyLocked st c in
        match refreshAgentStatusLocked now c live with
        | Err e => (Err e, put_agent live c)
        | Ok (live, _) =>
            let live := stamped now live in
            match commitAgentRows tx c live ∅ with
            | Err e => (Err e, put_agent live c)
            | Ok c => (Ok tt, put_agent live c)
            end
        end
  end.

Definition finish_live (now : Z) (c : Control) (a : Agent) (stopReason : string) : stage * Agent * list AgentEv :=
  match liveRun (Runs a) with
  | Some i => finishRunLocked now c ∅ a i stopReason EmptyString
  | None => (∅, a, [])
  end.

(** [sleepAgent], after the workspace was put to sleep with [timer]. *)
Definition sleepAgent (now : Z) (tx : bool) (id timer : string) (c : Control) : result fault unit * Control :=
  match agents c !! id with
  | None => (Err (Fault CodeNotFound), c)
  | Some live =>
      let a := set_IdleSince 0 (set_WakeTimer timer live) in
      let '(st, a, _) := finish_live now c a "sleep" in
      match refreshAgentStatusLocked now c a with
      | Err e => (Err e, c)
      | Ok (a, _) => match commit_copy tx now c a st with Err e => (Err e, c) | Ok c => (Ok tt, c) end
      end
  end.

(** [agentDestroy], after the workspace it owns was destroyed. *)
Definition agentDestroy (now : Z) (tx : bool) (id by_ : string) (c : Control) : result fault unit * Control :=
  match agents c !! id with
  | None => (Ok tt, c)
  | Some live =>
      if bool_decide (Status live = AgentDestroyed) then (Ok tt, c)
      else
        let '(st, a, _) := finish_live now c live "destroy" in
        let '(st, a, _) := expire now c st a EmptyString in
        match transitionAgent (Status a) AgentDestroyed with
        | Some e => (Err (Fault e), c)
        | None =>
            let '(a, dropped) :=
              dropInbox (set_StatusReason ("destroyed by " ++ by_)%string (set_Status AgentDestroyed a)) in
            let a := set_WakeTimer EmptyString (set_IdleSince 0 a) in
            match commit_copy tx now c a st with
            | Err e => (Err e, c)
            | Ok c => let c := forget dropped c in (Ok tt, set_agentRetry (delete id (agentRetry c)) c)
            end
        end
  end.

Definition live_in (f : Agent -> bool) (c : Control) : Z :=
  Z.of_nat (length (filter (fun kv => negb (agentTerminal (Status kv.2)) && f kv.2 = true) (map_to_list (agents c)))).

(** [agentCreate], once the workspace exists. *)
Definition agentCreate (o : Options) (now : Z) (tx : bool) (a : Agent) (c : Control) : result fault unit * Control :=
  match workspaces c !! WS a with
  | None => (Err (Fault CodeConflict), c)
  | Some ws =>
      if ws_gone (Lifecycle.State ws) then (Err (Fault CodeConflict), c)
      else if 0 <? live_in (fun other => WS other =s WS a) c then (Err (Fault CodeConflict), c)
      else if (0 <? MaxAgentsPerTenant o) && (MaxAgentsPerTenant o <=? live_in (fun other => Tenant other =s Tenant a) c)
      then (Err (Fault CodeResourceExhausted), c)
      else
        let a := stamped now (set_Status (deriveAgentStatus a (Some ws) now) a) in
        match commitAgentRows tx c a ∅ with Err e => (Err e, c) | Ok c => (Ok tt, put_agent a c) end
  end.

(** The agent a create builds. *)
Definition new_agent (id tenant owner name ws : string) (ownsWS : bool) (session url parent : string)
    (policy : AgentPolicy) (inbox : list AgentMessage) (now : Z) : Agent :=
  mkAgent id tenant owner name ws ownsWS session None AgentCreating EmptyString inbox [] 0 parent policy EmptyString
    EmptyString 0 url now EmptyString 0 0 false.
(** [agentWakeRequest], after the wake: the live record is stored with the
    mutation. *)
Definition agentWakeRequest (now : Z) (tx : bool) (id : string) (c : Control) : result fault unit * Control :=
  match agents c !! id with
  | None => (Err (Fault CodeNotFound), c)
  | Some live =>
      let live := stamped now live in
      match commitAgentRows tx c live ∅ with
      | Err e => (Err e, put_agent live c)
      | Ok c => (Ok tt, put_agent live c)
      end
  end.

(** ** Reconciliation *)

(** What a decision sends to a node or does to the workspace, after it was
    committed. *)
Inductive work :=
| LaunchRun (agent run node : string) (messages : list AgentMessage)
| WakeAgent (agent : string)
| DeliverToRun (agent run node : string) (message : AgentMessage)
| SleepAgent (agent : string)
| CancelRun (agent run node : string).

(** Why a live run is given up, and whether as cancelled. *)
Definition lost_run (now : Z) (online gone : string -> bool) (ws : option Workspace) (run : AgentRun)
  : option (string * bool) :=
  match ws with
  | None => Some ("workspace moved", false)
  | Some ws =>
      if negb (Lifecycle.Generation ws =? RunGeneration run) then Some ("workspace moved", false)
      else match Lifecycle.State ws with
      | WSPaused | WSReleased | WSPending => Some ("workspace released", true)
      | WSDestroyed => Some ("workspace destroyed", false)
      | WSDestroying => Some ("workspace destroying", false)
      | WSFailed => Some ("workspace failed", false)
      | _ =>
          if bool_decide (RunState run = AgentRunPending) && (agentLaunchTimeout <? now - StartedAt run)
          then Some ("launch timed out", false)
          else if bool_decide (RunState run = AgentRunActive) && negb (online (RunNode run)) && gone (RunNode run)
          then Some ("node gone", false)
          else None
      end
  end.

(** The decision on one agent so far; [d_run] is its live run. *)
Record decision := mkDecisionState {
  d_agent : Agent; d_run : option AgentRun; d_stage : stage; d_events : list AgentEv; d_work : list work; d_retry : bool; d_changed : bool;
  d_marked : list string }.

Definition abandon (now : Z) (online gone : string -> bool) (c : Control) (a : Agent) : decision :=
  let keep := mkDecisionState a (liveRun (Runs a) ≫= (Runs a !!.)) ∅ [] [] false false [] in
  match liveRun (Runs a) with
  | None => keep
  | Some i =>
      match Runs a !! i with
      | None => keep
      | Some run =>
          match lost_run now online gone (workspaces c !! WS a) run with
          | None => keep
          | Some (why, cancelled) =>
              let '(st, a, events) := finishRunLocked now c ∅ a i why EmptyString in
              let a := if cancelled then a else change_run i (set_RunError why) a in
              let stop := if (RunNode run <>s "") && online (RunNode run)
                          then [CancelRun (ID a) (RunID run) (RunNode run)] else [] in
              mkDecisionState a None st events stop (negb cancelled) true []
          end
      end
  end.

Definition retry_later (now : Z) (c : Control) (id : string) : bool :=
  match agentRetry c !! id with Some t => now <? t | None => false end.

Definition next_attempt (rs : list AgentRun) : Z := match last rs with Some r => Attempt r + 1 | None => 1 end.

Definition new_run (now : Z) (id : string) (attempt : Z) (ws : Workspace) : AgentRun :=
  mkRun id attempt (Lifecycle.Node ws) (Lifecycle.Generation ws) AgentRunPending EmptyString false now 0 EmptyString
    EmptyString 0 0 EmptyString.

Definition launch (now : Z) (runID : string) (ws : Workspace) (d : decision) : decision :=
  let a := d_agent d in
  mkDecisionState (set_Runs (Runs a ++ [new_run now runID (next_attempt (Runs a)) ws]) a) (d_run d) (d_stage d)
    (d_events d ++ [EvAgentRunStarted]) (d_work d ++ [LaunchRun (ID a) runID (Lifecycle.Node ws) (Inbox a)])
    (d_retry d) true (d_marked d ++ map MsgID (Inbox a)).

Definition add_work (w : work) (marks : list string) (d : decision) : decision :=
  mkDecisionState (d_agent d) (d_run d) (d_stage d) (d_events d) (d_work d ++ [w]) (d_retry d) (d_changed d) (d_marked d ++ marks).

Definition sleep_due (now : Z) (a : Agent) : bool :=
  (bool_decide (Status a = AgentWaitingInput) || bool_decide (Status a = AgentIdle))
  && (0 <? SleepAfterSec (Policy a)) && (0 <? IdleSince a)
  && (SleepAfterSec (Policy a) * 1000 <=? now - IdleSince a) && (PendingApprovals a =? 0).

Definition redeliver_due (now : Z) (c : Control) (m : AgentMessage) : bool :=
  match agentDelivered c !! MsgID m with Some t => agentRedeliverAfter <? now - t | None => true end.

Definition is_live (run : option AgentRun) : bool := match run with Some _ => true | None => false end.

(** The one action decided on. *)
Definition act (now : Z) (online : string -> bool) (runID : string) (c : Control) (d : decision) : decision :=
  let a := d_agent d in
  let run := d_run d in
  match workspaces c !! WS a with
  | None => d
  | Some ws =>
      let state := Lifecycle.State ws in
      if agentTerminal (Status a) then d
      else if (now <? StartAt (Policy a)) && negb (is_live run) then d
      else if negb (is_live run) && (0 <? length (Inbox a))%nat && bool_decide (state = WSClaimed)
              && online (Lifecycle.Node ws) && negb (d_retry d) && negb (retry_later now c (ID a))
      then launch now runID ws d
      else if negb (is_live run) && (0 <? length (Inbox a))%nat && bool_decide (state = WSPaused)
              && negb (retry_later now c (ID a))
      then add_work (WakeAgent (ID a)) [] d
      else match run, Inbox a with
      | Some r, m :: _ =>
          if bool_decide (RunState r = AgentRunActive) && (TurnMessage r =s "") && bool_decide (state = WSClaimed)
          then if redeliver_due now c m
               then add_work (DeliverToRun (ID a) (RunID r) (RunNode r) m) [MsgID m] d else d
          else if sleep_due now a && bool_decide (state = WSClaimed) && negb (retry_later now c (ID a))
          then add_work (SleepAgent (ID a)) [] d else d
      | _, _ =>
          if sleep_due now a && bool_decide (state = WSClaimed) && negb (retry_later now c (ID a))
          then add_work (SleepAgent (ID a)) [] d else d
      end
  end.

Definition mark_delivered (now : Z) (ids : list string) (c : Control) : Control :=
  set_agentDelivered (foldr (fun id m => <[id := now]> m) (agentDelivered c) ids) c.

(** A finished child is reported to its parent. *)
Definition notifyParentLocked (now : Z) (tx : bool) (msgID summary : string) (child : Agent) (c : Control) : Control :=
  match agents c !! Parent child with
  | None =>
      let child := stamped now (set_ParentNotified true child) in
      match commitAgentRows tx c child ∅ with Err _ => put_agent child c | Ok c => put_agent child c end
  | Some parent =>
      if agentTerminal (Status parent)
      then
        let child := stamped now (set_ParentNotified true child) in
        match commitAgentRows tx c child ∅ with Err _ => put_agent child c | Ok c => put_agent child c end
      else if (MaxAgentInbox <=? length (Inbox parent))%nat then c
      else
        let msg := mkMessage msgID "child" summary ("agent:" ++ ID child)%string now in
        let p := set_UpdatedAt now (set_Inbox (Inbox parent ++ [msg]) parent) in
        let '(p, failed) := match refreshAgentStatusLocked now c p with
                            | Ok (p, _) => (p, set_UpdatedAt (UpdatedAt parent) (set_Status (Status parent) (set_Inbox (Inbox parent) p)))
                            | Err _ => (p, set_UpdatedAt (UpdatedAt parent) (set_Inbox (Inbox parent) p))
                            end in
        let child' := set_ParentNotified true child in
        if tx
        then set_agent_rows (<[ID child' := child']> (<[ID p := p]> (agent_rows c))) (put_agent child' (put_agent p c))
        else put_agent failed c
  end.

(** [agentDecide] on one agent: a decision that changes state commits before
    the work it implies. *)
Definition agentDecide (now : Z) (tx : bool) (online gone : string -> bool) (runID msgID summary : string) (id : string)
    (c : Control) : list work * Control :=
  match agents c !! id with
  | None => ([], c)
  | Some live =>
      if agentTerminal (Status live)
      then if (Parent live <>s "") && negb (ParentNotified live)
           then ([], notifyParentLocked now tx msgID summary live c) else ([], c)
      else if bool_decide (id ∈ agentBusy c) then ([], c)
      else
        let d := act now online runID c (abandon now online gone c live) in
        let a := d_agent d in
        let changed := d_changed d || negb (bool_decide (deriveAgentStatus a (workspaces c !! WS a) now = Status a)) in
        let unmark c := forget (d_marked d) c in
        let c := mark_delivered now (d_marked d) c in
        match refreshAgentStatusLocked now c a with
        | Err _ => ([], unmark c)
        | Ok (a, more) =>
            match (match d_events d ++ more with
                   | [] => Ok (if changed then publishLocked (d_stage d) (put_agent a c) else c)
                   | _ => match commitAgentRows tx c (stamped now a) (d_stage d) with
                          | Err e => Err e
                          | Ok c => Ok (if changed then publishLocked (d_stage d) (put_agent (stamped now a) c) else c)
                          end
                   end) with
            | Err _ => ([], unmark c)
            | Ok c =>
                let c := if changed && d_retry d
                         then set_agentRetry (<[id := now + agentRetryBackoff]> (agentRetry c)) c else c in
                match d_work d with
                | [] => ([], c)
                | w => (w, set_agentBusy ({[id]} ∪ agentBusy c) c)
                end
            end
        end
  end.

Definition agentWorkDone (id : string) (c : Control) : Control := set_agentBusy (agentBusy c ∖ {[id]}) c.

Definition deferAgent (now : Z) (id : string) (c : Control) : Control :=
  set_agentRetry (<[id := now + agentRetryBackoff]> (agentRetry c)) c.

(** How the node answers a launch. *)
Inductive launched := Launched (transcript : string) | LaunchConflict (error : string) | LaunchRefused (error : string).

Definition launch_failed (now : Z) (c : Control) (a : Agent) (i : nat) (error : string) (counts : bool) : change :=
  let text := ("launch: " ++ error)%string in
  let '(st, a, events) := finishRunLocked now c ∅ a i "launch_failed" text in
  let a := if counts then set_Failures (Failures a + 1) a else a in
  let ch := mkChange a st events [] false in
  if agentMaxFailures <=? Failures a then end_agent AgentFailed text EvAgentFailed ch
  else mkChange a st events [] true.

Definition launchRun (now : Z) (tx : bool) (answer : launched) (agent run node : string) (c : Control) : Control :=
  match agents c !! agent with
  | None => c
  | Some live =>
      match findRun (Runs live) run with
      | None => c
      | Some i =>
          match Runs live !! i with
          | None => c
          | Some r =>
              if run_done r then c
              else
                match answer with
                | Launched t =>
                    let a := if t <>s ""
                             then set_TranscriptNode node (set_TranscriptSession t (change_run i (set_Transcript t) live))
                             else live in
                    let a := match refreshAgentStatusLocked now c a with Ok (a, _) => a | Err _ => a end in
                    match commit_copy tx now c a ∅ with Err _ => c | Ok c => c end
                | LaunchConflict error | LaunchRefused error =>
                    if bool_decide (RunState r = AgentRunActive) then c
                    else
                      let counts := match answer with LaunchRefused _ => true | _ => false end in
                      let ch := launch_failed now c live i error counts in
                      let a := match refreshAgentStatusLocked now c (ch_agent ch) with Ok (a, _) => a | Err _ => ch_agent ch end in
                      match commit_copy tx now c a (ch_stage ch) with
                      | Err _ => c
                      | Ok c => settle_marks now (with_agent a ch) c
                      end
                end
          end
      end
  end.
(** ** Decisions of a human *)

Record decide_request := mkDecide {
  req_id : string; req_option : string; req_denied : bool; req_content : string; req_remember : string }.

Definition option_of_kind (kind : string) (opts : list ApprovalOption) : option string :=
  fmap OptionID (List.find (fun op => OptionKind op =s kind) opts).

Definition firstAllowOption (opts : list ApprovalOption) : string :=
  match option_of_kind "allow_once" opts with
  | Some id => id
  | None => match option_of_kind "allow_always" opts with Some id => id | None => EmptyString end
  end.

Definition hasOption (opts : list ApprovalOption) (id : string) : bool := existsb (fun op => OptionID op =s id) opts.

(** [raw] is valid JSON, so that the white space around it is ASCII. *)
Definition isJSONObject (raw : string) : bool :=
  match GoStd.TrimSpace (GoStd.string_bytes raw) with b :: _ => b =? 0x7b | [] => false end.

Definition decide_tool (live : Approval) (req : decide_request) (d : ApprovalDecision) : result fault ApprovalDecision :=
  if req_denied req
  then if (req_option req <>s "") && negb (hasOption (ApOptions live) (req_option req))
       then Err (Fault CodeBadRequest) else Ok d
  else if req_option req =s ""
  then let option := firstAllowOption (ApOptions live) in
       if (length (ApOptions live) =? 0)%nat || (option =s "") then Err (Fault CodeBadRequest)
       else Ok (mkDecision option (Denied d) (Content d) (DecidedBy d) (DecidedAt d) (Remember d))
  else if negb (hasOption (ApOptions live) (req_option req)) then Err (Fault CodeBadRequest) else Ok d.

Definition decide_elicitation (req : decide_request) (d : ApprovalDecision) : result fault ApprovalDecision :=
  if req_option req <>s "" then Err (Fault CodeBadRequest)
  else if negb (req_denied req) && (req_content req =s "") then Err (Fault CodeBadRequest)
  else if (req_content req <>s "") && negb (isJSONObject (req_content req)) then Err (Fault CodeBadRequest)
  else Ok (if req_denied req then d
           else mkDecision (Option d) (Denied d) (req_content req) (DecidedBy d) (DecidedAt d) (Remember d)).

Definition decide_egress (req : decide_request) (d : ApprovalDecision) : result fault ApprovalDecision :=
  if negb ((req_option req =s "") || (req_option req =s "deny") || ((req_option req =s "allow") && negb (req_denied req)))
  then Err (Fault CodeBadRequest)
  else
    let denied := Denied d || (req_option req =s "deny") in
    let remember := if req_remember req =s "" then "none" else req_remember req in
    if (remember =s "none") || (remember =s "host") || (remember =s "rule")
    then Ok (mkDecision (if denied then "deny" else "allow") denied (Content d) (DecidedBy d) (DecidedAt d) remember)
    else Err (Fault CodeBadRequest).

Definition decide_kind (now : Z) (subject : string) (live : Approval) (req : decide_request)
  : result fault ApprovalDecision :=
  let d := mkDecision (req_option req) (req_denied req) EmptyString subject now EmptyString in
  if negb (bool_decide (Kind live = ApprovalEgress)) && (req_remember req <>s "") then Err (Fault CodeBadRequest)
  else match Kind live with
  | ApprovalToolCall => decide_tool live req d
  | ApprovalElicitation => decide_elicitation req d
  | ApprovalEgress => decide_egress req d
  | ApprovalUnknown => Err (Fault CodeInternal)
  end.

Definition decided_approval (o : Options) (now : Z) (live : Approval) (d : ApprovalDecision) : Approval :=
  let ap := set_Decision (Some d) (set_ApStatus ApprovalDecided live) in
  if bool_decide (Kind live = ApprovalEgress) then set_ExpiresAt (DecidedAt d + ApprovalDecisionTTL o) ap else ap.

Definition ruleProtocol (rs : list EgressRule) (id : string) : string :=
  match List.find (fun r => RuleID r =s id) rs with Some r => Protocol r | None => "https" end.

(** The rule a decision to remember a host puts first. *)
Definition remembered (rs : list EgressRule) (ap : Approval) : list EgressRule :=
  mkRule ("approved-" ++ ApID ap)%string "allow" (ruleProtocol rs (Rule ap)) [Host ap] :: rs.

(** [normalized] is what [NormalizeSecurity] makes of the rules of the
    approval's workspace.  A failure restores what the call installed. *)
Definition approvalDecide (o : Options) (now : Z) (tx : bool) (normalized : result Code (list EgressRule))
    (subject : string) (req : decide_request) (c : Control) : result fault Approval * Control :=
  match approvals c !! req_id req with
  | None => (Err (Fault CodeNotFound), c)
  | Some live =>
      if negb (bool_decide (ApStatus live = ApprovalPending)) then (Err (Fault CodeConflict), c)
      else match decide_kind now subject live req with
      | Err e => (Err e, c)
      | Ok d =>
          let decided := set_ApUpdatedAt now (decided_approval o now live d) in
          let c1 := markApprovalDirty now decided c in
          match agents c !! ApAgent decided with
          | Some a =>
              let a := set_PendingApprovals (pendingApprovalsLocked c1 (ID a)) a in
              match refreshAgentStatusLocked now c1 a with
              | Err e => (Err e, c)
              | Ok (a, _) =>
                  let a := stamped now a in
                  match commitAgentRows tx c1 a ∅ with
                  | Err e => (Err e, c)
                  | Ok c1 => (Ok decided, put_agent a c1)
                  end
              end
          | None =>
              let remembers := bool_decide (Kind decided = ApprovalEgress) && negb (Denied d) && (Remember d =s "host")
                               && bool_decide (workspaces c !! ApWS decided <> None) in
              match (if remembers then match normalized with Err e => Err (Fault e) | Ok rs => Ok (Some rs) end else Ok None) with
              | Err e => (Err e, c)
              | Ok rs =>
                  match persistApprovalsOnly tx c1 with
                  | Err e => (Err e, c)
                  | Ok c1 =>
                      (Ok decided,
                       match rs with
                       | Some rs => set_rules (<[ApWS decided := remembered rs decided]> (rules c1)) c1
                       | None => c1
                       end)
                  end
              end
          end
      end
  end.

(** [sendDecision], once the node acknowledged. *)
Definition sendDecision (now : Z) (tx : bool) (id : string) (c : Control) : Control :=
  match approvals c !! id with
  | None => c
  | Some ap =>
      if negb (DeliveredAt ap =? 0) then c
      else
        let c := markApprovalDirty now (set_DeliveredAt now ap) c in
        match persistApprovalsOnly tx c with Err _ => c | Ok c => c end
  end.

(** ** Expiry *)

Definition egress_due (now : Z) (ap : Approval) : bool :=
  bool_decide (Kind ap = ApprovalEgress) && bool_decide (ApStatus ap = ApprovalPending)
  && (0 <? ExpiresAt ap) && (ExpiresAt ap <=? now).

Definition expire_egress (now : Z) (ap : Approval) : Approval :=
  set_ApUpdatedAt now (set_Decision (Some (mkDecision "deny" true EmptyString "control" now "none"))
    (set_ApStatus ApprovalExpired ap)).

(** The first loop of [expireStaleApprovals], with its flush. *)
Definition expireEgress (now : Z) (tx : bool) (c : Control) : Control :=
  let due := filter (fun kv => egress_due now kv.2 = true) (approvals c) in
  if bool_decide (due = ∅) then c
  else
    let c := publishDirtyLocked (expire_egress now <$> due) c in
    match persistApprovalsOnly tx c with Err _ => c | Ok c => c end.

(** The approvals the second loop looks at. *)
Definition open_approval (agent : string) (ap : Approval) : bool :=
  negb (bool_decide (Kind ap = ApprovalEgress)) && (ApAgent ap =s agent)
  && (bool_decide (ApStatus ap = ApprovalPending)
      || (bool_decide (ApStatus ap = ApprovalDecided) && (DeliveredAt ap =? 0))).

Definition run_of (a : option Agent) (id : string) : option AgentRun :=
  match a with Some a => findRun (Runs a) id ≫= (Runs a !!.) | None => None end.

Definition stale (a : option Agent) (ap : Approval) : bool :=
  match a with
  | None => true
  | Some ag => agentTerminal (Status ag) || match run_of a (ApRun ap) with None => true | Some r => run_done r end
  end.

(** The approval after the loop, and whether it is marked dirty. *)
Definition stale_step (now : Z) (a : option Agent) (ap : Approval) : Approval * bool :=
  match ApStatus ap with
  | ApprovalPending => if stale a ap then (set_ApUpdatedAt now (set_ApStatus ApprovalExpired ap), true) else (ap, false)
  | ApprovalDecided =>
      if stale a ap then (set_ApUpdatedAt now (set_DeliveredAt (-1) ap), true)
      else match run_of a (ApRun ap), Decision ap with
      | Some r, Some _ =>
          if bool_decide (RunState r = AgentRunActive) && (agentRedeliverAfter <? now - ApUpdatedAt ap)
          then (set_ApUpdatedAt now ap, false) else (ap, false)
      | _, _ => (ap, false)
      end
  | ApprovalExpired => (ap, false)
  end.

(** The second loop, on the approvals of one agent. *)
Definition expireAgent (now : Z) (tx : bool) (id : string) (c : Control) : Control :=
  let opened := filter (fun kv => open_approval id kv.2 = true) (approvals c) in
  if bool_decide (opened = ∅) then c
  else
    let a := agents c !! id in
    let marked := filter (fun kv => (stale_step now a kv.2).2 = true) opened in
    let expired := filter (fun kv => ApStatus kv.2 = ApprovalPending) marked in
    let c := set_approvals ((fst ∘ stale_step now a <$> opened) ∪ approvals c)
               (set_dirtyApprovals (dirtyApprovals c ∪ dom marked) c) in
    match a with
    | Some a =>
        let a := set_PendingApprovals (pendingApprovalsLocked c (ID a)) a in
        let '(a, more) := match refreshAgentStatusLocked now c a with Ok r => r | Err _ => (a, []) end in
        if bool_decide (expired = ∅) && bool_decide (more = []) && bool_decide (dirtyApprovals c = ∅)
        then put_agent a c
        else
          let a := stamped now a in
          match commitAgentRows tx c a ∅ with Err _ => put_agent a c | Ok c => put_agent a c end
    | None =>
        if bool_decide (dirtyApprovals c = ∅) then c
        else match persistApprovalsOnly tx c with Err _ => c | Ok c => c end
    end.

(** ** Egress *)

Record EgressApprovalReq := mkEgressReq {
  eg_ws : string; eg_gen : Z; eg_rule : string; eg_host : string; eg_method : string; eg_principal : string;
  eg_path : string; eg_body : string; eg_fingerprint : string; eg_wait : Z }.

Definition lower_hex (b : Z) : bool := GoStd.in_range 0x30 0x39 b || GoStd.in_range 0x61 0x66 b.

Definition approvalDigest (value : string) : bool :=
  (string_len value =? 64) && forallb lower_hex (GoStd.string_bytes value).

Definition matches (now : Z) (req : EgressApprovalReq) (ap : Approval) : bool :=
  bool_decide (Kind ap = ApprovalEgress) && (ApWS ap =s eg_ws req) && (Principal ap =s eg_principal req)
  && (now <? ExpiresAt ap)
  && ((Fingerprint ap =s eg_fingerprint req)
      || match ApStatus ap, Decision ap with
         | ApprovalDecided, Some d =>
             negb (Denied d) && (((Remember d =s "host") && (Host ap =s eg_host req))
                                 || ((Remember d =s "rule") && (Rule ap =s eg_rule req)))
         | _, _ => false
         end).

(** The first match in the order the map is iterated. *)
Definition first_match (now : Z) (req : EgressApprovalReq) (order : list string) (c : Control) : option Approval :=
  head (filter (fun ap => matches now req ap = true) (omap (approvals c !!.) order)).

Definition new_egress (o : Options) (now : Z) (id : string) (upper : string) (ws : Workspace) (req : EgressApprovalReq)
  : Approval :=
  mkApproval id (Lifecycle.Tenant ws) (Lifecycle.Owner ws) EmptyString (Lifecycle.ID ws) EmptyString (eg_principal req)
    (eg_rule req) (eg_host req) upper (eg_path req) (eg_body req) (eg_fingerprint req) ApprovalEgress
    ("Egress to " ++ eg_host req)%string EmptyString EmptyString [] [] EmptyString ApprovalPending None 0 now now
    (now + ApprovalTimeout o).

Definition pending_egress (now : Z) (tenant : string) (c : Control) : Z :=
  Z.of_nat (length (filter (fun kv => (ApTenant kv.2 =s tenant) && bool_decide (Kind kv.2 = ApprovalEgress)
    && bool_decide (ApStatus kv.2 = ApprovalPending) && (now <? ExpiresAt kv.2) = true) (map_to_list (approvals c)))).

(** [egressApproval] under the lock: the id of the approval whose status is
    then awaited. [upper] is the method in upper case. *)
Definition egressApproval (o : Options) (now : Z) (tx : bool) (order : list string) (newID upper node : string)
    (req : EgressApprovalReq) (c : Control) : result fault string * Control :=
  if (eg_ws req =s "") || (eg_gen req =? 0) || (eg_rule req =s "") || (eg_host req =s "") || (eg_method req =s "")
     || (eg_principal req =s "")
  then (Err (Fault CodeBadRequest), c)
  else if negb (approvalDigest (eg_path req)) || negb (approvalDigest (eg_body req))
          || negb (approvalDigest (eg_fingerprint req))
  then (Err (Fault CodeBadRequest), c)
  else if (512 <? string_len (eg_host req)) || (32 <? string_len (eg_method req)) then (Err (Fault CodeBadRequest), c)
  else if eg_wait req <? 0 then (Err (Fault CodeBadRequest), c)
  else match workspaces c !! eg_ws req with
  | None => (Err (Fault CodeDenied), c)
  | Some ws =>
      if negb (bool_decide (Lifecycle.State ws = WSClaimed) || bool_decide (Lifecycle.State ws = WSClaiming))
         || (Lifecycle.Node ws <>s node) || negb (Lifecycle.Generation ws =? eg_gen req)
      then (Err (Fault CodeDenied), c)
      else if negb (existsb (fun r => (RuleID r =s eg_rule req) && (Mode r =s "approve")) (default [] (rules c !! eg_ws req)))
      then (Err (Fault CodeDenied), c)
      else match first_match now req order c with
      | Some ap => (Ok (ApID ap), c)
      | None =>
          if MaxPendingEgressApprovals o <=? pending_egress now (Lifecycle.Tenant ws) c
          then (Err (Fault CodeResourceExhausted), c)
          else
            let ap := new_egress o now newID upper ws req in
            match persistApprovalsOnly tx (markApprovalDirty now ap c) with
            | Err e => (Err e, c)
            | Ok c => (Ok newID, c)
            end
      end
  end.

(** What the node is answered while it waits. *)
Definition egress_answer (c : Control) (id : string) : result fault (ApprovalStatus * bool) :=
  match approvals c !! id with
  | None => Err (Fault CodeNotFound)
  | Some ap =>
      Ok (ApStatus ap,
          match ApStatus ap, Decision ap with ApprovalDecided, Some d => negb (Denied d) | _, _ => false end)
  end.

(** ** Restart *)

(** [loadAgents], into a fresh process. *)
Definition loadAgents (c : Control) : Control :=
  mkControl (agent_rows c) (approval_rows c) ∅ ∅ ∅ ∅ (workspaces c) (rules c) (agent_rows c) (approval_rows c).
End Agents.
