(* ===== verification/AgentsProofs.v ===== *)
(** * Runs and approvals

    Every handler of [Agents] is a sequence of a few steps on the agents and
    approvals in memory and in the database ([prim]); the theorems about runs,
    reports and approvals are proved of those steps. *)

From Stdlib Require Import ZArith Lia Strings.String Strings.Ascii.
From stdpp Require Import base gmap strings option sorting relations list pretty.
From S2P Require Import Prelude GoStd Lifecycle Agents.
#[local] Open Scope Z_scope.

Module AgentsProofs.
Import Lifecycle(Code, Workspace, AgentStatus, AgentFailed, AgentFinished, AgentDestroyed, AgentStatus_eq_dec,
  WSState_eq_dec, transitionAgent).
Import Agents.

#[local] Existing Instance WSState_eq_dec.
#[local] Existing Instance AgentStatus_eq_dec.

(** ** Runs *)

(** What any change to an existing run keeps. *)
Definition run_step (r r' : AgentRun) : Prop :=
  RunID r' = RunID r /\ Attempt r' = Attempt r /\ (run_done r = true -> run_done r' = true) /\ LastReport r <= LastReport r'.

(** ... when it does not end the run. *)
Definition run_keep (r r' : AgentRun) : Prop := run_step r r' /\ run_done r' = run_done r.

#[export] Instance run_step_preorder : PreOrder run_step.
Proof. split; [by intros r|]. intros r1 r2 r3 (? & ? & ? & ?) (? & ? & ? & ?). split_and!; [congruence|congruence|auto|lia]. Qed.

#[export] Instance run_keep_preorder : PreOrder run_keep.
Proof. split; [by intros r|]. intros r1 r2 r3 [? ?] [? ?]. split; [by etrans|congruence]. Qed.

Lemma alter_steps (R : relation AgentRun) `{!Reflexive R} f i rs :
  (forall r, rs !! i = Some r -> R r (f r)) -> Forall2 R rs (alter f i rs).
Proof.
  intros Hf. apply Forall2_lookup. intros j. destruct (decide (i = j)) as [<-|Hj].
  - rewrite list_lookup_alter_eq. destruct (rs !! i) eqn:E; constructor. auto.
  - rewrite list_lookup_alter_ne by done. destruct (rs !! j); constructor. reflexivity.
Qed.

Lemma keep_step rs rs' : Forall2 run_keep rs rs' -> Forall2 run_step rs rs'.
Proof. intros Hf. eapply Forall2_impl; [exact Hf|]. by intros ? ? [? _]. Qed.

(** A live run with this id. *)
Definition lives (id : string) (rs : list AgentRun) : Prop := exists r, r ∈ rs /\ RunID r = id /\ run_done r = false.

Lemma keep_lives id rs rs' : Forall2 run_keep rs rs' -> lives id rs -> lives id rs'.
Proof.
  intros Hf (r & Hr & Hid & Hd). apply list_elem_of_lookup_1 in Hr as (i & Hi).
  destruct (Forall2_lookup_l _ _ _ _ _ Hf Hi) as (r' & Hi' & (E & _ & _ & _) & Ed).
  exists r'. split_and!; [by eapply list_elem_of_lookup_2|congruence|congruence].
Qed.

(** The shape of an agent's runs: only the last may be live, attempts
    increase, ids are in [used]. *)
Record runs_ok (used : gset string) (rs : list AgentRun) : Prop := mkRunsOk {
  ro_live : forall i r, rs !! i = Some r -> (S i < length rs)%nat -> run_done r = true;
  ro_attempts : forall i j r r', rs !! i = Some r -> rs !! j = Some r' -> (i < j)%nat -> Attempt r < Attempt r';
  ro_ids : forall i j r r', rs !! i = Some r -> rs !! j = Some r' -> RunID r = RunID r' -> i = j;
  ro_used : forall r, r ∈ rs -> RunID r ∈ used }.

Lemma runs_ok_step used rs rs' : Forall2 run_step rs rs' -> runs_ok used rs -> runs_ok used rs'.
Proof.
  intros Hf [Hl Ha Hi Hu]. pose proof (Forall2_length _ _ _ Hf) as Hlen.
  assert (forall i r', rs' !! i = Some r' -> exists r, rs !! i = Some r /\ run_step r r') as Hback
    by (intros i r' Hr'; apply (Forall2_lookup_r _ _ _ _ _ Hf Hr')).
  split.
  - intros i r' (r & Hr & (_ & _ & Hd & _))%Hback Hlt. apply Hd, (Hl i r Hr). lia.
  - intros i j r1 r2 (r1' & H1 & (_ & E1 & _))%Hback (r2' & H2 & (_ & E2 & _))%Hback Hij. rewrite E1, E2. eauto.
  - intros i j r1 r2 (r1' & H1 & (E1 & _))%Hback (r2' & H2 & (E2 & _))%Hback E. eapply Hi; eauto. congruence.
  - intros r' (i & Hr')%list_elem_of_lookup_1. destruct (Hback i r' Hr') as (r & Hr & (E & _)). rewrite E.
    apply Hu. by eapply list_elem_of_lookup_2.
Qed.

Lemma runs_ok_drop used n rs : runs_ok used rs -> runs_ok used (drop n rs).
Proof.
  intros [Hl Ha Hi Hu]. split.
  - intros i r. rewrite lookup_drop, length_drop. intros Hr ?. apply (Hl (n + i)%nat r Hr). lia.
  - intros i j r r'. rewrite !lookup_drop. intros. eapply (Ha (n + i) (n + j))%nat; eauto. lia.
  - intros i j r r'. rewrite !lookup_drop. intros H1 H2 E. pose proof (Hi _ _ _ _ H1 H2 E). lia.
  - intros r Hr. apply Hu. eapply elem_of_submseteq; [exact Hr|]. apply sublist_submseteq, sublist_drop.
Qed.

(** Dropping old runs keeps the live one. *)
Lemma drop_lives used n rs id : runs_ok used rs -> (n < length rs)%nat -> lives id rs -> lives id (drop n rs).
Proof.
  intros [Hl _ _ _] Hn (r & Hr & Hid & Hd). apply list_elem_of_lookup_1 in Hr as (i & Hi).
  exists r. split; [|done]. apply (list_elem_of_lookup_2 _ (i - n)%nat). rewrite lookup_drop.
  pose proof (lookup_lt_Some _ _ _ Hi). destruct (decide (S i < length rs)%nat) as [Hlt|Hlt].
  - rewrite (Hl i r Hi Hlt) in Hd. done.
  - by replace (n + (i - n))%nat with i by lia.
Qed.

(** A launch appends a fresh run behind finished ones. *)
Lemma runs_ok_snoc used rs r : runs_ok used rs -> Forall (fun r => run_done r = true) rs -> RunID r ∉ used ->
  Attempt r = next_attempt rs -> runs_ok ({[RunID r]} ∪ used) (rs ++ [r]).
Proof.
  intros [Hl Ha Hi Hu] Hdone Hfresh Hatt. split.
  - intros i r' Hr'. rewrite length_app. cbn. intros Hlt. rewrite lookup_app_l in Hr' by lia.
    by apply (Forall_lookup_1 _ _ i _ Hdone Hr').
  - intros i j r1 r2 H1 H2 Hij.
    assert (j < length (rs ++ [r]))%nat as Hj by (by eapply lookup_lt_Some). rewrite length_app in Hj. cbn in Hj.
    rewrite lookup_app_l in H1 by lia. destruct (decide (j < length rs)%nat) as [Hj'|Hj'].
    + rewrite lookup_app_l in H2 by lia. eauto.
    + assert (j = length rs) as -> by lia. rewrite list_lookup_middle in H2 by done. injection H2 as <-.
      rewrite Hatt. unfold next_attempt. destruct (last rs) as [rl|] eqn:El.
      2: { apply last_None in El as ->. cbn in Hij. lia. }
      rewrite last_lookup in El. destruct (decide (i = pred (length rs))) as [->|Hne].
      * rewrite H1 in El. injection El as <-. lia.
      * pose proof (Ha i (pred (length rs)) r1 rl H1 El ltac:(lia)). lia.
  - intros i j r1 r2 H1 H2 E.
    assert (forall k x, (rs ++ [r]) !! k = Some x -> (k < length rs)%nat /\ rs !! k = Some x \/ k = length rs /\ x = r) as Hcase.
    { intros k x Hk. apply lookup_app_Some in Hk as [Hk|[? Hk]]; [left; split; [by eapply lookup_lt_Some|done]|right].
      apply list_lookup_singleton_Some in Hk as [? <-]. split; [lia|done]. }
    destruct (Hcase i r1 H1) as [[? H1']|[-> ->]], (Hcase j r2 H2) as [[? H2']|[-> ->]]; [by eauto| | |done].
    + exfalso. apply Hfresh. rewrite <- E. apply Hu. by eapply list_elem_of_lookup_2.
    + exfalso. apply Hfresh. rewrite E. apply Hu. by eapply list_elem_of_lookup_2.
  - intros r' [Hr'|Hr']%elem_of_app; [apply elem_of_union; right; by apply Hu|].
    apply list_elem_of_singleton in Hr' as ->. set_solver.
Qed.

(** The runs a commit may store, before it trims them. *)
Inductive runs_change (used : gset string) (rs : list AgentRun) : gset string -> list AgentRun -> Prop :=
| runs_changed rs' : Forall2 run_step rs rs' -> runs_change used rs used rs'
| runs_launched rs' r : Forall2 run_step rs rs' -> Forall (fun r => run_done r = true) rs' -> RunID r ∉ used ->
    Attempt r = next_attempt rs' -> runs_change used rs ({[RunID r]} ∪ used) (rs' ++ [r]).

Lemma runs_change_ok used used' rs rs' : runs_change used rs used' rs' -> runs_ok used rs -> runs_ok used' rs'.
Proof.
  intros [rs1 Hf|rs1 r Hf Hd Hn Ha] Hok; [by eapply runs_ok_step|]. apply runs_ok_snoc; [by eapply runs_ok_step|done..].
Qed.

Lemma trim_runs now a : Runs (stamped now a) = drop (length (Runs a) - MaxAgentRuns) (Runs a).
Proof.
  unfold stamped, trimAgentRuns. step_if; [done|]. bool_hyp. cbn [Runs set_UpdatedAt] in *.
  apply Nat.ltb_ge in E. by replace (length (Runs a) - MaxAgentRuns)%nat with 0%nat by lia.
Qed.

(** ** Equality up to what no invariant reads *)

Definition skel (a : Agent) : list AgentRun := map (set_TurnMessage EmptyString) (Runs a).
Definition core (ap : Approval) : Approval := set_ApUpdatedAt 0 ap.

Definition same_runs (m m' : gmap string Agent) : Prop := forall k, skel <$> m !! k = skel <$> m' !! k.
Definition same_core (m m' : gmap string Approval) : Prop := forall k, core <$> m !! k = core <$> m' !! k.

#[export] Instance same_runs_equiv : Equivalence same_runs.
Proof. split; [by intros m k|intros m m' Hm k; by rewrite Hm|intros m1 m2 m3 H1 H2 k; by rewrite H1, H2]. Qed.

#[export] Instance same_core_equiv : Equivalence same_core.
Proof. split; [by intros m k|intros m m' Hm k; by rewrite Hm|intros m1 m2 m3 H1 H2 k; by rewrite H1, H2]. Qed.

Lemma skel_lives id a a' : skel a = skel a' -> lives id (Runs a) -> lives id (Runs a').
Proof.
  unfold skel. intros E (r & Hr & Hid & Hd). apply (list_elem_of_fmap_2 (set_TurnMessage EmptyString)) in Hr.
  change (set_TurnMessage EmptyString <$> Runs a) with (map (set_TurnMessage EmptyString) (Runs a)) in Hr. rewrite E in Hr.
  apply list_elem_of_fmap in Hr as (r' & Er & Hr'). exists r'. split; [done|].
  assert (RunID r' = RunID r) as -> by exact (f_equal RunID (eq_sym Er)).
  assert (RunState r' = RunState r) as Es by exact (f_equal RunState (eq_sym Er)). unfold run_done in *. by rewrite Es.
Qed.

Lemma skel_keep a b : skel a = skel b -> Forall2 run_keep (Runs a) (Runs b).
Proof.
  intros E. apply Forall2_lookup. intros i.
  assert (set_TurnMessage EmptyString <$> Runs a !! i = set_TurnMessage EmptyString <$> Runs b !! i) as Ei
    by (rewrite <- !list_lookup_fmap; exact (f_equal (.!! i) E)).
  destruct (Runs a !! i) as [r|], (Runs b !! i) as [r'|]; try done; constructor. apply (inj Some) in Ei.
  assert (RunState r = RunState r') as Es by exact (f_equal RunState Ei).
  assert (run_done r' = run_done r) as Ed by (unfold run_done; by rewrite Es).
  split; [|done]. split_and!; [exact (eq_sym (f_equal RunID Ei))|exact (eq_sym (f_equal Attempt Ei))|congruence|].
  pose proof (f_equal LastReport Ei) as El. cbn in El. lia.
Qed.

Lemma core_fields ap ap' : core ap = core ap' -> ApStatus ap = ApStatus ap' /\ Kind ap = Kind ap' /\ ApAgent ap = ApAgent ap' /\
  ApRun ap = ApRun ap' /\ Decision ap = Decision ap' /\ ApID ap = ApID ap'.
Proof.
  intros E. split_and!; [exact (f_equal ApStatus E)|exact (f_equal Kind E)|exact (f_equal ApAgent E)|exact (f_equal ApRun E)
    |exact (f_equal Decision E)|exact (f_equal ApID E)].
Qed.

Lemma same_core_lookup m m' id ap : same_core m m' -> m' !! id = Some ap -> exists ap', m !! id = Some ap' /\ core ap' = core ap.
Proof.
  intros Hs Hap. specialize (Hs id). rewrite Hap in Hs. destruct (m !! id) as [ap'|]; [|done]. apply (inj Some) in Hs. eauto.
Qed.

Lemma same_runs_lookup m m' id a : same_runs m m' -> m' !! id = Some a -> exists a', m !! id = Some a' /\ skel a' = skel a.
Proof.
  intros Hs Ha. specialize (Hs id). rewrite Ha in Hs. destruct (m !! id) as [a'|]; [|done]. apply (inj Some) in Hs. eauto.
Qed.

(** Every pending question of a harness was asked by a run that is still live. *)
Definition backed (ags : gmap string Agent) (aps : gmap string Approval) : Prop :=
  forall id ap, aps !! id = Some ap -> ApStatus ap = ApprovalPending -> Kind ap <> ApprovalEgress ->
  exists a, ags !! ApAgent ap = Some a /\ lives (ApRun ap) (Runs a).

(** Every decision is one a human made. *)
Definition decided_by (humans : list (string * ApprovalDecision)) (aps : gmap string Approval) : Prop :=
  forall id ap, aps !! id = Some ap -> ApStatus ap = ApprovalDecided -> exists d, Decision ap = Some d /\ (id, d) ∈ humans.

Lemma backed_impl ags ags' aps aps' : same_runs ags ags' -> same_core aps aps' -> backed ags aps -> backed ags' aps'.
Proof.
  intros Hr Hc Hb id ap' Hap Hp Hk. destruct (same_core_lookup aps aps' id ap' Hc Hap) as (ap & Hap' & E).
  apply core_fields in E as (E1 & E2 & E3 & E4 & _). rewrite <- E1 in Hp. rewrite <- E2 in Hk. rewrite <- E3, <- E4.
  destruct (Hb id ap Hap' Hp Hk) as (a & Ha & Hl).
  destruct (same_runs_lookup ags' ags (ApAgent ap) a (symmetry Hr) Ha) as (a' & Ha' & Es). exists a'. split; [done|].
  by eapply skel_lives.
Qed.

#[export] Instance backed_proper : Proper (same_runs ==> same_core ==> iff) backed.
Proof. intros ags ags' Hr aps aps' Hc. split; apply backed_impl; done || (by symmetry). Qed.

Lemma decided_by_impl h aps aps' : same_core aps aps' -> decided_by h aps -> decided_by h aps'.
Proof.
  intros Hc Hd id ap' Hap Hst. destruct (same_core_lookup aps aps' id ap' Hc Hap) as (ap & Hap' & E).
  apply core_fields in E as (E1 & _ & _ & _ & E2 & _). rewrite <- E2. apply (Hd id ap Hap'). congruence.
Qed.

#[export] Instance decided_by_proper h : Proper (same_core ==> iff) (decided_by h).
Proof. intros aps aps' Hc. split; apply decided_by_impl; done || (by symmetry). Qed.

(** ** Steps *)

(** [used] are the run ids taken, [humans] the decisions made. *)
Record sys := mkSys { ctl : Control; used : gset string; humans : list (string * ApprovalDecision) }.

Definition same_store (c c' : Control) : Prop :=
  agents c' = agents c /\ approvals c' = approvals c /\ dirtyApprovals c' = dirtyApprovals c /\
  agent_rows c' = agent_rows c /\ approval_rows c' = approval_rows c.

Definition same_identity (old new : Approval) : Prop :=
  ApID new = ApID old /\ ApAgent new = ApAgent old /\ ApRun new = ApRun old /\ Kind new = Kind old /\
  ApWS new = ApWS old /\ Principal new = Principal old /\ Fingerprint new = Fingerprint old /\ Host new = Host old /\
  Rule new = Rule old.

(** A pending approval expires, or only its delivery is noted. *)
Definition edit_ok (old new : Approval) : Prop :=
  same_identity old new /\
  ((ApStatus old = ApprovalPending /\ ApStatus new = ApprovalExpired) \/
   (ApStatus new = ApStatus old /\ Decision new = Decision old)).

Definition old_runs (c : Control) (id : string) : list AgentRun :=
  match agents c !! id with Some a => Runs a | None => [] end.

(** What an agent and its staged approvals must be to be committed together. *)
Record commit_ok (c : Control) (a : Agent) (st : stage) : Prop := mkCommitOk {
  co_edits : forall id ap, st !! id = Some ap -> ApID ap = id /\
    match approvals c !! id with
    | Some old => edit_ok old ap
    | None => ApStatus ap <> ApprovalDecided /\ ApAgent ap = ID a
    end;
  co_backed : forall id ap, (st ∪ approvals c) !! id = Some ap -> ApStatus ap = ApprovalPending ->
    Kind ap <> ApprovalEgress -> ApAgent ap = ID a -> lives (ApRun ap) (Runs a) }.

Definition committed (c : Control) (a : Agent) (st : stage) : Control :=
  set_dirtyApprovals ∅ (set_approval_rows (st ∪ (dirty_rows c ∪ approval_rows c))
    (set_agent_rows (<[ID a := a]> (agent_rows c)) c)).

Definition flushed (c : Control) : Control :=
  set_dirtyApprovals ∅ (set_approval_rows (dirty_rows c ∪ approval_rows c) c).

Inductive prim : sys -> sys -> Prop :=
| p_quiet c c' u u' h : same_store c c' -> u ⊆ u' -> prim (mkSys c u h) (mkSys c' u' h)
| p_touch c a old u h : agents c !! ID a = Some old -> skel a = skel old ->
    prim (mkSys c u h) (mkSys (put_agent a c) u h)
| p_stamp c m u h : same_core (approvals c) m -> prim (mkSys c u h) (mkSys (set_approvals m c) u h)
| p_edit c st u h : (forall id ap, st !! id = Some ap -> exists old, approvals c !! id = Some old /\ edit_ok old ap) ->
    prim (mkSys c u h) (mkSys (publishDirtyLocked st c) u h)
| p_decide c id old ap d u h : approvals c !! id = Some old -> ApStatus old = ApprovalPending -> same_identity old ap ->
    ApStatus ap = ApprovalDecided -> Decision ap = Some d ->
    prim (mkSys c u h) (mkSys (flushed (publishDirtyLocked {[id := ap]} c)) u ((id, d) :: h))
| p_ask c ap u h : approvals c !! ApID ap = None -> Kind ap = ApprovalEgress -> ApStatus ap = ApprovalPending ->
    prim (mkSys c u h) (mkSys (flushed (publishDirtyLocked {[ApID ap := ap]} c)) u h)
| p_flush c u h : prim (mkSys c u h) (mkSys (flushed c) u h)
| p_row c a old u h : agents c !! ID a = Some old -> Forall2 run_keep (Runs old) (Runs a) ->
    prim (mkSys c u h) (mkSys (put_agent a (set_agent_rows (<[ID a := a]> (agent_rows c)) c)) u h)
| p_commit c a st now u u' h : runs_change u (old_runs c (ID a)) u' (Runs a) -> commit_ok c a st ->
    prim (mkSys c u h) (mkSys (publishLocked st (put_agent (stamped now a) (committed c (stamped now a) st))) u' h)
| p_load c u h : prim (mkSys c u h) (mkSys (loadAgents c) u h).

(** ** The invariant *)

Definition keyed {A} (key : A -> string) (m : gmap string A) : Prop := forall k x, m !! k = Some x -> key x = k.

Record inv (x : sys) : Prop := mkInv {
  inv_agents : keyed ID (agents (ctl x));
  inv_approvals : keyed ApID (approvals (ctl x));
  inv_runs : forall k a, agents (ctl x) !! k = Some a -> runs_ok (used x) (Runs a) /\ (length (Runs a) <= MaxAgentRuns)%nat;
  inv_same : same_runs (agents (ctl x)) (agent_rows (ctl x));
  inv_rowkeys : keyed ID (agent_rows (ctl x)) /\ keyed ApID (approval_rows (ctl x));
  inv_dirty : forall id, id ∈ dirtyApprovals (ctl x) -> is_Some (approvals (ctl x) !! id);
  inv_clean : forall id, id ∉ dirtyApprovals (ctl x) ->
    core <$> approvals (ctl x) !! id = core <$> approval_rows (ctl x) !! id;
  inv_backed : backed (agents (ctl x)) (approvals (ctl x)) /\ backed (agent_rows (ctl x)) (approval_rows (ctl x));
  inv_decided : decided_by (humans x) (approvals (ctl x)) /\ decided_by (humans x) (approval_rows (ctl x)) }.

Lemma runs_ok_nil u : runs_ok u [].
Proof.
  apply mkRunsOk; [intros i r Hr; discriminate Hr|intros i j r r' Hr; discriminate Hr|intros i j r r' Hr; discriminate Hr|].
  intros r Hr. by apply elem_of_nil in Hr.
Qed.

Lemma runs_ok_mono u u' rs : u ⊆ u' -> runs_ok u rs -> runs_ok u' rs.
Proof. intros Hu [H1 H2 H3 H4]. split; [done|done|done|]. intros r Hr. apply Hu. by apply H4. Qed.

Lemma runs_change_mono u u' rs rs' : runs_change u rs u' rs' -> u ⊆ u'.
Proof. intros []; set_solver. Qed.

Lemma keyed_insert {A} (key : A -> string) m x : keyed key m -> keyed key (<[key x := x]> m).
Proof.
  intros Hm k y. destruct (decide (key x = k)) as [<-|]; [rewrite lookup_insert_eq; by intros [= <-]|].
  rewrite lookup_insert_ne by done. apply Hm.
Qed.

Lemma keyed_union {A} (key : A -> string) (m m' : gmap string A) : keyed key m -> keyed key m' -> keyed key (m ∪ m').
Proof. intros H1 H2 k y Hk. apply lookup_union_Some_raw in Hk as [Hk|[_ Hk]]; [by apply H1|by apply H2]. Qed.

Lemma keyed_singleton {A} (key : A -> string) x : keyed key {[key x := x]}.
Proof. intros k y [<- <-]%lookup_singleton_Some. done. Qed.

(** What a flush leaves in the table. *)
Lemma dirty_rows_core x : inv x -> same_core (approvals (ctl x)) (dirty_rows (ctl x) ∪ approval_rows (ctl x)).
Proof.
  intros Hi id. destruct (decide (id ∈ dirtyApprovals (ctl x))) as [Hd|Hd].
  - destruct (inv_dirty x Hi id Hd) as [ap Hap]. rewrite Hap. f_equal. symmetry. apply lookup_union_Some_l.
    unfold dirty_rows. apply map_lookup_filter_Some. by split.
  - rewrite lookup_union_r; [by apply (inv_clean x Hi)|]. unfold dirty_rows. apply map_lookup_filter_None. right. by intros.
Qed.

Lemma union_core (st m m' : gmap string Approval) : same_core m m' -> same_core (st ∪ m) (st ∪ m').
Proof.
  intros Hm id. destruct (st !! id) as [ap|] eqn:E.
  - by rewrite !(lookup_union_Some_l _ _ _ ap E).
  - rewrite !lookup_union_r by done. apply Hm.
Qed.

Lemma dirty_rows_keyed x : inv x -> keyed ApID (dirty_rows (ctl x)).
Proof. intros Hi k ap Hk. apply map_lookup_filter_Some in Hk as [Hk _]. by apply (inv_approvals x Hi). Qed.

Lemma edit_pending old new : edit_ok old new -> ApStatus new = ApprovalPending -> ApStatus old = ApprovalPending.
Proof. intros [_ [[_ E]|[E _]]] Hp; congruence. Qed.

Lemma edit_decided old new : edit_ok old new -> ApStatus new = ApprovalDecided ->
  ApStatus old = ApprovalDecided /\ Decision new = Decision old.
Proof. intros [_ [[_ E]|[E ?]]] Hp; [congruence|]. by rewrite E in Hp. Qed.

Lemma runs_change_keep u rs rs' : Forall2 run_keep rs rs' -> runs_change u rs u rs'.
Proof. intros. by apply runs_changed, keep_step. Qed.

Lemma lives_stamped u now a id : runs_ok u (Runs a) -> lives id (Runs a) -> lives id (Runs (stamped now a)).
Proof.
  intros Hok Hl. rewrite trim_runs. eapply drop_lives; [done| |done].
  destruct Hl as (r & (i & Hi%lookup_lt_Some)%list_elem_of_lookup_1 & _). unfold MaxAgentRuns. lia.
Qed.

Lemma stamped_id now a : ID (stamped now a) = ID a.
Proof. unfold stamped, trimAgentRuns. by destruct (_ <? _)%nat. Qed.

Lemma stamped_runs_ok u now a : runs_ok u (Runs a) -> runs_ok u (Runs (stamped now a)) /\ (length (Runs (stamped now a)) <= MaxAgentRuns)%nat.
Proof. intros Hok. rewrite trim_runs. split; [by apply runs_ok_drop|]. rewrite length_drop. lia. Qed.

(** Memory after a commit. *)
Lemma commit_memory x a st now u' : inv x -> runs_change (used x) (old_runs (ctl x) (ID a)) u' (Runs a) ->
  commit_ok (ctl x) a st ->
  (runs_ok u' (Runs a)) /\
  backed (<[ID a := stamped now a]> (agents (ctl x))) (st ∪ approvals (ctl x)) /\
  decided_by (humans x) (st ∪ approvals (ctl x)).
Proof.
  intros Hi Hc [He Hb].
  assert (runs_ok u' (Runs a)) as Hok.
  { eapply runs_change_ok; [exact Hc|]. unfold old_runs. destruct (agents (ctl x) !! ID a) as [old|] eqn:Eo.
    - by apply (inv_runs x Hi (ID a)).
    - apply runs_ok_nil. }
  split; [done|]. split.
  - intros id ap Hap Hp Hk. destruct (decide (ApAgent ap = ID a)) as [Ea|Ea].
    + rewrite Ea, lookup_insert_eq. eexists. split; [done|]. eapply lives_stamped; [done|]. by eapply Hb.
    + rewrite lookup_insert_ne by done. destruct (inv_backed x Hi) as [Hbm _].
      apply lookup_union_Some_raw in Hap as [Hap|[_ Hap]]; [|by eapply Hbm].
      destruct (He id ap Hap) as [_ Hed]. destruct (approvals (ctl x) !! id) as [old|] eqn:Eo; [|by destruct Hed].
      pose proof Hed as [(_ & E1 & E2 & E3 & _) _]. rewrite E1, E2. apply (Hbm id old Eo); [by eapply edit_pending|congruence].
  - destruct (inv_decided x Hi) as [Hd _]. intros id ap Hap Hst.
    apply lookup_union_Some_raw in Hap as [Hap|[_ Hap]]; [|by eapply Hd].
    destruct (He id ap Hap) as [_ Hed]. destruct (approvals (ctl x) !! id) as [old|] eqn:Eo; [|destruct Hed; congruence].
    destruct (edit_decided _ _ Hed Hst) as [Hold ->]. by apply (Hd id old Eo).
Qed.

Lemma commit_inv c a st now u u' h : inv (mkSys c u h) -> runs_change u (old_runs c (ID a)) u' (Runs a) -> commit_ok c a st ->
  inv (mkSys (publishLocked st (put_agent (stamped now a) (committed c (stamped now a) st))) u' h).
Proof.
  intros Hi Hc Hok. destruct (commit_memory _ a st now u' Hi Hc Hok) as (Hru & Hb & Hd).
  pose proof (union_core st _ _ (dirty_rows_core _ Hi)) as Hcore. cbn [ctl] in Hcore.
  pose proof (inv_rowkeys _ Hi) as [Hrk1 Hrk2]. cbn [ctl] in *.
  assert (keyed ApID st) as Hkst by (intros k ap Hk; by apply (co_edits _ _ _ Hok)).
  assert (same_runs (<[ID a := stamped now a]> (agents c)) (<[ID a := stamped now a]> (agent_rows c))) as Hsame.
  { intros k. destruct (decide (ID a = k)) as [<-|]; [by rewrite !lookup_insert_eq|].
    rewrite !lookup_insert_ne by done. apply (inv_same _ Hi). }
  pose proof (stamped_id now a) as Eid.
  split; cbn [ctl used humans agents approvals dirtyApprovals agent_rows approval_rows publishLocked set_approvals
    set_dirtyApprovals put_agent set_agents committed set_approval_rows set_agent_rows]; rewrite ?Eid.
  - rewrite <- Eid. apply keyed_insert, (inv_agents _ Hi).
  - apply keyed_union; [done|apply (inv_approvals _ Hi)].
  - intros k b Hkb. destruct (decide (ID a = k)) as [<-|].
    + rewrite lookup_insert_eq in Hkb. injection Hkb as <-. by apply stamped_runs_ok.
    + rewrite lookup_insert_ne in Hkb by done. destruct (inv_runs _ Hi k b Hkb) as [? ?]. split; [|done].
      eapply runs_ok_mono; [|done]. by eapply runs_change_mono.
  - exact Hsame.
  - split; [rewrite <- Eid; by apply keyed_insert|]. apply keyed_union; [done|]. apply keyed_union; [by apply (dirty_rows_keyed _ Hi)|done].
  - intros id. set_solver.
  - intros id _. apply Hcore.
  - split; [done|]. by rewrite <- Hsame, <- Hcore.
  - split; [done|]. by rewrite <- Hcore.
Qed.

(** Edits in memory of approvals that stay dirty. *)
Lemma dirty_inv c st u h h' : inv (mkSys c u h) -> keyed ApID st -> backed (agents c) (st ∪ approvals c) ->
  decided_by h' (st ∪ approvals c) -> (forall p, p ∈ h -> p ∈ h') -> inv (mkSys (publishDirtyLocked st c) u h').
Proof.
  intros [Hk1 Hk2 Hr Hs Hrk Hdi Hcl [Hb1 Hb2] [Hd1 Hd2]] Hst Hb Hd Hh. cbn [ctl used humans] in *.
  split; cbn [ctl used humans agents approvals dirtyApprovals agent_rows approval_rows publishDirtyLocked set_approvals set_dirtyApprovals];
    [done|by apply keyed_union|done|done|done| | | |].
  - intros id [Hid|Hid]%elem_of_union.
    + destruct (Hdi id Hid) as [ap Hap]. apply lookup_union_is_Some. right. by exists ap.
    + apply elem_of_dom in Hid as [ap Hap]. apply lookup_union_is_Some. left. by exists ap.
  - intros id [Hid Hn]%not_elem_of_union. apply not_elem_of_dom in Hn. rewrite lookup_union_r by done. by apply Hcl.
  - by split.
  - split; [done|]. intros id ap Hap Hp. destruct (Hd2 id ap Hap Hp) as (d & ? & ?). eauto.
Qed.

Lemma edit_memory c st u h : inv (mkSys c u h) ->
  (forall id ap, st !! id = Some ap -> exists old, approvals c !! id = Some old /\ edit_ok old ap) ->
  keyed ApID st /\ backed (agents c) (st ∪ approvals c) /\ decided_by h (st ∪ approvals c).
Proof.
  intros [_ Hk _ _ _ _ _ [Hb _] [Hd _]] He. cbn [ctl humans] in *. split_and!.
  - intros k ap Hap. destruct (He k ap Hap) as (old & Ho & [(E & _) _]). rewrite E. by apply Hk.
  - intros id ap Hap Hp Hkind. apply lookup_union_Some_raw in Hap as [Hap|[_ Hap]]; [|by eapply Hb].
    destruct (He id ap Hap) as (old & Ho & Hed). pose proof Hed as [(_ & E1 & E2 & E3 & _) _]. rewrite E1, E2.
    apply (Hb id old Ho); [by eapply edit_pending|congruence].
  - intros id ap Hap Hst. apply lookup_union_Some_raw in Hap as [Hap|[_ Hap]]; [|by eapply Hd].
    destruct (He id ap Hap) as (old & Ho & Hed). destruct (edit_decided _ _ Hed Hst) as [? ->]. by apply (Hd id old).
Qed.

Lemma touch_inv c a old u h : inv (mkSys c u h) -> agents c !! ID a = Some old -> skel a = skel old ->
  inv (mkSys (put_agent a c) u h).
Proof.
  intros [Hk1 Hk2 Hr Hs Hrk Hdi Hcl [Hb1 Hb2] Hd] Ha Es. cbn [ctl used humans] in *.
  assert (same_runs (agents c) (<[ID a := a]> (agents c))) as Hsame.
  { intros k. destruct (decide (ID a = k)) as [<-|]; [|by rewrite lookup_insert_ne].
    rewrite lookup_insert_eq, Ha. cbn. by rewrite Es. }
  assert (Forall2 run_step (Runs old) (Runs a)) as Hstep.
  { by apply keep_step, skel_keep. }
  split; cbn [ctl used humans agents approvals dirtyApprovals agent_rows approval_rows put_agent set_agents];
    [by apply keyed_insert|done| | |done|done|done| |done].
  - intros k b Hb. destruct (decide (ID a = k)) as [<-|].
    + rewrite lookup_insert_eq in Hb. injection Hb as <-. destruct (Hr (ID a) old Ha) as [? Hl].
      split; [by eapply runs_ok_step|]. by rewrite <- (Forall2_length _ _ _ Hstep).
    + rewrite lookup_insert_ne in Hb by done. by apply (Hr k).
  - by rewrite <- Hsame.
  - split; [|done]. by rewrite <- Hsame.
Qed.

Lemma row_inv c a old u h : inv (mkSys c u h) -> agents c !! ID a = Some old -> Forall2 run_keep (Runs old) (Runs a) ->
  inv (mkSys (put_agent a (set_agent_rows (<[ID a := a]> (agent_rows c)) c)) u h).
Proof.
  intros [Hk1 Hk2 Hr Hs [Hrk1 Hrk2] Hdi Hcl [Hb1 Hb2] Hd] Ha Hkeep. cbn [ctl used humans] in *.
  assert (forall ags aps, ags !! ID a = Some old \/ (exists b, ags !! ID a = Some b /\ skel b = skel old) -> backed ags aps ->
    backed (<[ID a := a]> ags) aps) as Hback.
  { intros ags aps Hold Hb id ap Hap Hp Hk. destruct (Hb id ap Hap Hp Hk) as (b & Hb' & Hl).
    destruct (decide (ID a = ApAgent ap)) as [E|]; [|rewrite lookup_insert_ne by done; eauto].
    rewrite <- E in Hb' |- *. rewrite lookup_insert_eq. exists a. split; [done|]. eapply keep_lives; [exact Hkeep|].
    destruct Hold as [Hold|(b' & Hold & Esk)]; [by rewrite Hold in Hb'; injection Hb' as <-|].
    rewrite Hold in Hb'. injection Hb' as ->. by eapply skel_lives. }
  split; cbn [ctl used humans agents approvals dirtyApprovals agent_rows approval_rows put_agent set_agents set_agent_rows];
    [by apply keyed_insert|done| | | |done|done| |done].
  - intros k b Hb. destruct (decide (ID a = k)) as [<-|].
    + rewrite lookup_insert_eq in Hb. injection Hb as <-. destruct (Hr (ID a) old Ha) as [? Hl].
      split; [eapply runs_ok_step; [by apply keep_step|done]|]. by rewrite <- (Forall2_length _ _ _ Hkeep).
    + rewrite lookup_insert_ne in Hb by done. by apply (Hr k).
  - intros k. destruct (decide (ID a = k)) as [<-|]; [by rewrite !lookup_insert_eq|]. rewrite !lookup_insert_ne by done. apply Hs.
  - split; [by apply keyed_insert|done].
  - split; apply Hback; [by left|done|right|done].
    destruct (same_runs_lookup _ _ (ID a) old (symmetry Hs) Ha) as (b & ? & ?). by exists b.
Qed.

Lemma flush_inv c u h : inv (mkSys c u h) -> inv (mkSys (flushed c) u h).
Proof.
  intros Hi. pose proof (dirty_rows_core _ Hi) as Hcore. pose proof (dirty_rows_keyed _ Hi) as Hdk.
  destruct Hi as [Hk1 Hk2 Hr Hs [Hrk1 Hrk2] Hdi Hcl [Hb1 Hb2] [Hd1 Hd2]]. cbn [ctl used humans] in *.
  split; cbn [ctl used humans agents approvals dirtyApprovals agent_rows approval_rows flushed set_dirtyApprovals set_approval_rows];
    [done|done|done|done|split; [done|by apply keyed_union]|intros id; set_solver|intros id _; apply Hcore| |].
  - split; [done|]. by rewrite <- Hs, <- Hcore.
  - split; [done|]. by rewrite <- Hcore.
Qed.

Lemma load_inv c u h : inv (mkSys c u h) -> inv (mkSys (loadAgents c) u h).
Proof.
  intros [Hk1 Hk2 Hr Hs [Hrk1 Hrk2] Hdi Hcl [Hb1 Hb2] [Hd1 Hd2]]. cbn [ctl used humans] in *.
  split; cbn [ctl used humans agents approvals dirtyApprovals agent_rows approval_rows loadAgents];
    [done|done| |done|done|intros id; set_solver|done|done|done].
  intros k b Hb. destruct (same_runs_lookup _ _ k b Hs Hb) as (a & Ha & Es). destruct (Hr k a Ha) as [Hok Hl].
  assert (Forall2 run_step (Runs a) (Runs b)) as Hstep.
  { by apply keep_step, skel_keep. }
  split; [by eapply runs_ok_step|]. by rewrite <- (Forall2_length _ _ _ Hstep).
Qed.

Lemma quiet_inv c c' u u' h : inv (mkSys c u h) -> same_store c c' -> u ⊆ u' -> inv (mkSys c' u' h).
Proof.
  intros [Hk1 Hk2 Hr Hs Hrk Hdi Hcl Hb Hd] (E1 & E2 & E3 & E4 & E5) Hu. cbn [ctl used humans] in *.
  split; cbn [ctl used humans]; rewrite ?E1, ?E2, ?E3, ?E4, ?E5; try done.
  intros k a Ha. destruct (Hr k a Ha). split; [by eapply runs_ok_mono|done].
Qed.

Lemma stamp_inv c m u h : inv (mkSys c u h) -> same_core (approvals c) m -> inv (mkSys (set_approvals m c) u h).
Proof.
  intros [Hk1 Hk2 Hr Hs Hrk Hdi Hcl [Hb1 Hb2] [Hd1 Hd2]] Hm. cbn [ctl used humans] in *.
  split; cbn [ctl used humans agents approvals dirtyApprovals agent_rows approval_rows set_approvals];
    [done| |done|done|done| | | |].
  - intros k ap Hap. destruct (same_core_lookup _ _ k ap Hm Hap) as (ap' & Hap' & E). apply core_fields in E as (_ & _ & _ & _ & _ & E).
    rewrite <- E. by apply Hk2.
  - intros id Hid. destruct (Hdi id Hid) as [ap Hap]. destruct (same_core_lookup _ _ id ap (symmetry Hm) Hap) as (ap' & ? & _). by exists ap'.
  - intros id Hid. rewrite <- (Hm id). by apply Hcl.
  - split; [|done]. by rewrite <- Hm.
  - split; [|done]. by rewrite <- Hm.
Qed.

Lemma prim_inv x y : inv x -> prim x y -> inv y.
Proof.
  intros Hi Hp. destruct Hp as [c c' u u' h Hq Hu|c a old u h Ha Es|c m u h Hm|c st u h He|c id old ap d u h Ho Hp Hsi Hst Hd
    |c ap u h Hn Hk Hp|c u h|c a old u h Ha Hkeep|c a st now u u' h Hc Hok|c u h].
  - by eapply quiet_inv.
  - by eapply touch_inv.
  - by apply stamp_inv.
  - destruct (edit_memory c st u h Hi He) as (? & ? & ?). by eapply dirty_inv.
  - pose proof Hsi as (E0 & E1 & E2 & E3 & _). pose proof (inv_approvals _ Hi id old Ho) as Eid.
    assert ({[id := ap]} = ({[ApID ap := ap]} : stage)) as Est by congruence. rewrite Est.
    destruct (inv_backed _ Hi) as [Hb _], (inv_decided _ Hi) as [Hdec _]. cbn [ctl humans] in *.
    apply flush_inv, (dirty_inv c _ u h); [done|apply keyed_singleton| | |by intros p ?; apply list_elem_of_further];
      intros k x Hx; apply lookup_union_Some_raw in Hx as [Hx|[_ Hx]].
    + apply lookup_singleton_Some in Hx as [_ <-]. congruence.
    + by eapply Hb.
    + apply lookup_singleton_Some in Hx as [<- <-]. intros _. exists d. split; [done|]. rewrite E0, Eid. apply list_elem_of_here.
    + intros Hs. destruct (Hdec k x Hx Hs) as (d' & ? & ?). exists d'. split; [done|]. by apply list_elem_of_further.
  - destruct (inv_backed _ Hi) as [Hb _], (inv_decided _ Hi) as [Hdec _]. cbn [ctl humans] in *.
    apply flush_inv, (dirty_inv c _ u h); [done|apply keyed_singleton| | |done];
      intros k x Hx; apply lookup_union_Some_raw in Hx as [Hx|[_ Hx]]; (by eapply Hb) || (by eapply Hdec) || idtac;
      apply lookup_singleton_Some in Hx as [_ <-]; congruence.
  - by apply flush_inv.
  - by eapply row_inv.
  - by eapply commit_inv.
  - by apply load_inv.
Qed.

(** ** What the handlers do to runs and stages *)

Lemma refresh_frame now c a a' ev : refreshAgentStatusLocked now c a = Ok (a', ev) -> Runs a' = Runs a /\ ID a' = ID a.
Proof.
  unfold refreshAgentStatusLocked. cbv zeta. step_if; [by intros [= <- <-]|].
  destruct (transitionAgent _ _); [done|]. intros Eq.
  assert (forall p q : Agent * list AgentEv, @Ok fault _ p = Ok q -> p = q) as Hinj by congruence. apply Hinj in Eq.
  set (b := if (StatusReason _ =s _) && _ then _ else _) in Eq.
  assert (Runs b = Runs a /\ ID b = ID a) as Hb by (unfold b; by destruct (_ && _)).
  destruct (deriveAgentStatus _ _ _); try (injection Eq as <- _; exact Hb); destruct (Status a); injection Eq as <- _; exact Hb.
Qed.

Lemma refresh_events now c a a' ev : refreshAgentStatusLocked now c a = Ok (a', ev) -> ev <> [] ->
  deriveAgentStatus a (workspaces c !! WS a) now <> Status a.
Proof. unfold refreshAgentStatusLocked. cbv zeta. step_if; [by intros [= <- <-]|]. intros _ _. by apply bool_decide_eq_false in E. Qed.

Lemma liveRun_None rs : liveRun rs = None -> Forall (fun r => run_done r = true) rs.
Proof.
  induction rs as [|r rs IH]; [constructor|]. cbn. destruct (liveRun rs); [done|]. step_if; [|done]. intros _. constructor; auto.
Qed.

Lemma liveRun_Some rs i : liveRun rs = Some i -> exists r, rs !! i = Some r /\ run_done r = false.
Proof.
  revert i. induction rs as [|r rs IH]; [done|]. intros i. cbn. destruct (liveRun rs) as [j|].
  - intros [= <-]. apply (IH j eq_refl).
  - step_if; [done|]. intros [= <-]. by exists r.
Qed.

Lemma findRun_Some rs id i : findRun rs id = Some i -> exists r, rs !! i = Some r /\ RunID r = id.
Proof.
  revert i. induction rs as [|r rs IH]; [done|]. intros i. cbn [findRun]. step_if.
  - intros [= <-]. bool_hyp. by exists r.
  - destruct (findRun rs id) as [j|]; [|done]. intros [= <-]. apply (IH j eq_refl).
Qed.

Lemma pendingIDs_spec c st agent run id : id ∈ pendingIDs c st agent run <->
  exists ap, (st ∪ approvals c) !! id = Some ap /\ pending_of agent run ap = true.
Proof.
  unfold pendingIDs. rewrite sort_by_perm. change (map fst ?l) with (fst <$> l). rewrite list_elem_of_fmap. split.
  - intros ([k ap] & -> & Hin). apply list_elem_of_filter in Hin as [Hp Hin%elem_of_map_to_list]. by exists ap.
  - intros (ap & Hap & Hp). exists (id, ap). split; [done|]. apply list_elem_of_filter. split; [done|]. by apply elem_of_map_to_list.
Qed.

Lemma lookup_stage_union c st id : lookup_stage c st id = (st ∪ approvals c) !! id.
Proof.
  unfold lookup_stage. destruct (st !! id) as [ap|] eqn:E; [by rewrite (lookup_union_Some_l _ _ _ _ E)|].
  by rewrite lookup_union_r.
Qed.

Lemma edits_spec c f ids : (forall ap, f (f ap) = f ap) -> forall st id,
  foldl (fun st id => edit c st id f) st ids !! id =
  if bool_decide (id ∈ ids) then f <$> lookup_stage c st id else st !! id.
Proof.
  intros Hf. induction ids as [|k ids IH]; intros st id; [done|]. cbn [foldl]. rewrite IH.
  assert (lookup_stage c (edit c st k f) id = if decide (id = k) then f <$> lookup_stage c st k else lookup_stage c st id) as Hl.
  { unfold edit. destruct (lookup_stage c st k) as [ap|] eqn:Ek.
    - destruct (decide (id = k)) as [->|]; unfold lookup_stage; [by rewrite lookup_insert_eq|by rewrite lookup_insert_ne].
    - destruct (decide (id = k)) as [->|]; [by rewrite Ek|done]. }
  assert (edit c st k f !! id = if decide (id = k) then f <$> lookup_stage c st k else st !! id) as He.
  { unfold edit. destruct (lookup_stage c st k) as [ap|] eqn:Ek.
    - destruct (decide (id = k)) as [->|]; [by rewrite lookup_insert_eq|by rewrite lookup_insert_ne].
    - destruct (decide (id = k)) as [->|]; [|done]. unfold lookup_stage in Ek. by destruct (st !! k). }
  rewrite Hl, He. destruct (decide (id = k)) as [->|Hne].
  - rewrite (bool_decide_true (k ∈ k :: ids)) by apply list_elem_of_here. destruct (bool_decide (k ∈ ids)); [|done].
    destruct (lookup_stage c st k); cbn; [by rewrite Hf|done].
  - assert (bool_decide (id ∈ k :: ids) = bool_decide (id ∈ ids)) as ->; [|done].
    apply bool_decide_ext. rewrite elem_of_cons. naive_solver.
Qed.

(** Every entry of the new stage is an old one or an expired approval, and no
    approval it was asked to expire stays pending. *)
Lemma expire_spec now c st a run st' a' ev : expire now c st a run = (st', a', ev) ->
  Runs a' = Runs a /\ ID a' = ID a /\
  (forall id ap, st' !! id = Some ap -> st !! id = Some ap \/
     exists old, (st ∪ approvals c) !! id = Some old /\ pending_of (ID a) run old = true /\ ap = expire_one now old) /\
  (forall id ap, (st' ∪ approvals c) !! id = Some ap -> ApStatus ap = ApprovalPending ->
     (st ∪ approvals c) !! id = Some ap /\ pending_of (ID a) run ap = false).
Proof.
  unfold expire. cbv zeta. intros [= <- <- <-].
  pose proof (edits_spec c (expire_one now) (pendingIDs c st (ID a) run) (fun _ => eq_refl) st) as Hs.
  set (st' := foldl _ st _) in *. split_and!; [done|done| |].
  - intros id ap Hap. rewrite Hs in Hap. case_bool_decide as Hin; [right|by left].
    apply pendingIDs_spec in Hin as (old & Hold & Hp). rewrite lookup_stage_union, Hold in Hap. injection Hap as <-. eauto.
  - intros id ap Hap Hp. rewrite <- lookup_stage_union in Hap. unfold lookup_stage in Hap. rewrite Hs in Hap.
    case_bool_decide as Hin.
    + apply pendingIDs_spec in Hin as (old & Hold & _). rewrite lookup_stage_union, Hold in Hap. cbn in Hap.
      injection Hap as <-. done.
    + assert ((st ∪ approvals c) !! id = Some ap) as Hap' by (by rewrite <- lookup_stage_union).
      split; [done|]. destruct (pending_of (ID a) run ap) eqn:Ep; [|done]. exfalso. apply Hin, pendingIDs_spec. eauto.
Qed.

Lemma pending_of_fields agent run ap : pending_of agent run ap = true -> ApAgent ap = agent /\ ApStatus ap = ApprovalPending.
Proof.
  unfold pending_of. intros [[Ha%str_eqb_eq Hs%bool_decide_eq_true]%andb_true_iff _]%andb_true_iff. done.
Qed.

Lemma expire_one_ok now ap : ApStatus ap = ApprovalPending -> edit_ok ap (expire_one now ap).
Proof. intros Hp. split; [by split_and!|]. by left. Qed.

Lemma commit_ok_keep c a u h : inv (mkSys c u h) -> Forall2 run_keep (old_runs c (ID a)) (Runs a) -> commit_ok c a ∅.
Proof.
  intros Hi Hk. split; [intros id ap Hap; by rewrite lookup_empty in Hap|].
  intros id ap Hap Hp Hkind Ha. rewrite (left_id_L ∅ (∪)) in Hap. destruct (inv_backed _ Hi) as [Hb _].
  destruct (Hb id ap Hap Hp Hkind) as (b & Hb' & Hl). cbn [ctl] in Hb'. rewrite Ha in Hb'.
  unfold old_runs in Hk. rewrite Hb' in Hk. by eapply keep_lives.
Qed.

Lemma commit_ok_mono c a a' st : ID a' = ID a -> (forall id, lives id (Runs a) -> lives id (Runs a')) ->
  commit_ok c a st -> commit_ok c a' st.
Proof.
  intros Eid Hl [He Hb]. split; rewrite Eid; [done|]. intros id ap Hap Hp Hk Ha. by eapply Hl, Hb.
Qed.

Lemma lives_other id i rs f r : lives id rs -> rs !! i = Some r -> RunID r <> id -> lives id (alter f i rs).
Proof.
  intros (r' & (j & Hj)%list_elem_of_lookup_1 & Hid & Hd) Hi Hne. exists r'. split; [|done].
  apply (list_elem_of_lookup_2 _ j). rewrite list_lookup_alter_ne; [done|]. intros ->. congruence.
Qed.

Lemma end_run_step now stop err r : run_step r (end_run now stop err r).
Proof. split_and!; [done|done|done|cbn; lia]. Qed.

(** Ending a run expires what it parked. *)
Lemma finish_ok now c a i run stop err st a' ev u h : inv (mkSys c u h) ->
  Forall2 run_keep (old_runs c (ID a)) (Runs a) -> Runs a !! i = Some run -> run_done run = false ->
  finishRunLocked now c ∅ a i stop err = (st, a', ev) ->
  ID a' = ID a /\ Runs a' = alter (end_run now stop err) i (Runs a) /\ commit_ok c a' st /\ ev <> [].
Proof.
  intros Hi Hk Hrun Hd. unfold finishRunLocked. rewrite Hrun, Hd.
  destruct (expire now c ∅ (change_run i (end_run now stop err) a) (RunID run)) as [[st1 a1] ev1] eqn:Ee.
  intros [= <- <- <-]. apply expire_spec in Ee as (Er & Eid & Hnew & Hpend). cbn [ID change_run set_Runs Runs] in *.
  rewrite (left_id_L ∅ (∪)) in Hnew, Hpend. split_and!; [done|done| |done]. split.
  - intros id ap Hap. destruct (Hnew id ap Hap) as [Hn|(old & Hold & Hp & ->)]; [by rewrite lookup_empty in Hn|].
    split; [exact (inv_approvals _ Hi id old Hold)|]. cbn [ctl] in Hold. rewrite Hold. apply expire_one_ok. by eapply pending_of_fields.
  - intros id ap Hap Hp Hkind Ha. destruct (Hpend id ap Hap Hp) as [Hap' Hnot]. rewrite Eid in Ha. rewrite Er.
    destruct (inv_backed _ Hi) as [Hb _]. destruct (Hb id ap Hap' Hp Hkind) as (b & Hb' & Hl). cbn [ctl] in Hb'. rewrite Ha in Hb'.
    unfold old_runs in Hk. rewrite Hb' in Hk. apply (keep_lives _ _ _ Hk) in Hl. eapply lives_other; [exact Hl|exact Hrun|].
    intros E. unfold pending_of in Hnot. rewrite Ha, str_eqb_refl, E, str_eqb_refl, orb_true_r, bool_decide_true in Hnot by done. done.
Qed.

(** The rest of a handler's changes keeps the runs. *)
Lemma end_agent_frame to reason ev ch : Runs (ch_agent (end_agent to reason ev ch)) = Runs (ch_agent ch) /\
  ID (ch_agent (end_agent to reason ev ch)) = ID (ch_agent ch) /\ ch_stage (end_agent to reason ev ch) = ch_stage ch.
Proof. unfold end_agent. by destruct (transitionAgent _ _). Qed.

Lemma count_failure_frame err ch : Runs (ch_agent (count_failure err ch)) = Runs (ch_agent ch) /\
  ID (ch_agent (count_failure err ch)) = ID (ch_agent ch) /\ ch_stage (count_failure err ch) = ch_stage ch.
Proof.
  unfold count_failure. cbv zeta. step_if; [|done].
  destruct (end_agent_frame AgentFailed err EvAgentFailed (mkChange (set_Failures (Failures (ch_agent ch) + 1) (ch_agent ch))
    (ch_stage ch) (ch_events ch) (ch_undeliver ch) (ch_retry ch))) as (-> & -> & ->). done.
Qed.

(** What a report's change must be. *)
Definition change_ok (c : Control) (old : Agent) (ch : change) : Prop :=
  ID (ch_agent ch) = ID old /\ Forall2 run_step (Runs old) (Runs (ch_agent ch)) /\ commit_ok c (ch_agent ch) (ch_stage ch).

Lemma change_ok_frame c old ch ch' : Runs (ch_agent ch') = Runs (ch_agent ch) -> ID (ch_agent ch') = ID (ch_agent ch) ->
  ch_stage ch' = ch_stage ch -> change_ok c old ch -> change_ok c old ch'.
Proof.
  intros Er Ei Es (H1 & H2 & H3). split_and!; [congruence|by rewrite Er|]. rewrite Es.
  eapply commit_ok_mono; [exact Ei| |exact H3]. by rewrite Er.
Qed.

Lemma change_ok_keep c old ch u h : inv (mkSys c u h) -> agents c !! ID old = Some old -> ID (ch_agent ch) = ID old ->
  ch_stage ch = ∅ -> Forall2 run_keep (Runs old) (Runs (ch_agent ch)) -> change_ok c old ch.
Proof.
  intros Hi Ho Eid Es Hk. split_and!; [done|by apply keep_step|]. rewrite Es. eapply commit_ok_keep; [exact Hi|].
  rewrite Eid. unfold old_runs. by rewrite Ho.
Qed.

(** ... when one live run is changed in place. *)
Lemma change_run_keep old i run f : Runs old !! i = Some run -> run_keep run (f run) ->
  Forall2 run_keep (Runs old) (Runs (change_run i f old)).
Proof. intros Hr Hf. cbn. apply alter_steps; [apply _|]. intros r Hr'. rewrite Hr in Hr'. by injection Hr' as <-. Qed.

Lemma run_finished_ok now c old a i run stop err exit cancelled u h : inv (mkSys c u h) -> agents c !! ID old = Some old ->
  ID a = ID old -> Forall2 run_keep (Runs old) (Runs a) -> Runs a !! i = Some run -> run_done run = false ->
  change_ok c old (run_finished now c a i stop err exit cancelled).
Proof.
  intros Hi Ho Eid Hk Hr Hd. unfold run_finished.
  destruct (finishRunLocked now c ∅ a i stop err) as [[st a1] ev] eqn:Ef. cbv zeta.
  eapply finish_ok in Ef as (Eid1 & Er1 & Hc1 & _); [|exact Hi|unfold old_runs; by rewrite Eid, Ho|exact Hr|exact Hd].
  set (err' := if negb (exit =? 0) && (err =s "") && negb cancelled then ("harness exited " ++ pretty exit)%string else err). set (ch := mkChange (change_run i (set_RunError err') a1) st ev [] false).
  assert (change_ok c old ch) as Hch.
  { unfold ch. cbn [ch_agent ch_stage]. split_and!; [cbn; congruence| |].
    - cbn. rewrite Er1. etrans; [apply keep_step, Hk|]. etrans; (apply alter_steps; [apply _|]; intros r _); [apply end_run_step|done].
    - apply (commit_ok_mono c a1); [done| |exact Hc1]. cbn [Runs change_run set_Runs]. intros id. apply keep_lives.
      apply alter_steps; [apply _|]. intros r _. done. }
  step_if; [|done]. destruct (count_failure_frame err' ch) as (? & ? & ?). by eapply change_ok_frame.
Qed.

Lemma active_keep run f : run_done run = false -> (forall r, RunID (f r) = RunID r /\ Attempt (f r) = Attempt r /\
    LastReport (f r) = LastReport r /\ RunState (f r) = RunState r) ->
  run_keep run (f (set_RunState AgentRunActive run)).
Proof.
  intros Hd Hf. destruct (Hf (set_RunState AgentRunActive run)) as (E1 & E2 & E3 & E4).
  assert (run_done (f (set_RunState AgentRunActive run)) = false) as Hd'
    by (unfold run_done; rewrite E4; by apply bool_decide_false).
  split; [|congruence]. split_and!; [exact E1|exact E2|congruence|]. rewrite E3. cbn. lia.
Qed.

Definition is_transcript (kind : report) : bool := match kind with AgentReportTranscript _ => true | _ => false end.

(** A report is committed with its stage, or only the row is written. *)
Lemma commit_report_cases tx now c a st kind c' : (is_transcript kind = true -> st = ∅) -> commit_report tx now c a st kind = Ok c' ->
  commit_copy tx now c a st = Ok c' \/
  (is_transcript kind = true /\
   c' = put_agent (stamped now a) (set_agent_rows (<[ID (stamped now a) := stamped now a]> (agent_rows c)) c)).
Proof.
  unfold commit_report. destruct kind as [| | | | | | |sizes|]; try (by left). intros Hst. rewrite (Hst eq_refl). unfold mirrorTranscriptLocked.
  do 2 (step_if; [done|]). destruct sizes; [by left|]. cbv zeta. destruct tx; [|done]. intros Eq. right. split; [done|].
  exact (f_equal (fun r => match r with Ok v => v | Err _ => c end) (eq_sym Eq)).
Qed.

(** A parked question is asked by a live run. *)
Lemma park_ok o now c old a run ap st a' ev u h : inv (mkSys c u h) -> agents c !! ID old = Some old -> ID a = ID old ->
  Forall2 run_keep (Runs old) (Runs a) -> run ∈ Runs a -> run_done run = false ->
  park o now c ∅ a (RunID run) ap = Ok (st, a', ev) -> change_ok c old (mkChange a' st ev [] false).
Proof.
  intros Hi Ho Eid Hk Hr Hd Hch. unfold park in Hch. do 4 (step_if; [done|]). rewrite lookup_stage_union, (left_id_L ∅ (∪)) in Hch.
  destruct (approvals c !! ApID ap) as [ex|] eqn:Eap.
  { step_if; [done|]. injection Hch as <- <- <-. by eapply change_ok_keep. }
  step_if; [done|]. injection Hch as <- <- <-. split_and!; [exact Eid|by apply keep_step|]. cbn [ch_agent ch_stage].
  rewrite insert_empty. split.
  - intros id x [<- <-]%lookup_singleton_Some. split; [done|]. by rewrite Eap.
  - intros id x Hx Hp Hkind Ha. apply lookup_union_Some_raw in Hx as [[_ <-]%lookup_singleton_Some|[_ Hx]]; [by exists run|].
    destruct (commit_ok_keep c a u h Hi) as [_ Hb]; [unfold old_runs; by rewrite Eid, Ho|].
    apply (Hb id x); [by rewrite (left_id_L ∅ (∪))|done..].
Qed.

Lemma apply_report_ok o now c node old a i run kind ch u h : inv (mkSys c u h) -> agents c !! ID old = Some old ->
  ID a = ID old -> Forall2 run_keep (Runs old) (Runs a) -> Runs a !! i = Some run -> run_done run = false ->
  apply_report o now c node a i run kind = Ok ch ->
  change_ok c old ch /\ (is_transcript kind = true -> ch_agent ch = a /\ ch_stage ch = ∅).
Proof.
  intros Hi Ho Eid Hk Hr Hd.
  assert (forall ch, ID (ch_agent ch) = ID a -> ch_stage ch = ∅ -> Forall2 run_keep (Runs a) (Runs (ch_agent ch)) ->
    change_ok c old ch) as Hkeep.
  { intros ch' E1 E2 E3. eapply change_ok_keep; [exact Hi|done|congruence|done|by etrans]. }
  assert (forall f, (forall r, RunID (f r) = RunID r /\ Attempt (f r) = Attempt r /\ LastReport (f r) = LastReport r /\
      RunState (f r) = RunState r) -> Forall2 run_keep (Runs a) (Runs (change_run i (fun r => f (set_RunState AgentRunActive r)) a))) as Hact.
  { intros f Hf. eapply change_run_keep; [exact Hr|]. by apply active_keep. }
  destruct kind as [t|loaded session caps|m|m| |[ap|]|stop err exit cancelled|sizes|]; cbn [apply_report is_transcript];
    (intros Hch; split; [|try done]).
  - injection Hch as <-. apply Hkeep; [by destruct (t <>s "")|done|]. cbn [ch_agent].
    assert (Forall2 run_keep (Runs a) (Runs (change_run i (fun r => set_StartedAt now (if t <>s "" then
      set_Transcript t (set_RunState AgentRunActive r) else set_RunState AgentRunActive r)) a))) as Hx
      by (apply (Hact (fun r => set_StartedAt now (if t <>s "" then set_Transcript t r else r))); intros r; by destruct (t <>s "")).
    by destruct (t <>s "").
  - injection Hch as <-. apply Hkeep; [by destruct (session <>s ""), caps|done|]. cbn [ch_agent].
    assert (Forall2 run_keep (Runs a) (Runs (change_run i (fun r => set_Loaded loaded (set_RunState AgentRunActive r)) a))) as Hx
      by by apply Hact.
    by destruct (session <>s ""), caps.
  - injection Hch as <-. apply Hkeep; [done|done|]. cbn [ch_agent]. apply (Hact (set_TurnMessage m)). by intros r.
  - injection Hch as <-. unfold turn_finished. cbv zeta. set (ch' := mkChange _ ∅ _ _ _).
    assert (change_ok c old ch') as Hc'.
    { apply Hkeep; [done|done|]. cbn. apply alter_steps; [apply _|]. intros r _. split; [|done]. by split_and!. }
    destruct ((0 <? _) && _); [|exact Hc'].
    match goal with |- change_ok _ _ (end_agent _ ?reason _ _) => destruct (end_agent_frame AgentFinished reason EvAgentFinished ch') as (? & ? & ?) end.
    by eapply change_ok_frame.
  - injection Hch as <-. by apply Hkeep.
  - destruct (park o now c ∅ a (RunID run) ap) as [[[st a'] ev]|] eqn:Ep; [|done]. injection Hch as <-.
    eapply park_ok; [exact Hi|done|exact Eid|exact Hk|by eapply list_elem_of_lookup_2|exact Hd|exact Ep].
  - done.
  - injection Hch as <-. by eapply run_finished_ok.
  - injection Hch as <-. by apply Hkeep.
  - intros _. by injection Hch as <-.
  - done.
Qed.

(** ** Every handler is a sequence of steps *)

Lemma publish_empty c : publishLocked ∅ c = c.
Proof.
  destruct c. unfold publishLocked, set_approvals, set_dirtyApprovals. cbn. f_equal; [by rewrite (left_id_L ∅ (∪))|].
  rewrite dom_empty_L. set_solver.
Qed.

Lemma quiet_refl c c' u h : same_store c c' -> rtc prim (mkSys c u h) (mkSys c' u h).
Proof. intros. apply rtc_once. by apply p_quiet. Qed.

Lemma old_runs_live c a old : agents c !! ID a = Some old -> old_runs c (ID a) = Runs old.
Proof. unfold old_runs. by intros ->. Qed.

(** A private copy, committed and published. *)
Lemma copy_commit tx now c a st c' old u u' h : commit_copy tx now c a st = Ok c' -> agents c !! ID a = Some old ->
  runs_change u (Runs old) u' (Runs a) -> commit_ok c a st -> rtc prim (mkSys c u h) (mkSys c' u' h).
Proof.
  unfold commit_copy, commitAgentRows. intros Hc Ho Hr Hok. destruct tx; [|done]. injection Hc as <-.
  apply rtc_once, (p_commit c a st now); [|done]. by rewrite (old_runs_live c a old Ho).
Qed.

(** The live record, changed in place and then written. *)
Lemma live_commit tx now c a old u h : inv (mkSys c u h) -> agents c !! ID a = Some old -> skel a = skel old ->
  rtc prim (mkSys c u h)
    (mkSys (match commitAgentRows tx c (stamped now a) ∅ with
            | Err _ => put_agent (stamped now a) c
            | Ok c1 => put_agent (stamped now a) c1 end) u h).
Proof.
  intros Hi Ho Hs. pose proof (skel_keep old a (eq_sym Hs)) as Hk. unfold commitAgentRows. destruct tx; apply rtc_once.
  - rewrite <- (publish_empty (put_agent _ _)). apply (p_commit c a ∅ now).
    + rewrite (old_runs_live c a old Ho). by apply runs_change_keep.
    + eapply commit_ok_keep; [exact Hi|]. by rewrite (old_runs_live c a old Ho).
  - apply (p_touch _ _ old); [by rewrite stamped_id|]. unfold skel in *. rewrite trim_runs.
    destruct (inv_runs _ Hi (ID a) old Ho) as [_ Hl]. rewrite (Forall2_length _ _ _ Hk) in Hl.
    by replace (length (Runs a) - MaxAgentRuns)%nat with 0%nat by lia.
Qed.

Lemma live_touch c a old u h : agents c !! ID a = Some old -> skel a = skel old ->
  rtc prim (mkSys c u h) (mkSys (put_agent a c) u h).
Proof. intros. apply rtc_once. by eapply p_touch. Qed.

Lemma settle_quiet now ch c : same_store c (settle_marks now ch c).
Proof. unfold settle_marks. cbv zeta. by step_if. Qed.

Lemma report_prims o now tx node rep c u h : inv (mkSys c u h) ->
  rtc prim (mkSys c u h) (mkSys (agentReport o now tx node rep c).2 u h).
Proof.
  intros Hi. unfold agentReport. step_if; [apply rtc_refl|].
  destruct (agents c !! RepAgent rep) as [live|] eqn:Ea; [|apply rtc_refl].
  destruct (findRun (Runs live) (RepRun rep)) as [i|] eqn:Ef; [|apply rtc_refl].
  destruct (Runs live !! i) as [run|] eqn:Er; [|apply rtc_refl].
  step_if; [apply rtc_refl|]. step_if; [apply rtc_refl|]. step_if; [apply rtc_refl|]. step_if; [apply rtc_refl|]. cbv zeta.
  pose proof (inv_agents _ Hi _ _ Ea) as Eid. cbn in Eid. subst. rewrite <- Eid in Ea.
  set (a := change_run i (set_LastReport (RepSeq rep)) live).
  assert (Forall2 run_keep (Runs live) (Runs a)) as Hk.
  { eapply change_run_keep; [exact Er|]. split; [|done]. split_and!; [done|done|done|]. bool_hyp. cbn. lia. }
  assert (Runs a !! i = Some (set_LastReport (RepSeq rep) run)) as Er' by (cbn; by rewrite list_lookup_alter_eq, Er).
  destruct (apply_report o now c node a i _ (RepKind rep)) as [ch|] eqn:Ech; [|apply rtc_refl].
  destruct (refreshAgentStatusLocked now c (ch_agent ch)) as [[b more]|] eqn:Eb; [|apply rtc_refl].
  apply refresh_frame in Eb as [Erb Eib].
  eapply (apply_report_ok o now c node live a) in Ech as [(Ec1 & Ec2 & Ec3) Htr]; [|exact Hi|done|done|exact Hk|exact Er'|].
  2: { by bool_hyp. }
  assert (agents c !! ID b = Some live) as Hlive by congruence.
  destruct (commit_report tx now c b (ch_stage ch) (RepKind rep)) as [c'|] eqn:Ec; [|apply rtc_refl].
  etrans; [|apply quiet_refl, settle_quiet]. apply commit_report_cases in Ec as [Ec|[Ht ->]]; [| |by intros Ht; apply Htr].
  - eapply copy_commit; [exact Ec|exact Hlive|apply runs_changed; by rewrite Erb|].
    eapply commit_ok_mono; [exact Eib| |exact Ec3]. by rewrite Erb.
  - destruct (Htr Ht) as [Hca _]. apply rtc_once, (p_row c (stamped now b) live); [by rewrite stamped_id|].
    destruct (inv_runs _ Hi _ _ Ea) as [_ Hlen]. assert (length (Runs b) <= MaxAgentRuns)%nat as Hlb
      by (rewrite Erb, Hca, <- (Forall2_length _ _ _ Hk); exact Hlen).
    rewrite trim_runs. replace (length (Runs b) - MaxAgentRuns)%nat with 0%nat by lia. rewrite drop_0. by rewrite Erb, Hca.
Qed.

Lemma inv_rtc x y : inv x -> rtc prim x y -> inv y.
Proof. intros Hi Hr. induction Hr as [|x y z Hp _ IH]; [done|]. apply IH. by eapply prim_inv. Qed.

Lemma skel_runs a b : Runs a = Runs b -> skel a = skel b.
Proof. unfold skel. by intros ->. Qed.

(** A refresh of the live record, then its write. *)
Lemma refresh_commit now tx c a old u h : inv (mkSys c u h) ->
  agents c !! ID a = Some old -> skel a = skel old ->
  rtc prim (mkSys c u h)
    (mkSys (match refreshAgentStatusLocked now c a with
            | Err _ => put_agent a c
            | Ok (a, _) => match commitAgentRows tx c (stamped now a) ∅ with
                           | Err _ => put_agent (stamped now a) c
                           | Ok c => put_agent (stamped now a) c
                           end
            end) u h).
Proof.
  intros Hi Ho Hs. destruct (refreshAgentStatusLocked now c a) as [[b ev]|] eqn:Eb; [|by eapply live_touch].
  apply refresh_frame in Eb as [Er Eid]. eapply (live_commit tx now c b old); [done|congruence|]. by rewrite (skel_runs b a).
Qed.

Lemma message_prims now tx msgID id kind text by_ c u h : inv (mkSys c u h) ->
  rtc prim (mkSys c u h) (mkSys (agentMessage now tx msgID id kind text by_ c).2 u h).
Proof.
  intros Hi. unfold agentMessage. destruct (agents c !! id) as [live|] eqn:Ea; [|apply rtc_refl].
  step_if; [apply rtc_refl|]. step_if; [apply rtc_refl|]. cbv zeta.
  pose proof (inv_agents _ Hi _ _ Ea) as Eid. cbn in Eid. rewrite <- Eid in Ea.
  set (msg := mkMessage _ _ _ _ _). set (a := set_IdleSince 0 (set_Inbox (Inbox live ++ [msg]) live)).
  set (sleeping := match workspaces c !! WS live with Some ws => _ | None => false end).
  destruct (if sleeping then Ok (a, []) else refreshAgentStatusLocked now c a) as [[b ev]|e] eqn:Eb.
  2: { by apply (live_touch c a live). }
  assert (Runs b = Runs a /\ ID b = ID a) as [Er Ei].
  { destruct sleeping; [by injection Eb as <- _|]. by eapply refresh_frame. }
  pose proof (live_commit tx now c b live u h Hi ltac:(rewrite Ei; exact Ea) (skel_runs b live Er)) as Hc.
  destruct (commitAgentRows tx c (stamped now b) ∅) as [c1|]; [|exact Hc]. etrans; [exact Hc|].
  apply quiet_refl. cbn [snd]. match goal with |- same_store _ (if ?b then _ else _) => by destruct b end.
Qed.

Lemma wake_prims now tx id c u h : inv (mkSys c u h) -> rtc prim (mkSys c u h) (mkSys (agentWake now tx id c).2 u h).
Proof.
  intros Hi. unfold agentWake. destruct (agents c !! id) as [live|] eqn:Ea; [|apply rtc_refl]. step_if; [apply rtc_refl|]. cbv zeta.
  pose proof (inv_agents _ Hi _ _ Ea) as Eid. cbn in Eid. rewrite <- Eid in Ea.
  pose proof (refresh_commit now tx c (set_WakeTimer EmptyString live) live u h Hi Ea eq_refl) as Hc.
  destruct (refreshAgentStatusLocked _ _ _) as [[b ev]|]; [|exact Hc]. by destruct (commitAgentRows _ _ _ _).
Qed.

Lemma wakereq_prims now tx id c u h : inv (mkSys c u h) -> rtc prim (mkSys c u h) (mkSys (agentWakeRequest now tx id c).2 u h).
Proof.
  intros Hi. unfold agentWakeRequest. destruct (agents c !! id) as [live|] eqn:Ea; [|apply rtc_refl]. cbv zeta.
  pose proof (inv_agents _ Hi _ _ Ea) as Eid. cbn in Eid. rewrite <- Eid in Ea.
  pose proof (live_commit tx now c live live u h Hi Ea eq_refl) as Hc. by destruct (commitAgentRows _ _ _ _).
Qed.

Lemma clear_turn_skel a : skel (clear_turn a) = skel a /\ ID (clear_turn a) = ID a.
Proof.
  unfold clear_turn. destruct (liveRun (Runs a)) as [i|]; [|done]. split; [|done]. unfold skel. cbn.
  apply list_eq. intros j. change (map ?f ?l) with (f <$> l). rewrite !list_lookup_fmap.
  destruct (decide (i = j)) as [<-|]; [rewrite list_lookup_alter_eq; by destruct (Runs a !! i)|by rewrite list_lookup_alter_ne].
Qed.

Lemma expire_edits now c a run st a' ev u h : inv (mkSys c u h) -> expire now c ∅ a run = (st, a', ev) ->
  forall id ap, st !! id = Some ap -> exists old, approvals c !! id = Some old /\ edit_ok old ap.
Proof.
  intros Hi Ee id ap Hap. apply expire_spec in Ee as (_ & _ & Hnew & _). rewrite (left_id_L ∅ (∪)) in Hnew.
  destruct (Hnew id ap Hap) as [Hn|(old & Hold & Hp & ->)]; [by rewrite lookup_empty in Hn|].
  exists old. split; [done|]. apply expire_one_ok. by eapply pending_of_fields.
Qed.

Lemma cancel_prims now tx id c u h : inv (mkSys c u h) -> rtc prim (mkSys c u h) (mkSys (agentCancel now tx id c).2 u h).
Proof.
  intros Hi. unfold agentCancel. destruct (agents c !! id) as [live|] eqn:Ea; [|apply rtc_refl]. step_if; [apply rtc_refl|].
  pose proof (inv_agents _ Hi _ _ Ea) as Eid. cbn in Eid. rewrite <- Eid in Ea. unfold dropInbox. cbv zeta.
  set (c1 := forget _ c). set (a := clear_turn _).
  assert (rtc prim (mkSys c u h) (mkSys c1 u h)) as Hp1 by (by apply quiet_refl). pose proof (inv_rtc _ _ Hi Hp1) as Hi1.
  assert (skel a = skel live /\ ID a = ID live) as [Hsk Hid] by (destruct (clear_turn_skel (set_Inbox [] live)); by split).
  destruct (expire now c1 ∅ a (live_run_id a)) as [[st b] ev] eqn:Ee.
  pose proof (expire_edits _ _ _ _ _ _ _ _ _ Hi1 Ee) as Hed. apply expire_spec in Ee as (Er & Ei & _ & _).
  assert (rtc prim (mkSys c1 u h) (mkSys (publishDirtyLocked st c1) u h)) as Hp2 by (by apply rtc_once, p_edit).
  pose proof (inv_rtc _ _ Hi1 Hp2) as Hi2. etrans; [exact Hp1|]. etrans; [exact Hp2|].
  assert (agents (publishDirtyLocked st c1) !! ID b = Some live) as Hlive by (cbn; congruence).
  pose proof (refresh_commit now tx (publishDirtyLocked st c1) b live u h Hi2 Hlive) as Hc.
  specialize (Hc ltac:(rewrite (skel_runs b a Er); exact Hsk)).
  destruct (refreshAgentStatusLocked _ _ _) as [[b' ev']|]; [|exact Hc]. by destruct (commitAgentRows _ _ _ _).
Qed.

(** The live run of a copy, ended. *)
Lemma finish_live_ok now c a old stop st a' ev u h : inv (mkSys c u h) -> agents c !! ID a = Some old -> Runs a = Runs old ->
  finish_live now c a stop = (st, a', ev) ->
  ID a' = ID a /\ Forall2 run_step (Runs old) (Runs a') /\ commit_ok c a' st.
Proof.
  intros Hi Ho Er. assert (Forall2 run_keep (old_runs c (ID a)) (Runs a)) as Hk
    by (rewrite (old_runs_live c a old Ho), Er; reflexivity).
  unfold finish_live. destruct (liveRun (Runs a)) as [i|] eqn:El.
  - destruct (liveRun_Some _ _ El) as (run & Hrun & Hd). intros Ef.
    destruct (finish_ok now c a i run stop EmptyString st a' ev u h Hi Hk Hrun Hd Ef) as (E1 & E2 & E3 & _).
    split_and!; [done| |done]. rewrite E2, <- Er. apply alter_steps; [apply _|]. intros r _. apply end_run_step.
  - intros [= <- <- <-]. split_and!; [done|by rewrite Er|]. by eapply commit_ok_keep.
Qed.

Lemma sleep_prims now tx id timer c u h : inv (mkSys c u h) -> rtc prim (mkSys c u h) (mkSys (sleepAgent now tx id timer c).2 u h).
Proof.
  intros Hi. unfold sleepAgent. destruct (agents c !! id) as [live|] eqn:Ea; [|apply rtc_refl]. cbv zeta.
  pose proof (inv_agents _ Hi _ _ Ea) as Eid. cbn in Eid. rewrite <- Eid in Ea.
  destruct (finish_live now c _ "sleep") as [[st a] ev] eqn:Ef.
  eapply (finish_live_ok now c _ live) in Ef as (Ei & Er & Hok); [|exact Hi|exact Ea|done].
  destruct (refreshAgentStatusLocked now c a) as [[b ev']|] eqn:Eb; [|apply rtc_refl]. apply refresh_frame in Eb as [Erb Eib].
  destruct (commit_copy tx now c b st) as [c'|] eqn:Ec; [|apply rtc_refl].
  eapply copy_commit; [exact Ec|rewrite Eib, Ei; exact Ea|apply runs_changed; by rewrite Erb|].
  eapply commit_ok_mono; [exact Eib| |exact Hok]. by rewrite Erb.
Qed.

(** A second expiry, of whatever is left of the agent. *)
Lemma expire_commit_ok now c a st st' a' ev : commit_ok c a st -> keyed ApID (approvals c) ->
  expire now c st a EmptyString = (st', a', ev) -> commit_ok c a' st'.
Proof.
  intros [He Hb] Hkey Ee. apply expire_spec in Ee as (Er & Ei & Hnew & Hpend). split.
  - intros id ap Hap. rewrite Ei. destruct (Hnew id ap Hap) as [Hn|(old & Hold & Hp & ->)]; [by apply He|].
    apply pending_of_fields in Hp as [Ha Hp]. apply lookup_union_Some_raw in Hold as [Hst|[Hst Hold]].
    + destruct (He id old Hst) as [Hid Hed]. split; [exact Hid|]. destruct (approvals c !! id) as [old'|]; [|done].
      pose proof (edit_pending _ _ Hed Hp) as Hp'. destruct Hed as [Hsi _]. split; [exact Hsi|]. by left.
    + rewrite Hold. split; [exact (Hkey id old Hold)|]. by apply expire_one_ok.
  - intros id ap Hap Hp Hkind Ha. rewrite Ei in Ha. destruct (Hpend id ap Hap Hp) as [Hap' Hn].
    exfalso. unfold pending_of in Hn. rewrite Ha, str_eqb_refl, bool_decide_true in Hn by done. done.
Qed.

Lemma destroy_prims now tx id by_ c u h : inv (mkSys c u h) -> rtc prim (mkSys c u h) (mkSys (agentDestroy now tx id by_ c).2 u h).
Proof.
  intros Hi. unfold agentDestroy. destruct (agents c !! id) as [live|] eqn:Ea; [|apply rtc_refl]. step_if; [apply rtc_refl|].
  pose proof (inv_agents _ Hi _ _ Ea) as Eid. cbn in Eid. rewrite <- Eid in Ea.
  destruct (finish_live now c live "destroy") as [[st a] ev] eqn:Ef.
  eapply (finish_live_ok now c live live) in Ef as (Ei & Er & Hok); [|exact Hi|exact Ea|done].
  destruct (expire now c st a EmptyString) as [[st' a'] ev'] eqn:Ee.
  pose proof (expire_commit_ok _ _ _ _ _ _ _ Hok (inv_approvals _ Hi) Ee) as Hok'.
  apply expire_spec in Ee as (Er' & Ei' & _ & _).
  destruct (transitionAgent (Status a') AgentDestroyed); [apply rtc_refl|]. unfold dropInbox. cbv zeta.
  destruct (commit_copy _ _ _ _ _) as [c'|] eqn:Ec; [|apply rtc_refl].
  transitivity (mkSys c' u h); [eapply copy_commit|by apply quiet_refl]; [exact Ec|cbn; rewrite Ei', Ei; exact Ea|apply runs_changed; cbn; by rewrite Er'|].
  by eapply commit_ok_mono; [| |exact Hok'].
Qed.

Lemma create_prims o now tx a c u h : inv (mkSys c u h) -> agents c !! ID a = None -> Runs a = [] ->
  rtc prim (mkSys c u h) (mkSys (agentCreate o now tx a c).2 u h).
Proof.
  intros Hi Hn Hr. unfold agentCreate. destruct (workspaces c !! WS a) as [ws|]; [|apply rtc_refl].
  do 3 (step_if; [apply rtc_refl|]). cbv zeta. unfold commitAgentRows. destruct tx; [|apply rtc_refl]. apply rtc_once. cbn [snd].
  set (b := set_Status _ a). rewrite <- (publish_empty (put_agent _ _)). apply (p_commit c b ∅ now).
  - apply runs_changed. unfold old_runs. cbn. by rewrite Hn, Hr.
  - eapply commit_ok_keep; [exact Hi|]. unfold old_runs. cbn. by rewrite Hn, Hr.
Qed.

Lemma launch_failed_ok now c live i r error counts u h : inv (mkSys c u h) -> agents c !! ID live = Some live ->
  Runs live !! i = Some r -> run_done r = false -> change_ok c live (launch_failed now c live i error counts).
Proof.
  intros Hi Ea Er Hd. unfold launch_failed. destruct (finishRunLocked now c ∅ live i _ _) as [[st a] ev] eqn:Ex. cbv zeta.
  eapply finish_ok in Ex as (Eid1 & Er1 & Hc1 & _);
    [|exact Hi|rewrite (old_runs_live c live live Ea); reflexivity|exact Er|done].
  set (b := if counts then _ else _). assert (Runs b = Runs a /\ ID b = ID a) as [Erb Eib] by (unfold b; by destruct counts).
  assert (change_ok c live (mkChange b st ev [] false)) as Hb.
  { split_and!; [cbn; congruence| |eapply commit_ok_mono; [exact Eib| |exact Hc1]; cbn; by rewrite Erb].
    cbn. rewrite Erb, Er1. apply alter_steps; [apply _|]. intros x _. apply end_run_step. }
  step_if; [|exact Hb]. destruct (end_agent_frame AgentFailed ("launch: " ++ error)%string EvAgentFailed (mkChange b st ev [] false)) as (? & ? & ?).
  by eapply change_ok_frame.
Qed.

Lemma launch_prims now tx answer agent run node c u h : inv (mkSys c u h) ->
  rtc prim (mkSys c u h) (mkSys (launchRun now tx answer agent run node c) u h).
Proof.
  intros Hi. unfold launchRun. destruct (agents c !! agent) as [live|] eqn:Ea; [|apply rtc_refl].
  pose proof (inv_agents _ Hi _ _ Ea) as Eid. cbn in Eid. rewrite <- Eid in Ea.
  destruct (findRun (Runs live) run) as [i|] eqn:Ef; [|apply rtc_refl].
  destruct (Runs live !! i) as [r|] eqn:Er; [|apply rtc_refl]. step_if; [apply rtc_refl|].
  assert (forall error counts,
    rtc prim (mkSys c u h)
      (mkSys (if bool_decide (RunState r = AgentRunActive) then c
              else let ch := launch_failed now c live i error counts in
                   let a := match refreshAgentStatusLocked now c (ch_agent ch) with Ok (a, _) => a | Err _ => ch_agent ch end in
                   match commit_copy tx now c a (ch_stage ch) with
                   | Err _ => c
                   | Ok c => settle_marks now (with_agent a ch) c
                   end) u h)) as Hfail.
  { intros error counts. step_if; [apply rtc_refl|]. cbv zeta.
    destruct (launch_failed_ok now c live i r error counts u h Hi Ea Er ltac:(done)) as (Ei & Hst & Hok).
    set (ch := launch_failed now c live i error counts) in *.
    set (a := match refreshAgentStatusLocked now c (ch_agent ch) with Ok (a, _) => a | Err _ => ch_agent ch end).
    assert (Runs a = Runs (ch_agent ch) /\ ID a = ID (ch_agent ch)) as [Era Eia].
    { unfold a. destruct (refreshAgentStatusLocked now c (ch_agent ch)) as [[b ev]|] eqn:Eb; [|done]. by eapply refresh_frame. }
    destruct (commit_copy tx now c a (ch_stage ch)) as [c'|] eqn:Ec; [|apply rtc_refl].
    transitivity (mkSys c' u h); [eapply copy_commit|apply quiet_refl, settle_quiet]; [exact Ec|rewrite Eia, Ei; exact Ea|apply runs_changed; by rewrite Era|].
    eapply commit_ok_mono; [exact Eia| |exact Hok]. by rewrite Era. }
  destruct answer as [t|e|e]; [|apply Hfail..]. cbv zeta.
  set (a := if t <>s "" then _ else live). set (b := match refreshAgentStatusLocked now c a with Ok (a, _) => a | Err _ => a end).
  assert (Forall2 run_keep (Runs live) (Runs a) /\ ID a = ID live) as [Hk Ei].
  { unfold a. destruct (t <>s ""); [|done]. split; [|done]. cbn. apply alter_steps; [apply _|]. intros x _. split; [|done]. by split_and!. }
  assert (Runs b = Runs a /\ ID b = ID a) as [Erb Eib].
  { unfold b. destruct (refreshAgentStatusLocked now c a) as [[b' ev]|] eqn:Eb; [|done]. by eapply refresh_frame. }
  destruct (commit_copy tx now c b ∅) as [c'|] eqn:Ec; [|apply rtc_refl].
  assert (Forall2 run_keep (Runs live) (Runs b)) as Hkb by (by rewrite Erb).
  eapply copy_commit; [exact Ec|rewrite Eib, Ei; exact Ea|by apply runs_change_keep|].
  eapply commit_ok_keep; [exact Hi|]. rewrite Eib, Ei, (old_runs_live c live live Ea). done.
Qed.

Lemma notify_prims now tx msgID summary child c u h : inv (mkSys c u h) -> agents c !! ID child = Some child ->
  agentTerminal (Status child) = true ->
  rtc prim (mkSys c u h) (mkSys (notifyParentLocked now tx msgID summary child c) u h).
Proof.
  intros Hi Ha Ht. unfold notifyParentLocked.
  pose proof (live_commit tx now c (set_ParentNotified true child) child u h Hi Ha eq_refl) as Hself.
  destruct (agents c !! Parent child) as [parent|] eqn:Ep; [|by destruct (commitAgentRows _ _ _ _)].
  step_if; [by destruct (commitAgentRows _ _ _ _)|]. step_if; [apply rtc_refl|]. cbv zeta.
  pose proof (inv_agents _ Hi _ _ Ep) as Eid. cbn in Eid. rewrite <- Eid in Ep.
  set (p := set_UpdatedAt now _).
  assert (exists q f, (match refreshAgentStatusLocked now c p with
    | Ok (p, _) => (p, set_UpdatedAt (UpdatedAt parent) (set_Status (Status parent) (set_Inbox (Inbox parent) p)))
    | Err _ => (p, set_UpdatedAt (UpdatedAt parent) (set_Inbox (Inbox parent) p)) end) = (q, f) /\
    Runs q = Runs parent /\ ID q = ID parent /\ Runs f = Runs parent /\ ID f = ID parent) as (q & f & -> & Eq & Iq & Ef & If).
  { destruct (refreshAgentStatusLocked now c p) as [[b ev]|] eqn:Eb; [|eexists _, _; by split_and!].
    apply refresh_frame in Eb as [? ?]. eexists _, _. split_and!; done. }
  destruct tx; [|apply (live_touch c f parent); [by rewrite If|by apply skel_runs]].
  assert (ID parent <> ID child) as Hne. { intros Eq'. rewrite Eq', Ha in Ep. injection Ep as <-. congruence. }
  set (c1 := put_agent q (set_agent_rows (<[ID q := q]> (agent_rows c)) c)).
  eapply (rtc_l _ _ (mkSys c1 u h)); [apply (p_row c q parent); [by rewrite Iq|by rewrite Eq]|]. apply rtc_once.
  apply (p_row c1 (set_ParentNotified true child) child u h); [|reflexivity]. cbn. rewrite lookup_insert_ne by congruence. exact Ha.
Qed.

(** What the first half of a decision leaves. *)
Record decided_ok (c : Control) (old : Agent) (d : decision) : Prop := mkDecidedOk {
  dk_id : ID (d_agent d) = ID old;
  dk_runs : Forall2 run_step (Runs old) (Runs (d_agent d));
  dk_commit : commit_ok c (d_agent d) (d_stage d);
  dk_none : d_run d = None -> Forall (fun r => run_done r = true) (Runs (d_agent d));
  dk_quiet : d_events d = [] -> Runs (d_agent d) = Runs old /\ d_stage d = ∅;
  dk_changed : d_events d <> [] -> d_changed d = true }.

Lemma abandon_ok now online gone c old u h : inv (mkSys c u h) -> agents c !! ID old = Some old ->
  decided_ok c old (abandon now online gone c old).
Proof.
  intros Hi Ho. pose proof (old_runs_live c old old Ho) as Eo. unfold abandon. cbv zeta.
  destruct (inv_runs _ Hi _ _ Ho) as [Hok _]. cbn [used ctl] in *.
  assert (decided_ok c old (mkDecisionState old (liveRun (Runs old) ≫= (Runs old !!.)) ∅ [] [] false false [])) as Hkeep.
  { split; cbn; [done|done|by eapply commit_ok_keep; [|rewrite Eo]| |done|done].
    destruct (liveRun (Runs old)) as [i|] eqn:El; cbn; [|intros _; by apply liveRun_None].
    destruct (liveRun_Some _ _ El) as (r & -> & _). done. }
  destruct (liveRun (Runs old)) as [i|] eqn:El; [|exact Hkeep]. destruct (liveRun_Some _ _ El) as (run & Hrun & Hd).
  rewrite Hrun. destruct (lost_run _ _ _ _ _) as [[why cancelled]|]; [|exact Hkeep].
  destruct (finishRunLocked now c ∅ old i why EmptyString) as [[st a] ev] eqn:Ef.
  eapply finish_ok in Ef as (Eid & Er & Hc & Hev); [|exact Hi|by rewrite Eo|exact Hrun|done].
  set (b := if cancelled then a else _).
  assert (ID b = ID a /\ Forall2 run_keep (Runs a) (Runs b)) as [Eib Hkb].
  { unfold b. destruct cancelled; [done|]. split; [done|]. cbn. apply alter_steps; [apply _|]. intros x _. split; [|done]. by split_and!. }
  split; cbn [d_agent d_run d_stage d_events d_changed]; [congruence| | | |done|done].
  - etrans; [|apply keep_step, Hkb]. rewrite Er. apply alter_steps; [apply _|]. intros x _. apply end_run_step.
  - eapply commit_ok_mono; [exact Eib| |exact Hc]. intros id. by apply keep_lives.
  - intros _. apply Forall_lookup. intros j x Hx. destruct (Forall2_lookup_r _ _ _ _ _ Hkb Hx) as (y & Hy & [_ Ey]).
    rewrite Ey. rewrite Er in Hy. destruct (decide (i = j)) as [<-|Hij].
    + rewrite list_lookup_alter_eq, Hrun in Hy. by injection Hy as <-.
    + rewrite list_lookup_alter_ne in Hy by done. apply (ro_live _ _ Hok j y Hy).
      destruct (decide (S j < length (Runs old))%nat); [done|]. exfalso. pose proof (lookup_lt_Some _ _ _ Hy).
      assert (S i < length (Runs old))%nat as Hlt. { pose proof (lookup_lt_Some _ _ _ Hrun). lia. }
      rewrite (ro_live _ _ Hok i run Hrun Hlt) in Hd. done.
Qed.

(** The second half launches at most one run. *)
Lemma act_ok now online runID c old d u : decided_ok c old d -> runID ∉ u ->
  ID (d_agent (act now online runID c d)) = ID old /\ d_stage (act now online runID c d) = d_stage d /\
  (exists u', u' ⊆ {[runID]} ∪ u /\ runs_change u (Runs old) u' (Runs (d_agent (act now online runID c d)))) /\
  commit_ok c (d_agent (act now online runID c d)) (d_stage d) /\
  (d_events (act now online runID c d) = [] -> Runs (d_agent (act now online runID c d)) = Runs old /\ d_stage d = ∅) /\
  (d_events (act now online runID c d) <> [] -> d_changed (act now online runID c d) = true).
Proof.
  intros [H1 H2 H3 H4 H5 H6] Hfresh.
  assert (forall d', d_agent d' = d_agent d -> d_stage d' = d_stage d -> d_events d' = d_events d -> d_changed d' = d_changed d ->
    ID (d_agent d') = ID old /\ d_stage d' = d_stage d /\
    (exists u', u' ⊆ {[runID]} ∪ u /\ runs_change u (Runs old) u' (Runs (d_agent d'))) /\
    commit_ok c (d_agent d') (d_stage d) /\ (d_events d' = [] -> Runs (d_agent d') = Runs old /\ d_stage d = ∅) /\
    (d_events d' <> [] -> d_changed d' = true)) as Hsame.
  { intros d' E1 E2 E3 E4. rewrite E1, E3, E4. split_and!; [done|done| |done|done|done].
    exists u. split; [set_solver|]. by apply runs_changed. }
  unfold act. cbv zeta. destruct (workspaces c !! WS (d_agent d)) as [ws|]; [|by apply Hsame].
  step_if; [by apply Hsame|]. step_if; [by apply Hsame|]. step_if.
  - apply andb_true_iff in E1 as [E1 _]. apply andb_true_iff in E1 as [E1 _]. apply andb_true_iff in E1 as [E1 _].
    apply andb_true_iff in E1 as [E1 _]. apply andb_true_iff in E1 as [E1 _]. apply negb_true_iff in E1.
    assert (d_run d = None) as Hnone by (by destruct (d_run d)). cbn.
    split_and!; [done|done| |apply (commit_ok_mono c (d_agent d)); [done| |exact H3]| |done].
    + exists ({[runID]} ∪ u). split; [done|]. apply (runs_launched u (Runs old) (Runs (d_agent d)) (new_run now runID _ ws)); auto.
    + cbn. intros id (r & Hr & ? & ?). exists r. split; [|done]. apply elem_of_app. by left.
    + intros Happ. by apply app_eq_nil in Happ as [_ ?].
  - step_if; [by apply Hsame|].
    destruct (d_run d) as [r|], (Inbox (d_agent d)) as [|m t]; repeat step_if; by apply Hsame.
Qed.

Lemma same_store_refl c : same_store c c.
Proof. by split_and!. Qed.

Lemma same_store_trans c1 c2 c3 : same_store c1 c2 -> same_store c2 c3 -> same_store c1 c3.
Proof. intros (? & ? & ? & ? & ?) (? & ? & ? & ? & ?). split_and!; congruence. Qed.

Lemma commit_ok_quiet c c' a st : same_store c c' -> commit_ok c a st -> commit_ok c' a st.
Proof. intros (_ & E & _) [He Hb]. split; by rewrite E. Qed.

Lemma decide_prims now tx online gone runID msgID summary id c u h : inv (mkSys c u h) -> runID ∉ u ->
  rtc prim (mkSys c u h) (mkSys (agentDecide now tx online gone runID msgID summary id c).2 ({[runID]} ∪ u) h).
Proof.
  intros Hi Hfresh.
  assert (forall c', same_store c c' -> rtc prim (mkSys c u h) (mkSys c' ({[runID]} ∪ u) h)) as Hquiet.
  { intros c' Hc'. apply rtc_once, p_quiet; [done|set_solver]. }
  assert (forall c1 c2 u1, same_store c1 c2 -> u1 ⊆ {[runID]} ∪ u ->
    rtc prim (mkSys c u h) (mkSys c1 u1 h) -> rtc prim (mkSys c u h) (mkSys c2 ({[runID]} ∪ u) h)) as Hend.
  { intros c1 c2 u1 Hs Hu Hr. etrans; [exact Hr|]. apply rtc_once. by apply p_quiet. }
  unfold agentDecide. destruct (agents c !! id) as [live|] eqn:Ea; [|by apply Hquiet].
  pose proof (inv_agents _ Hi _ _ Ea) as Eid. cbn in Eid. subst id.
  step_if; [step_if; [|by apply Hquiet]|].
  { apply (Hend _ _ u (same_store_refl _)); [set_solver|]. by apply notify_prims. }
  step_if; [by apply Hquiet|]. cbv zeta.
  pose proof (act_ok now online runID c live _ u (abandon_ok now online gone c live u h Hi Ea) Hfresh) as
    (Eid & Est & (u1 & Hu1 & Hrc) & Hok & Hnil & Hch).
  set (d := act now online runID c _) in *. rewrite <- Est in Hok, Hnil.
  set (c0 := mark_delivered now (d_marked d) c).
  set (changed := d_changed d || negb _).
  assert (same_store c c0) as Hs0 by done.
  destruct (refreshAgentStatusLocked now c0 (d_agent d)) as [[b more]|] eqn:Eb; [|by apply Hquiet].
  pose proof (refresh_events _ _ _ _ _ Eb) as Hmore. apply refresh_frame in Eb as [Erb Eib].
  assert (forall c1, (exists u2, u2 ⊆ {[runID]} ∪ u /\ rtc prim (mkSys c u h) (mkSys c1 u2 h)) ->
    rtc prim (mkSys c u h) (mkSys (let c2 := if changed && d_retry d
        then set_agentRetry (<[ID live := now + agentRetryBackoff]> (agentRetry c1)) c1 else c1 in
      match d_work d with [] => ([], c2) | w :: l => (w :: l, set_agentBusy ({[ID live]} ∪ agentBusy c2) c2) end).2 ({[runID]} ∪ u) h)) as Hfin.
  { intros c1 Hc1. cbv zeta. set (c2 := if changed && d_retry d then _ else c1).
    assert (same_store c1 (match d_work d with [] => ([], c2) | w :: l => (w :: l, set_agentBusy ({[ID live]} ∪ agentBusy c2) c2) end).2) as Hs.
    { unfold c2. destruct (d_work d), (changed && d_retry d); done. }
    destruct Hc1 as (u2 & Hu2 & Hc1). by apply (Hend c1 _ u2). }
  destruct (d_events d ++ more) as [|e evs] eqn:Eev.
  - apply app_eq_nil in Eev as [Ed Em]. destruct (Hnil Ed) as [Er Es]. apply Hfin. rewrite Es, publish_empty.
    exists u. split; [set_solver|]. destruct changed; [|by apply quiet_refl]. etrans; [by apply (quiet_refl c c0)|]. apply (live_touch c0 b live); [by rewrite Eib, Eid|]. apply skel_runs. congruence.
  - assert (changed = true) as ->.
    { unfold changed. destruct (d_events d) as [|x l] eqn:Ed; [|by rewrite Hch].
      cbn in Eev. subst more. apply orb_true_iff. right. apply negb_true_iff, bool_decide_eq_false. by apply Hmore. }
    unfold commitAgentRows. destruct tx; [|by apply Hquiet]. apply Hfin. exists u1. split; [done|].
    etrans; [by apply (quiet_refl c c0)|]. apply rtc_once, (p_commit c0 b (d_stage d) now).
    + rewrite (old_runs_live c0 b live) by (rewrite Eib, Eid; exact Ea). by rewrite Erb.
    + eapply commit_ok_mono; [exact Eib| |eapply commit_ok_quiet; [exact Hs0|exact Hok]]. by rewrite Erb.
Qed.

(** ** Decisions, expiry and egress *)

Lemma mark_publish now ap c : markApprovalDirty now ap c = publishDirtyLocked {[ApID ap := set_ApUpdatedAt now ap]} c.
Proof.
  unfold markApprovalDirty, publishDirtyLocked. rewrite dom_singleton_L, (comm_L (∪) (dirtyApprovals c)).
  by rewrite <- insert_union_singleton_l.
Qed.

Lemma flush_prims tx c u h : rtc prim (mkSys c u h) (mkSys (match persistApprovalsOnly tx c with Err _ => c | Ok c => c end) u h).
Proof. unfold persistApprovalsOnly. destruct tx; [|apply rtc_refl]. apply rtc_once, p_flush. Qed.

Lemma decided_approval_fields o now live d : same_identity live (decided_approval o now live d) /\
  ApStatus (decided_approval o now live d) = ApprovalDecided /\ Decision (decided_approval o now live d) = Some d.
Proof. unfold decided_approval. by case_bool_decide. Qed.

(** A flush before a commit changes nothing. *)
Lemma commit_flushed c a st : commitAgentRows true (flushed c) a st = commitAgentRows true c a st.
Proof.
  unfold commitAgentRows, flushed. f_equal. unfold set_dirtyApprovals, set_approval_rows, set_agent_rows, dirty_rows. cbn. f_equal. f_equal.
  apply map_eq. intros k. rewrite lookup_union_r; [done|]. apply map_lookup_filter_None. right. intros ap _ Hk. cbn in Hk. set_solver.
Qed.

(** The decision a call adds to those that were made. *)
Definition add_human (id : string) (r : result fault Approval) (h : list (string * ApprovalDecision)) :=
  match r with
  | Ok ap => match Decision ap with Some d => (id, d) :: h | None => h end
  | Err _ => h
  end.

Lemma human_prims o now tx normalized subject req c u h : inv (mkSys c u h) ->
  let '(r, c') := approvalDecide o now tx normalized subject req c in
  rtc prim (mkSys c u h) (mkSys c' u (add_human (req_id req) r h)).
Proof.
  intros Hi. unfold approvalDecide. destruct (approvals c !! req_id req) as [live|] eqn:El; [|apply rtc_refl].
  step_if; [apply rtc_refl|]. apply negb_false_iff, bool_decide_eq_true in E.
  destruct (decide_kind now subject live req) as [d|]; [|apply rtc_refl]. cbv zeta. rewrite mark_publish.
  pose proof (inv_approvals _ Hi _ _ El) as Eid. cbn in Eid.
  destruct (decided_approval_fields o now live d) as (Hsi & Hst & Hdec).
  set (dec := set_ApUpdatedAt now (decided_approval o now live d)).
  assert (ApID dec = req_id req) as Eid'.
  { destruct Hsi as (E' & _). change (ApID (decided_approval o now live d) = req_id req). congruence. }
  change (set_ApUpdatedAt now dec) with dec. rewrite Eid'. set (c1 := publishDirtyLocked {[req_id req := dec]} c).
  assert (rtc prim (mkSys c u h) (mkSys (flushed c1) u ((req_id req, d) :: h))) as Hp1.
  { apply rtc_once. by apply (p_decide c (req_id req) live dec d). }
  pose proof (inv_rtc _ _ Hi Hp1) as Hi1.
  assert (add_human (req_id req) (Ok dec) h = (req_id req, d) :: h) as Eh.
  { unfold add_human. assert (Decision dec = Some d) as -> by exact Hdec. done. }
  destruct (agents c !! ApAgent dec) as [a|] eqn:Ea.
  - pose proof (inv_agents _ Hi _ _ Ea) as Eia.
    set (b := set_PendingApprovals _ a). destruct (refreshAgentStatusLocked now c1 b) as [[b' ev]|] eqn:Eb; [|apply rtc_refl].
    apply refresh_frame in Eb as [Erb Eib].
    assert (agents c1 !! ID b' = Some a) as Hlive
      by (rewrite Eib; change (agents c !! ID a = Some a); rewrite Eia; exact Ea).
    pose proof (live_commit true now (flushed c1) b' a u ((req_id req, d) :: h) Hi1 Hlive (skel_runs b' a Erb)) as Hc.
    destruct tx; [|apply rtc_refl]. rewrite commit_flushed in Hc. cbn [commitAgentRows] in Hc |- *. rewrite Eh. by etrans.
  - destruct (match _ with true => _ | false => _ end) as [rs|]; [|apply rtc_refl].
    destruct tx; [|apply rtc_refl]. cbn [persistApprovalsOnly]. rewrite Eh. etrans; [exact Hp1|].
    apply quiet_refl. by destruct rs.
Qed.

Lemma ack_prims now tx id c u h : inv (mkSys c u h) -> rtc prim (mkSys c u h) (mkSys (sendDecision now tx id c) u h).
Proof.
  intros Hi. unfold sendDecision. destruct (approvals c !! id) as [ap|] eqn:Ea; [|apply rtc_refl]. step_if; [apply rtc_refl|]. cbv zeta.
  pose proof (inv_approvals _ Hi _ _ Ea) as Eid. cbn in Eid. rewrite mark_publish. etrans; [|apply flush_prims].
  apply rtc_once, p_edit. cbn [ApID set_DeliveredAt]. intros k x [<- <-]%lookup_singleton_Some. exists ap. rewrite Eid.
  split; [done|]. split; [by split_and!|]. by right.
Qed.

Lemma egress_prims_expire now tx c u h : inv (mkSys c u h) -> rtc prim (mkSys c u h) (mkSys (expireEgress now tx c) u h).
Proof.
  intros Hi. unfold expireEgress. cbv zeta. step_if; [apply rtc_refl|]. etrans; [|apply flush_prims].
  apply rtc_once, p_edit. intros id ap Hap. rewrite lookup_fmap in Hap.
  destruct (filter _ (approvals c) !! id) as [old|] eqn:Eo; [|done]. cbn in Hap. injection Hap as <-.
  apply map_lookup_filter_Some in Eo as [Ho Hd]. cbn in Hd. exists old. split; [done|]. split; [by split_and!|]. left.
  split; [|done]. unfold egress_due in Hd. apply andb_true_iff in Hd as [Hd _]. apply andb_true_iff in Hd as [Hd _].
  apply andb_true_iff in Hd as [_ Hd]. by apply bool_decide_eq_true in Hd.
Qed.

Lemma egress_prims o now tx order newID upper node req c u h : inv (mkSys c u h) -> approvals c !! newID = None ->
  rtc prim (mkSys c u h) (mkSys (egressApproval o now tx order newID upper node req c).2 u h).
Proof.
  intros Hi Hn. unfold egressApproval. do 4 (step_if; [apply rtc_refl|]).
  destruct (workspaces c !! eg_ws req) as [ws|]; [|apply rtc_refl]. do 2 (step_if; [apply rtc_refl|]).
  destruct (first_match now req order c); [apply rtc_refl|]. step_if; [apply rtc_refl|]. cbv zeta.
  rewrite mark_publish. destruct tx; [|apply rtc_refl]. cbn [persistApprovalsOnly snd]. apply rtc_once.
  by apply (p_ask c (set_ApUpdatedAt now (new_egress o now newID upper ws req))).
Qed.

Lemma stale_step_ok now a ap : if (stale_step now a ap).2 then edit_ok ap (stale_step now a ap).1
  else core (stale_step now a ap).1 = core ap.
Proof.
  unfold stale_step. destruct (ApStatus ap) eqn:Es.
  - destruct (stale a ap); cbn; [|done]. split; [by split_and!|]. by left.
  - destruct (stale a ap); cbn; [split; [by split_and!|by right]|].
    destruct (run_of a (ApRun ap)), (Decision ap); try done. by destruct (_ && _).
  - done.
Qed.

Lemma expire_agent_memory now a c u h id : inv (mkSys c u h) ->
  let opened := filter (fun kv => open_approval id kv.2 = true) (approvals c) in
  let marked := filter (fun kv => (stale_step now a kv.2).2 = true) opened in
  rtc prim (mkSys c u h)
    (mkSys (set_approvals ((fst ∘ stale_step now a <$> opened) ∪ approvals c)
             (set_dirtyApprovals (dirtyApprovals c ∪ dom marked) c)) u h).
Proof.
  intros Hi opened marked. set (st := fst ∘ stale_step now a <$> marked). set (m := _ ∪ approvals c).
  assert (forall k ap, marked !! k = Some ap -> approvals c !! k = Some ap /\ (stale_step now a ap).2 = true) as Hmk.
  { intros k ap Hk. apply map_lookup_filter_Some in Hk as [Hk Hs]. by apply map_lookup_filter_Some in Hk as [? _]. }
  assert (forall k ap, opened !! k = Some ap -> approvals c !! k = Some ap) as Hop
    by (intros k ap Hk; by apply map_lookup_filter_Some in Hk as [? _]).
  assert (set_approvals m (set_dirtyApprovals (dirtyApprovals c ∪ dom marked) c) = set_approvals m (publishDirtyLocked st c)) as ->.
  { unfold publishDirtyLocked, st. rewrite dom_fmap_L. done. }
  eapply (rtc_l _ _ (mkSys (publishDirtyLocked st c) u h)); [apply p_edit|apply rtc_once, p_stamp].
  - intros k ap Hk. unfold st in Hk. rewrite lookup_fmap in Hk. destruct (marked !! k) as [old|] eqn:Eo; [|done].
    injection Hk as <-. destruct (Hmk k old Eo) as [Ho Hs]. exists old. split; [done|].
    pose proof (stale_step_ok now a old) as Hok. by rewrite Hs in Hok.
  - intros k. cbn [approvals publishDirtyLocked set_approvals set_dirtyApprovals]. unfold m, st.
    rewrite !lookup_union, !lookup_fmap. destruct (opened !! k) as [ap|] eqn:Eo.
    + rewrite (Hop k ap Eo). destruct ((stale_step now a ap).2) eqn:Es.
      * assert (marked !! k = Some ap) as -> by (by apply map_lookup_filter_Some). done.
      * assert (marked !! k = None) as ->.
        { apply map_lookup_filter_None. right. intros x Hx. rewrite Eo in Hx. injection Hx as <-. cbn. by rewrite Es. }
        cbn. f_equal. pose proof (stale_step_ok now a ap) as Hok. rewrite Es in Hok. symmetry. exact Hok.
    + assert (marked !! k = None) as ->. { apply map_lookup_filter_None. by left. } done.
Qed.

Lemma expire_agent_prims now tx id c u h : inv (mkSys c u h) -> rtc prim (mkSys c u h) (mkSys (expireAgent now tx id c) u h).
Proof.
  intros Hi. unfold expireAgent. cbv zeta. step_if; [apply rtc_refl|].
  pose proof (expire_agent_memory now (agents c !! id) c u h id Hi) as Hm. cbv zeta in Hm.
  set (c1 := set_approvals _ _) in *. pose proof (inv_rtc _ _ Hi Hm) as Hi1. etrans; [exact Hm|].
  destruct (agents c !! id) as [a|] eqn:Ea.
  - pose proof (inv_agents _ Hi _ _ Ea) as Eia. cbn in Eia. set (b := set_PendingApprovals _ a).
    assert (exists b' ev, (match refreshAgentStatusLocked now c1 b with Ok r => r | Err _ => (b, []) end) = (b', ev) /\
      Runs b' = Runs a /\ ID b' = ID a) as (b' & ev & -> & Er & Ei).
    { destruct (refreshAgentStatusLocked now c1 b) as [[b' ev]|] eqn:Eb; [|by eexists _, _].
      apply refresh_frame in Eb as [? ?]. by eexists _, _. }
    assert (agents c1 !! ID b' = Some a) as Hlive by (rewrite Ei; cbn; congruence).
    destruct (_ && _ && _); [by apply (live_touch c1 b' a), skel_runs|].
    pose proof (live_commit tx now c1 b' a u h Hi1 Hlive (skel_runs b' a Er)) as Hc. by destruct (commitAgentRows _ _ _ _).
  - step_if; [apply rtc_refl|]. apply flush_prims.
Qed.
End AgentsProofs.
