(* ===== verification/AgentsTheorems.v ===== *)
(** * Agents and approvals: the system and its theorems

    [step] is one call of a handler of [Agents], with any clock, any answer of
    the database and any choice of the random ids that are new, or a restart
    on the stored rows.  The theorems are about the states that calls reach
    from an empty control plane. *)

From Stdlib Require Import ZArith Lia Strings.String Strings.Ascii.
From stdpp Require Import base gmap strings option sorting relations list.
From S2P Require Import Prelude GoStd Lifecycle Agents AgentsProofs.
#[local] Open Scope Z_scope.

Module AgentSystem.
Import Lifecycle(Code, CodeStorage, Workspace, mkWorkspace, mkSpec, WSClaimed, AgentStatus, AgentFailed, AgentFinished,
  AgentDestroyed, AgentStatus_eq_dec, WSState_eq_dec, transitionAgent).
Import Agents AgentsProofs.

#[local] Existing Instance WSState_eq_dec.
#[local] Existing Instance AgentStatus_eq_dec.

(** ** The system *)

Definition with_ctl (x : sys) (c : Control) : sys := mkSys c (used x) (humans x).

(** [used] grows by the id a decision may give to a run, [humans] by the
    decision [approvalDecide] accepts; other parts of the control plane change
    the workspaces and their rules. *)
Inductive step : sys -> sys -> Prop :=
| s_report o now tx node rep x : step x (with_ctl x (agentReport o now tx node rep (ctl x)).2)
| s_message now tx msgID id kind text by_ x : step x (with_ctl x (agentMessage now tx msgID id kind text by_ (ctl x)).2)
| s_wake now tx id x : step x (with_ctl x (agentWake now tx id (ctl x)).2)
| s_wake_request now tx id x : step x (with_ctl x (agentWakeRequest now tx id (ctl x)).2)
| s_cancel now tx id x : step x (with_ctl x (agentCancel now tx id (ctl x)).2)
| s_sleep now tx id timer x : step x (with_ctl x (sleepAgent now tx id timer (ctl x)).2)
| s_destroy now tx id by_ x : step x (with_ctl x (agentDestroy now tx id by_ (ctl x)).2)
| s_create o now tx id tenant owner name ws ownsWS session url parent policy inbox at_ x : agents (ctl x) !! id = None ->
    step x (with_ctl x (agentCreate o now tx (new_agent id tenant owner name ws ownsWS session url parent policy inbox at_) (ctl x)).2)
| s_reconcile now tx online gone runID msgID summary id x : runID ∉ used x ->
    step x (mkSys (agentDecide now tx online gone runID msgID summary id (ctl x)).2 ({[runID]} ∪ used x) (humans x))
| s_work_done id x : step x (with_ctl x (agentWorkDone id (ctl x)))
| s_defer now id x : step x (with_ctl x (deferAgent now id (ctl x)))
| s_launched now tx answer agent run node x : step x (with_ctl x (launchRun now tx answer agent run node (ctl x)))
| s_decide o now tx normalized subject req x r c : approvalDecide o now tx normalized subject req (ctl x) = (r, c) ->
    step x (mkSys c (used x) (add_human (req_id req) r (humans x)))
| s_delivered now tx id x : step x (with_ctl x (sendDecision now tx id (ctl x)))
| s_expire_egress now tx x : step x (with_ctl x (expireEgress now tx (ctl x)))
| s_expire_agent now tx id x : step x (with_ctl x (expireAgent now tx id (ctl x)))
| s_egress o now tx order newID upper node req x : approvals (ctl x) !! newID = None ->
    step x (with_ctl x (egressApproval o now tx order newID upper node req (ctl x)).2)
| s_other c x : same_store (ctl x) c -> step x (with_ctl x c)
| s_restart x : step x (with_ctl x (loadAgents (ctl x))).

Definition start : sys := mkSys (mkControl ∅ ∅ ∅ ∅ ∅ ∅ ∅ ∅ ∅ ∅) ∅ [].

Definition reachable (x : sys) : Prop := rtc step start x.

(** Every handler is a sequence of steps of the store. *)
Lemma step_prims x y : inv x -> step x y -> rtc prim x y.
Proof.
  intros Hi Hs. destruct Hs as []; destruct x as [cx u h]; unfold with_ctl; cbn [ctl used humans] in *.
  - by apply report_prims.
  - by apply message_prims.
  - by apply wake_prims.
  - by apply wakereq_prims.
  - by apply cancel_prims.
  - by apply sleep_prims.
  - by apply destroy_prims.
  - by apply create_prims.
  - by apply decide_prims.
  - by apply quiet_refl.
  - by apply quiet_refl.
  - by apply launch_prims.
  - pose proof (human_prims o now tx normalized subject req cx u h Hi) as Hh. by rewrite (ltac:(eassumption) : approvalDecide _ _ _ _ _ _ _ = _) in Hh.
  - by apply ack_prims.
  - by apply egress_prims_expire.
  - by apply expire_agent_prims.
  - by apply egress_prims.
  - by apply quiet_refl.
  - apply rtc_once, p_load.
Qed.

(** ** Facts about one approval *)

(** A fact that expiry, delivery and a decision keep. *)
Record stable (P : Approval -> Prop) : Prop := mkStable {
  st_core : forall ap ap', core ap = core ap' -> P ap -> P ap';
  st_edit : forall old new, edit_ok old new -> P old -> P new;
  st_decide : forall old new, ApStatus old = ApprovalPending -> same_identity old new -> P old -> P new }.

Definition holds (P : Approval -> Prop) (id : string) (m : gmap string Approval) : Prop := exists ap, m !! id = Some ap /\ P ap.

(** ... of the approval in memory and in its row. *)
Definition known (P : Approval -> Prop) (id : string) (x : sys) : Prop :=
  holds P id (approvals (ctl x)) /\ holds P id (approval_rows (ctl x)).

(** The decision [d] was taken. *)
Definition decided_as (d : ApprovalDecision) (ap : Approval) : Prop := ApStatus ap = ApprovalDecided /\ Decision ap = Some d.

Lemma decided_as_stable d : stable (decided_as d).
Proof.
  split.
  - intros ap ap' E [H1 H2]. apply core_fields in E as (E1 & _ & _ & _ & E2 & _). split; congruence.
  - intros old new [_ [[E _]|[E1 E2]]] [H1 H2]; [congruence|]. split; congruence.
  - intros old new E _ [H1 _]. congruence.
Qed.

(** The approval is the same question. *)
Lemma identity_left b a c : same_identity b a -> same_identity b c -> same_identity a c.
Proof. unfold same_identity. intros Ha Hb. decompose [and] Ha. decompose [and] Hb. split_and!; congruence. Qed.

Lemma identity_stable ap0 : stable (same_identity ap0).
Proof.
  assert (forall a b c, same_identity b c -> same_identity a b -> same_identity a c) as Htrans.
  { unfold same_identity. intros a b c Hb Ha. decompose [and] Ha. decompose [and] Hb. split_and!; congruence. }
  split.
  - intros ap ap' E. apply Htrans. unfold same_identity. split_and!; symmetry;
      [exact (f_equal ApID E)|exact (f_equal ApAgent E)|exact (f_equal ApRun E)|exact (f_equal Kind E)|exact (f_equal ApWS E)
      |exact (f_equal Principal E)|exact (f_equal Fingerprint E)|exact (f_equal Host E)|exact (f_equal Rule E)].
  - intros old new [Hid _]. by apply Htrans.
  - intros old new _. by apply Htrans.
Qed.


(** ** Reachable states *)

(** A row answers the same question as the record in memory, and has its
    decision. *)
Definition agree (ap r : Approval) : Prop := same_identity ap r /\ forall d, decided_as d ap -> decided_as d r.

Definition agrees (x : sys) : Prop := forall id ap, approvals (ctl x) !! id = Some ap ->
  exists r, approval_rows (ctl x) !! id = Some r /\ agree ap r.

(** With nothing to flush, memory and rows are the same. *)
Lemma clean_agrees x : inv x -> dirtyApprovals (ctl x) = ∅ -> agrees x.
Proof.
  intros Hi Hd id ap Hap. assert (id ∉ dirtyApprovals (ctl x)) as Hn by (rewrite Hd; apply not_elem_of_empty).
  pose proof (inv_clean _ Hi id Hn) as E. rewrite Hap in E. destruct (approval_rows (ctl x) !! id) as [r|]; [|done].
  apply (inj Some) in E. exists r. split; [done|]. split.
  - apply (st_core _ (identity_stable ap) ap r E). by split_and!.
  - intros d. by apply (st_core _ (decided_as_stable d)).
Qed.

Lemma prim_agrees x y : inv x -> agrees x -> prim x y -> agrees y.
Proof.
  intros Hi Hr Hp. pose proof (prim_inv x y Hi Hp) as Hy. destruct Hp as [c c' u u' h (E1 & E2 & E3 & E4 & E5) Hu|c a old u h Ha Es|c m u h Hm
    |c st u h He|c id old ap d u h Ho Hp Hsi Hst Hd|c ap u h Hn Hk' Hp|c u h|c a old u h Ha Hkeep|c a st now u u' h Hc Hok|c u h];
    [|done| | |by apply clean_agrees|by apply clean_agrees|by apply clean_agrees|done|apply clean_agrees; [done|cbn; set_solver]|by apply clean_agrees];
    unfold agrees in *; cbn [ctl] in *.
  - by rewrite E2, E5.
  - intros id ap' Hap'. destruct (same_core_lookup _ _ id ap' Hm Hap') as (ap & Hap & E).
    destruct (Hr id ap Hap) as (r & Hrow & Hid & Hdec). exists r. split; [done|]. split.
    + apply (identity_left ap); [|done]. apply (st_core _ (identity_stable ap) ap ap' E). by split_and!.
    + intros d Hd. apply Hdec. by apply (st_core _ (decided_as_stable d) ap' ap).
  - intros id ap Hap. apply lookup_union_Some_raw in Hap as [Hap|[_ Hap]]; [|by apply Hr].
    destruct (He id ap Hap) as (old & Ho & Hed). destruct (Hr id old Ho) as (r & Hrow & Hid & Hdec). exists r. split; [done|]. split.
    + apply (identity_left old); [by destruct Hed|done].
    + intros d [H1 H2]. apply Hdec. destruct (edit_decided _ _ Hed H1) as [? ?]. split; congruence.
Qed.

Record good (x : sys) : Prop := mkGood { good_inv : inv x; good_agrees : agrees x }.

Lemma prims_good x y : good x -> rtc prim x y -> good y.
Proof.
  intros Hg Hr. induction Hr as [|x y z Hp _ IH]; [done|]. destruct Hg as [Hi Hw]. apply IH. split; [by eapply prim_inv|].
  by eapply prim_agrees.
Qed.

Lemma step_good x y : good x -> step x y -> good y.
Proof. intros Hg Hs. eapply prims_good; [done|]. by apply step_prims; [apply good_inv|]. Qed.

Lemma start_good : good start.
Proof.
  split; [|intros id ap Hap; cbn in Hap; by rewrite lookup_empty in Hap]. split; cbn.
  - intros k a Ha. by rewrite lookup_empty in Ha.
  - intros k a Ha. by rewrite lookup_empty in Ha.
  - intros k a Ha. by rewrite lookup_empty in Ha.
  - done.
  - split; intros k a Ha; by rewrite lookup_empty in Ha.
  - intros id. set_solver.
  - done.
  - split; intros k a Ha; by rewrite lookup_empty in Ha.
  - split; intros k a Ha; by rewrite lookup_empty in Ha.
Qed.

Lemma steps_good x y : good x -> rtc step x y -> good y.
Proof. intros Hg Hr. induction Hr as [|x y z Hs _ IH]; [done|]. apply IH. by eapply step_good. Qed.

Lemma reachable_good x : reachable x -> good x.
Proof. apply steps_good, start_good. Qed.

(** What every step of the store keeps, every call keeps. *)
Lemma steps_keep (P : sys -> Prop) : (forall x y, inv x -> prim x y -> P x -> P y) ->
  forall x y, good x -> rtc step x y -> P x -> P y.
Proof.
  intros HP x y Hg Hr. assert (forall x y, inv x -> rtc prim x y -> P x -> P y) as Hprims.
  { intros x' y' Hi Hpr. induction Hpr as [|x' y' z' Hp _ IH]; [done|]. intros Hx. apply IH; [by eapply prim_inv|]. by eapply HP. }
  induction Hr as [|x y z Hs _ IH]; [done|]. intros Hx. apply IH; [by eapply step_good|].
  eapply Hprims; [apply (good_inv _ Hg)|by apply step_prims; [apply good_inv|]|done].
Qed.

Section Known.
Context (P : Approval -> Prop) (HP : stable P) (id : string).

#[local] Instance holds_proper : Proper (same_core ==> iff) (holds P id).
Proof.
  intros m m' Hm. split; intros (ap & Hap & Hp).
  - destruct (same_core_lookup m' m id ap (symmetry Hm) Hap) as (ap' & Hap' & E). exists ap'. split; [done|]. by eapply st_core.
  - destruct (same_core_lookup m m' id ap Hm Hap) as (ap' & Hap' & E). exists ap'. split; [done|]. by eapply st_core.
Qed.

Lemma holds_union (st m : gmap string Approval) :
  (forall old new, m !! id = Some old -> st !! id = Some new -> P old -> P new) -> holds P id m -> holds P id (st ∪ m).
Proof.
  intros Hst (ap & Hap & Hp). destruct (st !! id) as [new|] eqn:E.
  - exists new. split; [by apply lookup_union_Some_l|]. by eapply Hst.
  - exists ap. split; [by rewrite lookup_union_r|done].
Qed.

Lemma clean_known x : inv x -> dirtyApprovals (ctl x) = ∅ -> holds P id (approvals (ctl x)) -> known P id x.
Proof.
  intros Hi Hd Hm. split; [done|]. enough (same_core (approvals (ctl x)) (approval_rows (ctl x))) as <- by done.
  intros k. apply (inv_clean _ Hi). rewrite Hd. apply not_elem_of_empty.
Qed.

Lemma prim_known x y : inv x -> prim x y -> known P id x -> known P id y.
Proof.
  intros Hi Hp [Hm Hrow]. pose proof (prim_inv x y Hi Hp) as Hy.
  destruct Hp as [c c' u u' h (E1 & E2 & E3 & E4 & E5) Hu|c a old u h Ha Es|c m u h Hm'
    |c st u h He|c k old ap d u h Ho Hp Hsi Hst Hd|c ap u h Hn Hk' Hp|c u h|c a old u h Ha Hkeep|c a st now u u' h Hc Hok|c u h];
    cbn [ctl] in *; [| | | |apply clean_known; [done|done|]|apply clean_known; [done|done|]|by apply clean_known| |
      apply clean_known; [done|cbn; set_solver|]|by split].
  - unfold known. cbn [ctl]. by rewrite E2, E5.
  - done.
  - split; [|done]. change (holds P id m). by rewrite <- Hm'.
  - split; [|done]. apply holds_union; [|done]. intros old new Ho Hn. destruct (He id new Hn) as (old' & Ho' & Hed).
    rewrite Ho in Ho'. injection Ho' as <-. by eapply st_edit.
  - apply holds_union; [|done]. intros old' new Ho' [-> ->]%lookup_singleton_Some.
    rewrite Ho in Ho'. injection Ho' as <-. by eapply st_decide.
  - apply holds_union; [|done]. intros old new Ho [E _]%lookup_singleton_Some. congruence.
  - done.
  - change (holds P id (st ∪ approvals c)). apply holds_union; [|done]. intros old new Ho Hn. destruct (co_edits _ _ _ Hok id new Hn) as [_ Hed].
    rewrite Ho in Hed. by eapply st_edit.
Qed.

Lemma steps_known x y : good x -> rtc step x y -> known P id x -> known P id y.
Proof. apply steps_keep. by intros ????; apply prim_known. Qed.
End Known.

(** What is known of a record in memory is known of its row. *)
Lemma memory_decided x id ap d : good x -> approvals (ctl x) !! id = Some ap -> decided_as d ap -> known (decided_as d) id x.
Proof.
  intros [_ Ha] Hap Hd. destruct (Ha id ap Hap) as (r & Hr & _ & Hdec). split; eexists; (split; [done|]); [done|by apply Hdec].
Qed.

Lemma memory_identity x id ap : good x -> approvals (ctl x) !! id = Some ap -> known (same_identity ap) id x.
Proof.
  intros [_ Ha] Hap. destruct (Ha id ap Hap) as (r & Hr & Hid & _). split; eexists; (split; [done|]); [by split_and!|done].
Qed.

(** ** Reports that were taken *)

(** The run is over, or has seen the report. *)
Definition run_settled (run : string) (seq : Z) (rs : list AgentRun) : Prop :=
  forall r, r ∈ rs -> RunID r = run -> run_done r = true \/ seq <= LastReport r.

Lemma run_settled_step run seq rs rs' : Forall2 run_step rs rs' -> run_settled run seq rs -> run_settled run seq rs'.
Proof.
  intros Hf Hs r' (i & Hi)%list_elem_of_lookup_1 Hid. destruct (Forall2_lookup_r _ _ _ _ _ Hf Hi) as (r & Hr & (E & _ & Hd & Hl)).
  destruct (Hs r (list_elem_of_lookup_2 _ _ _ Hr)) as [?|?]; [congruence|left; auto|right; lia].
Qed.

Lemma run_settled_change u u' run seq rs rs' : runs_change u rs u' rs' -> run ∈ u -> run_settled run seq rs -> run_settled run seq rs'.
Proof.
  intros [rs1 Hf|rs1 r Hf _ Hn _] Hu Hs; [by eapply run_settled_step|].
  intros r' [Hr|Hr]%elem_of_app Hid; [by apply (run_settled_step _ _ _ _ Hf Hs)|].
  apply list_elem_of_singleton in Hr as ->. congruence.
Qed.

Lemma run_settled_stamped now run seq a : run_settled run seq (Runs a) -> run_settled run seq (Runs (stamped now a)).
Proof.
  rewrite trim_runs. intros Hs r Hr. apply Hs. eapply elem_of_submseteq; [exact Hr|]. apply sublist_submseteq, sublist_drop.
Qed.

(** In memory and in the rows. *)
Record settled (agent run : string) (seq : Z) (x : sys) : Prop := mkSettled {
  se_used : run ∈ used x;
  se_agent : is_Some (agents (ctl x) !! agent);
  se_live : forall a, agents (ctl x) !! agent = Some a -> run_settled run seq (Runs a) }.

Lemma settled_put agent run seq (m : gmap string Agent) k b : (k = agent -> run_settled run seq (Runs b)) ->
  (is_Some (m !! agent) /\ forall a, m !! agent = Some a -> run_settled run seq (Runs a)) ->
  is_Some (<[k := b]> m !! agent) /\ forall a, <[k := b]> m !! agent = Some a -> run_settled run seq (Runs a).
Proof.
  intros Hb [Hs Ha]. destruct (decide (k = agent)) as [->|Hne].
  - rewrite lookup_insert_eq. split; [done|]. intros a [= <-]. by apply Hb.
  - by rewrite lookup_insert_ne.
Qed.

Lemma prim_settled agent run seq x y : inv x -> prim x y -> settled agent run seq x -> settled agent run seq y.
Proof.
  intros Hi Hp [Hu Hex Hs]. destruct Hp as [c c' u u' h (E1 & E2 & E3 & E4 & E5) Hu'|c a old u h Ha Es|c m u h Hm
    |c st u h He|c id old ap d u h Ho Hp Hsi Hst Hd|c ap u h Hn Hk' Hp|c u h|c a old u h Ha Hkeep|c a st now u u' h Hc Hok|c u h];
    cbn [ctl used humans] in *; try (by split).
  - split; cbn [ctl used]; rewrite ?E1; auto.
  - destruct (settled_put agent run seq (agents c) (ID a) a) as [? ?]; [|by split|by split].
    intros E. rewrite E in Ha. eapply run_settled_step; [apply keep_step, (skel_keep old a); by symmetry|by apply Hs].
  - destruct (settled_put agent run seq (agents c) (ID a) a) as [? ?]; [|by split|by split].
    intros E. rewrite E in Ha. eapply run_settled_step; [by apply keep_step|by apply Hs].
  - destruct (settled_put agent run seq (agents c) (ID (stamped now a)) (stamped now a)) as [? ?]; [|by split|].
    + rewrite stamped_id. intros E. apply run_settled_stamped. eapply run_settled_change; [exact Hc|done|].
      unfold old_runs. rewrite E. destruct Hex as [b Hb]. rewrite Hb. by apply Hs.
    + split; [|done|done]. cbn. by apply (runs_change_mono _ _ _ _ Hc).
  - split; [done| |]; cbn [ctl loadAgents agents].
    + destruct Hex as [a Ha]. destruct (same_runs_lookup _ _ agent a (symmetry (inv_same _ Hi)) Ha) as (b & Hb & _). by exists b.
    + intros b Hb. destruct (same_runs_lookup _ _ agent b (inv_same _ Hi) Hb) as (a & Ha & E).
      eapply run_settled_step; [by apply keep_step, skel_keep|by apply Hs].
Qed.

(** What a report makes of a live run has seen it. *)
Lemma applied_report o now c node live i run seq kind ch u h : inv (mkSys c u h) -> agents c !! ID live = Some live ->
  Runs live !! i = Some run -> run_done run = false -> LastReport run < seq ->
  apply_report o now c node (change_run i (set_LastReport seq) live) i (set_LastReport seq run) kind = Ok ch ->
  ID (ch_agent ch) = ID live /\ run_settled (RunID run) seq (Runs (ch_agent ch)).
Proof.
  intros Hi Ha Er Ed Hseq Ech. set (a := change_run i (set_LastReport seq) live) in *.
  assert (Forall2 run_keep (Runs live) (Runs a)) as Hk.
  { apply (change_run_keep live i run); [done|]. split; [|done]. split_and!; [done|done|done|cbn; lia]. }
  pose proof (row_inv c a live u h Hi Ha Hk) as Hi'.
  assert (Runs a !! i = Some (set_LastReport seq run)) as Eri by (unfold a; cbn; by rewrite list_lookup_alter_eq, Er).
  destruct (apply_report_ok o now _ node a a i _ kind ch u h Hi' ltac:(cbn; by rewrite lookup_insert_eq) eq_refl
    ltac:(reflexivity) Eri Ed Ech) as [(Eid & Hst & _) _].
  split; [exact Eid|]. apply (run_settled_step _ _ _ _ Hst). intros r (j & Hj)%list_elem_of_lookup_1 E. right.
  destruct (inv_runs _ Hi _ _ Ha) as [Hok _].
  assert (j = i) as ->.
  { eapply (ro_ids u (Runs a)); [eapply runs_ok_step; [by apply keep_step|exact Hok]|exact Hj|exact Eri|exact E]. }
  rewrite Eri in Hj. injection Hj as <-. cbn. lia.
Qed.

(** An acknowledged report is settled. *)
Lemma report_settles o now tx node rep c u h c' : inv (mkSys c u h) -> agentReport o now tx node rep c = (Ok tt, c') ->
  settled (RepAgent rep) (RepRun rep) (RepSeq rep) (mkSys c' u h).
Proof.
  intros Hi. unfold agentReport. step_if; [done|]. destruct (agents c !! RepAgent rep) as [live|] eqn:Ea; [|done].
  destruct (findRun (Runs live) (RepRun rep)) as [i|] eqn:Ef; [|done]. apply findRun_Some in Ef as (run & Er & Eid). rewrite Er.
  do 2 (step_if; [done|]). destruct (inv_runs _ Hi _ _ Ea) as [Hok _]. pose proof (inv_agents _ Hi _ _ Ea) as Eia. cbn [used ctl] in *.
  assert (RepRun rep ∈ u) as Hin by (rewrite <- Eid; apply (ro_used _ _ Hok); by eapply list_elem_of_lookup_2).
  assert (forall r, r ∈ Runs live -> RunID r = RepRun rep -> r = run) as Huniq.
  { intros r (j & Hj)%list_elem_of_lookup_1 E'. assert (j = i) as -> by (eapply (ro_ids _ _ Hok); eauto; congruence). congruence. }
  assert ((run_done run = true \/ RepSeq rep <= LastReport run) -> c = c' -> settled (RepAgent rep) (RepRun rep) (RepSeq rep) (mkSys c' u h)) as Hsame.
  { intros Hs <-. split; cbn [ctl used]; [done|by eexists|]. rewrite Ea. intros a [= <-] r Hr E'. by rewrite (Huniq r Hr E'). }
  step_if. { bool_hyp. intros [= <-]. apply Hsame; [right; lia|done]. }
  destruct (run_done run) eqn:Ed. { step_if; [|done]. intros [= <-]. apply Hsame; [by left|done]. }
  bool_hyp. destruct (apply_report _ _ _ _ _ _ _ _) as [ch|] eqn:Ech; [|done].
  destruct (applied_report o now c node live i run (RepSeq rep) (RepKind rep) ch u h Hi ltac:(by rewrite Eia) Er Ed ltac:(lia) Ech) as [Eic Hset].
  destruct (refreshAgentStatusLocked now c (ch_agent ch)) as [[b more]|] eqn:Eb; [|done]. apply refresh_frame in Eb as [Erb Eib].
  rewrite Eid, <- Erb in Hset.
  assert (ID b = RepAgent rep) as Eidb by (rewrite Eib, Eic; exact Eia).
  assert (forall b' c1, Runs b' = Runs b \/ Runs b' = Runs (stamped now b) -> agents c1 = <[RepAgent rep := b']> (agents c) ->
    settled (RepAgent rep) (RepRun rep) (RepSeq rep) (mkSys (settle_marks now (with_agent b ch) c1) u h)) as Hput.
  { intros b' c1 Hb' Eag. destruct (settle_quiet now (with_agent b ch) c1) as (Es & _).
    split; cbn [ctl used]; [done| |]; rewrite Es, Eag, lookup_insert_eq; [by eexists|].
    intros a' [= <-]. destruct Hb' as [-> | ->]; [done|]. by apply run_settled_stamped. }
  destruct (commit_report tx now c b (ch_stage ch) (RepKind rep)) as [c1|] eqn:Ec; [|done]. intros [= <-].
  assert (forall k st, commit_report tx now c b st k = Ok c1 -> agents c1 = <[RepAgent rep := stamped now b]> (agents c)) as Hag.
  { intros k st. unfold commit_report, mirrorTranscriptLocked, commit_copy, commitAgentRows. destruct k as [| | | | | | |sizes|];
      try (destruct tx; [intros [= <-]; cbn; by rewrite stamped_id, Eidb|done]).
    do 2 (step_if; [done|]). destruct sizes; (destruct tx; [intros [= <-]; cbn; by rewrite stamped_id, Eidb|done]). }
  apply (Hput (stamped now b)); [by right|]. by apply (Hag _ _ Ec).
Qed.

(** A settled report changes nothing. *)
Lemma settled_report agent run seq x o now tx node rep : settled agent run seq x -> RepAgent rep = agent -> RepRun rep = run ->
  RepSeq rep <= seq -> (agentReport o now tx node rep (ctl x)).2 = ctl x.
Proof.
  intros [_ [a Ha] Hs] Eag Erun Eseq. unfold agentReport. rewrite Eag, Ha. step_if; [done|].
  destruct (findRun (Runs a) (RepRun rep)) as [i|] eqn:Ef; [|done]. apply findRun_Some in Ef as (r & Er & Eid). rewrite Er.
  do 2 (step_if; [done|]). step_if; [done|]. bool_hyp.
  destruct (Hs a Ha r (list_elem_of_lookup_2 _ _ _ Er) ltac:(congruence)) as [->|?]; [done|lia].
Qed.

(** ** A worked example *)

Definition ex_options : Options := mkOptions 8 8 0 60000 60000.
Definition ex_workspace : Workspace :=
  mkWorkspace "w" "t" "own" WSClaimed "n" 1 0 0 "" "" [] (mkSpec "" "" [] "" "" [] []) 0 "" 0 [] 0.
Definition ex_env : Control :=
  mkControl ∅ ∅ ∅ ∅ ∅ ∅ {["w" := ex_workspace]} {["w" := [mkRule "r" "approve" "https" ["h"]]]} ∅ ∅.
Definition ex_report (seq : Z) (kind : report) : AgentReport := mkReport "a" "run1" "w" 1 seq kind.
Definition ex_question : Approval :=
  mkApproval "ap_1" "" "" "" "" "" "" "" "" "" "" "" "" ApprovalToolCall "edit" "" "" [] [mkOption "yes" "Yes" "allow_once"] ""
    ApprovalPending None 0 0 0 0.
Definition ex_decide (id option : string) (denied : bool) (remember : string) : decide_request :=
  mkDecide id option denied "" remember.

(** An agent is created, its run launched and started, and asks a question. *)
Definition ex_env' : sys := with_ctl start ex_env.
Definition ex_created : sys := with_ctl ex_env' (agentCreate ex_options 0 true
  (new_agent "a" "t" "own" "n" "w" true "s" "" "" (mkAgentPolicy 0 "" 0 0) [mkMessage "m1" "follow_up" "hi" "own" 0] 0) (ctl ex_env')).2.
Definition ex_launched : sys := mkSys (agentDecide 1 true (fun _ => true) (fun _ => false) "run1" "" "" "a" (ctl ex_created)).2
  ({["run1"]} ∪ used ex_created) (humans ex_created).
Definition ex_started : sys := with_ctl ex_launched (agentReport ex_options 2 true "n" (ex_report 1 (AgentReportStarted "")) (ctl ex_launched)).2.
Definition ex_parked : sys := with_ctl ex_started
  (agentReport ex_options 3 true "n" (ex_report 2 (AgentReportParked (Some ex_question))) (ctl ex_started)).2.

Lemma ex_created_reachable : reachable ex_created.
Proof.
  eapply rtc_l; [apply (s_other ex_env); done|]. eapply rtc_l; [apply s_create; by vm_compute|]. apply rtc_refl.
Qed.

Lemma ex_started_reachable : reachable ex_started.
Proof.
  unfold reachable. etrans; [exact ex_created_reachable|].
  eapply rtc_l; [apply (s_reconcile 1 true (fun _ => true) (fun _ => false) "run1" "" "" "a"); vm_compute; set_solver|].
  apply rtc_once, (s_report ex_options 2 true "n" (ex_report 1 (AgentReportStarted ""))).
Qed.

Lemma ex_parked_reachable : reachable ex_parked.
Proof.
  eapply rtc_r; [exact ex_started_reachable|]. apply (s_report ex_options 3 true "n" (ex_report 2 (AgentReportParked (Some ex_question)))).
Qed.

(** ** Runs *)

(** At most 64 runs, of which only the last may be live; attempts increase and
    no id is used twice. *)
Definition runs_well_formed (rs : list AgentRun) : Prop :=
  (length rs <= MaxAgentRuns)%nat /\ (forall i r, rs !! i = Some r -> run_done r = false -> S i = length rs) /\
  (forall i j r r', rs !! i = Some r -> rs !! j = Some r' -> (i < j)%nat -> Attempt r < Attempt r') /\ NoDup (RunID <$> rs).

Lemma runs_ok_well_formed u rs : runs_ok u rs -> (length rs <= MaxAgentRuns)%nat -> runs_well_formed rs.
Proof.
  intros [Hl Ha Hid _] Hlen. split_and!; [done| |done|].
  - intros i r Hr Hd. pose proof (lookup_lt_Some _ _ _ Hr). destruct (decide (S i = length rs)) as [|Hne]; [done|].
    rewrite (Hl i r Hr) in Hd by lia. done.
  - apply NoDup_alt. intros i j id Hi Hj. rewrite list_lookup_fmap in Hi, Hj.
    destruct (rs !! i) as [r|] eqn:Ei, (rs !! j) as [r'|] eqn:Ej; try done. cbn in *. eapply Hid; eauto. congruence.
Qed.

Lemma reachable_well_formed x : reachable x ->
  (forall k a, agents (ctl x) !! k = Some a -> runs_well_formed (Runs a)) /\
  (forall k a, agent_rows (ctl x) !! k = Some a -> runs_well_formed (Runs a)).
Proof.
  intros [Hi _]%reachable_good.
  assert (forall k a, agents (ctl x) !! k = Some a -> runs_well_formed (Runs a)) as Hm.
  { intros k a Ha. destruct (inv_runs _ Hi k a Ha). by eapply runs_ok_well_formed. }
  split; [done|]. intros k a Ha. destruct (same_runs_lookup _ _ k a (inv_same _ Hi) Ha) as (b & Hb & E).
  destruct (inv_runs _ Hi k b Hb) as [Hok Hlen]. pose proof (keep_step _ _ (skel_keep b a E)) as Hs.
  apply (runs_ok_well_formed (used x)); [by eapply runs_ok_step|]. by rewrite <- (Forall2_length _ _ _ Hs).
Qed.

(** C23: Whatever calls are made, whatever transactions fail and however often
    the control plane restarts, every agent, in memory and in its row, has at
    most 64 runs, at most one of them live, and that is the last; attempt
    numbers increase and run ids are distinct. *)
Theorem agents_have_one_live_run x id a : reachable x ->
  (agents (ctl x) !! id = Some a \/ agent_rows (ctl x) !! id = Some a) -> runs_well_formed (Runs a).
Proof.
  intros Hr Ha. destruct (reachable_well_formed x Hr) as [Hm Hw]. destruct Ha; eauto.
Qed.

Lemma agents_have_one_live_run_witness : exists a, agents (ctl ex_parked) !! "a" = Some a /\ length (Runs a) = 1%nat /\ runs_well_formed (Runs a).
Proof.
  destruct (agents (ctl ex_parked) !! "a") as [a|] eqn:E; [|by vm_compute in E]. exists a. split; [done|]. split.
  - vm_compute in E. by injection E as <-.
  - apply (agents_have_one_live_run ex_parked "a" a ex_parked_reachable). by left.
Defined.

(** ** Questions *)

(** The run that asks a pending question is the agent's last, and live. *)
Definition asks_live (ags : gmap string Agent) (aps : gmap string Approval) : Prop :=
  forall id ap, aps !! id = Some ap -> ApStatus ap = ApprovalPending -> Kind ap <> ApprovalEgress ->
  exists a r, ags !! ApAgent ap = Some a /\ last (Runs a) = Some r /\ RunID r = ApRun ap /\ run_done r = false.

Lemma backed_asks_live ags aps : backed ags aps -> (forall k a, ags !! k = Some a -> runs_well_formed (Runs a)) -> asks_live ags aps.
Proof.
  intros Hb Hw id ap Hap Hp Hk. destruct (Hb id ap Hap Hp Hk) as (a & Ha & r & Hr & Hid & Hd).
  apply list_elem_of_lookup_1 in Hr as (i & Hi). destruct (Hw _ a Ha) as (_ & Hl & _ & _).
  exists a, r. split_and!; [done| |done|done]. rewrite last_lookup. rewrite <- (Hl i r Hi Hd). exact Hi.
Qed.

(** C22: A question never outlives the run that asked it: in memory and in the
    database, a pending tool call or elicitation belongs to an agent whose
    last run is that run and is live. *)
Theorem questions_end_with_their_run x : reachable x ->
  asks_live (agents (ctl x)) (approvals (ctl x)) /\ asks_live (agent_rows (ctl x)) (approval_rows (ctl x)).
Proof.
  intros Hr. destruct (reachable_well_formed x Hr) as [Hm Hw]. destruct (inv_backed _ (good_inv _ (reachable_good x Hr))).
  split; by apply backed_asks_live.
Qed.

Lemma questions_end_with_their_run_witness : (exists ap, approvals (ctl ex_parked) !! "ap_1" = Some ap /\ ApStatus ap = ApprovalPending) /\
  asks_live (agents (ctl ex_parked)) (approvals (ctl ex_parked)).
Proof.
  split; [|exact (proj1 (questions_end_with_their_run ex_parked ex_parked_reachable))].
  eexists. split; vm_compute; reflexivity.
Defined.

(** ** Reports *)

(** C10: A report a node was told is taken is never applied again: after any
    later calls, failures and restarts, the same report or an older one of
    that run, sent by whichever node, leaves the control plane as it is. *)
Theorem acknowledged_report_is_taken_once x y o o' now now' tx tx' node node' rep rep' c : reachable x ->
  agentReport o now tx node rep (ctl x) = (Ok tt, c) -> rtc step (with_ctl x c) y ->
  RepAgent rep' = RepAgent rep -> RepRun rep' = RepRun rep -> RepSeq rep' <= RepSeq rep ->
  (agentReport o' now' tx' node' rep' (ctl y)).2 = ctl y.
Proof.
  intros Hr Hrep Hs. pose proof (reachable_good x Hr) as Hg. destruct x as [cx u h]. cbn [ctl] in Hrep.
  assert (good (mkSys c u h)) as Hg'.
  { eapply step_good; [exact Hg|]. pose proof (s_report o now tx node rep (mkSys cx u h)) as Hst. cbn [ctl] in Hst. by rewrite Hrep in Hst. }
  pose proof (report_settles o now tx node rep cx u h c (good_inv _ Hg) Hrep) as Hset.
  apply settled_report. revert Hset. apply (steps_keep (settled (RepAgent rep) (RepRun rep) (RepSeq rep))); [|done|exact Hs].
  intros. by eapply prim_settled.
Qed.

(** The parked question, sent again after the human answered and the process
    restarted. *)
Lemma acknowledged_report_is_taken_once_witness :
  let rep := ex_report 2 (AgentReportParked (Some ex_question)) in
  let y := with_ctl ex_parked (loadAgents (ctl ex_parked)) in
  agentReport ex_options 3 true "n" rep (ctl ex_started) = (Ok tt, ctl ex_parked) /\
  (agentReport ex_options 9 true "n" rep (ctl y)).2 = ctl y.
Proof.
  intros rep y. assert (agentReport ex_options 3 true "n" rep (ctl ex_started) = (Ok tt, ctl ex_parked)) as Hrep by (vm_compute; reflexivity).
  split; [exact Hrep|].
  apply (acknowledged_report_is_taken_once ex_started y ex_options ex_options 3 9 true true "n" "n" rep rep (ctl ex_parked)).
  - exact ex_started_reachable.
  - exact Hrep.
  - apply rtc_once. apply (s_restart (with_ctl ex_started (ctl ex_parked))).
  - reflexivity.
  - reflexivity.
  - lia.
Defined.

(** ** Decisions *)

Lemma decide_kind_taken o now tx normalized subject req c ap c' : keyed ApID (approvals c) ->
  approvalDecide o now tx normalized subject req c = (Ok ap, c') ->
  approvals c' !! req_id req = Some ap /\ exists d, decided_as d ap.
Proof.
  intros Hk. unfold approvalDecide. destruct (approvals c !! req_id req) as [live|] eqn:El; [|done]. step_if; [done|].
  destruct (decide_kind now subject live req) as [d|]; [|done]. cbv zeta.
  destruct (decided_approval_fields o now live d) as (Hsi & Hst & Hdec).
  set (dec := set_ApUpdatedAt now (decided_approval o now live d)). set (c1 := markApprovalDirty now dec c).
  assert (approvals c1 !! req_id req = Some dec) as Hc1.
  { assert (ApID dec = req_id req) as <-; [|apply lookup_insert_eq].
    destruct Hsi as (E' & _). change (ApID (decided_approval o now live d) = req_id req). rewrite E'. by apply Hk. }
  assert (decided_as d dec) as Hd by done.
  destruct (agents c !! ApAgent dec) as [a|].
  - destruct (refreshAgentStatusLocked _ _ _) as [[b ev]|]; [|done]. destruct tx; [|done]. intros Eq.
    assert (dec = ap /\ approvals c1 = approvals c') as [<- <-] by (split; [exact (f_equal (fun p => match p.1 with Ok v => v | Err _ => dec end) Eq)|exact (f_equal (approvals ∘ snd) Eq)]).
    split; [done|by exists d].
  - destruct (match _ with true => _ | false => _ end) as [rs|]; [|done]. destruct tx; [|done]. intros Eq.
    assert (dec = ap /\ approvals c1 = approvals c') as [<- <-].
    { split; [exact (f_equal (fun p => match p.1 with Ok v => v | Err _ => dec end) Eq)|].
      change (approvals c') with ((approvals ∘ snd) (@Ok fault Approval ap, c')). rewrite <- Eq. by destruct rs. }
    split; [done|by exists d].
Qed.

(** C12: A decision the human was told is taken is final: after any later calls,
    failures and restarts the approval is decided, in memory and in the
    database, with that decision, and every further decision on it is refused
    and changes nothing. *)
Theorem accepted_decision_is_final x y o now tx normalized subject req ap c : reachable x ->
  approvalDecide o now tx normalized subject req (ctl x) = (Ok ap, c) ->
  rtc step (mkSys c (used x) (add_human (req_id req) (Ok ap) (humans x))) y ->
  exists d, Decision ap = Some d /\ known (decided_as d) (req_id req) y /\
  forall o' now' tx' normalized' subject' req', req_id req' = req_id req ->
    approvalDecide o' now' tx' normalized' subject' req' (ctl y) = (Err (Fault Lifecycle.CodeConflict), ctl y).
Proof.
  intros Hr Hdec Hs. pose proof (reachable_good x Hr) as Hg.
  destruct (decide_kind_taken _ _ _ _ _ _ _ _ _ (inv_approvals _ (good_inv _ Hg)) Hdec) as (Hap & d & Hd).
  assert (good (mkSys c (used x) (add_human (req_id req) (Ok ap) (humans x)))) as Hg' by (eapply step_good; [exact Hg|by eapply s_decide]).
  pose proof (memory_decided _ (req_id req) ap d Hg' Hap Hd) as Hk.
  pose proof (steps_known _ (decided_as_stable d) (req_id req) _ y Hg' Hs Hk) as Hky. exists d.
  split; [by destruct Hd|]. split; [done|]. intros o' now' tx' normalized' subject' req' E. destruct Hky as [(ap' & Hap' & [Hst _]) _].
  unfold approvalDecide. by rewrite E, Hap', Hst.
Qed.

Definition ex_answered : result fault Approval * Control :=
  approvalDecide ex_options 4 true (Ok []) "human" (ex_decide "ap_1" "yes" false "") (ctl ex_parked).

(** The human says yes; after a restart a second answer is refused. *)
Lemma accepted_decision_is_final_witness : exists ap c, ex_answered = (Ok ap, c) /\
  approvalDecide ex_options 5 true (Ok []) "other" (ex_decide "ap_1" "" true "") (loadAgents c) = (Err (Fault Lifecycle.CodeConflict), loadAgents c).
Proof.
  destruct ex_answered as [r c] eqn:E. destruct r as [ap|e]; [|by vm_compute in E]. exists ap, c. split; [reflexivity|]. unfold ex_answered in E.
  set (y0 := mkSys c (used ex_parked) (add_human "ap_1" (Ok ap) (humans ex_parked))).
  destruct (accepted_decision_is_final ex_parked (with_ctl y0 (loadAgents c)) ex_options 4 true (Ok []) "human"
    (ex_decide "ap_1" "yes" false "") ap c ex_parked_reachable E (rtc_once _ _ (s_restart y0))) as (d & _ & _ & Hfinal).
  exact (Hfinal ex_options 5 true (Ok []) "other" (ex_decide "ap_1" "" true "") eq_refl).
Defined.

(** ** Egress *)

(** The scope in which a decision answers a request. *)
Definition remembers (req : EgressApprovalReq) (ap : Approval) (d : ApprovalDecision) : Prop :=
  (Remember d = "host" /\ Host ap = eg_host req) \/ (Remember d = "rule" /\ Rule ap = eg_rule req).

Definition same_request (req : EgressApprovalReq) (ap : Approval) : Prop :=
  Kind ap = ApprovalEgress /\ ApWS ap = eg_ws req /\ Principal ap = eg_principal req.

Lemma first_match_spec now req order c ap : first_match now req order c = Some ap ->
  (exists k, approvals c !! k = Some ap) /\ same_request req ap /\
  (Fingerprint ap = eg_fingerprint req \/ exists d, decided_as d ap /\ remembers req ap d).
Proof.
  unfold first_match. intros Hh. apply head_Some_elem_of in Hh. apply list_elem_of_filter in Hh as [Hm Hin].
  apply list_elem_of_omap in Hin as (k & _ & Hk). split; [by exists k|]. unfold matches in Hm.
  apply andb_true_iff in Hm as [Hm Hs]. apply andb_true_iff in Hm as [Hm _]. apply andb_true_iff in Hm as [Hm Hp%str_eqb_eq].
  apply andb_true_iff in Hm as [Hkind%bool_decide_eq_true Hws%str_eqb_eq]. split; [done|].
  apply orb_true_iff in Hs as [Hf%str_eqb_eq|Hs]; [by left|right].
  destruct (ApStatus ap) eqn:Est; [done| |done]. destruct (Decision ap) as [d|] eqn:Ed; [|done]. exists d. split; [done|].
  apply andb_true_iff in Hs as [_ Hs]. unfold remembers.
  apply orb_true_iff in Hs as [[Hr%str_eqb_eq Hh%str_eqb_eq]%andb_true_iff|[Hr%str_eqb_eq Hh%str_eqb_eq]%andb_true_iff]; auto.
Qed.

(** The approval a request waits for. *)
Lemma egress_asked o now tx order newID upper node req c id c' : keyed ApID (approvals c) -> keyed Lifecycle.ID (workspaces c) ->
  egressApproval o now tx order newID upper node req c = (Ok id, c') ->
  exists ap, approvals c' !! id = Some ap /\ same_request req ap /\
    (Fingerprint ap = eg_fingerprint req \/ exists d, decided_as d ap /\ remembers req ap d).
Proof.
  intros Hk Hw. unfold egressApproval. do 4 (step_if; [done|]). destruct (workspaces c !! eg_ws req) as [ws|] eqn:Ews; [|done].
  do 2 (step_if; [done|]). destruct (first_match now req order c) as [ap|] eqn:Ef.
  - intros [= <- <-]. apply first_match_spec in Ef as ((k & Hap) & Hreq & Hs). exists ap. by rewrite (Hk k ap Hap).
  - step_if; [done|]. cbv zeta. unfold persistApprovalsOnly. destruct tx; [|done].
    set (ap := new_egress o now newID upper ws req). set (c1 := markApprovalDirty now ap c). intros Eq.
    assert (newID = id) as <- by exact (f_equal (fun p => match p.1 with Ok v => v | Err _ => newID end) Eq).
    assert (approvals c1 = approvals c') as <- by exact (f_equal (approvals ∘ snd) Eq).
    exists (set_ApUpdatedAt now ap). split; [apply lookup_insert_eq|]. split; [|by left]. split_and!; [done| |done]. exact (Hw _ _ Ews).
Qed.

(** C11: A node is told to let a request out only when a human allowed it: the
    approval the request waits for is then decided, as allowed, by a decision
    a human made on that approval, and it was asked for the same workspace and
    principal and either the same request, the same host remembered for the
    host, or the same rule remembered for the rule. *)
Theorem egress_is_allowed_by_a_human x y o now tx order newID upper node req id c st : reachable x ->
  keyed Lifecycle.ID (workspaces (ctl x)) -> approvals (ctl x) !! newID = None ->
  egressApproval o now tx order newID upper node req (ctl x) = (Ok id, c) -> rtc step (with_ctl x c) y ->
  egress_answer (ctl y) id = Ok (st, true) ->
  exists ap d, approvals (ctl y) !! id = Some ap /\ decided_as d ap /\ (id, d) ∈ humans y /\ Denied d = false /\
    same_request req ap /\ (Fingerprint ap = eg_fingerprint req \/ remembers req ap d).
Proof.
  intros Hr Hw Hnew Heg Hs Hans. pose proof (reachable_good x Hr) as Hg.
  assert (good (with_ctl x c)) as Hg'.
  { eapply step_good; [exact Hg|]. pose proof (s_egress o now tx order newID upper node req x Hnew) as Hst. by rewrite Heg in Hst. }
  destruct (egress_asked _ _ _ _ _ _ _ _ _ _ _ (inv_approvals _ (good_inv _ Hg)) Hw Heg) as (ap0 & Hap0 & Hreq & Hscope).
  pose proof (steps_known _ (identity_stable ap0) id _ y Hg' Hs (memory_identity (with_ctl x c) id ap0 Hg' Hap0)) as [(ap & Hap & Hid) _].
  unfold egress_answer in Hans. rewrite Hap in Hans. destruct (ApStatus ap) eqn:Est; [done| |done].
  destruct (Decision ap) as [d|] eqn:Ed; [|done]. assert (Denied d = false) as Hden by (injection Hans; intros Hd _; by apply negb_true_iff in Hd).
  destruct (inv_decided _ (good_inv _ (steps_good _ _ Hg' Hs))) as [Hby _]. destruct (Hby id ap Hap Est) as (d' & Ed' & Hin).
  assert (d' = d) as -> by congruence.
  exists ap, d. destruct Hid as (_ & _ & _ & E1 & E2 & E3 & E4 & E5 & E6). destruct Hreq as (? & ? & ?).
  split_and!; [done|done|done|done|split_and!; congruence|]. destruct Hscope as [?|(d0 & Hd0 & Hrem)]; [left; congruence|right].
  pose proof (steps_known _ (decided_as_stable d0) id _ y Hg' Hs (memory_decided (with_ctl x c) id ap0 d0 Hg' Hap0 Hd0)) as [(ap' & Hap' & [_ Hd']) _].
  assert (d0 = d) as -> by congruence. unfold remembers in *. by rewrite E5, E6.
Qed.

(** The worked example: a request waits, a human allows its host, the request
    goes out. *)
Definition ex_digest (b : ascii) : string := string_of_list_ascii (repeat b 64).
Definition ex_request (fingerprint : ascii) : EgressApprovalReq :=
  mkEgressReq "w" 1 "r" "h" "GET" "p" (ex_digest "a") (ex_digest "b") (ex_digest fingerprint) 0.
Definition ex_ask (x : sys) (now : Z) (order : list string) (newID : string) (fingerprint : ascii) : result fault string * Control :=
  egressApproval ex_options now true order newID "GET" "n" (ex_request fingerprint) (ctl x).
Definition ex_waiting : sys := with_ctl ex_env' (ex_ask ex_env' 1 [] "ap_2" "c").2.
Definition ex_rule (x : sys) (now : Z) (id : string) (denied : bool) (remember : string) : sys :=
  let out := approvalDecide ex_options now true (Ok []) "human" (ex_decide id "" denied remember) (ctl x) in
  mkSys out.2 (used x) (add_human id out.1 (humans x)).

Lemma ex_ask_step x now order newID fingerprint : approvals (ctl x) !! newID = None ->
  step x (with_ctl x (ex_ask x now order newID fingerprint).2).
Proof. apply s_egress. Qed.

Lemma ex_rule_step x now id denied remember : step x (ex_rule x now id denied remember).
Proof.
  apply (s_decide ex_options now true (Ok []) "human" (ex_decide id "" denied remember) x). apply surjective_pairing.
Qed.

Lemma ex_env_reachable : reachable ex_env'.
Proof. apply rtc_once, (s_other ex_env). done. Qed.

Lemma ex_env_keyed : keyed Lifecycle.ID (workspaces (ctl ex_env')).
Proof. intros k w Hk. change (({["w" := ex_workspace]} : gmap string Workspace) !! k = Some w) in Hk. by apply lookup_singleton_Some in Hk as [<- <-]. Qed.

Lemma egress_is_allowed_by_a_human_witness : let y := ex_rule ex_waiting 2 "ap_2" false "none" in
  egress_answer (ctl y) "ap_2" = Ok (ApprovalDecided, true) /\ exists d, ("ap_2", d) ∈ humans y /\ Denied d = false.
Proof.
  intros y. assert (egress_answer (ctl y) "ap_2" = Ok (ApprovalDecided, true)) as Hans by (vm_compute; reflexivity). split; [exact Hans|].
  assert (ex_ask ex_env' 1 [] "ap_2" "c" = (Ok "ap_2", ctl ex_waiting)) as Hask by (vm_compute; reflexivity).
  destruct (egress_is_allowed_by_a_human ex_env' y ex_options 1 true [] "ap_2" "GET" "n" (ex_request "c") "ap_2" (ctl ex_waiting) ApprovalDecided
    ex_env_reachable ex_env_keyed (lookup_empty "ap_2") Hask (rtc_once _ _ (ex_rule_step ex_waiting 2 "ap_2" false "none")) Hans)
    as (ap & d & _ & _ & Hin & Hden & _).
  exists d. exact (conj Hin Hden).
Defined.

(** ** A message that failed *)

Lemma refresh_inbox now c a a' ev : refreshAgentStatusLocked now c a = Ok (a', ev) -> Inbox a' = Inbox a.
Proof.
  unfold refreshAgentStatusLocked. cbv zeta. step_if; [by intros [= <- <-]|].
  destruct (transitionAgent _ _); [done|]. intros Eq.
  assert (forall p q : Agent * list AgentEv, @Ok fault _ p = Ok q -> p = q) as Hinj by congruence. apply Hinj in Eq.
  set (b := if (StatusReason _ =s _) && _ then _ else _) in Eq.
  assert (Inbox b = Inbox a) as Hb by (unfold b; by destruct (_ && _)).
  destruct (deriveAgentStatus _ _ _); try (injection Eq as <- _; exact Hb); destruct (Status a); injection Eq as <- _; exact Hb.
Qed.

Lemma stamped_inbox now a : Inbox (stamped now a) = Inbox a.
Proof. unfold stamped, trimAgentRuns. by destruct (_ <? _)%nat. Qed.

(** The live record has the message, whatever the transaction did. *)
Lemma message_inbox now tx msgID id kind text by_ c a r c' : agents c !! id = Some a -> ID a = id ->
  agentTerminal (Status a) = false -> (length (Inbox a) < MaxAgentInbox)%nat ->
  agentMessage now tx msgID id kind text by_ c = (r, c') ->
  exists a' k, agents c' !! id = Some a' /\ ID a' = id /\ Inbox a' = Inbox a ++ [mkMessage msgID k text by_ now] /\
    (tx = false -> (exists e, r = Err e) /\ agent_rows c' = agent_rows c) /\
    (forall v, r = Ok v -> agent_rows c' !! id = Some a').
Proof.
  intros Ha Eid Ht Hl. unfold agentMessage. rewrite Ha, Ht. step_if; [apply Nat.leb_le in E; lia|]. cbv zeta.
  set (k := if kind =s "steer" then "follow_up" else kind). set (b := set_IdleSince 0 _).
  assert (ID b = id /\ Inbox b = Inbox a ++ [mkMessage msgID k text by_ now]) as [Eb1 Eb2] by done.
  set (sleeping := match workspaces c !! WS a with Some ws => bool_decide (Lifecycle.State ws = Lifecycle.WSPaused) | None => false end).
  destruct (if sleeping then Ok (b, []) else refreshAgentStatusLocked now c b) as [[b' ev]|e] eqn:Er.
  - assert (ID b' = id /\ Inbox b' = Inbox b) as [Ei' Ein'].
    { destruct sleeping; [by injection Er as <- <-|].
      split; [|by eapply refresh_inbox]. apply refresh_frame in Er as [_ ->]. done. }
    assert (ID (stamped now b') = id /\ Inbox (stamped now b') = Inbox a ++ [mkMessage msgID k text by_ now]) as [Es Ein]
      by (rewrite stamped_id, stamped_inbox; by rewrite Ein').
    destruct tx; cbn [commitAgentRows]; intros [= <- <-]; exists (stamped now b'), k.
    + match goal with |- context [if ?b then _ else _] => destruct b end; cbn; rewrite !Es, !lookup_insert_eq; by split_and!.
    + cbn. rewrite Es, lookup_insert_eq. split_and!; try done. intros _. split; [by eexists|done].
  - intros [= <- <-]. exists b, k. cbn [agents put_agent set_agents]. rewrite Eb1, lookup_insert_eq. split_and!; try done.
    intros _. split; [by eexists|done].
Qed.

(** The message of a request whose transaction fails is queued all the
    same: the caller is told it failed, and when it tries again the agent's
    row has the text twice. *)
Theorem failed_message_is_queued_twice x id a now m1 kind text by_ : reachable x -> agents (ctl x) !! id = Some a ->
  agentTerminal (Status a) = false -> (S (length (Inbox a)) < MaxAgentInbox)%nat ->
  let '(r, c1) := agentMessage now false m1 id kind text by_ (ctl x) in
  (exists e, r = Err e) /\ agent_rows c1 = agent_rows (ctl x) /\
  exists a1, agents c1 !! id = Some a1 /\ map Text (Inbox a1) = map Text (Inbox a) ++ [text] /\
  forall now' m2 v c2, agentTerminal (Status a1) = false -> agentMessage now' true m2 id kind text by_ c1 = (Ok v, c2) ->
    exists a2, agent_rows c2 !! id = Some a2 /\ map Text (Inbox a2) = map Text (Inbox a) ++ [text; text].
Proof.
  intros Hr Ha Ht Hl. pose proof (inv_agents _ (good_inv _ (reachable_good x Hr)) _ _ Ha) as Eid.
  destruct (agentMessage now false m1 id kind text by_ (ctl x)) as [r c1] eqn:E1.
  destruct (message_inbox _ _ _ _ _ _ _ _ _ _ _ Ha Eid Ht ltac:(lia) E1) as (a1 & k & Ha1 & Eid1 & Ein1 & Hf & _).
  destruct (Hf eq_refl) as [He Hrows]. split_and!; [done|done|]. exists a1. split; [done|]. split; [by rewrite Ein1, map_app|].
  intros now' m2 v c2 Ht1 E2.
  destruct (message_inbox _ _ _ _ _ _ _ _ _ _ _ Ha1 Eid1 Ht1 ltac:(rewrite Ein1, length_app; cbn; lia) E2) as (a2 & k2 & _ & _ & Ein2 & _ & Hok).
  exists a2. split; [by eapply Hok|]. rewrite Ein2, Ein1, !map_app, <- (assoc_L (++)). done.
Qed.

Definition ex_send (now : Z) (tx : bool) (m : string) (c : Control) : result fault (AgentMessage * bool) * Control :=
  agentMessage now tx m "a" "follow_up" "go" "own" c.

(** The storage fails, the caller tries again. *)
Lemma failed_message_is_queued_twice_witness : let c1 := (ex_send 4 false "m2" (ctl ex_started)).2 in
  exists v c2 a2, ex_send 5 true "m3" c1 = (Ok v, c2) /\ agent_rows c2 !! "a" = Some a2 /\ map Text (Inbox a2) = ["hi"; "go"; "go"].
Proof.
  destruct (agents (ctl ex_started) !! "a") as [a|] eqn:Ea; [|by vm_compute in Ea].
  assert (agentTerminal (Status a) = false /\ (S (length (Inbox a)) < MaxAgentInbox)%nat /\ map Text (Inbox a) = ["hi"]) as (Ht & Hl & Hin)
    by (vm_compute in Ea; injection Ea as <-; vm_compute; split_and!; [reflexivity|lia|reflexivity]).
  pose proof (failed_message_is_queued_twice ex_started "a" a 4 "m2" "follow_up" "go" "own" ex_started_reachable Ea Ht Hl) as Hf.
  cbv zeta. change (ex_send 4 false "m2" (ctl ex_started)) with (agentMessage 4 false "m2" "a" "follow_up" "go" "own" (ctl ex_started)).
  destruct (agentMessage 4 false "m2" "a" "follow_up" "go" "own" (ctl ex_started)) as [r c1] eqn:E1.
  destruct Hf as (_ & _ & a1 & Ha1 & _ & Hretry).
  cbn [snd]. destruct (ex_send 5 true "m3" c1) as [r2 c2] eqn:E2.
  vm_compute in E1. injection E1 as _ <-. destruct r2 as [v|e]; [|by vm_compute in E2].
  assert (agentTerminal (Status a1) = false) as Ht1 by (vm_compute in Ha1; injection Ha1 as <-; reflexivity).
  destruct (Hretry 5 "m3" v c2 Ht1 E2) as (a2 & Ha2 & Ein2). exists v, c2, a2. rewrite Ein2, Hin. split_and!; [reflexivity|exact Ha2|reflexivity].
Defined.

(** ** Which approval answers *)

(** One request denied, another allowed for its rule. *)
Definition ex_denied : sys := ex_rule ex_waiting 2 "ap_2" true "none".
Definition ex_second : sys := with_ctl ex_denied (ex_ask ex_denied 3 ["ap_2"] "ap_3" "d").2.
Definition ex_both : sys := ex_rule ex_second 4 "ap_3" false "rule".

Lemma ex_both_reachable : reachable ex_both.
Proof.
  eapply rtc_l; [apply (s_other ex_env); done|]. fold ex_env'.
  eapply rtc_l; [apply (ex_ask_step ex_env' 1 [] "ap_2" "c"); vm_compute; reflexivity|].
  eapply rtc_l; [apply (ex_rule_step ex_waiting 2 "ap_2" true "none")|].
  eapply rtc_l; [apply (ex_ask_step ex_denied 3 ["ap_2"] "ap_3" "d"); vm_compute; reflexivity|].
  apply rtc_once, (ex_rule_step ex_second 4 "ap_3" false "rule").
Qed.

(** Whether a request that a human denied goes out depends on the order in
    which a map is iterated: when another request of the rule was allowed for
    the rule, the denied one, sent again, is answered by its own denial in one
    order of the same two approvals and by the other's approval in the
    other. *)
Theorem denied_request_may_go_out : exists x req o now newID upper node a b, reachable x /\
  elements (dom (approvals (ctl x))) ≡ₚ [a; b] /\
  (exists d, (a, d) ∈ humans x /\ Denied d = true) /\
  (exists ap, approvals (ctl x) !! a = Some ap /\ Fingerprint ap = eg_fingerprint req) /\
  egressApproval o now true [a; b] newID upper node req (ctl x) = (Ok a, ctl x) /\
  egress_answer (ctl x) a = Ok (ApprovalDecided, false) /\
  egressApproval o now true [b; a] newID upper node req (ctl x) = (Ok b, ctl x) /\
  egress_answer (ctl x) b = Ok (ApprovalDecided, true).
Proof.
  exists ex_both, (ex_request "c"), ex_options, 5, "ap_4", "GET", "n", "ap_2", "ap_3". split; [exact ex_both_reachable|].
  split_and!; try (vm_compute; reflexivity).
  - vm_compute. first [reflexivity|apply Permutation_swap].
  - exists (mkDecision "deny" true "" "human" 2 "none"). split; [|reflexivity]. vm_compute. right. left.
  - eexists. split; vm_compute; reflexivity.
Qed.
End AgentSystem.
