(* ===== verification/Delegation.v ===== *)
(** * What a child agent may be given

    Translation of [NormalizeSecurity] and what it calls
    ([src/internal/proto/proto.go], [src/internal/proto/repo.go]) and of the
    checks of [src/internal/control/agents.go] that bound a child agent by its
    parent: [policyWithin], [inheritFromParent] and [securityWithin].  What a
    contract lets out is decided by the proxy of [Broker], and on its git
    surface also by the repository the workspace declares ([gitProxy],
    [implicitGitRule] of [src/internal/broker/broker.go]).

    Texts are byte strings.  [url.Parse], [net.IP.String], [regexp.Compile] and trimming
    outside ASCII are fields of a class; a specification keeps the fields these
    functions read or write. *)

From Stdlib Require Import ZArith Lia Strings.String Strings.Byte.
From stdpp Require Import base gmap strings option list.
From S2P Require Import Prelude GoStd Lifecycle Broker.
#[local] Open Scope Z_scope.

Module Delegation.
Import Lifecycle(Code, CodeBadRequest, CodeDenied).
Import Broker(text, T, Codecs, ascii, ToLower, ToUpper, HasPrefix, HasSuffix, TrimPrefix, TrimSuffix, SplitHostPort,
  ParseUint16, Itoa, JoinHostPort, clean_rooted, valid_label, split_at, has_byte, ParseIP, Index).

Notation "a =t b" := (bool_decide (a = b :> text)) (at level 70, no associativity) : remount_scope.

(** The parts of a parsed [url.URL] the source reads; [UUser] says whether it
    has userinfo. *)
Record URL := mkURL {
  UScheme : text; UUser : bool; URawQuery : text; UFragment : text; UOpaque : text; UHost : text; UEscapedPath : text }.

Class Platform := {
  (** [url.Parse] *)
  url_parse : text -> option URL;
  (** the canonical form of an address [net.ParseIP] accepts *)
  canonicalIP : text -> text;
  (** whether [regexp.Compile] accepts an expression *)
  compiles : text -> bool;
  (** [strings.TrimSpace] outside ASCII *)
  unicode_trim : text -> text }.

(** ** Contracts *)

Record EgressRule := mkRule {
  RuleID : text; Mode : text; Connector : text; Protocol : text; Hosts : list text; Ports : list Z; Methods : list text;
  PathPrefixes : list text; MaxRequests : Z; MaxRequestBytes : Z; MaxResponseBytes : Z; Redact : list text;
  SharedState : text; Repos : list text; Push : bool }.

#[export] Instance EgressRule_eq_dec : EqDecision EgressRule.
Proof. solve_decision. Defined.

(** [Network] and [Audit] are inlined. *)
Record SecuritySpec := mkSecurity {
  Profile : text; MinIsolation : text; RequireSiblingIsolation : bool; RequireEnforcedEgress : bool; SecretMode : text;
  Default : text; Rules : list EgressRule; AuditRequired : bool }.

Definition SecurityLocal : text := T "local".
Definition SecurityIsolated : text := T "isolated".
Definition SecurityMultiTenant : text := T "multi_tenant".
Definition NetworkDefaultDeny : text := T "deny".
Definition NetworkDefaultAllow : text := T "allow".
Definition EgressConnectorPackage : text := T "package".
Definition EgressConnectorGit : text := T "git".
Definition SharedStateNone : text := T "none".
Definition SharedStateImmutableRead : text := T "immutable_read".
Definition SharedStateScopedWrite : text := T "scoped_write".
Definition SharedStateGlobalWrite : text := T "global_write".

Definition ProfileRank (profile : text) : Z :=
  if profile =t SecurityLocal then 0
  else if profile =t SecurityIsolated then 1
  else if profile =t SecurityMultiTenant then 2 else -1.

Definition IsolationRank (s : text) : Z :=
  if (s =t T "none") || (s =t []) then 0
  else if s =t T "process_sandbox" then 1
  else if s =t T "container" then 2
  else if s =t T "microvm" then 3 else -1.

Definition require (b : bool) (e : Code) : result Code unit := if b then Ok tt else Err e.

Fixpoint each {A B} (f : A -> result Code B) (l : list A) : result Code (list B) :=
  match l with
  | [] => Ok []
  | x :: t => let? y := f x in let? ys := each f t in Ok (y :: ys)
  end.

(** [strings.ContainsAny] of ASCII characters. *)
Definition ContainsAny (s chars : text) : bool := existsb (fun b => bool_decide (b ∈ chars)) s.

Definition Count (b : byte) (s : text) : nat := length (filter (fun c => c = b) s).

Definition less (a b : text) : bool := String.ltb (string_of_list_byte a) (string_of_list_byte b).

Section normalize.
Context `{Codecs} `{Platform}.

Definition TrimSpace (s : text) : text :=
  if ascii s then map byte_of (GoStd.TrimSpace (map byte_val s)) else unicode_trim s.

(** ** Rules *)

Definition validEgressDNSName (host : text) : bool :=
  if (host =t []) || (253 <? length host)%nat || HasPrefix host (T ".") || HasSuffix host (T ".") then false
  else forallb valid_label (split_at x2e host).

(** The host and port of a pattern, or an error. *)
Definition split_pattern (raw : text) : result Code (text * text) :=
  match SplitHostPort raw with
  | Some hp => Ok hp
  | None =>
      if HasPrefix raw (T "[")
      then if HasSuffix raw (T "]") then Ok (TrimSuffix (TrimPrefix raw (T "[")) (T "]"), []) else Err CodeBadRequest
      else if (Count x3a raw =? 1)%nat then Err CodeBadRequest
      else if (1 <? Count x3a raw)%nat && negb (ParseIP raw) then Err CodeBadRequest
      else Ok (raw, [])
  end.

Definition normal_port (port : text) : result Code text :=
  if port =t [] then Ok []
  else match ParseUint16 port with
       | Some n => if n =? 0 then Err CodeBadRequest else Ok (Itoa n)
       | None => Err CodeBadRequest
       end.

(** A host without its port. *)
Definition normal_host (host : text) : result Code text :=
  let host := TrimSuffix host (T ".") in
  if host =t T "*" then Ok host
  else
    let wildcard := HasPrefix host (T "*.") in
    if negb wildcard && has_byte x2a host then Err CodeBadRequest
    else
      let name := if wildcard then TrimPrefix host (T "*.") else host in
      if name =t T "*" then Ok (T "*." ++ name)
      else if ParseIP name then if wildcard then Err CodeBadRequest else Ok (canonicalIP name)
      else if negb (validEgressDNSName name) then Err CodeBadRequest
      else Ok (if wildcard then T "*." ++ name else name).

Definition normalizeEgressHostPattern (raw : text) : result Code text :=
  let raw := ToLower (TrimSpace raw) in
  let? _ := require (negb (raw =t []) && negb (ContainsAny raw (T "/?#@\%" ++ [x00; x09; x0d; x0a; x20]))) CodeBadRequest in
  let? _ := require (ascii raw) CodeBadRequest in
  let? (host, port) := split_pattern raw in
  let? _ := require (negb (HasSuffix raw (T ":") && (port =t []))) CodeBadRequest in
  let? port := normal_port port in
  let? host := normal_host host in
  Ok (if port =t [] then host
      else if has_byte x3a host then JoinHostPort host port else host ++ T ":" ++ port).

Definition normal_method (method : text) : result Code text :=
  let method := ToUpper (TrimSpace method) in
  if (method =t []) || ContainsAny method [x20; x09; x0d; x0a] then Err CodeBadRequest else Ok method.

Definition prefix_ok (prefix : text) : bool :=
  let cleanTarget := if (1 <? length prefix)%nat then TrimSuffix prefix (T "/") else prefix in
  negb (prefix =t []) && HasPrefix prefix (T "/") && negb (ContainsAny prefix (T "?#\%" ++ [x00]))
  && (clean_rooted cleanTarget =t cleanTarget).

Definition redaction_ok (expression : text) : bool :=
  negb (expression =t []) && (length expression <=? 4096)%nat && compiles expression.

Definition repo_byte (b : byte) : bool :=
  let v := byte_val b in
  GoStd.in_range 0x61 0x7A v || GoStd.in_range 0x41 0x5A v || GoStd.in_range 0x30 0x39 v || (v =? 0x2E) || (v =? 0x5F) || (v =? 0x2D).

Definition ValidRepoSegment (s : text) : bool :=
  negb (s =t []) && (length s <=? 255)%nat && negb (HasPrefix s (T ".")) && negb (HasPrefix s (T "-")) && forallb repo_byte s.

Definition ValidateRepoPattern (pattern : text) : bool :=
  match Index pattern (T "/") with
  | None => false
  | Some i =>
      let name := drop (S i) pattern in
      ValidRepoSegment (take i pattern) && ((name =t T "*") || ValidRepoSegment name)
  end.

Definition normal_repo (pattern : text) : result Code text :=
  let pattern := TrimSpace pattern in if ValidateRepoPattern pattern then Ok pattern else Err CodeBadRequest.

(** The methods of a CONNECT rule. *)
Definition connect_methods (rule : EgressRule) (protocol connector shared : text) (methods : list text) : result Code (list text) :=
  if negb (protocol =t Broker.EgressProtocolConnect) then Ok methods
  else
    let? _ := require (connector =t []) CodeBadRequest in
    let? _ := require (bool_decide (PathPrefixes rule = []) && (MaxRequestBytes rule =? 0) && (MaxResponseBytes rule =? 0)) CodeBadRequest in
    let? _ := require (shared =t SharedStateNone) CodeBadRequest in
    let? _ := require (forallb (fun m => m =t T "CONNECT") methods) CodeBadRequest in
    Ok (if bool_decide (methods = []) then [T "CONNECT"] else methods).

Definition immutable_methods (shared : text) (methods : list text) : result Code (list text) :=
  if negb (shared =t SharedStateImmutableRead) then Ok methods
  else
    let methods := if bool_decide (methods = []) then [T "GET"; T "HEAD"] else methods in
    let? _ := require (forallb (fun m => (m =t T "GET") || (m =t T "HEAD")) methods) CodeBadRequest in Ok methods.

Definition package_ok (rule : EgressRule) (protocol connector shared : text) : result Code unit :=
  if negb (connector =t EgressConnectorPackage) then Ok tt
  else
    let? _ := require (protocol =t Broker.EgressProtocolHTTPS) CodeBadRequest in
    let? _ := require (shared =t SharedStateImmutableRead) CodeBadRequest in
    require (MaxRequestBytes rule =? 0) CodeBadRequest.

Definition git_rule (rule : EgressRule) (protocol connector shared : text) (methods : list text)
  : result Code (list text * list text) :=
  if negb (connector =t EgressConnectorGit) then Ok (Repos rule, methods)
  else
    let? _ := require (protocol =t Broker.EgressProtocolHTTPS) CodeBadRequest in
    let? _ := require (negb (bool_decide (Repos rule = []))) CodeBadRequest in
    let? repos := each normal_repo (Repos rule) in
    let? _ := require (bool_decide (PathPrefixes rule = [])) CodeBadRequest in
    let methods := if bool_decide (methods = []) then [T "GET"; T "POST"] else methods in
    let? _ := require (forallb (fun m => (m =t T "GET") || (m =t T "POST")) methods) CodeBadRequest in
    let? _ := require (negb (shared =t SharedStateImmutableRead)) CodeBadRequest in
    Ok (repos, methods).

Definition shared_of (rule : EgressRule) (connector : text) : text :=
  if SharedState rule =t []
  then if connector =t EgressConnectorPackage then SharedStateImmutableRead else SharedStateNone
  else SharedState rule.

(** [seen] are the ids of the rules before. *)
Definition normalizeEgressRule (rule : EgressRule) (seen : list text) : result Code EgressRule :=
  let id := TrimSpace (RuleID rule) in
  let? _ := require (negb (id =t [])) CodeBadRequest in
  let? _ := require (negb (bool_decide (id ∈ seen))) CodeBadRequest in
  let given := ToLower (TrimSpace (Mode rule)) in
  let mode := if given =t [] then Broker.EgressModeAllow else given in
  let? _ := require (bool_decide (mode ∈ [Broker.EgressModeAllow; Broker.EgressModeDeny; Broker.EgressModeApprove])) CodeBadRequest in
  let protocol := ToLower (TrimSpace (Protocol rule)) in
  let connector := ToLower (TrimSpace (Connector rule)) in
  let? _ := require (bool_decide (connector ∈ [[]; EgressConnectorPackage; EgressConnectorGit])) CodeBadRequest in
  let? _ := require ((connector =t EgressConnectorGit) || (bool_decide (Repos rule = []) && negb (Push rule))) CodeBadRequest in
  let? _ := require (bool_decide (protocol ∈ [Broker.EgressProtocolHTTP; Broker.EgressProtocolHTTPS; Broker.EgressProtocolConnect])) CodeBadRequest in
  let? _ := require (negb (bool_decide (Hosts rule = []))) CodeBadRequest in
  let? hosts := each normalizeEgressHostPattern (Hosts rule) in
  let? _ := require (forallb (fun p => negb (p =? 0)) (Ports rule)) CodeBadRequest in
  let? methods := each normal_method (Methods rule) in
  let? _ := require (forallb prefix_ok (PathPrefixes rule)) CodeBadRequest in
  let? _ := require ((0 <=? MaxRequests rule) && (0 <=? MaxRequestBytes rule) && (0 <=? MaxResponseBytes rule)) CodeBadRequest in
  let? _ := require (length (Redact rule) <=? 16)%nat CodeBadRequest in
  let? _ := require (bool_decide (Redact rule = []) || negb ((protocol =t Broker.EgressProtocolConnect) || negb (connector =t []))) CodeBadRequest in
  let? _ := require (forallb redaction_ok (Redact rule)) CodeBadRequest in
  let shared := shared_of rule connector in
  let? _ := require (bool_decide (shared ∈ [SharedStateNone; SharedStateImmutableRead; SharedStateScopedWrite; SharedStateGlobalWrite])) CodeBadRequest in
  let? methods := connect_methods rule protocol connector shared methods in
  let? methods := immutable_methods shared methods in
  let? _ := package_ok rule protocol connector shared in
  let? (repos, methods) := git_rule rule protocol connector shared methods in
  Ok (mkRule id mode connector protocol hosts (sort_by Z.ltb (Ports rule)) (sort_by less methods) (PathPrefixes rule)
        (MaxRequests rule) (MaxRequestBytes rule) (MaxResponseBytes rule) (Redact rule) shared repos (Push rule)).

Fixpoint normal_rules (l : list EgressRule) (seen : list text) : result Code (list EgressRule) :=
  match l with
  | [] => Ok []
  | r :: t =>
      let? n := normalizeEgressRule r seen in
      let? ns := normal_rules t (RuleID n :: seen) in
      Ok (n :: ns)
  end.

(** ** Security contracts *)

Definition or_else (v d : text) : text := if v =t [] then d else v.

(** The defaults of the profile. *)
Definition profile_defaults (s : SecuritySpec) : result Code SecuritySpec :=
  let profile := or_else (Profile s) SecurityLocal in
  if profile =t SecurityLocal
  then Ok (mkSecurity profile (or_else (MinIsolation s) (T "none")) (RequireSiblingIsolation s) (RequireEnforcedEgress s)
             (SecretMode s) (Default s) (Rules s) (AuditRequired s))
  else if profile =t SecurityIsolated
  then Ok (mkSecurity profile (or_else (MinIsolation s) (T "container")) (RequireSiblingIsolation s) true
             (or_else (SecretMode s) (T "brokered")) (or_else (Default s) NetworkDefaultDeny) (Rules s) true)
  else if profile =t SecurityMultiTenant
  then Ok (mkSecurity profile (or_else (MinIsolation s) (T "microvm")) true true (or_else (SecretMode s) (T "brokered"))
             NetworkDefaultDeny (Rules s) true)
  else Err CodeBadRequest.

Definition NormalizeSecurity (s : SecuritySpec) : result Code SecuritySpec :=
  let? s := profile_defaults s in
  let? _ := require (0 <=? IsolationRank (MinIsolation s)) CodeBadRequest in
  let? _ := require (bool_decide (SecretMode s ∈ [[]; T "none"; T "brokered"])) CodeBadRequest in
  let dflt := if bool_decide (Rules s <> []) && (Default s =t []) then NetworkDefaultDeny else Default s in
  let? _ := require (bool_decide (dflt ∈ [[]; NetworkDefaultDeny; NetworkDefaultAllow])) CodeBadRequest in
  let? _ := require ((Profile s =t SecurityLocal) || negb (dflt =t NetworkDefaultAllow)) CodeDenied in
  let? rules := normal_rules (Rules s) [] in
  Ok (mkSecurity (Profile s) (MinIsolation s) (RequireSiblingIsolation s) (RequireEnforcedEgress s) (SecretMode s) dflt
        rules (AuditRequired s)).

(** ** Within the parent *)

(** The comparison of two normalized contracts. *)
Definition contract_within (c p : SecuritySpec) : result Code unit :=
  let? _ := require (ProfileRank (Profile p) <=? ProfileRank (Profile c)) CodeDenied in
  let? _ := require (IsolationRank (MinIsolation p) <=? IsolationRank (MinIsolation c)) CodeDenied in
  let? _ := require (negb (RequireSiblingIsolation p) || RequireSiblingIsolation c) CodeDenied in
  let? _ := require (negb (RequireEnforcedEgress p) || RequireEnforcedEgress c) CodeDenied in
  let? _ := require (negb (SecretMode p =t T "brokered") || (SecretMode c =t T "brokered")) CodeDenied in
  let? _ := require (negb (AuditRequired p) || AuditRequired c) CodeDenied in
  let? _ := require (negb (Default p =t NetworkDefaultDeny) || (Default c =t NetworkDefaultDeny)) CodeDenied in
  if (Default p =t NetworkDefaultDeny) || bool_decide (Rules p <> [])
  then require (forallb (fun rule => bool_decide (rule ∈ Rules p)) (Rules c)) CodeDenied
  else Ok tt.

Definition securityWithin (child parent : SecuritySpec) : result Code unit :=
  let? c := NormalizeSecurity child in
  let? p := NormalizeSecurity parent in
  contract_within c p.

Definition securityUnset (s : SecuritySpec) : bool :=
  (Profile s =t []) && (MinIsolation s =t []) && negb (RequireSiblingIsolation s) && negb (RequireEnforcedEgress s)
  && (SecretMode s =t []) && (Default s =t []) && bool_decide (Rules s = []) && negb (AuditRequired s).

Definition subtractSet (a b : list text) : list text := filter (fun x => x ∉ b) a.

(** What the checks read of an agent's specification, a workspace's and a
    request. *)
Record AgentSpec := mkAgentSpec {
  Providers : list text; Primary : text; BindingSpecs : list text; Sandbox : text }.

(** [Repo] is [Repo.URL]. *)
Record WorkspaceSpec := mkWorkspaceSpec { Bindings : list text; Security : SecuritySpec; Repo : text }.

Record AgentCreateReq := mkCreate { Spec : AgentSpec; WS : text; Workspace : option WorkspaceSpec }.

Definition no_security : SecuritySpec := mkSecurity [] [] false false [] [] [] false.

(** A list left empty is the parent's; another one must be within it. *)
Definition inherit_list (mine parents : list text) : result Code (list text) :=
  if bool_decide (mine = []) then Ok parents
  else if bool_decide (subtractSet mine parents = []) then Ok mine else Err CodeDenied.

Definition inherit_workspace (req parentWS : WorkspaceSpec) : result Code WorkspaceSpec :=
  let? bindings := inherit_list (Bindings req) (Bindings parentWS) in
  if securityUnset (Security req) then Ok (mkWorkspaceSpec bindings (Security parentWS) (Repo req))
  else let? _ := securityWithin (Security req) (Security parentWS) in Ok (mkWorkspaceSpec bindings (Security req) (Repo req)).

Definition inheritFromParent (req : AgentCreateReq) (parent : AgentSpec) (parentWS : option WorkspaceSpec) : result Code AgentCreateReq :=
  let spec := Spec req in
  let? providers := inherit_list (Providers spec) (Providers parent) in
  let primary := if bool_decide (Providers spec = []) && (Primary spec =t []) then Primary parent else Primary spec in
  let? bindingSpecs := inherit_list (BindingSpecs spec) (BindingSpecs parent) in
  let? _ := require ((primary =t []) || bool_decide (primary ∈ providers)) CodeBadRequest in
  let spec := mkAgentSpec providers primary bindingSpecs (or_else (Sandbox spec) (Sandbox parent)) in
  match parentWS with
  | None => Ok (mkCreate spec (WS req) (Workspace req))
  | Some pws =>
      if negb (WS req =t []) then Ok (mkCreate spec (WS req) (Workspace req))
      else
        let? ws := inherit_workspace (default (mkWorkspaceSpec [] no_security []) (Workspace req)) pws in
        Ok (mkCreate spec (WS req) (Some ws))
  end.

(** ** Policies *)

Record AgentPolicy := mkPolicy { SleepAfterSec : Z; Approve : text; MaxTurns : Z; StartAt : Z }.

Definition ApproveNever : text := T "never".
Definition ApproveOnRequest : text := T "on-request".
Definition ApproveAuto : text := T "auto".

Definition validateAgentPolicy (p : AgentPolicy) : result Code unit :=
  let? _ := require (bool_decide (Approve p ∈ [[]; ApproveNever; ApproveAuto; ApproveOnRequest])) CodeBadRequest in
  let? _ := require (0 <=? SleepAfterSec p) CodeBadRequest in
  let? _ := require (0 <=? MaxTurns p) CodeBadRequest in
  require (0 <=? StartAt p) CodeBadRequest.

(** A key the map does not have is zero. *)
Definition approve_rank (a : text) : Z := if a =t ApproveOnRequest then 1 else if a =t ApproveAuto then 2 else 0.

Definition policyWithin (child parent : AgentPolicy) : result Code unit :=
  if approve_rank (Approve parent) <? approve_rank (Approve child) then Err CodeDenied
  else if (0 <? MaxTurns parent) && ((MaxTurns child =? 0) || (MaxTurns parent <? MaxTurns child)) then Err CodeDenied
  else Ok tt.

Definition normalizeAgentPolicy (p : AgentPolicy) : AgentPolicy :=
  mkPolicy (SleepAfterSec p) (or_else (Approve p) ApproveOnRequest) (MaxTurns p) (StartAt p).

(** ** What the proxy of a workspace is configured with *)

Definition broker_rule (r : EgressRule) : Broker.EgressRule :=
  Broker.mkRule (RuleID r) (Mode r) (Connector r) (Protocol r) (Hosts r) (Ports r) (Methods r) (PathPrefixes r)
    (MaxRequests r) (MaxRequestBytes r) (SharedState r).

Definition network (s : SecuritySpec) : Broker.NetworkPolicy := Broker.mkPolicy (Default s) (map broker_rule (Rules s)).

(** [strings.Trim(s, "/")] *)
Fixpoint trim_slashes (s : text) : text :=
  match s with [] => [] | b :: t => if bool_decide (b = x2f) then trim_slashes t else s end.

Definition TrimSlashes (s : text) : text := rev (trim_slashes (rev (trim_slashes s))).

(** The canonical URL, the host and the repository. *)
Definition ParseRepoURL (raw : text) : result Code (text * text * text) :=
  let raw := TrimSpace raw in
  let? _ := require (negb (raw =t [])) CodeBadRequest in
  let? _ := require (length raw <=? 1024)%nat CodeBadRequest in
  let raw := if Broker.Contains raw (T "://") then raw else T "https://" ++ raw in
  match url_parse raw with
  | None => Err CodeBadRequest
  | Some u =>
      let? _ := require (UScheme u =t T "https") CodeBadRequest in
      let? _ := require (negb (UUser u) && (URawQuery u =t []) && (UFragment u =t []) && (UOpaque u =t [])) CodeBadRequest in
      let host := ToLower (UHost u) in
      let? _ := require (negb (host =t []) && negb (ContainsAny host ([x20; x09; x0d; x0a] ++ T "\%"))) CodeBadRequest in
      match split_at x2f (TrimSlashes (UEscapedPath u)) with
      | [owner; name] =>
          let name := TrimSuffix name (T ".git") in
          let? _ := require (ValidRepoSegment owner && ValidRepoSegment name) CodeBadRequest in
          let ownerRepo := owner ++ T "/" ++ name in
          Ok (T "https://" ++ host ++ T "/" ++ ownerRepo, host, ownerRepo)
      | _ => Err CodeBadRequest
      end
  end.

Definition hasTypedGitRule (policy : Broker.NetworkPolicy) : bool :=
  existsb (fun r => Broker.Connector r =t EgressConnectorGit) (Broker.Rules policy).

(** The repository of the rule ([Repos], [Push]) is left to the connector. *)
Definition implicitGitRule (repo authority : text) : option Broker.EgressRule :=
  if repo =t [] then None
  else match ParseRepoURL repo with
  | Err _ => None
  | Ok (_, host, _) =>
      if Broker.hostMatches authority [host]
      then Some (Broker.mkRule (T "repo") [] EgressConnectorGit Broker.EgressProtocolHTTPS [host] []
                   [T "GET"; T "POST"] [] 0 0 SharedStateNone)
      else None
  end.

(** What [gitProxy] decides about a request before the connector sees it. *)
Definition git_policy (policy : Broker.NetworkPolicy) (repo authority method path : text) (b : Broker.broker)
  : Broker.policyAuthorization * Broker.broker :=
  if hasTypedGitRule policy
  then Broker.authorizePolicy policy EgressConnectorGit Broker.EgressProtocolHTTPS authority method path b
  else match implicitGitRule repo authority with
  | None => (Broker.mkAuthorization true false Broker.no_rule "no repository is declared for this host" false, b)
  | Some r => (Broker.mkAuthorization true true r "" false, b)
  end.
End normalize.

(** ** The guarantees *)

Section proofs.
Context `{Codecs} `{Platform}.

(** A computation that succeeded passed its first check. *)
Lemma require_ok {A} b e (k : result Code A) r : (let? _ := require b e in k) = Ok r -> b = true /\ k = Ok r.
Proof. unfold require. by destruct b. Qed.

Ltac passed Hr := repeat (apply require_ok in Hr as [? Hr]).

(** No axis of [c] that the check compares is weaker than that of [p]; rules
    are compared as sets. *)
Record no_weaker (c p : SecuritySpec) : Prop := mkNoWeaker {
  nw_profile : ProfileRank (Profile p) <= ProfileRank (Profile c);
  nw_isolation : IsolationRank (MinIsolation p) <= IsolationRank (MinIsolation c);
  nw_sibling : RequireSiblingIsolation p = true -> RequireSiblingIsolation c = true;
  nw_egress : RequireEnforcedEgress p = true -> RequireEnforcedEgress c = true;
  nw_secrets : SecretMode p = T "brokered" -> SecretMode c = T "brokered";
  nw_audit : AuditRequired p = true -> AuditRequired c = true;
  nw_default : Default p = NetworkDefaultDeny -> Default c = NetworkDefaultDeny;
  nw_rules : Default p = NetworkDefaultDeny \/ Rules p <> [] -> Rules c ⊆ Rules p }.

#[export] Instance no_weaker_refl : Reflexive no_weaker.
Proof. intros s. split; try lia; done. Qed.

Lemma implied a b : negb a || b = true -> a = true -> b = true.
Proof. by destruct a, b. Qed.

Lemma contract_within_ok c p : contract_within c p = Ok tt -> no_weaker c p.
Proof.
  unfold contract_within. intros Hr. passed Hr. bool_hyp.
  split; [lia|lia|by apply implied|by apply implied| |by apply implied| |].
  - intros E. assert (Hb : negb (SecretMode p =t T "brokered") || (SecretMode c =t T "brokered") = true) by done.
    rewrite (bool_decide_true (SecretMode p = _)) in Hb by done. by apply bool_decide_eq_true in Hb.
  - intros E. assert (Hb : negb (Default p =t NetworkDefaultDeny) || (Default c =t NetworkDefaultDeny) = true) by done.
    rewrite (bool_decide_true (Default p = _)) in Hb by done. by apply bool_decide_eq_true in Hb.
  - intros Hor. assert ((Default p =t NetworkDefaultDeny) || bool_decide (Rules p <> []) = true) as Hc.
    { apply orb_true_iff. destruct Hor; [left|right]; by apply bool_decide_eq_true. }
    rewrite Hc in Hr. unfold require in Hr. destruct (forallb _ _) eqn:Ef; [|done]. intros r Hin%list_elem_of_In.
    apply (proj1 (forallb_forall _ _) Ef) in Hin. by apply bool_decide_eq_true in Hin.
Qed.

Lemma inherit_list_ok mine parents l : inherit_list mine parents = Ok l -> l ⊆ parents.
Proof.
  unfold inherit_list. step_if; [by intros [= <-]|]. step_if; [|done]. intros [= <-]. apply bool_decide_eq_true in E0.
  intros x Hx. destruct (decide (x ∈ parents)) as [|Hn]; [done|]. exfalso.
  assert (x ∈ subtractSet mine parents) as Hin by (by apply list_elem_of_filter). rewrite E0 in Hin. by apply elem_of_nil in Hin.
Qed.

(** What a rule of the list lets out. *)
Lemma match_rules_allowed connector protocol host method path port l b a b' :
  Broker.match_rules connector protocol host method path port l b = (Some a, b') -> Broker.allowed a = true ->
  exists r, r ∈ l /\ Broker.rule_matches connector protocol host method path port r = true /\
    Broker.mode_of r <> Broker.EgressModeDeny /\ (Broker.approval a = true <-> Broker.mode_of r = Broker.EgressModeApprove).
Proof.
  induction l as [|r l IH]; cbn [Broker.match_rules]; [done|]. step_if.
  { intros Hm Ha. destruct (IH Hm Ha) as (r' & Hin & Hr'). exists r'. split; [by apply list_elem_of_further|done]. }
  apply negb_false_iff in E. step_if; [intros [= <- _]; done|]. step_if; [intros [= <- _]; done|].
  apply bool_decide_eq_false in E0. intros Hm Ha. exists r. split; [apply list_elem_of_here|]. split; [done|]. split; [done|].
  destruct (bool_decide (Broker.mode_of r = _)) eqn:Em.
  - injection Hm as <- _. by apply bool_decide_eq_true in Em.
  - apply bool_decide_eq_false in Em. destruct (Broker.consumeApprovedRule r b) as [[|] b1]; injection Hm as <- _; done.
Qed.

(** The rule of the contract a request goes out by. *)
Lemma network_allowed s connector protocol host method path b a b' : Default s = NetworkDefaultDeny ->
  Broker.authorizePolicy (network s) connector protocol host method path b = (a, b') -> Broker.allowed a = true ->
  exists r, r ∈ Rules s /\ Broker.rule_matches connector protocol host (ToUpper method) (Broker.clean_path path)
      (Broker.destinationPort host protocol) (broker_rule r) = true /\
    Broker.mode_of (broker_rule r) <> Broker.EgressModeDeny /\
    (Broker.approval a = true <-> Broker.mode_of (broker_rule r) = Broker.EgressModeApprove).
Proof.
  intros Hd. unfold Broker.authorizePolicy, network. cbn [Broker.Default Broker.Rules]. rewrite Hd. step_if; [intros [= <- _]; done|]. cbv zeta.
  destruct (Broker.match_rules _ _ _ _ _ _ _ _) as [[a1|] b1] eqn:Em.
  - intros [= <- <-] Ha. destruct (match_rules_allowed _ _ _ _ _ _ _ _ _ _ Em Ha) as (r & Hin & Hr).
    change (map broker_rule (Rules s)) with (broker_rule <$> Rules s) in Hin. apply list_elem_of_fmap in Hin as (r' & -> & Hin). by exists r'.
  - step_if; intros [= <- _]; done.
Qed.

(** A rule of the contract lets the request out, and asks for approval exactly
    when the rule does. *)
Definition let_out_by (p : SecuritySpec) (connector protocol host method path : text) (a : Broker.policyAuthorization) : Prop :=
  exists r, r ∈ Rules p /\ Broker.rule_matches connector protocol host (ToUpper method) (Broker.clean_path path)
      (Broker.destinationPort host protocol) (broker_rule r) = true /\
    Broker.mode_of (broker_rule r) <> Broker.EgressModeDeny /\
    (Broker.approval a = true <-> Broker.mode_of (broker_rule r) = Broker.EgressModeApprove).

(** C24: A child that a parent creates with a workspace of its own holds no
    provider, binding declaration or workspace binding the parent does not
    have.  Its normalized contract has at least the parent's profile,
    isolation, enforcement, secret mode, audit and default, and only rules the
    parent has (it may leave out rules of the parent, also denying ones).  When
    the parent's contract denies by default, a request the child's policy lets
    out, on any connector, goes by a rule of the parent that does not deny it,
    with approval exactly when that rule asks for it; and a request let out on
    the git surface does so too, unless the child has no git rule and the
    request goes to the host of the repository its own specification declares,
    which no check bounds by the parent. *)
Theorem child_is_bounded_by_its_parent req parent pws req' : WS req = [] ->
  inheritFromParent req parent (Some pws) = Ok req' ->
  Providers (Spec req') ⊆ Providers parent /\ BindingSpecs (Spec req') ⊆ BindingSpecs parent /\
  exists ws, Workspace req' = Some ws /\ Bindings ws ⊆ Bindings pws /\
  forall c p, NormalizeSecurity (Security ws) = Ok c -> NormalizeSecurity (Security pws) = Ok p ->
    no_weaker c p /\
    (Default p = NetworkDefaultDeny -> forall method path b a b',
      (forall connector protocol host,
        Broker.authorizePolicy (network c) connector protocol host method path b = (a, b') -> Broker.allowed a = true ->
        let_out_by p connector protocol host method path a) /\
      (forall authority,
        git_policy (network c) (Repo ws) authority method path b = (a, b') -> Broker.allowed a = true ->
        let_out_by p EgressConnectorGit Broker.EgressProtocolHTTPS authority method path a \/
        (hasTypedGitRule (network c) = false /\ exists url host repo,
           ParseRepoURL (Repo (default (mkWorkspaceSpec [] no_security []) (Workspace req))) = Ok (url, host, repo) /\
           Broker.hostMatches authority [host] = true))).
Proof.
  intros Hws. unfold inheritFromParent. cbv zeta. rewrite Hws.
  destruct (inherit_list (Providers _) _) as [providers|] eqn:E1; [|done].
  destruct (inherit_list (BindingSpecs _) _) as [specs|] eqn:E2; [|done]. intros Hr. apply require_ok in Hr as [_ Hr].
  cbn [negb bool_decide decide] in Hr. rewrite (bool_decide_true ([] = [])) in Hr by done. cbn [negb] in Hr.
  destruct (inherit_workspace _ pws) as [ws|] eqn:E3; [|done]. injection Hr as <-. cbn [Spec Workspace Providers BindingSpecs].
  split; [by eapply inherit_list_ok|]. split; [by eapply inherit_list_ok|]. exists ws. split; [done|].
  unfold inherit_workspace in E3. destruct (inherit_list (Bindings _) _) as [bindings|] eqn:E4; [|done].
  assert (Bindings ws ⊆ Bindings pws) as Hb.
  { apply inherit_list_ok in E4. step_if; [by injection E3 as <-|]. by destruct (securityWithin _ _); [injection E3 as <-|]. }
  assert (Repo ws = Repo (default (mkWorkspaceSpec [] no_security []) (Workspace req))) as Hrepo.
  { step_if; [by injection E3 as <-|]. by destruct (securityWithin _ _); [injection E3 as <-|]. }
  split; [done|]. intros c p Hc Hp.
  assert (no_weaker c p) as Hnw.
  { step_if; [injection E3 as <-; cbn in Hc; rewrite Hp in Hc; by injection Hc as <-|].
    destruct (securityWithin _ _) as [[]|] eqn:Es; [|done]. injection E3 as <-. cbn [Security] in Hc. unfold securityWithin in Es.
    rewrite Hc, Hp in Es. by apply contract_within_ok. }
  split; [done|]. intros Hd method path b a b'.
  assert (forall connector protocol host,
    Broker.authorizePolicy (network c) connector protocol host method path b = (a, b') -> Broker.allowed a = true ->
    let_out_by p connector protocol host method path a) as Hpol.
  { intros connector protocol host Ha Hal.
    destruct (network_allowed c connector protocol host method path b a b' (nw_default _ _ Hnw Hd) Ha Hal) as (r & Hin & Hr).
    exists r. split; [|done]. by apply (nw_rules _ _ Hnw); [left|]. }
  split; [exact Hpol|]. intros authority. unfold git_policy. destruct (hasTypedGitRule (network c)) eqn:Eg.
  - intros Ha Hal. left. by apply Hpol.
  - intros Ha Hal. right. split; [done|]. rewrite <- Hrepo. unfold implicitGitRule in Ha.
    destruct (Repo ws =t []); [by injection Ha as <- _|]. destruct (ParseRepoURL (Repo ws)) as [[[url host] repo]|] eqn:Ep;
      [|by injection Ha as <- _].
    destruct (Broker.hostMatches authority [host]) eqn:Eh; [|by injection Ha as <- _]. by exists url, host, repo.
Qed.

(** ** Normalization *)

Lemma normal_rule_id rule seen n : normalizeEgressRule rule seen = Ok n -> RuleID n ∉ seen.
Proof.
  unfold normalizeEgressRule. cbv zeta. intros Hr. apply require_ok in Hr as [_ Hr]. apply require_ok in Hr as [Hn Hr].
  apply negb_true_iff, bool_decide_eq_false in Hn.
  passed Hr. destruct (each normalizeEgressHostPattern _); [|done]. passed Hr. destruct (each normal_method _); [|done]. passed Hr.
  destruct (connect_methods _ _ _ _ _); [|done]. destruct (immutable_methods _ _); [|done]. destruct (package_ok _ _ _ _); [|done].
  destruct (git_rule _ _ _ _ _) as [[repos methods]|]; [|done]. injection Hr as <-. done.
Qed.

Lemma normal_rules_ids l seen ns : normal_rules l seen = Ok ns ->
  length ns = length l /\ NoDup (RuleID <$> ns) /\ forall r, r ∈ ns -> RuleID r ∉ seen.
Proof.
  revert seen ns. induction l as [|r l IH]; intros seen ns; cbn [normal_rules].
  - intros [= <-]. split_and!; [done|constructor|]. intros r Hr. by apply elem_of_nil in Hr.
  - destruct (normalizeEgressRule r seen) as [n|] eqn:En; [|done]. destruct (normal_rules l _) as [ns'|] eqn:El; [|done].
    intros [= <-]. destruct (IH _ _ El) as (Hlen & Hnd & Hout). apply normal_rule_id in En. split_and!.
    + cbn. by rewrite Hlen.
    + rewrite fmap_cons. constructor; [|done]. intros (r' & E & Hr')%list_elem_of_fmap. apply (Hout r' Hr'). rewrite <- E. apply list_elem_of_here.
    + intros r' [->|Hr']%elem_of_cons; [done|]. intros Hs. apply (Hout r' Hr'). by apply list_elem_of_further.
Qed.

Lemma or_else_given v d : v <> [] -> or_else v d = v.
Proof. intros Hv. unfold or_else. by rewrite bool_decide_false. Qed.

(** What normalizing a contract leaves of it. *)
Record strengthens (s n : SecuritySpec) : Prop := mkStrengthens {
  sg_profile : Profile n = or_else (Profile s) SecurityLocal;
  sg_isolation : MinIsolation s <> [] -> MinIsolation n = MinIsolation s;
  sg_sibling : RequireSiblingIsolation s = true -> RequireSiblingIsolation n = true;
  sg_egress : RequireEnforcedEgress s = true -> RequireEnforcedEgress n = true;
  sg_secrets : SecretMode s <> [] -> SecretMode n = SecretMode s;
  sg_audit : AuditRequired s = true -> AuditRequired n = true;
  sg_default : Default s = NetworkDefaultDeny -> Default n = NetworkDefaultDeny;
  sg_allow : Default n = NetworkDefaultAllow -> Default s = NetworkDefaultAllow /\ Profile n = SecurityLocal;
  sg_nonlocal : Profile n <> SecurityLocal -> RequireEnforcedEgress n = true /\ AuditRequired n = true /\
    Default n = NetworkDefaultDeny }.

Lemma profile_defaults_ok s n : profile_defaults s = Ok n ->
  Rules n = Rules s /\ (Default n = NetworkDefaultAllow -> Default s = NetworkDefaultAllow) /\
  (Profile n <> SecurityLocal -> RequireEnforcedEgress n = true /\ AuditRequired n = true /\ Default n <> []) /\
  (Default s = NetworkDefaultDeny -> Default n = NetworkDefaultDeny) /\
  Profile n = or_else (Profile s) SecurityLocal /\ (MinIsolation s <> [] -> MinIsolation n = MinIsolation s) /\
  (RequireSiblingIsolation s = true -> RequireSiblingIsolation n = true) /\
  (RequireEnforcedEgress s = true -> RequireEnforcedEgress n = true) /\
  (SecretMode s <> [] -> SecretMode n = SecretMode s) /\ (AuditRequired s = true -> AuditRequired n = true).
Proof.
  unfold profile_defaults. cbv zeta. destruct (bool_decide (or_else (Profile s) _ = SecurityLocal)) eqn:E1.
  { apply bool_decide_eq_true in E1. intros [= <-]. cbn [Profile MinIsolation RequireSiblingIsolation RequireEnforcedEgress SecretMode Default Rules AuditRequired].
    split_and!; try done. by apply or_else_given. }
  destruct (bool_decide (or_else (Profile s) _ = SecurityIsolated)) eqn:E2.
  { clear E1. apply bool_decide_eq_true in E2. intros [= <-]. cbn [Profile MinIsolation RequireSiblingIsolation RequireEnforcedEgress SecretMode Default Rules AuditRequired].
    split_and!; try done; try (by apply or_else_given).
    - unfold or_else. case_bool_decide; [|done]. intros Eq. discriminate Eq.
    - intros _. split_and!; [done|done|]. unfold or_else. by case_bool_decide.
    - intros E. rewrite or_else_given; rewrite E; done. }
  destruct (bool_decide (or_else (Profile s) _ = SecurityMultiTenant)) eqn:E3; [|done].
  intros [= <-]. cbn [Profile MinIsolation RequireSiblingIsolation RequireEnforcedEgress SecretMode Default Rules AuditRequired].
  split_and!; try done; try (by apply or_else_given).
Qed.

(** Normalization applies the defaults of the profile and weakens nothing that
    was asked for; a contract above the local profile enforces egress, is
    audited and denies by default; only a local contract that says so allows
    by default; rules stay, with distinct ids. *)
Theorem normalization_never_weakens s n : NormalizeSecurity s = Ok n ->
  strengthens s n /\ length (Rules n) = length (Rules s) /\ NoDup (RuleID <$> Rules n) /\
  (Rules n <> [] -> Default n <> []).
Proof.
  unfold NormalizeSecurity. destruct (profile_defaults s) as [d|] eqn:Ed; [|done]. cbv zeta. intros Hr.
  destruct (profile_defaults_ok s d Ed) as (Erules & Hallow & Hnl & Hdeny & Hprof & Hiso & Hsib & Heg & Hsec & Haud).
  apply require_ok in Hr as [_ Hr]. apply require_ok in Hr as [_ Hr]. apply require_ok in Hr as [Hdom Hr]. apply require_ok in Hr as [Hloc Hr].
  destruct (normal_rules (Rules d) []) as [rules|] eqn:Er; [|done]. injection Hr as <-.
  destruct (normal_rules_ids _ _ _ Er) as (Hlen & Hnd & _). rewrite Erules in Hlen.
  set (dflt := if bool_decide (Rules d <> []) && _ then _ else _) in *.
  assert (Default d <> [] -> dflt = Default d) as Hgiven.
  { intros Hne. unfold dflt. rewrite (bool_decide_false (Default d = [])) by done. by rewrite andb_false_r. }
  assert (dflt = NetworkDefaultAllow -> Default d = NetworkDefaultAllow) as Hda.
  { unfold dflt. destruct (_ && _); [by intros [=]|done]. }
  assert (Profile d <> SecurityLocal -> dflt = NetworkDefaultDeny) as Hnon.
  { intros Hp. destruct (Hnl Hp) as (_ & _ & Hne). apply bool_decide_eq_true in Hdom. rewrite (bool_decide_false (Profile d = _)) in Hloc by done.
    apply negb_true_iff, bool_decide_eq_false in Hloc. rewrite (Hgiven Hne) in *.
    apply elem_of_cons in Hdom as [?|[?|[?|?%elem_of_nil]%elem_of_cons]%elem_of_cons]; done. }
  split_and!; cbn; [|done|done|].
  - split; cbn; try done.
    + intros E. rewrite Hgiven; [by apply Hdeny|]. rewrite (Hdeny E). done.
    + intros E. split; [by apply Hallow, Hda|]. destruct (decide (Profile d = SecurityLocal)) as [|Hp]; [done|].
      rewrite (Hnon Hp) in E. by injection E.
    + intros Hp. destruct (Hnl Hp) as (? & ? & _). split_and!; [done|done|by apply Hnon].
  - intros Hne. unfold dflt. destruct (bool_decide (Default d = [])) eqn:E; [|rewrite andb_false_r; by apply bool_decide_eq_false in E].
    rewrite bool_decide_true; [done|]. rewrite Erules. intros E'. rewrite E' in Hlen. by destruct rules.
Qed.
End proofs.

(** ** A run *)

#[local] Instance ex_codecs : Codecs := {|
  Broker.ParseQuery _ := None; Broker.EncodeValues _ := []; Broker.ParseMediaType := Some; Broker.DecodeJSON _ := None;
  Broker.EncodeJSON _ := None; Broker.DecodeBase64 := Some; Broker.EncodeBase64 t := t; Broker.unicode_lower t := t;
  Broker.unicode_upper t := t; Broker.unicode_fold a b := bool_decide (a = b); Broker.ParseIP _ := false; Broker.range := map_to_list |}.

#[local] Instance ex_platform : Platform := {|
  url_parse t := if HasPrefix t (T "https://")
                 then let rest := TrimPrefix t (T "https://") in
                      match Index rest (T "/") with
                      | Some i => Some (mkURL (T "https") false [] [] [] (take i rest) (drop i rest))
                      | None => Some (mkURL (T "https") false [] [] [] rest [])
                      end
                 else None;
  canonicalIP t := t; compiles _ := true; unicode_trim t := t |}.

Definition ex_rule (id mode host : string) : EgressRule :=
  mkRule (T id) (T mode) [] (T "https") [T host] [] [] [] 0 0 0 [] [] [] false.
Definition ex_contract (rules : list EgressRule) : SecuritySpec := mkSecurity SecurityIsolated [] false false [] [] rules false.
Definition ex_denies : EgressRule := ex_rule "no-admin" "deny" "admin.example.com".
Definition ex_allows : EgressRule := ex_rule "site" "" "*.example.com".
Definition ex_parent : WorkspaceSpec := mkWorkspaceSpec [T "b1"] (ex_contract [ex_denies; ex_allows]) [].
Definition ex_agent : AgentSpec := mkAgentSpec [T "openai"] (T "openai") [] (T "read-only").
Definition ex_child (sandbox : string) : AgentCreateReq :=
  mkCreate (mkAgentSpec [] [] [] (T sandbox)) [] (Some (mkWorkspaceSpec [] (ex_contract [ex_allows]) (T "code.example.org/acme/app.git"))).
Definition ex_send (s : SecuritySpec) (host : string) : Broker.policyAuthorization :=
  (Broker.authorizePolicy (network s) [] (T "https") (T host) (T "GET") (T "/") (Broker.mkBroker [] [] ∅)).1.

(** A child with one of its parent's rules reaches a host by it. *)
Lemma child_is_bounded_by_its_parent_witness : exists req' ws c p,
  inheritFromParent (ex_child "") ex_agent (Some ex_parent) = Ok req' /\ Workspace req' = Some ws /\
  NormalizeSecurity (Security ws) = Ok c /\ NormalizeSecurity (Security ex_parent) = Ok p /\
  Broker.allowed (ex_send c "www.example.com:443") = true /\ no_weaker c p /\ Default p = NetworkDefaultDeny /\
  Providers (Spec req') ⊆ [T "openai"].
Proof.
  destruct (inheritFromParent (ex_child "") ex_agent (Some ex_parent)) as [req'|e] eqn:E; [|by vm_compute in E].
  destruct (child_is_bounded_by_its_parent (ex_child "") ex_agent ex_parent req' eq_refl E) as (Hprov & _ & ws & Hws & _ & Hb).
  destruct (NormalizeSecurity (Security ws)) as [c|e] eqn:Ec; [|vm_compute in E; injection E as <-; injection Hws as <-; by vm_compute in Ec].
  destruct (NormalizeSecurity (Security ex_parent)) as [p|e] eqn:Ep; [|by vm_compute in Ep].
  destruct (Hb c p eq_refl eq_refl) as [Hnw _]. exists req', ws, c, p. split_and!; try done.
  - vm_compute in E. injection E as <-. injection Hws as <-. vm_compute in Ec. injection Ec as <-. vm_compute. reflexivity.
  - vm_compute in Ep. injection Ep as <-. vm_compute. reflexivity.
Defined.

(** A child need not keep the rules of its parent that deny: the parent's
    contract denies a host before it allows the domain, the child is accepted
    with the second rule alone, and its proxy lets out the request the
    parent's proxy refuses. *)
Theorem child_may_drop_a_denying_rule : exists req parent pws req' ws c p host,
  inheritFromParent req parent (Some pws) = Ok req' /\ Workspace req' = Some ws /\
  NormalizeSecurity (Security ws) = Ok c /\ NormalizeSecurity (Security pws) = Ok p /\
  Broker.allowed (ex_send p host) = false /\ Broker.allowed (ex_send c host) = true.
Proof.
  destruct (inheritFromParent (ex_child "") ex_agent (Some ex_parent)) as [req'|e] eqn:E; [|by vm_compute in E].
  destruct (NormalizeSecurity (ex_contract [ex_allows])) as [c|e] eqn:Ec; [|by vm_compute in Ec].
  destruct (NormalizeSecurity (Security ex_parent)) as [p|e] eqn:Ep; [|by vm_compute in Ep].
  exists (ex_child ""), ex_agent, ex_parent, req', (mkWorkspaceSpec [T "b1"] (ex_contract [ex_allows]) (T "code.example.org/acme/app.git")), c, p, "admin.example.com:443"%string.
  split_and!; [exact E| |exact Ec|exact Ep| |].
  - vm_compute in E. injection E as <-. vm_compute. reflexivity.
  - vm_compute in Ep. injection Ep as <-. vm_compute. reflexivity.
  - vm_compute in Ec. injection Ec as <-. vm_compute. reflexivity.
Qed.

(** A child may declare a repository of its own: the parent's contract denies
    by default and its only rules are for other hosts, and the child's git
    surface lets requests out to the host the child named. *)
Theorem child_may_name_a_repository : exists req parent pws req' ws c p authority,
  inheritFromParent req parent (Some pws) = Ok req' /\ Workspace req' = Some ws /\
  NormalizeSecurity (Security ws) = Ok c /\ NormalizeSecurity (Security pws) = Ok p /\
  Default p = NetworkDefaultDeny /\
  Broker.allowed (git_policy (network p) (Repo pws) authority (T "POST") (T "/acme/app.git/git-receive-pack")
                    (Broker.mkBroker [] [] ∅)).1 = false /\
  Broker.allowed (git_policy (network c) (Repo ws) authority (T "POST") (T "/acme/app.git/git-receive-pack")
                    (Broker.mkBroker [] [] ∅)).1 = true.
Proof.
  destruct (inheritFromParent (ex_child "") ex_agent (Some ex_parent)) as [req'|e] eqn:E; [|by vm_compute in E].
  destruct (NormalizeSecurity (ex_contract [ex_allows])) as [c|e] eqn:Ec; [|by vm_compute in Ec].
  destruct (NormalizeSecurity (Security ex_parent)) as [p|e] eqn:Ep; [|by vm_compute in Ep].
  exists (ex_child ""), ex_agent, ex_parent, req',
    (mkWorkspaceSpec [T "b1"] (ex_contract [ex_allows]) (T "code.example.org/acme/app.git")), c, p, (T "code.example.org:443").
  split_and!; [exact E| |exact Ec|exact Ep|..].
  - vm_compute in E. injection E as <-. vm_compute. reflexivity.
  - vm_compute in Ep. injection Ep as <-. vm_compute. reflexivity.
  - vm_compute in Ep. injection Ep as <-. vm_compute. reflexivity.
  - vm_compute in Ec. injection Ec as <-. vm_compute. reflexivity.
Qed.

(** A child of a read-only agent may ask for the full sandbox. *)
Theorem child_may_widen_its_sandbox : Sandbox ex_agent = T "read-only" /\
  exists req', inheritFromParent (ex_child "full") ex_agent (Some ex_parent) = Ok req' /\ Sandbox (Spec req') = T "full".
Proof.
  split; [done|]. destruct (inheritFromParent (ex_child "full") ex_agent (Some ex_parent)) as [req'|e] eqn:E; [|by vm_compute in E].
  exists req'. split; [done|]. vm_compute in E. by injection E as <-.
Qed.
End Delegation.
