(* ===== verification/Holds.v ===== *)
(** * Durable workspace holds and idle policy (internal/control/leases.go)

    A hold keeps a claimed workspace awake until a deadline the control plane
    owns; an idle policy puts a workspace away when nobody works in it.  Both
    feed one derived deadline per workspace, published on the workspace row and
    armed as one timer row, and the control plane's ticker retires stale
    timers, claims due deadlines durably and executes the claimed ones.

    The state is the workspace state of [Control] with, for each workspace, the
    fields of the row this component owns ([Hold]), the timers, the records of
    idempotent mutations and the bookkeeping of executions.  As in [Control],
    one locked section is one definition, a transaction is an argument of type
    [option Z] ([None] when it fails, for a storage error or at the limit of
    mutation records), and the rows are a second copy of the state.  Clock
    readings are arguments in milliseconds; every reading a section makes is an
    argument of its own. *)

From Stdlib Require Import ZArith Lia Strings.String.
From stdpp Require Import base list gmap strings option.
From S2P Require Import Prelude Lifecycle Control ControlProofs.
#[local] Open Scope Z_scope.

Module Holds.
Import Lifecycle Control.

(** ** Data *)

Definition lifecycleExpiryAttempts : Z := 5.
Definition lifecycleExpiryBackoff : Z := 5 * Second.
Definition defaultMaxLeaseSec : Z := 24 * 60 * 60.
Definition defaultMaxHeldWorkspacesPerTenant : Z := 256.

Definition LeaseExpirySleep : string := "sleep".
Definition LeaseExpiryDestroy : string := "destroy".
Definition LifecycleSourceLease : string := "lease".
Definition LifecycleSourceIdle : string := "idle".
Definition LeaseEndDeadline : string := "deadline".
Definition LeaseEndCancelled : string := "cancelled".
Definition LeaseEndMoved : string := "moved".
Definition LeaseEndDestroyed : string := "destroyed".
Definition LeaseEndSuperseded : string := "superseded".
Definition TimerKindResume : string := EmptyString.
Definition TimerKindLeaseExpiry : string := "lease_expiry".
Definition TimerKindIdleSleep : string := "idle_sleep".
Definition TimerKindIdleDestroy : string := "idle_destroy".

(** Errors with and without a machine-readable reason. *)
Inductive Reason :=
| ReasonWorkspaceNotReady | ReasonLifecycleDeadlineExpired | ReasonGenerationMismatch | ReasonQuotaExceeded.

Inductive Refusal := RCode (c : Code) | RReason (c : Code) (r : Reason).

Record WorkspaceLease := mkLease {
  LeaseID : string; LeaseWS : string; LeaseGeneration : Z; MinAliveUntil : Z; MaxAliveUntil : Z;
  OnExpiry : string; LeaseReason : string; LeaseCreatedAt : Z; RenewedAt : Z; Renewals : Z;
  EndedAt : Z; EndedReason : string }.

Definition Live (l : option WorkspaceLease) : bool :=
  match l with Some l => EndedAt l =? 0 | None => false end.

(** [lease.EndedAt, lease.EndedReason = now, reason]. *)
Definition end_lease (now : Z) (reason : string) (l : WorkspaceLease) : WorkspaceLease :=
  mkLease (LeaseID l) (LeaseWS l) (LeaseGeneration l) (MinAliveUntil l) (MaxAliveUntil l) (OnExpiry l)
    (LeaseReason l) (LeaseCreatedAt l) (RenewedAt l) (Renewals l) now reason.

Record IdlePolicy := mkPolicy { SleepAfterSec : Z; DestroyAfterSec : Z }.

Definition policy_set (p : option IdlePolicy) : bool :=
  match p with Some p => (0 <? SleepAfterSec p) || (0 <? DestroyAfterSec p) | None => false end.

Record LifecycleDeadline := mkDeadline {
  DeadlineAt : Z; Action : string; Source : string; TimerID : string; Fired : bool; FiredAt : Z;
  ExpiryFailed : bool; Attempts : Z; ExpiryError : string }.

(** The fields of the workspace row that belong to this component. *)
Record Hold := mkHold {
  Lease : option WorkspaceLease; Policy : option IdlePolicy; IdleSince : Z; LastActivityAt : Z;
  Deadline : option LifecycleDeadline }.

Definition no_hold : Hold := mkHold None None 0 0 None.

Definition set_Lease (l : option WorkspaceLease) (h : Hold) : Hold :=
  mkHold l (Policy h) (IdleSince h) (LastActivityAt h) (Deadline h).
Definition set_Policy (p : option IdlePolicy) (h : Hold) : Hold :=
  mkHold (Lease h) p (IdleSince h) (LastActivityAt h) (Deadline h).
Definition set_IdleSince (t : Z) (h : Hold) : Hold :=
  mkHold (Lease h) (Policy h) t (LastActivityAt h) (Deadline h).
Definition set_active (now : Z) (h : Hold) : Hold :=
  mkHold (Lease h) (Policy h) 0 now (Deadline h).
Definition set_Deadline (d : option LifecycleDeadline) (h : Hold) : Hold :=
  mkHold (Lease h) (Policy h) (IdleSince h) (LastActivityAt h) d.

Record Timer := mkTimer {
  TimerKey : string; TimerWS : string; TimerAt : Z; OnEvent : string; Match : list (string * string);
  TimerAction : string; TimerFired : bool; TimerFiredAt : Z; TimerCreatedAt : Z; Kind : string;
  TimerGeneration : Z; Superseded : bool; TimerReason : string }.

Definition Lifecycle (t : Timer) : bool :=
  (Kind t =s TimerKindLeaseExpiry) || (Kind t =s TimerKindIdleSleep) || (Kind t =s TimerKindIdleDestroy).

(** [retired.Fired, retired.FiredAt, retired.Superseded, retired.Reason = true, now, true, reason]. *)
Definition retire_timer (now : Z) (reason : string) (t : Timer) : Timer :=
  mkTimer (TimerKey t) (TimerWS t) (TimerAt t) (OnEvent t) (Match t) (TimerAction t) true now
    (TimerCreatedAt t) (Kind t) (TimerGeneration t) true reason.

Definition lifecycleTimerID (ws : string) : string := ("t_lc_" ++ ws)%string.

(** The execution bookkeeping of one workspace; [after] is the end of a backoff, in
    nanoseconds. *)
Record lifecycleState := mkWork { inFlight : bool; after : Z }.

(** ** Derivation *)

Definition seconds (base sec : Z) : Z := i64 (base + i64 (sec * 1000)).

Definition idleDeadline (ws : Workspace) (h : Hold) : Z * string :=
  match Policy h with
  | None => (0, EmptyString)
  | Some p =>
      if negb (policy_set (Policy h)) || (IdleSince h <=? 0) then (0, EmptyString)
      else
        let floor := match Lease h with
                     | Some l => if Live (Lease h) then MinAliveUntil l else 0
                     | None => 0
                     end in
        let '(at_, action) :=
          if 0 <? SleepAfterSec p then (seconds (IdleSince h) (SleepAfterSec p), LeaseExpirySleep)
          else (0, EmptyString) in
        let '(at_, action) :=
          if 0 <? DestroyAfterSec p then
            let destroyAt := seconds (IdleSince h) (DestroyAfterSec p) in
            if (at_ =? 0) || (destroyAt <? at_) then (destroyAt, LeaseExpiryDestroy) else (at_, action)
          else (at_, action) in
        let raise at_ := if at_ <? floor then floor else at_ in
        if is_state WSPaused ws && (action =s LeaseExpirySleep) then
          if 0 <? DestroyAfterSec p then
            (raise (seconds (IdleSince h) (DestroyAfterSec p)), LeaseExpiryDestroy)
          else (0, EmptyString)
        else (raise at_, action)
  end.

Definition deriveDeadline (ws : Workspace) (h : Hold) : option LifecycleDeadline :=
  if is_state WSDestroyed ws then None
  else
    let make at_ action source :=
      mkDeadline at_ action source (lifecycleTimerID (ID ws)) false 0 false 0 EmptyString in
    let out :=
      match Lease h with
      | Some l =>
          if Live (Lease h) && negb (is_state WSPaused ws)
          then Some (make (MaxAliveUntil l) (OnExpiry l) LifecycleSourceLease) else None
      | None => None
      end in
    let '(at_, action) := idleDeadline ws h in
    if 0 <? at_ then
      match out with
      | Some d => if at_ <? DeadlineAt d then Some (make at_ action LifecycleSourceIdle) else out
      | None => Some (make at_ action LifecycleSourceIdle)
      end
    else out.

Definition timerKind (d : option LifecycleDeadline) : string :=
  match d with
  | None => TimerKindResume
  | Some d =>
      if Source d =s LifecycleSourceLease then TimerKindLeaseExpiry
      else if Action d =s LeaseExpiryDestroy then TimerKindIdleDestroy
      else TimerKindIdleSleep
  end.

Definition lifecycleBusy (h : Hold) : bool :=
  match Deadline h with Some d => Fired d && negb (ExpiryFailed d) | None => false end.

Definition clearFailedDeadline (h : Hold) : Hold :=
  match Deadline h with
  | Some d => if ExpiryFailed d then set_Deadline None h else h
  | None => h
  end.

Definition deadline_fired (h : Hold) : bool :=
  match Deadline h with Some d => Fired d | None => false end.

(** [existing == nil || existing.Fired], then the copy that retires it. *)
Definition retired_copy (now : Z) (reason : string) (existing : option Timer) : option Timer :=
  match existing with
  | Some t => if TimerFired t then None else Some (retire_timer now reason t)
  | None => None
  end.

(** The hold with its recomputed deadline, and the timer row to commit beside
    it; [existing] is [c.timers[lifecycleTimerID(next.ID)]]. *)
Definition reconcileLifecycleLocked (now : Z) (existing : option Timer) (next : Workspace) (h : Hold)
  : Hold * option Timer :=
  if deadline_fired h then (h, None)
  else
    match deriveDeadline next h with
    | None => (set_Deadline None h, retired_copy now LeaseEndSuperseded existing)
    | Some d =>
        (set_Deadline (Some d) h,
         Some (mkTimer (lifecycleTimerID (ID next)) (ID next) (DeadlineAt d) EmptyString [] (Action d)
                 false 0 (match existing with Some t => TimerCreatedAt t | None => now end)
                 (timerKind (Some d)) (Generation next) false EmptyString))
    end.

(** [if lease.Live() { lease.EndedAt, lease.EndedReason = now, reason }]. *)
Definition end_live (now : Z) (reason : string) (h : Hold) : Hold :=
  match Lease h with
  | Some l => if Live (Lease h) then set_Lease (Some (end_lease now reason l)) h else h
  | None => h
  end.

Definition retireLifecycleLocked (now : Z) (reason : string) (existing : option Timer) (h : Hold)
  : Hold * option Timer :=
  (set_Deadline None (end_live now reason h), retired_copy now reason existing).

Definition lifecycleTimerStale (ws : option (Workspace * Hold)) (t : Timer) : option string :=
  match ws with
  | None => Some LeaseEndDestroyed
  | Some (w, h) =>
      if is_state WSDestroyed w then Some LeaseEndDestroyed
      else match Deadline h with
      | None => Some LeaseEndSuperseded
      | Some d =>
          if TimerID d <>s TimerKey t then Some LeaseEndSuperseded
          else if negb (DeadlineAt d =? TimerAt t) then Some LeaseEndSuperseded
          else None
      end
  end.

Definition lifecycleActionable (ws : option Workspace) (action : string) : bool :=
  match ws with
  | None => false
  | Some w => is_state WSClaimed w || ((action =s LeaseExpiryDestroy) && is_state WSPaused w)
  end.

Definition normalizeExpiry (value : string) : result Refusal string :=
  if (value =s "") || (value =s LeaseExpirySleep) then Ok LeaseExpirySleep
  else if value =s LeaseExpiryDestroy then Ok LeaseExpiryDestroy
  else Err (RCode CodeBadRequest).

(** ** State *)

Record HoldOptions := mkHoldOptions {
  MaxLeaseSec : Z; MaxHeldWorkspacesPerTenant : Z; MaxTimers : Z; MaxTimersPerWorkspace : Z }.

Inductive Op := OpWSLease | OpWSLeaseRenew | OpWSLeaseCancel | OpWSIdlePolicy | OpWSIdleMark.

#[export] Instance Op_eq_dec : EqDecision Op.
Proof. solve_decision. Defined.

Record WSLeaseReq := mkLeaseReq {
  LeaseReqWS : string; LeaseReqMin : Z; LeaseReqMax : Z; LeaseReqExpiry : string; LeaseReqReason : string;
  LeaseReqKey : string }.
Record WSLeaseRenewReq := mkRenewHoldReq {
  RenewReqWS : string; RenewReqLease : string; ExtendSec : Z; RenewReqMin : Z; RenewReqKey : string }.
Record WSLeaseCancelReq := mkCancelReq {
  CancelReqWS : string; CancelReqLease : string; CancelReqKey : string }.
Record WSIdlePolicyReq := mkPolicyReq {
  PolicyReqWS : string; PolicyReqSleep : Z; PolicyReqDestroy : Z; PolicyReqKey : string }.
Record WSIdleMarkReq := mkMarkReq {
  MarkReqWS : string; MarkReqIdle : bool; MarkReqReason : string; MarkReqKey : string }.

Inductive Request :=
| ReqLease (r : WSLeaseReq) | ReqRenew (r : WSLeaseRenewReq) | ReqCancel (r : WSLeaseCancelReq)
| ReqPolicy (r : WSIdlePolicyReq) | ReqMark (r : WSIdleMarkReq).

(** What a handler answers, and what a mutation record keeps of it. *)
Inductive Answer :=
| AnswerLease (l : WorkspaceLease)
| AnswerWorkspace (w : Workspace) (h : Hold).

Record Mutation := mkMutation { MutOp : Op; MutFingerprint : string; MutResult : Answer }.

Record Plane := mkPlane {
  core : Control;
  holds : gmap string Hold; hold_rows : gmap string Hold;
  timers : gmap string Timer; timer_rows : gmap string Timer;
  mutations : gmap (string * string) Mutation;
  timerReservations : Z; timerReservationsByWS : gmap string Z;
  lifecycleWork : gmap string lifecycleState }.

Definition set_core (c : Control) (p : Plane) : Plane :=
  mkPlane c (holds p) (hold_rows p) (timers p) (timer_rows p) (mutations p) (timerReservations p)
    (timerReservationsByWS p) (lifecycleWork p).

Definition set_reservations (n : Z) (m : gmap string Z) (p : Plane) : Plane :=
  mkPlane (core p) (holds p) (hold_rows p) (timers p) (timer_rows p) (mutations p) n m (lifecycleWork p).

Definition set_work (f : gmap string lifecycleState -> gmap string lifecycleState) (p : Plane) : Plane :=
  mkPlane (core p) (holds p) (hold_rows p) (timers p) (timer_rows p) (mutations p) (timerReservations p)
    (timerReservationsByWS p) (f (lifecycleWork p)).

Definition hold_of (p : Plane) (id : string) : Hold := default no_hold (holds p !! id).

(** [c.workspaces[id]], with the fields of both components. *)
Definition workspace_of (p : Plane) (id : string) : option (Workspace * Hold) :=
  match workspaces (core p) !! id with Some w => Some (w, hold_of p id) | None => None end.

Definition lifecycle_timer (p : Plane) (id : string) : option Timer := timers p !! lifecycleTimerID id.

Definition put_timers (ts : list Timer) (m : gmap string Timer) : gmap string Timer :=
  foldl (fun m t => <[TimerKey t := t]> m) m ts.

(** A mutation record with an empty key is not written. *)
Definition put_mutation (mut : option (string * string * Mutation)) (m : gmap (string * string) Mutation) :=
  match mut with
  | Some (scope, key, r) => if key =s "" then m else <[(scope, key) := r]> m
  | None => m
  end.

(** What a committed transaction and the publication after it write: the hold
    fields of the row, the timer rows and the mutation record. *)
Definition write_hold (id : string) (h : Hold) (ts : list Timer) (mut : option (string * string * Mutation))
    (p : Plane) : Plane :=
  mkPlane (core p) (<[id := h]> (holds p)) (<[id := h]> (hold_rows p)) (put_timers ts (timers p))
    (put_timers ts (timer_rows p)) (put_mutation mut (mutations p)) (timerReservations p)
    (timerReservationsByWS p) (lifecycleWork p).

(** [persistWorkspaceTimerAndMutation] followed by [*ws = next] and
    [publishLifecycleLocked]; a failed transaction changes nothing. *)
Definition commitHold (p : Plane) (next : Workspace) (h : Hold) (timer : option Timer)
    (mut : option (string * string * Mutation)) (tx : option Z) : result Refusal Workspace * Plane :=
  match commitWS (core p) next tx with
  | (Err e, c) => (Err (RCode e), set_core c p)
  | (Ok w, c) => (Ok w, write_hold (ID w) h (option_list timer) mut (set_core c p))
  end.

(** ** Timer quota *)

Definition reserveTimer (o : HoldOptions) (workspace : string) (p : Plane) : result Refusal bool * Plane :=
  if MaxTimers o <=? Z.of_nat (size (timers p)) + timerReservations p then
    (Err (RCode CodeResourceExhausted), p)
  else
    let reserved := default 0 (timerReservationsByWS p !! workspace) in
    let armed := Z.of_nat (size (filter (fun kt => TimerWS kt.2 = workspace) (timers p))) in
    if MaxTimersPerWorkspace o <=? reserved + armed then (Err (RCode CodeResourceExhausted), p)
    else (Ok true, set_reservations (timerReservations p + 1)
                     (<[workspace := reserved + 1]> (timerReservationsByWS p)) p).

(** [false] when the slot exists and nothing was reserved. *)
Definition reserveLifecycleTimer (o : HoldOptions) (workspace : string) (p : Plane)
  : result Refusal bool * Plane :=
  if bool_decide (is_Some (lifecycle_timer p workspace)) then (Ok false, p) else reserveTimer o workspace p.

(** The function a reservation returns, called when the handler returns. *)
Definition release_reservation (reserved : bool) (workspace : string) (p : Plane) : Plane :=
  if reserved then
    let n := default 0 (timerReservationsByWS p !! workspace) in
    set_reservations (timerReservations p - 1)
      (if n <=? 1 then delete workspace (timerReservationsByWS p)
       else <[workspace := n - 1]> (timerReservationsByWS p)) p
  else p.

(** [reserveLifecycleTimer], the section it guards, and the deferred release. *)
Definition with_reservation {A} (o : HoldOptions) (workspace : string)
    (k : Plane -> result Refusal A * Plane) (p : Plane) : result Refusal A * Plane :=
  match reserveLifecycleTimer o workspace p with
  | (Err e, p) => (Err e, p)
  | (Ok reserved, p) => let '(r, p) := k p in (r, release_reservation reserved workspace p)
  end.

(** ** Handlers *)

Section handlers.
Context (o : HoldOptions) (fingerprint : Request -> string).

(** [mutationLookup]: a hit, no record, or a key used for something else. *)
Definition mutationLookup (scope key : string) (op : Op) (request : Request) (p : Plane)
  : result Refusal (option Answer) :=
  if key =s "" then Ok None
  else match mutations p !! (scope, key) with
  | None => Ok None
  | Some m =>
      if bool_decide (MutOp m = op) && (MutFingerprint m =s fingerprint request) then Ok (Some (MutResult m))
      else Err (RCode CodeConflict)
  end.

(** The head of each handler: a recorded answer is given again. *)
Definition idempotent (scope key : string) (op : Op) (request : Request)
    (k : Plane -> result Refusal Answer * Plane) (p : Plane) : result Refusal Answer * Plane :=
  match mutationLookup scope key op request p with
  | Err e => (Err e, p)
  | Ok (Some prior) => (Ok prior, p)
  | Ok None => k p
  end.

Definition record_of (scope key : string) (op : Op) (request : Request) (answer : Answer)
  : option (string * string * Mutation) :=
  Some (scope, key, mkMutation op (fingerprint request) answer).

Definition scope_of (principal ws suffix : string) : string :=
  (principal ++ "|" ++ ws ++ "|" ++ suffix)%string.

(** How many workspaces a tenant holds awake, [exclude] apart. *)
Definition heldWorkspacesLocked (tenant exclude : string) (p : Plane) : Z :=
  Z.of_nat (size (filter (fun kw : string * Workspace =>
    ID kw.2 <> exclude /\ Tenant kw.2 = tenant /\ State kw.2 <> WSDestroyed /\
    Live (Lease (hold_of p kw.1)) = true) (workspaces (core p)))).

(** The checks of [wsLease] before it takes the lock. *)
Definition lease_checks (req : WSLeaseReq) : result Refusal string :=
  let? onExpiry := normalizeExpiry (LeaseReqExpiry req) in
  if LeaseReqMax req <=? 0 then Err (RCode CodeBadRequest)
  else if LeaseReqMin req <? 0 then Err (RCode CodeBadRequest)
  else if LeaseReqMax req <? LeaseReqMin req then Err (RCode CodeBadRequest)
  else if MaxLeaseSec o <? LeaseReqMax req then Err (RCode CodeBadRequest)
  else Ok onExpiry.

(** The locked section of [wsLease]; [leaseID] comes from [ids.New]. *)
Definition lease_grant (now rnow : Z) (tx : option Z) (leaseID onExpiry scope : string) (req : WSLeaseReq)
    (p : Plane) : result Refusal Answer * Plane :=
  let id := LeaseReqWS req in
  match workspace_of p id with
  | None => (Err (RCode CodeNotFound), p)
  | Some (ws, h) =>
      if is_state WSDestroyed ws then (Err (RCode CodeConflict), p)
      else if negb (is_state WSClaimed ws) then (Err (RReason CodeConflict ReasonWorkspaceNotReady), p)
      else if lifecycleBusy h then (Err (RReason CodeConflict ReasonLifecycleDeadlineExpired), p)
      else if MaxHeldWorkspacesPerTenant o <=? heldWorkspacesLocked (Tenant ws) (ID ws) p then
        (Err (RReason CodeResourceExhausted ReasonQuotaExceeded), p)
      else
        let lease :=
          mkLease leaseID (ID ws) (Generation ws)
            (if 0 <? LeaseReqMin req then seconds now (LeaseReqMin req) else 0)
            (seconds now (LeaseReqMax req)) onExpiry (LeaseReqReason req) now 0 0 0 EmptyString in
        let next := clearFailedDeadline (set_active now (set_Lease (Some lease) h)) in
        let '(next, timer) := reconcileLifecycleLocked rnow (lifecycle_timer p id) ws next in
        match commitHold p ws next timer
                (record_of scope (LeaseReqKey req) OpWSLease (ReqLease req) (AnswerLease lease)) tx with
        | (Ok _, p) => (Ok (AnswerLease lease), p)
        | (Err e, p) => (Err e, p)
        end
  end.

Definition wsLease (now rnow : Z) (tx : option Z) (leaseID principal : string) (req : WSLeaseReq) (p : Plane)
  : result Refusal Answer * Plane :=
  let scope := scope_of principal (LeaseReqWS req) "workspace.lease" in
  idempotent scope (LeaseReqKey req) OpWSLease (ReqLease req) (fun p =>
  match lease_checks req with
  | Err e => (Err e, p)
  | Ok onExpiry => with_reservation o (LeaseReqWS req) (lease_grant now rnow tx leaseID onExpiry scope req) p
  end) p.

Definition renew_checks (req : WSLeaseRenewReq) : option Refusal :=
  if ExtendSec req <=? 0 then Some (RCode CodeBadRequest)
  else if MaxLeaseSec o <? ExtendSec req then Some (RCode CodeBadRequest)
  else if (RenewReqMin req <? 0) || (ExtendSec req <? RenewReqMin req) then Some (RCode CodeBadRequest)
  else None.

Definition renewed (now : Z) (req : WSLeaseRenewReq) (l : WorkspaceLease) : WorkspaceLease :=
  mkLease (LeaseID l) (LeaseWS l) (LeaseGeneration l)
    (if 0 <? RenewReqMin req then seconds now (RenewReqMin req) else 0)
    (seconds now (ExtendSec req)) (OnExpiry l) (LeaseReason l) (LeaseCreatedAt l) now
    (u64 (Renewals l + 1)) (EndedAt l) (EndedReason l).

(** The locked section of [wsLeaseRenew]. *)
Definition lease_extend (now rnow : Z) (tx : option Z) (scope : string) (req : WSLeaseRenewReq) (p : Plane)
  : result Refusal Answer * Plane :=
  let id := RenewReqWS req in
  match workspace_of p id with
  | None => (Err (RCode CodeNotFound), p)
  | Some (ws, h) =>
      match Lease h with
      | None => (Err (RCode CodeNotFound), p)
      | Some l =>
          if LeaseID l <>s RenewReqLease req then (Err (RCode CodeNotFound), p)
          else if negb (Live (Lease h)) then
            (Err (RReason CodeConflict
                    (if (EndedReason l =s LeaseEndMoved) || negb (LeaseGeneration l =? Generation ws)
                     then ReasonGenerationMismatch else ReasonLifecycleDeadlineExpired)), p)
          else if negb (LeaseGeneration l =? Generation ws) then
            (Err (RReason CodeConflict ReasonGenerationMismatch), p)
          else if deadline_fired h then (Err (RReason CodeConflict ReasonLifecycleDeadlineExpired), p)
          else if is_state WSDestroyed ws then (Err (RCode CodeConflict), p)
          else
            let lease := renewed now req l in
            let next := set_active now (set_Lease (Some lease) h) in
            let '(next, timer) := reconcileLifecycleLocked rnow (lifecycle_timer p id) ws next in
            match commitHold p ws next timer
                    (record_of scope (RenewReqKey req) OpWSLeaseRenew (ReqRenew req) (AnswerLease lease)) tx with
            | (Ok _, p) => (Ok (AnswerLease lease), p)
            | (Err e, p) => (Err e, p)
            end
      end
  end.

Definition wsLeaseRenew (now rnow : Z) (tx : option Z) (principal : string) (req : WSLeaseRenewReq) (p : Plane)
  : result Refusal Answer * Plane :=
  let scope := scope_of principal (RenewReqWS req) "workspace.lease.renew" in
  idempotent scope (RenewReqKey req) OpWSLeaseRenew (ReqRenew req) (fun p =>
  match renew_checks req with
  | Some e => (Err e, p)
  | None => with_reservation o (RenewReqWS req) (lease_extend now rnow tx scope req) p
  end) p.

(** [if timer != nil && timer.Superseded { timer.Reason = LeaseEndCancelled }]. *)
Definition cancelled_reason (t : Timer) : Timer :=
  if Superseded t then
    mkTimer (TimerKey t) (TimerWS t) (TimerAt t) (OnEvent t) (Match t) (TimerAction t) (TimerFired t)
      (TimerFiredAt t) (TimerCreatedAt t) (Kind t) (TimerGeneration t) (Superseded t) LeaseEndCancelled
  else t.

(** [snapshotWorkspace] copies what it is given; the answer carries the row
    before [persist] stamps it. *)
Definition lease_cancel (now rnow : Z) (tx : option Z) (scope : string) (req : WSLeaseCancelReq) (p : Plane)
  : result Refusal Answer * Plane :=
  let id := CancelReqWS req in
  match workspace_of p id with
  | None => (Err (RCode CodeNotFound), p)
  | Some (ws, h) =>
      match Lease h with
      | None => (Err (RCode CodeNotFound), p)
      | Some l =>
          if LeaseID l <>s CancelReqLease req then (Err (RCode CodeNotFound), p)
          else if negb (Live (Lease h)) then (Err (RReason CodeConflict ReasonLifecycleDeadlineExpired), p)
          else if lifecycleBusy h then (Err (RReason CodeConflict ReasonLifecycleDeadlineExpired), p)
          else
            let next := set_Deadline None (set_Lease (Some (end_lease now LeaseEndCancelled l)) h) in
            let '(next, timer) := reconcileLifecycleLocked rnow (lifecycle_timer p id) ws next in
            let timer := cancelled_reason <$> timer in
            match commitHold p ws next timer
                    (record_of scope (CancelReqKey req) OpWSLeaseCancel (ReqCancel req)
                       (AnswerWorkspace ws next)) tx with
            | (Ok _, p) => (Ok (AnswerWorkspace ws next), p)
            | (Err e, p) => (Err e, p)
            end
      end
  end.

Definition wsLeaseCancel (now rnow : Z) (tx : option Z) (principal : string) (req : WSLeaseCancelReq)
    (p : Plane) : result Refusal Answer * Plane :=
  let scope := scope_of principal (CancelReqWS req) "workspace.lease.cancel" in
  idempotent scope (CancelReqKey req) OpWSLeaseCancel (ReqCancel req)
    (lease_cancel now rnow tx scope req) p.

Definition wsLeaseGet (id : string) (p : Plane)
  : result Refusal (option WorkspaceLease * option LifecycleDeadline) :=
  match workspace_of p id with
  | None => Err (RCode CodeNotFound)
  | Some (_, h) =>
      match Lease h, Deadline h with
      | None, None => Err (RCode CodeNotFound)
      | l, d => Ok (l, d)
      end
  end.

Definition policy_checks (req : WSIdlePolicyReq) : option Refusal :=
  if (PolicyReqSleep req <? 0) || (PolicyReqDestroy req <? 0) then Some (RCode CodeBadRequest)
  else if (MaxLeaseSec o <? PolicyReqSleep req) || (MaxLeaseSec o <? PolicyReqDestroy req) then
    Some (RCode CodeBadRequest)
  else None.

(** The common end of [wsIdlePolicy] and [wsIdleMark]: the checks of the
    workspace, the change, and the commit. *)
Definition idle_commit (rnow : Z) (tx : option Z) (id scope key : string) (op : Op) (request : Request)
    (change : Hold -> Hold) (p : Plane) : result Refusal Answer * Plane :=
  match workspace_of p id with
  | None => (Err (RCode CodeNotFound), p)
  | Some (ws, h) =>
      if is_state WSDestroyed ws then (Err (RCode CodeConflict), p)
      else if lifecycleBusy h then (Err (RReason CodeConflict ReasonLifecycleDeadlineExpired), p)
      else
        let next := clearFailedDeadline (change h) in
        let '(next, timer) := reconcileLifecycleLocked rnow (lifecycle_timer p id) ws next in
        match commitHold p ws next timer (record_of scope key op request (AnswerWorkspace ws next)) tx with
        | (Ok _, p) => (Ok (AnswerWorkspace ws next), p)
        | (Err e, p) => (Err e, p)
        end
  end.

Definition install_policy (req : WSIdlePolicyReq) : Hold -> Hold :=
  set_Policy (if (PolicyReqSleep req =? 0) && (PolicyReqDestroy req =? 0) then None
              else Some (mkPolicy (PolicyReqSleep req) (PolicyReqDestroy req))).

Definition wsIdlePolicy (rnow : Z) (tx : option Z) (principal : string) (req : WSIdlePolicyReq) (p : Plane)
  : result Refusal Answer * Plane :=
  let scope := scope_of principal (PolicyReqWS req) "workspace.idle.policy" in
  idempotent scope (PolicyReqKey req) OpWSIdlePolicy (ReqPolicy req) (fun p =>
  match policy_checks req with
  | Some e => (Err e, p)
  | None =>
      with_reservation o (PolicyReqWS req)
        (idle_commit rnow tx (PolicyReqWS req) scope (PolicyReqKey req) OpWSIdlePolicy (ReqPolicy req)
           (install_policy req)) p
  end) p.

Definition mark_idle (now : Z) (idle : bool) (h : Hold) : Hold :=
  if idle then (if IdleSince h =? 0 then set_IdleSince now h else h) else set_active now h.

Definition wsIdleMark (now rnow : Z) (tx : option Z) (principal : string) (req : WSIdleMarkReq) (p : Plane)
  : result Refusal Answer * Plane :=
  let scope := scope_of principal (MarkReqWS req) "workspace.idle.mark" in
  idempotent scope (MarkReqKey req) OpWSIdleMark (ReqMark req) (fun p =>
  with_reservation o (MarkReqWS req)
    (idle_commit rnow tx (MarkReqWS req) scope (MarkReqKey req) OpWSIdleMark (ReqMark req)
       (mark_idle now (MarkReqIdle req))) p) p.
End handlers.

(** ** What the other workspace operations do to a hold *)

(** The last section of [wsMove]. *)
Definition move_section (now : Z) (requires : option string) (tx : option Z) (current : Workspace)
    (snap : string) (p : Plane) : result Refusal Workspace * Plane :=
  match move_commit requires tx current snap (core p) with
  | (Err e, c) => (Err (RCode e), set_core c p)
  | (Ok w, c) =>
      let '(h, retired) :=
        retireLifecycleLocked now LeaseEndMoved (lifecycle_timer p (ID w)) (hold_of p (ID w)) in
      (Ok w, write_hold (ID w) (set_IdleSince 0 h) (option_list retired) None (set_core c p))
  end.

(** The timers [wsDestroy] retires: every one of the workspace that waits. *)
Definition destroyed_timers (now : Z) (id : string) (p : Plane) : list Timer :=
  omap (fun kt => if (TimerWS kt.2 =s id) && negb (TimerFired kt.2)
                  then Some (retire_timer now LeaseEndDestroyed kt.2) else None)
       (map_to_list (timers p)).

(** The last section of [wsDestroy]. *)
Definition destroy_section (now : Z) (tx : option Z) (id : string) (gen : Z) (wasHeld : bool) (p : Plane)
  : result Refusal Workspace * Plane :=
  match destroy_commit tx id gen wasHeld (core p) with
  | (Err e, c) => (Err (RCode e), set_core c p)
  | (Ok w, c) =>
      (Ok w, write_hold (ID w) (set_Deadline None (end_live now LeaseEndDestroyed (hold_of p (ID w))))
               (destroyed_timers now id p) None (set_core c p))
  end.

Record WakeSpec := mkWakeSpec {
  WakeAt : Z; WakeOn : string; WakeMatch : list (string * string) }.

(** The last section of [wsSleep], with the wake timer it arms; the hold fields
    of the row are copied as they are. *)
Definition sleep_section (now : Z) (timer : string) (spec : WakeSpec) (tx : option Z) (current : Workspace)
    (snap : string) (p : Plane) : result Refusal Workspace * Plane :=
  match sleep_commit tx current snap (core p) with
  | (Err e, c) => (Err (RCode e), set_core c p)
  | (Ok w, c) =>
      let t := mkTimer timer (ID w) (WakeAt spec) (WakeOn spec) (WakeMatch spec) "resume" false 0 now
                 TimerKindResume 0 false EmptyString in
      (Ok w, write_hold (ID w) (hold_of p (ID w)) [t] None (set_core c p))
  end.

Definition fire_timer (now : Z) (t : Timer) : Timer :=
  mkTimer (TimerKey t) (TimerWS t) (TimerAt t) (OnEvent t) (Match t) (TimerAction t) true now
    (TimerCreatedAt t) (Kind t) (TimerGeneration t) (Superseded t) (TimerReason t).

(** [wsWake]; [timerID] is empty for a caller's wake. *)
Definition wake_section (now : Z) (tx : option Z) (id timerID : string) (p : Plane)
  : result Refusal Workspace * Plane :=
  match workspaces (core p) !! id with
  | None => (Err (RCode CodeNotFound), p)
  | Some ws =>
      if is_state WSDestroyed ws then (Err (RCode CodeConflict), p)
      else
        let named := if timerID =s "" then Ok None
                     else match timers p !! timerID with
                          | Some t => if TimerWS t =s id then Ok (Some t) else Err CodeNotFound
                          | None => Err CodeNotFound
                          end in
        match named with
        | Err e => (Err (RCode e), p)
        | Ok named =>
            let fires := match named with Some t => negb (TimerFired t) | None => false end in
            if negb (is_state WSPaused ws) && negb fires then (Ok ws, p)
            else
              match wsWake fires tx id (core p) with
              | (Err e, c) => (Err (RCode e), set_core c p)
              | (Ok w, c) =>
                  (Ok w, write_hold (ID w) (hold_of p (ID w)) (option_list (fire_timer now <$> named)) None
                           (set_core c p))
              end
        end
  end.

(** ** Expiry *)

(** What one tick decided under the lock and carries out afterwards. *)
Record Plan := mkPlan {
  retire : list Timer; claims : list (string * LifecycleDeadline); resume : list (string * LifecycleDeadline) }.

Definition no_plan : Plan := mkPlan [] [] [].

(** One timer of the range over [c.timers]. *)
Definition plan_timer (now : Z) (p : Plane) (key : string) (plan : Plan) : Plan :=
  match timers p !! key with
  | None => plan
  | Some t =>
      if TimerFired t || negb (Lifecycle t) then plan
      else match lifecycleTimerStale (workspace_of p (TimerWS t)) t with
      | Some reason => mkPlan (retire plan ++ [retire_timer now reason t]) (claims plan) (resume plan)
      | None =>
          if now <? TimerAt t then plan
          else if negb (lifecycleActionable (workspaces (core p) !! TimerWS t) (TimerAction t)) then plan
          else match Deadline (hold_of p (TimerWS t)) with
          | Some d => mkPlan (retire plan) (claims plan ++ [(TimerWS t, d)]) (resume plan)
          | None => plan
          end
      end
  end.

Definition backing_off (now : Z) (s : option lifecycleState) : bool :=
  match s with Some s => inFlight s || (now * Millisecond <? after s) | None => false end.

(** One workspace of the range over [c.workspaces]. *)
Definition plan_workspace (now : Z) (p : Plane) (id : string) (plan : Plan) : Plan :=
  match workspace_of p id with
  | None => plan
  | Some (w, h) =>
      match Deadline h with
      | None => plan
      | Some d =>
          if negb (Fired d) || ExpiryFailed d then plan
          else if negb (lifecycleActionable (Some w) (Action d)) then plan
          else if backing_off now (lifecycleWork p !! ID w) then plan
          else mkPlan (retire plan) (claims plan) (resume plan ++ [(ID w, d)])
      end
  end.

(** The locked section of [expireLifecycle]; the two lists are the orders of
    its ranges over the maps. *)
Definition expire_plan (now : Z) (torder worder : list string) (p : Plane) : Plan :=
  foldl (fun plan id => plan_workspace now p id plan)
    (foldl (fun plan key => plan_timer now p key plan) no_plan torder) worder.

(** The row of an orphan is deleted whether or not the statement succeeds, as
    far as the process is concerned; [deleted] is its outcome. *)
Definition retireLifecycleTimer (tx : option Z) (deleted : bool) (retired : Timer) (p : Plane) : Plane :=
  match timers p !! TimerKey retired with
  | None => p
  | Some live =>
      if TimerFired live then p
      else match workspace_of p (TimerWS retired) with
      | None =>
          mkPlane (core p) (holds p) (hold_rows p) (delete (TimerKey retired) (timers p))
            (if deleted then delete (TimerKey retired) (timer_rows p) else timer_rows p) (mutations p)
            (timerReservations p) (timerReservationsByWS p) (lifecycleWork p)
      | Some (ws, h) => snd (commitHold p ws h (Some retired) None tx)
      end
  end.

Definition claim_timer (now : Z) (generation : Z) (t : Timer) : Timer :=
  mkTimer (TimerKey t) (TimerWS t) (TimerAt t) (OnEvent t) (Match t) (TimerAction t) true now
    (TimerCreatedAt t) (Kind t) generation (Superseded t) LeaseEndDeadline.

Definition claim_deadline (now : Z) (d : LifecycleDeadline) : LifecycleDeadline :=
  mkDeadline (DeadlineAt d) (Action d) (Source d) (TimerID d) true now (ExpiryFailed d) (Attempts d)
    (ExpiryError d).

(** The locked section of [claimLifecycleDeadline]: the deadline it claimed,
    when it claimed one. *)
Definition claimLifecycleDeadline (now : Z) (tx : option Z) (id : string) (deadline : LifecycleDeadline)
    (p : Plane) : option LifecycleDeadline * Plane :=
  match workspace_of p id with
  | None => (None, p)
  | Some (ws, h) =>
      match Deadline h with
      | None => (None, p)
      | Some d =>
          if Fired d || negb (DeadlineAt d =? DeadlineAt deadline)
             || negb (lifecycleActionable (Some ws) (Action deadline)) then (None, p)
          else match lifecycle_timer p id with
          | None => (None, p)
          | Some t =>
              if TimerFired t then (None, p)
              else
                let claimed := claim_deadline now d in
                let next := set_Deadline (Some claimed) h in
                let next := if Source claimed =s LifecycleSourceLease then end_live now LeaseEndDeadline next
                            else next in
                match commitHold p ws next (Some (claim_timer now (Generation ws) t)) None tx with
                | (Ok _, p) => (Some claimed, p)
                | (Err _, p) => (None, p)
                end
          end
      end
  end.

(** The locked section of [startLifecycleExpiry]: whether it starts a goroutine. *)
Definition startLifecycleExpiry (id : string) (p : Plane) : bool * Plane :=
  let state := default (mkWork false 0) (lifecycleWork p !! id) in
  if inFlight state then (false, set_work (<[id := state]>) p)
  else (true, set_work (<[id := mkWork true (after state)]>) p).

(** [cause] is the error of the attempt, if it failed; [now] is the instant
    [c.now()] in nanoseconds. *)
Definition attempt_failed (cause : string) (d : LifecycleDeadline) : LifecycleDeadline :=
  let attempts := Attempts d + 1 in
  mkDeadline (DeadlineAt d) (Action d) (Source d) (TimerID d) (Fired d) (FiredAt d)
    (ExpiryFailed d || (lifecycleExpiryAttempts <=? attempts)) attempts cause.

Definition finishLifecycleExpiry (now rnow : Z) (tx : option Z) (id : string) (cause : option string)
    (p : Plane) : Plane :=
  let state := lifecycleWork p !! id in
  let p := match state with
           | Some s => set_work (<[id := mkWork false (after s)]>) p
           | None => p
           end in
  match workspace_of p id with
  | None => set_work (delete id) p
  | Some (ws, h) =>
      let '(next, p) :=
        match cause, Deadline h with
        | None, _ => (end_live (unixMilli now) LeaseEndDeadline (set_Deadline None h), set_work (delete id) p)
        | Some _, None => (h, set_work (delete id) p)
        | Some err, Some d =>
            let attempted := attempt_failed err d in
            (set_Deadline (Some attempted) h,
             if lifecycleExpiryAttempts <=? Attempts attempted then set_work (delete id) p
             else match state with
                  | Some _ => set_work (<[id := mkWork false (now + lifecycleExpiryBackoff)]>) p
                  | None => p
                  end)
        end in
      let '(next, timer) := reconcileLifecycleLocked rnow (lifecycle_timer p id) ws next in
      snd (commitHold p ws next timer None tx)
  end.

(** The first read of [lifecycleSleep]: an outcome, or the copy it goes on with. *)
Definition lifecycle_sleep_read (id : string) (p : Plane) : result bool Workspace :=
  match workspaces (core p) !! id with
  | None => Err false
  | Some ws =>
      if is_state WSDestroyed ws then Err false
      else if is_state WSPaused ws then Err true
      else Ok ws
  end.

(** Its last section, on the workspace: [Ok None] when it is paused already. *)
Definition lifecycle_sleep_core (tx : option Z) (current : Workspace) (snap : string) (c : Control)
  : result Code (option Workspace) * Control :=
  with_ws c (ID current) CodeConflict (fun ws =>
  if is_state WSDestroyed ws then (Err CodeConflict, c)
  else if is_state WSPaused ws then (Ok None, c)
  else if negb (Generation ws =? Generation current) then (Err CodeConflict, c)
  else
    with_transition c ws
      (mkTransition transitionSleep actorControl WSPaused (Some (Generation current)) None) (fun next =>
    match commitWS c (set_LeaseUntil 0 (set_Node EmptyString
            (set_restore snap (LastSnapshotFormat ws) (LastSnapshotObjects ws) next))) tx with
    | (Ok w, c') => (Ok (Some w), c')
    | (Err e, c') => (Err e, c')
    end)).

(** The whole last section: the spent deadline, the ended hold, the follow-on
    schedule and the paused state commit together. *)
Definition lifecycle_sleep_commit (now rnow : Z) (tx : option Z) (current : Workspace) (snap : string)
    (p : Plane) : bool * Plane :=
  match lifecycle_sleep_core tx current snap (core p) with
  | (Err _, c) => (false, set_core c p)
  | (Ok None, c) => (true, set_core c p)
  | (Ok (Some w), c) =>
      let next := end_live now LeaseEndDeadline (set_Deadline None (hold_of p (ID w))) in
      let '(next, timer) := reconcileLifecycleLocked rnow (lifecycle_timer p (ID w)) w next in
      (true, write_hold (ID w) next (option_list timer) None (set_core c p))
  end.

(** ** Retention and restart *)

(** When a spent timer was spent; records written before [FiredAt] existed
    count from their creation. *)
Definition spent_at (t : Timer) : Z := if TimerFiredAt t =? 0 then TimerCreatedAt t else TimerFiredAt t.

Definition older (a b : Timer) : bool :=
  if spent_at a =? spent_at b then String.ltb (TimerKey a) (TimerKey b) else spent_at a <? spent_at b.

Definition timer_candidates (cutoff limit : Z) (p : Plane) : list Timer :=
  take (Z.to_nat limit)
    (sort_by older (filter (fun t => TimerFired t = true /\ spent_at t < cutoff) (map snd (map_to_list (timers p))))).

(** The timer part of [PruneRecords], whose transaction committed. *)
Definition prune_timers (cutoff limit : Z) (p : Plane) : Plane :=
  let drop (m : gmap string Timer) := foldl (fun m t => delete (TimerKey t) m) m (timer_candidates cutoff limit p) in
  mkPlane (core p) (holds p) (hold_rows p) (drop (timers p)) (drop (timer_rows p)) (mutations p)
    (timerReservations p) (timerReservationsByWS p) (lifecycleWork p).

(** [load] for this component: the rows come back, the bookkeeping does not. *)
Definition reload (c : Control) (p : Plane) : Plane :=
  mkPlane c (hold_rows p) (hold_rows p) (timer_rows p) (timer_rows p) (mutations p) 0 ∅ ∅.
End Holds.
