(* ===== verification/HoldsProofs.v ===== *)
(** * Lemmas about holds and deadlines

    Every section of [Holds], and every section of [Control] that may run
    between two of them, keeps one invariant of the plane ([plane_ok]): the rows
    and the process agree, and so do the published deadline of a workspace and
    the timer that is armed for it. *)

From Stdlib Require Import ZArith Lia Strings.String.
From stdpp Require Import base list gmap strings option relations.
From S2P Require Import Prelude Lifecycle Control ControlProofs Holds.
#[local] Open Scope Z_scope.

Module HoldsProofs.
Import Lifecycle Control ControlProofs Holds.

(** A clock reading, in milliseconds. *)
Definition clock_ok (now : Z) : Prop := 0 < now < 2 ^ 62.

(** [ids.New] does not give a timer the name of a lifecycle slot, nor a name in use. *)
Definition fresh_timer (p : Plane) (timer : string) : Prop :=
  timers p !! timer = None /\ forall ws, timer <> lifecycleTimerID ws.

(** The sections of [Control] that copy the hold fields of the row unchanged.
    The others are steps of their own below; of the retention of records only
    the timers are a step, a destroyed workspace stays known. *)
Definition plain (r : request) : bool :=
  match r with
  | RCreate _ _ _ _ _ _ | RDestroyCommit _ _ _ _ | RMove _ _ _ _ | RSleep _ _ _ | RWake _ _ _
  | RPrune _ _ | RRestart _ _ => false
  | _ => true
  end.

(** ** What a section of [Control] keeps of a workspace it did not create

    The tenant stays, and only [wsDestroy] and a fleet operation destroy. *)
Definition kept (w w' : Workspace) : Prop :=
  Tenant w' = Tenant w /\ (State w' = WSDestroyed -> State w = WSDestroyed).

Definition keeps (c c' : Control) : Prop :=
  forall id w', workspaces c' !! id = Some w' -> exists w, workspaces c !! id = Some w /\ kept w w'.

Lemma kept_refl w : kept w w.
Proof. by split. Qed.

Lemma keeps_refl c : keeps c c.
Proof. intros id w Hw. eauto using kept_refl. Qed.

Lemma keeps_trans c1 c2 c3 : keeps c1 c2 -> keeps c2 c3 -> keeps c1 c3.
Proof.
  intros H12 H23 id w3 Hw3. destruct (H23 id w3 Hw3) as (w2 & Hw2 & Ht & Hd).
  destruct (H12 id w2 Hw2) as (w1 & Hw1 & Ht' & Hd'). exists w1. unfold kept. split; [done|].
  split; [congruence|auto].
Qed.

Lemma keeps_same c c' : workspaces c' = workspaces c -> keeps c c'.
Proof. intros He id w. rewrite He. eauto using kept_refl. Qed.

Lemma keeps_insert c c' id w w' :
  workspaces c !! id = Some w -> workspaces c' = <[id := w']> (workspaces c) -> kept w w' -> keeps c c'.
Proof.
  intros Hl He Hk id0 w0. rewrite He. destruct (decide (id0 = id)) as [-> |Hne].
  - rewrite lookup_insert_eq. intros [= <-]. eauto.
  - rewrite lookup_insert_ne by done. eauto using kept_refl.
Qed.

Lemma keeps_foldl {A} (f : Control -> A -> Control) l :
  (forall c x, wf c -> wf (f c x) /\ keeps c (f c x)) -> forall c, wf c -> keeps c (foldl f c l).
Proof.
  intros Hf. induction l as [|x l IH]; intros c Hc; [apply keeps_refl|].
  destruct (Hf c x Hc) as [Hw Hk]. eapply keeps_trans; [exact Hk|by apply IH].
Qed.

Lemma keeps_committed c id w next tx :
  wf c -> workspaces c !! id = Some w -> ID next = ID w -> kept w next -> keeps c (snd (commitWS c next tx)).
Proof.
  intros Hwf Hl Hid Hk. destruct (commitWS_cases c next tx) as [[_ ->]|(t & _ & ->)]; [apply keeps_refl|].
  rewrite (wf_lookup c id w Hwf Hl) in Hid. eapply keeps_insert; [exact Hl|cbn; by rewrite Hid|done].
Qed.

Lemma keeps_commit_claim c id w next tx :
  wf c -> workspaces c !! id = Some w -> ID next = ID w -> kept w next -> keeps c (snd (commitClaim c next tx)).
Proof.
  intros Hwf Hl Hid Hk. unfold commitClaim, persistClaim. destruct tx as [t|]; [|apply keeps_refl].
  rewrite (wf_lookup c id w Hwf Hl) in Hid. eapply keeps_insert; [exact Hl|cbn; by rewrite Hid|done].
Qed.

(** A transition to any state but [WSDestroyed]. *)
Lemma kept_transition w req next :
  transitionWorkspace (Some w) req = Ok next -> to req <> WSDestroyed -> ID next = ID w /\ kept w next.
Proof.
  intros Ht Hto. apply transition_ok in Ht as (-> & _). split; [done|]. split; [done|]. cbn. congruence.
Qed.

(** Walk a section down to its commit. *)
Ltac kwalk :=
  cbv zeta;
  repeat first
    [ apply keeps_refl
    | match goal with
      | |- keeps _ (snd (with_ws ?c ?id _ _)) =>
          unfold with_ws at 1; let ws := fresh "ws" in destruct (workspaces c !! id) as [ws|] eqn:?
      | |- keeps _ (snd (with_transition _ ?w ?t _)) =>
          unfold with_transition at 1; let next := fresh "next" in
          destruct (transitionWorkspace (Some w) t) as [next|] eqn:?
      | |- keeps _ (snd (if ?b then _ else _)) => destruct b eqn:?
      | |- keeps _ (snd (match ?x with Ok _ => _ | Err _ => _ end)) => destruct x eqn:?
      | |- keeps _ (snd (match ?x with Some _ => _ | None => _ end)) => destruct x eqn:?
      end ].

(** The row a commit writes, from the transition or the copy it starts from. *)
Ltac kept_row :=
  repeat match goal with
  | H : transitionWorkspace (Some _) _ = Ok _ |- _ => apply kept_transition in H as [? [? ?]]; [|discriminate]
  end;
  unfold kept, choose_backend, with_backend, acl_update in *; repeat case_match; cbn in *; split_and?;
  solve [done|congruence|auto].

Ltac kcommit :=
  first [ eapply keeps_committed; [assumption|eassumption|kept_row|kept_row]
        | eapply keeps_commit_claim; [assumption|eassumption|kept_row|kept_row] ].

Section control_keeps.
Context (o : Options) (eligible : Workspace -> string -> option string).

Lemma claim_keeps now tx node id c : wf c -> keeps c (snd (wsClaim o eligible now tx node id c)).
Proof.
  intros Hwf. unfold wsClaim. kwalk; kcommit.
Qed.

(** Sections whose result only repackages the one of a commit, or that change
    another part of the state as well. *)
Lemma keeps_repackaged {A} c next tx (f : Workspace -> A) :
  keeps c (snd (commitWS c next tx)) ->
  keeps c (snd (match commitWS c next tx with (Ok w, c') => (Ok (f w), c') | (Err e, c') => (Err e, c') end
                : result Code A * Control)).
Proof. by rewrite repackaged. Qed.

Lemma ready_keeps now tx node id gen processes c : wf c -> keeps c (snd (wsReady o now tx node id gen processes c)).
Proof.
  intros Hwf. unfold wsReady. kwalk; try kcommit.
  destruct (commitWS c _ tx) as [[w|e] c'] eqn:E; cbn.
  - eapply keeps_trans; [|apply keeps_same; reflexivity]. change c' with (snd (Ok (E := Code) w, c')).
    rewrite <-E. kcommit.
  - change c' with (snd (Err (A := Workspace) e, c')). rewrite <-E. kcommit.
Qed.

Lemma snapshot_keeps verify tx node id gen snapshot format c :
  wf c -> keeps c (snd (wsSnapshotCommit verify tx node id gen snapshot format c)).
Proof. intros Hwf. unfold wsSnapshotCommit. kwalk; kcommit. Qed.

Lemma released_keeps verify now tx node req c : wf c -> keeps c (snd (wsReleased verify now tx node req c)).
Proof.
  intros Hwf. unfold wsReleased.
  destruct (NormalizeArtifactFormat _) as [format|]; [|apply keeps_refl]. cbv zeta.
  destruct (if Snapshot req <>s "" then verify else None) as [[objects|]|]; try apply keeps_refl.
  all: assert (Hs : forall id, let c' := if Control.Failed req then snd (holdBackLocked now id c) else c in
         workspaces c' = workspaces c /\ wf c')
         by (intros id; destruct (Control.Failed req); [|done]; split; [done|];
             by apply (good_side ∅ c (snd (holdBackLocked now id c)))).
  all: kwalk; destruct (Hs (ID ws)) as [Hw Hwf'];
    (eapply keeps_trans; [apply keeps_same, Hw|]);
    (eapply keeps_committed; [exact Hwf'|rewrite Hw; eassumption|kept_row|kept_row]).
Qed.

Lemma release_begin_keeps capable operation tx id c :
  wf c -> keeps c (snd (release_begin capable operation tx id c)).
Proof. intros Hwf. unfold release_begin. kwalk; destruct (State ws) eqn:?; kwalk; apply keeps_repackaged; kcommit. Qed.

Lemma release_commit_keeps verify tx id node gen snapshot res c :
  wf c -> keeps c (snd (release_commit verify tx id node gen snapshot res c)).
Proof. intros Hwf. unfold release_commit. kwalk; apply keeps_repackaged; kcommit. Qed.

Lemma abort_keeps now acked tx id node gen expected c :
  wf c -> keeps c (snd (abort_publish o now acked tx id node gen expected c)).
Proof. intros Hwf. unfold abort_publish. destruct acked; kwalk; kcommit. Qed.

Lemma finish_abort_keeps now tx id node gen operation c :
  wf c -> keeps c (snd (finish_abort o now tx id node gen operation c)).
Proof. intros Hwf. unfold finish_abort. kwalk; kcommit. Qed.

Lemma released_cleanup_keeps tx id node gen c : wf c -> keeps c (snd (released_cleanup tx id node gen c)).
Proof. intros Hwf. unfold released_cleanup. kwalk; kcommit. Qed.

Lemma recover_released_keeps tx id c : wf c -> keeps c (snd (recover_released tx id c)).
Proof. intros Hwf. unfold recover_released. kwalk; kcommit. Qed.

Lemma destroy_begin_keeps online capable operation tx id c :
  wf c -> keeps c (snd (destroy_begin online capable operation tx id c)).
Proof. intros Hwf. unfold destroy_begin. kwalk; apply keeps_repackaged; kcommit. Qed.

Lemma destroyed_cleanup_keeps tx id node gen c : wf c -> keeps c (snd (destroyed_cleanup tx id node gen c)).
Proof. intros Hwf. unfold destroyed_cleanup. kwalk; kcommit. Qed.

Lemma acl_keeps tx id readers writers c : wf c -> keeps c (snd (wsACL tx id readers writers c)).
Proof. intros Hwf. unfold wsACL. kwalk; kcommit. Qed.

Lemma renew_loop_keeps until node req ids : forall acc c, wf c -> keeps c (snd (renew_loop until node req ids acc c)).
Proof.
  induction ids as [|[id tx] ids IH]; intros acc c Hwf; [apply keeps_refl|]. cbn [renew_loop]. cbv zeta.
  destruct (workspaces c !! id) as [ws|] eqn:Hl; [|by apply IH].
  destruct (_ || _ || _ || _); [by apply IH|].
  assert (Hk : keeps c (snd (commitWS c (set_LeaseUntil until ws) tx))) by kcommit.
  assert (Hw : wf (snd (commitWS c (set_LeaseUntil until ws) tx))).
  { apply (commit_good ∅ c id ws); [done| |done]. intros _. by apply view_derived. }
  destruct (commitWS _ _ _) as [[w|e] c']; [|done]. cbn in Hk, Hw.
  repeat case_match; (eapply keeps_trans; [exact Hk|by apply IH]).
Qed.

Lemma renew_keeps now seen node req c : wf c -> keeps c (snd (wsRenew o now seen node req c)).
Proof.
  intros Hwf. unfold wsRenew. case_match; [apply keeps_refl|].
  pose proof (renew_loop_keeps (leaseFrom o now) node req (IDs req) [] c Hwf) as Hk.
  destruct (renew_loop _ _ _ _ _ _) as [[res|e] c']; [|done]. eapply keeps_trans; [exact Hk|].
  apply keeps_same. unfold touch_node. cbn. by case_match.
Qed.

Lemma demote_keeps node c e : wf c -> keeps c (demote_one node c e).
Proof.
  intros Hwf. unfold demote_one. destruct (workspaces c !! fst e) as [ws|] eqn:Hl; [|apply keeps_refl].
  case_match; [|apply keeps_refl]. destruct (transitionWorkspace _ _) eqn:?; [|apply keeps_refl]. kcommit.
Qed.

Lemma peer_gone_keeps order seen node c : wf c -> keeps c (PeerGone order seen node c).
Proof.
  intros Hwf. unfold PeerGone. case_match; [|apply keeps_refl].
  eapply keeps_trans; [|apply keeps_foldl].
  - by apply keeps_same.
  - intros c0 x Hc. split; [by apply (demote_good ∅ node c0 x)|by apply demote_keeps].
  - done.
Qed.

Lemma expire_keeps now c e : wf c -> keeps c (expire_one now c e).
Proof.
  intros Hwf. unfold expire_one. destruct (workspaces c !! fst e) as [ws|] eqn:Hl; [|apply keeps_refl].
  case_match; [|apply keeps_refl]. cbv zeta.
  destruct (nextWorkspaceGeneration (Generation ws)) as [g|]; cbn [is_ok];
    (destruct (transitionWorkspace _ _) eqn:?; [|apply keeps_refl]); kcommit.
Qed.

Lemma exec_keeps c r : plain r = true -> wf c -> keeps c (exec o eligible c r).
Proof.
  intros Hp Hwf. destruct r; try discriminate Hp; cbn [exec];
    auto using claim_keeps, ready_keeps, snapshot_keeps, released_keeps, release_begin_keeps,
      release_commit_keeps, abort_keeps, finish_abort_keeps, released_cleanup_keeps, recover_released_keeps,
      destroy_begin_keeps, destroyed_cleanup_keeps, acl_keeps, renew_keeps, peer_gone_keeps.
  apply keeps_foldl; [|done]. intros c0 x Hc. split; [by apply (expire_good ∅ now c0 x)|by apply expire_keeps].
Qed.

Lemma wake_keeps fires tx id c : wf c -> keeps c (snd (wsWake fires tx id c)).
Proof. intros Hwf. unfold wsWake. kwalk; kcommit. Qed.

Lemma move_keeps requires tx current snap c : wf c -> keeps c (snd (move_commit requires tx current snap c)).
Proof. intros Hwf. unfold move_commit. kwalk; kcommit. Qed.

Lemma sleep_keeps tx current snap c : wf c -> keeps c (snd (sleep_commit tx current snap c)).
Proof. intros Hwf. unfold sleep_commit. kwalk; kcommit. Qed.

Lemma lifecycle_sleep_keeps tx current snap c : wf c -> keeps c (snd (lifecycle_sleep_core tx current snap c)).
Proof. intros Hwf. unfold lifecycle_sleep_core. kwalk; apply keeps_repackaged; kcommit. Qed.
End control_keeps.

(** ** The invariant

    Until the workspace is destroyed, the published deadline and the timer row
    agree: a pending deadline has its timer armed for the same instant and
    action, and in every other case the slot is spent; what a pending deadline
    promises the holder goes with it.  What an executed deadline counts holds
    for every workspace. *)
Definition spent (t : option Timer) : Prop :=
  match t with Some t => TimerFired t = true | None => True end.

Definition armed (id : string) (d : LifecycleDeadline) (t : option Timer) : Prop :=
  exists t0, t = Some t0 /\ TimerFired t0 = false /\ TimerAt t0 = DeadlineAt d /\ TimerAction t0 = Action d /\
    Kind t0 = timerKind (Some d) /\ TimerID d = lifecycleTimerID id.

Definition promised (h : Hold) (d : LifecycleDeadline) : Prop :=
  forall l, Lease h = Some l -> Live (Lease h) = true ->
    MinAliveUntil l <= DeadlineAt d /\ (Source d = LifecycleSourceLease -> DeadlineAt d = MaxAliveUntil l).

Definition pending_ok (id : string) (h : Hold) (d : LifecycleDeadline) (t : option Timer) : Prop :=
  armed id d t /\ promised h d.

(** Five failed attempts, and no fewer, mark a deadline failed, and only one
    that was claimed is attempted. *)
Definition counts (d : LifecycleDeadline) : Prop :=
  if Fired d then 0 <= Attempts d /\ ExpiryFailed d = (lifecycleExpiryAttempts <=? Attempts d)
  else Attempts d = 0 /\ ExpiryFailed d = false.

Definition counts_ok (h : Hold) : Prop := forall d, Deadline h = Some d -> counts d.

Definition matches (id : string) (h : Hold) (t : option Timer) : Prop :=
  match Deadline h with
  | Some d =>
      if Fired d then spent t else pending_ok id h d t
  | None => spent t
  end.

(** A workspace, or an id that has none yet, that is not destroyed. *)
Definition alive (c : Control) (id : string) : Prop :=
  forall w, workspaces c !! id = Some w -> State w <> WSDestroyed.

Definition lease_ok (h : Hold) : Prop :=
  forall l, Lease h = Some l -> MinAliveUntil l <= MaxAliveUntil l.

Definition keys_ok (m : gmap string Timer) : Prop :=
  forall k t, m !! k = Some t ->
    TimerKey t = k /\ (forall id, k = lifecycleTimerID id -> TimerWS t = id) /\
    (Holds.Lifecycle t = true -> k = lifecycleTimerID (TimerWS t)) /\
    (forall id, k = lifecycleTimerID id -> Holds.Lifecycle t = true).

Record plane_ok (p : Plane) : Prop := {
  ok_wf : wf (core p);
  ok_hold_rows : hold_rows p = holds p;
  ok_timer_rows : timer_rows p = timers p;
  ok_keys : keys_ok (timers p);
  ok_match : forall id, alive (core p) id -> matches id (hold_of p id) (lifecycle_timer p id);
  ok_counts : forall id, counts_ok (hold_of p id);
  ok_lease : forall id, lease_ok (hold_of p id);
  ok_gone : forall id, workspaces (core p) !! id = None -> holds p !! id = None }.

Lemma lifecycleTimerID_inj a b : lifecycleTimerID a = lifecycleTimerID b -> a = b.
Proof. exact (inj (String.append "t_lc_") a b). Qed.

(** *** Derivation *)

Lemma idleDeadline_floor ws h at_ action l :
  idleDeadline ws h = (at_, action) -> 0 < at_ -> Lease h = Some l -> Live (Lease h) = true ->
  MinAliveUntil l <= at_.
Proof.
  unfold idleDeadline. intros He Hpos Hl Hlive. rewrite Hlive, Hl in He.
  destruct (Policy h) as [pol|]; [|simplify_eq; lia].
  repeat (case_match; simplify_eq; try lia).
  all: repeat match goal with H : (_ <? _) = _ |- _ => first [apply Z.ltb_ge in H|apply Z.ltb_lt in H] end; lia.
Qed.

Lemma derive_ok ws h d :
  lease_ok h -> deriveDeadline ws h = Some d ->
  promised h d /\ Fired d = false /\ TimerID d = lifecycleTimerID (ID ws) /\ Attempts d = 0 /\
  ExpiryFailed d = false /\ State ws <> WSDestroyed.
Proof.
  intros Hok. unfold deriveDeadline. destruct (is_state WSDestroyed ws) eqn:Hdead; [done|].
  assert (Hs : State ws <> WSDestroyed) by (by apply bool_decide_eq_false_1 in Hdead).
  destruct (idleDeadline ws h) as [at_ action] eqn:Hidle.
  assert (Hp : forall l, 0 < at_ -> Lease h = Some l -> Live (Lease h) = true -> MinAliveUntil l <= at_)
    by (intros l ?; eapply idleDeadline_floor; eauto).
  intros Hd. destruct (0 <? at_) eqn:Hpos;
    [apply Z.ltb_lt in Hpos|]; (destruct (Lease h) as [l|] eqn:Hl; [destruct (Live (Some l) && _) eqn:Hlive|]);
    repeat case_match; simplify_eq; cbn; (split; [|done]); intros l0 Hl0 Hlive0; cbn; rewrite Hl in *;
    simplify_eq; split; first [discriminate|by eauto|by apply Hok|done].
Qed.

(** The timer a section writes is the slot of its workspace. *)
Definition slot_of (id : string) (timer : option Timer) : Prop :=
  forall t, timer = Some t -> TimerKey t = lifecycleTimerID id /\ TimerWS t = id /\ Holds.Lifecycle t = true.

Lemma kind_is_lifecycle k id w at_ act fat cat d g sup r :
  Holds.Lifecycle (mkTimer k w at_ id [] act fat cat d (timerKind (Some g)) sup false r) = true.
Proof. unfold Holds.Lifecycle, timerKind. cbn. by repeat case_match. Qed.

Lemma retired_slot p id now reason :
  keys_ok (timers p) -> slot_of id (retired_copy now reason (lifecycle_timer p id)).
Proof.
  intros Hk t. unfold retired_copy, lifecycle_timer. case_match eqn:Hl; [|done]. case_match; [done|].
  intros [= <-]. destruct (Hk _ _ Hl) as (Hk' & Hw & _ & Hlc). cbn. split_and!; [done|by apply Hw|].
  by apply (Hlc id).
Qed.

Lemma rederive_ok rnow p id w h h' timer :
  ID w = id -> lease_ok h ->
  (deadline_fired h = true -> counts_ok h /\ (State w <> WSDestroyed -> matches id h (lifecycle_timer p id))) ->
  reconcileLifecycleLocked rnow (lifecycle_timer p id) w h = (h', timer) ->
  keys_ok (timers p) ->
  (State w <> WSDestroyed -> matches id h' (match timer with Some t => Some t | None => lifecycle_timer p id end)) /\
  slot_of id timer /\ counts_ok h' /\ Lease h' = Lease h /\ IdleSince h' = IdleSince h /\
  Policy h' = Policy h.
Proof.
  intros Hid Hok Hf Hr Hkeys. unfold reconcileLifecycleLocked in Hr.
  destruct (deadline_fired h) eqn:Hfired.
  { simplify_eq. destruct (Hf eq_refl). by split_and!. }
  destruct (deriveDeadline w h) as [d|] eqn:Hd; simplify_eq; cbn.
  - destruct (derive_ok w h d Hok Hd) as (Hp & Hfd & Hid & Ha & Hx & Hs). split_and!; try done.
    + intros _. unfold matches. cbn. rewrite Hfd. split; [|done]. eexists. by split_and!.
    + intros t [= <-]. split_and!; [done..|]. apply kind_is_lifecycle.
    + intros d0 [= <-]. unfold counts. by rewrite Hfd.
  - split_and!; try done.
    + intros _. unfold matches, retired_copy. cbn. destruct (lifecycle_timer p (ID w)) as [t|] eqn:Ht; [|done].
      by destruct (TimerFired t) eqn:?.
    + by apply retired_slot.
Qed.

(** *** Writing one hold *)

Lemma hold_of_write id h ts mut p id' :
  hold_of (write_hold id h ts mut p) id' = if decide (id' = id) then h else hold_of p id'.
Proof.
  unfold hold_of. cbn. case_decide; subst; [by rewrite lookup_insert_eq|by rewrite lookup_insert_ne].
Qed.

Lemma put_one t (m : gmap string Timer) k :
  put_timers [t] m !! k = if decide (k = TimerKey t) then Some t else m !! k.
Proof. cbn. case_decide; subst; [by rewrite lookup_insert_eq|by rewrite lookup_insert_ne]. Qed.

Lemma put_option timer (m : gmap string Timer) k :
  put_timers (option_list timer) m !! k =
  match timer with Some t => if decide (k = TimerKey t) then Some t else m !! k | None => m !! k end.
Proof. destruct timer; [apply put_one|done]. Qed.

Lemma keys_put timer m :
  keys_ok m ->
  (forall t, timer = Some t -> (forall id, TimerKey t = lifecycleTimerID id -> TimerWS t = id) /\
     (Holds.Lifecycle t = true -> TimerKey t = lifecycleTimerID (TimerWS t)) /\
     (forall id, TimerKey t = lifecycleTimerID id -> Holds.Lifecycle t = true)) ->
  keys_ok (put_timers (option_list timer) m).
Proof.
  intros Hm Ht k t. rewrite put_option. destruct timer as [t0|]; [|apply Hm].
  case_decide; [|apply Hm]. intros [= <-]. subst. by destruct (Ht t0 eq_refl) as (? & ? & ?).
Qed.

(** The condition on the other workspaces of a change of the [Control] part. *)
Definition core_ok (p : Plane) (id : string) (c : Control) : Prop :=
  wf c /\
  (forall id', id' <> id -> alive c id' -> alive (core p) id') /\
  is_Some (workspaces c !! id) /\
  (forall id', workspaces c !! id' = None -> workspaces (core p) !! id' = None).

Lemma write_ok p id c h ts mut :
  plane_ok p -> core_ok p id c -> lease_ok h -> counts_ok h ->
  keys_ok (put_timers ts (timers p)) ->
  (alive c id -> matches id h (put_timers ts (timers p) !! lifecycleTimerID id)) ->
  (forall id', id' <> id ->
     put_timers ts (timers p) !! lifecycleTimerID id' = lifecycle_timer p id') ->
  plane_ok (write_hold id h ts mut (set_core c p)).
Proof.
  intros Hp (Hwf & Halive & Hid & Hgone) Hl Hcnt Hkeys Hm Hother. destruct Hp.
  split; cbn; [done|by rewrite ok_hold_rows0|by rewrite ok_timer_rows0|done|..].
  - intros id' Ha. rewrite hold_of_write. unfold lifecycle_timer. cbn. case_decide; [subst; by apply Hm|].
    rewrite Hother by done. apply ok_match0. by apply Halive.
  - intros id'. rewrite hold_of_write. case_decide; [done|]. apply ok_counts0.
  - intros id'. rewrite hold_of_write. case_decide; [done|]. apply ok_lease0.
  - intros id' Hn. rewrite lookup_insert_ne; [by apply ok_gone0, Hgone|].
    intros ->. rewrite Hn in Hid. by destruct Hid.
Qed.

(** *** Sections that commit one hold *)

(** Mutation records, reservations and the bookkeeping of executions are not
    part of the invariant. *)
Lemma plane_ok_side p p' :
  core p' = core p -> holds p' = holds p -> hold_rows p' = hold_rows p -> timers p' = timers p ->
  timer_rows p' = timer_rows p -> plane_ok p -> plane_ok p'.
Proof.
  destruct p, p'. cbn. intros -> -> -> -> -> []. split; done.
Qed.

(** Nothing is forgotten and the destroyed stay destroyed. *)
Definition deaths_kept (c c' : Control) : Prop :=
  (forall id, workspaces c' !! id = None -> workspaces c !! id = None) /\
  (forall id, alive c' id -> alive c id).

Lemma deaths_kept_refl c : deaths_kept c c.
Proof. by split. Qed.

Lemma deaths_kept_same c c' : workspaces c' = workspaces c -> deaths_kept c c'.
Proof. intros He. unfold deaths_kept, alive. by rewrite He. Qed.

Lemma hstep_deaths used c c' : rtc hstep (abs used c) (abs used c') -> deaths_kept c c'.
Proof.
  intros Hr.
  assert (Hx : forall id w, workspaces c !! id = Some w -> exists w', workspaces c' !! id = Some w' /\
            outlives (view w) (view w')).
  { intros id w Hl. destruct (entry_run _ _ id (view w) Hr (lookup_view used c id w Hl)) as (v & Hv & Ho).
    cbn in Hv. rewrite lookup_fmap in Hv. apply fmap_Some in Hv as (w' & Hw' & ->). eauto. }
  split; intros id H.
  - destruct (workspaces c !! id) as [w|] eqn:Hl; [|done]. destruct (Hx id w Hl) as (w' & Hw' & _). congruence.
  - intros w Hl Hs. destruct (Hx id w Hl) as (w' & Hw' & _ & Hd & _). by apply (H w' Hw'), Hd.
Qed.

Lemma good_deaths c c' : wf c -> good ∅ c c' -> deaths_kept c c'.
Proof. intros Hwf Hg. destruct (Hg Hwf) as [_ Hr]. by eapply hstep_deaths. Qed.

(** A row written over one that was not destroyed, or by one that is. *)
Lemma deaths_kept_row c c' id ws w :
  workspaces c !! id = Some ws -> workspaces c' = <[id := w]> (workspaces c) ->
  (State ws = WSDestroyed -> State w = WSDestroyed) -> deaths_kept c c'.
Proof.
  intros Hl He Hs. split; intros id'; unfold alive; rewrite He; destruct (decide (id' = id)) as [-> |Hne].
  - by rewrite lookup_insert_eq.
  - by rewrite lookup_insert_ne.
  - rewrite lookup_insert_eq. intros Ha w0. rewrite Hl. intros [= <-] Hd. by apply (Ha w), Hs.
  - by rewrite lookup_insert_ne.
Qed.

Lemma core_ok_of p id c :
  wf c -> deaths_kept (core p) c -> is_Some (workspaces (core p) !! id) -> core_ok p id c.
Proof.
  intros Hwf [Hd Ha] Hid. split_and!; [done|auto| |done].
  destruct (workspaces c !! id) eqn:Hn; [done|]. rewrite (Hd id Hn) in Hid. done.
Qed.

Lemma set_core_ok p c :
  plane_ok p -> wf c -> deaths_kept (core p) c -> plane_ok (set_core c p).
Proof.
  intros Hp Hwf [Hd Ha]. destruct Hp. split; cbn; try done.
  - intros id Hal. apply ok_match0. by apply Ha.
  - intros id Hn. by apply ok_gone0, Hd.
Qed.

Lemma write_slot_ok p id c h timer mut :
  plane_ok p -> core_ok p id c -> lease_ok h -> counts_ok h -> slot_of id timer ->
  (alive c id -> matches id h (match timer with Some t => Some t | None => lifecycle_timer p id end)) ->
  plane_ok (write_hold id h (option_list timer) mut (set_core c p)).
Proof.
  intros Hp Hc Hl Hcnt Hslot Hm. apply write_ok; try done.
  - apply keys_put; [apply Hp|]. intros t Ht. destruct (Hslot t Ht) as (Hk & Hw & Hlc).
    rewrite Hk, Hw. split_and!; [by intros ? ->%lifecycleTimerID_inj|done..].
  - intros Ha. rewrite put_option. destruct timer as [t|]; [|by apply Hm]. destruct (Hslot t eq_refl) as [Hk _].
    rewrite decide_True by done. by apply Hm.
  - intros id' Hne. rewrite put_option. destruct timer as [t|]; [|done].
    destruct (Hslot t eq_refl) as [Hk _]. rewrite decide_False; [done|].
    rewrite Hk. by intros ?%lifecycleTimerID_inj.
Qed.

Lemma commitWS_deaths p id w tx :
  plane_ok p -> workspaces (core p) !! id = Some w ->
  wf (snd (commitWS (core p) w tx)) /\ deaths_kept (core p) (snd (commitWS (core p) w tx)).
Proof.
  intros Hp Hw. assert (Hg : good ∅ (core p) (snd (commitWS (core p) w tx)))
    by (apply (commit_good _ _ id w); [done|intros; apply derived_refl]).
  split; [apply Hg, Hp|]. by apply good_deaths; [apply Hp|].
Qed.

Lemma commitHold_ok p id w h timer mut tx :
  plane_ok p -> workspaces (core p) !! id = Some w -> lease_ok h -> counts_ok h -> slot_of id timer ->
  (State w <> WSDestroyed -> matches id h (match timer with Some t => Some t | None => lifecycle_timer p id end)) ->
  plane_ok (snd (commitHold p w h timer mut tx)).
Proof.
  intros Hp Hw Hl Hcnt Hslot Hm. destruct (commitWS_deaths p id w tx Hp Hw) as [Hwf Hd].
  assert (Hid : ID w = id) by (eapply wf_lookup; [apply Hp|done]).
  unfold commitHold. destruct (commitWS_cases (core p) w tx) as [[_ He]|(t & _ & He)]; rewrite He in *; cbn [snd] in *.
  { by apply set_core_ok. }
  cbn [ID set_UpdatedAt]. rewrite Hid in *. apply write_slot_ok; try done.
  - by apply core_ok_of; [..|eauto].
  - intros Ha. apply Hm. apply (Ha (set_UpdatedAt (unixMilli t) w)). cbn. apply lookup_insert_eq.
Qed.

Lemma workspace_of_some p id w h :
  workspace_of p id = Some (w, h) -> workspaces (core p) !! id = Some w /\ h = hold_of p id.
Proof. unfold workspace_of. case_match; [|done]. intros [= -> ->]. done. Qed.

(** A section that recomputes the deadline of a hold that is not executing. *)
Lemma rederive_commit_ok p id w h rnow h' timer mut tx :
  plane_ok p -> workspaces (core p) !! id = Some w -> lease_ok h -> deadline_fired h = false ->
  reconcileLifecycleLocked rnow (lifecycle_timer p id) w h = (h', timer) ->
  plane_ok (snd (commitHold p w h' timer mut tx)).
Proof.
  intros Hp Hw Hl Hf Hr. assert (Hid : ID w = id) by (eapply wf_lookup; [apply Hp|done]).
  edestruct (rederive_ok rnow p id w h) as (Hm & Hs & Hd & He & _); [done|done| |exact Hr|apply Hp|].
  { by rewrite Hf. }
  eapply commitHold_ok; try done. unfold lease_ok. by rewrite He.
Qed.

Lemma matches_cancelled id h timer p :
  matches id h (match timer with Some t => Some t | None => lifecycle_timer p id end) ->
  matches id h (match cancelled_reason <$> timer with Some t => Some t | None => lifecycle_timer p id end).
Proof.
  destruct timer as [t|]; [|done]. cbn. unfold cancelled_reason. destruct (Superseded t); [|done].
  unfold matches, pending_ok, armed. destruct (Deadline h) as [d|]; [|done]. destruct (Fired d); [done|].
  intros [(t0 & [= <-] & ? & ? & ? & ? & ?) Hq]. split; [|done]. eexists. by split_and!.
Qed.

Lemma not_busy_cleared h : lifecycleBusy h = false -> deadline_fired (clearFailedDeadline h) = false.
Proof.
  unfold lifecycleBusy, clearFailedDeadline, deadline_fired. intros Hb.
  destruct (Deadline h) as [d|] eqn:Hd; [|by rewrite Hd]. destruct (ExpiryFailed d) eqn:Hx; [done|].
  rewrite Hd. by destruct (Fired d).
Qed.

Lemma cleared_lease h : Lease (clearFailedDeadline h) = Lease h.
Proof. unfold clearFailedDeadline. by repeat case_match. Qed.

Lemma seconds_small now sec : clock_ok now -> 0 <= sec <= 2 ^ 50 -> seconds now sec = now + sec * 1000.
Proof.
  unfold clock_ok, seconds. intros Hn Hs. rewrite (i64_small (sec * 1000)) by (unfold is_i64; lia).
  rewrite i64_small; [lia|unfold is_i64; lia].
Qed.

Lemma alive_ordered now m x :
  clock_ok now -> 0 <= m <= x -> x <= 2 ^ 50 -> (if 0 <? m then seconds now m else 0) <= seconds now x.
Proof.
  intros Hn Hm Hx. rewrite (seconds_small now x) by (done || lia). unfold clock_ok in Hn.
  destruct (0 <? m); [rewrite seconds_small by (done || lia)|]; lia.
Qed.

(** The result of a section repackaged: only the state matters. *)
Lemma snd_repack {A B} (x : result Refusal A * Plane) (b : B) (P : Plane -> Prop) :
  P (snd x) -> P (snd (match x with (Ok _, p) => (Ok b, p) | (Err e, p) => (Err e, p) end
                       : result Refusal B * Plane)).
Proof. by destruct x as [[a|e] p]. Qed.

Section handlers_ok.
Context (ho : HoldOptions) (fingerprint : Request -> string).
Context (Hlimit : MaxLeaseSec ho <= 2 ^ 50).

Lemma lease_checks_bounds req :
  is_ok (lease_checks ho req) = true -> 0 <= LeaseReqMin req <= LeaseReqMax req /\ LeaseReqMax req <= MaxLeaseSec ho.
Proof.
  unfold lease_checks. destruct (normalizeExpiry _); [|done].
  repeat match goal with |- context [if ?b then _ else _] => destruct b eqn:?; [done|] end. lia.
Qed.

Lemma renew_checks_bounds req :
  renew_checks ho req = None -> 0 <= RenewReqMin req <= ExtendSec req /\ ExtendSec req <= MaxLeaseSec ho.
Proof.
  unfold renew_checks.
  repeat match goal with |- context [if ?b then _ else _] => destruct b eqn:?; [done|] end. lia.
Qed.

Lemma lease_grant_ok now rnow tx leaseID onExpiry scope req p :
  clock_ok now -> is_ok (lease_checks ho req) = true -> plane_ok p ->
  plane_ok (snd (lease_grant ho fingerprint now rnow tx leaseID onExpiry scope req p)).
Proof.
  intros Hnow Hchk Hp. unfold lease_grant.
  destruct (workspace_of p _) as [[w h]|] eqn:Hw; [|done]. apply workspace_of_some in Hw as [Hw ->].
  repeat (case_match; [done|]). destruct (reconcileLifecycleLocked _ _ _ _) as [h' timer] eqn:Hr.
  apply snd_repack. eapply (rederive_commit_ok p); [done|exact Hw| | |exact Hr].
  - unfold lease_ok. rewrite cleared_lease. intros l [= <-]. cbn.
    destruct (lease_checks_bounds req Hchk). apply alive_ordered; [done..|lia].
  - apply not_busy_cleared. done.
Qed.

Lemma lease_extend_ok now rnow tx scope req p :
  clock_ok now -> renew_checks ho req = None -> plane_ok p ->
  plane_ok (snd (lease_extend fingerprint now rnow tx scope req p)).
Proof.
  intros Hnow Hchk Hp. unfold lease_extend.
  destruct (workspace_of p _) as [[w h]|] eqn:Hw; [|done]. apply workspace_of_some in Hw as [Hw ->].
  destruct (Lease (hold_of p _)) as [l|] eqn:Hl; [|done].
  do 3 (case_match; [done|]). case_match eqn:Hf; [done|]. case_match; [done|]. cbv zeta.
  destruct (reconcileLifecycleLocked _ _ _ _) as [h' timer] eqn:Hr.
  apply snd_repack. eapply (rederive_commit_ok p _ w (set_active now (set_Lease (Some (renewed now req l)) _)));
    [done|exact Hw| |exact Hf|exact Hr].
  intros l0 [= <-]. cbn. destruct (renew_checks_bounds req Hchk). apply alive_ordered; [done..|lia].
Qed.

Lemma lease_cancel_ok now rnow tx scope req p :
  plane_ok p -> plane_ok (snd (lease_cancel fingerprint now rnow tx scope req p)).
Proof.
  intros Hp. unfold lease_cancel.
  destruct (workspace_of p _) as [[w h]|] eqn:Hw; [|done]. apply workspace_of_some in Hw as [Hw ->].
  destruct (Lease (hold_of p _)) as [l|] eqn:Hl; [|done].
  do 3 (case_match; [done|]). cbv zeta. destruct (reconcileLifecycleLocked _ _ _ _) as [h' timer] eqn:Hr.
  apply snd_repack. edestruct rederive_ok as (Hm & Hs & Hd & He & _); [| | |exact Hr|apply Hp|].
  { eapply wf_lookup; [apply Hp|done]. }
  { intros l0 [= <-]. cbn. by eapply (ok_lease p Hp). }
  { done. }
  eapply commitHold_ok; [done|exact Hw| |done| |by intros ?; apply matches_cancelled, Hm].
  - unfold lease_ok. rewrite He. intros l0 [= <-]. cbn. by eapply (ok_lease p Hp).
  - destruct timer as [t|]; [|done]. intros t0 [= <-]. destruct (Hs t eq_refl) as (? & ? & ?).
    unfold cancelled_reason. by destruct (Superseded t).
Qed.

Lemma idle_commit_ok rnow tx id scope key op request change p :
  (forall h, Lease (change h) = Lease h /\ Deadline (change h) = Deadline h) ->
  plane_ok p -> plane_ok (snd (idle_commit fingerprint rnow tx id scope key op request change p)).
Proof.
  intros Hc Hp. unfold idle_commit.
  destruct (workspace_of p _) as [[w h]|] eqn:Hw; [|done]. apply workspace_of_some in Hw as [Hw ->].
  case_match; [done|]. case_match eqn:Hb; [done|]. cbv zeta.
  destruct (reconcileLifecycleLocked _ _ _ _) as [h' timer] eqn:Hr.
  destruct (Hc (hold_of p id)) as [Hcl Hcd]. apply snd_repack.
  eapply (rederive_commit_ok p); [done|exact Hw| | |exact Hr].
  - unfold lease_ok. rewrite cleared_lease, Hcl. by apply (ok_lease p Hp).
  - apply not_busy_cleared. unfold lifecycleBusy in *. by rewrite Hcd.
Qed.

Lemma with_reservation_ok {A} ws (k : Plane -> result Refusal A * Plane) p :
  (forall p, plane_ok p -> plane_ok (snd (k p))) -> plane_ok p -> plane_ok (snd (with_reservation ho ws k p)).
Proof.
  intros Hk Hp. unfold with_reservation.
  assert (Hs : plane_ok (snd (reserveLifecycleTimer ho ws p))).
  { unfold reserveLifecycleTimer, reserveTimer. repeat case_match; try done. by eapply plane_ok_side; [..|exact Hp]. }
  destruct (reserveLifecycleTimer _ _ _) as [[reserved|e] p1]; [|done]. cbn in Hs.
  specialize (Hk p1 Hs). destruct (k p1) as [r p2]. cbn in *. unfold release_reservation.
  destruct reserved; [|done]. by eapply plane_ok_side; [..|exact Hk].
Qed.

Lemma idempotent_ok scope key op request k p :
  (plane_ok p -> plane_ok (snd (k p))) -> plane_ok p ->
  plane_ok (snd (idempotent fingerprint scope key op request k p)).
Proof. intros Hk Hp. unfold idempotent. repeat case_match; auto. Qed.

Lemma wsLease_ok now rnow tx leaseID principal req p :
  clock_ok now -> plane_ok p -> plane_ok (snd (wsLease ho fingerprint now rnow tx leaseID principal req p)).
Proof.
  intros Hnow. apply idempotent_ok. intros Hp. destruct (lease_checks ho req) eqn:Hc; [|done].
  apply with_reservation_ok; [|done]. intros. apply lease_grant_ok; [done|by rewrite Hc|done].
Qed.

Lemma wsLeaseRenew_ok now rnow tx principal req p :
  clock_ok now -> plane_ok p -> plane_ok (snd (wsLeaseRenew ho fingerprint now rnow tx principal req p)).
Proof.
  intros Hnow. apply idempotent_ok. intros Hp. destruct (renew_checks ho req) eqn:Hc; [done|].
  apply with_reservation_ok; [|done]. intros. by apply lease_extend_ok.
Qed.

Lemma wsLeaseCancel_ok now rnow tx principal req p :
  plane_ok p -> plane_ok (snd (wsLeaseCancel fingerprint now rnow tx principal req p)).
Proof. apply idempotent_ok, lease_cancel_ok. Qed.

Lemma wsIdlePolicy_ok rnow tx principal req p :
  plane_ok p -> plane_ok (snd (wsIdlePolicy ho fingerprint rnow tx principal req p)).
Proof.
  apply idempotent_ok. intros Hp. case_match; [done|]. apply with_reservation_ok; [|done].
  intros. by apply idle_commit_ok.
Qed.

Lemma wsIdleMark_ok now rnow tx principal req p :
  plane_ok p -> plane_ok (snd (wsIdleMark ho fingerprint now rnow tx principal req p)).
Proof.
  apply idempotent_ok. intros Hp. apply with_reservation_ok; [|done]. intros. apply idle_commit_ok; [|done].
  intros h. unfold mark_idle. by repeat case_match.
Qed.
End handlers_ok.

(** *** The other workspace operations

    Each either refuses and changes nothing or commits one row. *)
Definition put_row (c : Control) (w : Workspace) : Control :=
  mkControl (<[ID w := w]> (workspaces c)) (<[ID w := w]> (rows c)) (assignments c) (retries c) (nodes c)
    (controllerEpoch c).

Definition one_commit (c : Control) (id : string) (P : Workspace -> Workspace -> Prop)
    (r : result Code Workspace * Control) : Prop :=
  (exists e, r = (Err e, c)) \/
  (exists ws w, workspaces c !! id = Some ws /\ ID w = ID ws /\ P ws w /\ r = (Ok w, put_row c w)).

Lemma one_commit_row c id ws next tx (P : Workspace -> Workspace -> Prop) :
  workspaces c !! id = Some ws -> ID next = ID ws ->
  (forall t, P ws (set_UpdatedAt t next)) -> one_commit c id P (commitWS c next tx).
Proof.
  intros Hl Hid HP. destruct (commitWS_cases c next tx) as [[_ ->]|(t & _ & ->)]; [left; eauto|].
  right. exists ws, (set_UpdatedAt (unixMilli t) next). by split_and!.
Qed.

Ltac refused := left; eexists; reflexivity.

Ltac owalk :=
  cbv zeta;
  repeat first
    [ refused
    | match goal with
      | |- one_commit _ _ _ (with_ws ?c ?id _ _) =>
          unfold with_ws at 1; let ws := fresh "ws" in destruct (workspaces c !! id) as [ws|] eqn:?
      | |- one_commit _ _ _ (with_transition _ ?w ?t _) =>
          unfold with_transition at 1; let next := fresh "next" in
          destruct (transitionWorkspace (Some w) t) as [next|] eqn:?
      | |- one_commit _ _ _ (if ?b then _ else _) => destruct b eqn:?
      end ].

(** The row of a commit after a transition. *)
Ltac row :=
  match goal with H : transitionWorkspace (Some _) _ = Ok _ |- _ => apply transition_ok in H as [-> _] end;
  (eapply one_commit_row; [eassumption|..]); unfold with_backend; intros; by repeat case_match.

Lemma move_one requires tx current snap c :
  one_commit c (ID current) (fun _ w => State w = WSPending) (move_commit requires tx current snap c).
Proof. unfold move_commit. owalk. row. Qed.

Lemma sleep_one tx current snap c :
  one_commit c (ID current) (fun _ w => State w = WSPaused) (sleep_commit tx current snap c).
Proof. unfold sleep_commit. owalk. row. Qed.

Lemma destroy_one tx id gen wasHeld c :
  one_commit c id (fun ws w => State w = WSDestroyed /\ Tenant w = Tenant ws) (destroy_commit tx id gen wasHeld c).
Proof.
  unfold destroy_commit. owalk. destruct (destroyed_row _ _ _) as [w|] eqn:E; [|refused].
  apply destroyed_row_ok in E as (next & ? & ->). row.
Qed.

Lemma wake_one fires tx id ws c :
  workspaces c !! id = Some ws -> negb (is_state WSPaused ws) && negb fires = false ->
  one_commit c id (fun ws w => State w = WSPending \/ State w = State ws) (wsWake fires tx id c).
Proof.
  intros Hl Hf. unfold wsWake, with_ws. rewrite Hl. destruct (is_state WSDestroyed ws); [refused|].
  destruct (is_state WSPaused ws); [owalk|].
  - match goal with H : transitionWorkspace (Some _) _ = Ok _ |- _ => apply transition_ok in H as [-> _] end.
    eapply one_commit_row; [eassumption|done|by left].
  - cbn in Hf. rewrite Hf. eapply one_commit_row; [eassumption|done|by right].
Qed.

Definition some_row (r : result Code (option Workspace) * Control) : result Code Workspace * Control :=
  match r with (Ok (Some w), c) => (Ok w, c) | (Ok None, c) => (Err CodeConflict, c) | (Err e, c) => (Err e, c) end.

Lemma lifecycle_sleep_one tx current snap c :
  one_commit c (ID current) (fun _ w => State w = WSPaused) (some_row (lifecycle_sleep_core tx current snap c)).
Proof.
  unfold lifecycle_sleep_core, with_ws. destruct (workspaces c !! _) as [ws|] eqn:?; [|refused].
  repeat (match goal with |- context [if ?b then _ else _] => destruct b; [refused|] end).
  unfold with_transition. destruct (transitionWorkspace _ _) eqn:?; [|refused].
  match goal with |- one_commit _ _ _ (some_row (match ?x with _ => _ end)) =>
    replace (some_row _) with x by (by destruct x as [[?|?] ?]) end. row.
Qed.

Lemma core_ok_row p id ws w :
  plane_ok p -> workspaces (core p) !! id = Some ws -> ID w = ID ws ->
  ID w = id /\ core_ok p id (put_row (core p) w) /\ workspaces (put_row (core p) w) !! id = Some w.
Proof.
  intros Hp Hl Hid. assert (ID w = id) as Hw by (rewrite Hid; eapply wf_lookup; [apply Hp|done]).
  split; [done|]. unfold core_ok, put_row. rewrite Hw. cbn. split_and!.
  - by eapply (wf_insert (core p)); [apply Hp|..].
  - intros id' Hne Ha w0 Hl0. apply (Ha w0). cbn. by rewrite lookup_insert_ne.
  - rewrite lookup_insert_eq. by eauto.
  - intros id' Hn. destruct (decide (id' = id)) as [-> |]; [by rewrite lookup_insert_eq in Hn|].
    by rewrite lookup_insert_ne in Hn.
  - apply lookup_insert_eq.
Qed.

Lemma set_core_same p : set_core (core p) p = p.
Proof. by destruct p. Qed.

Lemma end_live_lease now reason h l' :
  Lease (end_live now reason h) = Some l' ->
  exists l, Lease h = Some l /\ MinAliveUntil l' = MinAliveUntil l /\ MaxAliveUntil l' = MaxAliveUntil l.
Proof.
  unfold end_live. destruct (Lease h) as [l|] eqn:Hl; [|by rewrite Hl].
  destruct (Live (Some l)); cbn; [|rewrite Hl]; intros [= <-]; eauto.
Qed.

Lemma end_live_ok now reason h : lease_ok h -> lease_ok (end_live now reason h).
Proof. intros Hok l' (l & Hl & -> & ->)%end_live_lease. by apply Hok. Qed.

Lemma end_live_deadline now reason h : Deadline (end_live now reason h) = Deadline h.
Proof. unfold end_live. by repeat case_match. Qed.

Lemma retired_spent now reason t : spent (match retired_copy now reason t with Some t => Some t | None => t end).
Proof. unfold retired_copy. destruct t as [t|]; [|done]. by destruct (TimerFired t) eqn:?. Qed.

Lemma move_section_ok now requires tx current snap p :
  plane_ok p -> plane_ok (snd (move_section now requires tx current snap p)).
Proof.
  intros Hp. unfold move_section.
  destruct (move_one requires tx current snap (core p)) as [[e ->]|(ws & w & Hl & Hid & Hs & ->)].
  { cbn. by rewrite set_core_same. }
  destruct (core_ok_row p _ ws w Hp Hl Hid) as (Hw & Hc & Hn). cbn [snd retireLifecycleLocked].
  unfold retireLifecycleLocked. cbn [snd]. rewrite Hw.
  apply write_slot_ok; try done.
  - intros l. cbn. apply end_live_ok, Hp.
  - apply retired_slot, Hp.
  - intros _. apply retired_spent.
Qed.

(** The timers a destroyed workspace leaves behind are all spent. *)
Lemma put_all_lookup (f : string * Timer -> option Timer) (m : gmap string Timer) (l : list (string * Timer)) k :
  (forall k t t', f (k, t) = Some t' -> TimerKey t' = k) -> NoDup l.*1 ->
  put_timers (omap f l) m !! k =
  match list_to_map (M := gmap string Timer) l !! k with
  | Some t => match f (k, t) with Some t' => Some t' | None => m !! k end
  | None => m !! k
  end.
Proof.
  intros Hf. revert m. induction l as [|[k0 t0] l IH]; intros m Hnd; [done|].
  rewrite fmap_cons in Hnd. apply NoDup_cons in Hnd as [Hnin Hnd]. cbn [list_to_map foldr fst snd].
  change (omap f ((k0, t0) :: l)) with (match f (k0, t0) with Some y => y :: omap f l | None => omap f l end).
  destruct (decide (k = k0)) as [-> |Hne].
  - rewrite lookup_insert_eq.
    assert (Hn : list_to_map (M := gmap string Timer) l !! k0 = None) by (by apply not_elem_of_list_to_map_1).
    destruct (f (k0, t0)) as [t'|] eqn:Hft; [cbn [put_timers foldl]; fold (put_timers (omap f l) (<[TimerKey t' := t']> m))|];
      rewrite IH, Hn by done; [|done]. rewrite (Hf _ _ _ Hft). apply lookup_insert_eq.
  - rewrite lookup_insert_ne by done.
    destruct (f (k0, t0)) as [t'|] eqn:Hft; [|by apply IH].
    cbn [put_timers foldl]. fold (put_timers (omap f l) (<[TimerKey t' := t']> m)). rewrite IH by done.
    rewrite (Hf _ _ _ Hft), lookup_insert_ne by done. done.
Qed.

Lemma destroyed_lookup now id p k :
  keys_ok (timers p) ->
  put_timers (destroyed_timers now id p) (timers p) !! k =
  match timers p !! k with
  | Some t => Some (if (TimerWS t =s id) && negb (TimerFired t) then retire_timer now LeaseEndDestroyed t else t)
  | None => None
  end.
Proof.
  intros Hk.
  transitivity (match timers p !! k with
    | Some t => match (if (TimerWS t =s id) && negb (TimerFired t)
                       then Some (retire_timer now LeaseEndDestroyed t) else None) with
                | Some t' => Some t' | None => timers p !! k end
    | None => timers p !! k end).
  - unfold destroyed_timers.
    assert (Hb : forall l, (forall e, e ∈ l -> TimerKey e.2 = e.1) -> NoDup l.*1 ->
      put_timers (omap (fun kt : string * Timer => if (TimerWS kt.2 =s id) && negb (TimerFired kt.2)
                  then Some (retire_timer now LeaseEndDestroyed kt.2) else None) l) (timers p) =
      put_timers (omap (fun kt : string * Timer => if (TimerWS kt.2 =s id) && negb (TimerFired kt.2)
                  && (TimerKey kt.2 =s kt.1) then Some (retire_timer now LeaseEndDestroyed kt.2) else None) l) (timers p)).
    { intros l Hl _. f_equal. induction l as [|e l IH]; [done|].
      cbn. rewrite (Hl e) by apply list_elem_of_here. rewrite str_eqb_refl, andb_true_r.
      rewrite IH by (intros; apply Hl; by apply list_elem_of_further). done. }
    rewrite Hb; [|intros [k0 t0] Hin; by apply elem_of_map_to_list, Hk in Hin as [? _]|apply NoDup_fst_map_to_list].
    rewrite put_all_lookup; [|intros k0 t0 t' Hf; cbn in Hf; case_match eqn:E; simplify_eq;
      apply andb_true_iff in E as [_ E%str_eqb_eq]; by cbn|apply NoDup_fst_map_to_list].
    rewrite list_to_map_to_list. destruct (timers p !! k) as [t|] eqn:Ht; [|done]. cbn.
    destruct (Hk _ _ Ht) as [-> _]. by rewrite str_eqb_refl, andb_true_r.
  - destruct (timers p !! k); [|done]. by destruct (_ && _).
Qed.

Lemma destroy_section_ok now tx id gen wasHeld p :
  plane_ok p -> plane_ok (snd (destroy_section now tx id gen wasHeld p)).
Proof.
  intros Hp. unfold destroy_section.
  destruct (destroy_one tx id gen wasHeld (core p)) as [[e ->]|(ws & w & Hl & Hid & [Hs _] & ->)].
  { cbn. by rewrite set_core_same. }
  destruct (core_ok_row p _ ws w Hp Hl Hid) as (Hw & Hc & Hn). cbn [snd]. rewrite Hw.
  pose proof (ok_keys p Hp) as Hk. apply write_ok; try done.
  - intros l. cbn. apply end_live_ok, Hp.
  - intros k t. rewrite destroyed_lookup by done. destruct (timers p !! k) as [t0|] eqn:Ht; [|done].
    intros [= <-]. destruct (Hk _ _ Ht) as (Hk1 & Hk2 & Hk3 & Hk4). case_match; by split_and!.
  - intros _. unfold matches. cbn. rewrite destroyed_lookup by done. fold (lifecycle_timer p id).
    destruct (lifecycle_timer p id) as [t|] eqn:Ht; [|done]. destruct (Hk _ _ Ht) as (_ & Hk2 & _).
    rewrite (Hk2 id eq_refl), str_eqb_refl. cbn. by destruct (TimerFired t) eqn:?.
  - intros id' Hne. rewrite destroyed_lookup by done. unfold lifecycle_timer.
    destruct (timers p !! lifecycleTimerID id') as [t|] eqn:Ht; [|done].
    destruct (Hk _ _ Ht) as (_ & Hk2 & _). rewrite (Hk2 id' eq_refl).
    destruct (id' =s id) eqn:E; [by apply str_eqb_eq in E|done].
Qed.

(** A section that writes a timer that is not a lifecycle slot and keeps the
    hold of a workspace. *)
Lemma write_other_ok p id ws w timer :
  plane_ok p -> workspaces (core p) !! id = Some ws -> ID w = ID ws ->
  deaths_kept (core p) (put_row (core p) w) ->
  (forall t, timer = Some t -> Holds.Lifecycle t = false /\ forall x, TimerKey t <> lifecycleTimerID x) ->
  plane_ok (write_hold id (hold_of p id) (option_list timer) None (set_core (put_row (core p) w) p)).
Proof.
  intros Hp Hl Hid Hd Ht. destruct (core_ok_row p _ ws w Hp Hl Hid) as (Hw & Hc & Hn).
  assert (Hsame : forall id', put_timers (option_list timer) (timers p) !! lifecycleTimerID id' = lifecycle_timer p id').
  { intros id'. rewrite put_option. destruct timer as [t|]; [|done]. destruct (Ht t eq_refl) as [_ Hx].
    rewrite decide_False; [done|]. intros He. by destruct (Hx id'). }
  apply write_ok; try done.
  - apply Hp.
  - apply Hp.
  - apply keys_put; [apply Hp|]. intros t ->. destruct (Ht t eq_refl) as [Hlc Hx]. rewrite Hlc.
    split_and!; [intros x He; by destruct (Hx x)|done|intros x He; by destruct (Hx x)].
  - intros Ha. rewrite Hsame. by apply Hp, Hd.
Qed.

Lemma sleep_section_ok now timer spec tx current snap p :
  fresh_timer p timer -> plane_ok p -> plane_ok (snd (sleep_section now timer spec tx current snap p)).
Proof.
  intros [_ Hf] Hp. unfold sleep_section.
  pose proof (good_deaths _ _ (ok_wf p Hp) (sleep_good ∅ tx current snap (core p))) as Hd.
  destruct (sleep_one tx current snap (core p)) as [[e He]|(ws & w & Hl & Hid & Hs & He)]; rewrite He in *.
  { cbn. by rewrite set_core_same. }
  destruct (core_ok_row p _ ws w Hp Hl Hid) as (Hw & _). cbn [snd]. rewrite Hw.
  match goal with |- plane_ok (write_hold _ _ [?t] _ _) => change [t] with (option_list (Some t)) end.
  eapply write_other_ok; try done. by intros t [= <-].
Qed.

Lemma wake_section_ok now tx id timerID p :
  (forall t, timers p !! timerID = Some t -> timerID <> EmptyString -> Holds.Lifecycle t = false /\
     forall x, timerID <> lifecycleTimerID x) ->
  plane_ok p -> plane_ok (snd (wake_section now tx id timerID p)).
Proof.
  intros Ht Hp. unfold wake_section. destruct (workspaces (core p) !! id) as [ws|] eqn:Hl; [|done].
  destruct (is_state WSDestroyed ws) eqn:Hd; [done|]. cbv zeta.
  match goal with |- plane_ok (snd (match ?n with _ => _ end)) => destruct n as [named|e] eqn:Hnamed end; [|done].
  match goal with |- plane_ok (snd (if ?b then _ else _)) => destruct b eqn:Hb end; [done|].
  match goal with |- context [wsWake ?f tx id (core p)] =>
    pose proof (good_deaths _ _ (ok_wf p Hp) (wake_good ∅ f tx id (core p))) as Hdk end.
  destruct (wake_one _ tx id ws (core p) Hl Hb) as [[e He]|(ws' & w & Hl' & Hid & Hs & He)]; rewrite He in *.
  { cbn. by rewrite set_core_same. }
  destruct (core_ok_row p _ ws' w Hp Hl' Hid) as (Hw & _). cbn [snd]. rewrite Hw.
  eapply write_other_ok; try done.
  intros t. destruct named as [t0|]; [|done]. intros [= <-]. cbn.
  destruct (timerID =s "") eqn:E; [done|]. apply str_eqb_neq in E.
  destruct (timers p !! timerID) as [t1|] eqn:Ht1; [|done]. case_match; simplify_eq.
  destruct (Ht t0 eq_refl E) as [Hlc Hx]. destruct (ok_keys p Hp _ _ Ht1) as (-> & _). done.
Qed.

(** *** Deadlines claimed, executed and retried *)

Lemma actionable_alive w action : lifecycleActionable (Some w) action = true -> State w <> WSDestroyed.
Proof.
  cbn. intros [H|[_ H]%andb_true_iff]%orb_true_iff Hs; apply is_state_true in H; congruence.
Qed.

Lemma pending_match p id d :
  plane_ok p -> alive (core p) id -> Deadline (hold_of p id) = Some d -> Fired d = false ->
  pending_ok id (hold_of p id) d (lifecycle_timer p id).
Proof. intros Hp Ha Hd Hf. pose proof (ok_match p Hp id Ha) as Hm. unfold matches in Hm. by rewrite Hd, Hf in Hm. Qed.

Lemma alive_some c id w : workspaces c !! id = Some w -> State w <> WSDestroyed -> alive c id.
Proof. intros Hl Hs w0 Hl0. by simplify_eq. Qed.

Lemma unfired_counts p id d : plane_ok p -> Deadline (hold_of p id) = Some d -> Fired d = false ->
  Attempts d = 0 /\ ExpiryFailed d = false.
Proof. intros Hp Hd Hf. pose proof (ok_counts p Hp id d Hd) as Hc. unfold counts in Hc. by rewrite Hf in Hc. Qed.

Lemma claim_ok now tx id d p r p' :
  plane_ok p -> claimLifecycleDeadline now tx id d p = (r, p') -> plane_ok p'.
Proof.
  intros Hp. unfold claimLifecycleDeadline.
  destruct (workspace_of p id) as [[w h]|] eqn:Hw; [|by intros [= _ <-]].
  apply workspace_of_some in Hw as [Hw ->]. destruct (Deadline _) as [d0|] eqn:Hd; [|by intros [= _ <-]].
  destruct (_ || _) eqn:Hg; [by intros [= _ <-]|]. apply orb_false_elim in Hg as [Hg Ha].
  apply orb_false_elim in Hg as [Hf _]. apply negb_false_iff, actionable_alive in Ha.
  destruct (lifecycle_timer p id) as [t|] eqn:Ht; [|by intros [= _ <-]].
  destruct (TimerFired t) eqn:Htf; [by intros [= _ <-]|]. cbv zeta.
  match goal with |- context [commitHold p w ?n ?t None tx] =>
    assert (Hok : plane_ok (snd (commitHold p w n t None tx))) end.
  2: { destruct (commitHold _ _ _ _ _ _) as [[?|?] ?]; by intros [= _ <-]. }
  destruct (unfired_counts p id d0 Hp Hd Hf) as [Hat Hx].
  destruct (ok_keys p Hp _ _ Ht) as (Hk & Hws & _ & Hlc). eapply commitHold_ok; [done|exact Hw|..].
  - intros l. case_match; [apply end_live_ok|]; apply (ok_lease p Hp id).
  - intros d1. destruct (Source _ =s _); rewrite ?end_live_deadline; cbn; intros [= <-];
      unfold counts; cbn; by rewrite Hat, Hx.
  - intros t0 [= <-]. cbn. split_and!; [done|by apply Hws|by apply (Hlc id)].
  - intros _. unfold matches. by destruct (Source _ =s _); rewrite ?end_live_deadline.
Qed.

(** What the outcome of an attempt makes of the hold, before the deadline is
    recomputed. *)
Definition outcome (now : Z) (cause : option string) (h : Hold) : Hold :=
  match cause, Deadline h with
  | None, _ => end_live (unixMilli now) LeaseEndDeadline (set_Deadline None h)
  | Some _, None => h
  | Some err, Some d => set_Deadline (Some (attempt_failed err d)) h
  end.

Definition same_plane (p p' : Plane) : Prop :=
  core p' = core p /\ holds p' = holds p /\ hold_rows p' = hold_rows p /\ timers p' = timers p /\
  timer_rows p' = timer_rows p.

Lemma same_plane_ok p p' : same_plane p p' -> plane_ok p -> plane_ok p'.
Proof. intros (? & ? & ? & ? & ?). by apply plane_ok_side. Qed.

Lemma finish_shape now rnow tx id cause p :
  exists p', same_plane p p' /\
    (workspaces (core p) !! id = None /\ finishLifecycleExpiry now rnow tx id cause p = p' \/
     exists w h timer, workspaces (core p) !! id = Some w /\
       reconcileLifecycleLocked rnow (lifecycle_timer p id) w (outcome now cause (hold_of p id)) = (h, timer) /\
       finishLifecycleExpiry now rnow tx id cause p = snd (commitHold p' w h timer None tx)).
Proof.
  unfold finishLifecycleExpiry. cbv zeta.
  set (p1 := match lifecycleWork p !! id with Some s => _ | None => p end).
  assert (H1 : same_plane p p1) by (unfold p1; by destruct (_ !! _)). clearbody p1.
  destruct H1 as (Hc & Hh & Hhr & Ht & Htr).
  assert (Hho : hold_of p1 id = hold_of p id) by (unfold hold_of; by rewrite Hh).
  unfold workspace_of. rewrite Hc, Hho.
  destruct (workspaces (core p) !! id) as [w|] eqn:Hw; [|exists (set_work (delete id) p1); by split; [|left; split]].
  match goal with |- context [let '(_, _) := ?x in _] => destruct x as [next p2] eqn:Hx end.
  assert (next = outcome now cause (hold_of p id) /\ same_plane p p2) as [-> H2].
  { unfold outcome. destruct cause as [err|]; [destruct (Deadline (hold_of p id))|];
      repeat case_match; simplify_eq; by split. }
  destruct (reconcileLifecycleLocked _ _ _ _) as [h timer] eqn:Hr. exists p2. split; [done|]. right.
  exists w, h, timer. split_and!; try done. unfold lifecycle_timer in *. destruct H2 as (_ & _ & _ & Ht2 & _).
  by rewrite Ht2 in Hr.
Qed.

Lemma outcome_lease now cause h : lease_ok h -> lease_ok (outcome now cause h).
Proof.
  intros Hl. unfold outcome. destruct cause; [by destruct (Deadline h)|]. by apply end_live_ok.
Qed.

Lemma outcome_fired now cause h :
  deadline_fired (outcome now cause h) = true ->
  exists err d, cause = Some err /\ Deadline h = Some d /\ Fired d = true /\
    outcome now cause h = set_Deadline (Some (attempt_failed err d)) h.
Proof.
  unfold outcome, deadline_fired. destruct cause as [err|]; [|by rewrite end_live_deadline].
  destruct (Deadline h) as [d|] eqn:Hd; [|by rewrite Hd]. cbn. eauto 10.
Qed.

Lemma finish_expiry_ok now rnow tx id cause p :
  plane_ok p -> plane_ok (finishLifecycleExpiry now rnow tx id cause p).
Proof.
  intros Hp. destruct (finish_shape now rnow tx id cause p) as (p2 & H2 & [[_ ->]|(w & h & timer & Hw & Hr & ->)]).
  { by eapply same_plane_ok. }
  assert (Hid : ID w = id) by (eapply wf_lookup; [apply Hp|done]).
  edestruct rederive_ok as (Hm & Hs & Hd & He & _); [exact Hid|apply outcome_lease, Hp| |exact Hr|apply Hp|].
  - intros (err & d & -> & Hdl & Hf & ->)%outcome_fired. split.
    + intros d0 [= <-]. pose proof (ok_counts p Hp id d Hdl) as Hm. unfold counts in *. cbn. rewrite Hf in *.
      destruct Hm as (Ha & Hx'). split; [lia|]. rewrite Hx'. unfold lifecycleExpiryAttempts.
      destruct (5 <=? Attempts d) eqn:E1; destruct (5 <=? Attempts d + 1) eqn:E2; cbn; try done; lia.
    + intros Hs. pose proof (ok_match p Hp id (alive_some _ _ _ Hw Hs)) as Hm. unfold matches in *. cbn.
      rewrite Hdl, Hf in Hm. by rewrite Hf.
  - pose proof (same_plane_ok p p2 H2 Hp) as Hp2. destruct H2 as (Hc & _ & _ & Ht & _).
    eapply commitHold_ok; [done|by rewrite Hc| |done|done|].
    + unfold lease_ok. rewrite He. apply outcome_lease, Hp.
    + unfold lifecycle_timer in *. by rewrite Ht.
Qed.

Lemma sleep_commit_ok now rnow tx current snap p ok p' :
  plane_ok p -> lifecycle_sleep_commit now rnow tx current snap p = (ok, p') -> plane_ok p'.
Proof.
  intros Hp. unfold lifecycle_sleep_commit.
  pose proof (lifecycle_sleep_one tx current snap (core p)) as Hone.
  destruct (lifecycle_sleep_core _ _ _ _) as [[[w|]|e] c]; cbn [some_row] in Hone.
  - destruct Hone as [[e [=]]|(ws & w0 & Hl & Hid & Hs & [= <- ->])]. intros He.
    destruct (core_ok_row p _ ws w Hp Hl Hid) as (Hw & Hc & Hn). cbv zeta in He. rewrite Hw in He.
    destruct (reconcileLifecycleLocked _ _ _ _) as [h timer] eqn:Hr. simplify_eq.
    edestruct (rederive_ok rnow p (ID current) w) as (Hm & Hsl & Hd & Hle & _); [done| | |exact Hr|apply Hp|].
    { apply end_live_ok. intros l. apply (ok_lease p Hp). }
    { unfold deadline_fired. by rewrite end_live_deadline. }
    apply write_slot_ok; try done.
    + unfold lease_ok. rewrite Hle. apply end_live_ok. intros l. apply (ok_lease p Hp).
    + intros _. apply Hm. congruence.
  - destruct Hone as [[e [= _ ->]]|(? & ? & ? & ? & ? & [=])]. intros [= <- <-]. by rewrite set_core_same.
  - destruct Hone as [[e' [= _ ->]]|(? & ? & ? & ? & ? & [=])]. intros [= <- <-]. by rewrite set_core_same.
Qed.

(** *** Retention and restart *)

Lemma prune_lookup cutoff limit p (m : gmap string Timer) k :
  keys_ok (timers p) ->
  let m' := foldl (fun m t => delete (TimerKey t) m) m (timer_candidates cutoff limit p) in
  m' !! k = m !! k \/ (exists t, timers p !! k = Some t /\ TimerFired t = true) /\ m' !! k = None.
Proof.
  intros Hk. cbv zeta.
  assert (Hc : Forall (fun t => timers p !! TimerKey t = Some t /\ TimerFired t = true) (timer_candidates cutoff limit p)).
  { apply Forall_take, Forall_forall. intros t. rewrite sort_by_perm, list_elem_of_filter.
    intros [[Hf _] Hin]. apply list_elem_of_fmap in Hin as ([key t'] & -> & Hin).
    apply elem_of_map_to_list in Hin. cbn in *. destruct (Hk _ _ Hin) as [-> _]. done. }
  revert m. induction Hc as [|t l [Ht Hf] _ IH]; intros m; [by left|]. cbn [foldl].
  destruct (IH (delete (TimerKey t) m)) as [He|[Hd He]]; [|by right].
  destruct (decide (k = TimerKey t)) as [-> |Hne]; [right|left]; rewrite He.
  - split; [eauto|apply lookup_delete_eq].
  - by rewrite lookup_delete_ne.
Qed.

Lemma prune_ok cutoff limit p : plane_ok p -> plane_ok (prune_timers cutoff limit p).
Proof.
  intros Hp. pose proof (fun k => prune_lookup cutoff limit p (timers p) k (ok_keys _ Hp)) as Hl. destruct Hp.
  split; cbn; try done; [by rewrite ok_timer_rows0|..].
  - intros k t Ht. destruct (Hl k) as [He|[_ He]]; cbn in Ht; rewrite He in Ht; [by apply ok_keys0|done].
  - intros id Ha. specialize (ok_match0 id Ha). unfold lifecycle_timer in *. cbn.
    destruct (Hl (lifecycleTimerID id)) as [He|[(t & Ht & Hf) He]]; rewrite He; [done|].
    change (hold_of _ id) with (hold_of p id). unfold matches in *. rewrite Ht in ok_match0.
    destruct (Deadline _) as [d|]; [|done]. destruct (Fired d); [done|].
    destruct ok_match0 as [(t0 & [= <-] & Hnf & _) _]. congruence.
Qed.

Lemma load_kept o now stamp w w' :
  load_one o now stamp w = Ok w' ->
  (State w' = WSDestroyed -> State w = WSDestroyed) /\ (Tenant w <> EmptyString -> Tenant w' = Tenant w).
Proof.
  destruct (migrate_view w) as [Hv _]. unfold view in Hv. injection Hv as Hs _ _.
  assert (Ht : Tenant w <> EmptyString -> migrate w = w).
  { intros Hne. unfold migrate. destruct (Tenant w =s "") eqn:E; [by apply str_eqb_eq in E|done]. }
  unfold load_one, load_row. cbv zeta. rewrite Hs. intros Hl.
  assert (Hr : forall s, transitionWorkspace (Some (migrate w)) (mkTransition transitionRecover actorRecovery s None None)
            = Err CodeConflict \/
          transitionWorkspace (Some (migrate w)) (mkTransition transitionRecover actorRecovery s None None)
            = Ok (set_State s (migrate w))).
  { intros s. unfold transitionWorkspace. cbn -[bool_decide elem_of].
    destruct (bool_decide ((_, s) ∈ _)); [by right|by left]. }
  split.
  - intros Hd. destruct (State w) eqn:Es; try done; exfalso; revert Hl;
      repeat case_match; try done; unfold loaded; cbn; intros; simplify_eq;
      repeat match goal with H : transitionWorkspace _ (mkTransition _ _ ?s _ _) = Ok _ |- _ =>
               destruct (Hr s) as [Hr'|Hr']; rewrite Hr' in H; simplify_eq end;
      repeat case_match; cbn in *; congruence.
  - intros Hne. rewrite (Ht Hne) in *. destruct (State w) eqn:Es; revert Hl;
      repeat case_match; try done; unfold loaded; cbn; intros; simplify_eq;
      repeat match goal with H : transitionWorkspace _ (mkTransition _ _ ?s _ _) = Ok _ |- _ =>
               destruct (Hr s) as [Hr'|Hr']; rewrite Hr' in H; simplify_eq end;
      repeat case_match; by cbn in *.
Qed.

Lemma restart_kept o now stamp c c' id w' :
  wf c -> restart o now stamp c = Some c' -> workspaces c' !! id = Some w' ->
  exists w, workspaces c !! id = Some w /\ (State w' = WSDestroyed -> State w = WSDestroyed) /\
    (Tenant w <> EmptyString -> Tenant w' = Tenant w).
Proof.
  intros [Hrows _] Hr Hl. unfold restart in Hr. case_match; [|done]. simplify_eq. cbn in Hl.
  rewrite lookup_omap, Hrows in Hl. destruct (workspaces c !! id) as [w|] eqn:Hw; [|done]. cbn in Hl.
  destruct (load_one o now stamp w) as [w0|] eqn:Ho; [|done]. simplify_eq. exists w.
  split; [done|]. by eapply load_kept.
Qed.

Lemma reload_ok o now stamp p c :
  plane_ok p -> restart o now stamp (core p) = Some c -> plane_ok (reload c p).
Proof.
  intros Hp Hr. pose proof (ok_wf p Hp) as Hwf.
  destruct (restart_spec o (fun _ _ => None) ∅ now stamp (core p) Hwf) as (c' & Hr' & Hwf' & Ha & Hdom). simplify_eq.
  apply hstep_deaths in Ha as [Hd Ha].
  assert (Hh : forall id, hold_of (reload c p) id = hold_of p id).
  { intros id. unfold hold_of. cbn. by rewrite (ok_hold_rows p Hp). }
  assert (Ht : timers (reload c p) = timers p) by apply Hp.
  split; cbn; try done.
  - by rewrite (ok_timer_rows p Hp); apply Hp.
  - intros id Hal. rewrite Hh. unfold lifecycle_timer. rewrite Ht. apply Hp. by apply Ha.
  - intros id. rewrite Hh. apply Hp.
  - intros id. rewrite Hh. apply Hp.
  - intros id Hn. rewrite (ok_hold_rows p Hp). by apply (ok_gone p Hp), Hd.
Qed.

Lemma create_ok now tx id tenant owner spec w c p :
  plane_ok p -> workspaces (core p) !! id = None ->
  create_commit now tx id tenant owner spec (core p) = (Ok w, c) ->
  plane_ok (write_hold id no_hold [] None (set_core c p)).
Proof.
  intros Hp Hn. unfold create_commit.
  match goal with |- context [commitWS _ ?n _] =>
    destruct (commitWS_cases (core p) n tx) as [[_ ->]|(t & _ & ->)] end; [done|]. intros [= <- <-].
  assert (Hh : hold_of p id = no_hold) by (unfold hold_of; by rewrite (ok_gone p Hp id Hn)).
  assert (Hm : matches id no_hold (lifecycle_timer p id)) by (rewrite <-Hh; apply Hp; intros ?; congruence).
  apply write_ok; try done.
  - split_and!; cbn.
    + by eapply (wf_insert (core p)); [apply Hp|..].
    + intros id' Hne Ha w' Hw'. apply (Ha w'). cbn. by rewrite lookup_insert_ne.
    + rewrite lookup_insert_eq. by eauto.
    + intros id' Hnn. destruct (decide (id' = id)) as [-> |]; [done|by rewrite lookup_insert_ne in Hnn].
  - apply Hp.
Qed.

(** A handler behind a reservation runs on the same plane. *)
Lemma reservation_shape {A} ho ws (k : Plane -> result Refusal A * Plane) p :
  (exists e, with_reservation ho ws k p = (Err e, p)) \/
  (exists p1 p2, same_plane p p1 /\ snd (k p1) = p2 /\ same_plane p2 (snd (with_reservation ho ws k p)) /\
     fst (with_reservation ho ws k p) = fst (k p1)).
Proof.
  unfold with_reservation.
  assert (Hs : (exists e, reserveLifecycleTimer ho ws p = (Err e, p)) \/
               exists b p1, reserveLifecycleTimer ho ws p = (Ok b, p1) /\ same_plane p p1).
  { unfold reserveLifecycleTimer, reserveTimer. repeat case_match; eauto 10; right; by do 2 eexists. }
  destruct Hs as [[e ->]|(b & p1 & -> & Hp1)]; [left; eauto|]. right.
  destruct (k p1) as [r p2] eqn:Hk. exists p1, p2. rewrite Hk. split_and!; [done..| |done].
  unfold release_reservation. by destruct b.
Qed.

(** A claim either changes nothing or commits the mark. *)
Lemma claim_shape now tx id d p r p' :
  plane_ok p -> claimLifecycleDeadline now tx id d p = (r, p') ->
  (r = None /\ p' = p) \/
  (exists w d0 t c, (workspaces (core p) !! id = Some w /\ State w <> WSDestroyed) /\ Deadline (hold_of p id) = Some d0 /\ Fired d0 = false /\
     DeadlineAt d0 = DeadlineAt d /\ r = Some (claim_deadline now d0) /\
     (forall id', id' <> id -> workspaces c !! id' = workspaces (core p) !! id') /\
     p' = write_hold id (let next := set_Deadline (Some (claim_deadline now d0)) (hold_of p id) in
                         if Source d0 =s LifecycleSourceLease then end_live now LeaseEndDeadline next else next)
            [t] None (set_core c p)).
Proof.
  intros Hp. unfold claimLifecycleDeadline.
  destruct (workspace_of p id) as [[w h]|] eqn:Hw; [|intros [= <- <-]; by left].
  apply workspace_of_some in Hw as [Hw ->]. destruct (Deadline _) as [d0|] eqn:Hd; [|intros [= <- <-]; by left].
  destruct (_ || _) eqn:Hg; [intros [= <- <-]; by left|]. apply orb_false_elim in Hg as [Hg Ha].
  apply orb_false_elim in Hg as [Hf Hat%negb_false_iff%Z.eqb_eq]. apply negb_false_iff, actionable_alive in Ha.
  destruct (lifecycle_timer p id) as [t|] eqn:Ht; [|intros [= <- <-]; by left].
  destruct (TimerFired t) eqn:Htf; [intros [= <- <-]; by left|]. cbv zeta. unfold commitHold.
  destruct (commitWS_cases (core p) w tx) as [[_ ->]|(t0 & _ & ->)].
  { rewrite set_core_same. intros [= <- <-]. by left. }
  intros [= <- <-]. right. cbn [ID set_UpdatedAt]. rewrite (wf_lookup _ id w (ok_wf p Hp) Hw).
  do 4 eexists. split_and!; [exact Hw|exact Ha|reflexivity|exact Hf|exact Hat|reflexivity| |reflexivity].
  intros id' Hne. cbn. by rewrite lookup_insert_ne.
Qed.

Lemma claim_succeeds now t id d w p :
  plane_ok p -> workspaces (core p) !! id = Some w -> Deadline (hold_of p id) = Some d -> Fired d = false ->
  lifecycleActionable (Some w) (Action d) = true ->
  fst (claimLifecycleDeadline now (Some t) id d p) = Some (claim_deadline now d).
Proof.
  intros Hp Hw Hd Hf Ha.
  destruct (pending_match p id d Hp (alive_some _ _ _ Hw (actionable_alive _ _ Ha)) Hd Hf) as ((t0 & Ht & Htf & _) & _).
  unfold claimLifecycleDeadline, workspace_of. rewrite Hw, Hd, Hf, Z.eqb_refl, Ha. cbn [orb negb].
  by rewrite Ht, Htf.
Qed.

(** *** Plans *)

Definition dead (c : Control) (id : string) : Prop := exists w, workspaces c !! id = Some w /\ State w = WSDestroyed.

Lemma dead_or_alive c id : dead c id \/ alive c id.
Proof.
  destruct (workspaces c !! id) as [w|] eqn:Hw; [|right; intros w; congruence].
  destruct (decide (State w = WSDestroyed)); [left; by exists w|right; by eapply alive_some].
Qed.

Lemma deaths_kept_dead c c' id : deaths_kept c c' -> dead c id -> dead c' id.
Proof.
  intros [_ Ha] (w & Hw & Hs). destruct (dead_or_alive c' id) as [?|H]; [done|]. by destruct (Ha id H w Hw).
Qed.

(** A timer that waits belongs to the pending deadline of its workspace, unless
    that is destroyed. *)
Lemma timer_of_pending p k t :
  plane_ok p -> timers p !! k = Some t -> TimerFired t = false -> Holds.Lifecycle t = true ->
  dead (core p) (TimerWS t) \/
  exists w d, workspace_of p (TimerWS t) = Some (w, hold_of p (TimerWS t)) /\
    workspaces (core p) !! TimerWS t = Some w /\ State w <> WSDestroyed /\
    Deadline (hold_of p (TimerWS t)) = Some d /\ Fired d = false /\ k = lifecycleTimerID (TimerWS t) /\
    TimerKey t = k /\ TimerID d = k /\ TimerAt t = DeadlineAt d /\ TimerAction t = Action d.
Proof.
  intros Hp Ht Hf Hlc. destruct (dead_or_alive (core p) (TimerWS t)) as [?|Hal]; [by left|right].
  destruct (ok_keys p Hp k t Ht) as (Hk & _ & Hk3 & _). specialize (Hk3 Hlc).
  pose proof (ok_match p Hp (TimerWS t) Hal) as Hm. unfold matches, lifecycle_timer in Hm. rewrite <-Hk3, Ht in Hm.
  destruct (Deadline (hold_of p (TimerWS t))) as [d|] eqn:Hd; [|cbn in Hm; congruence].
  destruct (Fired d) eqn:Hfd; [cbn in *; congruence|].
  destruct Hm as [(t0 & [= <-] & _ & Hat & Hac & _ & Hid) _].
  destruct (workspaces (core p) !! TimerWS t) as [w|] eqn:Hw.
  - exists w, d. unfold workspace_of. rewrite Hw. split_and!; try done; [by apply Hal|by rewrite Hk3].
  - pose proof (ok_gone p Hp _ Hw) as Hg. unfold hold_of in Hd. by rewrite Hg in Hd.
Qed.

(** Only a timer of a destroyed workspace is found stale. *)
Lemma stale_is_dead p k t :
  plane_ok p -> timers p !! k = Some t -> TimerFired t = false -> Holds.Lifecycle t = true ->
  dead (core p) (TimerWS t) \/ lifecycleTimerStale (workspace_of p (TimerWS t)) t = None.
Proof.
  intros Hp Ht Hf Hlc.
  destruct (timer_of_pending p k t Hp Ht Hf Hlc)
    as [?|(w & d & -> & _ & Hs & Hd & _ & _ & Hk & Hid & Hat & _)]; [by left|right].
  cbn. rewrite Hd, Hid, Hk, Hat, str_eqb_refl, Z.eqb_refl. cbn.
  destruct (is_state WSDestroyed w) eqn:E; [|done]. by apply is_state_true in E.
Qed.

Lemma dead_stale p t : dead (core p) (TimerWS t) ->
  lifecycleTimerStale (workspace_of p (TimerWS t)) t = Some LeaseEndDestroyed.
Proof.
  intros (w & Hw & Hs). unfold workspace_of. rewrite Hw. cbn. unfold is_state. by rewrite bool_decide_true.
Qed.

(** A retirement in a plan: the slot of a destroyed workspace, spent. *)
Definition retirement (c : Control) (t : Timer) : Prop :=
  TimerKey t = lifecycleTimerID (TimerWS t) /\ Holds.Lifecycle t = true /\ TimerFired t = true /\ dead c (TimerWS t).

Definition plan_ok (now : Z) (c : Control) (plan : Plan) : Prop :=
  (forall t, t ∈ retire plan -> retirement c t) /\
  forall id d, (id, d) ∈ claims plan -> DeadlineAt d <= now.

Lemma plan_timer_ok now p k plan :
  plane_ok p -> plan_ok now (core p) plan -> plan_ok now (core p) (plan_timer now p k plan).
Proof.
  intros Hp [Hr Hc]. unfold plan_timer. destruct (timers p !! k) as [t|] eqn:Ht; [|done].
  destruct (_ || _) eqn:Hg; [done|]. apply orb_false_elim in Hg as [Hf Hlc%negb_false_iff].
  destruct (stale_is_dead p k t Hp Ht Hf Hlc) as [Hdead|Hst].
  - rewrite dead_stale by done. split; [|done]. cbn.
    intros t0 [Hin|Hin%list_elem_of_singleton]%elem_of_app; [by apply Hr|]. subst t0.
    destruct (ok_keys p Hp k t Ht) as (Hk & _ & Hk3 & _). split_and!; [|done..]. cbn. rewrite Hk. by apply Hk3.
  - rewrite Hst. destruct (now <? TimerAt t) eqn:Hn; [done|]. apply Z.ltb_ge in Hn. case_match; [done|].
    destruct (timer_of_pending p k t Hp Ht Hf Hlc) as [Hdead|(w & d & _ & _ & _ & Hd & _ & _ & _ & _ & Hat & _)];
      [by rewrite dead_stale in Hst|].
    rewrite Hd. split; [done|]. cbn.
    intros id0 d0 [Hin|Hin%list_elem_of_singleton]%elem_of_app; [by eapply Hc|]. simplify_eq. lia.
Qed.

Lemma expire_plan_ok now torder worder p :
  plane_ok p -> plan_ok now (core p) (expire_plan now torder worder p).
Proof.
  intros Hp. unfold expire_plan.
  assert (Ht : forall l plan, plan_ok now (core p) plan ->
    plan_ok now (core p) (foldl (fun plan k => plan_timer now p k plan) plan l)).
  { induction l as [|k l IH]; intros plan H; [done|]. by apply IH, plan_timer_ok. }
  assert (Hw : forall l plan, plan_ok now (core p) plan ->
    plan_ok now (core p) (foldl (fun plan k => plan_workspace now p k plan) plan l)).
  { induction l as [|k l IH]; intros plan H; [done|]. apply IH. destruct H. unfold plan_workspace.
    repeat case_match; done. }
  apply Hw, Ht. split; [by intros t ?%not_elem_of_nil|]. by intros id d ?%not_elem_of_nil.
Qed.

(** What a retirement does: the slot of the destroyed workspace is spent, its
    hold and every other workspace stay as they are. *)
Lemma retire_shape tx deleted t p :
  plane_ok p -> retirement (core p) t ->
  retireLifecycleTimer tx deleted t p = p \/
  exists w w', workspaces (core p) !! TimerWS t = Some w /\ State w' = State w /\ Tenant w' = Tenant w /\
    ID w' = ID w /\
    retireLifecycleTimer tx deleted t p
    = write_hold (TimerWS t) (hold_of p (TimerWS t)) (option_list (Some t)) None (set_core (put_row (core p) w') p).
Proof.
  intros Hp (Hk & _ & _ & w & Hw & Hs). unfold retireLifecycleTimer, workspace_of.
  destruct (timers p !! TimerKey t) as [live|]; [|by left]. destruct (TimerFired live); [by left|]. rewrite Hw.
  unfold commitHold. destruct (commitWS_cases (core p) w tx) as [[_ ->]|(u & _ & ->)]; [left; cbn; by destruct p|].
  right. exists w, (set_UpdatedAt (unixMilli u) w). split_and!; [done..|]. cbn.
  unfold put_row. cbn. by rewrite (wf_lookup _ _ _ (ok_wf p Hp) Hw).
Qed.

Lemma retire_ok tx deleted t p :
  plane_ok p -> retirement (core p) t -> plane_ok (retireLifecycleTimer tx deleted t p).
Proof.
  intros Hp Hr. destruct (retire_shape tx deleted t p Hp Hr) as [-> |(w & w' & Hw & Hs & _ & Hid & ->)]; [done|].
  destruct Hr as (Hk & Hlc & _ & w0 & Hw0 & Hs0). simplify_eq.
  destruct (core_ok_row p _ w0 w' Hp Hw0 Hid) as (_ & Hc & Hn). apply write_slot_ok; try done.
  - apply Hp.
  - apply Hp.
  - by intros t0 [= <-].
  - intros Ha. destruct (Ha w' Hn). congruence.
Qed.

Lemma retire_deaths tx deleted t p :
  plane_ok p -> retirement (core p) t -> deaths_kept (core p) (core (retireLifecycleTimer tx deleted t p)).
Proof.
  intros Hp Hr. destruct (retire_shape tx deleted t p Hp Hr) as [-> |(w & w' & Hw & Hs & _ & Hid & ->)];
    [apply deaths_kept_refl|]. cbn. eapply deaths_kept_row; [exact Hw| |by rewrite <-Hs].
  cbn. by rewrite Hid, (wf_lookup _ _ _ (ok_wf p Hp) Hw).
Qed.

End HoldsProofs.
