(* ===== verification/HoldsTheorems.v ===== *)
(** * Theorems about holds and deadlines

    [system] puts the sections of [Holds] together with every other section of
    [Control] that may run between them: client calls, node reports, the
    ticker's plan and the goroutines that execute claimed deadlines, each
    interleaved with any other, with fleet operations, failing transactions,
    the pruning of timers and restarts.  The lock [lockLifecycle] takes per workspace is not part of it,
    so that the invariants hold without it; the schedules of the theorems that
    record a defect respect it. *)

From Stdlib Require Import ZArith Lia Strings.String.
From stdpp Require Import base list gmap strings option relations.
From S2P Require Import Prelude Lifecycle Control ControlProofs Holds HoldsProofs.
#[local] Open Scope Z_scope.

Module HoldsTheorems.
Import Lifecycle Control ControlProofs Holds HoldsProofs.

(** ** The system *)

(** Where the goroutine that executes a deadline is: started, waiting for the
    node in [wsDestroy] or for the release of the workspace it read, or done
    with the error of the attempt. *)
Inductive phase :=
| Starting (d : LifecycleDeadline)
| Destroying (d : LifecycleDeadline) (gen : Z) (wasHeld : bool)
| Sleeping (d : LifecycleDeadline) (current : Workspace)
| Finished (d : LifecycleDeadline) (cause : option string).

Record system := mkSystem {
  plane : Plane; planned : Plan; planned_at : Z; running : gmap string phase }.

Definition hold_at (s : system) (id : string) : Hold := hold_of (plane s) id.

Section steps.
Context (o : Options) (eligible : Workspace -> string -> option string)
  (ho : HoldOptions) (fingerprint : Request -> string).

Definition on_plane (s : system) (p : Plane) : system := mkSystem p (planned s) (planned_at s) (running s).

Definition start (id : string) (d : LifecycleDeadline) (s : system) (p : Plane) (plan : Plan) : system :=
  let '(started, p) := startLifecycleExpiry id p in
  mkSystem p plan (planned_at s) (if started then <[id := Starting d]> (running s) else running s).

(** The goroutine of a destroying deadline calls [wsDestroy]: its first section
    (run again after an abort or a cleanup was finished), and its last. *)
Definition exec_destroy_begin (online capable : bool) (operation : string) (tx : option Z) (id : string)
    (d : LifecycleDeadline) (s : system) : system :=
  let '(r, c) := destroy_begin online capable operation tx id (core (plane s)) in
  mkSystem (set_core c (plane s)) (planned s) (planned_at s)
    (<[id := match r with
             | Ok DestroyDone => Finished d None
             | Ok (DestroyGo ws wasHeld) => Destroying d (Generation ws) wasHeld
             | Ok _ => Starting d
             | Err _ => Finished d (Some "destroy refused"%string)
             end]> (running s)).

Definition exec_destroy_commit (now : Z) (tx : option Z) (id : string) (d : LifecycleDeadline) (gen : Z)
    (wasHeld : bool) (s : system) : system :=
  let '(r, p) := destroy_section now tx id gen wasHeld (plane s) in
  mkSystem p (planned s) (planned_at s)
    (<[id := Finished d (match r with Ok _ => None | Err _ => Some "destroy failed"%string end)]> (running s)).

(** The sections of a fleet operation, which leave the hold of the workspace
    as it is. *)
Inductive fleet_request :=
| FleetBegin (tx : option Z) (id node : string)
| FleetOffline (destroy : bool) (tx : option Z) (id : string)
| FleetComplete (destroy : bool) (gen : Z) (committed : option (string * string * list string)) (tx : option Z)
    (id : string)
| FleetAcknowledge (tx : option Z) (id node : string) (gen : Z).

Definition fleet_exec (r : fleet_request) (c : Control) : Control :=
  match r with
  | FleetBegin tx id node => snd (fleet_begin tx id node c)
  | FleetOffline destroy tx id => snd (fleet_offline destroy tx id c)
  | FleetComplete destroy gen committed tx id => snd (fleet_complete destroy gen committed tx id c)
  | FleetAcknowledge tx id node gen => snd (fleet_acknowledge tx id node gen c)
  end.

Inductive step (s : system) : system -> Prop :=
| s_control r :
    plain r = true -> request_ok ∅ r ->
    step s (on_plane s (set_core (exec o eligible (core (plane s)) r) (plane s)))
| s_create now tx id tenant owner spec w c :
    workspaces (core (plane s)) !! id = None -> tenant <> EmptyString ->
    create_commit now tx id tenant owner spec (core (plane s)) = (Ok w, c) ->
    step s (on_plane s (write_hold id no_hold [] None (set_core c (plane s))))
| s_lease now rnow tx leaseID principal req :
    clock_ok now -> step s (on_plane s (snd (wsLease ho fingerprint now rnow tx leaseID principal req (plane s))))
| s_renew now rnow tx principal req :
    clock_ok now -> step s (on_plane s (snd (wsLeaseRenew ho fingerprint now rnow tx principal req (plane s))))
| s_cancel now rnow tx principal req :
    step s (on_plane s (snd (wsLeaseCancel fingerprint now rnow tx principal req (plane s))))
| s_policy rnow tx principal req :
    step s (on_plane s (snd (wsIdlePolicy ho fingerprint rnow tx principal req (plane s))))
| s_mark now rnow tx principal req :
    step s (on_plane s (snd (wsIdleMark ho fingerprint now rnow tx principal req (plane s))))
| s_move now requires tx current snap :
    step s (on_plane s (snd (move_section now requires tx current snap (plane s))))
| s_destroy now tx id gen wasHeld :
    step s (on_plane s (snd (destroy_section now tx id gen wasHeld (plane s))))
| s_fleet r :
    step s (on_plane s (set_core (fleet_exec r (core (plane s))) (plane s)))
| s_sleep now timer spec tx current snap :
    fresh_timer (plane s) timer ->
    step s (on_plane s (snd (sleep_section now timer spec tx current snap (plane s))))
| s_wake now tx id :
    step s (on_plane s (snd (wake_section now tx id EmptyString (plane s))))
| s_fire now tx timer t :
    timers (plane s) !! timer = Some t -> Holds.Lifecycle t = false ->
    step s (on_plane s (snd (wake_section now tx (TimerWS t) timer (plane s))))
| s_tick now torder worder :
    planned s = no_plan ->
    step s (mkSystem (plane s) (expire_plan now torder worder (plane s)) now (running s))
| s_retire tx deleted t l :
    retire (planned s) = t :: l ->
    step s (mkSystem (retireLifecycleTimer tx deleted t (plane s))
              (mkPlan l (claims (planned s)) (resume (planned s))) (planned_at s) (running s))
| s_claim now tx id d l d' p :
    claims (planned s) = (id, d) :: l -> retire (planned s) = [] ->
    claimLifecycleDeadline now tx id d (plane s) = (Some d', p) ->
    step s (start id d' s p (mkPlan [] l (resume (planned s))))
| s_claim_refused now tx id d l p :
    claims (planned s) = (id, d) :: l -> retire (planned s) = [] ->
    claimLifecycleDeadline now tx id d (plane s) = (None, p) ->
    step s (mkSystem p (mkPlan [] l (resume (planned s))) (planned_at s) (running s))
| s_resume id d l :
    resume (planned s) = (id, d) :: l -> retire (planned s) = [] -> claims (planned s) = [] ->
    step s (start id d s (plane s) (mkPlan [] [] l))
| s_exec_destroy online capable operation tx id d :
    running s !! id = Some (Starting d) -> Action d = LeaseExpiryDestroy ->
    step s (exec_destroy_begin online capable operation tx id d s)
| s_exec_destroyed now tx id d gen wasHeld :
    running s !! id = Some (Destroying d gen wasHeld) ->
    step s (exec_destroy_commit now tx id d gen wasHeld s)
| s_exec_read id d :
    running s !! id = Some (Starting d) -> Action d <> LeaseExpiryDestroy ->
    step s (mkSystem (plane s) (planned s) (planned_at s)
              (<[id := match lifecycle_sleep_read id (plane s) with
                       | Err true => Finished d None
                       | Err false => Finished d (Some "workspace destroyed"%string)
                       | Ok current => Sleeping d current
                       end]> (running s)))
| s_exec_sleep now rnow tx id d current snap ok p :
    running s !! id = Some (Sleeping d current) ->
    lifecycle_sleep_commit now rnow tx current snap (plane s) = (ok, p) ->
    step s (mkSystem p (planned s) (planned_at s)
              (<[id := Finished d (if ok then None else Some "sleep failed"%string)]> (running s)))
| s_exec_error id ph d cause :
    running s !! id = Some ph -> (ph = Starting d \/ (exists w, ph = Sleeping d w) \/ exists gen wasHeld, ph = Destroying d gen wasHeld) ->
    step s (mkSystem (plane s) (planned s) (planned_at s) (<[id := Finished d (Some cause)]> (running s)))
| s_finish now rnow tx id d cause :
    running s !! id = Some (Finished d cause) ->
    step s (mkSystem (finishLifecycleExpiry now rnow tx id cause (plane s)) (planned s) (planned_at s)
              (delete id (running s)))
| s_prune_timers cutoff limit :
    step s (on_plane s (prune_timers cutoff limit (plane s)))
| s_restart now stamp c :
    restart o now stamp (core (plane s)) = Some c ->
    step s (mkSystem (reload c (plane s)) no_plan 0 ∅).

Definition empty_plane (c : Control) : Plane := mkPlane c ∅ ∅ ∅ ∅ ∅ 0 ∅ ∅.

Definition initial (s : system) : Prop :=
  exists c, fresh c /\ s = mkSystem (empty_plane c) no_plan 0 ∅.

Definition reachable (s : system) : Prop := exists s0, initial s0 /\ rtc step s0 s.
End steps.

Record system_ok (s : system) : Prop := {
  ok_plane : plane_ok (plane s);
  ok_retire : forall t, t ∈ retire (planned s) -> retirement (core (plane s)) t;
  ok_claims : forall id d, (id, d) ∈ claims (planned s) -> DeadlineAt d <= planned_at s }.

(** *** Every step keeps the invariant *)

Lemma start_ok id d s p plan :
  plane_ok p -> plan_ok (planned_at s) (core p) plan -> system_ok (start id d s p plan).
Proof.
  intros Hp [Hr Hc]. unfold start, startLifecycleExpiry. cbv zeta.
  destruct (inFlight _); (split; [by eapply plane_ok_side; [..|exact Hp]|done|done]).
Qed.

(** *** Fleet operations *)

(** A fleet section refuses, or writes one row with the tenant it found over a
    workspace that stays destroyed if it was. *)
Definition same_life (ws w : Workspace) : Prop :=
  Tenant w = Tenant ws /\ (State ws = WSDestroyed -> State w = WSDestroyed).

Lemma transition_from_alive w req next : transitionWorkspace (Some w) req = Ok next -> State w <> WSDestroyed.
Proof.
  intros Ht Hs. apply transition_ok in Ht as (_ & (rule & Hr & _ & Hin) & _). rewrite Hs in Hin.
  by destruct (destroyed_has_no_rule _ _ _ Hr Hin).
Qed.

Ltac fleet_row :=
  match goal with H : transitionWorkspace (Some _) _ = Ok _ |- _ =>
    pose proof (transition_from_alive _ _ _ H); apply transition_ok in H as [-> _] end;
  (eapply one_commit_row; [eassumption|..]); unfold same_life, advance_authority; intros;
  repeat case_match; (done || by split).

Lemma fleet_one r c : exists id (out : result Code Workspace * Control),
  one_commit c id same_life out /\ fleet_exec r c = snd out.
Proof.
  destruct r as [tx id node|destroy tx id|destroy gen committed tx id|tx id node gen]; cbn [fleet_exec];
    exists id; eexists; (split; [|reflexivity]).
  - unfold fleet_begin. owalk. fleet_row.
  - unfold fleet_offline. owalk. fleet_row.
  - unfold fleet_complete. owalk. fleet_row.
  - unfold fleet_acknowledge. owalk. eapply one_commit_row; [eassumption|done|]. by split.
Qed.

Lemma fleet_cases r c : wf c ->
  fleet_exec r c = c \/
  exists id ws w, workspaces c !! id = Some ws /\ ID w = id /\ same_life ws w /\ fleet_exec r c = put_row c w.
Proof.
  intros Hwf. destruct (fleet_one r c) as (id & out & [[e ->]|(ws & w & Hl & Hid & Hs & ->)] & ->); [by left|right].
  exists id, ws, w. split_and!; [done| |done..]. rewrite Hid. by eapply wf_lookup.
Qed.

Lemma fleet_deaths r c : wf c -> wf (fleet_exec r c) /\ deaths_kept c (fleet_exec r c).
Proof.
  intros Hwf. destruct (fleet_cases r c Hwf) as [-> |(id & ws & w & Hl & Hid & [_ Hs] & ->)];
    [split; [done|apply deaths_kept_refl]|]. split.
  - by eapply (wf_insert c _ id w); [..|cbn; by rewrite Hid|cbn; by rewrite Hid|].
  - by eapply deaths_kept_row; [exact Hl|cbn; by rewrite Hid|].
Qed.

Lemma plain_in_place r : plain r = true -> request_ok ∅ r -> in_place r.
Proof. by destruct r. Qed.

Lemma plain_deaths o eligible r c : plain r = true -> request_ok ∅ r -> wf c ->
  wf (exec o eligible c r) /\ deaths_kept c (exec o eligible c r).
Proof.
  intros Hp Hr Hwf. pose proof (in_place_good o eligible ∅ c r (plain_in_place r Hp Hr)) as Hg.
  split; [by apply Hg|by apply good_deaths].
Qed.

Lemma destroy_begin_deaths online capable operation tx id c : wf c ->
  wf (snd (destroy_begin online capable operation tx id c)) /\
  deaths_kept c (snd (destroy_begin online capable operation tx id c)).
Proof.
  intros Hwf. pose proof (destroy_begin_good ∅ online capable operation tx id c) as Hg.
  split; [by apply Hg|by apply good_deaths].
Qed.

Lemma exec_destroy_begin_plane online capable operation tx id d s :
  plane (exec_destroy_begin online capable operation tx id d s)
  = set_core (snd (destroy_begin online capable operation tx id (core (plane s)))) (plane s).
Proof. unfold exec_destroy_begin. by destruct (destroy_begin _ _ _ _ _ _) as [r c]. Qed.

Lemma exec_destroy_commit_plane now tx id d gen wasHeld s :
  plane (exec_destroy_commit now tx id d gen wasHeld s) = snd (destroy_section now tx id gen wasHeld (plane s)).
Proof. unfold exec_destroy_commit. by destruct (destroy_section _ _ _ _ _ _) as [r p]. Qed.

Lemma exec_destroy_begin_plan online capable operation tx id d s :
  planned (exec_destroy_begin online capable operation tx id d s) = planned s /\
  planned_at (exec_destroy_begin online capable operation tx id d s) = planned_at s.
Proof. unfold exec_destroy_begin. by destruct (destroy_begin _ _ _ _ _ _) as [r c]. Qed.

Lemma exec_destroy_commit_plan now tx id d gen wasHeld s :
  planned (exec_destroy_commit now tx id d gen wasHeld s) = planned s /\
  planned_at (exec_destroy_commit now tx id d gen wasHeld s) = planned_at s.
Proof. unfold exec_destroy_commit. by destruct (destroy_section _ _ _ _ _ _) as [r p]. Qed.

(** ** What a section can set on a hold

    Both "the deadline is fired" and "the hold is live" only go away when a
    section other than a claim, or other than a grant, touches a hold.  The
    class says what such a predicate must be closed under; every section then
    preserves its absence. *)
Class Downward (F : Hold -> bool) : Prop := {
  dn_ext : forall h h', Lease h = Lease h' -> Deadline h = Deadline h' -> F h = F h';
  dn_lease : forall h l l', Lease h = Some l -> (EndedAt l' = 0 -> EndedAt l = 0) ->
    F (set_Lease (Some l') h) = true -> F h = true;
  dn_none : forall h, F (set_Deadline None h) = true -> F h = true;
  dn_attempt : forall h d err, Deadline h = Some d ->
    F (set_Deadline (Some (attempt_failed err d)) h) = true -> F h = true;
  dn_reconcile : forall now t w h h' timer, reconcileLifecycleLocked now t w h = (h', timer) ->
    F h' = true -> F h = true }.

Definition awake (h : Hold) : bool := Live (Lease h).

#[export] Instance fired_downward : Downward deadline_fired.
Proof.
  split; unfold deadline_fired; try done.
  - by intros h h' _ ->.
  - intros h d err Hd. by rewrite Hd.
  - intros now t w h h' timer. unfold reconcileLifecycleLocked. destruct (deadline_fired h) eqn:E.
    { intros [= <- <-] _. exact E. }
    destruct (deriveDeadline w h) as [d|] eqn:Hd; intros [= <- <-]; [|done]. cbn.
    unfold deriveDeadline in Hd. by repeat case_match; simplify_eq.
Qed.

#[export] Instance awake_downward : Downward awake.
Proof.
  split; unfold awake; try done.
  - by intros h h' ->.
  - intros h l l' Hl Hl'. rewrite Hl. cbn. rewrite !Z.eqb_eq. done.
  - intros now t w h h' timer. unfold reconcileLifecycleLocked.
    by destruct (deadline_fired h); [|destruct (deriveDeadline w h)]; intros [= <- <-].
Qed.

Section downward.
Context (F : Hold -> bool) {HF : Downward F}.

(** Nothing new on any hold, and every workspace is still there with its
    tenant, the destroyed ones destroyed. *)
Definition kept_core (c c' : Control) : Prop :=
  deaths_kept c c' /\
  forall id w', workspaces c' !! id = Some w' -> exists w, workspaces c !! id = Some w /\ Tenant w' = Tenant w.

Record no_new (p p' : Plane) : Prop := {
  nn_hold : forall id, F (hold_of p' id) = true -> F (hold_of p id) = true;
  nn_core : kept_core (core p) (core p') }.

Lemma kept_core_refl c : kept_core c c.
Proof. split; [apply deaths_kept_refl|eauto]. Qed.

Lemma kept_core_of c c' : wf c -> good ∅ c c' -> keeps c c' -> kept_core c c'.
Proof.
  intros Hwf Hg Hk. split; [by apply good_deaths|]. intros id w' Hl. destruct (Hk id w' Hl) as (w & Hw & Ht & _). eauto.
Qed.

Lemma no_new_same p p' : holds p' = holds p -> core p' = core p -> no_new p p'.
Proof.
  intros He Hc. split; [|rewrite Hc; apply kept_core_refl]. intros id. unfold hold_of. by rewrite He.
Qed.

Lemma no_new_write p c id h ts mut :
  kept_core (core p) c -> (F h = true -> F (hold_of p id) = true) ->
  no_new p (write_hold id h ts mut (set_core c p)).
Proof. intros Hc Hh. split; [|done]. intros id'. rewrite hold_of_write. case_decide; [by subst|done]. Qed.

Lemma kept_commit p id w tx :
  plane_ok p -> workspaces (core p) !! id = Some w -> kept_core (core p) (snd (commitWS (core p) w tx)).
Proof.
  intros Hp Hw. apply kept_core_of; [apply Hp| |].
  - apply (commit_good _ _ id w); [done|intros; apply derived_refl].
  - eapply keeps_committed; [apply Hp|done|done|apply kept_refl].
Qed.

Lemma no_new_commit p id w h timer mut tx :
  plane_ok p -> workspaces (core p) !! id = Some w ->
  (F h = true -> F (hold_of p id) = true) -> no_new p (snd (commitHold p w h timer mut tx)).
Proof.
  intros Hp Hw Hh. pose proof (kept_commit p id w tx Hp Hw) as Hc. unfold commitHold.
  assert (Hid : ID w = id) by (eapply wf_lookup; [apply Hp|done]).
  destruct (commitWS_cases (core p) w tx) as [[_ He]|(t & _ & He)]; rewrite He in *; cbn [snd] in *.
  - by apply no_new_same.
  - apply no_new_write; [done|]. cbn. by rewrite Hid.
Qed.

Lemma dn_end now reason h : F (end_live now reason h) = true -> F h = true.
Proof.
  unfold end_live. destruct (Lease h) as [l|] eqn:Hl; [|done]. destruct (Live (Some l)) eqn:Hlive; [|done].
  apply (dn_lease h l _ Hl). intros _. by apply Z.eqb_eq.
Qed.

Lemma dn_cleared h : F (clearFailedDeadline h) = true -> F h = true.
Proof. unfold clearFailedDeadline. repeat case_match; auto using dn_none. Qed.

Lemma dn_outcome now cause h : F (outcome now cause h) = true -> F h = true.
Proof.
  unfold outcome. destruct cause as [err|]; [|by intros ?%dn_end%dn_none].
  destruct (Deadline h) eqn:Hd; [by apply dn_attempt|done].
Qed.

Lemma handler_no_new p id w h0 rnow h timer mut tx :
  plane_ok p -> workspaces (core p) !! id = Some w ->
  (F h0 = true -> F (hold_of p id) = true) ->
  reconcileLifecycleLocked rnow (lifecycle_timer p id) w h0 = (h, timer) ->
  no_new p (snd (commitHold p w h timer mut tx)).
Proof.
  intros Hp Hw Hh Hr. eapply no_new_commit; [done|exact Hw|]. intros Hf. by eapply Hh, dn_reconcile.
Qed.

Lemma reservation_no_new {A} ho ws (k : Plane -> result Refusal A * Plane) p :
  (forall p1, plane_ok p1 -> same_plane p p1 -> no_new p1 (snd (k p1))) -> plane_ok p ->
  no_new p (snd (with_reservation ho ws k p)).
Proof.
  intros Hk Hp. destruct (reservation_shape ho ws k p) as [(e & He)|(p1 & p2 & H1 & H2 & H3 & _)].
  - rewrite He. by apply no_new_same.
  - destruct (Hk p1 (same_plane_ok _ _ H1 Hp) H1) as [Hk1 Hk2]. rewrite H2 in *.
    destruct H1 as (Hc1 & Hh1 & _), H3 as (Hc3 & Hh3 & _). split; [|by rewrite Hc3, <-Hc1].
    intros id Hf. unfold hold_of in *. rewrite Hh3 in Hf. specialize (Hk1 id Hf). by rewrite Hh1 in Hk1.
Qed.

Lemma idempotent_no_new fingerprint scope key op request k p :
  no_new p (snd (k p)) -> no_new p (snd (idempotent fingerprint scope key op request k p)).
Proof. intros Hk. unfold idempotent. repeat case_match; try done; by apply no_new_same. Qed.
End downward.

(** Walk a handler to its commit. *)
Ltac nwalk :=
  repeat first
    [ apply no_new_same; reflexivity
    | match goal with
      | |- no_new _ _ (snd (match workspace_of ?p ?id with _ => _ end)) =>
          let Hw := fresh "Hw" in destruct (workspace_of p id) as [[? ?]|] eqn:Hw;
          [apply workspace_of_some in Hw as [Hw ->]|]
      | |- no_new _ _ (snd (match Lease ?h with _ => _ end)) => destruct (Lease h) eqn:?
      | |- no_new _ _ (snd (if ?b then _ else _)) => destruct b eqn:?
      | |- no_new _ _ (snd (let '(_, _) := reconcileLifecycleLocked ?a ?b ?c ?d in _)) =>
          let Hr := fresh "Hr" in destruct (reconcileLifecycleLocked a b c d) as [? ?] eqn:Hr
      end ]; try (apply snd_repack; eapply handler_no_new; [typeclasses eauto|assumption|eassumption| |eassumption]).

Section sections.
Context (F : Hold -> bool) {HF : Downward F} (ho : HoldOptions) (fingerprint : Request -> string).

Lemma renew_no_new now rnow tx principal req p :
  plane_ok p -> no_new F p (snd (wsLeaseRenew ho fingerprint now rnow tx principal req p)).
Proof.
  intros Hp. apply idempotent_no_new. case_match; [by apply no_new_same|].
  apply reservation_no_new; [|done]. intros p1 Hp1 _. unfold lease_extend. cbv zeta. nwalk.
  intros Hf. rewrite (dn_ext _ (set_Lease (Some (renewed now req w0)) (hold_of p1 (RenewReqWS req)))) in Hf by done.
  by eapply dn_lease in Hf.
Qed.

Lemma cancel_no_new now rnow tx principal req p :
  plane_ok p -> no_new F p (snd (wsLeaseCancel fingerprint now rnow tx principal req p)).
Proof.
  intros Hp. apply idempotent_no_new. unfold lease_cancel. cbv zeta. nwalk.
  apply snd_repack. eapply no_new_commit; [done|exact Hw|]. intros Hf. eapply dn_reconcile in Hf; [|exact Hr].
  apply dn_none in Hf.
  eapply dn_lease in Hf; [done|done|]. intros _. cbn in *.
  match goal with H : negb (_ =? 0) = false |- _ => by apply negb_false_iff, Z.eqb_eq in H end.
Qed.

Lemma idle_no_new rnow tx id scope key op request change p :
  (forall h, Lease (change h) = Lease h /\ Deadline (change h) = Deadline h) -> plane_ok p ->
  no_new F p (snd (idle_commit fingerprint rnow tx id scope key op request change p)).
Proof.
  intros Hc Hp. unfold idle_commit. cbv zeta. nwalk. intros Hf%dn_cleared; [|done].
  erewrite dn_ext in Hf; [exact Hf|apply Hc..].
Qed.

Lemma policy_no_new rnow tx principal req p :
  plane_ok p -> no_new F p (snd (wsIdlePolicy ho fingerprint rnow tx principal req p)).
Proof.
  intros Hp. apply idempotent_no_new. case_match; [by apply no_new_same|].
  apply reservation_no_new; [|done]. intros. by apply idle_no_new.
Qed.

Lemma mark_no_new now rnow tx principal req p :
  plane_ok p -> no_new F p (snd (wsIdleMark ho fingerprint now rnow tx principal req p)).
Proof.
  intros Hp. apply idempotent_no_new, reservation_no_new; [|done]. intros. apply idle_no_new; [|done].
  intros h. unfold mark_idle. by repeat case_match.
Qed.

Lemma move_no_new now requires tx current snap p :
  plane_ok p -> no_new F p (snd (move_section now requires tx current snap p)).
Proof.
  intros Hp. unfold move_section.
  pose proof (kept_core_of _ _ (ok_wf p Hp) (move_good ∅ requires tx current snap (core p))
    (move_keeps requires tx current snap (core p) (ok_wf p Hp))) as Hc.
  destruct (move_commit _ _ _ _ _) as [[w|e] c]; [|by split].
  cbn. apply no_new_write; [done|]. intros Hf.
  rewrite (dn_ext _ (set_Deadline None (end_live now LeaseEndMoved (hold_of p (ID w))))) in Hf by done.
  by apply dn_none, dn_end in Hf.
Qed.

Lemma destroy_kept tx id gen wasHeld c : wf c -> kept_core c (snd (destroy_commit tx id gen wasHeld c)).
Proof.
  intros Hwf. split; [apply good_deaths; [done|apply destroy_commit_good]|].
  destruct (destroy_one tx id gen wasHeld c) as [[e ->]|(ws & w & Hl & Hid & [_ Ht] & ->)]; [by eauto|].
  intros id' w'. cbn. rewrite (wf_lookup c id ws Hwf Hl) in Hid. rewrite Hid.
  destruct (decide (id' = id)) as [-> |Hne]; [rewrite lookup_insert_eq; intros [= <-]; eauto|].
  rewrite lookup_insert_ne by done. eauto.
Qed.

Lemma destroy_no_new now tx id gen wasHeld p :
  plane_ok p -> no_new F p (snd (destroy_section now tx id gen wasHeld p)).
Proof.
  intros Hp. unfold destroy_section. pose proof (destroy_kept tx id gen wasHeld (core p) (ok_wf p Hp)) as Hc.
  destruct (destroy_commit _ _ _ _ _) as [[w|e] c]; [|by split].
  cbn. apply no_new_write; [done|]. by intros Hf%dn_none%dn_end.
Qed.

Lemma fleet_kept r c : wf c -> kept_core c (fleet_exec r c).
Proof.
  intros Hwf. split; [by apply fleet_deaths|]. intros id' w'.
  destruct (fleet_cases r c Hwf) as [-> |(id & ws & w & Hl & Hid & [Ht _] & ->)]; [eauto|]. cbn. rewrite Hid.
  destruct (decide (id' = id)) as [-> |Hne]; [rewrite lookup_insert_eq; intros [= <-]; eauto|].
  rewrite lookup_insert_ne by done. eauto.
Qed.

Lemma fleet_no_new r p : plane_ok p -> no_new F p (set_core (fleet_exec r (core p)) p).
Proof. intros Hp. split; [done|]. apply fleet_kept, Hp. Qed.

Lemma begin_no_new online capable operation tx id p :
  plane_ok p -> no_new F p (set_core (snd (destroy_begin online capable operation tx id (core p))) p).
Proof.
  intros Hp. split; [done|]. apply kept_core_of; [apply Hp|apply destroy_begin_good|apply destroy_begin_keeps, Hp].
Qed.

Lemma retire_no_new tx deleted t p :
  plane_ok p -> retirement (core p) t -> no_new F p (retireLifecycleTimer tx deleted t p).
Proof.
  intros Hp Hr. pose proof (retire_deaths tx deleted t p Hp Hr) as Hd.
  destruct (retire_shape tx deleted t p Hp Hr) as [He|(w & w' & Hw & Hs & Ht & Hid & He)]; rewrite He in *;
    [by apply no_new_same|]. apply no_new_write; [|done]. split; [exact Hd|]. intros id w0. cbn.
  rewrite Hid, (wf_lookup _ _ _ (ok_wf p Hp) Hw).
  destruct (decide (id = TimerWS t)) as [-> |]; [rewrite lookup_insert_eq; intros [= <-]; eauto|].
  rewrite lookup_insert_ne by done. eauto.
Qed.

Lemma sleep_no_new now timer spec tx current snap p :
  plane_ok p -> no_new F p (snd (sleep_section now timer spec tx current snap p)).
Proof.
  intros Hp. unfold sleep_section.
  pose proof (kept_core_of _ _ (ok_wf p Hp) (sleep_good ∅ tx current snap (core p))
    (sleep_keeps tx current snap (core p) (ok_wf p Hp))) as Hc.
  destruct (sleep_commit _ _ _ _) as [[w|e] c]; [|by split]. cbn. by apply no_new_write.
Qed.

Lemma wake_no_new now tx id timerID p : plane_ok p -> no_new F p (snd (wake_section now tx id timerID p)).
Proof.
  intros Hp. unfold wake_section. destruct (workspaces (core p) !! id) as [ws|]; [|by apply no_new_same].
  destruct (is_state WSDestroyed ws); [by apply no_new_same|]. cbv zeta.
  match goal with |- no_new _ _ (snd (match ?n with _ => _ end)) => destruct n as [named|e] end;
    [|by apply no_new_same].
  match goal with |- no_new _ _ (snd (if ?b then _ else _)) => destruct b end; [by apply no_new_same|].
  match goal with |- context [wsWake ?f tx id (core p)] =>
    pose proof (kept_core_of _ _ (ok_wf p Hp) (wake_good ∅ f tx id (core p))
      (wake_keeps f tx id (core p) (ok_wf p Hp))) as Hc end.
  destruct (wsWake _ _ _ _) as [[w|e] c]; [|by split]. cbn. by apply no_new_write.
Qed.

Lemma finish_no_new now rnow tx id cause p : plane_ok p -> no_new F p (finishLifecycleExpiry now rnow tx id cause p).
Proof.
  intros Hp. destruct (finish_shape now rnow tx id cause p) as (p2 & H2 & [[_ ->]|(w & h & timer & Hw & Hr & ->)]).
  { by apply no_new_same; apply H2. }
  pose proof (same_plane_ok p p2 H2 Hp) as Hp2. destruct H2 as (Hc & Hh & _).
  assert (Hn : no_new F p2 (snd (commitHold p2 w h timer None tx))).
  { eapply no_new_commit; [done|by rewrite Hc|]. intros Hf. eapply dn_reconcile in Hf; [|exact Hr].
    apply dn_outcome in Hf; [|done]. unfold hold_of in *. by rewrite Hh. }
  destruct Hn as [Hn1 Hn2]. split; [|by rewrite <-Hc]. intros id' Hf. specialize (Hn1 id' Hf).
  unfold hold_of in *. by rewrite Hh in Hn1.
Qed.

Lemma lifecycle_sleep_good tx current snap c : good ∅ c (snd (lifecycle_sleep_core tx current snap c)).
Proof.
  unfold lifecycle_sleep_core, with_ws. destruct (workspaces c !! _) as [ws|] eqn:Hw; [|apply good_refl].
  repeat (match goal with |- context [if ?b then _ else _] => destruct b; [apply good_refl|] end).
  unfold with_transition. destruct (transitionWorkspace _ _) as [next|] eqn:Ht; [|apply good_refl].
  rewrite repackaged. eapply commit_good; [exact Hw|]. intros _.
  eapply derived_same; [eapply transition_keeps; [exact Ht|apply keeps_sleep]|done..|].
  right. split; [done|]. cbn. by rewrite (transition_state _ _ _ Ht).
Qed.

Lemma sleep_commit_no_new now rnow tx current snap p ok p' :
  plane_ok p -> lifecycle_sleep_commit now rnow tx current snap p = (ok, p') -> no_new F p p'.
Proof.
  intros Hp. unfold lifecycle_sleep_commit.
  pose proof (kept_core_of _ _ (ok_wf p Hp) (lifecycle_sleep_good tx current snap (core p))
    (lifecycle_sleep_keeps tx current snap (core p) (ok_wf p Hp))) as Hc.
  destruct (lifecycle_sleep_core _ _ _ _) as [[[w|]|e] c]; cbv zeta; [|intros [= _ <-]; by split..].
  destruct (reconcileLifecycleLocked _ _ _ _) as [h timer] eqn:Hr. intros [= _ <-].
  apply no_new_write; [done|]. intros Hf. eapply dn_reconcile in Hf; [|exact Hr]. by apply dn_end, dn_none in Hf.
Qed.
End sections.

(** A grant clears a failed deadline and leaves none that is executing. *)
Lemma lease_no_fire ho fingerprint now rnow tx leaseID principal req p :
  plane_ok p -> no_new deadline_fired p (snd (wsLease ho fingerprint now rnow tx leaseID principal req p)).
Proof.
  intros Hp. apply idempotent_no_new. case_match; [|by apply no_new_same].
  apply reservation_no_new; [|done]. intros p1 Hp1 _. unfold lease_grant. cbv zeta. nwalk.
  by rewrite not_busy_cleared.
Qed.

(** ** The invariant of the system *)

Section invariant.
Context (o : Options) (eligible : Workspace -> string -> option string)
  (ho : HoldOptions) (fingerprint : Request -> string).
Context (Hlimit : MaxLeaseSec ho <= 2 ^ 50).

Lemma start_core id d s p plan : core (plane (start id d s p plan)) = core p.
Proof. unfold start, startLifecycleExpiry. cbv zeta. by destruct (inFlight _). Qed.

Lemma claim_kept now tx id d p r p' :
  plane_ok p -> claimLifecycleDeadline now tx id d p = (r, p') -> kept_core (core p) (core p').
Proof.
  intros Hp. unfold claimLifecycleDeadline. destruct (workspace_of p id) as [[w h]|] eqn:Hw;
    [|intros [= _ <-]; apply kept_core_refl]. apply workspace_of_some in Hw as [Hw ->].
  pose proof (kept_commit p id w tx Hp Hw) as Hk. unfold commitHold.
  destruct (commitWS (core p) w tx) as [[?|?] ?]; repeat case_match; intros; simplify_eq;
    first [apply kept_core_refl|done].
Qed.

Lemma step_plane s s' : system_ok s -> step o eligible ho fingerprint s s' -> plane_ok (plane s').
Proof.
  intros [Hp Hr Hc] Hs. destruct Hs; rewrite ?exec_destroy_begin_plane, ?exec_destroy_commit_plane; cbn; try done.
  - apply set_core_ok; [done|by apply plain_deaths, Hp..].
  - by eapply create_ok.
  - by apply wsLease_ok.
  - by apply wsLeaseRenew_ok.
  - by apply wsLeaseCancel_ok.
  - by apply wsIdlePolicy_ok.
  - by apply wsIdleMark_ok.
  - by apply move_section_ok.
  - by apply destroy_section_ok.
  - apply set_core_ok; [done|by apply fleet_deaths, Hp..].
  - by apply sleep_section_ok.
  - apply wake_section_ok; [done|exact Hp].
  - apply wake_section_ok; [|exact Hp]. intros t' Ht' _. simplify_eq. split; [done|].
    intros x ->. destruct (ok_keys _ Hp _ _ H) as (_ & _ & _ & Hx). specialize (Hx x eq_refl). congruence.
  - apply retire_ok; [done|]. apply Hr. rewrite H. by apply list_elem_of_here.
  - apply (same_plane_ok p); [|by eapply claim_ok]. unfold start, startLifecycleExpiry. cbv zeta.
    by destruct (inFlight _).
  - by eapply claim_ok.
  - apply (same_plane_ok (plane s)); [|done]. unfold start, startLifecycleExpiry. cbv zeta. by destruct (inFlight _).
  - apply set_core_ok; [done|by apply destroy_begin_deaths, Hp..].
  - by apply destroy_section_ok.
  - by eapply sleep_commit_ok.
  - by apply finish_expiry_ok.
  - by apply prune_ok.
  - by eapply reload_ok.
Qed.

(** No step forgets a workspace or brings a destroyed one back. *)
Lemma step_deaths s s' : system_ok s -> step o eligible ho fingerprint s s' ->
  deaths_kept (core (plane s)) (core (plane s')).
Proof.
  intros [Hp Hr Hc] Hs.
  assert (Hn : forall p, no_new deadline_fired (plane s) p -> deaths_kept (core (plane s)) (core p))
    by (intros p [_ [Hd _]]; exact Hd).
  destruct Hs; rewrite ?exec_destroy_begin_plane, ?exec_destroy_commit_plane, ?start_core; cbn;
    try apply deaths_kept_refl.
  - by apply plain_deaths, Hp.
  - revert H1. unfold create_commit.
    match goal with |- context [commitWS _ ?n _] =>
      destruct (commitWS_cases (core (plane s)) n tx) as [[_ ->]|(t & _ & ->)] end; [done|]. intros [= <- <-].
    split; intros id0; unfold alive; cbn; destruct (decide (id0 = id)) as [-> |Hne]; intros Ha;
      rewrite ?lookup_insert_eq, ?lookup_insert_ne in Ha by done; try done. intros w0. congruence.
  - by apply Hn, lease_no_fire.
  - by apply Hn, (renew_no_new deadline_fired).
  - by apply Hn, (cancel_no_new deadline_fired).
  - by apply Hn, (policy_no_new deadline_fired).
  - by apply Hn, (mark_no_new deadline_fired).
  - by apply Hn, (move_no_new deadline_fired).
  - by apply Hn, (destroy_no_new deadline_fired).
  - by apply fleet_deaths, Hp.
  - by apply Hn, (sleep_no_new deadline_fired).
  - by apply Hn, (wake_no_new deadline_fired).
  - by apply Hn, (wake_no_new deadline_fired).
  - apply Hn, (retire_no_new deadline_fired); [done|]. apply Hr. rewrite H. by apply list_elem_of_here.
  - by eapply claim_kept.
  - by eapply claim_kept.
  - by apply destroy_begin_deaths, Hp.
  - by apply Hn, (destroy_no_new deadline_fired).
  - eapply Hn, (sleep_commit_no_new deadline_fired); done.
  - by apply Hn, (finish_no_new deadline_fired).
  - destruct (restart_spec o (fun _ _ => None) ∅ now stamp _ (ok_wf _ Hp)) as (c' & Hr' & _ & Ha & _). simplify_eq.
    by eapply hstep_deaths.
Qed.

Lemma step_plan s s' : system_ok s -> step o eligible ho fingerprint s s' ->
  (forall t, t ∈ retire (planned s') -> t ∈ retire (planned s) \/ retirement (core (plane s)) t) /\
  (forall id d, (id, d) ∈ claims (planned s') -> DeadlineAt d <= planned_at s').
Proof.
  intros [Hp Hr Hc] Hs.
  assert (Hst : forall id d s p plan, planned (start id d s p plan) = plan /\
    planned_at (start id d s p plan) = planned_at s).
  { intros. unfold start, startLifecycleExpiry. cbv zeta. by destruct (inFlight _). }
  destruct Hs; try (split; [intros t Ht; by left|done]);
    rewrite ?(proj1 (exec_destroy_begin_plan _ _ _ _ _ _ _)), ?(proj2 (exec_destroy_begin_plan _ _ _ _ _ _ _)),
      ?(proj1 (exec_destroy_commit_plan _ _ _ _ _ _ _)), ?(proj2 (exec_destroy_commit_plan _ _ _ _ _ _ _)),
      ?(proj1 (Hst _ _ _ _ _)), ?(proj2 (Hst _ _ _ _ _)); cbn;
    try (split; [intros t' Ht'; by left|done]).
  - destruct (expire_plan_ok now torder worder (plane s) Hp) as [H1 H2]. split; [|done]. intros t Ht. right. by apply H1.
  - split; [|done]. intros t0 Ht0. left. rewrite H. by apply list_elem_of_further.
  - split; [by intros ? ?%not_elem_of_nil|]. intros id0 d0 Hin. apply (Hc id0). rewrite H. by apply list_elem_of_further.
  - split; [by intros ? ?%not_elem_of_nil|]. intros id0 d0 Hin. apply (Hc id0). rewrite H. by apply list_elem_of_further.
  - split; [by intros ? ?%not_elem_of_nil|]. by intros ? ? ?%not_elem_of_nil.
  - split; [by intros ? ?%not_elem_of_nil|]. by intros ? ? ?%not_elem_of_nil.
Qed.

Lemma step_ok s s' : system_ok s -> step o eligible ho fingerprint s s' -> system_ok s'.
Proof.
  intros Hok Hs. pose proof (step_deaths s s' Hok Hs) as Hd. destruct (step_plan s s' Hok Hs) as [Hr Hc].
  split; [by eapply step_plane| |done]. intros t Ht.
  assert (retirement (core (plane s)) t) as (? & ? & ? & Hdead).
  { destruct (Hr t Ht) as [Hin|?]; [by apply (ok_retire s Hok)|done]. }
  split_and!; [done..|]. by eapply deaths_kept_dead.
Qed.
End invariant.

Lemma initial_ok s : initial s -> system_ok s.
Proof.
  intros (c & Hf & ->). destruct (fresh_ok ∅ c Hf) as [Hwf _]. destruct Hf as (Hw & _ & _).
  split; cbn; [|by intros ? ?%not_elem_of_nil|by intros ? ? ?%not_elem_of_nil]. split; cbn; try done.
Qed.

Lemma reachable_system_ok o eligible ho fingerprint s :
  MaxLeaseSec ho <= 2 ^ 50 -> reachable o eligible ho fingerprint s -> system_ok s.
Proof.
  intros Hlim (s0 & Hi & Hr). apply initial_ok in Hi. induction Hr as [|s1 s2 s3 Hs _ IH]; [done|].
  by eapply IH, step_ok.
Qed.

(** A tick that visits the waiting timer of a destroyed workspace retires it. *)
Lemma stale_timer_retired now torder worder p k t :
  timers p !! k = Some t -> TimerFired t = false -> Holds.Lifecycle t = true -> dead (core p) (TimerWS t) ->
  k ∈ torder -> retire_timer now LeaseEndDestroyed t ∈ retire (expire_plan now torder worder p).
Proof.
  intros Ht Hf Hlc Hdead Hin. unfold expire_plan.
  assert (Hw : forall l plan, retire (foldl (fun plan id => plan_workspace now p id plan) plan l) = retire plan).
  { induction l as [|x l IH]; intros plan; [done|]. cbn. rewrite IH. unfold plan_workspace. by repeat case_match. }
  rewrite Hw. clear Hw. generalize no_plan as plan.
  assert (Hm : forall x plan t0, t0 ∈ retire plan -> t0 ∈ retire (plan_timer now p x plan)).
  { intros x plan t0 Ht0. unfold plan_timer. repeat case_match; cbn; try done. apply elem_of_app. by left. }
  assert (Hms : forall l plan t0, t0 ∈ retire plan -> t0 ∈ retire (foldl (fun plan key => plan_timer now p key plan) plan l)).
  { induction l as [|x l IH]; intros plan t0 Ht0; [done|]. by apply IH, Hm. }
  induction torder as [|x l IH]; intros plan; [by apply not_elem_of_nil in Hin|]. cbn [foldl].
  apply elem_of_cons in Hin as [<- |Hin]; [|by apply IH]. apply Hms. unfold plan_timer. rewrite Ht, Hf, Hlc. cbn [orb negb].
  rewrite dead_stale by done. cbn. apply elem_of_app. right. by apply list_elem_of_singleton.
Qed.

(** ** Theorems *)

Section theorems.
Context (o : Options) (eligible : Workspace -> string -> option string)
  (ho : HoldOptions) (fingerprint : Request -> string).
Context (Hlimit : MaxLeaseSec ho <= 2 ^ 50).


Lemma fleet_destroys c id w gen committed u :
  wf c -> workspaces c !! id = Some w -> State w <> WSDestroyed -> can_advance w = true ->
  dead (fleet_exec (FleetComplete true gen committed (Some u) id) c) id.
Proof.
  intros Hwf Hw Hs Hadv. cbn [fleet_exec]. unfold fleet_complete, with_ws. rewrite Hw, Hadv. cbn [negb andb].
  rewrite andb_false_r. cbn [negb andb]. unfold with_transition.
  assert (transitionWorkspace (Some w) (mkTransition transitionFleetComplete actorControl WSDestroyed
    (Some (Generation w)) None) = Ok (set_State WSDestroyed w)) as ->.
  { unfold transitionWorkspace. cbn [lifecycleRules op actor rule_actor to expectGeneration expectNode mismatch rule_pairs].
    rewrite Z.eqb_refl, (bool_decide_true (_ = _)) by done. cbn [negb].
    destruct (State w) eqn:E; try done; vm_compute; reflexivity. }
  cbv zeta.
  match goal with |- context [commitWS c ?n (Some u)] => set (next := n) end.
  assert (ID next = id /\ State next = WSDestroyed) as [Hi Hd].
  { unfold next, advance_authority. rewrite <- (wf_lookup _ _ _ Hwf Hw).
    destruct committed as [[[? ?] ?]|]; by destruct (_ && _). }
  clearbody next. exists (set_UpdatedAt (unixMilli u) next). cbn. rewrite Hi, lookup_insert_eq. by split.
Qed.

(** a fleet operation that destroys a workspace leaves its deadline pending
    and its timer armed; the next tick finds the timer stale and spends it,
    and the deadline waits in the row of the destroyed workspace. *)
Theorem fleet_destroy_keeps_the_deadline s id d w gen committed u u' now torder :
  reachable o eligible ho fingerprint s -> workspaces (core (plane s)) !! id = Some w -> State w <> WSDestroyed ->
  can_advance w = true -> Deadline (hold_at s id) = Some d -> Fired d = false -> lifecycleTimerID id ∈ torder ->
  let s1 := on_plane s (set_core (fleet_exec (FleetComplete true gen committed (Some u) id) (core (plane s))) (plane s)) in
  step o eligible ho fingerprint s s1 /\ dead (core (plane s1)) id /\ hold_at s1 id = hold_at s id /\
  exists t, lifecycle_timer (plane s1) id = Some t /\ TimerFired t = false /\
    retire_timer now LeaseEndDestroyed t ∈ retire (expire_plan now torder [] (plane s1)) /\
    let p2 := retireLifecycleTimer (Some u') true (retire_timer now LeaseEndDestroyed t) (plane s1) in
    spent (lifecycle_timer p2 id) /\ Deadline (hold_of p2 id) = Some d.
Proof.
  intros Hr Hw Hs Hadv Hd Hf Hto. apply reachable_system_ok in Hr; [|done]. destruct Hr as [Hp _ _]. cbv zeta.
  set (r := FleetComplete true gen committed (Some u) id).
  assert (Hdead : dead (fleet_exec r (core (plane s))) id) by (eapply fleet_destroys; [apply Hp|exact Hw|done..]).
  assert (Hp1 : plane_ok (set_core (fleet_exec r (core (plane s))) (plane s)))
    by (apply set_core_ok; [done|apply fleet_deaths, Hp..]).
  split_and!; [apply s_fleet|exact Hdead|done|].
  destruct (pending_match (plane s) id d Hp (alive_some _ _ _ Hw Hs) Hd Hf) as ((t & Ht & Htf & _) & _).
  exists t. unfold on_plane. cbn [plane]. set (p1 := set_core _ (plane s)) in *.
  assert (Ht1 : timers p1 !! lifecycleTimerID id = Some t) by exact Ht.
  destruct (ok_keys _ Hp1 _ _ Ht1) as (Hk & Hws & _ & Hlc). specialize (Hws id eq_refl). specialize (Hlc id eq_refl).
  split_and!; [exact Ht|exact Htf|..].
  - apply stale_timer_retired with (k := lifecycleTimerID id); try done. by rewrite Hws.
  - unfold retireLifecycleTimer, workspace_of. cbn [TimerKey TimerWS retire_timer]. rewrite Hk, Ht1, Htf, Hws.
    destruct Hdead as (w1 & Hw1 & _). change (core p1) with (fleet_exec r (core (plane s))). rewrite Hw1.
    unfold commitHold, commitWS, persistWS, publish. cbn. unfold lifecycle_timer. cbn.
    rewrite Hk. by rewrite lookup_insert_eq.
  - unfold retireLifecycleTimer, workspace_of. cbn [TimerKey TimerWS retire_timer]. rewrite Hk, Ht1, Htf, Hws.
    destruct Hdead as (w1 & Hw1 & _). change (core p1) with (fleet_exec r (core (plane s))). rewrite Hw1.
    unfold commitHold, commitWS, persistWS, publish. cbn [snd fst]. rewrite hold_of_write.
    rewrite decide_True; [exact Hd|]. cbn. symmetry. eapply (wf_lookup (core p1)); [apply Hp1|exact Hw1].
Qed.

(** Steps that are not a claim of this workspace do not fire its deadline. *)
Lemma fired_by_claim s s' id d d' :
  system_ok s -> step o eligible ho fingerprint s s' ->
  Deadline (hold_at s id) = Some d -> Fired d = false ->
  Deadline (hold_at s' id) = Some d' -> Fired d' = true ->
  alive (core (plane s)) id /\
  exists d0, (id, d0) ∈ claims (planned s) /\ DeadlineAt d = DeadlineAt d0 /\ DeadlineAt d' = DeadlineAt d /\
    Action d' = Action d /\ Source d' = Source d.
Proof.
  intros [Hp Hret Hc] Hs Hd Hf Hd' Hf'.
  assert (Hnf : (forall id, deadline_fired (hold_of (plane s') id) = true -> deadline_fired (hold_of (plane s) id) = true)
            -> False).
  { intros Hn. specialize (Hn id). unfold deadline_fired, hold_at in *. rewrite Hd, Hd', Hf in Hn.
    discriminate (Hn Hf'). }
  destruct Hs; try (exfalso; apply Hnf; by intros ?);
    rewrite ?exec_destroy_begin_plane, ?exec_destroy_commit_plane in *; cbn in *; try (exfalso; apply Hnf; by intros ?).
  - exfalso. apply Hnf. intros id1. rewrite hold_of_write. by case_decide.
  - exfalso. apply Hnf, (nn_hold deadline_fired). by apply lease_no_fire.
  - exfalso. apply Hnf, (nn_hold deadline_fired). by apply (renew_no_new deadline_fired).
  - exfalso. apply Hnf, (nn_hold deadline_fired). by apply (cancel_no_new deadline_fired).
  - exfalso. apply Hnf, (nn_hold deadline_fired). by apply (policy_no_new deadline_fired).
  - exfalso. apply Hnf, (nn_hold deadline_fired). by apply (mark_no_new deadline_fired).
  - exfalso. apply Hnf, (nn_hold deadline_fired). by apply (move_no_new deadline_fired).
  - exfalso. apply Hnf, (nn_hold deadline_fired). by apply (destroy_no_new deadline_fired).
  - exfalso. apply Hnf, (nn_hold deadline_fired). by apply (sleep_no_new deadline_fired).
  - exfalso. apply Hnf, (nn_hold deadline_fired). by apply (wake_no_new deadline_fired).
  - exfalso. apply Hnf, (nn_hold deadline_fired). by apply (wake_no_new deadline_fired).
  - exfalso. apply Hnf, (nn_hold deadline_fired). apply (retire_no_new deadline_fired); [done|].
    apply Hret. rewrite H. by apply list_elem_of_here.
  - destruct (claim_shape _ _ _ _ _ _ _ Hp H1) as [[[=] _]|(w & d1 & t & c & [Hw Hal] & Hd1 & Hf1 & Hat & [= ->] & _ & ->)].
    assert (Hh : hold_at (start id0 (claim_deadline now d1) s
       (write_hold id0 (let next := set_Deadline (Some (claim_deadline now d1)) (hold_of (plane s) id0) in
          if Source d1 =s LifecycleSourceLease then end_live now LeaseEndDeadline next else next) [t] None
          (set_core c (plane s))) (mkPlan [] l (resume (planned s)))) id =
       if decide (id = id0) then
         (let next := set_Deadline (Some (claim_deadline now d1)) (hold_of (plane s) id0) in
          if Source d1 =s LifecycleSourceLease then end_live now LeaseEndDeadline next else next)
       else hold_at s id).
    { unfold hold_at, start, startLifecycleExpiry. cbv zeta.
      destruct (inFlight _); cbn; exact (hold_of_write id0 _ [t] None (set_core c (plane s)) id). }
    rewrite Hh in Hd'. case_decide as He; [subst id0|congruence].
    unfold hold_at in Hd. rewrite Hd in Hd1. injection Hd1 as <-.
    split; [by eapply alive_some|]. exists d0. split; [rewrite H; apply list_elem_of_here|].
    assert (d' = claim_deadline now d) as -> by (destruct (Source d =s _); rewrite ?end_live_deadline in Hd';
      cbn in Hd'; congruence). done.
  - exfalso. destruct (claim_shape _ _ _ _ _ _ _ Hp H1) as [[_ ->]|(? & ? & ? & ? & _ & _ & _ & _ & [=] & _)].
    by apply Hnf.
  - exfalso. apply Hnf. unfold start, startLifecycleExpiry. cbv zeta.
    by destruct (inFlight _); intros ?.
  - exfalso. apply Hnf, (nn_hold deadline_fired). by apply (destroy_no_new deadline_fired).
  - exfalso. eapply Hnf, (nn_hold deadline_fired). by eapply (sleep_commit_no_new deadline_fired).
  - exfalso. apply Hnf, (nn_hold deadline_fired). by apply (finish_no_new deadline_fired).
  - exfalso. apply Hnf. intros id0. unfold hold_of. cbn. by rewrite (ok_hold_rows _ Hp).
Qed.

(** C20: a deadline fires only in a tick that saw it due, and it fires as it was
    published.  No client call, node report or restart can fire one.  While a
    hold is live, neither its own deadline nor the idle policy fires before the
    minimum its caller asked for, and the hold's own deadline fires no earlier
    than the maximum. *)
Theorem deadline_fires_no_earlier_than_promised s s' id d d' :
  reachable o eligible ho fingerprint s -> step o eligible ho fingerprint s s' ->
  Deadline (hold_at s id) = Some d -> Fired d = false ->
  Deadline (hold_at s' id) = Some d' -> Fired d' = true ->
  DeadlineAt d <= planned_at s /\
  (DeadlineAt d', Action d', Source d') = (DeadlineAt d, Action d, Source d) /\
  forall l, Lease (hold_at s id) = Some l -> Live (Some l) = true ->
    MinAliveUntil l <= planned_at s /\
    (Source d = LifecycleSourceLease -> MaxAliveUntil l <= planned_at s).
Proof.
  intros Hr%reachable_system_ok Hs Hd Hf Hd' Hf'; [|done].
  destruct (fired_by_claim s s' id d d' Hr Hs Hd Hf Hd' Hf') as (Hal & d0 & Hin & Hat & Hat' & Ha & Hsrc).
  pose proof (ok_claims s Hr id d0 Hin) as Hdue.
  split; [lia|]. split; [congruence|]. intros l Hl Hlive.
  destruct (pending_match (plane s) id d (ok_plane s Hr) Hal Hd Hf) as (_ & Hpr).
  destruct (Hpr l Hl) as [Hmin Hmax]; [unfold hold_at in Hl; by rewrite Hl|].
  split; [lia|]. intros Hsl. specialize (Hmax Hsl). lia.
Qed.
End theorems.

(** ** The quota of held workspaces *)

(** The workspaces of a tenant that a live hold keeps awake. *)
Definition held_by (tenant : string) (p : Plane) : gmap string Workspace :=
  filter (fun kw : string * Workspace => Tenant kw.2 = tenant /\ State kw.2 <> WSDestroyed /\
            awake (hold_of p kw.1) = true) (workspaces (core p)).

Definition held_count (tenant : string) (p : Plane) : Z := Z.of_nat (size (held_by tenant p)).

Definition tenants_named (p : Plane) : Prop := map_Forall (fun _ w => Tenant w <> EmptyString) (workspaces (core p)).

(** Everything held after the change was held before it. *)
Definition shrinks (p p' : Plane) : Prop :=
  forall id w', workspaces (core p') !! id = Some w' -> State w' <> WSDestroyed -> awake (hold_of p' id) = true ->
    exists w, workspaces (core p) !! id = Some w /\ Tenant w = Tenant w' /\ State w <> WSDestroyed /\
      awake (hold_of p id) = true.

Lemma size_le_dom {A B} (m : gmap string A) (m' : gmap string B) :
  (forall k, is_Some (m !! k) -> is_Some (m' !! k)) -> (size m <= size m')%nat.
Proof.
  intros H. rewrite <-!size_dom. apply subseteq_size. intros k. rewrite !elem_of_dom. auto.
Qed.

Lemma held_by_lookup tenant p id w :
  held_by tenant p !! id = Some w <->
  workspaces (core p) !! id = Some w /\ Tenant w = tenant /\ State w <> WSDestroyed /\ awake (hold_of p id) = true.
Proof. unfold held_by. rewrite map_lookup_filter_Some. done. Qed.

Lemma shrinks_count tenant p p' : shrinks p p' -> held_count tenant p' <= held_count tenant p.
Proof.
  intros Hs. unfold held_count. apply Nat2Z.inj_le, size_le_dom. intros id [w' Hw'].
  apply held_by_lookup in Hw' as (Hl & Ht & Hd & Ha). destruct (Hs id w' Hl Hd Ha) as (w & Hl0 & Ht0 & Hd0 & Ha0).
  exists w. apply held_by_lookup. split_and!; [done|congruence|done..].
Qed.

Lemma dead_before c c' id w w' :
  deaths_kept c c' -> workspaces c !! id = Some w -> workspaces c' !! id = Some w' ->
  State w' <> WSDestroyed -> State w <> WSDestroyed.
Proof. intros [_ Ha] Hl Hl' Hd. apply (Ha id); [by eapply alive_some|done]. Qed.

(** A section that grants nothing. *)
Lemma shrinks_of p p' : no_new awake p p' -> shrinks p p' /\ (tenants_named p -> tenants_named p').
Proof.
  intros [Hn [Hr Hk]]. split.
  - intros id w' Hl Hd Ha. destruct (Hk id w' Hl) as (w & Hw & Ht). exists w.
    split_and!; [done..|by eapply dead_before|by apply Hn].
  - intros Ht id w' Hl. destruct (Hk id w' Hl) as (w & Hw & ->). by apply (Ht id w).
Qed.

Definition quota_ok (ho : HoldOptions) (p : Plane) : Prop :=
  tenants_named p /\ forall tenant, held_count tenant p <= MaxHeldWorkspacesPerTenant ho.

Lemma quota_shrinks ho p p' :
  shrinks p p' -> (tenants_named p -> tenants_named p') -> quota_ok ho p -> quota_ok ho p'.
Proof.
  intros Hs Ht [Hn Hq]. split; [auto|]. intros tenant. specialize (Hq tenant).
  pose proof (shrinks_count tenant p p' Hs). lia.
Qed.

(** A grant adds one hold where the quota had room for it. *)
Lemma grant_quota ho p p' id w :
  plane_ok p -> workspaces (core p) !! id = Some w -> kept_core (core p) (core p') ->
  (forall id', id' <> id -> hold_of p' id' = hold_of p id') ->
  heldWorkspacesLocked (Tenant w) (ID w) p < MaxHeldWorkspacesPerTenant ho ->
  quota_ok ho p -> quota_ok ho p'.
Proof.
  intros Hp Hw [Hr Hk] Hsame Hroom [Hn Hq].
  assert (Hid : ID w = id) by (eapply wf_lookup; [apply Hp|done]).
  assert (Hsub : forall tenant id' w', id' <> id -> held_by tenant p' !! id' = Some w' ->
            exists w0, held_by tenant p !! id' = Some w0).
  { intros tenant id' w' Hne (Hl & Ht & Hd & Ha)%held_by_lookup.
    destruct (Hk id' w' Hl) as (w0 & Hw0 & Ht0). exists w0. apply held_by_lookup. rewrite Hsame in Ha by done.
    split_and!; [done|congruence|by eapply dead_before|done]. }
  split.
  { intros id' w' Hl. destruct (Hk id' w' Hl) as (w0 & Hw0 & ->). by apply (Hn id' w0). }
  intros tenant. destruct (decide (tenant = Tenant w)) as [-> |Hne].
  - unfold heldWorkspacesLocked in Hroom. set (m := filter _ _) in Hroom.
    assert (size (held_by (Tenant w) p') <= size (<[id := w]> m))%nat as Hle.
    { apply size_le_dom. intros id' [w' Hw']. destruct (decide (id' = id)) as [-> |Hne].
      { rewrite lookup_insert_eq. by eauto. }
      rewrite lookup_insert_ne by done. destruct (Hsub _ id' w' Hne Hw') as [w0 Hw0].
      apply held_by_lookup in Hw0 as (Hl & Ht & Hd & Ha). exists w0. apply map_lookup_filter_Some. split; [done|].
      cbn. split_and!; [|done..]. rewrite (wf_lookup _ id' w0 (ok_wf p Hp) Hl), Hid. done. }
    assert (Hnone : m !! id = None).
    { apply map_lookup_filter_None. right. intros w1 Hl [Hc _]. cbn in Hc. simplify_eq. }
    rewrite map_size_insert_None in Hle by done. unfold held_count. lia.
  - specialize (Hq tenant). unfold held_count in *. enough (size (held_by tenant p') <= size (held_by tenant p))%nat by lia.
    apply size_le_dom. intros id' [w' Hw']. destruct (decide (id' = id)) as [-> |Hne'].
    + apply held_by_lookup in Hw' as (Hl & Ht & _). destruct (Hk id w' Hl) as (w0 & Hw0 & Ht0). simplify_eq.
    + destruct (Hsub _ id' w' Hne' Hw') as [w0 Hw0]. by exists w0.
Qed.

Lemma same_plane_quota ho p p' : same_plane p p' -> quota_ok ho p -> quota_ok ho p'.
Proof.
  intros (Hc & Hh & _). apply quota_shrinks.
  - intros id w Hl Hd Ha. exists w. unfold hold_of in *. rewrite Hc in Hl. rewrite Hh in Ha. by split_and!.
  - unfold tenants_named. by rewrite Hc.
Qed.

Lemma lease_grant_quota ho fingerprint now rnow tx leaseID onExpiry scope req p :
  plane_ok p -> quota_ok ho p ->
  quota_ok ho (snd (lease_grant ho fingerprint now rnow tx leaseID onExpiry scope req p)).
Proof.
  intros Hp Hq. unfold lease_grant. cbv zeta.
  destruct (workspace_of p _) as [[w h]|] eqn:Hw; [|done]. apply workspace_of_some in Hw as [Hw ->].
  do 3 (case_match; [done|]). case_match eqn:Hroom; [done|]. apply Z.leb_gt in Hroom.
  destruct (reconcileLifecycleLocked _ _ _ _) as [h' timer] eqn:Hr. apply snd_repack.
  match goal with |- quota_ok _ (snd (commitHold p w h' timer ?m tx)) =>
    apply (grant_quota ho p (snd (commitHold p w h' timer m tx)) (LeaseReqWS req) w); try done end.
  - unfold commitHold. pose proof (kept_commit p _ w tx Hp Hw) as Hc. by destruct (commitWS (core p) w tx) as [[?|?] ?].
  - intros id' Hne. unfold commitHold. destruct (commitWS_cases (core p) w tx) as [[_ ->]|(t & _ & ->)]; [done|].
    cbn [snd]. rewrite hold_of_write. cbn. rewrite (wf_lookup _ _ w (ok_wf p Hp) Hw). by rewrite decide_False.
Qed.

Lemma wsLease_quota ho fingerprint now rnow tx leaseID principal req p :
  plane_ok p -> quota_ok ho p -> quota_ok ho (snd (wsLease ho fingerprint now rnow tx leaseID principal req p)).
Proof.
  intros Hp Hq. unfold wsLease, idempotent. case_match; [|done]. case_match; [done|].
  case_match; [|done].
  match goal with |- quota_ok _ (snd (with_reservation ?a ?b ?k ?p)) =>
    destruct (reservation_shape a b k p) as [(e & ->)|(p1 & p2 & S1 & S2 & S3 & _)] end; [done|].
  eapply same_plane_quota; [exact S3|]. rewrite <-S2.
  apply lease_grant_quota; [by eapply same_plane_ok|by eapply same_plane_quota].
Qed.

Section quota.
Context (o : Options) (eligible : Workspace -> string -> option string)
  (ho : HoldOptions) (fingerprint : Request -> string).
Context (Hlimit : MaxLeaseSec ho <= 2 ^ 50) (Hquota : 0 <= MaxHeldWorkspacesPerTenant ho).

Lemma calm_quota p p' : no_new awake p p' -> quota_ok ho p -> quota_ok ho p'.
Proof. intros [Hs Ht]%shrinks_of. by apply quota_shrinks. Qed.

Lemma start_plane id d s p plan : same_plane p (plane (start id d s p plan)).
Proof. unfold start, startLifecycleExpiry. cbv zeta. by destruct (inFlight _). Qed.

Lemma claim_quota now tx id d p r p' :
  plane_ok p -> claimLifecycleDeadline now tx id d p = (r, p') -> quota_ok ho p -> quota_ok ho p'.
Proof.
  intros Hp Hcl. apply calm_quota.
  pose proof (claim_kept _ _ _ _ _ _ _ Hp Hcl) as Hc.
  split; [|done]. intros id' Ha.
  destruct (claim_shape _ _ _ _ _ _ _ Hp Hcl) as [[_ ->]|(w & d0 & t & c & _ & Hd0 & _ & _ & _ & _ & ->)]; [done|].
  rewrite hold_of_write in Ha. case_decide; [subst|done].
  destruct (Source d0 =s _); [|done]. by apply (dn_end awake) in Ha.
Qed.

Lemma step_quota s s' :
  system_ok s -> step o eligible ho fingerprint s s' -> quota_ok ho (plane s) -> quota_ok ho (plane s').
Proof.
  intros [Hp Hr _] Hs Hq. destruct Hs; rewrite ?exec_destroy_begin_plane, ?exec_destroy_commit_plane; cbn; try done.
  - apply (calm_quota (plane s)); [|done]. split; [done|].
    apply kept_core_of; [apply Hp|by apply in_place_good, plain_in_place|apply exec_keeps; [done|apply Hp]].
  - revert H1. unfold create_commit.
    match goal with |- context [commitWS _ ?n _] =>
      destruct (commitWS_cases (core (plane s)) n tx) as [[_ ->]|(t & _ & ->)] end; [done|]. intros [= <- <-].
    apply (quota_shrinks ho (plane s)); [| |done].
    + intros id' w'. cbn. rewrite hold_of_write. case_decide as He; [by subst|].
      rewrite lookup_insert_ne by done. intros Hl Hd Ha. by exists w'.
    + intros Hn id' w'. cbn. destruct (decide (id' = id)) as [-> |Hne].
      * rewrite lookup_insert_eq. by intros [= <-].
      * rewrite lookup_insert_ne by done. apply Hn.
  - by apply wsLease_quota.
  - by eapply calm_quota; [apply (renew_no_new awake)|].
  - by eapply calm_quota; [apply (cancel_no_new awake)|].
  - by eapply calm_quota; [apply (policy_no_new awake)|].
  - by eapply calm_quota; [apply (mark_no_new awake)|].
  - by eapply calm_quota; [apply (move_no_new awake)|].
  - by eapply calm_quota; [apply (destroy_no_new awake)|].
  - by eapply calm_quota; [apply (fleet_no_new awake)|].
  - by eapply calm_quota; [apply (sleep_no_new awake)|].
  - by eapply calm_quota; [apply (wake_no_new awake)|].
  - by eapply calm_quota; [apply (wake_no_new awake)|].
  - eapply calm_quota; [|done]. apply (retire_no_new awake); [done|]. apply Hr. rewrite H. by apply list_elem_of_here.
  - eapply same_plane_quota; [apply start_plane|]. by eapply claim_quota.
  - by eapply claim_quota.
  - by eapply same_plane_quota; [apply start_plane|].
  - by eapply calm_quota; [apply (begin_no_new awake)|].
  - by eapply calm_quota; [apply (destroy_no_new awake)|].
  - by eapply calm_quota; [eapply (sleep_commit_no_new awake)|].
  - by eapply calm_quota; [apply (finish_no_new awake)|].
  - pose proof (ok_wf _ Hp) as Hwf. apply (quota_shrinks ho (plane s)); [| |done].
    + intros id w' Hl Hd Ha. cbn in Hl. destruct (restart_kept _ _ _ _ _ _ _ Hwf H Hl) as (w & Hw & _ & Ht).
      destruct (restart_spec o (fun _ _ => None) ∅ now stamp _ Hwf) as (c' & Hc' & _ & Hst & _). simplify_eq.
      exists w. split_and!; [done|symmetry; apply Ht; by apply (proj1 Hq id w)|by eapply (dead_before _ _ _ _ _ (hstep_deaths _ _ _ Hst))|].
      unfold hold_of in *. cbn in Ha. by rewrite (ok_hold_rows _ Hp) in Ha.
    + intros Hn id w' Hl. cbn in Hl. destruct (restart_kept _ _ _ _ _ _ _ Hwf H Hl) as (w & Hw & _ & Ht).
      rewrite (Ht (Hn id w Hw)). by apply (Hn id w).
Qed.

(** C21: a tenant never keeps more workspaces awake than its quota.  In every
    state the sections, the ticker, failures and restarts can produce, the
    workspaces of a tenant that are not destroyed and carry a live hold number
    at most the configured limit, although a grant counts the others under the
    lock and replaces its own predecessor without counting it. *)
Theorem tenant_holds_within_quota s tenant :
  reachable o eligible ho fingerprint s ->
  held_count tenant (plane s) <= MaxHeldWorkspacesPerTenant ho.
Proof.
  intros (s0 & Hi & Hr). assert (Hok : system_ok s0) by (by apply initial_ok).
  assert (Hq : quota_ok ho (plane s0)).
  { destruct Hi as (c & (Hw & _) & ->). split; cbn.
    - unfold tenants_named. cbn. rewrite Hw. apply map_Forall_empty.
    - intros t. unfold held_count, held_by. cbn. rewrite Hw, map_filter_empty. done. }
  enough (quota_ok ho (plane s)) as [_ H] by apply H. clear Hi.
  induction Hr as [|s1 s2 s3 Hs _ IH]; [done|]. apply IH; [by eapply step_ok|by eapply step_quota].
Qed.
End quota.

(** ** A tick that nothing interrupts *)

Definition claim_one (cnow : Z) (tx : string -> option Z) (s : system) (cl : string * LifecycleDeadline) : system :=
  match claimLifecycleDeadline cnow (tx (fst cl)) (fst cl) (snd cl) (plane s) with
  | (Some d, p) => start (fst cl) d s p (planned s)
  | (None, p) => on_plane s p
  end.

Definition resume_one (s : system) (cl : string * LifecycleDeadline) : system :=
  start (fst cl) (snd cl) s (plane s) (planned s).

Definition retire_one (tx : string -> option Z) (s : system) (t : Timer) : system :=
  on_plane s (retireLifecycleTimer (tx (TimerWS t)) true t (plane s)).

(** [expireLifecycle]: the plan, then its retirements, claims and resumptions
    in turn; [tx] is the outcome of each workspace's transaction. *)
Definition expireLifecycle (now cnow : Z) (tx : string -> option Z) (torder worder : list string) (s : system)
  : system :=
  let plan := expire_plan now torder worder (plane s) in
  let s := mkSystem (plane s) (planned s) now (running s) in
  foldl resume_one (foldl (claim_one cnow tx) (foldl (retire_one tx) s (retire plan)) (claims plan)) (resume plan).

(** The deadline waits, and a claim of it would succeed; or it is claimed and a
    goroutine executes it. *)
Definition waiting (id : string) (d : LifecycleDeadline) (s : system) : Prop :=
  Deadline (hold_at s id) = Some d /\ Fired d = false /\
  (exists w, workspaces (core (plane s)) !! id = Some w /\ lifecycleActionable (Some w) (Action d) = true) /\
  inFlight (default (mkWork false 0) (lifecycleWork (plane s) !! id)) = false.

Definition same_deadline (d d' : LifecycleDeadline) : Prop :=
  DeadlineAt d' = DeadlineAt d /\ Action d' = Action d /\ Source d' = Source d /\ Attempts d' = Attempts d.

Definition claimed (id : string) (d : LifecycleDeadline) (s : system) : Prop :=
  exists d', Deadline (hold_at s id) = Some d' /\ Fired d' = true /\ same_deadline d d'.

Definition executing (id : string) (d : LifecycleDeadline) (s : system) : Prop :=
  claimed id d s /\ is_Some (running s !! id).

Lemma hold_at_start id d s p plan id' : hold_at (start id d s p plan) id' = hold_of p id'.
Proof. unfold hold_at, start, startLifecycleExpiry. cbv zeta. by destruct (inFlight _). Qed.

Lemma start_running id d s p plan :
  inFlight (default (mkWork false 0) (lifecycleWork p !! id)) = false \/ is_Some (running s !! id) ->
  is_Some (running (start id d s p plan) !! id).
Proof.
  unfold start, startLifecycleExpiry. cbv zeta. intros [-> |Hr]; cbn; [rewrite lookup_insert_eq; eauto|].
  destruct (inFlight _); cbn; [done|]. rewrite lookup_insert_eq. eauto.
Qed.

Lemma start_other id d s p plan id' :
  id' <> id -> running (start id d s p plan) !! id' = running s !! id' /\
  lifecycleWork (plane (start id d s p plan)) !! id' = lifecycleWork p !! id' /\
  core (plane (start id d s p plan)) = core p.
Proof.
  intros Hne. unfold start, startLifecycleExpiry. cbv zeta. destruct (inFlight _); cbn;
    rewrite ?lookup_insert_ne by done; done.
Qed.

Lemma start_plane_ok id d s p plan : plane_ok p -> plane_ok (plane (start id d s p plan)).
Proof. apply same_plane_ok, start_plane. Qed.

(** A claim of another workspace changes nothing here. *)
Lemma claim_one_other cnow tx s id0 d0 id :
  plane_ok (plane s) -> id0 <> id ->
  hold_at (claim_one cnow tx s (id0, d0)) id = hold_at s id /\
  running (claim_one cnow tx s (id0, d0)) !! id = running s !! id /\
  workspaces (core (plane (claim_one cnow tx s (id0, d0)))) !! id = workspaces (core (plane s)) !! id /\
  lifecycleWork (plane (claim_one cnow tx s (id0, d0))) !! id = lifecycleWork (plane s) !! id.
Proof.
  intros Hp Hne. unfold claim_one. cbn [fst snd].
  destruct (claimLifecycleDeadline _ _ _ _ _) as [r p] eqn:Hc.
  destruct (claim_shape _ _ _ _ _ _ _ Hp Hc) as [[-> ->]|(w & d1 & t & c & _ & _ & _ & _ & -> & Hws & ->)]; [done|].
  rewrite hold_at_start, hold_of_write, decide_False by done.
  match goal with |- context [start ?a ?b ?c ?d ?e] => destruct (start_other a b c d e id) as (-> & -> & ->) end; [done|].
  cbn. split_and!; try done. by apply Hws.
Qed.

Lemma claim_one_ok cnow tx s cl : plane_ok (plane s) -> plane_ok (plane (claim_one cnow tx s cl)).
Proof.
  intros Hp. unfold claim_one. destruct (claimLifecycleDeadline _ _ _ _ _) as [r p] eqn:Hc.
  pose proof (claim_ok _ _ _ _ _ _ _ Hp Hc) as Hok. destruct r; [by apply start_plane_ok|done].
Qed.

Lemma claim_one_waiting cnow tx s id d :
  plane_ok (plane s) -> is_Some (tx id) -> waiting id d s -> executing id d (claim_one cnow tx s (id, d)).
Proof.
  intros Hp [t Ht] (Hd & Hf & (w & Hw & Ha) & Hfl). unfold claim_one. cbn [fst snd]. rewrite Ht.
  pose proof (claim_succeeds cnow t id d w (plane s) Hp Hw Hd Hf Ha) as Hs.
  destruct (claimLifecycleDeadline _ _ _ _ _) as [r p] eqn:Hc. cbn in Hs. subst r.
  destruct (claim_shape _ _ _ _ _ _ _ Hp Hc) as [[[=] _]|(w' & d1 & t' & c & _ & Hd1 & _ & _ & _ & _ & ->)].
  unfold hold_at in Hd. rewrite Hd in Hd1. injection Hd1 as <-. split.
  - exists (claim_deadline cnow d). rewrite hold_at_start, hold_of_write, decide_True by done.
    split_and!; [|done..]. destruct (Source d =s _); by rewrite ?end_live_deadline.
  - apply start_running. by left.
Qed.

Lemma claim_one_claimed cnow tx s id d d0 :
  plane_ok (plane s) -> claimed id d s -> claim_one cnow tx s (id, d0) = s.
Proof.
  intros Hp (d' & Hd' & Hf & _). unfold claim_one. cbn [fst snd].
  destruct (claimLifecycleDeadline _ _ _ _ _) as [r p] eqn:Hc.
  destruct (claim_shape _ _ _ _ _ _ _ Hp Hc) as [[-> ->]|(w & d1 & t & c & _ & Hd1 & Hf1 & _)]; [by destruct s|].
  unfold hold_at in Hd'. congruence.
Qed.

Lemma claims_run cnow tx id d l : forall s,
  plane_ok (plane s) -> is_Some (tx id) -> (forall d0, (id, d0) ∈ l -> d0 = d) ->
  plane_ok (plane (foldl (claim_one cnow tx) s l)) /\
  (waiting id d s -> (id, d) ∈ l -> executing id d (foldl (claim_one cnow tx) s l)) /\
  (executing id d s -> executing id d (foldl (claim_one cnow tx) s l)) /\
  (claimed id d s -> claimed id d (foldl (claim_one cnow tx) s l) /\
     lifecycleWork (plane (foldl (claim_one cnow tx) s l)) !! id = lifecycleWork (plane s) !! id).
Proof.
  induction l as [|[id0 d0] l IH]; intros s Hp Htx Hl.
  { split_and!; try done. by intros _ ?%not_elem_of_nil. }
  destruct (IH (claim_one cnow tx s (id0, d0)) (claim_one_ok _ _ _ _ Hp) Htx) as (Hok & H1 & H2 & H3).
  { intros d1 Hin. apply Hl. by apply list_elem_of_further. }
  cbn [foldl]. destruct (decide (id0 = id)) as [-> |Hne].
  - rewrite (Hl d0) in * by apply list_elem_of_here. split_and!; [done|..].
    + intros Hw _. apply H2. by apply claim_one_waiting.
    + intros He. apply H2. rewrite (claim_one_claimed cnow tx s id d d Hp); [done|apply He].
    + intros Hc. rewrite (claim_one_claimed cnow tx s id d d Hp Hc) in *. by apply H3.
  - destruct (claim_one_other cnow tx s id0 d0 id Hp Hne) as (Eh & Er & Ew & El).
    split_and!; [done|..].
    + intros (Hd & Hf & Hw & Hfl) Hin. apply H1.
      * unfold waiting. rewrite Eh, Ew, El. done.
      * apply elem_of_cons in Hin as [[= -> ->]|Hin]; [done|exact Hin].
    + intros [Hc Hr]. apply H2. unfold executing, claimed. rewrite Eh, Er. done.
    + intros Hc. rewrite <-El. apply H3. unfold claimed. by rewrite Eh.
Qed.

Lemma resume_run id d l : forall s,
  claimed id d s -> inFlight (default (mkWork false 0) (lifecycleWork (plane s) !! id)) = false \/ is_Some (running s !! id) ->
  claimed id d (foldl resume_one s l) /\
  ((exists d0, (id, d0) ∈ l) \/ is_Some (running s !! id) -> is_Some (running (foldl resume_one s l) !! id)).
Proof.
  induction l as [|[id0 d0] l IH]; intros s Hc Hr.
  { split; [done|]. by intros [[d0 ?%not_elem_of_nil]|?]. }
  cbn [foldl]. assert (Hc1 : claimed id d (resume_one s (id0, d0))).
  { unfold resume_one, claimed. by rewrite hold_at_start. }
  destruct (decide (id0 = id)) as [-> |Hne].
  - assert (Hr1 : is_Some (running (resume_one s (id, d0)) !! id)) by (by apply start_running).
    destruct (IH _ Hc1 (or_intror Hr1)) as [H1 H2]. split; [done|]. intros _. apply H2. by right.
  - destruct (start_other id0 d0 s (plane s) (planned s) id) as (Er & Ew & _); [done|].
    unfold resume_one in *. cbn [fst snd] in *. destruct (IH _ Hc1) as [H1 H2]; [rewrite Er, Ew; done|].
    split; [done|]. intros [[d1 Hin]|Hs]; apply H2; [left|right; by rewrite Er].
    apply elem_of_cons in Hin as [[= -> ->]|Hin]; [done|eauto].
Qed.

(** What the plan of a tick contains for one workspace. *)
Lemma plan_claims now p id : forall torder plan,
  plane_ok p -> (forall d0, (id, d0) ∈ claims plan -> Deadline (hold_of p id) = Some d0) ->
  (forall d0, (id, d0) ∈ claims (foldl (fun plan key => plan_timer now p key plan) plan torder) ->
     Deadline (hold_of p id) = Some d0) /\
  (forall d w, Deadline (hold_of p id) = Some d -> Fired d = false -> DeadlineAt d <= now ->
     workspaces (core p) !! id = Some w -> lifecycleActionable (Some w) (Action d) = true ->
     lifecycleTimerID id ∈ torder \/ (id, d) ∈ claims plan ->
     (id, d) ∈ claims (foldl (fun plan key => plan_timer now p key plan) plan torder)).
Proof.
  induction torder as [|key torder IH]; intros plan Hp Hc.
  { split; [done|]. intros d w _ _ _ _ _ [?%not_elem_of_nil|?]; done. }
  cbn [foldl]. assert (Hstep : forall d0, (id, d0) ∈ claims (plan_timer now p key plan) ->
    Deadline (hold_of p id) = Some d0).
  { intros d0. unfold plan_timer. repeat case_match; cbn; auto.
    intros [Hin|Hin%list_elem_of_singleton]%elem_of_app; [auto|]. congruence. }
  destruct (IH (plan_timer now p key plan) Hp Hstep) as [H1 H2]. split; [done|].
  intros d w Hd Hf Hdue Hw Ha Hin. eapply H2; try done.
  assert (Hmono : (id, d) ∈ claims plan -> (id, d) ∈ claims (plan_timer now p key plan)).
  { intros Hin'. unfold plan_timer. repeat case_match; cbn; try done. apply elem_of_app. by left. }
  destruct Hin as [[<- |Hin]%elem_of_cons|Hin]; [right|by left|right; auto].
  pose proof (alive_some _ _ _ Hw (actionable_alive _ _ Ha)) as Hal.
  destruct (pending_match p id d Hp Hal Hd Hf) as ((t & Ht & Htf & Hat & Hac & _ & Hid) & _).
  unfold lifecycle_timer in Ht. destruct (ok_keys p Hp _ _ Ht) as (_ & Hws & _ & Hlc).
  specialize (Hws id eq_refl). specialize (Hlc id eq_refl). unfold plan_timer. rewrite Ht, Htf, Hlc. cbn [orb negb].
  destruct (stale_is_dead p _ t Hp Ht Htf Hlc) as [(w0 & Hw0 & Hs0)| ->].
  { rewrite Hws in Hw0. by destruct (Hal w0). }
  rewrite Hws, Hw, Hac, Ha, Hd.
  assert (now <? TimerAt t = false) as -> by (apply Z.ltb_ge; lia). cbn. apply elem_of_app. right.
  by apply list_elem_of_singleton.
Qed.

Lemma plan_workspace_claims now p : forall worder plan,
  claims (foldl (fun plan id => plan_workspace now p id plan) plan worder) = claims plan.
Proof.
  induction worder as [|x l IH]; intros plan; [done|]. cbn. rewrite IH. unfold plan_workspace.
  by repeat case_match.
Qed.

Lemma plan_resumes now p id d w : forall worder plan,
  plane_ok p -> Deadline (hold_of p id) = Some d -> Fired d = true -> ExpiryFailed d = false ->
  workspaces (core p) !! id = Some w -> lifecycleActionable (Some w) (Action d) = true ->
  backing_off now (lifecycleWork p !! id) = false ->
  id ∈ worder \/ (id, d) ∈ resume plan ->
  (id, d) ∈ resume (foldl (fun plan id => plan_workspace now p id plan) plan worder).
Proof.
  induction worder as [|x l IH]; intros plan Hp Hd Hf Hx Hw Ha Hb Hin.
  { destruct Hin as [?%not_elem_of_nil|?]; done. }
  cbn. apply IH; try done.
  assert (Hmono : (id, d) ∈ resume plan -> (id, d) ∈ resume (plan_workspace now p x plan)).
  { intros Hin'. unfold plan_workspace. repeat case_match; cbn; try done. apply elem_of_app. by left. }
  destruct Hin as [[<- |Hin]%elem_of_cons|Hin]; [right|by left|right; auto].
  unfold plan_workspace, workspace_of. rewrite Hw, Hd, Hf, Hx, Ha. cbn [negb orb].
  rewrite (wf_lookup _ id w (ok_wf p Hp) Hw), Hb. cbn. apply elem_of_app. right. by apply list_elem_of_singleton.
Qed.

(** The retirements of a tick touch nothing but the slots of destroyed
    workspaces. *)
Lemma retires_run tx id l : forall s,
  plane_ok (plane s) -> (forall t, t ∈ l -> retirement (core (plane s)) t) ->
  let s' := foldl (retire_one tx) s l in
  plane_ok (plane s') /\ hold_at s' id = hold_at s id /\ running s' = running s /\
  lifecycleWork (plane s') = lifecycleWork (plane s) /\
  (alive (core (plane s)) id -> workspaces (core (plane s')) !! id = workspaces (core (plane s)) !! id).
Proof.
  induction l as [|t l IH]; intros s Hp Hl; [by split_and!|]. cbn [foldl].
  assert (Hr : retirement (core (plane s)) t) by apply Hl, list_elem_of_here.
  assert (Hp1 : plane_ok (plane (retire_one tx s t))) by (by apply retire_ok).
  assert (Hd : deaths_kept (core (plane s)) (core (plane (retire_one tx s t)))) by (by apply retire_deaths).
  assert (Hl1 : forall t0, t0 ∈ l -> retirement (core (plane (retire_one tx s t))) t0).
  { intros t0 Ht0. destruct (Hl t0) as (? & ? & ? & Hdead); [by apply list_elem_of_further|].
    split_and!; [done..|]. by eapply deaths_kept_dead. }
  assert (H1 : hold_at (retire_one tx s t) id = hold_at s id /\
    lifecycleWork (plane (retire_one tx s t)) = lifecycleWork (plane s) /\
    (alive (core (plane s)) id -> workspaces (core (plane (retire_one tx s t))) !! id = workspaces (core (plane s)) !! id)).
  { unfold retire_one, hold_at. cbn [plane on_plane].
    destruct (retire_shape (tx (TimerWS t)) true t (plane s) Hp Hr) as [-> |(w & w' & Hw & Hs & _ & Hid & ->)]; [done|].
    split_and!; [|done|].
    - rewrite hold_of_write. case_decide; [by subst|done].
    - cbn. intros Ha. rewrite Hid, (wf_lookup _ _ _ (ok_wf _ Hp) Hw). rewrite lookup_insert_ne; [done|].
      intros <-. destruct Hr as (_ & _ & _ & w0 & Hw0 & Hs0). by destruct (Ha w0). }
  destruct (IH _ Hp1 Hl1) as (Hq1 & Hq2 & Hq3 & Hq4 & Hq5), H1 as (H1 & H2 & H3).
  split_and!; [done|congruence|done|congruence|]. intros Ha. rewrite Hq5, H3; try done.
  intros w0. rewrite H3 by done. apply Ha.
Qed.

Section progress.
Context (o : Options) (eligible : Workspace -> string -> option string)
  (ho : HoldOptions) (fingerprint : Request -> string).
Context (Hlimit : MaxLeaseSec ho <= 2 ^ 50).

(** a deadline does not depend on the client that asked for it.  From any
    state the system can reach, crashes and restarts included, one tick whose
    ranges visit the workspace and whose transaction commits claims its due
    deadline, or takes up again one that was claimed before a crash, and starts
    a goroutine that executes the action that was published. *)
Theorem due_deadline_is_executed s id d w now cnow tx torder worder :
  reachable o eligible ho fingerprint s ->
  Deadline (hold_at s id) = Some d -> ExpiryFailed d = false ->
  workspaces (core (plane s)) !! id = Some w -> lifecycleActionable (Some w) (Action d) = true ->
  (Fired d = false -> DeadlineAt d <= now) -> backing_off now (lifecycleWork (plane s) !! id) = false ->
  lifecycleTimerID id ∈ torder -> id ∈ worder -> is_Some (tx id) ->
  executing id d (expireLifecycle now cnow tx torder worder s).
Proof.
  intros Hr Hd Hx Hw Ha Hdue Hb Hto Hwo Htx. apply reachable_system_ok in Hr; [|done]. destruct Hr as [Hp _ _].
  assert (Hfl : inFlight (default (mkWork false 0) (lifecycleWork (plane s) !! id)) = false).
  { destruct (lifecycleWork (plane s) !! id) as [st|]; [|done]. by apply orb_false_elim in Hb as [? _]. }
  pose proof (alive_some _ _ _ Hw (actionable_alive _ _ Ha)) as Hal.
  unfold expireLifecycle. cbv zeta. destruct (expire_plan_ok now torder worder (plane s) Hp) as [Hret _].
  destruct (retires_run tx id (retire (expire_plan now torder worder (plane s)))
    (mkSystem (plane s) (planned s) now (running s)) Hp Hret) as (Hp1 & Hh1 & Hr1 & Hk1 & Hw1).
  specialize (Hw1 Hal). set (s1 := foldl (retire_one tx) _ _) in *. clearbody s1. cbn [plane running] in *.
  assert (Hcl : claims (expire_plan now torder worder (plane s)) =
    claims (foldl (fun plan key => plan_timer now (plane s) key plan) no_plan torder))
    by apply plan_workspace_claims.
  destruct (plan_claims now (plane s) id torder no_plan Hp) as [Hsame Hin]; [by intros ? ?%not_elem_of_nil|].
  destruct (claims_run cnow tx id d (claims (expire_plan now torder worder (plane s))) s1 Hp1 Htx) as (_ & H1 & _ & H3).
  { intros d0. rewrite Hcl. intros Hi%Hsame. unfold hold_at in Hd. congruence. }
  destruct (Fired d) eqn:Hf.
  - assert (Hc : claimed id d s1) by (exists d; rewrite Hh1; by split_and!).
    destruct (H3 Hc) as [Hc' Hwk]. destruct (resume_run id d (resume (expire_plan now torder worder (plane s))) _ Hc') as [Hq Hrun].
    { left. by rewrite Hwk, Hk1. }
    split; [done|]. apply Hrun. left. exists d. unfold expire_plan. eapply plan_resumes; try done. by left.
  - destruct H1 as [Hc Hrun].
    + unfold waiting. rewrite Hh1, Hw1, Hk1. split_and!; try done. by exists w.
    + rewrite Hcl. eapply Hin; try done; [by apply Hdue|by left].
    + destruct (resume_run id d (resume (expire_plan now torder worder (plane s))) _ Hc (or_intror Hrun)) as [Hq Hrun'].
      split; [done|]. apply Hrun'. by right.
Qed.
End progress.

(** ** Attempts *)

Lemma finish_commits now rnow t id cause p w :
  plane_ok p -> workspaces (core p) !! id = Some w ->
  hold_of (finishLifecycleExpiry now rnow (Some t) id cause p) id =
    fst (reconcileLifecycleLocked rnow (lifecycle_timer p id) w (outcome now cause (hold_of p id))) /\
  exists w', workspaces (core (finishLifecycleExpiry now rnow (Some t) id cause p)) !! id = Some w' /\
    State w' = State w /\ Generation w' = Generation w.
Proof.
  intros Hp Hw.
  destruct (finish_shape now rnow (Some t) id cause p) as (p2 & H2 & [[Hn _]|(w0 & h & timer & Hw0 & Hr & ->)]); [congruence|].
  simplify_eq. rewrite Hr. destruct H2 as (Hc & Hh & _). unfold commitHold. rewrite Hc. cbn.
  rewrite (wf_lookup _ id w (ok_wf p Hp) Hw). rewrite hold_of_write, decide_True by done.
  split; [done|]. eexists. rewrite lookup_insert_eq. done.
Qed.

(** One failed attempt: the clock readings, the transaction that records it and
    its error. *)
Definition fail_attempt (id : string) (p : Plane) (a : Z * Z * Z * string) : Plane :=
  let '(now, rnow, t, err) := a in finishLifecycleExpiry now rnow (Some t) id (Some err) p.

Lemma fail_attempts id l : forall p d w,
  plane_ok p -> workspaces (core p) !! id = Some w -> Deadline (hold_of p id) = Some d -> Fired d = true ->
  plane_ok (foldl (fail_attempt id) p l) /\
  exists d', Deadline (hold_of (foldl (fail_attempt id) p l) id) = Some d' /\ Fired d' = true /\
    (DeadlineAt d', Action d', Source d') = (DeadlineAt d, Action d, Source d) /\
    Attempts d' = Attempts d + Z.of_nat (length l).
Proof.
  induction l as [|[[[now rnow] t] err] l IH]; intros p d w Hp Hw Hd Hf.
  { split; [done|]. exists d. split_and!; try done. cbn. lia. }
  cbn [foldl fail_attempt length].
  destruct (finish_commits now rnow t id (Some err) p w Hp Hw) as (Hh & w' & Hw' & _).
  assert (Hout : outcome now (Some err) (hold_of p id) = set_Deadline (Some (attempt_failed err d)) (hold_of p id))
    by (unfold outcome; by rewrite Hd).
  rewrite Hout in Hh. unfold reconcileLifecycleLocked in Hh.
  assert (deadline_fired (set_Deadline (Some (attempt_failed err d)) (hold_of p id)) = true) as Hdf by done.
  rewrite Hdf in Hh. cbn [fst] in Hh.
  destruct (IH (finishLifecycleExpiry now rnow (Some t) id (Some err) p) (attempt_failed err d) w')
    as (Hok & d' & Hd' & Hf' & Hsame & Ha); [by apply finish_expiry_ok|done|by rewrite Hh|done|].
  split; [done|]. exists d'. split_and!; [done|done|done|]. cbn [attempt_failed Attempts] in Ha. lia.
Qed.

Lemma plan_resume_only now p id : forall worder plan,
  (forall d, (id, d) ∉ resume plan) ->
  (forall w d, workspaces (core p) !! id = Some w -> Deadline (hold_of p id) = Some d ->
     Fired d = false \/ ExpiryFailed d = true \/ lifecycleActionable (Some w) (Action d) = false) -> wf (core p) ->
  forall d, (id, d) ∉ resume (foldl (fun plan id => plan_workspace now p id plan) plan worder).
Proof.
  induction worder as [|x l IH]; intros plan Hn Hd Hwf d; [apply Hn|]. cbn. apply IH; [|done..].
  intros d0. unfold plan_workspace. destruct (workspace_of p x) as [[w h]|] eqn:Hw; [|apply Hn].
  apply workspace_of_some in Hw as [Hw ->]. destruct (Deadline (hold_of p x)) as [d1|] eqn:Hd1; [|apply Hn].
  destruct (negb (Fired d1) || _) eqn:E1; [apply Hn|]. destruct (negb (lifecycleActionable _ _)) eqn:E2; [apply Hn|].
  destruct (backing_off _ _); [apply Hn|]. cbn. intros [Hin|Hin%list_elem_of_singleton]%elem_of_app; [by eapply Hn|].
  injection Hin as Hid ->. rewrite (wf_lookup _ x w Hwf Hw) in Hid. subst x.
  apply orb_false_elim in E1 as [E1 E3]. apply negb_false_iff in E1, E2.
  destruct (Hd w d1 Hw Hd1) as [H|[H|H]]; congruence.
Qed.

Lemma plan_timer_resume now p : forall torder plan,
  resume (foldl (fun plan key => plan_timer now p key plan) plan torder) = resume plan.
Proof.
  induction torder as [|x l IH]; intros plan; [done|]. cbn. rewrite IH. unfold plan_timer. by repeat case_match.
Qed.

(** A workspace whose deadline is not one a tick acts on is not in its plan. *)
Lemma plan_skips now torder worder p id :
  plane_ok p ->
  (forall w d, workspaces (core p) !! id = Some w -> Deadline (hold_of p id) = Some d ->
     Fired d = true /\ (ExpiryFailed d = true \/ lifecycleActionable (Some w) (Action d) = false)) ->
  forall d, (id, d) ∉ claims (expire_plan now torder worder p) /\ (id, d) ∉ resume (expire_plan now torder worder p).
Proof.
  intros Hp Hd d. split.
  - unfold expire_plan. rewrite plan_workspace_claims.
    assert (Hc : forall torder plan, (forall d, (id, d) ∉ claims plan) ->
      forall d, (id, d) ∉ claims (foldl (fun plan key => plan_timer now p key plan) plan torder)).
    { clear torder. induction torder as [|x l IH]; intros plan Hn; [exact Hn|]. cbn. apply IH. intros d0.
      unfold plan_timer. destruct (timers p !! x) as [t|] eqn:Ht; [|apply Hn].
      destruct (_ || _) eqn:E; [apply Hn|]. apply orb_false_elim in E as [Hf Hlc%negb_false_iff].
      destruct (timer_of_pending p x t Hp Ht Hf Hlc) as [Hdead|(w & d1 & _ & Hw & Hs & Hd1 & Hf1 & _)];
        [by rewrite dead_stale; [apply Hn|]|].
      destruct (lifecycleTimerStale _ _); [apply Hn|]. destruct (now <? _); [apply Hn|]. destruct (negb _); [apply Hn|].
      rewrite Hd1. cbn. intros [Hin|Hin%list_elem_of_singleton]%elem_of_app; [by eapply Hn|].
      simplify_eq. destruct (Hd w d1 Hw Hd1) as [? _]. congruence. }
    apply Hc. by intros ? ?%not_elem_of_nil.
  - unfold expire_plan. apply plan_resume_only; [|naive_solver|apply Hp].
    intros d0. rewrite plan_timer_resume. by intros ?%not_elem_of_nil.
Qed.

Section attempts.
Context (o : Options) (eligible : Workspace -> string -> option string)
  (ho : HoldOptions) (fingerprint : Request -> string).
Context (Hlimit : MaxLeaseSec ho <= 2 ^ 50).

(** C28: retries are bounded and end in a visible mark.  However many attempts
    at a claimed deadline fail, it stays claimed with its instant and action
    and counts them; it is marked failed at the fifth and not before, and from
    then on no tick, at any time, claims or resumes it. *)
Theorem expiry_gives_up_after_five_attempts s id d w l :
  reachable o eligible ho fingerprint s -> workspaces (core (plane s)) !! id = Some w ->
  Deadline (hold_at s id) = Some d -> Fired d = true -> Attempts d = 0 ->
  let p := foldl (fail_attempt id) (plane s) l in
  exists d', Deadline (hold_of p id) = Some d' /\ Fired d' = true /\
    (DeadlineAt d', Action d', Source d') = (DeadlineAt d, Action d, Source d) /\
    Attempts d' = Z.of_nat (length l) /\
    (ExpiryFailed d' = true <-> (5 <= length l)%nat) /\
    (ExpiryFailed d' = true -> forall now torder worder d0,
       (id, d0) ∉ claims (expire_plan now torder worder p) /\ (id, d0) ∉ resume (expire_plan now torder worder p)).
Proof.
  intros Hr Hw Hd Hf Ha. apply reachable_system_ok in Hr; [|done]. destruct Hr as [Hp _ _].
  destruct (fail_attempts id l (plane s) d w Hp Hw Hd Hf) as (Hok & d' & Hd' & Hf' & Hs & Hat). cbv zeta.
  pose proof (ok_counts _ Hok id d' Hd') as Hm. unfold counts in Hm. rewrite Hf' in Hm. destruct Hm as (_ & Hx).
  exists d'. split_and!; [done|done|done|lia| |].
  - rewrite Hx. unfold lifecycleExpiryAttempts. rewrite Z.leb_le. lia.
  - intros Hfail now torder worder d0. apply plan_skips; [done|]. intros w0 d1 _ Hd1.
    rewrite Hd' in Hd1. injection Hd1 as <-. auto.
Qed.
End attempts.

(** ** What the executor and the sleeping workspace are not told

    Four theorems record behaviour that the design note of this component
    (docs/adr/0090) does not allow. *)

Lemma claims_others cnow tx id l : forall s,
  plane_ok (plane s) -> (forall d, (id, d) ∉ l) ->
  plane_ok (plane (foldl (claim_one cnow tx) s l)) /\
  hold_at (foldl (claim_one cnow tx) s l) id = hold_at s id /\
  running (foldl (claim_one cnow tx) s l) !! id = running s !! id /\
  workspaces (core (plane (foldl (claim_one cnow tx) s l))) !! id = workspaces (core (plane s)) !! id.
Proof.
  induction l as [|[id0 d0] l IH]; intros s Hp Hn; [done|]. cbn [foldl].
  assert (Hne : id0 <> id) by (intros ->; by apply (Hn d0), list_elem_of_here).
  destruct (claim_one_other cnow tx s id0 d0 id Hp Hne) as (<- & <- & <- & _).
  apply IH; [by apply claim_one_ok|]. intros d Hin. by apply (Hn d), list_elem_of_further.
Qed.

Lemma resumes_others id l : forall s,
  plane_ok (plane s) -> (forall d, (id, d) ∉ l) ->
  plane_ok (plane (foldl resume_one s l)) /\
  hold_at (foldl resume_one s l) id = hold_at s id /\
  running (foldl resume_one s l) !! id = running s !! id /\
  workspaces (core (plane (foldl resume_one s l))) !! id = workspaces (core (plane s)) !! id.
Proof.
  induction l as [|[id0 d0] l IH]; intros s Hp Hn; [done|]. cbn [foldl].
  assert (Hne : id <> id0) by (intros ->; by apply (Hn d0), list_elem_of_here).
  destruct (start_other id0 d0 s (plane s) (planned s) id Hne) as (Hr & _ & Hc).
  destruct (IH (resume_one s (id0, d0))) as (Hok & Hh & Hr' & Hw).
  { by apply start_plane_ok. }
  { intros d Hin. by apply (Hn d), list_elem_of_further. }
  rewrite Hh, Hr', Hw. unfold resume_one. cbn [fst snd]. rewrite Hr, Hc, hold_at_start. done.
Qed.

Record tick := mkTick {
  tick_now : Z; tick_claim : Z; tick_tx : string -> option Z; tick_timers : list string;
  tick_workspaces : list string }.

Definition run_tick (s : system) (t : tick) : system :=
  expireLifecycle (tick_now t) (tick_claim t) (tick_tx t) (tick_timers t) (tick_workspaces t) s.

(** A tick leaves alone a workspace that is not in its plan. *)
Lemma tick_skips s t id :
  plane_ok (plane s) ->
  (forall w d, workspaces (core (plane s)) !! id = Some w -> Deadline (hold_at s id) = Some d ->
     Fired d = true /\ (ExpiryFailed d = true \/ lifecycleActionable (Some w) (Action d) = false)) ->
  plane_ok (plane (run_tick s t)) /\ hold_at (run_tick s t) id = hold_at s id /\
  running (run_tick s t) !! id = running s !! id /\
  (alive (core (plane s)) id ->
   workspaces (core (plane (run_tick s t))) !! id = workspaces (core (plane s)) !! id).
Proof.
  intros Hp Hd. unfold run_tick, expireLifecycle. cbv zeta.
  destruct (expire_plan_ok (tick_now t) (tick_timers t) (tick_workspaces t) (plane s) Hp) as [Hret _].
  destruct (retires_run (tick_tx t) id (retire (expire_plan (tick_now t) (tick_timers t) (tick_workspaces t) (plane s)))
    (mkSystem (plane s) (planned s) (tick_now t) (running s)) Hp Hret) as (Hp1 & Hh1 & Hr1 & _ & Hw1).
  set (s1 := foldl (retire_one _) _ _) in *. clearbody s1. cbn [plane running] in *.
  pose proof (plan_skips (tick_now t) (tick_timers t) (tick_workspaces t) (plane s) id Hp Hd) as Hskip.
  edestruct (claims_others (tick_claim t) (tick_tx t) id
    (claims (expire_plan (tick_now t) (tick_timers t) (tick_workspaces t) (plane s))) s1) as (Hok & Hh & Hr & Hw);
    [done|intros d; apply Hskip|].
  edestruct (resumes_others id
    (resume (expire_plan (tick_now t) (tick_timers t) (tick_workspaces t) (plane s)))) as (Hok' & Hh' & Hr' & Hw');
    [exact Hok|intros d; apply Hskip|].
  rewrite Hh', Hr', Hw', Hh, Hr, Hw, Hr1. done.
Qed.

(** What a committed move leaves. *)
Lemma moved_hold now requires tx current snap p w p1 :
  plane_ok p -> clock_ok now -> move_section now requires tx current snap p = (Ok w, p1) ->
  State w = WSPending /\ workspaces (core p1) !! ID w = Some w /\ Deadline (hold_of p1 (ID w)) = None /\
  awake (hold_of p1 (ID w)) = false.
Proof.
  intros Hp Hclock. unfold move_section.
  destruct (move_one requires tx current snap (core p)) as [[e He]|(ws & w0 & Hl & Hi & Hs & He)];
    rewrite He; [done|]. cbn. intros [= <- <-]. split_and!; [done|cbn; apply lookup_insert_eq|..];
    rewrite hold_of_write, decide_True by done; [done|].
  unfold awake. cbn. unfold end_live. destruct (Lease (hold_of p (ID w0))) as [l|] eqn:E; [|by rewrite E].
  destruct (Live (Some l)) eqn:Hlive; [|by rewrite E]. cbn. unfold clock_ok in Hclock. lia.
Qed.

Section defects.
Context (o : Options) (eligible : Workspace -> string -> option string)
  (ho : HoldOptions) (fingerprint : Request -> string).
Context (Hlimit : MaxLeaseSec ho <= 2 ^ 50).

(** C40: a move does not stop an expiry that was claimed before it.  The
    executor never looks at the row again: when [wsMove] commits while the
    goroutine of a destroying deadline has not entered [wsDestroy] yet, the
    move clears the deadline, ends the hold and spends the timer; the goroutine
    still calls [wsDestroy], which finds a pending workspace, asks no node and
    destroys the workspace that was just moved. *)
Theorem moved_workspace_is_still_destroyed s id d now requires tx current snap w p1 at_ u :
  reachable o eligible ho fingerprint s ->
  running s !! id = Some (Starting d) -> Action d = LeaseExpiryDestroy ->
  clock_ok now ->
  move_section now requires tx current snap (plane s) = (Ok w, p1) -> ID w = id ->
  let s1 := on_plane s p1 in
  let s2 := exec_destroy_begin true true EmptyString (Some u) id d s1 in
  let s3 := exec_destroy_commit at_ (Some u) id d (Generation w) false s2 in
  step o eligible ho fingerprint s s1 /\ State w = WSPending /\ workspaces (core (plane s1)) !! id = Some w /\
  Deadline (hold_at s1 id) = None /\ awake (hold_at s1 id) = false /\ spent (lifecycle_timer p1 id) /\
  step o eligible ho fingerprint s1 s2 /\ plane s2 = plane s1 /\
  running s2 !! id = Some (Destroying d (Generation w) false) /\
  step o eligible ho fingerprint s2 s3 /\ dead (core (plane s3)) id /\
  running s3 !! id = Some (Finished d None).
Proof.
  intros Hr Hrun Ha Hclock Hm Hid. apply reachable_system_ok in Hr; [|done]. destruct Hr as [Hp _ _]. cbv zeta.
  assert (Hst : step o eligible ho fingerprint s (on_plane s p1)).
  { change p1 with (snd (Ok (E := Refusal) w, p1)). rewrite <-Hm. apply s_move. }
  assert (Hp1 : plane_ok p1).
  { change p1 with (snd (Ok (E := Refusal) w, p1)). rewrite <-Hm. by apply move_section_ok. }
  destruct (moved_hold _ _ _ _ _ _ _ _ Hp Hclock Hm) as (Hs & Hw1 & Hd1 & Haw). rewrite Hid in *.
  assert (Hb : destroy_begin true true EmptyString (Some u) id (core p1) = (Ok (DestroyGo w false), core p1)).
  { unfold destroy_begin, with_ws, is_state. by rewrite Hw1, Hs. }
  assert (Hrow : destroyed_row w (Generation w) false = Ok (set_LeaseUntil 0 (set_Node EmptyString (set_State WSDestroyed w)))).
  { unfold destroyed_row. rewrite Z.eqb_refl. cbn [negb orb andb].
    assert (transitionWorkspace (Some w) (mkTransition transitionDestroyCommit actorControl WSDestroyed
      (Some (Generation w)) None) = Ok (set_State WSDestroyed w)) as ->
      by (unfold transitionWorkspace; cbn -[bool_decide elem_of]; rewrite Z.eqb_refl, Hs; done). done. }
  assert (Hs2 : exec_destroy_begin true true EmptyString (Some u) id d (on_plane s p1)
    = mkSystem p1 (planned s) (planned_at s) (<[id := Destroying d (Generation w) false]> (running s))).
  { unfold exec_destroy_begin. cbn [plane on_plane]. rewrite Hb. cbn. by rewrite set_core_same. }
  rewrite Hs2. split_and!; try done.
  - pose proof (ok_match p1 Hp1 id) as Hmm. unfold matches in Hmm. rewrite Hd1 in Hmm. apply Hmm.
    apply (alive_some _ _ _ Hw1). congruence.
  - rewrite <- Hs2. by apply s_exec_destroy.
  - apply lookup_insert_eq.
  - apply s_exec_destroyed, lookup_insert_eq.
  - rewrite exec_destroy_commit_plane. cbn [plane]. unfold destroy_section, destroy_commit, with_ws.
    rewrite Hw1, Hrow. eexists. cbn. rewrite Hid, lookup_insert_eq. by split.
  - unfold exec_destroy_commit, destroy_section, destroy_commit, with_ws. cbn [plane]. rewrite Hw1, Hrow. cbn.
    apply lookup_insert_eq.
Qed.

(** an expiry whose last transaction fails once is never tried again.  The
    release has committed, so the workspace is released and not claimed; no
    tick finds such a workspace actionable, and the claimed deadline stays as
    it is, neither retried nor marked failed, however many ticks pass; a wake
    leaves the workspace released as well. *)
Theorem stranded_deadline_is_never_retried s id d w ticks :
  reachable o eligible ho fingerprint s -> workspaces (core (plane s)) !! id = Some w -> State w = WSReleased ->
  Deadline (hold_at s id) = Some d -> Fired d = true ->
  let s' := foldl run_tick s ticks in
  Deadline (hold_at s' id) = Some d /\ running s' !! id = running s !! id /\
  workspaces (core (plane s')) !! id = Some w /\
  forall now tx, wake_section now tx id EmptyString (plane s') = (Ok w, plane s').
Proof.
  intros Hr Hw Hs Hd Hf. apply reachable_system_ok in Hr; [|done]. destruct Hr as [Hp _ _]. cbv zeta.
  assert (Hall : plane_ok (plane (foldl run_tick s ticks)) /\ hold_at (foldl run_tick s ticks) id = hold_at s id /\
    running (foldl run_tick s ticks) !! id = running s !! id /\
    workspaces (core (plane (foldl run_tick s ticks))) !! id = Some w).
  { revert s Hp Hw Hd. induction ticks as [|t l IH]; intros s Hp Hw Hd; [done|]. cbn [foldl].
    destruct (tick_skips s t id Hp) as (Hp' & Hh & Hrn & Hws).
    { intros w0 d0 Hw0 Hd0. simplify_eq. split; [done|]. right. unfold lifecycleActionable, is_state. rewrite Hs.
      by rewrite andb_comm. }
    rewrite <-Hh, <-Hrn. apply IH; [done|rewrite Hws; [done|]|by rewrite Hh]. apply (alive_some _ _ _ Hw). congruence. }
  destruct Hall as (_ & Hh & Hrn & Hws). split_and!; [by rewrite Hh|done|done|].
  intros now tx. unfold wake_section, is_state. rewrite Hws, Hs. done.
Qed.

Lemma reconcile_lease rnow timer w h h' t :
  reconcileLifecycleLocked rnow timer w h = (h', t) -> Lease h' = Lease h.
Proof.
  unfold reconcileLifecycleLocked. by destruct (deadline_fired h); [|destruct (deriveDeadline w h)]; intros [= <- _].
Qed.

(** An expiry that finished ends whatever hold it finds, also one that was
    granted after the workspace had gone to sleep and come back, and before its
    deadline. *)
Theorem late_finish_ends_a_new_hold s id d w l now rnow t :
  reachable o eligible ho fingerprint s ->
  running s !! id = Some (Finished d None) -> workspaces (core (plane s)) !! id = Some w ->
  Lease (hold_at s id) = Some l -> EndedAt l = 0 -> unixMilli now <> 0 ->
  let s' := mkSystem (finishLifecycleExpiry now rnow (Some t) id None (plane s)) (planned s) (planned_at s)
              (delete id (running s)) in
  step o eligible ho fingerprint s s' /\
  Lease (hold_at s' id) = Some (end_lease (unixMilli now) LeaseEndDeadline l) /\ awake (hold_at s' id) = false.
Proof.
  intros Hr Hrun Hw Hl He Hn. apply reachable_system_ok in Hr; [|done]. destruct Hr as [Hp _ _]. cbv zeta.
  split; [by eapply s_finish|].
  destruct (finish_commits now rnow t id None (plane s) w Hp Hw) as [Hh _].
  destruct (reconcileLifecycleLocked rnow _ w _) as [h timer] eqn:Hrec. cbn [fst] in Hh.
  assert (Hlease : Lease h = Some (end_lease (unixMilli now) LeaseEndDeadline l)).
  { transitivity (Lease (outcome now None (hold_of (plane s) id))).
    - by eapply reconcile_lease.
    - unfold outcome, end_live. unfold hold_at in Hl. cbn. rewrite Hl. cbn. by rewrite He. }
  unfold hold_at. cbn. rewrite Hh. split; [done|]. unfold awake. rewrite Hlease. cbn. by apply Z.eqb_neq.
Qed.

(** What may happen to a workspace that nobody calls about. *)
Inductive unattended := UControl (r : request) | UWake (now : Z) (tx : option Z) (id : string) | UTick (t : tick).

Definition go (s : system) (u : unattended) : system :=
  match u with
  | UControl r => on_plane s (set_core (exec o eligible (core (plane s)) r) (plane s))
  | UWake now tx id => on_plane s (snd (wake_section now tx id EmptyString (plane s)))
  | UTick t => run_tick s t
  end.

Fixpoint go_ok (s : system) (l : list unattended) : Prop :=
  match l with
  | [] => True
  | u :: l =>
      match u with UControl r => plain r = true /\ request_ok ∅ r | _ => True end /\ go_ok (go s u) l
  end.

Lemma unscheduled_stays l id : forall s,
  plane_ok (plane s) -> Deadline (hold_at s id) = None -> go_ok s l ->
  hold_at (foldl go s l) id = hold_at s id.
Proof.
  induction l as [|u l IH]; intros s Hp Hd Hok; [done|]. destruct Hok as [Hu Hl]. cbn [foldl].
  assert (plane_ok (plane (go s u)) /\ hold_at (go s u) id = hold_at s id) as [Hp' Hh].
  { destruct u as [r|now tx id0|t]; cbn [go].
    - destruct Hu as [Hpl Hreq]. split; [|done].
      apply set_core_ok; [done|by apply plain_deaths, Hp..].
    - split; [by apply wake_section_ok|]. unfold hold_at. cbn. unfold wake_section.
      destruct (workspaces (core (plane s)) !! id0) as [w0|] eqn:Hw0; [|done]. destruct (is_state WSDestroyed w0); [done|].
      cbv zeta. cbn. destruct (negb _ && true) eqn:Hb; [done|].
      destruct (wake_one false tx id0 w0 (core (plane s)) Hw0 Hb) as [[e ->]|(ws & w & Hl0 & Hi & _ & ->)]; [done|].
      cbn [snd]. rewrite hold_of_write. case_decide; [by subst|done].
    - destruct (tick_skips s t id Hp) as (H1 & H2 & _); [|done]. intros w d _ Hd'. congruence. }
  rewrite IH; [done|done|by rewrite Hh|done].
Qed.

(** A hold that is renewed while its workspace sleeps is never scheduled: the
    call is accepted with a new maximum, and through wakes, claims, reports of
    the node and ticks at any time nothing is armed for it. *)
Theorem hold_renewed_asleep_never_expires s id w now rnow tx scope req answer p1 l :
  reachable o eligible ho fingerprint s -> workspaces (core (plane s)) !! id = Some w -> State w = WSPaused ->
  RenewReqWS req = id -> clock_ok now -> renew_checks ho req = None ->
  lease_extend fingerprint now rnow tx scope req (plane s) = (Ok answer, p1) ->
  go_ok (on_plane s p1) l ->
  awake (hold_at (foldl go (on_plane s p1) l) id) = true /\
  Deadline (hold_at (foldl go (on_plane s p1) l) id) = None.
Proof.
  intros Hr Hw Hs Hid Hclock Hchk Hx Hok. apply reachable_system_ok in Hr; [|done]. destruct Hr as [Hp _ _].
  assert (Hp1 : plane_ok p1).
  { change p1 with (snd (Ok (E := Refusal) answer, p1)). rewrite <-Hx. by eapply lease_extend_ok. }
  assert (Hh : awake (hold_of p1 id) = true /\ Deadline (hold_of p1 id) = None).
  { revert Hx. unfold lease_extend, workspace_of. rewrite Hid, Hw.
    destruct (Lease (hold_of (plane s) id)) as [l0|] eqn:Hl; [|done].
    destruct (_ <>s _); [done|]. destruct (negb (Live _)) eqn:Hlive; [done|]. destruct (negb (_ =? _)); [done|].
    destruct (deadline_fired _) eqn:Hf; [done|]. unfold is_state at 1. rewrite Hs. cbn [bool_decide decide_rel]. cbv zeta.
    destruct (reconcileLifecycleLocked _ _ _ _) as [h timer] eqn:Hrec.
    unfold commitHold. destruct (commitWS_cases (core (plane s)) w tx) as [[_ ->]|(t & _ & ->)]; [done|].
    intros [= _ <-]. cbn [ID set_UpdatedAt]. rewrite (wf_lookup _ id w (ok_wf _ Hp) Hw).
    rewrite hold_of_write, decide_True by done. revert Hrec. unfold reconcileLifecycleLocked.
    assert (deadline_fired (set_active now (set_Lease (Some (renewed now req l0)) (hold_of (plane s) id))) = false)
      as -> by exact Hf.
    assert (deriveDeadline w (set_active now (set_Lease (Some (renewed now req l0)) (hold_of (plane s) id))) = None) as ->.
    { unfold deriveDeadline, idleDeadline, is_state. rewrite Hs. cbn. rewrite andb_false_r.
      destruct (Policy _); [|done]. by rewrite orb_true_r. }
    intros [= <- _]. split; [|done]. by apply negb_false_iff in Hlive. }
  destruct Hh as [Ha Hd]. rewrite unscheduled_stays; done.
Qed.
End defects.

(** ** Witnesses

    Steps as data, so that a run can be computed. *)
Inductive action :=
| ACreate (id tenant : string)
| AControl (r : request)
| ALease (now : Z) (leaseID : string) (req : WSLeaseReq)
| AMove (current : Workspace) (snap : string)
| ASleep (timer : string) (current : Workspace) (snap : string)
| AWake (id : string)
| ATick (now : Z) (torder worder : list string)
| AClaim (now : Z)
| AExecRead (id : string)
| AExecSleep (now : Z) (tx : option Z) (id snap : string)
| AFinish (now : Z) (id : string).

Definition ex_ho : HoldOptions := mkHoldOptions 3600 2 100 10.
Definition ex_fp (r : Request) : string := EmptyString.
Definition ex_hspec : WorkspaceSpec := mkSpec "" "" [] "" "ann" [] [].

Definition no_slot (timer : string) : bool := negb (String.prefix "t_lc_" timer).

Definition named_node (r : request) : bool := match r with RClaim _ _ node _ => node <>s "" | _ => true end.

Definition act (s : system) (a : action) : option system :=
  match a with
  | ACreate id tenant =>
      match workspaces (core (plane s)) !! id, create_commit 0 (Some 0) id tenant "ann" ex_hspec (core (plane s)) with
      | None, (Ok _, c) =>
          if tenant =s "" then None else Some (on_plane s (write_hold id no_hold [] None (set_core c (plane s))))
      | _, _ => None
      end
  | AControl r =>
      if plain r && named_node r then Some (on_plane s (set_core (exec ex_o ex_el (core (plane s)) r) (plane s)))
      else None
  | ALease now leaseID req =>
      if (0 <? now) && (now <? 2 ^ 62) then
        Some (on_plane s (snd (wsLease ex_ho ex_fp now now (Some 0) leaseID "ann" req (plane s))))
      else None
  | AMove current snap => Some (on_plane s (snd (move_section 1 None (Some 0) current snap (plane s))))
  | ASleep timer current snap =>
      match timers (plane s) !! timer with
      | None => if no_slot timer
                then Some (on_plane s (snd (sleep_section 1 timer (mkWakeSpec 0 "" []) (Some 0) current snap (plane s))))
                else None
      | Some _ => None
      end
  | AWake id => Some (on_plane s (snd (wake_section 1 (Some 0) id EmptyString (plane s))))
  | ATick now torder worder =>
      match planned s with
      | mkPlan [] [] [] => Some (mkSystem (plane s) (expire_plan now torder worder (plane s)) now (running s))
      | _ => None
      end
  | AClaim now =>
      match retire (planned s), claims (planned s) with
      | [], (id, d) :: l =>
          match claimLifecycleDeadline now (Some 0) id d (plane s) with
          | (Some d', p) => Some (start id d' s p (mkPlan [] l (resume (planned s))))
          | (None, _) => None
          end
      | _, _ => None
      end
  | AExecRead id =>
      match running s !! id with
      | Some (Starting d) =>
          if Action d =s LeaseExpiryDestroy then None
          else Some (mkSystem (plane s) (planned s) (planned_at s)
              (<[id := match lifecycle_sleep_read id (plane s) with
                       | Err true => Finished d None
                       | Err false => Finished d (Some "workspace destroyed"%string)
                       | Ok current => Sleeping d current
                       end]> (running s)))
      | _ => None
      end
  | AExecSleep now tx id snap =>
      match running s !! id with
      | Some (Sleeping d current) =>
          let '(ok, p) := lifecycle_sleep_commit now now tx current snap (plane s) in
          Some (mkSystem p (planned s) (planned_at s)
                  (<[id := Finished d (if ok then None else Some "sleep failed"%string)]> (running s)))
      | _ => None
      end
  | AFinish now id =>
      match running s !! id with
      | Some (Finished d cause) =>
          Some (mkSystem (finishLifecycleExpiry now (unixMilli now) (Some 0) id cause (plane s)) (planned s)
                  (planned_at s) (delete id (running s)))
      | _ => None
      end
  end.

Lemma act_step s a s' : act s a = Some s' -> step ex_o ex_el ex_ho ex_fp s s'.
Proof.
  destruct a as [id tenant|r|now leaseID req|current snap|timer current snap|id|now torder worder|now|id
    |now tx id snap|now id]; cbn [act].
  - destruct (workspaces _ !! id) eqn:Hn; [done|]. destruct (create_commit _ _ _ _ _ _ _) as [[w|] c] eqn:Hc; [|done].
    destruct (tenant =s "") eqn:Ht; [done|]. intros [= <-]. eapply s_create; [done| |exact Hc].
    by apply str_eqb_neq.
  - destruct (plain r) eqn:Hpl; [|done]. destruct (named_node r) eqn:Hn; [|done]. intros [= <-].
    apply s_control; [done|]. destruct r; try done. by apply negb_true_iff, str_eqb_neq in Hn.
  - destruct (_ && _) eqn:Hc; [|done]. intros [= <-]. apply s_lease. apply andb_true_iff in Hc as [? ?].
    unfold clock_ok. lia.
  - intros [= <-]. apply s_move.
  - destruct (timers _ !! timer) eqn:Ht; [done|]. destruct (no_slot timer) eqn:Hs; [|done]. intros [= <-].
    apply s_sleep. split; [done|]. intros ws ->. unfold no_slot, lifecycleTimerID in Hs. by destruct ws.
  - intros [= <-]. apply s_wake.
  - destruct (planned s) as [[] [] []] eqn:Hp; try done. intros [= <-]. by apply s_tick.
  - destruct (retire (planned s)) eqn:Hr; [|done]. destruct (claims (planned s)) as [|[id d] l] eqn:Hc; [done|].
    destruct (claimLifecycleDeadline _ _ _ _ _) as [[d'|] p] eqn:He; [|done]. intros [= <-]. by eapply s_claim.
  - destruct (running s !! id) as [[d| | |]|] eqn:Hr; try done. destruct (Action d =s _) eqn:Ha; [done|].
    intros [= <-]. apply s_exec_read; [done|]. by apply str_eqb_neq.
  - destruct (running s !! id) as [[| |d current|]|] eqn:Hr; try done.
    destruct (lifecycle_sleep_commit _ _ _ _ _ _) as [ok p] eqn:He. intros [= <-]. by eapply s_exec_sleep.
  - destruct (running s !! id) as [[| | |d cause]|] eqn:Hr; try done. intros [= <-]. by eapply s_finish.
Qed.

Fixpoint acts (s : system) (l : list action) : option system :=
  match l with [] => Some s | a :: l => match act s a with Some s' => acts s' l | None => None end end.

Definition ex_start : system := mkSystem (empty_plane ex_c0) no_plan 0 ∅.

Lemma acts_reachable l s : acts ex_start l = Some s -> reachable ex_o ex_el ex_ho ex_fp s.
Proof.
  intros Ha. exists ex_start. split; [exists ex_c0; split; [apply ex_fresh|done]|].
  revert Ha. generalize ex_start. induction l as [|a l IH]; intros s0; cbn; [by intros [= ->]|].
  destruct (act s0 a) as [s1|] eqn:H1; [|done]. intros H. eapply rtc_l; [by eapply act_step|by apply IH].
Qed.

(** A workspace that is claimed and held for ten seconds. *)
Definition ex_req (onExpiry : string) : WSLeaseReq := mkLeaseReq "ws" 0 10 onExpiry "job" "k".

Definition ex_held (onExpiry : string) : list action :=
  [ACreate "ws" "t"; AControl (RClaim 0 (Some 0) "n1" "ws"); AControl (RReady 0 (Some 0) "n1" "ws" 1 "");
   ALease 1000 "wl_1" (ex_req onExpiry)].

Definition ex_due (onExpiry : string) : list action :=
  ex_held onExpiry ++ [ATick 20000 [lifecycleTimerID "ws"] ["ws"]].

Definition ex_fired (onExpiry : string) : list action := ex_due onExpiry ++ [AClaim 20000].

Definition ex_release : list action :=
  [AControl (RReleaseBegin true "op" (Some 0) "ws");
   AControl (RReleaseCommit None (Some 0) "ws" "n1" 1 true (mkReleasedReq "ws" 1 "snap" "tar" false));
   AControl (RReleasedCleanup (Some 0) "ws" "n1" 1)].

Definition isSome {A} (x : option A) : bool := match x with Some _ => true | None => false end.

Definition ex_sys (l : list action) : system := default ex_start (acts ex_start l).

Lemma ex_sys_reachable l : isSome (acts ex_start l) = true -> reachable ex_o ex_el ex_ho ex_fp (ex_sys l).
Proof.
  intros Hs. apply (acts_reachable l). unfold ex_sys. by destruct (acts ex_start l).
Qed.

Ltac runs := apply ex_sys_reachable; vm_compute; reflexivity.

Lemma ex_limit : MaxLeaseSec ex_ho <= 2 ^ 50.
Proof. vm_compute. discriminate. Qed.

Definition ex_held_sys : system := ex_sys (ex_held "sleep").
Definition ex_due_sys : system := ex_sys (ex_due "destroy").
Definition ex_fired_sys : system := ex_sys (ex_fired "destroy").

Definition ex_deadline (action : string) : LifecycleDeadline :=
  mkDeadline 11000 action LifecycleSourceLease "t_lc_ws" false 0 false 0 "".

Definition ex_ws (s : system) : Workspace :=
  default (mkWorkspace "" "" "" WSPending "" 0 0 0 "" "" [] ex_hspec 0 "" 0 [] 0) (workspaces (core (plane s)) !! "ws"%string).


Lemma fleet_destroy_keeps_the_deadline_witness :
  exists s1 t, dead (core (plane s1)) "ws" /\ Deadline (hold_at s1 "ws") = Some (ex_deadline "sleep") /\
    lifecycle_timer (plane s1) "ws" = Some t /\ TimerFired t = false.
Proof.
  destruct (fleet_destroy_keeps_the_deadline ex_o ex_el ex_ho ex_fp ex_limit ex_held_sys "ws" (ex_deadline "sleep")
    (ex_ws ex_held_sys) 1 (Some ("snap"%string, "tar"%string, [])) 0 0 2000 [lifecycleTimerID "ws"])
    as (_ & Hdead & Hh & t & Ht & Hf & _).
  - runs.
  - vm_compute. reflexivity.
  - vm_compute. discriminate.
  - vm_compute. reflexivity.
  - vm_compute. reflexivity.
  - reflexivity.
  - apply list_elem_of_here.
  - eexists _, t. split; [exact Hdead|]. split; [rewrite Hh; vm_compute; reflexivity|]. split; [exact Ht|exact Hf].
Defined.

Lemma deadline_fires_no_earlier_than_promised_witness :
  DeadlineAt (ex_deadline "destroy") <= planned_at ex_due_sys.
Proof.
  refine (proj1 (deadline_fires_no_earlier_than_promised ex_o ex_el ex_ho ex_fp ex_limit ex_due_sys ex_fired_sys "ws"
    (ex_deadline "destroy") (claim_deadline 20000 (ex_deadline "destroy")) _ _ _ _ _ _)).
  - runs.
  - apply (act_step ex_due_sys (AClaim 20000)). vm_compute. reflexivity.
  - vm_compute. reflexivity.
  - reflexivity.
  - vm_compute. reflexivity.
  - reflexivity.
Defined.

Lemma tenant_holds_within_quota_witness :
  held_count "t" (plane ex_held_sys) = 1 /\ held_count "t" (plane ex_held_sys) <= 2.
Proof.
  split; [vm_compute; reflexivity|].
  apply (tenant_holds_within_quota ex_o ex_el ex_ho ex_fp ex_limit ltac:(vm_compute; discriminate) ex_held_sys "t").
  runs.
Defined.

Lemma due_deadline_is_executed_witness :
  executing "ws" (ex_deadline "sleep")
    (expireLifecycle 20000 20000 (fun _ => Some 0) [lifecycleTimerID "ws"] ["ws"%string] ex_held_sys).
Proof.
  apply (due_deadline_is_executed ex_o ex_el ex_ho ex_fp ex_limit ex_held_sys "ws" (ex_deadline "sleep")
    (ex_ws ex_held_sys)).
  - runs.
  - vm_compute. reflexivity.
  - reflexivity.
  - vm_compute. reflexivity.
  - vm_compute. reflexivity.
  - intros _. vm_compute. discriminate.
  - vm_compute. reflexivity.
  - apply list_elem_of_here.
  - apply list_elem_of_here.
  - by exists 0.
Defined.

Lemma expiry_gives_up_after_five_attempts_witness :
  exists d', Deadline (hold_of (foldl (fail_attempt "ws") (plane ex_fired_sys)
      (replicate 5 (30000000000, 30000, 0, "unreachable"%string))) "ws") = Some d' /\ ExpiryFailed d' = true.
Proof.
  destruct (expiry_gives_up_after_five_attempts ex_o ex_el ex_ho ex_fp ex_limit ex_fired_sys "ws"
    (claim_deadline 20000 (ex_deadline "destroy")) (ex_ws ex_fired_sys)
    (replicate 5 (30000000000, 30000, 0, "unreachable"%string))) as (d' & Hd & _ & _ & _ & Hx & _).
  - runs.
  - vm_compute. reflexivity.
  - vm_compute. reflexivity.
  - reflexivity.
  - reflexivity.
  - exists d'. split; [exact Hd|]. apply Hx. cbn. lia.
Defined.

Definition ex_moving : system := ex_sys (ex_fired "destroy" ++ ex_release).

Lemma moved_workspace_is_still_destroyed_witness :
  exists p1 s3, rtc (step ex_o ex_el ex_ho ex_fp) (on_plane ex_moving p1) s3 /\
    Deadline (hold_of p1 "ws") = None /\ dead (core (plane s3)) "ws" /\
    awake (hold_at ex_held_sys "ws") = true /\ awake (hold_of p1 "ws") = false.
Proof.
  destruct (move_section 1 None (Some 0) (ex_ws ex_fired_sys) "snap" (plane ex_moving)) as [[w|e] p1] eqn:E;
    [|vm_compute in E; discriminate].
  assert (Hid : ID w = "ws"%string) by (vm_compute in E; by injection E as <- _).
  destruct (moved_workspace_is_still_destroyed ex_o ex_el ex_ho ex_fp ex_limit ex_moving "ws"
    (claim_deadline 20000 (ex_deadline "destroy")) 1 None (Some 0) (ex_ws ex_fired_sys) "snap" w p1 2 0)
    as (_ & _ & _ & Hd & Haw & _ & H2 & _ & _ & H3 & Hdead & _).
  - runs.
  - vm_compute. reflexivity.
  - reflexivity.
  - split; vm_compute; reflexivity.
  - exact E.
  - exact Hid.
  - eexists p1, _. split; [eapply rtc_l; [exact H2|apply rtc_once; exact H3]|].
    split; [exact Hd|]. split; [exact Hdead|]. split; [vm_compute; reflexivity|exact Haw].
Defined.

(** The transaction that publishes the paused workspace fails once. *)
Definition ex_stranded : system :=
  ex_sys (ex_fired "sleep" ++ [AExecRead "ws"] ++ ex_release
          ++ [AExecSleep 20000 None "ws" "snap"; AFinish 20000000000 "ws"]).

Definition ex_tick : tick := mkTick 9000000 9000000 (fun _ => Some 0) [lifecycleTimerID "ws"] ["ws"%string].

Lemma stranded_deadline_is_never_retried_witness :
  exists d, Deadline (hold_at (foldl run_tick ex_stranded (replicate 7 ex_tick)) "ws") = Some d /\
    Fired d = true /\ ExpiryFailed d = false /\
    running (foldl run_tick ex_stranded (replicate 7 ex_tick)) !! "ws"%string = None.
Proof.
  exists (attempt_failed "sleep failed" (claim_deadline 20000 (ex_deadline "sleep"))).
  destruct (stranded_deadline_is_never_retried ex_o ex_el ex_ho ex_fp ex_limit ex_stranded "ws"
    (attempt_failed "sleep failed" (claim_deadline 20000 (ex_deadline "sleep"))) (ex_ws ex_stranded) (replicate 7 ex_tick))
    as (Hd & Hr & _).
  - runs.
  - vm_compute. reflexivity.
  - vm_compute. reflexivity.
  - vm_compute. reflexivity.
  - reflexivity.
  - split; [exact Hd|]. split; [reflexivity|]. split; [reflexivity|].
    transitivity (running ex_stranded !! "ws"%string); [exact Hr|]. vm_compute. reflexivity.
Defined.

(** The workspace went to sleep, was woken, claimed and held again before the
    executor's last section ran. *)
Definition ex_reheld : system :=
  ex_sys (ex_fired "sleep" ++ [AExecRead "ws"] ++ ex_release
          ++ [AExecSleep 20000 (Some 0) "ws" "snap"; AWake "ws"; AControl (RClaim 0 (Some 0) "n2" "ws");
              AControl (RReady 0 (Some 0) "n2" "ws" 2 "");
              ALease 21000 "wl_2" (mkLeaseReq "ws" 60 3600 "sleep" "job" "k2")]).

Lemma late_finish_ends_a_new_hold_witness :
  exists s' l, step ex_o ex_el ex_ho ex_fp ex_reheld s' /\ Lease (hold_at s' "ws") = Some l /\
    LeaseID l = "wl_2"%string /\ awake (hold_at s' "ws") = false /\ MaxAliveUntil l = 3621000.
Proof.
  destruct (Lease (hold_at ex_reheld "ws")) as [l|] eqn:Hl; [|vm_compute in Hl; discriminate].
  destruct (late_finish_ends_a_new_hold ex_o ex_el ex_ho ex_fp ex_limit ex_reheld "ws"
    (claim_deadline 20000 (ex_deadline "sleep")) (ex_ws ex_reheld) l 22000000000 22000 0) as (Hs & Hn & Ha).
  - runs.
  - vm_compute. reflexivity.
  - vm_compute. reflexivity.
  - exact Hl.
  - vm_compute in Hl. injection Hl as <-. reflexivity.
  - vm_compute. discriminate.
  - eexists _, _. split; [exact Hs|]. split; [exact Hn|]. split; [|split; [exact Ha|]];
      vm_compute in Hl; injection Hl as <-; reflexivity.
Defined.

Definition ex_asleep : system :=
  ex_sys (ex_held "sleep" ++ ex_release ++ [ASleep "t_1" (ex_ws ex_held_sys) "snap"]).

Lemma hold_renewed_asleep_never_expires_witness :
  exists p1, awake (hold_at (foldl (go ex_o ex_el) (on_plane ex_asleep p1)
      [UWake 1 (Some 0) "ws"; UControl (RClaim 0 (Some 0) "n2" "ws");
       UControl (RReady 0 (Some 0) "n2" "ws" 2 "");
       UTick (mkTick 9000000 9000000 (fun _ => Some 0) [lifecycleTimerID "ws"] ["ws"%string])]) "ws") = true.
Proof.
  destruct (lease_extend ex_fp 5000 5000 (Some 0) "s" (mkRenewHoldReq "ws" "wl_1" 60 0 "") (plane ex_asleep))
    as [[answer|e] p1] eqn:E; [|vm_compute in E; discriminate].
  exists p1.
  refine (proj1 (hold_renewed_asleep_never_expires ex_o ex_el ex_ho ex_fp ex_limit ex_asleep "ws" (ex_ws ex_asleep)
    5000 5000 (Some 0) "s" (mkRenewHoldReq "ws" "wl_1" 60 0 "") answer p1
      [UWake 1 (Some 0) "ws"; UControl (RClaim 0 (Some 0) "n2" "ws");
       UControl (RReady 0 (Some 0) "n2" "ws" 2 "");
       UTick (mkTick 9000000 9000000 (fun _ => Some 0) [lifecycleTimerID "ws"] ["ws"%string])] _ _ _ _ _ _ E _)).
  - runs.
  - vm_compute. reflexivity.
  - vm_compute. reflexivity.
  - reflexivity.
  - split; vm_compute; reflexivity.
  - vm_compute. reflexivity.
  - refine (conj I (conj (conj eq_refl _) (conj (conj eq_refl I) (conj I I)))). discriminate.
Defined.
End HoldsTheorems.
