(* ===== verification/Identity.v ===== *)
(** * Principals, tokens and node enrollment

    Translation of [src/internal/identity/identity.go],
    [src/internal/identity/principals.go], [src/internal/identity/sqlite.go]
    and [src/internal/identity/sqlite_principals.go]: signed tokens, the two
    stores of revocations, revisions, principals, enrollments and node keys,
    and every operation of the [Manager].

    The manager holds no lock: between two calls of its store any other
    request may run.  Its operations are therefore programs over the calls of
    the store, the clock and the signing key ([prog]), which a scheduler can
    interleave.  The two stores answer the calls ([store]); a call of the
    SQLite store may fail, which leaves its tables as they were.

    Strings and tokens are byte strings; instants are nanoseconds, [Unix]
    rounds them down to seconds.  [encoding/json], Ed25519 and the Unicode
    tables outside ASCII are fields of a class. *)

From Stdlib Require Import ZArith Lia Strings.String Strings.Ascii.
From stdpp Require Import base gmap strings option list pretty.
From S2P Require Import Prelude GoStd.
#[local] Open Scope Z_scope.
#[local] Open Scope remount_scope.

Module Identity.
Import GoStd.

(** ** Time *)

Definition second : Z := 1000000000.
Definition minute : Z := 60 * second.
Definition hour : Z := 60 * minute.
Definition Unix (t : Z) : Z := t / second.
Definition UnixMilli (t : Z) : Z := t / 1000000.
(** [time.Unix(s, 0)] *)
Definition of_unix (s : Z) : Z := s * second.
Definition MaxInt64 : Z := 2 ^ 63 - 1.

(** ** Texts *)

Definition slen (s : string) : Z := Z.of_nat (String.length s).

Definition validText (value : string) (max : Z) : bool :=
  if (value =s EmptyString) || (max <? slen value) then false
  else match runes value with
  | None => false
  | Some l => bool_decide (TrimSpace l = l) && forallb (fun r => negb ((r <? 0x21) || (r =? 0x7f))) l
  end.

Definition validPrincipal (subject tenant : string) : bool := validText subject 256 && validText tenant 253.

Definition validLabels (labels : gmap string string) : bool :=
  (Z.of_nat (size labels) <=? 64)
  && forallb (fun kv => validText kv.1 128 && validText kv.2 1024) (map_to_list labels).

(** [url.PathEscape] *)
Definition alnum (b : Z) : bool := in_range 0x61 0x7A b || in_range 0x41 0x5A b || in_range 0x30 0x39 b.
Definition should_escape (b : Z) : bool :=
  negb (alnum b || bool_decide (b ∈ [0x2D; 0x5F; 0x2E; 0x7E] (* - _ . ~ *)
                                 ++ [0x24; 0x26; 0x2B; 0x3A; 0x3D; 0x40] (* $ & + : = @ *))).
Definition upper_hex (n : Z) : Z := if n <? 10 then n + 0x30 else n - 10 + 0x41.
Definition escape_byte (b : Z) : list Z :=
  if should_escape b then [0x25; upper_hex (b / 16 mod 16); upper_hex (b mod 16)] else [b].
Definition PathEscape (s : string) : string := of_bytes (concat (map escape_byte (string_bytes s))).

(** [strings.Split] at one byte *)
Fixpoint split_byte (sep : Z) (l : list Z) : list (list Z) :=
  match l with
  | [] => [[]]
  | b :: t =>
      let parts := split_byte sep t in
      if b =? sep then [] :: parts
      else match parts with [] => [[b]] | p :: ps => (b :: p) :: ps end
  end.

Definition label_byte (b : Z) : bool := in_range 0x61 0x7A b || in_range 0x30 0x39 b || (b =? 0x2D).

Definition valid_domain_label (label : list Z) : bool :=
  (0 <? Z.of_nat (length label)) && (Z.of_nat (length label) <=? 63)
  && negb (bool_decide (head label = Some 0x2D)) && negb (bool_decide (last label = Some 0x2D))
  && forallb label_byte label.

(** ** encoding/base64, [RawURLEncoding] *)

Definition b64_char (n : Z) : Z :=
  if n <? 26 then n + 0x41 else if n <? 52 then n - 26 + 0x61 else if n <? 62 then n - 52 + 0x30
  else if n =? 62 then 0x2D else 0x5F.

Definition b64_val (c : Z) : option Z :=
  if in_range 0x41 0x5A c then Some (c - 0x41) else if in_range 0x61 0x7A c then Some (c - 0x61 + 26)
  else if in_range 0x30 0x39 c then Some (c - 0x30 + 52) else if c =? 0x2D then Some 62
  else if c =? 0x5F then Some 63 else None.

Fixpoint b64_encode (l : list Z) : list Z :=
  match l with
  | [] => []
  | [a] => [b64_char (a / 4); b64_char (a mod 4 * 16)]
  | [a; b] => [b64_char (a / 4); b64_char (a mod 4 * 16 + b / 16); b64_char (b mod 16 * 4)]
  | a :: b :: c :: t =>
      b64_char (a / 4) :: b64_char (a mod 4 * 16 + b / 16) :: b64_char (b mod 16 * 4 + c / 64)
      :: b64_char (c mod 64) :: b64_encode t
  end.

(** Complete quanta, then a last one of two or three digits whose spare bits
    are not looked at. *)
Fixpoint b64_quanta (l : list Z) : option (list Z) :=
  match l with
  | [] => Some []
  | [_] => None
  | [a; b] => Some [a * 4 + b / 16]
  | [a; b; c] => Some [a * 4 + b / 16; b mod 16 * 16 + c / 4]
  | a :: b :: c :: d :: t =>
      t' ← b64_quanta t; Some (a * 4 + b / 16 :: b mod 16 * 16 + c / 4 :: c mod 4 * 64 + d :: t')
  end.

(** [DecodeString] skips line breaks. *)
Definition b64_decode (l : list Z) : option (list Z) :=
  mapM b64_val (filter (fun c => c ≠ 0x0A ∧ c ≠ 0x0D) l) ≫= b64_quanta.

Definition EncodedLen (n : Z) : Z := n / 3 * 4 + (n mod 3 * 8 + 5) / 6.

(** ** Claims *)

Definition RoleOperator : string := "operator".
Definition RoleAgent : string := "agent".
Definition RoleNode : string := "node".
Definition RoleViewer : string := "viewer".
Definition RoleService : string := "service".
Definition all_roles : list string := [RoleOperator; RoleAgent; RoleNode; RoleViewer; RoleService].

Definition kindAccess : string := "access".
Definition kindRefresh : string := "refresh".
Definition kindSession : string := "session-cap".
Definition defaultAudience : string := "remount".
Definition defaultMaxTokenBytes : Z := Z.shiftl 16 10.
Definition maxRoles : Z := 8.

Record Claims := mkClaims {
  ID : string; Subject : string; Tenant : string; Roles : list string; Kind : string; Audience : string;
  Revision : Z; SPIFFEID : string; Workspace : string; Generation : Z; IssuedAt : Z; Expires : Z }.

#[export] Instance Claims_eq_dec : EqDecision Claims.
Proof. solve_decision. Defined.

Record Header := mkHeader { Algorithm : string; Type_ : string; Issuer : string }.

(** What the sources call and do not define. *)
Class Platform := {
  marshal_header : Header -> list Z;
  unmarshal_header : list Z -> option Header;
  marshal_claims : Claims -> list Z;
  unmarshal_claims : list Z -> option Claims;
  (** Ed25519 under the key of the deployment *)
  ed25519_sign : list Z -> list Z;
  ed25519_verify : list Z -> list Z -> bool;
  (** [strings.ToLower] and [strings.TrimSpace] outside ASCII *)
  unicode_lower : string -> string;
  unicode_trim : string -> string }.

Definition bytes_ok (l : list Z) : Prop := Forall (fun b => 0 <= b < 256) l.

(** JSON keeps every string that is valid UTF-8. *)
Definition utf8 (s : string) : Prop := is_Some (runes s).
Definition utf8_claims (c : Claims) : Prop :=
  utf8 (ID c) /\ utf8 (Subject c) /\ utf8 (Tenant c) /\ Forall utf8 (Roles c) /\ utf8 (Kind c) /\
  utf8 (Audience c) /\ utf8 (SPIFFEID c) /\ utf8 (Workspace c).

(** The ranges of the Go fields. *)
Definition claims_range (c : Claims) : Prop :=
  0 <= Revision c < 2 ^ 64 /\ 0 <= Generation c < 2 ^ 64 /\
  - 2 ^ 63 <= IssuedAt c < 2 ^ 63 /\ - 2 ^ 63 <= Expires c < 2 ^ 63.

(** Documented behaviour of those libraries. *)
Class PlatformLaws `{Platform} : Prop := {
  header_roundtrip h : utf8 (Algorithm h) -> utf8 (Type_ h) -> utf8 (Issuer h) ->
    unmarshal_header (marshal_header h) = Some h;
  claims_roundtrip c : utf8_claims c -> claims_range c -> unmarshal_claims (marshal_claims c) = Some c;
  header_nonempty h : marshal_header h <> [];
  claims_nonempty c : marshal_claims c <> [];
  header_bytes h : bytes_ok (marshal_header h);
  claims_bytes c : bytes_ok (marshal_claims c);
  signature_bytes msg : bytes_ok (ed25519_sign msg);
  signature_size msg : length (ed25519_sign msg) = 64%nat;
  signature_verifies msg : ed25519_verify msg (ed25519_sign msg) = true }.

Inductive error :=
| EMalformedToken | EMalformedHeader | EInvalidHeader | EBadSignature | EMalformedPayload | EInvalidClaims
| EInvalidRoles | EInvalidToken | ERevokedToken | EPrincipalRevoked | EInvalidPrincipal | ENodeRole
| EAlreadyConsumed | EInvalidScope | ETTL | EScopeMismatch | EInvalidCapability | ERoleCount | EUnknownRole
| EInvalidEnrollment | EInvalidRevocation | EEnrollmentCapacity | EDigestCollision | EPrincipalExists
| EPrincipalNotFound | EIssuedRolesDiffer | ERevisionExhausted | EUnavailable | EInvalidLimit | EDirectoryBound
| EConfiguration | EStore (* a failed query or transaction, or a failed event hook *)
| EUnauthorized | ERevoked | EBadRequest | EConflict | ENotFound | EDenied | EResourceExhausted | ECrossTenant
| ERoleDenied.

#[export] Instance error_eq_dec : EqDecision error.
Proof. solve_decision. Defined.

Section tokens.
Context `{Platform}.

Definition validTrustDomain (tenant : string) : bool :=
  if negb (ToLower unicode_lower tenant =s tenant)
     || existsb (fun b => bool_decide (b ∈ [0x2F; 0x3A; 0x40])) (string_bytes tenant) then false
  else forallb valid_domain_label (split_byte 0x2E (string_bytes tenant)).

Definition principalSPIFFEID (tenant workspace : string) (generation : Z) (principal : string)
  : result error string :=
  if negb (validPrincipal principal tenant) || negb (validText workspace 256) || (generation =? 0)
     || negb (validTrustDomain tenant) then Err EInvalidScope
  else Ok ("spiffe://" +:+ tenant +:+ "/ws/" +:+ PathEscape workspace +:+ "/gen/"
           +:+ pretty (Z.to_N generation) +:+ "/principal/" +:+ PathEscape principal)%string.

(** *** Roles *)

Definition trim (s : string) : string := if isASCII s then of_bytes (TrimSpace (string_bytes s)) else unicode_trim s.

(** The loop of [normalizeRoles], with the roles kept so far. *)
Fixpoint normalize_loop (roles out : list string) : result error (list string) :=
  match roles with
  | [] => Ok out
  | role :: t =>
      let role := ToLower unicode_lower (trim role) in
      if bool_decide (role ∈ all_roles) then
        normalize_loop t (if bool_decide (role ∈ out) then out else out ++ [role])
      else Err EUnknownRole
  end.

Definition normalizeRoles (roles : list string) : result error (list string) :=
  if bool_decide (roles = []) || (maxRoles <? Z.of_nat (length roles)) then Err ERoleCount
  else
    let? out := normalize_loop roles [] in
    if bool_decide (out = []) then Err ERoleCount else Ok out.

Definition hasRole (roles : list string) (want : string) : bool := existsb (fun role => role =s want) roles.
Definition hasAnyRole (roles candidates : list string) : bool := existsb (hasRole roles) candidates.

(** *** The manager *)

(** Its key and store are arguments of the model. *)
Record Manager := mkManager {
  issuer : string; audience : string; accessTTL : Z; refreshTTL : Z; sessionTTL : Z; clockSkew : Z;
  maxTokenBytes : Z; maxEnrollments : Z }.

Definition or_default (v d : Z) : Z := if v =? 0 then d else v.

(** [opts] holds the options as given; a zero value asks for the default. *)
Definition New (key_ok : bool) (opts : Manager) : result error Manager :=
  if negb key_ok then Err EConfiguration
  else
    let m := mkManager (if issuer opts =s EmptyString then "remount" else issuer opts)
               (if audience opts =s EmptyString then defaultAudience else audience opts)
               (or_default (accessTTL opts) hour) (or_default (refreshTTL opts) (30 * 24 * hour))
               (or_default (sessionTTL opts) (5 * minute)) (or_default (clockSkew opts) (30 * second))
               (or_default (maxTokenBytes opts) defaultMaxTokenBytes) (or_default (maxEnrollments opts) 10000) in
    if (accessTTL m <? second) || (24 * hour <? accessTTL m) || (refreshTTL m <? second)
       || (90 * 24 * hour <? refreshTTL m) || (sessionTTL m <? second) || (hour <? sessionTTL m)
       || (clockSkew m <? 0) || (5 * minute <? clockSkew m) || (maxTokenBytes m <? 512)
       || (Z.shiftl 1 20 <? maxTokenBytes m) || (maxEnrollments m <? 1) || (1000000 <? maxEnrollments m)
       || negb (validText (issuer m) 512) || negb (validText (audience m) 256) then Err EConfiguration
    else Ok m.

Context (m : Manager).

(** *** Tokens *)

Definition dot : Z := 0x2E.

Definition unsigned (c : Claims) : list Z :=
  b64_encode (marshal_header (mkHeader "EdDSA" "RMT" (issuer m))) ++ dot :: b64_encode (marshal_claims c).

Definition sign (c : Claims) : list Z := unsigned c ++ dot :: b64_encode (ed25519_sign (unsigned c)).

Definition decodeSegment (encoded : list Z) (max : Z) : option (list Z) :=
  if bool_decide (encoded = []) || (EncodedLen max <? Z.of_nat (length encoded)) then None
  else decoded ← b64_decode encoded; if max <? Z.of_nat (length decoded) then None else Some decoded.

(** [strings.Count(token, ".") != 2], then [strings.SplitN]. *)
Definition token_parts (token : list Z) : option (list Z * list Z * list Z) :=
  match split_byte dot token with [h; p; s] => Some (h, p, s) | _ => None end.

Definition parseAndVerify (token : list Z) : result error Claims :=
  if (Z.of_nat (length token) <? 16) || (maxTokenBytes m <? Z.of_nat (length token)) then Err EMalformedToken
  else match token_parts token with
  | None => Err EMalformedToken
  | Some (h, p, s) =>
      match decodeSegment h 2048 with
      | None => Err EMalformedHeader
      | Some header =>
          match unmarshal_header header with
          | None => Err EInvalidHeader
          | Some header =>
              if (Algorithm header <>s "EdDSA") || (Type_ header <>s "RMT") || (Issuer header <>s issuer m)
              then Err EInvalidHeader
              else match b64_decode s with
              | None => Err EBadSignature
              | Some signature =>
                  if negb (Z.of_nat (length signature) =? 64)
                     || negb (ed25519_verify (h ++ dot :: p) signature) then Err EBadSignature
                  else match decodeSegment p (maxTokenBytes m) with
                  | None => Err EMalformedPayload
                  | Some payload =>
                      match unmarshal_claims payload with
                      | None => Err EInvalidClaims
                      | Some c =>
                          if negb (validText (ID c) 128) || negb (validPrincipal (Subject c) (Tenant c))
                             || (Audience c <>s audience m) || (MaxInt64 <? Revision c) then Err EInvalidClaims
                          else match normalizeRoles (Roles c) with
                          | Err _ => Err EInvalidRoles
                          | Ok normalized =>
                              if bool_decide (normalized = Roles c) then Ok c else Err EInvalidRoles
                          end
                      end
                  end
              end
          end
      end
  end.

(** ["enroll_"] and the encoding of 32 bytes *)
Definition enroll_prefix : list Z := string_bytes "enroll_".

Definition validEnrollmentToken (token : list Z) : bool :=
  bool_decide (take (length enroll_prefix) token = enroll_prefix)
  && (Z.of_nat (length token) =? Z.of_nat (length enroll_prefix) + EncodedLen 32)
  && match b64_decode (drop (length enroll_prefix) token) with
     | Some raw => Z.of_nat (length raw) =? 32
     | None => false
     end.

(** *** Authorization *)

Definition ActionRead : string := "read".
Definition ActionWrite : string := "write".
Definition ActionExecute : string := "execute".

Record AuthSubject := mkSubject { SubID : string; SubTenant : string; SubRoles : list string }.
Record Resource := mkResource {
  ResKind : string; ResID : string; ResTenant : string; Owner : string; Readers : list string; Writers : list string }.

Definition Check (subject : AuthSubject) (action : string) (resource : Resource) : result error unit :=
  if ((SubTenant subject =s EmptyString) || (SubTenant subject <>s ResTenant resource))
     && negb ((SubTenant subject =s "*") && hasRole (SubRoles subject) RoleOperator) then Err ECrossTenant
  else if hasRole (SubRoles subject) RoleOperator then Ok tt
  else if hasRole (SubRoles subject) RoleNode && (ResKind resource =s "workspace")
          && ((action =s ActionWrite) || (action =s ActionExecute)) then Ok tt
  else if (action =s ActionRead) && hasAnyRole (SubRoles subject) [RoleViewer; RoleAgent; RoleService]
          && ((SubID subject =s Owner resource) || bool_decide (SubID subject ∈ Readers resource)
              || bool_decide (SubID subject ∈ Writers resource)) then Ok tt
  else if ((action =s ActionWrite) || (action =s ActionExecute))
          && hasAnyRole (SubRoles subject) [RoleAgent; RoleService]
          && ((SubID subject =s Owner resource) || bool_decide (SubID subject ∈ Writers resource)) then Ok tt
  else Err ERoleDenied.
End tokens.

(** ** Stored data *)

Notation labels := (gmap string string).
Notation digest := (list Z).

Record Enrollment := mkEnrollment {
  EnrID : string; Pool : string; EnrTenant : string; EnrIssuedAt : Z; ExpiresAt : Z; Labels : option labels }.

Record NodeBinding := mkBinding {
  NodeID : string; PubKey : list Z; BindPool : string; BindTenant : string; BindLabels : option labels;
  EnrolledAt : Z }.

Record Principal := mkPrincipal {
  PrID : string; PrTenant : string; PrRoles : list string; PrRevision : Z; CreatedAt : Z; UpdatedAt : Z }.

Record Event := mkEvent {
  EvType : string; EvID : string; EvSubject : string; EvTenant : string; EvPool : string; EvRevision : Z;
  Actor : string; EvRoles : list string }.

Definition set_EvRevision (n : Z) (e : Event) : Event :=
  mkEvent (EvType e) (EvID e) (EvSubject e) (EvTenant e) (EvPool e) n (Actor e) (EvRoles e).
Definition set_EvType (t : string) (e : Event) : Event :=
  mkEvent t (EvID e) (EvSubject e) (EvTenant e) (EvPool e) (EvRevision e) (Actor e) (EvRoles e).
Definition set_EvRoles (r : list string) (e : Event) : Event :=
  mkEvent (EvType e) (EvID e) (EvSubject e) (EvTenant e) (EvPool e) (EvRevision e) (Actor e) r.
Definition set_EvPlace (id pool tenant : string) (e : Event) : Event :=
  mkEvent (EvType e) id (EvSubject e) tenant pool (EvRevision e) (Actor e) (EvRoles e).

Definition EvIdentityPrincipalCreated : string := "identity.principal_created".
Definition EvIdentityRolesChanged : string := "identity.roles_changed".
Definition EvIdentityNodeEnrollmentIssued : string := "identity.node_enrollment_issued".
Definition EvNodeEnrolled : string := "node.enrolled".

Definition enrollment_expired (e : Enrollment) : Event :=
  mkEvent "identity.enrollment_expired" (EnrID e) EmptyString (EnrTenant e) (Pool e) 0 EmptyString [].
Definition revocation_expired (id : string) : Event :=
  mkEvent "identity.revocation_expired" id EmptyString EmptyString EmptyString 0 EmptyString [].

(** The labels of an enrolled node: those of its enrollment and where it is. *)
Definition bound_labels (l : option labels) (pool tenant node : string) : labels :=
  <["remount.node" := node]> (<["remount.pool" := pool]>
    (<["tenant" := tenant]> (<["pool" := pool]> (default ∅ l)))).

Definition PublicKeySize : Z := 32.

(** ** The calls of a store *)

Inductive call : Type -> Type :=
| Revoked (id : string) (now : Z) : call (result error bool)
| Revoke (id : string) (expires : Z) (event : Event) : call (result error unit)
| ConsumeRefresh (id : string) (expires : Z) (event : Event) : call (result error bool)
| PutEnrollmentBounded (hash : digest) (enrollment : Enrollment) (max : Z) (event : Event) : call (result error unit)
| EnrollNode (hash : digest) (now : Z) (candidate : NodeBinding) (event : Event)
    : call (result error (NodeBinding * bool * bool))
| PrincipalRevision (tenant subject : string) : call (result error Z)
| RevokePrincipal (tenant subject : string) (now : Z) (event : Event) : call (result error Z)
| RevokePrincipalWith (tenant subject : string) (now : Z) (event : Event) (commit : bool) : call (result error Z)
| CreatePrincipal (principal : Principal) (event : Event) : call (result error Principal)
| GetPrincipal (tenant subject : string) : call (result error Principal)
| ListPrincipals (tenant : string) : call (result error (list Principal))
| UpsertPrincipalRoles (principal : Principal) (event : Event) : call (result error (Principal * bool))
| CollectExpired (now limit : Z) : call (result error (Z * Z)).

(** What a call depends on besides the store: the wall clock, whether its
    query or transaction fails, and the order in which tables are scanned. *)
Record env := mkEnv { wall : Z; fault : bool; id_order : list string; digest_order : list digest }.

Definition scan {K A} `{Countable K} (order : list K) (table : gmap K A) : list (K * A) :=
  omap (fun k => (fun a => (k, a)) <$> table !! k) (remove_dups order).

Class Store (S : Type) := store_do : forall {A}, env -> call A -> S -> A * S.

(** ** MemoryStore *)

Record MemoryStore := mkMemory {
  revoked : gmap string Z; enrollments : gmap digest Enrollment; nodes : gmap string NodeBinding;
  events : list Event; principalRevisions : gmap string Z; principals : gmap string Principal }.

Definition NewMemoryStore : MemoryStore := mkMemory ∅ ∅ ∅ [] ∅ ∅.


Definition key (tenant subject : string) : string := (tenant +:+ String "000" subject)%string.

Definition revision_of (s : MemoryStore) (k : string) : Z := default 0 (principalRevisions s !! k).

Definition with_revision (n : Z) (p : Principal) : Principal :=
  mkPrincipal (PrID p) (PrTenant p) (PrRoles p) n (CreatedAt p) (UpdatedAt p).

Definition set_revoked (r : gmap string Z) (ev : list Event) (s : MemoryStore) : MemoryStore :=
  mkMemory r (enrollments s) (nodes s) ev (principalRevisions s) (principals s).
Definition set_enrollments (e : gmap digest Enrollment) (ev : list Event) (s : MemoryStore) : MemoryStore :=
  mkMemory (revoked s) e (nodes s) ev (principalRevisions s) (principals s).
Definition set_principals (p : gmap string Principal) (r : gmap string Z) (ev : list Event) (s : MemoryStore) : MemoryStore :=
  mkMemory (revoked s) (enrollments s) (nodes s) ev r p.

Definition Memory_CreatePrincipal (principal : Principal) (event : Event) (s : MemoryStore) : result error Principal * MemoryStore :=
  let k := key (PrTenant principal) (PrID principal) in
  match principals s !! k with
  | Some _ => (Err EPrincipalExists, s)
  | None => (Ok principal,
      set_principals (<[k := principal]> (principals s)) (principalRevisions s) (events s ++ [event]) s)
  end.

Definition Memory_GetPrincipal (tenant subject : string) (s : MemoryStore) : result error Principal * MemoryStore :=
  let k := key tenant subject in
  match principals s !! k with
  | None => (Err EPrincipalNotFound, s)
  | Some p => (Ok (with_revision (revision_of s k) p), s)
  end.

Definition Memory_ListPrincipals (tenant : string) (s : MemoryStore) : result error (list Principal) * MemoryStore :=
  (Ok (sort_by (fun a b => String.ltb (PrID a) (PrID b))
         (omap (fun kp : string * Principal =>
                  if PrTenant kp.2 =s tenant then Some (with_revision (revision_of s kp.1) kp.2) else None)
            (map_to_list (principals s)))), s).

Definition Memory_UpsertPrincipalRoles (principal : Principal) (event : Event) (s : MemoryStore)
  : result error (Principal * bool) * MemoryStore :=
  let k := key (PrTenant principal) (PrID principal) in
  let current := principals s !! k in
  match current with
  | Some cur =>
      if bool_decide (PrRoles cur = PrRoles principal) then (Ok (with_revision (revision_of s k) cur, false), s)
      else
        let revisions := <[k := u64 (revision_of s k + 1)]> (principalRevisions s) in
        let p := mkPrincipal (PrID principal) (PrTenant principal) (PrRoles principal)
                   (u64 (revision_of s k + 1)) (CreatedAt cur) (UpdatedAt principal) in
        (Ok (p, true), set_principals (<[k := p]> (principals s)) revisions
                         (events s ++ [set_EvRevision (PrRevision p) event]) s)
  | None =>
      let p := with_revision (revision_of s k) principal in
      (Ok (p, true), set_principals (<[k := p]> (principals s)) (principalRevisions s)
                       (events s ++ [set_EvRevision (PrRevision p) (set_EvType EvIdentityPrincipalCreated event)]) s)
  end.

Definition Memory_RevokePrincipal (tenant subject : string) (event : Event) (s : MemoryStore) : result error Z * MemoryStore :=
  let k := key tenant subject in
  let current := revision_of s k in
  if current =? MaxInt64 then (Err ERevisionExhausted, s)
  else
    let current := current + 1 in
    (Ok current, set_principals (principals s) (<[k := current]> (principalRevisions s))
                   (events s ++ [set_EvRevision current event]) s).

Definition Memory_Revoked (id : string) (now : Z) (s : MemoryStore) : result error bool * MemoryStore :=
  match revoked s !! id with
  | Some expires => if negb (now <? expires) then (Ok false, set_revoked (delete id (revoked s)) (events s) s)
                    else (Ok true, s)
  | None => (Ok false, s)
  end.

Definition Memory_Revoke (id : string) (expires : Z) (event : Event) (s : MemoryStore) : result error unit * MemoryStore :=
  match revoked s !! id with
  | Some existing =>
      if negb (existing <? expires) then (Ok tt, s)
      else (Ok tt, set_revoked (<[id := expires]> (revoked s)) (events s ++ [event]) s)
  | None => (Ok tt, set_revoked (<[id := expires]> (revoked s)) (events s ++ [event]) s)
  end.

Definition Memory_ConsumeRefresh (id : string) (expires : Z) (event : Event) (s : MemoryStore) : result error bool * MemoryStore :=
  match revoked s !! id with
  | Some _ => (Ok false, s)
  | None => (Ok true, set_revoked (<[id := expires]> (revoked s)) (events s ++ [event]) s)
  end.

Definition expired_at (now : Z) (e : Enrollment) : bool := negb (now <? ExpiresAt e).

Definition Memory_PutEnrollmentBounded (hash : digest) (enrollment : Enrollment) (max : Z) (event : Event) (s : MemoryStore)
  : result error unit * MemoryStore :=
  let old := filter (fun kv => expired_at (EnrIssuedAt enrollment) kv.2 = true) (map_to_list (enrollments s)) in
  let live := filter (fun kv => expired_at (EnrIssuedAt enrollment) kv.2 = false) (enrollments s) in
  let s := set_enrollments live (events s ++ map (fun kv => enrollment_expired kv.2) old) s in
  if max <=? Z.of_nat (size live) then (Err EEnrollmentCapacity, s)
  else match live !! hash with
  | Some _ => (Err EDigestCollision, s)
  | None => (Ok tt, set_enrollments (<[hash := enrollment]> live) (events s ++ [event]) s)
  end.

Definition Memory_EnrollNode (hash : digest) (now : Z) (candidate : NodeBinding) (event : Event) (s : MemoryStore)
  : result error (NodeBinding * bool * bool) * MemoryStore :=
  let none := mkBinding EmptyString [] EmptyString EmptyString None 0 in
  match nodes s !! NodeID candidate with
  | Some existing => (Ok (existing, false, true), s)
  | None =>
      if (NodeID candidate =s EmptyString) || negb (Z.of_nat (length (PubKey candidate)) =? PublicKeySize)
      then (Ok (none, false, false), s)
      else match enrollments s !! hash with
      | None => (Ok (none, false, false), s)
      | Some e =>
          let rest := delete hash (enrollments s) in
          if expired_at now e then
            (Ok (none, false, false), set_enrollments rest (events s ++ [enrollment_expired e]) s)
          else
            let b := mkBinding (NodeID candidate) (PubKey candidate) (Pool e) (EnrTenant e)
                       (Some (bound_labels (Labels e) (Pool e) (EnrTenant e) (NodeID candidate)))
                       (EnrolledAt candidate) in
            (Ok (b, true, true),
             mkMemory (revoked s) rest (<[NodeID candidate := b]> (nodes s))
               (events s ++ [set_EvPlace (EvID event) (Pool e) (EnrTenant e) event])
               (principalRevisions s) (principals s))
      end
  end.

(** The two loops of [CollectExpired]; [n] counts removals of both. *)
Fixpoint collect_revoked (now limit : Z) (order : list string) (n : Z) (s : MemoryStore) : Z * MemoryStore :=
  match order with
  | [] => (n, s)
  | id :: t =>
      if limit <=? n then (n, s)
      else match revoked s !! id with
      | Some expiry =>
          if negb (now <? expiry)
          then collect_revoked now limit t (n + 1)
                 (set_revoked (delete id (revoked s)) (events s ++ [revocation_expired id]) s)
          else collect_revoked now limit t n s
      | None => collect_revoked now limit t n s
      end
  end.

Fixpoint collect_enrollments (now limit : Z) (order : list digest) (n : Z) (s : MemoryStore) : Z * MemoryStore :=
  match order with
  | [] => (n, s)
  | h :: t =>
      if limit <=? n then (n, s)
      else match enrollments s !! h with
      | Some e =>
          if expired_at now e
          then collect_enrollments now limit t (n + 1)
                 (set_enrollments (delete h (enrollments s)) (events s ++ [enrollment_expired e]) s)
          else collect_enrollments now limit t n s
      | None => collect_enrollments now limit t n s
      end
  end.

Definition Memory_CollectExpired (now limit : Z) (ids : list string) (hashes : list digest) (s : MemoryStore)
  : result error (Z * Z) * MemoryStore :=
  if (limit <? 1) || (10000 <? limit) then (Err EInvalidLimit, s)
  else
    let '(r, s) := collect_revoked now limit ids 0 s in
    let '(n, s) := collect_enrollments now limit hashes r s in
    (Ok (r, n - r), s).


#[export] Instance memory_store : Store MemoryStore := fun A e c s =>
  match c in call A return A * MemoryStore with
  | Revoked id now => Memory_Revoked id now s
  | Revoke id expires event => Memory_Revoke id expires event s
  | ConsumeRefresh id expires event => Memory_ConsumeRefresh id expires event s
  | PutEnrollmentBounded hash enrollment max event => Memory_PutEnrollmentBounded hash enrollment max event s
  | EnrollNode hash now candidate event => Memory_EnrollNode hash now candidate event s
  | PrincipalRevision tenant subject => (Ok (revision_of s (key tenant subject)), s)
  | RevokePrincipal tenant subject _ event => Memory_RevokePrincipal tenant subject event s
  | RevokePrincipalWith _ _ _ _ _ => (Err EUnavailable, s)
  | CreatePrincipal principal event => Memory_CreatePrincipal principal event s
  | GetPrincipal tenant subject => Memory_GetPrincipal tenant subject s
  | ListPrincipals tenant => Memory_ListPrincipals tenant s
  | UpsertPrincipalRoles principal event => Memory_UpsertPrincipalRoles principal event s
  | CollectExpired now limit => Memory_CollectExpired now limit (id_order e) (digest_order e) s
  end.

(** ** SQLiteStore

    One table per field; instants are stored in seconds.  [revoked_at] is never
    read back and left out.  A transaction that fails leaves the tables alone,
    and its events are emitted with it. *)

Record PrincipalRow := mkRow { RowRoles : list string; RowCreated : Z; RowUpdated : Z }.

Record SQLiteStore := mkSQLite {
  identity_revocations : gmap string Z;
  identity_principal_revisions : gmap (string * string) Z;
  identity_principals : gmap (string * string) PrincipalRow;
  identity_enrollments : gmap digest Enrollment;
  identity_enrollment_labels : gmap digest (option labels);
  identity_nodes : gmap string NodeBinding;
  outbox : list Event }.

Definition NewSQLiteStore : SQLiteStore := mkSQLite ∅ ∅ ∅ ∅ ∅ ∅ [].

Section sqlite.
Context `{Platform}.

Definition set_revocations (r : gmap string Z) (ev : list Event) (s : SQLiteStore) : SQLiteStore :=
  mkSQLite r (identity_principal_revisions s) (identity_principals s) (identity_enrollments s)
    (identity_enrollment_labels s) (identity_nodes s) (outbox s ++ ev).
Definition set_directory (r : gmap (string * string) Z) (p : gmap (string * string) PrincipalRow) (ev : list Event)
    (s : SQLiteStore) : SQLiteStore :=
  mkSQLite (identity_revocations s) r p (identity_enrollments s) (identity_enrollment_labels s) (identity_nodes s)
    (outbox s ++ ev).
Definition set_enrollment_tables (e : gmap digest Enrollment) (l : gmap digest (option labels)) (ev : list Event)
    (s : SQLiteStore) : SQLiteStore :=
  mkSQLite (identity_revocations s) (identity_principal_revisions s) (identity_principals s) e l (identity_nodes s)
    (outbox s ++ ev).

Definition SQLite_PrincipalRevision (e : env) (tenant subject : string) (s : SQLiteStore) : result error Z * SQLiteStore :=
  if fault e then (Err EStore, s)
  else match identity_principal_revisions s !! (tenant, subject) with
  | None => (Ok 0, s)
  | Some revision => if revision <? 0 then (Err EStore, s) else (Ok revision, s)
  end.

Definition SQLite_RevokePrincipalWith (e : env) (tenant subject : string) (event : Event) (commit : bool)
    (s : SQLiteStore) : result error Z * SQLiteStore :=
  if fault e then (Err EStore, s)
  else
    let current := default 0 (identity_principal_revisions s !! (tenant, subject)) in
    if (current <? 0) || (current =? MaxInt64) then (Err ERevisionExhausted, s)
    else
      let current := current + 1 in
      if negb commit then (Err EStore, s)
      else (Ok current, set_directory (<[(tenant, subject) := current]> (identity_principal_revisions s))
                          (identity_principals s) [set_EvRevision current event] s).

(** The query and the delete of an expired row that may follow it. *)
Definition SQLite_Revoked (e : env) (id : string) (now : Z) (s : SQLiteStore) : result error bool * SQLiteStore :=
  if fault e then (Err EStore, s)
  else match identity_revocations s !! id with
  | None => (Ok false, s)
  | Some expires =>
      if now <? of_unix expires then (Ok true, s)
      else if expires <=? Unix now
      then (Ok false, set_revocations (delete id (identity_revocations s)) [revocation_expired id] s)
      else (Ok false, s)
  end.

(** [time.Time{}.Unix()] *)
Definition zero_unix : Z := -62135596800.

Definition invalid_record (id : string) (expires : Z) : bool :=
  (id =s EmptyString) || (expires =? of_unix zero_unix).

Definition SQLite_Revoke (e : env) (id : string) (expires : Z) (event : Event) (s : SQLiteStore)
  : result error unit * SQLiteStore :=
  if invalid_record id expires then (Err EInvalidRevocation, s)
  else if fault e then (Err EStore, s)
  else match identity_revocations s !! id with
  | Some existing =>
      if Unix expires <=? existing then (Ok tt, s)
      else (Ok tt, set_revocations (<[id := Z.max existing (Unix expires)]> (identity_revocations s)) [event] s)
  | None => (Ok tt, set_revocations (<[id := Unix expires]> (identity_revocations s)) [event] s)
  end.

Definition SQLite_ConsumeRefresh (e : env) (id : string) (expires : Z) (event : Event) (s : SQLiteStore)
  : result error bool * SQLiteStore :=
  if invalid_record id expires then (Err EInvalidRevocation, s)
  else if fault e then (Err EStore, s)
  else match identity_revocations s !! id with
  | Some _ => (Ok false, s)
  | None => (Ok true, set_revocations (<[id := Unix expires]> (identity_revocations s)) [event] s)
  end.

(** [SELECT ... WHERE expires_at<=? ORDER BY expires_at LIMIT ?] *)
Definition expired_enrollments (e : env) (now limit : Z) (s : SQLiteStore) : list (digest * Enrollment) :=
  take (Z.to_nat limit) (sort_by (fun a b => ExpiresAt a.2 <? ExpiresAt b.2)
    (filter (fun kv => ExpiresAt kv.2 <= Unix now) (scan (digest_order e) (identity_enrollments s)))).

Definition drop_enrollments (old : list (digest * Enrollment)) (s : SQLiteStore) : SQLiteStore :=
  foldl (fun s (kv : digest * Enrollment) =>
           set_enrollment_tables (delete kv.1 (identity_enrollments s)) (delete kv.1 (identity_enrollment_labels s))
             [enrollment_expired kv.2] s) s old.

Definition SQLite_PutEnrollmentBounded (e : env) (hash : digest) (enrollment : Enrollment) (max : Z) (event : Event)
    (s0 : SQLiteStore) : result error unit * SQLiteStore :=
  if fault e then (Err EStore, s0)
  else
    let s := drop_enrollments (expired_enrollments e (EnrIssuedAt enrollment) 128 s0) s0 in
    if max <=? Z.of_nat (size (identity_enrollments s)) then (Err EEnrollmentCapacity, s)
    else match identity_enrollments s !! hash, identity_enrollment_labels s !! hash with
    | None, None =>
        (Ok tt, set_enrollment_tables
                  (<[hash := mkEnrollment (EnrID enrollment) (Pool enrollment) (EnrTenant enrollment)
                               (Unix (EnrIssuedAt enrollment)) (Unix (ExpiresAt enrollment)) None]>
                     (identity_enrollments s))
                  (<[hash := Labels enrollment]> (identity_enrollment_labels s)) [event] s)
    | _, _ => (Err EStore, s0)
    end.

Definition SQLite_EnrollNode (e : env) (hash : digest) (now : Z) (candidate : NodeBinding) (event : Event)
    (s : SQLiteStore) : result error (NodeBinding * bool * bool) * SQLiteStore :=
  let none := mkBinding EmptyString [] EmptyString EmptyString None 0 in
  if fault e then (Err EStore, s)
  else match identity_nodes s !! NodeID candidate with
  | Some row =>
      (Ok (mkBinding (NodeID row) (PubKey row) (BindPool row) (BindTenant row) (BindLabels row)
             (of_unix (EnrolledAt row)), false, bool_decide (PubKey row = PubKey candidate)), s)
  | None =>
      if (NodeID candidate =s EmptyString) || negb (Z.of_nat (length (PubKey candidate)) =? PublicKeySize)
      then (Ok (none, false, false), s)
      else match identity_enrollments s !! hash with
      | None => (Ok (none, false, false), s)
      | Some enrollment =>
          let rest := delete hash (identity_enrollments s) in
          let rest_labels := delete hash (identity_enrollment_labels s) in
          if negb (now <? of_unix (ExpiresAt enrollment)) then
            (Ok (none, false, false), set_enrollment_tables rest rest_labels [enrollment_expired enrollment] s)
          else
            let l := bound_labels (default None (identity_enrollment_labels s !! hash)) (Pool enrollment)
                       (EnrTenant enrollment) (NodeID candidate) in
            let b at_ := mkBinding (NodeID candidate) (PubKey candidate) (Pool enrollment) (EnrTenant enrollment)
                           (Some l) at_ in
            (Ok (b now, true, true),
             mkSQLite (identity_revocations s) (identity_principal_revisions s) (identity_principals s) rest
               rest_labels (<[NodeID candidate := b (Unix now)]> (identity_nodes s))
               (outbox s ++ [set_EvPlace (NodeID candidate) (Pool enrollment) (EnrTenant enrollment) event]))
      end
  end.

Definition SQLite_CollectExpired (e : env) (now limit : Z) (s : SQLiteStore) : result error (Z * Z) * SQLiteStore :=
  if (limit <? 1) || (10000 <? limit) then (Err EInvalidLimit, s)
  else if fault e then (Err EStore, s)
  else
    let ids := take (Z.to_nat limit) (map fst (sort_by (fun a b => a.2 <? b.2)
                 (filter (fun kv => kv.2 <= Unix now) (scan (id_order e) (identity_revocations s))))) in
    let s := foldl (fun s id => set_revocations (delete id (identity_revocations s)) [revocation_expired id] s) s ids in
    let removed := Z.of_nat (length ids) in
    let remaining := limit - removed in
    if remaining =? 0 then (Ok (removed, 0), s)
    else
      let old := expired_enrollments e now remaining s in
      (Ok (removed, Z.of_nat (length old)), drop_enrollments old s).

Definition SQLite_CreatePrincipal (e : env) (principal : Principal) (event : Event) (s : SQLiteStore)
  : result error Principal * SQLiteStore :=
  match normalizeRoles (PrRoles principal) with
  | Err _ => (Err EInvalidPrincipal, s)
  | Ok roles =>
      if negb (validPrincipal (PrID principal) (PrTenant principal)) then (Err EInvalidPrincipal, s)
      else
        let '(created, updated) :=
          if (CreatedAt principal =? 0) || (UpdatedAt principal =? 0) then (UnixMilli (wall e), UnixMilli (wall e))
          else (CreatedAt principal, UpdatedAt principal) in
        let k := (PrTenant principal, PrID principal) in
        if fault e then (Err EStore, s)
        else match identity_principals s !! k with
        | Some _ => (Err EPrincipalExists, s)
        | None =>
            (Ok (mkPrincipal (PrID principal) (PrTenant principal) roles 0 created updated),
             set_directory (match identity_principal_revisions s !! k with
                            | Some _ => identity_principal_revisions s
                            | None => <[k := 0]> (identity_principal_revisions s)
                            end) (<[k := mkRow roles created updated]> (identity_principals s)) [event] s)
        end
  end.

Definition row_principal (s : SQLiteStore) (k : string * string) (row : PrincipalRow) : Principal :=
  mkPrincipal k.2 k.1 (RowRoles row) (default 0 (identity_principal_revisions s !! k)) (RowCreated row) (RowUpdated row).

Definition SQLite_GetPrincipal (e : env) (tenant subject : string) (s : SQLiteStore) : result error Principal * SQLiteStore :=
  if fault e then (Err EStore, s)
  else match identity_principals s !! (tenant, subject) with
  | None => (Err EPrincipalNotFound, s)
  | Some row =>
      let p := row_principal s (tenant, subject) row in
      if PrRevision p <? 0 then (Err EStore, s) else (Ok p, s)
  end.

Definition SQLite_ListPrincipals (e : env) (tenant : string) (s : SQLiteStore)
  : result error (list Principal) * SQLiteStore :=
  if fault e then (Err EStore, s)
  else
    let rows := take 10001 (sort_by (fun a b => String.ltb (PrID a) (PrID b))
                  (omap (fun kr : string * string * PrincipalRow =>
                           if kr.1.1 =s tenant then Some (row_principal s kr.1 kr.2) else None)
                     (map_to_list (identity_principals s)))) in
    if existsb (fun p => PrRevision p <? 0) rows then (Err EStore, s)
    else if 10000 <? Z.of_nat (length rows) then (Err EDirectoryBound, s) else (Ok rows, s).

(** An assignment that is already there is returned as it was asked for. *)
Definition SQLite_UpsertPrincipalRoles (e : env) (principal : Principal) (event : Event) (s : SQLiteStore)
  : result error (Principal * bool) * SQLiteStore :=
  match normalizeRoles (PrRoles principal) with
  | Err _ => (Err EInvalidPrincipal, s)
  | Ok roles =>
      if negb (validPrincipal (PrID principal) (PrTenant principal)) then (Err EInvalidPrincipal, s)
      else
        let updated := if UpdatedAt principal =? 0 then UnixMilli (wall e) else UpdatedAt principal in
        let created := if CreatedAt principal =? 0 then updated else CreatedAt principal in
        let k := (PrTenant principal, PrID principal) in
        let answer revision created := mkPrincipal (PrID principal) (PrTenant principal) roles revision created updated in
        if fault e then (Err EStore, s)
        else match identity_principals s !! k with
        | Some row =>
            if bool_decide (RowRoles row = roles) then (Ok (answer (PrRevision principal) created, false), s)
            else
              let revision := match identity_principal_revisions s !! k with Some n => n + 1 | None => 1 end in
              if MaxInt64 <? revision then (Err EStore, s)
              else
                (Ok (answer revision (RowCreated row), true),
                 set_directory (<[k := revision]> (identity_principal_revisions s))
                   (<[k := mkRow roles (RowCreated row) updated]> (identity_principals s))
                   [set_EvRoles roles (set_EvRevision revision event)] s)
        | None =>
            let revision := default 0 (identity_principal_revisions s !! k) in
            (Ok (answer revision created, true),
             set_directory (<[k := revision]> (identity_principal_revisions s))
               (<[k := mkRow roles created updated]> (identity_principals s))
               [set_EvRoles roles (set_EvRevision revision (set_EvType EvIdentityPrincipalCreated event))] s)
        end
  end.

#[export] Instance sqlite_store : Store SQLiteStore := fun A e c s =>
  match c in call A return A * SQLiteStore with
  | Revoked id now => SQLite_Revoked e id now s
  | Revoke id expires event => SQLite_Revoke e id expires event s
  | ConsumeRefresh id expires event => SQLite_ConsumeRefresh e id expires event s
  | PutEnrollmentBounded hash enrollment max event => SQLite_PutEnrollmentBounded e hash enrollment max event s
  | EnrollNode hash now candidate event => SQLite_EnrollNode e hash now candidate event s
  | PrincipalRevision tenant subject => SQLite_PrincipalRevision e tenant subject s
  | RevokePrincipal tenant subject _ event => SQLite_RevokePrincipalWith e tenant subject event true s
  | RevokePrincipalWith tenant subject _ event commit => SQLite_RevokePrincipalWith e tenant subject event commit s
  | CreatePrincipal principal event => SQLite_CreatePrincipal e principal event s
  | GetPrincipal tenant subject => SQLite_GetPrincipal e tenant subject s
  | ListPrincipals tenant => SQLite_ListPrincipals e tenant s
  | UpsertPrincipalRoles principal event => SQLite_UpsertPrincipalRoles e principal event s
  | CollectExpired now limit => SQLite_CollectExpired e now limit s
  end.
End sqlite.

(** ** Programs over a store

    [Ask] is one call of the store, [Clock] a reading of [m.now], [Sign] the
    signature of claims under a new token id, [Emit] the event hook, which may
    fail, [Random] the entropy of an enrollment token and its id. *)

Inductive prog (A : Type) : Type :=
| Ret (a : A)
| Ask {B} (c : call B) (k : B -> prog A)
| Clock (k : Z -> prog A)
| Sign (c : string -> Claims) (k : list Z -> prog A)
| Emit (k : bool -> prog A)
| Random (k : option (list Z) -> string -> prog A).
Arguments Ret {A} a.
Arguments Ask {A B} c k.
Arguments Clock {A} k.
Arguments Sign {A} c k.
Arguments Emit {A} k.
Arguments Random {A} k.

Fixpoint bind {A B} (p : prog A) (f : A -> prog B) : prog B :=
  match p with
  | Ret a => f a
  | Ask c k => Ask c (fun b => bind (k b) f)
  | Clock k => Clock (fun t => bind (k t) f)
  | Sign c k => Sign c (fun t => bind (k t) f)
  | Emit k => Emit (fun b => bind (k b) f)
  | Random k => Random (fun r id => bind (k r id) f)
  end.

Definition fail {A} (e : error) : prog (result error A) := Ret (Err e).

(** Sequence two fallible steps. *)
Definition bind_ok {A B} (p : prog (result error A)) (f : A -> prog (result error B)) : prog (result error B) :=
  bind p (fun r => match r with Ok a => f a | Err e => fail e end).

Notation "'do' x <- p ;; k" := (bind_ok p (fun x => k)) (at level 60, x binder, p at next level, right associativity).

Definition ask {A} (c : call (result error A)) : prog (result error A) := Ask c Ret.

(** ** The operations of the manager *)

Section manager.
Context `{Platform} (m : Manager).

Definition lifetime (c : Claims) : Z := i64 (Expires c - IssuedAt c).

Definition maxTTL (kind : string) : Z :=
  if kind =s kindRefresh then refreshTTL m else if kind =s kindSession then sessionTTL m else accessTTL m.

(** The condition of [verify] on claims whose signature holds. *)
Definition fresh_claims (now : Z) (kind : string) (c : Claims) : bool :=
  (Kind c =s kind) && (Audience c =s audience m) && (IssuedAt c <? Expires c) && (0 <? lifetime c)
  && (lifetime c <=? maxTTL kind / second) && (now <? of_unix (Expires c) + clockSkew m)
  && negb (now + clockSkew m <? of_unix (IssuedAt c)).

Definition verify (token : list Z) (kind : string) : prog (result error Claims) :=
  Clock (fun now =>
  match parseAndVerify m token with
  | Err _ => fail EInvalidToken
  | Ok c =>
      if negb (fresh_claims now kind c) then fail EInvalidToken
      else Clock (fun now =>
      Ask (Revoked (ID c) now) (fun r =>
      match r with
      | Ok false =>
          Ask (PrincipalRevision (Tenant c) (Subject c)) (fun r =>
          match r with
          | Ok revision => if revision =? Revision c then Ret (Ok c) else fail EPrincipalRevoked
          | Err _ => fail EPrincipalRevoked
          end)
      | _ => fail ERevokedToken
      end))
  end).

Definition new_principal (tenant subject : string) (roles : list string) (now : Z) : Principal :=
  mkPrincipal subject tenant roles 0 (UnixMilli now) (UnixMilli now).

Definition ensurePrincipalRoles (subject tenant : string) (roles : list string) : prog (result error unit) :=
  Ask (GetPrincipal tenant subject) (fun r =>
  match r with
  | Ok principal => if bool_decide (PrRoles principal = roles) then Ret (Ok tt) else fail EIssuedRolesDiffer
  | Err EPrincipalNotFound =>
      Clock (fun now =>
      Ask (CreatePrincipal (new_principal tenant subject roles now)
             (mkEvent EvIdentityPrincipalCreated EmptyString subject tenant EmptyString 0 subject roles)) (fun r =>
      match r with
      | Err EPrincipalExists =>
          Ask (GetPrincipal tenant subject) (fun r =>
          match r with
          | Ok _ => Ret (Ok tt) (* also when the roles differ: the error returned is then nil *)
          | Err e => fail e
          end)
      | Err e => fail e
      | Ok _ => Ret (Ok tt)
      end))
  | Err e => fail e
  end).

(** Claims of a token that is not bound to a workspace. *)
Definition plain_claims (subject tenant : string) (roles : list string) (kind : string) (revision issued expires : Z)
    (id : string) : Claims :=
  mkClaims id subject tenant roles kind (audience m) revision EmptyString EmptyString 0 issued expires.

Definition IssueTokens (subject tenant : string) (roles : list string) : prog (result error (list Z * list Z)) :=
  match normalizeRoles roles with
  | Err _ => fail EInvalidPrincipal
  | Ok roles =>
      if negb (validPrincipal subject tenant) then fail EInvalidPrincipal
      else if hasRole roles RoleNode then fail ENodeRole
      else
        do _ <- ensurePrincipalRoles subject tenant roles ;;
        Clock (fun now =>
        do revision <- ask (PrincipalRevision tenant subject) ;;
        Sign (plain_claims subject tenant roles kindAccess revision (Unix now) (Unix (now + accessTTL m))) (fun access =>
        Sign (plain_claims subject tenant roles kindRefresh revision (Unix now) (Unix (now + refreshTTL m))) (fun refresh =>
        Emit (fun ok => if ok then Ret (Ok (access, refresh)) else fail EStore))))
  end.

Definition Refresh (token : list Z) : prog (result error (list Z)) :=
  do c <- verify token kindRefresh ;;
  Clock (fun now =>
  Sign (plain_claims (Subject c) (Tenant c) (Roles c) kindAccess (Revision c) (Unix now) (Unix (now + accessTTL m)))
    (fun access => Ret (Ok access))).

Definition RotateRefresh (token : list Z) : prog (result error (list Z * list Z)) :=
  do c <- verify token kindRefresh ;;
  do consumed <- ask (ConsumeRefresh (ID c) (of_unix (Expires c))
                        (mkEvent "identity.refresh_rotated" (ID c) (Subject c) (Tenant c) EmptyString 0 EmptyString [])) ;;
  if negb consumed then fail EAlreadyConsumed
  else IssueTokens (Subject c) (Tenant c) (Roles c).

(** *** Session capabilities *)

Record SessionCapability := mkCapability {
  CapPrincipal : string; CapTenant : string; CapRoles : list string; CapWorkspace : string; CapGeneration : Z;
  CapSPIFFEID : string; CapExpiresAt : Z; CapRevision : Z }.

Definition IssueSessionCapability (subject tenant : string) (roles : list string) (workspace : string)
    (generation ttl : Z) : prog (result error (list Z)) :=
  match normalizeRoles roles with
  | Err _ => fail EInvalidScope
  | Ok roles =>
      if negb (validPrincipal subject tenant) || negb (validText workspace 256) || (generation =? 0)
      then fail EInvalidScope
      else
        let ttl := if ttl =? 0 then sessionTTL m else ttl in
        if (ttl <=? 0) || (sessionTTL m <? ttl) then fail ETTL
        else match principalSPIFFEID tenant workspace generation subject with
        | Err e => fail e
        | Ok spiffe =>
            do revision <- ask (PrincipalRevision tenant subject) ;;
            Clock (fun now =>
            Sign (fun id => mkClaims id subject tenant roles kindSession (audience m) revision spiffe workspace
                              generation (Unix now) (Unix (now + ttl)))
              (fun token => Ret (Ok token)))
        end
  end.

Definition VerifySessionCapability (token : list Z) : prog (result error SessionCapability) :=
  do c <- verify token kindSession ;;
  match principalSPIFFEID (Tenant c) (Workspace c) (Generation c) (Subject c) with
  | Err _ => fail EInvalidCapability
  | Ok expected =>
      if SPIFFEID c <>s expected then fail EInvalidCapability
      else Ret (Ok (mkCapability (Subject c) (Tenant c) (Roles c) (Workspace c) (Generation c) (SPIFFEID c)
                      (of_unix (Expires c)) (Revision c)))
  end.

Definition VerifySessionCapabilityFor (token : list Z) (tenant workspace : string) (generation : Z)
  : prog (result error SessionCapability) :=
  do c <- VerifySessionCapability token ;;
  if (CapTenant c <>s tenant) || (CapWorkspace c <>s workspace) || negb (CapGeneration c =? generation)
  then fail EScopeMismatch else Ret (Ok c).

Definition VerifyBrokerCapability (token : list Z) (tenant workspace : string) (generation : Z)
  : prog (result error (AuthSubject * string * Z)) :=
  do c <- VerifySessionCapabilityFor token tenant workspace generation ;;
  Ret (Ok (mkSubject (CapPrincipal c) (CapTenant c) (CapRoles c), CapWorkspace c, CapGeneration c)).

(** *** Revocation *)

Definition revoked_event (subject tenant : string) : Event :=
  mkEvent "identity.principal_revoked" EmptyString subject tenant EmptyString 0 EmptyString [].

Definition RevokePrincipal_ (tenant subject : string) : prog (result error Z) :=
  if negb (validPrincipal subject tenant) then fail EInvalidPrincipal
  else Clock (fun now => ask (RevokePrincipal tenant subject now (revoked_event subject tenant))).

(** [commit] is the outcome of the callback, which writes in the transaction. *)
Definition RevokePrincipalWith_ (tenant subject : string) (commit : bool) : prog (result error Z) :=
  if negb (validPrincipal subject tenant) then fail EInvalidPrincipal
  else Clock (fun now => ask (RevokePrincipalWith tenant subject now (revoked_event subject tenant) commit)).

Definition Revoke_ (token : list Z) : prog (result error unit) :=
  match parseAndVerify m token with
  | Err e => fail e
  | Ok c => ask (Revoke (ID c) (of_unix (Expires c))
                   (mkEvent "identity.revoked" (ID c) (Subject c) (Tenant c) EmptyString 0 EmptyString []))
  end.

(** *** Clients *)

Definition roles_live (roles assigned : list string) : bool := forallb (fun role => bool_decide (role ∈ assigned)) roles.

Definition Authenticate (token : list Z) (as_client : bool) : prog (result error AuthSubject) :=
  bind (verify token kindAccess) (fun r =>
  match r with
  | Err _ => fail EUnauthorized
  | Ok c =>
      let subject := mkSubject (Subject c) (Tenant c) (Roles c) in
      if as_client && hasRole (Roles c) RoleNode then fail EUnauthorized
      else if hasRole (Roles c) RoleNode then Ret (Ok subject)
      else Ask (GetPrincipal (Tenant c) (Subject c)) (fun r =>
      match r with
      | Err _ => fail EUnauthorized
      | Ok principal =>
          if negb (PrRevision principal =? Revision c) || negb (roles_live (Roles c) (PrRoles principal))
          then fail EUnauthorized else Ret (Ok subject)
      end)
  end).

(** *** Enrollment *)

Definition enrollment_invalid (pool tenant : string) (l : option labels) (ttl : Z) : bool :=
  negb (validText pool 256) || negb (validText tenant 253) || (ttl <? second) || (10 * minute <? ttl)
  || negb (validLabels (default ∅ l)).

Definition hash_token (token : list Z) : digest := Sha256.Sum256 token.

Definition issueEnrollmentAs (pool tenant : string) (l : option labels) (ttl : Z) (eventType actor : string)
  : prog (result error (list Z * Z)) :=
  if enrollment_invalid pool tenant l ttl then fail EInvalidEnrollment
  else Random (fun raw id =>
  match raw with
  | None => fail EStore
  | Some raw =>
      let token := enroll_prefix ++ b64_encode raw in
      Clock (fun now =>
      let enrollment := mkEnrollment id pool tenant now (now + ttl) l in
      do _ <- ask (PutEnrollmentBounded (hash_token token) enrollment (maxEnrollments m)
                     (mkEvent eventType id EmptyString tenant pool 0 actor [])) ;;
      Ret (Ok (token, ExpiresAt enrollment)))
  end).

Definition issueEnrollment (pool tenant : string) (l : option labels) (ttl : Z) : prog (result error (list Z)) :=
  do r <- issueEnrollmentAs pool tenant l ttl "identity.enrollment_issued" EmptyString ;; Ret (Ok r.1).

Definition IssueNodeEnrollment (pool tenant : string) (l : option labels) (ttl : Z) (actor : string)
  : prog (result error (list Z * Z)) :=
  if enrollment_invalid pool tenant l ttl then fail EBadRequest
  else bind (issueEnrollmentAs pool tenant l ttl EvIdentityNodeEnrollmentIssued actor) (fun r =>
  match r with
  | Err EEnrollmentCapacity => fail EResourceExhausted
  | r => Ret r
  end).

Record NodeIdentity := mkNodeIdentity {
  NITenant : string; NIPool : string; NILabels : option labels; Fresh : bool; Token : list Z }.

Definition valid_node_hello (nodeID : string) (pubKey : list Z) : bool :=
  String.prefix "n_" nodeID && validText nodeID 128 && (Z.of_nat (length pubKey) =? PublicKeySize).

Definition AuthenticateNode (nodeID : string) (token pubKey : list Z) : prog (result error NodeIdentity) :=
  if negb (valid_node_hello nodeID pubKey) then fail EUnauthorized
  else
    let hash := if validEnrollmentToken token then hash_token token else replicate 32 0 in
    Clock (fun at_ => Clock (fun now =>
    do r <- ask (EnrollNode hash now (mkBinding nodeID pubKey EmptyString EmptyString None at_)
                   (mkEvent EvNodeEnrolled nodeID EmptyString EmptyString EmptyString 0 EmptyString [])) ;;
    let '(binding, fresh, ok) := r in
    if negb ok || negb (bool_decide (PubKey binding = pubKey)) then fail ERevoked
    else Clock (fun now =>
    Sign (plain_claims nodeID (BindTenant binding) [RoleNode] kindAccess 0 (Unix now) (Unix (now + accessTTL m)))
      (fun access =>
      Ret (Ok (mkNodeIdentity (BindTenant binding) (BindPool binding) (BindLabels binding) fresh access)))))).

(** *** The principal directory *)

Definition CreatePrincipal_ (tenant subject : string) (roles : list string) (actor : string)
  : prog (result error Principal) :=
  match normalizeRoles roles with
  | Err _ => fail EInvalidPrincipal
  | Ok roles =>
      if negb (validPrincipal subject tenant) || negb (validText actor 256) || bool_decide (RoleNode ∈ roles)
      then fail EInvalidPrincipal
      else Clock (fun now =>
      Ask (CreatePrincipal (new_principal tenant subject roles now)
             (mkEvent EvIdentityPrincipalCreated EmptyString subject tenant EmptyString 0 actor roles)) (fun r =>
      match r with
      | Err EPrincipalExists => fail EConflict
      | r => Ret r
      end))
  end.

Definition ListPrincipals_ (tenant : string) : prog (result error (list Principal)) :=
  if negb (validText tenant 253) then fail EInvalidPrincipal else ask (ListPrincipals tenant).

Definition IssueAccessToken (tenant subject role : string) (ttl : Z) : prog (result error (list Z * Z)) :=
  match normalizeRoles [role] with
  | Err _ => fail ETTL
  | Ok roles =>
      if bool_decide (RoleNode ∈ roles) || (ttl <? second) then fail ETTL
      else if accessTTL m <? ttl then fail ETTL
      else Ask (GetPrincipal tenant subject) (fun r =>
      match r with
      | Err EPrincipalNotFound => fail ENotFound
      | Err e => fail e
      | Ok principal =>
          if negb (bool_decide (default EmptyString (head roles) ∈ PrRoles principal)) then fail EDenied
          else Clock (fun now =>
          Sign (plain_claims subject tenant roles kindAccess (PrRevision principal) (Unix now) (Unix (now + ttl)))
            (fun token => Emit (fun ok => if ok then Ret (Ok (token, now + ttl)) else fail EStore)))
      end)
  end.

Definition SyncOIDCPrincipal (tenant subject : string) (roles : list string) : prog (result error Principal) :=
  match normalizeRoles roles with
  | Err _ => fail EInvalidPrincipal
  | Ok roles =>
      if negb (validPrincipal subject tenant) || bool_decide (RoleNode ∈ roles) then fail EInvalidPrincipal
      else Clock (fun now =>
      do r <- ask (UpsertPrincipalRoles (new_principal tenant subject roles now)
                     (mkEvent EvIdentityRolesChanged EmptyString subject tenant EmptyString 0
                        ("oidc:" +:+ subject)%string roles)) ;;
      Ret (Ok r.1))
  end.
End manager.
End Identity.
