(* ===== verification/IdentityProofs.v ===== *)
(** * Identity: tokens and the authority the stores implement

    What a token is worth: [parseAndVerify] inverts [sign], and reads from
    whatever verifies under the deployment's key only claims that were signed.
    Then the contract of a store ([StoreLaws]), which both stores meet, and a
    program logic for the operations of the manager ([wp]), which reads and
    writes the store only through that contract while others do the same. *)

From Stdlib Require Import ZArith Lia Strings.String Strings.Ascii.
From stdpp Require Import base gmap strings option list pretty.
From S2P Require Import Prelude GoStd Identity.
#[local] Open Scope Z_scope.
#[local] Open Scope remount_scope.

Module IdentityProofs.
Import GoStd Identity.

(** ** Base64 *)

Lemma digit_check (f : Z -> bool) : forallb f (seqZ 0 64) = true -> forall n, 0 <= n < 64 -> f n = true.
Proof. intros Hf n Hn. rewrite forallb_forall in Hf. apply Hf, list_elem_of_In, elem_of_seqZ. lia. Qed.

Lemma b64_val_char n : 0 <= n < 64 -> b64_val (b64_char n) = Some n.
Proof.
  intros Hn. pose proof (digit_check (fun n => bool_decide (b64_val (b64_char n) = Some n)) eq_refl n Hn) as Hc.
  by apply bool_decide_eq_true in Hc.
Qed.

Lemma b64_char_plain n : 0 <= n < 64 -> b64_char n <> dot /\ b64_char n <> 0x0A /\ b64_char n <> 0x0D.
Proof.
  intros Hn. pose proof (digit_check (fun n => bool_decide (b64_char n <> dot /\ b64_char n <> 0x0A /\ b64_char n <> 0x0D))
    eq_refl n Hn) as Hc. by apply bool_decide_eq_true in Hc.
Qed.

(** The digits an encoding is made of. *)
Fixpoint b64_digits (l : list Z) : list Z :=
  match l with
  | [] => []
  | [a] => [a / 4; a mod 4 * 16]
  | [a; b] => [a / 4; a mod 4 * 16 + b / 16; b mod 16 * 4]
  | a :: b :: c :: t => a / 4 :: a mod 4 * 16 + b / 16 :: b mod 16 * 4 + c / 64 :: c mod 64 :: b64_digits t
  end.

Lemma list_ind3 {A} (P : list A -> Prop) :
  P [] -> (forall a, P [a]) -> (forall a b, P [a; b]) -> (forall a b c t, P t -> P (a :: b :: c :: t)) -> forall l, P l.
Proof.
  intros H0 H1 H2 H3. enough (forall l, P l /\ (forall a, P (a :: l)) /\ forall a b, P (a :: b :: l)) by (intros l; apply H).
  induction l as [|x l (IH0 & IH1 & IH2)]; [eauto|]. split_and!; eauto.
Qed.

Lemma b64_encode_digits l : b64_encode l = map b64_char (b64_digits l).
Proof. induction l as [|a|a b|a b c t IH] using list_ind3; cbn; [done..|]. by rewrite IH. Qed.

Lemma b64_digits_range l : bytes_ok l -> Forall (fun d => 0 <= d < 64) (b64_digits l).
Proof.
  induction l as [|a|a b|a b c t IH] using list_ind3; cbn; intros H; unfold bytes_ok in H; decompose_Forall_hyps;
    repeat apply Forall_cons_2; try apply Forall_nil_2; try (by apply IH); try done;
    Z.div_mod_to_equations; lia.
Qed.

Lemma b64_quanta_digits l : bytes_ok l -> b64_quanta (b64_digits l) = Some l.
Proof.
  induction l as [|a|a b|a b c t IH] using list_ind3; cbn [b64_digits b64_quanta]; intros H; unfold bytes_ok in H;
    decompose_Forall_hyps; [done|..]; [| |rewrite IH by done; cbn];
    apply (f_equal Some); repeat (apply (f_equal2 cons); [Z.div_mod_to_equations; lia|]); done.
Qed.

Lemma b64_decode_encode l : bytes_ok l -> b64_decode (b64_encode l) = Some l.
Proof.
  intros Hl. rewrite b64_encode_digits. unfold b64_decode.
  pose proof (b64_digits_range l Hl) as Hd.
  assert (Hf : filter (fun c => c ≠ 0x0A ∧ c ≠ 0x0D) (map b64_char (b64_digits l)) = map b64_char (b64_digits l)).
  { induction Hd as [|d t Hd _ IH]; [done|]. cbn [map]. rewrite filter_cons_True by by apply b64_char_plain in Hd as (_ & ? & ?).
    by rewrite IH. }
  rewrite Hf. assert (Hm : mapM b64_val (map b64_char (b64_digits l)) = Some (b64_digits l)).
  { clear Hf. induction Hd as [|d t Hd _ IH]; [done|]. cbn. by rewrite b64_val_char, IH by done. }
  rewrite Hm. cbn. by apply b64_quanta_digits.
Qed.

Lemma b64_encode_plain l : bytes_ok l -> Forall (fun c => c <> dot) (b64_encode l).
Proof.
  intros Hl%b64_digits_range. rewrite b64_encode_digits. apply Forall_fmap.
  eapply Forall_impl; [exact Hl|]. intros d Hd. by apply b64_char_plain in Hd as [? _].
Qed.

Lemma length_b64_encode l : Z.of_nat (length (b64_encode l)) = EncodedLen (Z.of_nat (length l)).
Proof.
  unfold EncodedLen. induction l as [|a|a b|a b c t IH] using list_ind3; cbn [b64_encode length]; [done..|].
  rewrite !Nat2Z.inj_succ, IH. Z.div_mod_to_equations. lia.
Qed.

Lemma EncodedLen_mono a b : 0 <= a <= b -> EncodedLen a <= EncodedLen b.
Proof. unfold EncodedLen. intros. Z.div_mod_to_equations. lia. Qed.

(** ** Splitting *)

Lemma split_byte_plain sep a b :
  Forall (fun c => c <> sep) a -> split_byte sep (a ++ sep :: b) = a :: split_byte sep b.
Proof.
  induction 1 as [|c a Hc _ IH]; cbn; [by rewrite Z.eqb_refl|].
  destruct (Z.eqb_spec c sep); [done|]. by rewrite IH.
Qed.

Lemma split_byte_last sep a : Forall (fun c => c <> sep) a -> split_byte sep a = [a].
Proof.
  induction 1 as [|c a Hc _ IH]; cbn; [done|]. destruct (Z.eqb_spec c sep); [done|]. by rewrite IH.
Qed.

Lemma split_byte_nonempty sep l : split_byte sep l <> [].
Proof. destruct l as [|b t]; cbn; [done|]. by repeat case_match. Qed.

(** The parts, joined again. *)
Lemma split_byte_join sep l p ps :
  split_byte sep l = p :: ps ->
  Forall (fun c => c <> sep) p /\ match ps with [] => l = p | _ => exists t, l = p ++ sep :: t /\ split_byte sep t = ps end.
Proof.
  revert p ps. induction l as [|b l IH]; cbn; intros p ps; [by intros [= <- <-]|].
  destruct (Z.eqb_spec b sep) as [-> |Hb].
  - intros [= <- <-]. split; [done|]. pose proof (split_byte_nonempty sep l). destruct (split_byte sep l) eqn:E; [done|].
    eauto.
  - pose proof (split_byte_nonempty sep l). destruct (split_byte sep l) as [|q qs] eqn:E; [done|]. intros [= <- <-].
    destruct (IH _ _ eq_refl) as [Hp Hr]. split; [by constructor|]. destruct qs; [by subst|].
    destruct Hr as (t & -> & Ht). by exists t.
Qed.

Lemma token_parts_join token h p s :
  token_parts token = Some (h, p, s) ->
  token = h ++ dot :: p ++ dot :: s /\ Forall (fun c => c <> dot) h /\ Forall (fun c => c <> dot) p /\ Forall (fun c => c <> dot) s.
Proof.
  unfold token_parts. destruct (split_byte dot token) as [|h' [|p' [|s' [|]]]] eqn:E; try done. intros [= -> -> ->].
  apply split_byte_join in E as (Hh & t & -> & E). apply split_byte_join in E as (Hp & t' & -> & E).
  apply split_byte_join in E as [Hs ->]. done.
Qed.

(** ** Roles *)

Section roles.
Context `{Platform}.

Definition normal_roles (roles : list string) : Prop :=
  roles <> [] /\ NoDup roles /\ Forall (fun r => r ∈ all_roles) roles.

Lemma role_fixed r : r ∈ all_roles -> ToLower unicode_lower (trim r) = r.
Proof.
  unfold all_roles. rewrite !elem_of_cons, elem_of_nil. intros Hr. destruct_or!; subst; by vm_compute.
Qed.

Lemma normalize_loop_normal roles out out' :
  normalize_loop roles out = Ok out' -> NoDup out -> Forall (fun r => r ∈ all_roles) out ->
  NoDup out' /\ Forall (fun r => r ∈ all_roles) out'.
Proof.
  revert out. induction roles as [|r roles IH]; cbn; intros out; [by intros [= ->]|].
  set (r' := ToLower unicode_lower (trim r)). destruct (bool_decide_reflect (r' ∈ all_roles)) as [Hr|]; [|done].
  destruct (bool_decide_reflect (r' ∈ out)) as [|Hn]; intros Hl Hd Hf; [by eapply IH|].
  eapply IH; [exact Hl| |by apply Forall_app_2; [|apply Forall_singleton]].
  apply NoDup_app. split_and!; [done| |apply NoDup_singleton]. intros x Hx ->%list_elem_of_singleton. done.
Qed.

Lemma normalize_loop_fixed roles out :
  Forall (fun r => r ∈ all_roles) roles -> NoDup (out ++ roles) -> normalize_loop roles out = Ok (out ++ roles).
Proof.
  revert out. induction roles as [|r roles IH]; cbn; intros out Hf Hd; [by rewrite app_nil_r|].
  apply Forall_cons_1 in Hf as [Hr Hf]. rewrite role_fixed by done.
  rewrite bool_decide_true by done. rewrite bool_decide_false.
  - rewrite IH; [by rewrite <-app_assoc|done|by rewrite <-app_assoc].
  - intros Hin. apply NoDup_app in Hd as (_ & Hd & _). apply (Hd r Hin), list_elem_of_here.
Qed.

Lemma normalizeRoles_normal roles out : normalizeRoles roles = Ok out -> normal_roles out.
Proof.
  unfold normalizeRoles. destruct (_ || _); [done|]. destruct (normalize_loop roles []) as [out'|] eqn:E; cbn; [|done].
  case_bool_decide; [done|]. intros [= <-].
  destruct (normalize_loop_normal _ _ _ E) as [? ?]; [apply NoDup_nil_2|done|]. by split_and!.
Qed.

Lemma normal_roles_length roles : normal_roles roles -> (length roles <= 5)%nat.
Proof.
  intros (_ & Hd & Hf). change 5%nat with (length all_roles). apply submseteq_length, NoDup_submseteq; [done|].
  by rewrite Forall_forall in Hf.
Qed.

Lemma normalizeRoles_fixed roles : normal_roles roles -> normalizeRoles roles = Ok roles.
Proof.
  intros Hn. pose proof (normal_roles_length roles Hn) as Hl. destruct Hn as (Hne & Hd & Hf).
  unfold normalizeRoles. rewrite (bool_decide_false (roles = [])) by done. cbn.
  destruct (Z.ltb_spec maxRoles (Z.of_nat (length roles))) as [Hlt|_]; [unfold maxRoles in Hlt; lia|].
  rewrite normalize_loop_fixed by done. cbn. by rewrite bool_decide_false.
Qed.

Lemma hasRole_elem roles r : hasRole roles r = true <-> r ∈ roles.
Proof.
  unfold hasRole. rewrite existsb_exists. setoid_rewrite str_eqb_eq. setoid_rewrite <-list_elem_of_In.
  split; [by intros (x & Hx & ->)|eauto].
Qed.

Lemma hasRole_false roles r : hasRole roles r = false <-> r ∉ roles.
Proof. rewrite <-hasRole_elem. by destruct (hasRole roles r). Qed.
End roles.

Lemma validText_utf8 s n : validText s n = true -> utf8 s.
Proof. unfold validText, utf8. destruct (_ || _); [done|]. destruct (runes s); [eauto|done]. Qed.

(** ** Tokens *)

Section tokens.
Context `{Platform} {L : PlatformLaws} (m : Manager).

(** What every issued token carries. *)
Record claims_ok (c : Claims) : Prop := {
  ok_id : validText (ID c) 128 = true;
  ok_principal : validPrincipal (Subject c) (Tenant c) = true;
  ok_audience : Audience c = audience m;
  ok_revision : 0 <= Revision c <= MaxInt64;
  ok_roles : normal_roles (Roles c);
  ok_kind : utf8 (Kind c); ok_spiffe : utf8 (SPIFFEID c); ok_workspace : utf8 (Workspace c);
  ok_generation : 0 <= Generation c < 2 ^ 64;
  ok_times : - 2 ^ 63 <= IssuedAt c < 2 ^ 63 /\ - 2 ^ 63 <= Expires c < 2 ^ 63 }.

(** A manager made by [New]. *)
Definition manager_ok : Prop := exists opts, New true opts = Ok m.

Lemma manager_texts : manager_ok -> validText (issuer m) 512 = true /\ validText (audience m) 256 = true.
Proof.
  intros [opts He]. unfold New in He. cbn [negb] in He. match type of He with (if ?b then _ else _) = _ => destruct b eqn:Eb end; [done|].
  injection He as <-. rewrite !orb_false_iff, !negb_false_iff in Eb. tauto.
Qed.

Lemma manager_bounds : manager_ok ->
  second <= accessTTL m <= 24 * hour /\ second <= refreshTTL m <= 90 * 24 * hour /\
  second <= sessionTTL m <= hour /\ 0 <= clockSkew m <= 5 * minute /\ 1 <= maxEnrollments m.
Proof.
  intros [opts He]. unfold New in He. cbn [negb] in He. match type of He with (if ?b then _ else _) = _ => destruct b eqn:Eb end; [done|].
  injection He as <-. rewrite !orb_false_iff, !Z.ltb_ge in Eb. cbn -[Z.mul hour minute second or_default]. tauto.
Qed.

Lemma role_utf8 r : r ∈ all_roles -> utf8 r.
Proof. unfold all_roles, utf8. rewrite !elem_of_cons, elem_of_nil. intros Hr. destruct_or!; subst; by eexists. Qed.

Lemma claims_ok_roundtrip c : manager_ok -> claims_ok c -> unmarshal_claims (marshal_claims c) = Some c.
Proof.
  intros [_ Ha]%manager_texts []. unfold validPrincipal in ok_principal0. apply andb_true_iff in ok_principal0 as [? ?].
  apply claims_roundtrip.
  - split_and!; try done; try (by eapply validText_utf8); [|by rewrite ok_audience0; eapply validText_utf8].
    destruct ok_roles0 as (_ & _ & Hf). eapply Forall_impl; [exact Hf|]. apply role_utf8.
  - unfold claims_range. unfold MaxInt64 in *. lia.
Qed.

Lemma parse_inv token c :
  parseAndVerify m token = Ok c ->
  exists h p s signature payload,
    token_parts token = Some (h, p, s) /\ b64_decode s = Some signature /\
    ed25519_verify (h ++ dot :: p) signature = true /\
    b64_decode p = Some payload /\ unmarshal_claims payload = Some c /\
    validText (ID c) 128 = true /\ validPrincipal (Subject c) (Tenant c) = true /\ Audience c = audience m /\
    normal_roles (Roles c).
Proof.
  unfold parseAndVerify. destruct (_ || _); [done|]. destruct (token_parts token) as [[[h p] s]|]; [|done].
  destruct (decodeSegment h 2048) as [hb|]; [|done]. destruct (unmarshal_header hb) as [hd|]; [|done].
  destruct (_ || _); [done|]. destruct (b64_decode s) as [sg|] eqn:Es; [|done].
  destruct (negb _ || _) eqn:Ev; [done|]. apply orb_false_elim in Ev as [_ Ev%negb_false_iff].
  destruct (decodeSegment p _) as [pl|] eqn:Ep; [|done]. destruct (unmarshal_claims pl) as [c'|] eqn:Eu; [|done].
  destruct (negb _ || _ || _ || _) eqn:Ec; [done|]. rewrite !orb_false_iff, !negb_false_iff in Ec.
  destruct Ec as (((Hid & Hp) & Ha) & _). apply str_eqb_eq in Ha.
  destruct (normalizeRoles (Roles c')) as [r|] eqn:Er; [|done]. case_bool_decide as Hr; [|done]. intros [= <-].
  assert (Hb : b64_decode p = Some pl).
  { revert Ep. unfold decodeSegment. destruct (_ || _); [done|]. destruct (b64_decode p); cbn; [|done].
    by destruct (_ <? _). }
  exists h, p, s, sg, pl. split_and!; try done. rewrite <-Hr. by eapply normalizeRoles_normal.
Qed.

Lemma no_dot_split (a a' b b' : list Z) :
  Forall (fun c => c <> dot) a -> Forall (fun c => c <> dot) a' -> a ++ dot :: b = a' ++ dot :: b' -> a = a' /\ b = b'.
Proof.
  intros Ha Ha' He. pose proof (f_equal (split_byte dot) He) as Hs. rewrite !split_byte_plain in Hs by done.
  injection Hs as -> _. by apply app_inv_head in He as [= ->].
Qed.

(** Whoever holds a token has it from the deployment: what verifies under its
    key was signed with it. *)
Definition genuine (signed : list Claims) (token : list Z) : Prop :=
  forall h p s signature, token_parts token = Some (h, p, s) -> b64_decode s = Some signature ->
    ed25519_verify (h ++ dot :: p) signature = true -> exists c, c ∈ signed /\ h ++ dot :: p = unsigned m c.

Lemma genuine_parse signed token c :
  manager_ok -> genuine signed token -> Forall claims_ok signed -> parseAndVerify m token = Ok c -> c ∈ signed.
Proof.
  intros Hm Hg Hs Hp. apply parse_inv in Hp as (h & p & s & sg & pl & Ht & Hsg & Hv & Hd & Hu & _).
  destruct (Hg _ _ _ _ Ht Hsg Hv) as (c' & Hin & He). rewrite Forall_forall in Hs. specialize (Hs c' Hin).
  apply token_parts_join in Ht as (_ & Hh & Hpp & _). unfold unsigned in He.
  apply no_dot_split in He as [_ ->]; [|done|apply b64_encode_plain, header_bytes].
  rewrite b64_decode_encode in Hd by apply claims_bytes. injection Hd as <-.
  rewrite claims_ok_roundtrip in Hu by done. by injection Hu as ->.
Qed.

(** The token of [c] is short enough to be read back. *)
Definition fits (c : Claims) : Prop :=
  Z.of_nat (length (sign m c)) <= maxTokenBytes m /\
  Z.of_nat (length (marshal_header (mkHeader "EdDSA" "RMT" (issuer m)))) <= 2048.

Lemma b64_encode_nonempty l : l <> [] -> b64_encode l <> [].
Proof. destruct l as [|a [|b [|c t]]]; cbn; done. Qed.

Lemma decodeSegment_encode l max :
  bytes_ok l -> l <> [] -> Z.of_nat (length l) <= max -> decodeSegment (b64_encode l) max = Some l.
Proof.
  intros Hb Hne Hl. unfold decodeSegment. rewrite bool_decide_false by by apply b64_encode_nonempty.
  rewrite length_b64_encode. cbn.
  assert (EncodedLen (Z.of_nat (length l)) <= EncodedLen max) by (apply EncodedLen_mono; lia).
  destruct (Z.ltb_spec (EncodedLen max) (EncodedLen (Z.of_nat (length l)))); [lia|].
  rewrite b64_decode_encode by done. cbn. destruct (Z.ltb_spec max (Z.of_nat (length l))); [lia|done].
Qed.

Lemma length_encode_le l : Z.of_nat (length l) <= Z.of_nat (length (b64_encode l)).
Proof. rewrite length_b64_encode. unfold EncodedLen. Z.div_mod_to_equations. lia. Qed.

Lemma token_parts_sign c :
  token_parts (sign m c) = Some (b64_encode (marshal_header (mkHeader "EdDSA" "RMT" (issuer m))),
    b64_encode (marshal_claims c), b64_encode (ed25519_sign (unsigned m c))).
Proof.
  unfold token_parts, sign, unsigned at 1. rewrite <-app_assoc. cbn [app].
  rewrite split_byte_plain by apply b64_encode_plain, header_bytes.
  rewrite split_byte_plain by apply b64_encode_plain, claims_bytes.
  by rewrite split_byte_last by apply b64_encode_plain, signature_bytes.
Qed.

Lemma parse_sign c : manager_ok -> claims_ok c -> fits c -> parseAndVerify m (sign m c) = Ok c.
Proof.
  intros Hm Hc [Hmax Hh]. pose proof (claims_ok_roundtrip c Hm Hc) as Hr. apply manager_texts in Hm as [Hiss _].
  assert (Hlen : 86 <= Z.of_nat (length (sign m c)) /\
    Z.of_nat (length (marshal_claims c)) <= Z.of_nat (length (sign m c))).
  { unfold sign. assert (Hu : Z.of_nat (length (marshal_claims c)) <= Z.of_nat (length (unsigned m c))).
    { unfold unsigned. rewrite length_app. cbn [length]. pose proof (length_encode_le (marshal_claims c)). lia. }
    rewrite !length_app. cbn [length].
    pose proof (length_b64_encode (ed25519_sign (unsigned m c))) as Hs.
    rewrite signature_size in Hs. change (EncodedLen (Z.of_nat 64)) with 86 in Hs. lia. }
  unfold parseAndVerify. rewrite (proj2 (orb_false_iff _ _)) by (split; apply Z.ltb_ge; lia).
  rewrite token_parts_sign. rewrite decodeSegment_encode; [|apply header_bytes|apply header_nonempty|done].
  rewrite header_roundtrip; [|by eexists|by eexists|by eapply validText_utf8]. cbn [Algorithm Type_ Issuer].
  rewrite !str_eqb_refl. cbn [negb orb]. rewrite b64_decode_encode by apply signature_bytes.
  rewrite signature_size. change (Z.of_nat 64 =? 64) with true. cbn [negb orb].
  change (b64_encode (marshal_header (mkHeader "EdDSA" "RMT" (issuer m))) ++ dot :: b64_encode (marshal_claims c))
    with (unsigned m c). rewrite signature_verifies. cbn [negb].
  rewrite decodeSegment_encode; [|apply claims_bytes|apply claims_nonempty|lia]. rewrite Hr.
  destruct Hc. rewrite ok_id0, ok_principal0, ok_audience0, str_eqb_refl. cbn [negb orb].
  destruct (Z.ltb_spec MaxInt64 (Revision c)); [lia|]. rewrite normalizeRoles_fixed by done.
  by rewrite bool_decide_true.
Qed.
End tokens.

(** ** The contract of a store *)

(** What an unused enrollment grants. *)
Record Grant := mkGrant { GPool : string; GTenant : string; GLabels : option labels; GExpires : Z }.

(** What a bound node is. *)
Record Bound := mkBound { BKey : list Z; BPool : string; BTenant : string; BLabels : option labels }.

Definition bound (b : NodeBinding) : Bound := mkBound (PubKey b) (BindPool b) (BindTenant b) (BindLabels b).

(** The authority a store keeps, whatever its tables are. *)
Record View := mkView {
  spent : string -> option Z;                       (* token id to the instant it is kept until *)
  rev : string -> string -> Z;                      (* tenant and subject to revision *)
  dir : string -> string -> option (list string);   (* assigned roles *)
  grant : digest -> option Grant;
  live : Z;                                         (* how many enrollments are kept *)
  bnd : string -> option Bound }.

(** Revisions stay below their maximum. *)
Definition headroom (v : View) : Prop := forall t s, 0 <= rev v t s < MaxInt64.

(** The instant up to which a call may forget spent tokens. *)
Definition call_time {A} (c : call A) : option Z :=
  match c with Revoked _ now => Some now | CollectExpired now _ => Some now | _ => None end.

Definition puts {A} (c : call A) (h : digest) : Prop :=
  match c with PutEnrollmentBounded hash _ _ _ => h = hash | _ => False end.

Definition capacity {A} (c : call A) : Z :=
  match c with PutEnrollmentBounded _ _ max _ => max | _ => 0 end.

(** The principal the call may add to the directory. *)
Definition assigns {A} (c : call A) (t s : string) : Prop :=
  match c with
  | CreatePrincipal p _ | UpsertPrincipalRoles p _ =>
      validPrincipal (PrID p) (PrTenant p) = true -> t = PrTenant p /\ s = PrID p
  | _ => False
  end.

(** The digest and node of an enrollment the call used up. *)
Definition uses {A} (c : call A) : A -> option (digest * string) :=
  match c in call A return A -> option (digest * string) with
  | EnrollNode hash _ candidate _ => fun r =>
      match r with Ok (_, true, true) => Some (hash, NodeID candidate) | _ => None end
  | _ => fun _ => None
  end.

(** Authority only moves forward: revisions grow, an assignment changes only
    under a new revision, and a node keeps the key it was bound to. *)
Record view_le (v v' : View) : Prop := {
  le_rev t s : rev v t s <= rev v' t s;
  le_dir t s r : dir v t s = Some r -> exists r', dir v' t s = Some r' /\ (r' <> r -> rev v t s < rev v' t s);
  le_bnd id b : bnd v id = Some b -> bnd v' id = Some b }.

(** What a call does to the parts that shrink. *)
Record call_frame {A} (c : call A) (v : View) (a : A) (v' : View) : Prop := {
  fr_spent id e : spent v id = Some e ->
    (exists e', spent v' id = Some e' /\ e <= e') \/ exists t, call_time c = Some t /\ e <= t;
  fr_grant h : grant v' h = grant v h \/ grant v' h = None \/ puts c h;
  fr_bnd id : bnd v' id = bnd v id \/ exists h, uses c a = Some (h, id) /\ bnd v id = None;
  fr_dir t s : is_Some (dir v' t s) -> is_Some (dir v t s) \/ assigns c t s;
  fr_live : live v' <= Z.max (live v) (capacity c) }.

(** What its answer means. *)
Definition answers {A} (c : call A) (v : View) : A -> View -> Prop :=
  match c in call A return A -> View -> Prop with
  | Revoked id now => fun r _ =>
      match r with Ok b => b = match spent v id with Some e => now <? e | None => false end | Err _ => True end
  | Revoke id expires _ => fun r v' =>
      match r with Ok _ => (second | expires) -> exists e, spent v' id = Some e /\ expires <= e | Err _ => True end
  | ConsumeRefresh id expires _ => fun r v' =>
      match r with
      | Ok true => spent v id = None /\ ((second | expires) -> spent v' id = Some expires)
      | Ok false => spent v id <> None
      | Err _ => True
      end
  | PutEnrollmentBounded hash e _ _ => fun r v' =>
      match r with
      | Ok _ => exists until, until <= ExpiresAt e /\
          grant v' hash = Some (mkGrant (Pool e) (EnrTenant e) (Labels e) until)
      | Err _ => grant v' hash = grant v hash \/ grant v' hash = None
      end
  | EnrollNode hash now candidate _ => fun r v' =>
      match r with
      | Ok (b, true, true) => bnd v (NodeID candidate) = None /\ bnd v' (NodeID candidate) = Some (bound b) /\
          grant v' hash = None /\ exists g, grant v hash = Some g /\ now < GExpires g /\
          bound b = mkBound (PubKey candidate) (GPool g) (GTenant g)
                      (Some (bound_labels (GLabels g) (GPool g) (GTenant g) (NodeID candidate)))
      | Ok (b, false, true) => bnd v (NodeID candidate) = Some (bound b)
      | _ => True
      end
  | PrincipalRevision t s => fun r _ => match r with Ok n => n = rev v t s | Err _ => True end
  | RevokePrincipal t s _ _ => fun r v' =>
      match r with Ok n => n = rev v t s + 1 /\ rev v' t s = n | Err _ => True end
  | RevokePrincipalWith t s _ _ _ => fun r v' =>
      match r with Ok n => n = rev v t s + 1 /\ rev v' t s = n | Err _ => True end
  | CreatePrincipal p _ => fun r v' =>
      match r with
      | Ok q => dir v (PrTenant p) (PrID p) = None /\ dir v' (PrTenant p) (PrID p) = Some (PrRoles q)
      | Err _ => True
      end
  | GetPrincipal t s => fun r _ =>
      match r with Ok p => dir v t s = Some (PrRoles p) /\ PrRevision p = rev v t s | Err _ => True end
  | UpsertPrincipalRoles p _ => fun r v' =>
      match r with Ok (q, _) => dir v' (PrTenant p) (PrID p) = Some (PrRoles q) | Err _ => True end
  | ListPrincipals _ => fun _ _ => True
  | CollectExpired _ _ => fun _ _ => True
  end.

Class StoreLaws (S : Type) `{Store S} := {
  view : S -> View;
  store_law {A} e (c : call A) s a s' : headroom (view s) -> store_do e c s = (a, s') ->
    view_le (view s) (view s') /\ call_frame c (view s) a (view s') /\ answers c (view s) a (view s') }.

#[export] Instance view_le_preorder : PreOrder view_le.
Proof.
  split.
  - intros v. split; [done| |done]. intros t s r Hr. exists r. split; [done|]. done.
  - intros v1 v2 v3 H1 H2. split.
    + intros t s. etrans; [apply H1|apply H2].
    + intros t s r Hr. destruct (le_dir _ _ H1 t s r Hr) as (r2 & Hr2 & Hn2).
      destruct (le_dir _ _ H2 t s r2 Hr2) as (r3 & Hr3 & Hn3). exists r3. split; [done|]. intros Hne.
      pose proof (le_rev _ _ H1 t s). pose proof (le_rev _ _ H2 t s).
      destruct (decide (r3 = r2)) as [-> |Hne3]; [specialize (Hn2 Hne); lia|specialize (Hn3 Hne3); lia].
    + intros id b Hb. by apply H2, H1.
Qed.

(** Calls that leave the store as it is. *)
Lemma frame_refl {A} (c : call A) a v : call_frame c v a v.
Proof. split; [intros id e He; left; by exists e|auto|auto|auto|lia]. Qed.

Lemma quiet {A} (c : call A) a v : answers c v a v -> view_le v v /\ call_frame c v a v /\ answers c v a v.
Proof. intros. split_and!; [reflexivity|apply frame_refl|done]. Qed.

(** A call that first spends tokens and then drops enrollments. *)
Lemma frame_then {A B} (c : call A) a v1 v2 v3 (c' : call B) b :
  call_frame c v1 a v2 -> call_frame c' v2 b v3 ->
  (forall id e, spent v2 id = Some e -> spent v3 id = Some e) -> (forall h, ~ puts c' h) -> capacity c' = 0 ->
  (forall id, bnd v3 id = bnd v2 id) -> (forall t s, dir v3 t s = dir v2 t s) -> 0 <= live v1 -> call_frame c v1 a v3.
Proof.
  intros H1 H2 Hs Hp Hc Hb Hd Hl. split.
  - intros id e He. destruct (fr_spent _ _ _ _ H1 id e He) as [(e' & He' & Hle)|?]; [left; exists e'; split; [by apply Hs|done]|by right].
  - intros h. destruct (fr_grant _ _ _ _ H2 h) as [->|[->|Hx]]; [apply H1|by right; left|by apply Hp in Hx].
  - intros id. rewrite Hb. apply H1.
  - intros t s. rewrite Hd. apply H1.
  - pose proof (fr_live _ _ _ _ H1). pose proof (fr_live _ _ _ _ H2). lia.
Qed.

(** ** The memory store *)

Lemma three (P Q R : Prop) : (P /\ Q) /\ R -> P /\ Q /\ R.
Proof. tauto. Qed.

(** The parts a call leaves alone. *)
Ltac kept := try done; try (by eauto); try lia; try (let x := fresh in let Hx := fresh in intros ? ? x Hx; exists x; by split); try (intros; by left);
  try (let x := fresh in let Hx := fresh in intros ? x Hx; left; exists x; by split).

Section memory.

Definition grant_of (e : Enrollment) : Grant := mkGrant (Pool e) (EnrTenant e) (Labels e) (ExpiresAt e).

Definition memory_view (s : MemoryStore) : View :=
  mkView (fun id => revoked s !! id) (fun t u => revision_of s (key t u))
    (fun t u => PrRoles <$> principals s !! key t u)
    (fun h => grant_of <$> enrollments s !! h) (Z.of_nat (size (enrollments s)))
    (fun id => bound <$> nodes s !! id).

Implicit Types (s : MemoryStore).

(** A change of the spent tokens alone. *)
Lemma memory_spent {A} (c : call A) a s r ev :
  (forall id e, revoked s !! id = Some e ->
    (exists e', r !! id = Some e' /\ e <= e') \/ exists t, call_time c = Some t /\ e <= t) ->
  view_le (memory_view s) (memory_view (set_revoked r ev s)) /\
  call_frame c (memory_view s) a (memory_view (set_revoked r ev s)).
Proof.
  intros Hr. split; split; cbn; kept.
Qed.

Lemma memory_collect_revoked now limit order n s n' s' :
  collect_revoked now limit order n s = (n', s') ->
  exists r ev, s' = set_revoked r ev s /\
    forall id e, revoked s !! id = Some e -> r !! id = Some e \/ e <= now.
Proof.
  revert n s. induction order as [|id order IH]; cbn; intros n s.
  - intros [= <- <-]. exists (revoked s), (events s). split; [by destruct s|auto].
  - destruct (limit <=? n); [intros [= <- <-]; exists (revoked s), (events s); split; [by destruct s|auto]|].
    destruct (revoked s !! id) as [x|] eqn:Ex; [|apply IH].
    destruct (Z.ltb_spec now x) as [|Hx]; [apply IH|]. intros (r & ev & -> & Hr)%IH. exists r, ev. split; [done|].
    intros id' e He. destruct (decide (id' = id)) as [-> |Hne]; [right; congruence|].
    apply Hr. cbn. by rewrite lookup_delete_ne.
Qed.

Lemma memory_collect_enrollments now limit order n s n' s' :
  collect_enrollments now limit order n s = (n', s') ->
  exists en ev, s' = set_enrollments en ev s /\ en ⊆ enrollments s.
Proof.
  revert n s. induction order as [|h order IH]; cbn; intros n s.
  - intros [= <- <-]. exists (enrollments s), (events s). split; [by destruct s|done].
  - destruct (limit <=? n); [intros [= <- <-]; exists (enrollments s), (events s); split; [by destruct s|done]|].
    destruct (enrollments s !! h) as [x|] eqn:Ex; [|apply IH].
    destruct (expired_at now x); [|apply IH]. intros (en & ev & -> & Hs)%IH. exists en, ev. split; [done|].
    etrans; [exact Hs|]. apply delete_subseteq.
Qed.

Lemma subset_grants (en en' : gmap digest Enrollment) h :
  en' ⊆ en -> grant_of <$> en' !! h = grant_of <$> en !! h \/ grant_of <$> en' !! h = None.
Proof.
  intros Hs. destruct (en' !! h) as [e|] eqn:E; [left|by right]. by rewrite (lookup_weaken _ _ _ _ E Hs).
Qed.

Lemma memory_principals {A} (c : call A) a s k p n ev :
  (forall t u, key t u = k -> is_Some (principals s !! k) \/ assigns c t u) ->
  revision_of s k <= n ->
  (forall q, principals s !! k = Some q -> PrRoles p <> PrRoles q -> revision_of s k < n) ->
  let s' := set_principals (<[k := p]> (principals s)) (<[k := n]> (principalRevisions s)) ev s in
  view_le (memory_view s) (memory_view s') /\ call_frame c (memory_view s) a (memory_view s').
Proof.
  intros Ha Hn Hd s'. assert (Hrev : forall k', revision_of s k' <= revision_of s' k' /\
    (k' = k -> revision_of s' k' = n)).
  { intros k'. unfold revision_of, s'. cbn. destruct (decide (k' = k)) as [-> |Hne].
    - rewrite lookup_insert_eq. done.
    - rewrite lookup_insert_ne by done. done. }
  split; split; cbn; kept.
  - intros t u. apply Hrev.
  - intros t u r Hr. destruct (decide (key t u = k)) as [Hk|Hne].
    + rewrite Hk, lookup_insert_eq. exists (PrRoles p). split; [done|]. intros Hne.
      destruct (Hrev k) as [_ ->]; [|done]. rewrite Hk in Hr. apply fmap_Some in Hr as (q & Hq & ->). by eapply Hd.
    + rewrite lookup_insert_ne by done. exists r. by split.
  - intros t u. destruct (decide (key t u = k)) as [Hk|Hne].
    + intros _. rewrite Hk. destruct (Ha t u Hk) as [Hs|?]; [left|by right]. destruct Hs as [? ->]. eauto.
    + rewrite lookup_insert_ne by done. auto.
Qed.

(** Keys of well-formed principals are distinct from all others. *)
Lemma decode_nul n : forall bs l, (length bs <= n)%nat -> utf8_decode bs = Some l -> 0 ∈ bs -> 0 ∈ l.
Proof.
  induction n as [|n IH]; intros [|b0 t0] l Hn Hd Hin; cbn in Hn; try lia; try (by apply not_elem_of_nil in Hin).
  cbn [utf8_decode] in Hd. destruct (in_range 0 0x7F b0) eqn:E0.
  { apply fmap_Some in Hd as (l' & Hl & ->). apply elem_of_cons in Hin as [<-|Hin]; [by left|right].
    by apply (IH t0); [lia|..]. }
  assert (Hb0 : 0 <> b0) by (intros <-; done). destruct t0 as [|b1 t1]; [done|]. cbn in Hn.
  apply elem_of_cons in Hin as [?|Hin]; [done|].
  assert (Hc : forall b, cont b = true -> 0 <> b) by (intros b Hb <-; done).
  destruct (in_range 0xC2 0xDF b0) eqn:E1.
  { destruct (cont b1) eqn:C1; [|done]. apply fmap_Some in Hd as (l' & Hl & ->). right.
    apply elem_of_cons in Hin as [?|Hin]; [by apply Hc in C1|]. by apply (IH t1); [lia|..]. }
  destruct t1 as [|b2 t2]; [done|]. cbn in Hn. destruct (in_range 0xE0 0xEF b0) eqn:E2.
  { destruct (second3 b0 b1) eqn:C1; [|done]. destruct (cont b2) eqn:C2; [|done]. cbn in Hd.
    apply fmap_Some in Hd as (l' & Hl & ->). right.
    assert (0 <> b1) by (intros <-; unfold second3, cont in C1; destruct (b0 =? 0xE0), (b0 =? 0xED); done).
    apply elem_of_cons in Hin as [?|Hin]; [done|]. apply elem_of_cons in Hin as [?|Hin]; [by apply Hc in C2|].
    by apply (IH t2); [lia|..]. }
  destruct t2 as [|b3 t3]; [done|]. cbn in Hn.
  destruct (in_range 0xF0 0xF4 b0 && second4 b0 b1 && cont b2 && cont b3) eqn:E3; [|done].
  rewrite !andb_true_iff in E3. destruct E3 as [[[_ C1] C2] C3].
  apply fmap_Some in Hd as (l' & Hl & ->). right.
  assert (0 <> b1) by (intros <-; unfold second4, cont in C1; destruct (b0 =? 0xF0), (b0 =? 0xF4); done).
  apply elem_of_cons in Hin as [?|Hin]; [done|]. apply elem_of_cons in Hin as [?|Hin]; [by apply Hc in C2|].
  apply elem_of_cons in Hin as [?|Hin]; [by apply Hc in C3|]. by apply (IH t3); [lia|..].
Qed.

Lemma valid_no_nul v n : validText v n = true -> Forall (fun b => b <> 0) (string_bytes v).
Proof.
  unfold validText. destruct (_ || _); [done|]. destruct (runes v) as [l|] eqn:El; [|done].
  intros [_ Hf]%andb_true_iff. apply Forall_forall. intros b Hb ->.
  pose proof (decode_nul _ _ _ (le_n _) El Hb) as Hl. rewrite forallb_forall in Hf.
  specialize (Hf 0 ltac:(by apply list_elem_of_In)). done.
Qed.

Lemma key_bytes t u : string_bytes (key t u) = string_bytes t ++ 0 :: string_bytes u.
Proof. unfold key. by rewrite string_bytes_app. Qed.

Lemma one_nul (a b a' b' : list Z) :
  Forall (fun x => x <> 0) a' -> Forall (fun x => x <> 0) b' -> a ++ 0 :: b = a' ++ 0 :: b' -> a = a' /\ b = b'.
Proof.
  intros Ha Hb. revert a Ha. induction a' as [|x a' IH]; intros [|y a] Ha He; cbn in He.
  - by injection He as ->.
  - injection He as _ He. rewrite <-He in Hb. apply Forall_app in Hb as [_ Hb]. by apply Forall_cons_1 in Hb as [? _].
  - injection He as <- _. by apply Forall_cons_1 in Ha as [? _].
  - injection He as -> He. apply Forall_cons_1 in Ha as [_ Ha]. by destruct (IH a Ha He) as [-> ->].
Qed.

Lemma principal_key_inj t u t' u' : validPrincipal u' t' = true -> key t u = key t' u' -> t = t' /\ u = u'.
Proof.
  intros [Hu Ht]%andb_true_iff Hk. apply valid_no_nul in Hu, Ht.
  pose proof (f_equal string_bytes Hk) as Hb. rewrite !key_bytes in Hb.
  destruct (one_nul _ _ _ _ Ht Hu Hb) as [H1%string_bytes_inj H2%string_bytes_inj]. done.
Qed.

(** A change of the enrollments alone. *)
Lemma memory_enrollments {A} (c : call A) a s en ev :
  (forall h, grant_of <$> en !! h = grant_of <$> enrollments s !! h \/ grant_of <$> en !! h = None \/ puts c h) ->
  Z.of_nat (size en) <= Z.max (Z.of_nat (size (enrollments s))) (capacity c) ->
  view_le (memory_view s) (memory_view (set_enrollments en ev s)) /\
  call_frame c (memory_view s) a (memory_view (set_enrollments en ev s)).
Proof. intros Hg Hl. split; split; cbn; kept. Qed.

Lemma memory_new_principal {A} (c : call A) a s principal p ev :
  match c with CreatePrincipal q _ | UpsertPrincipalRoles q _ => q = principal | _ => False end ->
  let k := key (PrTenant principal) (PrID principal) in principals s !! k = None ->
  let s' := set_principals (<[k := p]> (principals s)) (principalRevisions s) ev s in
  view_le (memory_view s) (memory_view s') /\ call_frame c (memory_view s) a (memory_view s').
Proof.
  intros Hc k Hk s'. split; split; cbn; kept.
  - intros t u r Hr. exists r. split; [|done]. destruct (decide (key t u = k)) as [Hq|Hne].
    + by rewrite Hq, Hk in Hr.
    + by rewrite lookup_insert_ne.
  - intros t u. destruct (decide (key t u = k)) as [Hq|Hne]; [|rewrite lookup_insert_ne by done; by left].
    intros _. right. destruct c; try done; subst; cbn; intros Hv; by apply principal_key_inj.
Qed.

Lemma subset_enrollments {A} (c : call A) a s en ev :
  en ⊆ enrollments s ->
  view_le (memory_view s) (memory_view (set_enrollments en ev s)) /\
  call_frame c (memory_view s) a (memory_view (set_enrollments en ev s)).
Proof.
  intros Hs. apply memory_enrollments; [|apply map_subseteq_size in Hs; lia].
  intros h. destruct (subset_grants _ _ h Hs) as [->| ->]; auto.
Qed.

Lemma principals_id s : set_principals (principals s) (principalRevisions s) (events s) s = s.
Proof. by destruct s. Qed.

Lemma memory_revision_up {A} (c : call A) a s k n ev :
  revision_of s k < n ->
  let s' := set_principals (principals s) (<[k := n]> (principalRevisions s)) ev s in
  view_le (memory_view s) (memory_view s') /\ call_frame c (memory_view s) a (memory_view s').
Proof.
  intros Hn s'. assert (Hrev : forall k', revision_of s k' <= revision_of s' k').
  { intros k'. unfold revision_of, s'. cbn. destruct (decide (k' = k)) as [-> |Hne].
    - rewrite lookup_insert_eq. unfold revision_of in Hn. cbn. lia.
    - by rewrite lookup_insert_ne. }
  split; split; cbn; kept.
Qed.

Lemma set_enrollments_twice en en' ev ev' s : set_enrollments en ev (set_enrollments en' ev' s) = set_enrollments en ev s.
Proof. done. Qed.

Lemma put_law hash en max ev : forall a s s', Memory_PutEnrollmentBounded hash en max ev s = (a, s') ->
  let c := PutEnrollmentBounded hash en max ev in
  view_le (memory_view s) (memory_view s') /\ call_frame c (memory_view s) a (memory_view s') /\
  answers c (memory_view s) a (memory_view s').
Proof.
  intros a s s' Hc c. unfold Memory_PutEnrollmentBounded in Hc. cbv zeta in Hc.
  set (lv := filter _ (enrollments s)) in Hc.
  assert (Hsub : lv ⊆ enrollments s) by apply map_filter_subseteq.
  pose proof (map_subseteq_size _ _ Hsub) as Hsz. apply three.
  destruct (Z.leb_spec max (Z.of_nat (size lv))); [injection Hc as <- <-; split; [by apply subset_enrollments|by apply subset_grants]|].
  destruct (lv !! hash) eqn:El; injection Hc as <- <-; [split; [by apply subset_enrollments|by apply subset_grants]|].
  rewrite set_enrollments_twice. split; [apply memory_enrollments|].
  - intros h. destruct (decide (h = hash)) as [-> |Hne]; [by right; right|]. rewrite lookup_insert_ne by done.
    destruct (subset_grants _ _ h Hsub) as [->| ->]; auto.
  - cbn. rewrite map_size_insert_None by done. lia.
  - cbn. rewrite lookup_insert_eq. exists (ExpiresAt en). done.
Qed.

Lemma enroll_law hash now cand ev : forall a s s', Memory_EnrollNode hash now cand ev s = (a, s') ->
  let c := EnrollNode hash now cand ev in
  view_le (memory_view s) (memory_view s') /\ call_frame c (memory_view s) a (memory_view s') /\
  answers c (memory_view s) a (memory_view s').
Proof.
  intros a s s' Hc c. unfold Memory_EnrollNode in Hc. cbv zeta in Hc.
  destruct (nodes s !! NodeID cand) as [old|] eqn:Eo; [injection Hc as <- <-; apply quiet; cbn; by rewrite Eo|].
  destruct (_ || _); [injection Hc as <- <-; by apply quiet|].
  destruct (enrollments s !! hash) as [en|] eqn:Ee; [|injection Hc as <- <-; by apply quiet].
  assert (Hsub : delete hash (enrollments s) ⊆ enrollments s) by apply delete_subseteq.
  pose proof (map_subseteq_size _ _ Hsub) as Hsz. unfold expired_at in Hc.
  destruct (Z.ltb_spec now (ExpiresAt en)) as [Hx|Hx]; cbn [negb] in Hc; injection Hc as <- <-.
  - apply three. split; [split; split; cbn; kept|].
    + intros id b Hb. destruct (decide (id = NodeID cand)) as [-> |Hne]; [by rewrite Eo in Hb|].
      by rewrite lookup_insert_ne.
    + intros h. destruct (subset_grants _ _ h Hsub) as [->| ->]; auto.
    + intros id. destruct (decide (id = NodeID cand)) as [-> |Hne]; [right; exists hash; by rewrite Eo|left].
      by rewrite lookup_insert_ne.
    + cbn. rewrite lookup_insert_eq, lookup_delete_eq, Ee, Eo. split_and!; [done..|].
      exists (grant_of en). done.
  - apply three. split; [by apply subset_enrollments|done].
Qed.

Lemma insert_same_lookup {A} (m : gmap string A) k x k' : m !! k = Some x -> <[k := x]> m !! k' = m !! k'.
Proof. intros Hx. by rewrite insert_id. Qed.

Lemma memory_law {A} e (c : call A) s a s' :
  headroom (memory_view s) -> store_do e c s = (a, s') ->
  view_le (memory_view s) (memory_view s') /\ call_frame c (memory_view s) a (memory_view s') /\
  answers c (memory_view s) a (memory_view s').
Proof.
  intros Hh Hc. destruct c; cbn in Hc; unfold store_do, memory_store in Hc.
  - (* Revoked *) unfold Memory_Revoked in Hc. destruct (revoked s !! id) as [x|] eqn:Ex.
    + destruct (Z.ltb_spec now x) as [Hx|Hx]; cbn in Hc; injection Hc as <- <-.
      * apply quiet. cbn. rewrite Ex. symmetry. by apply Z.ltb_lt.
      * apply three. split; [apply memory_spent|cbn; rewrite Ex; symmetry; by apply Z.ltb_ge].
        intros id' e' He'. destruct (decide (id' = id)) as [-> |Hne]; [right; exists now; split; [done|congruence]|].
        left. exists e'. by rewrite lookup_delete_ne.
    + injection Hc as <- <-. apply quiet. cbn. by rewrite Ex.
  - (* Revoke *) unfold Memory_Revoke in Hc. destruct (revoked s !! id) as [x|] eqn:Ex.
    + destruct (Z.ltb_spec x expires) as [Hx|Hx]; cbn in Hc; injection Hc as <- <-.
      * apply three. split; [apply memory_spent|cbn; rewrite lookup_insert_eq; intros _; by exists expires].
        intros id' e' He'. left. destruct (decide (id' = id)) as [-> |Hne].
        -- exists expires. rewrite lookup_insert_eq. split; [done|]. simplify_eq. lia.
        -- exists e'. by rewrite lookup_insert_ne.
      * apply quiet. cbn. intros _. by exists x.
    + injection Hc as <- <-. apply three. split; [apply memory_spent|cbn; rewrite lookup_insert_eq; intros _; by exists expires].
      intros id' e' He'. left. exists e'. rewrite lookup_insert_ne by congruence. done.
  - (* ConsumeRefresh *) unfold Memory_ConsumeRefresh in Hc. destruct (revoked s !! id) as [x|] eqn:Ex; injection Hc as <- <-.
    + apply quiet. cbn. by rewrite Ex.
    + apply three. split; [apply memory_spent|cbn; by rewrite lookup_insert_eq].
      intros id' e' He'. left. exists e'. rewrite lookup_insert_ne by congruence. done.
  - by eapply put_law.
  - by eapply enroll_law.
  - (* PrincipalRevision *) injection Hc as <- <-. by apply quiet.
  - (* RevokePrincipal *) unfold Memory_RevokePrincipal in Hc. cbv zeta in Hc.
    destruct (Z.eqb_spec (revision_of s (key tenant subject)) MaxInt64); injection Hc as <- <-; [by apply quiet|].
    apply three. split; [apply memory_revision_up; lia|]. cbn. split; [done|].
    unfold revision_of at 1. cbn. by rewrite lookup_insert_eq.
  - injection Hc as <- <-. by apply quiet.
  - (* CreatePrincipal *) unfold Memory_CreatePrincipal in Hc. cbv zeta in Hc.
    destruct (principals s !! _) as [q|] eqn:Eq; injection Hc as <- <-; [by apply quiet|]. apply three.
    split; [|cbn; by rewrite Eq, lookup_insert_eq]. by apply memory_new_principal.
  - (* GetPrincipal *) unfold Memory_GetPrincipal in Hc. cbv zeta in Hc.
    destruct (principals s !! _) as [q|] eqn:Eq; injection Hc as <- <-; apply quiet; cbn; by rewrite ?Eq.
  - injection Hc as <- <-. by apply quiet.
  - (* UpsertPrincipalRoles *) unfold Memory_UpsertPrincipalRoles in Hc. cbv zeta in Hc.
    set (k := key _ _) in Hc. destruct (principals s !! k) as [q|] eqn:Eq.
    + case_bool_decide as Hr; injection Hc as <- <-; [apply quiet; cbn; fold k; by rewrite Eq|].
      pose proof (Hh (PrTenant principal) (PrID principal)) as Hk. cbn in Hk. fold k in Hk.
      unfold u64. rewrite Z.mod_small by (unfold MaxInt64 in Hk; lia). apply three.
      split; [apply memory_principals; [by left; rewrite Eq|lia|lia]|]. cbn. fold k. by rewrite lookup_insert_eq.
    + injection Hc as <- <-. apply three. split; [|cbn; fold k; by rewrite lookup_insert_eq].
      by apply (memory_new_principal _ _ s _ (with_revision (revision_of s k) principal)).
  - (* CollectExpired *) unfold Memory_CollectExpired in Hc. destruct (_ || _); [injection Hc as <- <-; by apply quiet|].
    destruct (collect_revoked _ _ _ _ _) as [n1 s1] eqn:E1. destruct (collect_enrollments _ _ _ _ _) as [n2 s2] eqn:E2.
    injection Hc as <- <-. apply memory_collect_revoked in E1 as (r & ev & -> & Hr).
    apply memory_collect_enrollments in E2 as (en & ev2 & -> & Hs). cbn in Hs. apply three. split; [|done].
    pose proof (map_subseteq_size _ _ Hs) as Hsz. split; split; cbn; kept.
    + intros id e' He'. destruct (Hr id e' He') as [Hk|Hk]; [left; by exists e'|right; by exists now].
    + intros h. destruct (subset_grants _ _ h Hs) as [->| ->]; auto.
Qed.

#[export] Instance memory_laws : StoreLaws MemoryStore := {| view := memory_view; store_law A := @memory_law A |}.
End memory.

(** ** The SQLite store *)

Section sqlite.
Context `{Platform}.
Implicit Types (s : SQLiteStore).

Definition row_grant (l : gmap digest (option labels)) (h : digest) (e : Enrollment) : Grant :=
  mkGrant (Pool e) (EnrTenant e) (default None (l !! h)) (of_unix (ExpiresAt e)).

Definition sqlite_view (s : SQLiteStore) : View :=
  mkView (fun id => of_unix <$> identity_revocations s !! id)
    (fun t u => default 0 (identity_principal_revisions s !! (t, u)))
    (fun t u => RowRoles <$> identity_principals s !! (t, u))
    (fun h => row_grant (identity_enrollment_labels s) h <$> identity_enrollments s !! h)
    (Z.of_nat (size (identity_enrollments s)))
    (fun id => bound <$> identity_nodes s !! id).

Lemma unix_exact t : (second | t) -> of_unix (Unix t) = t.
Proof. intros [k ->]. unfold of_unix, Unix. rewrite Z.div_mul by done. done. Qed.

Lemma of_unix_mono a b : a <= b -> of_unix a <= of_unix b.
Proof. unfold of_unix, second. lia. Qed.

Lemma unix_le t e : of_unix e <= t <-> e <= Unix t.
Proof. unfold of_unix, Unix, second. split; intros; Z.div_mod_to_equations; lia. Qed.

Lemma sqlite_spent {A} (c : call A) a s r ev :
  (forall id e, identity_revocations s !! id = Some e ->
    (exists e', r !! id = Some e' /\ e <= e') \/ exists t, call_time c = Some t /\ of_unix e <= t) ->
  view_le (sqlite_view s) (sqlite_view (set_revocations r ev s)) /\
  call_frame c (sqlite_view s) a (sqlite_view (set_revocations r ev s)).
Proof.
  intros Hr. split; split; cbn; kept. intros id e (x & Hx & ->)%fmap_Some.
  destruct (Hr id x Hx) as [(e' & -> & He)|Ht]; [left; exists (of_unix e'); split; [done|by apply of_unix_mono]|by right].
Qed.

Lemma sqlite_put_spent {A} (c : call A) a s id n ev :
  (forall e, identity_revocations s !! id = Some e -> e <= n) ->
  view_le (sqlite_view s) (sqlite_view (set_revocations (<[id := n]> (identity_revocations s)) ev s)) /\
  call_frame c (sqlite_view s) a (sqlite_view (set_revocations (<[id := n]> (identity_revocations s)) ev s)).
Proof.
  intros Hn. apply sqlite_spent. intros id' e He. left. destruct (decide (id' = id)) as [-> |Hne].
  - exists n. rewrite lookup_insert_eq. eauto.
  - exists e. by rewrite lookup_insert_ne.
Qed.

(** Removing rows of the two enrollment tables together. *)
Definition fewer (s s' : SQLiteStore) : Prop :=
  exists en l ev, s' = set_enrollment_tables en l ev s /\ en ⊆ identity_enrollments s /\
    forall h, is_Some (en !! h) -> l !! h = identity_enrollment_labels s !! h.

Lemma fewer_refl s : fewer s s.
Proof.
  exists (identity_enrollments s), (identity_enrollment_labels s), []. split_and!; [|done|done].
  destruct s; unfold set_enrollment_tables; cbn. by rewrite app_nil_r.
Qed.

Lemma fewer_drop old s : fewer s (drop_enrollments old s).
Proof.
  unfold drop_enrollments. enough (forall s0, fewer s s0 -> fewer s (foldl (fun s (kv : digest * Enrollment) =>
    set_enrollment_tables (delete kv.1 (identity_enrollments s)) (delete kv.1 (identity_enrollment_labels s))
      [enrollment_expired kv.2] s) s0 old)) as Hf by apply Hf, fewer_refl.
  induction old as [|[h x] old IH]; [done|]. intros s0 (en & l & ev & -> & Hs & Hl). cbn [foldl]. apply IH.
  exists (delete h en), (delete h l), (ev ++ [enrollment_expired x]). split_and!.
  - unfold set_enrollment_tables. cbn. by rewrite app_assoc.
  - etrans; [apply delete_subseteq|done].
  - intros h' Hh'. destruct (decide (h' = h)) as [-> |Hne]; [rewrite lookup_delete_eq in Hh'; by destruct Hh'|].
    rewrite lookup_delete_ne in Hh' by done. rewrite lookup_delete_ne by done. by apply Hl.
Qed.

Lemma fewer_grant s s' h : fewer s s' -> grant (sqlite_view s') h = grant (sqlite_view s) h \/ grant (sqlite_view s') h = None.
Proof.
  intros (en & l & ev & -> & Hs & Hl). cbn. destruct (en !! h) as [e|] eqn:Eh; [left|by right].
  rewrite (lookup_weaken _ _ _ _ Eh Hs). cbn. unfold row_grant. by rewrite Hl by eauto.
Qed.

Lemma fewer_size s s' : fewer s s' -> (size (identity_enrollments s') <= size (identity_enrollments s))%nat.
Proof. intros (en & l & ev & -> & Hs & Hl). cbn. by apply map_subseteq_size. Qed.

Lemma fewer_law {A} (c : call A) a s s' :
  fewer s s' -> view_le (sqlite_view s) (sqlite_view s') /\ call_frame c (sqlite_view s) a (sqlite_view s').
Proof.
  intros Hf. pose proof (fewer_size _ _ Hf) as Hz. pose proof (fun h => fewer_grant s s' h Hf) as Hg.
  destruct Hf as (en & l & ev & -> & Hs & Hl). cbn in Hz. split; split; cbn; kept.
  intros h. destruct (Hg h) as [Hh|Hh]; [by left|by right; left].
Qed.

Lemma sqlite_directory {A} (c : call A) a s k n row ev :
  (forall t u, (t, u) = k -> is_Some (identity_principals s !! k) \/ assigns c t u) ->
  default 0 (identity_principal_revisions s !! k) <= n ->
  (forall r, identity_principals s !! k = Some r -> RowRoles row <> RowRoles r ->
    default 0 (identity_principal_revisions s !! k) < n) ->
  let s' := set_directory (<[k := n]> (identity_principal_revisions s)) (<[k := row]> (identity_principals s)) ev s in
  view_le (sqlite_view s) (sqlite_view s') /\ call_frame c (sqlite_view s) a (sqlite_view s').
Proof.
  intros Ha Hn Hd s'. split; split; cbn; kept.
  - intros t u. destruct (decide ((t, u) = k)) as [<-|Hne]; [by rewrite lookup_insert_eq|by rewrite lookup_insert_ne].
  - intros t u r Hr. destruct (decide ((t, u) = k)) as [<-|Hne].
    + rewrite !lookup_insert_eq. exists (RowRoles row). split; [done|]. intros Hne.
      apply fmap_Some in Hr as (q & Hq & ->). by eapply Hd.
    + rewrite !lookup_insert_ne by done. exists r. by split.
  - intros t u. destruct (decide ((t, u) = k)) as [Hk|Hne].
    + intros _. rewrite Hk. destruct (Ha t u Hk) as [Hs|?]; [left|by right]. destruct Hs as [? ->]. eauto.
    + rewrite lookup_insert_ne by done. auto.
Qed.

Lemma sqlite_revision_up {A} (c : call A) a s k n ev :
  default 0 (identity_principal_revisions s !! k) < n ->
  let s' := set_directory (<[k := n]> (identity_principal_revisions s)) (identity_principals s) ev s in
  view_le (sqlite_view s) (sqlite_view s') /\ call_frame c (sqlite_view s) a (sqlite_view s').
Proof.
  intros Hn s'. split; split; cbn; kept.
  intros t u. destruct (decide ((t, u) = k)) as [<-|Hne]; [rewrite lookup_insert_eq; cbn; lia|by rewrite lookup_insert_ne].
Qed.

Lemma sqlite_put_law e hash en max ev : forall a s s', SQLite_PutEnrollmentBounded e hash en max ev s = (a, s') ->
  let c := PutEnrollmentBounded hash en max ev in
  view_le (sqlite_view s) (sqlite_view s') /\ call_frame c (sqlite_view s) a (sqlite_view s') /\
  answers c (sqlite_view s) a (sqlite_view s').
Proof.
  intros a s s' Hc c. unfold SQLite_PutEnrollmentBounded in Hc. cbv zeta in Hc.
  destruct (fault e); [injection Hc as <- <-; apply quiet; by left|].
  pose proof (fewer_drop (expired_enrollments e (EnrIssuedAt en) 128 s) s) as Hf.
  set (s1 := drop_enrollments _ s) in *.
  destruct (Z.leb_spec max (Z.of_nat (size (identity_enrollments s1)))); [injection Hc as <- <-; apply three; split; [by apply fewer_law|by apply fewer_grant]|].
  destruct (identity_enrollments s1 !! hash) eqn:E1; [injection Hc as <- <-; apply quiet; by left|].
  destruct (identity_enrollment_labels s1 !! hash) eqn:E2; [injection Hc as <- <-; apply quiet; by left|]. injection Hc as <- <-.
  pose proof (fewer_size _ _ Hf) as Hz. destruct (fewer_law c (Ok tt) s s1 Hf) as [Hle Hfr].
  apply three. split; [split|].
  - etrans; [exact Hle|]. split; cbn; kept.
  - destruct Hfr. split; [done| |done|done|].
    + intros h. destruct (decide (h = hash)) as [-> |Hne]; [by right; right|]. cbn. rewrite lookup_insert_ne by done.
      unfold row_grant. rewrite lookup_insert_ne by done. apply fr_grant0.
    + cbn in *. rewrite map_size_insert_None by done. lia.
  - cbn. rewrite lookup_insert_eq. cbn. unfold row_grant. rewrite lookup_insert_eq. cbn.
    exists (of_unix (Unix (ExpiresAt en))). split; [|done]. by apply unix_le.
Qed.

Lemma sqlite_enroll_law e hash now cand ev : forall a s s', SQLite_EnrollNode e hash now cand ev s = (a, s') ->
  let c := EnrollNode hash now cand ev in
  view_le (sqlite_view s) (sqlite_view s') /\ call_frame c (sqlite_view s) a (sqlite_view s') /\
  answers c (sqlite_view s) a (sqlite_view s').
Proof.
  intros a s s' Hc c. unfold SQLite_EnrollNode in Hc. cbv zeta in Hc.
  destruct (fault e); [injection Hc as <- <-; by apply quiet|].
  destruct (identity_nodes s !! NodeID cand) as [old|] eqn:Eo.
  { injection Hc as <- <-. apply quiet. cbn. destruct (bool_decide _); [by rewrite Eo|done]. }
  destruct (_ || _); [injection Hc as <- <-; by apply quiet|].
  destruct (identity_enrollments s !! hash) as [en|] eqn:Ee; [|injection Hc as <- <-; by apply quiet].
  assert (Hf : forall ev, fewer s (set_enrollment_tables (delete hash (identity_enrollments s))
    (delete hash (identity_enrollment_labels s)) ev s)).
  { intros ev0. eexists _, _, ev0. split_and!; [done|apply delete_subseteq|].
    intros h Hh. destruct (decide (h = hash)) as [-> |Hne]; [rewrite lookup_delete_eq in Hh; by destruct Hh|].
    by rewrite lookup_delete_ne. }
  destruct (Z.ltb_spec now (of_unix (ExpiresAt en))) as [Hx|Hx]; cbn [negb] in Hc; injection Hc as <- <-.
  - destruct (fewer_law c (Ok (mkBinding EmptyString [] EmptyString EmptyString None 0, false, false)) _ _ (Hf []))
      as [Hle Hfr]. apply three. split; [split; split; cbn; kept|].
    + intros id b Hb. destruct (decide (id = NodeID cand)) as [-> |Hne]; [by rewrite Eo in Hb|].
      by rewrite lookup_insert_ne.
    + intros h. apply (fr_grant _ _ _ _ Hfr h).
    + intros id. destruct (decide (id = NodeID cand)) as [-> |Hne]; [right; exists hash; by rewrite Eo|left].
      by rewrite lookup_insert_ne.
    + pose proof (fr_live _ _ _ _ Hfr) as Hl. cbn in Hl. lia.
    + cbn. rewrite lookup_insert_eq, lookup_delete_eq, Ee, Eo. split_and!; [done..|].
      exists (row_grant (identity_enrollment_labels s) hash en). done.
  - apply three. split; [by apply fewer_law|done].
Qed.

Lemma sqlite_revoke_law e tenant subject ev commit a s s' :
  SQLite_RevokePrincipalWith e tenant subject ev commit s = (a, s') ->
  headroom (sqlite_view s) ->
  (forall now, let c := RevokePrincipal tenant subject now ev in
    view_le (sqlite_view s) (sqlite_view s') /\ call_frame c (sqlite_view s) a (sqlite_view s') /\
    answers c (sqlite_view s) a (sqlite_view s')).
Proof.
  intros Hc Hh now c. unfold SQLite_RevokePrincipalWith in Hc. cbv zeta in Hc.
  destruct (fault e); [injection Hc as <- <-; by apply quiet|].
  destruct (_ || _); [injection Hc as <- <-; by apply quiet|].
  destruct commit; cbn [negb] in Hc; injection Hc as <- <-; [|by apply quiet].
  apply three. split; [apply sqlite_revision_up; lia|]. cbn. by rewrite lookup_insert_eq.
Qed.

Lemma sqlite_collect_ids (ids : list string) s :
  exists r ev, foldl (fun s id => set_revocations (delete id (identity_revocations s)) [revocation_expired id] s) s ids =
    set_revocations r ev s /\ forall id e, identity_revocations s !! id = Some e -> r !! id = Some e \/ id ∈ ids.
Proof.
  revert s. induction ids as [|x ids IH]; intros s; cbn [foldl].
  - exists (identity_revocations s), []. split; [|by left]. destruct s; unfold set_revocations; cbn. by rewrite app_nil_r.
  - destruct (IH (set_revocations (delete x (identity_revocations s)) [revocation_expired x] s)) as (r & ev & -> & Hr).
    exists r, ([revocation_expired x] ++ ev). split; [unfold set_revocations; cbn; by rewrite <-app_assoc|].
    intros id e He. rewrite elem_of_cons. destruct (decide (id = x)) as [-> |Hne]; [by right; left|].
    destruct (Hr id e) as [?|?]; [cbn; by rewrite lookup_delete_ne|by left|by right; right].
Qed.

Lemma expired_ids (order : list string) (limit : nat) now (table : gmap string Z) id e :
  table !! id = Some e ->
  id ∈ take limit (map fst (sort_by (fun a b : string * Z => a.2 <? b.2)
    (filter (fun kv => kv.2 <= Unix now) (scan order table)))) -> of_unix e <= now.
Proof.
  intros He Hin. apply elem_of_take in Hin as (i & Hi & _). apply list_elem_of_lookup_2 in Hi.
  apply list_elem_of_fmap in Hi as ([id' x] & -> & Hi). rewrite sort_by_perm, list_elem_of_filter in Hi.
  destruct Hi as [Hx Hi]. unfold scan in Hi. apply list_elem_of_omap in Hi as (k & _ & Hk). cbn in *.
  destruct (table !! k) as [y|] eqn:Ey; [|done]. injection Hk as -> ->. apply unix_le. congruence.
Qed.

Lemma sqlite_law {A} e (c : call A) s a s' :
  headroom (sqlite_view s) -> store_do e c s = (a, s') ->
  view_le (sqlite_view s) (sqlite_view s') /\ call_frame c (sqlite_view s) a (sqlite_view s') /\
  answers c (sqlite_view s) a (sqlite_view s').
Proof.
  intros Hh Hc. destruct c; cbn in Hc; unfold store_do, sqlite_store in Hc.
  - (* Revoked *) unfold SQLite_Revoked in Hc. destruct (fault e); [injection Hc as <- <-; by apply quiet|].
    destruct (identity_revocations s !! id) as [x|] eqn:Ex; [|injection Hc as <- <-; apply quiet; cbn; by rewrite Ex].
    destruct (Z.ltb_spec now (of_unix x)) as [Hx|Hx].
    { injection Hc as <- <-. apply quiet. cbn. rewrite Ex. cbn. symmetry. by apply Z.ltb_lt. }
    pose proof (proj1 (unix_le now x) Hx) as Hu. rewrite (proj2 (Z.leb_le _ _) Hu) in Hc. injection Hc as <- <-.
    apply three. split; [apply sqlite_spent|cbn; rewrite Ex; cbn; symmetry; by apply Z.ltb_ge].
    intros id' e' He'. destruct (decide (id' = id)) as [-> |Hne]; [right; exists now; split; [done|congruence]|].
    left. exists e'. by rewrite lookup_delete_ne.
  - (* Revoke *) unfold SQLite_Revoke in Hc. destruct (invalid_record id expires); [injection Hc as <- <-; by apply quiet|].
    destruct (fault e); [injection Hc as <- <-; by apply quiet|].
    destruct (identity_revocations s !! id) as [x|] eqn:Ex.
    + destruct (Z.leb_spec (Unix expires) x) as [Hx|Hx]; injection Hc as <- <-.
      * apply quiet. cbn. intros Hd. rewrite Ex. exists (of_unix x). split; [done|].
        rewrite <-(unix_exact expires Hd). by apply of_unix_mono.
      * apply three. rewrite Z.max_r by lia. split; [apply sqlite_put_spent; intros; simplify_eq; lia|].
        cbn. intros Hd. rewrite lookup_insert_eq. exists (of_unix (Unix expires)). split; [done|]. by rewrite unix_exact.
    + injection Hc as <- <-. apply three. split; [apply sqlite_put_spent; intros; simplify_eq|].
      cbn. intros Hd. rewrite lookup_insert_eq. exists (of_unix (Unix expires)). split; [done|]. by rewrite unix_exact.
  - (* ConsumeRefresh *) unfold SQLite_ConsumeRefresh in Hc.
    destruct (invalid_record id expires); [injection Hc as <- <-; by apply quiet|].
    destruct (fault e); [injection Hc as <- <-; by apply quiet|].
    destruct (identity_revocations s !! id) as [x|] eqn:Ex; injection Hc as <- <-; [apply quiet; cbn; by rewrite Ex|].
    apply three. split; [apply sqlite_put_spent; intros; simplify_eq|].
    cbn. rewrite Ex. split; [done|]. intros Hd. rewrite lookup_insert_eq. cbn. by rewrite unix_exact.
  - by eapply sqlite_put_law.
  - by eapply sqlite_enroll_law.
  - (* PrincipalRevision *) unfold SQLite_PrincipalRevision in Hc. destruct (fault e); [injection Hc as <- <-; by apply quiet|].
    destruct (identity_principal_revisions s !! _) as [n|] eqn:En; [destruct (n <? 0)|]; injection Hc as <- <-;
      apply quiet; cbn; by rewrite ?En.
  - (* RevokePrincipal *) by eapply (sqlite_revoke_law e tenant subject event true).
  - destruct (sqlite_revoke_law e tenant subject event commit a s s' Hc Hh now) as (? & Hf & ?).
    split_and!; [done|by destruct Hf|done].
  - (* CreatePrincipal *) unfold SQLite_CreatePrincipal in Hc.
    destruct (normalizeRoles _) as [roles|]; [|injection Hc as <- <-; by apply quiet].
    destruct (negb _); [injection Hc as <- <-; by apply quiet|]. cbv zeta in Hc.
    destruct (if _ || _ then _ else _) as [cr up].
    destruct (fault e); [injection Hc as <- <-; by apply quiet|]. set (k := (PrTenant principal, PrID principal)) in Hc.
    destruct (identity_principals s !! k) as [q|] eqn:Eq; injection Hc as <- <-; [by apply quiet|]. apply three.
    split; [|cbn; fold k; by rewrite Eq, lookup_insert_eq].
    match goal with |- context [set_directory (match ?x with Some _ => _ | None => _ end)] => destruct x as [n|] eqn:En end.
    + split; split; cbn; kept.
      * intros t u r Hr. exists r. split; [|done].
        destruct (decide ((t, u) = k)) as [Hk|Hne]; [by rewrite Hk, Eq in Hr|by rewrite lookup_insert_ne].
      * intros t u. destruct (decide ((t, u) = k)) as [Hk|Hne]; [|rewrite lookup_insert_ne by done; by left].
        intros _. right. unfold k in Hk. by injection Hk as -> ->.
    + apply sqlite_directory; rewrite ?En; [|done|congruence]. intros t u Hk. right. unfold k in Hk. by injection Hk as -> ->.
  - (* GetPrincipal *) unfold SQLite_GetPrincipal in Hc. destruct (fault e); [injection Hc as <- <-; by apply quiet|].
    destruct (identity_principals s !! _) as [q|] eqn:Eq; [|injection Hc as <- <-; by apply quiet]. cbv zeta in Hc.
    destruct (_ <? 0); injection Hc as <- <-; apply quiet; cbn; by rewrite ?Eq.
  - (* ListPrincipals *) unfold SQLite_ListPrincipals in Hc. cbv zeta in Hc.
    repeat case_match; injection Hc as <- <-; by apply quiet.
  - (* UpsertPrincipalRoles *) unfold SQLite_UpsertPrincipalRoles in Hc.
    destruct (normalizeRoles _) as [roles|]; [|injection Hc as <- <-; by apply quiet].
    destruct (negb _); [injection Hc as <- <-; by apply quiet|]. cbv zeta in Hc.
    destruct (fault e); [injection Hc as <- <-; by apply quiet|]. set (k := (PrTenant principal, PrID principal)) in Hc.
    destruct (identity_principals s !! k) as [q|] eqn:Eq.
    + case_bool_decide as Hr; [injection Hc as <- <-; apply quiet; cbn; fold k; rewrite Eq; cbn; by rewrite Hr|].
      set (n := match identity_principal_revisions s !! k with Some n => n + 1 | None => 1 end) in Hc.
      destruct (MaxInt64 <? n); injection Hc as <- <-; [by apply quiet|]. apply three.
      split; [|cbn; fold k; by rewrite lookup_insert_eq].
      assert (Hn : default 0 (identity_principal_revisions s !! k) < n)
        by (unfold n; destruct (identity_principal_revisions s !! k); cbn; lia).
      apply sqlite_directory; [by left; rewrite Eq|lia|done].
    + injection Hc as <- <-. apply three. split; [|cbn; fold k; by rewrite lookup_insert_eq].
      apply sqlite_directory; [|lia|congruence]. intros t u Hk. right. unfold k in Hk. by injection Hk as -> ->.
  - (* CollectExpired *) unfold SQLite_CollectExpired in Hc. destruct (_ || _); [injection Hc as <- <-; by apply quiet|].
    destruct (fault e); [injection Hc as <- <-; by apply quiet|]. cbv zeta in Hc.
    set (ids := take (Z.to_nat limit) _) in Hc.
    destruct (sqlite_collect_ids ids s) as (r & ev & Hs1 & Hr). rewrite Hs1 in Hc.
    destruct (sqlite_spent (CollectExpired now limit) a s r ev) as [Hle Hfr].
    { intros id e' He'. destruct (Hr id e' He') as [?|Hin]; [left; by exists e'|right]. exists now. split; [done|].
      by eapply expired_ids. }
    apply three. destruct (_ =? 0); injection Hc as <- <-; [done|]. split; [|done].
    match goal with |- view_le _ (sqlite_view (drop_enrollments ?old ?s1)) /\ _ => pose proof (fewer_drop old s1) as Hf end.
    match type of Hf with fewer ?s1 ?s2 => destruct (fewer_law (CollectExpired now limit) (Err EStore) s1 s2 Hf) as [Hle2 Hfr2] end.
    split; [by etrans|]. destruct Hf as (en & l & ev2 & Hd & _ & _). rewrite Hd in *.
    eapply frame_then; [exact Hfr|exact Hfr2|done|by intros ? []|done|done|done|cbn; lia].
Qed.

#[export] Instance sqlite_laws : StoreLaws SQLiteStore := {| view := sqlite_view; store_law A := @sqlite_law A |}.
End sqlite.

(** ** A logic for programs of the manager

    A world is what a program can observe: the authority and the clock.  While
    a program runs, others move the world forward ([world_le]); [I] is assumed
    of the worlds at which its own steps happen. *)

Record world := mkWorld { wv : View; wt : Z }.

(** Besides authority and time, spent tokens stay spent until the instant they
    are kept for has passed. *)
Record world_le (w w' : world) : Prop := {
  le_view : view_le (wv w) (wv w');
  le_time : wt w <= wt w';
  le_spent id e : spent (wv w) id = Some e -> (exists e', spent (wv w') id = Some e' /\ e <= e') \/ e <= wt w' }.
Infix "⊑w" := world_le (at level 70).

#[export] Instance world_le_preorder : PreOrder world_le.
Proof.
  split.
  - intros w. split; [reflexivity|lia|]. intros id e He. left. by exists e.
  - intros w1 w2 w3 [V1 T1 S1] [V2 T2 S2]. split; [by etrans|lia|]. intros id e He.
    destruct (S1 id e He) as [(e' & He' & Hle)|?]; [|right; lia].
    destruct (S2 id e' He') as [(e2 & He2 & Hle2)|?]; [left; exists e2; split; [done|lia]|right; lia].
Qed.

(** Follow the world from one step to the next. *)
Ltac chain := solve [repeat first [assumption | reflexivity | etrans; [eassumption|]]].

Definition valid_id (id : string) : Prop := validText id 128 = true.

Section logic.
Context `{Platform} (m : Manager).

(** What the manager asks of its store: instants that have passed, enrollments
    for well-formed tenants within its capacity, well-formed principals. *)
Definition call_ok (A : Type) (now : Z) (c : call A) : Prop :=
  (match call_time c with Some t => t <= now | None => True end) /\
  (match c with
   | PutEnrollmentBounded _ e max _ => validText (EnrTenant e) 253 = true /\ max = maxEnrollments m
   | CreatePrincipal p _ | UpsertPrincipalRoles p _ => validPrincipal (PrID p) (PrTenant p) = true
   | _ => True
   end).

Lemma call_ok_mono A (c : call A) t t' : t <= t' -> call_ok A t c -> call_ok A t' c.
Proof. intros Ht [H1 H2]. split; [|done]. destruct (call_time c); [lia|done]. Qed.

(** What is asked of calls ([K]) and of signed claims ([G]) is up to the use. *)
Context (K : forall A, Z -> call A -> Prop) (I : world -> Prop) (G : Claims -> world -> Prop).

Fixpoint wp {A} (w : world) (p : prog A) (Q : A -> world -> Prop) : Prop :=
  match p with
  | Ret a => Q a w
  | Ask c k => K _ (wt w) c /\
      forall w1 a w2, w ⊑w w1 -> I w1 -> answers c (wv w1) a (wv w2) -> w1 ⊑w w2 -> wp w2 (k a) Q
  | Clock k => forall w1, w ⊑w w1 -> I w1 -> wp w1 (k (wt w1)) Q
  | Sign c k => forall id w1, valid_id id -> w ⊑w w1 -> I w1 -> G (c id) w1 /\ wp w1 (k (sign m (c id))) Q
  | Emit k => forall b, wp w (k b) Q
  | Random k => forall r id, wp w (k r id) Q
  end.

Lemma wp_conseq {A} (p : prog A) (Q Q' : A -> world -> Prop) w :
  wp w p Q -> (forall a w', w ⊑w w' -> Q a w' -> Q' a w') -> wp w p Q'.
Proof.
  revert w. induction p as [a|B c k IH|k IH|c k IH|k IH|k IH]; cbn; intros w Hp HQ.
  - by apply HQ.
  - destruct Hp as [Hc Hp]. split; [done|]. intros w1 b w2 H1 HI Ha H2. eapply IH; [by eapply Hp|].
    intros a w' Hw. apply HQ. by do 2 (etrans; [done|]).
  - intros w1 H1 HI. eapply IH; [by eapply Hp|]. intros a w' Hw. apply HQ. by etrans.
  - intros id w1 Hid H1 HI. destruct (Hp id w1 Hid H1 HI) as [HG Hk]. split; [done|]. eapply IH; [done|].
    intros a w' Hw. apply HQ. by etrans.
  - intros b. by eapply IH.
  - intros r id. by eapply IH.
Qed.

(** Postconditions that survive what others do. *)
Definition stable {A} (Q : A -> world -> Prop) : Prop := forall a w w', w ⊑w w' -> Q a w -> Q a w'.

Lemma wp_later {A} (p : prog A) (Q : A -> world -> Prop) w w' :
  (forall B t t' c, t <= t' -> K B t c -> K B t' c) -> stable Q -> w ⊑w w' -> wp w p Q -> wp w' p Q.
Proof.
  intros HK HQ. revert w w'. induction p as [a|B c k IH|k IH|c k IH|k IH|k IH]; cbn; intros w w' Hw Hp.
  - by eapply HQ.
  - destruct Hp as [Hc Hp]. split; [eapply HK; [apply (le_time _ _ Hw)|done]|].
    intros w1 b w2 H1 HI Ha H2. eapply Hp; [by etrans|done..].
  - intros w1 H1 HI. apply Hp; [by etrans|done].
  - intros id w1 Hid H1 HI. apply Hp; [done|by etrans|done].
  - intros b. by eapply IH.
  - intros r id. by eapply IH.
Qed.

Lemma wp_bind {A B} (p : prog A) (f : A -> prog B) w Q :
  wp w p (fun a w' => wp w' (f a) Q) -> wp w (bind p f) Q.
Proof.
  revert w. induction p as [a|C c k IH|k IH|c k IH|k IH|k IH]; cbn; intros w Hp.
  - done.
  - destruct Hp as [Hc Hp]. split; [done|]. intros w1 b w2 H1 HI Ha H2. by eapply IH, Hp.
  - intros w1 H1 HI. by apply IH, Hp.
  - intros id w1 Hid H1 HI. destruct (Hp id w1 Hid H1 HI). split; [done|]. by apply IH.
  - intros b. by apply IH.
  - intros r id. by apply IH.
Qed.

Lemma wp_bind_ok {A B} (p : prog (result error A)) (f : A -> prog (result error B)) w Q :
  wp w p (fun r w' => match r with Ok a => wp w' (f a) Q | Err e => Q (Err e) w' end) -> wp w (bind_ok p f) Q.
Proof. intros Hp. apply wp_bind. eapply wp_conseq; [exact Hp|]. by intros [a|e] w' _. Qed.

Lemma wp_ask {A} (c : call (result error A)) w Q :
  K _ (wt w) c ->
  (forall w1 a w2, w ⊑w w1 -> I w1 -> answers c (wv w1) a (wv w2) -> w1 ⊑w w2 -> Q a w2) -> wp w (ask c) Q.
Proof. done. Qed.

(** A call made with instants that have passed moves the world forward. *)
Lemma call_world {A} t (c : call A) v a v' :
  call_ok _ t c -> view_le v v' -> call_frame c v a v' -> mkWorld v t ⊑w mkWorld v' t.
Proof.
  intros [Ht _] Hv Hf. split; cbn; [done|lia|]. intros id e He.
  destruct (fr_spent _ _ _ _ Hf id e He) as [?|(t' & Hc & Hle)]; [by left|right]. rewrite Hc in Ht. lia.
Qed.

(** What a token that [verify] accepts has gone through. *)
Record verified (w : world) (kind : string) (c : Claims) (w' : world) : Prop := {
  ver_fresh : exists w1, w ⊑w w1 /\ w1 ⊑w w' /\ I w1 /\ fresh_claims m (wt w1) kind c = true;
  ver_unspent : exists w1 w2, w ⊑w w1 /\ w1 ⊑w w2 /\ w2 ⊑w w' /\ I w1 /\ I w2 /\
    forall e, spent (wv w2) (ID c) = Some e -> e <= wt w1;
  ver_current : exists w3, w ⊑w w3 /\ w3 ⊑w w' /\ I w3 /\ rev (wv w3) (Tenant c) (Subject c) = Revision c }.

Lemma wp_verify w token kind Q :
  (forall id t t', t <= t' -> K _ t' (Revoked id t)) -> (forall t a b, K _ t (PrincipalRevision a b)) ->
  (forall e w', w ⊑w w' -> Q (Err e) w') ->
  (forall c w', w ⊑w w' -> parseAndVerify m token = Ok c -> verified w kind c w' -> Q (Ok c) w') ->
  wp w (verify m token kind) Q.
Proof.
  intros HK1 HK2 HE HO. cbn. intros w1 H1 HI1. destruct (parseAndVerify m token) as [c|e]; [|by apply HE].
  destruct (fresh_claims m (wt w1) kind c) eqn:Ef; cbn [negb]; [|by apply HE].
  intros w2 H2 HI2. split; [by apply HK1|]. intros w3 a w4 H3 HI3 Ha H4. cbn in Ha.
  destruct a as [[|]|]; [apply HE; chain| |apply HE; chain].
  split; [by apply HK2|]. intros w5 b w6 H5 HI5 Hb H6. cbn in Hb.
  destruct b as [n|]; [|apply HE; chain]. subst n.
  destruct (Z.eqb_spec (rev (wv w5) (Tenant c) (Subject c)) (Revision c)) as [Hr|];
    [|apply HE; chain].
  apply HO; [chain|done|]. split.
  - exists w1. split_and!; [done| |done|done]. chain.
  - exists w2, w3. split_and!; [by etrans|done| |done|done|]; [chain|].
    intros e He. rewrite He in Ha. symmetry in Ha. by apply Z.ltb_ge in Ha.
  - exists w5. split_and!; [|done|done|done]. chain.
Qed.
End logic.

(** Nothing is asked. *)
Definition free (A : Type) (_ : Z) (_ : call A) : Prop := True.
Definition anything (_ : Claims) (_ : world) : Prop := True.

Lemma wp_free `{Platform} m I {A} (p : prog A) w : wp m free I anything w p (fun _ _ => True).
Proof. revert w. induction p as [a|B c k IH|k IH|c k IH|k IH|k IH]; cbn; intros w; [done|split; [done|]|..]; intros; try split; try done; apply IH. Qed.

(** ** What the manager signs *)

Lemma validText_mono s a b : a <= b -> validText s a = true -> validText s b = true.
Proof.
  unfold validText. intros Hab. destruct (s =s EmptyString); cbn; [done|].
  destruct (Z.ltb_spec a (slen s)); [done|]. destruct (Z.ltb_spec b (slen s)); [lia|done].
Qed.

Lemma utf8_visible s : forallb visible (string_bytes s) = true -> utf8 s.
Proof. intros Hv. unfold utf8, runes. rewrite visible_decode by done. eauto. Qed.

Lemma escape_visible b : 0 <= b < 256 -> forallb visible (escape_byte b) = true.
Proof.
  intros Hb. assert (Hc : forallb (fun b => forallb visible (escape_byte b)) (seqZ 0 256) = true) by by vm_compute.
  rewrite forallb_forall in Hc. apply Hc, list_elem_of_In, elem_of_seqZ. lia.
Qed.

Lemma string_bytes_range s : Forall (fun b => 0 <= b < 256) (string_bytes s).
Proof. unfold string_bytes. apply Forall_fmap, Forall_true. intros x. cbn. pose proof (byte_val_range x). lia. Qed.

Lemma escaped_visible l : Forall (fun b => 0 <= b < 256) l -> forallb visible (concat (map escape_byte l)) = true.
Proof. induction 1 as [|b l Hb _ IH]; cbn; [done|]. by rewrite forallb_app, escape_visible, IH. Qed.

Lemma PathEscape_bytes s : string_bytes (PathEscape s) = concat (map escape_byte (string_bytes s)).
Proof. unfold PathEscape. apply string_bytes_of_bytes, escaped_visible, string_bytes_range. Qed.

Definition digit (b : Z) : bool := in_range 0x30 0x39 b.

Lemma pretty_N_char_digit n : (n < 10)%N -> forallb digit (string_bytes (String (pretty_N_char n) EmptyString)) = true.
Proof.
  intros Hn. assert (Hall : forallb (fun k => forallb digit (string_bytes (String (pretty_N_char (N.of_nat k)) EmptyString))) (seq 0 10) = true)
    by by vm_compute.
  rewrite forallb_forall in Hall. specialize (Hall (N.to_nat n)). rewrite N2Nat.id in Hall. apply Hall, in_seq. lia.
Qed.

Lemma pretty_go_digits x s :
  forallb digit (string_bytes s) = true -> forallb digit (string_bytes (pretty_N_go x s)) = true.
Proof.
  revert s. induction (N.lt_wf_0 x) as [x _ IH]. intros s Hs.
  destruct (decide (0 < x)%N) as [Hx|Hx]; [|by replace x with 0%N by lia; rewrite pretty_N_go_0].
  rewrite pretty_N_go_step by done. apply IH; [apply N.div_lt; lia|].
  change (String (pretty_N_char (x `mod` 10)) s) with (String (pretty_N_char (x `mod` 10)) EmptyString +:+ s)%string.
  rewrite string_bytes_app, forallb_app, Hs, pretty_N_char_digit; [done|]. by apply N.mod_lt.
Qed.

Lemma digit_visible l : forallb digit l = true -> forallb visible l = true.
Proof.
  induction l as [|b l IH]; cbn; [done|]. intros [Hb Hl]%andb_true_iff. rewrite IH by done.
  unfold digit, visible, in_range in *. bool_hyp. rewrite andb_true_r. apply andb_true_iff. lia.
Qed.

Lemma pretty_digits (n : N) : forallb digit (string_bytes (pretty n)) = true.
Proof.
  unfold pretty, pretty_N. case_decide; [by vm_compute|]. by apply pretty_go_digits.
Qed.

Section spiffe.
Context `{Platform}.

Lemma split_visible sep l : visible sep = true -> forallb (forallb visible) (split_byte sep l) = true -> forallb visible l = true.
Proof.
  intros Hs. induction l as [|b l IH]; cbn; [done|].
  destruct (Z.eqb_spec b sep) as [-> |Hb]; cbn; [intros Hl; by rewrite Hs, IH|].
  pose proof (split_byte_nonempty sep l). destruct (split_byte sep l) as [|p ps] eqn:Ep; [done|]. cbn.
  rewrite <-andb_assoc. intros [-> Hl]%andb_true_iff. cbn. apply IH. done.
Qed.

Lemma trust_domain_visible t : validTrustDomain t = true -> forallb visible (string_bytes t) = true.
Proof.
  unfold validTrustDomain. destruct (_ || _); [done|]. intros Hl. apply (split_visible 0x2E); [done|].
  rewrite forallb_forall in *. intros x Hx%Hl. unfold valid_domain_label in Hx. rewrite !andb_true_iff in Hx.
  destruct Hx as [_ Hx]. rewrite forallb_forall in *. intros b Hb%Hx. unfold label_byte, visible, in_range in *.
  rewrite !orb_true_iff, !andb_true_iff, Z.eqb_eq, !Z.leb_le in Hb. apply andb_true_iff. rewrite !Z.leb_le. lia.
Qed.

Lemma spiffe_utf8 t ws g p id : principalSPIFFEID t ws g p = Ok id -> utf8 id.
Proof.
  unfold principalSPIFFEID. destruct (_ || _) eqn:E; [done|]. intros [= <-]. rewrite !orb_false_iff, !negb_false_iff in E.
  destruct E as [_ Ht]. apply utf8_visible. rewrite !string_bytes_app, !forallb_app, (trust_domain_visible t Ht).
  rewrite !PathEscape_bytes, !escaped_visible by apply string_bytes_range.
  by rewrite (digit_visible _ (pretty_digits _)).
Qed.
End spiffe.

Section issued.
Context `{Platform} {L : PlatformLaws} (m : Manager) (Hm : manager_ok m).

(** A token in circulation: its revision has been reached, and a token of a
    node is an access token for a node that is bound in its tenant. *)
Definition issued (c : Claims) (w : world) : Prop :=
  claims_ok m c /\ Revision c <= rev (wv w) (Tenant c) (Subject c) /\
  (RoleNode ∈ Roles c -> Kind c <> kindRefresh /\
    (Kind c = kindAccess -> Roles c = [RoleNode] /\ exists b, bnd (wv w) (Subject c) = Some b /\ BTenant b = Tenant c)).

Lemma issued_later c w w' : w ⊑w w' -> issued c w -> issued c w'.
Proof.
  intros [Hw _ _] (Hc & Hr & Hn). split_and!; [done|pose proof (le_rev _ _ Hw (Tenant c) (Subject c)); lia|].
  intros Hin. destruct (Hn Hin) as [Hk Ha]. split; [done|]. intros Hka. destruct (Ha Hka) as (Hro & b & Hb & Ht).
  split; [done|]. exists b. split; [by apply (le_bnd _ _ Hw)|done].
Qed.

(** Worlds the system goes through. *)
Record sane (w : world) : Prop := {
  sane_head : headroom (wv w);
  sane_clock : 0 <= wt w < 2 ^ 62;
  sane_bound id b : bnd (wv w) id = Some b -> validText (BTenant b) 253 = true;
  sane_grant h g : grant (wv w) h = Some g -> validText (GTenant g) 253 = true;
  sane_dir t s : is_Some (dir (wv w) t s) -> validPrincipal s t = true;
  sane_live : live (wv w) <= maxEnrollments m }.

Lemma times_range now ttl : 0 <= now < 2 ^ 62 -> 0 <= ttl <= 90 * 24 * hour ->
  (- 2 ^ 63 <= Unix now < 2 ^ 63) /\ (- 2 ^ 63 <= Unix (now + ttl) < 2 ^ 63).
Proof.
  unfold Unix, hour, minute, second. intros. split.
  - split; [apply Z.div_le_lower_bound; lia|apply Z.div_lt_upper_bound; lia].
  - split; [apply Z.div_le_lower_bound; lia|apply Z.div_lt_upper_bound; lia].
Qed.

Lemma issued_plain w w0 subject tenant roles kind revision ttl id :
  valid_id id -> validPrincipal subject tenant = true -> normal_roles roles -> utf8 kind -> sane w -> sane w0 ->
  0 <= revision <= rev (wv w) tenant subject -> 0 <= ttl <= 90 * 24 * hour ->
  (RoleNode ∈ roles -> kind = kindAccess /\ roles = [RoleNode] /\ exists b, bnd (wv w) subject = Some b /\ BTenant b = tenant) ->
  issued (plain_claims m subject tenant roles kind revision (Unix (wt w0)) (Unix (wt w0 + ttl)) id) w.
Proof.
  intros Hid Hp Hr Hk Hw Hw0 Hrev Httl Hn.
  destruct (times_range (wt w0) ttl (sane_clock _ Hw0) Httl).
  pose proof (sane_head _ Hw tenant subject). split_and!; cbn.
  - split; cbn; try done; try lia; by eexists.
  - lia.
  - intros Hin. destruct (Hn Hin) as (-> & -> & b & Hb). split; [done|]. intros _. split; [done|]. by exists b.
Qed.

Lemma issued_session w w0 subject tenant roles ws g spiffe revision ttl id :
  valid_id id -> validPrincipal subject tenant = true -> normal_roles roles -> validText ws 256 = true ->
  principalSPIFFEID tenant ws g subject = Ok spiffe -> 0 <= g < 2 ^ 64 -> sane w -> sane w0 ->
  0 <= revision <= rev (wv w) tenant subject -> 0 <= ttl <= 90 * 24 * hour ->
  issued (mkClaims id subject tenant roles kindSession (audience m) revision spiffe ws g
            (Unix (wt w0)) (Unix (wt w0 + ttl))) w.
Proof.
  intros Hid Hp Hr Hws Hs Hg Hw Hw0 Hrev Httl.
  destruct (times_range (wt w0) ttl (sane_clock _ Hw0) Httl).
  pose proof (sane_head _ Hw tenant subject). split_and!; cbn.
  - split; cbn; try done; try lia; [by eexists|by eapply spiffe_utf8|by eapply validText_utf8].
  - lia.
  - intros _. done.
Qed.
End issued.

(** ** SPIFFE identities *)

Lemma sep_split sep (a a' b b' : list Z) :
  Forall (fun c => c <> sep) a -> Forall (fun c => c <> sep) a' -> a ++ sep :: b = a' ++ sep :: b' -> a = a' /\ b = b'.
Proof.
  intros Ha Ha' He. pose proof (f_equal (split_byte sep) He) as Hs. rewrite !split_byte_plain in Hs by done.
  injection Hs as -> _. by apply app_inv_head in He as [= ->].
Qed.

Lemma byte_check (f : Z -> bool) : forallb f (seqZ 0 256) = true -> forall b, 0 <= b < 256 -> f b = true.
Proof. intros Hf b Hb. rewrite forallb_forall in Hf. apply Hf, list_elem_of_In, elem_of_seqZ. lia. Qed.

(** An escaped byte can be read off the front of a text. *)
Definition unescape (l : list Z) : option (Z * nat) :=
  match l with
  | [] => None
  | b :: t => if b =? 0x25 then
                match t with
                | h :: o :: _ => let v c := if c <? 0x41 then c - 0x30 else c - 0x41 + 10 in Some (v h * 16 + v o, 3%nat)
                | _ => None
                end
              else Some (b, 1%nat)
  end.

Lemma unescape_byte b l : 0 <= b < 256 -> unescape (escape_byte b ++ l) = Some (b, length (escape_byte b)).
Proof.
  intros Hb.
  assert (He : escape_byte b = [b] /\ b <> 0x25 \/ exists h o, escape_byte b = [0x25; h; o] /\
    unescape [0x25; h; o] = Some (b, 3%nat)).
  { pose proof (byte_check (fun b => if should_escape b then
      bool_decide (unescape [0x25; upper_hex (b / 16 mod 16); upper_hex (b mod 16)] = Some (b, 3%nat)) else negb (b =? 0x25))
      ltac:(by vm_compute) b Hb) as Hc. cbv beta in Hc. unfold escape_byte.
    destruct (should_escape b); [right; eexists _, _; split; [done|by apply bool_decide_eq_true in Hc]|left].
    split; [done|]. by apply negb_true_iff, Z.eqb_neq in Hc. }
  destruct He as [[-> Hne]|(h & o & -> & Hu)].
  - cbn. by rewrite (proj2 (Z.eqb_neq b 0x25)).
  - exact Hu.
Qed.

Lemma escape_inj l l' : Forall (fun b => 0 <= b < 256) l -> Forall (fun b => 0 <= b < 256) l' ->
  concat (map escape_byte l) = concat (map escape_byte l') -> l = l'.
Proof.
  intros Hl. revert l'. induction Hl as [|b l Hb Hl IH]; intros [|b' l'] Hl' He; cbn in He; [done|..].
  - exfalso. apply Forall_cons_1 in Hl' as [Hb' _]. pose proof (unescape_byte b' (concat (map escape_byte l')) Hb') as Hu.
    by rewrite <-He in Hu.
  - exfalso. pose proof (unescape_byte b (concat (map escape_byte l)) Hb) as Hu. by rewrite He in Hu.
  - apply Forall_cons_1 in Hl' as [Hb' Hl']. pose proof (unescape_byte b (concat (map escape_byte l)) Hb) as Hu.
    rewrite He, unescape_byte in Hu by done. injection Hu as <- _. apply app_inv_head in He. f_equal. by apply IH.
Qed.

Lemma PathEscape_inj a b : PathEscape a = PathEscape b -> a = b.
Proof.
  intros He. apply (f_equal string_bytes) in He. rewrite !PathEscape_bytes in He.
  apply escape_inj in He; [by apply string_bytes_inj|apply string_bytes_range..].
Qed.

Lemma escaped_no_slash l : Forall (fun b => 0 <= b < 256) l -> Forall (fun c => c <> 0x2F) (concat (map escape_byte l)).
Proof.
  induction 1 as [|b l Hb _ IH]; cbn; [done|]. apply Forall_app_2; [|done]. apply Forall_forall. intros c Hc ->.
  pose proof (byte_check (fun b => negb (bool_decide (0x2F ∈ escape_byte b))) ltac:(by vm_compute) b Hb) as Hx.
  cbv beta in Hx. rewrite bool_decide_true in Hx by done. done.
Qed.

Section spiffe_scope.
Context `{Platform}.

Lemma domain_no_slash t : validTrustDomain t = true -> Forall (fun c => c <> 0x2F) (string_bytes t).
Proof.
  unfold validTrustDomain. destruct (_ || existsb _ _) eqn:E; [done|]. intros _. apply orb_false_elim in E as [_ E].
  apply Forall_forall. intros b Hb ->. apply not_true_iff_false in E. apply E, existsb_exists. exists 0x2F.
  split; [by apply list_elem_of_In|by vm_compute].
Qed.

(** A SPIFFE identity determines the scope it was made for. *)
Lemma spiffe_scope t ws g p t' ws' g' p' id :
  0 <= g -> 0 <= g' -> principalSPIFFEID t ws g p = Ok id -> principalSPIFFEID t' ws' g' p' = Ok id ->
  t = t' /\ ws = ws' /\ g = g' /\ p = p'.
Proof.
  intros Hg Hg'. unfold principalSPIFFEID. destruct (_ || negb (validTrustDomain t)) eqn:E; [done|].
  destruct (_ || negb (validTrustDomain t')) eqn:E'; [done|]. apply orb_false_elim in E as [_ E%negb_false_iff].
  apply orb_false_elim in E' as [_ E'%negb_false_iff]. intros [= <-] [= He]. symmetry in He.
  apply (f_equal string_bytes) in He. rewrite !string_bytes_app, !PathEscape_bytes in He.
  apply app_inv_head in He. change (string_bytes "/ws/") with (0x2F :: string_bytes "ws/") in He. cbn [app] in He.
  apply sep_split in He as [Ht He]; [|by apply domain_no_slash..]. apply string_bytes_inj in Ht.
  apply app_inv_head in He. change (string_bytes "/gen/") with (0x2F :: string_bytes "gen/") in He. cbn [app] in He.
  apply sep_split in He as [Hw He]; [|apply escaped_no_slash, string_bytes_range..].
  apply escape_inj in Hw; [|apply string_bytes_range..]. apply string_bytes_inj in Hw.
  apply app_inv_head in He. change (string_bytes "/principal/") with (0x2F :: string_bytes "principal/") in He. cbn [app] in He.
  assert (Hd : forall n : N, Forall (fun c => c <> 0x2F) (string_bytes (pretty n))).
  { intros n. pose proof (pretty_digits n) as Hd. rewrite forallb_forall in Hd. apply Forall_forall.
    intros b Hb ->. specialize (Hd 0x2F ltac:(by apply list_elem_of_In)). done. }
  apply sep_split in He as [Hgg He]; [|apply Hd..]. apply string_bytes_inj, pretty_N_inj in Hgg.
  apply app_inv_head in He. apply escape_inj in He; [|apply string_bytes_range..]. apply string_bytes_inj in He.
  split_and!; try done. lia.
Qed.
End spiffe_scope.
End IdentityProofs.
