(* ===== verification/IdentityTheorems.v ===== *)
(** * Identity: what the authority guarantees

    Any number of requests run against one manager and one store that meets
    [StoreLaws]: the steps of their programs interleave freely, calls of the
    store may fail, the clock moves, and whoever presents a token has it from
    the deployment ([genuine]).  The theorems say who is authenticated, what a
    revocation stops, how often a refresh token and an enrollment can be used,
    and where the code falls short of what it means to do. *)

From Stdlib Require Import ZArith Lia Strings.String Strings.Ascii.
From stdpp Require Import base gmap strings option list relations pretty.
From S2P Require Import Prelude GoStd Identity IdentityProofs.
#[local] Open Scope Z_scope.
#[local] Open Scope remount_scope.

Module IdentityTheorems.
Import GoStd Identity IdentityProofs.

(** ** Requests *)

Inductive request :=
| RIssueTokens (subject tenant : string) (roles : list string)
| RRefresh (token : list Z)
| RRotateRefresh (token : list Z)
| RIssueSession (subject tenant : string) (roles : list string) (workspace : string) (generation ttl : Z)
| RVerifySession (token : list Z) (tenant workspace : string) (generation : Z)
| RRevokePrincipal (tenant subject : string)
| RRevokePrincipalWith (tenant subject : string) (commit : bool)
| RRevoke (token : list Z)
| RAuthenticate (token : list Z) (as_client : bool)
| RIssueEnrollment (pool tenant : string) (l : option labels) (ttl : Z)
| RIssueNodeEnrollment (pool tenant : string) (l : option labels) (ttl : Z) (actor : string)
| RAuthenticateNode (node : string) (token key : list Z)
| RCreatePrincipal (tenant subject : string) (roles : list string) (actor : string)
| RListPrincipals (tenant : string)
| RIssueAccessToken (tenant subject role : string) (ttl : Z)
| RSyncOIDC (tenant subject : string) (roles : list string)
| RCollect (limit : Z).

Inductive reply :=
| RepTokens (r : result error (list Z * list Z))
| RepToken (r : result error (list Z))
| RepExpiring (r : result error (list Z * Z))
| RepSubject (r : result error AuthSubject)
| RepCapability (r : result error (AuthSubject * string * Z))
| RepRevision (r : result error Z)
| RepDone (r : result error unit)
| RepNode (r : result error NodeIdentity)
| RepPrincipal (r : result error Principal)
| RepPrincipals (r : result error (list Principal))
| RepCollected (r : result error (Z * Z)).

Definition reply_with {A} (f : A -> reply) (p : prog A) : prog reply := bind p (fun a => Ret (f a)).

Section system.
Context `{Platform} (m : Manager).

Definition program (r : request) : prog reply :=
  match r with
  | RIssueTokens subject tenant roles => reply_with RepTokens (IssueTokens m subject tenant roles)
  | RRefresh token => reply_with RepToken (Refresh m token)
  | RRotateRefresh token => reply_with RepTokens (RotateRefresh m token)
  | RIssueSession subject tenant roles workspace generation ttl =>
      reply_with RepToken (IssueSessionCapability m subject tenant roles workspace generation ttl)
  | RVerifySession token tenant workspace generation =>
      reply_with RepCapability (VerifyBrokerCapability m token tenant workspace generation)
  | RRevokePrincipal tenant subject => reply_with RepRevision (RevokePrincipal_ tenant subject)
  | RRevokePrincipalWith tenant subject commit => reply_with RepRevision (RevokePrincipalWith_ tenant subject commit)
  | RRevoke token => reply_with RepDone (Revoke_ m token)
  | RAuthenticate token as_client => reply_with RepSubject (Authenticate m token as_client)
  | RIssueEnrollment pool tenant l ttl => reply_with RepToken (issueEnrollment m pool tenant l ttl)
  | RIssueNodeEnrollment pool tenant l ttl actor => reply_with RepExpiring (IssueNodeEnrollment m pool tenant l ttl actor)
  | RAuthenticateNode node token key => reply_with RepNode (AuthenticateNode m node token key)
  | RCreatePrincipal tenant subject roles actor => reply_with RepPrincipal (CreatePrincipal_ tenant subject roles actor)
  | RListPrincipals tenant => reply_with RepPrincipals (ListPrincipals_ tenant)
  | RIssueAccessToken tenant subject role ttl => reply_with RepExpiring (IssueAccessToken m tenant subject role ttl)
  | RSyncOIDC tenant subject roles => reply_with RepPrincipal (SyncOIDCPrincipal tenant subject roles)
  | RCollect limit => Clock (fun now => reply_with RepCollected (ask (CollectExpired now limit)))
  end.

(** The signed tokens a request comes with. *)
Definition presented (r : request) : list (list Z) :=
  match r with
  | RRefresh token | RRotateRefresh token | RVerifySession token _ _ _ | RRevoke token | RAuthenticate token _ => [token]
  | _ => []
  end.

(** Generations are [uint64]. *)
Definition request_ok (r : request) : Prop :=
  match r with RIssueSession _ _ _ _ generation _ => 0 <= generation < 2 ^ 64 | _ => True end.

(** ** The system *)

Record system (S : Type) := mkSystem {
  st : S; now : Z; signed : list Claims; stored : list digest; used : list (digest * string);
  threads : gmap nat (prog reply) }.
Arguments mkSystem {S}. Arguments st {S}. Arguments now {S}. Arguments signed {S}.
Arguments stored {S}. Arguments used {S}. Arguments threads {S}.

(** The digest of an enrollment the call committed. *)
Definition stores {A} (c : call A) : A -> option digest :=
  match c in call A return A -> option digest with
  | PutEnrollmentBounded hash _ _ _ => fun r => match r with Ok _ => Some hash | Err _ => None end
  | _ => fun _ => None
  end.

Definition set_thread {S} (i : nat) (p : prog reply) (s : system S) : system S :=
  mkSystem (st s) (now s) (signed s) (stored s) (used s) (<[i := p]> (threads s)).

Inductive move {S} `{Store S} (s : system S) : system S -> Prop :=
| s_tick t : now s <= t < 2 ^ 62 -> move s (mkSystem (st s) t (signed s) (stored s) (used s) (threads s))
| s_request i r : threads s !! i = None -> request_ok r -> Forall (genuine m (signed s)) (presented r) ->
    move s (set_thread i (program r) s)
| s_ask i B (c : call B) k e a st' : threads s !! i = Some (Ask c k) -> store_do e c (st s) = (a, st') ->
    move s (mkSystem st' (now s) (signed s) (stored s ++ option_list (stores c a)) (used s ++ option_list (uses c a))
              (<[i := k a]> (threads s)))
| s_clock i k : threads s !! i = Some (Clock k) -> move s (set_thread i (k (now s)) s)
| s_sign i c k id : threads s !! i = Some (Sign c k) -> valid_id id ->
    move s (mkSystem (st s) (now s) (c id :: signed s) (stored s) (used s) (<[i := k (sign m (c id))]> (threads s)))
| s_emit i k b : threads s !! i = Some (Emit k) -> move s (set_thread i (k b) s)
| s_random i k raw id : threads s !! i = Some (Random k) -> move s (set_thread i (k raw id) s).

Context {S : Type} `{Store S} `{!StoreLaws S}.

(** No principal is revoked [2 ^ 63] times. *)
Definition step (s s' : system S) : Prop := headroom (view (st s)) /\ move s s'.

Definition initial (s : system S) : Prop :=
  0 <= now s < 2 ^ 62 /\ signed s = [] /\ stored s = [] /\ used s = [] /\ threads s = ∅ /\
  (forall id, bnd (view (st s)) id = None) /\ (forall h, grant (view (st s)) h = None) /\
  (forall t u, dir (view (st s)) t u = None) /\ live (view (st s)) = 0.

Definition reachable (s : system S) : Prop := exists s0, initial s0 /\ rtc step s0 s.

Definition world_of (s : system S) : world := mkWorld (view (st s)) (now s).
End system.
Arguments mkSystem {S}. Arguments st {S}. Arguments now {S}. Arguments signed {S}.
Arguments stored {S}. Arguments used {S}. Arguments threads {S}.

(** ** Every request keeps the invariant *)

Section requests.
Context `{Platform} {L : PlatformLaws} (m : Manager) (Hm : manager_ok m).

Notation wp := (wp m (call_ok m) (sane m) (issued m)).

Lemma le_revision w1 w2 t s : w1 ⊑w w2 -> rev (wv w1) t s <= rev (wv w2) t s.
Proof. intros [Hw _ _]. apply Hw. Qed.

(** A post-condition that asks nothing. *)
Definition any {A} (_ : A) (_ : world) : Prop := True.

Lemma wp_reply {A} (f : A -> reply) (p : prog A) w : wp w p any -> wp w (reply_with f p) any.
Proof. intros Hp. apply wp_bind. eapply wp_conseq; [exact Hp|done]. Qed.

Lemma wp_ensure w subject tenant roles : validPrincipal subject tenant = true ->
  wp w (ensurePrincipalRoles subject tenant roles) any.
Proof.
  intros Hp. cbn. split; [done|]. intros w1 r w2 _ _ _ _. destruct r as [p|e]; [by case_bool_decide|]. destruct e; try done.
  cbn. intros w3 _ _. split; [done|]. intros w4 r w5 _ _ _ _. destruct r as [p|e]; [done|]. destruct e; try done.
  cbn. split; [done|]. intros w6 r w7 _ _ _ _. by destruct r.
Qed.

Lemma access_bound : 0 <= accessTTL m <= 90 * 24 * hour.
Proof. pose proof (manager_bounds m Hm). unfold hour, minute, second in *. lia. Qed.
Lemma refresh_bound : 0 <= refreshTTL m <= 90 * 24 * hour.
Proof. pose proof (manager_bounds m Hm). unfold hour, minute, second in *. lia. Qed.

Lemma wp_IssueTokens w subject tenant roles : wp w (IssueTokens m subject tenant roles) any.
Proof.
  unfold IssueTokens. destruct (normalizeRoles roles) as [rs|] eqn:Er; [|done].
  destruct (validPrincipal subject tenant) eqn:Ep; cbn [negb]; [|done]. destruct (hasRole rs RoleNode) eqn:En; [done|].
  apply hasRole_false in En. apply normalizeRoles_normal in Er.
  apply wp_bind_ok. eapply wp_conseq; [by apply wp_ensure|]. intros [[]|e] w0 _ _; [|done].
  cbn [wp]. intros w1 H1 HI1. apply wp_bind_ok, wp_ask; [done|]. intros w2 r w3 H2 HI2 Ha H3.
  destruct r as [n|]; [|done]. cbn in Ha. subst n.
  assert (Hn : forall w', w3 ⊑w w' -> 0 <= rev (wv w2) tenant subject <= rev (wv w') tenant subject).
  { intros w' Hw. pose proof (sane_head m _ HI2 tenant subject). split; [lia|]. apply le_revision. by etrans. }
  cbn. intros id w4 Hid H4 HI4. split.
  - apply issued_plain; try done; [by eexists|by apply Hn|apply access_bound].
  - intros id' w5 Hid' H5 HI5. split; [|by intros [|]].
    apply issued_plain; try done; [by eexists|apply Hn; by etrans|apply refresh_bound].
Qed.

(** Facts about the claims of a verified token. *)
Lemma verified_issued w w' token kind c :
  (forall c, parseAndVerify m token = Ok c -> issued m c w) -> parseAndVerify m token = Ok c ->
  verified m (sane m) w kind c w' -> w ⊑w w' ->
  Kind c = kind /\ normal_roles (Roles c) /\ validPrincipal (Subject c) (Tenant c) = true /\
  issued m c w' /\ 0 <= Revision c <= rev (wv w') (Tenant c) (Subject c).
Proof.
  intros Ht Hp Hv Hw. destruct (parse_inv m token c Hp) as (_ & _ & _ & _ & _ & _ & _ & _ & _ & _ & _ & Hpr & _ & Hr).
  destruct Hv as [Hvf _ Hvc]. destruct Hvf as (w1 & _ & _ & _ & Hf). destruct Hvc as (w3 & _ & H3 & HI3 & He).
  pose proof (sane_head m _ HI3 (Tenant c) (Subject c)). pose proof (le_revision _ _ (Tenant c) (Subject c) H3).
  unfold fresh_claims in Hf. rewrite !andb_true_iff in Hf. destruct Hf as ((((((Hk & _) & _) & _) & _) & _) & _).
  apply str_eqb_eq in Hk. split_and!; try done; [by eapply issued_later, Ht|lia..].
Qed.

Lemma wp_Refresh w token :
  (forall c, parseAndVerify m token = Ok c -> issued m c w) -> wp w (Refresh m token) any.
Proof.
  intros Ht. apply wp_bind_ok, wp_verify; [by split|by split|done|]. intros c w' Hw Hp Hv.
  destruct (verified_issued w w' token kindRefresh c Ht Hp Hv Hw) as (Hk & Hr & Hpr & Hi & Hrev).
  cbn. intros w1 H1 HI1 id w2 Hid H2 HI2. split; [|done].
  apply issued_plain; try done; [by eexists| |apply access_bound|].
  - pose proof (le_revision w' w2 (Tenant c) (Subject c) ltac:(by etrans)). lia.
  - intros Hn. destruct Hi as (_ & _ & Hi). by destruct (Hi Hn) as [? _].
Qed.

Lemma wp_RotateRefresh w token :
  (forall c, parseAndVerify m token = Ok c -> issued m c w) -> wp w (RotateRefresh m token) any.
Proof.
  intros Ht. apply wp_bind_ok, wp_verify; [by split|by split|done|]. intros c w' Hw Hp Hv.
  apply wp_bind_ok, wp_ask; [done|]. intros w1 r w2 _ _ _ _. destruct r as [[|]|]; cbn [negb]; [|done..].
  apply wp_IssueTokens.
Qed.

Lemma wp_IssueSession w subject tenant roles workspace generation ttl : 0 <= generation < 2 ^ 64 ->
  wp w (IssueSessionCapability m subject tenant roles workspace generation ttl) any.
Proof.
  intros Hg. unfold IssueSessionCapability. destruct (normalizeRoles roles) as [rs|] eqn:Er; [|done].
  destruct (_ || _) eqn:Ev; [done|]. rewrite !orb_false_iff, !negb_false_iff in Ev. destruct Ev as [[Hp Hws] _]. cbv zeta.
  set (t := if ttl =? 0 then _ else _). destruct ((t <=? 0) || _) eqn:Et; [done|]. apply orb_false_elim in Et as [Et1 Et2].
  bool_hyp. destruct (principalSPIFFEID _ _ _ _) as [spiffe|] eqn:Es; [|done].
  apply wp_bind_ok, wp_ask; [done|]. intros w1 r w2 H1 HI1 Ha H2. destruct r as [n|]; [|done]. cbn in Ha. subst n.
  cbn. intros w3 H3 HI3 id w4 Hid H4 HI4. split; [|done].
  apply issued_session; try done; [by eapply normalizeRoles_normal| |].
  - pose proof (sane_head m _ HI1 tenant subject).
    pose proof (le_revision w1 w4 tenant subject ltac:(by do 2 (etrans; [eassumption|]))). lia.
  - pose proof (manager_bounds m Hm). unfold hour, minute, second in *. lia.
Qed.

Lemma wp_VerifySession w token tenant workspace generation :
  wp w (VerifyBrokerCapability m token tenant workspace generation) any.
Proof.
  do 3 apply wp_bind_ok. apply wp_verify; [by split|by split|done|]. intros c w' _ _ _.
  destruct (principalSPIFFEID _ _ _ _); [|done]. destruct (_ <>s _); [done|]. cbn.
  by destruct (_ || _ || _).
Qed.

Lemma wp_Authenticate w token as_client : wp w (Authenticate m token as_client) any.
Proof.
  apply wp_bind, wp_verify; [by split|by split|done|]. intros c w' _ _ _. cbv zeta. destruct (_ && _); [done|].
  destruct (hasRole _ _); [done|]. cbn. split; [done|]. intros w1 r w2 _ _ _ _. destruct r; [|done].
  by destruct (_ || _).
Qed.

Lemma wp_issueEnrollmentAs w pool tenant l ttl ty actor : wp w (issueEnrollmentAs m pool tenant l ttl ty actor) any.
Proof.
  unfold issueEnrollmentAs. destruct (enrollment_invalid _ _ _ _) eqn:Ei; [done|]. cbn. intros raw id.
  destruct raw as [raw|]; [|done]. cbn. intros w1 H1 HI1. split.
  - split; [done|]. cbn. split; [|done]. unfold enrollment_invalid in Ei. rewrite !orb_false_iff, !negb_false_iff in Ei. tauto.
  - intros w2 r w3 _ _ _ _. by destruct r.
Qed.

Lemma wp_AuthenticateNode w node token key : wp w (AuthenticateNode m node token key) any.
Proof.
  unfold AuthenticateNode. destruct (valid_node_hello node key) eqn:Ev; cbn [negb]; [|done]. cbv zeta.
  cbn [wp]. intros w1 H1 HI1 w2 H2 HI2. apply wp_bind_ok, wp_ask; [done|]. intros w3 r w4 H3 HI3 Ha H4.
  destruct r as [[[b fresh] ok]|]; [|done]. destruct ok; cbn [negb orb]; [|done]. case_bool_decide as Hk; cbn [negb]; [|done].
  assert (Hb : bnd (wv w4) node = Some (bound b)).
  { destruct fresh; cbn in Ha; [by destruct Ha as (_ & ? & _)|]. destruct H4 as [H4 _ _]. by apply (le_bnd _ _ H4). }
  cbn. intros w5 H5 HI5 id w6 Hid H6 HI6. split; [|done].
  assert (Hb6 : bnd (wv w6) node = Some (bound b)).
  { assert (Hw : w4 ⊑w w6) by (by etrans). destruct Hw as [Hw _ _]. by apply (le_bnd _ _ Hw). }
  unfold valid_node_hello in Ev. rewrite !andb_true_iff in Ev. destruct Ev as [[_ Hv] _].
  apply issued_plain; try done.
  - unfold validPrincipal. rewrite (validText_mono _ 128 256) by done. cbn. apply (sane_bound m _ HI6 _ _ Hb6).
  - split_and!; [done|apply NoDup_singleton|]. apply Forall_singleton. unfold all_roles. set_solver.
  - by eexists.
  - pose proof (sane_head m _ HI6 (BindTenant b) node). lia.
  - apply access_bound.
  - intros _. split_and!; [done|done|]. by exists (bound b).
Qed.

Lemma wp_IssueAccessToken w tenant subject role ttl :
  wp w (IssueAccessToken m tenant subject role ttl) any.
Proof.
  unfold IssueAccessToken. destruct (normalizeRoles [role]) as [rs|] eqn:Er; [|done].
  case_bool_decide as Hn; cbn [orb]; [done|]. destruct (ttl <? second) eqn:Et; [done|].
  destruct (accessTTL m <? ttl) eqn:Ea; [done|]. bool_hyp. cbn. split; [done|]. intros w1 r w2 H1 HI1 Hans H2.
  destruct r as [p|e]; [|by destruct e]. destruct Hans as [Hdir Hrev]. destruct (negb _); [done|].
  cbn. intros w3 H3 HI3 id w4 Hid H4 HI4. split; [|by intros [|]].
  apply issued_plain; try done.
  - apply (sane_dir m _ HI1). by rewrite Hdir.
  - by eapply normalizeRoles_normal.
  - by eexists.
  - pose proof (sane_head m _ HI1 tenant subject).
    pose proof (le_revision w1 w4 tenant subject ltac:(by do 2 (etrans; [eassumption|]))). lia.
  - pose proof access_bound. unfold second in *. lia.
Qed.

Lemma wp_simple {A} (c : call (result error A)) w : (forall t, call_ok m _ t c) -> wp w (ask c) any.
Proof. intros Hc. by apply wp_ask. Qed.

Lemma wp_request w r :
  request_ok r -> (forall token c, token ∈ presented r -> parseAndVerify m token = Ok c -> issued m c w) ->
  wp w (program m r) any.
Proof.
  intros Hok Ht. assert (Ht' : forall token, presented r = [token] -> forall c, parseAndVerify m token = Ok c -> issued m c w).
  { intros token Hpr c. apply Ht. rewrite Hpr. apply list_elem_of_here. }
  destruct r; cbn [program]; try apply wp_reply.
  - apply wp_IssueTokens.
  - by apply wp_Refresh, Ht'.
  - by apply wp_RotateRefresh, Ht'.
  - by apply wp_IssueSession.
  - apply wp_VerifySession.
  - unfold RevokePrincipal_. destruct (negb _); [done|]. intros w1 _ _. by apply wp_simple.
  - unfold RevokePrincipalWith_. destruct (negb _); [done|]. intros w1 _ _. by apply wp_simple.
  - unfold Revoke_. destruct (parseAndVerify m token); [|done]. by apply wp_simple.
  - apply wp_Authenticate.
  - apply wp_bind_ok. eapply wp_conseq; [apply wp_issueEnrollmentAs|]. by intros [x|].
  - unfold IssueNodeEnrollment. destruct (enrollment_invalid _ _ _ _); [done|]. apply wp_bind.
    eapply wp_conseq; [apply wp_issueEnrollmentAs|]. intros [x|e]; [done|by destruct e].
  - apply wp_AuthenticateNode.
  - unfold CreatePrincipal_. destruct (normalizeRoles roles); [|done]. destruct (_ || _) eqn:E; [done|].
    rewrite !orb_false_iff, !negb_false_iff in E. cbn. intros w1 _ _. split; [split; [done|by apply E]|].
    intros w2 x w3 _ _ _ _. destruct x as [|e]; [done|by destruct e].
  - unfold ListPrincipals_. destruct (negb _); [done|]. by apply wp_simple.
  - apply wp_IssueAccessToken.
  - unfold SyncOIDCPrincipal. destruct (normalizeRoles roles); [|done]. destruct (_ || _) eqn:E; [done|].
    rewrite !orb_false_iff, !negb_false_iff in E. cbn. intros w1 _ _. split; [split; [done|by apply E]|].
    intros w2 x w3 _ _ _ _. by destruct x.
  - intros w1 _ _. apply wp_reply, wp_ask; [|done]. by split; cbn.
Qed.
End requests.

(** ** The invariant of the system *)

Section invariant.
Context `{Platform} {L : PlatformLaws} (m : Manager) (Hm : manager_ok m).
Context {S : Type} `{Store S} `{!StoreLaws S}.
Implicit Types (s : system S).

Notation step := (step m).

Definition occurrences (h : digest) (l : list digest) : nat := length (filter (fun x => x = h) l).

Definition kept_grant (v : View) (h : digest) : nat := match grant v h with Some _ => 1 | None => 0 end.

Record system_ok s : Prop := {
  sys_world : headroom (view (st s)) -> sane m (world_of s);
  sys_signed : Forall (fun c => issued m c (world_of s)) (signed s);
  sys_threads i p : threads s !! i = Some p -> wp m (call_ok m) (sane m) (issued m) (world_of s) p any;
  sys_used h : (occurrences h (map fst (used s)) + kept_grant (view (st s)) h <= occurrences h (stored s))%nat }.

Lemma any_stable {A} : stable (any (A := A)).
Proof. done. Qed.

Lemma step_le s s' : system_ok s -> step s s' -> world_of s ⊑w world_of s'.
Proof.
  intros Hok [Hh Hs]. destruct Hs as [t Ht|i r Hi _ Hg|i B c k e a st' Hi Hdo|i k Hi|i c k id Hi Hid|i k b Hi|i k raw id Hi];
    try reflexivity.
  - split; cbn; [reflexivity|lia|]. intros id e He. left. by exists e.
  - destruct (store_law e c (st s) a st' Hh Hdo) as (Hv & Hf & _). destruct (sys_threads _ Hok i _ Hi) as [Hc _].
    by eapply (call_world m).
Qed.

Lemma occurrences_app h l l' : occurrences h (l ++ l') = (occurrences h l + occurrences h l')%nat.
Proof. unfold occurrences. by rewrite filter_app, length_app. Qed.

Lemma occurrences_one h x : occurrences h [x] = if decide (x = h) then 1%nat else 0%nat.
Proof. unfold occurrences. rewrite filter_cons. by case_decide. Qed.

Lemma ask_sane {A} t (c : call A) v a v' :
  sane m (mkWorld v t) -> call_ok m _ t c -> call_frame c v a v' -> answers c v a v' -> headroom v' -> sane m (mkWorld v' t).
Proof.
  intros [Hh Hc Hb Hg Hd Hl] [_ Hok] [_ Fg Fb Fd Fl] Ha Hh'. split; cbn in *; try done.
  - intros id b Hid. destruct (Fb id) as [He|(h & Hu & Hn)]; [rewrite He in Hid; by eapply Hb|].
    destruct c; try done. cbn in Hu. destruct a as [[[x [|]] [|]]|]; try done. injection Hu as <- <-.
    destruct Ha as (_ & Hx & _ & g & Hgr & _ & He). rewrite Hx in Hid. injection Hid as <-. rewrite He. cbn. by eapply Hg.
  - intros h g Hh2. destruct (Fg h) as [He|[He|Hp]]; [rewrite He in Hh2; by eapply Hg|congruence|].
    destruct c; try done. cbn in Hp. subst h. destruct a as [|]; cbn in Ha.
    + destruct Ha as (u & _ & He). rewrite He in Hh2. injection Hh2 as <-. by destruct Hok.
    + destruct Ha as [He|He]; rewrite He in Hh2; [by eapply Hg|done].
  - intros t' u Hs. destruct (Fd t' u Hs) as [?|Has]; [by apply Hd|].
    destruct c; try done; cbn in Has; destruct (Has Hok) as [-> ->]; done.
  - pose proof (manager_bounds m Hm) as (_ & _ & _ & _ & Hmx).
    assert (capacity c <= maxEnrollments m); [|lia]. destruct c; cbn in Hok |- *; lia.
Qed.

Lemma occurrences_nil h : occurrences h [] = 0%nat.
Proof. done. Qed.

Lemma ask_used {A} (c : call A) v a v' (u : list (digest * string)) (sd : list digest) h :
  call_frame c v a v' -> answers c v a v' ->
  (occurrences h (map fst u) + kept_grant v h <= occurrences h sd)%nat ->
  (occurrences h (map fst (u ++ option_list (uses c a))) + kept_grant v' h <=
    occurrences h (sd ++ option_list (stores c a)))%nat.
Proof.
  intros [_ Fg _ _ _] Ha Hu. rewrite map_app, !occurrences_app. specialize (Fg h).
  assert (Hk : uses c a = None -> stores c a = None -> ~ puts c h -> (kept_grant v' h <= kept_grant v h)%nat).
  { intros _ _ Hp. unfold kept_grant. destruct Fg as [->|[->|?]]; [lia|destruct (grant v h); lia|done]. }
  destruct c; cbn [uses stores] in *; cbn [option_list map]; rewrite ?Nat.add_0_r;
    try (specialize (Hk eq_refl eq_refl ltac:(by intros [])); rewrite ?occurrences_nil; lia).
  - (* PutEnrollmentBounded *)
    destruct a as [x|x]; cbn [option_list map]; cbn in Ha; rewrite ?occurrences_nil.
    + change (option_list (Some hash)) with [hash]. rewrite occurrences_one. case_decide as Hh.
      * unfold kept_grant at 1. destruct (grant v' h); unfold kept_grant in Hu; destruct (grant v h); lia.
      * assert (kept_grant v' h <= kept_grant v h)%nat; [|lia]. unfold kept_grant.
        destruct Fg as [->|[->|Hp]]; [done|destruct (grant v h); lia|by cbn in Hp].
    + assert (kept_grant v' h <= kept_grant v h)%nat; [|lia]. unfold kept_grant.
      destruct Fg as [->|[->|Hp]]; [done|destruct (grant v h); lia|]. cbn in Hp. subst h.
      destruct Ha as [->| ->]; [done|]. destruct (grant v hash); lia.
  - (* EnrollNode *)
    assert (Hkk : (kept_grant v' h <= kept_grant v h)%nat).
    { unfold kept_grant. destruct Fg as [->|[->|Hp]]; [done|destruct (grant v h); lia|by cbn in Hp]. }
    destruct a as [[[b [|]] [|]]|]; cbn [option_list map]; rewrite ?occurrences_nil; try lia.
    change (map fst (option_list (Some (hash, NodeID candidate)))) with [hash].
    rewrite occurrences_one. case_decide as Hh; [|lia]. subst h. destruct Ha as (_ & _ & Hg' & g & Hg & _).
    unfold kept_grant in *. rewrite Hg in Hu. rewrite Hg'. lia.
Qed.

Lemma insert_threads (P : prog reply -> Prop) (t : gmap nat (prog reply)) i p :
  (forall j q, t !! j = Some q -> P q) -> P p -> forall j q, <[i := p]> t !! j = Some q -> P q.
Proof. intros Ht Hp j q [[-> ->]|[Hne Hq]]%lookup_insert_Some; [done|by eapply Ht]. Qed.

Lemma later_threads s w (t : gmap nat (prog reply)) :
  world_of s ⊑w w -> (forall i p, t !! i = Some p -> wp m (call_ok m) (sane m) (issued m) (world_of s) p any) ->
  forall i p, t !! i = Some p -> wp m (call_ok m) (sane m) (issued m) w p any.
Proof. intros Hw Ht i p Hp. eapply wp_later; [intros; by eapply call_ok_mono|apply any_stable|exact Hw|by eapply Ht]. Qed.

Lemma later_signed w w' (l : list Claims) :
  w ⊑w w' -> Forall (fun c => issued m c w) l -> Forall (fun c => issued m c w') l.
Proof. intros Hw Hl. eapply Forall_impl; [exact Hl|]. intros c. by apply issued_later. Qed.

Lemma signed_genuine s token c :
  system_ok s -> genuine m (signed s) token -> parseAndVerify m token = Ok c -> issued m c (world_of s).
Proof.
  intros Hs Hg Hp. pose proof (sys_signed _ Hs) as Hf.
  assert (Hin : c ∈ signed s).
  { apply (genuine_parse m (signed s) token c Hm Hg); [|done]. eapply Forall_impl; [exact Hf|]. by intros x [? _]. }
  rewrite Forall_forall in Hf. by apply Hf.
Qed.

(** [s] answers a new request [r] under [i]. *)
Definition spawns (s : system S) (i : nat) (r : request) (s' : system S) : Prop :=
  threads s !! i = None /\ request_ok r /\ Forall (genuine m (signed s)) (presented r) /\
  s' = set_thread i (program m r) s.

(** Request [r] arrives at [s] in thread [i] and at [s'] it is answered. *)
Definition serves (s : system S) (i : nat) (r : request) (rep : reply) (s' : system S) : Prop :=
  exists s1, spawns s i r s1 /\ rtc step s1 s' /\ threads s' !! i = Some (Ret rep).

Lemma spawn_ok s i r s1 : system_ok s -> spawns s i r s1 -> system_ok s1.
Proof.
  intros [Hw Hsg Hth Hus] (Hi & Hr & Hg & ->). split; cbn; try done. apply insert_threads; [done|].
  apply wp_request; [done|done|]. intros token c Htok Hp. apply (signed_genuine s token c); [by split| |exact Hp].
  rewrite Forall_forall in Hg. by apply Hg.
Qed.

Lemma id_step_ok s s' : system_ok s -> step s s' -> system_ok s'.
Proof.
  intros Hs Hst. pose proof (step_le s s' Hs Hst) as Hle. destruct Hst as [Hh Hmv].
  pose proof (sys_world _ Hs Hh) as HI. destruct Hs as [Hw Hsg Hth Hus].
  pose proof (later_signed _ _ _ Hle Hsg) as Hsg'.
  pose proof (later_threads s (world_of s') (threads s) Hle Hth) as Hth'.
  destruct Hmv as [t Ht|i r Hi Hok Hg|i B c k e a st' Hi Hdo|i k Hi|i c k id Hi Hid|i k b Hi|i k raw id Hi].
  - split; cbn; try done. intros _. destruct HI as [? Hcl ? ? ? ?]. split; cbn in *; try done. lia.
  - by apply (spawn_ok s i r); [split|].
  - destruct (store_law e c (st s) a st' Hh Hdo) as (Hv & Hf & Ha). destruct (Hth i _ Hi) as [Hc Hk].
    split; cbn.
    + intros Hh'. eapply (ask_sane (now s) c); [exact HI|exact Hc|exact Hf|exact Ha|exact Hh'].
    + done.
    + apply insert_threads; [done|]. eapply (Hk (world_of s) a); [reflexivity|done|exact Ha|exact Hle].
    + intros h. by eapply ask_used.
  - split; cbn; try done. apply insert_threads; [done|]. apply (Hth i _ Hi); [reflexivity|done].
  - destruct (Hth i _ Hi id (world_of s) Hid) as [HG Hk]; [reflexivity|done|].
    split; cbn; try done; [by constructor|]. by apply insert_threads.
  - split; cbn; try done. apply insert_threads; [done|]. apply (Hth i _ Hi).
  - split; cbn; try done. apply insert_threads; [done|]. apply (Hth i _ Hi).
Qed.

Lemma id_initial_ok s : initial s -> system_ok s.
Proof.
  intros (Hn & Hsg & Hst & Hus & Hth & Hb & Hg & Hd & Hl). split.
  - intros Hh. split; cbn; try done.
    + intros id b. by rewrite Hb.
    + intros h g. by rewrite Hg.
    + intros t u [r Hr]. by rewrite Hd in Hr.
    + rewrite Hl. pose proof (manager_bounds m Hm). lia.
  - by rewrite Hsg.
  - intros i p. by rewrite Hth.
  - intros h. rewrite Hus, Hst. unfold kept_grant. by rewrite Hg.
Qed.

Lemma steps_ok s s' : system_ok s -> rtc step s s' -> system_ok s'.
Proof. intros Hs. induction 1 as [|a b c Hst _ IH]; [done|]. by apply IH, (id_step_ok a). Qed.

Lemma steps_le s s' : system_ok s -> rtc step s s' -> world_of s ⊑w world_of s'.
Proof.
  intros Hs. induction 1 as [|a b c Hst _ IH]; [reflexivity|].
  etrans; [by apply step_le|]. apply IH. by eapply id_step_ok.
Qed.

Lemma reachable_system s : reachable m s -> system_ok s.
Proof. intros (s0 & Hi & Hr). eapply steps_ok; [by apply id_initial_ok|done]. Qed.

(** *** One request among others *)

(** Steps during which [I] holds of the worlds the steps happen at. *)
Definition during (I : world -> Prop) : relation (system S) := rtc (fun a b => step a b /\ I (world_of a)).

Lemma follow I Q i s1 s2 p :
  system_ok s1 -> stable Q -> during I s1 s2 -> threads s1 !! i = Some p -> wp m free I anything (world_of s1) p Q ->
  exists p', threads s2 !! i = Some p' /\ wp m free I anything (world_of s2) p' Q.
Proof.
  intros Hok HQ Hd. revert p. induction Hd as [s|s s' s2 [Hst HI] _ IH]; intros p Hp Hwp; [eauto|].
  pose proof (step_le s s' Hok Hst) as Hle. specialize (IH (id_step_ok s s' Hok Hst)).
  assert (Hsame : threads s' !! i = Some p ->
    exists p', threads s2 !! i = Some p' /\ wp m free I anything (world_of s2) p' Q).
  { intros Hp'. apply (IH p Hp'). by eapply wp_later; [|done|exact Hle|]. }
  destruct Hst as [Hh Hmv].
  destruct Hmv as [t Ht|j r Hi Hrq Hg|j B c k e a st' Hi Hdo|j k Hi|j c k id Hi Hid|j k b Hi|j k raw id Hi];
    [by apply Hsame|..]; (destruct (decide (j = i)) as [-> |Hne];
      [|apply Hsame; cbn; by rewrite lookup_insert_ne]); [congruence|..];
    rewrite Hi in Hp; injection Hp as <-; (eapply IH; [cbn; apply lookup_insert_eq|]); cbn in Hwp.
  - destruct (store_law e c (st s) a st' Hh Hdo) as (Hv & _ & Ha). destruct Hwp as [_ Hk].
    eapply (Hk (world_of s) a); [reflexivity|done|exact Ha|exact Hle].
  - apply Hwp; [reflexivity|done].
  - destruct (Hwp id (world_of s) Hid) as [_ Hk]; [reflexivity|done|exact Hk].
  - apply Hwp.
  - apply Hwp.
Qed.

Lemma answered I Q i r s s1 s2 rep :
  system_ok s -> stable Q -> spawns s i r s1 -> during I s1 s2 -> threads s2 !! i = Some (Ret rep) ->
  wp m free I anything (world_of s) (program m r) Q -> Q rep (world_of s2).
Proof.
  intros Hok HQ Hsp Hd Hrep Hwp. pose proof (spawn_ok s i r s1 Hok Hsp) as Hok1. destruct Hsp as (_ & _ & _ & ->).
  destruct (follow I Q i _ s2 (program m r) Hok1 HQ Hd) as (p' & Hp' & Hw); [cbn; apply lookup_insert_eq|exact Hwp|].
  rewrite Hrep in Hp'. by injection Hp' as <-.
Qed.
End invariant.

(** ** What a token is good for *)

(** Requests that live on a token, and replies that grant what it stands for. *)
Definition honours (r : request) (token : list Z) : Prop :=
  match r with
  | RRefresh t | RRotateRefresh t | RVerifySession t _ _ _ | RAuthenticate t _ => t = token
  | _ => False
  end.

Definition grants (rep : reply) : bool :=
  match rep with
  | RepTokens (Ok _) | RepToken (Ok _) | RepSubject (Ok _) | RepCapability (Ok _) => true
  | _ => false
  end.

(** Requests that use a token up. *)
Definition spends (r : request) (token : list Z) : Prop :=
  match r with RRevoke t | RRotateRefresh t => t = token | _ => False end.

Definition succeeds (rep : reply) : bool :=
  match rep with RepTokens (Ok _) | RepDone (Ok _) => true | _ => false end.

Section tokens.
Context `{Platform} {L : PlatformLaws} (m : Manager) (Hm : manager_ok m).
Context {S : Type} `{Store S} `{!StoreLaws S}.
Implicit Types (s : system S).

Notation step := (step m).

Lemma verified_stable I w kind c : stable (fun (_ : unit) w' => verified m I w kind c w').
Proof.
  intros [] w1 w2 Hw [Hf Hu Hc]. split.
  - destruct Hf as (x & ? & ? & ?). exists x. split_and!; [done|by etrans|apply H3..].
  - destruct Hu as (x & y & ? & ? & ? & ?). exists x, y. split_and!; [done|done|by etrans|apply H4..].
  - destruct Hc as (x & ? & ? & ?). exists x. split_and!; [done|by etrans|apply H3..].
Qed.

(** The kind of token a request asks for. *)
Definition wanted (r : request) : string :=
  match r with
  | RRefresh _ | RRotateRefresh _ => kindRefresh
  | RVerifySession _ _ _ _ => kindSession
  | _ => kindAccess
  end.

Definition by_token (I : world -> Prop) (w : world) (r : request) (token : list Z) (rep : reply) (w' : world) : Prop :=
  grants rep = true -> exists c, parseAndVerify m token = Ok c /\ verified m I w (wanted r) c w'.

Lemma by_token_stable I w r token : stable (by_token I w r token).
Proof.
  intros rep w1 w2 Hw Hb Hg. destruct (Hb Hg) as (c & Hp & Hv). exists c. split; [done|].
  by apply (verified_stable I w (wanted r) c tt w1 w2).
Qed.

(** Whatever runs meanwhile, a granting reply went through [verify]. *)
Lemma verify_first {B} I w kind token (f : result error B -> reply) (k : result error Claims -> prog (result error B))
    (Q : reply -> world -> Prop) :
  stable Q -> (forall e, k (Err e) = fail EUnauthorized \/ k (Err e) = fail e) ->
  (forall e w', Q (f (Err e)) w') ->
  (forall c w' rep, parseAndVerify m token = Ok c -> verified m I w kind c w' -> Q rep w') ->
  wp m free I anything w (reply_with f (bind (verify m token kind) k)) Q.
Proof.
  intros Hst Hk HE HO. apply wp_bind, wp_bind, wp_verify; [done|done|..].
  - intros e w' _. destruct (Hk e) as [->| ->]; apply HE.
  - intros c w' _ Hp Hv. eapply wp_conseq; [apply wp_free|]. intros a w2 Hw _. eapply Hst; [exact Hw|]. by eapply HO.
Qed.

Lemma honours_wp I w r token : honours r token -> wp m free I anything w (program m r) (by_token I w r token).
Proof.
  intros Hh. pose proof (by_token_stable I w r token) as Hst.
  assert (HO : forall c w' rep, parseAndVerify m token = Ok c -> verified m I w (wanted r) c w' ->
    by_token I w r token rep w') by (intros c w' rep Hp Hv _; by exists c).
  destruct r; try done; cbn in Hh; subst; cbn [program].
  - apply verify_first; [done|by right|done|exact HO].
  - apply verify_first; [done|by right|done|exact HO].
  - apply wp_bind. do 3 apply wp_bind_ok. apply wp_verify; [done|done|done|]. intros c w1 _ Hp Hv.
    assert (Hend : forall w2 rep, w1 ⊑w w2 -> by_token I w (RVerifySession token tenant workspace generation) token rep w2).
    { intros w2 rep Hw. eapply Hst; [exact Hw|]. by apply (HO c). }
    eapply wp_conseq; [apply wp_free|]. intros [cap|e] w2 H2 _; [|by apply Hend].
    eapply wp_conseq; [apply wp_free|]. intros [cap2|e] w3 H3 _; [|apply Hend; by etrans].
    cbn. apply Hend. by etrans.
  - apply verify_first; [done|by left|done|exact HO].
Qed.

Lemma during_any s1 s2 : rtc step s1 s2 -> during m (fun _ => True) s1 s2.
Proof. induction 1 as [|a b c Hs _ IH]; [constructor|]. by eapply rtc_l. Qed.

(** The worlds of a stretch of steps. *)
Definition between s1 s2 (w : world) : Prop := exists sx, rtc step s1 sx /\ rtc step sx s2 /\ w = world_of sx.

Lemma during_between s1 s2 : rtc step s1 s2 -> during m (between s1 s2) s1 s2.
Proof.
  intros Hr. enough (forall a, rtc step s1 a -> rtc step a s2 -> during m (between s1 s2) a s2) as He by by apply He.
  clear Hr. intros a Ha Hr. induction Hr as [|a b c Hs Hr IH]; [constructor|].
  eapply rtc_l; [split; [exact Hs|]|apply IH; by eapply rtc_r]. exists a. split_and!; [done|by eapply rtc_l|done].
Qed.

(** *** Spent tokens *)

Definition kept_spent (c : Claims) (rep : reply) (w : world) : Prop :=
  succeeds rep = true -> of_unix (Expires c) <= wt w \/
    exists e, spent (wv w) (ID c) = Some e /\ of_unix (Expires c) <= e.

Lemma kept_spent_stable c : stable (kept_spent c).
Proof.
  intros rep w w' Hw Hk Hr. destruct (Hk Hr) as [Ht|(e & He & Hle)]; [left; pose proof (le_time _ _ Hw); lia|].
  destruct (le_spent _ _ Hw _ _ He) as [(e' & He' & ?)|?]; [right; exists e'; split; [done|lia]|left; lia].
Qed.

Lemma unix_divides x : (second | of_unix x).
Proof. by exists x. Qed.

Lemma spends_wp I w r token c :
  spends r token -> parseAndVerify m token = Ok c -> wp m free I anything w (program m r) (kept_spent c).
Proof.
  intros Hs Hp. pose proof (kept_spent_stable c) as Hst. destruct r; try done; cbn in Hs; subst; cbn [program].
  - apply wp_bind, wp_bind_ok, wp_verify; [done|done|done|]. intros c' w1 _ Hp' _. rewrite Hp in Hp'. injection Hp' as <-.
    apply wp_bind_ok, wp_ask; [done|]. intros w2 a w3 _ _ Ha _. destruct a as [[|]|]; [|done|done]. cbn [negb].
    eapply wp_conseq; [apply wp_free|]. intros x w4 Hw _. cbn. eapply Hst; [exact Hw|]. intros _. right.
    destruct Ha as [_ Ha]. exists (of_unix (Expires c)). split; [apply Ha, unix_divides|done].
  - apply wp_bind. unfold Revoke_. rewrite Hp. apply wp_ask; [done|]. intros w1 a w2 _ _ Ha _. cbn. intros Hok.
    destruct a as [[]|]; [|done]. right. apply Ha, unix_divides.
Qed.

(** C14: a token that was revoked or exchanged is worth nothing.  Once a
    revocation of it, or a rotation that consumed it, has been answered with
    success, no request that is made with it afterwards is granted before the
    instant the token expires, whatever other requests, failures and clean-ups
    run in between. *)
Theorem spent_token_is_refused s0 s0' s j r0 rep0 token c i r s1 s2 rep :
  reachable m s0 -> parseAndVerify m token = Ok c ->
  spends r0 token -> spawns m s0 j r0 s0' -> rtc step s0' s -> threads s !! j = Some (Ret rep0) -> succeeds rep0 = true ->
  honours r token -> spawns m s i r s1 -> rtc step s1 s2 -> threads s2 !! i = Some (Ret rep) ->
  now s2 < of_unix (Expires c) -> grants rep = false.
Proof.
  intros Hr Hp Hsp Hj Hs0 Hrep0 Hok Hh Hi Hs1 Hrep Hnow. apply (reachable_system m Hm) in Hr as Hok0.
  pose proof (spawn_ok m Hm s0 j r0 s0' Hok0 Hj) as Hok0'. pose proof (steps_ok m Hm _ _ Hok0' Hs0) as Hoks.
  assert (Hk : kept_spent c rep0 (world_of s)).
  { eapply (answered m Hm (fun _ => True)); [exact Hok0|apply kept_spent_stable|exact Hj|by apply during_any|exact Hrep0|].
    by eapply spends_wp. }
  assert (Hb : by_token (fun _ => True) (world_of s) r token rep (world_of s2)).
  { eapply (answered m Hm (fun _ => True)); [exact Hoks|apply by_token_stable|exact Hi|by apply during_any|exact Hrep|].
    by apply honours_wp. }
  destruct (grants rep) eqn:Eg; [exfalso|done]. destruct (Hb Eg) as (c' & Hp' & Hv). rewrite Hp in Hp'. injection Hp' as <-.
  destruct Hv as [_ (w1 & w2 & H1 & H2 & H3 & _ & _ & Hu) _]. pose proof (le_time _ _ H3) as T3. pose proof (le_time _ _ H2) as T2.
  cbn in T3. destruct (Hk Hok) as [Ht|(e & He & Hle)].
  - pose proof (le_time _ _ H1). cbn in *. lia.
  - assert (H02 : world_of s ⊑w w2) by (by etrans).
    destruct (le_spent _ _ H02 _ _ He) as [(e' & He' & ?)|?]; [|lia]. specialize (Hu _ He'). lia.
Qed.

(** *** Revoked principals *)

Definition advanced (w : world) (tenant subject : string) (rep : reply) (w' : world) : Prop :=
  forall n, rep = RepRevision (Ok n) -> rev (wv w) tenant subject < rev (wv w') tenant subject.

Lemma advanced_stable w tenant subject : stable (advanced w tenant subject).
Proof. intros rep w1 w2 Hw Ha n Hn. specialize (Ha n Hn). pose proof (le_rev _ _ (le_view _ _ Hw) tenant subject). lia. Qed.

Definition revokes (r : request) (tenant subject : string) : Prop :=
  match r with RRevokePrincipal t u | RRevokePrincipalWith t u _ => t = tenant /\ u = subject | _ => False end.

Lemma revokes_wp I w r tenant subject :
  revokes r tenant subject -> wp m free I anything w (program m r) (advanced w tenant subject).
Proof.
  intros Hr. destruct r; try done; destruct Hr as [-> ->]; cbn [program];
    apply wp_bind; unfold RevokePrincipal_, RevokePrincipalWith_; (destruct (negb _); [done|]);
    intros w1 H1 _; (apply wp_ask; [done|]); intros w2 a w3 H2 _ Ha _; cbn; intros n [= ->];
    destruct Ha as [-> ->]; pose proof (le_rev _ _ (le_view _ _ H1) tenant subject);
    pose proof (le_rev _ _ (le_view _ _ H2) tenant subject); lia.
Qed.

(** C13: revoking a principal ends all its sessions.  Once the revocation has
    been answered, no request made afterwards with an access, refresh or
    session token that was signed for the principal before the revocation was
    asked for is ever granted, whatever requests, role changes and failures
    come in between and after. *)
Theorem revoked_principal_is_locked_out s0 s0' s j r0 n token c i r s1 s2 rep :
  reachable m s0 -> c ∈ signed s0 -> parseAndVerify m token = Ok c ->
  revokes r0 (Tenant c) (Subject c) -> spawns m s0 j r0 s0' -> rtc step s0' s ->
  threads s !! j = Some (Ret (RepRevision (Ok n))) ->
  honours r token -> spawns m s i r s1 -> rtc step s1 s2 -> threads s2 !! i = Some (Ret rep) -> grants rep = false.
Proof.
  intros Hr Hin Hp Hsp Hj Hs0 Hrep0 Hh Hi Hs1 Hrep. apply (reachable_system m Hm) in Hr as Hok0.
  pose proof (spawn_ok m Hm s0 j r0 s0' Hok0 Hj) as Hok0'. pose proof (steps_ok m Hm _ _ Hok0' Hs0) as Hoks.
  assert (Hk : advanced (world_of s0) (Tenant c) (Subject c) (RepRevision (Ok n)) (world_of s)).
  { eapply (answered m Hm (fun _ => True)); [exact Hok0|apply advanced_stable|exact Hj|by apply during_any|exact Hrep0|].
    by eapply revokes_wp. }
  assert (Hb : by_token (fun _ => True) (world_of s) r token rep (world_of s2)).
  { eapply (answered m Hm (fun _ => True)); [exact Hoks|apply by_token_stable|exact Hi|by apply during_any|exact Hrep|].
    by apply honours_wp. }
  destruct (grants rep) eqn:Eg; [exfalso|done]. destruct (Hb Eg) as (c' & Hp' & Hv). rewrite Hp in Hp'. injection Hp' as <-.
  destruct Hv as [_ _ (w3 & H3 & _ & _ & Hrev)]. pose proof (le_rev _ _ (le_view _ _ H3) (Tenant c) (Subject c)) as Hle.
  pose proof (sys_signed _ _ Hok0) as Hsg. rewrite Forall_forall in Hsg. destruct (Hsg c Hin) as (_ & Hc & _).
  specialize (Hk n eq_refl). cbn in *. lia.
Qed.
End tokens.

(** ** Who is authenticated *)

Section subjects.
Context `{Platform} {L : PlatformLaws} (m : Manager) (Hm : manager_ok m).
Context {S : Type} `{Store S} `{!StoreLaws S}.
Implicit Types (s : system S).

Notation step := (step m).

(** The directory backs the claims at a world of [I]. *)
Definition backed (I : world -> Prop) (w : world) (c : Claims) (w' : world) : Prop :=
  exists w1 rs, w ⊑w w1 /\ w1 ⊑w w' /\ I w1 /\ dir (wv w1) (Tenant c) (Subject c) = Some rs /\
    (forall role, role ∈ Roles c -> role ∈ rs) /\ rev (wv w1) (Tenant c) (Subject c) = Revision c.

Definition authenticated (I : world -> Prop) (w : world) (token : list Z) (as_client : bool) (rep : reply) (w' : world) : Prop :=
  forall subj, rep = RepSubject (Ok subj) -> exists c, parseAndVerify m token = Ok c /\
    subj = mkSubject (Subject c) (Tenant c) (Roles c) /\ Kind c = kindAccess /\
    (RoleNode ∈ Roles c /\ as_client = false \/ RoleNode ∉ Roles c /\ backed I w c w').

Lemma authenticated_stable I w token cl : stable (authenticated I w token cl).
Proof.
  intros rep w1 w2 Hw Ha subj Hs. destruct (Ha subj Hs) as (c & Hp & He & Hk & Hc). exists c. split_and!; try done.
  destruct Hc as [?|[? (x & rs & ? & ? & ?)]]; [by left|right]. split; [done|]. exists x, rs. split_and!; [done|by etrans|apply H4..].
Qed.

Lemma Authenticate_wp I w token cl :
  wp m free I anything w (program m (RAuthenticate token cl)) (authenticated I w token cl).
Proof.
  apply wp_bind, wp_bind, wp_verify; [done|done|done|]. intros c w1 H1 Hp [(wf & _ & _ & _ & Hf) _ _].
  unfold fresh_claims in Hf. rewrite !andb_true_iff in Hf. destruct Hf as ((((((Hk & _) & _) & _) & _) & _) & _).
  apply str_eqb_eq in Hk. cbv zeta.
  destruct cl; destruct (hasRole (Roles c) RoleNode) eqn:En; cbn [andb]; [done| | |].
  2:{ cbn. intros subj [= <-]. exists c. apply hasRole_elem in En. split_and!; try done. by left. }
  all: apply hasRole_false in En; cbn; (split; [done|]); intros w2 r w3 H2 HI2 Ha H3; (destruct r as [p|]; [|done]);
    destruct Ha as [Hd Hr]; destruct (negb _ || _) eqn:E; [done|]; apply orb_false_elim in E as [E1%negb_false_iff E2%negb_false_iff];
    cbn; intros subj [= <-]; exists c; split_and!; try done; right; split; [done|]; exists w2, (PrRoles p);
    split_and!; [by etrans|done|done|done| |bool_hyp; lia];
    intros role Hin; unfold roles_live in E2; rewrite forallb_forall in E2;
    specialize (E2 role ltac:(by apply list_elem_of_In)); by apply bool_decide_eq_true in E2.
Qed.

(** C15: who is let in is who the directory says.  A subject that
    [Authenticate] returns carries the claims of an access token the
    deployment signed before; and either it is a node, which no client
    connection is taken for, bound in that tenant to the key it enrolled with,
    or at some instant during the call the directory assigned the principal
    every role of the token, at the very revision the token was signed for. *)
Theorem authenticated_subject_is_current s s1 s2 i token cl subj :
  reachable m s -> spawns m s i (RAuthenticate token cl) s1 -> rtc step s1 s2 ->
  threads s2 !! i = Some (Ret (RepSubject (Ok subj))) ->
  exists c, c ∈ signed s /\ Kind c = kindAccess /\ subj = mkSubject (Subject c) (Tenant c) (Roles c) /\
    (cl = false /\ SubRoles subj = [RoleNode] /\
       (exists b, bnd (view (st s)) (SubID subj) = Some b /\ BTenant b = SubTenant subj) \/
     RoleNode ∉ SubRoles subj /\ exists sx rs, rtc step s1 sx /\ rtc step sx s2 /\
       dir (view (st sx)) (SubTenant subj) (SubID subj) = Some rs /\ (forall role, role ∈ SubRoles subj -> role ∈ rs) /\
       rev (view (st sx)) (SubTenant subj) (SubID subj) = Revision c).
Proof.
  intros Hr Hi Hs1 Hrep. apply (reachable_system m Hm) in Hr as Hok.
  assert (Ha : authenticated (between m s1 s2) (world_of s) token cl (RepSubject (Ok subj)) (world_of s2)).
  { eapply (answered m Hm (between m s1 s2)); [exact Hok|apply authenticated_stable|exact Hi|by apply during_between|exact Hrep|].
    apply Authenticate_wp. }
  destruct (Ha subj eq_refl) as (c & Hp & -> & Hk & Hc). destruct Hi as (_ & _ & Hg & _).
  apply Forall_cons_1 in Hg as [Hg _].
  assert (Hin : c ∈ signed s).
  { apply (genuine_parse m (signed s) token c Hm Hg); [|done]. eapply Forall_impl; [apply (sys_signed _ _ Hok)|]. by intros x [? _]. }
  exists c. split_and!; try done. cbn. destruct Hc as [[Hn ->]|[Hn (w1 & rs & _ & _ & (sx & H1 & H2 & ->) & Hd & Hro & Hrv)]].
  - left. pose proof (sys_signed _ _ Hok) as Hsg. rewrite Forall_forall in Hsg. destruct (Hsg c Hin) as (_ & _ & Hx).
    destruct (Hx Hn) as [_ Hy]. by destruct (Hy Hk) as [-> ?].
  - right. split; [done|]. by exists sx, rs.
Qed.

(** ** Nodes *)

Definition enrolled_as (I : world -> Prop) (w : world) (node : string) (token key : list Z) (rep : reply) (w' : world) : Prop :=
  forall ni, rep = RepNode (Ok ni) ->
    let b := mkBound key (NIPool ni) (NITenant ni) (NILabels ni) in
    bnd (wv w') node = Some b /\
    (Fresh ni = true -> exists w1 g t, w ⊑w w1 /\ I w1 /\ bnd (wv w1) node = None /\
       grant (wv w1) (if validEnrollmentToken token then hash_token token else replicate 32 0) = Some g /\
       wt w <= t <= wt w1 /\ t < GExpires g /\
       b = mkBound key (GPool g) (GTenant g) (Some (bound_labels (GLabels g) (GPool g) (GTenant g) node))).

Lemma enrolled_as_stable I w node token key : stable (enrolled_as I w node token key).
Proof.
  intros rep w1 w2 Hw Ha ni Hn. destruct (Ha ni Hn) as [Hb Hf]. cbv zeta. split; [|done].
  by apply (le_bnd _ _ (le_view _ _ Hw)).
Qed.

Lemma AuthenticateNode_wp I w node token key :
  wp m free I anything w (program m (RAuthenticateNode node token key)) (enrolled_as I w node token key).
Proof.
  apply wp_bind. unfold AuthenticateNode. destruct (valid_node_hello node key); cbn [negb]; [|done]. cbv zeta.
  intros w1 H1 _ w2 H2 _. apply wp_bind_ok, wp_ask; [done|]. intros w3 r w4 H3 HI3 Ha H4.
  destruct r as [[[b fresh] ok]|]; [|done]. destruct ok; cbn [negb orb]; [|done]. case_bool_decide as Hk; cbn [negb]; [|done].
  intros w5 H5 _ id w6 _ H6 _. split; [done|]. cbn. intros ni [= <-]. cbn.
  assert (Hb : bnd (wv w4) node = Some (bound b)).
  { destruct fresh; cbn in Ha; [by destruct Ha as (_ & ? & _)|]. by apply (le_bnd _ _ (le_view _ _ H4)). }
  assert (H46 : w4 ⊑w w6) by (by etrans). unfold bound in Hb. rewrite Hk in Hb.
  split; [by apply (le_bnd _ _ (le_view _ _ H46))|]. intros ->. cbn in Ha.
  destruct Ha as (Hn & _ & _ & g & Hg & Ht & He). exists w3, g, (wt w2). unfold bound in He. rewrite Hk in He.
  split_and!; [by do 2 (etrans; [eassumption|])|done|done|done|apply le_time; by etrans|by apply le_time|done|done].
Qed.

(** C16: a node is what its enrollment made it.  When a hello is accepted, the
    node is bound to the very key it presented, in the tenant and pool and with
    the labels of the reply, and stays so in every later state; a first hello
    is accepted only on an enrollment that was stored and that expires after a
    reading [t] of the clock during the call, so after the hello arrived, gives
    the node exactly what the enrollment grants, and that enrollment admits no
    other node: the nodes let in with a token are never more than the
    enrollments stored under it. *)
Theorem node_is_what_its_enrollment_grants s s1 s2 s3 i node token key ni :
  reachable m s -> spawns m s i (RAuthenticateNode node token key) s1 -> rtc step s1 s2 ->
  threads s2 !! i = Some (Ret (RepNode (Ok ni))) -> rtc step s2 s3 ->
  let b := mkBound key (NIPool ni) (NITenant ni) (NILabels ni) in
  let hash := if validEnrollmentToken token then hash_token token else replicate 32 0 in
  bnd (view (st s3)) node = Some b /\
  (Fresh ni = true -> exists sx g t, rtc step s1 sx /\ rtc step sx s2 /\ bnd (view (st sx)) node = None /\
    grant (view (st sx)) hash = Some g /\ now s <= t <= now sx /\ t < GExpires g /\
    b = mkBound key (GPool g) (GTenant g) (Some (bound_labels (GLabels g) (GPool g) (GTenant g) node))) /\
  (forall h, (occurrences h (map fst (used s3)) <= occurrences h (stored s3))%nat).
Proof.
  intros Hr Hi Hs1 Hrep Hs2. apply (reachable_system m Hm) in Hr as Hok.
  pose proof (steps_ok m Hm _ _ (spawn_ok m Hm _ _ _ _ Hok Hi) Hs1) as Hok2.
  assert (Ha : enrolled_as (between m s1 s2) (world_of s) node token key (RepNode (Ok ni)) (world_of s2)).
  { eapply (answered m Hm (between m s1 s2)); [exact Hok|apply enrolled_as_stable|exact Hi|by apply during_between|exact Hrep|].
    apply AuthenticateNode_wp. }
  destruct (Ha ni eq_refl) as [Hb Hf]. cbv zeta. split_and!.
  - by apply (le_bnd _ _ (le_view _ _ (steps_le m Hm _ _ Hok2 Hs2))).
  - intros Hfr. destruct (Hf Hfr) as (w1 & g & t & _ & (sx & H1 & H2 & ->) & Hn & Hg & Ht & He & Hbb).
    by exists sx, g, t.
  - intros h. pose proof (sys_used _ _ (steps_ok m Hm _ _ Hok2 Hs2) h). lia.
Qed.

(** However many enrollments are asked for at once, no more than the configured
    maximum are ever kept. *)
Theorem enrollments_within_capacity s :
  reachable m s -> headroom (view (st s)) -> live (view (st s)) <= maxEnrollments m.
Proof. intros Hr%(reachable_system m Hm) Hh. apply (sane_live _ _ (sys_world _ _ Hr Hh)). Qed.
End subjects.

(** ** Requests that run undisturbed *)

Section runs.
Context `{Platform} {L : PlatformLaws} (m : Manager) (Hm : manager_ok m).

Section generic.
Context {S : Type} `{Store S} `{!StoreLaws S}.
Context (e : env) (ids : Claims -> string) (t : Z).

(** A program that nothing interrupts at the instant [t]; [ids] names the
    tokens it signs. *)
Fixpoint run {A} (p : prog A) (s : S) (sg : list Claims) : A * S * list Claims :=
  match p with
  | Ret a => (a, s, sg)
  | Ask c k => let '(a, s) := store_do e c s in run (k a) s sg
  | Clock k => run (k t) s sg
  | Sign c k => let c := c (ids (c EmptyString)) in run (k (sign m c)) s (c :: sg)
  | Emit k => run (k true) s sg
  | Random k => run (k None EmptyString) s sg
  end.

(** Revisions stay below their maximum all along. *)
Fixpoint steady {A} (p : prog A) (s : S) : Prop :=
  headroom (view s) /\
  match p with
  | Ret a => True
  | Ask c k => let '(a, s) := store_do e c s in steady (k a) s
  | Clock k => steady (k t) s
  | Sign c k => steady (k (sign m (c (ids (c EmptyString))))) s
  | Emit k => steady (k true) s
  | Random k => steady (k None EmptyString) s
  end.

Lemma run_bind {A B} (p : prog A) (f : A -> prog B) s sg :
  run (bind p f) s sg = let '(a, s', sg') := run p s sg in run (f a) s' sg'.
Proof.
  revert s sg. induction p as [a|C c k IH|k IH|c k IH|k IH|k IH]; cbn; intros s sg; try done.
  destruct (store_do e c s) as [a s']. apply IH.
Qed.

Lemma run_steps {A} (p : prog A) (f : A -> prog reply) i (s : system S) a st' sg' :
  (forall c, valid_id (ids c)) -> now s = t -> threads s !! i = Some (bind p f) ->
  run p (st s) (signed s) = (a, st', sg') -> steady p (st s) ->
  exists s', rtc (step m) s s' /\ st s' = st' /\ signed s' = sg' /\ now s' = t /\ threads s' = <[i := f a]> (threads s).
Proof.
  intros Hid. revert s. induction p as [x|C c k IH|k IH|c k IH|k IH|k IH]; cbn; intros s Ht Hi Hr [Hh Hk].
  - injection Hr as <- <- <-. exists s. split_and!; try done. by rewrite insert_id.
  - destruct (store_do e c (st s)) as [x s1] eqn:Ed.
    destruct (IH x (mkSystem s1 (now s) (signed s) (stored s ++ option_list (stores c x))
      (used s ++ option_list (uses c x)) (<[i := bind (k x) f]> (threads s)))) as (s' & Hs & ? & ? & ? & Hth);
      [done|cbn; apply lookup_insert_eq|done|done|].
    exists s'. split_and!; try done; [|by rewrite Hth; cbn; rewrite insert_insert_eq].
    eapply rtc_l; [|exact Hs]. split; [done|]. by apply (s_ask m s i C c (fun b => bind (k b) f) e x s1).
  - destruct (IH (now s) (set_thread i (bind (k (now s)) f) s)) as (s' & Hs & ? & ? & ? & Hth);
      [done|cbn; apply lookup_insert_eq|by rewrite Ht|by rewrite Ht|].
    exists s'. split_and!; try done; [|by rewrite Hth; cbn; rewrite insert_insert_eq].
    eapply rtc_l; [|exact Hs]. split; [done|]. by eapply (s_clock m s i (fun t => bind (k t) f)).
  - set (c' := c (ids (c EmptyString))) in *.
    destruct (IH (sign m c') (mkSystem (st s) (now s) (c' :: signed s) (stored s) (used s)
      (<[i := bind (k (sign m c')) f]> (threads s)))) as (s' & Hs & ? & ? & ? & Hth);
      [done|cbn; apply lookup_insert_eq|done|done|].
    exists s'. split_and!; try done; [|by rewrite Hth; cbn; rewrite insert_insert_eq].
    eapply rtc_l; [|exact Hs]. split; [done|].
    by apply (s_sign m s i c (fun x => bind (k x) f) (ids (c EmptyString))).
  - destruct (IH true (set_thread i (bind (k true) f) s)) as (s' & Hs & ? & ? & ? & Hth);
      [done|cbn; apply lookup_insert_eq|done|done|].
    exists s'. split_and!; try done; [|by rewrite Hth; cbn; rewrite insert_insert_eq].
    eapply rtc_l; [|exact Hs]. split; [done|]. by apply (s_emit m s i (fun b => bind (k b) f)).
  - destruct (IH None EmptyString (set_thread i (bind (k None EmptyString) f) s)) as (s' & Hs & ? & ? & ? & Hth);
      [done|cbn; apply lookup_insert_eq|done|done|].
    exists s'. split_and!; try done; [|by rewrite Hth; cbn; rewrite insert_insert_eq].
    eapply rtc_l; [|exact Hs]. split; [done|]. by apply (s_random m s i (fun r x => bind (k r x) f)).
Qed.

(** A whole request, from its arrival to its reply. *)
Lemma run_request {A} (p : prog A) (f : A -> reply) i r (s : system S) a st' sg' :
  (forall c, valid_id (ids c)) -> now s = t -> threads s !! i = None -> request_ok r ->
  Forall (genuine m (signed s)) (presented r) -> program m r = reply_with f p ->
  run p (st s) (signed s) = (a, st', sg') -> steady p (st s) ->
  exists s', serves m s i r (f a) s' /\ rtc (step m) s s' /\ st s' = st' /\ signed s' = sg' /\ now s' = t /\
    threads s' = <[i := Ret (f a)]> (threads s).
Proof.
  intros Hid Ht Hi Hr Hg Hp Hrun Hs.
  destruct (run_steps p (fun a => Ret (f a)) i (set_thread i (program m r) s) a st' sg') as (s' & Hst & ? & ? & ? & Hth);
    [done|done|cbn; rewrite lookup_insert_eq; by rewrite Hp|done|done|].
  assert (Hth' : threads s' = <[i := Ret (f a)]> (threads s)) by (by rewrite Hth; cbn; rewrite insert_insert_eq).
  exists s'. split_and!; try done.
  - exists (set_thread i (program m r) s). split_and!; [by split_and!|done|by rewrite Hth', lookup_insert_eq].
  - eapply rtc_l; [|exact Hst]. split; [by destruct p, Hs|]. by apply s_request.
Qed.

(** The first [n] steps of a program. *)
Fixpoint advance (n : nat) {A} (p : prog A) (s : S) (sg : list Claims) : prog A * S * list Claims :=
  match n with
  | O => (p, s, sg)
  | Datatypes.S n =>
      match p with
      | Ret a => (p, s, sg)
      | Ask c k => let '(a, s) := store_do e c s in advance n (k a) s sg
      | Clock k => advance n (k t) s sg
      | Sign c k => let c := c (ids (c EmptyString)) in advance n (k (sign m c)) s (c :: sg)
      | Emit k => advance n (k true) s sg
      | Random k => advance n (k None EmptyString) s sg
      end
  end.

Fixpoint steady_for (n : nat) {A} (p : prog A) (s : S) : Prop :=
  headroom (view s) /\
  match n with
  | O => True
  | Datatypes.S n =>
      match p with
      | Ret a => True
      | Ask c k => let '(a, s) := store_do e c s in steady_for n (k a) s
      | Clock k => steady_for n (k t) s
      | Sign c k => steady_for n (k (sign m (c (ids (c EmptyString))))) s
      | Emit k => steady_for n (k true) s
      | Random k => steady_for n (k None EmptyString) s
      end
  end.

Lemma advance_steps n (p p' : prog reply) i (s : system S) st' sg' :
  (forall c, valid_id (ids c)) -> now s = t -> threads s !! i = Some p ->
  advance n p (st s) (signed s) = (p', st', sg') -> steady_for n p (st s) ->
  exists s', rtc (step m) s s' /\ st s' = st' /\ signed s' = sg' /\ now s' = t /\ threads s' = <[i := p']> (threads s).
Proof.
  intros Hid. revert p s. induction n as [|n IH]; intros p s Ht Hi Hr Hs; cbn in Hr, Hs.
  { injection Hr as <- <- <-. exists s. split_and!; try done. by rewrite insert_id. }
  assert (Hgo : forall s1 q, now s1 = t -> threads s1 = <[i := q]> (threads s) -> step m s s1 ->
    advance n q (st s1) (signed s1) = (p', st', sg') -> steady_for n q (st s1) ->
    exists s', rtc (step m) s s' /\ st s' = st' /\ signed s' = sg' /\ now s' = t /\ threads s' = <[i := p']> (threads s)).
  { intros s1 q Ht1 Hth1 Hst Hr1 Hs1. destruct (IH q s1) as (s' & Hs' & ? & ? & ? & Hth); try done.
    - rewrite Hth1. apply lookup_insert_eq.
    - exists s'. split_and!; try done; [by eapply rtc_l|]. by rewrite Hth, Hth1, insert_insert_eq. }
  destruct Hs as [Hh Hs]. destruct p as [x|C c k|k|c k|k|k].
  - injection Hr as <- <- <-. exists s. split_and!; try done. by rewrite insert_id.
  - destruct (store_do e c (st s)) as [x s1] eqn:Ed.
    eapply (Hgo (mkSystem s1 (now s) (signed s) (stored s ++ option_list (stores c x))
      (used s ++ option_list (uses c x)) (<[i := k x]> (threads s)))); [done|done| |done|done].
    split; [done|]. by apply (s_ask m s i C c k e x s1).
  - eapply (Hgo (set_thread i (k (now s)) s)); [done|done| |by rewrite Ht|by rewrite Ht]. split; [done|]. by apply s_clock.
  - eapply (Hgo (mkSystem (st s) (now s) (c (ids (c EmptyString)) :: signed s) (stored s) (used s)
      (<[i := k (sign m (c (ids (c EmptyString))))]> (threads s)))); [done|done| |done|done]. split; [done|]. by apply s_sign.
  - eapply (Hgo (set_thread i (k true) s)); [done|done| |done|done]. split; [done|]. by apply s_emit.
  - eapply (Hgo (set_thread i (k None EmptyString) s)); [done|done| |done|done]. split; [done|]. by apply s_random.
Qed.
End generic.
End runs.

(** ** The memory store, request by request *)

Section memory.
Context `{Platform} {L : PlatformLaws} (m : Manager) (Hm : manager_ok m).
Context (e : env) (ids : Claims -> string) (Hids : forall c, valid_id (ids c)).
Implicit Types (s : MemoryStore).

Notation run := (run m e ids).
Notation steady := (steady m e ids).
Notation step := (step m (S := MemoryStore)).

(** A run and that it never exhausts a revision. *)
Definition runs_to {A} (t : Z) (p : prog A) s sg (a : A) s' sg' : Prop :=
  run t p s sg = (a, s', sg') /\ steady t p s.

Lemma runs_bind {A B} t (p : prog A) (f : A -> prog B) s sg a s1 sg1 b s2 sg2 :
  runs_to t p s sg a s1 sg1 -> runs_to t (f a) s1 sg1 b s2 sg2 -> runs_to t (bind p f) s sg b s2 sg2.
Proof.
  intros [Hp Hs] [Hf Hs2]. split; [rewrite run_bind, Hp; exact Hf|].
  revert s sg Hp Hs. induction p as [x|C c k IH|k IH|c k IH|k IH|k IH]; cbn; intros s sg Hp [Hh Hs].
  - injection Hp as <- <- <-. done.
  - split; [done|]. destruct (store_do e c s) as [x s']. by eapply IH.
  - split; [done|]. by eapply IH.
  - split; [done|]. by eapply IH.
  - split; [done|]. by eapply IH.
  - split; [done|]. by eapply IH.
Qed.

Lemma runs_bind_ok {A B} t (p : prog (result error A)) (f : A -> prog (result error B)) s sg a s1 sg1 b s2 sg2 :
  runs_to t p s sg (Ok a) s1 sg1 -> runs_to t (f a) s1 sg1 b s2 sg2 -> runs_to t (bind_ok p f) s sg b s2 sg2.
Proof. intros Hp Hf. by eapply runs_bind. Qed.

Lemma runs_verify t token c kind s sg :
  parseAndVerify m token = Ok c -> fresh_claims m t kind c = true -> revoked s !! ID c = None ->
  revision_of s (key (Tenant c) (Subject c)) = Revision c -> headroom (memory_view s) ->
  runs_to t (verify m token kind) s sg (Ok c) s sg.
Proof.
  intros Hp Hf Hu Hr Hh. unfold runs_to, verify. cbn. rewrite Hp, Hf. cbn. unfold Memory_Revoked. rewrite Hu. cbn.
  rewrite Hr, Z.eqb_refl. cbn. done.
Qed.

Lemma runs_verify_late t token c kind s sg x :
  parseAndVerify m token = Ok c -> fresh_claims m t kind c = true -> revoked s !! ID c = Some x -> x <= t ->
  revision_of s (key (Tenant c) (Subject c)) = Revision c -> headroom (memory_view s) ->
  runs_to t (verify m token kind) s sg (Ok c) (set_revoked (delete (ID c) (revoked s)) (events s) s) sg.
Proof.
  intros Hp Hf Hu Hx Hr Hh. unfold runs_to, verify. cbn. rewrite Hp, Hf. cbn. unfold Memory_Revoked. rewrite Hu.
  rewrite (proj2 (Z.ltb_ge t x)) by done. cbn. change (revision_of (set_revoked _ _ s)) with (revision_of s).
  rewrite Hr, Z.eqb_refl. cbn. done.
Qed.

(** The claims [IssueTokens] signs. *)
Definition minted (t : Z) (kind : string) (ttl : Z) (subject tenant : string) (roles : list string) (revision : Z) : Claims :=
  let c := plain_claims m subject tenant roles kind revision (Unix t) (Unix (t + ttl)) in c (ids (c EmptyString)).

Lemma runs_issue t subject tenant rs p s sg :
  normal_roles rs -> validPrincipal subject tenant = true -> RoleNode ∉ rs ->
  principals s !! key tenant subject = Some p -> PrRoles p = rs -> headroom (memory_view s) ->
  let n := revision_of s (key tenant subject) in
  let a := minted t kindAccess (accessTTL m) subject tenant rs n in
  let r := minted t kindRefresh (refreshTTL m) subject tenant rs n in
  runs_to t (IssueTokens m subject tenant rs) s sg (Ok (sign m a, sign m r)) s (r :: a :: sg).
Proof.
  intros Hn Hv Hnode Hp Hr Hh n a r. unfold runs_to, IssueTokens. rewrite normalizeRoles_fixed by done.
  rewrite Hv. cbn [negb]. rewrite (proj2 (hasRole_false rs RoleNode)) by done.
  unfold bind_ok, ensurePrincipalRoles, ask, fail. cbn. unfold Memory_GetPrincipal. rewrite Hp. cbn.
  rewrite bool_decide_true by done. cbn. done.
Qed.

(** A token whose lifetime is a whole number of seconds is accepted at once. *)
Lemma minted_fresh t kind ttl subject tenant roles n :
  0 <= t < 2 ^ 62 -> (second | ttl) -> second <= ttl <= 90 * 24 * hour -> ttl <= maxTTL m kind ->
  fresh_claims m t kind (minted t kind ttl subject tenant roles n) = true.
Proof.
  intros Ht [k ->] Hl Hmax. pose proof (manager_bounds m Hm) as (_ & _ & _ & Hsk & _).
  assert (Hu : Unix (t + k * second) = Unix t + k) by (unfold Unix; rewrite Z.div_add by done; done).
  assert (Hk : 1 <= k <= 90 * 24 * 3600) by (unfold hour, minute, second in *; lia).
  unfold fresh_claims, lifetime. cbn. rewrite !str_eqb_refl, Hu. replace (Unix t + k - Unix t) with k by lia.
  rewrite i64_small by (unfold is_i64; lia). cbn. rewrite !andb_true_iff, negb_true_iff, !Z.ltb_lt, Z.leb_le, Z.ltb_ge. split_and!.
  - lia.
  - lia.
  - apply Z.div_le_lower_bound; [done|lia].
  - unfold of_unix, Unix. pose proof (Z.mod_pos_bound t second ltac:(done)). pose proof (Z.div_mod t second ltac:(done)).
    unfold second in *. lia.
  - unfold of_unix, Unix. pose proof (Z.mul_div_le t second ltac:(done)). lia.
Qed.

Lemma runs_authenticate t token c p s sg cl :
  parseAndVerify m token = Ok c -> fresh_claims m t kindAccess c = true -> revoked s !! ID c = None ->
  revision_of s (key (Tenant c) (Subject c)) = Revision c -> headroom (memory_view s) ->
  RoleNode ∉ Roles c -> principals s !! key (Tenant c) (Subject c) = Some p ->
  (forall role, role ∈ Roles c -> role ∈ PrRoles p) ->
  runs_to t (Authenticate m token cl) s sg (Ok (mkSubject (Subject c) (Tenant c) (Roles c))) s sg.
Proof.
  intros Hp Hf Hu Hr Hh Hn Hpr Hro. eapply runs_bind; [by eapply runs_verify|]. cbv beta iota zeta.
  rewrite (proj2 (hasRole_false (Roles c) RoleNode)), andb_false_r by done. unfold runs_to. cbn.
  unfold Memory_GetPrincipal. rewrite Hpr. cbn. rewrite Hr, Z.eqb_refl. cbn.
  assert (roles_live (Roles c) (PrRoles p) = true) as ->; [|done].
  apply forallb_forall. intros x Hx%list_elem_of_In. by apply bool_decide_eq_true, Hro.
Qed.

Lemma genuine_mono (l l' : list Claims) token : (forall c, c ∈ l -> c ∈ l') -> genuine m l token -> genuine m l' token.
Proof. intros Hl Hg h p s sg H1 H2 H3. destruct (Hg h p s sg H1 H2 H3) as (c & Hc & He). exists c. auto. Qed.

Lemma genuine_sign (l : list Claims) c : c ∈ l -> genuine m l (sign m c).
Proof.
  intros Hc h p s sg Hp Hd Hv. rewrite (token_parts_sign m c) in Hp. injection Hp as <- <- <-. exists c. by split.
Qed.
End memory.

Section outcomes.
Context `{Platform} {L : PlatformLaws} (m : Manager) (Hm : manager_ok m).
Context (e : env) (ids : Claims -> string) (Hids : forall c, valid_id (ids c)).
Implicit Types (s : system MemoryStore).

Notation step := (step m (S := MemoryStore)).
Notation minted := (minted m ids).

(** What a refresh token in circulation says. *)
Lemma refresh_claims s token c :
  reachable m s -> genuine m (signed s) token -> parseAndVerify m token = Ok c ->
  fresh_claims m (now s) kindRefresh c = true ->
  normal_roles (Roles c) /\ validPrincipal (Subject c) (Tenant c) = true /\ RoleNode ∉ Roles c.
Proof.
  intros Hr%(reachable_system m Hm) Hg Hp Hf. pose proof (signed_genuine m Hm s token c Hr Hg Hp) as (Hok & _ & Hn).
  unfold fresh_claims in Hf. rewrite !andb_true_iff in Hf. destruct Hf as ((((((Hk & _) & _) & _) & _) & _) & _).
  apply str_eqb_eq in Hk. split_and!; [apply Hok|apply Hok|]. intros Hin. by destruct (Hn Hin) as [? _].
Qed.

Lemma run_thread {A} (p : prog A) (f : A -> reply) i r s a st' sg' :
  threads s !! i = None -> request_ok r -> Forall (genuine m (signed s)) (presented r) ->
  program m r = reply_with f p -> runs_to m e ids (now s) p (st s) (signed s) a st' sg' ->
  exists s', serves m s i r (f a) s' /\ rtc step s s' /\ st s' = st' /\ signed s' = sg' /\ now s' = now s /\
    threads s' = <[i := Ret (f a)]> (threads s).
Proof. intros Hi Hr Hg Hp [Hrun Hst]. by eapply (run_request m e ids (now s) p f i r s). Qed.

(** C18: what is issued works.  Over the memory store, a principal of the
    directory that asks for tokens can be given a pair, and a client that
    connects with the access token at the same instant is authenticated with
    exactly its roles, if nothing else runs in between, the lifetime of access
    tokens is a whole number of seconds (see [fractional_lifetime_is_refused]),
    the token is not too long to be read back and its id was not spent. *)
Theorem issued_token_authenticates s subject tenant rs p i j :
  let a := minted (now s) kindAccess (accessTTL m) subject tenant rs (revision_of (st s) (key tenant subject)) in
  reachable m s -> headroom (memory_view (st s)) -> normal_roles rs -> validPrincipal subject tenant = true ->
  RoleNode ∉ rs -> principals (st s) !! key tenant subject = Some p -> PrRoles p = rs ->
  (second | accessTTL m) -> fits m a -> revoked (st s) !! ID a = None ->
  threads s !! i = None -> threads s !! j = None -> i <> j ->
  exists s1 s2 refresh, serves m s i (RIssueTokens subject tenant rs) (RepTokens (Ok (sign m a, refresh))) s1 /\
    serves m s1 j (RAuthenticate (sign m a) true) (RepSubject (Ok (mkSubject subject tenant rs))) s2.
Proof.
  intros a Hr Hh Hn Hv Hnode Hp Hpr Hdiv Hfit Hu Hi Hj Hij.
  destruct (run_thread (IssueTokens m subject tenant rs) RepTokens i (RIssueTokens subject tenant rs) s _ _ _ Hi I
    ltac:(done) eq_refl (runs_issue m e ids (now s) subject tenant rs p (st s) (signed s) Hn Hv Hnode Hp Hpr Hh))
    as (s1 & Hsv1 & Hs1 & Hst1 & Hsg1 & Hn1 & Hth1). fold a in Hsg1, Hth1, Hsv1.
  pose proof (steps_ok m Hm _ _ (reachable_system m Hm _ Hr) Hs1) as Hok1.
  assert (Ha : a ∈ signed s1) by (rewrite Hsg1; set_solver).
  pose proof (sys_signed _ _ Hok1) as Hsg. rewrite Forall_forall in Hsg. destruct (Hsg a Ha) as (Hca & _ & _).
  pose proof (sane_clock _ _ (sys_world _ _ (reachable_system m Hm _ Hr) Hh)) as Hcl. cbn in Hcl.
  pose proof (manager_bounds m Hm) as (Hb & _).
  destruct (run_thread (Authenticate m (sign m a) true) RepSubject j (RAuthenticate (sign m a) true) s1
    (Ok (mkSubject (Subject a) (Tenant a) (Roles a))) (st s1) (signed s1)) as (s2 & Hsv2 & _).
  - rewrite Hth1. by rewrite lookup_insert_ne.
  - done.
  - apply Forall_singleton. by apply genuine_sign.
  - done.
  - rewrite Hst1. apply (runs_authenticate m e ids (now s1) (sign m a) a p); try done.
    + by apply parse_sign.
    + rewrite Hn1. apply minted_fresh; [done|done|done|unfold hour, minute, second in *; lia|done].
    + intros role Hrole. by rewrite Hpr.
  - by exists s1, s2, (sign m (minted (now s) kindRefresh (refreshTTL m) subject tenant rs (revision_of (st s) (key tenant subject)))).
Qed.

Lemma runs_rotate_late t token c p (s : MemoryStore) sg :
  parseAndVerify m token = Ok c -> fresh_claims m t kindRefresh c = true ->
  revision_of s (key (Tenant c) (Subject c)) = Revision c -> headroom (memory_view s) ->
  normal_roles (Roles c) -> validPrincipal (Subject c) (Tenant c) = true -> RoleNode ∉ Roles c ->
  principals s !! key (Tenant c) (Subject c) = Some p -> PrRoles p = Roles c ->
  revoked s !! ID c = Some (of_unix (Expires c)) -> of_unix (Expires c) <= t ->
  exists pair (s' : MemoryStore) sg', runs_to m e ids t (RotateRefresh m token) s sg (Ok pair) s' sg' /\
    (forall x, x ∈ sg -> x ∈ sg') /\ revoked s' = revoked s /\ principals s' = principals s /\
    principalRevisions s' = principalRevisions s.
Proof.
  intros Hp Hf Hr Hh Hn Hv Hnode Hpr Hro Hu Ht. eexists _, _, _. split.
  - eapply runs_bind_ok; [by eapply runs_verify_late|]. eapply runs_bind_ok with (a := true).
    + unfold runs_to. cbn. unfold Memory_ConsumeRefresh. cbn. rewrite lookup_delete_eq. cbn. by split.
    + cbn [negb]. by apply (runs_issue m e ids t (Subject c) (Tenant c) (Roles c) p).
  - cbn. split_and!; try done; [intros x Hx; set_solver|]. apply map_eq. intros id.
    destruct (decide (id = ID c)) as [-> |Hne]; [by rewrite lookup_insert_eq|].
    rewrite lookup_insert_ne by done. by rewrite lookup_delete_ne.
Qed.

(** C39: a refresh token that was exchanged comes back to life.  [verify]
    accepts a token until its expiry plus the clock skew, but the store forgets
    that it was spent at its expiry.  Two rotations of the same token that
    arrive one after the other in between are both answered with a new pair. *)
Theorem spent_refresh_token_revives s token c p i j :
  reachable m s -> headroom (memory_view (st s)) -> genuine m (signed s) token -> parseAndVerify m token = Ok c ->
  fresh_claims m (now s) kindRefresh c = true -> revision_of (st s) (key (Tenant c) (Subject c)) = Revision c ->
  principals (st s) !! key (Tenant c) (Subject c) = Some p -> PrRoles p = Roles c ->
  revoked (st s) !! ID c = Some (of_unix (Expires c)) -> of_unix (Expires c) <= now s ->
  threads s !! i = None -> threads s !! j = None -> i <> j ->
  exists s1 s2 pair1 pair2, serves m s i (RRotateRefresh token) (RepTokens (Ok pair1)) s1 /\
    serves m s1 j (RRotateRefresh token) (RepTokens (Ok pair2)) s2.
Proof.
  intros Hr Hh Hg Hp Hf Hrev Hpr Hro Hu Ht Hi Hj Hij.
  destruct (refresh_claims s token c Hr Hg Hp Hf) as (Hn & Hv & Hnode).
  destruct (runs_rotate_late (now s) token c p (st s) (signed s)) as (pair1 & st1 & sg1 & Hrun1 & Hsg1 & Hu1 & Hp1 & Hr1); try done.
  destruct (run_thread _ RepTokens i (RRotateRefresh token) s _ _ _ Hi I ltac:(by apply Forall_singleton) eq_refl Hrun1)
    as (s1 & Hsv1 & Hs1 & Hst1 & Hsig1 & Hn1 & Hth1).
  assert (Hrevs : forall k, revision_of st1 k = revision_of (st s) k) by (intros k; unfold revision_of; by rewrite Hr1).
  destruct (runs_rotate_late (now s1) token c p st1 (signed s1)) as (pair2 & st2 & sg2 & Hrun2 & _); try done.
  - by rewrite Hn1.
  - by rewrite Hrevs.
  - intros tn u. cbn. rewrite Hrevs. apply Hh.
  - by rewrite Hp1.
  - by rewrite Hu1.
  - by rewrite Hn1.
  - rewrite <-Hst1 in Hrun2.
    destruct (run_thread _ RepTokens j (RRotateRefresh token) s1 _ _ _ ltac:(by rewrite Hth1, lookup_insert_ne) I
      ltac:(by apply Forall_singleton; eapply genuine_mono; [|exact Hg]; rewrite Hsig1) eq_refl Hrun2)
      as (s2 & Hsv2 & _).
    by exists s1, s2, pair1, pair2.
Qed.

(** The steps of a rotation up to the exchange of the token. *)
Lemma advance_rotate t token c (s : MemoryStore) sg :
  parseAndVerify m token = Ok c -> fresh_claims m t kindRefresh c = true -> revoked s !! ID c = None ->
  revision_of s (key (Tenant c) (Subject c)) = Revision c -> headroom (memory_view s) ->
  let s' := set_revoked (<[ID c := of_unix (Expires c)]> (revoked s))
    (events s ++ [mkEvent "identity.refresh_rotated" (ID c) (Subject c) (Tenant c) EmptyString 0 EmptyString []]) s in
  advance m e ids t 5 (program m (RRotateRefresh token)) s sg =
    (reply_with RepTokens (IssueTokens m (Subject c) (Tenant c) (Roles c)), s', sg) /\
  steady_for m e ids t 5 (program m (RRotateRefresh token)) s.
Proof.
  intros Hp Hf Hu Hr Hh s'. cbn. rewrite Hp, Hf. cbn. unfold Memory_Revoked. rewrite Hu. cbn. rewrite Hr, Z.eqb_refl.
  cbn. unfold Memory_ConsumeRefresh. rewrite Hu. cbn. by split_and!.
Qed.

Lemma headroom_insert k n (s s' : MemoryStore) :
  headroom (memory_view s) -> 0 <= n < MaxInt64 -> principalRevisions s' = <[k := n]> (principalRevisions s) ->
  headroom (memory_view s').
Proof.
  intros Hh Hn He tn u. cbn. unfold revision_of. rewrite He. destruct (decide (key tn u = k)) as [-> |Hk].
  - by rewrite lookup_insert_eq.
  - rewrite lookup_insert_ne by done. apply (Hh tn u).
Qed.

(** A revocation moves the revision and nothing else. *)
Lemma runs_revoke t subject tenant (s : MemoryStore) sg :
  let n := revision_of s (key tenant subject) + 1 in
  validPrincipal subject tenant = true -> headroom (memory_view s) -> n < MaxInt64 ->
  exists o : MemoryStore, runs_to m e ids t (RevokePrincipal_ tenant subject) s sg (Ok n) o sg /\
    revoked o = revoked s /\ principals o = principals s /\
    principalRevisions o = <[key tenant subject := n]> (principalRevisions s) /\ headroom (memory_view o).
Proof.
  intros n Hv Hh Hn. pose proof (Hh tenant subject) as Hx. cbn in Hx.
  assert (Hlt : (revision_of s (key tenant subject) =? MaxInt64) = false) by (apply Z.eqb_neq; lia).
  eexists. split; [split|split_and!].
  - unfold RevokePrincipal_. rewrite Hv. cbn. unfold Memory_RevokePrincipal. rewrite Hlt. reflexivity.
  - unfold RevokePrincipal_. rewrite Hv. cbn. unfold Memory_RevokePrincipal. rewrite Hlt. cbn. split_and!; try done.
    by apply (headroom_insert (key tenant subject) n s); [|lia|].
  - done.
  - done.
  - done.
  - by apply (headroom_insert (key tenant subject) n s); [|lia|].
Qed.

(** C38: a session survives the revocation of its principal.  A rotation reads
    the revision of the principal twice: [verify] compares it with the old
    token, and [IssueTokens] reads it again for the new ones.  A revocation
    that is asked for and answered between the two leaves the rotation with a
    pair at the new revision: with the new access token the revoked principal
    is authenticated afterwards, with all its roles. *)
Theorem rotation_outruns_revocation s token c p i j k :
  let a := minted (now s) kindAccess (accessTTL m) (Subject c) (Tenant c) (Roles c) (Revision c + 1) in
  reachable m s -> headroom (memory_view (st s)) -> Revision c + 1 < MaxInt64 ->
  genuine m (signed s) token -> parseAndVerify m token = Ok c -> fresh_claims m (now s) kindRefresh c = true ->
  revision_of (st s) (key (Tenant c) (Subject c)) = Revision c ->
  principals (st s) !! key (Tenant c) (Subject c) = Some p -> PrRoles p = Roles c ->
  revoked (st s) !! ID c = None -> revoked (st s) !! ID a = None -> ID a <> ID c ->
  (second | accessTTL m) -> fits m a ->
  threads s !! i = None -> threads s !! j = None -> threads s !! k = None -> i <> j -> i <> k -> j <> k ->
  exists sr s0 s1 s2 s3 refresh,
    spawns m s i (RRotateRefresh token) sr /\ rtc step sr s0 /\
    serves m s0 j (RRevokePrincipal (Tenant c) (Subject c)) (RepRevision (Ok (Revision c + 1))) s1 /\
    rtc step s1 s2 /\ threads s2 !! i = Some (Ret (RepTokens (Ok (sign m a, refresh)))) /\
    serves m s2 k (RAuthenticate (sign m a) true) (RepSubject (Ok (mkSubject (Subject c) (Tenant c) (Roles c)))) s3.
Proof.
  intros a Hr Hh Hmax Hg Hp Hf Hrev Hpr Hro Hu Hua Hne Hdiv Hfit Hi Hj Hk Hij Hik Hjk.
  destruct (refresh_claims s token c Hr Hg Hp Hf) as (Hn & Hv & Hnode).
  pose proof (reachable_system m Hm _ Hr) as Hok. pose proof (sane_clock _ _ (sys_world _ _ Hok Hh)) as Hcl. cbn in Hcl.
  destruct (advance_rotate (now s) token c (st s) (signed s) Hp Hf Hu Hrev Hh) as [Hadv Hste].
  destruct (advance_steps m e ids (now s) 5 (program m (RRotateRefresh token)) _ i
    (set_thread i (program m (RRotateRefresh token)) s) _ _ Hids eq_refl ltac:(cbn; apply lookup_insert_eq) Hadv Hste)
    as (s0 & Hs0 & Hst0 & Hsg0 & Hn0 & Hth0).
  assert (Hs0' : rtc step s s0).
  { eapply rtc_l; [|exact Hs0]. split; [exact Hh|]. apply s_request; [done|done|by apply Forall_singleton]. }
  cbn in Hth0. rewrite insert_insert_eq in Hth0.
  set (n := Revision c + 1) in *. set (ky := key (Tenant c) (Subject c)) in *.
  destruct (runs_revoke (now s0) (Subject c) (Tenant c) (st s0) (signed s0)) as (st1 & Hrun1 & Hrv1 & Hpr1 & Hrs1 & Hh1');
    [done|by rewrite Hst0|by rewrite Hst0; change (revision_of (st s) ky + 1 < MaxInt64); lia|].
  assert (Hrv0 : revision_of (st s0) (key (Tenant c) (Subject c)) = Revision c) by (by rewrite Hst0).
  rewrite Hrv0 in Hrun1, Hrs1. fold n in Hrun1, Hrs1. fold ky in Hrs1.
  destruct (run_thread (RevokePrincipal_ (Tenant c) (Subject c)) RepRevision j (RRevokePrincipal (Tenant c) (Subject c)) s0 _ _ _
    ltac:(by rewrite Hth0, lookup_insert_ne) I ltac:(done) eq_refl Hrun1) as (s1 & Hsv1 & Hs1 & Hst1 & Hsg1 & Hn1 & Hth1).
  assert (Hrev1 : revision_of (st s1) ky = n) by (unfold revision_of; by rewrite Hst1, Hrs1, lookup_insert_eq).
  assert (Hh1 : headroom (memory_view (st s1))) by (by rewrite Hst1).
  destruct (runs_issue m e ids (now s1) (Subject c) (Tenant c) (Roles c) p (st s1) (signed s1)) as [Hrun2 Hste2]; try done.
  { by rewrite Hst1, Hpr1, Hst0. }
  fold ky in Hrun2, Hste2. rewrite Hrev1, Hn1, Hn0 in Hrun2. rewrite Hn1, Hn0 in Hste2. fold a in Hrun2.
  destruct (run_steps m e ids (now s) (IssueTokens m (Subject c) (Tenant c) (Roles c)) (fun x => Ret (RepTokens x)) i s1 _ _ _
    Hids ltac:(by rewrite Hn1) ltac:(by rewrite Hth1, lookup_insert_ne, Hth0, lookup_insert_eq by done) Hrun2 Hste2)
    as (s2 & Hs2 & Hst2 & Hsg2 & Hn2 & Hth2).
  assert (Hin : a ∈ signed s2) by (rewrite Hsg2; set_solver).
  pose proof (steps_ok m Hm s s2 Hok ltac:(by repeat (etrans; [eassumption|]))) as Hok2.
  pose proof (sys_signed _ _ Hok2) as Hsg. rewrite Forall_forall in Hsg. destruct (Hsg a Hin) as (Hca & _ & _).
  pose proof (manager_bounds m Hm) as (Hb & _).
  destruct (run_thread (Authenticate m (sign m a) true) RepSubject k (RAuthenticate (sign m a) true) s2
    (Ok (mkSubject (Subject a) (Tenant a) (Roles a))) (st s2) (signed s2)) as (s3 & Hsv3 & _).
  - by rewrite Hth2, lookup_insert_ne, Hth1, lookup_insert_ne, Hth0, lookup_insert_ne.
  - done.
  - apply Forall_singleton. by apply genuine_sign.
  - done.
  - rewrite Hst2. apply (runs_authenticate m e ids (now s2) (sign m a) a p); try done.
    + by apply parse_sign.
    + rewrite Hn2. apply minted_fresh; [done|done|done|unfold hour, minute, second in *; lia|done].
    + rewrite Hst1, Hrv1, Hst0. cbn. by rewrite lookup_insert_ne.
    + by rewrite Hst1, Hpr1, Hst0.
    + intros role Hrole. by rewrite Hro.
  - exists (set_thread i (program m (RRotateRefresh token)) s), s0, s1, s2, s3,
      (sign m (minted (now s) kindRefresh (refreshTTL m) (Subject c) (Tenant c) (Roles c) n)).
    split_and!; [|done|done|done|by rewrite Hth2, lookup_insert_eq|done].
    split_and!; [done|done|by apply Forall_singleton|done].
Qed.
End outcomes.

(** ** Session capabilities *)

Section capabilities.
Context `{Platform} {L : PlatformLaws} (m : Manager) (Hm : manager_ok m).
Context {S : Type} `{Store S} `{!StoreLaws S}.
Implicit Types (s : system S).

Notation step := (step m).

Definition scoped (I : world -> Prop) (w : world) (token : list Z) (tenant workspace : string) (generation : Z)
    (rep : reply) (w' : world) : Prop :=
  forall subj ws g, rep = RepCapability (Ok (subj, ws, g)) -> ws = workspace /\ g = generation /\ SubTenant subj = tenant /\
    exists c, parseAndVerify m token = Ok c /\ Kind c = kindSession /\
      (Subject c, Tenant c, Roles c) = (SubID subj, tenant, SubRoles subj) /\ Workspace c = workspace /\ Generation c = generation /\
      principalSPIFFEID tenant workspace generation (SubID subj) = Ok (SPIFFEID c) /\
      exists w1, w ⊑w w1 /\ w1 ⊑w w' /\ I w1 /\ rev (wv w1) tenant (SubID subj) = Revision c.

Lemma scoped_stable I w token tenant workspace generation : stable (scoped I w token tenant workspace generation).
Proof.
  intros rep w1 w2 Hw Ha subj ws g Hr. destruct (Ha subj ws g Hr) as (? & ? & ? & c & ? & ? & ? & ? & ? & ? & x & ? & ? & ?).
  split_and!; try done. exists c. split_and!; try done. exists x. split_and!; [done|by etrans|apply H12..].
Qed.

Lemma VerifySession_wp I w token tenant workspace generation :
  wp m free I anything w (program m (RVerifySession token tenant workspace generation))
    (scoped I w token tenant workspace generation).
Proof.
  apply wp_bind. do 3 apply wp_bind_ok. apply wp_verify; [done|done|done|].
  intros c w1 H1 Hp [(wf & _ & _ & _ & Hf) _ (w3 & H3 & H3' & HI3 & Hr)].
  unfold fresh_claims in Hf. rewrite !andb_true_iff in Hf. destruct Hf as ((((((Hk & _) & _) & _) & _) & _) & _).
  apply str_eqb_eq in Hk. destruct (principalSPIFFEID _ _ _ _) as [x|] eqn:Es; [|done].
  destruct (SPIFFEID c <>s x) eqn:Ex; [done|]. apply negb_false_iff, str_eqb_eq in Ex. cbn.
  destruct (_ || _) eqn:E; [done|]. rewrite !orb_false_iff, !negb_false_iff in E. destruct E as [[E1 E2] E3].
  apply str_eqb_eq in E1, E2. apply Z.eqb_eq in E3. cbn. intros subj ws g [= <- <- <-]. cbn. subst.
  split_and!; try done. exists c. split_and!; try done. by exists w3.
Qed.

(** C17: a session capability opens one door.  When a node's broker is told that
    a capability is good for a workspace and generation of a tenant, the
    deployment signed it as a session capability for that tenant, workspace,
    generation and principal, its SPIFFE identity names exactly this scope and
    no other, and at some instant during the call the principal was at the
    revision the capability carries. *)
Theorem session_capability_is_scoped s s1 s2 i token tenant workspace generation subj ws g :
  reachable m s -> spawns m s i (RVerifySession token tenant workspace generation) s1 -> rtc step s1 s2 ->
  threads s2 !! i = Some (Ret (RepCapability (Ok (subj, ws, g)))) ->
  ws = workspace /\ g = generation /\ SubTenant subj = tenant /\
  exists c, c ∈ signed s /\ Kind c = kindSession /\
    (Subject c, Tenant c, Roles c, Workspace c, Generation c) = (SubID subj, tenant, SubRoles subj, workspace, generation) /\
    (forall t' ws' g' p', 0 <= g' -> principalSPIFFEID t' ws' g' p' = Ok (SPIFFEID c) ->
       (t', ws', g', p') = (tenant, workspace, generation, SubID subj)) /\
    exists sx, rtc step s1 sx /\ rtc step sx s2 /\ rev (view (st sx)) tenant (SubID subj) = Revision c.
Proof.
  intros Hr Hi Hs1 Hrep. apply (reachable_system m Hm) in Hr as Hok.
  assert (Ha : scoped (between m s1 s2) (world_of s) token tenant workspace generation
    (RepCapability (Ok (subj, ws, g))) (world_of s2)).
  { eapply (answered m Hm (between m s1 s2)); [exact Hok|apply scoped_stable|exact Hi|by apply during_between|exact Hrep|].
    apply VerifySession_wp. }
  destruct (Ha subj ws g eq_refl) as (-> & -> & Ht & c & Hp & Hk & He & Hw & Hg & Hsp & w1 & _ & _ & (sx & H1 & H2 & ->) & Hrev).
  destruct Hi as (_ & _ & Hgen & _). apply Forall_cons_1 in Hgen as [Hgen _].
  assert (Hin : c ∈ signed s).
  { apply (genuine_parse m (signed s) token c Hm Hgen); [|done]. eapply Forall_impl; [apply (sys_signed _ _ Hok)|]. by intros x [? _]. }
  pose proof (sys_signed _ _ Hok) as Hsg. rewrite Forall_forall in Hsg. destruct (Hsg c Hin) as (Hck & _ & _).
  split_and!; try done. injection He as He1 He2 He3. exists c. split_and!; [done|done|congruence| |by exists sx].
  intros t' ws' g' p' Hg' Hsp'. pose proof (ok_generation _ _ Hck) as Hgr. rewrite Hg in Hgr.
  by destruct (spiffe_scope t' ws' g' p' tenant workspace generation (SubID subj) (SPIFFEID c)) as (-> & -> & -> & ->); [lia|lia|..].
Qed.
End capabilities.

(** ** Two more places where the code falls short *)

Section shortfalls.
Context `{Platform} {L : PlatformLaws} (m : Manager) (Hm : manager_ok m).
Context (e : env) (ids : Claims -> string) (Hids : forall c, valid_id (ids c)).

(** The configuration accepts a lifetime that is not a whole number of seconds,
    but claims are rounded down to seconds: a token issued late enough in its
    second lives one second longer than [verify] allows, and is never accepted. *)
Theorem fractional_lifetime_is_refused t t' kind subject tenant roles n :
  let ttl := maxTTL m kind in
  0 <= t < 2 ^ 62 -> second <= ttl <= 90 * 24 * hour -> second <= t mod second + ttl mod second ->
  fresh_claims m t' kind (minted m ids t kind ttl subject tenant roles n) = false.
Proof.
  intros ttl Ht Hl Hf. unfold fresh_claims, lifetime. cbn. fold ttl.
  assert (Hu : Unix (t + ttl) - Unix t = ttl / second + 1).
  { unfold Unix. pose proof (Z.div_mod t second ltac:(done)) as H1. pose proof (Z.div_mod ttl second ltac:(done)) as H2.
    pose proof (Z.mod_pos_bound t second ltac:(done)). pose proof (Z.mod_pos_bound ttl second ltac:(done)).
    assert ((t + ttl) / second = t / second + ttl / second + 1); [|lia].
    symmetry. apply (Z.div_unique _ _ _ (t mod second + ttl mod second - second)); lia. }
  rewrite Hu. assert (0 <= ttl / second <= 90 * 24 * 3600).
  { unfold hour, minute, second in *. split; [apply Z.div_pos; lia|apply Z.div_le_upper_bound; lia]. }
  rewrite i64_small by (unfold is_i64; lia). rewrite (proj2 (Z.leb_gt (ttl / second + 1) (ttl / second))) by lia.
  rewrite !andb_false_r. done.
Qed.

Notation step := (step m (S := MemoryStore)).

(** [IssueTokens] for a principal it does not find, up to where it creates it;
    what is left of it when another created the principal meanwhile. *)
Lemma advance_issue t subject tenant rs (st0 : MemoryStore) sg :
  normal_roles rs -> RoleNode ∉ rs -> validPrincipal subject tenant = true ->
  principals st0 !! key tenant subject = None -> headroom (memory_view st0) ->
  exists rest,
    (advance m e ids t 2 (program m (RIssueTokens subject tenant rs)) st0 sg = (rest, st0, sg) /\
     steady_for m e ids t 2 (program m (RIssueTokens subject tenant rs)) st0) /\
    forall (st1 : MemoryStore) sg1 p, principals st1 !! key tenant subject = Some p -> headroom (memory_view st1) ->
      let n := revision_of st1 (key tenant subject) in
      let access := minted m ids t kindAccess (accessTTL m) subject tenant rs n in
      let refresh := minted m ids t kindRefresh (refreshTTL m) subject tenant rs n in
      advance m e ids t 7 rest st1 sg1 =
        (Ret (RepTokens (Ok (sign m access, sign m refresh))), st1, refresh :: access :: sg1) /\
      steady_for m e ids t 7 rest st1.
Proof.
  intros Hn Hnode Hv Hp Hh. cbn [program]. unfold IssueTokens. rewrite normalizeRoles_fixed, Hv by done.
  rewrite (proj2 (hasRole_false rs RoleNode)) by done. eexists. split.
  - cbn. unfold Memory_GetPrincipal. rewrite Hp. cbn. split; [reflexivity|done].
  - intros st1 sg1 p Hp1 Hh1. cbn. unfold Memory_CreatePrincipal. cbn. rewrite Hp1. cbn.
    unfold Memory_GetPrincipal. rewrite Hp1. cbn. by split_and!.
Qed.

(** A principal that is created with other roles between the two reads of
    [ensurePrincipalRoles]: the error it returns is then nil, and tokens are
    signed for roles the directory does not assign. *)
Theorem racing_issue_signs_unassigned_roles (s : system MemoryStore) subject tenant rs rs' actor i j :
  reachable m s -> headroom (memory_view (st s)) -> normal_roles rs -> normal_roles rs' -> rs <> rs' ->
  RoleNode ∉ rs -> RoleNode ∉ rs' -> validPrincipal subject tenant = true -> validText actor 256 = true ->
  principals (st s) !! key tenant subject = None ->
  threads s !! i = None -> threads s !! j = None -> i <> j ->
  exists sr s0 s1 s2 created access refresh, spawns m s i (RIssueTokens subject tenant rs) sr /\ rtc step sr s0 /\
    serves m s0 j (RCreatePrincipal tenant subject rs' actor) (RepPrincipal (Ok created)) s1 /\ rtc step s1 s2 /\
    threads s2 !! i = Some (Ret (RepTokens (Ok (sign m access, refresh)))) /\ Roles access = rs /\
    dir (memory_view (st s2)) tenant subject = Some rs'.
Proof.
  intros Hr Hh Hn Hn' Hne Hnode Hnode' Hv Ha Hp Hi Hj Hij.
  destruct (advance_issue (now s) subject tenant rs (st s) (signed s) Hn Hnode Hv Hp Hh) as (rest & [Hadv Hste] & Hrest).
  destruct (advance_steps m e ids (now s) 2 _ _ i (set_thread i (program m (RIssueTokens subject tenant rs)) s) _ _
    Hids eq_refl (lookup_insert_eq _ _ _) Hadv Hste) as (s0 & Hs0 & Hst0 & Hsg0 & Hn0 & Hth0).
  assert (Hs0' : rtc step s s0).
  { eapply rtc_l; [|exact Hs0]. split; [exact Hh|]. by apply (s_request m s i (RIssueTokens subject tenant rs)). }
  unfold set_thread in Hth0. cbn [threads] in Hth0. rewrite insert_insert_eq in Hth0.
  set (p := new_principal tenant subject rs' (now s)).
  set (st1 := set_principals (<[key tenant subject := p]> (principals (st s))) (principalRevisions (st s))
    (events (st s) ++ [mkEvent EvIdentityPrincipalCreated EmptyString subject tenant EmptyString 0 actor rs']) (st s)).
  assert (Hcr : runs_to m e ids (now s0) (CreatePrincipal_ tenant subject rs' actor) (st s0) (signed s0) (Ok p) st1 (signed s0)).
  { rewrite Hst0, Hn0. unfold runs_to, CreatePrincipal_. rewrite normalizeRoles_fixed, Hv, Ha by done.
    rewrite (bool_decide_false (RoleNode ∈ rs')) by done. cbn. unfold Memory_CreatePrincipal. cbn. rewrite Hp. cbn. done. }
  destruct (run_thread m e ids Hids _ RepPrincipal j (RCreatePrincipal tenant subject rs' actor) s0 _ _ _
    ltac:(by rewrite Hth0, lookup_insert_ne) I ltac:(done) eq_refl Hcr) as (s1 & Hsv1 & Hs1 & Hst1 & Hsg1 & Hn1 & Hth1).
  destruct (Hrest (st s1) (signed s1) p) as [Hadv2 Hste2]; [by rewrite Hst1; cbn; rewrite lookup_insert_eq|by rewrite Hst1|].
  destruct (advance_steps m e ids (now s) 7 rest _ i s1 _ _ Hids ltac:(by rewrite Hn1)
    ltac:(by rewrite Hth1, lookup_insert_ne, Hth0, lookup_insert_eq by done) Hadv2 Hste2) as (s2 & Hs2 & Hst2 & _ & _ & Hth2).
  eexists (set_thread i (program m (RIssueTokens subject tenant rs)) s), s0, s1, s2, p, _, _.
  split_and!; [by split_and!|done|done|done|by rewrite Hth2, lookup_insert_eq|done|].
  rewrite Hst2, Hst1. cbn. by rewrite lookup_insert_eq.
Qed.
End shortfalls.

(** ** A deployment to try the theorems on *)

Fixpoint bits (p : positive) : list Z := match p with xI q => 1 :: bits q | xO q => 0 :: bits q | xH => [2] end.

Fixpoint of_bits (l : list Z) : option positive :=
  match l with
  | [] => None
  | b :: t => if b =? 2 then Some xH else q ← of_bits t; Some (if b =? 1 then xI q else xO q)
  end.

Lemma of_bits_bits p : of_bits (bits p) = Some p.
Proof. induction p as [p IH|p IH|]; cbn; [by rewrite IH..|done]. Qed.

Lemma bits_bytes p : bytes_ok (bits p).
Proof. unfold bytes_ok. induction p; cbn; constructor; try done; constructor. Qed.

Lemma bits_nonempty p : bits p <> [].
Proof. by destruct p. Qed.

Definition ex_fields (c : Claims) : list positive :=
  [encode (ID c); encode (Subject c); encode (Tenant c); encode (Roles c); encode (Kind c); encode (Audience c);
   encode (Revision c); encode (SPIFFEID c); encode (Workspace c); encode (Generation c); encode (IssuedAt c); encode (Expires c)].

Definition ex_claims (l : list positive) : option Claims :=
  match l with
  | [id; su; te; ro; ki; au; re; sp; wo; ge; iat; exp] =>
      id ← decode id; su ← decode su; te ← decode te; ro ← decode ro; ki ← decode ki; au ← decode au;
      re ← decode re; sp ← decode sp; wo ← decode wo; ge ← decode ge; iat ← decode iat; exp ← decode exp;
      Some (mkClaims id su te ro ki au re sp wo ge iat exp)
  | _ => None
  end.

Definition ex_platform : Platform := {|
  marshal_header h := bits (encode (Algorithm h, Type_ h, Issuer h));
  unmarshal_header l := p ← of_bits l; x ← decode p; let '(a, t, i) := x : string * string * string in Some (mkHeader a t i);
  marshal_claims c := bits (encode (ex_fields c));
  unmarshal_claims l := p ← of_bits l; x ← decode p; ex_claims x;
  ed25519_sign msg := map (fun b => b mod 256) (take 64 (msg ++ replicate 64 0));
  ed25519_verify msg sg := bool_decide (sg = map (fun b => b mod 256) (take 64 (msg ++ replicate 64 0)));
  unicode_lower s := s; unicode_trim s := s |}.
#[local] Existing Instance ex_platform.

Lemma ex_platform_laws : PlatformLaws.
Proof.
  split; cbn.
  - intros [a t i] _ _ _. cbn. rewrite of_bits_bits. cbn. by rewrite decode_encode.
  - intros c _ _. rewrite of_bits_bits. cbn. rewrite decode_encode. cbn. rewrite !decode_encode. by destruct c.
  - intros h. apply bits_nonempty.
  - intros c. apply bits_nonempty.
  - intros h. apply bits_bytes.
  - intros c. apply bits_bytes.
  - intros msg. apply Forall_fmap, Forall_true. intros x. cbn. pose proof (Z.mod_pos_bound x 256 ltac:(lia)). lia.
  - intros msg. rewrite length_map, length_take, length_app. cbn [length]. lia.
  - intros msg. by apply bool_decide_eq_true.
Qed.
#[local] Existing Instance ex_platform_laws.

Definition ex_manager : Manager :=
  match New true (mkManager EmptyString EmptyString 0 0 0 0 0 0) with Ok m => m | Err _ => mkManager EmptyString EmptyString 0 0 0 0 0 0 end.

Lemma ex_manager_ok : manager_ok ex_manager.
Proof. exists (mkManager EmptyString EmptyString 0 0 0 0 0 0). by vm_compute. Qed.

Notation ex_system := (system MemoryStore).

Definition ex_env : env := mkEnv 0 false [] [].

(** One step of a thread, or the arrival of a request, or of time. *)
Inductive action := AReq (i : nat) (r : request) | AStep (i : nat) (id : string) (raw : list Z) | ATick (t : Z).

Definition ex_headroom (s : ex_system) : bool :=
  bool_decide (map_Forall (fun _ n => 0 <= n < MaxInt64) (principalRevisions (st s))).

Definition ex_known (s : ex_system) (token : list Z) : bool :=
  existsb (fun c => bool_decide (token = sign ex_manager c)) (signed s).

Definition ex_request_ok (r : request) : bool :=
  match r with RIssueSession _ _ _ _ generation _ => (0 <=? generation) && (generation <? 2 ^ 64) | _ => true end.

Definition act (s : ex_system) (a : action) : option ex_system :=
  if negb (ex_headroom s) then None
  else match a with
  | ATick t => if (now s <=? t) && (t <? 2 ^ 62) then Some (mkSystem (st s) t (signed s) (stored s) (used s) (threads s)) else None
  | AReq i r =>
      match threads s !! i with
      | Some _ => None
      | None => if ex_request_ok r && forallb (ex_known s) (presented r)
                then Some (set_thread i (program ex_manager r) s) else None
      end
  | AStep i id raw =>
      match threads s !! i with
      | Some (Ask c k) =>
          let '(x, st') := store_do ex_env c (st s) in
          Some (mkSystem st' (now s) (signed s) (stored s ++ option_list (stores c x)) (used s ++ option_list (uses c x))
                  (<[i := k x]> (threads s)))
      | Some (Clock k) => Some (set_thread i (k (now s)) s)
      | Some (Sign c k) =>
          if validText id 128 then
            Some (mkSystem (st s) (now s) (c id :: signed s) (stored s) (used s)
                    (<[i := k (sign ex_manager (c id))]> (threads s)))
          else None
      | Some (Emit k) => Some (set_thread i (k true) s)
      | Some (Random k) => Some (set_thread i (k (Some raw) id) s)
      | _ => None
      end
  end.

Lemma ex_headroom_ok s : ex_headroom s = true -> headroom (memory_view (st s)).
Proof.
  intros Hh%bool_decide_eq_true t u. cbn. unfold revision_of. destruct (principalRevisions (st s) !! key t u) as [n|] eqn:E; cbn.
  - by apply (Hh _ _ E).
  - done.
Qed.

Lemma id_act_step s a s' : act s a = Some s' -> step ex_manager s s'.
Proof.
  unfold act. destruct (ex_headroom s) eqn:Eh; [|done]. cbn [negb]. intros Ha. split; [by apply ex_headroom_ok|].
  destruct a as [i r|i id raw|t].
  - destruct (threads s !! i) eqn:Ei; [done|]. destruct (_ && _) eqn:E; [|done]. injection Ha as <-.
    apply andb_true_iff in E as [E1 E2]. apply s_request; [done|destruct r; cbn in *; bool_hyp; by try lia|].
    apply Forall_forall. intros token Ht. rewrite forallb_forall in E2. specialize (E2 token ltac:(by apply list_elem_of_In)).
    apply existsb_exists in E2 as (c & Hc & ->%bool_decide_eq_true). apply genuine_sign. by apply list_elem_of_In.
  - destruct (threads s !! i) as [p|] eqn:Ei; [|done]. destruct p as [x|C c k|k|c k|k|k]; try done.
    + destruct (store_do ex_env c (st s)) as [x st'] eqn:Ed. injection Ha as <-. by apply (s_ask ex_manager s i C c k ex_env x st').
    + injection Ha as <-. by apply s_clock.
    + destruct (validText id 128) eqn:Ev; [|done]. injection Ha as <-. by apply s_sign.
    + injection Ha as <-. by apply s_emit.
    + injection Ha as <-. by apply s_random.
  - destruct (_ && _) eqn:E; [|done]. injection Ha as <-. bool_hyp. apply s_tick. lia.
Qed.

Definition isSome {A} (x : option A) : bool := match x with Some _ => true | None => false end.

Fixpoint acts (s : ex_system) (l : list action) : option ex_system :=
  match l with [] => Some s | a :: l => s ← act s a; acts s l end.

Definition ran (s : ex_system) (l : list action) : ex_system := default s (acts s l).

Lemma ran_steps s l : isSome (acts s l) = true -> rtc (step ex_manager) s (ran s l).
Proof.
  unfold ran. revert s. induction l as [|a l IH]; cbn; intros s Hs; [constructor|].
  destruct (act s a) as [s1|] eqn:Ea; [|done]. cbn in *. eapply rtc_l; [by eapply id_act_step|].
  specialize (IH s1 Hs). destruct (acts s1 l); [exact IH|done].
Qed.

Definition ex_start : ex_system := mkSystem NewMemoryStore (1000 * second) [] [] [] ∅.

Lemma id_reachable l : isSome (acts ex_start l) = true -> reachable ex_manager (ran ex_start l).
Proof. intros Hl. exists ex_start. split; [by split_and!|by apply ran_steps]. Qed.

Lemma reachable_after s s' : reachable ex_manager s -> rtc (step ex_manager) s s' -> reachable (S := MemoryStore) ex_manager s'.
Proof. intros (s0 & Hi & Hr) Hs. exists s0. split; [done|by etrans]. Qed.

(** [n] steps of thread [i]; the tokens it signs are named after the thread. *)
Definition go (i n : nat) : list action :=
  map (fun k => AStep i ("tok_" +:+ pretty (N.of_nat i) +:+ "_" +:+ pretty (N.of_nat k))%string (replicate 32 7)) (seq 0 n).

(** Ann signs in. *)
Definition ex_login : list action := AReq 0 (RIssueTokens "ann" "acme" [RoleOperator]) :: go 0 8.
Definition ex_in : ex_system := ran ex_start ex_login.
Definition ex_access : Claims := nth 1 (signed ex_in) (mkClaims "" "" "" [] "" "" 0 "" "" 0 0 0).
Definition ex_refresh : Claims := nth 0 (signed ex_in) (mkClaims "" "" "" [] "" "" 0 "" "" 0 0 0).

(** ** The theorems at work *)

(** Thread [i] has just received [r]. *)
Definition asked (s : ex_system) (i : nat) (r : request) : ex_system := set_thread i (program ex_manager r) s.

Definition absent (s : ex_system) (i : nat) : bool := negb (isSome (threads s !! i)).

Lemma absent_ok s i : absent s i = true -> threads s !! i = None.
Proof. unfold absent. by destruct (threads s !! i). Qed.

Lemma member_ok (c : Claims) (l : list Claims) : bool_decide (c ∈ l) = true -> c ∈ l.
Proof. apply bool_decide_eq_true. Qed.

Lemma known_genuine s token : ex_known s token = true -> genuine ex_manager (signed s) token.
Proof. intros (c & Hc & ->%bool_decide_eq_true)%existsb_exists. apply genuine_sign. by apply list_elem_of_In. Qed.

Lemma ex_spawns s i r : absent s i && forallb (ex_known s) (presented r) = true -> request_ok r ->
  spawns ex_manager s i r (asked s i r).
Proof.
  intros [Ha Hk]%andb_true_iff Hr. split_and!; [by apply absent_ok|done| |done].
  apply Forall_forall. intros token Ht. apply known_genuine. rewrite forallb_forall in Hk. by apply Hk, list_elem_of_In.
Qed.

Ltac by_run :=
  lazymatch goal with
  | |- reachable _ _ => apply id_reachable
  | |- rtc _ _ _ => apply ran_steps
  | |- spawns _ _ _ _ _ => apply ex_spawns; [|exact I]
  | |- threads _ !! _ = None => apply absent_ok
  | |- headroom _ => apply ex_headroom_ok
  | |- genuine _ _ _ => apply known_genuine
  | |- _ ∈ _ => apply member_ok
  | _ => idtac
  end;
  vm_compute; first [reflexivity | split; reflexivity | intros ?; discriminate].

(** Ann's access token is revoked, then presented. *)
Definition ex_revoked : ex_system := ran (asked ex_in 1 (RRevoke (sign ex_manager ex_access))) (go 1 1).
Definition ex_refused : ex_system := ran (asked ex_revoked 2 (RAuthenticate (sign ex_manager ex_access) true)) (go 2 3).

Lemma spent_token_is_refused_witness :
  threads ex_refused !! 2%nat = Some (Ret (RepSubject (Err EUnauthorized))) /\ grants (RepSubject (Err EUnauthorized)) = false.
Proof.
  split; [by_run|].
  apply (spent_token_is_refused ex_manager ex_manager_ok (S := MemoryStore) ex_in
    (asked ex_in 1 (RRevoke (sign ex_manager ex_access))) ex_revoked 1 (RRevoke (sign ex_manager ex_access)) (RepDone (Ok tt))
    (sign ex_manager ex_access) ex_access 2 (RAuthenticate (sign ex_manager ex_access) true)
    (asked ex_revoked 2 (RAuthenticate (sign ex_manager ex_access) true)) ex_refused); by_run.
Defined.

(** Ann's sessions are revoked, then her access token is presented. *)
Definition ex_locked : ex_system := ran (asked ex_in 1 (RRevokePrincipal "acme" "ann")) (go 1 2).
Definition ex_out : ex_system := ran (asked ex_locked 2 (RAuthenticate (sign ex_manager ex_access) true)) (go 2 4).

Lemma revoked_principal_is_locked_out_witness :
  threads ex_out !! 2%nat = Some (Ret (RepSubject (Err EUnauthorized))) /\ grants (RepSubject (Err EUnauthorized)) = false.
Proof.
  split; [by_run|].
  apply (revoked_principal_is_locked_out ex_manager ex_manager_ok (S := MemoryStore) ex_in
    (asked ex_in 1 (RRevokePrincipal "acme" "ann")) ex_locked 1 (RRevokePrincipal "acme" "ann") 1
    (sign ex_manager ex_access) ex_access 2 (RAuthenticate (sign ex_manager ex_access) true)
    (asked ex_locked 2 (RAuthenticate (sign ex_manager ex_access) true)) ex_out); by_run.
Defined.

(** Ann presents her access token. *)
Definition ex_served : ex_system := ran (asked ex_in 1 (RAuthenticate (sign ex_manager ex_access) true)) (go 1 5).

Lemma authenticated_subject_is_current_witness :
  threads ex_served !! 1%nat = Some (Ret (RepSubject (Ok (mkSubject "ann" "acme" [RoleOperator])))) /\
  exists c, c ∈ signed ex_in /\ Kind c = kindAccess.
Proof.
  split; [by_run|].
  destruct (authenticated_subject_is_current ex_manager ex_manager_ok (S := MemoryStore) ex_in
    (asked ex_in 1 (RAuthenticate (sign ex_manager ex_access) true)) ex_served 1 (sign ex_manager ex_access) true
    (mkSubject "ann" "acme" [RoleOperator])) as (c & Hc & Hk & _); [by_run..|].
  exists c. split; assumption.
Defined.

(** A node joins on an enrollment. *)
Definition ex_enrollment : list Z := enroll_prefix ++ b64_encode (replicate 32 7).
Definition ex_enrolling : ex_system := ran ex_in (AReq 1 (RIssueEnrollment "gpu" "acme" None minute) :: go 1 3).
Definition ex_hello : request := RAuthenticateNode "n_1" ex_enrollment (replicate 32 1).
Definition ex_joined : ex_system := ran (asked ex_enrolling 2 ex_hello) (go 2 5).
Definition ex_node : NodeIdentity :=
  match threads ex_joined !! 2%nat with
  | Some (Ret (RepNode (Ok ni))) => ni
  | _ => mkNodeIdentity "" "" None false []
  end.

Lemma node_is_what_its_enrollment_grants_witness :
  Fresh ex_node = true /\ NIPool ex_node = "gpu"%string /\
  bnd (memory_view (st ex_joined)) "n_1" = Some (mkBound (replicate 32 1) "gpu" "acme" (NILabels ex_node)) /\
  (occurrences (hash_token ex_enrollment) (map fst (used ex_joined)) <= occurrences (hash_token ex_enrollment) (stored ex_joined))%nat.
Proof.
  split; [by_run|]. split; [by_run|].
  destruct (node_is_what_its_enrollment_grants ex_manager ex_manager_ok (S := MemoryStore) ex_enrolling
    (asked ex_enrolling 2 ex_hello) ex_joined ex_joined 2 "n_1" ex_enrollment (replicate 32 1) ex_node) as (Hb & _ & Ho).
  - apply (reachable_after ex_in); [by_run|]. by_run.
  - by_run.
  - by_run.
  - by_run.
  - constructor.
  - split; [|apply Ho]. assert (Hp : NIPool ex_node = "gpu"%string) by by_run. assert (Ht : NITenant ex_node = "acme"%string) by by_run.
    rewrite Hp, Ht in Hb. exact Hb.
Defined.

(** Ann exchanges her refresh token, and the clock passes its expiry. *)
Definition ex_rotated : ex_system :=
  ran ex_in (AReq 1 (RRotateRefresh (sign ex_manager ex_refresh)) :: go 1 11 ++ [ATick (of_unix (Expires ex_refresh) + 5 * second)]).

Definition ex_ids (_ : Claims) : string := "tok_x".

Lemma ex_ids_ok c : valid_id (ex_ids c).
Proof. by vm_compute. Qed.

Definition ex_principal : Principal := mkPrincipal "ann" "acme" [RoleOperator] 0 1000000 1000000.

Lemma spent_refresh_token_revives_witness :
  exists s1 s2 pair1 pair2, serves ex_manager ex_rotated 2 (RRotateRefresh (sign ex_manager ex_refresh)) (RepTokens (Ok pair1)) s1 /\
    serves ex_manager s1 3 (RRotateRefresh (sign ex_manager ex_refresh)) (RepTokens (Ok pair2)) s2.
Proof.
  apply (spent_refresh_token_revives ex_manager ex_manager_ok ex_env ex_ids ex_ids_ok ex_rotated (sign ex_manager ex_refresh) ex_refresh
    ex_principal 2 3).
  1: apply (reachable_after ex_in); by_run.
  all: by_run.
Defined.

(** Ann's sessions are revoked while she exchanges her refresh token. *)
Lemma rotation_outruns_revocation_witness :
  let a := minted ex_manager ex_ids (1000 * second) kindAccess (accessTTL ex_manager) "ann" "acme" [RoleOperator] 1 in
  exists sr s0 s1 s2 s3 refresh,
    spawns ex_manager ex_in 1 (RRotateRefresh (sign ex_manager ex_refresh)) sr /\ rtc (step ex_manager) sr s0 /\
    serves ex_manager s0 2 (RRevokePrincipal "acme" "ann") (RepRevision (Ok 1)) s1 /\ rtc (step ex_manager) s1 s2 /\
    threads s2 !! 1%nat = Some (Ret (RepTokens (Ok (sign ex_manager a, refresh)))) /\
    serves ex_manager s2 3 (RAuthenticate (sign ex_manager a) true) (RepSubject (Ok (mkSubject "ann" "acme" [RoleOperator]))) s3.
Proof.
  assert (Hdiv : (second | accessTTL ex_manager)) by (exists 3600; reflexivity).
  assert (Hc : ex_refresh = mkClaims "tok_0_6" "ann" "acme" [RoleOperator] kindRefresh "remount" 0 "" "" 0 1000 2593000) by by_run.
  apply (rotation_outruns_revocation ex_manager ex_manager_ok ex_env ex_ids ex_ids_ok ex_in (sign ex_manager ex_refresh)
    (mkClaims "tok_0_6" "ann" "acme" [RoleOperator] kindRefresh "remount" 0 "" "" 0 1000 2593000) ex_principal 1 2 3);
    [by_run|by_run|by_run|by_run|by_run|by_run|by_run|by_run|by_run|by_run|by_run|by_run|exact Hdiv|vm_compute; split; intros ?; discriminate|by_run..].
Defined.

(** Ann asks for another pair. *)
Lemma issued_token_authenticates_witness :
  let a := minted ex_manager ex_ids (1000 * second) kindAccess (accessTTL ex_manager) "ann" "acme" [RoleOperator] 0 in
  exists s1 s2 refresh,
    serves ex_manager ex_in 1 (RIssueTokens "ann" "acme" [RoleOperator]) (RepTokens (Ok (sign ex_manager a, refresh))) s1 /\
    serves ex_manager s1 2 (RAuthenticate (sign ex_manager a) true) (RepSubject (Ok (mkSubject "ann" "acme" [RoleOperator]))) s2.
Proof.
  assert (Hdiv : (second | accessTTL ex_manager)) by (exists 3600; reflexivity).
  apply (issued_token_authenticates ex_manager ex_manager_ok ex_env ex_ids ex_ids_ok ex_in "ann" "acme" [RoleOperator] ex_principal 1 2);
    [by_run|by_run|exact (normalizeRoles_normal [RoleOperator] _ eq_refl)|by_run| |by_run|by_run|exact Hdiv
    |vm_compute; split; intros ?; discriminate|by_run..].
  intros Hin. by apply list_elem_of_singleton in Hin.
Defined.

(** Ann's capability for a workspace is verified by the node that runs it. *)
Definition ex_granted : ex_system := ran ex_in (AReq 1 (RIssueSession "ann" "acme" [RoleOperator] "ws_1" 3 0) :: go 1 3).
Definition ex_capability : list Z := sign ex_manager (nth 0 (signed ex_granted) ex_access).
Definition ex_checked : ex_system := ran (asked ex_granted 2 (RVerifySession ex_capability "acme" "ws_1" 3)) (go 2 4).

Lemma session_capability_is_scoped_witness :
  threads ex_checked !! 2%nat = Some (Ret (RepCapability (Ok (mkSubject "ann" "acme" [RoleOperator], "ws_1"%string, 3)))) /\
  exists c, c ∈ signed ex_granted /\ Kind c = kindSession /\ Workspace c = "ws_1"%string /\ Generation c = 3.
Proof.
  split; [by_run|].
  destruct (session_capability_is_scoped ex_manager ex_manager_ok (S := MemoryStore) ex_granted
    (asked ex_granted 2 (RVerifySession ex_capability "acme" "ws_1" 3)) ex_checked 2 ex_capability "acme" "ws_1" 3
    (mkSubject "ann" "acme" [RoleOperator]) "ws_1" 3) as (_ & _ & _ & c & Hc & Hk & Hx & _).
  - apply (reachable_after ex_in); by_run.
  - by_run.
  - by_run.
  - by_run.
  - exists c. injection Hx as _ _ _ Hw Hg. split; [exact Hc|]. split; [exact Hk|]. split; [exact Hw|exact Hg].
Defined.
End IdentityTheorems.
